(* ===== verification/_CoqProject ===== *)
-Q . S2P
Prelude.v
Text.v
Message.v
Uuid.v
Router.v
Guards.v
Execution.v
Communication.v
Dispatch.v
Reaper.v
Reminders.v
Control.v
ProviderLimits.v
Receipts.v
Sql.v
Idempotency.v
AgentLinks.v
Guidance.v
Deliveries.v
SendRuns.v
SpawnCommands.v
ExecutionStore.v
ThreadStore.v
ThreadRuns.v
Threads.v
HumanThreads.v
WakeCalendar.v
WakeStore.v
WakeDelivery.v
WakeTick.v
WakeRuns.v
WakeExamples.v
HumanInbox.v
InboxRuns.v
MobileDevices.v
MobileRuns.v
MobileQuestions.v
Json.v
UserInputs.v
InputRuns.v
NativeInputs.v
PhoneInputs.v
