(* ===== verification/Prelude.v ===== *)
(** * Bridget: a verification development

    Bridget is a daemon that carries messages between coding agents (Claude,
    Codex, Gemini, shells, humans) which run on the same machine or on several.
    The crate [bridget-core] holds the pure rules (messages, routing, guards
    against loops, executions), [bridget-transport] the wire protocol and the
    files, and [bridget-daemon] the daemon, the wrapper around each agent and
    the services.  An agent's send enters the daemon, goes through one gate
    (dormancy, reply, project, circuit breaker, duplicates, quarantine, hops,
    do-not-disturb, routing), is delivered to the wrapper of its target, which
    keeps a receipt so that it injects the prompt once, and, when it asks for an
    answer, is followed by reminders until it is answered or expires.  A control
    plane pauses the autonomous work, provider limits hold launches back, and a
    reaper reports what was abandoned.  Around the sends the daemon keeps tables:
    idempotent commands, durable deliveries, links between agents, executions,
    threads of discussion, wake schedules, an inbox for the human and the phones
    that may answer it.

    ** Files

    - [Prelude]: [Result] and its monad, the combinators of [Option], integers
      of a width, lists.  [Text]: the operations of [str] on UTF-8 bytes,
      [core/text_guards.rs] and [core/host.rs].
    - [Message]: [core/message.rs] and the texts of [core/envelope.rs]: the
      message, its hops, the bytes of its content key.
    - [Uuid]: the interface of the [uuid] crate (classes [UuidLib], [UuidLaws])
      with an instance on which examples run.
    - [Router]: [core/router.rs]; state [Router], operations [register],
      [unregister_by_conn], [resolve].
    - [Guards]: modules [Dedup] ([core/dedup.rs]), [Breaker]
      ([core/circuit_breaker.rs]) and [Quarantine] (the [EnvelopeGuard] of
      [core/envelope.rs]); each clock reading is an argument.
    - [Execution]: [core/execution.rs]; [transition] is a compare-and-set on a
      state and a revision.
    - [Communication]: [daemon/communication.rs]; project scopes and the
      canonical bytes that tell a replay from a new request.
    - [Dispatch]: [prepare_dispatch] of [daemon/daemon.rs] and the marks of its
      commit, over the router, the guards and the tables of the daemon.
    - [Reminders]: the reply tracking of [daemon.rs] ([collect_reminder_actions])
      and the request rows of [store/ledger_requests.rs].
    - [Control]: [referent_control.rs]; the control state, its journal, the
      admission of autonomous effects and the frozen time.
    - [ProviderLimits]: [provider_limits.rs]; the limits announced and the
      routing decision that reads them.
    - [Reaper]: [reaper.rs]; classification, report, text, parsing of [ps].
    - [Receipts]: [receipt_store.rs] over a disk of atomic writes
      ([fsutil.rs]); an operation emits its effects in order, so an
      interruption is a prefix of them.
    - [Sql]: a table as the list of its rows, with select, update and delete.
    - [Idempotency]: [idempotency.rs]; the records of commands, with the
      statements of a reservation as separate steps that interleave.
    - [AgentLinks]: [idempotency/agent_links.rs]; the links between a parent and
      its children and their journal.  [Guidance]: the guard of the guided actions and its
      journal ([guidance.rs] and the handlers of [daemon.rs]).
    - [Deliveries], [SendRuns]: the durable sends of
      [idempotency/send_delivery.rs] (held,
      dispatching, acknowledged, indeterminate, orphaned), the queue of an agent
      and its edits, the correction of a held message ([replace] of
      [daemon/mobile_queue.rs]), the closing of the records of the wakes of the
      command line by the tick of [daemon.rs], and the runs of all the writers
      of these tables.
    - [SpawnCommands]: the orders of spawn of [idempotency/spawn_commands.rs]
      and their two tables.
    - [ExecutionStore]: [execution_store.rs]; submissions, queue, executions,
      pauses, control commands, continuations.
    - [ThreadStore], [ThreadRuns]: [store/threads.rs] and the solicitations of
      [daemon.rs]; [Threads]: the rules of [threads.rs] over a directory
      (a class); [HumanThreads]: the views of a human.
    - [WakeCalendar], [WakeStore], [WakeDelivery], [WakeTick], [WakeRuns],
      [WakeExamples]: [wake_schedules.rs], [store/wake_schedules.rs] and the
      requests, departures and ticks of [daemon.rs]; the locks of the daemon are
      separate steps.
    - [HumanInbox], [InboxRuns]: [human_inbox.rs], its external channel and the
      handlers of [daemon.rs].
    - [MobileDevices], [MobileRuns]: [mobile/store.rs], the authorisations of
      the phones.  [MobileQuestions]: [daemon/mobile_questions.rs], over the
      inbox and the authorisations.
    - [Json] (the values of serde_json), [UserInputs], [InputRuns]:
      [user_input.rs] and the requests of [daemon/user_input.rs], the forms that
      the agents put to their user.  [NativeInputs]: the forms of the providers
      and the way back of their answers.  [PhoneInputs]: the forms on a phone,
      the rest of [daemon/mobile_questions.rs].

    A file named [Runs] holds the step function of its component, the runs of
    any sequence of operations, the invariant by induction on them and the
    theorems about what a run can show.

    ** What the theorems show

    - The gate: [prepare_dispatch] accepts only what every rule allows, and
      along any sequence of sends the breaker, the quarantine and the
      deduplicator bound what goes out ([Dispatch]); each guard agrees with an
      unpruned reference ([Guards]).
    - Delivery: a delivery is injected at most once, through crashes, purges,
      reopenings and any damage but the two losses that leave no trace of it (a
      receipt that vanishes under a readable sentinel, the directory together
      with its enrollment); a damaged store answers that it does not know
      ([Receipts]).  The tables of the durable sends agree after any run, a
      delivery keeps its identity, its envelope (up to a body corrected while it
      is held) and its final phase, one in flight can be concluded, and an edit
      of the queue is a move in a list that does not fail ([SendRuns],
      [Deliveries]).  The exception to the agreement and to the conclusion is
      stated: a wake of the command line whose record the tick closed while its
      delivery was in flight.
    - Commands: interleaved reservations are atomic, but for the error of a call
      whose record was purged under it, and a key is granted once between two
      purges ([Idempotency]); the tables of the orders of spawn
      agree ([SpawnCommands]); a submission is given once and the queue is
      served in order ([ExecutionStore]).
    - Follow-up: a sender is told of an expiration once, exactly when the wait
      is over, and reminders are due ([Reminders]).
    - Control: commands apply once on the generation they expect, the pause
      holds all autonomous effects, and frozen time is exact ([Control]);
      guided actions come from a parent, an attached human or a verified phone
      and their rate is bounded ([Guidance]); links and their journal agree ([AgentLinks]).
    - Threads: numbers without a hole, alerts sent once, pages complete, and
      nothing told to those who are no member ([ThreadRuns], [Threads],
      [HumanThreads]).
    - Wakes: the calendar is exact, an occurrence is frozen only once the clock
      has reached its date, occurrences go forward, a wake leaves once
      and its post is written once, requests and rows are bounded ([WakeCalendar]
      to [WakeRuns]).
    - The human: a decision is taken once and kept, deposits are counted,
      reminders are spaced ([InboxRuns]); a revoked phone stays out, a pairing
      is used once, devices are bounded ([MobileRuns]); a phone reads every
      question that can be shown once, answers it once, and decides only with a right that was
      granted ([MobileQuestions]).
    - Forms: answers are accepted exactly when they fit their questions, once,
      and from who may answer; the tables are bounded ([InputRuns]); an answer
      comes back to the callback that asked for it and every answer leaves in
      turn ([NativeInputs]); a phone reads the forms of the agents that it may
      see and answers with a right granted for them ([PhoneInputs]).
    - Executions: revision and clock never go back, two writers exclude each
      other, terminal states are final and reachable ([Execution]).
    - Identity of requests: the canonical bytes of a send determine it up to its
      displayed names and its relative reply timeout, and the bytes hashed for a
      content determine the content ([Communication], [Message]).
    - Limits: the memory is bounded, remembers what is recent, and a refusal
      blocks until it is over ([ProviderLimits]).
    - The reaper finds eligible exactly what is abandoned, only after two
      photographs, and reads back what it writes ([Reaper]).

    ** Conventions

    An integer of a width is a [Z] with the bounds written out; instants are in
    nanoseconds.  A [HashMap] is a [gmap]; where the code iterates over one, the
    order is an argument.  A table of the database is the map or the list of its
    rows, and a transaction that fails changes nothing; rows that a query does
    not order come in the order of the table.  Third-party code is an argument
    with its laws as hypotheses: the [uuid] crate, the hasher and SHA-256, the
    JSON encodings (one class of codec per component), the civil calendar, the
    answers of the operating system; the examples give an instance of each.

    Most functions are structural.  Fuel is used where the code walks links or
    loops until nothing is left, with a bound that is proved enough: the
    lineage of an execution takes one more step than there are continuations
    ([ExecutionStore]); reading a thread or a list of threads, and the pages of
    a phone, take one more page than there are unread entries, threads or open
    items; the room made for a schedule takes as many steps as the table has
    rows ([WakeStore]); the walk to the ancestors of a task stops at eight tasks
    as the code does ([WakeDelivery]); three digits write the nine bits of a
    mode in octal ([HumanInbox]).

    ** Not modelled

    The terminal client, the MCP facade, the HTTP services, the transports to
    the agents and the wrapper process are input and output around the parts
    above; git workspaces, remote hosts, permissions and proofs of origin are
    system calls and cryptography.  The schemas of the databases and their
    migrations are not modelled: a table starts empty in its last version.  The
    store of the delegations appears only as the answers that the wakes and the
    questions read from it.  The observation of the daemon (with the summaries
    of missed wakes), the managers, the artifacts, the decision service, the
    desired state and the lifecycle of the managed sessions are not modelled;
    nor is the wait of an agent for the answer to its form, a loop around the
    request that is.  Of the edits that a phone makes on the queue, the
    correction of a message is modelled and the checks of the handler before it
    are not; of the rows that the removal of a held message closes, the reason
    and the date of the closing and the record of its life cycle are left
    out. *)

From stdpp Require Export base gmap strings list sorting numbers pretty.
From stdpp Require Export options.

Declare Scope bridget_scope.
Delimit Scope bridget_scope with bridget.

(** Lemmas that close the routine side conditions of the components. *)
Create HintDb bridget discriminated.

(** ** Fallible code: [Result<A, E>] and the [?] operator *)

Inductive result (E A : Type) : Type :=
  | Ok (a : A)
  | Err (e : E).
Arguments Ok {E A} a.
Arguments Err {E A} e.

#[export] Instance result_ret E : MRet (result E) := λ A, Ok.
#[export] Instance result_bind E : MBind (result E) := λ A B f r,
  match r with Ok a => f a | Err e => Err e end.
#[export] Instance result_eq_dec `{EqDecision E, EqDecision A} : EqDecision (result E A).
Proof. solve_decision. Defined.

(** [if !b { return Err(e) }]. *)
Definition ensure {E} (b : bool) (e : E) : result E () := if b then Ok () else Err e.

(** [Option::ok_or]. *)
Definition ok_or {E A} (o : option A) (e : E) : result E A :=
  match o with Some a => Ok a | None => Err e end.

(** [Result::ok]. *)
Definition ok {E A} (r : result E A) : option A :=
  match r with Ok a => Some a | Err _ => None end.

Definition is_ok {E A} (r : result E A) : bool :=
  match r with Ok _ => true | Err _ => false end.

(** [Result::map_err]. *)
Definition map_err {E F A} (f : E → F) (r : result E A) : result F A :=
  match r with Ok a => Ok a | Err e => Err (f e) end.

Lemma bind_Ok {E A B} (r : result E A) (f : A → result E B) b :
  r ≫= f = Ok b ↔ ∃ a, r = Ok a ∧ f a = Ok b.
Proof. destruct r; simpl; naive_solver. Qed.

Lemma bind_Err {E A B} (r : result E A) (f : A → result E B) e :
  r ≫= f = Err e ↔ r = Err e ∨ ∃ a, r = Ok a ∧ f a = Err e.
Proof. destruct r; simpl; naive_solver. Qed.

Lemma ensure_Ok {E} (b : bool) (e : E) u : ensure b e = Ok u ↔ b = true.
Proof. destruct b, u; simpl; naive_solver. Qed.

Lemma ensure_Err {E} (b : bool) (e e' : E) : ensure b e = Err e' ↔ b = false ∧ e' = e.
Proof. destruct b; simpl; naive_solver. Qed.

Lemma ok_or_Ok {E A} (o : option A) (e : E) a : ok_or o e = Ok a ↔ o = Some a.
Proof. destruct o; simpl; naive_solver. Qed.

(** ** [Option] combinators of the Rust standard library *)

(** [Option::is_some_and]. *)
Definition is_some_and {A} (o : option A) (p : A → bool) : bool :=
  match o with Some a => p a | None => false end.

(** [Option::is_none_or]. *)
Definition is_none_or {A} (o : option A) (p : A → bool) : bool :=
  match o with Some a => p a | None => true end.

(** [Option::filter]. *)
Definition opt_filter {A} (p : A → bool) (o : option A) : option A :=
  match o with Some a => if p a then Some a else None | None => None end.

(** [Option::or]. *)
Definition opt_or {A} (o1 o2 : option A) : option A :=
  match o1 with Some a => Some a | None => o2 end.

(** [bool::then_some]. *)
Definition then_some {A} (b : bool) (a : A) : option A := if b then Some a else None.

Definition is_some {A} (o : option A) : bool := match o with Some _ => true | None => false end.

(** [Ord::max] on [Option<i64>], where [None] is the least element. *)
Definition opt_max (o1 o2 : option Z) : option Z :=
  match o1, o2 with
  | Some a, Some b => Some (Z.max a b)
  | Some a, None => Some a
  | None, o => o
  end.

Lemma is_some_and_true {A} (o : option A) p :
  is_some_and o p = true ↔ ∃ a, o = Some a ∧ p a = true.
Proof. destruct o; simpl; naive_solver. Qed.

Lemma is_none_or_true {A} (o : option A) p :
  is_none_or o p = true ↔ ∀ a, o = Some a → p a = true.
Proof. destruct o; simpl; naive_solver. Qed.

Lemma opt_filter_Some {A} (p : A → bool) (o : option A) a :
  opt_filter p o = Some a ↔ o = Some a ∧ p a = true.
Proof. destruct o as [b|]; simpl; [destruct (p b) eqn:Hb|]; split; naive_solver congruence. Qed.

Lemma then_some_Some {A} (b : bool) (a a' : A) : then_some b a = Some a' ↔ b = true ∧ a' = a.
Proof. destruct b; simpl; naive_solver. Qed.

(** ** Machine integers

    An integer of width [w] is a [Z]; the operations write out what the Rust
    operation of the same name does at the bounds of the type. *)

Local Open Scope Z_scope.

Definition u8_max : Z := 2 ^ 8 - 1.
Definition u16_max : Z := 2 ^ 16 - 1.
Definition u32_max : Z := 2 ^ 32 - 1.
Definition u64_max : Z := 2 ^ 64 - 1.
Definition i32_min : Z := - 2 ^ 31.
Definition i32_max : Z := 2 ^ 31 - 1.
Definition i64_min : Z := - 2 ^ 63.
Definition i64_max : Z := 2 ^ 63 - 1.

Definition in_i64 (z : Z) : bool := (i64_min <=? z) && (z <=? i64_max).
Definition in_u64 (z : Z) : bool := (0 <=? z) && (z <=? u64_max).

Definition i64_checked (z : Z) : option Z := if in_i64 z then Some z else None.
Definition u64_checked (z : Z) : option Z := if in_u64 z then Some z else None.
Definition i64_saturate (z : Z) : Z := Z.max i64_min (Z.min i64_max z).

Definition i64_checked_add (a b : Z) : option Z := i64_checked (a + b).
Definition i64_checked_sub (a b : Z) : option Z := i64_checked (a - b).
Definition i64_checked_mul (a b : Z) : option Z := i64_checked (a * b).
Definition i64_saturating_add (a b : Z) : Z := i64_saturate (a + b).
Definition i64_saturating_sub (a b : Z) : Z := i64_saturate (a - b).
Definition i64_saturating_mul (a b : Z) : Z := i64_saturate (a * b).
Definition u64_checked_add (a b : Z) : option Z := u64_checked (a + b).
Definition u64_checked_sub (a b : Z) : option Z := u64_checked (a - b).
Definition u64_saturating_add (a b : Z) : Z := Z.min u64_max (a + b).
Definition u64_saturating_sub (a b : Z) : Z := Z.max 0 (a - b).
(** Wrap-around of unchecked arithmetic in a release build. *)
Definition wrap_u64 (z : Z) : Z := z mod 2 ^ 64.
Definition wrap_i64 (z : Z) : Z := (z + 2 ^ 63) mod 2 ^ 64 - 2 ^ 63.
Definition wrap_i32 (z : Z) : Z := (z + 2 ^ 31) mod 2 ^ 32 - 2 ^ 31.

(** The numerals of the bounds, for [lia]. *)
Ltac unfold_ints :=
  unfold i64_saturating_add, i64_saturating_sub, i64_saturating_mul,
    i64_checked_add, i64_checked_sub, i64_checked_mul,
    u64_checked_add, u64_checked_sub, u64_saturating_add, u64_saturating_sub,
    i64_checked, u64_checked, i64_saturate, in_i64, in_u64, wrap_u64, wrap_i64, wrap_i32,
    u8_max, u16_max, u32_max, u64_max, i32_min, i32_max, i64_min, i64_max in *;
  change (2 ^ 8) with 256 in *; change (2 ^ 16) with 65536 in *;
  change (2 ^ 31) with 2147483648 in *; change (2 ^ 32) with 4294967296 in *;
  change (2 ^ 63) with 9223372036854775808 in *;
  change (2 ^ 64) with 18446744073709551616 in *.

Lemma in_i64_spec z : in_i64 z = true ↔ i64_min ≤ z ≤ i64_max.
Proof. unfold in_i64. rewrite andb_true_iff, !Z.leb_le. lia. Qed.

Lemma in_u64_spec z : in_u64 z = true ↔ 0 ≤ z ≤ u64_max.
Proof. unfold in_u64. rewrite andb_true_iff, !Z.leb_le. lia. Qed.

Lemma i64_checked_Some z z' : i64_checked z = Some z' ↔ z' = z ∧ i64_min ≤ z ≤ i64_max.
Proof.
  unfold i64_checked. destruct (in_i64 z) eqn:E.
  - apply in_i64_spec in E. naive_solver.
  - split; [done|]. intros [_ H%in_i64_spec]. congruence.
Qed.

Lemma u64_checked_Some z z' : u64_checked z = Some z' ↔ z' = z ∧ 0 ≤ z ≤ u64_max.
Proof.
  unfold u64_checked. destruct (in_u64 z) eqn:E.
  - apply in_u64_spec in E. naive_solver.
  - split; [done|]. intros [_ H%in_u64_spec]. congruence.
Qed.

Lemma i64_saturate_id z : i64_min ≤ z ≤ i64_max → i64_saturate z = z.
Proof. unfold i64_saturate. lia. Qed.

Lemma i64_saturate_le z n : 0 ≤ n < i64_max → i64_saturate z ≤ n ↔ z ≤ n.
Proof. unfold_ints. lia. Qed.

Lemma i64_saturate_mono z z' : z ≤ z' → i64_saturate z ≤ i64_saturate z'.
Proof. unfold i64_saturate. lia. Qed.

Lemma wrap_i32_id z : i32_min ≤ z ≤ i32_max → wrap_i32 z = z.
Proof. unfold_ints. intros. rewrite Z.mod_small; lia. Qed.

Lemma wrap_u64_id z : 0 ≤ z ≤ u64_max → wrap_u64 z = z.
Proof. unfold_ints. intros. rewrite Z.mod_small; lia. Qed.

(** ** Lists

    [Iterator::filter(..).count()], [sort_by] (a stable sort), [min_by_key]
    (the first minimum) and [max_by_key] (the last maximum). *)

Definition count_if {A} (p : A → bool) (l : list A) : nat := length (List.filter p l).

(** A conditional [push]. *)
Definition when {A} (b : bool) (l : list A) : list A := if b then l else [].

Fixpoint insert_by {A} (leb : A → A → bool) (x : A) (l : list A) : list A :=
  match l with
  | [] => [x]
  | y :: l' => if leb x y then x :: y :: l' else y :: insert_by leb x l'
  end.

Definition sort_by {A} (leb : A → A → bool) (l : list A) : list A :=
  foldr (insert_by leb) [] l.

(** [Iterator::min_by]: a later element replaces the current one only when it
    is strictly smaller. *)
Definition min_by {A} (ltb : A → A → bool) (l : list A) : option A :=
  match l with
  | [] => None
  | x :: l' => Some (foldl (λ m y, if ltb y m then y else m) x l')
  end.

(** [Iterator::max_by_key]: a later element replaces the current one when it
    is at least as large. *)
Definition max_by_key {A} (key : A → Z) (l : list A) : option A :=
  match l with
  | [] => None
  | x :: l' => Some (foldl (λ m y, if key m <=? key y then y else m) x l')
  end.

(** [Iterator::position]. *)
Fixpoint position {A} (p : A → bool) (l : list A) : option nat :=
  match l with
  | [] => None
  | x :: l' => if p x then Some O else S <$> position p l'
  end.

(** [Iterator::find]. *)
Definition find_first {A} (p : A → bool) (l : list A) : option A := List.find p l.

Lemma count_if_app {A} (p : A → bool) l1 l2 :
  count_if p (l1 ++ l2) = (count_if p l1 + count_if p l2)%nat.
Proof. unfold count_if. by rewrite List.filter_app, length_app. Qed.

Lemma count_if_cons {A} (p : A → bool) x l :
  count_if p (x :: l) = ((if p x then 1 else 0) + count_if p l)%nat.
Proof. unfold count_if. simpl. by destruct (p x). Qed.

Lemma count_if_le {A} (p q : A → bool) l :
  (∀ x, x ∈ l → p x = true → q x = true) → (count_if p l ≤ count_if q l)%nat.
Proof.
  induction l as [|x l IH]; intros Hpq; [done|].
  rewrite !count_if_cons.
  assert (count_if p l ≤ count_if q l)%nat by (apply IH; set_solver).
  destruct (p x) eqn:Hp; [rewrite (Hpq x) by set_solver|destruct (q x)]; lia.
Qed.

Lemma count_if_ext {A} (p q : A → bool) l :
  (∀ x, x ∈ l → p x = q x) → count_if p l = count_if q l.
Proof.
  intros H. apply Nat.le_antisymm; apply count_if_le; intros x Hx; by rewrite H.
Qed.

Lemma count_if_0 {A} (p : A → bool) l : (∀ x, x ∈ l → p x = false) → count_if p l = 0%nat.
Proof.
  induction l as [|x l IH]; intros H; [done|].
  rewrite count_if_cons, IH, H by set_solver. done.
Qed.

Lemma count_if_filter {A} (p q : A → bool) l :
  (∀ x, x ∈ l → p x = true → q x = true) →
  count_if p (List.filter q l) = count_if p l.
Proof.
  induction l as [|x l IH]; intros H; [done|]. simpl.
  destruct (q x) eqn:Hq; rewrite ?count_if_cons, IH by set_solver; [done|].
  destruct (p x) eqn:Hp; [|done]. rewrite H in Hq by set_solver. done.
Qed.

Lemma count_if_perm {A} (p : A → bool) l l' : l ≡ₚ l' → count_if p l = count_if p l'.
Proof. induction 1; rewrite ?count_if_cons; lia. Qed.

Lemma count_if_length {A} (p : A → bool) l : (count_if p l ≤ length l)%nat.
Proof. induction l as [|x l IH]; [done|]. rewrite count_if_cons. simpl. destruct (p x); lia. Qed.

Lemma insert_by_perm {A} (leb : A → A → bool) x l : insert_by leb x l ≡ₚ x :: l.
Proof.
  induction l as [|y l IH]; [done|]. simpl. destruct (leb x y); [done|].
  rewrite IH. apply Permutation_swap.
Qed.

Lemma sort_by_perm {A} (leb : A → A → bool) l : sort_by leb l ≡ₚ l.
Proof. induction l as [|x l IH]; [done|]. simpl. by rewrite insert_by_perm, IH. Qed.

Lemma insert_by_sorted {A} (leb : A → A → bool) x l :
  (∀ a b, leb a b = false → leb b a = true) →
  Sorted (λ a b, leb a b = true) l → Sorted (λ a b, leb a b = true) (insert_by leb x l).
Proof.
  intros Htot Hl. induction Hl as [|y l Hl IH Hhd]; simpl; [by repeat constructor|].
  destruct (leb x y) eqn:Hxy; [by repeat constructor|].
  constructor; [done|]. destruct l as [|z l]; simpl in *.
  - constructor. by apply Htot.
  - inversion Hhd; subst. destruct (leb x z); constructor; auto.
Qed.

Lemma sort_by_sorted {A} (leb : A → A → bool) l :
  (∀ a b, leb a b = false → leb b a = true) → Sorted (λ a b, leb a b = true) (sort_by leb l).
Proof. intros Htot. induction l as [|x l IH]; simpl; [constructor|]. by apply insert_by_sorted. Qed.

(** The first element of a sort is a least one. *)
Lemma sort_by_head {A} (leb : A → A → bool) l x :
  (∀ a b, leb a b = false → leb b a = true) → (∀ a b c, leb a b = true → leb b c = true → leb a c = true) →
  head (sort_by leb l) = Some x → x ∈ l ∧ ∀ y, y ∈ l → leb x y = true.
Proof.
  intros Htot Htr Hx. pose proof (sort_by_sorted leb l Htot) as Hs. pose proof (sort_by_perm leb l) as Hp.
  destruct (sort_by leb l) as [|z r]; [done|]. injection Hx as ->. apply Sorted_StronglySorted in Hs; [|intros a b c; apply Htr].
  apply StronglySorted_inv in Hs as [_ Hs]. rewrite Forall_forall in Hs. setoid_rewrite <-Hp. split; [left|].
  intros y [->|Hy]%elem_of_cons; [|by apply Hs]. destruct (leb x x) eqn:E; [done|]. by rewrite (Htot x x E) in E.
Qed.

(** A sort is the only sorted list of its elements, when no two are equal for the order. *)
Lemma sort_by_unique {A} (leb : A → A → bool) l l' :
  (∀ a b, leb a b = false → leb b a = true) → (∀ a b c, leb a b = true → leb b c = true → leb a c = true) →
  (∀ a b, a ∈ l' → b ∈ l' → leb a b = true → leb b a = true → a = b) →
  l ≡ₚ l' → Sorted (λ a b, leb a b = true) l' → sort_by leb l = l'.
Proof.
  intros Htot Htr Hanti Hp Hs. assert (Transitive (λ a b, leb a b = true)) by (intros a b c; apply Htr).
  apply (Sorted_unique_strong (λ a b, leb a b = true)); [|by apply sort_by_sorted|done|by rewrite sort_by_perm].
  intros a b Ha. rewrite sort_by_perm, Hp in Ha. by apply Hanti.
Qed.

(** The order of strings is total. *)
Lemma string_leb_total a b : String.leb a b = false → String.leb b a = true.
Proof. intros H. destruct (String.leb_total a b); [congruence|done]. Qed.
Lemma string_leb_trans a b c : String.leb a b = true → String.leb b c = true → String.leb a c = true.
Proof.
  intros H1%Is_true_true H2%Is_true_true. apply Is_true_true. change (String.le a c). etransitivity; [exact H1|exact H2].
Qed.

Lemma string_ltb_leb a b : String.ltb a b = negb (String.leb b a).
Proof. unfold String.ltb, String.leb. rewrite (String.compare_antisym b a). by destruct (String.compare a b). Qed.

(** The order of rows by date, then by identifier. *)
Definition stamp_leb (a b : Z * string) : bool := ((a.1 <? b.1) || ((a.1 =? b.1) && String.leb a.2 b.2))%Z.
Lemma stamp_leb_true a b : stamp_leb a b = true ↔ (a.1 < b.1)%Z ∨ a.1 = b.1 ∧ String.leb a.2 b.2 = true.
Proof. unfold stamp_leb. by rewrite orb_true_iff, andb_true_iff, Z.ltb_lt, Z.eqb_eq. Qed.
Lemma stamp_total a b : stamp_leb a b = false → stamp_leb b a = true.
Proof.
  rewrite <-not_true_iff_false, !stamp_leb_true. intros H. destruct (Z.lt_total a.1 b.1) as [?|[E|?]]; [naive_solver| |naive_solver].
  right. split; [done|]. apply string_leb_total, not_true_iff_false. naive_solver.
Qed.
Lemma stamp_trans a b c : stamp_leb a b = true → stamp_leb b c = true → stamp_leb a c = true.
Proof. rewrite !stamp_leb_true. intros [H1|[H1 H1']] [H2|[H2 H2']]; try (left; lia). right. split; [lia|by eapply string_leb_trans]. Qed.
Lemma stamp_antisym a b : stamp_leb a b = true → stamp_leb b a = true → a = b.
Proof.
  rewrite !stamp_leb_true. intros [H1|[H1 H1']] [H2|[H2 H2']]; try lia. destruct a, b; cbn in *. f_equal; [done|by apply String.leb_antisym].
Qed.

Lemma min_by_elem {A} (ltb : A → A → bool) l m : min_by ltb l = Some m → m ∈ l.
Proof.
  destruct l as [|x l]; simpl; [done|]. intros [= <-].
  assert (∀ l acc, foldl (λ m y, if ltb y m then y else m) acc l = acc ∨
    foldl (λ m y, if ltb y m then y else m) acc l ∈ l) as H; [|destruct (H l x) as [->|?]; set_solver].
  clear. intros l. induction l as [|y l IH]; intros acc; simpl; [by left|].
  destruct (IH (if ltb y acc then y else acc)) as [->|?]; [destruct (ltb y acc)|]; set_solver.
Qed.

(** The minimum is a lower bound when the order is a strict weak one. *)
Lemma min_by_least {A} (ltb : A → A → bool) l m :
  (∀ a, ltb a a = false) →
  (∀ a b c, ltb b a = false → ltb c b = false → ltb c a = false) →
  (∀ a b, ltb a b = true → ltb b a = false) →
  min_by ltb l = Some m → ∀ x, x ∈ l → ltb x m = false.
Proof.
  intros Hirr Htr Has. destruct l as [|x l]; simpl; [done|]. intros [= <-].
  assert (∀ l acc, (∀ y, y ∈ l → ltb y (foldl (λ m y, if ltb y m then y else m) acc l) = false) ∧
    ltb acc (foldl (λ m y, if ltb y m then y else m) acc l) = false) as H.
  { clear -Hirr Htr Has. intros l. induction l as [|z l IH]; intros acc; simpl; [set_solver|].
    destruct (IH (if ltb z acc then z else acc)) as [IH1 IH2]. split.
    - intros y [->|?]%elem_of_cons; [|by apply IH1]. destruct (ltb z acc) eqn:E; [done|]. eauto.
    - destruct (ltb z acc) eqn:E; [|done]. eauto. }
  destruct (H l x). intros y [->|?]%elem_of_cons; auto.
Qed.

(** The least element for a measure that the comparison respects. *)
Lemma min_by_measure {A} (ltb : A → A → bool) (f : A → Z) l m :
  (∀ a b, ltb a b = true → (f a ≤ f b)%Z) → (∀ a b, ltb a b = false → (f b ≤ f a)%Z) →
  min_by ltb l = Some m → ∀ x, x ∈ l → (f m ≤ f x)%Z.
Proof.
  intros Ht Hf. destruct l as [|x l]; simpl; [done|]. intros [= <-].
  assert (∀ l acc, (f (foldl (λ m y, if ltb y m then y else m) acc l) ≤ f acc)%Z ∧
    ∀ y, y ∈ l → (f (foldl (λ m y, if ltb y m then y else m) acc l) ≤ f y)%Z) as H.
  { clear -Ht Hf. intros l. induction l as [|z l IH]; intros acc; simpl; [by split; [lia|intros y ?%elem_of_nil]|].
    destruct (IH (if ltb z acc then z else acc)) as [IH1 IH2].
    assert (f (if ltb z acc then z else acc) ≤ f acc ∧ f (if ltb z acc then z else acc) ≤ f z)%Z as [? ?]
      by (destruct (ltb z acc) eqn:E; [apply Ht in E|apply Hf in E]; lia).
    split; [lia|]. intros y [->|?]%elem_of_cons; [lia|by apply IH2]. }
  destruct (H l x) as [H1 H2]. intros y [->|?]%elem_of_cons; auto.
Qed.

Lemma min_by_is_Some {A} (ltb : A → A → bool) l : l ≠ [] → is_Some (min_by ltb l).
Proof. destruct l; [done|]. simpl. eauto. Qed.

Lemma max_by_key_Some {A} (key : A → Z) l m : max_by_key key l = Some m → m ∈ l ∧ ∀ x, x ∈ l → (key x <= key m)%Z.
Proof.
  destruct l as [|x l]; simpl; [done|]. intros [= <-]. revert x. induction l as [|y l IH]; intros x; simpl.
  - split; [left|]. intros z Hz. apply list_elem_of_singleton in Hz. subst. lia.
  - destruct (IH (if (key x <=? key y)%Z then y else x)) as [H1 H2]. destruct (Z.leb_spec (key x) (key y)); (split; [set_solver|]);
      intros z Hz; apply elem_of_cons in Hz as [->|Hz];
      [transitivity (key y); [lia|apply H2; left]|apply H2; set_solver|apply H2; left|].
    apply elem_of_cons in Hz as [->|Hz]; [|apply H2; by right]. transitivity (key x); [lia|apply H2; left].
Qed.

Lemma find_first_Some {A} (p : A → bool) l a :
  find_first p l = Some a → a ∈ l ∧ p a = true.
Proof. intros [H1 H2]%List.find_some. by rewrite <-list_elem_of_In in H1. Qed.

Lemma find_first_None {A} (p : A → bool) l a :
  find_first p l = None → a ∈ l → p a = false.
Proof. intros H1 H2%list_elem_of_In. by apply (List.find_none p l). Qed.

Lemma existsb_elem {A} (p : A → bool) l : existsb p l = true ↔ ∃ x, x ∈ l ∧ p x = true.
Proof. rewrite List.existsb_exists. by setoid_rewrite list_elem_of_In. Qed.

Lemma forallb_elem {A} (p : A → bool) l : forallb p l = true ↔ ∀ x, x ∈ l → p x = true.
Proof. rewrite List.forallb_forall. by setoid_rewrite list_elem_of_In. Qed.

Lemma list_filter_elem {A} (p : A → bool) l x : x ∈ List.filter p l ↔ x ∈ l ∧ p x = true.
Proof. rewrite !list_elem_of_In. apply List.filter_In. Qed.
Lemma list_filter_perm {A} (p : A → bool) l l' : l ≡ₚ l' → List.filter p l ≡ₚ List.filter p l'.
Proof.
  induction 1 as [|x l l' _ IH|x y l|l1 l2 l3 _ IH1 _ IH2]; simpl; [done|..].
  - destruct (p x); [by f_equiv|done].
  - destruct (p x), (p y); try done. constructor.
  - by etrans.
Qed.
Lemma list_filter_nil {A} (p : A → bool) l : (∀ x, x ∈ l → p x = false) → List.filter p l = [].
Proof. induction l as [|x l IH]; simpl; [done|]. intros H. rewrite (H x) by left. apply IH. intros y Hy. apply H. by right. Qed.
Lemma list_filter_all {A} (p : A → bool) l : (∀ x, x ∈ l → p x = true) → List.filter p l = l.
Proof. induction l as [|x l IH]; simpl; [done|]. intros H. rewrite (H x) by left. f_equal. apply IH. intros y Hy. apply H. by right. Qed.

(** ** Texts of concrete codecs: the bits of a number *)

Fixpoint bits (p : positive) : string :=
  match p with
  | xH => ""
  | xO p => String Ascii.zero (bits p)
  | xI p => String Ascii.one (bits p)
  end.
Fixpoint of_bits (s : string) : positive :=
  match s with
  | EmptyString => xH
  | String c s => if Ascii.eqb c Ascii.one then xI (of_bits s) else xO (of_bits s)
  end.
Lemma of_bits_bits p : of_bits (bits p) = p.
Proof. induction p; simpl; by rewrite ?IHp. Qed.
