(* ===== verification/Text.v ===== *)
(** * Text: the [str] operations the program uses, and its rendering guards

    A Rust [String] is its UTF-8 bytes, so it is a [string] here: [len] is
    [String.length], the order of [str] is the order of the bytes, and
    concatenation is [+:+].  The operations that work on characters ([trim],
    [split_whitespace], [chars]) read the UTF-8 encoding.  The second half is
    [bridget-core/src/text_guards.rs] and the predicate of
    [bridget-core/src/host.rs]. *)

From S2P Require Import Prelude.
From Stdlib Require Import Ascii.
Local Open Scope Z_scope.

Definition byte (c : ascii) : Z := Z.of_N (N_of_ascii c).

Module Str.

(** Number of bytes of the [White_Space] character a text starts with, 0 when
    it starts with something else. *)
Definition ws_width (s : string) : nat :=
  match s with
  | EmptyString => O
  | String a s1 =>
    let a := byte a in
    if ((9 <=? a) && (a <=? 13)) || (a =? 32) then 1%nat else
    match s1 with
    | EmptyString => O
    | String b s2 =>
      let b := byte b in
      if (a =? 0xC2) && ((b =? 0x85) || (b =? 0xA0)) then 2%nat else
      match s2 with
      | EmptyString => O
      | String c _ =>
        let c := byte c in
        if (a =? 0xE1) && (b =? 0x9A) && (c =? 0x80) then 3%nat else
        if (a =? 0xE2) && (b =? 0x80) &&
          (((0x80 <=? c) && (c <=? 0x8A)) || (c =? 0xA8) || (c =? 0xA9) || (c =? 0xAF)) then 3%nat else
        if (a =? 0xE2) && (b =? 0x81) && (c =? 0x9F) then 3%nat else
        if (a =? 0xE3) && (b =? 0x80) && (c =? 0x80) then 3%nat else O
      end
    end
  end.

Fixpoint trim_start_go (skip : nat) (s : string) : string :=
  match s with
  | EmptyString => EmptyString
  | String c s' =>
    match skip with
    | S k => trim_start_go k s'
    | O => match ws_width s with O => s | S w => trim_start_go w s' end
    end
  end.
Definition trim_start : string → string := trim_start_go O.

Definition is_blank (s : string) : bool := bool_decide (trim_start s = "").

Fixpoint trim_end (s : string) : string :=
  if is_blank s then "" else
  match s with EmptyString => EmptyString | String c s' => String c (trim_end s') end.

Definition trim (s : string) : string := trim_end (trim_start s).

Definition token (cur : string) : list string := if bool_decide (cur = "") then [] else [cur].

Fixpoint split_ws_go (skip : nat) (cur s : string) : list string :=
  match s with
  | EmptyString => token cur
  | String c s' =>
    match skip with
    | S k => split_ws_go k cur s'
    | O =>
      match ws_width s with
      | O => split_ws_go O (cur +:+ String c "") s'
      | S w => token cur ++ split_ws_go w "" s'
      end
    end
  end.
Definition split_whitespace : string → list string := split_ws_go O "".

Fixpoint strip_prefix (p s : string) : option string :=
  match p, s with
  | EmptyString, _ => Some s
  | String a p', String b s' => if bool_decide (a = b) then strip_prefix p' s' else None
  | String _ _, EmptyString => None
  end.
Definition starts_with (p s : string) : bool := is_some (strip_prefix p s).

Fixpoint contains (p s : string) : bool :=
  starts_with p s || match s with EmptyString => false | String _ s' => contains p s' end.

(** [split_once] on a one-byte separator. *)
Fixpoint split_once (c : ascii) (s : string) : option (string * string) :=
  match s with
  | EmptyString => None
  | String a s' =>
    if bool_decide (a = c) then Some (EmptyString, s')
    else '(l, r) ← split_once c s'; Some (String a l, r)
  end.

(** [split] on a one-byte separator: the pieces, the empty ones included. *)
Fixpoint split (c : ascii) (s : string) : list string :=
  match s with
  | EmptyString => [""]
  | String a s' =>
    if bool_decide (a = c) then "" :: split c s'
    else match split c s' with [] => [String a ""] | x :: l => String a x :: l end
  end.

(** [join]. *)
Definition join (sep : string) (l : list string) : string := String.concat sep l.

(** ASCII letters without their case. *)
Definition lower (c : ascii) : ascii :=
  let b := byte c in if (65 <=? b) && (b <=? 90) then ascii_of_nat (Z.to_nat (b + 32)) else c.
Fixpoint lowercase (s : string) : string :=
  match s with EmptyString => EmptyString | String c s => String (lower c) (lowercase s) end.

Definition is_continuation (c : ascii) : bool := (0x80 <=? byte c) && (byte c <=? 0xBF).

(** [chars().count()]: the bytes that start a character. *)
Fixpoint chars_count (s : string) : nat :=
  match s with
  | EmptyString => O
  | String c s' => ((if is_continuation c then 0 else 1) + chars_count s')%nat
  end.

(** [chars().take(n).collect()]. *)
Fixpoint chars_take (n : nat) (s : string) : string :=
  match s with
  | EmptyString => EmptyString
  | String c s' =>
    if is_continuation c then String c (chars_take n s')
    else match n with O => EmptyString | S n' => String c (chars_take n' s') end
  end.

Definition digit (c : ascii) : option Z :=
  let b := byte c in if (48 <=? b) && (b <=? 57) then Some (b - 48) else None.
Definition is_ascii_digit (c : ascii) : bool := is_some (digit c).
Definition is_ascii_alphanumeric (c : ascii) : bool :=
  let b := byte c in
  ((48 <=? b) && (b <=? 57)) || ((65 <=? b) && (b <=? 90)) || ((97 <=? b) && (b <=? 122)).

Fixpoint parse_digits (max acc : Z) (s : string) : option Z :=
  match s with
  | EmptyString => Some acc
  | String c s' =>
    d ← digit c;
    let n := acc * 10 + d in
    if n <=? max then parse_digits max n s' else None
  end.

(** [str::parse] of an unsigned integer whose largest value is [max]: one
    optional [+], at least one digit, no overflow. *)
Definition parse_unsigned (max : Z) (s : string) : option Z :=
  let body := match s with String c s' => if bool_decide (c = "+"%char) then s' else s | _ => s end in
  match body with EmptyString => None | _ => parse_digits max 0 body end.
Definition parse_u64 : string → option Z := parse_unsigned u64_max.
Definition parse_u32 : string → option Z := parse_unsigned u32_max.

(** [str::parse::<i64>]: one optional sign, at least one digit, no overflow. *)
Definition parse_i64 (s : string) : option Z :=
  match s with
  | EmptyString => None
  | String c s' =>
    if bool_decide (c = "-"%char) then
      match s' with
      | EmptyString => None
      | _ => Z.opp <$> parse_digits (- i64_min) 0 s'
      end
    else parse_unsigned i64_max s
  end.

Fixpoint all_bytes (p : ascii → bool) (s : string) : bool :=
  match s with EmptyString => true | String c s' => p c && all_bytes p s' end.

(** [str::chars], as code points, of a valid UTF-8 text. *)
Fixpoint code_points (s : string) : list Z :=
  match s with
  | EmptyString => []
  | String a s1 =>
    if byte a <? 0x80 then byte a :: code_points s1
    else
      match s1 with
      | EmptyString => []
      | String b s2 =>
        if byte a <? 0xE0 then (byte a - 0xC0) * 64 + (byte b - 0x80) :: code_points s2
        else
          match s2 with
          | EmptyString => []
          | String c s3 =>
            if byte a <? 0xF0 then (byte a - 0xE0) * 4096 + (byte b - 0x80) * 64 + (byte c - 0x80) :: code_points s3
            else
              match s3 with
              | EmptyString => []
              | String d s4 =>
                (byte a - 0xF0) * 262144 + (byte b - 0x80) * 4096 + (byte c - 0x80) * 64 + (byte d - 0x80) :: code_points s4
              end
          end
      end
  end.

Definition newline : ascii := ascii_of_nat 10.
Definition carriage : ascii := ascii_of_nat 13.

(** [strip_suffix] of one byte, the text itself when it does not end with it. *)
Fixpoint strip_last (c : ascii) (s : string) : string :=
  match s with
  | EmptyString => EmptyString
  | String a EmptyString => if bool_decide (a = c) then EmptyString else s
  | String a s' => String a (strip_last c s')
  end.

(** [lines]: a line ends with a newline, or a carriage return and a newline; a
    final piece is a line only when it is not empty. *)
Fixpoint lines_of (pieces : list string) : list string :=
  match pieces with
  | [] => []
  | [last] => token last
  | l :: pieces' => strip_last carriage l :: lines_of pieces'
  end.
Definition lines (s : string) : list string := lines_of (split newline s).

(** The text before the first white space, and from it on. *)
Fixpoint break_ws (s : string) : string * string :=
  match s with
  | EmptyString => (EmptyString, EmptyString)
  | String c s' =>
    match ws_width s with
    | O => let '(l, r) := break_ws s' in (String c l, r)
    | S _ => (EmptyString, s)
    end
  end.

(** ** Lemmas *)

Lemma trim_start_nows s : ws_width s = O → trim_start s = s.
Proof. unfold trim_start. destruct s; cbn [trim_start_go]; [done|]. by intros ->. Qed.

Lemma ws_width_trim_go k s : ws_width (trim_start_go k s) = O.
Proof.
  revert k. induction s as [|c s IH]; intros k; [done|]. cbn [trim_start_go].
  destruct k as [|k]; [|apply IH]. destruct (ws_width (String c s)) eqn:E; [done|apply IH].
Qed.

Lemma trim_start_idem s : trim_start (trim_start s) = trim_start s.
Proof. apply trim_start_nows, ws_width_trim_go. Qed.

Lemma app_length s t : String.length (s +:+ t) = (String.length s + String.length t)%nat.
Proof. unfold String.app. induction s as [|c s IH]; simpl; [done|]. by f_equal. Qed.

Lemma app_nil_r s : s +:+ "" = s.
Proof. unfold String.app. induction s as [|c s IH]; simpl; [done|]. by f_equal. Qed.

Lemma app_assoc s t u : s +:+ (t +:+ u) = (s +:+ t) +:+ u.
Proof. unfold String.app. induction s as [|c s IH]; simpl; [done|]. by f_equal. Qed.

Lemma app_cons c s t : String c s +:+ t = String c (s +:+ t).
Proof. done. Qed.

Lemma app_nil_l t : "" +:+ t = t.
Proof. done. Qed.

Lemma strip_prefix_Some p s r : strip_prefix p s = Some r ↔ s = p +:+ r.
Proof.
  revert s. induction p as [|a p IH]; intros s; cbn [strip_prefix].
  - rewrite app_nil_l. naive_solver.
  - rewrite app_cons. destruct s as [|b s]; [done|]. case_bool_decide as E; subst.
    + rewrite IH. naive_solver.
    + naive_solver.
Qed.

Lemma starts_with_spec p s : starts_with p s = true ↔ ∃ r, s = p +:+ r.
Proof.
  unfold starts_with. destruct (strip_prefix p s) as [r|] eqn:E; simpl.
  - apply strip_prefix_Some in E. naive_solver.
  - split; [done|]. intros [r Hr%strip_prefix_Some]. congruence.
Qed.

Lemma contains_spec p s : contains p s = true ↔ ∃ a b, s = a +:+ p +:+ b.
Proof.
  induction s as [|c s IH]; cbn [contains]; rewrite orb_true_iff, starts_with_spec.
  - split; [intros [[r Hr]|?]; [exists "", r; by rewrite app_nil_l|done]|].
    intros ([|] & b & Hab); [left; exists b; by rewrite app_nil_l in Hab|done].
  - rewrite IH. split.
    + intros [[r Hr]|(a & b & Hab)]; [exists "", r; by rewrite app_nil_l|].
      exists (String c a), b. rewrite Hab. by rewrite !app_cons.
    + intros ([|d a] & b & Hab); [left; exists b; by rewrite app_nil_l in Hab|].
      rewrite app_cons in Hab. injection Hab as -> ->. right. eauto.
Qed.

Lemma contains_app_l p s t : contains p t = true → contains p (s +:+ t) = true.
Proof. rewrite !contains_spec. intros (a & b & ->). exists (s +:+ a), b. by rewrite !app_assoc. Qed.

Lemma contains_app_r p s t : contains p s = true → contains p (s +:+ t) = true.
Proof. rewrite !contains_spec. intros (a & b & ->). exists a, (b +:+ t). by rewrite !app_assoc. Qed.

Lemma contains_refl s : contains s s = true.
Proof. apply contains_spec. exists "", "". by rewrite app_nil_l, app_nil_r. Qed.

Lemma suffix_app s t u : (∃ x, t = x +:+ u) → ∃ x, s +:+ t = x +:+ u.
Proof. intros [x ->]. exists (s +:+ x). by rewrite app_assoc. Qed.

Lemma contains_concat p s l : s ∈ l → contains p s = true → contains p (String.concat "" l) = true.
Proof.
  intros Hs Hp. induction l as [|x l IH]; [by apply elem_of_nil in Hs|].
  assert (String.concat "" (x :: l) = x +:+ String.concat "" l) as ->
    by (destruct l; [symmetry; apply app_nil_r|done]).
  apply elem_of_cons in Hs as [<-|Hs]; [by apply contains_app_r|by apply contains_app_l, IH].
Qed.

Lemma chars_take_count n s : (chars_count (chars_take n s) ≤ n)%nat.
Proof.
  revert n. induction s as [|c s IH]; intros n; simpl; [lia|].
  destruct (is_continuation c) eqn:E; simpl; rewrite ?E; [simpl; apply IH|].
  destruct n as [|n]; simpl; [lia|]. rewrite E. specialize (IH n). lia.
Qed.

Lemma chars_take_prefix n s : ∃ r, s = chars_take n s +:+ r.
Proof.
  revert n. induction s as [|c s IH]; intros n; simpl; [by exists ""|].
  destruct (is_continuation c).
  - destruct (IH n) as [r Hr]. exists r. rewrite app_cons. by rewrite <-Hr.
  - destruct n as [|n]; [by exists (String c s)|].
    destruct (IH n) as [r Hr]. exists r. rewrite app_cons. by rewrite <-Hr.
Qed.

Lemma parse_digits_bound max acc s n : 0 ≤ acc → parse_digits max acc s = Some n → 0 ≤ n ∧ (acc ≤ max → n ≤ max).
Proof.
  revert acc. induction s as [|c s IH]; intros acc Hacc; cbn [parse_digits]; [naive_solver lia|].
  destruct (digit c) as [d|] eqn:Hd; simpl; [|done].
  assert (0 ≤ d) as Hd0.
  { unfold digit in Hd. repeat case_match; simplify_eq. rewrite andb_true_iff, !Z.leb_le in *. lia. }
  case_match eqn:Hle; [|done]. rewrite Z.leb_le in Hle. intros H.
  apply IH in H as [? ?]; lia.
Qed.

Lemma parse_unsigned_bound max s n : 0 ≤ max → parse_unsigned max s = Some n → 0 ≤ n ≤ max.
Proof.
  unfold parse_unsigned. intros Hm H.
  assert (∃ b, parse_digits max 0 b = Some n) as [b Hb] by (repeat case_match; eauto; done).
  apply parse_digits_bound in Hb; lia.
Qed.

Lemma token_nonempty cur x : x ∈ token cur → x ≠ "".
Proof. unfold token. case_bool_decide; set_solver. Qed.

Lemma split_ws_go_nonempty k cur s x : x ∈ split_ws_go k cur s → x ≠ "".
Proof.
  revert k cur. induction s as [|c s IH]; intros k cur; cbn [split_ws_go].
  - apply token_nonempty.
  - destruct k; [|apply IH]. destruct (ws_width _); [apply IH|].
    intros [?|?]%elem_of_app; [by eapply token_nonempty|by eapply IH].
Qed.

Lemma split_ws_nonempty s x : x ∈ split_whitespace s → x ≠ "".
Proof. apply split_ws_go_nonempty. Qed.

(** A text that starts with white space keeps it when it is extended. *)
Lemma ws_width_app p r w : ws_width p = S w → ws_width (p +:+ r) = S w.
Proof.
  destruct p as [|a [|b [|c p]]]; rewrite ?app_cons, ?app_nil_l; cbn [ws_width]; try done.
  - by case_match.
  - by repeat case_match.
Qed.

Lemma ws_width_bound s w : ws_width s = S w → (w < String.length s)%nat.
Proof.
  destruct s as [|a [|b [|c s]]]; cbn [ws_width String.length]; try done;
    repeat case_match; intros; simplify_eq; lia.
Qed.

Lemma trim_start_go_app k a b :
  (k ≤ String.length a)%nat → trim_start_go k a = "" →
  trim_start_go k (a +:+ b) = trim_start_go O b.
Proof.
  revert k. induction a as [|c a IH]; intros k Hk.
  - rewrite app_nil_l. assert (k = O) as -> by (simpl in Hk; lia). done.
  - rewrite app_cons. cbn [trim_start_go]. destruct k as [|k].
    + destruct (ws_width (String c a)) as [|w] eqn:E; [done|].
      rewrite <-app_cons, (ws_width_app _ b w E). intros H.
      apply IH; [|done]. apply ws_width_bound in E. simpl in E. lia.
    + simpl in Hk. intros H. apply IH; [lia|done].
Qed.

Lemma is_blank_app a b : is_blank a = true → is_blank b = true → is_blank (a +:+ b) = true.
Proof.
  unfold is_blank. rewrite !bool_decide_eq_true. unfold trim_start. intros Ha Hb.
  by rewrite trim_start_go_app; [|lia|done].
Qed.

Lemma trim_end_split s : ∃ b, s = trim_end s +:+ b ∧ is_blank b = true.
Proof.
  induction s as [|c s IH]; [by exists ""|]. cbn [trim_end].
  destruct (is_blank (String c s)) eqn:E; [by exists (String c s)|].
  destruct IH as (b & Hs & Hb). exists b. rewrite app_cons. by rewrite <-Hs.
Qed.

Lemma trim_end_blank s : is_blank s = true → trim_end s = "".
Proof. destruct s; cbn [trim_end]; [done|]. by intros ->. Qed.

Lemma trim_end_idem s : trim_end (trim_end s) = trim_end s.
Proof.
  induction s as [|c s IH]; [done|]. cbn [trim_end].
  destruct (is_blank (String c s)) eqn:E; [done|]. cbn [trim_end].
  destruct (is_blank (String c (trim_end s))) eqn:E'; [|by rewrite IH].
  destruct (trim_end_split s) as (b & Hs & Hb).
  rewrite Hs, <-app_cons, is_blank_app in E by done. done.
Qed.

Lemma trim_head s : ws_width (trim s) = O.
Proof.
  unfold trim. destruct (ws_width (trim_end (trim_start s))) as [|w] eqn:E; [done|].
  destruct (trim_end_split (trim_start s)) as (b & Hs & _).
  apply (ws_width_app _ b) in E. rewrite <-Hs in E.
  unfold trim_start in E. by rewrite ws_width_trim_go in E.
Qed.

Lemma trim_idem s : trim (trim s) = trim s.
Proof.
  pose proof (trim_head s) as Hh. unfold trim in *.
  by rewrite (trim_start_nows (trim_end _)), trim_end_idem.
Qed.

(** *** Reading back a printed number *)

Lemma digit_pretty d : (d < 10)%N → digit (pretty_N_char d) = Some (Z.of_N d).
Proof.
  intros H. assert (Forall (λ d, digit (pretty_N_char d) = Some (Z.of_N d))
    [0; 1; 2; 3; 4; 5; 6; 7; 8; 9]%N) as Hall by (repeat constructor).
  rewrite Forall_forall in Hall. apply Hall. rewrite !elem_of_cons, elem_of_nil. lia.
Qed.

Lemma parse_digits_pretty max x s :
  Z.of_N x ≤ max → parse_digits max 0 (pretty_N_go x s) = parse_digits max (Z.of_N x) s.
Proof.
  revert s. induction (N.lt_wf_0 x) as [x _ IH]; intros s Hx.
  destruct (decide (x = 0%N)) as [->|Hne]; [by rewrite pretty_N_go_0|].
  rewrite pretty_N_go_step by lia.
  pose proof (N.div_mod x 10 ltac:(done)) as Hdm. pose proof (N.mod_lt x 10 ltac:(done)) as Hlt.
  pose proof (N.div_lt x 10 ltac:(lia) ltac:(done)) as Hq.
  rewrite IH; [|done|lia]. cbn [parse_digits].
  rewrite digit_pretty by done. cbn [mbind option_bind].
  replace (Z.of_N (x `div` 10) * 10 + Z.of_N (x `mod` 10)) with (Z.of_N x) by lia.
  by rewrite (proj2 (Z.leb_le _ _)).
Qed.

Lemma pretty_N_go_head x s : (0 < x)%N → ∃ d r, (d < 10)%N ∧ pretty_N_go x s = String (pretty_N_char d) r.
Proof.
  revert s. induction (N.lt_wf_0 x) as [x _ IH]; intros s Hx. rewrite pretty_N_go_step by lia.
  pose proof (N.mod_lt x 10 ltac:(lia)).
  destruct (decide (x `div` 10 = 0)%N) as [->|Hne]; [rewrite pretty_N_go_0; eauto|].
  apply IH; [by apply N.div_lt|by apply N.neq_0_lt_0].
Qed.

Lemma digit_not_plus c d : digit c = Some d → c ≠ "+"%char.
Proof. by intros H ->. Qed.

(** [str::parse] reads back what [Display] prints. *)
Lemma parse_unsigned_pretty max n : 0 ≤ n ≤ max → parse_unsigned max (pretty n) = Some n.
Proof.
  intros Hn. destruct n as [|p|p]; [|clear -Hn|lia].
  - destruct max; [reflexivity|reflexivity|lia].
  - assert (pretty (Z.pos p) = pretty_N_go (N.pos p) "") as -> by done.
    pose proof (parse_digits_pretty max (N.pos p) "" ltac:(simpl; lia)) as Hp.
    destruct (pretty_N_go_head (N.pos p) "" ltac:(lia)) as (d & r & Hd & Hr). rewrite Hr in *.
    unfold parse_unsigned. rewrite bool_decide_eq_false_2 by (eapply digit_not_plus, digit_pretty, Hd).
    by rewrite Hp.
Qed.

(** *** Pieces around a separator *)

Definition no_byte (c : ascii) (s : string) : bool := all_bytes (λ x, negb (bool_decide (x = c))) s.

Lemma all_bytes_app p s t : all_bytes p (s +:+ t) = all_bytes p s && all_bytes p t.
Proof. induction s as [|c s IH]; [done|]. rewrite app_cons. cbn [all_bytes]. by rewrite IH, andb_assoc. Qed.

Lemma all_bytes_impl p q s : (∀ c, p c = true → q c = true) → all_bytes p s = true → all_bytes q s = true.
Proof. intros H. induction s as [|c s IH]; cbn [all_bytes]; [done|]. rewrite !andb_true_iff. naive_solver. Qed.

Lemma split_once_app c a b : no_byte c a = true → split_once c (a +:+ String c b) = Some (a, b).
Proof.
  unfold no_byte. induction a as [|x a IH]; rewrite ?app_nil_l, ?app_cons; cbn [all_bytes split_once].
  - by rewrite bool_decide_eq_true_2.
  - rewrite andb_true_iff, negb_true_iff, bool_decide_eq_false. intros [Hx Ha].
    rewrite bool_decide_eq_false_2 by done. by rewrite IH.
Qed.

Lemma split_once_none c s : no_byte c s = true → split_once c s = None.
Proof.
  unfold no_byte. induction s as [|x s IH]; cbn [all_bytes split_once]; [done|].
  rewrite andb_true_iff, negb_true_iff, bool_decide_eq_false. intros [Hx Hs].
  rewrite bool_decide_eq_false_2 by done. by rewrite IH.
Qed.

Lemma split_none c s : no_byte c s = true → split c s = [s].
Proof.
  unfold no_byte. induction s as [|x s IH]; cbn [all_bytes split]; [done|].
  rewrite andb_true_iff, negb_true_iff, bool_decide_eq_false. intros [Hx Hs].
  rewrite bool_decide_eq_false_2 by done. by rewrite IH.
Qed.

Lemma split_app c a b : no_byte c a = true → split c (a +:+ String c b) = a :: split c b.
Proof.
  unfold no_byte. induction a as [|x a IH]; rewrite ?app_nil_l, ?app_cons; cbn [all_bytes split].
  - by rewrite bool_decide_eq_true_2.
  - rewrite andb_true_iff, negb_true_iff, bool_decide_eq_false. intros [Hx Ha].
    rewrite bool_decide_eq_false_2 by done. by rewrite IH.
Qed.

(** Visible ASCII is not white space. *)
Definition visible (c : ascii) : bool := (33 <=? byte c) && (byte c <=? 126).

Lemma visible_ws c s : visible c = true → ws_width (String c s) = O.
Proof.
  unfold visible. rewrite andb_true_iff, !Z.leb_le. intros Hc. cbn [ws_width].
  rewrite (proj2 (Z.leb_gt (byte c) 13)), (proj2 (Z.eqb_neq (byte c) 32)), andb_false_r by lia. cbn [orb].
  destruct s as [|b [|d s]]; [done|..]; repeat rewrite (proj2 (Z.eqb_neq (byte c) _)) by lia; done.
Qed.

Lemma trim_visible s : all_bytes visible s = true → trim s = s.
Proof.
  intros Hs. unfold trim. assert (∀ t, all_bytes visible t = true → trim_start t = t) as Hst.
  { intros [|c t] Ht; [done|]. cbn [all_bytes] in Ht. apply andb_true_iff in Ht as [Hc _].
    by apply trim_start_nows, visible_ws. }
  rewrite Hst by done. induction s as [|c s IH]; [done|]. pose proof Hs as Hs'.
  cbn [all_bytes] in Hs. apply andb_true_iff in Hs as [Hc Hs]. cbn [trim_end].
  unfold is_blank. rewrite Hst by done. rewrite bool_decide_eq_false_2 by done. by rewrite IH.
Qed.

Lemma is_ascii_digit_pretty d : (d < 10)%N → is_ascii_digit (pretty_N_char d) = true.
Proof. intros H. unfold is_ascii_digit. by rewrite digit_pretty. Qed.

Lemma pretty_digits n : 0 ≤ n → all_bytes is_ascii_digit (pretty n) = true.
Proof.
  assert (∀ x s, all_bytes is_ascii_digit s = true → all_bytes is_ascii_digit (pretty_N_go x s) = true) as Hgo.
  { intros x. induction (N.lt_wf_0 x) as [x _ IH]; intros s Hs.
    destruct (decide (x = 0%N)) as [->|Hne]; [by rewrite pretty_N_go_0|].
    rewrite pretty_N_go_step by lia. apply IH; [apply N.div_lt; lia|]. cbn [all_bytes].
    by rewrite is_ascii_digit_pretty, Hs by (by apply N.mod_lt). }
  intros Hn. destruct n as [|p|p]; [done| |lia].
  change (pretty (Z.pos p)) with (pretty_N_go (N.pos p) ""). by apply Hgo.
Qed.

Lemma digits_no_byte c s : is_ascii_digit c = false → all_bytes is_ascii_digit s = true → no_byte c s = true.
Proof.
  intros Hc. apply all_bytes_impl. intros x Hx. rewrite negb_true_iff, bool_decide_eq_false.
  intros ->. congruence.
Qed.

Lemma digits_visible s : all_bytes is_ascii_digit s = true → all_bytes visible s = true.
Proof.
  apply all_bytes_impl. intros x. unfold is_ascii_digit, digit, visible.
  case_match eqn:E; [|done]. rewrite andb_true_iff, !Z.leb_le in *. lia.
Qed.

Definition is_ascii (c : ascii) : bool := byte c <? 128.

Lemma ascii_space c s w : is_ascii c = true → ws_width (String c s) = S w → w = O.
Proof.
  unfold is_ascii. rewrite Z.ltb_lt. intros Hc. cbn [ws_width]. case_match; [congruence|].
  destruct s as [|b [|d s]]; [done|..]; repeat rewrite (proj2 (Z.eqb_neq (byte c) _)) by lia; done.
Qed.

Lemma is_blank_ascii c s : is_ascii c = true → is_blank (String c s) = true → is_blank s = true.
Proof.
  unfold is_blank, trim_start. rewrite !bool_decide_eq_true. intros Hc. cbn [trim_start_go].
  destruct (ws_width (String c s)) eqn:E; [done|]. by apply ascii_space in E as ->.
Qed.

Lemma trim_end_app s t :
  all_bytes is_ascii s = true → is_blank t = false → trim_end (s +:+ t) = s +:+ trim_end t.
Proof.
  intros Hs Ht. induction s as [|c s IH]; [done|]. cbn [all_bytes] in Hs.
  apply andb_true_iff in Hs as [Hc Hs]. rewrite app_cons. cbn [trim_end].
  assert (is_blank (String c (s +:+ t)) = false) as ->; [|by rewrite IH].
  apply not_true_iff_false. intros Hb%is_blank_ascii; [|done]. clear IH Hc. revert Hb.
  induction s as [|x s IHs]; [by rewrite app_nil_l, Ht|]. cbn [all_bytes] in Hs.
  apply andb_true_iff in Hs as [Hx Hs]. rewrite app_cons. intros Hb%is_blank_ascii; auto.
Qed.

(** A visible word followed by a space. *)
Lemma break_ws_word tok rest :
  all_bytes visible tok = true → break_ws (tok +:+ " " +:+ rest) = (tok, " " +:+ rest).
Proof.
  induction tok as [|c tok IH]; cbn [all_bytes]; [done|]. rewrite andb_true_iff. intros [Hc Ht].
  rewrite app_cons. cbn [break_ws]. rewrite visible_ws by done. by rewrite IH.
Qed.

Lemma trim_start_space s : trim_start (" " +:+ s) = trim_start s.
Proof. done. Qed.

Lemma trim_start_word tok s : tok ≠ "" → all_bytes visible tok = true → trim_start (tok +:+ s) = tok +:+ s.
Proof.
  destruct tok as [|c tok]; [done|]. cbn [all_bytes]. rewrite andb_true_iff. intros _ [Hc _].
  rewrite app_cons. by apply trim_start_nows, visible_ws.
Qed.

Lemma visible_ascii s : all_bytes visible s = true → all_bytes is_ascii s = true.
Proof. apply all_bytes_impl. intros c. unfold visible, is_ascii. rewrite andb_true_iff, !Z.leb_le, Z.ltb_lt. lia. Qed.

Lemma pretty_nonempty (n : Z) : 0 ≤ n → pretty n ≠ "".
Proof.
  intros Hn. destruct n as [|p|p]; [done| |lia]. change (pretty (Z.pos p)) with (pretty_N_go (N.pos p) "").
  by destruct (pretty_N_go_head (N.pos p) "" ltac:(lia)) as (d & r & _ & ->).
Qed.

Lemma parse_i64_pretty n : i64_min ≤ n ≤ i64_max → parse_i64 (pretty n) = Some n.
Proof.
  intros Hn. destruct (decide (0 ≤ n)) as [Hpos|Hneg].
  - pose proof (pretty_digits n Hpos) as Hd. pose proof (pretty_nonempty n Hpos) as Hne.
    unfold parse_i64. destruct (pretty n) as [|c r] eqn:E; [done|]. cbn [all_bytes] in Hd.
    apply andb_true_iff in Hd as [Hc _]. rewrite bool_decide_eq_false_2 by (by intros ->).
    rewrite <-E. apply parse_unsigned_pretty. lia.
  - destruct n as [|p|p]; [lia..|].
    assert (pretty (Z.neg p) = String "-"%char (pretty_N_go (N.pos p) "")) as -> by done.
    unfold parse_i64. rewrite bool_decide_eq_true_2 by done.
    destruct (pretty_N_go_head (N.pos p) "" ltac:(lia)) as (d & r & _ & Hr).
    pose proof (parse_digits_pretty (- i64_min) (N.pos p) "" ltac:(simpl; lia)) as Hp. rewrite Hr in *.
    rewrite Hp. done.
Qed.

End Str.

(** ** [bridget-core/src/text_guards.rs] *)

Module TextGuards.

Definition between (lo hi c : Z) : bool := (lo <=? c) && (c <=? hi).

(** A [char] is its Unicode scalar value. *)
Definition is_format_character (c : Z) : bool :=
  (c =? 0x00ad) || (c =? 0x061c) || (c =? 0x06dd) || (c =? 0x070f)
  || between 0x0890 0x0891 c || (c =? 0x08e2) || (c =? 0x180e)
  || between 0x200b 0x200f c || between 0x202a 0x202e c
  || between 0x2060 0x2064 c || between 0x2066 0x206f c
  || (c =? 0xfeff) || between 0xfff9 0xfffb c
  || (c =? 0x110bd) || (c =? 0x110cd)
  || between 0x13430 0x1345f c || between 0x1bca0 0x1bca3 c
  || between 0x1d173 0x1d17a c || (c =? 0xe0001)
  || between 0xe0020 0xe007f c || between 0xfe00 0xfe0f c
  || between 0xe0100 0xe01ef c
  || (between 0x0600 0x0605 c || (c =? 0x2065)).

(** [char::is_control]: the category Cc. *)
Definition is_control (c : Z) : bool := between 0 0x1f c || between 0x7f 0x9f c.

Definition is_disallowed_control (c : Z) : bool := is_control c || is_format_character c.

(** The bidirectional controls of the Trojan Source attack: embeddings and
    overrides, isolates, and the two marks. *)
Definition is_bidi_control (c : Z) : bool :=
  between 0x202a 0x202e c || between 0x2066 0x2069 c || between 0x200e 0x200f c || (c =? 0x061c).

End TextGuards.

(** ** [bridget-core/src/host.rs] *)

Module Host.

Definition HOTE_NON_ATTESTE : string := "inconnu".

Definition host_is_attested (host : string) : bool :=
  let host := Str.trim host in
  negb (bool_decide (host = "")) && negb (bool_decide (host = HOTE_NON_ATTESTE)).

(** [local_host]: [env] is the value of [HOSTNAME] ([None] when it is unset or
    not Unicode), [command] the standard output of [hostname] ([None] when the
    command could not run or its output is not UTF-8). *)
Definition local_host (env command : option string) : string :=
  match env with
  | Some host =>
    if negb (bool_decide (Str.trim host = "")) then Str.trim host
    else default HOTE_NON_ATTESTE
      (opt_filter (λ h, negb (bool_decide (h = ""))) (Str.trim <$> command))
  | None =>
    default HOTE_NON_ATTESTE
      (opt_filter (λ h, negb (bool_decide (h = ""))) (Str.trim <$> command))
  end.

Definition host_usable (h : string) : Prop := h ≠ "" ∧ Str.trim h = h.

Lemma fallback_usable command :
  host_usable (default HOTE_NON_ATTESTE
    (opt_filter (λ h, negb (bool_decide (h = ""))) (Str.trim <$> command))).
Proof.
  destruct command as [h|]; simpl; [|done].
  case_bool_decide; simpl; [done|]. split; [done|apply Str.trim_idem].
Qed.

(** The name of the machine is always usable: never empty and never with
    white space around it, whatever the environment and the command give. *)
Lemma local_host_usable env command : host_usable (local_host env command).
Proof.
  unfold local_host. destruct env as [h|]; [|apply fallback_usable].
  case_bool_decide; simpl; [apply fallback_usable|]. split; [done|apply Str.trim_idem].
Qed.

End Host.
