(* ===== verification/Message.v ===== *)
(** * Messages: [bridget-core/src/message.rs] and the envelope texts of
    [bridget-core/src/envelope.rs]

    The normalised message that the daemon carries between agents, its hop
    budget, the content key used against double sends, the label of its sender
    and the text shown to the receiving agent. *)

From S2P Require Import Prelude Text.
From Stdlib Require Import Ascii.
Local Open Scope Z_scope.

Inductive AgentType :=
  | Codex | Claude | Gemini | Shell
  | Custom (s : string).
#[export] Instance AgentType_eq_dec : EqDecision AgentType.
Proof. solve_decision. Defined.

Inductive MessageOrigin := Human | Agent | Routine | System.
#[export] Instance MessageOrigin_eq_dec : EqDecision MessageOrigin.
Proof. solve_decision. Defined.

Inductive MessageIntent := QueueOnly | TriggerTurn | SteerCurrent | InterruptAndStart | ControlOnly.
#[export] Instance MessageIntent_eq_dec : EqDecision MessageIntent.
Proof. solve_decision. Defined.

Record DelegatedOrigin := mkDelegatedOrigin { provider : string; child_ref : string }.

Record ThreadNotice := mkThreadNotice {
  tn_version : Z; tn_thread_id : string; tn_through_seq : Z; tn_generation : Z }.

Record BridgetMessage := mkMessage {
  cross_project_reason : option string;
  id : string;
  from : string;
  from_display_name : option string;
  thread_display_title : option string;
  to : string;
  body : string;
  reply : bool;
  hops : Z;
  reply_timeout : option Z;
  deadline_at : option Z;
  in_reply_to : option string;
  from_declared : bool;
  origin : option MessageOrigin;
  intent : option MessageIntent;
  references : list string;
  delegated_origin : option DelegatedOrigin;
  thread_notice : option ThreadNotice }.
#[export] Instance DelegatedOrigin_eq_dec : EqDecision DelegatedOrigin.
Proof. solve_decision. Defined.
#[export] Instance ThreadNotice_eq_dec : EqDecision ThreadNotice.
Proof. solve_decision. Defined.
#[export] Instance BridgetMessage_eq_dec : EqDecision BridgetMessage.
Proof. solve_decision. Defined.

Definition with_hops (h : Z) (m : BridgetMessage) : BridgetMessage :=
  mkMessage m.(cross_project_reason) m.(id) m.(from) m.(from_display_name) m.(thread_display_title)
    m.(to) m.(body) m.(reply) h m.(reply_timeout) m.(deadline_at) m.(in_reply_to) m.(from_declared)
    m.(origin) m.(intent) m.(references) m.(delegated_origin) m.(thread_notice).

Definition with_reason (r : option string) (m : BridgetMessage) : BridgetMessage :=
  mkMessage r m.(id) m.(from) m.(from_display_name) m.(thread_display_title)
    m.(to) m.(body) m.(reply) m.(hops) m.(reply_timeout) m.(deadline_at) m.(in_reply_to) m.(from_declared)
    m.(origin) m.(intent) m.(references) m.(delegated_origin) m.(thread_notice).

(** ** [AgentType]: [Display] and [FromStr] *)

Definition agent_type_to_string (t : AgentType) : string :=
  match t with
  | Codex => "codex" | Claude => "claude" | Gemini => "gemini" | Shell => "shell"
  | Custom s => s
  end.

(** [to_lowercase] is [str::to_lowercase], whose Unicode tables are not
    reproduced: it is an argument. *)
Definition agent_type_from_str (to_lowercase : string → string) (s : string) : AgentType :=
  let l := to_lowercase s in
  if bool_decide (l = "codex") then Codex
  else if bool_decide (l = "claude") then Claude
  else if bool_decide (l = "gemini") then Gemini
  else if bool_decide (l = "shell") then Shell
  else Custom l.

(** ** Constructor and hop budget *)

Definition default_hops : Z := 4.

Fixpoint remove_byte (c : ascii) (s : string) : string :=
  match s with
  | EmptyString => EmptyString
  | String a s' => if bool_decide (a = c) then remove_byte c s' else String a (remove_byte c s')
  end.

(** [BridgetMessage::new]; [uuid] is the text of the fresh UUID. *)
Definition message_new (uuid f t b : string) : BridgetMessage :=
  mkMessage None (Str.chars_take 13 (remove_byte "-"%char uuid)) f None None t b false default_hops
    None None None false None None [] None None.

(** [hops] is an [i32] and [-= 1] wraps around in a release build. *)
Definition decrement_hops (m : BridgetMessage) : BridgetMessage * bool :=
  let m' := with_hops (wrap_i32 (m.(hops) - 1)) m in
  (m', 0 <? m'.(hops)).

(** ** Content key *)

Fixpoint bytes_of (s : string) : list Z :=
  match s with EmptyString => [] | String c s' => byte c :: bytes_of s' end.

(** What [Hash for str] feeds to the hasher: the bytes and the terminator. *)
Definition hash_str (s : string) : list Z := bytes_of s ++ [0xFF].

(** What the derived [Hash for Option<String>] feeds: the discriminant as an
    [isize] (little endian), then the contents. *)
Definition hash_opt_string (o : option string) : list Z :=
  match o with
  | None => [0;0;0;0;0;0;0;0]
  | Some s => [1;0;0;0;0;0;0;0] ++ hash_str s
  end.

Definition content_stream (m : BridgetMessage) : list Z :=
  hash_str m.(to) ++ hash_str m.(body) ++ hash_opt_string m.(in_reply_to).

Definition hex_digit (z : Z) : ascii :=
  ascii_of_nat (Z.to_nat (if z <? 10 then 48 + z else 87 + z)).

Fixpoint hex_digits (n : nat) (z : Z) : string :=
  match n with
  | O => EmptyString
  | S n' => hex_digits n' (z / 16) +:+ String (hex_digit (z mod 16)) ""
  end.

(** [content_key]; [finish] is the [DefaultHasher] run on the bytes it was fed,
    an algorithm the standard library does not specify. *)
Definition content_key (finish : list Z → Z) (m : BridgetMessage) : string :=
  hex_digits 16 (finish (content_stream m)).

(** ** Labels and envelope *)

Definition sender_label (m : BridgetMessage) : string :=
  let sender :=
    match opt_filter (λ d, negb (bool_decide (d = "")) && negb (bool_decide (d = m.(from))))
            (Str.trim <$> m.(from_display_name)) with
    | None => m.(from)
    | Some d => d +:+ " (" +:+ m.(from) +:+ ")"
    end in
  match m.(delegated_origin) with
  | Some o => sender +:+ " (via sous-agent " +:+ o.(provider) +:+ " " +:+ o.(child_ref) +:+ ")"
  | None => sender
  end.

Definition is_human_instruction (m : BridgetMessage) : bool :=
  bool_decide (m.(origin) = Some Human)
  || (negb (is_some m.(origin))
      && (bool_decide (m.(from) = "human") || bool_decide (m.(from) = "humain"))
      && negb (is_some m.(delegated_origin))).

Definition HUMAN_REPLY_NOTICE : string :=
  "Instruction de l’utilisateur : réponds normalement dans ce fil, que l’utilisateur lit depuis Bridget. N’envoie pas de message au destinataire « human » : ce nom n’est pas routable. Pour une demande simple, réponds directement ; aucun outil Bridget n’est nécessaire pour transmettre ta réponse.".

Definition NO_REPLY_NOTICE : string :=
  "Pas d'accusé de réception : n'envoie aucun « bien reçu », même pour annoncer ton silence. Ce n'est pas une absence de tâche : si ce message demande une action, fais-la. Ta réponse finale ne sera pas relayée ; pour transmettre un résultat à l'expéditeur, fais un nouvel envoi Bridget.".

Definition no_reply_notice (m : BridgetMessage) : string :=
  if is_human_instruction m then HUMAN_REPLY_NOTICE else NO_REPLY_NOTICE.

Definition newline : string := String (ascii_of_nat 10) "".
Definition dquote : string := String (ascii_of_nat 34) "".

Definition wrap_envelope (m : BridgetMessage) : string :=
  if negb m.(reply) && is_human_instruction m then
    "💬 Instruction de l’utilisateur (id=" +:+ m.(id) +:+ ")" +:+ newline +:+ m.(body)
      +:+ newline +:+ newline +:+ HUMAN_REPLY_NOTICE
  else if m.(reply) then
    "💬 " +:+ m.(from) +:+ " → " +:+ m.(to) +:+ " (reply=yes, id=" +:+ m.(id) +:+ ")" +:+ newline
      +:+ m.(body) +:+ newline +:+ newline +:+ "⚠ Tu DOIS répondre à " +:+ m.(from)
      +:+ " avec: bridget reply " +:+ dquote +:+ "ta réponse" +:+ dquote +:+ newline
      +:+ "Ne réponds pas ici. Ne dis pas " +:+ dquote +:+ "bien reçu" +:+ dquote
      +:+ ". Réponds avec du contenu utile."
  else
    "💬 " +:+ m.(from) +:+ " → " +:+ m.(to) +:+ " (reply=no, id=" +:+ m.(id) +:+ ")" +:+ newline
      +:+ m.(body) +:+ newline +:+ newline +:+ NO_REPLY_NOTICE.

(** ** Lemmas *)

(** A UTF-8 text never contains the byte 0xFF. *)
Definition utf8_text (s : string) : bool := Str.all_bytes (λ c, negb (byte c =? 0xFF)) s.

Definition message_utf8 (m : BridgetMessage) : bool :=
  utf8_text m.(to) && utf8_text m.(body) && is_none_or m.(in_reply_to) utf8_text.

Lemma bytes_of_inj s t : bytes_of s = bytes_of t → s = t.
Proof.
  revert t. induction s as [|a s IH]; intros [|b t]; simpl; try done.
  intros [= Hab Hst]. f_equal; [|by apply IH].
  rewrite <-(ascii_N_embedding a), <-(ascii_N_embedding b). unfold byte in Hab. f_equal. lia.
Qed.

Lemma utf8_no_terminator s : utf8_text s = true → 0xFF ∉ bytes_of s.
Proof.
  unfold utf8_text. induction s as [|c s IH]; simpl; [set_solver|].
  rewrite andb_true_iff, negb_true_iff, Z.eqb_neq. intros [Hc Hs].
  rewrite not_elem_of_cons. split; [congruence|auto].
Qed.

Lemma terminated_inj (x : Z) (a a' r r' : list Z) :
  x ∉ a → x ∉ a' → a ++ x :: r = a' ++ x :: r' → a = a' ∧ r = r'.
Proof.
  revert a'. induction a as [|y a IH]; intros [|y' a'] Ha Ha'; simpl; intros H;
    simplify_eq/=; rewrite ?not_elem_of_cons in *; [done|naive_solver..|].
  destruct (IH a') as [-> ->]; naive_solver.
Qed.

Lemma hash_str_inj s s' r r' :
  utf8_text s = true → utf8_text s' = true →
  hash_str s ++ r = hash_str s' ++ r' → s = s' ∧ r = r'.
Proof.
  unfold hash_str. rewrite <-!app_assoc. simpl. intros Hs Hs' H.
  apply terminated_inj in H as [H%bytes_of_inj ->]; auto using utf8_no_terminator.
Qed.

Lemma hash_opt_string_inj o o' :
  is_none_or o utf8_text = true → is_none_or o' utf8_text = true →
  hash_opt_string o = hash_opt_string o' → o = o'.
Proof.
  destruct o as [s|], o' as [s'|]; simpl; try done; [|by intros _ _ [=]..].
  intros Hs Hs' [= H].
  pose proof (hash_str_inj s s' [] []) as Hi. rewrite !List.app_nil_r in Hi.
  f_equal. by apply Hi.
Qed.

Lemma content_stream_fields m m' :
  m.(to) = m'.(to) → m.(body) = m'.(body) → m.(in_reply_to) = m'.(in_reply_to) →
  content_stream m = content_stream m'.
Proof. unfold content_stream. by intros -> -> ->. Qed.

Lemma hex_digits_length n z : String.length (hex_digits n z) = n.
Proof. revert z. induction n as [|n IH]; intros z; simpl; [done|]. rewrite Str.app_length, IH. simpl. lia. Qed.

Lemma decrement_hops_spec m :
  i32_min < m.(hops) ≤ i32_max →
  decrement_hops m = (with_hops (m.(hops) - 1) m, 1 <? m.(hops)).
Proof.
  intros H. unfold decrement_hops. rewrite wrap_i32_id by (unfold_ints; lia). simpl.
  f_equal. destruct (Z.ltb_spec 0 (m.(hops) - 1)), (Z.ltb_spec 1 m.(hops)); lia || done.
Qed.

Lemma with_hops_hops a b m : with_hops a (with_hops b m) = with_hops a m.
Proof. done. Qed.

(** [n] transfers in a row, each of which is refused once the budget is gone. *)
Fixpoint transfers (n : nat) (m : BridgetMessage) : option BridgetMessage :=
  match n with
  | O => Some m
  | S n' => let '(m', go) := decrement_hops m in if go then transfers n' m' else None
  end.

(** ** Properties *)

(** The bytes fed to the hasher of [content_key] identify the recipient, the
    body and the request answered: two texts that differ in one of the three
    never feed the same bytes, so their keys differ unless the hash collides;
    and the other fields of the message (its sender, its id) do not count. *)
Lemma content_stream_identifies m m' :
  message_utf8 m = true → message_utf8 m' = true →
  content_stream m = content_stream m' ↔
  m.(to) = m'.(to) ∧ m.(body) = m'.(body) ∧ m.(in_reply_to) = m'.(in_reply_to).
Proof.
  unfold message_utf8. rewrite !andb_true_iff. intros [[? ?] ?] [[? ?] ?]. split.
  - unfold content_stream. intros Hs.
    apply hash_str_inj in Hs as [Hto Hrest]; [|done..].
    apply hash_str_inj in Hrest as [Hbody Hreply]; [|done..].
    split_and!; [done..|]. by apply hash_opt_string_inj.
  - intros (? & ? & ?). by apply content_stream_fields.
Qed.

Definition example_message (f t b : string) (r : option string) : BridgetMessage :=
  mkMessage None "mcp-38210" f None None t b false 4 None None r false None None [] None None.

Lemma content_stream_identifies_witness :
  content_stream (example_message "codex" "alice" "même réponse" (Some "request-1")) =
  content_stream (example_message "codex" "alice" "même réponse" (Some "request-2")) ↔
  "alice" = "alice" ∧ "même réponse" = "même réponse" ∧ Some "request-1" = Some "request-2".
Proof.
  apply (content_stream_identifies (example_message "codex" "alice" "même réponse" (Some "request-1"))
    (example_message "codex" "alice" "même réponse" (Some "request-2"))); reflexivity.
Defined.

(** A message with a hop budget of [h] is accepted for exactly [h - 1]
    transfers: [n] transfers in a row succeed if and only if [n < h] (or no
    transfer is asked), and then the budget left is [h - n]. *)
Lemma hop_budget_exact m n :
  i32_min + Z.of_nat n ≤ m.(hops) ≤ i32_max →
  transfers n m =
    (if (Z.of_nat n =? 0) || (Z.of_nat n <? m.(hops))
     then Some (with_hops (m.(hops) - Z.of_nat n) m) else None).
Proof.
  revert m. induction n as [|n IH]; intros m H.
  - simpl. rewrite Z.sub_0_r. by destruct m.
  - cbn [transfers]. rewrite decrement_hops_spec by (unfold_ints; lia).
    destruct (Z.ltb_spec 1 m.(hops)).
    + rewrite IH by (cbn [hops with_hops]; unfold_ints; lia). cbn [hops with_hops].
      replace (Z.of_nat (S n) =? 0) with false by (symmetry; apply Z.eqb_neq; lia).
      destruct (Z.eqb_spec (Z.of_nat n) 0), (Z.ltb_spec (Z.of_nat n) (m.(hops) - 1)),
        (Z.ltb_spec (Z.of_nat (S n)) m.(hops)); try lia; cbn [orb]; try done;
        rewrite with_hops_hops; do 2 f_equal; lia.
    + replace (Z.of_nat (S n) =? 0) with false by (symmetry; apply Z.eqb_neq; lia).
      destruct (Z.ltb_spec (Z.of_nat (S n)) m.(hops)); [lia|done].
Qed.

Lemma hop_budget_exact_witness :
  transfers 3 (message_new "550e8400-e29b-41d4-a716-446655440000" "a" "b" "x") =
    Some (with_hops 1 (message_new "550e8400-e29b-41d4-a716-446655440000" "a" "b" "x")).
Proof.
  rewrite (hop_budget_exact (message_new "550e8400-e29b-41d4-a716-446655440000" "a" "b" "x") 3).
  - reflexivity.
  - vm_compute. split; congruence.
Defined.
