(* ===== verification/Uuid.v ===== *)
(** * The [uuid] crate as the program uses it

    [uuid] is a third-party package: [UuidLib] is what the program calls of it
    and [UuidLaws] the documented behaviour the proofs rely on.  [canonical]
    is a concrete implementation for the hyphenated form, on which witnesses
    run. *)

From S2P Require Import Prelude Text.
From Stdlib Require Import Ascii.
Local Open Scope Z_scope.

Class UuidLib := {
  Uuid : Type;
  (** [Uuid::parse_str] *)
  parse_str : string → option Uuid;
  (** [get_version() == Some(Version::Random)] *)
  is_random : Uuid → bool;
  (** [hyphenated().to_string()] *)
  hyphenated : Uuid → string
}.

(** Lower-case hexadecimal digits and hyphens. *)
Definition is_uuid_char (c : ascii) : bool :=
  let b := byte c in
  ((48 <=? b) && (b <=? 57)) || ((97 <=? b) && (b <=? 102)) || (b =? 45).

Class UuidLaws (L : UuidLib) := {
  hyphenated_parses s u : parse_str s = Some u → parse_str (hyphenated u) = Some u;
  hyphenated_chars s u : parse_str s = Some u → Str.all_bytes is_uuid_char (hyphenated u) = true;
  hyphenated_length s u : parse_str s = Some u → String.length (hyphenated u) = 36%nat
}.

(** ** A concrete implementation: 32 hexadecimal digits *)

Module Canonical.

Definition nibble (c : ascii) : option Z :=
  let b := byte c in
  if (48 <=? b) && (b <=? 57) then Some (b - 48)
  else if (97 <=? b) && (b <=? 102) then Some (b - 87)
  else if (65 <=? b) && (b <=? 70) then Some (b - 55) else None.

Definition digit_char (z : Z) : ascii :=
  ascii_of_nat (Z.to_nat (if z <? 10 then 48 + z else 87 + z)).

(** Digits of each group of the hyphenated form. *)
Definition groups : list nat := [8; 4; 4; 4; 12]%nat.

Fixpoint take_nibbles (n : nat) (s : string) : option (list Z * string) :=
  match n with
  | O => Some ([], s)
  | S n' =>
    match s with
    | EmptyString => None
    | String c s' => d ← nibble c; '(l, r) ← take_nibbles n' s'; Some (d :: l, r)
    end
  end.

Fixpoint parse_groups (gs : list nat) (s : string) : option (list Z) :=
  match gs with
  | [] => if bool_decide (s = "") then Some [] else None
  | [g] => '(l, r) ← take_nibbles g s; if bool_decide (r = "") then Some l else None
  | g :: gs' =>
    '(l, r) ← take_nibbles g s;
    match r with
    | String c r' => if bool_decide (c = "-"%char) then (l ++.) <$> parse_groups gs' r' else None
    | EmptyString => None
    end
  end.

Fixpoint print_nibbles (l : list Z) : string :=
  match l with [] => EmptyString | z :: l' => String (digit_char z) (print_nibbles l') end.

Definition hyph (u : list Z) : string :=
  print_nibbles (take 8 u) +:+ "-" +:+ print_nibbles (take 4 (drop 8 u)) +:+ "-" +:+
  print_nibbles (take 4 (drop 12 u)) +:+ "-" +:+ print_nibbles (take 4 (drop 16 u)) +:+ "-" +:+
  print_nibbles (drop 20 u).

#[export] Instance lib : UuidLib := {|
  Uuid := list Z;
  parse_str := parse_groups groups;
  is_random u := bool_decide (u !! 12%nat = Some 4);
  hyphenated := hyph |}.

Lemma nibble_range c z : nibble c = Some z → 0 ≤ z < 16.
Proof.
  unfold nibble. repeat case_match; intros; simplify_eq;
    rewrite ?andb_true_iff, ?Z.leb_le in *; lia.
Qed.

Lemma digit_char_good z :
  0 ≤ z < 16 → nibble (digit_char z) = Some z ∧ is_uuid_char (digit_char z) = true.
Proof.
  intros H. assert (z = 0 ∨ z = 1 ∨ z = 2 ∨ z = 3 ∨ z = 4 ∨ z = 5 ∨ z = 6 ∨ z = 7 ∨ z = 8 ∨ z = 9
    ∨ z = 10 ∨ z = 11 ∨ z = 12 ∨ z = 13 ∨ z = 14 ∨ z = 15) as Hz by lia.
  destruct_or! Hz; subst z; by split.
Qed.

Definition nibbles (l : list Z) : Prop := Forall (λ z, 0 ≤ z < 16) l.

Lemma take_nibbles_Some n s l r :
  take_nibbles n s = Some (l, r) → nibbles l ∧ length l = n.
Proof.
  revert s l. induction n as [|n IH]; intros s l; simpl; intros H.
  - simplify_eq. split; [constructor|done].
  - destruct s as [|c s]; [done|]. destruct (nibble c) as [d|] eqn:Hd; [|done].
    destruct (take_nibbles n s) as [[l' r']|] eqn:Hn; simplify_eq/=.
    destruct (IH _ _ Hn) as [Hl <-]. split; [|done].
    constructor; [by eapply nibble_range|done].
Qed.

Lemma take_nibbles_print l s : nibbles l → take_nibbles (length l) (print_nibbles l +:+ s) = Some (l, s).
Proof.
  induction 1 as [|z l Hz Hl IH]; [done|].
  cbn [print_nibbles]. rewrite Str.app_cons. cbn [length take_nibbles].
  destruct (digit_char_good z Hz) as [-> _]. simpl. by rewrite IH.
Qed.

Lemma print_nibbles_good l :
  nibbles l → Str.all_bytes is_uuid_char (print_nibbles l) = true ∧
    String.length (print_nibbles l) = length l.
Proof.
  induction 1 as [|z l Hz Hl [IH1 IH2]]; simpl; [done|].
  destruct (digit_char_good z Hz) as [_ ->]. simpl. auto.
Qed.

Lemma parse_groups_Some gs s u :
  gs ≠ [] → parse_groups gs s = Some u → nibbles u ∧ length u = sum_list gs.
Proof.
  revert s u. induction gs as [|g gs IH]; intros s u Hne; [done|]. cbn [parse_groups].
  destruct gs as [|g' gs].
  - destruct (take_nibbles g s) as [[l r]|] eqn:Hn; [|done]. simpl. case_bool_decide; [|done].
    intros [= <-]. apply take_nibbles_Some in Hn as [? <-]. split; [done|]. simpl. lia.
  - destruct (take_nibbles g s) as [[l r]|] eqn:Hn; [|done]. cbn [mbind option_bind].
    destruct r as [|c r]; [done|]. case_bool_decide; [|done].
    intros (u' & Hu' & ->)%fmap_Some. apply IH in Hu' as [Hu' Hlen]; [|done].
    apply take_nibbles_Some in Hn as [? <-]. unfold nibbles.
    rewrite Forall_app, length_app, Hlen. done.
Qed.

Lemma parse_group_step g g' gs l s :
  nibbles l → length l = g →
  parse_groups (g :: g' :: gs) (print_nibbles l +:+ "-" +:+ s) = (l ++.) <$> parse_groups (g' :: gs) s.
Proof.
  intros Hl <-. cbn [parse_groups]. rewrite take_nibbles_print by done. done.
Qed.

Lemma parse_group_last g l :
  nibbles l → length l = g → parse_groups [g] (print_nibbles l) = Some l.
Proof.
  intros Hl <-. cbn [parse_groups]. rewrite <-(Str.app_nil_r (print_nibbles l)).
  by rewrite take_nibbles_print.
Qed.

Lemma drop_split b (u : list Z) : take 4 (drop b u) ++ drop (b + 4) u = drop b u.
Proof. rewrite <-(take_drop 4 (drop b u)) at 2. by rewrite drop_drop. Qed.

Lemma parse_hyph u : nibbles u → length u = 32%nat → parse_groups groups (hyph u) = Some u.
Proof.
  intros Hu Hlen. unfold groups, hyph.
  assert (∀ a b, nibbles (take a (drop b u))) as Hn by (intros; apply Forall_take, Forall_drop, Hu).
  rewrite !parse_group_step; [|rewrite ?length_take, ?length_drop; first [apply Hn|apply (Hn _ O)|lia]..].
  rewrite parse_group_last; [|by apply Forall_drop|rewrite length_drop; lia].
  cbn [fmap option_fmap option_map]. f_equal.
  rewrite (drop_split 16), (drop_split 12), (drop_split 8). by rewrite take_drop.
Qed.

#[export] Instance laws : UuidLaws lib.
Proof.
  assert (∀ s u, parse_groups groups s = Some u → nibbles u ∧ length u = 32%nat) as Hp.
  { intros s u H. by apply parse_groups_Some in H. }
  assert (∀ u a b, nibbles u → nibbles (take a (drop b u))) as Hn
    by (intros; apply Forall_take, Forall_drop; done).
  split; cbn; intros s u Hs; destruct (Hp _ _ Hs) as [Hu Hlen].
  - by apply parse_hyph.
  - unfold hyph. rewrite !Str.all_bytes_app.
    by rewrite !(λ l H, proj1 (print_nibbles_good l H)) by
      first [apply Hn; done|apply (Hn u _ O); done|apply Forall_drop; done].
  - unfold hyph. rewrite !Str.app_length.
    rewrite !(λ l H, proj2 (print_nibbles_good l H)) by
      first [apply Hn; done|apply (Hn u _ O); done|apply Forall_drop; done].
    rewrite !length_take, !length_drop, Hlen. reflexivity.
Qed.

End Canonical.
