(* ===== verification/Router.v ===== *)
(** * Router: [bridget-core/src/router.rs]

    The table of connected agents, keyed by [agent_id], and the decision taken
    for each message.  The [HashMap] is a [gmap]; where the code iterates over
    it, the order the hash table happens to give is an argument. *)

From S2P Require Import Prelude Text Uuid Message.
From Stdlib Require Import Ascii.
Local Open Scope Z_scope.

Record RegisteredAgent := mkAgent {
  agent_id : string; agent_type : AgentType; connection_id : string }.
#[export] Instance RegisteredAgent_eq_dec : EqDecision RegisteredAgent.
Proof. solve_decision. Defined.

Inductive RouterError :=
  | AgentNotFound (agent : string)
  | AgentAmbiguous (agent : string) (conns : list string)
  | HopsExhausted
  | SelfSend
  | InvalidAgentId (agent : string)
  | AgentIdTaken (agent : string).
#[export] Instance RouterError_eq_dec : EqDecision RouterError.
Proof. solve_decision. Defined.

Inductive RouterAction :=
  | Deliver (target_conn : string)
  | Reject (e : RouterError).

Record Router := mkRouter { agents : gmap string RegisteredAgent }.

Definition router_new : Router := mkRouter ∅.

(** [Display for RouterError]; [debug] is the [{:?}] formatting of a string. *)
Definition router_error_to_string (debug : string → string) (e : RouterError) : string :=
  match e with
  | AgentNotFound a => "agent introuvable: " +:+ a
  | AgentAmbiguous a conns =>
    "agent_id ambigu " +:+ debug a +:+ ": " +:+ pretty (length conns) +:+ " connexions"
  | HopsExhausted => "budget de sauts épuisé (hops=0)"
  | SelfSend => "auto-envoi interdit"
  | InvalidAgentId a => "agent_id invalide: " +:+ a
  | AgentIdTaken a => "agent_id déjà connecté: " +:+ a
  end.

Definition validate_technical_label (value : string) : result string () :=
  if bool_decide (value = "") || (100 <? String.length value)%nat then
    Err "libellé technique vide ou trop long"
  else if negb (Str.all_bytes
      (λ c, Str.is_ascii_alphanumeric c || bool_decide (c = "-"%char) || bool_decide (c = "_"%char))
      value) then
    Err "libellé technique invalide"
  else Ok ().

Section Router.
Context `{L : UuidLib}.

Definition validate_agent_id (agent : string) : result string () :=
  match parse_str agent with
  | None => Err "agent_id doit être un UUID v4 canonique"
  | Some parsed =>
    if negb (is_random parsed) || negb (bool_decide (hyphenated parsed = agent))
    then Err "agent_id doit être un UUID v4 canonique"
    else Ok ()
  end.

Definition register (agent : string) (ty : AgentType) (conn : string) (r : Router)
    : result RouterError Router :=
  match validate_agent_id agent with
  | Err _ => Err (InvalidAgentId agent)
  | Ok _ =>
    match r.(agents) !! agent with
    | Some _ => Err (AgentIdTaken agent)
    | None => Ok (mkRouter (<[agent := mkAgent agent ty conn]> r.(agents)))
    end
  end.

(** [iter] is the order in which the hash table yields its entries. *)
Definition unregister_by_conn (iter : list (string * RegisteredAgent)) (conn : string) (r : Router)
    : Router * option RegisteredAgent :=
  match find_first (λ e, bool_decide (e.2.(connection_id) = conn)) iter with
  | None => (r, None)
  | Some (agent, _) => (mkRouter (delete agent r.(agents)), r.(agents) !! agent)
  end.

Definition resolve (r : Router) (from_agent_id to_agent_id : string) (hops : Z) (from_conn : string)
    : RouterAction :=
  if hops <=? 0 then Reject HopsExhausted else
  match r.(agents) !! to_agent_id with
  | None => Reject (AgentNotFound to_agent_id)
  | Some target =>
    if bool_decide (target.(connection_id) = from_conn) then Reject SelfSend
    else Deliver target.(connection_id)
  end.

Definition list_agents (iter : list (string * RegisteredAgent)) : list RegisteredAgent := iter.*2.
Definition get_agent (r : Router) (agent : string) : option RegisteredAgent := r.(agents) !! agent.
Definition agent_count (r : Router) : nat := size r.(agents).

(** ** Invariant and reachable tables *)

Definition router_wf (r : Router) : Prop :=
  ∀ k a, r.(agents) !! k = Some a → a.(agent_id) = k ∧ validate_agent_id k = Ok ().

(** No two agents share a connection. *)
Definition conns_unique (r : Router) : Prop :=
  ∀ k1 k2 a1 a2, r.(agents) !! k1 = Some a1 → r.(agents) !! k2 = Some a2 →
    a1.(connection_id) = a2.(connection_id) → k1 = k2.

Inductive router_step : Router → Router → Prop :=
  | step_register agent ty conn r r' :
      register agent ty conn r = Ok r' → router_step r r'
  | step_unregister iter conn r :
      iter ≡ₚ map_to_list r.(agents) →
      router_step r (unregister_by_conn iter conn r).1.

Lemma unregister_cases iter conn r :
  iter ≡ₚ map_to_list r.(agents) →
  (unregister_by_conn iter conn r = (r, None) ∧
     ∀ k a, r.(agents) !! k = Some a → a.(connection_id) ≠ conn) ∨
  (∃ k a, r.(agents) !! k = Some a ∧ a.(connection_id) = conn ∧
     unregister_by_conn iter conn r = (mkRouter (delete k r.(agents)), Some a)).
Proof.
  intros Hiter. unfold unregister_by_conn.
  destruct (find_first _ iter) as [[k a]|] eqn:Hf.
  - right. apply find_first_Some in Hf as [Hin Hc]. simpl in Hc. apply bool_decide_eq_true in Hc.
    rewrite Hiter, elem_of_map_to_list in Hin. exists k, a. by rewrite Hin.
  - left. split; [done|]. intros k a Hk Hc.
    eapply (find_first_None _ _ (k, a)) in Hf;
      [|rewrite Hiter; by apply elem_of_map_to_list].
    simpl in Hf. by apply bool_decide_eq_false in Hf.
Qed.

Lemma router_step_wf r r' : router_step r r' → router_wf r → router_wf r'.
Proof.
  intros Hstep Hwf. destruct Hstep as [agent ty conn r0 r0' Hreg|iter conn r0 Hiter].
  - unfold register in Hreg. destruct (validate_agent_id agent) as [[]|] eqn:Hv; [|done].
    case_match; simplify_eq. intros k b. simpl.
    rewrite lookup_insert_Some. intros [[<- <-]|[_ Hk]]; [|by apply Hwf].
    done.
  - destruct (unregister_cases iter conn r0 Hiter) as [[-> _]|(k & b & _ & _ & ->)]; [done|].
    intros k' b'. simpl. rewrite lookup_delete_Some. intros [_ ?]. by apply Hwf.
Qed.

(** [resolve] delivers to the connection of the addressed agent, when the hop
    budget is positive and that connection is not the sender's own. *)
Lemma resolve_Deliver r from_id to_id hops conn c :
  resolve r from_id to_id hops conn = Deliver c ↔
  0 < hops ∧ c ≠ conn ∧ ∃ a, get_agent r to_id = Some a ∧ a.(connection_id) = c.
Proof.
  unfold resolve, get_agent. destruct (Z.leb_spec hops 0); [naive_solver lia|].
  destruct (r.(agents) !! to_id); [|naive_solver]. case_bool_decide; naive_solver.
Qed.

(** ** Properties *)

(** Every table reached from the empty one by registrations and
    disconnections is well formed: each entry is stored under its own
    [agent_id], which is a canonical version-4 UUID. *)
Lemma router_reachable_wf r : rtc router_step router_new r → router_wf r.
Proof.
  intros Hr. remember router_new as r0 eqn:Hr0.
  assert (router_wf r0) as Hwf by (subst; intros k a; simpl; by rewrite lookup_empty).
  clear Hr0. induction Hr; eauto using router_step_wf.
Qed.

(** Registering succeeds exactly for a canonical UUID v4 that is not in the
    table, changes no other entry, and makes the agent addressable from any
    other connection; an identifier already connected is never replaced. *)
Lemma register_then_resolve agent ty conn r r' :
  register agent ty conn r = Ok r' →
  get_agent r agent = None ∧
  get_agent r' agent = Some (mkAgent agent ty conn) ∧
  (∀ other, other ≠ agent → get_agent r' other = get_agent r other) ∧
  agent_count r' = S (agent_count r) ∧
  (∀ src hops c, 0 < hops → c ≠ conn → resolve r' src agent hops c = Deliver conn) ∧
  (∀ ty' conn', register agent ty' conn' r' = Err (AgentIdTaken agent)).
Proof.
  unfold register, get_agent, agent_count. intros H.
  destruct (validate_agent_id agent) as [[]|] eqn:Hv; [|done].
  destruct (r.(agents) !! agent) eqn:Hl; simplify_eq/=. split_and!; [done| | | | |].
  - by rewrite lookup_insert_eq.
  - intros other Hne. by rewrite lookup_insert_ne.
  - by rewrite map_size_insert_None.
  - intros src hops c Hh Hc. unfold resolve. simpl. rewrite lookup_insert_eq. simpl.
    destruct (Z.leb_spec hops 0); [lia|]. by rewrite bool_decide_eq_false_2.
  - intros ty' conn'. by rewrite lookup_insert_eq.
Qed.

(** When no two agents share a connection, the agent removed by a
    disconnection does not depend on the iteration order of the hash table, and
    no agent of that connection is left behind. *)
Lemma unregister_order_independent iter1 iter2 conn r :
  conns_unique r →
  iter1 ≡ₚ map_to_list r.(agents) → iter2 ≡ₚ map_to_list r.(agents) →
  unregister_by_conn iter1 conn r = unregister_by_conn iter2 conn r ∧
  ∀ k a, (unregister_by_conn iter1 conn r).1.(agents) !! k = Some a → a.(connection_id) ≠ conn.
Proof.
  intros Hu H1 H2.
  destruct (unregister_cases iter1 conn r H1) as [[E1 N1]|(k1 & a1 & L1 & C1 & E1)],
    (unregister_cases iter2 conn r H2) as [[E2 N2]|(k2 & a2 & L2 & C2 & E2)]; rewrite E1, E2; simpl.
  - done.
  - by edestruct N1.
  - by edestruct N2.
  - assert (k1 = k2) as -> by (eapply Hu; eauto; congruence). split; [congruence|].
    intros k a [Hne Hk]%lookup_delete_Some Hc. apply Hne. eapply Hu; eauto; congruence.
Qed.

End Router.

(** ** Witnesses *)

Module RouterExamples.
Import Uuid.Canonical.

Definition A : string := "550e8400-e29b-41d4-a716-446655440000".
Definition B : string := "550e8400-e29b-41d4-a716-446655440001".
Definition router_a : Router := mkRouter {[A := mkAgent A Codex "conn-1"]}.

Example v4_only :
  validate_agent_id A = Ok () ∧
  is_ok (validate_agent_id "550e8400-e29b-11d4-a716-446655440000") = false ∧
  is_ok (validate_agent_id "550E8400-E29B-41D4-A716-446655440000") = false.
Proof. vm_compute. done. Qed.

Lemma register_A : register A Codex "conn-1" router_new = Ok router_a.
Proof. vm_compute. reflexivity. Qed.

Lemma router_reachable_wf_witness : router_wf router_a.
Proof.
  apply (router_reachable_wf router_a). apply rtc_once, (step_register A Codex "conn-1").
  vm_compute. reflexivity.
Defined.

Lemma register_then_resolve_witness : resolve router_a B A 3 "conn-2" = Deliver "conn-1".
Proof.
  destruct (register_then_resolve A Codex "conn-1" router_new router_a) as (_ & _ & _ & _ & H & _).
  - vm_compute. reflexivity.
  - apply H; [lia|done].
Defined.

Lemma unregister_order_independent_witness :
  unregister_by_conn [(A, mkAgent A Codex "conn-1")] "conn-1" router_a =
  unregister_by_conn (map_to_list router_a.(agents)) "conn-1" router_a.
Proof.
  apply (unregister_order_independent [(A, mkAgent A Codex "conn-1")]
    (map_to_list router_a.(agents)) "conn-1" router_a).
  - unfold conns_unique, router_a. cbn [agents].
    by intros k1 k2 a1 a2 [<- _]%lookup_singleton_Some [<- _]%lookup_singleton_Some _.
  - unfold router_a. cbn [agents]. by rewrite map_to_list_singleton.
  - done.
Defined.

End RouterExamples.
