(* ===== verification/Guards.v ===== *)
(** * Send guards: [bridget-core/src/dedup.rs], [circuit_breaker.rs] and the
    [EnvelopeGuard] of [envelope.rs]

    Three volatile memories that bound what agents can send: the same content
    twice, too many exchanges in a conversation, the same message id twice.
    An [Instant] is a [Z] in nanoseconds, given to each operation that reads
    the clock; a [Duration] is a non-negative [Z] in nanoseconds. *)

From S2P Require Import Prelude Text.
From Stdlib Require Import Ascii.
Local Open Scope Z_scope.

(** [Duration::from_secs]. *)
Definition from_secs (s : Z) : Z := s * 1000000000.
(** [Duration::as_secs]. *)
Definition as_secs (d : Z) : Z := d / 1000000000.

(** ** Deduplicator *)

Module Dedup.

Record Deduplicator := mkDedup {
  window : Z;
  entries : gmap string (Z * string) }.

Definition new (window_secs : Z) : Deduplicator := mkDedup (from_secs window_secs) ∅.

Definition prune (now : Z) (d : Deduplicator) : Deduplicator :=
  let cutoff := now - d.(window) in
  mkDedup d.(window) (filter (λ e, cutoff < e.2.1) d.(entries)).

Definition is_duplicate (content_key target : string) (now : Z) (d : Deduplicator)
    : Deduplicator * bool :=
  let d := prune now d in
  (d, match d.(entries) !! content_key with
      | Some (_, stored_target) => bool_decide (stored_target = target)
      | None => false
      end).

Definition mark_sent (content_key target : string) (now : Z) (d : Deduplicator) : Deduplicator :=
  mkDedup d.(window) (<[content_key := (now, target)]> d.(entries)).

Inductive op :=
  | Check (key target : string) (at_ : Z)
  | Mark (key target : string) (at_ : Z).
Definition op_time (o : op) : Z := match o with Check _ _ t | Mark _ _ t => t end.
Definition op_marks (o : op) (k : string) : bool :=
  match o with Mark k' _ _ => bool_decide (k' = k) | Check _ _ _ => false end.

Definition apply (d : Deduplicator) (o : op) : Deduplicator :=
  match o with
  | Check k t now => (is_duplicate k t now d).1
  | Mark k t now => mark_sent k t now d
  end.

Lemma prune_lookup now d k :
  (prune now d).(entries) !! k =
    opt_filter (λ e, now - d.(window) <? e.1) (d.(entries) !! k).
Proof.
  unfold prune. simpl. rewrite map_lookup_filter.
  destruct (d.(entries) !! k) as [[ts t]|]; simpl; [|done].
  destruct (Z.ltb_spec (now - d.(window)) ts).
  - by rewrite option_guard_True.
  - rewrite option_guard_False; [done|]. simpl. lia.
Qed.

Lemma dedup_apply_window d o : (apply d o).(window) = d.(window).
Proof. by destruct o. Qed.

Lemma dedup_foldl_window ops d : (foldl apply d ops).(window) = d.(window).
Proof. revert d. induction ops as [|o ops IH]; intros d; simpl; [done|]. by rewrite IH, dedup_apply_window. Qed.

(** An entry that is still in its window survives operations on other keys. *)
Lemma dedup_foldl_keeps ops d k ts t now :
  d.(entries) !! k = Some (ts, t) →
  (∀ o, o ∈ ops → op_marks o k = false ∧ op_time o ≤ now) →
  now - d.(window) < ts →
  (foldl apply d ops).(entries) !! k = Some (ts, t).
Proof.
  revert d. induction ops as [|o ops IH]; intros d Hk Hops Hts; simpl; [done|].
  destruct (Hops o) as [Hm Ho]; [set_solver|].
  apply IH; [|intros; apply Hops; set_solver|by rewrite dedup_apply_window].
  destruct o as [k' t' now'|k' t' now']; cbn [apply is_duplicate mark_sent entries fst op_marks op_time] in *.
  - rewrite prune_lookup, Hk. simpl. by rewrite (proj2 (Z.ltb_lt _ _)) by lia.
  - apply bool_decide_eq_false in Hm. by rewrite lookup_insert_ne.
Qed.

(** Once a content was sent to a target, every later send of the same
    content to that target is reported as a duplicate until the window has
    elapsed, and only until then, whatever was checked or sent under other keys
    in between. *)
Lemma duplicate_exactly_in_window d k t T ops now :
  (∀ o, o ∈ ops → op_marks o k = false ∧ op_time o ≤ now) →
  (is_duplicate k t now (foldl apply (mark_sent k t T d) ops)).2 = (now <? T + d.(window)).
Proof.
  intros Hops. set (d1 := mark_sent k t T d).
  unfold is_duplicate. cbn [snd]. rewrite prune_lookup, dedup_foldl_window. change (window d1) with (window d).
  destruct (Z.ltb_spec now (T + d.(window))).
  - rewrite (dedup_foldl_keeps ops d1 k T t now); [|by apply lookup_insert_eq|done|simpl; lia].
    simpl. rewrite (proj2 (Z.ltb_lt _ _)) by lia. by apply bool_decide_eq_true.
  - assert ((foldl apply d1 ops).(entries) !! k = Some (T, t) ∨
      (foldl apply d1 ops).(entries) !! k = None) as [->| ->].
    + assert (d1.(entries) !! k = Some (T, t) ∨ d1.(entries) !! k = None) as Hd
        by (left; apply lookup_insert_eq).
      clearbody d1. revert d1 Hd. induction ops as [|o ops IH]; intros d1 Hd; simpl; [done|].
      apply IH; [intros; apply Hops; set_solver|].
      destruct (Hops o) as [Hm _]; [set_solver|].
      destruct o; cbn [apply is_duplicate mark_sent entries fst op_marks] in *.
      * rewrite prune_lookup. destruct Hd as [->| ->]; simpl; [|auto]. case_match; auto.
      * apply bool_decide_eq_false in Hm. by rewrite lookup_insert_ne.
    + simpl. by rewrite (proj2 (Z.ltb_ge _ _)) by lia.
    + done.
Qed.

Lemma duplicate_exactly_in_window_witness :
  (is_duplicate "key1" "codex-1" (from_secs 30)
    (foldl apply (mark_sent "key1" "codex-1" 0 (new 60)) [Mark "key2" "codex-1" (from_secs 10)])).2 = true.
Proof.
  rewrite (duplicate_exactly_in_window (new 60) "key1" "codex-1" 0
    [Mark "key2" "codex-1" (from_secs 10)] (from_secs 30)).
  - reflexivity.
  - intros o ->%list_elem_of_singleton. split; [reflexivity|vm_compute; congruence].
Defined.

End Dedup.

(** ** Circuit breaker *)

Module Breaker.

(** [pair.sort_unstable()] on two texts, then the two joined by a bar. *)
Definition conv_key (f t : string) : string :=
  let '(a, b) := if String.leb f t then (f, t) else (t, f) in a +:+ "|" +:+ b.

Record CircuitBreaker := mkBreaker {
  window : Z;
  limit : nat;
  history : gmap string (list Z) }.

Definition new (window_secs : Z) (limit : nat) : CircuitBreaker :=
  mkBreaker (from_secs window_secs) limit ∅.

Definition recent (cutoff : Z) (l : list Z) : nat := count_if (λ ts, cutoff <? ts) l.

Definition check_at (f t : string) (now : Z) (cb : CircuitBreaker) : bool :=
  let cutoff := now - cb.(window) in
  match cb.(history) !! conv_key f t with
  | None => true
  | Some entries => (recent cutoff entries <? cb.(limit))%nat
  end.

(** The loop that pops the expired entries from the front of the queue. *)
Fixpoint pop_expired (cutoff : Z) (l : list Z) : list Z :=
  match l with
  | [] => []
  | front :: l' => if front <=? cutoff then pop_expired cutoff l' else l
  end.

Definition record_at (f t : string) (now : Z) (cb : CircuitBreaker) : CircuitBreaker :=
  let key := conv_key f t in
  let cutoff := now - cb.(window) in
  let entries := default [] (cb.(history) !! key) ++ [now] in
  mkBreaker cb.(window) cb.(limit) (<[key := pop_expired cutoff entries]> cb.(history)).

Definition count_at (f t : string) (now : Z) (cb : CircuitBreaker) : nat :=
  let cutoff := now - cb.(window) in
  match cb.(history) !! conv_key f t with
  | None => O
  | Some entries => recent cutoff entries
  end.

Definition window_secs (cb : CircuitBreaker) : Z := as_secs cb.(window).

(** *** The reference: a log of every exchange ever recorded *)

(** An attempt: the instant of the check and the instant of the record. *)
Record exchange := mkExchange { x_from : string; x_to : string; x_checked : Z; x_at : Z }.
Definition x_key (x : exchange) : string := conv_key x.(x_from) x.(x_to).

(** Exchanges of the conversation [k] in the log, later than [cutoff]. *)
Definition log_recent (k : string) (cutoff : Z) (log : list exchange) : nat :=
  count_if (λ x, bool_decide (x_key x = k) && (cutoff <? x.(x_at))) log.

(** The daemon's use: an exchange is recorded only when [check_at] allows it. *)
Definition let_in (st : CircuitBreaker * list exchange) (x : exchange) : CircuitBreaker * list exchange :=
  if check_at x.(x_from) x.(x_to) x.(x_checked) st.1
  then (record_at x.(x_from) x.(x_to) x.(x_at) st.1, st.2 ++ [x])
  else st.

Definition run (cb : CircuitBreaker) (xs : list exchange) : CircuitBreaker * list exchange :=
  foldl let_in (cb, []) xs.

(** *** Lemmas *)

Lemma conv_key_sym f t : conv_key f t = conv_key t f.
Proof.
  unfold conv_key. destruct (String.leb f t) eqn:E1, (String.leb t f) eqn:E2; try done.
  - by rewrite (String.leb_antisym f t).
  - destruct (String.leb_total f t); congruence.
Qed.

Lemma pop_expired_recent cutoff cutoff' l :
  cutoff ≤ cutoff' → recent cutoff' (pop_expired cutoff l) = recent cutoff' l.
Proof.
  intros H. induction l as [|t l IH]; simpl; [done|].
  destruct (Z.leb_spec t cutoff); [|done]. rewrite IH. unfold recent. rewrite count_if_cons.
  by rewrite (proj2 (Z.ltb_ge _ _)) by lia.
Qed.

Lemma recent_mono c c' l : c ≤ c' → (recent c' l ≤ recent c l)%nat.
Proof. intros. apply count_if_le. intros x _. rewrite !Z.ltb_lt. lia. Qed.

Lemma recent_snoc c l x : recent c (l ++ [x]) = (recent c l + if (c <? x)%Z then 1 else 0)%nat.
Proof. unfold recent. rewrite count_if_app, count_if_cons. unfold count_if at 2. simpl. lia. Qed.

Lemma log_recent_snoc k c log x :
  log_recent k c (log ++ [x]) =
    (log_recent k c log + if bool_decide (x_key x = k) && (c <? x.(x_at))%Z then 1 else 0)%nat.
Proof. unfold log_recent. rewrite count_if_app, count_if_cons. unfold count_if at 2. simpl. lia. Qed.

(** The breaker agrees with the log for every instant from [now] on. *)
Definition simulates (cb : CircuitBreaker) (log : list exchange) (now : Z) : Prop :=
  ∀ k now', now ≤ now' →
    recent (now' - cb.(window)) (default [] (cb.(history) !! k)) = log_recent k (now' - cb.(window)) log.

Lemma count_at_default f t now cb :
  count_at f t now cb = recent (now - cb.(window)) (default [] (cb.(history) !! conv_key f t)).
Proof. unfold count_at. by destruct (_ !! _). Qed.

(** [check_at] is the test on the count. *)
Lemma check_at_count f t now cb :
  (0 < cb.(limit))%nat → check_at f t now cb = (count_at f t now cb <? cb.(limit))%nat.
Proof.
  intros Hl. unfold check_at, count_at. destruct (_ !! _); [done|].
  symmetry. by apply Nat.ltb_lt.
Qed.

Lemma simulates_later cb log now now' : now ≤ now' → simulates cb log now → simulates cb log now'.
Proof. intros H Hs k n Hn. apply Hs. lia. Qed.

Lemma simulates_record cb log x now :
  now ≤ x.(x_at) → simulates cb log now →
  simulates (record_at x.(x_from) x.(x_to) x.(x_at) cb) (log ++ [x]) x.(x_at).
Proof.
  intros Hnow Hs k now' Hn. cbn [record_at window history].
  fold (x_key x). rewrite log_recent_snoc.
  destruct (decide (x_key x = k)) as [<-|Hk].
  - rewrite lookup_insert_eq, bool_decide_eq_true_2 by done. cbn [default from_option id andb].
    rewrite pop_expired_recent by lia. rewrite recent_snoc, <-Hs by lia. done.
  - rewrite lookup_insert_ne, bool_decide_eq_false_2 by done. cbn [andb].
    rewrite Hs by lia. lia.
Qed.

Lemma admit_window st x : (let_in st x).1.(window) = st.1.(window) ∧ (let_in st x).1.(limit) = st.1.(limit).
Proof. unfold let_in. by case_match. Qed.

(** *** Refinement: the pruned queues count like the full log *)

(** The clock readings of a sequence of attempts, which is monotonic. *)
Fixpoint readings (xs : list exchange) : list Z :=
  match xs with [] => [] | x :: xs' => x.(x_checked) :: x.(x_at) :: readings xs' end.
Definition nondecreasing (xs : list exchange) : Prop := Sorted Z.le (readings xs).

Lemma run_invariant xs st now last :
  Sorted Z.le (now :: readings xs) → now ≤ last → (∀ x, x ∈ xs → x.(x_at) ≤ last) →
  simulates st.1 st.2 now →
  simulates (foldl let_in st xs).1 (foldl let_in st xs).2 last ∧
  (foldl let_in st xs).1.(window) = st.1.(window) ∧ (foldl let_in st xs).1.(limit) = st.1.(limit).
Proof.
  revert st now. induction xs as [|x xs IH]; intros st now Hsorted Hnow Hall Hs; cbn [foldl].
  - split; [|done]. by apply (simulates_later _ _ now).
  - apply Sorted_inv in Hsorted as [Hsorted Hhd]. apply HdRel_inv in Hhd.
    apply Sorted_inv in Hsorted as [Hsorted Hhd']. apply HdRel_inv in Hhd'.
    destruct (admit_window st x) as [<- <-].
    apply (IH _ x.(x_at)); [done|apply Hall; set_solver|intros; apply Hall; set_solver|].
    unfold let_in. case_match;
      [apply (simulates_record _ _ _ now); [lia|done]|apply (simulates_later _ _ now); [lia|done]].
Qed.

Lemma sorted_dup (x : Z) l : Sorted Z.le (x :: l) → Sorted Z.le (x :: x :: l).
Proof. intros H. constructor; [done|]. constructor. reflexivity. Qed.

Lemma run_simulates w lim xs now :
  nondecreasing xs → (∀ x, x ∈ xs → x.(x_at) ≤ now) →
  simulates (run (new w lim) xs).1 (run (new w lim) xs).2 now ∧
  (run (new w lim) xs).1.(window) = from_secs w ∧ (run (new w lim) xs).1.(limit) = lim.
Proof.
  intros Hsorted Hnow.
  apply (run_invariant xs (new w lim, []) (match xs with [] => now | x :: _ => x.(x_checked) end) now).
  - destruct xs as [|x xs]; [repeat constructor|]. by apply sorted_dup.
  - destruct xs as [|x xs]; [lia|]. transitivity x.(x_at); [|apply Hnow; set_solver].
    apply Sorted_inv in Hsorted as [_ Hhd]. by apply HdRel_inv in Hhd.
  - done.
  - intros k n _. cbn [fst snd new history]. by rewrite lookup_empty.
Qed.

(** C38: refinement.  After any sequence of guarded exchanges at non-decreasing
    instants, the count of the breaker at any later instant is the number of
    exchanges of the conversation that were admitted within the window: what
    the queues have dropped never counted. *)
Theorem breaker_refines_log w lim xs f t now :
  nondecreasing xs → (∀ x, x ∈ xs → x.(x_at) ≤ now) →
  count_at f t now (run (new w lim) xs).1 =
    log_recent (conv_key f t) (now - from_secs w) (run (new w lim) xs).2.
Proof.
  intros Hsorted Hnow. destruct (run_simulates w lim xs now) as (Hsim & Hw & _); [done..|].
  rewrite count_at_default, <-Hw. by apply Hsim.
Qed.

(** *** Rate bound *)

(** Every exchange of the log had at most [max 1 limit] exchanges of its
    conversation, itself included, in the window that ends with it. *)
Definition rate_bounded (w : Z) (lim : nat) (log : list exchange) : Prop :=
  ∀ pre x post, log = pre ++ x :: post →
    (log_recent (x_key x) (x.(x_at) - w) (pre ++ [x]) ≤ Nat.max 1 lim)%nat.

Lemma rate_bounded_snoc w lim log x :
  rate_bounded w lim log →
  (log_recent (x_key x) (x.(x_at) - w) (log ++ [x]) ≤ Nat.max 1 lim)%nat →
  rate_bounded w lim (log ++ [x]).
Proof.
  intros Hlog Hx pre y post Heq. destruct post as [|z post _] using rev_ind.
  - apply app_inj_tail in Heq as [-> ->]. done.
  - rewrite app_comm_cons, app_assoc in Heq. apply app_inj_tail in Heq as [-> ->]. by eapply Hlog.
Qed.

Lemma admit_rate_bounded st x now :
  simulates st.1 st.2 now → now ≤ x.(x_checked) ≤ x.(x_at) → 0 < st.1.(window) →
  rate_bounded st.1.(window) st.1.(limit) st.2 →
  rate_bounded st.1.(window) st.1.(limit) (let_in st x).2.
Proof.
  intros Hs Hnow Hw Hb. unfold let_in. destruct (check_at _ _ _ _) eqn:Hc; [|done].
  apply rate_bounded_snoc; [done|]. rewrite log_recent_snoc, bool_decide_eq_true_2 by done.
  rewrite (proj2 (Z.ltb_lt _ _)) by lia. cbn [andb].
  rewrite <-Hs by lia. unfold check_at in Hc. fold (x_key x) in Hc.
  destruct (st.1.(history) !! x_key x) as [l|]; simpl; [|lia].
  apply Nat.ltb_lt in Hc.
  pose proof (recent_mono (x.(x_checked) - st.1.(window)) (x.(x_at) - st.1.(window)) l). lia.
Qed.

Lemma foldl_rate_bounded xs st now :
  Sorted Z.le (now :: readings xs) → simulates st.1 st.2 now → 0 < st.1.(window) →
  rate_bounded st.1.(window) st.1.(limit) st.2 →
  rate_bounded st.1.(window) st.1.(limit) (foldl let_in st xs).2.
Proof.
  revert st now. induction xs as [|x xs IH]; intros st now Hsorted Hs Hw Hb; [done|]. cbn [foldl].
  apply Sorted_inv in Hsorted as [Hsorted Hhd]. apply HdRel_inv in Hhd.
  apply Sorted_inv in Hsorted as [Hsorted Hhd']. apply HdRel_inv in Hhd'.
  destruct (admit_window st x) as [Ew El].
  specialize (IH (let_in st x) x.(x_at)). rewrite Ew, El in IH. apply IH; [done| |done|].
  - unfold let_in. case_match;
      [apply (simulates_record _ _ _ now); [lia|done]|apply (simulates_later _ _ now); [lia|done]].
  - by apply (admit_rate_bounded _ _ now).
Qed.

Lemma run_rate_bounded w lim xs :
  0 < w → nondecreasing xs → rate_bounded (from_secs w) lim (run (new w lim) xs).2.
Proof.
  intros Hw Hsorted. destruct xs as [|x xs]; [by intros [] ?|].
  apply (foldl_rate_bounded (x :: xs) (new w lim, []) x.(x_checked)).
  - by apply sorted_dup.
  - intros k n _. cbn [fst snd new history]. by rewrite lookup_empty.
  - cbn. unfold from_secs. lia.
  - by intros [] ?.
Qed.

(** The exchanges of a conversation with an instant in [(lo, lo + w]]. *)
Definition in_window (k : string) (lo w : Z) (x : exchange) : bool :=
  bool_decide (x_key x = k) && (lo <? x.(x_at)) && (x.(x_at) <=? lo + w).

Lemma window_last k lo w log :
  count_if (in_window k lo w) log = O ∨
  ∃ pre x post, log = pre ++ x :: post ∧ in_window k lo w x = true ∧
    count_if (in_window k lo w) log = count_if (in_window k lo w) (pre ++ [x]).
Proof.
  induction log as [|x log IH] using rev_ind; [by left|].
  destruct (in_window k lo w x) eqn:E; [right; by exists log, x, []|].
  assert (count_if (in_window k lo w) (log ++ [x]) = count_if (in_window k lo w) log) as ->
    by (rewrite count_if_app, count_if_cons, E; unfold count_if; simpl; lia).
  destruct IH as [?|(pre & y & post & -> & Hy & Hc)]; [by left|right].
  exists pre, y, (post ++ [x]). split_and!; [by rewrite <-app_assoc|done|done].
Qed.

(** A bounded log has at most [max 1 limit] exchanges of a conversation in any
    span of one window. *)
Lemma rate_bounded_window w lim log k lo :
  rate_bounded w lim log → (count_if (in_window k lo w) log ≤ Nat.max 1 lim)%nat.
Proof.
  intros Hb. destruct (window_last k lo w log) as [->|(pre & x & post & Heq & Hx & ->)]; [lia|].
  specialize (Hb pre x post Heq). etransitivity; [|exact Hb].
  unfold in_window in Hx. rewrite !andb_true_iff, bool_decide_eq_true, Z.leb_le, Z.ltb_lt in Hx.
  apply count_if_le. intros y _. unfold in_window.
  rewrite !andb_true_iff, !bool_decide_eq_true, Z.leb_le, !Z.ltb_lt.
  destruct Hx as [[<- ?] ?]. intros [[-> ?] ?]. split; [done|lia].
Qed.

(** The breaker keeps its promise.  Whatever exchanges are attempted, at
    non-decreasing instants, in any span of one window length at most
    [max 1 limit] exchanges of a same conversation (in either direction) were
    let through. *)
Lemma breaker_rate_bound w lim xs f t lo :
  0 < w → nondecreasing xs →
  (count_if (in_window (conv_key f t) lo (from_secs w)) (run (new w lim) xs).2 ≤ Nat.max 1 lim)%nat.
Proof. intros Hw Hsorted. by apply rate_bounded_window, run_rate_bounded. Qed.

Definition burst (n : nat) : list exchange := replicate n (mkExchange "claude-1" "codex-1" 5 5).

Lemma breaker_refines_log_witness :
  count_at "codex-1" "claude-1" 9 (run (new 180 8) (burst 3)).1 = 3%nat.
Proof.
  rewrite (breaker_refines_log 180 8 (burst 3) "codex-1" "claude-1" 9).
  - vm_compute. reflexivity.
  - unfold nondecreasing. repeat (constructor; try (simpl; lia)).
  - intros x Hx. unfold burst in Hx. apply elem_of_replicate in Hx as [-> _]. simpl. lia.
Defined.

Lemma breaker_rate_bound_witness :
  (count_if (in_window (conv_key "claude-1" "codex-1") 0 (from_secs 180)) (run (new 180 8) (burst 20)).2 ≤ 8)%nat
  ∧ count_if (in_window (conv_key "claude-1" "codex-1") 0 (from_secs 180)) (run (new 180 8) (burst 20)).2 = 8%nat.
Proof.
  split; [|vm_compute; reflexivity].
  apply (breaker_rate_bound 180 8 (burst 20) "claude-1" "codex-1" 0); [lia|].
  unfold nondecreasing. repeat (constructor; try (simpl; lia)).
Defined.

End Breaker.

(** Conversations of texts without a bar are told apart by their key. *)
Definition no_bar (s : string) : bool := Str.all_bytes (λ c, negb (bool_decide (c = "|"%char))) s.

Lemma bar_split a b c d :
  no_bar a = true → no_bar c = true → a +:+ "|" +:+ b = c +:+ "|" +:+ d → a = c ∧ b = d.
Proof.
  unfold no_bar. revert c. induction a as [|x a IH]; intros [|y c]; rewrite ?Str.app_cons, ?Str.app_nil_l;
    cbn [Str.all_bytes]; rewrite ?andb_true_iff, ?negb_true_iff, ?bool_decide_eq_false.
  - intros _ _ H. rewrite ?Str.app_cons, ?Str.app_nil_l in H. by simplify_eq.
  - rewrite ?Str.app_cons. intros _ [? _] [= ? _]. congruence.
  - rewrite ?Str.app_cons. intros [? _] _ [= ? _]. congruence.
  - intros [_ Ha] [_ Hc] [= -> H]. destruct (IH c Ha Hc H) as [-> ->]. done.
Qed.

Lemma conv_key_inj a b c d :
  no_bar a = true → no_bar b = true → no_bar c = true → no_bar d = true →
  Breaker.conv_key a b = Breaker.conv_key c d ↔ (a = c ∧ b = d) ∨ (a = d ∧ b = c).
Proof.
  intros Ha Hb Hc Hd. split.
  - unfold Breaker.conv_key. destruct (String.leb a b), (String.leb c d);
      intros H; apply bar_split in H as [-> ->]; auto.
  - intros [[-> ->]|[-> ->]]; [done|apply Breaker.conv_key_sym].
Qed.

(** ** Envelope guard *)

Module Quarantine.

Record EnvelopeGuard := mkGuard {
  seen_ids : gset (string * string);
  window : Z;
  entries : list (Z * (string * string)) }.

Definition new (window : Z) : EnvelopeGuard := mkGuard ∅ window [].

Definition prune (now : Z) (g : EnvelopeGuard) : EnvelopeGuard :=
  let cutoff := now - g.(window) in
  let entries := List.filter (λ e, cutoff <? e.1) g.(entries) in
  mkGuard (list_to_set entries.*2) g.(window) entries.

Definition is_quarantined (msg_id target : string) (now : Z) (g : EnvelopeGuard) : EnvelopeGuard * bool :=
  let g := prune now g in
  (g, bool_decide ((msg_id, target) ∈ g.(seen_ids))).

Definition mark_relayed (msg_id target : string) (now : Z) (g : EnvelopeGuard) : EnvelopeGuard :=
  let key := (msg_id, target) in
  if bool_decide (key ∈ g.(seen_ids)) then g
  else mkGuard ({[key]} ∪ g.(seen_ids)) g.(window) (g.(entries) ++ [(now, key)]).

(** The set is the index of the list, which holds each key once. *)
Definition guard_wf (g : EnvelopeGuard) : Prop :=
  g.(seen_ids) = list_to_set g.(entries).*2 ∧ NoDup g.(entries).*2.

Inductive op :=
  | Check (msg_id target : string) (at_ : Z)
  | Mark (msg_id target : string) (at_ : Z).
Definition apply (g : EnvelopeGuard) (o : op) : EnvelopeGuard :=
  match o with
  | Check i t now => (is_quarantined i t now g).1
  | Mark i t now => mark_relayed i t now g
  end.
Definition op_time (o : op) : Z := match o with Check _ _ t | Mark _ _ t => t end.

Lemma filter_fst_sublist {A B} (p : A * B → bool) (l : list (A * B)) :
  (List.filter p l).*2 `sublist_of` l.*2.
Proof. induction l as [|x l IH]; simpl; [done|]. destruct (p x); simpl; by constructor. Qed.

Lemma prune_wf now g : guard_wf g → guard_wf (prune now g).
Proof. intros [_ Hd]. split; [done|]. simpl. eapply sublist_NoDup; [exact Hd|apply filter_fst_sublist]. Qed.

Lemma mark_wf i t now g : guard_wf g → guard_wf (mark_relayed i t now g).
Proof.
  intros [Hs Hd]. unfold mark_relayed. case_bool_decide as Hin; [done|]. split; simpl.
  - rewrite fmap_app, list_to_set_app_L, Hs. set_solver.
  - rewrite fmap_app. simpl. apply NoDup_app. rewrite Hs, elem_of_list_to_set in Hin.
    split_and!; [done| |apply NoDup_singleton]. intros x Hx ->%list_elem_of_singleton. done.
Qed.

Lemma apply_wf g o : guard_wf g → guard_wf (apply g o).
Proof. destruct o; [apply prune_wf|apply mark_wf]. Qed.

Lemma guard_apply_window g o : (apply g o).(window) = g.(window).
Proof. destruct o; simpl; [done|]. unfold mark_relayed. by case_bool_decide. Qed.

Lemma guard_foldl_wf ops g : guard_wf g → guard_wf (foldl apply g ops).
Proof. revert g. induction ops as [|o ops IH]; intros g H; simpl; auto using apply_wf. Qed.

Lemma guard_foldl_window ops g : (foldl apply g ops).(window) = g.(window).
Proof. revert g. induction ops as [|o ops IH]; intros g; simpl; [done|]. by rewrite IH, guard_apply_window. Qed.

(** A live entry stays, at its instant, whatever is done before it expires. *)
Lemma apply_keeps g o e now :
  op_time o ≤ now → now - g.(window) < e.1 → e ∈ g.(entries) → e ∈ (apply g o).(entries).
Proof.
  destruct o; cbn [apply op_time is_quarantined fst]; intros Hn He Hin.
  - cbn [prune entries]. apply list_filter_elem. split; [done|]. apply Z.ltb_lt. lia.
  - unfold mark_relayed. case_bool_decide; [done|]. cbn [entries]. set_solver.
Qed.

Lemma guard_foldl_keeps ops g e now :
  (∀ o, o ∈ ops → op_time o ≤ now) → now - g.(window) < e.1 →
  e ∈ g.(entries) → e ∈ (foldl apply g ops).(entries).
Proof.
  revert g. induction ops as [|o ops IH]; intros g Ho He Hin; simpl; [done|].
  apply IH; [set_solver|by rewrite guard_apply_window|].
  apply (apply_keeps _ _ _ now); [apply Ho; set_solver|done|done].
Qed.

Lemma quarantined_entries i t now g :
  (is_quarantined i t now g).2 = true ↔ ∃ ts, (ts, (i, t)) ∈ g.(entries) ∧ now - g.(window) < ts.
Proof.
  cbn [is_quarantined snd prune seen_ids]. rewrite bool_decide_eq_true, elem_of_list_to_set.
  rewrite list_elem_of_fmap. split.
  - intros ([ts k] & -> & Hin). apply list_filter_elem in Hin as [? Ht]. apply Z.ltb_lt in Ht. eauto.
  - intros (ts & Hin & Ht). exists (ts, (i, t)). split; [done|].
    apply list_filter_elem. split; [done|]. by apply Z.ltb_lt.
Qed.

(** A message relayed to a target at [T], after the check the daemon makes
    first, is quarantined for that target at every instant of the window that
    follows, whatever is checked or relayed in between: within a window the same
    message id never reaches the same target twice. *)
Lemma relayed_is_quarantined g0 i t T ops now :
  let g := (is_quarantined i t T g0).1 in
  (∀ o, o ∈ ops → op_time o ≤ now) → now < T + g0.(window) →
  (is_quarantined i t T g0).2 = false →
  (is_quarantined i t now (foldl apply (mark_relayed i t T g) ops)).2 = true.
Proof.
  cbn zeta. intros Hops Hnow Hq.
  assert ((mark_relayed i t T (is_quarantined i t T g0).1).(window) = g0.(window)) as Hw
    by (unfold mark_relayed; by case_bool_decide).
  apply quarantined_entries. exists T. rewrite guard_foldl_window, Hw. split; [|lia].
  apply (guard_foldl_keeps _ _ _ now); [done|rewrite Hw; cbn [fst]; lia|].
  unfold mark_relayed. rewrite bool_decide_eq_false_2; [cbn [entries]; set_solver|].
  cbn [is_quarantined snd fst] in *. by apply bool_decide_eq_false in Hq.
Qed.

Lemma relayed_is_quarantined_witness :
  (is_quarantined "abc123" "codex-1" 50
    (foldl apply (mark_relayed "abc123" "codex-1" 0 (is_quarantined "abc123" "codex-1" 0 (new 60)).1)
      [Mark "other" "codex-2" 20])).2 = true.
Proof.
  apply (relayed_is_quarantined (new 60) "abc123" "codex-1" 0 [Mark "other" "codex-2" 20] 50).
  - intros o ->%list_elem_of_singleton. simpl. lia.
  - simpl. lia.
  - vm_compute. reflexivity.
Defined.

(** [mark_relayed] does not prune.  Without the check that the daemon makes
    first, a relay of a message whose previous entry has expired but was not
    pruned yet is not recorded, and the next check lets the message through. *)
Lemma stale_mark_not_recorded :
  let g := mark_relayed "abc123" "codex-1" 100 (mark_relayed "abc123" "codex-1" 0 (new 60)) in
  (is_quarantined "abc123" "codex-1" 101 g).2 = false.
Proof. vm_compute. reflexivity. Qed.

End Quarantine.
