(* ===== verification/Execution.v ===== *)
(** * Executions: [bridget-core/src/execution.rs]

    The pure state machine of submissions and executions: a compare-and-set
    transition on a state and a revision, whose terminal states are final. *)

From S2P Require Import Prelude Message.
Local Open Scope Z_scope.

Inductive SubmissionState :=
  | SubPrepared | SubAdmitted | SubQueued | SubBoundToExecution | SubRejected | SubCancelled.
#[export] Instance SubmissionState_eq_dec : EqDecision SubmissionState.
Proof. solve_decision. Defined.

Definition submission_is_terminal (s : SubmissionState) : bool :=
  match s with SubRejected | SubCancelled => true | _ => false end.

Inductive ExecutionState :=
  | Queued | Starting | Running | WaitingApproval | WaitingUserInput
  | Interrupting | Interrupted | Completed | Failed | Unreachable.
#[export] Instance ExecutionState_eq_dec : EqDecision ExecutionState.
Proof. solve_decision. Defined.

Definition is_terminal (s : ExecutionState) : bool :=
  match s with Interrupted | Completed | Failed | Unreachable => true | _ => false end.

Inductive ExecutionReason :=
  | RAccepted | RDelivered | RProviderAccepted | RMessageVisible | RCompleted | RInterrupted
  | RProviderFailed | RProviderUnavailable | RDeadlineExceeded | RPermissionRequired
  | RUserInputRequired | RCapabilityMissing | RStaleEvent | RRevisionMismatch | RInvalidTransition.
#[export] Instance ExecutionReason_eq_dec : EqDecision ExecutionReason.
Proof. solve_decision. Defined.

Inductive ExecutionTransitionError :=
  | StateMismatch (expected actual : ExecutionState)
  | RevisionMismatch (expected actual : Z)
  | TerminalState (state : ExecutionState)
  | InvalidTransition (from_ to_ : ExecutionState).

Record WorkSubmission := mkSubmission {
  ws_submission_id : string;
  ws_origin : option MessageOrigin;
  ws_intent : option MessageIntent;
  ws_priority_class : string;
  ws_objective_id : option string;
  ws_delegation_id : option string;
  ws_requested_agent : string;
  ws_pinned_instance_id : option string;
  ws_generation : option Z;
  ws_payload_digest : string;
  ws_delivery_deadline_at : option Z;
  ws_execution_deadline_at : option Z;
  ws_fallback_policy : option string;
  ws_created_at : Z;
  ws_state : SubmissionState;
  ws_revision : Z }.

Definition submission_prepared (sid agent digest : string) (created_at : Z) : WorkSubmission :=
  mkSubmission sid None None "normal" None None agent None None digest None None None
    created_at SubPrepared 0.

Record Execution := mkExecution {
  execution_id : string;
  submission_id : string;
  agent_instance_id : string;
  generation : Z;
  state : ExecutionState;
  reason : ExecutionReason;
  started_at : option Z;
  last_progress_at : option Z;
  ended_at : option Z;
  provider_binding_id : option string;
  revision : Z }.

Definition execution_queued (eid sid agent : string) (generation : Z) : Execution :=
  mkExecution eid sid agent generation Queued RAccepted None None None None 0.

Definition transition_allowed (f t : ExecutionState) : bool :=
  match f with
  | Queued => match t with Starting | Unreachable => true | _ => false end
  | Starting => match t with Running | Failed | Unreachable => true | _ => false end
  | Running =>
    match t with
    | WaitingApproval | WaitingUserInput | Interrupting | Completed | Failed | Unreachable => true
    | _ => false
    end
  | WaitingApproval | WaitingUserInput =>
    match t with Running | Failed | Unreachable => true | _ => false end
  | Interrupting => match t with Interrupted | Failed | Unreachable => true | _ => false end
  | Interrupted | Completed | Failed | Unreachable => false
  end.

(** [Execution::transition]; [revision] is a [u64] and [+= 1] wraps around in a
    release build. *)
Definition transition (e : Execution) (expected_state : ExecutionState) (expected_revision : Z)
    (next_state : ExecutionState) (why : ExecutionReason) (observed_at : Z)
    : result ExecutionTransitionError Execution :=
  if negb (e.(revision) =? expected_revision) then
    Err (RevisionMismatch expected_revision e.(revision))
  else if negb (bool_decide (e.(state) = expected_state)) then
    Err (StateMismatch expected_state e.(state))
  else if is_terminal e.(state) then Err (TerminalState e.(state))
  else if negb (transition_allowed e.(state) next_state) then
    Err (InvalidTransition e.(state) next_state)
  else
    Ok (mkExecution e.(execution_id) e.(submission_id) e.(agent_instance_id) e.(generation)
          next_state why
          (if bool_decide (next_state = Starting) && negb (is_some e.(started_at))
           then Some observed_at else e.(started_at))
          (Some observed_at)
          (if is_terminal next_state then Some observed_at else e.(ended_at))
          e.(provider_binding_id)
          (wrap_u64 (e.(revision) + 1))).

(** ** The step relation and its invariant *)

Definition step (e e' : Execution) : Prop :=
  ∃ st rev next why at_, transition e st rev next why at_ = Ok e'.

(** What the fields of an execution say about its state, after [n] steps. *)
Record execution_wf (e : Execution) : Prop := {
  wf_revision : 0 ≤ e.(revision) ≤ u64_max;
  wf_ended : is_some e.(ended_at) = is_terminal e.(state);
  wf_fresh : e.(state) = Queued ↔ e.(last_progress_at) = None;
  wf_started : is_some e.(started_at) = false → e.(state) = Queued ∨ e.(state) = Unreachable;
  wf_ended_progress : is_terminal e.(state) = true → e.(ended_at) = e.(last_progress_at) }.

Lemma transition_Ok e st rev next why at_ e' :
  transition e st rev next why at_ = Ok e' ↔
  e.(revision) = rev ∧ e.(state) = st ∧ is_terminal e.(state) = false ∧
  transition_allowed e.(state) next = true ∧
  e' = mkExecution e.(execution_id) e.(submission_id) e.(agent_instance_id) e.(generation)
         next why
         (if bool_decide (next = Starting) && negb (is_some e.(started_at))
          then Some at_ else e.(started_at))
         (Some at_) (if is_terminal next then Some at_ else e.(ended_at))
         e.(provider_binding_id) (wrap_u64 (e.(revision) + 1)).
Proof.
  unfold transition. destruct (Z.eqb_spec e.(revision) rev); simpl; [|naive_solver].
  case_bool_decide; simpl; [|naive_solver].
  destruct (is_terminal _); [naive_solver|].
  destruct (transition_allowed _ _); simpl; naive_solver.
Qed.

Lemma execution_queued_wf eid sid agent g : execution_wf (execution_queued eid sid agent g).
Proof. split; simpl; try done; unfold_ints; try lia; naive_solver. Qed.

Lemma step_wf e e' : step e e' → execution_wf e → execution_wf e'.
Proof.
  intros (st & rev & next & why & at_ & H) [H1 H2 H3 H4 H5].
  apply transition_Ok in H as (<- & <- & Ht & Ha & ->). split; simpl.
  - unfold wrap_u64, u64_max. pose proof (Z.mod_pos_bound (e.(revision) + 1) (2 ^ 64)). lia.
  - destruct (is_terminal next) eqn:E; [done|]. by rewrite H2, Ht.
  - split; [|done]. intros ->. by destruct e.(state).
  - intros Hs. destruct e.(state) eqn:Es, next; simpl in *; try done; auto;
      destruct e.(started_at); simpl in *; try done; destruct (H4 Hs); done.
  - by intros ->.
Qed.

(** ** Properties *)

Definition reachable (e : Execution) : Prop :=
  ∃ eid sid agent g, rtc step (execution_queued eid sid agent g) e.

Lemma reachable_wf e : reachable e → execution_wf e.
Proof.
  intros (eid & sid & agent & g & H). pose proof (execution_queued_wf eid sid agent g) as Hwf.
  induction H; eauto using step_wf.
Qed.

(** In every execution reached from [queued] by accepted transitions, an end
    instant is present exactly in the terminal states, it is the instant of the
    last progress, and an execution without a start instant is still queued or
    became unreachable. *)
Lemma execution_invariant e : reachable e → execution_wf e.
Proof. apply reachable_wf. Qed.

Definition run_of (e : Execution) (l : list (ExecutionState * ExecutionState * Z)) : option Execution :=
  foldl (λ o '(f, t, at_), e ← o; ok (transition e f e.(revision) t RDelivered at_)) (Some e) l.

Definition e_completed : Execution :=
  mkExecution "e1" "s1" "agent1" 4 Completed RDelivered (Some 10) (Some 12) (Some 12) None 3.

Lemma execution_invariant_witness : execution_wf e_completed.
Proof.
  apply (execution_invariant e_completed). exists "e1", "s1", "agent1", 4.
  eapply rtc_l; [exists Queued, 0, Starting, RDelivered, 10; vm_compute; reflexivity|].
  eapply rtc_l; [exists Starting, 1, Running, RDelivered, 11; vm_compute; reflexivity|].
  eapply rtc_l; [exists Running, 2, Completed, RDelivered, 12; vm_compute; reflexivity|].
  apply rtc_refl.
Defined.

(** Terminal states are final: whatever transitions are attempted on an
    execution in a terminal state, with whatever expectations, none is accepted
    and the execution does not change. *)
Lemma terminal_is_final e st rev next why at_ :
  is_terminal e.(state) = true → ¬ is_ok (transition e st rev next why at_) = true.
Proof.
  intros Ht H. destruct (transition e st rev next why at_) as [e'|] eqn:E; [|done].
  apply transition_Ok in E as (_ & _ & E & _). congruence.
Qed.

Lemma terminal_is_final_witness :
  ¬ is_ok (transition e_completed Completed 3 Running RStaleEvent 13) = true.
Proof. apply (terminal_is_final e_completed Completed 3 Running RStaleEvent 13). reflexivity. Defined.

(** Compare-and-set.  When two writers act on the same revision of an
    execution, at most one of them succeeds: after the first is accepted the
    second is refused with the two revisions, and an accepted transition moves
    the revision by one (below the bound of the counter). *)
Lemma concurrent_transitions_exclude e e' st1 n1 w1 t1 st2 n2 w2 t2 rev :
  0 ≤ rev < u64_max →
  transition e st1 rev n1 w1 t1 = Ok e' →
  e'.(revision) = rev + 1 ∧
  transition e' st2 rev n2 w2 t2 = Err (RevisionMismatch rev (rev + 1)).
Proof.
  intros Hr H. apply transition_Ok in H as (<- & _ & _ & _ & ->).
  assert (wrap_u64 (e.(revision) + 1) = e.(revision) + 1) as Hw by (apply wrap_u64_id; lia).
  split; [done|]. unfold transition. simpl. rewrite Hw.
  destruct (Z.eqb_spec (e.(revision) + 1) e.(revision)); [lia|done].
Qed.

Lemma concurrent_transitions_exclude_witness :
  transition (mkExecution "e1" "s1" "agent1" 4 Starting RDelivered (Some 10) (Some 10) None None 1)
    Queued 0 Unreachable RProviderUnavailable 11 = Err (RevisionMismatch 0 1).
Proof.
  apply (concurrent_transitions_exclude (execution_queued "e1" "s1" "agent1" 4) _
    Queued Starting RDelivered 10 Queued Unreachable RProviderUnavailable 11 0).
  - unfold_ints. lia.
  - vm_compute. reflexivity.
Defined.

(** No execution is stuck: from every state that is not terminal, with the
    current state and revision as expectations, the transition to [Unreachable]
    is accepted, so an execution can always be closed. *)
Lemma can_always_close e why at_ :
  is_terminal e.(state) = false →
  ∃ e', transition e e.(state) e.(revision) Unreachable why at_ = Ok e' ∧
    is_terminal e'.(state) = true ∧ e'.(ended_at) = Some at_.
Proof.
  intros Ht. eexists. split; [apply transition_Ok; split_and!; try done; by destruct e.(state)|]. done.
Qed.

Lemma can_always_close_witness :
  ∃ e', transition (execution_queued "e1" "s1" "agent1" 4) Queued 0 Unreachable RProviderUnavailable 9 = Ok e'
    ∧ is_terminal e'.(state) = true ∧ e'.(ended_at) = Some 9.
Proof. apply (can_always_close (execution_queued "e1" "s1" "agent1" 4) RProviderUnavailable 9). reflexivity. Defined.
