(* ===== verification/Communication.v ===== *)
(** * Communication: [bridget-daemon/src/communication.rs]

    The rules common to every sending path: the cross-project reason, the
    relation between two projects, the scope of an issuer, and the canonical
    bytes of a send, from which a replay is told from a new request. *)

From S2P Require Import Prelude Text Message.
From Stdlib Require Import Ascii.
Local Open Scope Z_scope.

Record CommunicationProject := mkProject { host : string; root : string }.
#[export] Instance CommunicationProject_eq_dec : EqDecision CommunicationProject.
Proof. solve_decision. Defined.

Inductive ProjectRelation := Same | Other | Unknown.
#[export] Instance ProjectRelation_eq_dec : EqDecision ProjectRelation.
Proof. solve_decision. Defined.

Record ProjectWarning := mkWarning {
  code : string;
  sender_project : option CommunicationProject;
  recipient_project : option CommunicationProject;
  recipient : string;
  w_reason : option string }.

(** [value.chars().any(char::is_control)] on the UTF-8 bytes: the category Cc is
    the C0 controls and DEL (one byte) and the C1 controls (0xC2 0x80-0x9F). *)
Fixpoint has_control (s : string) : bool :=
  match s with
  | EmptyString => false
  | String a s' =>
    (byte a <? 0x20) || (byte a =? 0x7F)
    || match s' with
       | String b _ => (byte a =? 0xC2) && (0x80 <=? byte b) && (byte b <=? 0x9F)
       | EmptyString => false
       end
    || has_control s'
  end.

Definition validate_cross_project_reason (reason : option string) : result string (option string) :=
  match reason with
  | None => Ok None
  | Some value =>
    if has_control value then Err "invalid_cross_project_reason : caractères de contrôle interdits"
    else
      let value := Str.trim value in
      if bool_decide (value = "") || (512 <? String.length value)%nat || has_control value then
        Err "invalid_cross_project_reason : motif requis de 1 à 512 octets UTF-8, sans contrôles"
      else Ok (Some value)
  end.

Definition project_relation (sender recipient : option CommunicationProject) : ProjectRelation :=
  match sender, recipient with
  | Some a, Some b => if bool_decide (a = b) then Same else Other
  | _, _ => Unknown
  end.

Definition project_scope (sender recipient : option CommunicationProject) (recipient_id : string)
    (reason : option string) : result string (list ProjectWarning) :=
  reason ← validate_cross_project_reason reason;
  let relation := project_relation sender recipient in
  if bool_decide (relation = Other) && negb (is_some reason) then
    Err "cross_project_reason_required : autre projet, préciser --cross-project-reason avec un motif volontaire"
  else if bool_decide (relation = Same) then Ok []
  else Ok [mkWarning (if bool_decide (relation = Other) then "cross_project" else "project_unknown")
             sender recipient recipient_id reason].

(** ** Issuer scope *)

Definition rotate_left_u64 (z : Z) (n : Z) : Z :=
  Z.lor (wrap_u64 (Z.shiftl z n)) (Z.shiftr z (64 - n)).

Definition scope_step (h : Z * Z) (b : Z) : Z * Z :=
  (wrap_u64 (Z.lxor h.1 b * 0x100000001b3),
   wrap_u64 (Z.lxor (rotate_left_u64 h.2 5) b * 0x9e3779b185ebca87)).

Definition issuer_scope (identity : string) : string :=
  let '(first, second) := foldl scope_step (0xcbf29ce484222325, 0x9e3779b97f4a7c15) (bytes_of identity) in
  "012_scope_" +:+ hex_digits 16 first +:+ hex_digits 16 second.

(** ** Canonical bytes of a send *)

(** [to_be_bytes] of an integer of [n] bytes (two's complement). *)
Fixpoint be_bytes (n : nat) (z : Z) : list Z :=
  match n with O => [] | S n' => be_bytes n' (z / 256) ++ [z mod 256] end.

Definition canonical_field (value : list Z) : list Z := be_bytes 8 (Z.of_nat (length value)) ++ value.

(** [canonical_option]; the value is already turned into text. *)
Definition canonical_option (value : option string) : list Z :=
  match value with
  | Some v => 1 :: canonical_field (bytes_of v)
  | None => [0]
  end.

Definition origin_tag (o : option MessageOrigin) : Z :=
  match o with None => 0 | Some Human => 1 | Some Agent => 2 | Some Routine => 3 | Some System => 4 end.

Definition intent_tag (i : option MessageIntent) : Z :=
  match i with
  | None => 0 | Some QueueOnly => 1 | Some TriggerTurn => 2 | Some SteerCurrent => 3
  | Some InterruptAndStart => 4 | Some ControlOnly => 5
  end.

Definition canonical_message_control (m : BridgetMessage) : list Z :=
  if negb (is_some m.(origin)) && negb (is_some m.(intent)) && bool_decide (m.(references) = []) then []
  else [0xff; origin_tag m.(origin); intent_tag m.(intent)]
    ++ canonical_field (be_bytes 8 (Z.of_nat (length m.(references))))
    ++ mjoin ((λ r, canonical_field (bytes_of r)) <$> m.(references)).

Definition thread_notice_domain : list Z := bytes_of "bridget/thread-notice/v1" ++ [0].
Definition cross_project_domain : list Z := bytes_of "bridget/cross-project/v1" ++ [0].
Definition send_domain : list Z := bytes_of "bridget/client-send/v1" ++ [0].

Definition canonical_thread_notice (m : BridgetMessage) : list Z :=
  match m.(thread_notice) with
  | None => []
  | Some n =>
    thread_notice_domain ++ canonical_field (be_bytes 2 n.(tn_version))
      ++ canonical_field (bytes_of n.(tn_thread_id))
      ++ canonical_field (be_bytes 8 n.(tn_through_seq))
      ++ canonical_field (be_bytes 8 n.(tn_generation))
  end.

Definition canonical_reason (m : BridgetMessage) : list Z :=
  match m.(cross_project_reason) with
  | None => []
  | Some r => cross_project_domain ++ canonical_field (bytes_of r)
  end.

Definition canonical_send (scope message_id : string) (m : BridgetMessage) (issued_at : Z) : list Z :=
  send_domain
    ++ canonical_field (bytes_of scope)
    ++ canonical_field (bytes_of message_id)
    ++ canonical_field (bytes_of m.(to))
    ++ canonical_field (bytes_of m.(body))
    ++ [if m.(reply) then 1 else 0]
    ++ canonical_field (be_bytes 4 m.(hops))
    ++ canonical_option (pretty <$> m.(deadline_at))
    ++ canonical_option m.(in_reply_to)
    ++ canonical_message_control m
    ++ canonical_field (be_bytes 8 issued_at)
    ++ canonical_thread_notice m
    ++ canonical_reason m.

(** ** Prefix-free encodings *)

Definition prefix_free {A} (P : A → Prop) (enc : A → list Z) : Prop :=
  ∀ x y r r', P x → P y → enc x ++ r = enc y ++ r' → x = y ∧ r = r'.

Lemma length_be_bytes n z : length (be_bytes n z) = n.
Proof. revert z. induction n as [|n IH]; intros z; simpl; [done|]. rewrite length_app, IH. simpl. lia. Qed.

(** A representative of a residue class: unsigned and signed ranges both fit. *)
Definition be_range (n : nat) (lo z : Z) : Prop := lo ≤ z < lo + 256 ^ Z.of_nat n.

Lemma be_bytes_mod n z z' :
  be_bytes n z = be_bytes n z' → z mod 256 ^ Z.of_nat n = z' mod 256 ^ Z.of_nat n.
Proof.
  revert z z'. induction n as [|n IH]; intros z z' H; [by rewrite !Z.mod_1_r|].
  cbn [be_bytes] in H. apply app_inj_tail in H as [H1%IH H2].
  rewrite Nat2Z.inj_succ, Z.pow_succ_r, (Z.mul_comm 256) by lia.
  rewrite !(Z.mul_comm (256 ^ _) 256), !Z.rem_mul_r by lia. by rewrite H1, H2.
Qed.

Lemma be_bytes_inj n lo z z' :
  be_range n lo z → be_range n lo z' → be_bytes n z = be_bytes n z' → z = z'.
Proof.
  unfold be_range. intros Hz Hz' H%be_bytes_mod.
  assert (0 < 256 ^ Z.of_nat n) by lia.
  assert ((z - lo) mod 256 ^ Z.of_nat n = (z' - lo) mod 256 ^ Z.of_nat n) as E
    by (by rewrite Zminus_mod, H, <-Zminus_mod).
  rewrite !Z.mod_small in E by lia. lia.
Qed.

Lemma be_bytes_prefix_free n lo : prefix_free (be_range n lo) (be_bytes n).
Proof.
  intros x y r r' Hx Hy H. apply app_inj_1 in H as [H ->]; [|by rewrite !length_be_bytes].
  split; [|done]. by apply (be_bytes_inj n lo).
Qed.

Definition short (l : list Z) : Prop := Z.of_nat (length l) < 2 ^ 64.

Lemma short_range l : short l → be_range 8 0 (Z.of_nat (length l)).
Proof. unfold short, be_range. change (256 ^ Z.of_nat 8) with (2 ^ 64). lia. Qed.

Lemma canonical_field_prefix_free : prefix_free short canonical_field.
Proof.
  intros x y r r' Hx Hy. unfold canonical_field. rewrite <-!app_assoc. intros H.
  apply be_bytes_prefix_free with (lo := 0) in H as [Hlen H]; [|by apply short_range..].
  apply app_inj_1 in H; [done|lia].
Qed.

Definition short_text (s : string) : Prop := short (bytes_of s).
Definition short_opt (o : option string) : Prop := ∀ s, o = Some s → short_text s.

Lemma field_text_prefix_free : prefix_free short_text (λ s, canonical_field (bytes_of s)).
Proof.
  intros x y r r' Hx Hy H. apply canonical_field_prefix_free in H as [H ->]; [|done..].
  by apply bytes_of_inj in H.
Qed.

Lemma short_be_bytes n z : (n ≤ 8)%nat → short (be_bytes n z).
Proof. unfold short. rewrite length_be_bytes. lia. Qed.

Lemma field_int_prefix_free n lo :
  (n ≤ 8)%nat → prefix_free (be_range n lo) (λ z, canonical_field (be_bytes n z)).
Proof.
  intros Hn x y r r' Hx Hy H. apply canonical_field_prefix_free in H as [H ->]; [|by apply short_be_bytes..].
  split; [|done]. by apply (be_bytes_inj n lo).
Qed.

Lemma cons_eq_inv (x y : Z) l l' : x :: l = y :: l' → x = y ∧ l = l'.
Proof. by intros [= -> ->]. Qed.

Lemma canonical_option_prefix_free : prefix_free short_opt canonical_option.
Proof.
  intros [x|] [y|] r r' Hx Hy; cbn [canonical_option app]; intros [Htag H]%cons_eq_inv; try done.
  apply field_text_prefix_free in H as [-> ->]; [done|by apply Hx|by apply Hy].
Qed.

Lemma fields_prefix_free l l' r r' :
  Forall short_text l → Forall short_text l' → length l = length l' →
  mjoin ((λ s, canonical_field (bytes_of s)) <$> l) ++ r =
  mjoin ((λ s, canonical_field (bytes_of s)) <$> l') ++ r' → l = l' ∧ r = r'.
Proof.
  intros Hl. revert l'. induction Hl as [|x l Hx Hl IH]; intros [|y l'] Hl' Hlen; simpl; try done.
  rewrite <-!app_assoc. apply Forall_cons in Hl' as [Hy Hl']. intros H.
  apply field_text_prefix_free in H as [-> H]; [|done..].
  apply IH in H as [-> ->]; [done|done|]. simpl in Hlen. lia.
Qed.

(** ** The canonical bytes identify the request *)

(** The values are in the ranges of their Rust types. *)
Record canon_ok (scope message_id : string) (m : BridgetMessage) (issued_at : Z) : Prop := {
  ok_scope : short_text scope;
  ok_id : short_text message_id;
  ok_to : short_text m.(to);
  ok_body : short_text m.(body);
  ok_hops : i32_min ≤ m.(hops) ≤ i32_max;
  ok_deadline : short_opt (pretty <$> m.(deadline_at));
  ok_in_reply_to : short_opt m.(in_reply_to);
  ok_references : Forall short_text m.(references);
  ok_references_len : Z.of_nat (length m.(references)) < 2 ^ 64;
  ok_issued : i64_min ≤ issued_at ≤ i64_max;
  ok_notice : ∀ n, m.(thread_notice) = Some n →
    0 ≤ n.(tn_version) ≤ u16_max ∧ short_text n.(tn_thread_id) ∧
    0 ≤ n.(tn_through_seq) ≤ u64_max ∧ 0 ≤ n.(tn_generation) ≤ u64_max;
  ok_reason : short_opt m.(cross_project_reason) }.

Lemma i32_range z : i32_min ≤ z ≤ i32_max → be_range 4 i32_min z.
Proof. unfold be_range. change (256 ^ Z.of_nat 4) with (2 ^ 32). unfold_ints. lia. Qed.
Lemma i64_range z : i64_min ≤ z ≤ i64_max → be_range 8 i64_min z.
Proof. unfold be_range. change (256 ^ Z.of_nat 8) with (2 ^ 64). unfold_ints. lia. Qed.
Lemma u64_range z : 0 ≤ z ≤ u64_max → be_range 8 0 z.
Proof. unfold be_range. change (256 ^ Z.of_nat 8) with (2 ^ 64). unfold_ints. lia. Qed.
Lemma u16_range z : 0 ≤ z ≤ u16_max → be_range 2 0 z.
Proof. unfold be_range. change (256 ^ Z.of_nat 2) with (2 ^ 16). unfold_ints. lia. Qed.
#[local] Hint Resolve i32_range i64_range u64_range u16_range : bridget.

Lemma origin_tag_inj o o' : origin_tag o = origin_tag o' → o = o'.
Proof. by destruct o as [[]|], o' as [[]|]. Qed.
Lemma intent_tag_inj i i' : intent_tag i = intent_tag i' → i = i'.
Proof. by destruct i as [[]|], i' as [[]|]. Qed.

(** The first byte of the field of an integer is the top byte of its length. *)
Lemma field_int_head z r : ∃ t, canonical_field (be_bytes 8 z) ++ r = 0 :: t.
Proof. eexists. reflexivity. Qed.

(** The control part is absent or starts with 0xff, and is followed by the
    issue instant, which starts with 0. *)
Lemma control_prefix_free m m' z z' r r' :
  Forall short_text m.(references) → Forall short_text m'.(references) →
  Z.of_nat (length m.(references)) < 2 ^ 64 → Z.of_nat (length m'.(references)) < 2 ^ 64 →
  canonical_message_control m ++ canonical_field (be_bytes 8 z) ++ r =
  canonical_message_control m' ++ canonical_field (be_bytes 8 z') ++ r' →
  m.(origin) = m'.(origin) ∧ m.(intent) = m'.(intent) ∧ m.(references) = m'.(references) ∧
  canonical_field (be_bytes 8 z) ++ r = canonical_field (be_bytes 8 z') ++ r'.
Proof.
  intros Hr Hr' Hl Hl' H. unfold canonical_message_control in H.
  destruct (field_int_head z r) as [t Ht], (field_int_head z' r') as [t' Ht'].
  assert (∀ (m : BridgetMessage), negb (is_some m.(origin)) && negb (is_some m.(intent)) &&
    bool_decide (m.(references) = []) = true → m.(origin) = None ∧ m.(intent) = None ∧ m.(references) = [])
    as Hnil.
  { intros m0. rewrite !andb_true_iff, bool_decide_eq_true.
    destruct m0.(origin), m0.(intent); naive_solver. }
  destruct (_ && _) eqn:E in H; [apply Hnil in E as (-> & -> & ->)|];
    destruct (_ && _) eqn:E' in H; [apply Hnil in E' as (-> & -> & ->); by auto| | |].
  - rewrite Ht in H. cbn [app] in H. apply cons_eq_inv in H as [H _]. done.
  - rewrite Ht' in H. cbn [app] in H. apply cons_eq_inv in H as [H _]. done.
  - rewrite <-!app_assoc in H. cbn [app] in H.
    apply cons_eq_inv in H as [_ H]. apply cons_eq_inv in H as [Ho H]. apply cons_eq_inv in H as [Hi H].
    apply origin_tag_inj in Ho. apply intent_tag_inj in Hi.
    apply (field_int_prefix_free 8 0) in H as [Hlen H]; [|lia|apply u64_range; unfold_ints; lia..].
    apply fields_prefix_free in H as [-> ->]; [|done|done|lia]. auto.
Qed.

(** The tail: an optional thread notice, then an optional reason. *)
Lemma notice_reason_inj scope id m t scope' id' m' t' :
  canon_ok scope id m t → canon_ok scope' id' m' t' →
  canonical_thread_notice m ++ canonical_reason m = canonical_thread_notice m' ++ canonical_reason m' →
  m.(thread_notice) = m'.(thread_notice) ∧ m.(cross_project_reason) = m'.(cross_project_reason).
Proof.
  intros Hm Hm' H. pose proof (ok_notice _ _ _ _ Hm) as Hn. pose proof (ok_notice _ _ _ _ Hm') as Hn'.
  assert (canonical_reason m = canonical_reason m' → m.(cross_project_reason) = m'.(cross_project_reason)) as Hrsn.
  { unfold canonical_reason. pose proof (ok_reason _ _ _ _ Hm) as Hr. pose proof (ok_reason _ _ _ _ Hm') as Hr'.
    destruct m.(cross_project_reason) as [x|], m'.(cross_project_reason) as [y|]; try done.
    intros E%app_inv_head. rewrite <-(List.app_nil_r (canonical_field (bytes_of x))) in E.
    rewrite <-(List.app_nil_r (canonical_field (bytes_of y))) in E.
    apply field_text_prefix_free in E as [-> _]; auto. }
  unfold canonical_thread_notice in H.
  destruct m.(thread_notice) as [[v ti s g]|], m'.(thread_notice) as [[v' ti' s' g']|].
  - destruct (Hn _ eq_refl) as (? & ? & ? & ?), (Hn' _ eq_refl) as (? & ? & ? & ?).
    cbn [tn_version tn_thread_id tn_through_seq tn_generation] in *. rewrite <-!app_assoc in H. apply app_inv_head in H.
    apply (field_int_prefix_free 2 0) in H as [-> H]; [|lia|auto with bridget..].
    apply field_text_prefix_free in H as [-> H]; [|done..].
    apply (field_int_prefix_free 8 0) in H as [-> H]; [|lia|auto with bridget..].
    apply (field_int_prefix_free 8 0) in H as [-> H]; [|lia|auto with bridget..]. auto.
  - exfalso. unfold canonical_reason in H. by destruct m'.(cross_project_reason).
  - exfalso. unfold canonical_reason in H. by destruct m.(cross_project_reason).
  - auto.
Qed.

(** What a canonical send is about: every field of the message that the code
    calls the published envelope. *)
Definition same_request (scope id : string) (m : BridgetMessage) (t : Z)
    (scope' id' : string) (m' : BridgetMessage) (t' : Z) : Prop :=
  scope = scope' ∧ id = id' ∧ m.(to) = m'.(to) ∧ m.(body) = m'.(body) ∧ m.(reply) = m'.(reply) ∧
  m.(hops) = m'.(hops) ∧ m.(deadline_at) = m'.(deadline_at) ∧ m.(in_reply_to) = m'.(in_reply_to) ∧
  m.(origin) = m'.(origin) ∧ m.(intent) = m'.(intent) ∧ m.(references) = m'.(references) ∧
  t = t' ∧ m.(thread_notice) = m'.(thread_notice) ∧
  m.(cross_project_reason) = m'.(cross_project_reason).

Lemma pretty_opt_inj (o o' : option Z) : pretty <$> o = pretty <$> o' → o = o'.
Proof. destruct o, o'; simpl; try done. intros [= H%(inj _)]. congruence. Qed.


Lemma example_canon_ok b : short_text b → canon_ok "scope" "m1" (example_message "a" "b" b None) 7.
Proof.
  intros Hb. split; cbn -[i32_min i32_max i64_min i64_max u64_max u16_max];
    try done; try (by vm_compute); unfold_ints; try lia.
Qed.


(** ** Project scope *)

(** A reason that was accepted: trimmed, 1 to 512 bytes, no control character. *)
Definition valid_reason (v : string) : Prop :=
  Str.trim v = v ∧ v ≠ "" ∧ (String.length v ≤ 512)%nat ∧ has_control v = false.

Lemma validate_reason_Ok reason v :
  validate_cross_project_reason reason = Ok (Some v) → valid_reason v ∧ ∃ raw, reason = Some raw ∧ v = Str.trim raw.
Proof.
  unfold validate_cross_project_reason. destruct reason as [raw|]; [|done].
  destruct (has_control raw); [done|]. destruct (_ || _) eqn:E; [done|]. intros [= <-].
  rewrite !orb_false_iff, bool_decide_eq_false, Nat.ltb_ge in E. destruct E as [[? ?] ?].
  split; [|by exists raw]. split_and!; try done. apply Str.trim_idem.
Qed.

Lemma validate_reason_fixed v : valid_reason v → validate_cross_project_reason (Some v) = Ok (Some v).
Proof.
  intros (Ht & Hne & Hlen & Hc). unfold validate_cross_project_reason. rewrite Hc, Ht.
  by rewrite bool_decide_eq_false_2, (proj2 (Nat.ltb_ge _ _)), Hc.
Qed.

(** Between two different projects the scope check passes only with a reason
    whose trimmed text is valid. *)
Lemma project_scope_Other s r rid reason ws :
  project_relation s r = Other → project_scope s r rid reason = Ok ws →
  ∃ raw, reason = Some raw ∧ valid_reason (Str.trim raw).
Proof.
  unfold project_scope. intros Hrel (o & Ho & H)%bind_Ok. rewrite Hrel in H. simpl in H.
  destruct o as [v|]; [|done]. apply validate_reason_Ok in Ho as (Hv & raw & -> & ->). eauto.
Qed.

(** Crossing a project boundary is deliberate and recorded: when the two
    projects are known and differ, a send passes the scope check only with a
    valid reason, and it then carries exactly one warning that names the two
    projects and that reason; within one project no warning is attached, and an
    unknown project is never reported as the same. *)
Lemma project_scope_deliberate s r rid reason ws :
  project_scope s r rid reason = Ok ws →
  match project_relation s r with
  | Same => s = r ∧ is_some s = true ∧ ws = []
  | Other => ∃ v, valid_reason v ∧ ws = [mkWarning "cross_project" s r rid (Some v)]
  | Unknown => (s = None ∨ r = None) ∧
      ∃ o, ws = [mkWarning "project_unknown" s r rid o] ∧ ∀ v, o = Some v → valid_reason v
  end.
Proof.
  unfold project_scope. intros (o & Ho & H)%bind_Ok.
  assert (∀ v, o = Some v → valid_reason v) as Hv
    by (intros v ->; by apply validate_reason_Ok in Ho as [? _]).
  destruct s as [a|], r as [b|]; cbn [project_relation] in *; simpl in H; simplify_eq/=;
    [|split; [auto|]; eauto..].
  destruct (decide (a = b)) as [->|Hne].
  - rewrite (bool_decide_eq_true_2 (b = b)) in * by done. by simplify_eq/=.
  - rewrite (bool_decide_eq_false_2 (a = b)) in * by done. destruct o as [v|]; simplify_eq/=. eauto.
Qed.

Lemma project_scope_deliberate_witness :
  ∃ v, valid_reason v ∧
    [mkWarning "cross_project" (Some (mkProject "h" "/a")) (Some (mkProject "h" "/b")) "codex-1" (Some "relecture")] =
    [mkWarning "cross_project" (Some (mkProject "h" "/a")) (Some (mkProject "h" "/b")) "codex-1" (Some v)].
Proof.
  apply (project_scope_deliberate (Some (mkProject "h" "/a")) (Some (mkProject "h" "/b")) "codex-1"
    (Some " relecture ")).
  vm_compute. reflexivity.
Defined.

Lemma issuer_scope_length identity : String.length (issuer_scope identity) = 42%nat.
Proof.
  unfold issuer_scope. destruct (foldl _ _ _). rewrite !Str.app_length, !hex_digits_length. done.
Qed.
