(* ===== verification/Dispatch.v ===== *)
(** * Dispatch: [prepare_dispatch] of [bridget-daemon/src/daemon.rs]

    The gate that every send goes through, and the commit that follows it: the
    dormancy, reply, project, breaker, duplicate, quarantine, hop, do-not-disturb
    and routing checks in the order of the code, with every state change each
    branch makes.  The tables of the daemon are maps; a table of the database is
    the map of its rows, [None] when it cannot be read. *)

From S2P Require Import Prelude Text Uuid Message Router Guards Communication.
Local Open Scope Z_scope.

#[export] Instance DelegatedOrigin_eq_dec : EqDecision DelegatedOrigin.
Proof. solve_decision. Defined.
#[export] Instance ThreadNotice_eq_dec : EqDecision ThreadNotice.
Proof. solve_decision. Defined.
#[export] Instance BridgetMessage_eq_dec : EqDecision BridgetMessage.
Proof. solve_decision. Defined.

(** ** State *)

(** The fields of [Presence] that dispatch and guidance read. *)
Inductive PresenceMode := Acp | Tmux | Cli.
#[export] Instance PresenceMode_eq_dec : EqDecision PresenceMode.
Proof. solve_decision. Defined.

Record Presence := mkPresence {
  p_name : string;
  p_agent_type : string;
  p_transport : string;
  p_mode : option PresenceMode;
  p_state : string;
  dnd_until : option Z;
  link_seen : Z }.

(** A row of [tracked_requests]. *)
Record TrackedRequest := mkRequest { rq_state : string; rq_sender : string; rq_target : string }.

Record Daemon := mkDaemon {
  router : Router;
  connections : gset string;
  conn_names : gmap string string;
  conn_instances : gmap string string;
  auxiliary_connections : gset string;
  presences : gmap string Presence;
  communication_projects : gmap string (option CommunicationProject);
  circuit_breaker : Breaker.CircuitBreaker;
  deduplicator : Dedup.Deduplicator;
  envelope_guard : Quarantine.EnvelopeGuard;
  (** [agent_tracking]: the dormant flag of each agent. *)
  tracking : option (gmap string bool);
  tracked_requests : option (gmap string TrackedRequest);
  (** [send_deliveries]: the messages dispatched or acknowledged under a request
      key, [None] for bytes that do not decode. *)
  send_rows : gmap string (list (option BridgetMessage));
  (** [specialist_requests] of the human scope: the stored message. *)
  human_requests : gmap string BridgetMessage }.

Definition with_guards (cb : Breaker.CircuitBreaker) (dd : Dedup.Deduplicator)
    (g : Quarantine.EnvelopeGuard) (d : Daemon) : Daemon :=
  mkDaemon d.(router) d.(connections) d.(conn_names) d.(conn_instances) d.(auxiliary_connections)
    d.(presences) d.(communication_projects) cb dd g d.(tracking) d.(tracked_requests)
    d.(send_rows) d.(human_requests).

(** The readings of the monotonic clock during one call, in the order in which
    the code makes them. *)
Record Clock := mkClock {
  t_project : Z; t_breaker : Z; t_dedup : Z; t_guard : Z; t_dnd : Z; t_left : Z }.

Definition UI_HUMAN_AGENT_ID : string := "550e8400-e29b-41d4-a716-4466554400f0".
Definition UI_HUMAN_SENDER : string := "humain".
Definition PRESENCE_RETENTION : Z := from_secs 300.
Definition DORMANT_MESSAGE : string :=
  "Agent dormant : cette nouvelle sollicitation est refusée. Son utilisateur doit demander son réveil, depuis sa fiche ou avec bridget agents wake <UUID>. Après réveil confirmé, une nouvelle sollicitation sera possible ; conservez ce reçu refusé. Les missions déjà engagées et leurs résultats sont conservés ; les autres travaux autorisés peuvent continuer.".

Definition routing_agent_id (agent : string) : string :=
  if bool_decide (agent = UI_HUMAN_SENDER) then UI_HUMAN_AGENT_ID else agent.

(** ** Presence *)

Definition is_dnd (now : Z) (p : Presence) : bool :=
  match p.(dnd_until) with Some until => now <? until | None => false end.

Definition dnd_minutes_left (now : Z) (p : Presence) : Z :=
  Z.max 1
    (match p.(dnd_until) with
     | Some until => if now <=? until then (as_secs (until - now) + 59) / 60 else 0
     | None => 0
     end).

Definition presence_within_retention (now : Z) (p : Presence) : bool :=
  now - p.(link_seen) <=? PRESENCE_RETENTION.

Definition presence_of_agent (d : Daemon) (agent : string) : option Presence :=
  a ← get_agent d.(router) agent;
  i ← d.(conn_instances) !! a.(connection_id);
  d.(presences) !! i.

Definition live_connection_identity (now : Z) (d : Daemon) (conn : string) : option (string * string) :=
  agent ← d.(conn_names) !! conn;
  inst ← d.(conn_instances) !! conn;
  route ← get_agent d.(router) agent;
  if negb (bool_decide (route.(connection_id) ∈ d.(connections)))
    || negb (bool_decide (d.(conn_instances) !! route.(connection_id) = Some inst))
    || (negb (bool_decide (route.(connection_id) = conn))
        && negb (bool_decide (conn ∈ d.(auxiliary_connections))))
    || negb (is_some_and (d.(presences) !! inst) (λ p,
         bool_decide (p.(p_name) = agent) && presence_within_retention now p
         && (bool_decide (p.(p_state) = "connected") || bool_decide (p.(p_state) = "busy"))))
  then None else Some (agent, inst).

Definition connection_communication_project (now : Z) (d : Daemon) (conn : string)
    : option CommunicationProject :=
  owner ← match live_connection_identity now d conn with
          | Some (agent, _) => connection_id <$> get_agent d.(router) agent
          | None => if bool_decide (is_Some (d.(conn_names) !! conn)) then None else Some conn
          end;
  mjoin (d.(communication_projects) !! owner).

Definition agent_communication_project (now : Z) (d : Daemon) (agent : string)
    : option CommunicationProject :=
  route ← get_agent d.(router) (routing_agent_id agent);
  if negb (bool_decide (route.(connection_id) ∈ d.(connections))) then None else
  _ ← live_connection_identity now d route.(connection_id);
  mjoin (d.(communication_projects) !! route.(connection_id)).

(** ** Database reads *)

(** [agent_tracking::dormant]: [None] when the table cannot be read. *)
Definition dormant (d : Daemon) (agent : string) : option bool :=
  rows ← d.(tracking); Some (default false (rows !! agent)).

Definition is_human_request (d : Daemon) (m : BridgetMessage) : bool :=
  bool_decide (m.(from) = "human") && m.(reply)
  && bool_decide (d.(human_requests) !! m.(id) = Some m).

(** [correlated_project_reason]: exactly one row, sent by the same pair. *)
Definition correlated_project_reason (d : Daemon) (request_id sender target : string) : option string :=
  match default [] (d.(send_rows) !! request_id) with
  | [row] =>
    m ← opt_filter (λ m : BridgetMessage, m.(reply) && bool_decide (m.(from) = sender)
                      && bool_decide (m.(to) = target)) row;
    m.(cross_project_reason)
  | _ => None
  end.

Definition valid_tracked_reply (d : Daemon) (m : BridgetMessage) : bool :=
  is_some_and m.(in_reply_to) (λ request_id,
    is_some_and (rows ← d.(tracked_requests); rows !! request_id) (λ request,
      bool_decide (request.(rq_state) = "open") && bool_decide (request.(rq_sender) = m.(to))
      && bool_decide (request.(rq_target) = m.(from)))).

(** ** [prepare_dispatch] *)

Record PreparedDispatch := mkPrepared {
  pd_project_warnings : list ProjectWarning;
  pd_content_key : string;
  pd_message_guard_id : string;
  pd_target_conn : string;
  pd_logical_sender : string;
  pd_reply_sender_conn : option string;
  pd_valid_tracked_reply : bool }.

Definition refusal := (string * string)%type.

Section Dispatch.
(** The [{:?}] formatting of a string, for the texts of the router errors. *)
Context (debug : string → string).

(** From the breaker on: the part that changes the state and the message. *)
Definition prepare_guards (clk : Clock) (d : Daemon) (m : BridgetMessage)
    (conn logical_sender content_key message_guard_id : string)
    (warnings : list ProjectWarning) (reply_sender_conn : option string) (tracked : bool)
    : Daemon * BridgetMessage * result refusal PreparedDispatch :=
  let routing_from := routing_agent_id m.(from) in
  let routing_to := routing_agent_id m.(to) in
  let cb := d.(circuit_breaker) in
  if negb (Breaker.check_at logical_sender m.(to) clk.(t_breaker) cb) then
    (d, m, Err ("circuit_breaker",
      "disjoncteur: limite " +:+ pretty cb.(Breaker.limit) +:+ " échanges / "
        +:+ pretty (Breaker.window_secs cb) +:+ "s"))
  else
    let '(dd, duplicate) := Dedup.is_duplicate content_key m.(to) clk.(t_dedup) d.(deduplicator) in
    let d := with_guards cb dd d.(envelope_guard) d in
    if duplicate : bool then (d, m, Err ("duplicate_content", "doublon de contenu")) else
    let '(g, quarantined) :=
      Quarantine.is_quarantined message_guard_id m.(to) clk.(t_guard) d.(envelope_guard) in
    let d := with_guards cb dd g d in
    if quarantined : bool then (d, m, Err ("quarantined", "message déjà relayé (quarantaine)")) else
    let '(m, alive) := decrement_hops m in
    if negb alive then (d, m, Err ("hops_exhausted", "budget de sauts épuisé")) else
    match (if tracked then None
           else opt_filter (is_dnd clk.(t_dnd)) (presence_of_agent d routing_to)) with
    | Some presence =>
      (d, m, Err ("dnd", "« " +:+ presence.(p_name) +:+ " » ne souhaite pas être dérangé (encore "
        +:+ pretty (dnd_minutes_left clk.(t_left) presence) +:+ " min)"))
    | None =>
      match resolve d.(router) routing_from routing_to m.(hops) conn with
      | Reject e => (d, m, Err ("routing", router_error_to_string debug e))
      | Deliver target_conn =>
        (d, m, Ok (mkPrepared warnings content_key message_guard_id target_conn logical_sender
                     reply_sender_conn tracked))
      end
    end.

Definition prepare_dispatch (clk : Clock) (d : Daemon) (m : BridgetMessage)
    (conn logical_sender content_key message_guard_id : string) (native_task_exchange : bool)
    : Daemon * BridgetMessage * result refusal PreparedDispatch :=
  let routing_from := routing_agent_id m.(from) in
  let routing_to := routing_agent_id m.(to) in
  match dormant d routing_to with
  | None => (d, m, Err ("tracking_storage_unavailable",
      "État de sommeil illisible. Conservez cette demande ; les lectures et les autres travaux autorisés peuvent continuer."))
  | Some asleep =>
    if asleep && negb native_task_exchange then (d, m, Err ("agent_dormant", DORMANT_MESSAGE)) else
    let reply_sender_conn := connection_id <$> get_agent d.(router) routing_from in
    if m.(reply) && negb (is_some reply_sender_conn) && negb (is_human_request d m) then
      (d, m, Err ("reply_sender_unavailable",
        "--reply requiert un agent Bridget connecté ; lance la commande depuis un wrapper actif ou envoie sans --reply"))
    else
    let tracked := valid_tracked_reply d m in
    match validate_cross_project_reason m.(cross_project_reason) with
    | Err reason => (d, m, Err ("invalid_cross_project_reason", reason))
    | Ok explicit_reason =>
      let inherited_reason :=
        if negb (is_some explicit_reason) && tracked then
          id ← m.(in_reply_to); correlated_project_reason d id m.(to) m.(from)
        else None in
      let scope_reason := opt_or explicit_reason inherited_reason in
      match (if native_task_exchange then Ok []
             else project_scope (connection_communication_project clk.(t_project) d conn)
                    (agent_communication_project clk.(t_project) d routing_to) m.(to) scope_reason) with
      | Err reason =>
        (d, m, Err (if Str.starts_with "cross_project_reason_required" reason
                    then "cross_project_reason_required" else "invalid_cross_project_reason", reason))
      | Ok warnings =>
        prepare_guards clk d (with_reason scope_reason m) conn logical_sender content_key
          message_guard_id warnings reply_sender_conn tracked
      end
    end
  end.

(** The three marks a committed send leaves (both sending paths make them in
    this order); [t1], [t2] and [t3] are the readings of the clock. *)
Definition commit_dispatch (t1 t2 t3 : Z) (p : PreparedDispatch) (target : string) (d : Daemon) : Daemon :=
  with_guards
    (Breaker.record_at p.(pd_logical_sender) target t1 d.(circuit_breaker))
    (Dedup.mark_sent p.(pd_content_key) target t2 d.(deduplicator))
    (Quarantine.mark_relayed p.(pd_message_guard_id) target t3 d.(envelope_guard)) d.


(** ** What an accepted send went through *)

(** Accepted by the second half: its checks passed, in the state they saw. *)
Lemma prepare_guards_Ok clk d m conn sender key gid ws rc tracked d' m' p :
  prepare_guards clk d m conn sender key gid ws rc tracked = (d', m', Ok p) →
  Breaker.check_at sender m.(to) clk.(t_breaker) d.(circuit_breaker) = true ∧
  (Dedup.is_duplicate key m.(to) clk.(t_dedup) d.(deduplicator)).2 = false ∧
  (Quarantine.is_quarantined gid m.(to) clk.(t_guard) d.(envelope_guard)).2 = false ∧
  m' = (decrement_hops m).1 ∧ 0 < m'.(hops) ∧
  (tracked = true ∨ ∀ q, presence_of_agent d (routing_agent_id m.(to)) = Some q → is_dnd clk.(t_dnd) q = false) ∧
  (p.(pd_target_conn) ≠ conn ∧ ∃ a, get_agent d.(router) (routing_agent_id m.(to)) = Some a ∧
     a.(connection_id) = p.(pd_target_conn)) ∧
  d' = with_guards d.(circuit_breaker)
         (Dedup.is_duplicate key m.(to) clk.(t_dedup) d.(deduplicator)).1
         (Quarantine.is_quarantined gid m.(to) clk.(t_guard) d.(envelope_guard)).1 d ∧
  p = mkPrepared ws key gid p.(pd_target_conn) sender rc tracked.
Proof.
  unfold prepare_guards.
  destruct (Breaker.check_at _ _ _ _); cbn [negb]; [|done].
  destruct (Dedup.is_duplicate _ _ _ _) as [dd []]; [done|].
  cbn [envelope_guard with_guards].
  destruct (Quarantine.is_quarantined _ _ _ _) as [g []]; [done|].
  destruct (decrement_hops m) as [m1 alive] eqn:Hm. destruct alive; cbn [negb]; [|done].
  destruct (if tracked then None else _) as [q|] eqn:Hdnd; [done|].
  destruct (resolve _ _ _ _ _) as [c|e] eqn:Hr; [|done]. intros [= <- <- <-].
  apply resolve_Deliver in Hr as (Hh & Hne & a & Ha & Hc). cbn [fst snd pd_target_conn].
  split_and!; try done; [|by eauto].
  destruct tracked; [by left|right]. intros q Hq.
  change (presence_of_agent (with_guards d.(circuit_breaker) dd g
    (with_guards d.(circuit_breaker) dd d.(envelope_guard) d)))
    with (presence_of_agent d) in Hdnd.
  rewrite Hq in Hdnd. simpl in Hdnd. by destruct (is_dnd _ q).
Qed.

Lemma with_guards_guards cb dd g cb' dd' g' d :
  with_guards cb dd g (with_guards cb' dd' g' d) = with_guards cb dd g d.
Proof. done. Qed.

(** Whatever the outcome, a call leaves the breaker alone and at most prunes the
    two other memories, at the instants it read. *)
Definition prunes (clk : Clock) (d d' : Daemon) : Prop :=
  d'.(circuit_breaker) = d.(circuit_breaker) ∧
  (d'.(deduplicator) = d.(deduplicator) ∨
   d'.(deduplicator) = Dedup.prune clk.(t_dedup) d.(deduplicator)) ∧
  (d'.(envelope_guard) = d.(envelope_guard) ∨
   d'.(envelope_guard) = Quarantine.prune clk.(t_guard) d.(envelope_guard)).

Lemma prepare_guards_prunes clk d m conn sender key gid ws rc tracked :
  prunes clk d (prepare_guards clk d m conn sender key gid ws rc tracked).1.1.
Proof.
  unfold prepare_guards, prunes.
  destruct (Breaker.check_at _ _ _ _); cbn [negb]; [|by auto].
  cbn [Dedup.is_duplicate]. destruct (match _ with Some _ => _ | None => _ end); [by auto|].
  cbn [Quarantine.is_quarantined envelope_guard with_guards].
  destruct (bool_decide _); [by auto|]. destruct (decrement_hops m) as [m1 []]; cbn [negb]; [|by auto].
  destruct (if tracked then None else _); [by auto|]. destruct (resolve _ _ _ _ _); by auto.
Qed.

Lemma prepare_dispatch_prunes clk d m conn sender key gid native :
  prunes clk d (prepare_dispatch clk d m conn sender key gid native).1.1.
Proof.
  assert (prunes clk d d) by (unfold prunes; auto).
  unfold prepare_dispatch. destruct (dormant d _) as [asleep|]; [|done].
  destruct (asleep && _); [done|]. destruct (m.(reply) && _ && _); [done|].
  destruct (validate_cross_project_reason _); [|done].
  destruct (if native then _ else _); [apply prepare_guards_prunes|done].
Qed.

(** C1: a send is accepted only when every rule of the gate holds: the tracking
    table is readable and the target awake (or the exchange belongs to an
    admitted native task), a reply has a connected sender or a recorded human
    request, two different known projects come with a valid reason kept in the
    message, the conversation is under its limit, neither the content nor the
    message id was already sent to the target in its window, the hop budget
    stays positive after the transfer, the target accepts to be disturbed or the
    message answers one of its open requests, and the message goes to the
    connection of the addressed agent, which is not the sender's. *)
Theorem prepare_dispatch_gate clk d m conn sender key gid native d' m' p :
  prepare_dispatch clk d m conn sender key gid native = (d', m', Ok p) →
  (∃ asleep, dormant d (routing_agent_id m.(to)) = Some asleep ∧ (asleep = true → native = true)) ∧
  (m.(reply) = true → is_some p.(pd_reply_sender_conn) = true ∨ is_human_request d m = true) ∧
  (native = false →
   project_relation (connection_communication_project clk.(t_project) d conn)
     (agent_communication_project clk.(t_project) d (routing_agent_id m.(to))) = Other →
   ∃ raw, m'.(cross_project_reason) = Some raw ∧ valid_reason (Str.trim raw)) ∧
  Breaker.check_at sender m.(to) clk.(t_breaker) d.(circuit_breaker) = true ∧
  (Dedup.is_duplicate key m.(to) clk.(t_dedup) d.(deduplicator)).2 = false ∧
  (Quarantine.is_quarantined gid m.(to) clk.(t_guard) d.(envelope_guard)).2 = false ∧
  0 < m'.(hops) ∧
  (valid_tracked_reply d m = true ∨
   ∀ q, presence_of_agent d (routing_agent_id m.(to)) = Some q → is_dnd clk.(t_dnd) q = false) ∧
  (p.(pd_target_conn) ≠ conn ∧
   ∃ a, get_agent d.(router) (routing_agent_id m.(to)) = Some a ∧ a.(connection_id) = p.(pd_target_conn)).
Proof.
  unfold prepare_dispatch. destruct (dormant d _) as [asleep|] eqn:Hd; [|done].
  destruct (asleep && negb native) eqn:Has; [done|].
  destruct (m.(reply) && _ && _) eqn:Hrep; [done|].
  destruct (validate_cross_project_reason _) as [explicit|] eqn:Hv; [|done].
  set (scope_reason := opt_or explicit _).
  destruct (if native then _ else _) as [ws|] eqn:Hs; [|done].
  intros (H1 & H2 & H3 & -> & Hh & Hdnd & Ht & _ & Hp)%prepare_guards_Ok. rewrite Hp.
  cbn [pd_reply_sender_conn pd_target_conn]. rewrite Hp in Ht. cbn [pd_target_conn] in Ht.
  split_and!; try done.
  - exists asleep. split; [done|]. by destruct asleep, native.
  - intros Hr. rewrite Hr in Hrep. simpl in Hrep. destruct (is_human_request d m); [by right|left].
    by destruct (connection_id <$> _).
  - intros -> Hrel. by apply project_scope_Other in Hs.
  - by apply Ht.
  - by apply Ht.
Qed.

(** ** Sequences of sends *)

(** [finish] is the hasher of the contents, see [content_key]. *)
Context (finish : list Z → Z).

(** One send: the message, the scope of the issuer when it comes through the
    idempotent path, whether that path admits it as an exchange of a native
    mission, whether the durable preparation that follows the gate succeeds, and
    the instants of the three marks. *)
Record Attempt := mkAttempt {
  a_clk : Clock;
  a_msg : BridgetMessage;
  a_conn : string;
  a_scope : option string;
  a_mission : bool;
  a_persisted : bool;
  a_t1 : Z; a_t2 : Z; a_t3 : Z }.

(** What each of the two paths gives to the gate: an issuer of the idempotent
    path has its own space of senders, contents and message ids. *)
Definition a_sender (a : Attempt) : string :=
  match a.(a_scope) with Some scope => "client:" +:+ scope | None => a.(a_msg).(from) end.
Definition a_key (a : Attempt) : string :=
  match a.(a_scope) with Some scope => scope +:+ ":" +:+ content_key finish a.(a_msg) | None => content_key finish a.(a_msg) end.
Definition a_gid (a : Attempt) : string :=
  match a.(a_scope) with Some scope => scope +:+ ":" +:+ a.(a_msg).(id) | None => a.(a_msg).(id) end.
Definition a_native (a : Attempt) : bool := match a.(a_scope) with Some _ => a.(a_mission) | None => false end.

Definition a_to (a : Attempt) : string := a.(a_msg).(to).

(** A send and the log of the sends that were let through. *)
Definition dispatch (st : Daemon * list Attempt) (a : Attempt) : Daemon * list Attempt :=
  let '(d1, _, r) := prepare_dispatch a.(a_clk) st.1 a.(a_msg) a.(a_conn) (a_sender a) (a_key a)
                       (a_gid a) (a_native a) in
  match r with
  | Ok p =>
    if a.(a_persisted) then (commit_dispatch a.(a_t1) a.(a_t2) a.(a_t3) p (a_to a) d1, st.2 ++ [a])
    else (d1, st.2)
  | Err _ => (d1, st.2)
  end.

(** The readings of the monotonic clock made by a send for the memories. *)
Definition a_readings (a : Attempt) : list Z :=
  [a.(a_clk).(t_breaker); a.(a_clk).(t_dedup); a.(a_clk).(t_guard); a.(a_t1); a.(a_t2); a.(a_t3)].
Definition clock_monotonic (l : list Attempt) : Prop := Sorted Z.le (mjoin (a_readings <$> l)).

Lemma dispatch_cases st a :
  (prunes a.(a_clk) st.1 (dispatch st a).1 ∧ (dispatch st a).2 = st.2) ∨
  ((dispatch st a).2 = st.2 ++ [a] ∧
   Breaker.check_at (a_sender a) (a_to a) a.(a_clk).(t_breaker) st.1.(circuit_breaker) = true ∧
   (Dedup.is_duplicate (a_key a) (a_to a) a.(a_clk).(t_dedup) st.1.(deduplicator)).2 = false ∧
   (Quarantine.is_quarantined (a_gid a) (a_to a) a.(a_clk).(t_guard) st.1.(envelope_guard)).2 = false ∧
   (dispatch st a).1.(circuit_breaker) =
     Breaker.record_at (a_sender a) (a_to a) a.(a_t1) st.1.(circuit_breaker) ∧
   (dispatch st a).1.(deduplicator) = Dedup.mark_sent (a_key a) (a_to a) a.(a_t2)
     (Dedup.is_duplicate (a_key a) (a_to a) a.(a_clk).(t_dedup) st.1.(deduplicator)).1 ∧
   (dispatch st a).1.(envelope_guard) = Quarantine.mark_relayed (a_gid a) (a_to a) a.(a_t3)
     (Quarantine.is_quarantined (a_gid a) (a_to a) a.(a_clk).(t_guard) st.1.(envelope_guard)).1).
Proof.
  pose proof (prepare_dispatch_prunes a.(a_clk) st.1 a.(a_msg) a.(a_conn) (a_sender a) (a_key a)
    (a_gid a) (a_native a)) as Hpr.
  unfold dispatch. destruct (prepare_dispatch _ _ _ _ _ _ _ _) as [[d1 m1] [p|e]] eqn:E; [|by left].
  destruct a.(a_persisted); [right|by left]. split; [done|].
  unfold prepare_dispatch in E.
  destruct (dormant _ _) as [asleep|]; [|done]. destruct (asleep && _); [done|].
  destruct (_ && _ && _); [done|]. destruct (validate_cross_project_reason _); [|done].
  destruct (if a_native a then _ else _); [|done].
  apply prepare_guards_Ok in E as (? & ? & ? & _ & _ & _ & _ & -> & ->).
  cbn [fst commit_dispatch with_guards circuit_breaker deduplicator envelope_guard
    pd_logical_sender pd_content_key pd_message_guard_id]. done.
Qed.

(** *** Spacing of the sends let through *)

(** Two sends of the log with the same key: the check of the second is made at
    least [w] after the mark of the first. *)
Definition spaced {K} (key : Attempt → K) (mark check : Attempt → Z) (w : Z)
    (log : list Attempt) : Prop :=
  ∀ pre x mid y post, log = pre ++ x :: mid ++ y :: post → key x = key y → mark x + w ≤ check y.

Definition by_id (a : Attempt) : string * string := ((a_gid a), a_to a).
Definition by_content (a : Attempt) : string * string := ((a_key a), a_to a).
Definition guard_checked (a : Attempt) : Z := a.(a_clk).(t_guard).
Definition dedup_checked (a : Attempt) : Z := a.(a_clk).(t_dedup).

Lemma spaced_snoc {K} (key : Attempt → K) mark check w log y :
  spaced key mark check w log →
  (∀ x, x ∈ log → key x = key y → mark x + w ≤ check y) →
  spaced key mark check w (log ++ [y]).
Proof.
  intros Hlog Hy pre x mid z post Heq Hk. destruct post as [|u post _] using rev_ind.
  - change (x :: mid ++ [z]) with ((x :: mid) ++ [z]) in Heq.
    rewrite (app_assoc pre) in Heq. apply app_inj_tail in Heq as [Heq <-].
    apply Hy; [|done]. rewrite Heq. set_solver.
  - change (x :: mid ++ z :: post ++ [u]) with ((x :: mid) ++ (z :: post) ++ [u]) in Heq.
    rewrite (app_assoc (x :: mid)), (app_assoc pre) in Heq. apply app_inj_tail in Heq as [Heq _].
    eapply Hlog; [|done]. by rewrite Heq, <-app_comm_cons.
Qed.

Lemma spaced_nil {K} (key : Attempt → K) mark check w : spaced key mark check w [].
Proof. by intros [] ?. Qed.

(** Every relay of the log that is still in its window is an entry of the guard. *)
Definition guard_inv (w now : Z) (st : Daemon * list Attempt) : Prop :=
  st.1.(envelope_guard).(Quarantine.window) = w ∧
  spaced by_id a_t3 guard_checked w st.2 ∧
  ∀ x, x ∈ st.2 → now - w < x.(a_t3) → (x.(a_t3), by_id x) ∈ st.1.(envelope_guard).(Quarantine.entries).

Lemma dispatch_guard w now st a :
  now ≤ guard_checked a ≤ a.(a_t3) → guard_inv w now st → guard_inv w a.(a_t3) (dispatch st a).
Proof.
  intros Hn (Hw & Hsp & Hinv).
  destruct (dispatch_cases st a) as [[(_ & _ & Hg) Hlog]|(Hlog & _ & _ & Hq & _ & _ & Hg)].
  - unfold guard_inv. rewrite Hlog. destruct Hg as [-> | ->]; split_and!; try done; intros x Hx Ht.
    + apply Hinv; [done|lia].
    + cbn [Quarantine.prune Quarantine.entries]. apply list_filter_elem. rewrite Hw.
      unfold guard_checked in Hn. split; [apply Hinv; [done|lia]|]. apply Z.ltb_lt. simpl. lia.
  - unfold guard_inv. rewrite Hlog, Hg. unfold Quarantine.mark_relayed.
    cbn [Quarantine.is_quarantined snd fst] in *. rewrite Hq.
    cbn [Quarantine.prune Quarantine.entries Quarantine.window].
    split_and!; [done| |intros x Hx Ht].
    + apply spaced_snoc; [done|]. intros x Hx Hk.
      destruct (Z.le_gt_cases (x.(a_t3) + w) (guard_checked a)) as [|Hgt]; [done|].
      exfalso. apply not_true_iff_false in Hq. apply Hq, Quarantine.quarantined_entries.
      exists x.(a_t3). injection Hk as <- Ht. rewrite <-Ht, Hw.
      unfold guard_checked in *. split; [apply Hinv; [done|lia]|lia].
    + apply elem_of_app in Hx as [Hx| ->%list_elem_of_singleton]; apply elem_of_app; [left|right; by constructor].
      apply list_filter_elem. unfold guard_checked in Hn. rewrite Hw.
      split; [apply Hinv; [done|lia]|]. apply Z.ltb_lt. simpl. lia.
Qed.

(** The same for the contents, when a key names one target. *)
Definition keys_name_targets (l : list Attempt) : Prop :=
  ∀ x y, x ∈ l → y ∈ l → (a_key x) = (a_key y) → a_to x = a_to y.

Definition dedup_inv (w now : Z) (st : Daemon * list Attempt) : Prop :=
  st.1.(deduplicator).(Dedup.window) = w ∧
  spaced by_content a_t2 dedup_checked w st.2 ∧
  ∀ x, x ∈ st.2 → now - w < x.(a_t2) →
    ∃ ts, x.(a_t2) ≤ ts ∧ st.1.(deduplicator).(Dedup.entries) !! (a_key x) = Some (ts, a_to x).

Lemma dedup_prune_keeps w now t d k ts tgt :
  d.(Dedup.window) = w → now - w < ts → t ≤ now → d.(Dedup.entries) !! k = Some (ts, tgt) →
  (Dedup.prune t d).(Dedup.entries) !! k = Some (ts, tgt).
Proof.
  intros Hw Ht Hn Hk. rewrite Dedup.prune_lookup, Hk, Hw. simpl. by rewrite (proj2 (Z.ltb_lt _ _)) by lia.
Qed.

Lemma dispatch_dedup w now st a :
  now ≤ dedup_checked a ≤ a.(a_t2) → (∀ x, x ∈ st.2 → x.(a_t2) ≤ now) →
  keys_name_targets (st.2 ++ [a]) →
  dedup_inv w now st → dedup_inv w a.(a_t2) (dispatch st a).
Proof.
  intros Hn Hpast Hkt (Hw & Hsp & Hinv).
  destruct (dispatch_cases st a) as [[(_ & Hd & _) Hlog]|(Hlog & _ & Hdup & _ & _ & Hd & _)].
  - unfold dedup_inv. rewrite Hlog. destruct Hd as [-> | ->]; split_and!; try done; intros x Hx Ht;
      (destruct (Hinv x) as (ts & Hts & He); [done|lia|]; exists ts; split; [done|]).
    + done.
    + unfold dedup_checked in Hn. eapply (dedup_prune_keeps w a.(a_t2)); [done|lia|lia|done].
  - unfold dedup_inv. rewrite Hlog, Hd. cbn [Dedup.mark_sent Dedup.window Dedup.entries Dedup.is_duplicate fst snd] in *.
    split_and!; [done| |intros x Hx Ht].
    + apply spaced_snoc; [done|]. intros x Hx [= Hk Hto].
      destruct (Z.le_gt_cases (x.(a_t2) + w) (dedup_checked a)) as [|Hgt]; [done|].
      exfalso. destruct (Hinv x) as (ts & Hts & He); [done|lia|].
      unfold dedup_checked in *.
      apply (dedup_prune_keeps w a.(a_clk).(t_dedup) a.(a_clk).(t_dedup)) in He; [|done|lia|lia].
      rewrite <-Hk, He, Hto in Hdup. by rewrite bool_decide_eq_true_2 in Hdup.
    + destruct (decide ((a_key x) = (a_key a))) as [Hk|Hk].
      * exists a.(a_t2). rewrite Hk, lookup_insert_eq, (Hkt x a); [|done|set_solver|done].
        split; [|done]. apply elem_of_app in Hx as [Hx| ->%list_elem_of_singleton]; [|done].
        specialize (Hpast x Hx). lia.
      * apply elem_of_app in Hx as [Hx| ->%list_elem_of_singleton]; [|done].
        destruct (Hinv x) as (ts & Hts & He); [done|lia|]. exists ts. split; [done|].
        rewrite lookup_insert_ne by done. unfold dedup_checked in Hn.
        eapply (dedup_prune_keeps w a.(a_t2)); [done|lia|lia|done].
Qed.

(** *** The breaker along a sequence of sends *)

Definition exchange_of (a : Attempt) : Breaker.exchange :=
  Breaker.mkExchange (a_sender a) (a_to a) a.(a_clk).(t_breaker) a.(a_t1).

Definition breaker_inv (w : Z) (lim : nat) (now : Z) (st : Daemon * list Attempt) : Prop :=
  let cb := st.1.(circuit_breaker) in
  cb.(Breaker.window) = w ∧ cb.(Breaker.limit) = lim ∧
  Breaker.simulates cb (exchange_of <$> st.2) now ∧ Breaker.rate_bounded w lim (exchange_of <$> st.2).

Lemma dispatch_breaker w lim now st a :
  0 < w → now ≤ a.(a_clk).(t_breaker) ≤ a.(a_t1) → breaker_inv w lim now st →
  breaker_inv w lim a.(a_t1) (dispatch st a).
Proof.
  intros Hw Hn (Ew & El & Hs & Hb).
  destruct (dispatch_cases st a) as [[(Hc & _ & _) Hlog]|(Hlog & Hck & _ & _ & Hc & _ & _)];
    unfold breaker_inv; rewrite Hc, Hlog.
  - split_and!; [done..| |done]. apply (Breaker.simulates_later _ _ now); [lia|done].
  - rewrite fmap_app. split_and!; [done..| |].
    + by apply (Breaker.simulates_record _ _ (exchange_of a) now); [simpl; lia|].
    + subst w lim.
      pose proof (Breaker.admit_rate_bounded (st.1.(circuit_breaker), exchange_of <$> st.2)
        (exchange_of a) now Hs) as Hadm.
      unfold Breaker.let_in in Hadm. cbn [fst snd exchange_of Breaker.x_from Breaker.x_to Breaker.x_checked] in Hadm.
      rewrite Hck in Hadm. apply Hadm; simpl; [lia|done|done].
Qed.

(** *** Induction along a sequence of sends *)

Definition ordered (now : Z) (a : Attempt) : Prop :=
  now ≤ a.(a_clk).(t_breaker) ≤ dedup_checked a ∧ dedup_checked a ≤ guard_checked a ≤ a.(a_t1) ∧
  a.(a_t1) ≤ a.(a_t2) ≤ a.(a_t3).

Lemma trace_ind (I : Z → Daemon * list Attempt → Prop) (P : Attempt → Prop) :
  (∀ now st a, ordered now a → P a → I now st → I a.(a_t3) (dispatch st a)) →
  ∀ l st now, Sorted Z.le (now :: mjoin (a_readings <$> l)) → Forall P l → I now st →
    ∃ now', I now' (foldl dispatch st l).
Proof.
  intros Hstep. induction l as [|a l IH]; intros st now Hs HP HI; [by exists now|].
  inversion HP as [|?? Pa Pl]; subst. cbn [foldl].
  change (mjoin (a_readings <$> a :: l)) with (a_readings a ++ mjoin (a_readings <$> l)) in Hs.
  unfold a_readings at 1 in Hs. simpl in Hs.
  repeat match goal with H : Sorted _ (_ :: _) |- _ =>
    lazymatch type of H with
    | Sorted _ (a_t3 a :: _) => fail
    | _ => apply Sorted_inv in H as [H ?%HdRel_inv]
    end end.
  apply (IH _ a.(a_t3)); [done|done|]. apply (Hstep now); [|done|done].
  unfold ordered, dedup_checked, guard_checked. lia.
Qed.

Lemma clock_monotonic_start l :
  clock_monotonic l → ∃ now, Sorted Z.le (now :: mjoin (a_readings <$> l)).
Proof.
  unfold clock_monotonic. intros Hs. destruct (mjoin (a_readings <$> l)) as [|t ts].
  - exists 0. repeat constructor.
  - exists t. by apply Breaker.sorted_dup.
Qed.

(** A message of an issuer: its id in the space of the issuer. *)
Definition by_message (a : Attempt) : option string * string * string := (a.(a_scope), a.(a_msg).(id), a_to a).
Lemma by_message_id x y : by_message x = by_message y → by_id x = by_id y.
Proof using. intros [= Hs Hi Ht]. unfold by_id, a_gid. by rewrite Hs, Hi, Ht. Qed.

(** C4: within a quarantine window, a daemon never relays a message of an issuer
    (its id, with the scope of the issuer on the idempotent path and alone on
    the direct one) to the same target twice, whatever the sends it is asked to
    make on both paths, the ones it refuses and the ones whose durable
    preparation fails included.  The clock of the sends does not go back. *)
Theorem no_message_relayed_twice d w l :
  d.(envelope_guard) = Quarantine.new w → clock_monotonic l →
  spaced by_message a_t3 guard_checked w (foldl dispatch (d, []) l).2.
Proof.
  intros Hd [now Hs]%clock_monotonic_start. intros pre x mid y post Hlog Hk%by_message_id. revert pre x mid y post Hlog Hk.
  destruct (trace_ind (guard_inv w) (λ _, True)) with l (d, [] : list Attempt) now
    as [now' (_ & Hsp & _)]; [| | | |exact Hsp].
  - intros n st a (H1 & H2 & H3) _ HI. apply (dispatch_guard w n); [lia|done].
  - done.
  - by apply Forall_true.
  - unfold guard_inv. cbn [fst snd]. rewrite Hd. split_and!; [done|apply spaced_nil|set_solver].
Qed.

(** When the keys of the contents name their targets, a daemon never sends
    the same content to the same target twice within the window of the
    deduplicator. *)
Lemma no_content_sent_twice d w l :
  d.(deduplicator) = Dedup.new w → clock_monotonic l → keys_name_targets l →
  spaced by_content a_t2 dedup_checked (from_secs w) (foldl dispatch (d, []) l).2.
Proof.
  intros Hd [now Hs]%clock_monotonic_start Hk.
  destruct (trace_ind (λ n st, dedup_inv (from_secs w) n st ∧ ∀ x, x ∈ st.2 → x.(a_t2) ≤ n ∧ x ∈ l) (λ a, a ∈ l))
    with l (d, [] : list Attempt) now as [now' [(_ & Hsp & _) _]]; [| | | |exact Hsp].
  - intros n st a (H1 & H2 & H3) Ha [HI Hx].
    assert (∀ x, x ∈ st.2 ++ [a] → x ∈ l) as Hin by (intros x [?%Hx| ->%list_elem_of_singleton]%elem_of_app; tauto).
    split.
    + assert (dedup_inv (from_secs w) a.(a_t2) (dispatch st a)) as (? & ? & Hlive).
      { apply (dispatch_dedup _ n); [lia|intros x [? _]%Hx; lia|intros x y ??; apply Hk; auto|done]. }
      split_and!; [done..|]. intros x ??. apply Hlive; [done|lia].
    + intros x Hl. destruct (dispatch_cases st a) as [[_ Hlog]|[Hlog _]]; rewrite Hlog in Hl.
      * destruct (Hx x Hl). split; [lia|done].
      * split; [|by apply Hin]. apply elem_of_app in Hl as [[? _]%Hx| ->%list_elem_of_singleton]; lia.
  - done.
  - by apply Forall_forall.
  - unfold dedup_inv. cbn [fst snd]. rewrite Hd. split; [|set_solver].
    split_and!; [done|apply spaced_nil|set_solver].
Qed.

(** C3: in any span of one breaker window, a daemon lets through at most
    [max 1 limit] sends of a conversation, in either direction, whatever it is
    asked to send. *)
Theorem conversation_rate_bound d w lim l f t lo :
  d.(circuit_breaker) = Breaker.new w lim → 0 < w → clock_monotonic l →
  (count_if (Breaker.in_window (Breaker.conv_key f t) lo (from_secs w))
     (exchange_of <$> (foldl dispatch (d, []) l).2) ≤ Nat.max 1 lim)%nat.
Proof.
  intros Hd Hw [now Hs]%clock_monotonic_start. apply Breaker.rate_bounded_window.
  destruct (trace_ind (breaker_inv (from_secs w) lim) (λ _, True)) with l (d, [] : list Attempt) now
    as [now' (_ & _ & _ & Hb)]; [| | | |exact Hb].
  - intros n st a (H1 & H2 & H3) _ HI.
    assert (breaker_inv (from_secs w) lim a.(a_t1) (dispatch st a)) as (? & ? & Hsim & ?)
      by (apply (dispatch_breaker _ _ n); [unfold from_secs; lia|lia|done]).
    split_and!; [done..| |done]. apply (Breaker.simulates_later _ _ a.(a_t1)); [lia|done].
  - done.
  - by apply Forall_true.
  - unfold breaker_inv. cbn [fst snd]. rewrite Hd. split_and!; [done..| |by intros [] ?].
    intros k n _. cbn [Breaker.new Breaker.history]. by rewrite lookup_empty.
Qed.

End Dispatch.

(** ** A daemon with two agents *)
Module DispatchExamples.
Import RouterExamples.

(** The [{:?}] of a text with nothing to escape. *)
Definition shown (s : string) : string := dquote +:+ s +:+ dquote.

Definition two_agents : Router :=
  mkRouter (<[B := mkAgent B Claude "conn-2"]> {[A := mkAgent A Codex "conn-1"]}).

Definition idle : Daemon :=
  mkDaemon two_agents {["conn-1"; "conn-2"]} {["conn-1" := A; "conn-2" := B]} ∅ ∅ ∅ ∅
    (Breaker.new 180 8) (Dedup.new 60) (Quarantine.new (from_secs 60)) (Some ∅) (Some ∅) ∅ ∅.

Definition at_ (s : Z) : Clock :=
  let t := from_secs s in mkClock t t t t t t.

(** A second try after ten seconds is refused, one after two minutes is not. *)
Definition try (s : Z) : Attempt :=
  mkAttempt (at_ s) (example_message A B "bonjour" None) "conn-1" None false true
    (from_secs s) (from_secs s) (from_secs s).
Definition hashed (l : list Z) : Z := foldl (λ a b, (a * 31 + b) mod 2 ^ 64) 7 l.
Definition three_tries : list Attempt := [try 0; try 10; try 120].

Lemma three_tries_monotonic : clock_monotonic three_tries.
Proof. unfold clock_monotonic. vm_compute. repeat (constructor; try (vm_compute; congruence)). Defined.

Definition let_through : list Attempt := (foldl (dispatch shown hashed) (idle, []) three_tries).2.

Example two_let_through : (λ a, as_secs a.(a_t1)) <$> let_through = [0; 120].
Proof. vm_compute. reflexivity. Qed.

(** Two issuers relay the same id, one does not relay it twice. *)
Definition scoped (scope body : string) (s : Z) : Attempt :=
  mkAttempt (at_ s) (example_message A B body None) "conn-1" (Some scope) false true (from_secs s) (from_secs s) (from_secs s).
Example scopes_apart :
  a_scope <$> (foldl (dispatch shown hashed) (idle, []) [scoped "one" "bonjour" 0; scoped "two" "bonjour" 5; scoped "one" "encore" 10]).2 = [Some "one"; Some "two"].
Proof. vm_compute. reflexivity. Qed.

Lemma prepare_dispatch_gate_witness :
  0 < ((prepare_dispatch shown (at_ 0) idle (example_message A B "bonjour" None) "conn-1" A "k" "g" false).1.2).(hops).
Proof.
  destruct (prepare_dispatch_gate shown (at_ 0) idle (example_message A B "bonjour" None) "conn-1" A "k" "g" false
    (prepare_dispatch shown (at_ 0) idle (example_message A B "bonjour" None) "conn-1" A "k" "g" false).1.1
    (prepare_dispatch shown (at_ 0) idle (example_message A B "bonjour" None) "conn-1" A "k" "g" false).1.2
    (mkPrepared [mkWarning "project_unknown" None None B None] "k" "g" "conn-2" A (Some "conn-1") false))
    as (_ & _ & _ & _ & _ & _ & H & _); [vm_compute; reflexivity|exact H].
Defined.

Lemma no_message_relayed_twice_witness :
  spaced by_message a_t3 guard_checked (from_secs 60) let_through ∧ length let_through = 2%nat.
Proof.
  split; [|vm_compute; reflexivity].
  apply (no_message_relayed_twice shown hashed idle (from_secs 60) three_tries); [reflexivity|apply three_tries_monotonic].
Defined.

Lemma no_content_sent_twice_witness :
  spaced (by_content hashed) a_t2 dedup_checked (from_secs 60) let_through.
Proof.
  apply (no_content_sent_twice shown hashed idle 60 three_tries); [reflexivity|apply three_tries_monotonic|].
  intros x y Hx Hy _. unfold three_tries in *. rewrite !elem_of_cons, elem_of_nil in Hx, Hy.
  by destruct Hx as [->|[->|[->|[]]]], Hy as [->|[->|[->|[]]]].
Defined.

Lemma conversation_rate_bound_witness :
  (count_if (Breaker.in_window (Breaker.conv_key B A) 0 (from_secs 180)) (exchange_of <$> let_through) ≤ 8)%nat.
Proof.
  apply (conversation_rate_bound shown hashed idle 180 8 three_tries B A 0);
    [reflexivity|lia|apply three_tries_monotonic].
Defined.

End DispatchExamples.
