(* ===== verification/Reaper.v ===== *)
(** * Reaper: [bridget-daemon/src/reaper.rs]

    The observer of abandoned sessions: the classification of each process and
    directory, the report with its summary and its text, the parsing of what the
    machine shows, and the observation of the machine itself.  What the machine
    answers ([ps], [lsof], the directory entries, the status of the daemon, the
    JSON encoding of a report) is an argument of [observe_live].  A path is its
    text. *)

From S2P Require Import Prelude Text.
From Stdlib Require Import Ascii.
Local Open Scope Z_scope.

Definition DEFAULT_MIN_AGE_SECS : Z := 30 * 60.
Definition DEFAULT_DOUBLE_OBSERVATION_SECS : Z := 5 * 60.
Definition PHASE : string := "observer".
Definition GAP_BACKGROUND : string := "fail_closed_background_liveness_absent".
Definition MANQUE_BACKGROUND : string :=
  "MANQUE À INSTRUIRE: Bridget n'expose pas encore de signal de travail de fond (équivalent T3 backgroundLiveness). Toute cible classe A reste fail-closed jusqu'à ce signal.".

Inductive TargetClass := ManagedWrapper | TestDaemon | TempDir.
Inductive Verdict := Eligible | Protege | Incertain.
#[export] Instance TargetClass_eq_dec : EqDecision TargetClass.
Proof. solve_decision. Defined.
#[export] Instance Verdict_eq_dec : EqDecision Verdict.
Proof. solve_decision. Defined.

Record TargetReport := mkTarget {
  class : TargetClass;
  identity : string;
  fingerprint : string;
  t_pid : option Z;
  t_ppid : option Z;
  cmdline : option string;
  t_path : option string;
  t_age_secs : option Z;
  t_agent_name : option string;
  criteria_met : list string;
  criteria_missing : list string;
  guards_triggered : list string;
  uncertainty_reasons : list string;
  verdict : Verdict;
  would_have_done : string;
  stable_for_phase1 : bool;
  gaps : list string }.

Record ReportSummary := mkSummary {
  n_eligible : nat; n_protege : nat; n_incertain : nat; n_stable : nat }.

Record ReaperReport := mkReport {
  phase : string;
  observed_at_unix : Z;
  r_min_age_secs : Z;
  r_double_observation_secs : Z;
  r_background_liveness_available : bool;
  gaps_to_instruct : list string;
  targets : list TargetReport;
  summary : ReportSummary }.

Record ProcessSnapshot := mkProcess { pid : Z; ppid : Z; age_secs : Z; command : string }.

Record AgentPresence := mkPresence {
  name : string;
  state : string;
  mode : option string;
  location : option string;
  last_seen_secs : Z }.

Record TempDirSnapshot := mkTempDir {
  d_path : string; d_age_secs : Z; prefix_kind : string; d_agent_name : option string }.

Record PriorHit := mkHit { h_fingerprint : string; h_verdict : Verdict; h_observed_at : Z }.

Record WorldView := mkWorld {
  processes : list ProcessSnapshot;
  agents : list AgentPresence;
  open_request_participants : list string;
  temp_dirs : list TempDirSnapshot;
  prior_hits : list PriorHit;
  now_unix : Z;
  min_age_secs : Z;
  double_observation_secs : Z;
  background_liveness_available : bool;
  agent_inventory_available : bool }.

Definition with_defaults (now : Z) : WorldView :=
  mkWorld [] [] [] [] [] now DEFAULT_MIN_AGE_SECS DEFAULT_DOUBLE_OBSERVATION_SECS false true.

(** ** Reading commands and names *)

Definition command_is_managed_wrapper (command : string) : bool :=
  match Str.split_whitespace command with
  | p0 :: p1 :: _ => Str.contains "bridget" p0 && bool_decide (p1 = "managed-wrapper")
  | _ => false
  end.

Definition command_is_bridget_daemon (command : string) : bool :=
  match Str.split_whitespace command with
  | p0 :: p1 :: rest =>
    if Str.contains "bridget" p0 && bool_decide (p1 = "daemon")
    then match rest with [] => true | p2 :: _ => Str.starts_with "HOME=" p2 end
    else false
  | _ => false
  end.

Definition parse_managed_wrapper_name (command : string) : option string :=
  match Str.split_whitespace command with
  | _ :: p1 :: _ :: p3 :: _ => if bool_decide (p1 = "managed-wrapper") then Some p3 else None
  | _ => None
  end.

Fixpoint first_home (tokens : list string) : option string :=
  match tokens with
  | [] => None
  | tok :: tokens' =>
    match Str.strip_prefix "HOME=" tok with Some h => Some h | None => first_home tokens' end
  end.
Definition parse_fixture_home (command : string) : option string :=
  first_home (Str.split_whitespace command).

Definition harness_temp_prefix (name : string) : option string :=
  if Str.starts_with "bg909-" name then Some "bg909"
  else if Str.starts_with "bg-" name then Some "bg"
  else if Str.starts_with "mg1504-" name then Some "mg1504"
  else None.

(** The components of a path are its pieces between slashes; the ones that
    [components] drops (empty, or a dot) have no such prefix. *)
Definition path_looks_like_harness_home (path : string) : bool :=
  existsb (λ c, is_some (harness_temp_prefix c)) (Str.split "/"%char path).

(** The separators 45 and 46 are the dash and the dot. *)
Fixpoint before_separator (s : string) : option string :=
  match s with
  | EmptyString => None
  | String c s' =>
    if bool_decide (c = "-"%char) || bool_decide (c = "."%char) then Some ""
    else String c <$> before_separator s'
  end.

Definition agent_name_from_temp_dir (name_ : string) (known : list AgentPresence) : option string :=
  match max_by_key (λ n, Z.of_nat (String.length n))
          (List.filter (λ n, is_some_and (Str.strip_prefix n name_)
                               (λ suffix, Str.starts_with "-" suffix || Str.starts_with "." suffix))
             (name <$> known)) with
  | Some agent_name => Some agent_name
  | None =>
    candidate ← before_separator name_;
    if bool_decide (candidate = "") || (64 <? String.length candidate)%nat
       || negb (Str.all_bytes (λ c, Str.is_ascii_alphanumeric c || bool_decide (c = "_"%char)) candidate)
    then None else Some candidate
  end.

Definition process_mentions_path (command path : string) : bool := Str.contains path command.

Definition split_first_token (line : string) : option (string * string) :=
  let line := Str.trim_start line in
  if bool_decide (line = "") then None
  else let '(tok, rest) := Str.break_ws line in Some (tok, Str.trim_start rest).

(** [days * 86_400 + hours * 3_600 + minutes * 60 + seconds] on [u64]. *)
Definition parse_etime_secs (etime : string) : option Z :=
  let etime := Str.trim etime in
  if bool_decide (etime = "") then None else
  '(days, rest) ← match Str.split_once "-"%char etime with
                  | Some (d, r) => days ← Str.parse_u64 d; Some (days, r)
                  | None => Some (0, etime)
                  end;
  '(hours, minutes, seconds) ←
    match Str.split ":"%char rest with
    | [m; s] => m ← Str.parse_u64 m; s ← Str.parse_u64 s; Some (0, m, s)
    | [h; m; s] => h ← Str.parse_u64 h; m ← Str.parse_u64 m; s ← Str.parse_u64 s; Some (h, m, s)
    | _ => None
    end;
  Some (wrap_u64 (days * 86400 + hours * 3600 + minutes * 60 + seconds)).

Definition truncate (s : string) (max : nat) : string :=
  if (Str.chars_count s <=? max)%nat then s else Str.chars_take max s +:+ "…".

Definition stable_cmdline_digest (command : string) : string :=
  match Str.split_whitespace command with
  | _ :: p1 :: p2 :: p3 :: _ =>
    if bool_decide (p1 = "managed-wrapper") then p2 +:+ ":" +:+ p3 else truncate command 64
  | _ => truncate command 64
  end.

(** ** Classification *)

Definition verdict_label (v : Verdict) : string :=
  match v with Eligible => "eligible" | Protege => "protege" | Incertain => "incertain" end.

Record FinalizeInput := mkInput {
  f_class : TargetClass;
  f_identity : string;
  f_fingerprint : string;
  f_pid : option Z;
  f_ppid : option Z;
  f_cmdline : option string;
  f_path : option string;
  f_age_secs : option Z;
  f_agent_name : option string;
  f_criteria_met : list string;
  f_criteria_missing : list string;
  f_guards : list string;
  f_uncertainty : list string;
  f_would_have_done : string;
  f_gaps : list string;
  force_incertain_if_background_gap : bool }.

Definition is_empty {A} (l : list A) : bool := match l with [] => true | _ => false end.

(** The decision part of [finalize_report]. *)
Definition final_verdict (i : FinalizeInput) : Verdict :=
  let v :=
    if negb (is_empty i.(f_guards)) then Protege
    else if negb (is_empty i.(f_uncertainty)) || negb (is_empty i.(f_criteria_missing)) then Incertain
    else if is_empty i.(f_criteria_missing) && is_empty i.(f_guards) then Eligible
    else Incertain in
  if i.(force_incertain_if_background_gap) && bool_decide (v = Eligible) then Incertain else v.

Definition confirms (world : WorldView) (fingerprint : string) (prior : PriorHit) : bool :=
  bool_decide (prior.(h_fingerprint) = fingerprint) && bool_decide (prior.(h_verdict) = Eligible)
  && (world.(double_observation_secs) <=? u64_saturating_sub world.(now_unix) prior.(h_observed_at)).

Definition finalize_report (world : WorldView) (i : FinalizeInput) : TargetReport :=
  let v := final_verdict i in
  let stable := bool_decide (v = Eligible) && existsb (confirms world i.(f_fingerprint)) world.(prior_hits) in
  let quote := String (ascii_of_nat 34) "" in
  let would :=
    if bool_decide (v = Eligible) then i.(f_would_have_done)
    else "aucune (verdict=" +:+ quote +:+ verdict_label v +:+ quote +:+ ") — hypothétique si éligible: "
           +:+ i.(f_would_have_done) in
  mkTarget i.(f_class) i.(f_identity) i.(f_fingerprint) i.(f_pid) i.(f_ppid) i.(f_cmdline) i.(f_path)
    i.(f_age_secs) i.(f_agent_name) i.(f_criteria_met) i.(f_criteria_missing) i.(f_guards)
    i.(f_uncertainty) v would stable i.(f_gaps).

Definition age_missing (world : WorldView) (age : Z) : string :=
  "P1_age_secs>=" +:+ pretty world.(min_age_secs) +:+ " (actuel=" +:+ pretty age +:+ ")".
Definition age_met (world : WorldView) : string := "P1_age_secs>=" +:+ pretty world.(min_age_secs).

Definition classify_managed_wrapper (process : ProcessSnapshot) (agent : option AgentPresence)
    (open_participants : list string) (world : WorldView) : TargetReport :=
  let agent_name := parse_managed_wrapper_name process.(command) in
  let identity :=
    match agent_name with
    | Some name => "managed-wrapper:" +:+ name +:+ ":pid=" +:+ pretty process.(pid)
    | None => "managed-wrapper:pid=" +:+ pretty process.(pid)
    end in
  let fingerprint :=
    match agent_name with
    | Some name => "A:" +:+ name +:+ ":" +:+ stable_cmdline_digest process.(command)
    | None => "A:pid-only:" +:+ pretty process.(pid)
    end in
  let belongs := command_is_managed_wrapper process.(command) in
  let old := world.(min_age_secs) <=? process.(age_secs) in
  let orphan_ppid1 := process.(ppid) <=? 1 in
  let known_to_daemon := is_some agent in
  let busy := is_some_and agent (λ a, bool_decide (a.(state) = "busy")) in
  let background := world.(background_liveness_available) in
  let met :=
    when belongs ["P5_bridget_managed_wrapper"]
    ++ when old [age_met world]
    ++ when orphan_ppid1 ["P4_ppid_1"]
    ++ when (negb known_to_daemon) ["P4_absent_du_daemon"]
    ++ when (negb busy) ["P2_pas_de_tour_actif"]
    ++ when background ["P3_pas_de_travail_de_fond"] in
  let missing :=
    when (negb belongs) ["P5_bridget_managed_wrapper"]
    ++ when (negb old) [age_missing world process.(age_secs)]
    ++ when (negb orphan_ppid1 && known_to_daemon) ["P4_orphelinage_structurel"]
    ++ when busy ["P2_pas_de_tour_actif"]
    ++ when (negb background) ["P3_pas_de_travail_de_fond"] in
  let guards :=
    when (negb belongs) ["G8_hors_inventaire"]
    ++ when busy ["G1_tour_actif_busy"]
    ++ match agent with
       | Some a =>
         when (bool_decide (a.(state) = "connected") || bool_decide (a.(state) = "busy"))
           ["G3_presence_daemon_state=" +:+ a.(state)]
         ++ when (bool_decide (a.(mode) = Some "tmux")
                  && is_some_and a.(location) (λ l, negb (bool_decide (l = ""))))
              ["G4_pane_tmux_vivant=" +:+ default "?" a.(location)]
         ++ when (a.(last_seen_secs) =? u64_max) ["G6_last_seen_illisible"]
       | None => []
       end
    ++ when (is_some_and agent_name (λ name, existsb (λ p, bool_decide (p = name)) open_participants))
         ["G5_demande_bridget_ouverte"] in
  let uncertainty := when (negb background) [GAP_BACKGROUND] in
  let gaps := when (negb background) [MANQUE_BACKGROUND] in
  let would :=
    "SIGTERM pid=" +:+ pretty process.(pid) +:+ " puis stopSession agent=" +:+ default "?" agent_name
      +:+ " (JAMAIS exécuté en phase observer)" in
  finalize_report world
    (mkInput ManagedWrapper identity fingerprint (Some process.(pid)) (Some process.(ppid))
       (Some (truncate process.(command) 240)) None (Some process.(age_secs)) agent_name met missing
       guards uncertainty would gaps (negb background)).

Definition wrapper_of (process : ProcessSnapshot) (home : option string) (child : ProcessSnapshot) : bool :=
  if negb (command_is_managed_wrapper child.(command)) then false
  else if child.(ppid) =? process.(pid) then true
  else is_some_and home (process_mentions_path child.(command)).

Definition pid_list (l : list Z) : string := Str.join "," (pretty <$> l).

Definition classify_test_daemon (process : ProcessSnapshot) (home : option string) (world : WorldView)
    : TargetReport :=
  let identity :=
    match home with
    | Some h => "test-daemon:pid=" +:+ pretty process.(pid) +:+ ":home=" +:+ h
    | None => "test-daemon:pid=" +:+ pretty process.(pid)
    end in
  let fingerprint :=
    match home with Some h => "B:home:" +:+ h | None => "B:pid:" +:+ pretty process.(pid) end in
  let belongs := command_is_bridget_daemon process.(command) in
  let harness := is_some_and home path_looks_like_harness_home in
  let old := world.(min_age_secs) <=? process.(age_secs) in
  let orphan := process.(ppid) <=? 1 in
  let descendant_pids := pid <$> List.filter (wrapper_of process home) world.(processes) in
  let met :=
    when belongs ["P5_bridget_daemon"]
    ++ when harness ["P3_marqueur_harnais"]
    ++ when old [age_met world]
    ++ when orphan ["P2_ppid_1_sans_parent_harnais"] in
  let missing :=
    when (negb belongs) ["P5_bridget_daemon"]
    ++ when (negb harness) ["P3_marqueur_harnais"]
    ++ when (negb old) [age_missing world process.(age_secs)]
    ++ when (negb orphan) ["P2_ppid_1_sans_parent_harnais"] in
  let guards :=
    when (negb belongs) ["G8_hors_inventaire"]
    ++ when (negb orphan) ["G_parent_vivant_ppid=" +:+ pretty process.(ppid)]
    ++ when (negb (is_empty descendant_pids))
         ["G9_descendant_managed_wrapper_vivant=" +:+ pid_list descendant_pids] in
  let uncertainty :=
    if harness then []
    else match home with
         | Some _ => ["home_present_mais_prefixe_harnais_non_reconnu"]
         | None => ["home_daemon_inconnu"]
         end in
  let would :=
    match home with
    | Some h => "SIGTERM pid=" +:+ pretty process.(pid) +:+ " puis rmdir best-effort " +:+ h
                  +:+ " (JAMAIS exécuté en phase observer)"
    | None => "SIGTERM pid=" +:+ pretty process.(pid)
                +:+ " (home inconnu — JAMAIS exécuté en phase observer)"
    end in
  finalize_report world
    (mkInput TestDaemon identity fingerprint (Some process.(pid)) (Some process.(ppid))
       (Some (truncate process.(command) 240)) home (Some process.(age_secs)) None met missing guards
       uncertainty would [] false).

(** What the agent that owns a directory says: the criteria met, the criteria
    missing, the guards and the doubts. *)
Definition owner_criteria (world : WorldView) (agent_name : string)
    : list string * list string * list string * list string :=
  match find_first (λ a, bool_decide (a.(name) = agent_name)) world.(agents) with
  | Some a =>
    if bool_decide (a.(state) ∈ ["connected"; "busy"; "dnd"]) then
      ([], ["P4_agent_absent_ou_arrête"], ["G_agent_actif=" +:+ a.(name) +:+ " état=" +:+ a.(state)], [])
    else if bool_decide (a.(state) ∈ ["stopped"; "unreachable"]) then
      (["P4_agent_absent_ou_arrête=" +:+ a.(name) +:+ " état=" +:+ a.(state)], [], [], [])
    else
      ([], ["P4_agent_absent_ou_arrête"], [],
       ["état_agent_non_classable=" +:+ a.(name) +:+ " état=" +:+ a.(state)])
  | None =>
    if world.(agent_inventory_available) then (["P4_agent_absent_du_daemon=" +:+ agent_name], [], [], [])
    else ([], ["P4_agent_absent_ou_arrête"], [], ["inventaire_agent_indisponible pour " +:+ agent_name])
  end.

Definition classify_temp_dir (dir : TempDirSnapshot) (owner_pids : list Z) (world : WorldView)
    : TargetReport :=
  let path := dir.(d_path) in
  let old := world.(min_age_secs) <=? dir.(d_age_secs) in
  let '(met4, missing4, guards4, doubts) :=
    match dir.(d_agent_name) with
    | Some agent_name => owner_criteria world agent_name
    | None => ([], [], [], [])
    end in
  let met :=
    ["P3_racine_observee=" +:+ dir.(prefix_kind)] ++ when old [age_met world]
    ++ when (is_empty owner_pids) ["P2_aucun_pid_proprietaire"] ++ met4 in
  let missing :=
    when (negb old) [age_missing world dir.(d_age_secs)]
    ++ when (negb (is_empty owner_pids)) ["P2_aucun_pid_proprietaire"] ++ missing4 in
  let guards := when (negb (is_empty owner_pids)) ["G_pids_rattachés=" +:+ pid_list owner_pids] ++ guards4 in
  let would := "candidat à revue " +:+ path +:+ " (JAMAIS exécuté en phase observer)" in
  finalize_report world
    (mkInput TempDir ("temp-dir:" +:+ path) ("C:" +:+ path) None None None (Some path)
       (Some dir.(d_age_secs)) dir.(d_agent_name) met missing guards doubts would [] false).

(** ** The report *)

(** The [BTreeMap] built from the agents: the last one with a name. *)
Definition agent_by_name (world : WorldView) (n : string) : option AgentPresence :=
  find_first (λ a, bool_decide (a.(name) = n)) (rev world.(agents)).

Definition process_targets (world : WorldView) (process : ProcessSnapshot) : list TargetReport :=
  if command_is_managed_wrapper process.(command) then
    let agent := parse_managed_wrapper_name process.(command) ≫= agent_by_name world in
    [classify_managed_wrapper process agent world.(open_request_participants) world]
  else if command_is_bridget_daemon process.(command) then
    let maybe_home := parse_fixture_home process.(command) in
    when (is_some_and maybe_home path_looks_like_harness_home)
      [classify_test_daemon process maybe_home world]
  else [].

Definition temp_dir_target (world : WorldView) (dir : TempDirSnapshot) : TargetReport :=
  let owners := pid <$> List.filter (λ p, process_mentions_path p.(command) dir.(d_path)) world.(processes) in
  classify_temp_dir dir owners world.

Definition has_verdict (v : Verdict) (t : TargetReport) : bool := bool_decide (t.(verdict) = v).

Definition build_report (world : WorldView) : ReaperReport :=
  let targets :=
    sort_by (λ a b, String.leb a.(identity) b.(identity))
      (mjoin (process_targets world <$> world.(processes))
       ++ (temp_dir_target world <$> world.(temp_dirs))) in
  let summary :=
    mkSummary (count_if (has_verdict Eligible) targets) (count_if (has_verdict Protege) targets)
      (count_if (has_verdict Incertain) targets) (count_if stable_for_phase1 targets) in
  mkReport PHASE world.(now_unix) world.(min_age_secs) world.(double_observation_secs)
    world.(background_liveness_available)
    (when (negb world.(background_liveness_available)) [MANQUE_BACKGROUND]) targets summary.

(** ** The text of a report *)

Definition nl : string := String Str.newline "".
Definition line (s : string) : string := s +:+ nl.
Definition show_bool (b : bool) : string := if b then "true" else "false".
Definition or_dash (l : list string) : string := if is_empty l then "—" else Str.join ", " l.

Definition render_target (t : TargetReport) : string :=
  line ("--- " +:+ t.(identity) +:+ " [" +:+ verdict_label t.(verdict) +:+ "]")
  +:+ match t.(t_pid) with
      | Some pid => line ("  pid=" +:+ pretty pid +:+ " ppid=" +:+ pretty (default 0 t.(t_ppid))
                            +:+ " age_secs=" +:+ pretty (default 0 t.(t_age_secs)))
      | None => ""
      end
  +:+ match t.(t_path) with Some path => line ("  path=" +:+ path) | None => "" end
  +:+ match t.(t_agent_name) with Some n => line ("  agent=" +:+ n) | None => "" end
  +:+ match t.(cmdline) with Some cmd => line ("  cmdline=" +:+ cmd) | None => "" end
  +:+ line ("  critères OK: " +:+ or_dash t.(criteria_met))
  +:+ line ("  critères manquants: " +:+ or_dash t.(criteria_missing))
  +:+ line ("  gardes: " +:+ or_dash t.(guards_triggered))
  +:+ (if is_empty t.(uncertainty_reasons) then ""
       else line ("  incertitude: " +:+ Str.join ", " t.(uncertainty_reasons)))
  +:+ line ("  AURAIT fait: " +:+ t.(would_have_done))
  +:+ (if t.(stable_for_phase1)
       then line "  stable_for_phase1=true (toujours sans action en phase observer)" else "")
  +:+ String.concat "" ((λ g, line ("  gap: " +:+ g)) <$> t.(gaps))
  +:+ nl.

Definition render_human (r : ReaperReport) : string :=
  line ("bridget reaper report — phase=" +:+ r.(phase) +:+ " — observed_at=" +:+ pretty r.(observed_at_unix))
  +:+ line ("seuils: min_age=" +:+ pretty r.(r_min_age_secs) +:+ "s double_photo="
              +:+ pretty r.(r_double_observation_secs) +:+ "s background_liveness="
              +:+ show_bool r.(r_background_liveness_available))
  +:+ line ("résumé: eligible=" +:+ pretty r.(summary).(n_eligible)
              +:+ " protege=" +:+ pretty r.(summary).(n_protege)
              +:+ " incertain=" +:+ pretty r.(summary).(n_incertain)
              +:+ " stable_for_phase1=" +:+ pretty r.(summary).(n_stable))
  +:+ String.concat "" ((λ g, line ("GAP: " +:+ g)) <$> r.(gaps_to_instruct))
  +:+ nl
  +:+ String.concat "" (render_target <$> r.(targets))
  +:+ line "INTERDIT en phase observer: signal, stop, unlink. Activation Phase 1 = arbitrage explicite.".

(** ** Observing the machine *)

Definition scan_line (line : string) : option ProcessSnapshot :=
  let line := Str.trim line in
  if bool_decide (line = "") then None else
  '(pid_s, rest) ← split_first_token line;
  '(ppid_s, rest) ← split_first_token rest;
  '(etime_s, command) ← split_first_token rest;
  pid ← Str.parse_u32 pid_s;
  ppid ← Str.parse_u32 ppid_s;
  if negb (command_is_managed_wrapper command || command_is_bridget_daemon command) then None
  else Some (mkProcess pid ppid (default 0 (parse_etime_secs etime_s)) command).

(** [ps]: its exit status and its output. *)
Definition scan_processes (ps : result string (bool * string)) : result string (list ProcessSnapshot) :=
  '(success, stdout) ← ps;
  if negb success then Err "ps a échoué" else Ok (omap scan_line (Str.lines stdout)).

(** The fields of an [AgentInfo] of the status that the reaper keeps. *)
Record DaemonStatus := mkStatus {
  running : bool; status_agents : list AgentPresence; agents_inventory_available : bool }.

Definition agents_from_status (status : result string DaemonStatus)
    : result string (option (list AgentPresence)) :=
  status ← status;
  if negb status.(running) then Ok (Some [])
  else if negb status.(agents_inventory_available) then Ok None
  else Ok (Some status.(status_agents)).

(** An entry of the directory: its path, its name when it is Unicode, and its
    metadata when they can be read (a directory?  modified when, in seconds
    since the epoch). *)
Record DirEntry := mkEntry { e_path : string; e_name : option string; e_meta : option (bool * option Z) }.

Definition scan_entry (now : Z) (known : list AgentPresence) (e : DirEntry) : option TempDirSnapshot :=
  name ← e.(e_name);
  '(is_dir, modified) ← e.(e_meta);
  '(kind, agent_name) ←
    match harness_temp_prefix name with
    | Some kind => Some (kind, None)
    | None =>
      if is_dir : bool then
        agent_name ← agent_name_from_temp_dir name known; Some ("agent", Some agent_name)
      else None
    end;
  let age := match modified with Some t => u64_saturating_sub now t | None => 0 end in
  Some (mkTempDir e.(e_path) age kind agent_name).

(** [None]: the directory does not exist. *)
Definition scan_temp_dirs (entries : result string (option (list DirEntry))) (now : Z)
    (known : list AgentPresence) : result string (list TempDirSnapshot) :=
  entries ← entries;
  Ok (match entries with None => [] | Some l => omap (scan_entry now known) l end).

(** [probe] is the home that [lsof] reveals for a process. *)
Definition enrich (probe : Z → option string) (p : ProcessSnapshot) : ProcessSnapshot :=
  if command_is_bridget_daemon p.(command) then
    match probe p.(pid) with
    | Some home => mkProcess p.(pid) p.(ppid) p.(age_secs) (p.(command) +:+ " HOME=" +:+ home)
    | None => p
    end
  else p.

Definition hits_of (r : ReaperReport) : list PriorHit :=
  (λ t, mkHit t.(fingerprint) t.(verdict) r.(observed_at_unix)) <$> r.(targets).

Section Observe.
(** The JSON encoding of a report, and its decoding. *)
Context (encode : ReaperReport → string) (decode : string → option ReaperReport).

Definition load_prior_hits (file : option string) : list PriorHit :=
  match file with
  | None => []
  | Some text => mjoin (hits_of <$> omap decode (Str.lines text))
  end.

Definition append_observation (file : option string) (r : ReaperReport) : option string :=
  Some (default "" file +:+ encode r +:+ nl).

(** What the machine shows to one observation. *)
Record Machine := mkMachine {
  m_now : Z;
  m_ps : result string (bool * string);
  m_status : result string DaemonStatus;
  m_entries : result string (option (list DirEntry));
  m_probe : Z → option string;
  (** the error of the append, if it fails *)
  m_append : option string }.

(** The report and the file of the observations after it. *)
Definition observe_live (file : option string) (m : Machine) (min_age_secs : Z)
    : result string (ReaperReport * option string) :=
  let now := m.(m_now) in
  let prior := load_prior_hits file in
  processes ← scan_processes m.(m_ps);
  scanned ← agents_from_status m.(m_status);
  let '(inventory, agents) := match scanned with Some l => (true, l) | None => (false, []) end in
  temp_dirs ← scan_temp_dirs m.(m_entries) now agents;
  let world := mkWorld (enrich m.(m_probe) <$> processes) agents [] temp_dirs prior now min_age_secs
                 DEFAULT_DOUBLE_OBSERVATION_SECS false inventory in
  let report := build_report world in
  match m.(m_append) with
  | Some e => Err e
  | None => Ok (report, append_observation file report)
  end.

End Observe.

(** ** Lemmas *)

Lemma is_empty_nil {A} (l : list A) : is_empty l = true ↔ l = [].
Proof. by destruct l. Qed.

Lemma app_nil_iff {A} (l1 l2 : list A) : l1 ++ l2 = [] ↔ l1 = [] ∧ l2 = [].
Proof. destruct l1, l2; naive_solver. Qed.

Lemma when_nil {A} b (x : A) l : when b (x :: l) = [] ↔ b = false.
Proof. by destruct b. Qed.

Lemma final_verdict_Eligible i :
  final_verdict i = Eligible ↔
  i.(f_guards) = [] ∧ i.(f_uncertainty) = [] ∧ i.(f_criteria_missing) = [] ∧
  i.(force_incertain_if_background_gap) = false.
Proof.
  unfold final_verdict.
  destruct i.(f_guards), i.(f_uncertainty), i.(f_criteria_missing), i.(force_incertain_if_background_gap);
    simpl; naive_solver.
Qed.

Lemma finalize_verdict w i : (finalize_report w i).(verdict) = final_verdict i.
Proof. done. Qed.

(** What makes a target abandoned, in each class. *)
Definition agent_gone (a : AgentPresence) : Prop :=
  a.(state) ≠ "connected" ∧ a.(state) ≠ "busy" ∧
  (a.(mode) = Some "tmux" → a.(location) = None ∨ a.(location) = Some "") ∧
  a.(last_seen_secs) ≠ u64_max.

Definition wrapper_abandoned (w : WorldView) (p : ProcessSnapshot) (agent : option AgentPresence)
    (open_participants : list string) : Prop :=
  w.(background_liveness_available) = true ∧
  command_is_managed_wrapper p.(command) = true ∧ w.(min_age_secs) ≤ p.(age_secs) ∧
  (p.(ppid) ≤ 1 ∨ agent = None) ∧ (∀ a, agent = Some a → agent_gone a) ∧
  (∀ n, parse_managed_wrapper_name p.(command) = Some n → n ∉ open_participants).

Definition daemon_abandoned (w : WorldView) (p : ProcessSnapshot) (home : option string) : Prop :=
  command_is_bridget_daemon p.(command) = true ∧
  (∃ h, home = Some h ∧ path_looks_like_harness_home h = true) ∧
  w.(min_age_secs) ≤ p.(age_secs) ∧ p.(ppid) ≤ 1 ∧
  ∀ c, c ∈ w.(processes) → wrapper_of p home c = false.

(** A directory whose owner is unknown to a readable inventory, or stopped. *)
Definition owner_gone (w : WorldView) (n : string) : Prop :=
  match find_first (λ a, bool_decide (a.(name) = n)) w.(agents) with
  | Some a => a.(state) = "stopped" ∨ a.(state) = "unreachable"
  | None => w.(agent_inventory_available) = true
  end.

Definition dir_abandoned (w : WorldView) (dir : TempDirSnapshot) (owners : list Z) : Prop :=
  w.(min_age_secs) ≤ dir.(d_age_secs) ∧ owners = [] ∧
  ∀ n, dir.(d_agent_name) = Some n → owner_gone w n.

Lemma open_check_false (agent_name : option string) l :
  is_some_and agent_name (λ n, existsb (λ p, bool_decide (p = n)) l) = false ↔
  ∀ n, agent_name = Some n → n ∉ l.
Proof.
  destruct agent_name as [n|]; simpl; [|naive_solver].
  rewrite <-not_true_iff_false, existsb_elem. setoid_rewrite bool_decide_eq_true. naive_solver.
Qed.

Lemma wrapper_eligible p agent open w :
  (classify_managed_wrapper p agent open w).(verdict) = Eligible ↔ wrapper_abandoned w p agent open.
Proof.
  unfold classify_managed_wrapper. rewrite finalize_verdict, final_verdict_Eligible.
  cbn [f_guards f_uncertainty f_criteria_missing force_incertain_if_background_gap].
  rewrite !app_nil_iff, !when_nil, !open_check_false, !negb_false_iff. unfold wrapper_abandoned.
  rewrite Z.leb_le, andb_false_iff, negb_false_iff, Z.leb_le.
  destruct agent as [a|]; cbn [is_some is_some_and]; [|naive_solver].
  rewrite !app_nil_iff, !when_nil, orb_false_iff, andb_false_iff, !bool_decide_eq_false, Z.eqb_neq.
  assert (a.(mode) ≠ Some "tmux" ∨ is_some_and a.(location) (λ l, negb (bool_decide (l = ""))) = false ↔
    (a.(mode) = Some "tmux" → a.(location) = None ∨ a.(location) = Some "")) as ->.
  { destruct (decide (a.(mode) = Some "tmux")); [|naive_solver].
    destruct a.(location) as [l|]; simpl; [|naive_solver].
    rewrite negb_false_iff, bool_decide_eq_true. naive_solver. }
  unfold agent_gone. split.
  - intros ((? & _ & ([? ?] & ? & ?) & ?) & ? & (_ & ? & Hp & _) & _).
    split_and!; try done; [|by intros ? [= <-]]. by destruct Hp; [left|].
  - intros (? & ? & ? & Hp & Ha & ?). destruct (Ha a eq_refl) as (? & ? & ? & ?).
    split_and!; try done. by destruct Hp; [left|].
Qed.

Lemma daemon_eligible p home w :
  (classify_test_daemon p home w).(verdict) = Eligible ↔ daemon_abandoned w p home.
Proof.
  unfold classify_test_daemon. rewrite finalize_verdict, final_verdict_Eligible.
  cbn [f_guards f_uncertainty f_criteria_missing force_incertain_if_background_gap].
  rewrite !app_nil_iff, !when_nil, !negb_false_iff, !Z.leb_le, is_empty_nil.
  assert (pid <$> List.filter (wrapper_of p home) w.(processes) = [] ↔
    ∀ c, c ∈ w.(processes) → wrapper_of p home c = false) as ->.
  { split.
    - intros Hn%fmap_nil_inv c Hc. apply not_true_iff_false. intros Ht.
      assert (c ∈ List.filter (wrapper_of p home) w.(processes)) as Hin by by apply list_filter_elem.
      rewrite Hn in Hin. set_solver.
    - intros Hall. destruct (List.filter _ _) as [|c l] eqn:E; [done|].
      assert (c ∈ List.filter (wrapper_of p home) w.(processes)) as [Hc Hw]%list_filter_elem
        by (rewrite E; set_solver).
      by rewrite (Hall c Hc) in Hw. }
  unfold daemon_abandoned.
  assert (is_some_and home path_looks_like_harness_home = true ↔
    ∃ h, home = Some h ∧ path_looks_like_harness_home h = true) as Hh
    by (destruct home; simpl; naive_solver).
  rewrite Hh. split; [naive_solver|]. intros (? & [h [-> Hp]] & ? & ? & ?). simpl. rewrite Hp. naive_solver.
Qed.

Lemma owner_criteria_ok w n :
  (owner_criteria w n).1.1.2 = [] ∧ (owner_criteria w n).1.2 = [] ∧ (owner_criteria w n).2 = [] ↔
  owner_gone w n.
Proof.
  unfold owner_criteria, owner_gone. destruct (find_first _ _) as [a|]; [|by case_match; naive_solver].
  case_bool_decide as H1; [|case_bool_decide as H2]; simpl.
  - split; [naive_solver|]. intros [Hs|Hs]; rewrite Hs in H1; set_solver.
  - set_solver.
  - split; [naive_solver|]. intros [Hs|Hs]; rewrite Hs in H2; set_solver.
Qed.

Lemma dir_eligible dir owners w :
  (classify_temp_dir dir owners w).(verdict) = Eligible ↔ dir_abandoned w dir owners.
Proof.
  unfold classify_temp_dir, dir_abandoned.
  destruct (match dir.(d_agent_name) with Some n => _ | None => _ end) as [[[m4 x4] g4] u4] eqn:E.
  rewrite finalize_verdict, final_verdict_Eligible.
  cbn [f_guards f_uncertainty f_criteria_missing force_incertain_if_background_gap].
  rewrite !app_nil_iff, !when_nil, !negb_false_iff, Z.leb_le, is_empty_nil.
  destruct dir.(d_agent_name) as [n|].
  - pose proof (owner_criteria_ok w n) as Hok. rewrite E in Hok. simpl in Hok. naive_solver.
  - naive_solver.
Qed.

Lemma build_report_targets w :
  (build_report w).(targets) ≡ₚ
  mjoin (process_targets w <$> w.(processes)) ++ (temp_dir_target w <$> w.(temp_dirs)).
Proof. apply sort_by_perm. Qed.

Lemma process_targets_elem w p t :
  t ∈ process_targets w p ↔
  (command_is_managed_wrapper p.(command) = true ∧
   t = classify_managed_wrapper p (parse_managed_wrapper_name p.(command) ≫= agent_by_name w)
         w.(open_request_participants) w) ∨
  (command_is_managed_wrapper p.(command) = false ∧ command_is_bridget_daemon p.(command) = true ∧
   is_some_and (parse_fixture_home p.(command)) path_looks_like_harness_home = true ∧
   t = classify_test_daemon p (parse_fixture_home p.(command)) w).
Proof.
  unfold process_targets. destruct (command_is_managed_wrapper _).
  - rewrite list_elem_of_singleton. naive_solver.
  - destruct (command_is_bridget_daemon _); [|set_solver].
    destruct (is_some_and _ _); cbn [when]; [rewrite list_elem_of_singleton|]; set_solver.
Qed.

(** The targets of a report are the classifications of what the world holds. *)
Lemma report_elem w t :
  t ∈ (build_report w).(targets) ↔
  (∃ p, p ∈ w.(processes) ∧ t ∈ process_targets w p) ∨
  (∃ dir, dir ∈ w.(temp_dirs) ∧ t = temp_dir_target w dir).
Proof.
  rewrite build_report_targets, elem_of_app, list_elem_of_join, list_elem_of_fmap. split.
  - intros [(l & Ht & Hl)|(dir & -> & Hd)]; [left|by right; eauto].
    apply list_elem_of_fmap in Hl as (p & -> & Hp). eauto.
  - intros [(p & Hp & Ht)|(dir & Hd & ->)]; [left|by right; eauto].
    exists (process_targets w p). split; [done|]. apply list_elem_of_fmap. eauto.
Qed.

(** Stable: eligible now, and confirmed by an earlier photograph. *)
Lemma report_stable w t :
  t ∈ (build_report w).(targets) →
  t.(stable_for_phase1) = bool_decide (t.(verdict) = Eligible) && existsb (confirms w t.(fingerprint)) w.(prior_hits).
Proof.
  intros [(p & _ & [[_ ->]|(_ & _ & _ & ->)]%process_targets_elem)|(dir & _ & ->)]%report_elem; [done..|].
  unfold temp_dir_target, classify_temp_dir. by repeat case_match.
Qed.

Definition owners_of (w : WorldView) (dir : TempDirSnapshot) : list Z :=
  pid <$> List.filter (λ p, process_mentions_path p.(command) dir.(d_path)) w.(processes).
Definition agent_of (w : WorldView) (p : ProcessSnapshot) : option AgentPresence :=
  parse_managed_wrapper_name p.(command) ≫= agent_by_name w.

(** What a report declares eligible is abandoned, and what is abandoned it
    declares eligible.  An eligible target is a wrapper old enough, orphaned,
    whose agent is neither connected, busy, in a tmux pane nor part of an open
    request, with the background signal present; or a test daemon old enough,
    orphaned, under a harness home, with no live wrapper; or a directory old
    enough that no process mentions, whose owner is stopped or unknown to a
    readable inventory.  Conversely every such process and directory has an
    eligible target in the report. *)
Lemma report_eligible_exactly w :
  (∀ t, t ∈ (build_report w).(targets) → t.(verdict) = Eligible →
     (∃ p, p ∈ w.(processes) ∧ t.(class) = ManagedWrapper ∧ t.(t_pid) = Some p.(pid) ∧
        wrapper_abandoned w p (agent_of w p) w.(open_request_participants)) ∨
     (∃ p, p ∈ w.(processes) ∧ t.(class) = TestDaemon ∧ t.(t_pid) = Some p.(pid) ∧
        daemon_abandoned w p (parse_fixture_home p.(command))) ∨
     (∃ dir, dir ∈ w.(temp_dirs) ∧ t.(class) = TempDir ∧ t.(t_path) = Some dir.(d_path) ∧
        dir_abandoned w dir (owners_of w dir))) ∧
  (∀ p, p ∈ w.(processes) →
     wrapper_abandoned w p (agent_of w p) w.(open_request_participants) ∨
     (command_is_managed_wrapper p.(command) = false ∧ daemon_abandoned w p (parse_fixture_home p.(command))) →
     ∃ t, t ∈ (build_report w).(targets) ∧ t.(t_pid) = Some p.(pid) ∧ t.(verdict) = Eligible) ∧
  (∀ dir, dir ∈ w.(temp_dirs) → dir_abandoned w dir (owners_of w dir) →
     ∃ t, t ∈ (build_report w).(targets) ∧ t.(t_path) = Some dir.(d_path) ∧ t.(verdict) = Eligible).
Proof.
  assert (∀ dir, (temp_dir_target w dir).(class) = TempDir ∧ (temp_dir_target w dir).(t_path) = Some dir.(d_path))
    as Hdir by (intros dir; unfold temp_dir_target, classify_temp_dir; by repeat case_match).
  split_and!.
  - intros t [(p & Hp & Ht)|(dir & Hd & ->)]%report_elem Hv.
    + apply process_targets_elem in Ht as [[_ ->]|(_ & _ & _ & ->)].
      * left. exists p. split_and!; [done..|]. by apply wrapper_eligible.
      * right. left. exists p. split_and!; [done..|]. by apply daemon_eligible.
    + right. right. exists dir. destruct (Hdir dir). split_and!; [done..|]. by apply dir_eligible.
  - intros p Hp [Ha|[Hn Ha]].
    + exists (classify_managed_wrapper p (agent_of w p) w.(open_request_participants) w).
      split_and!; [|done|by apply wrapper_eligible].
      apply report_elem. left. exists p. split; [done|]. apply process_targets_elem. left. by destruct Ha as (? & ? & _).
    + exists (classify_test_daemon p (parse_fixture_home p.(command)) w).
      split_and!; [|done|by apply daemon_eligible].
      apply report_elem. left. exists p. split; [done|]. apply process_targets_elem. right.
      destruct Ha as (? & (h & Hh & Hp') & _). split_and!; [done..| |done]. by rewrite Hh.
  - intros dir Hd Ha. exists (temp_dir_target w dir). split_and!; [|apply Hdir|by apply dir_eligible].
    apply report_elem. eauto.
Qed.

(** The report is complete and ordered: it holds the classification of each
    wrapper, of each test daemon under a harness home and of each directory, and
    nothing else, in the order of the identities, its summary counts every
    target under exactly one verdict, and a daemon whose home is not a harness
    home is never listed. *)
Lemma report_complete w :
  let r := build_report w in
  r.(targets) ≡ₚ mjoin (process_targets w <$> w.(processes)) ++ (temp_dir_target w <$> w.(temp_dirs)) ∧
  Sorted (λ a b, String.leb a.(identity) b.(identity) = true) r.(targets) ∧
  (r.(summary).(n_eligible) + r.(summary).(n_protege) + r.(summary).(n_incertain) = length r.(targets))%nat ∧
  (r.(summary).(n_stable) ≤ r.(summary).(n_eligible))%nat ∧
  ∀ t, t ∈ r.(targets) → t.(class) = TestDaemon →
    ∃ h, t.(t_path) = Some h ∧ path_looks_like_harness_home h = true.
Proof.
  cbn zeta. split_and!.
  - apply build_report_targets.
  - apply sort_by_sorted. intros a b Hab.
    destruct (String.leb_total a.(identity) b.(identity)); congruence.
  - cbn [build_report summary n_eligible n_protege n_incertain targets].
    induction (sort_by _ _) as [|t l IH]; [done|]. rewrite !count_if_cons, length_cons. unfold has_verdict at 1 3 5.
    destruct t.(verdict); cbn [bool_decide] in *; simpl in *; lia.
  - cbn [build_report summary n_stable n_eligible]. apply count_if_le. intros t Ht Hs.
    rewrite sort_by_perm in Ht.
    assert (t ∈ (build_report w).(targets)) as Hin by by rewrite build_report_targets.
    rewrite (report_stable w t Hin) in Hs. by apply andb_true_iff in Hs as [Hs _].
  - intros t [(p & _ & [[_ ->]|(_ & _ & Hh & ->)]%process_targets_elem)|(dir & _ & ->)]%report_elem Hc.
    + done.
    + destruct (parse_fixture_home p.(command)) as [h|]; [|done]. eauto.
    + unfold temp_dir_target, classify_temp_dir in Hc. by repeat case_match.
Qed.

(** ** The two photographs *)

Lemma confirms_spec w f h :
  confirms w f h = true ↔
  h.(h_fingerprint) = f ∧ h.(h_verdict) = Eligible ∧
  w.(double_observation_secs) ≤ u64_saturating_sub w.(now_unix) h.(h_observed_at).
Proof. unfold confirms. rewrite !andb_true_iff, !bool_decide_eq_true, Z.leb_le. naive_solver. Qed.

(** A file of observations ends with a line break, when it is not empty. *)
Definition file_wf (text : string) : Prop := text = "" ∨ ∃ body, text = body +:+ nl.

Lemma split_app_nl body rest :
  Str.split Str.newline (body +:+ nl +:+ rest) = Str.split Str.newline body ++ Str.split Str.newline rest.
Proof.
  induction body as [|c body IH].
  - rewrite Str.app_nil_l. unfold nl. rewrite Str.app_cons, Str.app_nil_l. cbn [Str.split].
    by rewrite bool_decide_eq_true_2.
  - rewrite Str.app_cons. cbn [Str.split]. rewrite IH.
    case_bool_decide; [done|].
    destruct (Str.split Str.newline body) eqn:E; [|done].
    exfalso. destruct body as [|d body]; [done|]. cbn [Str.split] in E. repeat case_match; done.
Qed.

Lemma split_nonempty c s : Str.split c s ≠ [].
Proof. destruct s; cbn [Str.split]; repeat case_match; done. Qed.

Lemma lines_of_app l rest :
  rest ≠ [] → Str.lines_of (l ++ rest) = (Str.strip_last Str.carriage <$> l) ++ Str.lines_of rest.
Proof.
  intros Hr. induction l as [|x l IH]; [done|]. cbn [app Str.lines_of fmap list_fmap].
  destruct (l ++ rest) eqn:E; [|by rewrite IH].
  by apply app_nil_iff in E as [_ ?].
Qed.

(** An encoded report is one line. *)
Definition one_line (s : string) : bool :=
  Str.all_bytes (λ c, negb (bool_decide (c = Str.newline)) && negb (bool_decide (c = Str.carriage))) s.

Lemma one_line_split s : one_line s = true → Str.split Str.newline s = [s] ∧ Str.strip_last Str.carriage s = s.
Proof.
  unfold one_line. induction s as [|c s IH]; [done|]. cbn [Str.all_bytes Str.split Str.strip_last].
  rewrite !andb_true_iff, !negb_true_iff, !bool_decide_eq_false. intros [[Hn Hc] Hs].
  destruct (IH Hs) as [-> Hl]. rewrite bool_decide_eq_false_2 by done.
  split; [done|]. destruct s; [by rewrite bool_decide_eq_false_2|by rewrite Hl].
Qed.

Lemma lines_append text s :
  file_wf text → one_line s = true → Str.lines (text +:+ s +:+ nl) = Str.lines text ++ [s].
Proof.
  intros Hwf [Hs Hc]%one_line_split. unfold Str.lines.
  assert (Str.lines_of (Str.split Str.newline (s +:+ nl)) = [s]) as Hlast.
  { rewrite <-(Str.app_nil_r nl), split_app_nl, Hs. cbn [Str.split app Str.lines_of]. by rewrite Hc. }
  destruct Hwf as [->|[body ->]]; [by rewrite Str.app_nil_l, Hlast|].
  rewrite <-Str.app_assoc, split_app_nl, lines_of_app by apply split_nonempty. rewrite Hlast.
  rewrite <-(Str.app_nil_r nl), split_app_nl, lines_of_app by done. cbn [Str.split Str.lines_of Str.token].
  by rewrite app_nil_r.
Qed.

Section Photographs.
Context (encode : ReaperReport → string) (decode : string → option ReaperReport).

(** What an observation that ends well does. *)
Lemma observe_live_Ok file m age r file' :
  observe_live encode decode file m age = Ok (r, file') →
  file' = append_observation encode file r ∧
  ∃ w, r = build_report w ∧ w.(prior_hits) = load_prior_hits decode file ∧ w.(now_unix) = m.(m_now) ∧
    w.(double_observation_secs) = 300 ∧ w.(background_liveness_available) = false ∧ w.(min_age_secs) = age.
Proof.
  unfold observe_live.
  destruct (scan_processes _) as [ps|]; [|done]. cbn [mbind result_bind].
  destruct (agents_from_status _) as [scanned|]; [|done]. cbn [mbind result_bind].
  destruct (match scanned with Some _ => _ | None => _ end) as [inventory ags].
  destruct (scan_temp_dirs _ _ _) as [dirs|]; [|done]. cbn [mbind result_bind].
  destruct (m_append m); [done|]. intros [= <- <-]. split; [done|]. by eexists.
Qed.

Lemma load_prior_hits_elem file h :
  h ∈ load_prior_hits decode file ↔
  ∃ text l r t, file = Some text ∧ l ∈ Str.lines text ∧ decode l = Some r ∧ t ∈ r.(targets) ∧
    h = mkHit t.(fingerprint) t.(verdict) r.(observed_at_unix).
Proof.
  destruct file as [text|]; cbn [load_prior_hits];
    [|split; [by intros ?%elem_of_nil|by intros (? & ? & ? & ? & ? & _)]].
  rewrite list_elem_of_join. split.
  - intros (hs & Hh & (r & -> & (l & Hl & Hr)%list_elem_of_omap)%list_elem_of_fmap).
    unfold hits_of in Hh. apply list_elem_of_fmap in Hh as (t & -> & Ht). by exists text, l, r, t.
  - intros (text' & l & r & t & [= <-] & Hl & Hr & Ht & ->). exists (hits_of r).
    split; [apply list_elem_of_fmap; by exists t|].
    apply list_elem_of_fmap. exists r. split; [done|]. apply list_elem_of_omap. by exists l.
Qed.

(** An observation of the machine never finds a managed wrapper eligible, and
    a target it calls stable is eligible now and was eligible, under the same
    fingerprint, in a report of the file taken at least five minutes before. *)
Lemma live_stable_two_photographs file m age r file' t :
  observe_live encode decode file m age = Ok (r, file') → t ∈ r.(targets) →
  (t.(class) = ManagedWrapper → t.(verdict) ≠ Eligible) ∧
  (t.(stable_for_phase1) = true →
   t.(class) ≠ ManagedWrapper ∧ t.(verdict) = Eligible ∧
   ∃ text l r0 t0, file = Some text ∧ l ∈ Str.lines text ∧ decode l = Some r0 ∧ t0 ∈ r0.(targets) ∧
     t0.(fingerprint) = t.(fingerprint) ∧ t0.(verdict) = Eligible ∧
     r0.(observed_at_unix) + 300 ≤ m.(m_now)).
Proof.
  intros [_ (w & -> & Hprior & Hnow & Hdouble & Hbg & _)]%observe_live_Ok Ht.
  assert (t.(class) = ManagedWrapper → t.(verdict) ≠ Eligible) as Hclass.
  { apply report_elem in Ht as [(p & _ & [[_ ->]|(_ & _ & _ & ->)]%process_targets_elem)|(dir & _ & ->)].
    - intros _ [Hb _]%wrapper_eligible. congruence.
    - done.
    - unfold temp_dir_target, classify_temp_dir. by repeat case_match. }
  split; [done|]. rewrite (report_stable w t Ht), andb_true_iff, bool_decide_eq_true, existsb_elem.
  intros [Hv (h & Hh & (Hf & He & Hd)%confirms_spec)]. split; [naive_solver|]. split; [done|].
  rewrite Hprior in Hh. apply load_prior_hits_elem in Hh as (text & l & r0 & t0 & -> & Hl & Hr & Ht0 & ->).
  cbn [h_fingerprint h_verdict h_observed_at] in *. exists text, l, r0, t0. split_and!; try done.
  rewrite Hdouble, Hnow in Hd. unfold u64_saturating_sub in Hd. lia.
Qed.

(** Two photographs at least five minutes apart confirm each other.  When the
    encoding of the first report is one line that decodes to it, every target
    that the second observation finds eligible and the first one found eligible
    under the same fingerprint is stable, and the file stays a list of lines
    that the next observation can read. *)
Lemma second_photograph_confirms file m1 m2 age r1 file1 r2 file2 t1 t2 :
  file_wf (default "" file) → one_line (encode r1) = true → decode (encode r1) = Some r1 →
  observe_live encode decode file m1 age = Ok (r1, file1) →
  observe_live encode decode file1 m2 age = Ok (r2, file2) →
  m1.(m_now) + 300 ≤ m2.(m_now) →
  t1 ∈ r1.(targets) → t1.(verdict) = Eligible → t2 ∈ r2.(targets) → t2.(verdict) = Eligible →
  t1.(fingerprint) = t2.(fingerprint) →
  t2.(stable_for_phase1) = true ∧ file_wf (default "" file1).
Proof.
  intros Hwf Hone Hdec [-> (w1 & Hr1 & _ & Hn1 & _)]%observe_live_Ok [_ (w2 & -> & Hp2 & Hn2 & Hd2 & _)]%observe_live_Ok
    Hnow Ht1 Hv1 Ht2 Hv2 Hf.
  split; [|right; cbn [append_observation default from_option id]; by eexists (_ +:+ _); rewrite <-Str.app_assoc].
  rewrite (report_stable w2 t2 Ht2), andb_true_iff, bool_decide_eq_true, existsb_elem. split; [done|].
  exists (mkHit t1.(fingerprint) t1.(verdict) r1.(observed_at_unix)). split.
  - rewrite Hp2. apply load_prior_hits_elem. eexists _, (encode r1), r1, t1.
    split; [done|]. rewrite lines_append by done. split_and!; try done. apply elem_of_app. right. by constructor.
  - apply confirms_spec. cbn [h_fingerprint h_verdict h_observed_at]. split_and!; [done..|].
    assert (r1.(observed_at_unix) = m1.(m_now)) as -> by by rewrite Hr1, <-Hn1.
    rewrite Hd2, Hn2. unfold u64_saturating_sub. lia.
Qed.

End Photographs.

(** ** The elapsed time that [ps] prints *)

Definition two_digits (n : Z) : string :=
  String (pretty_N_char (Z.to_N (n / 10))) (String (pretty_N_char (Z.to_N (n mod 10))) "").

(** [[dd-]hh:]mm:ss]. *)
Definition show_etime (t : Z) : string :=
  let d := t / 86400 in
  let h := (t / 3600) mod 24 in
  let m := (t / 60) mod 60 in
  let s := t mod 60 in
  let ms := two_digits m +:+ ":" +:+ two_digits s in
  if 0 <? d then pretty d +:+ "-" +:+ two_digits h +:+ ":" +:+ ms
  else if 0 <? h then two_digits h +:+ ":" +:+ ms
  else ms.

Lemma two_digits_digits n : 0 ≤ n < 100 → Str.all_bytes Str.is_ascii_digit (two_digits n) = true.
Proof.
  intros Hn. unfold two_digits. cbn [Str.all_bytes].
  pose proof (Z.mod_pos_bound n 10). pose proof (Z.div_pos n 10). pose proof (Z.div_lt_upper_bound n 10 10).
  rewrite !Str.is_ascii_digit_pretty by lia. done.
Qed.

Lemma two_digits_parse n : 0 ≤ n < 100 → Str.parse_u64 (two_digits n) = Some n.
Proof.
  intros Hn. unfold two_digits, Str.parse_u64, Str.parse_unsigned.
  pose proof (Z.mod_pos_bound n 10 ltac:(lia)). pose proof (Z.div_pos n 10 ltac:(lia) ltac:(lia)).
  pose proof (Z.div_lt_upper_bound n 10 10 ltac:(lia) ltac:(lia)). pose proof (Z.div_mod n 10 ltac:(lia)) as Hdm.
  rewrite bool_decide_eq_false_2 by (eapply Str.digit_not_plus, Str.digit_pretty; lia).
  cbn [Str.parse_digits]. rewrite !Str.digit_pretty by lia. cbn [mbind option_bind].
  rewrite !Z2N.id by lia.
  rewrite (proj2 (Z.leb_le _ _)) by (unfold_ints; lia). cbn [mbind option_bind].
  rewrite (proj2 (Z.leb_le _ _)) by (unfold_ints; lia). f_equal. lia.
Qed.

Lemma dash_digits s : Str.all_bytes Str.is_ascii_digit s = true → Str.no_byte "-"%char s = true.
Proof. by apply Str.digits_no_byte. Qed.
Lemma colon_digits s : Str.all_bytes Str.is_ascii_digit s = true → Str.no_byte ":"%char s = true.
Proof. by apply Str.digits_no_byte. Qed.

Lemma parse_two m s : 0 ≤ m < 100 → 0 ≤ s < 100 →
  Str.split ":"%char (two_digits m +:+ ":" +:+ two_digits s) = [two_digits m; two_digits s].
Proof.
  intros Hm Hs. change (":" +:+ two_digits s) with (String ":"%char (two_digits s)).
  rewrite Str.split_app by by apply colon_digits, two_digits_digits.
  by rewrite Str.split_none by by apply colon_digits, two_digits_digits.
Qed.

Lemma two_digits_visible n : 0 ≤ n < 100 → Str.all_bytes Str.visible (two_digits n) = true.
Proof. intros. by apply Str.digits_visible, two_digits_digits. Qed.

Lemma no_dash_clock l :
  Forall (λ n, 0 ≤ n < 100) l → Str.no_byte "-"%char (Str.join ":" (two_digits <$> l)) = true.
Proof.
  unfold Str.no_byte, Str.join. induction 1 as [|n l Hn Hl IH]; [done|]. cbn [fmap list_fmap String.concat].
  pose proof (dash_digits _ (two_digits_digits n Hn)) as Hd. unfold Str.no_byte in Hd.
  destruct (two_digits <$> l); [done|].
  change (String.append (two_digits n) ?r) with (two_digits n +:+ r). rewrite Str.all_bytes_app, Hd.
  change (String.append ":" ?r) with (":" +:+ r). by rewrite Str.all_bytes_app, IH.
Qed.

(** The text without days, then with them. *)
Lemma etime_clock h m s (long : bool) :
  0 ≤ h < 100 → 0 ≤ m < 100 → 0 ≤ s < 100 →
  let clock := (if long then two_digits h +:+ ":" else "") +:+ two_digits m +:+ ":" +:+ two_digits s in
  Str.all_bytes Str.visible clock = true ∧ Str.no_byte "-"%char clock = true ∧ clock ≠ "" ∧
  Str.split ":"%char clock = when long [two_digits h] ++ [two_digits m; two_digits s].
Proof.
  intros Hh Hm Hs clock. subst clock. destruct long; rewrite ?Str.app_nil_l; split_and!.
  - by rewrite !Str.all_bytes_app, !two_digits_visible.
  - pose proof (no_dash_clock [h; m; s] ltac:(rewrite !Forall_cons; auto)) as H. by rewrite <-!Str.app_assoc.
  - done.
  - rewrite <-Str.app_assoc. change (":" +:+ two_digits m +:+ ":" +:+ two_digits s)
      with (String ":"%char (two_digits m +:+ ":" +:+ two_digits s)).
    rewrite Str.split_app by by apply colon_digits, two_digits_digits. by rewrite parse_two.
  - by rewrite !Str.all_bytes_app, !two_digits_visible.
  - apply (no_dash_clock [m; s] ltac:(rewrite !Forall_cons; auto)).
  - done.
  - by rewrite parse_two.
Qed.

Lemma etime_short h m s (long : bool) :
  0 ≤ h < 100 → 0 ≤ m < 100 → 0 ≤ s < 100 →
  parse_etime_secs ((if long then two_digits h +:+ ":" else "") +:+ two_digits m +:+ ":" +:+ two_digits s)
  = Some (wrap_u64 ((if long then h else 0) * 3600 + m * 60 + s)).
Proof.
  intros Hh Hm Hs. destruct (etime_clock h m s long Hh Hm Hs) as (Hv & Hd & Hne & Hsp).
  unfold parse_etime_secs. rewrite Str.trim_visible, bool_decide_eq_false_2, Str.split_once_none by done.
  cbn [mbind option_bind]. rewrite Hsp. destruct long; cbn [when app]; by rewrite !two_digits_parse.
Qed.

Lemma etime_long d h m s :
  0 ≤ d ≤ u64_max → 0 ≤ h < 100 → 0 ≤ m < 100 → 0 ≤ s < 100 →
  parse_etime_secs (pretty d +:+ "-" +:+ two_digits h +:+ ":" +:+ two_digits m +:+ ":" +:+ two_digits s)
  = Some (wrap_u64 (d * 86400 + h * 3600 + m * 60 + s)).
Proof.
  intros [Hd Hd'] Hh Hm Hs. destruct (etime_clock h m s true Hh Hm Hs) as (Hv & _ & _ & Hsp).
  rewrite <-Str.app_assoc in Hv, Hsp. unfold parse_etime_secs.
  rewrite Str.trim_visible by (rewrite !Str.all_bytes_app, (Str.digits_visible (pretty d)) by (by apply Str.pretty_digits);
    by rewrite !Str.all_bytes_app in Hv).
  rewrite bool_decide_eq_false_2 by by destruct (pretty d).
  change ("-" +:+ ?r) with (String "-"%char r).
  rewrite Str.split_once_app by by apply dash_digits, Str.pretty_digits.
  assert (Str.parse_u64 (pretty d) = Some d) as -> by by apply Str.parse_unsigned_pretty.
  cbn [mbind option_bind]. rewrite Hsp. cbn [when app]. by rewrite !two_digits_parse.
Qed.

(** Every number of seconds of a [u64] is read back from what [ps] prints. *)
Lemma etime_roundtrip t : 0 ≤ t ≤ u64_max → parse_etime_secs (show_etime t) = Some t.
Proof.
  intros Ht. unfold show_etime.
  pose proof (Z.mod_pos_bound (t / 3600) 24 ltac:(lia)) as Hh.
  pose proof (Z.mod_pos_bound (t / 60) 60 ltac:(lia)) as Hm.
  pose proof (Z.mod_pos_bound t 60 ltac:(lia)) as Hs.
  assert (t = t / 86400 * 86400 + (t / 3600) mod 24 * 3600 + (t / 60) mod 60 * 60 + t mod 60) as Hsum
    by (clear; Z.to_euclidean_division_equations; lia).
  assert (0 ≤ t / 86400 ≤ u64_max) as Hd by (clear -Ht; unfold_ints; Z.to_euclidean_division_equations; lia).
  assert (wrap_u64 t = t) as Hw by (unfold wrap_u64; unfold_ints; rewrite Z.mod_small; lia).
  destruct (Z.ltb_spec 0 (t / 86400)); [|destruct (Z.ltb_spec 0 ((t / 3600) mod 24))].
  - rewrite etime_long by lia. by rewrite <-Hsum, Hw.
  - rewrite Str.app_assoc. rewrite (etime_short _ _ _ true) by lia. f_equal. rewrite <-Hw at 4. f_equal. lia.
  - rewrite <-(Str.app_nil_l (two_digits _ +:+ _)). rewrite (etime_short 0 _ _ false) by lia.
    f_equal. rewrite <-Hw at 3. f_equal. lia.
Qed.

Lemma show_etime_word t : 0 ≤ t → show_etime t ≠ "" ∧ Str.all_bytes Str.visible (show_etime t) = true.
Proof.
  intros Ht. unfold show_etime.
  pose proof (Z.mod_pos_bound (t / 3600) 24 ltac:(lia)). pose proof (Z.mod_pos_bound (t / 60) 60 ltac:(lia)).
  pose proof (Z.mod_pos_bound t 60 ltac:(lia)).
  pose proof (Str.digits_visible _ (Str.pretty_digits (t / 86400) ltac:(apply Z.div_pos; lia))) as Hd.
  repeat case_match; split; try done; try (by destruct (pretty (t / 86400)));
    rewrite !Str.all_bytes_app, ?Hd, !two_digits_visible by lia; done.
Qed.

Lemma split_first_word tok rest :
  tok ≠ "" → Str.all_bytes Str.visible tok = true →
  split_first_token (tok +:+ " " +:+ rest) = Some (tok, Str.trim_start rest).
Proof.
  intros Hne Hv. unfold split_first_token. rewrite Str.trim_start_word by done.
  rewrite bool_decide_eq_false_2 by by destruct tok. rewrite Str.break_ws_word by done.
  by rewrite Str.trim_start_space.
Qed.

(** The line of [ps -axo pid=,ppid=,etime=,command=] for a process, after
    [pad] spaces. *)
Fixpoint spaces (n : nat) : string := match n with O => "" | S n => " " +:+ spaces n end.
Definition ps_line (pad : nat) (p : ProcessSnapshot) : string :=
  spaces pad +:+ pretty p.(pid) +:+ " " +:+ pretty p.(ppid) +:+ " " +:+ show_etime p.(age_secs) +:+ " "
    +:+ p.(command).

Lemma trim_ps_line pad p :
  0 ≤ p.(pid) → 0 ≤ p.(ppid) → 0 ≤ p.(age_secs) → p.(command) ≠ "" → Str.trim p.(command) = p.(command) →
  Str.trim (ps_line pad p) = pretty p.(pid) +:+ " " +:+ pretty p.(ppid) +:+ " " +:+ show_etime p.(age_secs)
    +:+ " " +:+ p.(command).
Proof.
  intros Hp Hpp Ha Hne Htrim. unfold ps_line, Str.trim.
  assert (∀ s, Str.trim_start (spaces pad +:+ s) = Str.trim_start s) as ->
    by (intros s; induction pad; cbn [spaces]; [done|by rewrite <-Str.app_assoc, Str.trim_start_space]).
  pose proof (Str.digits_visible _ (Str.pretty_digits _ Hp)) as H1.
  pose proof (Str.digits_visible _ (Str.pretty_digits _ Hpp)) as H2.
  destruct (show_etime_word _ Ha) as [_ H3].
  rewrite Str.trim_start_word by (done || by apply Str.pretty_nonempty).
  assert (Str.is_blank p.(command) = false ∧ Str.trim_end p.(command) = p.(command)) as [Hb He].
  { split; [|by rewrite <-Htrim at 1; unfold Str.trim; rewrite Str.trim_end_idem].
    apply not_true_iff_false. unfold Str.is_blank. rewrite bool_decide_eq_true. intros Hs.
    unfold Str.trim in Htrim. rewrite Hs in Htrim. by rewrite <-Htrim in Hne. }
  apply Str.visible_ascii in H1, H2, H3.
  rewrite !Str.app_assoc, Str.trim_end_app; [by rewrite He| |done].
  by rewrite !Str.all_bytes_app, H1, H2, H3.
Qed.

(** A process that [ps] shows is read exactly.  For every process identifier
    and parent of a [u32], every age of a [u64] and every command of a wrapper
    or of a daemon, the line that [ps] prints, padded or not, gives back the
    process. *)
Lemma ps_line_roundtrip pad p :
  0 ≤ p.(pid) ≤ u32_max → 0 ≤ p.(ppid) ≤ u32_max → 0 ≤ p.(age_secs) ≤ u64_max →
  Str.trim p.(command) = p.(command) →
  command_is_managed_wrapper p.(command) || command_is_bridget_daemon p.(command) = true →
  scan_line (ps_line pad p) = Some p.
Proof.
  intros Hp Hpp Ha Htrim Hcmd.
  assert (p.(command) ≠ "") as Hne by (intros E; by rewrite E in Hcmd).
  pose proof (Str.digits_visible _ (Str.pretty_digits p.(pid) ltac:(lia))) as H1.
  pose proof (Str.digits_visible _ (Str.pretty_digits p.(ppid) ltac:(lia))) as H2.
  destruct (show_etime_word p.(age_secs) ltac:(lia)) as [H3 H4].
  unfold scan_line. rewrite trim_ps_line by (done || lia).
  rewrite bool_decide_eq_false_2 by (by destruct (pretty p.(pid))).
  rewrite split_first_word by (done || apply Str.pretty_nonempty; lia). cbn [mbind option_bind].
  rewrite Str.trim_start_word by (done || apply Str.pretty_nonempty; lia).
  rewrite split_first_word by (done || apply Str.pretty_nonempty; lia). cbn [mbind option_bind].
  rewrite Str.trim_start_word by done. rewrite split_first_word by done. cbn [mbind option_bind].
  unfold Str.parse_u32. rewrite !Str.parse_unsigned_pretty by done. cbn [mbind option_bind].
  assert (Str.trim_start p.(command) = p.(command)) as ->.
  { apply Str.trim_start_nows. rewrite <-Htrim. apply Str.trim_head. }
  rewrite Hcmd. cbn [negb]. rewrite etime_roundtrip by done. by destruct p.
Qed.

(** ** The text names every target *)

(** The text of a report shows every target, with its identity and its
    verdict on a line of its own, and ends with the reminder that nothing was
    done. *)
Lemma render_shows_every_target r :
  Forall (λ t, Str.contains (line ("--- " +:+ t.(identity) +:+ " [" +:+ verdict_label t.(verdict) +:+ "]"))
                 (render_human r) = true) r.(targets) ∧
  ∃ text, render_human r = text +:+
    line "INTERDIT en phase observer: signal, stop, unlink. Activation Phase 1 = arbitrage explicite.".
Proof.
  unfold render_human. split.
  - apply Forall_forall. intros t Ht. do 5 apply Str.contains_app_l. apply Str.contains_app_r.
    apply (Str.contains_concat _ (render_target t)); [by apply list_elem_of_fmap_2|].
    unfold render_target. apply Str.contains_app_r, Str.contains_refl.
  - do 6 apply Str.suffix_app. by exists "".
Qed.

(** ** Examples *)
Module ReaperExamples.

Definition wrapper : ProcessSnapshot :=
  mkProcess 4242 1 7200 "/usr/local/bin/bridget managed-wrapper codex worker-7".
Definition test_daemon : ProcessSnapshot := mkProcess 77 1 7200 "/tmp/bridget daemon".
Definition ps_output : string := ps_line 2 wrapper +:+ nl +:+ ps_line 0 test_daemon +:+ nl.

(** A machine with an orphan wrapper and an orphan test daemon, seen at [now]. *)
Definition machine (now : Z) : Machine :=
  mkMachine now (Ok (true, ps_output)) (Ok (mkStatus true [] true)) (Ok None)
    (λ p, if p =? 77 then Some "/tmp/bg909-x" else None) None.

(** A codec that knows one report. *)
Definition encode (_ : ReaperReport) : string := "report".

Definition photograph (decode : string → option ReaperReport) (file : option string) (now : Z) : option ReaperReport :=
  match observe_live encode decode file (machine now) 1800 with Ok (r, _) => Some r | Err _ => None end.
Definition first_report : option ReaperReport := photograph (λ _, None) None 1000.
Definition decode (_ : string) : option ReaperReport := first_report.
Definition second_report : option ReaperReport := photograph decode (Some ("report" +:+ nl)) 1300.

Definition labels (r : option ReaperReport) : list (string * string * bool) :=
  match r with
  | Some r => (λ t, (t.(identity), verdict_label t.(verdict), t.(stable_for_phase1))) <$> r.(targets)
  | None => []
  end.

(** The first photograph finds the daemon eligible, the second confirms it; the
    wrapper stays uncertain. *)
Example two_photographs :
  labels first_report = [("managed-wrapper:worker-7:pid=4242", "incertain", false);
                         ("test-daemon:pid=77:home=/tmp/bg909-x", "eligible", false)] ∧
  labels second_report = [("managed-wrapper:worker-7:pid=4242", "incertain", false);
                          ("test-daemon:pid=77:home=/tmp/bg909-x", "eligible", true)].
Proof. vm_compute. done. Qed.

Lemma ps_line_roundtrip_witness : scan_line (ps_line 2 wrapper) = Some wrapper.
Proof.
  apply (ps_line_roundtrip 2 wrapper);
    [unfold_ints; simpl; lia|unfold_ints; simpl; lia|unfold_ints; simpl; lia|vm_compute; reflexivity
    |vm_compute; reflexivity].
Defined.

Definition the_report (r : option ReaperReport) : ReaperReport :=
  default (mkReport "" 0 0 0 false [] [] (mkSummary 0 0 0 0)) r.
Definition the_target (r : option ReaperReport) : TargetReport :=
  default (mkTarget TempDir "" "" None None None None None None [] [] [] [] Incertain "" false [])
    ((the_report r).(targets) !! 1%nat).

Lemma live_stable_two_photographs_witness :
  (the_target second_report).(class) ≠ ManagedWrapper.
Proof.
  destruct (live_stable_two_photographs encode decode (Some ("report" +:+ nl)) (machine 1300) 1800
    (the_report second_report)
    (append_observation encode (Some ("report" +:+ nl)) (the_report second_report)) (the_target second_report))
    as [_ H].
  - vm_compute. reflexivity.
  - apply (list_elem_of_lookup_2 _ 1). vm_compute. reflexivity.
  - apply H. vm_compute. reflexivity.
Defined.

Lemma second_photograph_confirms_witness :
  (the_target second_report).(stable_for_phase1) = true.
Proof.
  apply (second_photograph_confirms encode decode None (machine 1000) (machine 1300) 1800
    (the_report first_report) (Some ("report" +:+ nl)) (the_report second_report)
    (append_observation encode (Some ("report" +:+ nl)) (the_report second_report))
    (the_target first_report) (the_target second_report)).
  - by left.
  - vm_compute. reflexivity.
  - vm_compute. reflexivity.
  - vm_compute. reflexivity.
  - vm_compute. reflexivity.
  - vm_compute. congruence.
  - apply (list_elem_of_lookup_2 _ 1). vm_compute. reflexivity.
  - vm_compute. reflexivity.
  - apply (list_elem_of_lookup_2 _ 1). vm_compute. reflexivity.
  - vm_compute. reflexivity.
  - vm_compute. reflexivity.
Defined.

(** The inventory of the daemon does not protect the wrappers.  With the
    background signal present and the inventory unreadable, an old orphan
    wrapper is eligible although its agent was not looked up, and its absence is
    counted among the criteria met; the directory of the same agent stays
    uncertain. *)
Lemma wrapper_ignores_inventory :
  let w := mkWorld [wrapper] [] [] [mkTempDir "/tmp/worker-7.d" 7200 "agent" (Some "worker-7")] [] 1000 1800 300
             true false in
  (λ t, (t.(class), t.(verdict))) <$> (build_report w).(targets) =
    [(ManagedWrapper, Eligible); (TempDir, Incertain)] ∧
  "P4_absent_du_daemon" ∈ (classify_managed_wrapper wrapper None [] w).(criteria_met).
Proof. split; [vm_compute; reflexivity|]. apply (list_elem_of_lookup_2 _ 3). vm_compute. reflexivity. Qed.

End ReaperExamples.
