(* ===== verification/Reminders.v ===== *)
(** * Reminders: the follow-up of tracked requests in [bridget-daemon/src/daemon.rs]

    The request rows of the store, the replies the daemon waits for, and one
    pass of [collect_reminder_actions] over them: the levels of escalation, the
    deferral while the recipient is busy or the control plane paused, the
    expiration that the store arbitrates, and what is kept for the next pass.
    The facts a pass gathers from the rest of the daemon are a record; the held
    queue (release and sweep) is not part of it. *)

From S2P Require Import Prelude Text Message Guards Dispatch.
Local Open Scope Z_scope.

Definition TIMEOUT_GRACE_PERIOD : Z := 30.
Definition HUMAN_REPLY_TIMEOUT_SECS : Z := 24 * 60 * 60.

(** ** The store of requests *)

Record RequestRow := mkRow {
  row_sender : string;
  row_target : string;
  row_state : string;
  row_created_at : Z;
  row_deadline_at : Z;
  row_level : Z }.

Definition is_open (r : RequestRow) : bool := bool_decide (r.(row_state) = "open").
Definition with_state (s : string) (r : RequestRow) : RequestRow :=
  mkRow r.(row_sender) r.(row_target) s r.(row_created_at) r.(row_deadline_at) r.(row_level).
Definition with_level (l : Z) (r : RequestRow) : RequestRow :=
  mkRow r.(row_sender) r.(row_target) r.(row_state) r.(row_created_at) r.(row_deadline_at) l.

(** [INSERT] under a primary key: a second row of the same id is an error. *)
Definition create_request (id sender target : string) (timeout_secs created_at : Z) (rs : gmap string RequestRow)
    : result string (gmap string RequestRow) :=
  match rs !! id with
  | Some _ => Err "UNIQUE constraint failed: tracked_requests.id"
  | None =>
    let deadline := wrap_i64 (created_at + wrap_i64 timeout_secs) in
    Ok (<[id := mkRow sender target "open" created_at deadline 0]> rs)
  end.

(** [UPDATE … WHERE id = … AND state = 'open'], and whether a row changed. *)
Definition mark_timed_out (id : string) (rs : gmap string RequestRow) : gmap string RequestRow * bool :=
  match rs !! id with
  | Some r => if is_open r then (<[id := with_state "timed_out" r]> rs, true) else (rs, false)
  | None => (rs, false)
  end.

Definition mark_answered (id responder recipient : string) (rs : gmap string RequestRow) : gmap string RequestRow * bool :=
  match rs !! id with
  | Some r =>
    if bool_decide (r.(row_sender) = recipient) && bool_decide (r.(row_target) = responder) && is_open r
    then (<[id := with_state "answered" r]> rs, true) else (rs, false)
  | None => (rs, false)
  end.

Definition set_escalation_level (id : string) (level : Z) (rs : gmap string RequestRow) : gmap string RequestRow :=
  match rs !! id with
  | Some r => if is_open r then <[id := with_level level r]> rs else rs
  | None => rs
  end.

(** ** The replies waited for *)

Record PendingReply := mkPending {
  msg_id : string;
  p_from : string;
  from_conn : string;
  p_to : string;
  target_conn : string;
  timeout_secs : Z;
  created_at : Z;
  frozen_secs : Z;
  escalation_level : Z;
  deferred_level : option Z }.

Definition with_frozen (n : Z) (p : PendingReply) : PendingReply :=
  mkPending p.(msg_id) p.(p_from) p.(from_conn) p.(p_to) p.(target_conn) p.(timeout_secs) p.(created_at) n
    p.(escalation_level) p.(deferred_level).
Definition with_escalation (n : Z) (p : PendingReply) : PendingReply :=
  mkPending p.(msg_id) p.(p_from) p.(from_conn) p.(p_to) p.(target_conn) p.(timeout_secs) p.(created_at)
    p.(frozen_secs) n p.(deferred_level).
Definition with_deferred (d : option Z) (p : PendingReply) : PendingReply :=
  mkPending p.(msg_id) p.(p_from) p.(from_conn) p.(p_to) p.(target_conn) p.(timeout_secs) p.(created_at)
    p.(frozen_secs) p.(escalation_level) d.

Inductive ReminderAction :=
  | Gentle (to_ from_ id_ conn : string)
  | Firm (to_ from_ id_ conn : string)
  | Timeout (to_ from_ id_ conn : string) (secs : Z) (cancel_target : option string)
  | Deferred (to_ id_ : string) (level : Z) (reason : string).

(** [remember_reply_cycle]. *)
Definition remember_reply_cycle (m : BridgetMessage) (reply_sender_conn : option string) (tconn : string)
    (now : Z) (l : list PendingReply) : list PendingReply :=
  match reply_sender_conn with
  | Some fconn =>
    if m.(reply) then
      l ++ [mkPending m.(id) m.(from) fconn m.(to) tconn (default 60 m.(reply_timeout)) now 0 0 None]
    else l
  | None => l
  end.

(** [track_reply_cycle]; [unix] is the wall clock of the row, [now] the
    monotonic clock of the wait. *)
Definition track_reply_cycle (m : BridgetMessage) (reply_sender_conn : option string) (tconn : string)
    (unix now : Z) (rs : gmap string RequestRow) (l : list PendingReply) : result string (gmap string RequestRow * list PendingReply) :=
  if negb m.(reply) then Ok (rs, l) else
  match create_request m.(id) m.(from) m.(to) (default 60 m.(reply_timeout)) unix rs with
  | Err e => Err ("impossible de suivre la demande: " +:+ e)
  | Ok rs' => Ok (rs', remember_reply_cycle m reply_sender_conn tconn now l)
  end.

(** ** Levels *)

Definition effective_reply_timeout (timeout : Z) (implique_humain : bool) : Z :=
  if implique_humain then Z.max timeout HUMAN_REPLY_TIMEOUT_SECS else timeout.

Definition should_remind (target_is_undisturbed : bool) (level : Z) : bool :=
  negb target_is_undisturbed || (2 <=? level).

Definition two_thirds (timeout : Z) : Z := wrap_u64 (timeout * 2) / 3.

Definition deferred_reminder_level (target_is_busy : bool) (elapsed timeout : Z) : option Z :=
  if negb target_is_busy then None
  else if two_thirds timeout <=? elapsed then Some 2
  else if timeout / 3 <=? elapsed then Some 1
  else None.

(** ** The facts of a pass *)

Record AgentState := mkAgentState {
  s_name : string;
  s_state : string;
  s_agent_type : string;
  s_transport : string;
  s_dnd_until : option Z }.

(** What the delegation store says of a request: not a native task, a task with
    its frozen seconds and whether it waits for its quota, or unreadable. *)
Inductive Frozen := NotNative | Native (secs : Z) (quota_waiting : bool) | Unreadable.

Record Facts := mkFacts {
  now : Z;
  f_presences : gmap string AgentState;
  f_conn_instances : gmap string string;
  dormant_ids : gset string;
  paused : bool;
  held_ids : gset string;
  frozen : string → Frozen;
  remote_result_pending : string → bool;
  (** whether the store accepts the writes of the pass on a request *)
  writable : string → bool }.

Definition any_presence (f : Facts) (q : AgentState → bool) : bool :=
  existsb (λ e, q e.2) (map_to_list f.(f_presences)).
Definition conn_presence (f : Facts) (conn : string) (q : AgentState → bool) : bool :=
  is_some_and (f.(f_conn_instances) !! conn ≫= λ i, f.(f_presences) !! i) q.

Definition s_is_dnd (t : Z) (a : AgentState) : bool := is_some_and a.(s_dnd_until) (λ u, t <? u).
Definition undisturbed (f : Facts) (agent : string) : bool :=
  any_presence f (λ a, bool_decide (a.(s_name) = agent)
    && (s_is_dnd f.(now) a || bool_decide (a.(s_name) ∈ f.(dormant_ids)))).
Definition ui_agent (f : Facts) (agent : string) : bool :=
  any_presence f (λ a, bool_decide (a.(s_name) = agent) && bool_decide (a.(s_agent_type) = "ui")).
Definition is_human (f : Facts) (agent : string) : bool :=
  ui_agent f agent || (bool_decide (agent = UI_HUMAN_SENDER) && ui_agent f UI_HUMAN_AGENT_ID).
Definition busy_connection (f : Facts) (conn : string) : bool :=
  conn_presence f conn (λ a, bool_decide (a.(s_state) = "busy")).
Definition t3_connection (f : Facts) (conn : string) : bool :=
  conn_presence f conn (λ a, bool_decide (a.(s_transport) = "t3code")).

Definition elapsed (f : Facts) (p : PendingReply) : Z :=
  u64_saturating_sub (as_secs (Z.max 0 (f.(now) - p.(created_at)))) p.(frozen_secs).
Definition effective (f : Facts) (p : PendingReply) : Z :=
  effective_reply_timeout p.(timeout_secs) (is_human f p.(p_to) || is_human f p.(p_from)).

(** ** One request of the pass *)

(** What a pass does with a request: the request after it, the action it asks
    for, the level to store, the deferral to record, whether it expired. *)
Record Outcome := mkOutcome {
  o_pending : PendingReply;
  o_actions : list ReminderAction;
  o_level : option Z;
  o_deferral : option Z;
  o_expired : bool }.

Definition nothing (p : PendingReply) : Outcome := mkOutcome p [] None None false.
Definition gentle (p : PendingReply) : ReminderAction := Gentle p.(p_to) p.(p_from) p.(msg_id) p.(target_conn).
Definition firm (p : PendingReply) : ReminderAction := Firm p.(p_to) p.(p_from) p.(msg_id) p.(target_conn).

(** The body of the loop, from the computation of [elapsed] on. *)
Definition remind_due (f : Facts) (p : PendingReply) : Outcome :=
  let el := elapsed f p in
  let timeout := effective f p in
  if timeout <=? el then mkOutcome (with_escalation 3 p) [] None None true else
  if bool_decide (p.(msg_id) ∈ f.(held_ids)) then nothing p else
  if t3_connection f p.(target_conn) then nothing p else
  if negb (should_remind (undisturbed f p.(p_to)) p.(escalation_level)) then nothing p else
  match deferred_reminder_level (f.(paused) || busy_connection f p.(target_conn)) el timeout with
  | Some level =>
    if bool_decide (p.(deferred_level) = Some level) then nothing p else
    mkOutcome (with_deferred (Some level) p)
      [Deferred p.(p_to) p.(msg_id) level (if f.(paused) then "pause" else "tour en cours")]
      None (Some level) false
  | None =>
    match p.(deferred_level) with
    | Some level =>
      mkOutcome (with_escalation level (with_deferred None p)) [if level =? 1 then gentle p else firm p]
        (Some level) None false
    | None =>
      if (p.(escalation_level) =? 0) && (timeout / 3 <=? el) then
        mkOutcome (with_escalation 1 p) [gentle p] (Some 1) None false
      else if (p.(escalation_level) =? 1) && (two_thirds timeout <=? el) then
        mkOutcome (with_escalation 2 p) [firm p] (Some 2) None false
      else nothing p
    end
  end.

Definition remind_one (f : Facts) (p : PendingReply) : Outcome :=
  if f.(remote_result_pending) p.(msg_id) then nothing p else
  match f.(frozen) p.(msg_id) with
  | Native secs quota_waiting =>
    let p := with_frozen secs p in
    if f.(paused) || quota_waiting then nothing p else remind_due f p
  | Unreadable => nothing p
  | NotNative => remind_due f p
  end.

Definition keep_pending (f : Facts) (p : PendingReply) : bool :=
  bool_decide (p.(msg_id) ∈ f.(held_ids)) || (p.(escalation_level) <? 3)
  || (as_secs (Z.max 0 (f.(now) - p.(created_at))) <? wrap_u64 (p.(timeout_secs) + TIMEOUT_GRACE_PERIOD)).

(** ** The pass *)

Definition claim_timeout (f : Facts) (id : string) (rs : gmap string RequestRow) : gmap string RequestRow * bool :=
  if f.(writable) id then mark_timed_out id rs else (rs, false).

(** One expired request: the notice to its sender when the claim succeeds. *)
Definition expire (f : Facts) (st : gmap string RequestRow * list ReminderAction) (p : PendingReply)
    : gmap string RequestRow * list ReminderAction :=
  let '(rs, claimed) := claim_timeout f p.(msg_id) st.1 in
  if claimed : bool then
    (rs, st.2 ++ [Timeout p.(p_to) p.(p_from) p.(msg_id) p.(from_conn) (effective f p)
                    (if t3_connection f p.(target_conn) then Some p.(target_conn) else None)])
  else (rs, st.2).

Definition store_level (f : Facts) (rs : gmap string RequestRow) (o : Outcome) : gmap string RequestRow :=
  match o.(o_level) with
  | Some level => if f.(writable) o.(o_pending).(msg_id) then set_escalation_level o.(o_pending).(msg_id) level rs else rs
  | None => rs
  end.

(** The state of the follow-up: the rows, the deferrals recorded and the replies
    waited for. *)
Record Followup := mkFollowup {
  requests : gmap string RequestRow;
  request_events : list (string * Z);
  pending_replies : list PendingReply }.

Definition reminder_pass (f : Facts) (st : Followup) : Followup * list ReminderAction :=
  let outcomes := remind_one f <$> st.(pending_replies) in
  let pending := List.filter (keep_pending f) (o_pending <$> outcomes) in
  let rs := foldl (store_level f) st.(requests) outcomes in
  let events :=
    omap (λ o, l ← o.(o_deferral); then_some (f.(writable) o.(o_pending).(msg_id)) (o.(o_pending).(msg_id), l)) outcomes in
  let expired := o_pending <$> List.filter o_expired outcomes in
  let '(rs, timeouts) := foldl (expire f) (rs, []) expired in
  (mkFollowup rs (st.(request_events) ++ events) pending, mjoin (o_actions <$> outcomes) ++ timeouts).

(** ** Sequences of operations *)

Inductive op :=
  | Track (m : BridgetMessage) (reply_sender_conn : option string) (tconn : string) (unix_ now_ : Z)
  | Answer (id_ responder recipient : string)
  | Pass (f : Facts).

Definition apply_op (st : Followup) (o : op) : Followup * list ReminderAction :=
  match o with
  | Track m rc tconn unix_ now_ =>
    match track_reply_cycle m rc tconn unix_ now_ st.(requests) st.(pending_replies) with
    | Ok (rs, l) => (mkFollowup rs st.(request_events) l, [])
    | Err _ => (st, [])
    end
  | Answer i responder recipient =>
    (mkFollowup (mark_answered i responder recipient st.(requests)).1 st.(request_events) st.(pending_replies), [])
  | Pass f => reminder_pass f st
  end.

(** The actions of a sequence, in order. *)
Fixpoint run_ops (st : Followup) (ops : list op) : Followup * list ReminderAction :=
  match ops with
  | [] => (st, [])
  | o :: ops' =>
    let '(st1, acts) := apply_op st o in
    let '(st2, rest) := run_ops st1 ops' in
    (st2, acts ++ rest)
  end.

Definition times_out (i : string) (a : ReminderAction) : bool :=
  match a with Timeout _ _ j _ _ _ => bool_decide (j = i) | _ => false end.

(** *** Once *)

(** The most expirations a row can still give. *)
Definition budget (i : string) (rs : gmap string RequestRow) : nat :=
  match rs !! i with Some r => if is_open r then 1 else 0 | None => 1 end.

Lemma store_level_budget f rs o i : budget i (store_level f rs o) = budget i rs.
Proof.
  unfold store_level, set_escalation_level. destruct o.(o_level); [|done]. destruct (f.(writable) _); [|done].
  destruct (rs !! _) as [r|] eqn:E; [|done]. destruct (is_open r) eqn:Ho; [|done].
  unfold budget. destruct (decide (o.(o_pending).(msg_id) = i)) as [<-|Hi].
  - rewrite lookup_insert_eq, E. done.
  - by rewrite lookup_insert_ne.
Qed.

Lemma store_levels_budget f rs os i : budget i (foldl (store_level f) rs os) = budget i rs.
Proof. revert rs. induction os as [|o os IH]; intros rs; [done|]. simpl. by rewrite IH, store_level_budget. Qed.

(** An expiration spends the budget of its row. *)
Lemma expire_budget f st p i :
  (count_if (times_out i) (expire f st p).2 + budget i (expire f st p).1
   ≤ count_if (times_out i) st.2 + budget i st.1)%nat.
Proof.
  unfold expire, claim_timeout, mark_timed_out. destruct (f.(writable) _); [|done].
  destruct (st.1 !! p.(msg_id)) as [r|] eqn:E; [|done]. destruct (is_open r) eqn:Ho; [|done].
  cbn [fst snd]. rewrite count_if_app, count_if_cons. cbn [times_out]. unfold budget.
  destruct (decide (p.(msg_id) = i)) as [<-|Hi].
  - rewrite bool_decide_eq_true_2, lookup_insert_eq, E, Ho by done. unfold count_if at 2. simpl. lia.
  - rewrite bool_decide_eq_false_2, lookup_insert_ne by done. unfold count_if at 2. simpl. lia.
Qed.

Lemma expires_budget f ps st i :
  (count_if (times_out i) (foldl (expire f) st ps).2 + budget i (foldl (expire f) st ps).1
   ≤ count_if (times_out i) st.2 + budget i st.1)%nat.
Proof.
  revert st. induction ps as [|p ps IH]; intros st; [done|]. simpl.
  etransitivity; [apply IH|apply expire_budget].
Qed.

(** The reminders themselves are never expirations. *)
Lemma remind_one_no_timeout f p i : count_if (times_out i) (remind_one f p).(o_actions) = O.
Proof. unfold remind_one, remind_due, nothing, gentle, firm. by repeat case_match. Qed.

Lemma reminders_no_timeout f ps i : count_if (times_out i) (mjoin (o_actions <$> (remind_one f <$> ps))) = O.
Proof.
  induction ps as [|p ps IH]; [done|].
  change (mjoin (o_actions <$> (remind_one f <$> p :: ps)))
    with ((remind_one f p).(o_actions) ++ mjoin (o_actions <$> (remind_one f <$> ps))).
  rewrite count_if_app, remind_one_no_timeout, IH. done.
Qed.

Lemma apply_op_budget st o i :
  (count_if (times_out i) (apply_op st o).2 + budget i (apply_op st o).1.(requests) ≤ budget i st.(requests))%nat.
Proof.
  destruct o as [m rc tconn u n|j responder recipient|f]; cbn [apply_op].
  - unfold track_reply_cycle, create_request. destruct (reply m); [|done]. cbn [negb].
    destruct (requests st !! m.(id)) eqn:E; [done|]. cbn [fst snd requests]. unfold budget.
    destruct (decide (m.(id) = i)) as [<-|Hi]; [by rewrite lookup_insert_eq, E|by rewrite lookup_insert_ne].
  - cbn [fst snd requests]. unfold mark_answered. destruct (requests st !! j) as [r|] eqn:E; [|done].
    destruct (_ && _ && is_open r) eqn:Ho; [|done]. unfold budget. cbn [fst].
    destruct (decide (j = i)) as [<-|Hi]; [rewrite lookup_insert_eq, E; simpl; lia|by rewrite lookup_insert_ne].
  - unfold reminder_pass.
    destruct (foldl (expire f) _ _) as [rs ts] eqn:E. cbn [fst snd requests].
    rewrite count_if_app, reminders_no_timeout.
    pose proof (expires_budget f (o_pending <$> List.filter o_expired (remind_one f <$> pending_replies st))
      (foldl (store_level f) st.(requests) (remind_one f <$> pending_replies st), []) i) as H.
    rewrite E in H. cbn [fst snd] in H. rewrite store_levels_budget in H. unfold count_if in *. simpl in *. lia.
Qed.

Lemma run_ops_budget st ops i :
  (count_if (times_out i) (run_ops st ops).2 ≤ budget i st.(requests))%nat.
Proof.
  revert st. induction ops as [|o ops IH]; intros st; cbn [run_ops]; [by unfold count_if; simpl; lia|].
  pose proof (apply_op_budget st o i) as H. destruct (apply_op st o) as [st1 acts].
  specialize (IH st1). destruct (run_ops st1 ops) as [st2 rest]. cbn [fst snd] in *.
  rewrite count_if_app. lia.
Qed.

(** C35: the sender of a request is told of its expiration at most once, whatever
    the sends, the answers and the passes, over as many passes as one wants and
    even when several waits carry the same request; and never after the request
    was answered. *)
Theorem timeout_notified_once st ops i responder recipient :
  (count_if (times_out i) (run_ops st ops).2 ≤ 1)%nat ∧
  ((mark_answered i responder recipient st.(requests)).2 = true →
   count_if (times_out i) (run_ops st (Answer i responder recipient :: ops)).2 = O).
Proof.
  split; [etransitivity; [apply run_ops_budget|]; unfold budget; repeat case_match; lia|].
  unfold mark_answered. destruct (requests st !! i) as [r|] eqn:E; [|done].
  destruct (_ && _ && is_open r) eqn:Ho; [|done]. intros _. cbn [run_ops apply_op].
  unfold mark_answered. rewrite E, Ho. cbn [fst].
  match goal with |- context [run_ops ?s ops] => pose proof (run_ops_budget s ops i) as H;
    destruct (run_ops s ops) as [st2 rest] end.
  cbn [fst snd requests app] in *. unfold budget in H. rewrite lookup_insert_eq in H. simpl in H. lia.
Qed.

(** *** When *)

(** A wait that expires at this pass. *)
Definition expires (f : Facts) (p : PendingReply) : Prop :=
  f.(remote_result_pending) p.(msg_id) = false ∧
  match f.(frozen) p.(msg_id) with
  | NotNative => effective f p ≤ elapsed f p
  | Native secs quota_waiting =>
    f.(paused) = false ∧ quota_waiting = false ∧ effective f p ≤ elapsed f (with_frozen secs p)
  | Unreadable => False
  end.

Lemma remind_due_expired f p : (remind_due f p).(o_expired) = true ↔ effective f p ≤ elapsed f p.
Proof.
  unfold remind_due, nothing. destruct (Z.leb_spec (effective f p) (elapsed f p)); [done|].
  split; [|lia]. by repeat case_match.
Qed.

Lemma remind_one_expired f p : (remind_one f p).(o_expired) = true ↔ expires f p.
Proof.
  unfold remind_one, expires. destruct (remote_result_pending f _); [naive_solver|].
  destruct (frozen f _) as [|secs q|]; [rewrite remind_due_expired; naive_solver| |naive_solver].
  destruct f.(paused), q; simpl; try naive_solver.
  rewrite remind_due_expired. change (effective f (with_frozen secs p)) with (effective f p). naive_solver.
Qed.

Lemma remind_one_id f p : (remind_one f p).(o_pending).(msg_id) = p.(msg_id).
Proof. unfold remind_one, remind_due, nothing. by repeat case_match. Qed.

Lemma store_level_open f rs o i r :
  rs !! i = Some r → ∃ r', store_level f rs o !! i = Some r' ∧ is_open r' = is_open r.
Proof.
  intros Hr. unfold store_level, set_escalation_level. destruct o.(o_level); [|by exists r].
  destruct (f.(writable) _); [|by exists r]. destruct (rs !! o.(o_pending).(msg_id)) as [r0|] eqn:E; [|by exists r].
  destruct (is_open r0) eqn:Ho; [|by exists r].
  destruct (decide (o.(o_pending).(msg_id) = i)) as [Hi|Hi].
  - rewrite Hi, lookup_insert_eq. exists (with_level z r0). split; [done|].
    rewrite Hi, Hr in E. injection E as ->. done.
  - rewrite lookup_insert_ne by done. by exists r.
Qed.

Lemma store_levels_open f rs os i r :
  rs !! i = Some r → ∃ r', foldl (store_level f) rs os !! i = Some r' ∧ is_open r' = is_open r.
Proof.
  revert rs r. induction os as [|o os IH]; intros rs r Hr; [by eauto|]. simpl.
  destruct (store_level_open f rs o i r Hr) as (r1 & Hr1 & Ho1).
  destruct (IH _ _ Hr1) as (r2 & Hr2 & Ho2). exists r2. by rewrite Ho2.
Qed.

Lemma expire_grows f st p a : a ∈ st.2 → a ∈ (expire f st p).2.
Proof. unfold expire, claim_timeout. repeat case_match; simplify_eq/=; set_solver. Qed.

Lemma expires_grows f ps st a : a ∈ st.2 → a ∈ (foldl (expire f) st ps).2.
Proof. revert st. induction ps as [|p ps IH]; intros st Ha; simpl; [done|]. apply IH, expire_grows, Ha. Qed.

Lemma expire_other f st p i :
  p.(msg_id) ≠ i → (expire f st p).1 !! i = st.1 !! i.
Proof.
  intros Hi. unfold expire, claim_timeout, mark_timed_out. destruct (f.(writable) _); [|done].
  destruct (st.1 !! p.(msg_id)) as [r|]; [|done]. destruct (is_open r); [|done].
  cbn [fst]. by rewrite lookup_insert_ne.
Qed.

(** An open row whose wait expired is notified. *)
Lemma expires_notify f ps st p r :
  f.(writable) p.(msg_id) = true → p ∈ ps → st.1 !! p.(msg_id) = Some r → is_open r = true →
  Exists (λ a, times_out p.(msg_id) a = true) (foldl (expire f) st ps).2.
Proof.
  intros Hw. revert st. induction ps as [|q ps IH]; intros st Hp Hr Ho; [by apply elem_of_nil in Hp|]. simpl.
  destruct (decide (q.(msg_id) = p.(msg_id))) as [Hq|Hq].
  - apply Exists_exists. eexists. split; [apply expires_grows|].
    + unfold expire, claim_timeout, mark_timed_out. rewrite Hq, Hw, Hr, Ho. cbn [fst snd].
      apply elem_of_app. right. by apply list_elem_of_singleton.
    + cbn [times_out]. by apply bool_decide_eq_true.
  - apply elem_of_cons in Hp as [->|Hp]; [done|]. apply IH; [done| |done]. by rewrite expire_other.
Qed.

(** A request that is over is over: when the delay of a wait has elapsed,
    frozen seconds deducted, and its row is open, the pass that sees it tells
    the sender, unless a remote result is pending, the task is paused or waits
    for its quota, or the store cannot be written. *)
Lemma expired_is_notified f st p r :
  p ∈ st.(pending_replies) → expires f p → f.(writable) p.(msg_id) = true →
  st.(requests) !! p.(msg_id) = Some r → is_open r = true →
  Exists (λ a, times_out p.(msg_id) a = true) (reminder_pass f st).2 ∧
  (∃ r', (reminder_pass f st).1.(requests) !! p.(msg_id) = Some r' ∧ is_open r' = false).
Proof.
  intros Hp Hexp Hw Hr Ho.
  assert (Exists (λ a, times_out p.(msg_id) a = true) (reminder_pass f st).2) as Hex.
  { unfold reminder_pass. destruct (foldl (expire f) _ _) as [rs ts] eqn:E. cbn [snd].
    apply Exists_app. right.
    destruct (store_levels_open f st.(requests) (remind_one f <$> pending_replies st) _ r Hr) as (r1 & Hr1 & Ho1).
    rewrite <-(remind_one_id f p) in Hr1, Hw |- *.
    pose proof (expires_notify f (o_pending <$> List.filter o_expired (remind_one f <$> pending_replies st))
      (foldl (store_level f) st.(requests) (remind_one f <$> pending_replies st), [])
      (remind_one f p).(o_pending) r1 Hw) as Hn.
    rewrite E in Hn. cbn [fst snd] in Hn. apply Hn; [|done|congruence].
    apply list_elem_of_fmap_2, list_filter_elem. split; [by apply list_elem_of_fmap_2|by apply remind_one_expired]. }
  split; [done|].
  pose proof (apply_op_budget st (Pass f) p.(msg_id)) as Hb. cbn [apply_op] in Hb.
  assert (1 ≤ count_if (times_out p.(msg_id)) (reminder_pass f st).2)%nat as Hc.
  { apply Exists_exists in Hex as (a & Ha & Ht). unfold count_if.
    destruct (List.filter _ _) eqn:E; [|simpl; lia].
    assert (a ∈ List.filter (times_out p.(msg_id)) (reminder_pass f st).2) as Hin by by apply list_filter_elem.
    rewrite E in Hin. by apply elem_of_nil in Hin. }
  unfold budget in Hb at 2. rewrite Hr, Ho in Hb. unfold budget in Hb.
  destruct ((reminder_pass f st).1.(requests) !! p.(msg_id)) as [r'|]; [|lia].
  exists r'. split; [done|]. destruct (is_open r'); [lia|done].
Qed.

(** *** Which reminders *)

(** The request as the pass judges it: with the frozen seconds it just read. *)
Definition refreshed (f : Facts) (p : PendingReply) : PendingReply :=
  match f.(frozen) p.(msg_id) with Native secs _ => with_frozen secs p | _ => p end.

(** A reminder to the recipient of a wait. *)
Definition nudge_of (p : PendingReply) (a : ReminderAction) : bool :=
  match a with
  | Gentle t f i c | Firm t f i c =>
    bool_decide (t = p.(p_to)) && bool_decide (f = p.(p_from)) && bool_decide (i = p.(msg_id))
    && bool_decide (c = p.(target_conn))
  | _ => false
  end.
Definition is_nudge (a : ReminderAction) : bool :=
  match a with Gentle _ _ _ _ | Firm _ _ _ _ => true | _ => false end.

(** When the pass may remind: not expired, not held back, not a bridge, and the
    recipient disturbed only from the second level on. *)
Definition nudge_due (f : Facts) (p : PendingReply) (a : ReminderAction) : Prop :=
  elapsed f p < effective f p ∧ (p.(msg_id) ∉ f.(held_ids)) ∧ t3_connection f p.(target_conn) = false ∧
  (undisturbed f p.(p_to) = true → 2 ≤ p.(escalation_level)) ∧
  ((∃ level, p.(deferred_level) = Some level ∧ (a = gentle p ↔ level = 1)) ∨
   (p.(deferred_level) = None ∧ p.(escalation_level) = 0 ∧ effective f p / 3 ≤ elapsed f p ∧ a = gentle p) ∨
   (p.(deferred_level) = None ∧ p.(escalation_level) = 1 ∧ two_thirds (effective f p) ≤ elapsed f p ∧ a = firm p)).

Lemma remind_due_nudge f p a :
  a ∈ (remind_due f p).(o_actions) → is_nudge a = true → nudge_of p a = true ∧ nudge_due f p a.
Proof.
  unfold remind_due, nothing. destruct (Z.leb_spec (effective f p) (elapsed f p)) as [|Hlt]; [by intros ?%elem_of_nil|].
  case_bool_decide as Hheld; [by intros ?%elem_of_nil|].
  destruct (t3_connection f _) eqn:Ht3; [by intros ?%elem_of_nil|].
  destruct (should_remind _ _) eqn:Hs; cbn [negb]; [|by intros ?%elem_of_nil].
  assert (undisturbed f p.(p_to) = true → 2 ≤ p.(escalation_level)) as Hund.
  { intros Hu. unfold should_remind in Hs. rewrite Hu in Hs. by apply Z.leb_le in Hs. }
  assert (nudge_of p (gentle p) = true ∧ nudge_of p (firm p) = true) as [Hg Hf]
    by (unfold nudge_of, gentle, firm; by rewrite !bool_decide_eq_true_2).
  destruct (deferred_reminder_level _ _ _) as [level|].
  { case_bool_decide; cbn [o_actions]; [by intros ?%elem_of_nil|]. by intros ->%list_elem_of_singleton. }
  destruct p.(deferred_level) as [level|] eqn:Hd.
  { cbn [o_actions]. intros ->%list_elem_of_singleton _. split; [by case_match|].
    unfold nudge_due. split_and!; [done..|]. left. exists level. split; [done|].
    destruct (Z.eqb_spec level 1); naive_solver. }
  destruct ((escalation_level p =? 0) && _) eqn:E0; [|destruct ((escalation_level p =? 1) && _) eqn:E1].
  - intros ->%list_elem_of_singleton _. rewrite andb_true_iff, Z.eqb_eq, Z.leb_le in E0.
    split; [done|]. unfold nudge_due. naive_solver.
  - intros ->%list_elem_of_singleton _. rewrite andb_true_iff, Z.eqb_eq, Z.leb_le in E1.
    split; [done|]. unfold nudge_due. naive_solver.
  - by intros ?%elem_of_nil.
Qed.

Lemma expire_no_nudge f ps st a :
  a ∈ (foldl (expire f) st ps).2 → is_nudge a = true → a ∈ st.2.
Proof.
  revert st. induction ps as [|p ps IH]; intros st; simpl; [done|]. intros Ha Hn. specialize (IH _ Ha Hn).
  unfold expire in IH. destruct (claim_timeout _ _ _) as [rs []]; cbn [snd] in IH; [|done].
  apply elem_of_app in IH as [IH| ->%list_elem_of_singleton]; done.
Qed.

(** Every reminder of a pass is due.  It goes to the recipient of a wait that
    has not expired, was delivered to it and is not served by a bridge; it is
    the first one after a third of the delay, the second one after two thirds of
    it, or one that was deferred at that level; the delay is at least a day when
    a human is at either end; and a recipient that must not be disturbed gets
    none before the second level. *)
Lemma reminders_are_due f st a :
  a ∈ (reminder_pass f st).2 → is_nudge a = true →
  ∃ p, p ∈ st.(pending_replies) ∧ f.(remote_result_pending) p.(msg_id) = false ∧
    nudge_of p a = true ∧ nudge_due f (refreshed f p) a ∧
    (is_human f p.(p_to) || is_human f p.(p_from) = true → HUMAN_REPLY_TIMEOUT_SECS ≤ effective f (refreshed f p)).
Proof.
  unfold reminder_pass. destruct (foldl (expire f) _ _) as [rs ts] eqn:E. cbn [snd].
  intros [Ha|Ha]%elem_of_app Hn.
  - apply list_elem_of_join in Ha as (l & Ha & Hl). apply list_elem_of_fmap in Hl as (o & -> & Ho).
    apply list_elem_of_fmap in Ho as (p & -> & Hp). exists p. split; [done|].
    unfold remind_one, refreshed in *.
    destruct (remote_result_pending f _); [by apply elem_of_nil in Ha|]. split; [done|].
    assert (∀ n, effective f (with_frozen n p) = effective f p) as He by done.
    assert (is_human f p.(p_to) || is_human f p.(p_from) = true → HUMAN_REPLY_TIMEOUT_SECS ≤ effective f p) as Hh
      by (unfold effective, effective_reply_timeout; intros ->; lia).
    destruct (frozen f _) as [|secs q|]; [| |by apply elem_of_nil in Ha].
    + destruct (remind_due_nudge f p a Ha Hn). done.
    + destruct (_ || q); [by apply elem_of_nil in Ha|].
      destruct (remind_due_nudge f (with_frozen secs p) a Ha Hn). done.
  - pose proof (expire_no_nudge f (o_pending <$> List.filter o_expired (remind_one f <$> pending_replies st))
      (foldl (store_level f) st.(requests) (remind_one f <$> pending_replies st), []) a) as H.
    rewrite E in H. by apply elem_of_nil in H.
Qed.

(** ** Examples *)
Module ReminderExamples.

(** Two agents; the recipient is idle, busy, or refuses to be disturbed. *)
Definition recipient (state_ : string) (dnd : option Z) : AgentState :=
  mkAgentState "bob" state_ "codex" "acp" dnd.
Definition facts (secs : Z) (state_ : string) (dnd : option Z) (writable_ : bool) : Facts :=
  mkFacts (from_secs secs) {["inst-b" := recipient state_ dnd]} {["conn-b" := "inst-b"]} ∅ false ∅
    (λ _, NotNative) (λ _, false) (λ _, writable_).

Definition question : BridgetMessage :=
  mkMessage None "request-1" "alice" None None "bob" "?" true 4 (Some 60) None None false None None [] None None.
Definition asked : op := Track question (Some "conn-a") "conn-b" 1000 0.
Definition start : Followup := mkFollowup ∅ [] [].

Definition kind_of (a : ReminderAction) : string :=
  match a with
  | Gentle _ _ _ _ => "gentle" | Firm _ _ _ _ => "firm" | Timeout _ _ _ _ _ _ => "timeout"
  | Deferred _ _ _ _ => "deferred"
  end.

(** An ordinary request: a reminder at 20 s, another at 40 s, the notice at
    60 s, once. *)
Definition ordinary : list op :=
  [asked; Pass (facts 19 "connected" None true); Pass (facts 20 "connected" None true);
   Pass (facts 30 "connected" None true); Pass (facts 40 "connected" None true);
   Pass (facts 60 "connected" None true); Pass (facts 61 "connected" None true)].
Example ordinary_request : kind_of <$> (run_ops start ordinary).2 = ["gentle"; "firm"; "timeout"].
Proof. vm_compute. reflexivity. Qed.

Definition waiting : Followup := (run_ops start [asked]).1.

Lemma timeout_notified_once_witness :
  count_if (times_out "request-1")
    (run_ops waiting [Answer "request-1" "bob" "alice"; Pass (facts 61 "connected" None true)]).2 = O.
Proof.
  destruct (timeout_notified_once waiting [Pass (facts 61 "connected" None true)] "request-1" "bob" "alice")
    as [_ H].
  apply H. vm_compute. reflexivity.
Defined.

Definition the_wait : PendingReply := mkPending "request-1" "alice" "conn-a" "bob" "conn-b" 60 0 0 0 None.

Lemma expired_is_notified_witness :
  Exists (λ a, times_out "request-1" a = true) (reminder_pass (facts 60 "connected" None true) waiting).2.
Proof.
  apply (expired_is_notified (facts 60 "connected" None true) waiting the_wait
    (mkRow "alice" "bob" "open" 1000 1060 0)).
  - apply (list_elem_of_lookup_2 _ 0). vm_compute. reflexivity.
  - split; [reflexivity|]. vm_compute. congruence.
  - reflexivity.
  - vm_compute. reflexivity.
  - vm_compute. reflexivity.
Defined.

Lemma reminders_are_due_witness :
  ∃ p, p ∈ waiting.(pending_replies) ∧ nudge_of p (gentle the_wait) = true.
Proof.
  destruct (reminders_are_due (facts 20 "connected" None true) waiting (gentle the_wait)) as (p & Hp & _ & Hn & _).
  - apply (list_elem_of_lookup_2 _ 0). vm_compute. reflexivity.
  - reflexivity.
  - exists p. split; [exact Hp|exact Hn].
Defined.

(** A recipient that refuses to be disturbed is reminded all the same once
    the second level was reached: a second reminder deferred while it was busy
    is sent again, firmly, when it becomes idle, although it is then in its
    do-not-disturb period, and the same reminder had already been sent. *)
Lemma firm_reminder_to_undisturbed :
  let last := facts 55 "connected" (Some (from_secs 600)) true in
  let before := [asked; Pass (facts 20 "connected" None true); Pass (facts 40 "connected" None true);
                 Pass (facts 50 "busy" None true)] in
  undisturbed last "bob" = true ∧
  kind_of <$> (run_ops start before).2 = ["gentle"; "firm"; "deferred"] ∧
  (reminder_pass last (run_ops start before).1).2 = [firm the_wait].
Proof. vm_compute. done. Qed.

Definition human : AgentState := mkAgentState "bob" "connected" "ui" "acp" None.
Definition human_facts (secs : Z) (writable_ : bool) : Facts :=
  mkFacts (from_secs secs) {["inst-b" := human]} {["conn-b" := "inst-b"]} ∅ false ∅
    (λ _, NotNative) (λ _, false) (λ _, writable_).

(** The grace period does not protect the requests of a human.  When the
    store refuses the claim at the pass that sees the expiration, a request
    between agents is tried again during thirty seconds and its sender told; one
    to a human, whose delay is raised to a day but whose grace is counted from
    the delay asked, is forgotten at once and never notified. *)
Lemma human_timeout_single_try :
  kind_of <$> (run_ops start [asked; Pass (facts 60 "connected" (Some (from_secs 900)) false);
                              Pass (facts 65 "connected" (Some (from_secs 900)) true)]).2 = ["timeout"] ∧
  kind_of <$> (run_ops start [asked; Pass (human_facts 86400 true)]).2 = ["timeout"] ∧
  kind_of <$> (run_ops start [asked; Pass (human_facts 86400 false); Pass (human_facts 86405 true)]).2 = [] ∧
  (run_ops start [asked; Pass (human_facts 86400 false)]).1.(pending_replies) = [].
Proof. vm_compute. done. Qed.

(** A delay of 2^63 seconds wraps when it is doubled: the recipient is reminded
    at once that two thirds of it have elapsed. *)
Example doubled_timeout_wraps : two_thirds (2 ^ 63) = 0 ∧ deferred_reminder_level true 0 (2 ^ 63) = Some 2.
Proof. vm_compute. done. Qed.

End ReminderExamples.
