(* ===== verification/Control.v ===== *)
(** * Control: [bridget-daemon/src/referent_control.rs]

    The control state of the autonomy: the pause, the cap of automatic
    objectives and the rights, changed by a compare-and-set on a generation and
    written with one line of journal per command; the migration of the table;
    and the time that a pause or a wait for a quota has frozen.  A table is the
    row or the list of rows it holds; a transaction that returns an error
    changes nothing. *)

From S2P Require Import Prelude Text Communication.
Local Open Scope Z_scope.

Definition DEFAULT_AUTO_OBJECTIVES_CAP : Z := 5.
Definition MIN_AUTO_OBJECTIVES_CAP : Z := 1.
Definition MAX_AUTO_OBJECTIVES_CAP : Z := 100.
Definition MAX_REASON_CHARS : nat := 512.
Definition CONTROL_STATE_CONTRACT_VERSION : Z := 1.

Definition HUMAN_PRINCIPAL_LABELS : list string := ["bridget-ui-control"; "bridget-control-cli"].

Definition human_principal_actor (scope : string) : option string :=
  (λ label, if bool_decide (label = "bridget-ui-control") then "humain" else "cli")
    <$> find_first (λ label, bool_decide (issuer_scope label = scope)) HUMAN_PRINCIPAL_LABELS.

Inductive AgentPosture := Discovery | Complete.
#[export] Instance AgentPosture_eq_dec : EqDecision AgentPosture.
Proof. solve_decision. Defined.

Inductive ControlEventKind := PauseOn | PauseOff | BudgetSet | RightsSet.
#[export] Instance ControlEventKind_eq_dec : EqDecision ControlEventKind.
Proof. solve_decision. Defined.

Record ControlEvent := mkEvent {
  e_at : Z;
  e_actor : string;
  e_kind : ControlEventKind;
  e_reason : option string;
  e_generation_after : Z;
  e_command_id : string }.

(** The row of [control_state]. *)
Record ControlRow := mkControl {
  generation : Z;
  paused : bool;
  paused_since : option Z;
  paused_by : option string;
  pause_reason : option string;
  auto_objectives_cap : Z;
  updated_at : Z;
  agent_posture : AgentPosture;
  auto_reassignment : bool }.

(** The row and the journal, oldest event first. *)
Record ControlDb := mkDb { row : ControlRow; control_events : list ControlEvent }.

Record ControlStateFrame := mkFrame {
  f_version : Z;
  f_generation : Z;
  f_paused : bool;
  f_paused_since : option Z;
  f_paused_by : option string;
  f_pause_reason : option string;
  f_auto_objectives_cap : Z;
  f_agent_posture : option AgentPosture;
  f_auto_reassignment : option bool;
  f_updated_at : Z }.

Definition read (db : ControlDb) : ControlStateFrame :=
  let r := db.(row) in
  mkFrame CONTROL_STATE_CONTRACT_VERSION (Z.max 0 r.(generation)) r.(paused) r.(paused_since) r.(paused_by)
    r.(pause_reason) (Z.max 0 (Z.min u32_max r.(auto_objectives_cap))) (Some r.(agent_posture))
    (Some r.(auto_reassignment)) r.(updated_at).

(** ** Admission *)

Inductive AutonomousEffect :=
  | ProjectRound | ReminderNudge | Continuation | NativeDelegation | NativeMissionDispatch
  | AgentGuidance | ScheduledWake | HeldRelease.

Inductive Admission := EffectAdmitted | DeferredBy (motif : string).

Definition admit_autonomous_effect (e : AutonomousEffect) (s : ControlStateFrame) : Admission :=
  if s.(f_paused) then DeferredBy "pause"
  else match e with
       | ProjectRound | ReminderNudge | Continuation | NativeDelegation | NativeMissionDispatch
       | AgentGuidance | ScheduledWake | HeldRelease => EffectAdmitted
       end.

Definition admit_native_delegation (s : ControlStateFrame) (halted : bool) : Admission :=
  if halted then DeferredBy "delegations_halted" else admit_autonomous_effect NativeDelegation s.

(** ** Schema *)

(** What a database holds before the migration: no table, or a table whose row
    may miss the two columns of rights. *)
Record LegacyDb := mkLegacy {
  l_row : option ControlRow;
  l_has_posture : bool;
  l_has_reassignment : bool;
  l_events : list ControlEvent }.

Definition default_row : ControlRow :=
  mkControl 0 false None None None DEFAULT_AUTO_OBJECTIVES_CAP 0 Discovery false.

Definition ensure_schema (l : LegacyDb) : ControlDb :=
  let pre_existing_row := is_some l.(l_row) in
  let r := default default_row l.(l_row) in
  let '(posture, reassignment) := if pre_existing_row then (Complete, true) else (Discovery, false) in
  mkDb (mkControl r.(generation) r.(paused) r.(paused_since) r.(paused_by) r.(pause_reason)
          r.(auto_objectives_cap) r.(updated_at)
          (if l.(l_has_posture) then r.(agent_posture) else posture)
          (if l.(l_has_reassignment) then r.(auto_reassignment) else reassignment))
       l.(l_events).

(** A migrated database seen by the next opening. *)
Definition reopened (db : ControlDb) : LegacyDb := mkLegacy (Some db.(row)) true true db.(control_events).
Definition fresh : ControlDb := ensure_schema (mkLegacy None false false []).

(** ** Mutation

    A generation is a number of commands: its conversions between [u64] and [i64]
    are exact. *)

Record ControlMutation := mkMutation {
  command_id : string;
  expected_generation : Z;
  m_paused : option bool;
  m_cap : option Z;
  m_reason : option string;
  m_actor : string;
  m_now : Z;
  m_posture : option AgentPosture;
  m_reassignment : option bool }.

Inductive ControlStateRefusal :=
  | GenerationMismatch (current : Z)
  | BudgetOutOfRange (min max : Z)
  | NothingToChange.

Definition set_pause (on : bool) (now_ gen : Z) (actor : string) (reason : option string) (r : ControlRow) : ControlRow :=
  if on then
    mkControl gen true (Some now_) (Some actor) reason r.(auto_objectives_cap) now_ r.(agent_posture)
      r.(auto_reassignment)
  else
    mkControl gen false None None None r.(auto_objectives_cap) now_ r.(agent_posture) r.(auto_reassignment).

Definition set_cap (cap now_ gen : Z) (r : ControlRow) : ControlRow :=
  mkControl gen r.(paused) r.(paused_since) r.(paused_by) r.(pause_reason) cap now_ r.(agent_posture)
    r.(auto_reassignment).

Definition set_rights (posture : AgentPosture) (reassignment : bool) (now_ gen : Z) (r : ControlRow) : ControlRow :=
  mkControl gen r.(paused) r.(paused_since) r.(paused_by) r.(pause_reason) r.(auto_objectives_cap) now_ posture
    reassignment.

Definition set (db : ControlDb) (m : ControlMutation) : ControlDb * result ControlStateRefusal ControlStateFrame :=
  if existsb (λ e, bool_decide (e.(e_command_id) = m.(command_id))) db.(control_events) then (db, Ok (read db)) else
  let current := read db in
  if negb (current.(f_generation) =? m.(expected_generation)) then
    (db, Err (GenerationMismatch current.(f_generation))) else
  if is_some_and m.(m_cap) (λ cap, negb ((MIN_AUTO_OBJECTIVES_CAP <=? cap) && (cap <=? MAX_AUTO_OBJECTIVES_CAP))) then
    (db, Err (BudgetOutOfRange MIN_AUTO_OBJECTIVES_CAP MAX_AUTO_OBJECTIVES_CAP)) else
  let pause_change := opt_filter (λ p, negb (bool_decide (p = current.(f_paused)))) m.(m_paused) in
  let cap_change := opt_filter (λ cap, negb (cap =? current.(f_auto_objectives_cap))) m.(m_cap) in
  let posture_change := opt_filter (λ p, negb (bool_decide (Some p = current.(f_agent_posture)))) m.(m_posture) in
  let reassignment_change :=
    opt_filter (λ v, negb (bool_decide (Some v = current.(f_auto_reassignment)))) m.(m_reassignment) in
  if negb (is_some pause_change) && negb (is_some cap_change) && negb (is_some posture_change)
     && negb (is_some reassignment_change) then (db, Err NothingToChange) else
  let reason := Str.chars_take MAX_REASON_CHARS <$> m.(m_reason) in
  let gen := current.(f_generation) + 1 in
  let log k := mkEvent m.(m_now) m.(m_actor) k reason gen m.(command_id) in
  let '(r1, ev1) :=
    match pause_change with
    | Some on => (set_pause on m.(m_now) gen m.(m_actor) reason db.(row), [log (if on then PauseOn else PauseOff)])
    | None => (db.(row), [])
    end in
  let '(r2, ev2) :=
    match cap_change with
    | Some cap => (set_cap cap m.(m_now) gen r1, when (negb (is_some pause_change)) [log BudgetSet])
    | None => (r1, [])
    end in
  let '(r3, ev3) :=
    if is_some posture_change || is_some reassignment_change then
      (set_rights (default Discovery (opt_or posture_change current.(f_agent_posture)))
         (default false (opt_or reassignment_change current.(f_auto_reassignment))) m.(m_now) gen r2,
       when (negb (is_some pause_change) && negb (is_some cap_change)) [log RightsSet])
    else (r2, []) in
  let db' := mkDb r3 (db.(control_events) ++ ev1 ++ ev2 ++ ev3) in
  (db', Ok (read db')).

(** [history]: newest first, at most [limit] events. *)
Definition history (db : ControlDb) (limit : nat) : list ControlEvent := take limit (rev db.(control_events)).

(** ** What a mutation does *)

Definition is_pause_event (e : ControlEvent) : bool :=
  match e.(e_kind) with PauseOn | PauseOff => true | _ => false end.
Definition turns_on (e : ControlEvent) : bool := bool_decide (e.(e_kind) = PauseOn).
Definition last_pause (l : list ControlEvent) : option ControlEvent := last (List.filter is_pause_event l).

(** The pause of a row is the last word of its journal. *)
Definition pause_agrees (r : ControlRow) (l : list ControlEvent) : Prop :=
  match last_pause l with
  | Some e => if turns_on e then r.(paused) = true ∧ r.(paused_since) = Some e.(e_at)
              else r.(paused) = false ∧ r.(paused_since) = None
  | None => r.(paused) = false ∧ r.(paused_since) = None
  end.

Record control_wf (db : ControlDb) : Prop := mkControlWf {
  wf_generation : db.(row).(generation) = Z.of_nat (length db.(control_events));
  wf_commands : NoDup (e_command_id <$> db.(control_events));
  wf_numbers : ∀ i e, db.(control_events) !! i = Some e → e.(e_generation_after) = Z.of_nat i + 1;
  wf_cap : MIN_AUTO_OBJECTIVES_CAP ≤ db.(row).(auto_objectives_cap) ≤ MAX_AUTO_OBJECTIVES_CAP;
  wf_pause : pause_agrees db.(row) db.(control_events) }.

(** The effect of an accepted mutation: one event. *)
Record accepted (db : ControlDb) (m : ControlMutation) (db' : ControlDb) (ev : ControlEvent) : Prop := mkAccepted {
  a_new : m.(command_id) ∉ e_command_id <$> db.(control_events);
  a_expected : Z.max 0 db.(row).(generation) = m.(expected_generation);
  a_events : db'.(control_events) = db.(control_events) ++ [ev];
  a_command : ev.(e_command_id) = m.(command_id);
  a_at : ev.(e_at) = m.(m_now);
  a_after : ev.(e_generation_after) = m.(expected_generation) + 1;
  a_generation : db'.(row).(generation) = m.(expected_generation) + 1;
  a_cap : db'.(row).(auto_objectives_cap) = db.(row).(auto_objectives_cap) ∨
    MIN_AUTO_OBJECTIVES_CAP ≤ db'.(row).(auto_objectives_cap) ≤ MAX_AUTO_OBJECTIVES_CAP;
  a_pause : if is_pause_event ev
    then db'.(row).(paused) = turns_on ev ∧
         db'.(row).(paused_since) = (if turns_on ev then Some m.(m_now) else None)
    else db'.(row).(paused) = db.(row).(paused) ∧ db'.(row).(paused_since) = db.(row).(paused_since) }.

Lemma command_unknown l c :
  existsb (λ e, bool_decide (e.(e_command_id) = c)) l = false → c ∉ e_command_id <$> l.
Proof.
  intros H (e & -> & He)%list_elem_of_fmap. apply not_true_iff_false in H. apply H, existsb_elem.
  exists e. split; [done|]. by apply bool_decide_eq_true.
Qed.

Lemma set_cases db m :
  ((set db m).1 = db ∧ (is_ok (set db m).2 = true ↔ m.(command_id) ∈ e_command_id <$> db.(control_events))) ∨
  ((set db m).2 = Ok (read (set db m).1) ∧ ∃ ev, accepted db m (set db m).1 ev).
Proof.
  unfold set. destruct (existsb _ _) eqn:Hrep.
  { left. split; [done|]. split; [intros _|done]. apply existsb_elem in Hrep as (e & He & <-%bool_decide_eq_true).
    by apply list_elem_of_fmap_2. }
  apply command_unknown in Hrep. cbn [f_generation read].
  destruct (Z.eqb_spec (Z.max 0 db.(row).(generation)) m.(expected_generation)) as [Hgen|];
    [|left; by cbn [negb fst snd is_ok]]. cbn [negb].
  destruct (is_some_and m.(m_cap) _) eqn:Hcap; [left; by cbn [fst snd is_ok]|].
  set (pc := opt_filter _ m.(m_paused)). set (cc := opt_filter _ m.(m_cap)).
  set (poc := opt_filter _ m.(m_posture)). set (rc := opt_filter _ m.(m_reassignment)).
  assert (∀ cap, cc = Some cap → MIN_AUTO_OBJECTIVES_CAP ≤ cap ≤ MAX_AUTO_OBJECTIVES_CAP) as Hcc.
  { intros cap. subst cc. destruct m.(m_cap) as [c|]; simpl; [|done]. case_match; [|done]. intros [= <-].
    cbn [is_some_and] in Hcap. apply negb_false_iff, andb_true_iff in Hcap. rewrite !Z.leb_le in Hcap. done. }
  clearbody pc cc poc rc.
  destruct pc as [on|], cc as [cap|], poc as [po|], rc as [re|];
    cbn [is_some negb andb orb opt_or default from_option id when fst snd app];
    first [left; done|right; split; [done|]; eexists; split;
      cbn [row control_events e_command_id e_at e_generation_after e_kind
           set_pause set_cap set_rights generation paused paused_since auto_objectives_cap];
      try done; try lia; try (by left); try (right; by apply Hcc); try (by f_equal); try (by rewrite Hgen)].
  all: try (unfold is_pause_event, turns_on; cbn [e_kind]; destruct on; done).
  all: try (destruct on; cbn; lia). all: try (destruct on; by left). all: destruct on; by right; apply Hcc.
Qed.

Lemma last_pause_snoc l e : last_pause (l ++ [e]) = if is_pause_event e then Some e else last_pause l.
Proof.
  unfold last_pause. rewrite List.filter_app. cbn [List.filter]. destruct (is_pause_event e).
  - by rewrite last_snoc.
  - by rewrite app_nil_r.
Qed.

Lemma accepted_wf db m db' ev : control_wf db → accepted db m db' ev → control_wf db'.
Proof.
  intros [Hg Hc Hn Hcap Hp] [Hnew Hexp Hev Hcmd Hat Haft Hgen Hcap' Hpause]. split.
  - rewrite Hgen, Hev, length_app. simpl. lia.
  - rewrite Hev, fmap_app. apply NoDup_app. split_and!; [done| |apply NoDup_singleton].
    intros c Hin Hs. apply list_elem_of_singleton in Hs. rewrite Hs, Hcmd in Hin. done.
  - intros i e. rewrite Hev. intros [Hi|[Hi He]]%lookup_app_Some; [by apply Hn|].
    apply list_lookup_singleton_Some in He as [? <-]. rewrite Haft. lia.
  - destruct Hcap' as [->|]; done.
  - unfold pause_agrees in *. rewrite Hev, last_pause_snoc. destruct (is_pause_event ev) eqn:He.
    + destruct Hpause as [-> ->]. rewrite Hat. by destruct (turns_on ev).
    + destruct Hpause as [-> ->]. done.
Qed.

Lemma set_wf db m : control_wf db → control_wf (set db m).1.
Proof.
  intros Hwf. destruct (set_cases db m) as [[-> _]|[_ [ev Ha]]]; [done|]. by apply (accepted_wf db m _ ev).
Qed.

Lemma fresh_wf : control_wf fresh.
Proof.
  split; [done|constructor| |vm_compute; split; congruence|done]. by intros [|i] e Hi.
Qed.

Definition run_mutations (db : ControlDb) (ms : list ControlMutation) : ControlDb :=
  foldl (λ db m, (set db m).1) db ms.

Lemma run_mutations_wf ms db : control_wf db → control_wf (run_mutations db ms).
Proof. revert db. induction ms as [|m ms IH]; intros db Hwf; [done|]. apply IH, set_wf, Hwf. Qed.

Lemma set_commands_grow db m c :
  c ∈ e_command_id <$> db.(control_events) → c ∈ e_command_id <$> (set db m).1.(control_events).
Proof.
  destruct (set_cases db m) as [[-> _]|[_ [ev [_ _ Hev _ _ _ _ _ _]]]]; [done|].
  rewrite Hev, fmap_app. set_solver.
Qed.

(** Whatever commands the control plane receives, the generation is the
    number of commands that changed something, each of them is journalled once,
    under its own identifier and its own generation, the cap stays in its range,
    and the pause of the row, with its beginning, is the last one of the
    journal. *)
Lemma control_invariant ms : control_wf (run_mutations fresh ms).
Proof. apply run_mutations_wf, fresh_wf. Qed.

(** A command takes effect at most once and never on a state it did not
    expect.  A command that changed something, sent again after any other
    commands, returns the state of the moment and changes nothing; and of two
    different commands that expect the same generation, the second is refused
    with the generation the first one made. *)
Lemma command_applied_once db m m' frame :
  control_wf db → set db m = ((set db m).1, Ok frame) →
  (∀ ms, let later := run_mutations (set db m).1 ms in set later m = (later, Ok (read later))) ∧
  ((set db m).1 ≠ db → m'.(command_id) ≠ m.(command_id) →
   m'.(command_id) ∉ (e_command_id <$> db.(control_events)) → m'.(expected_generation) = m.(expected_generation) →
   set (set db m).1 m' = ((set db m).1, Err (GenerationMismatch (m.(expected_generation) + 1)))).
Proof.
  intros Hwf Hok.
  assert (m.(command_id) ∈ e_command_id <$> (set db m).1.(control_events)) as Hin.
  { destruct (set_cases db m) as [[-> Hc]|[_ [ev [_ _ Hev Hcmd _ _ _ _ _]]]].
    - apply Hc. by rewrite Hok.
    - rewrite Hev, fmap_app. simpl. rewrite Hcmd. set_solver. }
  split.
  - intros ms later. assert (m.(command_id) ∈ e_command_id <$> later.(control_events)) as Hl.
    { subst later. clear Hok. generalize dependent (set db m).1. induction ms as [|x ms IH]; intros d Hd; [done|].
      apply IH, set_commands_grow, Hd. }
    unfold set. assert (existsb (λ e, bool_decide (e.(e_command_id) = m.(command_id))) later.(control_events) = true) as ->;
      [|done].
    apply list_elem_of_fmap in Hl as (e & He & Hl). apply existsb_elem. exists e. split; [done|].
    by apply bool_decide_eq_true.
  - intros Hne Hcmd Hnew Hexp. destruct (set_cases db m) as [[? _]|[_ [ev [_ He Hev Hc _ _ Hgen _ _]]]]; [done|].
    unfold set at 1. destruct (existsb _ _) eqn:Hrep.
    + apply existsb_elem in Hrep as (e & He' & Hid%bool_decide_eq_true). rewrite Hev in He'.
      apply elem_of_app in He' as [He'| ->%list_elem_of_singleton]; [|congruence].
      destruct Hnew. rewrite <-Hid. by apply list_elem_of_fmap_2.
    + cbn [f_generation read]. rewrite Hgen, Hexp.
      assert (0 ≤ m.(expected_generation)) by lia. rewrite Z.max_r by lia.
      rewrite (proj2 (Z.eqb_neq _ _)) by lia. done.
Qed.

(** The pause holds everything.  Along any commands, while the last pause
    command of the journal is a pause, every autonomous effect is deferred, and
    when it is a resumption, or there was none, every one is admitted; a halt of
    the delegations defers them before the pause is looked at. *)
Lemma pause_defers_everything ms e :
  let db := run_mutations fresh ms in
  admit_autonomous_effect e (read db) =
    (match last_pause db.(control_events) with
     | Some ev => if turns_on ev then DeferredBy "pause" else EffectAdmitted
     | None => EffectAdmitted
     end) ∧
  admit_native_delegation (read db) true = DeferredBy "delegations_halted" ∧
  admit_native_delegation (read db) false = admit_autonomous_effect NativeDelegation (read db).
Proof.
  intros db. split; [|done]. pose proof (wf_pause db (run_mutations_wf ms fresh fresh_wf)) as Hp.
  unfold pause_agrees in Hp. unfold admit_autonomous_effect. cbn [read f_paused].
  destruct (last_pause _) as [ev|]; [destruct (turns_on ev)|]; destruct Hp as [-> _]; by destruct e.
Qed.

(** The migration is prudent and is done once.  A new base starts in
    discovery without reassignment; a row that existed keeps its values and
    becomes complete with reassignment when it had no rights; and opening again
    a migrated base changes nothing. *)
Lemma schema_migration l :
  (l.(l_row) = None → l.(l_has_posture) = false → l.(l_has_reassignment) = false →
   (ensure_schema l).(row) = default_row) ∧
  (∀ r, l.(l_row) = Some r →
     (ensure_schema l).(row).(generation) = r.(generation) ∧ (ensure_schema l).(row).(paused) = r.(paused) ∧
     (ensure_schema l).(row).(agent_posture) = (if l.(l_has_posture) then r.(agent_posture) else Complete) ∧
     (ensure_schema l).(row).(auto_reassignment) = (if l.(l_has_reassignment) then r.(auto_reassignment) else true)) ∧
  ensure_schema (reopened (ensure_schema l)) = ensure_schema l.
Proof.
  destruct l as [[r|] hp hr evs]; unfold ensure_schema; simpl; split_and!; try done.
  - intros r0 [= <-]. done.
  - by intros _ -> ->.
Qed.

(** ** Frozen time *)

(** The pause events of a window, in the order [at, id]. *)
Definition by_time (l : list ControlEvent) : list ControlEvent :=
  sort_by (λ a b, a.(e_at) <=? b.(e_at)) (List.filter is_pause_event l).

(** One event of the scan: the beginning of the open pause and the intervals. *)
Definition scan_event (acc : option Z * list (Z * Z)) (e : ControlEvent) : option Z * list (Z * Z) :=
  let '(since, intervals) := acc in
  if turns_on e then (Some (default e.(e_at) since), intervals)
  else match since with
       | Some s => (None, intervals ++ [(s, e.(e_at))])
       | None => (None, intervals)
       end.

Definition pause_intervals (db : ControlDb) (from to : Z) : list (Z * Z) :=
  if to <=? from then [] else
  let state := db.(row) in
  let journal := by_time db.(control_events) in
  let previous := turns_on <$> last (List.filter (λ e, e.(e_at) <? from) journal) in
  let open0 :=
    default (state.(paused) && is_some_and state.(paused_since) (λ at_, at_ <=? from)) previous in
  let events := List.filter (λ e, (from <=? e.(e_at)) && (e.(e_at) <? to)) journal in
  let '(since, intervals) := foldl scan_event (if open0 then Some from else None, []) events in
  let state_since :=
    opt_filter (λ s, s <? to)
      (if state.(paused) then Some (Z.max from (default to state.(paused_since))) else None) in
  let tail_since :=
    match since, state_since with
    | Some j, Some s => Some (Z.min j s)
    | j, s => opt_or j s
    end in
  match tail_since with Some s => intervals ++ [(s, to)] | None => intervals end.

Definition total_secs (intervals : list (Z * Z)) : Z :=
  foldl (λ total i, i64_saturating_add total (Z.max 0 (i64_saturating_sub i.2 i.1))) 0 intervals.

Definition pause_overlap (db : ControlDb) (from to : Z) : Z := total_secs (pause_intervals db from to).

(** The fields of a [QuotaWait] that the computation reads. *)
Record QuotaWait := mkWait { q_since : Z; q_reset_at : Z; q_until : option Z }.

Definition quota_interval (from to : Z) (w : QuotaWait) : list (Z * Z) :=
  let since := Z.max w.(q_since) from in
  let until := Z.min (Z.min (default to w.(q_until)) to) (i64_saturating_add w.(q_reset_at) 30) in
  when (since <? until) [(since, until)].

Definition pair_leb (a b : Z * Z) : bool := (a.1 <? b.1) || ((a.1 =? b.1) && (a.2 <=? b.2)).

(** The merge of the sorted intervals. *)
Fixpoint merge_go (since until total : Z) (l : list (Z * Z)) : Z :=
  match l with
  | [] => i64_saturating_add total (i64_saturating_sub until since)
  | (next_since, next_until) :: l' =>
    if next_since <=? until then merge_go since (Z.max until next_until) total l'
    else merge_go next_since next_until (i64_saturating_add total (i64_saturating_sub until since)) l'
  end.

Definition merged_secs (intervals : list (Z * Z)) : Z :=
  match sort_by pair_leb intervals with
  | [] => 0
  | (since, until) :: l => merge_go since until 0 l
  end.

Definition frozen_overlap (db : ControlDb) (waits : list QuotaWait) (from to : Z) : Z :=
  if to <=? from then 0 else
  merged_secs (pause_intervals db from to ++ mjoin (quota_interval from to <$> waits)).

(** *** Seconds of a window *)

Definition covers (i : Z * Z) (t : Z) : bool := (i.1 <=? t) && (t <? i.2).
Definition covered (l : list (Z * Z)) (t : Z) : bool := existsb (λ i, covers i t) l.

(** Seconds of [from, to) that satisfy a test. *)
Definition seconds (from to : Z) (test : Z → bool) : Z := Z.of_nat (count_if test (seqZ from (to - from))).

Lemma seconds_ext from to p q : (∀ t, from ≤ t < to → p t = q t) → seconds from to p = seconds from to q.
Proof.
  intros H. unfold seconds. f_equal. apply count_if_ext. intros t Ht%elem_of_seqZ. apply H. lia.
Qed.

Lemma seconds_split from mid to p : from ≤ mid ≤ to → seconds from to p = seconds from mid p + seconds mid to p.
Proof.
  intros H. unfold seconds. replace (to - from) with ((mid - from) + (to - mid)) by lia.
  rewrite seqZ_app, count_if_app by lia. replace (from + (mid - from)) with mid by lia. lia.
Qed.

Lemma seconds_none from to p : (∀ t, from ≤ t < to → p t = false) → seconds from to p = 0.
Proof.
  intros H. unfold seconds. rewrite count_if_0; [done|]. intros t Ht%elem_of_seqZ. apply H. lia.
Qed.

Lemma count_if_all {A} (p : A → bool) l : (∀ x, x ∈ l → p x = true) → count_if p l = length l.
Proof.
  induction l as [|x l IH]; intros H; [done|]. rewrite count_if_cons, IH, H by set_solver. done.
Qed.

Lemma seconds_all from to p : from ≤ to → (∀ t, from ≤ t < to → p t = true) → seconds from to p = to - from.
Proof.
  intros Hle H. unfold seconds. rewrite count_if_all, length_seqZ; [lia|]. intros t Ht%elem_of_seqZ. apply H. lia.
Qed.

Lemma seconds_interval lo hi a b : lo ≤ a → a ≤ b → b ≤ hi → seconds lo hi (covers (a, b)) = b - a.
Proof.
  intros. rewrite (seconds_split lo a hi), (seconds_split a b hi) by lia.
  rewrite (seconds_none lo a), (seconds_all a b), (seconds_none b hi); unfold covers; simpl; try lia;
    intros t Ht; rewrite ?andb_false_iff, ?andb_true_iff, ?Z.leb_gt, ?Z.ltb_ge, ?Z.leb_le, ?Z.ltb_lt; lia.
Qed.

Lemma seconds_disjoint from to p q :
  (∀ t, from ≤ t < to → p t = true → q t = false) →
  seconds from to (λ t, p t || q t) = seconds from to p + seconds from to q.
Proof.
  intros H. unfold seconds. rewrite <-Nat2Z.inj_add. f_equal.
  assert (∀ t, t ∈ seqZ from (to - from) → p t = true → q t = false) as H'
    by (intros t Ht%elem_of_seqZ; apply H; lia). clear H.
  induction (seqZ from (to - from)) as [|t l IH]; [done|]. rewrite !count_if_cons, IH by set_solver.
  specialize (H' t ltac:(set_solver)). destruct (p t), (q t); simpl; lia || by specialize (H' eq_refl).
Qed.

Lemma seconds_range from to p : from ≤ to → 0 ≤ seconds from to p ≤ to - from.
Proof.
  intros H. unfold seconds. pose proof (count_if_length p (seqZ from (to - from))) as Hc.
  rewrite length_seqZ in Hc. lia.
Qed.

(** *** The merge counts the union *)

Definition interval_in (lo hi : Z) (i : Z * Z) : Prop := lo ≤ i.1 ∧ i.1 ≤ i.2 ∧ i.2 ≤ hi.

Lemma saturate_window lo hi a b total :
  0 ≤ lo → hi ≤ i64_max → lo ≤ a → a ≤ b → b ≤ hi → 0 ≤ total → total + (b - a) ≤ hi - lo →
  i64_saturating_add total (i64_saturating_sub b a) = total + (b - a).
Proof.
  intros. unfold i64_saturating_add, i64_saturating_sub.
  rewrite !i64_saturate_id; [done|unfold_ints; lia|rewrite i64_saturate_id; unfold_ints; lia].
Qed.

Lemma covered_cons i l t : covered (i :: l) t = covers i t || covered l t.
Proof. done. Qed.

Lemma covered_after l t lo :
  (∀ i, i ∈ l → lo ≤ i.1) → t < lo → covered l t = false.
Proof.
  intros Hl Ht. unfold covered. apply not_true_iff_false. rewrite existsb_elem. intros (i & Hi & Hc).
  specialize (Hl i Hi). unfold covers in Hc. rewrite andb_true_iff, Z.leb_le in Hc. lia.
Qed.

Lemma sorted_starts i l :
  Sorted (λ a b : Z * Z, a.1 ≤ b.1) (i :: l) → ∀ j, j ∈ l → i.1 ≤ j.1.
Proof.
  intros Hs. apply Sorted_StronglySorted in Hs; [|intros x y z; lia].
  apply StronglySorted_inv in Hs as [_ Hs]. by rewrite Forall_forall in Hs.
Qed.

Lemma merge_go_union lo hi l since until total :
  0 ≤ lo → hi ≤ i64_max → Forall (interval_in lo hi) ((since, until) :: l) →
  Sorted (λ a b : Z * Z, a.1 ≤ b.1) ((since, until) :: l) → 0 ≤ total → total ≤ since - lo →
  merge_go since until total l = total + seconds lo hi (covered ((since, until) :: l)).
Proof.
  intros Hlo Hhi. revert since until total.
  induction l as [|[ns nu] l IH]; intros since until total Hall Hsort Ht0 Htot; cbn [merge_go].
  - apply Forall_inv in Hall as (? & ? & ?). cbn [fst snd] in *. rewrite (saturate_window lo hi) by lia. f_equal.
    rewrite (seconds_ext _ _ _ (covers (since, until))) by (intros t _; cbn; by rewrite orb_false_r).
    by rewrite seconds_interval.
  - pose proof (sorted_starts _ _ Hsort) as Hst. cbn [fst] in Hst.
    apply Forall_cons in Hall as [(Hs1 & Hs2 & Hs3) Hall]. pose proof Hall as Hall'.
    apply Forall_cons in Hall as [(Hn1 & Hn2 & Hn3) Hall]. cbn [fst snd] in *.
    apply Sorted_inv in Hsort as [Hsort Hhd]. apply HdRel_inv in Hhd. cbn [fst] in Hhd.
    pose proof (sorted_starts _ _ Hsort) as Hst'. cbn [fst] in Hst'.
    destruct (Z.leb_spec ns until) as [Hle|Hgt].
    + rewrite IH; [|constructor; [repeat split; simpl; lia|done]| |lia|lia].
      * f_equal. apply seconds_ext. intros t _. rewrite !covered_cons, orb_assoc. f_equal.
        unfold covers. cbn [fst snd]. apply eq_bool_prop_intro. rewrite !Is_true_true.
        rewrite orb_true_iff, !andb_true_iff, !Z.leb_le, !Z.ltb_lt. lia.
      * apply Sorted_inv in Hsort as [Hsort _]. constructor; [done|].
        destruct l as [|x l]; constructor. cbn [fst]. apply Hst. set_solver.
    + rewrite (saturate_window lo hi) by lia. rewrite IH; [|done|done|lia|lia].
      rewrite <-Z.add_assoc. f_equal.
      rewrite <-(seconds_interval lo hi since until) by lia. rewrite <-seconds_disjoint; [done|].
      intros t _ Hc. apply (covered_after _ _ ns).
      * intros i [->|Hi]%elem_of_cons; [done|]. by apply Hst'.
      * unfold covers in Hc. cbn [fst snd] in Hc. rewrite andb_true_iff, Z.ltb_lt in Hc. lia.
Qed.

Lemma sort_pairs_starts l : Sorted (λ a b : Z * Z, a.1 ≤ b.1) (sort_by pair_leb l).
Proof.
  assert (Sorted (λ a b, pair_leb a b = true) (sort_by pair_leb l)) as Hs.
  { apply sort_by_sorted. intros a b. unfold pair_leb.
    rewrite orb_false_iff, andb_false_iff, orb_true_iff, andb_true_iff, !Z.ltb_ge, !Z.eqb_neq, !Z.leb_gt, Z.ltb_lt, Z.eqb_eq, Z.leb_le.
    lia. }
  induction Hs as [|i l' Hs IH Hhd]; constructor; [done|]. destruct Hhd as [|j l'' Hj]; constructor.
  unfold pair_leb in Hj. rewrite orb_true_iff, andb_true_iff, Z.ltb_lt, Z.eqb_eq in Hj. lia.
Qed.

Lemma covered_perm l l' t : l ≡ₚ l' → covered l t = covered l' t.
Proof.
  intros Hp. unfold covered. apply eq_bool_prop_intro. rewrite !Is_true_true, !existsb_elem.
  setoid_rewrite Hp. done.
Qed.

(** The merge gives the number of seconds that at least one interval covers. *)
Lemma merged_secs_union lo hi l :
  0 ≤ lo → hi ≤ i64_max → Forall (interval_in lo hi) l → merged_secs l = seconds lo hi (covered l).
Proof.
  intros Hlo Hhi Hall. unfold merged_secs.
  pose proof (sort_by_perm pair_leb l) as Hp. pose proof (sort_pairs_starts l) as Hs.
  rewrite (seconds_ext lo hi _ (covered (sort_by pair_leb l))) by (intros t _; by apply covered_perm).
  rewrite <-Hp in Hall. destruct (sort_by pair_leb l) as [|[since until] l'].
  - by rewrite seconds_none.
  - pose proof (Forall_inv Hall) as (H1 & H2 & H3). cbn [fst snd] in *.
    rewrite (merge_go_union lo hi); [lia|done..|lia|lia].
Qed.

(** *** The pauses of the journal *)

Definition time_sorted (l : list ControlEvent) : Prop := Sorted (λ a b, a.(e_at) ≤ b.(e_at)) l.

(** Paused at [t]: the last word of the pause events up to [t]. *)
Definition said_at (l : list ControlEvent) (t : Z) : option bool :=
  turns_on <$> last (List.filter (λ e, e.(e_at) <=? t) l).
Definition paused_at (db : ControlDb) (t : Z) : bool :=
  default false (said_at (List.filter is_pause_event db.(control_events)) t).

Definition close (acc : option Z * list (Z * Z)) (to : Z) : list (Z * Z) :=
  match acc.1 with Some s => acc.2 ++ [(s, to)] | None => acc.2 end.

(** What an open pause says of [t] before any event of the window. *)
Definition open_at (since : option Z) (t : Z) : bool := is_some_and since (λ s, s <=? t).

Lemma time_sorted_inv e l : time_sorted (e :: l) → time_sorted l ∧ ∀ x, x ∈ l → e.(e_at) ≤ x.(e_at).
Proof.
  intros Hs. split; [by apply Sorted_inv in Hs as [? _]|].
  apply Sorted_StronglySorted in Hs; [|intros x y z; lia].
  apply StronglySorted_inv in Hs as [_ Hs]. by rewrite Forall_forall in Hs.
Qed.

Lemma filter_none {A} (p : A → bool) l : (∀ x, x ∈ l → p x = false) → List.filter p l = [].
Proof.
  induction l as [|x l IH]; intros H; [done|]. cbn [List.filter]. rewrite H by set_solver. apply IH. set_solver.
Qed.

Lemma said_at_cons e l t :
  time_sorted (e :: l) →
  said_at (e :: l) t = if e.(e_at) <=? t then opt_or (said_at l t) (Some (turns_on e)) else None.
Proof.
  intros [_ Hl]%time_sorted_inv. unfold said_at. cbn [List.filter].
  destruct (Z.leb_spec e.(e_at) t).
  - destruct (List.filter _ l) as [|x l']; [done|]. by rewrite last_cons_cons; destruct (last (x :: l')) eqn:E;
      [|apply last_None in E].
  - rewrite filter_none; [done|]. intros x Hx. apply Z.leb_gt. specialize (Hl x Hx). lia.
Qed.

Lemma covered_app l l' t : covered (l ++ l') t = covered l t || covered l' t.
Proof. apply existsb_app. Qed.

(** The scan covers what the journal calls paused. *)
Lemma scan_covers win since ivs to t :
  time_sorted win → (∀ e, e ∈ win → e.(e_at) < to) → (∀ s e, since = Some s → e ∈ win → s ≤ e.(e_at)) → t < to →
  covered (close (foldl scan_event (since, ivs) win) to) t =
  covered ivs t || default (open_at since t) (said_at win t).
Proof.
  intros Hs Hto Hsince Ht. revert since ivs Hsince. induction win as [|e win IH]; intros since ivs Hsince.
  - unfold close. cbn [foldl fst snd said_at List.filter last fmap option_fmap option_map default from_option id].
    destruct since as [s|]; cbn [open_at is_some_and]; [|by rewrite orb_false_r].
    rewrite covered_app. f_equal. cbn. unfold covers. cbn [fst snd].
    by rewrite orb_false_r, (proj2 (Z.ltb_lt _ _)), andb_true_r.
  - rewrite said_at_cons by done. apply time_sorted_inv in Hs as [Hs Hle].
    assert (∀ s, since = Some s → s ≤ e.(e_at)) as Hse by (intros s ->; apply Hsince; [done|set_solver]).
    assert (t < e.(e_at) → said_at win t = None) as Hnone.
    { intros Hlt. unfold said_at. rewrite filter_none; [done|]. intros x Hx. apply Z.leb_gt.
      specialize (Hle x Hx). lia. }
    specialize (IH Hs ltac:(set_solver)). cbn [foldl scan_event].
    destruct (turns_on e) eqn:Hon.
    + rewrite IH by (intros s x [= <-] Hx; specialize (Hle x Hx); destruct since as [s0|]; simpl; [specialize (Hse s0 eq_refl)|]; lia).
      f_equal. destruct (Z.leb_spec e.(e_at) t).
      * destruct (said_at win t); [done|]. cbn. apply Z.leb_le.
        destruct since as [s|]; simpl; [specialize (Hse s eq_refl)|]; lia.
      * rewrite Hnone by done. cbn. destruct since as [s|]; cbn; [done|]. apply Z.leb_gt. lia.
    + destruct since as [s|]; rewrite IH by done; [|f_equal].
      * rewrite covered_app, <-orb_assoc. f_equal. cbn. unfold covers. cbn [fst snd]. rewrite orb_false_r.
        destruct (Z.leb_spec e.(e_at) t).
        -- rewrite (proj2 (Z.ltb_ge _ _)), andb_false_r by lia. cbn. by destruct (said_at win t).
        -- rewrite (proj2 (Z.ltb_lt _ _)), andb_true_r, Hnone by lia. cbn. by rewrite orb_false_r.
      * destruct (Z.leb_spec e.(e_at) t); [by destruct (said_at win t)|by rewrite Hnone].
Qed.

(** Intervals one after the other between two instants. *)
Fixpoint chain (lo : Z) (l : list (Z * Z)) (hi : Z) : Prop :=
  match l with
  | [] => lo ≤ hi
  | (s, u) :: l' => lo ≤ s ∧ s ≤ u ∧ chain u l' hi
  end.

Lemma chain_snoc lo l m s u : chain lo l m → m ≤ s → s ≤ u → chain lo (l ++ [(s, u)]) u.
Proof.
  revert lo. induction l as [|[a b] l IH]; intros lo Hc Hm Hu; cbn [app chain] in *; [lia|].
  destruct Hc as (? & ? & Hc). split_and!; [done..|]. by apply IH.
Qed.

Lemma chain_weaken lo l m m' : chain lo l m → m ≤ m' → chain lo l m'.
Proof.
  revert lo. induction l as [|[a b] l IH]; intros lo Hc Hm; cbn [chain] in *; [lia|].
  destruct Hc as (? & ? & Hc). split_and!; [done..|]. by apply IH.
Qed.

Lemma chain_le lo l hi : chain lo l hi → lo ≤ hi.
Proof.
  revert lo. induction l as [|[a b] l IH]; intros lo Hc; cbn [chain] in *; [done|].
  destruct Hc as (? & ? & Hc%IH). lia.
Qed.

Lemma chain_in lo l hi : chain lo l hi → Forall (interval_in lo hi) l.
Proof.
  revert lo. induction l as [|[a b] l IH]; intros lo Hc; [constructor|]. cbn [chain] in Hc.
  destruct Hc as (? & ? & Hc). pose proof (chain_le _ _ _ Hc). constructor; [repeat split; simpl; lia|].
  eapply Forall_impl; [by apply IH|]. intros [x y] (? & ? & ?). repeat split; simpl in *; lia.
Qed.

(** The sum of a chain is the number of its seconds. *)
Lemma chain_total lo l hi acc :
  0 ≤ lo → hi ≤ i64_max → 0 ≤ acc ≤ lo → chain lo l hi →
  foldl (λ total i, i64_saturating_add total (Z.max 0 (i64_saturating_sub i.2 i.1))) acc l =
  acc + seconds lo hi (covered l).
Proof.
  intros Hlo Hhi. revert lo Hlo acc. induction l as [|[s u] l IH]; intros lo Hlo acc Hacc Hc.
  - cbn. rewrite seconds_none; [lia|done].
  - pose proof (chain_in _ _ _ Hc) as Hin. cbn [chain] in Hc. destruct Hc as (Hs & Hu & Hc).
    pose proof (chain_le _ _ _ Hc). cbn [foldl fst snd].
    assert (i64_saturating_add acc (Z.max 0 (i64_saturating_sub u s)) = acc + (u - s)) as ->.
    { unfold i64_saturating_add, i64_saturating_sub.
      rewrite !i64_saturate_id; [lia|unfold_ints; lia|rewrite i64_saturate_id; unfold_ints; lia]. }
    rewrite (IH u) by (done || lia).
    rewrite <-Z.add_assoc. f_equal. rewrite <-(seconds_interval lo hi s u) by lia.
    assert (∀ t, t < u → covered l t = false) as Hafter.
    { intros t Ht. apply (covered_after l t u); [|done]. pose proof (chain_in _ _ _ Hc) as Hl.
      rewrite Forall_forall in Hl. intros i Hi. by destruct (Hl i Hi). }
    rewrite (seconds_split lo u hi (covered ((s, u) :: l))) by lia.
    rewrite (seconds_split lo u hi (covers (s, u))) by lia.
    rewrite (seconds_none u hi (covers (s, u)));
      [|intros t Ht; unfold covers; simpl; rewrite (proj2 (Z.ltb_ge _ _)) by lia; apply andb_false_r].
    rewrite (seconds_ext lo u (covered ((s, u) :: l)) (covers (s, u)))
      by (intros t Ht; rewrite covered_cons, Hafter by lia; apply orb_false_r).
    rewrite (seconds_ext u hi (covered ((s, u) :: l)) (covered l)); [lia|].
    intros t Ht. rewrite covered_cons. unfold covers. simpl. rewrite (proj2 (Z.ltb_ge _ _)) by lia.
    by rewrite andb_false_r.
Qed.

Lemma scan_chain lo to win since ivs m :
  time_sorted win → (∀ e, e ∈ win → e.(e_at) < to ∧ m ≤ e.(e_at)) → chain lo ivs m → m ≤ to →
  (∀ s, since = Some s → m ≤ s ≤ to ∧ ∀ e, e ∈ win → s ≤ e.(e_at)) →
  chain lo (close (foldl scan_event (since, ivs) win) to) to.
Proof.
  intros Hs. revert since ivs m. induction win as [|e win IH]; intros since ivs m Hin Hc Hm Hsince.
  - unfold close. cbn [foldl fst snd]. destruct since as [s|]; [|by apply (chain_weaken _ _ m)].
    destruct (Hsince s eq_refl) as [? _]. apply (chain_snoc _ _ m); [done|lia|lia].
  - apply time_sorted_inv in Hs as [Hs Hle]. specialize (IH Hs).
    destruct (Hin e ltac:(set_solver)) as [Het Hem].
    assert (∀ s, since = Some s → m ≤ s ≤ e.(e_at)) as Hse
      by (intros s Hss; destruct (Hsince s Hss) as [? H]; specialize (H e ltac:(set_solver)); lia).
    cbn [foldl scan_event]. destruct (turns_on e).
    + apply (IH _ _ m); [set_solver|done|done|]. intros s [= <-].
      destruct since as [s0|]; simpl.
      * specialize (Hse s0 eq_refl). split; [lia|]. intros x Hx. specialize (Hle x Hx). lia.
      * split; [lia|done].
    + destruct since as [s|].
      * specialize (Hse s eq_refl). apply (IH _ _ e.(e_at)); [|apply (chain_snoc _ _ m); [done|lia|lia]|lia|done].
        intros x Hx. split; [apply Hin; set_solver|by apply Hle].
      * apply (IH _ _ m); [set_solver|done|done|done].
Qed.

(** A window that ends with a pause leaves it open, since before that event. *)
Lemma scan_last win since ivs e :
  time_sorted win → (∀ s x, since = Some s → x ∈ win → s ≤ x.(e_at)) →
  last win = Some e → turns_on e = true →
  ∃ s, (foldl scan_event (since, ivs) win).1 = Some s ∧ s ≤ e.(e_at).
Proof.
  intros Hs Hsince Hl Hon. apply last_Some in Hl as [pre ->]. rewrite foldl_app. cbn [foldl].
  assert (∀ s, (foldl scan_event (since, ivs) pre).1 = Some s → s ≤ e.(e_at)) as Hpre.
  { assert (∀ x, x ∈ pre → x.(e_at) ≤ e.(e_at)) as Hle.
    { clear Hsince. induction pre as [|y pre IH]; [by intros x ?%elem_of_nil|]. cbn [app] in Hs.
      apply time_sorted_inv in Hs as [Hs Hy]. intros x [->|Hx]%elem_of_cons; [apply Hy; set_solver|by apply IH]. }
    assert (∀ s, since = Some s → s ≤ e.(e_at)) as Hse by (intros s ->; apply Hsince; [done|set_solver]).
    clear Hs Hsince Hon. revert since ivs Hse. induction pre as [|y pre IH]; intros since ivs Hse; [done|].
    cbn [foldl scan_event]. destruct (turns_on y); [|destruct since]; apply IH; try set_solver.
    intros s [= <-]. destruct since as [s0|]; simpl; [by apply Hse|apply Hle; set_solver]. }
  destruct (foldl scan_event (since, ivs) pre) as [since' ivs'] eqn:E. cbn [scan_event fst] in *. rewrite Hon.
  cbn [fst]. eexists. split; [done|]. destruct since' as [s|]; simpl; [by apply Hpre|lia].
Qed.

Lemma time_sorted_filter p l : time_sorted l → time_sorted (List.filter p l).
Proof.
  intros Hs. unfold time_sorted in *. apply Sorted_StronglySorted in Hs; [|intros x y z; lia].
  apply StronglySorted_Sorted. induction Hs as [|x l Hs IH Hx]; cbn [List.filter]; [constructor|].
  destruct (p x); [|done]. constructor; [done|]. rewrite Forall_forall in *.
  intros y [Hy _]%list_filter_elem. by apply Hx.
Qed.

Lemma by_time_sorted l : time_sorted l → by_time l = List.filter is_pause_event l.
Proof.
  intros Hs. unfold by_time. apply (time_sorted_filter is_pause_event) in Hs.
  induction (List.filter is_pause_event l) as [|x l' IH]; [done|].
  pose proof (time_sorted_inv _ _ Hs) as [Hs' Hle]. cbn [sort_by foldr].
  fold (sort_by (λ a b, a.(e_at) <=? b.(e_at)) l'). rewrite IH by done.
  destruct l' as [|y l']; [done|]. cbn [insert_by]. by rewrite (proj2 (Z.leb_le _ _)) by (apply Hle; set_solver).
Qed.

Definition window (from to : Z) (l : list ControlEvent) : list ControlEvent :=
  List.filter (λ e, (from <=? e.(e_at)) && (e.(e_at) <? to)) l.
Definition before (from : Z) (l : list ControlEvent) : list ControlEvent := List.filter (λ e, e.(e_at) <? from) l.

Lemma window_elem from to l e : e ∈ window from to l ↔ e ∈ l ∧ from ≤ e.(e_at) < to.
Proof. unfold window. rewrite list_filter_elem, andb_true_iff, Z.leb_le, Z.ltb_lt. done. Qed.

(** The events up to [t] are those before the window and those of the window. *)
Lemma up_to_split l from to t :
  time_sorted l → from ≤ t < to →
  List.filter (λ e, e.(e_at) <=? t) l = before from l ++ List.filter (λ e, e.(e_at) <=? t) (window from to l).
Proof.
  intros Hs Ht. induction l as [|e l IH]; [done|]. pose proof (time_sorted_inv _ _ Hs) as [Hs' Hle].
  specialize (IH Hs'). unfold before, window in *. cbn [List.filter].
  destruct (Z.ltb_spec e.(e_at) from) as [Hlt|Hge].
  - rewrite (proj2 (Z.leb_le _ _)), (proj2 (Z.leb_gt _ _)) by lia. cbn [andb app]. by rewrite IH.
  - rewrite (filter_none (λ e, e.(e_at) <? from)) in IH |- *
      by (intros x Hx; apply Z.ltb_ge; specialize (Hle x Hx); lia).
    rewrite (proj2 (Z.leb_le from e.(e_at))) by lia. cbn [andb app] in *.
    destruct (Z.leb_spec e.(e_at) t).
    + rewrite (proj2 (Z.ltb_lt _ _)) by lia. cbn [List.filter]. rewrite (proj2 (Z.leb_le _ _)) by lia. by rewrite IH.
    + destruct (e.(e_at) <? to); [cbn [List.filter]; by rewrite (proj2 (Z.leb_gt _ _)) by lia|done].
Qed.

Lemma said_at_split l from to t :
  time_sorted l → from ≤ t < to →
  said_at l t = opt_or (said_at (window from to l) t) (turns_on <$> last (before from l)).
Proof.
  intros Hs Ht. unfold said_at. rewrite (up_to_split l from to t) by done. rewrite last_app.
  by destruct (last (List.filter _ (window from to l))).
Qed.

Lemma last_max l e x : time_sorted l → last l = Some e → x ∈ l → x.(e_at) ≤ e.(e_at).
Proof.
  intros Hs [pre ->]%last_Some. induction pre as [|y pre IH]; cbn [app] in *.
  - by intros ->%list_elem_of_singleton.
  - apply time_sorted_inv in Hs as [Hs Hy]. intros [->|Hx]%elem_of_cons; [apply Hy; set_solver|by apply IH].
Qed.

Lemma before_all l e from : time_sorted l → last l = Some e → e.(e_at) < from → before from l = l.
Proof.
  intros Hs Hl He. assert (∀ x, x ∈ l → x.(e_at) < from) as Hall
    by (intros x Hx; pose proof (last_max l e x Hs Hl Hx); lia).
  clear -Hall. unfold before. induction l as [|y l IH]; [done|]. cbn [List.filter].
  rewrite (proj2 (Z.ltb_lt _ _)) by (apply Hall; set_solver). f_equal. apply IH. set_solver.
Qed.

(** The scan already holds the pause of the row, when it began before the end of
    the window. *)
Lemma scan_holds_pause l e from to since ivs :
  time_sorted l → last l = Some e → turns_on e = true → Z.max from e.(e_at) < to →
  (∀ s, since = Some s → s = from) → (last (before from l) = Some e → since = Some from) →
  ∃ s, (foldl scan_event (since, ivs) (window from to l)).1 = Some s ∧ s ≤ Z.max from e.(e_at).
Proof.
  intros Hs Hl Hon Hlt Hsf Hopen. destruct (Z.lt_ge_cases e.(e_at) from) as [Hb|Hb].
  - assert (window from to l = []) as ->.
    { apply filter_none. intros x Hx. pose proof (last_max l e x Hs Hl Hx).
      rewrite (proj2 (Z.leb_gt _ _)) by lia. done. }
    exists from. split; [|lia]. apply Hopen. by rewrite (before_all l e from).
  - destruct (scan_last (window from to l) since ivs e) as (s & Hs1 & Hs2).
    + by apply time_sorted_filter.
    + intros s x ->%Hsf [_ Hx]%window_elem. lia.
    + apply last_Some in Hl as [pre ->]. unfold window. rewrite List.filter_app. cbn [List.filter].
      rewrite (proj2 (Z.leb_le _ _)), (proj2 (Z.ltb_lt _ _)) by lia. cbn [andb]. by rewrite last_snoc.
    + done.
    + exists s. split; [done|]. lia.
Qed.

(** With no event before the window, the row adds nothing to the journal. *)
Lemma row_adds_nothing db from to t :
  let l := List.filter is_pause_event db.(control_events) in
  pause_agrees db.(row) db.(control_events) → from ≤ t < to →
  before from l = [] → said_at (window from to l) t = None →
  db.(row).(paused) && is_some_and db.(row).(paused_since) (λ at_, at_ <=? from) = false.
Proof.
  intros l Hp Ht Hbe Hsaid. apply not_true_iff_false. intros [Hpd Hst]%andb_true_iff.
  unfold pause_agrees, last_pause in Hp. fold l in Hp.
  destruct (last l) as [e|] eqn:Hl; [|destruct Hp; congruence].
  destruct (turns_on e); [|destruct Hp; congruence]. destruct Hp as [_ Hp]. rewrite Hp in Hst. cbn in Hst.
  apply Z.leb_le in Hst. assert (e ∈ l) as Hel by (apply last_Some in Hl as [pre ->]; set_solver).
  assert (¬ e.(e_at) < from) as Hge.
  { intros Hlt. assert (e ∈ before from l) as Hin
      by (apply list_filter_elem; split; [done|by apply Z.ltb_lt]). rewrite Hbe in Hin. by apply elem_of_nil in Hin. }
  unfold said_at in Hsaid. apply fmap_None, last_None in Hsaid.
  assert (e ∈ List.filter (λ e, e.(e_at) <=? t) (window from to l)) as Hin.
  { apply list_filter_elem. split; [apply window_elem; split; [done|lia]|]. apply Z.leb_le. lia. }
  rewrite Hsaid in Hin. by apply elem_of_nil in Hin.
Qed.

(** The journal alone gives the intervals: the state of the row says the same. *)
Lemma pause_intervals_journal db from to :
  pause_agrees db.(row) db.(control_events) → time_sorted db.(control_events) → from < to →
  let l := List.filter is_pause_event db.(control_events) in
  ∃ since, pause_intervals db from to = close (foldl scan_event (since, []) (window from to l)) to ∧
    (∀ s, since = Some s → s = from) ∧
    (∀ t, from ≤ t < to →
       default (open_at since t) (said_at (window from to l) t) = paused_at db t).
Proof.
  intros Hp Hs Hft l. assert (time_sorted l) as Hsl by by apply time_sorted_filter.
  unfold pause_intervals. rewrite (proj2 (Z.leb_gt _ _)), by_time_sorted by done.
  fold l. fold (before from l). fold (window from to l).
  set (open0 := default _ _). set (since := if open0 then Some from else None).
  exists since. assert (∀ s, since = Some s → s = from) as Hsf by (subst since; destruct open0; naive_solver).
  split_and!; [|done|].
  - assert (∀ e, last l = Some e → turns_on e = true → Z.max from e.(e_at) < to →
      ∃ s, (foldl scan_event (since, []) (window from to l)).1 = Some s ∧ s ≤ Z.max from e.(e_at)) as Hhold.
    { intros e Hl Hon Hlt. apply scan_holds_pause; [done..|]. intros Hb.
      subst since open0. rewrite Hb. cbn. by rewrite Hon. }
    unfold pause_agrees, last_pause in Hp. fold l in Hp.
    destruct (foldl scan_event (since, []) (window from to l)) as [sj ivs] eqn:E. unfold close. cbn [fst snd] in *.
    destruct db.(row).(paused) eqn:Hpd; [|cbn [opt_filter opt_or]; by destruct sj].
    destruct (last l) as [e|]; [|by destruct Hp]. destruct (turns_on e) eqn:Hon; [|by destruct Hp].
    destruct Hp as [_ ->]. cbn [default from_option id opt_filter].
    destruct (Z.ltb_spec (Z.max from e.(e_at)) to) as [Hlt|]; [|by destruct sj].
    destruct (Hhold e) as (s & -> & ?); [done..|]. by rewrite Z.min_l.
  - intros t Ht. unfold paused_at. fold l. rewrite (said_at_split l from to t) by done.
    destruct (said_at (window from to l) t) as [b|] eqn:Hsaid; [done|]. cbn [opt_or default from_option id].
    subst since open0. unfold open_at. destruct (last (before from l)) as [e|] eqn:Hbe; cbn.
    + destruct (turns_on e); cbn; [|done]. apply Z.leb_le. lia.
    + apply last_None in Hbe. by rewrite (row_adds_nothing db from to t).
Qed.

(** The intervals of the pauses: exactly the paused seconds, one after the other. *)
Lemma pause_intervals_spec db from to :
  pause_agrees db.(row) db.(control_events) → time_sorted db.(control_events) → from < to →
  chain from (pause_intervals db from to) to ∧
  ∀ t, from ≤ t < to → covered (pause_intervals db from to) t = paused_at db t.
Proof.
  intros Hp Hs Hft. destruct (pause_intervals_journal db from to Hp Hs Hft) as (since & -> & Hsf & Hsaid).
  set (win := window from to _) in *.
  assert (time_sorted win) as Hw by (subst win; by do 2 apply time_sorted_filter).
  assert (∀ e, e ∈ win → from ≤ e.(e_at) < to) as Hwin by by intros e [_ ?]%window_elem.
  split.
  - apply (scan_chain from to win since [] from); [done| |simpl; lia|lia|].
    + intros e He%Hwin. lia.
    + intros s ->%Hsf. split; [lia|]. intros e He%Hwin. lia.
  - intros t Ht. rewrite scan_covers; [by apply Hsaid|done| | |lia].
    + intros e He%Hwin. lia.
    + intros s e ->%Hsf He%Hwin. lia.
Qed.

(** The quota waits of a task. *)
Definition waits_at (waits : list QuotaWait) (to t : Z) : bool :=
  existsb (λ w, (w.(q_since) <=? t) && (t <? default to w.(q_until)) && (t <? i64_saturating_add w.(q_reset_at) 30))
    waits.

Lemma quota_intervals_in from to waits : from ≤ to →
  Forall (interval_in from to) (mjoin (quota_interval from to <$> waits)).
Proof.
  intros Hle. apply Forall_forall. intros i (l & Hi & (w & -> & _)%list_elem_of_fmap)%list_elem_of_join.
  unfold quota_interval in Hi. destruct (Z.ltb_spec (Z.max w.(q_since) from)
    (Z.min (Z.min (default to w.(q_until)) to) (i64_saturating_add w.(q_reset_at) 30)));
    cbn [when] in Hi; [|by apply elem_of_nil in Hi].
  apply list_elem_of_singleton in Hi as ->. repeat split; cbn [fst snd]; lia.
Qed.

Lemma quota_covered from to waits t : from ≤ t < to →
  covered (mjoin (quota_interval from to <$> waits)) t = waits_at waits to t.
Proof.
  intros Ht. induction waits as [|w waits IH]; [done|].
  change (mjoin (quota_interval from to <$> w :: waits))
    with (quota_interval from to w ++ mjoin (quota_interval from to <$> waits)).
  rewrite covered_app, IH. cbn [waits_at existsb]. fold (waits_at waits to t). f_equal.
  unfold quota_interval. destruct (Z.ltb_spec (Z.max w.(q_since) from)
    (Z.min (Z.min (default to w.(q_until)) to) (i64_saturating_add w.(q_reset_at) 30))); cbn [when covered existsb];
    apply eq_bool_prop_intro; rewrite !Is_true_true; unfold covers; cbn [fst snd];
    rewrite ?orb_false_r, ?andb_true_iff, ?Z.leb_le, ?Z.ltb_lt; [lia|].
  split; [done|]. lia.
Qed.

(** C36: the frozen time of a task is exact.  For a journal in the order of the
    clock whose last word is the state of the row, the time frozen in a window is
    the number of its seconds during which the control plane was paused or the
    task waited for its quota, each second counted once; without waits it is the
    paused time, and it never exceeds the window. *)
Theorem frozen_time_exact db waits from to :
  pause_agrees db.(row) db.(control_events) → time_sorted db.(control_events) →
  0 ≤ from → from ≤ to → to ≤ i64_max →
  frozen_overlap db waits from to = seconds from to (λ t, paused_at db t || waits_at waits to t) ∧
  pause_overlap db from to = seconds from to (paused_at db) ∧
  0 ≤ pause_overlap db from to ≤ frozen_overlap db waits from to ∧
  frozen_overlap db waits from to ≤ to - from.
Proof.
  intros Hp Hs Hfrom Hle Hto.
  assert (frozen_overlap db waits from to = seconds from to (λ t, paused_at db t || waits_at waits to t) ∧
    pause_overlap db from to = seconds from to (paused_at db)) as [-> ->].
  { unfold frozen_overlap, pause_overlap. destruct (Z.leb_spec to from) as [|Hlt].
    - assert (to = from) as -> by lia. unfold seconds, pause_intervals. rewrite Z.sub_diag.
      rewrite (proj2 (Z.leb_le _ _)) by lia. done.
    - destruct (pause_intervals_spec db from to Hp Hs Hlt) as [Hc Hcov]. split.
      + rewrite (merged_secs_union from to) by (done || by apply Forall_app; split; [apply chain_in|apply quota_intervals_in]).
        apply seconds_ext. intros t Ht. by rewrite covered_app, Hcov, quota_covered.
      + unfold total_secs. rewrite (chain_total from _ to 0) by (done || lia). rewrite Z.add_0_l.
        by apply seconds_ext. }
  split_and!; [done..|apply seconds_range; lia| |apply seconds_range; lia].
  unfold seconds. apply inj_le, count_if_le. by intros t _ ->.
Qed.

(** ** Examples *)
Module ControlExamples.

Definition pause_cmd (c : string) (gen : Z) (on : bool) (at_ : Z) : ControlMutation :=
  mkMutation c gen (Some on) None None "humain" at_ None None.
(** Paused from 100 to 160, and again from 200 on. *)
Definition commands : list ControlMutation :=
  [pause_cmd "c1" 0 true 100; pause_cmd "c2" 1 false 160; pause_cmd "c3" 2 true 200].
Definition paused_twice : ControlDb := run_mutations fresh commands.

Example principals :
  human_principal_actor (issuer_scope "bridget-ui-control") = Some "humain" ∧
  human_principal_actor (issuer_scope "bridget-control-cli") = Some "cli" ∧
  human_principal_actor (issuer_scope "codex-1") = None.
Proof. vm_compute. done. Qed.

Lemma command_applied_once_witness :
  set (set fresh (pause_cmd "c1" 0 true 100)).1 (pause_cmd "c9" 0 true 101) =
    ((set fresh (pause_cmd "c1" 0 true 100)).1, Err (GenerationMismatch 1)).
Proof.
  destruct (command_applied_once fresh (pause_cmd "c1" 0 true 100) (pause_cmd "c9" 0 true 101)
    (read (set fresh (pause_cmd "c1" 0 true 100)).1)) as [_ H].
  - apply fresh_wf.
  - vm_compute. reflexivity.
  - apply H; [vm_compute; congruence|vm_compute; congruence|vm_compute; set_solver|reflexivity].
Defined.

(** A wait for a quota from 150 to 170 overlaps the first pause. *)
Lemma frozen_time_exact_witness :
  frozen_overlap paused_twice [mkWait 150 300 (Some 170)] 90 220 =
    seconds 90 220 (λ t, paused_at paused_twice t || waits_at [mkWait 150 300 (Some 170)] 220 t) ∧
  frozen_overlap paused_twice [mkWait 150 300 (Some 170)] 90 220 = 90.
Proof.
  split; [|vm_compute; reflexivity].
  apply (frozen_time_exact paused_twice [mkWait 150 300 (Some 170)] 90 220).
  - apply wf_pause, run_mutations_wf, fresh_wf.
  - unfold time_sorted. vm_compute. repeat (constructor; try (vm_compute; congruence)).
  - lia.
  - lia.
  - vm_compute. congruence.
Defined.

End ControlExamples.
