(* ===== verification/ProviderLimits.v ===== *)
(** * Provider limits: [bridget-daemon/src/provider_limits.rs]

    The volatile memory of the limits that the providers announce: by type of
    agent, by attested instance of an account, and the projection that routing
    reads.  A [BTreeMap] is a map whose entries are listed in the order of the
    keys.  The maps of an instance are those of a profile: the fields that only
    the top level uses stay empty below it. *)

From S2P Require Import Prelude Text.
Local Open Scope Z_scope.

Definition CLAUDE_UNKNOWN_REFUSAL_RETRY_SECS : Z := 300.

Inductive RateLimitSource := ClaudeStreamJson | CodexAppServer | ClaudeStatusLine.
#[export] Instance RateLimitSource_eq_dec : EqDecision RateLimitSource.
Proof. solve_decision. Defined.

Record CodexCredits := mkCredits {
  has_credits : option bool; unlimited : option bool; spend_control_reached : bool }.

Definition usable (c : CodexCredits) : bool :=
  negb c.(spend_control_reached) && is_some c.(has_credits) && is_some c.(unlimited)
  && (bool_decide (c.(has_credits) = Some true) || bool_decide (c.(unlimited) = Some true)).

Record RateLimitFact := mkFact {
  fact_window : string;
  status : string;
  resets_at : option Z;
  used_percent : option Z;
  fact_credits : option CodexCredits }.

Record Seen := mkSeen { fact : RateLimitFact; source : RateLimitSource; observed_at : Z }.

(** The entries of a map, in the order of the keys. *)
Definition entries {V} (m : gmap string V) : list (string * V) :=
  sort_by (λ a b, String.leb a.1 b.1) (map_to_list m).
Definition pair_leb (a b : string * string) : bool :=
  if bool_decide (a.1 = b.1) then String.leb a.2 b.2 else String.leb a.1 b.1.
Definition entries2 {V} (m : gmap (string * string) V) : list ((string * string) * V) :=
  sort_by (λ a b, pair_leb a.1 b.1) (map_to_list m).

Record Limits := mkLimits {
  by_agent_type : gmap string (gmap string Seen);
  codex_credits : gmap string (option CodexCredits * Z) }.
Definition no_limits : Limits := mkLimits ∅ ∅.

Record RoutingQuotaBinding := mkBinding {
  b_agent_type : string;
  b_instance : string;
  b_definition_digest : string;
  b_connection_scope : string;
  b_coordinator_epoch : Z }.

Record ProviderLimits := mkProviderLimits {
  top : Limits;
  by_instance : gmap (string * string) Limits;
  routing_bindings : gmap string RoutingQuotaBinding }.

(** An element of [windows], the JSON projection of a window. *)
Record QuotaWindow := mkWindow {
  w_window : string; w_used_percent : option Z; w_resets_at : option Z; w_exhausted : bool }.

Record Quota := mkQuota {
  windows : list QuotaWindow;
  exhausted : bool;
  launch_blocked : bool;
  credits : option CodexCredits;
  limit_reached : bool;
  q_resets_at : option Z;
  q_observed_at : Z }.

(** ** Recording *)

Definition not_expired (observed : Z) (s : Seen) : bool :=
  is_none_or s.(fact).(resets_at) (λ at_, observed <? at_).

Definition older (a b : string * Seen) : bool :=
  if a.2.(observed_at) =? b.2.(observed_at) then String.ltb a.1 b.1 else a.2.(observed_at) <? b.2.(observed_at).

(** Eviction of the least [(observed_at, key)] beyond eight windows. *)
Definition evict_oldest (ws : gmap string Seen) : gmap string Seen :=
  if (8 <? size ws)%nat then
    match min_by older (entries ws) with Some (oldest, _) => delete oldest ws | None => ws end
  else ws.

Definition record_window (ws : gmap string Seen) (f : RateLimitFact) (src : RateLimitSource) (observed : Z)
    : gmap string Seen :=
  let ws := filter (λ e, not_expired observed e.2 = true) ws in
  if is_some_and f.(resets_at) (λ at_, at_ <=? observed) then delete f.(fact_window) ws
  else evict_oldest (<[f.(fact_window) := mkSeen f src observed]> ws).

Definition record (agent_type : string) (f : RateLimitFact) (src : RateLimitSource) (observed : Z) (l : Limits)
    : Limits :=
  let codex := bool_decide (src = CodexAppServer) in
  let credits' :=
    if codex then <[agent_type := (f.(fact_credits), observed)]> l.(codex_credits) else l.(codex_credits) in
  if codex && bool_decide (f.(fact_window) = "account/credits") then mkLimits l.(by_agent_type) credits' else
  mkLimits (<[agent_type := record_window (default ∅ (l.(by_agent_type) !! agent_type)) f src observed]>
              l.(by_agent_type)) credits'.

(** The last observation of an instance. *)
Definition last_observation (l : Limits) : Z :=
  default 0 (foldr opt_max None (Some <$>
    (mjoin ((λ w, observed_at <$> (entries w).*2) <$> (entries l.(by_agent_type)).*2)
     ++ (snd <$> (entries l.(codex_credits)).*2)))).

(** The instances left after the eviction that makes room for a new one. *)
Definition room_for (key : string * string) (m : gmap (string * string) Limits) : gmap (string * string) Limits :=
  if bool_decide (m !! key = None) && (4096 <=? size m)%nat then
    match min_by (λ a b, last_observation a.2 <? last_observation b.2) (entries2 m) with
    | Some (oldest, _) => delete oldest m
    | None => m
    end
  else m.

Definition record_scoped (agent_type instance : string) (f : RateLimitFact) (src : RateLimitSource) (observed : Z)
    (p : ProviderLimits) : ProviderLimits :=
  let key := (agent_type, instance) in
  let kept := room_for key p.(by_instance) in
  mkProviderLimits (record agent_type f src observed p.(top))
    (<[key := record agent_type f src observed (default no_limits (kept !! key))]> kept)
    p.(routing_bindings).

Definition bind_routing_instance (connection_id agent_type instance definition_digest : string) (epoch : Z)
    (connection_scope : string) (p : ProviderLimits) : ProviderLimits :=
  if (128 <=? size p.(routing_bindings))%nat && bool_decide (p.(routing_bindings) !! connection_id = None) then p
  else mkProviderLimits p.(top) p.(by_instance)
         (<[connection_id := mkBinding agent_type instance definition_digest connection_scope epoch]>
            p.(routing_bindings)).

(** ** Reading *)

Definition is_claude_rejection (s : Seen) : bool :=
  bool_decide (s.(source) = ClaudeStreamJson) && bool_decide (s.(fact).(status) = "rejected").
Definition used_up (s : Seen) : bool := is_some_and s.(fact).(used_percent) (λ p, 100 <=? p).

Definition window_exhausted (now : Z) (s : Seen) : bool :=
  is_some_and s.(fact).(resets_at) (λ at_, now <? at_) && (is_claude_rejection s || used_up s).

(** [account]: the credits of the account when the reading is scoped. *)
Definition blocks_launch (now : Z) (account : option CodexCredits) (s : Seen) : bool :=
  let credits := if bool_decide (s.(source) = CodexAppServer) then account else None in
  is_some_and credits spend_control_reached
  || (window_exhausted now s && negb (is_some_and credits usable)).

Definition reaches_limit (now : Z) (s : Seen) : bool :=
  window_exhausted now s
  || (bool_decide (s.(source) = CodexAppServer) && negb (bool_decide (s.(fact).(status) = "available"))).

Definition quota_with_credits (agent_type : string) (now : Z) (scoped : bool) (l : Limits) : option Quota :=
  let known := default ∅ (l.(by_agent_type) !! agent_type) in
  let current_credits := if scoped then l.(codex_credits) !! agent_type else None in
  let account := current_credits ≫= fst in
  let seen := List.filter (not_expired now) (entries known).*2 in
  observed ← foldr opt_max (snd <$> current_credits) ((λ s, Some s.(observed_at)) <$> seen);
  Some (mkQuota
    ((λ s, mkWindow s.(fact).(fact_window) s.(fact).(used_percent) s.(fact).(resets_at) (window_exhausted now s))
       <$> seen)
    (existsb (window_exhausted now) seen)
    (is_some_and account spend_control_reached || existsb (blocks_launch now account) seen)
    account
    (existsb (reaches_limit now) seen)
    (foldr opt_max None ((λ s, s.(fact).(resets_at)) <$> List.filter (window_exhausted now) seen))
    observed).

Definition quota (agent_type : string) (now : Z) (p : ProviderLimits) : option Quota :=
  quota_with_credits agent_type now false p.(top).

Definition scoped_quota (agent_type instance : string) (now : Z) (p : ProviderLimits) : option Quota :=
  l ← p.(by_instance) !! (agent_type, instance); quota_with_credits agent_type now true l.

Definition fresh (now max_age at_ : Z) : bool :=
  (0 <? at_) && (at_ <=? now) && (i64_saturating_sub now at_ <=? max_age).

(** A refusal of Claude that is not over at [now]. *)
Definition unresolved (now : Z) (s : Seen) : bool :=
  is_claude_rejection s
  && match s.(fact).(resets_at) with
     | None => i64_saturating_sub now s.(observed_at) <=? CLAUDE_UNKNOWN_REFUSAL_RETRY_SECS
     | Some at_ => now <? at_
     end.

(** The facts that routing may use. *)
Definition routable (now max_age : Z) (same_definition instance_live : bool) (s : Seen) : bool :=
  (0 <? s.(observed_at)) && (s.(observed_at) <=? now)
  && (unresolved now s || (same_definition && instance_live && fresh now max_age s.(observed_at))).

Definition routing_quota (connection_id definition_digest : string) (epoch : Z) (connection_scope : string)
    (live_instances : gset string) (now max_age : Z) (p : ProviderLimits) : option Quota :=
  binding ← p.(routing_bindings) !! connection_id;
  if negb (binding.(b_coordinator_epoch) =? epoch) || bool_decide (connection_scope = "")
     || negb (bool_decide (binding.(b_connection_scope) = connection_scope))
     || negb ((1 <=? max_age) && (max_age <=? 300)) then None else
  let instance_live := bool_decide (binding.(b_instance) ∈ live_instances) in
  let same_definition := bool_decide (binding.(b_definition_digest) = definition_digest) in
  let ty := binding.(b_agent_type) in
  scoped ← p.(by_instance) !! (ty, binding.(b_instance));
  let seen := (entries (default ∅ (scoped.(by_agent_type) !! ty))).*2 in
  let filtered :=
    foldl (λ l s, record ty s.(fact) s.(source) s.(observed_at) l) no_limits
      (List.filter (routable now max_age same_definition instance_live) seen) in
  let account :=
    opt_filter (λ c, same_definition && instance_live && fresh now max_age c.2) (scoped.(codex_credits) !! ty) in
  let filtered :=
    mkLimits filtered.(by_agent_type)
      (match account with
       | Some c => <[ty := c]> (delete ty filtered.(codex_credits))
       | None => delete ty filtered.(codex_credits)
       end) in
  let claude_rejected :=
    existsb (λ s, is_claude_rejection s && is_none_or s.(fact).(resets_at) (λ at_, now <? at_))
      (entries (default ∅ (filtered.(by_agent_type) !! ty))).*2 in
  if negb instance_live && negb claude_rejected then None else
  q ← quota_with_credits ty now true filtered;
  Some (mkQuota q.(windows) q.(exhausted) (q.(launch_blocked) || claude_rejected) q.(credits)
          (q.(limit_reached) || claude_rejected) q.(q_resets_at) q.(q_observed_at)).

(** Whether a window holds an instance back, after [since] and, for a hold that
    began at [past_since], within the five seconds that follow it. *)
Definition holds_back (since now : Z) (past_since : option Z) (account : option CodexCredits) (s : Seen) : bool :=
  negb ((s.(observed_at) <=? since)
        || is_some_and past_since (λ at_, i64_saturating_add at_ 5 <? s.(observed_at)))
  && is_some_and s.(fact).(resets_at) (λ reset,
       negb ((reset <=? now) && negb (is_some_and past_since (λ at_, at_ <=? s.(observed_at)))))
  && (is_claude_rejection s || used_up s)
  && negb (bool_decide (s.(source) = CodexAppServer) && is_some_and account usable).

Definition attested_exhausted_since (agent_type : string) (since now : Z) (past_since : option Z) (l : Limits)
    : option (Z * Z) :=
  ws ← l.(by_agent_type) !! agent_type;
  let account := l.(codex_credits) !! agent_type ≫= fst in
  let held := List.filter (holds_back since now past_since account) (entries ws).*2 in
  r ← foldr opt_max None ((λ s, s.(fact).(resets_at)) <$> held);
  o ← foldr opt_max None ((λ s, Some s.(observed_at)) <$> held);
  Some (r, o).

Definition scoped_exhausted_since (agent_type instance : string) (since now : Z) (past_since : option Z)
    (p : ProviderLimits) : option (Z * Z) :=
  l ← p.(by_instance) !! (agent_type, instance); attested_exhausted_since agent_type since now past_since l.

(** ** Lemmas *)

Lemma entries_elem {V} (m : gmap string V) k v : (k, v) ∈ entries m ↔ m !! k = Some v.
Proof. unfold entries. by rewrite sort_by_perm, elem_of_map_to_list. Qed.

Lemma entries_values {V} (m : gmap string V) v : v ∈ (entries m).*2 ↔ ∃ k, m !! k = Some v.
Proof.
  rewrite list_elem_of_fmap. split.
  - intros ([k w] & -> & H%entries_elem). eauto.
  - intros [k H%entries_elem]. by exists (k, v).
Qed.

Lemma opt_max_Some a b r :
  opt_max a b = Some r → (a = Some r ∨ b = Some r) ∧ ∀ x, a = Some x ∨ b = Some x → x ≤ r.
Proof.
  destruct a as [a|], b as [b|]; simpl; intros [= <-]; (split; [|by intros x [[= ->]|[= ->]]; lia]); try auto.
  destruct (Z.max_spec a b) as [[_ ->]|[_ ->]]; auto.
Qed.

Lemma opt_max_None a b : opt_max a b = None → a = None ∧ b = None.
Proof. by destruct a, b. Qed.

(** The maximum of a list of optional values: it is one of them, the largest. *)
Lemma opt_max_list o l r :
  foldr opt_max o l = Some r → (o = Some r ∨ Some r ∈ l) ∧ ∀ x, o = Some x ∨ Some x ∈ l → x ≤ r.
Proof.
  revert r. induction l as [|a l IH]; intros r; cbn [foldr].
  - intros ->. split; [by left|]. intros x [[= ->]|?%elem_of_nil]; [lia|done].
  - intros [Hin Hmax]%opt_max_Some. split.
    + destruct Hin as [->|[[->|?] _]%IH]; set_solver.
    + intros x [Ho|Hx].
      * destruct (foldr opt_max o l) as [m|] eqn:E.
        -- destruct (IH m eq_refl) as [_ Hm]. specialize (Hm x (or_introl Ho)). specialize (Hmax m (or_intror eq_refl)). lia.
        -- exfalso. clear -E Ho. induction l as [|b l IH]; cbn [foldr] in E; [congruence|].
           apply opt_max_None in E as [_ E]. by apply IH.
      * apply elem_of_cons in Hx as [Hx|Hx]; [by apply Hmax; left|].
        destruct (foldr opt_max o l) as [m|] eqn:E.
        -- destruct (IH m eq_refl) as [_ Hm]. specialize (Hm x (or_intror Hx)). specialize (Hmax m (or_intror eq_refl)). lia.
        -- exfalso. clear -E Hx. induction l as [|b l IH]; cbn [foldr] in E; [by apply elem_of_nil in Hx|].
           apply opt_max_None in E as [-> E]. apply elem_of_cons in Hx as [?|Hx]; [done|]. by apply IH.
Qed.

(** *** Bounds *)

Lemma evict_oldest_size ws : (size ws ≤ 9)%nat → (size (evict_oldest ws) ≤ 8)%nat.
Proof.
  intros Hs. unfold evict_oldest. destruct (Nat.ltb_spec 8 (size ws)) as [Hlt|]; [|lia].
  destruct (min_by older (entries ws)) as [[k s]|] eqn:E.
  - apply min_by_elem, entries_elem in E. rewrite map_size_delete_Some by eauto. lia.
  - exfalso. destruct (entries ws) as [|e l] eqn:El; [|done].
    assert (length (entries ws) = size ws) as Hl by (unfold entries; by rewrite sort_by_perm, length_map_to_list).
    rewrite El in Hl. simpl in Hl. lia.
Qed.

(** An eviction removes one of the least recent windows. *)
Lemma evict_oldest_lookup ws k s :
  ws !! k = Some s → evict_oldest ws !! k = Some s ∨ ∀ k' s', ws !! k' = Some s' → s.(observed_at) ≤ s'.(observed_at).
Proof.
  intros Hk. unfold evict_oldest. destruct (_ <? _)%nat; [|by left].
  destruct (min_by older (entries ws)) as [[k0 s0]|] eqn:E; [|by left].
  destruct (decide (k0 = k)) as [->|Hne]; [right|left; by rewrite lookup_delete_ne].
  intros k' s' Hk'. pose proof (min_by_elem _ _ _ E) as Hin. apply entries_elem in Hin. rewrite Hk in Hin.
  injection Hin as <-.
  apply (min_by_measure older (λ e, e.2.(observed_at)) _ _) with (x := (k', s')) in E; [done|..|by apply entries_elem].
  - intros a b. unfold older. destruct (Z.eqb_spec a.2.(observed_at) b.2.(observed_at)); [lia|].
    rewrite Z.ltb_lt. lia.
  - intros a b. unfold older. destruct (Z.eqb_spec a.2.(observed_at) b.2.(observed_at)); [lia|].
    rewrite Z.ltb_ge. lia.
Qed.

Lemma record_window_size ws f src t : (size ws ≤ 8)%nat → (size (record_window ws f src t) ≤ 8)%nat.
Proof.
  intros Hs. unfold record_window. set (ws' := filter _ ws).
  assert (size ws' ≤ 8)%nat as Hf by (etransitivity; [apply map_size_filter|done]).
  case_match.
  - rewrite map_size_delete. case_match; unfold id; lia.
  - apply evict_oldest_size. rewrite map_size_insert. case_match; unfold id; lia.
Qed.

(** What a window map may hold after a record. *)
Lemma record_window_elem ws f src t k s :
  record_window ws f src t !! k = Some s →
  (ws !! k = Some s ∧ not_expired t s = true) ∨ (k = f.(fact_window) ∧ s = mkSeen f src t).
Proof.
  unfold record_window. case_match.
  - rewrite lookup_delete_Some, map_lookup_filter_Some. naive_solver.
  - intros Hk. assert (<[fact_window f:=mkSeen f src t]> (filter (λ e, not_expired t e.2 = true) ws) !! k = Some s) as Hi.
    { unfold evict_oldest in Hk. repeat case_match; try done. by apply lookup_delete_Some in Hk as [_ ?]. }
    apply lookup_insert_Some in Hi as [[<- <-]|[_ [? ?]%map_lookup_filter_Some]]; [by right|by left].
Qed.

(** *** Well-formed memories *)

(** A window is filed under its name, and the credits are not a window. *)
Definition seen_wf (k : string) (s : Seen) : Prop :=
  s.(fact).(fact_window) = k ∧ ¬ (s.(source) = CodexAppServer ∧ k = "account/credits").

Definition limits_wf (l : Limits) : Prop :=
  ∀ ty ws, l.(by_agent_type) !! ty = Some ws → (size ws ≤ 8)%nat ∧ ∀ k s, ws !! k = Some s → seen_wf k s.

Definition provider_wf (p : ProviderLimits) : Prop :=
  limits_wf p.(top) ∧ (size p.(by_instance) ≤ 4096)%nat ∧
  (∀ key l, p.(by_instance) !! key = Some l → limits_wf l) ∧ (size p.(routing_bindings) ≤ 128)%nat.

Lemma no_limits_wf : limits_wf no_limits.
Proof. intros ty ws H. cbn in H. by rewrite lookup_empty in H. Qed.

Lemma record_wf ty f src t l : limits_wf l → limits_wf (record ty f src t l).
Proof.
  intros Hwf. unfold record. destruct (_ && _) eqn:Hacc; [exact Hwf|].
  intros ty' ws. cbn [by_agent_type]. intros [[<- <-]|[_ H]]%lookup_insert_Some; [|by apply (Hwf ty')].
  assert ((size (default ∅ (l.(by_agent_type) !! ty)) ≤ 8)%nat ∧
    ∀ k s, default ∅ (l.(by_agent_type) !! ty) !! k = Some s → seen_wf k s) as [Hsize Hkeys].
  { destruct (l.(by_agent_type) !! ty) as [ws|] eqn:E; [by apply (Hwf ty)|]. cbn.
    split; [rewrite map_size_empty; lia|]. intros k s H. by rewrite lookup_empty in H. }
  split; [by apply record_window_size|].
  intros k s [[Hk _]|[-> ->]]%record_window_elem; [by apply Hkeys|]. split; [done|]. cbn [source].
  intros [-> Hw]. rewrite andb_false_iff, !bool_decide_eq_false in Hacc. naive_solver.
Qed.

Lemma room_for_spec key m l :
  (size m ≤ 4096)%nat →
  (size (<[key := l]> (room_for key m)) ≤ 4096)%nat ∧ ∀ k l', room_for key m !! k = Some l' → m !! k = Some l'.
Proof.
  intros Hsize. unfold room_for. destruct (bool_decide (m !! key = None) && _) eqn:E.
  - destruct (min_by _ _) as [[oldest l0]|] eqn:Em.
    + apply min_by_elem in Em. unfold entries2 in Em. rewrite sort_by_perm, elem_of_map_to_list in Em.
      split; [|by intros k l' [_ H]%lookup_delete_Some].
      rewrite map_size_insert, map_size_delete_Some by eauto. case_match; unfold id; lia.
    + exfalso. destruct (entries2 m) as [|e l'] eqn:El; [|done].
      assert (length (entries2 m) = size m) as Hl by (unfold entries2; by rewrite sort_by_perm, length_map_to_list).
      rewrite El in Hl. apply andb_true_iff in E as [_ Hge%Nat.leb_le]. simpl in Hl. lia.
  - split; [|done]. rewrite map_size_insert. destruct (m !! key) eqn:Hl; [done|].
    rewrite bool_decide_eq_true_2 in E by done. apply Nat.leb_gt in E. lia.
Qed.

Lemma record_scoped_wf ty i f src t p : provider_wf p → provider_wf (record_scoped ty i f src t p).
Proof.
  intros (Htop & Hsize & Hinst & Hb). unfold record_scoped.
  set (added := record ty f src t (default no_limits _)).
  destruct (room_for_spec (ty, i) p.(by_instance) added Hsize) as [Hs Hk].
  unfold provider_wf. cbn [top by_instance routing_bindings].
  split_and!; [by apply record_wf|exact Hs| |exact Hb].
  intros key l [[<- <-]|[_ H]]%lookup_insert_Some; [|by apply (Hinst key), Hk].
  subst added. apply record_wf. destruct (room_for _ _ !! (ty, i)) as [l|] eqn:E;
    [by apply (Hinst (ty, i)), Hk|apply no_limits_wf].
Qed.

Lemma bind_wf c ty i d e s p : provider_wf p → provider_wf (bind_routing_instance c ty i d e s p).
Proof.
  intros (Htop & Hsize & Hinst & Hb). unfold bind_routing_instance. destruct (_ && _) eqn:E; [done|].
  split_and!; [done..|]. cbn [routing_bindings]. rewrite map_size_insert.
  destruct (p.(routing_bindings) !! c) eqn:Hc; [done|].
  rewrite bool_decide_eq_true_2, andb_true_r in E by done. apply Nat.leb_gt in E. lia.
Qed.

Inductive op :=
  | Record_ (ty : string) (f : RateLimitFact) (src : RateLimitSource) (at_ : Z)
  | RecordScoped (ty inst : string) (f : RateLimitFact) (src : RateLimitSource) (at_ : Z)
  | Bind (conn ty inst digest : string) (epoch : Z) (scope : string).

Definition apply_op (p : ProviderLimits) (o : op) : ProviderLimits :=
  match o with
  | Record_ ty f src t => mkProviderLimits (record ty f src t p.(top)) p.(by_instance) p.(routing_bindings)
  | RecordScoped ty i f src t => record_scoped ty i f src t p
  | Bind c ty i d e s => bind_routing_instance c ty i d e s p
  end.
Definition empty_limits : ProviderLimits := mkProviderLimits no_limits ∅ ∅.

Lemma apply_op_wf p o : provider_wf p → provider_wf (apply_op p o).
Proof.
  intros Hp. destruct o; [|by apply record_scoped_wf|by apply bind_wf].
  destruct Hp as (? & ? & ? & ?). split_and!; [by apply record_wf|done..].
Qed.

Lemma empty_limits_wf : provider_wf empty_limits.
Proof.
  split_and!; [apply no_limits_wf|cbn; rewrite map_size_empty; lia| |cbn; rewrite map_size_empty; lia].
  intros key l H. cbn [by_instance empty_limits] in H. by rewrite lookup_empty in H.
Qed.

(** The memory is bounded whatever the providers say: at most eight windows
    for each type of agent, at most 4096 instances, each with the same bound, at
    most 128 routing bindings; and each window is filed under its own name. *)
Lemma limits_bounded ops : provider_wf (foldl apply_op empty_limits ops).
Proof.
  generalize empty_limits_wf. generalize empty_limits. induction ops as [|o ops IH]; intros p Hp; [done|].
  apply IH, apply_op_wf, Hp.
Qed.

(** What was announced last is remembered.  Recording a fact that is not
    already over, in a memory with a window observed before it, keeps it; a fact
    already over removes the window of its name; and a window observed after the
    fact, not over and of another name, is never dropped for it. *)
Lemma record_keeps_recent ws f src t :
  (is_some_and f.(resets_at) (λ at_, at_ <=? t) = true → record_window ws f src t !! f.(fact_window) = None) ∧
  (is_some_and f.(resets_at) (λ at_, at_ <=? t) = false →
   (∃ k s, ws !! k = Some s ∧ k ≠ f.(fact_window) ∧ not_expired t s = true ∧ s.(observed_at) < t) →
   record_window ws f src t !! f.(fact_window) = Some (mkSeen f src t)) ∧
  (∀ k s, ws !! k = Some s → k ≠ f.(fact_window) → not_expired t s = true → t < s.(observed_at) →
   record_window ws f src t !! k = Some s).
Proof.
  unfold record_window. set (ws' := filter _ ws). split_and!.
  - intros ->. by rewrite lookup_delete_eq.
  - intros -> (k & s & Hk & Hne & Hexp & Hlt).
    destruct (evict_oldest_lookup (<[fact_window f:=mkSeen f src t]> ws') f.(fact_window) (mkSeen f src t))
      as [?|Hold]; [by rewrite lookup_insert_eq|done|].
    specialize (Hold k s). rewrite lookup_insert_ne in Hold by done. cbn [observed_at] in Hold.
    specialize (Hold ltac:(by apply map_lookup_filter_Some)). lia.
  - intros k s Hk Hne Hexp Hlt. assert (ws' !! k = Some s) as Hk' by by apply map_lookup_filter_Some.
    case_match; [by rewrite lookup_delete_ne|].
    destruct (evict_oldest_lookup (<[fact_window f:=mkSeen f src t]> ws') k s) as [?|Hold];
      [by rewrite lookup_insert_ne|done|].
    specialize (Hold f.(fact_window) (mkSeen f src t)). rewrite lookup_insert_eq in Hold.
    specialize (Hold eq_refl). cbn [observed_at] in Hold. lia.
Qed.

(** *** What routing reads *)

Definition window_of (s : Seen) : string := s.(fact).(fact_window).
Definition replay (ty : string) (l : list Seen) : Limits :=
  foldl (λ acc s, record ty s.(fact) s.(source) s.(observed_at) acc) no_limits l.
Definition windows_of (l : Limits) (ty : string) : gmap string Seen := default ∅ (l.(by_agent_type) !! ty).

Lemma replay_snoc ty l s : replay ty (l ++ [s]) = record ty s.(fact) s.(source) s.(observed_at) (replay ty l).
Proof. unfold replay. by rewrite foldl_app. Qed.

Lemma not_expired_later t t' s : t ≤ t' → not_expired t' s = true → not_expired t s = true.
Proof. unfold not_expired. rewrite !is_none_or_true. destruct s.(fact).(resets_at); naive_solver lia. Qed.

(** A fact under a new name, with room for it. *)
Lemma record_window_new ws x :
  ws !! window_of x = None → (size ws < 8)%nat →
  record_window ws x.(fact) x.(source) x.(observed_at) =
    if not_expired x.(observed_at) x
    then <[window_of x := x]> (filter (λ e, not_expired x.(observed_at) e.2 = true) ws)
    else filter (λ e, not_expired x.(observed_at) e.2 = true) ws.
Proof.
  intros Hfresh Hsize. assert (filter (λ e, not_expired x.(observed_at) e.2 = true) ws !! window_of x = None) as Hn
    by (apply map_lookup_filter_None; by left).
  assert (is_some_and x.(fact).(resets_at) (λ at_, at_ <=? x.(observed_at)) = negb (not_expired x.(observed_at) x)) as Hover.
  { unfold not_expired. destruct x.(fact).(resets_at); cbn; [|done]. by rewrite Z.leb_antisym. }
  unfold record_window. fold (window_of x). rewrite Hover. destruct (not_expired _ x); cbn [negb]; [|by apply delete_id].
  unfold evict_oldest. assert (mkSeen x.(fact) x.(source) x.(observed_at) = x) as -> by by destruct x.
  rewrite map_size_insert_None by done.
  pose proof (map_size_filter (λ e, not_expired x.(observed_at) e.2 = true) ws).
  by rewrite (proj2 (Nat.ltb_ge _ _)) by lia.
Qed.

Lemma windows_of_replay_snoc ty l x :
  seen_wf (window_of x) x →
  windows_of (replay ty (l ++ [x])) ty =
    record_window (windows_of (replay ty l) ty) x.(fact) x.(source) x.(observed_at).
Proof.
  intros [_ Hcodex]. rewrite replay_snoc. unfold record. destruct (_ && _) eqn:E.
  - apply andb_true_iff in E as [E1%bool_decide_eq_true E2%bool_decide_eq_true]. by destruct Hcodex.
  - unfold windows_of. cbn [by_agent_type]. by rewrite lookup_insert_eq.
Qed.

(** Facts of distinct windows, at most eight of them, replayed in any order: the
    ones that are not over are all there, and nothing else is. *)
Lemma replay_spec ty now l :
  NoDup (window_of <$> l) → (length l ≤ 8)%nat →
  (∀ s, s ∈ l → s.(observed_at) ≤ now ∧ seen_wf (window_of s) s) →
  (size (windows_of (replay ty l) ty) ≤ length l)%nat ∧
  (∀ k s, windows_of (replay ty l) ty !! k = Some s → k = window_of s ∧ s ∈ l) ∧
  (∀ s, s ∈ l → not_expired now s = true → windows_of (replay ty l) ty !! window_of s = Some s).
Proof.
  induction l as [|x l IH] using rev_ind; intros Hnd Hlen Hl.
  - unfold windows_of. cbn. rewrite lookup_empty. cbn. rewrite map_size_empty.
    split_and!; [lia|by intros k s H; rewrite lookup_empty in H|by intros s ?%elem_of_nil].
  - rewrite fmap_app in Hnd. apply NoDup_app in Hnd as (Hnd & Hdis & _). rewrite length_app in *. simpl in *.
    destruct IH as (Hsize & Hsub & Hall); [done|lia|intros s Hs; apply Hl; set_solver|].
    assert (windows_of (replay ty l) ty !! window_of x = None) as Hfresh.
    { apply eq_None_not_Some. intros [s Hs]. apply Hsub in Hs as [Hk Hs].
      apply (Hdis (window_of x)); [rewrite Hk; by apply list_elem_of_fmap_2|by apply list_elem_of_singleton]. }
    destruct (Hl x ltac:(set_solver)) as [Hx Hwf]. rewrite windows_of_replay_snoc by done.
    set (ws := windows_of (replay ty l) ty) in *. rewrite record_window_new by (done || lia).
    pose proof (map_size_filter (λ e, not_expired x.(observed_at) e.2 = true) ws) as Hf.
    destruct (not_expired x.(observed_at) x) eqn:Hover; split_and!.
    + rewrite map_size_insert. case_match; unfold id; lia.
    + intros k s [[<- <-]|[_ [Hk _]%map_lookup_filter_Some]]%lookup_insert_Some; [set_solver|].
      apply Hsub in Hk as [? ?]. set_solver.
    + intros s [Hs| ->%list_elem_of_singleton]%elem_of_app Hexp; [|by rewrite lookup_insert_eq].
      rewrite lookup_insert_ne.
      * apply map_lookup_filter_Some. split; [by apply Hall|]. by apply (not_expired_later _ now).
      * intros E. apply (Hdis (window_of s)); [by apply list_elem_of_fmap_2|]. apply list_elem_of_singleton. by rewrite E.
    + lia.
    + intros k s [Hk _]%map_lookup_filter_Some. apply Hsub in Hk as [? ?]. set_solver.
    + intros s [Hs| ->%list_elem_of_singleton]%elem_of_app Hexp.
      * apply map_lookup_filter_Some. split; [by apply Hall|]. by apply (not_expired_later _ now).
      * apply (not_expired_later x.(observed_at)) in Hexp; [congruence|done].
Qed.

Lemma NoDup_fmap_filter {A B} (f : A → B) (p : A → bool) l : NoDup (f <$> l) → NoDup (f <$> List.filter p l).
Proof.
  induction l as [|x l IH]; [done|]. rewrite fmap_cons. intros [Hx Hnd]%NoDup_cons. cbn [List.filter].
  destruct (p x); [|by apply IH]. rewrite fmap_cons. apply NoDup_cons. split; [|by apply IH].
  intros (y & Hy & [Hin _]%list_filter_elem)%list_elem_of_fmap. apply Hx. rewrite Hy. by apply list_elem_of_fmap_2.
Qed.

(** The facts of an instance that routing may use, with their names. *)
Lemma routable_list ws (p : Seen → bool) :
  (size ws ≤ 8)%nat → (∀ k s, ws !! k = Some s → seen_wf k s) →
  NoDup (window_of <$> List.filter p (entries ws).*2) ∧ (length (List.filter p (entries ws).*2) ≤ 8)%nat ∧
  ∀ s, s ∈ List.filter p (entries ws).*2 ↔ ws !! window_of s = Some s ∧ p s = true.
Proof.
  intros Hsize Hwf.
  assert (window_of <$> (entries ws).*2 = (entries ws).*1) as Hkeys.
  { assert (∀ e, e ∈ entries ws → window_of e.2 = e.1) as H by (intros [k s] [? _]%entries_elem%Hwf; done).
    induction (entries ws) as [|e l IH]; [done|]. cbn [fmap list_fmap]. f_equal; [apply H; set_solver|].
    apply IH. set_solver. }
  split_and!.
  - assert (NoDup (window_of <$> (entries ws).*2)) as Hnd
      by (rewrite Hkeys; unfold entries; rewrite sort_by_perm; apply NoDup_fst_map_to_list).
    by apply NoDup_fmap_filter.
  - etransitivity; [apply count_if_length|]. rewrite length_fmap. unfold entries.
    by rewrite sort_by_perm, length_map_to_list.
  - intros s. rewrite list_filter_elem, entries_values. split.
    + intros [[k Hk] Hp]. pose proof (Hwf k s Hk) as [Hw _]. unfold window_of. by rewrite Hw.
    + intros [Hk Hp]. eauto.
Qed.

Section Routing.
Context (p : ProviderLimits) (conn digest scope : string) (epoch now max_age : Z) (live : gset string).
Context (b : RoutingQuotaBinding) (scoped : Limits).

(** The reading that a binding allows, on an instance that is known. *)
Definition reading_allowed : Prop :=
  provider_wf p ∧ p.(routing_bindings) !! conn = Some b ∧ b.(b_coordinator_epoch) = epoch ∧ scope ≠ "" ∧
  b.(b_connection_scope) = scope ∧ 1 ≤ max_age ≤ 300 ∧
  p.(by_instance) !! (b.(b_agent_type), b.(b_instance)) = Some scoped.

Definition same_definition : bool := bool_decide (b.(b_definition_digest) = digest).
Definition instance_live : bool := bool_decide (b.(b_instance) ∈ live).
Definition account_credits : option (option CodexCredits * Z) :=
  opt_filter (λ c, same_definition && instance_live && fresh now max_age c.2)
    (scoped.(codex_credits) !! b.(b_agent_type)).
Definition routed_facts : list Seen :=
  List.filter (routable now max_age same_definition instance_live)
    (entries (windows_of scoped b.(b_agent_type))).*2.
Definition routed_windows : gmap string Seen := windows_of (replay b.(b_agent_type) routed_facts) b.(b_agent_type).
Definition still_refused (s : Seen) : bool :=
  is_claude_rejection s && is_none_or s.(fact).(resets_at) (λ at_, now <? at_).
Definition refused : bool := existsb still_refused (entries routed_windows).*2.

Lemma routed_windows_elem s :
  reading_allowed → not_expired now s = true →
  s ∈ (entries routed_windows).*2 ↔
  windows_of scoped b.(b_agent_type) !! window_of s = Some s ∧
  routable now max_age same_definition instance_live s = true.
Proof.
  intros (Hwf & _ & _ & _ & _ & _ & Hinst) Hexp.
  assert ((size (windows_of scoped b.(b_agent_type)) ≤ 8)%nat ∧
    ∀ k s, windows_of scoped b.(b_agent_type) !! k = Some s → seen_wf k s) as [Hsize Hkeys].
  { destruct Hwf as (_ & _ & Hl & _). specialize (Hl _ _ Hinst). unfold windows_of.
    destruct (scoped.(by_agent_type) !! b.(b_agent_type)) as [ws|] eqn:E; [by apply (Hl b.(b_agent_type))|].
    cbn. split; [rewrite map_size_empty; lia|]. intros k s' H. by rewrite lookup_empty in H. }
  destruct (routable_list _ (routable now max_age same_definition instance_live) Hsize Hkeys) as (Hnd & Hlen & Hin).
  destruct (replay_spec b.(b_agent_type) now routed_facts) as (_ & Hsub & Hall); [done|done| |].
  { intros s' [Hs' Hr]%Hin. split; [|by apply Hkeys]. unfold routable in Hr.
    rewrite !andb_true_iff, Z.leb_le in Hr. lia. }
  rewrite entries_values, <-Hin. split.
  - by intros [k [_ Hk]%Hsub].
  - intros Hs. exists (window_of s). by apply Hall.
Qed.

Lemma routing_quota_allowed :
  reading_allowed →
  routing_quota conn digest epoch scope live now max_age p =
    (if negb instance_live && negb refused then None else
     q ← quota_with_credits b.(b_agent_type) now true
           (mkLimits (replay b.(b_agent_type) routed_facts).(by_agent_type)
              (match account_credits with
               | Some c => <[b.(b_agent_type) := c]> (delete b.(b_agent_type) (replay b.(b_agent_type) routed_facts).(codex_credits))
               | None => delete b.(b_agent_type) (replay b.(b_agent_type) routed_facts).(codex_credits)
               end));
     Some (mkQuota q.(windows) q.(exhausted) (q.(launch_blocked) || refused) q.(credits)
             (q.(limit_reached) || refused) q.(q_resets_at) q.(q_observed_at))).
Proof.
  intros (_ & Hb & He & Hs & Hsc & [Hm1 Hm2] & Hinst). unfold routing_quota. rewrite Hb. cbn [mbind option_bind].
  rewrite He, Z.eqb_refl, bool_decide_eq_false_2, Hsc, bool_decide_eq_true_2, !(proj2 (Z.leb_le _ _)) by done.
  cbn [negb andb orb]. rewrite Hinst. cbn [mbind option_bind]. done.
Qed.

Lemma unresolved_refused s :
  reading_allowed → windows_of scoped b.(b_agent_type) !! window_of s = Some s →
  0 < s.(observed_at) ≤ now → unresolved now s = true → refused = true ∧ s ∈ (entries routed_windows).*2.
Proof.
  intros Hok Hs Hobs Hun. unfold unresolved in Hun. pose proof Hun as [Hrej Hres]%andb_true_iff.
  assert (not_expired now s = true) as Hexp
    by (unfold not_expired; destruct s.(fact).(resets_at); [exact Hres|done]).
  assert (s ∈ (entries routed_windows).*2) as Hin.
  { apply routed_windows_elem; [done|done|]. split; [done|]. unfold routable, unresolved.
    rewrite Hrej, (proj2 (Z.ltb_lt _ _)), (proj2 (Z.leb_le _ _)) by lia. cbn [andb]. by rewrite Hres. }
  split; [|done]. apply existsb_elem. exists s. split; [done|]. unfold still_refused. by rewrite Hrej.
Qed.

Lemma replay_agent_type l :
  (entries (default ∅ (by_agent_type (replay b.(b_agent_type) l) !! b.(b_agent_type)))).*2 =
  (entries (windows_of (replay b.(b_agent_type) l) b.(b_agent_type))).*2.
Proof. done. Qed.

(** C39: a refusal is obeyed, and nothing else blocks.  For a binding of the right
    epoch and scope on a known instance: while a refusal of Claude that is still
    in memory is not over, that is until the return it announces, or for five
    minutes when it announces none, routing reports the launch as blocked,
    whether the instance is live or not and even if its definition changed; and
    when routing reports a blocked launch, the reason is a fact of that very
    instance, still usable and not over, or the spending control of its account. *)
Theorem routing_obeys_refusals :
  reading_allowed →
  (∀ s, windows_of scoped b.(b_agent_type) !! window_of s = Some s → 0 < s.(observed_at) ≤ now →
     unresolved now s = true →
     ∃ q, routing_quota conn digest epoch scope live now max_age p = Some q ∧
       q.(launch_blocked) = true ∧ q.(limit_reached) = true) ∧
  (∀ q, routing_quota conn digest epoch scope live now max_age p = Some q → q.(launch_blocked) = true →
     (∃ s, windows_of scoped b.(b_agent_type) !! window_of s = Some s ∧
        routable now max_age same_definition instance_live s = true ∧ not_expired now s = true ∧
        (is_claude_rejection s = true ∨ blocks_launch now (account_credits ≫= fst) s = true)) ∨
     is_some_and (account_credits ≫= fst) spend_control_reached = true).
Proof.
  intros Hok. rewrite (routing_quota_allowed Hok). set (lim := mkLimits _ _).
  assert (lim.(codex_credits) !! b.(b_agent_type) = account_credits) as Hcred
    by (subst lim; cbn [codex_credits]; destruct account_credits; [by rewrite lookup_insert_eq|by rewrite lookup_delete_eq]).
  assert (default ∅ (lim.(by_agent_type) !! b.(b_agent_type)) = routed_windows) as Hwin by done.
  split.
  - intros s Hs Hobs Hun. destruct (unresolved_refused s Hok Hs Hobs Hun) as [Href Hin]. rewrite Href.
    cbn [negb]. rewrite andb_false_r.
    destruct (quota_with_credits _ _ _ _) as [q|] eqn:Eq; [eexists; split; [done|]; cbn; by rewrite !orb_true_r|].
    exfalso. unfold quota_with_credits in Eq. rewrite Hwin in Eq.
    destruct (foldr opt_max (snd <$> _) _) eqn:Ef; [done|]. clear -Ef Hin Hun.
    assert (s ∈ List.filter (not_expired now) (entries routed_windows).*2) as Hs.
    { apply list_filter_elem. split; [done|]. unfold unresolved, not_expired in *.
      apply andb_true_iff in Hun as [_ Hun]. by destruct s.(fact).(resets_at). }
    induction (List.filter _ _) as [|x l IH]; [by apply elem_of_nil in Hs|]. cbn [fmap list_fmap foldr] in Ef.
    by apply opt_max_None in Ef as [? _].
  - intros q. destruct (_ && _); [done|]. unfold quota_with_credits. rewrite Hwin, Hcred.
    destruct (foldr opt_max (snd <$> _) _); cbn [mbind option_bind]; [|done]. intros [= <-]. cbn [launch_blocked].
    rewrite !orb_true_iff, existsb_elem. intros [[?|(s & [Hs Hexp]%list_filter_elem & Hb)]|Href]; [by right|..]; left.
    + exists s. apply routed_windows_elem in Hs as [Hs Hr]; [|done..]. auto.
    + unfold refused in Href. apply existsb_elem in Href as (s & Hs & [Hrej Hn]%andb_true_iff).
      change (not_expired now s = true) in Hn.
      exists s. apply routed_windows_elem in Hs as [Hs Hr]; [|done..]. auto.
Qed.

End Routing.

(** ** Examples *)
Module LimitsExamples.

Definition refusal : RateLimitFact := mkFact "five_hour" "rejected" (Some 5000) None None.
Definition known : ProviderLimits :=
  foldl apply_op empty_limits
    [RecordScoped "claude" "inst-1" refusal ClaudeStreamJson 1000; Bind "conn-1" "claude" "inst-1" "d1" 7 "scope"].
Definition the_binding : RoutingQuotaBinding := mkBinding "claude" "inst-1" "d1" "scope" 7.
Definition the_limits : Limits := default no_limits (known.(by_instance) !! ("claude", "inst-1")).
Definition the_fact : Seen := mkSeen refusal ClaudeStreamJson 1000.

(** The instance is gone and its definition has changed: still blocked, until
    the announced return. *)
Example blocked_until_return :
  (launch_blocked <$> routing_quota "conn-1" "d2" 7 "scope" ∅ 4999 300 known = Some true) ∧
  routing_quota "conn-1" "d2" 7 "scope" ∅ 5000 300 known = None.
Proof. vm_compute. done. Qed.

Lemma routing_obeys_refusals_witness :
  ∃ q, routing_quota "conn-1" "d2" 7 "scope" ∅ 4999 300 known = Some q ∧ q.(launch_blocked) = true.
Proof.
  destruct (routing_obeys_refusals known "conn-1" "d2" "scope" 7 4999 300 ∅ the_binding the_limits) as [H _].
  - split_and!; [|vm_compute; congruence..]. unfold known. apply apply_op_wf, apply_op_wf, empty_limits_wf.
  - destruct (H the_fact) as (q & Hq & Hb & _); [vm_compute; reflexivity|cbn; lia|vm_compute; reflexivity|].
    exists q. split; [exact Hq|exact Hb].
Defined.

Lemma record_keeps_recent_witness :
  record_window ∅ refusal ClaudeStreamJson 5000 !! "five_hour" = None ∧
  record_window {["weekly" := mkSeen (mkFact "weekly" "allowed" None None None) ClaudeStreamJson 900]}
    refusal ClaudeStreamJson 1000 !! "five_hour" = Some the_fact.
Proof.
  split.
  - apply (record_keeps_recent ∅ refusal ClaudeStreamJson 5000). vm_compute. reflexivity.
  - destruct (record_keeps_recent {["weekly" := mkSeen (mkFact "weekly" "allowed" None None None) ClaudeStreamJson 900]}
      refusal ClaudeStreamJson 1000) as (_ & H & _). apply H; [vm_compute; reflexivity|].
    exists "weekly", (mkSeen (mkFact "weekly" "allowed" None None None) ClaudeStreamJson 900).
    split_and!; [vm_compute; reflexivity|vm_compute; congruence|vm_compute; reflexivity|cbn; lia].
Defined.

End LimitsExamples.
