(* ===== verification/Receipts.v ===== *)
(** * Receipts: the durable receipts of [bridget-daemon/src/receipt_store.rs]

    The wrapper of an agent injects a delivery at most once: before injecting it
    writes a receipt in a directory of its own, next to a sentinel that holds
    the furthest expiry, and an enrollment file beside the directory tells a lost
    directory from a first opening. The disk is a record, an operation is a
    computation that emits the effects it has on the disk in order, so that an
    interruption (a crash or an I/O error) is any prefix of them, with the
    temporary file of an atomic write that was under way. *)

From Stdlib Require Import Ascii.
From S2P Require Import Prelude Text.
Local Open Scope Z_scope.

(** ** The disk *)

Record Disk := mkDisk {
  enrollment : option string;
  files : option (gmap string string) }.

Inductive Effect :=
  | WriteEnrollment (bytes : string)
  | CreateDir
  | WriteFile (name bytes : string)
  | RemoveFile (name : string).

(** An atomic write creates the parent directory when it is missing. *)
Definition apply_effect (d : Disk) (e : Effect) : Disk :=
  match e with
  | WriteEnrollment bytes => mkDisk (Some bytes) d.(files)
  | CreateDir => mkDisk d.(enrollment) (Some (default ∅ d.(files)))
  | WriteFile name bytes => mkDisk d.(enrollment) (Some (<[name := bytes]> (default ∅ d.(files))))
  | RemoveFile name => mkDisk d.(enrollment) (delete name <$> d.(files))
  end.
Definition apply_effects (es : list Effect) (d : Disk) : Disk := foldl apply_effect d es.

Lemma apply_effects_app es es' d : apply_effects (es ++ es') d = apply_effects es' (apply_effects es d).
Proof. apply foldl_app. Qed.

(** The temporary file of [write_private_file_atomic], renamed onto its target. *)
Definition temporary (name : string) (pid suffix : Z) : string :=
  "." +:+ name +:+ "." +:+ pretty pid +:+ "-" +:+ pretty suffix +:+ ".tmp".

(** ** Data *)

Record ReceiptQuota := mkReceiptQuota { max_entries : Z; max_bytes : Z; horizon_max_secs : Z }.
Definition default_quota : ReceiptQuota := mkReceiptQuota 4096 (16 * 1024 * 1024) (7 * 24 * 60 * 60).

Inductive ReceiptDecision := Inject | Acked | Indeterminate | RejectedQuota.

Inductive ReceiptError :=
  | InvalidInstanceId
  | InvalidDeliveryId
  | InvalidExpiry
  | InstanceAlreadyOpen
  | Io (message : string).

Inductive Enrollment := Missing | Valid | Corrupt.

Inductive ReceiptEntry := EntrySeen (expires_at : Z) | EntryAcked (expires_at : Z).

Definition entry_expires_at (e : ReceiptEntry) : Z :=
  match e with EntrySeen t | EntryAcked t => t end.

Definition nl : string := String Str.newline "".

Definition serialize (e : ReceiptEntry) : string :=
  match e with
  | EntrySeen t => "seen" +:+ nl +:+ pretty t +:+ nl
  | EntryAcked t => "acked" +:+ nl +:+ pretty t +:+ nl
  end.

Definition serialized_len (e : ReceiptEntry) : Z := Z.of_nat (String.length (serialize e)).

(** Bytes that are not UTF-8 cannot be two lines of these shapes. *)
Definition parse_entry (bytes : string) : option ReceiptEntry :=
  match Str.lines bytes with
  | [state; number] =>
    t ← Str.parse_i64 number;
    if bool_decide (state = "seen") then Some (EntrySeen t)
    else if bool_decide (state = "acked") then Some (EntryAcked t)
    else None
  | _ => None
  end.

Definition parse_timestamp (bytes : string) : option Z := Str.parse_i64 (Str.trim bytes).

Definition MAX_DELIVERY_ID_LEN : nat := 128%nat.

Definition token_byte (c : ascii) : bool :=
  Str.is_ascii_alphanumeric c || bool_decide (c = "-"%char) || bool_decide (c = "_"%char).
Definition validate_token (value : string) : bool :=
  negb (bool_decide (value = "")) && (String.length value <=? MAX_DELIVERY_ID_LEN)%nat
  && Str.all_bytes token_byte value.

Definition entry_path (delivery_id : string) : string := "receipt-" +:+ delivery_id.
Definition max_expires_path : string := "max_expires_at".
Definition quarantine_path : string := "quarantine_until".
Definition is_special (name : string) : bool :=
  bool_decide (name = quarantine_path) || bool_decide (name = max_expires_path).

(** ** Computations on the disk *)

Definition M (A : Type) : Type := Disk → list Effect * result ReceiptError A.

#[export] Instance M_ret : MRet M := λ A a d, ([], Ok a).
#[export] Instance M_bind : MBind M := λ A B f m d,
  match m d with
  | (es, Err e) => (es, Err e)
  | (es, Ok a) => let '(es', r) := f a (apply_effects es d) in (es ++ es', r)
  end.

Definition throw {A} (e : ReceiptError) : M A := λ d, ([], Err e).
Definition emit (e : Effect) : M () := λ d, ([e], Ok ()).
Definition read_with {A} (f : Disk → A) : M A := λ d, ([], Ok (f d)).

Definition file (name : string) (d : Disk) : option string := fs ← d.(files); fs !! name.

(** The sentinel, [None] where [read_max_expires_at] is an error. *)
Definition sentinel (d : Disk) : option Z := file max_expires_path d ≫= parse_timestamp.

Definition read_max_expires_at : M Z := λ d,
  match sentinel d with
  | Some t => ([], Ok t)
  | None => ([], Err (Io (match file max_expires_path d with
                          | Some _ => "horizon corrompu"
                          | None => "sentinel max_expires_at absent" end)))
  end.

Definition write_max_expires_at (t : Z) : M () := emit (WriteFile max_expires_path (pretty t)).
Definition persist_entry (name : string) (e : ReceiptEntry) : M () := emit (WriteFile name (serialize e)).

Definition directory_is_healthy (d : Disk) : bool := is_some d.(files) && is_some (sentinel d).

Definition is_quarantined (now : Z) (d : Disk) : bool :=
  match file quarantine_path d with
  | Some bytes => match parse_timestamp bytes with Some u => now <? u | None => true end
  | None => false
  end.

Definition quarantine (q : ReceiptQuota) (expires_at now : Z) : M () :=
  horizon ← read_with sentinel;
  let u := Z.max (Z.max (default 0 horizon) expires_at)
                 (i64_saturating_add now q.(horizon_max_secs)) in
  emit (WriteFile quarantine_path (pretty u)).

Definition quarantine_permanently : M () := emit (WriteFile quarantine_path (pretty i64_max)).

(** The files [read_dir] lists, less the sentinel and the quarantine. *)
Definition entry_files (fs : gmap string string) : list (string * string) :=
  List.filter (λ kv, negb (is_special kv.1)) (map_to_list fs).
Definition total_bytes (l : list (string * string)) : Z :=
  foldl (λ acc kv, u64_saturating_add acc (Z.of_nat (String.length kv.2))) 0 l.

Definition would_exceed_quota (q : ReceiptQuota) (next_entry_bytes : Z) : M bool := λ d,
  match d.(files) with
  | None => ([], Err (Io "read_dir"))
  | Some fs =>
    ([], Ok ((q.(max_entries) <=? Z.of_nat (length (entry_files fs))) ||
             (q.(max_bytes) <? u64_saturating_add (total_bytes (entry_files fs)) next_entry_bytes)))
  end.

Definition read_enrollment (d : Disk) : Enrollment :=
  match d.(enrollment) with
  | Some bytes => if bool_decide (bytes = "v1" +:+ nl) then Valid else Corrupt
  | None => Missing
  end.

(** ** Operations *)

(** [lock_taken]: another handle holds the lock of the instance. *)
Definition open (lock_taken : bool) (instance_id : string) : M () :=
  if negb (validate_token instance_id) then throw InvalidInstanceId
  else if lock_taken then throw InstanceAlreadyOpen
  else
    enrolled ← read_with read_enrollment;
    directory_exists ← read_with (λ d, is_some d.(files));
    match enrolled, directory_exists with
    | Missing, false =>
      _ ← emit (WriteEnrollment ("v1" +:+ nl));
      _ ← emit CreateDir;
      write_max_expires_at 0
    | Valid, true =>
      horizon ← read_with sentinel;
      match horizon with Some _ => mret () | None => quarantine_permanently end
    | _, _ =>
      _ ← match enrolled with Missing => emit (WriteEnrollment ("v1" +:+ nl)) | _ => mret () end;
      _ ← emit CreateDir;
      quarantine_permanently
    end.

Definition receive (q : ReceiptQuota) (delivery_id : string) (expires_at now : Z) : M ReceiptDecision :=
  if negb (validate_token delivery_id) then throw InvalidDeliveryId
  else if expires_at <=? now then throw InvalidExpiry
  else
    healthy ← read_with directory_is_healthy;
    if negb healthy then mret Indeterminate
    else
      quarantined ← read_with (is_quarantined now);
      if (quarantined : bool) then mret Indeterminate
      else
        bytes ← read_with (file (entry_path delivery_id));
        match bytes with
        | Some bytes =>
          match parse_entry bytes with
          | Some (EntryAcked _) => mret Acked
          | Some (EntrySeen _) => mret Indeterminate
          | None => _ ← quarantine q expires_at now; mret Indeterminate
          end
        | None =>
          exceeds ← would_exceed_quota q (serialized_len (EntryAcked expires_at));
          if (exceeds : bool) then mret RejectedQuota
          else
            _ ← persist_entry (entry_path delivery_id) (EntrySeen expires_at);
            horizon ← read_max_expires_at;
            _ ← write_max_expires_at (Z.max horizon expires_at);
            mret Inject
        end.

Definition acknowledge (q : ReceiptQuota) (delivery_id : string) (now : Z) : M ReceiptDecision :=
  if negb (validate_token delivery_id) then throw InvalidDeliveryId
  else
    quarantined ← read_with (is_quarantined now);
    healthy ← read_with directory_is_healthy;
    if quarantined || negb healthy then mret Indeterminate
    else
      bytes ← read_with (file (entry_path delivery_id));
      match bytes with
      | None => mret Indeterminate
      | Some bytes =>
        match parse_entry bytes with
        | None => _ ← quarantine q (i64_saturating_add now q.(horizon_max_secs)) now; mret Indeterminate
        | Some (EntryAcked _) => mret Acked
        | Some (EntrySeen t) => _ ← persist_entry (entry_path delivery_id) (EntryAcked t); mret Acked
        end
      end.

(** The loop of [purge_expired] over the names [read_dir] gives, in its order. *)
Fixpoint purge_loop (q : ReceiptQuota) (now : Z) (listing : list string) (removed max_expires : Z) : M Z :=
  match listing with
  | [] => _ ← write_max_expires_at max_expires; mret removed
  | name :: rest =>
    if is_special name then purge_loop q now rest removed max_expires
    else
      bytes ← read_with (file name);
      match bytes with
      | None => throw (Io "read")
      | Some bytes =>
        match parse_entry bytes with
        | None => _ ← quarantine q (i64_saturating_add now q.(horizon_max_secs)) now; mret removed
        | Some receipt =>
          if entry_expires_at receipt <=? now then
            _ ← emit (RemoveFile name); purge_loop q now rest (removed + 1) max_expires
          else purge_loop q now rest removed (Z.max max_expires (entry_expires_at receipt))
        end
      end
  end.

Definition purge_expired (q : ReceiptQuota) (listing : list string) (now : Z) : M Z :=
  healthy ← read_with directory_is_healthy;
  if negb (healthy : bool) then mret 0 else purge_loop q now listing 0 0.

(** ** Receipts on disk read back as they were written *)

Lemma strip_last_none c s : Str.no_byte c s = true → Str.strip_last c s = s.
Proof.
  induction s as [|a s IH]; [done|]. unfold Str.no_byte in *. cbn [Str.all_bytes].
  intros [Ha Hs]%andb_true_iff. simpl. destruct s as [|b s].
  - by destruct (bool_decide_reflect (a = c)).
  - by rewrite (IH Hs).
Qed.

Lemma pretty_no_byte c (n : Z) :
  Str.is_ascii_digit c = false → c ≠ "-"%char → Str.no_byte c (pretty n) = true.
Proof.
  intros Hc Hm. destruct (decide (0 ≤ n)) as [Hn|Hn].
  - by apply Str.digits_no_byte, Str.pretty_digits.
  - destruct n as [|p|p]; [lia..|].
    assert (pretty (Z.neg p) = String "-"%char (pretty (Z.pos p))) as -> by done.
    unfold Str.no_byte. cbn [Str.all_bytes]. rewrite bool_decide_eq_false_2 by congruence.
    apply Str.digits_no_byte; [done|]. by apply Str.pretty_digits.
Qed.

Lemma lines_two a b :
  Str.no_byte Str.newline a = true → Str.no_byte Str.carriage a = true →
  Str.no_byte Str.newline b = true → Str.no_byte Str.carriage b = true →
  Str.lines (a +:+ nl +:+ b +:+ nl) = [a; b].
Proof.
  intros Ha Ha' Hb Hb'. unfold Str.lines, nl.
  change (String Str.newline "" +:+ (b +:+ String Str.newline ""))
    with (String Str.newline (b +:+ String Str.newline "")).
  rewrite Str.split_app, Str.split_app by done. simpl.
  by rewrite !strip_last_none.
Qed.

Lemma lines_serialize e :
  Str.lines (serialize e) =
    [match e with EntrySeen _ => "seen" | EntryAcked _ => "acked" end; pretty (entry_expires_at e)].
Proof.
  destruct e; apply lines_two; try done; by apply pretty_no_byte.
Qed.

Lemma parse_i64_bounds s n : Str.parse_i64 s = Some n → i64_min ≤ n ≤ i64_max.
Proof.
  unfold Str.parse_i64. destruct s as [|c s]; [done|]. case_bool_decide.
  - destruct s as [|c' s]; [done|]. intros (m & Hm & ->)%fmap_Some.
    apply Str.parse_digits_bound in Hm; [|lia]. unfold_ints. lia.
  - intros Hn%Str.parse_unsigned_bound; unfold_ints; lia.
Qed.

Lemma parse_serialize e : in_i64 (entry_expires_at e) = true → parse_entry (serialize e) = Some e.
Proof.
  intros He%in_i64_spec. unfold parse_entry. rewrite lines_serialize. cbn [mbind option_bind].
  rewrite Str.parse_i64_pretty by done. by destruct e.
Qed.

Lemma parse_entry_bounds s e : parse_entry s = Some e → in_i64 (entry_expires_at e) = true.
Proof.
  unfold parse_entry. destruct (Str.lines s) as [|st [|n [|? ?]]]; try done.
  intros (t & Ht%parse_i64_bounds & He)%bind_Some. apply in_i64_spec.
  repeat case_bool_decide; naive_solver.
Qed.

Lemma pretty_visible (n : Z) : Str.all_bytes Str.visible (pretty n) = true.
Proof.
  destruct (decide (0 ≤ n)) as [Hn|Hn]; [by apply Str.digits_visible, Str.pretty_digits|].
  destruct n as [|p|p]; [lia..|].
  assert (pretty (Z.neg p) = String "-"%char (pretty (Z.pos p))) as -> by done.
  cbn [Str.all_bytes]. by apply Str.digits_visible, Str.pretty_digits.
Qed.

Lemma parse_timestamp_pretty n : in_i64 n = true → parse_timestamp (pretty n) = Some n.
Proof.
  intros Hn%in_i64_spec. unfold parse_timestamp.
  rewrite Str.trim_visible by apply pretty_visible. by apply Str.parse_i64_pretty.
Qed.

(** ** What each operation does to the disk *)

Lemma entry_path_not_special id : is_special (entry_path id) = false.
Proof. done. Qed.
Lemma entry_path_inj id id' : entry_path id = entry_path id' → id = id'.
Proof. by intros H%(inj (String.append "receipt-")). Qed.
Lemma is_special_false name : is_special name = false ↔ name ≠ quarantine_path ∧ name ≠ max_expires_path.
Proof. unfold is_special. rewrite orb_false_iff, !bool_decide_eq_false. done. Qed.
Lemma temporary_not_entry name pid n id : temporary name pid n ≠ entry_path id.
Proof. done. Qed.
Lemma temporary_not_special name pid n : is_special (temporary name pid n) = false.
Proof. by apply is_special_false. Qed.

Lemma file_write d name bytes name' :
  file name' (apply_effect d (WriteFile name bytes)) = if decide (name = name') then Some bytes else file name' d.
Proof.
  unfold file. simpl. destruct (decide (name = name')) as [->|].
  - by rewrite lookup_insert_eq.
  - rewrite lookup_insert_ne by done. by destruct (files d); simpl; rewrite ?lookup_empty.
Qed.

Lemma file_remove d name name' :
  file name' (apply_effect d (RemoveFile name)) = if decide (name = name') then None else file name' d.
Proof.
  unfold file. simpl. destruct (files d) as [fs|]; simpl; [|by destruct (decide _)].
  destruct (decide (name = name')) as [->|]; [apply lookup_delete_eq|by apply lookup_delete_ne].
Qed.

#[local] Arguments apply_effect : simpl never.
#[local] Arguments serialize : simpl never.
#[local] Arguments serialized_len : simpl never.

Lemma sentinel_write_other d name bytes :
  name ≠ max_expires_path → sentinel (apply_effect d (WriteFile name bytes)) = sentinel d.
Proof. intros H. unfold sentinel. by rewrite file_write, decide_False. Qed.

Lemma healthy_spec d :
  directory_is_healthy d = true ↔ ∃ fs h, files d = Some fs ∧ sentinel d = Some h.
Proof.
  unfold directory_is_healthy. destruct (files d) as [fs|], (sentinel d) as [h|]; simpl; naive_solver.
Qed.

Ltac run_io := unfold mbind, M_bind, mret, M_ret, throw, emit, read_with, quarantine, quarantine_permanently,
  persist_entry, write_max_expires_at, apply_effects; simpl.

(** A reception is refused without an effect, quarantines the store, or
    persists the receipt and then the sentinel, and injects. *)
Definition receive_injects (q : ReceiptQuota) (id : string) (exp now : Z) (d : Disk) (es : list Effect) : Prop :=
  validate_token id = true ∧ now < exp ∧ is_quarantined now d = false ∧ file (entry_path id) d = None ∧
  ∃ fs h, files d = Some fs ∧ sentinel d = Some h ∧
    Z.of_nat (length (entry_files fs)) < q.(max_entries) ∧
    u64_saturating_add (total_bytes (entry_files fs))
      (serialized_len (EntryAcked exp)) ≤ q.(max_bytes) ∧
    es = [WriteFile (entry_path id) (serialize (EntrySeen exp));
          WriteFile max_expires_path (pretty (Z.max h exp))].

Lemma receive_cases q id exp now d es r :
  receive q id exp now d = (es, r) →
  (es = [] ∧ r ≠ Ok Inject) ∨
  (∃ u, es = [WriteFile quarantine_path u] ∧ r = Ok Indeterminate ∧ directory_is_healthy d = true) ∨
  (receive_injects q id exp now d es ∧ r = Ok Inject).
Proof.
  unfold receive. destruct (validate_token id) eqn:Hv; simpl; [|intros [= <- <-]; naive_solver].
  destruct (Z.leb_spec exp now); [intros [= <- <-]; naive_solver|].
  run_io. destruct (directory_is_healthy d) eqn:Hh; simpl; [|intros [= <- <-]; naive_solver].
  destruct (is_quarantined now d) eqn:Hq; [intros [= <- <-]; naive_solver|].
  destruct (file (entry_path id) d) as [bytes|] eqn:Hf.
  { destruct (parse_entry bytes) as [[?|?]|]; intros [= <- <-]; naive_solver. }
  apply healthy_spec in Hh as (fs & h & Hfs & Hs). unfold would_exceed_quota. rewrite Hfs.
  destruct ((_ <=? _) || _) eqn:Hex; [intros [= <- <-]; naive_solver|].
  apply orb_false_iff in Hex as [Hex1%Z.leb_gt Hex2%Z.ltb_ge].
  unfold read_max_expires_at. rewrite sentinel_write_other by done. simpl. rewrite Hs. simpl.
  intros [= <- <-]. right; right. split; [|done]. repeat (split; [done|]). exists fs, h. eauto.
Qed.

Lemma receive_inject_run q id exp now d es :
  receive_injects q id exp now d es → receive q id exp now d = (es, Ok Inject).
Proof.
  intros (Hv & Hn & Hq & Hf & fs & h & Hfs & Hs & H1 & H2 & ->).
  unfold receive. rewrite Hv. simpl. rewrite (proj2 (Z.leb_gt _ _) Hn).
  run_io. rewrite (proj2 (healthy_spec d)) by eauto. simpl. rewrite Hq, Hf.
  unfold would_exceed_quota. rewrite Hfs, (proj2 (Z.leb_gt _ _) H1), (proj2 (Z.ltb_ge _ _) H2).
  simpl. unfold read_max_expires_at. rewrite sentinel_write_other by done. simpl. by rewrite Hs.
Qed.

Lemma acknowledge_cases q id now d es r :
  acknowledge q id now d = (es, r) →
  es = [] ∨
  directory_is_healthy d = true ∧
   ((∃ u, es = [WriteFile quarantine_path u]) ∨
    (∃ bytes t, file (entry_path id) d = Some bytes ∧ parse_entry bytes = Some (EntrySeen t) ∧
       es = [WriteFile (entry_path id) (serialize (EntryAcked t))])).
Proof.
  unfold acknowledge. destruct (validate_token id); simpl; [|intros [= <- <-]; naive_solver].
  run_io. destruct (is_quarantined now d); simpl; [intros [= <- <-]; naive_solver|].
  destruct (directory_is_healthy d); simpl; [|intros [= <- <-]; naive_solver].
  destruct (file (entry_path id) d) as [bytes|] eqn:Hf; [|intros [= <- <-]; naive_solver].
  destruct (parse_entry bytes) as [[?|?]|] eqn:Hp; intros [= <- <-]; naive_solver.
Qed.

(** An effect of the purge removes a file that held an expired receipt, or
    rewrites one of the two files that are not receipts. *)
Definition purge_effect (now : Z) (d : Disk) (e : Effect) : Prop :=
  match e with
  | RemoveFile name =>
    is_special name = false ∧
    ∃ bytes receipt, file name d = Some bytes ∧ parse_entry bytes = Some receipt ∧ entry_expires_at receipt ≤ now
  | WriteFile name _ => is_special name = true
  | _ => False
  end.

Lemma purge_loop_effects q now listing : ∀ removed mx d,
  Forall (purge_effect now d) (purge_loop q now listing removed mx d).1.
Proof.
  induction listing as [|name rest IH]; intros removed mx d; simpl.
  { run_io. repeat constructor. }
  destruct (is_special name) eqn:Hs; [apply IH|]. run_io.
  destruct (file name d) as [bytes|] eqn:Hf; simpl; [|constructor].
  destruct (parse_entry bytes) as [receipt|] eqn:Hp; simpl; [|repeat constructor].
  destruct (Z.leb_spec (entry_expires_at receipt) now) as [Hle|Hgt]; simpl.
  - specialize (IH (removed + 1) mx (apply_effects [RemoveFile name] d)).
    simpl in IH. destruct (purge_loop _ _ _ _ _ _) as [es r]. simpl in *.
    constructor; [simpl; eauto 10|]. eapply Forall_impl; [exact IH|].
    intros [| | |n]; simpl; try done. intros (Hn & b & rc & Hb & ?). split; [done|]. exists b, rc.
    rewrite file_remove in Hb. by destruct (decide (name = n)).
  - specialize (IH removed (Z.max mx (entry_expires_at receipt)) d).
    by destruct (purge_loop _ _ _ _ _ _) as [es r].
Qed.

Lemma purge_effects q listing now d :
  (purge_expired q listing now d).1 = [] ∨
  directory_is_healthy d = true ∧ Forall (purge_effect now d) (purge_expired q listing now d).1.
Proof.
  unfold purge_expired. run_io. destruct (directory_is_healthy d); simpl; [|by left]. right. split; [done|].
  pose proof (purge_loop_effects q now listing 0 0 d) as H.
  by destruct (purge_loop _ _ _ _ _ _) as [es r].
Qed.

(** Opening writes the sentinel only where neither the enrollment nor the
    directory is there. *)
Definition opening_effect (e : Effect) : Prop :=
  match e with
  | WriteEnrollment _ | CreateDir => True
  | WriteFile name _ => name = quarantine_path
  | RemoveFile _ => False
  end.

Lemma open_effects lock id d :
  enrollment d = None ∧ files d = None ∨ Forall opening_effect (open lock id d).1.
Proof.
  unfold open. destruct (validate_token id); simpl; [|right; constructor].
  destruct lock; simpl; [right; constructor|]. run_io. unfold read_enrollment.
  destruct (enrollment d) as [b|]; [case_bool_decide|]; destruct (files d) as [fs|]; simpl; auto;
    try (right; repeat constructor). destruct (sentinel d); simpl; repeat constructor.
Qed.

(** ** The life of a store: operations, interruptions and damage *)

Inductive Op :=
  | OpOpen (lock_taken : bool) (instance_id : string)
  | OpReceive (q : ReceiptQuota) (delivery_id : string) (expires_at : Z)
  | OpAcknowledge (q : ReceiptQuota) (delivery_id : string)
  | OpPurge (q : ReceiptQuota) (listing : list string).

Definition op_effects (op : Op) (now : Z) (d : Disk) : list Effect :=
  match op with
  | OpOpen lock id => (open lock id d).1
  | OpReceive q id exp => (receive q id exp now d).1
  | OpAcknowledge q id => (acknowledge q id now d).1
  | OpPurge q listing => (purge_expired q listing now d).1
  end.

(** What an interrupted write leaves next to its target: the temporary file,
    with the bytes written so far. *)
Inductive leftover (es : list Effect) (k : nat) : list Effect → Prop :=
  | leftover_none : leftover es k []
  | leftover_tmp name bytes pid n part rest :
      es !! k = Some (WriteFile name bytes) → bytes = part +:+ rest →
      leftover es k [WriteFile (temporary name pid n) part].

(** The store was initialised: its enrollment or its directory is there. *)
Definition initialized (d : Disk) : Prop := enrollment d ≠ None ∨ files d ≠ None.

(** A receipt that is still there, as it was or garbled. *)
Definition still_there (id : string) (d d' : Disk) : Prop :=
  ∀ bytes, file (entry_path id) d = Some bytes →
    ∃ bytes', file (entry_path id) d' = Some bytes' ∧ (bytes' = bytes ∨ parse_entry bytes' = None).

(** Damage the store defends against: anything, as long as the enrollment or the
    directory remains, and either the sentinel is lost or garbled with what else
    is lost, or the sentinel is as it was and no receipt has vanished. *)
Definition damaged (d d' : Disk) : Prop :=
  initialized d' ∧ (sentinel d' = None ∨ sentinel d' = sentinel d ∧ ∀ id, still_there id d d').

(** One event, with the clock of the events: an operation that runs to its end,
    one that stops after its first [k] effects, or damage. *)
Inductive event : Disk * Z → Disk * Z → Prop :=
  | event_run op now d t : t ≤ now → event (d, t) (apply_effects (op_effects op now d) d, now)
  | event_interrupted op now d t k left :
      t ≤ now → leftover (op_effects op now d) k left →
      event (d, t) (apply_effects (take k (op_effects op now d) ++ left) d, now)
  | event_damage d d' t : damaged d d' → event (d, t) (d', t).

(** *** The invariant of an injected delivery

    Its receipt is there with an expiry that is not earlier, or it has expired,
    or the store is not healthy and cannot become so. *)
Definition kept (id : string) (E now : Z) (d : Disk) : Prop :=
  E ≤ now ∨ ∃ bytes, file (entry_path id) d = Some bytes ∧ ∀ e, parse_entry bytes = Some e → E ≤ entry_expires_at e.
Definition guarded (id : string) (E now : Z) (d : Disk) : Prop :=
  initialized d ∧ (kept id E now d ∨ sentinel d = None).

Lemma kept_later id E now now' d : now ≤ now' → kept id E now d → kept id E now' d.
Proof. unfold kept. intros ? [?|?]; [left; lia|by right]. Qed.

Lemma guarded_later id E now now' d : now ≤ now' → guarded id E now d → guarded id E now' d.
Proof. intros ? [? [?|?]]; split; eauto using kept_later. Qed.

Lemma healthy_kept id E now d : guarded id E now d → directory_is_healthy d = true → kept id E now d.
Proof. intros [_ [?|Hs]] (? & ? & _ & ?)%healthy_spec; [done|congruence]. Qed.

(** Effects that leave the receipt of [id]. *)
Definition spares (id : string) (E now : Z) (e : Effect) : Prop :=
  E ≤ now ∨
  match e with
  | WriteFile name bytes => name = entry_path id → ∀ r, parse_entry bytes = Some r → E ≤ entry_expires_at r
  | RemoveFile name => name ≠ entry_path id
  | _ => True
  end.

Lemma file_ensure_dir name d : file name (apply_effect d CreateDir) = file name d.
Proof. unfold apply_effect, file. simpl. destruct (files d); simpl; [done|by rewrite lookup_empty]. Qed.

Lemma kept_effect id E now d e : spares id E now e → kept id E now d → kept id E now (apply_effect d e).
Proof.
  unfold kept. intros [?|He] [?|(bytes & Hf & Hb)]; [by left..|].
  destruct e as [b| |name b|name]; simpl in He.
  - right. eauto.
  - right. exists bytes. by rewrite file_ensure_dir.
  - right. rewrite file_write. destruct (decide (name = entry_path id)); eauto.
  - right. rewrite file_remove, decide_False by done. eauto.
Qed.

Lemma initialized_effect d e : initialized d → initialized (apply_effect d e).
Proof. unfold initialized, apply_effect. destruct e, d as [[] []]; simpl; intros [|]; naive_solver. Qed.

Lemma guarded_kept_effects id E now es d :
  Forall (spares id E now) es → initialized d → kept id E now d → guarded id E now (apply_effects es d).
Proof.
  intros Hes. revert d. induction Hes as [|e es He Hes IH]; intros d Hi Hk; [by split; [|left]|].
  apply IH; eauto using kept_effect, initialized_effect.
Qed.

(** Effects that do not give a store without a sentinel a new one. *)
Definition tolerated (e : Effect) : Prop :=
  match e with WriteFile name _ => name ≠ max_expires_path | RemoveFile _ => False | _ => True end.

Lemma sentinel_tolerated d e : tolerated e → sentinel d = None → sentinel (apply_effect d e) = None.
Proof.
  intros He Hd. destruct e as [b| |name b|name]; simpl in He; [done| | |done].
  - unfold sentinel. by rewrite file_ensure_dir.
  - by rewrite sentinel_write_other.
Qed.

Lemma guarded_tolerated_effects id E now es d :
  Forall tolerated es → initialized d → sentinel d = None → guarded id E now (apply_effects es d).
Proof.
  intros Hes. revert d. induction Hes as [|e es He Hes IH]; intros d Hi Hs; [by split; [|right]|].
  apply IH; eauto using sentinel_tolerated, initialized_effect.
Qed.

Lemma opening_tolerated e : opening_effect e → tolerated e.
Proof. destruct e; simpl; try done. by intros ->. Qed.
Lemma opening_spares id E now e : opening_effect e → spares id E now e.
Proof. intros He. right. destruct e; simpl in *; try done. by subst. Qed.

Lemma receive_spares q id' exp now d id E :
  kept id E now d → Forall (spares id E now) (receive q id' exp now d).1.
Proof.
  intros Hk. destruct (receive q id' exp now d) as [es r] eqn:Hr. simpl.
  destruct (receive_cases _ _ _ _ _ _ _ Hr) as [[-> _]|[(u & -> & _)|[Hi _]]]; [constructor| |].
  - apply Forall_singleton. by right.
  - destruct Hi as (_ & _ & _ & Hf & fs & h & _ & _ & _ & _ & ->). apply Forall_cons_2; [|apply Forall_singleton; by right].
    destruct Hk as [He|(bytes & Hb & _)]; [by left|right]. intros Heq%entry_path_inj. congruence.
Qed.

Lemma acknowledge_spares q id' now d id E :
  kept id E now d → Forall (spares id E now) (acknowledge q id' now d).1.
Proof.
  intros Hk. destruct (acknowledge q id' now d) as [es r] eqn:Hr. simpl.
  destruct (acknowledge_cases _ _ _ _ _ _ Hr) as [->|[_ [(u & ->)|(bytes & t & Hf & Hp & ->)]]]; [constructor| |].
  - apply Forall_singleton. by right.
  - apply Forall_singleton. destruct Hk as [He|(b & Hb & Hle)]; [by left|right].
    intros Heq%entry_path_inj r'. subst id'. simplify_eq. pose proof (parse_entry_bounds _ _ Hp).
    rewrite parse_serialize by done. intros [= <-]. apply (Hle _ Hp).
Qed.

Lemma purge_spares q listing now d id E :
  kept id E now d → Forall (spares id E now) (purge_expired q listing now d).1.
Proof.
  intros Hk. destruct (purge_effects q listing now d) as [->|[_ Hes]]; [constructor|].
  eapply Forall_impl; [exact Hes|]. intros [| |name b|name]; simpl; try done.
  - intros Hs. right. by intros ->.
  - intros (_ & b & r & Hf & Hp & Hle). destruct Hk as [He|(b' & Hb' & Hge)]; [by left|].
    destruct (decide (name = entry_path id)) as [->|Hne]; [left|by right].
    simplify_eq. specialize (Hge _ Hp). lia.
Qed.

Lemma unhealthy_idle op now d :
  directory_is_healthy d = false → initialized d → Forall opening_effect (op_effects op now d).
Proof.
  intros Hh Hi. destruct op as [lock id|q id exp|q id|q listing]; simpl.
  - destruct (open_effects lock id d) as [[? ?]|?]; [|done]. by destruct Hi.
  - destruct (receive q id exp now d) as [es r] eqn:Hr.
    destruct (receive_cases _ _ _ _ _ _ _ Hr) as [[-> _]|[(? & _ & _ & ?)|[Hj _]]]; [constructor|congruence|].
    destruct Hj as (_ & _ & _ & _ & fs & h & ? & ? & _). rewrite (proj2 (healthy_spec d)) in Hh; naive_solver.
  - destruct (acknowledge q id now d) as [es r] eqn:Hr.
    destruct (acknowledge_cases _ _ _ _ _ _ Hr) as [->|[? _]]; [constructor|congruence].
  - destruct (purge_effects q listing now d) as [->|[? _]]; [constructor|congruence].
Qed.

(** An operation either keeps the receipt or leaves the store without a sentinel. *)
Lemma op_effects_guarded op now d id E :
  guarded id E now d →
  kept id E now d ∧ Forall (spares id E now) (op_effects op now d) ∨
  sentinel d = None ∧ Forall tolerated (op_effects op now d).
Proof.
  intros [Hi [Hk|Hs]].
  - left. split; [done|]. destruct op as [lock id'| | |]; simpl;
      auto using receive_spares, acknowledge_spares, purge_spares.
    destruct (open_effects lock id' d) as [[? ?]|Ho]; [by destruct Hi|].
    eapply Forall_impl; [exact Ho|]. intros ?. apply opening_spares.
  - right. split; [done|]. eapply Forall_impl; [|apply opening_tolerated]. apply unhealthy_idle; [|done].
    unfold directory_is_healthy. rewrite Hs. by rewrite andb_false_r.
Qed.

Lemma leftover_forall (P : Effect → Prop) es k left :
  (∀ name pid n part, P (WriteFile (temporary name pid n) part)) →
  Forall P es → leftover es k left → Forall P (take k es ++ left).
Proof.
  intros Ht Hes Hl. apply Forall_app. split; [by apply Forall_take|]. destruct Hl; auto.
Qed.

Lemma interrupted_guarded op now d id E k left :
  guarded id E now d → leftover (op_effects op now d) k left →
  guarded id E now (apply_effects (take k (op_effects op now d) ++ left) d).
Proof.
  intros Hg Hl. destruct (op_effects_guarded op now d id E Hg) as [[Hk Hes]|[Hs Hes]].
  - apply guarded_kept_effects; [|apply Hg|done]. eapply leftover_forall; [|done..]. intros. by right.
  - apply guarded_tolerated_effects; [|apply Hg|done]. by eapply leftover_forall.
Qed.

Lemma damaged_guarded id E now d d' : damaged d d' → guarded id E now d → guarded id E now d'.
Proof.
  intros [Hi Hd] [_ Hg]. split; [done|]. destruct Hd as [Hs|[Hs Hr]]; [by right|]. rewrite Hs.
  destruct Hg as [[He|(b & Hb & Hle)]|Hn]; [by left; left| |by right]. left. right.
  destruct (Hr id b Hb) as (b' & Hb' & [->|Hp]); eexists; (split; [done|]); [done|congruence].
Qed.

Lemma event_guarded id E s s' :
  event s s' → guarded id E s.2 s.1 → s.2 ≤ s'.2 ∧ guarded id E s'.2 s'.1.
Proof.
  intros [op now d t Ht|op now d t k left Ht Hl|d d' t Hd] Hg; simpl in *.
  - split; [done|]. apply (guarded_later _ _ _ now) in Hg; [|done].
    rewrite <-(app_nil_r (op_effects op now d)), <-(firstn_all (op_effects op now d)).
    apply interrupted_guarded; [done|constructor].
  - split; [done|]. apply (guarded_later _ _ _ now) in Hg; [|done]. by apply interrupted_guarded.
  - split; [done|]. by eapply damaged_guarded.
Qed.

Lemma events_guarded id E s s' :
  rtc event s s' → guarded id E s.2 s.1 → s.2 ≤ s'.2 ∧ guarded id E s'.2 s'.1.
Proof.
  induction 1 as [s|s1 s2 s3 H12 _ IH]; [done|]. intros Hg.
  destruct (event_guarded _ _ _ _ H12 Hg) as [? Hg2]. destruct (IH Hg2). split; [lia|done].
Qed.

Lemma inject_guarded q id E now d es :
  in_i64 E = true → receive_injects q id E now d es → guarded id E now (apply_effects es d).
Proof.
  intros HE (_ & _ & _ & _ & fs & h & Hfs & _ & _ & _ & ->). split.
  - right. done.
  - left. right. exists (serialize (EntrySeen E)). unfold apply_effects. simpl.
    rewrite !file_write, decide_False, decide_True by done. split; [done|].
    intros e. rewrite parse_serialize by done. by intros [= <-].
Qed.


(** ** The decisions in sequence *)

Lemma quarantine_write_other now d name bytes :
  name ≠ quarantine_path → is_quarantined now (apply_effect d (WriteFile name bytes)) = is_quarantined now d.
Proof. intros H. unfold is_quarantined. by rewrite file_write, decide_False. Qed.

Lemma not_quarantined_later now now' d :
  now ≤ now' → is_quarantined now d = false → is_quarantined now' d = false.
Proof.
  unfold is_quarantined. intros ?. destruct (file quarantine_path d) as [b|]; [|done].
  destruct (parse_timestamp b); [|done]. rewrite !Z.ltb_ge. lia.
Qed.

Lemma sentinel_bounds d h : sentinel d = Some h → in_i64 h = true.
Proof.
  unfold sentinel. intros (b & _ & Hp)%bind_Some. apply in_i64_spec. by eapply parse_i64_bounds.
Qed.

Lemma in_i64_max a b : in_i64 a = true → in_i64 b = true → in_i64 (Z.max a b) = true.
Proof. rewrite !in_i64_spec. lia. Qed.

Lemma healthy_write_other d name bytes :
  name ≠ max_expires_path → directory_is_healthy d = true →
  directory_is_healthy (apply_effect d (WriteFile name bytes)) = true.
Proof.
  intros Hn (fs & h & Hfs & Hs)%healthy_spec. apply healthy_spec. rewrite sentinel_write_other by done.
  unfold apply_effect. rewrite Hfs. simpl. eauto.
Qed.

(** What an injection leaves on the disk. *)
Lemma inject_disk q id E now d es :
  in_i64 E = true → receive_injects q id E now d es →
  directory_is_healthy (apply_effects es d) = true ∧
  file (entry_path id) (apply_effects es d) = Some (serialize (EntrySeen E)) ∧
  ∀ now', now ≤ now' → is_quarantined now' (apply_effects es d) = false.
Proof.
  intros HE (_ & _ & Hq & _ & fs & h & Hfs & Hs & _ & _ & ->). unfold apply_effects. cbn [foldl]. split_and!.
  - apply healthy_spec. eexists _, (Z.max h E). split; [done|].
    unfold sentinel. rewrite file_write, decide_True by done. simpl.
    apply parse_timestamp_pretty, in_i64_max; [by eapply sentinel_bounds|done].
  - by rewrite !file_write, decide_False, decide_True.
  - intros now' Hn. rewrite !quarantine_write_other by done. by eapply not_quarantined_later.
Qed.

Lemma receive_known q id E now d bytes :
  validate_token id = true → now < E → directory_is_healthy d = true → is_quarantined now d = false →
  file (entry_path id) d = Some bytes → is_some (parse_entry bytes) = true →
  receive q id E now d =
    ([], Ok match parse_entry bytes with Some (EntryAcked _) => Acked | _ => Indeterminate end).
Proof.
  intros Hv Hn Hh Hq Hf Hp. unfold receive. rewrite Hv. simpl. rewrite (proj2 (Z.leb_gt _ _) Hn).
  run_io. rewrite Hh. simpl. rewrite Hq, Hf. by destruct (parse_entry bytes) as [[]|].
Qed.

(** A delivery that was injected is indeterminate until the prompt is
    dispatched; the acknowledgement then succeeds with one write, and from then
    on the receptions of the delivery before its expiry answer that it was
    acknowledged and write nothing. *)
Lemma acknowledged_replays q delivery_id E t d t1 t2 :
  in_i64 E = true → t ≤ t1 → t ≤ t2 → t2 < E →
  (receive q delivery_id E t d).2 = Ok Inject →
  let d1 := apply_effects (receive q delivery_id E t d).1 d in
  let d2 := apply_effects (acknowledge q delivery_id t1 d1).1 d1 in
  receive q delivery_id E t2 d1 = ([], Ok Indeterminate) ∧
  acknowledge q delivery_id t1 d1 =
    ([WriteFile (entry_path delivery_id) (serialize (EntryAcked E))], Ok Acked) ∧
  receive q delivery_id E t2 d2 = ([], Ok Acked) ∧
  acknowledge q delivery_id t2 d2 = ([], Ok Acked).
Proof.
  intros HE Ht1 Ht2 Hlt Hr. destruct (receive q delivery_id E t d) as [es r] eqn:Hrec. simpl in Hr |- *.
  destruct (receive_cases _ _ _ _ _ _ _ Hrec) as [[_ ?]|[(? & _ & ? & _)|[Hi _]]]; [done|congruence|].
  destruct (inject_disk _ _ _ _ _ _ HE Hi) as (Hh & Hf & Hq).
  assert (validate_token delivery_id = true) as Hv by apply Hi.
  assert (parse_entry (serialize (EntrySeen E)) = Some (EntrySeen E)) as Hps by by apply parse_serialize.
  assert (parse_entry (serialize (EntryAcked E)) = Some (EntryAcked E)) as Hpa by by apply parse_serialize.
  set (d1 := apply_effects es d) in *.
  assert (acknowledge q delivery_id t1 d1 =
    ([WriteFile (entry_path delivery_id) (serialize (EntryAcked E))], Ok Acked)) as Hack.
  { unfold acknowledge. rewrite Hv. run_io. rewrite Hq, Hh by done. simpl. rewrite Hf. simpl. by rewrite Hps. }
  rewrite Hack. cbn [fst].
  set (d2 := apply_effects [WriteFile (entry_path delivery_id) (serialize (EntryAcked E))] d1).
  assert (directory_is_healthy d2 = true) as Hh2 by by apply healthy_write_other.
  assert (is_quarantined t2 d2 = false) as Hq2.
  { unfold d2, apply_effects. simpl. rewrite quarantine_write_other by done. by apply Hq. }
  assert (file (entry_path delivery_id) d2 = Some (serialize (EntryAcked E))) as Hf2.
  { unfold d2, apply_effects. simpl. by rewrite file_write, decide_True. }
  split_and!; [|done| |].
  - rewrite (receive_known _ _ _ _ _ _ Hv Hlt Hh (Hq t2 Ht2) Hf); by rewrite Hps.
  - rewrite (receive_known _ _ _ _ _ _ Hv Hlt Hh2 Hq2 Hf2); by rewrite Hpa.
  - unfold acknowledge. rewrite Hv. run_io. rewrite Hq2, Hh2. simpl. rewrite Hf2. simpl. by rewrite Hpa.
Qed.

(** ** Opening a damaged store *)

(** The two states of the disk that opening takes as sound. *)
Definition pristine (d : Disk) : Prop := enrollment d = None ∧ files d = None.
Definition sound (d : Disk) : Prop := read_enrollment d = Valid ∧ directory_is_healthy d = true.

Lemma open_unsound id d :
  validate_token id = true → ¬ pristine d → ¬ sound d →
  (open false id d).2 = Ok () ∧
  file quarantine_path (apply_effects (open false id d).1 d) = Some (pretty i64_max).
Proof.
  intros Hv Hp Hs. unfold open, pristine, sound, directory_is_healthy, read_enrollment in *.
  rewrite Hv. run_io. unfold read_enrollment.
  destruct (enrollment d) as [b|] eqn:He; [case_bool_decide|]; destruct (files d) as [fs|] eqn:Hf; simpl in *;
    [|try (split; [done|]; by rewrite !file_write, decide_True)..].
  - destruct (sentinel d) eqn:Hse; simpl in *; [by destruct Hs|].
    split; [done|]. by rewrite !file_write, decide_True.
  - by destruct Hp.
Qed.

(** C40: opening a store whose directory, enrollment or sentinel is missing or
    garbled succeeds, and the store then answers that every delivery is
    indeterminate, without a write, up to the end of time: a lost directory is
    never taken for a first opening. *)
Theorem damage_fails_closed instance_id d q delivery_id E now :
  validate_token instance_id = true → ¬ pristine d → ¬ sound d →
  validate_token delivery_id = true → now < E → now < i64_max →
  let d' := apply_effects (open false instance_id d).1 d in
  (open false instance_id d).2 = Ok () ∧
  receive q delivery_id E now d' = ([], Ok Indeterminate) ∧
  acknowledge q delivery_id now d' = ([], Ok Indeterminate).
Proof.
  intros Hi Hp Hs Hv Hn Hm. destruct (open_unsound _ _ Hi Hp Hs) as [Ho Hf]. cbv zeta. split; [done|].
  set (d' := apply_effects (open false instance_id d).1 d) in *. clearbody d'.
  assert (is_quarantined now d' = true) as Hq.
  { unfold is_quarantined. rewrite Hf, parse_timestamp_pretty by done. by apply Z.ltb_lt. }
  split.
  - unfold receive. rewrite Hv. simpl. rewrite (proj2 (Z.leb_gt _ _) Hn). run_io.
    destruct (directory_is_healthy _); simpl; [|done]. by rewrite Hq.
  - unfold acknowledge. rewrite Hv. run_io. by rewrite Hq.
Qed.

(** ** The quota *)

Lemma total_bytes_sum l : ∀ acc,
  0 ≤ acc ≤ u64_max →
  foldl (λ a (kv : string * string), u64_saturating_add a (Z.of_nat (String.length kv.2))) acc l =
    Z.min u64_max (acc + foldr (λ (kv : string * string) a, Z.of_nat (String.length kv.2) + a) 0 l).
Proof.
  assert (∀ l' : list (string * string),
    0 ≤ foldr (λ (kv : string * string) a, Z.of_nat (String.length kv.2) + a) 0 l') as Hpos
    by (induction l' as [|? ? IH]; simpl; lia).
  induction l as [|kv l IH]; intros acc Hacc; simpl; [lia|].
  specialize (Hpos l). rewrite IH by (unfold u64_saturating_add; lia). unfold u64_saturating_add. lia.
Qed.

Lemma total_bytes_cons kv l :
  total_bytes (kv :: l) = u64_saturating_add (total_bytes l) (Z.of_nat (String.length kv.2)).
Proof.
  unfold total_bytes. rewrite !total_bytes_sum by (unfold_ints; lia). unfold u64_saturating_add. simpl.
  lia.
Qed.

#[export] Instance total_bytes_proper : Proper ((≡ₚ) ==> (=)) total_bytes.
Proof.
  induction 1 as [|kv l l' _ IH|kv kv' l|l1 l2 l3 _ IH1 _ IH2]; [done| | |congruence];
    rewrite !total_bytes_cons; [congruence|]. unfold u64_saturating_add. lia.
Qed.

Lemma entry_files_insert fs name bytes :
  fs !! name = None → is_special name = false →
  entry_files (<[name := bytes]> fs) ≡ₚ (name, bytes) :: entry_files fs.
Proof.
  intros Hn Hs. unfold entry_files.
  rewrite (list_filter_perm _ _ _ (map_to_list_insert fs name bytes Hn)). simpl. by rewrite Hs.
Qed.

Lemma entry_files_special fs name bytes :
  is_special name = true → entry_files (<[name := bytes]> fs) ≡ₚ entry_files fs.
Proof.
  intros Hs. unfold entry_files. rewrite <-insert_delete_eq.
  rewrite (list_filter_perm _ _ _ (map_to_list_insert (delete name fs) name bytes (lookup_delete_eq _ _))).
  simpl. rewrite Hs. simpl. destruct (fs !! name) as [b|] eqn:Hf; [|by rewrite delete_id].
  rewrite <-(insert_id fs name b Hf) at 2. rewrite <-insert_delete_eq.
  rewrite (list_filter_perm _ _ _ (map_to_list_insert (delete name fs) name b (lookup_delete_eq _ _))).
  simpl. by rewrite Hs.
Qed.

Lemma seen_shorter E : serialized_len (EntrySeen E) < serialized_len (EntryAcked E).
Proof.
  unfold serialized_len, serialize. rewrite !Str.app_length.
  change (String.length "seen") with 4%nat. change (String.length "acked") with 5%nat. lia.
Qed.

(** A reception that injects leaves at most [max_entries] receipts, and no
    more than [max_bytes] bytes of them. *)
Lemma inject_within_quota q delivery_id E now d :
  (receive q delivery_id E now d).2 = Ok Inject →
  ∃ fs, files (apply_effects (receive q delivery_id E now d).1 d) = Some fs ∧
    Z.of_nat (length (entry_files fs)) ≤ q.(max_entries) ∧ total_bytes (entry_files fs) ≤ q.(max_bytes).
Proof.
  destruct (receive q delivery_id E now d) as [es r] eqn:Hrec. simpl. intros ->.
  destruct (receive_cases _ _ _ _ _ _ _ Hrec) as [[_ ?]|[(? & _ & ? & _)|[Hi _]]]; [done|congruence|].
  destruct Hi as (_ & _ & _ & Hf & fs & h & Hfs & _ & Hn & Hb & ->).
  unfold apply_effects, apply_effect. simpl. rewrite Hfs. simpl. eexists; split; [done|].
  assert (fs !! entry_path delivery_id = None) as Hnone by (unfold file in Hf; by rewrite Hfs in Hf).
  rewrite entry_files_special, entry_files_insert by done.
  rewrite total_bytes_cons. cbn [length snd]. split; [lia|]. pose proof (seen_shorter E).
  unfold serialized_len, u64_saturating_add in *. lia.
Qed.

(** ** The purge *)

Definition receipt_of (d : Disk) (name : string) : option ReceiptEntry := file name d ≫= parse_entry.

Definition expired_in (now : Z) (d : Disk) (name : string) : bool :=
  negb (is_special name) && is_some_and (receipt_of d name) (λ r, entry_expires_at r <=? now).
Definition live_expiry (now : Z) (d : Disk) (name : string) : option Z :=
  if is_special name then None
  else r ← receipt_of d name; if entry_expires_at r <=? now then None else Some (entry_expires_at r).

Lemma expired_in_remove now d name n : name ≠ n → expired_in now (apply_effect d (RemoveFile name)) n = expired_in now d n.
Proof. intros H. unfold expired_in, receipt_of. by rewrite file_remove, decide_False. Qed.
Lemma live_expiry_remove now d name n : name ≠ n → live_expiry now (apply_effect d (RemoveFile name)) n = live_expiry now d n.
Proof. intros H. unfold live_expiry, receipt_of. by rewrite file_remove, decide_False. Qed.

Lemma filter_ext_elem {A} (p p' : A → bool) (l : list A) : (∀ x, x ∈ l → p x = p' x) → List.filter p l = List.filter p' l.
Proof.
  induction l as [|x l IH]; intros H; simpl; [done|]. rewrite H by set_solver.
  by rewrite IH by set_solver.
Qed.
Lemma omap_ext_elem {A B} (f f' : A → option B) (l : list A) : (∀ x, x ∈ l → f x = f' x) → omap f l = omap f' l.
Proof.
  induction l as [|x l IH]; intros H; csimpl; [done|]. rewrite H by set_solver.
  by rewrite IH by set_solver.
Qed.

Lemma purge_loop_run q now listing : ∀ removed mx d,
  NoDup listing → (∀ n, n ∈ listing → is_special n = false → is_Some (receipt_of d n)) →
  purge_loop q now listing removed mx d =
    ((RemoveFile <$> List.filter (expired_in now d) listing) ++
       [WriteFile max_expires_path (pretty (foldl Z.max mx (omap (live_expiry now d) listing)))],
     Ok (removed + Z.of_nat (count_if (expired_in now d) listing))).
Proof.
  induction listing as [|name rest IH]; intros removed mx d Hnd Hall; simpl.
  { run_io. by rewrite Z.add_0_r. }
  apply NoDup_cons in Hnd as [Hnin Hnd]. rewrite count_if_cons.
  assert (expired_in now d name = negb (is_special name) &&
    is_some_and (receipt_of d name) (λ r, entry_expires_at r <=? now)) as He by done.
  assert (live_expiry now d name = if is_special name then None else
    r ← receipt_of d name; if entry_expires_at r <=? now then None else Some (entry_expires_at r)) as Hl by done.
  destruct (is_special name) eqn:Hs; simpl in He, Hl.
  { rewrite He, Hl. simpl. apply IH; [done|]. intros; apply Hall; set_solver. }
  destruct (Hall name ltac:(set_solver) Hs) as [r Hr]. rewrite Hr in He, Hl. simpl in He, Hl.
  unfold receipt_of in Hr. apply bind_Some in Hr as (bytes & Hf & Hp). run_io. rewrite Hf, Hp.
  destruct (entry_expires_at r <=? now); simpl in He, Hl; rewrite He, Hl; run_io.
  - assert (∀ n, n ∈ rest → name ≠ n) as Hne by set_solver.
    rewrite IH; [|done|].
    + rewrite (filter_ext_elem _ (expired_in now d)) by eauto using expired_in_remove.
      rewrite (omap_ext_elem _ (live_expiry now d)) by eauto using live_expiry_remove.
      rewrite (count_if_ext _ (expired_in now d)) by eauto using expired_in_remove.
      simpl. f_equal. f_equal. lia.
    + intros n Hn Hsp. unfold receipt_of. rewrite file_remove, decide_False by auto.
      apply Hall; [set_solver|done].
  - rewrite IH; [done|done|]. intros; apply Hall; set_solver.
Qed.

(** When every file of a healthy store reads as a receipt, a purge removes
    exactly the files of the receipts that have expired, in the order of the
    listing, then rewrites the sentinel with the furthest expiry among the
    others (0 when none is left), and returns the number of files removed. *)
Lemma purge_exact q listing now d :
  directory_is_healthy d = true → NoDup listing →
  (∀ n, n ∈ listing → is_special n = false → is_Some (receipt_of d n)) →
  purge_expired q listing now d =
    ((RemoveFile <$> List.filter (expired_in now d) listing) ++
       [WriteFile max_expires_path (pretty (foldl Z.max 0 (omap (live_expiry now d) listing)))],
     Ok (Z.of_nat (count_if (expired_in now d) listing))).
Proof.
  intros Hh Hnd Hall. unfold purge_expired. run_io. rewrite Hh. simpl. by rewrite purge_loop_run.
Qed.

(** ** A first delivery *)

(** On a disk that never held the store, opening succeeds and the first
    delivery that a quota has room for is injected. *)
Lemma first_delivery_injects instance_id q delivery_id E now :
  validate_token instance_id = true → validate_token delivery_id = true → now < E →
  0 < q.(max_entries) → serialized_len (EntryAcked E) ≤ q.(max_bytes) →
  let d := mkDisk None None in
  (open false instance_id d).2 = Ok () ∧
  (receive q delivery_id E now (apply_effects (open false instance_id d).1 d)).2 = Ok Inject.
Proof.
  intros Hi Hv Hn Hq Hb. cbv zeta. unfold open. rewrite Hi. split; [done|].
  set (fs0 := <[max_expires_path := pretty 0]> (∅ : gmap string string)).
  change (apply_effects _ _) with (mkDisk (Some ("v1" +:+ nl)) (Some fs0)).
  assert (∀ name, name ≠ max_expires_path → file name (mkDisk (Some ("v1" +:+ nl)) (Some fs0)) = None) as Hf
    by (intros name ?; unfold file, fs0; simpl; by rewrite lookup_insert_ne).
  assert (sentinel (mkDisk (Some ("v1" +:+ nl)) (Some fs0)) = Some 0) as Hs by by vm_compute.
  assert (entry_files fs0 = []) as He by by vm_compute.
  rewrite (receive_inject_run q delivery_id E now _
    [WriteFile (entry_path delivery_id) (serialize (EntrySeen E));
     WriteFile max_expires_path (pretty (Z.max 0 E))]); [done|].
  split_and!; [done|done|unfold is_quarantined; by rewrite Hf|by apply Hf|].
  exists fs0, 0. rewrite He. split_and!; [done|done|done| |done].
  unfold u64_saturating_add. change (total_bytes []) with 0. lia.
Qed.

Module ReceiptExamples.

Definition small : ReceiptQuota := mkReceiptQuota 10 1000 500.
Definition fresh : Disk := apply_effects (open false "inst" (mkDisk None None)).1 (mkDisk None None).
Definition after (op : Op) (now : Z) (d : Disk) : Disk := apply_effects (op_effects op now d) d.
Definition injected : Disk := after (OpReceive small "a" 200) 100 fresh.

(** The byte quota counts a receipt at its length when it is read, and an
    acknowledgement lengthens it: two receptions within a quota of 19 bytes end
    with 20 bytes of receipts once both are acknowledged. *)
Lemma acknowledgements_exceed_quota :
  let q := mkReceiptQuota 10 19 500 in
  let d1 := after (OpReceive q "a" 200) 100 fresh in
  let d2 := after (OpReceive q "b" 200) 100 d1 in
  let d3 := after (OpAcknowledge q "b") 101 (after (OpAcknowledge q "a") 101 d2) in
  (receive q "a" 200 100 fresh).2 = Ok Inject ∧ (receive q "b" 200 100 d1).2 = Ok Inject ∧
  (total_bytes ∘ entry_files <$> files d3) = Some 20.
Proof. vm_compute. done. Qed.

(** A purge does not look at the quarantine of the store. When the
    enrollment was lost, the opening puts the store in quarantine for ever; a
    purge that then meets a garbled receipt replaces that by a quarantine of the
    horizon, after which deliveries are injected again. *)
Lemma purge_lifts_permanent_quarantine :
  let garbled := mkDisk None (Some (<[entry_path "a" := "garbage"]> (default ∅ (files injected)))) in
  let reopened := after (OpOpen false "inst") 0 garbled in
  let purged := after (OpPurge small [entry_path "a"; max_expires_path; quarantine_path]) 300 reopened in
  file quarantine_path reopened = Some (pretty i64_max) ∧
  file quarantine_path purged = Some "800" ∧
  (receive small "b" 1000 900 reopened).2 = Ok Indeterminate ∧
  (receive small "b" 1000 900 purged).2 = Ok Inject.
Proof. vm_compute. done. Qed.

(** The temporary file of a write that a crash interrupted stays in the
    directory, and the purge reads it as a receipt: each purge then puts the
    store in quarantine again, although every receipt is sound. *)
Lemma leftover_requarantines :
  let crashed := apply_effects
    (take 1 (op_effects (OpReceive small "a" 200) 100 fresh)
       ++ [WriteFile (temporary max_expires_path 7 0) "200"]) fresh in
  let listing := [temporary max_expires_path 7 0; entry_path "a"; max_expires_path; quarantine_path] in
  let once := after (OpPurge small listing) 150 crashed in
  let twice := after (OpPurge small listing) 600 once in
  leftover (op_effects (OpReceive small "a" 200) 100 fresh) 1 [WriteFile (temporary max_expires_path 7 0) "200"] ∧
  file quarantine_path once = Some "650" ∧
  file quarantine_path twice = Some "1100" ∧
  file (temporary max_expires_path 7 0) twice = Some "200".
Proof.
  split; [|by vm_compute]. eapply (leftover_tmp _ _ _ "200" _ _ _ ""); by vm_compute.
Qed.

Definition reopened_after_loss : Disk := after (OpOpen false "inst") 120 (mkDisk (enrollment injected) None).


(** The two losses that the store cannot see: the receipt alone, and the directory
    with the enrollment, which is a first opening. *)
Definition receipt_lost : Disk := mkDisk (enrollment injected) (delete (entry_path "a") <$> files injected).
Example losses_unseen :
  (receive small "a" 200 150 receipt_lost).2 = Ok Inject ∧
  (receive small "a" 200 150 (after (OpOpen false "inst") 120 (mkDisk None None))).2 = Ok Inject.
Proof. split; vm_compute; reflexivity. Qed.

Lemma acknowledged_replays_witness :
  receive small "a" 200 150 injected = ([], Ok Indeterminate) ∧
  acknowledge small "a" 120 injected = ([WriteFile (entry_path "a") (serialize (EntryAcked 200))], Ok Acked) ∧
  receive small "a" 200 150 (after (OpAcknowledge small "a") 120 injected) = ([], Ok Acked) ∧
  acknowledge small "a" 150 (after (OpAcknowledge small "a") 120 injected) = ([], Ok Acked).
Proof.
  apply (acknowledged_replays small "a" 200 100 fresh 120 150); [reflexivity|lia..|vm_compute; reflexivity].
Defined.

Definition garbled_enrollment : Disk := mkDisk (Some "v1") (files injected).

Lemma damage_fails_closed_witness :
  let d' := apply_effects (open false "inst" garbled_enrollment).1 garbled_enrollment in
  (open false "inst" garbled_enrollment).2 = Ok () ∧
  receive small "z" 300 250 d' = ([], Ok Indeterminate) ∧
  acknowledge small "z" 250 d' = ([], Ok Indeterminate).
Proof.
  apply (damage_fails_closed "inst" garbled_enrollment small "z" 300 250).
  - reflexivity.
  - intros [H _]. discriminate H.
  - intros [H _]. vm_compute in H. discriminate H.
  - reflexivity.
  - lia.
  - reflexivity.
Defined.

Lemma inject_within_quota_witness :
  ∃ fs, files injected = Some fs ∧ Z.of_nat (length (entry_files fs)) ≤ 10 ∧ total_bytes (entry_files fs) ≤ 1000.
Proof. apply (inject_within_quota small "a" 200 100 fresh). vm_compute. reflexivity. Defined.

Lemma purge_exact_witness :
  purge_expired small [max_expires_path; entry_path "a"] 200 injected =
    ((RemoveFile <$> List.filter (expired_in 200 injected) [max_expires_path; entry_path "a"]) ++
      [WriteFile max_expires_path
        (pretty (foldl Z.max 0 (omap (live_expiry 200 injected) [max_expires_path; entry_path "a"])))],
     Ok (Z.of_nat (count_if (expired_in 200 injected) [max_expires_path; entry_path "a"]))).
Proof.
  apply (purge_exact small [max_expires_path; entry_path "a"] 200 injected).
  - vm_compute. reflexivity.
  - apply (bool_decide_unpack _). vm_compute. exact I.
  - intros n Hn Hs. apply elem_of_cons in Hn as [->|Hn]; [done|].
    apply list_elem_of_singleton in Hn as ->. vm_compute. eauto.
Defined.

Lemma first_delivery_injects_witness :
  (open false "inst" (mkDisk None None)).2 = Ok () ∧ (receive small "a" 200 100 fresh).2 = Ok Inject.
Proof. apply (first_delivery_injects "inst" small "a" 200 100); vm_compute; done. Defined.

End ReceiptExamples.
