(* ===== verification/Sql.v ===== *)
(** * Sql: the statements of the SQLite stores on lists of rows

    A table is the list of its rows in the order of their insertion.  [select]
    is a [SELECT .. WHERE], [select_one] the first row that [query_row] reads,
    [update] an [UPDATE .. WHERE] with [updated] the number of rows it changes,
    and [delete_where] a [DELETE .. WHERE].  [sql_sum] is a [SUM]. *)

From S2P Require Import Prelude Text.

Definition select {R} (p : R → bool) (t : list R) : list R := List.filter p t.
Definition select_one {R} (p : R → bool) (t : list R) : option R := find_first p t.
Definition exists_row {R} (p : R → bool) (t : list R) : bool := existsb p t.
Definition update {R} (p : R → bool) (f : R → R) (t : list R) : list R :=
  (λ r, if p r then f r else r) <$> t.
Definition updated {R} (p : R → bool) (t : list R) : nat := count_if p t.
Definition delete_where {R} (p : R → bool) (t : list R) : list R := List.filter (λ r, negb (p r)) t.

(** [SUM], which fails beyond the integers of SQLite. *)
Fixpoint sql_sum (acc : Z) (l : list Z) : result string Z :=
  match l with
  | [] => Ok acc
  | x :: l => if (acc + x <=? i64_max)%Z then sql_sum (acc + x) l else Err "integer overflow"
  end.

(** A column, or a key, with a uniqueness constraint. *)
Definition unique {R K} (key : R → K) (t : list R) : Prop := NoDup (key <$> t).

Section rows.
Context {R : Type} (p : R → bool) (f : R → R).

Lemma update_elem r t : r ∈ update p f t ↔ ∃ r0, r0 ∈ t ∧ r = (if p r0 then f r0 else r0).
Proof. unfold update. rewrite list_elem_of_fmap. naive_solver. Qed.

(** An update that keeps a column keeps the column of the whole table. *)
Lemma update_key {K} (key : R → K) t :
  (∀ r, r ∈ t → p r = true → key (f r) = key r) → key <$> update p f t = key <$> t.
Proof.
  induction t as [|r t IH]; intros H; [done|]. cbn. unfold update in IH. rewrite IH by set_solver.
  f_equal. destruct (p r) eqn:E; [|done]. apply H; set_solver.
Qed.

Lemma update_unique {K} (key : R → K) t :
  (∀ r, r ∈ t → p r = true → key (f r) = key r) → unique key t → unique key (update p f t).
Proof. intros H Hu. unfold unique. by rewrite update_key. Qed.

Lemma update_app t t' : update p f (t ++ t') = update p f t ++ update p f t'.
Proof. apply fmap_app. Qed.

Lemma update_none t : (∀ r, r ∈ t → p r = false) → update p f t = t.
Proof.
  induction t as [|r t IH]; intros H; [done|]. cbn. unfold update in IH. rewrite IH by set_solver.
  by rewrite H by set_solver.
Qed.

Lemma update_ext q t : (∀ r, r ∈ t → p r = q r) → update p f t = update q f t.
Proof.
  induction t as [|r t IH]; intros H; [done|]. cbn. unfold update in IH. rewrite IH by set_solver.
  by rewrite H by set_solver.
Qed.

Lemma select_one_Some r t : select_one p t = Some r → r ∈ t ∧ p r = true.
Proof. apply find_first_Some. Qed.

Lemma select_one_None r t : select_one p t = None → r ∈ t → p r = false.
Proof. apply find_first_None. Qed.

Lemma select_elem r t : r ∈ select p t ↔ r ∈ t ∧ p r = true.
Proof. apply list_filter_elem. Qed.

Lemma select_all t : (∀ r, r ∈ t → p r = true) → select p t = t.
Proof.
  clear f. induction t as [|r t IH]; intros H; [done|]. simpl. rewrite H by set_solver. f_equal. apply IH. set_solver.
Qed.

Lemma select_none t : (∀ r, r ∈ t → p r = false) → select p t = [].
Proof.
  clear f. induction t as [|r t IH]; intros H; [done|]. simpl. rewrite H by set_solver. apply IH. set_solver.
Qed.

Lemma select_app t t' : select p (t ++ t') = select p t ++ select p t'.
Proof. apply List.filter_app. Qed.

Lemma exists_row_true t : exists_row p t = true ↔ ∃ r, r ∈ t ∧ p r = true.
Proof. apply existsb_elem. Qed.

Lemma exists_row_false t : exists_row p t = false ↔ ∀ r, r ∈ t → p r = false.
Proof.
  rewrite <-not_true_iff_false, exists_row_true. split.
  - intros H r Hr. apply not_true_iff_false. intros Hp. apply H. eauto.
  - intros H (r & Hr & Hp). rewrite H in Hp by done. done.
Qed.
End rows.

(** Rows are determined by a unique column. *)
Lemma unique_eq {R K} (key : R → K) t r r' : unique key t → r ∈ t → r' ∈ t → key r = key r' → r = r'.
Proof.
  unfold unique. induction t as [|x t IH]; [by rewrite elem_of_nil|]. cbn. intros Hnd Hr Hr' Hk.
  apply NoDup_cons in Hnd as [Hx Hnd]. apply elem_of_cons in Hr as [->|Hr], Hr' as [->|Hr']; [done| | |by apply IH].
  - destruct Hx. apply list_elem_of_fmap. eauto.
  - destruct Hx. apply list_elem_of_fmap. eauto.
Qed.

Lemma unique_select_one {R K} (key : R → K) (p : R → bool) t r :
  unique key t → r ∈ t → p r = true → (∀ r', p r' = true → key r' = key r) → select_one p t = Some r.
Proof.
  intros Hu Hr Hp Hk. destruct (select_one p t) as [r'|] eqn:E.
  - apply select_one_Some in E as [Hr' Hp']. f_equal. by apply (unique_eq key t); auto.
  - by rewrite (select_one_None p r t E Hr) in Hp.
Qed.

Lemma unique_snoc {R K} (key : R → K) t r :
  unique key t → (∀ r', r' ∈ t → key r' ≠ key r) → unique key (t ++ [r]).
Proof.
  unfold unique. rewrite fmap_app. intros Hu Hn. apply NoDup_app. split_and!; [done| |apply NoDup_singleton].
  intros k Hk Hk'. apply list_elem_of_singleton in Hk'. apply list_elem_of_fmap in Hk as (r' & Heq & Hr').
  apply (Hn r' Hr'). cbn in Hk'. congruence.
Qed.

(** At most one row matches a condition on a unique column. *)
Lemma unique_updated {R K} (key : R → K) (p : R → bool) t :
  unique key t → (∀ r r', p r = true → p r' = true → key r = key r') → updated p t ≤ 1.
Proof.
  unfold unique, updated. induction t as [|x t IH]; intros Hu Hp; [by unfold count_if; simpl; lia|]. cbn in Hu.
  apply NoDup_cons in Hu as [Hx Hu]. rewrite count_if_cons. specialize (IH Hu Hp).
  destruct (p x) eqn:E; [|lia].
  rewrite count_if_0; [lia|]. intros y Hy. apply not_true_iff_false. intros Hy'.
  destruct Hx. apply list_elem_of_fmap. eauto.
Qed.

Lemma updated_one {R K} (key : R → K) (p : R → bool) t r :
  unique key t → (∀ r r', p r = true → p r' = true → key r = key r') → r ∈ t → p r = true → updated p t = 1.
Proof.
  intros Hu Hp Hr Hpr. pose proof (unique_updated key p t Hu Hp). unfold updated, count_if in *.
  assert (r ∈ List.filter p t) by (apply list_filter_elem; auto).
  destruct (List.filter p t) as [|? [|? ?]]; simpl in *; [set_solver|lia|lia].
Qed.

(** A selection of a selection, and of a table with a unique column. *)
Lemma select_and {R} (p q : R → bool) t : select (λ r, p r && q r) t = select q (select p t).
Proof. induction t as [|r t IH]; [done|]. simpl. destruct (p r); simpl; [destruct (q r)|]; by rewrite IH. Qed.

Lemma unique_select {R K} (key : R → K) p t : unique key t → unique key (select p t).
Proof.
  unfold unique. induction t as [|x t IH]; simpl; [done|]. intros [Hx Hnd]%NoDup_cons.
  destruct (p x); simpl; [|by apply IH]. apply NoDup_cons. split; [|by apply IH].
  intros (y & Hy & Hin)%list_elem_of_fmap. apply select_elem in Hin as [Hin _]. apply Hx.
  rewrite Hy. by apply list_elem_of_fmap_2.
Qed.

(** A column is unique when its equal values come with equal values of a unique one. *)
Lemma unique_via {R K K'} (key : R → K) (key' : R → K') t :
  unique key t → (∀ r r', r ∈ t → r' ∈ t → key' r = key' r' → key r = key r') → unique key' t.
Proof.
  unfold unique. induction t as [|x t IH]; intros Hu Hk; cbn; [apply NoDup_nil_2|]. cbn in Hu. apply NoDup_cons in Hu as [Hx Hu].
  apply NoDup_cons. split; [|apply IH; [done|]; intros r r' Hr Hr'; apply Hk; by right].
  intros (y & E & Hy)%list_elem_of_fmap. apply Hx. rewrite (Hk x y); [by apply list_elem_of_fmap_2|left|by right|done].
Qed.

(** Counts of rows under an update and a deletion. *)
Lemma update_count {R} (p : R → bool) f (q : R → bool) t :
  (∀ r, r ∈ t → p r = true → q (f r) = true → q r = true) → (count_if q (update p f t) ≤ count_if q t)%nat.
Proof.
  induction t as [|r t IH]; intros H; [done|]. unfold update in *. rewrite fmap_cons, !count_if_cons.
  assert (count_if q ((λ r, if p r then f r else r) <$> t) ≤ count_if q t)%nat by (apply IH; intros x Hx; apply H; by right).
  destruct (p r) eqn:Hp; [|lia]. destruct (q (f r)) eqn:Hq; [|lia]. rewrite (H r); [lia|by left|done|done].
Qed.
Lemma delete_count {R} (p q : R → bool) t : (count_if q (delete_where p t) ≤ count_if q t)%nat.
Proof.
  induction t as [|r t IH]; [done|]. rewrite count_if_cons. unfold delete_where in *. cbn [List.filter].
  destruct (negb (p r)); rewrite ?count_if_cons; lia.
Qed.

(** A condition that determines the key selects one row. *)
Lemma select_unique {R K} (key : R → K) (p : R → bool) t r :
  unique key t → r ∈ t → p r = true → (∀ r', p r' = true → key r' = key r) → select p t = [r].
Proof.
  intros Hu Hr Hp Hk. pose proof (unique_select key p t Hu) as Hu'. assert (r ∈ select p t) as Hin by by apply select_elem.
  assert (∀ x, x ∈ select p t → x = r) as Hall.
  { intros x [Hx Hpx]%select_elem. apply (unique_eq key t); auto. }
  destruct (select p t) as [|x [|y l]]; [by apply elem_of_nil in Hin|by rewrite (Hall x) by by left|].
  rewrite (Hall x), (Hall y) in Hu' by set_solver. unfold unique in Hu'. cbn in Hu'. apply NoDup_cons in Hu' as [Hn _]. destruct Hn. by left.
Qed.

(** ** Pages by date and identifier *)

Section Stamps.
Context {R : Type} (key : R → Z * string).
Definition stamp_order (a b : R) : bool := stamp_leb (key a) (key b).
(** [created_at > ?1 OR (created_at = ?1 AND id > ?2)] *)
Definition stamp_after (c : Z * string) (r : R) : bool := negb (stamp_leb (key r) c).

Lemma stamp_after_sql c r : stamp_after c r = ((c.1 <? (key r).1) || (((key r).1 =? c.1) && String.ltb c.2 (key r).2))%Z.
Proof using.
  unfold stamp_after, stamp_leb. rewrite string_ltb_leb, negb_orb, negb_andb.
  destruct (Z.ltb_spec (key r).1 c.1), (Z.ltb_spec c.1 (key r).1), (Z.eqb_spec (key r).1 c.1); cbn; try lia; done.
Qed.
Lemma stamp_after_trans c x y : stamp_after c x = true → stamp_after (key x) y = true → stamp_after c y = true.
Proof using.
  unfold stamp_after. rewrite !negb_true_iff, <-!not_true_iff_false. intros H1 H2 H3. apply H2. eapply stamp_trans; [exact H3|].
  apply stamp_total. by apply not_true_iff_false.
Qed.

Lemma stamp_sorted (t : list R) : StronglySorted (λ a b, stamp_order a b = true) (sort_by stamp_order t).
Proof using.
  apply Sorted_StronglySorted; [intros a b c; apply stamp_trans|]. apply sort_by_sorted. intros a b. apply stamp_total.
Qed.
Lemma sorted_filter (P : R → R → Prop) (p : R → bool) l : StronglySorted P l → StronglySorted P (List.filter p l).
Proof using.
  induction 1 as [|x l Hs IH Hf]; cbn; [constructor|]. destruct (p x); [|done]. constructor; [done|].
  rewrite Forall_forall in *. intros y [Hy _]%list_filter_elem. by apply Hf.
Qed.
(** The rows that a query reads after a place are the end of the list. *)
Lemma rows_after t p c :
  unique key t →
  sort_by stamp_order (select (λ r, p r && stamp_after c r) t) = List.filter (stamp_after c) (sort_by stamp_order (select p t)).
Proof using.
  intros Hu. apply sort_by_unique; [intros a b; apply stamp_total|intros a b d; apply stamp_trans| | |].
  - intros a b [Ha _]%list_filter_elem [Hb _]%list_filter_elem H1 H2. rewrite sort_by_perm, select_elem in Ha, Hb.
    apply (unique_eq key t); [done|apply Ha|apply Hb|by apply stamp_antisym].
  - rewrite select_and. apply list_filter_perm. by rewrite sort_by_perm.
  - apply StronglySorted_Sorted, sorted_filter, stamp_sorted.
Qed.
(** After a page, the rows after its last one are the rest. *)
Lemma rows_rest l c page rest x :
  StronglySorted (λ a b, stamp_order a b = true) l → NoDup (key <$> l) →
  List.filter (stamp_after c) l = page ++ rest → last page = Some x → List.filter (stamp_after (key x)) l = rest.
Proof using.
  intros Hs Hnd E Hx. assert (x ∈ page) as Hin by (by apply last_Some_elem_of).
  assert (stamp_after c x = true) as Hcx by (apply (list_filter_elem _ l); rewrite E; set_solver).
  transitivity (List.filter (stamp_after (key x)) (List.filter (stamp_after c) l)).
  { clear -Hcx. induction l as [|y l IH]; cbn; [done|]. destruct (stamp_after c y) eqn:Hc; cbn; [by rewrite IH|].
    destruct (stamp_after (key x) y) eqn:Hy; [|done]. by rewrite (stamp_after_trans c x y) in Hc. }
  apply (sorted_filter _ (stamp_after c)) in Hs. rewrite E in *. rewrite List.filter_app, list_filter_nil, list_filter_all; [done| |].
  - intros y Hy. apply negb_true_iff, not_true_iff_false. intros Hyx.
    pose proof (StronglySorted_app_1_elem_of _ page rest x y Hs Hin Hy) as Hxy.
    assert (key x = key y) as Hk by (by apply stamp_antisym). 
    assert (NoDup (key <$> page ++ rest)) as Hnd'.
    { rewrite <-E. clear -Hnd. induction l as [|z l IH]; cbn in *; [done|]. apply NoDup_cons in Hnd as [Hz Hnd].
      destruct (stamp_after c z); [|by apply IH]. cbn. apply NoDup_cons. split; [|by apply IH]. intros (w & Hw & [? _]%list_filter_elem)%list_elem_of_fmap.
      apply Hz. rewrite Hw. by apply list_elem_of_fmap_2. }
    rewrite fmap_app in Hnd'. apply NoDup_app in Hnd' as (_ & Hd & _). apply (Hd (key x)); [by apply list_elem_of_fmap_2|].
    rewrite Hk. by apply list_elem_of_fmap_2.
  - intros y Hy. apply negb_false_iff. apply last_Some in Hx as [page' ->]. apply elem_of_app in Hy as [Hy|Hy].
    + change (stamp_order y x = true). apply (StronglySorted_app_1_elem_of (λ a b, stamp_order a b = true) page' (x :: rest) y x); [by rewrite <-app_assoc in Hs|done|by left].
    + apply list_elem_of_singleton in Hy as ->. destruct (stamp_leb (key x) (key x)) eqn:Ex; [done|]. by rewrite (stamp_total _ _ Ex) in Ex.
Qed.
End Stamps.
