(* ===== verification/Idempotency.v ===== *)
(** * Idempotency: the records of [bridget-daemon/src/idempotency.rs]

    A command carries a key; its record holds the canonical bytes of the
    request, the state of its execution, its public result and its expiry.  A
    replay of the key with the same bytes is answered from the record, other
    bytes are refused.  The table is the map of its primary key to its rows;
    each SQL statement is one step, so that [reserve], which reads, inserts and
    reads again outside a transaction, can be interleaved with other
    connections. *)

From Stdlib Require Import Ascii.
From S2P Require Import Prelude Text.
Local Open Scope Z_scope.

Definition MIN_ISSUER_SCOPE_LEN : nat := 22.
Definition MAX_ISSUER_SCOPE_LEN : nat := 128.
Definition MAX_IDEMPOTENCY_KEY_LEN : nat := 256.
Definition MAX_CANONICAL_BYTES : Z := 1024 * 1024.
(** The scope of the wakes of the command line, of [wake_schedules.rs]. *)
Definition CLI_WAKE_SCOPE : string := "bridget_internal_cli_wake158B_v1".

Inductive OperationKind := Send | Spawn.
Definition operation_as_str (k : OperationKind) : string :=
  match k with Send => "send" | Spawn => "spawn" end.

Inductive RecordState := Prepared | Dispatching | Terminal.
#[export] Instance RecordState_eq_dec : EqDecision RecordState.
Proof. solve_decision. Defined.
Definition state_as_str (s : RecordState) : string :=
  match s with Prepared => "prepared" | Dispatching => "dispatching" | Terminal => "terminal" end.

Inductive IdempotencyError :=
  | InvalidIssuerScope
  | InvalidIdempotencyKey
  | CanonicalTooLarge
  | InvalidIssuedAt
  | InvalidHorizon
  | InvalidTransition (from to : RecordState)
  | InvalidDelivery
  | HeldQueueFull
  | CliWakeRateLimited (retry_after_secs : Z)
  | InvalidSpawnCommand
  | MissingRecord
  | DispatchUnavailable
  | CorruptRecord (what : string)
  | Sqlite (what : string).
#[export] Instance IdempotencyError_eq_dec : EqDecision IdempotencyError.
Proof. solve_decision. Defined.

Definition state_from_str (value : string) : result IdempotencyError RecordState :=
  if bool_decide (value = "prepared") then Ok Prepared
  else if bool_decide (value = "dispatching") then Ok Dispatching
  else if bool_decide (value = "terminal") then Ok Terminal
  else Err (CorruptRecord "état inconnu").

Definition scope_byte (c : ascii) : bool :=
  Str.is_ascii_alphanumeric c || bool_decide (c = "-"%char) || bool_decide (c = "_"%char).
Definition validate_issuer_scope (value : string) : result IdempotencyError () :=
  ensure ((MIN_ISSUER_SCOPE_LEN <=? String.length value)%nat && (String.length value <=? MAX_ISSUER_SCOPE_LEN)%nat
          && Str.all_bytes scope_byte value) InvalidIssuerScope.

(** [is_ascii_graphic] is the class of the visible bytes. *)
Definition validate_idempotency_key (value : string) : result IdempotencyError () :=
  ensure (negb (bool_decide (value = "")) && (String.length value <=? MAX_IDEMPOTENCY_KEY_LEN)%nat
          && Str.all_bytes Str.visible value) InvalidIdempotencyKey.

Definition validate_canonical_bytes (value : string) : result IdempotencyError () :=
  ensure (Z.of_nat (String.length value) <=? MAX_CANONICAL_BYTES) CanonicalTooLarge.

Record IdempotencyKey := mkKey {
  issuer_scope : string; operation_kind : OperationKind; idempotency_key : string }.

Definition key_new (scope : string) (kind : OperationKind) (key : string) : result IdempotencyError IdempotencyKey :=
  _ ← validate_issuer_scope scope;
  _ ← validate_idempotency_key key;
  Ok (mkKey scope kind key).

(** The primary key of the table. *)
Definition columns (k : IdempotencyKey) : string * string * string :=
  (k.(issuer_scope), operation_as_str k.(operation_kind), k.(idempotency_key)).

Inductive PublicResult :=
  | ResultAccepted (expires_at : Z)
  | ResultRejected (category reason : string)
  | ResultOrphaned (reason : string).

Inductive LookupResult :=
  | LookupAccepted (expires_at : Z)
  | LookupRejected (category reason : string) (expires_at : Z)
  | OutcomeUnknown (expires_at : Z)
  | LookupOrphaned (expires_at : Z) (reason : string)
  | LookupExpired.
#[export] Instance LookupResult_eq_dec : EqDecision LookupResult.
Proof. solve_decision. Defined.

Inductive Reservation :=
  | ReservedPrepared (expires_at : Z)
  | Replayed (result : LookupResult)
  | EnvelopeMismatch
  | IdempotencyExpired.
#[export] Instance Reservation_eq_dec : EqDecision Reservation.
Proof. solve_decision. Defined.

(** A row, with the columns as the table has them. *)
Record Row := mkRecordRow {
  canonical_bytes : string;
  row_state : string;
  public_result_kind : option string;
  public_result_category : option string;
  public_result_reason : option string;
  issued_at : Z;
  expires_at : Z }.

Record Rec := mkRec { rec_row : Row; rec_state : RecordState }.

(** ** Reads *)

Definition load_record (t : gmap (string * string * string) Row) (k : IdempotencyKey) : result IdempotencyError (option Rec) :=
  match t !! columns k with
  | None => Ok None
  | Some row => s ← state_from_str row.(row_state); Ok (Some (mkRec row s))
  end.

Definition lookup_result (r : Rec) : result IdempotencyError LookupResult :=
  let row := r.(rec_row) in
  if negb (bool_decide (r.(rec_state) = Terminal)) then Ok (OutcomeUnknown row.(expires_at))
  else
    match row.(public_result_kind) with
    | Some kind =>
      if bool_decide (kind = "accepted") then Ok (LookupAccepted row.(expires_at))
      else if bool_decide (kind = "rejected") then
        category ← ok_or row.(public_result_category) (CorruptRecord "catégorie absente");
        reason ← ok_or row.(public_result_reason) (CorruptRecord "motif absent");
        Ok (LookupRejected category reason row.(expires_at))
      else if bool_decide (kind = "orphaned") then
        Ok (LookupOrphaned row.(expires_at)
              (default "destinataire purgé — remise orpheline" row.(public_result_reason)))
      else Err (CorruptRecord "issue terminale absente")
    | None => Err (CorruptRecord "issue terminale absente")
    end.

Definition lookup (t : gmap (string * string * string) Row) (k : IdempotencyKey) (now : Z) : result IdempotencyError LookupResult :=
  r ← load_record t k;
  match r with
  | Some r => if r.(rec_row).(expires_at) <=? now then Ok LookupExpired else lookup_result r
  | None => Ok LookupExpired
  end.

Definition prepared_expiry (t : gmap (string * string * string) Row) (k : IdempotencyKey) (now : Z) : result IdempotencyError (option Z) :=
  r ← load_record t k;
  Ok (match r with
      | Some r =>
        if bool_decide (r.(rec_state) = Prepared) && (now <? r.(rec_row).(expires_at))
        then Some r.(rec_row).(expires_at) else None
      | None => None
      end).

Definition replay_existing (t : gmap (string * string * string) Row) (k : IdempotencyKey) (bytes : string) (now : Z)
    : result IdempotencyError (option Reservation) :=
  r ← load_record t k;
  match r with
  | None => Ok None
  | Some r =>
    if r.(rec_row).(expires_at) <=? now then Ok (Some IdempotencyExpired)
    else if negb (bool_decide (r.(rec_row).(canonical_bytes) = bytes)) then Ok (Some EnvelopeMismatch)
    else result ← lookup_result r; Ok (Some (Replayed result))
  end.

(** ** The reservation *)

(** The arguments of one call of [reserve]. *)
Record Request := mkReserve {
  rv_key : IdempotencyKey; rv_bytes : string;
  rv_issued_at : Z; rv_horizon_secs : Z; rv_now : Z; rv_tolerance_secs : Z }.

(** Up to the insertion: an answer, or the expiry of the row to insert. *)
Definition reserve_check (t : gmap (string * string * string) Row) (q : Request) : result IdempotencyError (Reservation + Z) :=
  _ ← validate_canonical_bytes q.(rv_bytes);
  if i64_saturating_add q.(rv_now) (Z.max q.(rv_tolerance_secs) 0) <? q.(rv_issued_at) then Err InvalidIssuedAt
  else
    replay ← replay_existing t q.(rv_key) q.(rv_bytes) q.(rv_now);
    match replay with
    | Some replay => Ok (inl replay)
    | None =>
      if q.(rv_horizon_secs) <=? 0 then Err InvalidHorizon
      else
        e ← ok_or (i64_checked_add q.(rv_issued_at) q.(rv_horizon_secs)) InvalidHorizon;
        if e <=? q.(rv_now) then Ok (inl IdempotencyExpired) else Ok (inr e)
    end.

(** [INSERT .. ON CONFLICT DO NOTHING], with the number of rows inserted. *)
Definition reserve_insert (t : gmap (string * string * string) Row) (q : Request) (e : Z) : gmap (string * string * string) Row * nat :=
  match t !! columns q.(rv_key) with
  | Some _ => (t, 0%nat)
  | None =>
    (<[columns q.(rv_key) := mkRecordRow q.(rv_bytes) "prepared" None None None q.(rv_issued_at) e]> t, 1%nat)
  end.

(** After a conflict, the record of the other connection. *)
Definition reserve_replay (t : gmap (string * string * string) Row) (q : Request) : result IdempotencyError Reservation :=
  replay ← replay_existing t q.(rv_key) q.(rv_bytes) q.(rv_now);
  ok_or replay MissingRecord.

Definition reserve (t : gmap (string * string * string) Row) (q : Request) : gmap (string * string * string) Row * result IdempotencyError Reservation :=
  match reserve_check t q with
  | Err e => (t, Err e)
  | Ok (inl answer) => (t, Ok answer)
  | Ok (inr e) =>
    match reserve_insert t q e with
    | (t', 1%nat) => (t', Ok (ReservedPrepared e))
    | (t', _) => (t', reserve_replay t' q)
    end
  end.

(** ** The later states *)

Definition with_row_state (s : RecordState) (row : Row) : Row :=
  mkRecordRow row.(canonical_bytes) (state_as_str s) row.(public_result_kind) row.(public_result_category)
    row.(public_result_reason) row.(issued_at) row.(expires_at).

(** The rows an [UPDATE] of this key in this state changes. *)
Definition update_in (s : RecordState) (f : Row → Row) (k : IdempotencyKey) (t : gmap (string * string * string) Row) : gmap (string * string * string) Row * bool :=
  match t !! columns k with
  | Some row => if bool_decide (row.(row_state) = state_as_str s) then (<[columns k := f row]> t, true) else (t, false)
  | None => (t, false)
  end.

Definition transition (t : gmap (string * string * string) Row) (k : IdempotencyKey) (from to : RecordState)
    : gmap (string * string * string) Row * result IdempotencyError () :=
  match from, to with
  | Prepared, Dispatching =>
    match update_in from (with_row_state to) k t with
    | (t', true) => (t', Ok ())
    | (_, false) =>
      (t, r ← load_record t k;
          match r with Some _ => Err (InvalidTransition from to) | None => Err MissingRecord end)
    end
  | _, _ => (t, Err (InvalidTransition from to))
  end.

Definition with_result (kind : string) (category reason : option string) (row : Row) : Row :=
  mkRecordRow row.(canonical_bytes) "terminal" (Some kind) category reason row.(issued_at) row.(expires_at).

Definition finalize (t : gmap (string * string * string) Row) (k : IdempotencyKey) (r : PublicResult) : gmap (string * string * string) Row * result IdempotencyError () :=
  let f := match r with
           | ResultAccepted _ => with_result "accepted" None None
           | ResultRejected category reason => with_result "rejected" (Some category) (Some reason)
           | ResultOrphaned reason => with_result "orphaned" None (Some reason)
           end in
  match update_in Dispatching f k t with
  | (t', true) => (t', Ok ())
  | (_, false) =>
    (t, r ← load_record t k;
        match r with Some r => Err (InvalidTransition r.(rec_state) Terminal) | None => Err MissingRecord end)
  end.

(** [reject_prepared] of [send_delivery.rs]: both updates in one transaction. *)
Definition reject_prepared (t : gmap (string * string * string) Row) (k : IdempotencyKey) (category reason : string)
    : gmap (string * string * string) Row * result IdempotencyError () :=
  match update_in Prepared (with_row_state Dispatching) k t with
  | (t1, true) =>
    match update_in Dispatching (with_result "rejected" (Some category) (Some reason)) k t1 with
    | (t2, true) => (t2, Ok ())
    | (_, false) => (t, Err DispatchUnavailable)
    end
  | (_, false) => (t, Err DispatchUnavailable)
  end.

(** [purge_expired], less the receipts of queue edits; the number of rows deleted. *)
Definition purge_expired (t : gmap (string * string * string) Row) (now : Z) : gmap (string * string * string) Row * nat :=
  let t' := filter (λ kv, now < kv.2.(expires_at)) t in (t', (size t - size t')%nat).

(** [purge_expired_sends] of [send_delivery.rs]. *)
Definition purge_expired_sends (t : gmap (string * string * string) Row) (now grace : Z) : gmap (string * string * string) Row * nat :=
  let t' := filter (λ kv, ¬ (kv.1.1.2 = "send" ∧ kv.2.(expires_at) ≤ i64_saturating_sub now grace)) t in
  (t', (size t - size t')%nat).

Definition record_count (t : gmap (string * string * string) Row) : nat := size t.

(** ** Connections that interleave

    A call of [reserve] is between two of its statements; the other operations
    are one statement or one transaction each.  A run is labelled by the
    reservations it granted and by the bounds of the purges it made. *)

Inductive Phase :=
  | AtCheck
  | AtInsert (e : Z)
  | AtReplay
  | Done (r : result IdempotencyError Reservation).

Record Client := mkClient { c_request : Request; c_phase : Phase }.

Definition client_step (t : gmap (string * string * string) Row) (c : Client) : gmap (string * string * string) Row * Phase :=
  match c.(c_phase) with
  | AtCheck =>
    (t, match reserve_check t c.(c_request) with
        | Err e => Done (Err e)
        | Ok (inl answer) => Done (Ok answer)
        | Ok (inr e) => AtInsert e
        end)
  | AtInsert e =>
    match reserve_insert t c.(c_request) e with
    | (t', 1%nat) => (t', Done (Ok (ReservedPrepared e)))
    | (t', _) => (t', AtReplay)
    end
  | AtReplay => (t, Done (reserve_replay t c.(c_request)))
  | Done r => (t, Done r)
  end.

(** A call that runs alone is [reserve]. *)
Lemma client_alone t q :
  ∃ n, Nat.iter n (λ '(t, c), let '(t', p) := client_step t c in (t', mkClient c.(c_request) p)) (t, mkClient q AtCheck)
       = ((reserve t q).1, mkClient q (Done (reserve t q).2)).
Proof.
  unfold reserve. destruct (reserve_check t q) as [[a|e]|err] eqn:Hc.
  - exists 1%nat. simpl. unfold client_step. simpl. by rewrite Hc.
  - destruct (reserve_insert t q e) as [t' n] eqn:Hi. exists (if bool_decide (n = 1%nat) then 2 else 3)%nat.
    destruct n as [|[|n]]; simpl; unfold client_step; simpl; rewrite Hc; simpl; by rewrite Hi.
  - exists 1%nat. simpl. unfold client_step. simpl. by rewrite Hc.
Qed.

Inductive Entry :=
  | Granted (k : IdempotencyKey) (e : Z)
  | Purged (bound : Z).

Definition granted (c : Client) (p : Phase) : list Entry :=
  match c.(c_phase), p with
  | AtInsert _, Done (Ok (ReservedPrepared e)) => [Granted c.(c_request).(rv_key) e]
  | _, _ => []
  end.

Inductive sys_step : gmap (string * string * string) Row * list Client → list Entry → gmap (string * string * string) Row * list Client → Prop :=
  | step_call t cs q : sys_step (t, cs) [] (t, cs ++ [mkClient q AtCheck])
  | step_client t cs i c :
      cs !! i = Some c →
      sys_step (t, cs) (granted c (client_step t c).2)
        ((client_step t c).1, <[i := mkClient c.(c_request) (client_step t c).2]> cs)
  | step_transition t cs k from to : sys_step (t, cs) [] ((transition t k from to).1, cs)
  | step_finalize t cs k r : sys_step (t, cs) [] ((finalize t k r).1, cs)
  | step_reject t cs k category reason : sys_step (t, cs) [] ((reject_prepared t k category reason).1, cs)
  | step_purge t cs now : sys_step (t, cs) [Purged now] ((purge_expired t now).1, cs)
  | step_purge_sends t cs now grace :
      sys_step (t, cs) [Purged (i64_saturating_sub now grace)] ((purge_expired_sends t now grace).1, cs).

Inductive runs : gmap (string * string * string) Row * list Client → list Entry → gmap (string * string * string) Row * list Client → Prop :=
  | runs_nil s : runs s [] s
  | runs_snoc s l s' l' s'' : runs s l s' → sys_step s' l' s'' → runs s (l ++ l') s''.

(** ** What one step does to a row *)

Lemma update_in_other s f k t c : c ≠ columns k → (update_in s f k t).1 !! c = t !! c.
Proof.
  intros H. unfold update_in. destruct (t !! columns k); [|done]. case_bool_decide; [|done].
  simpl. by rewrite lookup_insert_ne.
Qed.

Lemma update_in_row s f k t c row :
  t !! c = Some row →
  (update_in s f k t).1 !! c = Some row ∨
  row.(row_state) = state_as_str s ∧ (update_in s f k t).1 !! c = Some (f row).
Proof.
  intros Hr. destruct (decide (c = columns k)) as [->|Hne]; [|left; by rewrite update_in_other].
  unfold update_in. rewrite Hr. case_bool_decide; simpl; [|by left].
  right. by rewrite lookup_insert_eq.
Qed.

Lemma update_in_hit s f k t row :
  t !! columns k = Some row → row.(row_state) = state_as_str s → update_in s f k t = (<[columns k := f row]> t, true).
Proof. intros Hr Hs. unfold update_in. rewrite Hr. by rewrite bool_decide_eq_true_2. Qed.

Lemma update_in_miss s f k t row :
  t !! columns k = Some row → row.(row_state) ≠ state_as_str s → update_in s f k t = (t, false).
Proof. intros Hr Hs. unfold update_in. rewrite Hr. by rewrite bool_decide_eq_false_2. Qed.

(** The rows a step may turn a row into: its state moves on, its bytes and its
    expiry stay. *)
Inductive row_next (row : Row) : Row → Prop :=
  | next_same : row_next row row
  | next_dispatching :
      row.(row_state) = "prepared" → row_next row (with_row_state Dispatching row)
  | next_terminal kind category reason :
      row.(row_state) = "prepared" ∨ row.(row_state) = "dispatching" →
      (kind = "accepted" ∨ kind = "rejected" ∧ is_Some category ∧ is_Some reason ∨ kind = "orphaned") →
      row_next row (with_result kind category reason row).

Lemma transition_row t k from to c row :
  t !! c = Some row → ∃ row', (transition t k from to).1 !! c = Some row' ∧ row_next row row'.
Proof.
  intros Hr. destruct from, to; simpl; eauto using row_next.
  destruct (update_in_row Prepared (with_row_state Dispatching) k t c row Hr) as [H|[Hs H]];
    destruct (update_in _ _ _ _) as [t' [|]]; simpl in *; eauto using row_next.
Qed.

Lemma finalize_row t k r c row :
  t !! c = Some row → ∃ row', (finalize t k r).1 !! c = Some row' ∧ row_next row row'.
Proof.
  intros Hr. unfold finalize.
  set (f := match r with ResultAccepted _ => _ | ResultRejected _ _ => _ | ResultOrphaned _ => _ end).
  destruct (update_in_row Dispatching f k t c row Hr) as [H|[Hs H]];
    destruct (update_in _ _ _ _) as [t' [|]]; simpl in *; eauto using row_next.
  eexists; split; [exact H|]. unfold f. destruct r; apply next_terminal; eauto 10.
Qed.

Lemma reject_row t k category reason c row :
  t !! c = Some row → ∃ row', (reject_prepared t k category reason).1 !! c = Some row' ∧ row_next row row'.
Proof.
  intros Hr. unfold reject_prepared.
  destruct (update_in_row Prepared (with_row_state Dispatching) k t c row Hr) as [H|[Hs H]];
    destruct (update_in Prepared _ _ _) as [t1 [|]]; simpl in *; eauto using row_next.
  all: set (f := with_result _ _ _);
    destruct (update_in_row Dispatching f k t1 c _ H) as [H'|[Hs' H']];
    destruct (update_in Dispatching _ _ _) as [t2 [|]]; simpl in *; eauto using row_next.
  - exists (with_result "rejected" (Some category) (Some reason) row). split; [done|].
    apply next_terminal; eauto 10.
  - exists (with_result "rejected" (Some category) (Some reason) row). split; [done|].
    apply next_terminal; eauto 10.
Qed.

Lemma insert_row t q e c row : t !! c = Some row → (reserve_insert t q e).1 !! c = Some row.
Proof.
  intros Hr. unfold reserve_insert. destruct (t !! columns (rv_key q)) eqn:Hk; simpl; [done|].
  rewrite lookup_insert_ne; [done|congruence].
Qed.

Lemma client_row t c col row : t !! col = Some row → (client_step t c).1 !! col = Some row.
Proof.
  intros Hr. unfold client_step. destruct (c_phase c) as [|e| |r]; [done| |done..].
  pose proof (insert_row t (c_request c) e col row Hr) as Hi.
  destruct (reserve_insert _ _ _) as [t' [|[|n]]]; done.
Qed.

Lemma purge_row t now c row :
  t !! c = Some row → now < row.(expires_at) → (purge_expired t now).1 !! c = Some row.
Proof. intros Hr He. simpl. by apply map_lookup_filter_Some_2. Qed.

Lemma purge_sends_row t now grace c row :
  t !! c = Some row → i64_saturating_sub now grace < row.(expires_at) →
  (purge_expired_sends t now grace).1 !! c = Some row.
Proof. intros Hr He. simpl. apply map_lookup_filter_Some_2; [done|]. simpl. lia. Qed.

(** A step keeps the rows that its purges do not reach, and only moves their
    state on. *)
Lemma step_row s l s' c row :
  sys_step s l s' → s.1 !! c = Some row → (∀ b, Purged b ∈ l → b < row.(expires_at)) →
  ∃ row', s'.1 !! c = Some row' ∧ row_next row row'.
Proof.
  intros Hs Hr Hb. destruct Hs; simpl in *;
    eauto using row_next, client_row, transition_row, finalize_row, reject_row.
  - exists row. split; [|constructor]. apply purge_row; [done|]. apply Hb. set_solver.
  - exists row. split; [|constructor]. apply purge_sends_row; [done|]. apply Hb. set_solver.
Qed.

Lemma row_next_expiry row row' : row_next row row' → row'.(expires_at) = row.(expires_at).
Proof. by destruct 1. Qed.
Lemma row_next_bytes row row' : row_next row row' → row'.(canonical_bytes) = row.(canonical_bytes).
Proof. by destruct 1. Qed.
Lemma row_next_terminal row row' : row_next row row' → row.(row_state) = "terminal" → row' = row.
Proof. intros [|H|? ? ? [H|H] _]; [done|congruence..]. Qed.

Lemma runs_terminal s l s' c row :
  runs s l s' → s.1 !! c = Some row → row.(row_state) = "terminal" →
  (∀ b, Purged b ∈ l → b < row.(expires_at)) → s'.1 !! c = Some row.
Proof.
  induction 1 as [s|s l s' l' s'' _ IH Hs]; intros Hr Ht Hb; [done|].
  specialize (IH Hr Ht ltac:(set_solver)).
  destruct (step_row _ _ _ _ _ Hs IH) as (row' & Hr' & Hn); [set_solver|].
  by rewrite (row_next_terminal _ _ Hn Ht) in Hr'.
Qed.

(** ** A key is granted once *)

Lemma step_granted s l s' k e :
  sys_step s l s' → Granted k e ∈ l →
  l = [Granted k e] ∧ s.1 !! columns k = None ∧
  ∃ row, s'.1 !! columns k = Some row ∧ row.(expires_at) = e.
Proof.
  intros Hs Hl. destruct Hs as [|t cs i c Hc| | | | |]; simpl in *; try set_solver.
  unfold granted, client_step in *. destruct (c_phase c) as [|e'| |r]; try set_solver.
  unfold reserve_insert in *. destruct (t !! columns (rv_key (c_request c))) eqn:Hk; simpl in *; [set_solver|].
  apply list_elem_of_singleton in Hl as [= -> ->]. split_and!; [done|done|]. rewrite lookup_insert_eq. eauto.
Qed.

(** Every grant that no purge has reached since still has its row. *)
Definition grants_stand (l : list Entry) (t : gmap (string * string * string) Row) : Prop :=
  ∀ l1 k e l2, l = l1 ++ Granted k e :: l2 → (∀ b, Purged b ∈ l2 → b < e) →
    ∃ row, t !! columns k = Some row ∧ row.(expires_at) = e.

(** Between two grants of a key, a purge reached the first one. *)
Definition grants_apart (l : list Entry) : Prop :=
  ∀ l1 k e l2 k' e' l3, l = l1 ++ Granted k e :: l2 ++ Granted k' e' :: l3 → columns k = columns k' →
    ∃ b, Purged b ∈ l2 ∧ e ≤ b.

Lemma app_cons_split {A} (l l' l1 : list A) x l2 :
  l ++ l' = l1 ++ x :: l2 →
  (∃ m, l = l1 ++ x :: m ∧ l2 = m ++ l') ∨ (∃ m, l' = m ++ x :: l2 ∧ l1 = l ++ m).
Proof.
  revert l1. induction l as [|y l IH]; intros l1 H; simpl in *; [right; eauto|].
  destruct l1 as [|z l1]; simpl in H; [injection H as -> <-; left; eauto|]. injection H as -> H.
  destruct (IH l1 H) as [(m & -> & ->)|(m & -> & ->)]; [left|right]; eauto.
Qed.

Lemma step_stand l s l' s' :
  sys_step s l' s' → grants_stand l s.1 → grants_stand (l ++ l') s'.1.
Proof.
  intros Hs Hi l1 k e l2 Heq Hb. destruct (app_cons_split _ _ _ _ _ Heq) as [(m & -> & ->)|(m & Hl' & ->)].
  - destruct (Hi l1 k e m eq_refl) as (row & Hr & He); [set_solver|].
    destruct (step_row _ _ _ _ _ Hs Hr) as (row' & Hr' & Hn); [rewrite He; set_solver|].
    exists row'. split; [done|]. by rewrite (row_next_expiry _ _ Hn).
  - destruct (step_granted _ _ _ k e Hs) as (_ & _ & Hrow); [set_solver|done].
Qed.

Lemma step_apart l s l' s' :
  sys_step s l' s' → grants_stand l s.1 → grants_apart l → grants_apart (l ++ l').
Proof.
  intros Hs Hst Hi l1 k e l2 k' e' l3 Heq Hk. rewrite app_comm_cons, (assoc (++)) in Heq.
  destruct (app_cons_split _ _ _ _ _ Heq) as [(m & -> & ->)|(m & -> & Hl)].
  - apply (Hi l1 k e l2 k' e' m); [|done]. by rewrite app_comm_cons, (assoc (++)).
  - destruct (step_granted _ _ _ k' e' Hs) as (Hone & Hnone & _); [set_solver|].
    assert (m = []) as ->.
    { destruct m as [|x m]; [done|]. simplify_eq/=. by destruct m. }
    rewrite app_nil_r in Hl. subst l.
    destruct (existsb (λ x, match x with Purged b => e <=? b | _ => false end) l2) eqn:Hex.
    + apply existsb_elem in Hex as ([|b] & Hin & Hb); [done|]. apply Z.leb_le in Hb. eauto.
    + exfalso. destruct (Hst l1 k e l2 eq_refl) as (row & Hr & _); [|congruence].
      intros b Hin. apply Z.nle_gt. intros Hge. apply not_true_iff_false in Hex. apply Hex, existsb_elem.
      exists (Purged b). split; [done|]. by apply Z.leb_le.
Qed.

Lemma runs_grants s l s' :
  runs s l s' → grants_stand l s'.1 ∧ grants_apart l.
Proof.
  induction 1 as [s|s l s' l' s'' _ [IH1 IH2] Hs].
  - split; [intros l1 ? ? ? H|intros l1 ? ? ? ? ? ? H]; by destruct l1.
  - split; [by eapply step_stand|by eapply step_apart].
Qed.

(** C7: a key is granted once.  However the statements of the calls of any
    number of connections interleave, with transitions, results, refusals and
    purges, between two calls that are told to execute the command of a key
    there is a purge at or after the expiry given to the first. *)
Theorem key_granted_once t0 l s l1 k e l2 k' e' l3 :
  runs (t0, []) l s → l = l1 ++ Granted k e :: l2 ++ Granted k' e' :: l3 → columns k = columns k' →
  ∃ b, Purged b ∈ l2 ∧ e ≤ b.
Proof. intros Hr Hl Hk. destruct (runs_grants _ _ _ Hr) as [_ Ha]. by eapply Ha. Qed.

(** ** Rows are readable *)

Definition row_ok (row : Row) : Prop :=
  row.(row_state) = "prepared" ∨ row.(row_state) = "dispatching" ∨
  row.(row_state) = "terminal" ∧
    (row.(public_result_kind) = Some "accepted" ∨
     row.(public_result_kind) = Some "rejected" ∧ is_Some row.(public_result_category) ∧
       is_Some row.(public_result_reason) ∨
     row.(public_result_kind) = Some "orphaned").

Definition table_ok (t : gmap (string * string * string) Row) : Prop := map_Forall (λ _, row_ok) t.

Lemma row_next_ok row row' : row_next row row' → row_ok row → row_ok row'.
Proof.
  intros [|H|kind category reason H Hk] Hr; [done|by right; left|].
  right; right. split; [done|]. simpl. destruct Hk as [->|[(-> & ? & ?)| ->]]; auto.
Qed.

Lemma update_in_none s f k t c : t !! c = None → (update_in s f k t).1 !! c = None.
Proof.
  intros H. unfold update_in. destruct (t !! columns k) eqn:Hk; [|done].
  case_bool_decide; [|done]. simpl. rewrite lookup_insert_ne; [done|congruence].
Qed.

(** The rows after a step come from rows before it, or from an insertion. *)
Lemma step_origin s l s' c row' :
  sys_step s l s' → s'.1 !! c = Some row' →
  (∃ row, s.1 !! c = Some row ∧ row_next row row') ∨ row'.(row_state) = "prepared".
Proof.
  intros Hs Hr'. destruct (s.1 !! c) as [row|] eqn:Hr; [left|].
  - destruct Hs as [|t cs i cl Hc|t cs k from to|t cs k r|t cs k ca re|t cs now|t cs now grace]; simpl in *.
    + exists row. split; [done|]. rewrite Hr in Hr'. simplify_eq. constructor.
    + exists row. split; [done|]. rewrite (client_row _ _ _ _ Hr) in Hr'. simplify_eq. constructor.
    + destruct (transition_row t k from to c row Hr) as (r1 & Hr1 & ?). exists row. by simplify_eq.
    + destruct (finalize_row t k r c row Hr) as (r1 & Hr1 & ?). exists row. by simplify_eq.
    + destruct (reject_row t k ca re c row Hr) as (r1 & Hr1 & ?). exists row. by simplify_eq.
    + apply map_lookup_filter_Some in Hr' as [Hr' _]. exists row. simplify_eq. split; [done|constructor].
    + apply map_lookup_filter_Some in Hr' as [Hr' _]. exists row. simplify_eq. split; [done|constructor].
  - right. destruct Hs as [|t cs i cl Hc|t cs k from to|t cs k r|t cs k ca re|t cs now|t cs now grace]; simpl in *.
    + congruence.
    + unfold client_step, reserve_insert in Hr'. destruct (c_phase cl) as [|e| |r]; simpl in Hr'; try congruence.
      destruct (t !! columns _) eqn:Hk; simpl in Hr'; [congruence|].
      apply lookup_insert_Some in Hr' as [[_ <-]|[_ ?]]; [done|congruence].
    + destruct from, to; simpl in Hr'; try congruence.
      pose proof (update_in_none Prepared (with_row_state Dispatching) k t c Hr) as H.
      destruct (update_in _ _ _ _) as [t' [|]]; simpl in *; congruence.
    + unfold finalize in Hr'. pose proof (λ f, update_in_none Dispatching f k t c Hr) as H.
      specialize (H (match r with ResultAccepted _ => with_result "accepted" None None
        | ResultRejected category reason => with_result "rejected" (Some category) (Some reason)
        | ResultOrphaned reason => with_result "orphaned" None (Some reason) end)).
      destruct (update_in _ _ _ _) as [t' [|]]; simpl in *; congruence.
    + unfold reject_prepared in Hr'.
      pose proof (update_in_none Prepared (with_row_state Dispatching) k t c Hr) as H.
      destruct (update_in Prepared _ _ _) as [t1 [|]]; simpl in *; [|congruence].
      pose proof (update_in_none Dispatching (with_result "rejected" (Some ca) (Some re)) k t1 c H) as H'.
      destruct (update_in Dispatching _ _ _) as [t2 [|]]; simpl in *; congruence.
    + apply map_lookup_filter_Some in Hr' as [Hr' _]. congruence.
    + apply map_lookup_filter_Some in Hr' as [Hr' _]. congruence.
Qed.

Lemma step_ok s l s' : sys_step s l s' → table_ok s.1 → table_ok s'.1.
Proof.
  intros Hs Hok c row' Hr'. destruct (step_origin _ _ _ _ _ Hs Hr') as [(row & Hr & Hn)|Hp]; [|by left].
  eapply row_next_ok; [done|]. by eapply Hok.
Qed.

Lemma runs_ok s l s' : runs s l s' → table_ok s.1 → table_ok s'.1.
Proof. induction 1; eauto using step_ok. Qed.

Lemma row_ok_load t k row :
  t !! columns k = Some row → row_ok row →
  ∃ st, load_record t k = Ok (Some (mkRec row st)) ∧ row.(row_state) = state_as_str st ∧
    is_ok (lookup_result (mkRec row st)) = true.
Proof.
  intros Hr Hok. unfold load_record. rewrite Hr. unfold state_from_str.
  destruct Hok as [Hs|[Hs|[Hs Hk]]]; rewrite Hs.
  - exists Prepared. done.
  - exists Dispatching. done.
  - exists Terminal. split_and!; [done|done|]. unfold lookup_result. simpl.
    destruct Hk as [->|[(-> & [ca ->] & [re ->])| ->]]; done.
Qed.

(** The answer of a record that is over. *)
Definition final_answer (a : LookupResult) : bool :=
  match a with LookupAccepted _ | LookupRejected _ _ _ | LookupOrphaned _ _ => true | _ => false end.
Definition answer_expiry (a : LookupResult) : Z :=
  match a with
  | LookupAccepted e | LookupRejected _ _ e | OutcomeUnknown e | LookupOrphaned e _ => e
  | LookupExpired => 0
  end.

Lemma lookup_final t k now a :
  lookup t k now = Ok a → final_answer a = true →
  ∃ row, t !! columns k = Some row ∧ row.(row_state) = "terminal" ∧ now < row.(expires_at) ∧
    answer_expiry a = row.(expires_at).
Proof.
  unfold lookup, load_record. destruct (t !! columns k) as [row|] eqn:Hr; simpl; [|intros [= <-]; done].
  intros H Ha. apply bind_Ok in H as (r & Hst & H). apply bind_Ok in Hst as (st & Hst & [= <-]).
  simpl in H. destruct (Z.leb_spec row.(expires_at) now); [by simplify_eq|].
  exists row. unfold lookup_result in H. simpl in H. unfold state_from_str in Hst.
  repeat (case_bool_decide || simplify_eq/=); try done.
  split_and!; [done..|]. destruct (public_result_kind row) as [kind|]; [|done].
  repeat case_bool_decide; simplify_eq/=; [done| |done].
  apply bind_Ok in H as (ca & _ & H). apply bind_Ok in H as (re & _ & H). by simplify_eq.
Qed.

Lemma lookup_row t t' k now : t' !! columns k = t !! columns k → lookup t' k now = lookup t k now.
Proof. intros H. unfold lookup, load_record. by rewrite H. Qed.

(** An answer is final.  In a table reached from an empty one, every read
    succeeds: no record is corrupt.  Once the answer of a key is a result, it is
    the answer until its expiry, whatever any number of connections do: calls,
    transitions, results, refusals and the purges made before that expiry. *)
Lemma final_answer_stays l0 t cs l t' cs' k now a :
  runs (∅, []) l0 (t, cs) → lookup t k now = Ok a →
  runs (t, cs) l (t', cs') → (∀ b, Purged b ∈ l → b < answer_expiry a) →
  is_ok (lookup t' k now) = true ∧ (final_answer a = true → lookup t' k now = Ok a).
Proof.
  intros Hr0 Hl Hr Hb. split.
  - assert (table_ok t') as Hok.
    { apply (runs_ok _ _ _ Hr), (runs_ok _ _ _ Hr0). simpl. apply map_Forall_empty. }
    unfold lookup. destruct (t' !! columns k) as [row|] eqn:Hk.
    + destruct (row_ok_load t' k row Hk (Hok _ _ Hk)) as (st & -> & _ & Hlr). simpl. by destruct (_ <=? _).
    + unfold load_record. by rewrite Hk.
  - intros Ha. destruct (lookup_final _ _ _ _ Hl Ha) as (row & Hk & Ht & _ & He).
    rewrite <-Hl. apply lookup_row. rewrite Hk.
    apply (runs_terminal _ _ _ _ _ Hr Hk Ht). intros b Hin. rewrite <-He. by apply Hb.
Qed.

(** ** A call takes effect at one instant *)

(** What the checks of a call have established before its insertion. *)
Definition checked (q : Request) (e : Z) : Prop :=
  validate_canonical_bytes q.(rv_bytes) = Ok () ∧
  (i64_saturating_add q.(rv_now) (Z.max q.(rv_tolerance_secs) 0) <? q.(rv_issued_at)) = false ∧
  (q.(rv_horizon_secs) <=? 0) = false ∧
  i64_checked_add q.(rv_issued_at) q.(rv_horizon_secs) = Some e ∧ (e <=? q.(rv_now)) = false.

Definition client_ok (c : Client) : Prop :=
  match c.(c_phase) with
  | AtInsert e => checked c.(c_request) e
  | AtReplay => ∃ e, checked c.(c_request) e
  | _ => True
  end.

Lemma reserve_check_inr t q e : reserve_check t q = Ok (inr e) → checked q e.
Proof.
  unfold reserve_check, checked. intros H. apply bind_Ok in H as ([] & -> & H).
  destruct (_ <? _); [done|]. apply bind_Ok in H as ([r|] & _ & H); [done|].
  destruct (_ <=? 0); [done|]. apply bind_Ok in H as (e' & He%ok_or_Ok & H).
  rewrite He. destruct (e' <=? _) eqn:Hle; simplify_eq/=. done.
Qed.

Lemma reserve_check_checked t q e :
  checked q e →
  reserve_check t q = (replay ← replay_existing t q.(rv_key) q.(rv_bytes) q.(rv_now);
                       Ok (match replay with Some r => inl r | None => inr e end)).
Proof.
  intros (H1 & H2 & H3 & H4 & H5). unfold reserve_check. rewrite H1. simpl. rewrite H2.
  destruct (replay_existing _ _ _ _) as [[r|]|]; simpl; [done| |done].
  rewrite H3, H4. simpl. by rewrite H5.
Qed.

Lemma client_step_ok t c : client_ok c → client_ok (mkClient c.(c_request) (client_step t c).2).
Proof.
  unfold client_ok, client_step. destruct (c_phase c) as [|e| |r]; simpl; [|intros Hc|done..].
  - intros _. destruct (reserve_check t (c_request c)) as [[r|e]|err] eqn:Hc; simpl; [done| |done].
    by eapply reserve_check_inr.
  - destruct (reserve_insert _ _ _) as [t' [|[|n]]]; simpl; eauto.
Qed.

Lemma step_clients s l s' : sys_step s l s' → Forall client_ok s.2 → Forall client_ok s'.2.
Proof.
  intros Hs Hc. destruct Hs as [t cs q|t cs i c Hi| | | | |]; simpl in *; try done.
  - apply Forall_app. split; [done|]. by apply Forall_singleton.
  - apply Forall_insert; [done|]. apply client_step_ok. by eapply Forall_lookup_1.
Qed.

Lemma runs_clients s l s' : runs s l s' → Forall client_ok s.2 → Forall client_ok s'.2.
Proof. induction 1; eauto using step_clients. Qed.

(** C8: calls of [reserve] are atomic in effect.  However their statements
    interleave with other connections, the statement that ends a call leaves the
    table and returns the answer that the whole of [reserve], run alone at that
    instant, would leave and return; the one exception is the error for a record
    that another connection purged between the conflict and its reading. *)
Theorem reserve_linearizable t0 l t cs i c t' r :
  runs (t0, []) l (t, cs) → cs !! i = Some c → (∀ r', c.(c_phase) ≠ Done r') →
  client_step t c = (t', Done r) →
  reserve t c.(c_request) = (t', r) ∨
  (c.(c_phase) = AtReplay ∧ t !! columns c.(c_request).(rv_key) = None ∧ r = Err MissingRecord).
Proof.
  intros Hr Hi Hnd Hs. assert (client_ok c) as Hc.
  { apply (Forall_lookup_1 _ _ _ _ (runs_clients _ _ _ Hr ltac:(constructor)) Hi). }
  unfold client_ok in Hc. unfold client_step in Hs. destruct (c_phase c) as [|e| |r'] eqn:Hp.
  - left. unfold reserve. destruct (reserve_check _ _) as [[a|e]|err]; by simplify_eq.
  - left. unfold reserve. rewrite (reserve_check_checked _ _ _ Hc).
    unfold reserve_insert, replay_existing, load_record in *.
    destruct (t !! columns _) eqn:Hk; by simplify_eq/=.
  - destruct Hc as [e Hc]. simplify_eq. destruct (t' !! columns _) as [row|] eqn:Hk; [left|right].
    + unfold reserve. rewrite (reserve_check_checked _ _ _ Hc). unfold reserve_replay.
      destruct (replay_existing _ _ _ _) as [[a|]|err] eqn:Hrep; simpl; [done| |done].
      exfalso. unfold replay_existing, load_record in Hrep. rewrite Hk in Hrep.
      apply bind_Ok in Hrep as (r & Hl & Hrep). apply bind_Ok in Hl as (st & _ & [= <-]).
      simpl in Hrep. destruct (_ <=? _); [done|]. destruct (negb _); [done|].
      by apply bind_Ok in Hrep as (? & _ & [=]).
    + unfold reserve_replay, replay_existing, load_record. by rewrite Hk.
  - by destruct (Hnd r').
Qed.

(** ** The life of a key *)

Definition public_answer (r : PublicResult) (e : Z) : LookupResult :=
  match r with
  | ResultAccepted _ => LookupAccepted e
  | ResultRejected category reason => LookupRejected category reason e
  | ResultOrphaned reason => LookupOrphaned e reason
  end.

Lemma reserve_granted t q t1 e :
  reserve t q = (t1, Ok (ReservedPrepared e)) →
  checked q e ∧
  t1 = <[columns q.(rv_key) := mkRecordRow q.(rv_bytes) "prepared" None None None q.(rv_issued_at) e]> t.
Proof.
  unfold reserve. destruct (reserve_check t q) as [[a|e']|err] eqn:Hc; [|  |done].
  - intros [= -> ->]. exfalso. unfold reserve_check in Hc. apply bind_Ok in Hc as (_ & _ & Hc).
    destruct (_ <? _); [done|]. apply bind_Ok in Hc as ([r|] & Hrep & Hc); simplify_eq/=.
    + unfold replay_existing in Hrep. apply bind_Ok in Hrep as ([r|] & _ & Hrep); [|done].
      destruct (_ <=? _); [done|]. destruct (negb _); [done|]. by apply bind_Ok in Hrep as (? & _ & [=]).
    + destruct (_ <=? 0); [done|]. apply bind_Ok in Hc as (e' & _ & Hc). by destruct (_ <=? _).
  - pose proof (reserve_check_inr _ _ _ Hc) as Hck. unfold reserve_insert.
    destruct (t !! columns _) as [row|] eqn:Hk; [|intros [= <- <-]; done].
    rewrite (reserve_check_checked _ _ _ Hck) in Hc. apply bind_Ok in Hc as ([a|] & Hrep & Hc); [done|].
    unfold replay_existing, load_record in Hrep. rewrite Hk in Hrep.
    apply bind_Ok in Hrep as (r & Hl & Hrep). apply bind_Ok in Hl as (st & _ & [= <-]). simpl in Hrep.
    destruct (_ <=? _); [done|]. destruct (negb _); [done|]. by apply bind_Ok in Hrep as (? & _ & [=]).
Qed.

Lemma replay_row t q e row st :
  t !! columns q.(rv_key) = Some row → row.(row_state) = state_as_str st → checked q e →
  q.(rv_now) < row.(expires_at) →
  reserve t q =
    (t, if bool_decide (row.(canonical_bytes) = q.(rv_bytes))
        then (r ← lookup_result (mkRec row st); Ok (Replayed r)) else Ok EnvelopeMismatch).
Proof.
  intros Hk Hs Hc Hn. unfold reserve. rewrite (reserve_check_checked _ _ _ Hc).
  unfold replay_existing, load_record. rewrite Hk, Hs.
  assert (state_from_str (state_as_str st) = Ok st) as -> by by destruct st.
  simpl. rewrite (proj2 (Z.leb_gt _ _) Hn). case_bool_decide; simpl; [|done].
  by destruct (lookup_result _).
Qed.

(** The life of a key.  After a call that is granted, the same request is
    answered that its outcome is unknown, and another request under the same key
    that its envelope differs, until the command is dispatched and its result
    recorded; from then on the same request gets that result. *)
Lemma key_lifecycle t q t1 e q' e' r :
  reserve t q = (t1, Ok (ReservedPrepared e)) →
  columns q'.(rv_key) = columns q.(rv_key) → checked q' e' → q'.(rv_now) < e →
  let same := bool_decide (q.(rv_bytes) = q'.(rv_bytes)) in
  let t2 := (transition t1 q.(rv_key) Prepared Dispatching).1 in
  let t3 := (finalize t2 q.(rv_key) r).1 in
  reserve t1 q' = (t1, Ok (if same then Replayed (OutcomeUnknown e) else EnvelopeMismatch)) ∧
  (transition t1 q.(rv_key) Prepared Dispatching).2 = Ok () ∧
  reserve t2 q' = (t2, Ok (if same then Replayed (OutcomeUnknown e) else EnvelopeMismatch)) ∧
  (finalize t2 q.(rv_key) r).2 = Ok () ∧
  reserve t3 q' = (t3, Ok (if same then Replayed (public_answer r e) else EnvelopeMismatch)) ∧
  (finalize t1 q.(rv_key) r).2 = Err (InvalidTransition Prepared Terminal).
Proof.
  intros Hg Hk Hc Hn. destruct (reserve_granted _ _ _ _ Hg) as [_ Ht1].
  assert (t1 !! columns q.(rv_key) =
    Some (mkRecordRow q.(rv_bytes) "prepared" None None None q.(rv_issued_at) e)) as H1
    by (subst t1; by rewrite lookup_insert_eq).
  cbv zeta. unfold transition. rewrite (update_in_hit _ _ _ _ _ H1) by done. cbn [fst snd].
  set (t2 := <[columns q.(rv_key) := _]> t1).
  assert (t2 !! columns q.(rv_key) =
    Some (mkRecordRow q.(rv_bytes) "dispatching" None None None q.(rv_issued_at) e)) as H2
    by (unfold t2; by rewrite lookup_insert_eq).
  unfold finalize. rewrite (update_in_hit _ _ _ _ _ H2), (update_in_miss _ _ _ _ _ H1) by done.
  cbn [fst snd]. unfold load_record. rewrite H1. rewrite <-Hk in H1, H2. split_and!; try done.
  - rewrite (replay_row _ _ _ _ Prepared H1 eq_refl Hc Hn). simpl. by case_bool_decide.
  - rewrite (replay_row _ _ _ _ Dispatching H2 eq_refl Hc Hn). simpl. by case_bool_decide.
  - erewrite (replay_row _ _ _ _ Terminal); [|rewrite Hk; apply lookup_insert_eq|by destruct r|done|by destruct r].
    destruct r; simpl; by case_bool_decide.
Qed.

Module IdempotencyExamples.

Definition key1 : IdempotencyKey := mkKey "012345678901234567890123" Send "k1".
Definition ask (bytes : string) (now : Z) : Request := mkReserve key1 bytes now 100 now 5.
Definition granted_table : gmap (string * string * string) Row := (reserve ∅ (ask "hello" 10)).1.
Definition at_insert (bytes : string) (now : Z) : Client := mkClient (ask bytes now) (AtInsert (now + 100)).
Definition over (bytes : string) (now : Z) : Client :=
  mkClient (ask bytes now) (Done (Ok (ReservedPrepared (now + 100)))).

(** Two calls that both passed their checks: one is granted, the other replays. *)
Example two_calls :
  let t1 := (client_step ∅ (at_insert "hello" 10)).1 in
  (client_step ∅ (at_insert "hello" 10)).2 = Done (Ok (ReservedPrepared 110)) ∧
  (client_step t1 (at_insert "hello" 10)).2 = AtReplay ∧
  (client_step t1 (mkClient (ask "hello" 10) AtReplay)).2 = Done (Ok (Replayed (OutcomeUnknown 110))).
Proof. vm_compute. done. Qed.

(** One call, step by step, and a purge of what expired by 200. *)
Definition q1 : Request := ask "hello" 10.
Definition q2 : Request := ask "hello" 300.
Definition run_client (i : nat) (s : gmap (string * string * string) Row * list Client)
    : gmap (string * string * string) Row * list Client :=
  match s.2 !! i with
  | Some c => ((client_step s.1 c).1, <[i := mkClient c.(c_request) (client_step s.1 c).2]> s.2)
  | None => s
  end.
Definition s_empty : gmap (string * string * string) Row * list Client := (∅, []).
Definition s_called : gmap (string * string * string) Row * list Client := (∅, [mkClient q1 AtCheck]).
Definition s_granted : gmap (string * string * string) Row * list Client := run_client 0 (run_client 0 s_called).
Definition s_purged : gmap (string * string * string) Row * list Client := ((purge_expired s_granted.1 200).1, s_granted.2).
Definition s_again : gmap (string * string * string) Row * list Client :=
  run_client 1 (run_client 1 (s_purged.1, s_purged.2 ++ [mkClient q2 AtCheck])).

Lemma run_client_step i s l c :
  s.2 !! i = Some c → granted c (client_step s.1 c).2 = l → sys_step s l (run_client i s).
Proof. intros H <-. unfold run_client. rewrite H. destruct s. by apply step_client. Qed.

Lemma run_granted : runs s_empty [Granted key1 110] s_granted.
Proof.
  apply (runs_snoc _ [] (run_client 0 s_called)); [apply (runs_snoc _ [] s_called [])|].
  - apply (runs_snoc _ [] s_empty []); [apply runs_nil|apply (step_call ∅ [] q1)].
  - apply (run_client_step 0 s_called [] (mkClient q1 AtCheck)); [reflexivity|vm_compute; reflexivity].
  - apply (run_client_step 0 _ _ (mkClient q1 (AtInsert 110))); vm_compute; reflexivity.
Qed.

Lemma run_again : runs s_empty [Granted key1 110; Purged 200; Granted key1 400] s_again.
Proof.
  set (s3 := (s_purged.1, s_purged.2 ++ [mkClient q2 AtCheck])).
  apply (runs_snoc _ [Granted key1 110; Purged 200] (run_client 1 s3));
    [apply (runs_snoc _ [Granted key1 110; Purged 200] s3 []);
     [apply (runs_snoc _ [Granted key1 110; Purged 200] s_purged []);
      [apply (runs_snoc _ [Granted key1 110] s_granted [Purged 200]); [apply run_granted|]|]|]|].
  - apply (step_purge s_granted.1 s_granted.2 200).
  - apply (step_call s_purged.1 s_purged.2 q2).
  - apply (run_client_step 1 s3 [] (mkClient q2 AtCheck)); vm_compute; reflexivity.
  - apply (run_client_step 1 _ _ (mkClient q2 (AtInsert 400))); vm_compute; reflexivity.
Qed.

Lemma key_granted_once_witness : ∃ b, Purged b ∈ [Purged 200] ∧ 110 ≤ b.
Proof.
  apply (key_granted_once ∅ [Granted key1 110; Purged 200; Granted key1 400] s_again [] key1 110 [Purged 200] key1 400 []).
  - apply run_again.
  - reflexivity.
  - reflexivity.
Defined.

(** The command is dispatched and its result recorded after the grant. *)
Definition s_final : gmap (string * string * string) Row :=
  (finalize (transition s_granted.1 key1 Prepared Dispatching).1 key1 (ResultAccepted 110)).1.

Lemma run_final : runs s_empty [Granted key1 110] (s_final, s_granted.2).
Proof.
  apply (runs_snoc _ [Granted key1 110] ((transition s_granted.1 key1 Prepared Dispatching).1, s_granted.2) []);
    [apply (runs_snoc _ [Granted key1 110] s_granted []); [apply run_granted|]|].
  - apply (step_transition s_granted.1 s_granted.2).
  - apply step_finalize.
Qed.

Lemma final_answer_stays_witness :
  is_ok (lookup (reject_prepared s_final key1 "x" "y").1 key1 50) = true ∧
  (true = true → lookup (reject_prepared s_final key1 "x" "y").1 key1 50 = Ok (LookupAccepted 110)).
Proof.
  apply (final_answer_stays [Granted key1 110] s_final s_granted.2 [] _ s_granted.2 key1 50 (LookupAccepted 110)).
  - apply run_final.
  - vm_compute. reflexivity.
  - apply (runs_snoc _ [] (s_final, s_granted.2) []); [constructor|]. apply step_reject.
  - intros b Hb. by apply not_elem_of_nil in Hb.
Defined.

Lemma reserve_linearizable_witness :
  reserve ∅ q1 = ((client_step ∅ (at_insert "hello" 10)).1, Ok (ReservedPrepared 110)) ∨
  (AtInsert 110 = AtReplay ∧ (∅ : gmap (string * string * string) Row) !! columns key1 = None ∧
   Ok (ReservedPrepared 110) = Err MissingRecord).
Proof.
  apply (reserve_linearizable ∅ [] ∅ [at_insert "hello" 10] 0 (at_insert "hello" 10)).
  - apply (runs_snoc _ [] s_called []); [apply (runs_snoc _ [] s_empty []); [apply runs_nil|apply (step_call ∅ [] q1)]|].
    replace ((∅ : gmap (string * string * string) Row), [at_insert "hello" 10]) with (run_client 0 s_called)
      by (vm_compute; reflexivity).
    apply (run_client_step 0 s_called [] (mkClient q1 AtCheck)); [reflexivity|vm_compute; reflexivity].
  - reflexivity.
  - discriminate.
  - rewrite (surjective_pairing (client_step ∅ (at_insert "hello" 10))) at 1. reflexivity.
Defined.

Lemma key_lifecycle_witness :
  reserve granted_table (ask "hello" 20) = (granted_table, Ok (Replayed (OutcomeUnknown 110))).
Proof.
  apply (key_lifecycle ∅ (ask "hello" 10) granted_table 110 (ask "hello" 20) 120 (ResultAccepted 110)).
  - unfold granted_table. rewrite (surjective_pairing (reserve ∅ (ask "hello" 10))) at 1. reflexivity.
  - reflexivity.
  - unfold checked. split_and!; vm_compute; reflexivity.
  - reflexivity.
Defined.

End IdempotencyExamples.
