(* ===== verification/AgentLinks.v ===== *)
(** * Agent links: [bridget-daemon/src/idempotency/agent_links.rs]

    The durable ownership of a child agent by a parent: the table of links, the
    journal of their changes, the runtime events of a child that its parent must
    acknowledge; and the two operations of [fleet.rs] that create and move a link
    under the rules of depth, quota and ancestry.  SHA-256 is an argument. *)

From Stdlib Require Import Ascii.
From S2P Require Import Prelude Text Sql.
Local Open Scope Z_scope.

Inductive AgentLinkState := Reserved | Open | Transferred | Closed | Orphaned.
#[export] Instance AgentLinkState_eq_dec : EqDecision AgentLinkState.
Proof. solve_decision. Defined.

Definition link_state_as_str (s : AgentLinkState) : string :=
  match s with
  | Reserved => "reserved" | Open => "open" | Transferred => "transferred"
  | Closed => "closed" | Orphaned => "orphaned"
  end.

Inductive LinkError :=
  | InvalidAgentLink
  | AgentLinkOwned
  | LinkDispatchUnavailable
  | InvalidDelegatedRuntimeEvent
  | LinkCorrupt (what : string)
  | LinkSqlite (what : string).
#[export] Instance LinkError_eq_dec : EqDecision LinkError.
Proof. solve_decision. Defined.

Definition link_state_from_str (value : string) : result LinkError AgentLinkState :=
  if bool_decide (value = "reserved") then Ok Reserved
  else if bool_decide (value = "open") then Ok Open
  else if bool_decide (value = "transferred") then Ok Transferred
  else if bool_decide (value = "closed") then Ok Closed
  else if bool_decide (value = "orphaned") then Ok Orphaned
  else Err (LinkCorrupt "état de lien agent inconnu").

Definition owns_child (s : AgentLinkState) : bool :=
  match s with Reserved | Open | Transferred => true | _ => false end.

Record ProjectReference := mkProjectRef { project_id : string; binding_generation : Z }.
#[export] Instance ProjectReference_eq_dec : EqDecision ProjectReference.
Proof. solve_decision. Defined.

Record AgentLinkRecord := mkLink {
  link_id : string;
  parent_instance_id : string;
  child_instance_id : string;
  parent_execution_id : option string;
  objective_id : option string;
  delegation_id : option string;
  link_project : option ProjectReference;
  role : string;
  agent_path : string;
  link_state : AgentLinkState;
  created_at : Z;
  closed_at : option Z;
  revision : Z }.
#[export] Instance AgentLinkRecord_eq_dec : EqDecision AgentLinkRecord.
Proof. solve_decision. Defined.

(** [event_id] is the link and its revision; the cursor is the row number. *)
Record AgentLinkEvent := mkLinkEvent {
  cursor : Z;
  event_id : string;
  e_link_id : string;
  e_parent : string;
  e_child : string;
  e_state : AgentLinkState;
  e_observed_at : Z;
  e_project : option ProjectReference }.

Inductive DelegatedRuntimeEventKind := Warning | FailedEvent.
Definition kind_as_str (k : DelegatedRuntimeEventKind) : string :=
  match k with Warning => "warning" | FailedEvent => "failed" end.

Record DelegatedRuntimeEventInput := mkInput {
  in_child_instance_id : string;
  in_child_execution_id : string;
  in_kind : DelegatedRuntimeEventKind;
  in_code : string;
  in_reference : string;
  in_observed_at : Z }.

Record DelegatedRuntimeEventRecord := mkRuntimeEvent {
  re_cursor : Z;
  re_event_id : string;
  re_link_id : string;
  re_parent : string;
  re_child : string;
  re_input : DelegatedRuntimeEventInput;
  re_acknowledged_at : option Z;
  re_project : option ProjectReference }.

Record LinkDb := mkLinkDb {
  links : list AgentLinkRecord;
  link_events : list AgentLinkEvent;
  runtime_events : list DelegatedRuntimeEventRecord }.

(** ** Reads *)

Definition blank (s : string) : bool := bool_decide (Str.trim s = "").

(** [agent_link_from_row]: a row whose project is not well formed cannot be read. *)
Definition project_reference_from_parts (p : option ProjectReference) : bool :=
  match p with
  | None => true
  | Some p => negb (blank p.(project_id)) && (0 <? p.(binding_generation))
  end.
Definition agent_link_from_row (l : AgentLinkRecord) : result LinkError AgentLinkRecord :=
  if project_reference_from_parts l.(link_project) then Ok l else Err InvalidAgentLink.

Definition by_child (child : string) (l : AgentLinkRecord) : bool := bool_decide (l.(child_instance_id) = child).
Definition by_link (id : string) (l : AgentLinkRecord) : bool := bool_decide (l.(link_id) = id).

Definition read_optional (o : option AgentLinkRecord) : result LinkError (option AgentLinkRecord) :=
  match o with Some l => l ← agent_link_from_row l; Ok (Some l) | None => Ok None end.

Definition agent_link_for_child (db : LinkDb) (child : string) : result LinkError (option AgentLinkRecord) :=
  read_optional (select_one (by_child child) db.(links)).
Definition agent_link_by_id (db : LinkDb) (id : string) : result LinkError (option AgentLinkRecord) :=
  read_optional (select_one (by_link id) db.(links)).

(** The rows of a result, or the first error. *)
Fixpoint read_all (l : list AgentLinkRecord) : result LinkError (list AgentLinkRecord) :=
  match l with
  | [] => Ok []
  | x :: l => x ← agent_link_from_row x; l ← read_all l; Ok (x :: l)
  end.

Definition active_of (parent : string) (l : AgentLinkRecord) : bool :=
  bool_decide (l.(parent_instance_id) = parent) && owns_child l.(link_state).

(** [ORDER BY created_at, link_id], with the order of the bytes of a text. *)
Definition link_order (a b : AgentLinkRecord) : bool :=
  (a.(created_at) <? b.(created_at)) ||
  ((a.(created_at) =? b.(created_at)) && String.leb a.(link_id) b.(link_id)).

Definition open_agent_links_for_parent (db : LinkDb) (parent : string) : result LinkError (list AgentLinkRecord) :=
  read_all (sort_by link_order (select (active_of parent) db.(links))).

(** [LIKE] compares the ASCII letters without their case. *)
Definition like_under (path p : string) : bool :=
  Str.starts_with (Str.lowercase (path +:+ "/")) (Str.lowercase p).

Definition open_agent_link_descendant_counts (db : LinkDb) (instance : string) : result LinkError (Z * Z) :=
  let direct := count_if (active_of instance) db.(links) in
  l ← agent_link_for_child db instance;
  let path := from_option agent_path instance l in
  let descendants := count_if (λ l, like_under path l.(agent_path) && owns_child l.(link_state)) db.(links) in
  Ok (Z.of_nat direct, Z.of_nat descendants).

(** At most 128 events of a parent after a cursor. *)
Definition PAGE : nat := 128.
Definition after_of (parent : string) (c : Z) (e : AgentLinkEvent) : bool :=
  bool_decide (e.(e_parent) = parent) && (c <? e.(cursor)).
Definition agent_link_events_after (db : LinkDb) (parent : string) (after_cursor : option Z) : list AgentLinkEvent :=
  take PAGE (select (after_of parent (Z.min (default 0 after_cursor) i64_max)) db.(link_events)).

(** ** The journal *)

Definition event_key (l : AgentLinkRecord) : string := l.(link_id) +:+ ":" +:+ pretty l.(revision).

(** [INSERT OR IGNORE]: a row of the same event is kept as it is. *)
Definition record_agent_link_event (l : AgentLinkRecord) (observed_at : Z) (db : LinkDb) : LinkDb :=
  if exists_row (λ e, bool_decide (e.(event_id) = event_key l)) db.(link_events) then db
  else
    mkLinkDb db.(links)
      (db.(link_events) ++
        [mkLinkEvent (Z.of_nat (length db.(link_events)) + 1) (event_key l) l.(link_id) l.(parent_instance_id)
           l.(child_instance_id) l.(link_state) (Z.max observed_at l.(created_at)) l.(link_project)])
      db.(runtime_events).

Definition set_links (ls : list AgentLinkRecord) (db : LinkDb) : LinkDb :=
  mkLinkDb ls db.(link_events) db.(runtime_events).

(** ** Operations on links *)

Definition create_valid (l : AgentLinkRecord) : bool :=
  negb (blank l.(link_id)) && negb (blank l.(parent_instance_id)) && negb (blank l.(child_instance_id))
  && negb (blank l.(role)) && negb (blank l.(agent_path)) && (0 <? l.(created_at)) && (l.(revision) =? 0)
  && bool_decide (l.(link_state) = Reserved) && negb (is_some l.(closed_at)).

Definition create_agent_link (db : LinkDb) (l : AgentLinkRecord) : LinkDb * result LinkError () :=
  if negb (create_valid l) then (db, Err InvalidAgentLink)
  else if is_some_and l.(link_project) (λ p, i64_max <? p.(binding_generation)) then (db, Err InvalidAgentLink)
  else
    match select_one (by_child l.(child_instance_id)) db.(links) with
    | Some existing =>
      (db, existing ← agent_link_from_row existing;
           if bool_decide (existing = l) then Ok () else Err AgentLinkOwned)
    | None =>
      if exists_row (by_link l.(link_id)) db.(links)
      then (db, Err (LinkSqlite "UNIQUE constraint failed: agent_links.link_id"))
      else (record_agent_link_event l l.(created_at) (set_links (db.(links) ++ [l]) db), Ok ())
    end.

Definition with_link_state (s : AgentLinkState) (closed : option Z) (l : AgentLinkRecord) : AgentLinkRecord :=
  mkLink l.(link_id) l.(parent_instance_id) l.(child_instance_id) l.(parent_execution_id) l.(objective_id)
    l.(delegation_id) l.(link_project) l.(role) l.(agent_path) s l.(created_at) closed (l.(revision) + 1).

Definition transition_agent_link (db : LinkDb) (id : string) (allowed : list AgentLinkState)
    (next : AgentLinkState) (changed_at : Z) : LinkDb * result LinkError AgentLinkRecord :=
  match agent_link_by_id db id with
  | Err e => (db, Err e)
  | Ok None => (db, Err (LinkCorrupt "lien agent absent"))
  | Ok (Some current) =>
    if bool_decide (current.(link_state) = next) then (db, Ok current)
    else if negb (bool_decide (current.(link_state) ∈ allowed)) then (db, Err InvalidAgentLink)
    else
      let changed_at := Z.max changed_at current.(created_at) in
      let closed := if bool_decide (next = Closed) then Some changed_at else None in
      let p := λ l, by_link id l && (l.(revision) =? current.(revision)) in
      if negb (updated p db.(links) =? 1)%nat then (db, Err LinkDispatchUnavailable)
      else
        let db' := set_links (update p (with_link_state next closed) db.(links)) db in
        match agent_link_by_id db' id with
        | Ok (Some l) => (record_agent_link_event l changed_at db', Ok l)
        | Ok None => (db, Err (LinkSqlite "query returned no rows"))
        | Err e => (db, Err e)
        end
  end.

(** The rows are changed at once, then one event is written for each of them. *)
Definition orphan_agent_links_for_parent (db : LinkDb) (parent : string) (observed_at : Z)
    : LinkDb * result LinkError nat :=
  match read_all (select (active_of parent) db.(links)) with
  | Err e => (db, Err e)
  | Ok active =>
    let orphaned := λ l : AgentLinkRecord, with_link_state Orphaned l.(closed_at) l in
    let db' := set_links (update (active_of parent) orphaned db.(links)) db in
    (foldl (λ db l, record_agent_link_event (with_link_state Orphaned None l) observed_at db) db' active,
     Ok (updated (active_of parent) db.(links)))
  end.

Definition with_parent (parent path : string) (l : AgentLinkRecord) : AgentLinkRecord :=
  mkLink l.(link_id) parent l.(child_instance_id) l.(parent_execution_id) l.(objective_id)
    l.(delegation_id) l.(link_project) l.(role) path Transferred l.(created_at) None (l.(revision) + 1).

Definition transfer_agent_link (db : LinkDb) (id parent path : string) (observed_at : Z)
    : LinkDb * result LinkError AgentLinkRecord :=
  if blank parent || blank path then (db, Err InvalidAgentLink)
  else
    match agent_link_by_id db id with
    | Err e => (db, Err e)
    | Ok None => (db, Err (LinkCorrupt "lien agent absent"))
    | Ok (Some current) =>
      if bool_decide (current.(link_state) = Closed) then (db, Err InvalidAgentLink)
      else
        let p := λ l, by_link id l && (l.(revision) =? current.(revision)) in
        if negb (updated p db.(links) =? 1)%nat then (db, Err LinkDispatchUnavailable)
        else
          let db' := set_links (update p (with_parent parent path) db.(links)) db in
          match agent_link_by_id db' id with
          | Ok (Some l) => (record_agent_link_event l observed_at db', Ok l)
          | Ok None => (db, Err (LinkSqlite "query returned no rows"))
          | Err e => (db, Err e)
          end
    end.

(** ** The runtime events of a child *)

Definition runtime_token_byte (c : ascii) : bool :=
  Str.is_ascii_alphanumeric c || bool_decide (c = "_"%char) || bool_decide (c = "-"%char) || bool_decide (c = "."%char).
Definition runtime_token (limit : nat) (v : string) : bool :=
  negb (bool_decide (v = "")) && (String.length v <=? limit)%nat && Str.all_bytes runtime_token_byte v.
Definition is_ascii_hexdigit (c : ascii) : bool :=
  let b := byte c in
  ((48 <=? b) && (b <=? 57)) || ((65 <=? b) && (b <=? 70)) || ((97 <=? b) && (b <=? 102)).

Definition validate_delegated_runtime_event_input (i : DelegatedRuntimeEventInput) : bool :=
  let reference := default "" (Str.strip_prefix "sha256:" i.(in_reference)) in
  runtime_token 256 i.(in_child_instance_id) && runtime_token 256 i.(in_child_execution_id)
  && runtime_token 128 i.(in_code) && (String.length reference =? 64)%nat
  && Str.all_bytes is_ascii_hexdigit reference && (0 <? i.(in_observed_at)).

(** [(len as u64).to_be_bytes()]. *)
Fixpoint be_bytes (n : nat) (z : Z) : string :=
  match n with
  | O => EmptyString
  | S n => be_bytes n (z / 256) +:+ String (ascii_of_nat (Z.to_nat (z mod 256))) EmptyString
  end.
Definition framed (part : string) : string := be_bytes 8 (Z.of_nat (String.length part)) +:+ part.

Definition runtime_event_preimage (l : AgentLinkRecord) (i : DelegatedRuntimeEventInput) : string :=
  "bridget/delegated-runtime-event/v1" +:+ String (ascii_of_nat 0) EmptyString +:+
  framed l.(link_id) +:+ framed i.(in_child_execution_id) +:+ framed (kind_as_str i.(in_kind)) +:+
  framed i.(in_code) +:+ framed i.(in_reference).

Section Runtime.
(** The hexadecimal SHA-256 of a text. *)
Context (sha256_hex : string → string).

Definition delegated_runtime_event_id (l : AgentLinkRecord) (i : DelegatedRuntimeEventInput) : string :=
  "delegated-runtime:" +:+ sha256_hex (runtime_event_preimage l i).

Definition by_event (id : string) (e : DelegatedRuntimeEventRecord) : bool := bool_decide (e.(re_event_id) = id).

Definition record_delegated_runtime_event (db : LinkDb) (i : DelegatedRuntimeEventInput)
    : LinkDb * result LinkError DelegatedRuntimeEventRecord :=
  if negb (validate_delegated_runtime_event_input i) then (db, Err InvalidDelegatedRuntimeEvent)
  else
    match agent_link_for_child db i.(in_child_instance_id) with
    | Err e => (db, Err e)
    | Ok None => (db, Err InvalidDelegatedRuntimeEvent)
    | Ok (Some l) =>
      let id := delegated_runtime_event_id l i in
      let db' :=
        if exists_row (by_event id) db.(runtime_events) then db
        else mkLinkDb db.(links) db.(link_events)
               (db.(runtime_events) ++
                 [mkRuntimeEvent (Z.of_nat (length db.(runtime_events)) + 1) id l.(link_id)
                    l.(parent_instance_id) l.(child_instance_id) i None l.(link_project)]) in
      match select_one (by_event id) db'.(runtime_events) with
      | Some e => (db', Ok e)
      | None => (db, Err (LinkSqlite "query returned no rows"))
      end
    end.
End Runtime.

Definition delegated_runtime_events_for_parent (db : LinkDb) (parent : string) : list DelegatedRuntimeEventRecord :=
  take PAGE (select (λ e, bool_decide (e.(re_parent) = parent) && negb (is_some e.(re_acknowledged_at)))
               db.(runtime_events)).

Definition acknowledge_with (at_ : Z) (e : DelegatedRuntimeEventRecord) : DelegatedRuntimeEventRecord :=
  mkRuntimeEvent e.(re_cursor) e.(re_event_id) e.(re_link_id) e.(re_parent) e.(re_child) e.(re_input)
    (Some at_) e.(re_project).

(** [now] is the reading of the clock. *)
Definition acknowledge_delegated_runtime_event (db : LinkDb) (id parent : string) (now : Z)
    : LinkDb * result LinkError bool :=
  if blank id || blank parent then (db, Err InvalidDelegatedRuntimeEvent)
  else
    match select_one (by_event id) db.(runtime_events) with
    | None => (db, Err InvalidDelegatedRuntimeEvent)
    | Some e =>
      if negb (bool_decide (e.(re_parent) = parent)) then (db, Err InvalidDelegatedRuntimeEvent)
      else if is_some e.(re_acknowledged_at) then (db, Ok false)
      else
        let p := λ e, by_event id e && bool_decide (e.(re_parent) = parent) && negb (is_some e.(re_acknowledged_at)) in
        if negb (updated p db.(runtime_events) =? 1)%nat then (db, Err LinkDispatchUnavailable)
        else (mkLinkDb db.(links) db.(link_events) (update p (acknowledge_with now) db.(runtime_events)), Ok true)
    end.

(** ** The ownership rules of [fleet.rs] *)

Inductive OwnershipError := Ownership (what : string) | OwnershipStore (e : LinkError).

Definition agent_path_contains (path instance : string) : bool :=
  existsb (λ segment, bool_decide (segment = instance)) (Str.split "/" path).

Record SpawnOwnership := mkOwnership {
  o_parent_instance_id : string;
  o_parent_execution_id : option string;
  o_objective_id : option string;
  o_delegation_id : option string;
  o_role : string;
  max_children : option Z;
  max_depth : option Z }.

(** [link_uuid] is the identifier drawn for the link, [child] the instance of
    the command. *)
Definition reserve_agent_link (db : LinkDb) (child : option string) (own : option SpawnOwnership)
    (project : option ProjectReference) (link_uuid : string) (now : Z)
    : LinkDb * result OwnershipError (option AgentLinkRecord) :=
  match own with
  | None => (db, Ok None)
  | Some own =>
    match open_agent_links_for_parent db own.(o_parent_instance_id) with
    | Err e => (db, Err (OwnershipStore e))
    | Ok children =>
      if is_some_and own.(max_children) (λ limit, limit <=? Z.of_nat (length children))
      then (db, Err (Ownership "quota enfants atteint"))
      else
        match agent_link_for_child db own.(o_parent_instance_id) with
        | Err e => (db, Err (OwnershipStore e))
        | Ok parent =>
          let parent_path := from_option agent_path own.(o_parent_instance_id) parent in
          let child_depth := Z.of_nat (length (Str.split "/" parent_path)) in
          if is_some_and own.(max_depth) (λ limit, limit <? child_depth)
          then (db, Err (Ownership "profondeur maximale atteinte"))
          else
            match child with
            | None => (db, Err (OwnershipStore (LinkCorrupt "instance spawn en vol absente")))
            | Some child =>
              let l := mkLink link_uuid own.(o_parent_instance_id) child own.(o_parent_execution_id)
                         own.(o_objective_id) own.(o_delegation_id) project own.(o_role)
                         (parent_path +:+ "/" +:+ child) Reserved now None 0 in
              match create_agent_link db l with
              | (db', Ok _) => (db', Ok (Some l))
              | (db', Err e) => (db', Err (OwnershipStore e))
              end
            end
        end
    end
  end.

Definition fleet_transfer_agent_link (db : LinkDb) (id new_parent : string) (now : Z)
    : LinkDb * result OwnershipError AgentLinkRecord :=
  match agent_link_by_id db id with
  | Err e => (db, Err (OwnershipStore e))
  | Ok None => (db, Err (Ownership "lien de transfert introuvable"))
  | Ok (Some current) =>
    match agent_link_for_child db new_parent with
    | Err e => (db, Err (OwnershipStore e))
    | Ok parent =>
      let parent_path := from_option agent_path new_parent parent in
      if bool_decide (new_parent = current.(child_instance_id))
         || agent_path_contains parent_path current.(child_instance_id)
      then (db, Err (Ownership "cycle d'ascendance"))
      else
        match transfer_agent_link db id new_parent (parent_path +:+ "/" +:+ current.(child_instance_id)) now with
        | (db', Ok l) => (db', Ok l)
        | (db', Err e) => (db', Err (OwnershipStore e))
        end
    end
  end.

(** The transitions that [fleet.rs] makes: a connected child, and a child that
    is stopped or whose start failed. *)
Definition open_link (db : LinkDb) (id : string) (now : Z) : LinkDb * result LinkError AgentLinkRecord :=
  transition_agent_link db id [Reserved; Transferred] Open now.
Definition close_agent_link (db : LinkDb) (id : string) (now : Z) : LinkDb * result LinkError AgentLinkRecord :=
  transition_agent_link db id [Reserved; Open; Transferred; Orphaned] Closed now.
Definition abandon_link (db : LinkDb) (id : string) (now : Z) : LinkDb * result LinkError AgentLinkRecord :=
  transition_agent_link db id [Reserved] Closed now.

(** ** Keys of events *)

Lemma key_app_inj s1 s2 d1 d2 :
  Str.no_byte ":" d1 = true → Str.no_byte ":" d2 = true →
  s1 +:+ ":" +:+ d1 = s2 +:+ ":" +:+ d2 → s1 = s2 ∧ d1 = d2.
Proof.
  intros H1 H2. revert s2. induction s1 as [|c s1 IH]; intros [|c' s2] H;
    rewrite ?Str.app_cons, ?Str.app_nil_l in H.
  - by simplify_eq.
  - injection H as <- H. exfalso. unfold Str.no_byte in H1. rewrite H, Str.all_bytes_app in H1.
    rewrite ?Str.app_cons in H1. simpl in H1. by rewrite andb_false_r in H1.
  - injection H as -> H. exfalso. unfold Str.no_byte in H2. rewrite <-H, Str.all_bytes_app in H2.
    rewrite ?Str.app_cons in H2. simpl in H2. by rewrite andb_false_r in H2.
  - injection H as -> H. destruct (IH s2) as [-> ->]; [|done]. by rewrite ?Str.app_cons, ?Str.app_nil_l.
Qed.

Lemma pretty_no_colon (n : Z) : 0 ≤ n → Str.no_byte ":" (pretty n) = true.
Proof. intros Hn. by apply Str.digits_no_byte, Str.pretty_digits. Qed.

Lemma key_inj (s1 s2 : string) (n m : Z) :
  0 ≤ n → 0 ≤ m → s1 +:+ ":" +:+ pretty n = s2 +:+ ":" +:+ pretty m → s1 = s2 ∧ n = m.
Proof.
  intros Hn Hm H. destruct (key_app_inj s1 s2 (pretty n) (pretty m)) as [-> Hp]; auto using pretty_no_colon.
  split; [done|]. by apply (inj pretty).
Qed.

(** ** The journal agrees with the table

    [pend] is the set of links that were changed and whose event is not written
    yet, inside a transaction. *)

Definition of_link (id : string) (e : AgentLinkEvent) : bool := bool_decide (e.(e_link_id) = id).
Definition lag (pend : gset string) (l : AgentLinkRecord) : Z :=
  if bool_decide (l.(link_id) ∈ pend) then 0 else 1.

Definition event_of (e : AgentLinkEvent) (l : AgentLinkRecord) : Prop :=
  e.(e_state) = l.(link_state) ∧ e.(e_parent) = l.(parent_instance_id) ∧
  e.(e_child) = l.(child_instance_id) ∧ e.(event_id) = event_key l ∧ l.(created_at) ≤ e.(e_observed_at).

Record journal (pend : gset string) (db : LinkDb) : Prop := mkJournal {
  j_unique_link : unique link_id db.(links);
  j_unique_child : unique child_instance_id db.(links);
  j_cursor : ∀ i e, db.(link_events) !! i = Some e → e.(cursor) = Z.of_nat i + 1;
  j_known : ∀ e, e ∈ db.(link_events) → ∃ l n, l ∈ db.(links) ∧ e.(e_link_id) = l.(link_id) ∧
    e.(event_id) = l.(link_id) +:+ ":" +:+ pretty n ∧ 0 ≤ n < l.(revision) + lag pend l;
  j_row : ∀ l, l ∈ db.(links) → 0 ≤ l.(revision) ∧
    Z.of_nat (count_if (of_link l.(link_id)) db.(link_events)) = l.(revision) + lag pend l ∧
    (is_some l.(closed_at) = bool_decide (l.(link_state) = Closed)) ∧
    (l.(link_id) ∉ pend → ∃ e, last (List.filter (of_link l.(link_id)) db.(link_events)) = Some e ∧ event_of e l) }.

Lemma lag_other id pend l : l.(link_id) ≠ id → lag ({[id]} ∪ pend) l = lag pend l.
Proof. intros H. unfold lag. destruct (decide (l.(link_id) ∈ pend)); [rewrite !bool_decide_eq_true_2|rewrite !bool_decide_eq_false_2]; set_solver. Qed.

Lemma filter_snoc_last {A} (p : A → bool) l x : p x = true → last (List.filter p (l ++ [x])) = Some x.
Proof. intros H. rewrite List.filter_app. simpl. rewrite H. by rewrite last_snoc. Qed.

Lemma filter_snoc_other {A} (p : A → bool) l x : p x = false → List.filter p (l ++ [x]) = List.filter p l.
Proof. intros H. rewrite List.filter_app. simpl. rewrite H. by rewrite app_nil_r. Qed.

(** Writing the event of a changed link. *)
Lemma journal_record pend db l at_ :
  l ∈ db.(links) → l.(link_id) ∉ pend → journal ({[l.(link_id)]} ∪ pend) db →
  journal pend (record_agent_link_event l at_ db) ∧
  (record_agent_link_event l at_ db).(links) = db.(links).
Proof.
  intros Hl Hp HJ. pose proof HJ as [Hul Huc Hcur Hknown Hrow].
  assert (lag ({[l.(link_id)]} ∪ pend) l = 0) as Hlag0
    by (unfold lag; rewrite bool_decide_eq_true_2; [done|set_solver]).
  assert (lag pend l = 1) as Hlag1 by (unfold lag; by rewrite bool_decide_eq_false_2).
  assert (exists_row (λ e, bool_decide (e.(event_id) = event_key l)) db.(link_events) = false) as Hfresh.
  { apply exists_row_false. intros e He. apply bool_decide_eq_false. intros Heq.
    destruct (Hknown e He) as (l' & n & Hl' & _ & Hid & Hn). unfold event_key in Heq. rewrite Hid in Heq.
    destruct (Hrow l Hl) as (H0 & _). apply key_inj in Heq as [Hk ->]; [|lia..].
    assert (l' = l) as -> by by apply (unique_eq link_id db.(links)). lia. }
  unfold record_agent_link_event. rewrite Hfresh. split; [|done].
  set (e := mkLinkEvent _ _ _ _ _ _ _ _).
  constructor; simpl; [done|done|..].
  - intros i x Hx. apply lookup_snoc_Some in Hx as [[_ Hx]|[Hi <-]]; [by apply Hcur|]. subst i. done.
  - intros x Hx. apply elem_of_app in Hx as [Hx|Hx].
    + destruct (Hknown x Hx) as (l' & n & Hl' & H1 & H2 & H3). exists l', n. split_and!; try done.
      * lia.
      * destruct (decide (l'.(link_id) = l.(link_id))) as [Heq|Hne]; [|rewrite lag_other in H3 by done; lia].
        assert (l' = l) as -> by by apply (unique_eq link_id db.(links)). lia.
    + apply list_elem_of_singleton in Hx as ->. exists l, l.(revision). destruct (Hrow l Hl) as (H0 & _).
      split_and!; try done. rewrite Hlag1. lia.
  - intros x Hx. destruct (Hrow x Hx) as (H0 & Hc & Hcl & Hlast).
    destruct (decide (x.(link_id) = l.(link_id))) as [Heq|Hne].
    + assert (x = l) as -> by by apply (unique_eq link_id db.(links)).
      rewrite count_if_app, count_if_cons. unfold of_link at 2. simpl. rewrite bool_decide_eq_true_2 by done.
      rewrite Hlag0 in Hc. rewrite Hlag1. split_and!; [done| |done|].
      * change (count_if (of_link l.(link_id)) []) with 0%nat. lia.
      * intros _. exists e. split; [|by repeat split; simpl; lia].
        apply filter_snoc_last. by apply bool_decide_eq_true_2.
    + assert (of_link x.(link_id) e = false) as Hof by (apply bool_decide_eq_false_2; simpl; congruence).
      rewrite count_if_app, count_if_cons, Hof. change (count_if (of_link x.(link_id)) []) with 0%nat.
      rewrite lag_other in Hc by done. split_and!; [done|lia|done|].
      intros Hx'. rewrite (filter_snoc_other _ _ _ Hof). apply Hlast. set_solver.
Qed.

Definition ids_of (ls : list AgentLinkRecord) : gset string := list_to_set (link_id <$> ls).

Lemma ids_of_elem ls id : id ∈ ids_of ls ↔ ∃ l, l ∈ ls ∧ l.(link_id) = id.
Proof. unfold ids_of. rewrite elem_of_list_to_set, list_elem_of_fmap. naive_solver. Qed.

(** Changing links: their events are then to be written. *)
Lemma journal_update pend db p f :
  journal pend db →
  (∀ l, l ∈ db.(links) → p l = true → (f l).(link_id) = l.(link_id) ∧
     (f l).(child_instance_id) = l.(child_instance_id) ∧ (f l).(revision) = l.(revision) + 1 ∧
     is_some (f l).(closed_at) = bool_decide ((f l).(link_state) = Closed) ∧ l.(link_id) ∉ pend) →
  journal (ids_of (select p db.(links)) ∪ pend) (set_links (update p f db.(links)) db).
Proof.
  intros [Hul Huc Hcur Hknown Hrow] Hf.
  assert (∀ l, l ∈ db.(links) → p l = false → lag (ids_of (select p db.(links)) ∪ pend) l = lag pend l) as Hlag.
  { intros l Hl Hp. unfold lag. apply (f_equal (λ b : bool, if b then 0 else 1)). apply bool_decide_ext.
    rewrite elem_of_union, ids_of_elem. split; [|by right]. intros [(l' & Hl' & Heq)|?]; [|done].
    apply select_elem in Hl' as [Hl' Hp']. assert (l' = l) as -> by by apply (unique_eq link_id db.(links)).
    congruence. }
  assert (∀ l, l ∈ db.(links) → p l = true → lag (ids_of (select p db.(links)) ∪ pend) (f l) = 0 ∧ lag pend l = 1) as Hlagp.
  { intros l Hl Hp. destruct (Hf l Hl Hp) as (Hid & _ & _ & _ & Hnp). unfold lag. rewrite Hid.
    rewrite bool_decide_eq_true_2, bool_decide_eq_false_2; [done|done|]. rewrite elem_of_union, ids_of_elem. left.
    exists l. split; [|done]. by apply select_elem. }
  constructor; simpl.
  - apply update_unique; [|done]. intros. by apply Hf.
  - apply update_unique; [|done]. intros. by apply Hf.
  - done.
  - intros e He. destruct (Hknown e He) as (l & n & Hl & H1 & H2 & H3). destruct (p l) eqn:Hp.
    + exists (f l), n. destruct (Hf l Hl Hp) as (Hid & _ & Hrev & _), (Hlagp l Hl Hp) as [-> Hlg].
      rewrite Hid, Hrev. split_and!; try done; [|lia..]. apply update_elem. exists l. by rewrite Hp.
    + exists l, n. rewrite Hlag by done. split_and!; try done; [|lia..]. apply update_elem. exists l. by rewrite Hp.
  - intros l' Hl'. apply update_elem in Hl' as (l & Hl & ->). destruct (Hrow l Hl) as (H0 & Hc & Hcl & Hlast).
    destruct (p l) eqn:Hp.
    + destruct (Hf l Hl Hp) as (Hid & _ & Hrev & Hclo & _), (Hlagp l Hl Hp) as [-> Hlg].
      rewrite Hid, Hrev, Hc, Hlg. split_and!; [lia|lia|done|]. intros Hn. exfalso. apply Hn, elem_of_union_l, ids_of_elem.
      exists l. split; [by apply select_elem|done].
    + rewrite Hlag by done. split_and!; try done. intros Hn. apply Hlast. set_solver.
Qed.

Lemma journal_append db l :
  journal ∅ db → (∀ l', l' ∈ db.(links) → l'.(link_id) ≠ l.(link_id) ∧ l'.(child_instance_id) ≠ l.(child_instance_id)) →
  l.(revision) = 0 → is_some l.(closed_at) = bool_decide (l.(link_state) = Closed) →
  journal ({[l.(link_id)]} ∪ ∅) (set_links (db.(links) ++ [l]) db).
Proof.
  intros [Hul Huc Hcur Hknown Hrow] Hnew H0 Hcl. constructor; simpl.
  - apply unique_snoc; [done|]. intros. by apply Hnew.
  - apply unique_snoc; [done|]. intros. by apply Hnew.
  - done.
  - intros e He. destruct (Hknown e He) as (l' & n & Hl' & H1 & H2 & H3). exists l', n.
    rewrite lag_other by (by apply Hnew). set_solver.
  - intros l' Hl'. apply elem_of_app in Hl' as [Hl'|Hl'].
    + destruct (Hrow l' Hl') as (H0' & Hc & Hcl' & Hlast). rewrite lag_other by (by apply Hnew).
      split_and!; try done. intros Hn. apply Hlast. set_solver.
    + apply list_elem_of_singleton in Hl' as ->. rewrite H0. unfold lag.
      rewrite bool_decide_eq_true_2 by set_solver. split_and!; [done| |done|set_solver].
      rewrite count_if_0; [done|]. intros e He. apply bool_decide_eq_false. intros Heq.
      destruct (Hknown e He) as (l' & n & Hl' & H1 & _). destruct (Hnew l' Hl') as [Hne _]. congruence.
Qed.

(** ** Each operation keeps the journal *)

Lemma create_journal db l : journal ∅ db → journal ∅ (create_agent_link db l).1.
Proof.
  intros HJ. unfold create_agent_link. destruct (create_valid l) eqn:Hv; simpl; [|done].
  destruct (is_some_and _ _); simpl; [done|].
  destruct (select_one _ _) as [x|] eqn:Hs; simpl; [done|].
  destruct (exists_row _ _) eqn:He; simpl; [done|].
  unfold create_valid in Hv. rewrite !andb_true_iff in Hv.
  destruct Hv as [[[_ Hrev%Z.eqb_eq] Hst%bool_decide_eq_true] Hcl%negb_true_iff].
  destruct (journal_record ∅ (set_links (db.(links) ++ [l]) db) l (l.(created_at))) as [HJ' _];
    [simpl; set_solver|set_solver| |done].
  apply journal_append; [done| |done|by rewrite Hst, Hcl].
  intros l' Hl'. rewrite exists_row_false in He. specialize (He l' Hl').
  pose proof (select_one_None _ l' _ Hs Hl') as Hch. unfold by_link, by_child in *.
  rewrite bool_decide_eq_false in He, Hch. done.
Qed.

Lemma read_optional_Some o l : read_optional o = Ok (Some l) → o = Some l.
Proof.
  unfold read_optional, agent_link_from_row. destruct o as [x|]; [|done].
  destruct (project_reference_from_parts _); simpl; congruence.
Qed.

Lemma by_id_Some db id l : agent_link_by_id db id = Ok (Some l) → l ∈ db.(links) ∧ l.(link_id) = id.
Proof.
  intros H%read_optional_Some. apply select_one_Some in H as [Hl Hid]. by apply bool_decide_eq_true in Hid.
Qed.

(** A change of the one row of a link, then its event. *)
Lemma change_one_journal db id current f l at_ :
  journal ∅ db → current ∈ db.(links) → current.(link_id) = id →
  ((f current).(link_id) = id ∧ (f current).(child_instance_id) = current.(child_instance_id) ∧
   (f current).(revision) = current.(revision) + 1 ∧
   is_some (f current).(closed_at) = bool_decide ((f current).(link_state) = Closed)) →
  let p := λ l, by_link id l && (l.(revision) =? current.(revision)) in
  let db' := set_links (update p f db.(links)) db in
  agent_link_by_id db' id = Ok (Some l) →
  l = f current ∧ journal ∅ (record_agent_link_event l at_ db').
Proof.
  intros HJ Hc Hid (Hf1 & Hf2 & Hf3 & Hf4) p db' Hl. pose proof HJ as [Hul _ _ _ _].
  assert (∀ x, x ∈ db.(links) → p x = true → x = current) as Hp.
  { intros x Hx Hpx. unfold p, by_link in Hpx. rewrite andb_true_iff, bool_decide_eq_true in Hpx.
    apply (unique_eq link_id db.(links)); [done..|]. destruct Hpx. congruence. }
  assert (p current = true) as Hpc.
  { unfold p, by_link. by rewrite Hid, bool_decide_eq_true_2, Z.eqb_refl. }
  assert (journal (ids_of (select p db.(links)) ∪ ∅) db') as HJ'.
  { apply journal_update; [done|]. intros x Hx Hpx. rewrite (Hp x Hx Hpx). split_and!; (done || congruence || set_solver). }
  assert (ids_of (select p db.(links)) = {[id]}) as Hids.
  { apply set_eq. intros y. rewrite ids_of_elem, elem_of_singleton. split.
    - intros (x & Hx%select_elem & <-). destruct Hx as [Hx Hpx]. by rewrite (Hp x Hx Hpx).
    - intros ->. exists current. split; [by apply select_elem|done]. }
  rewrite Hids in HJ'. apply by_id_Some in Hl as [Hl Hlid].
  assert (l = f current) as ->.
  { apply (unique_eq link_id db'.(links)); [by destruct HJ'|done| |congruence].
    apply update_elem. exists current. by rewrite Hpc. }
  split; [done|]. apply journal_record; [done|set_solver|]. by rewrite Hf1.
Qed.

Lemma transition_journal db id allowed next at_ :
  journal ∅ db → journal ∅ (transition_agent_link db id allowed next at_).1.
Proof.
  intros HJ. unfold transition_agent_link. destruct (agent_link_by_id db id) as [[c|]|e] eqn:Hc; simpl; try done.
  case_bool_decide; simpl; [done|]. destruct (negb _); simpl; [done|]. destruct (negb _); simpl; [done|].
  destruct (by_id_Some _ _ _ Hc) as [Hin Hid].
  destruct (agent_link_by_id (set_links _ db) id) as [[l|]|e] eqn:Hl; simpl; try done.
  eapply change_one_journal; [done|exact Hin|done| |exact Hl]. simpl. split_and!; try done.
  by case_bool_decide.
Qed.

Lemma transfer_journal db id parent path at_ :
  journal ∅ db → journal ∅ (transfer_agent_link db id parent path at_).1.
Proof.
  intros HJ. unfold transfer_agent_link. destruct (_ || _); simpl; [done|].
  destruct (agent_link_by_id db id) as [[c|]|e] eqn:Hc; simpl; try done.
  case_bool_decide; simpl; [done|]. destruct (negb _); simpl; [done|].
  destruct (by_id_Some _ _ _ Hc) as [Hin Hid].
  destruct (agent_link_by_id (set_links _ db) id) as [[l|]|e] eqn:Hl; simpl; try done.
  eapply change_one_journal; [done|exact Hin|done| |exact Hl]. done.
Qed.

Lemma read_all_Ok l l' : read_all l = Ok l' → l' = l.
Proof.
  revert l'. induction l as [|x l IH]; simpl; intros l'; [congruence|].
  intros (y & Hy & H)%bind_Ok. apply bind_Ok in H as (z & Hz & [= <-]). rewrite (IH z Hz).
  unfold agent_link_from_row in Hy. destruct (project_reference_from_parts _); congruence.
Qed.

Lemma journal_records pend ls at_ : ∀ db,
  NoDup (link_id <$> ls) → (∀ l, l ∈ ls → l ∈ db.(links) ∧ l.(link_id) ∉ pend) →
  journal (ids_of ls ∪ pend) db →
  journal pend (foldl (λ db l, record_agent_link_event l at_ db) db ls).
Proof.
  induction ls as [|l ls IH]; intros db Hnd Hls HJ; simpl.
  { replace (ids_of [] ∪ pend) with pend in HJ by set_solver. done. }
  cbn in Hnd. apply NoDup_cons in Hnd as [Hl Hnd].
  destruct (journal_record (ids_of ls ∪ pend) db l at_) as [HJ' Hlinks].
  - by apply Hls; set_solver.
  - apply not_elem_of_union. split; [|apply Hls; set_solver]. rewrite ids_of_elem. intros (l' & Hl' & Heq).
    apply Hl. rewrite <-Heq. by apply list_elem_of_fmap_2.
  - replace ({[l.(link_id)]} ∪ (ids_of ls ∪ pend)) with (ids_of (l :: ls) ∪ pend); [done|].
    unfold ids_of. simpl. set_solver.
  - apply IH; [done| |done]. intros x Hx. rewrite Hlinks. apply Hls. set_solver.
Qed.

Lemma orphan_journal db parent at_ :
  journal ∅ db → journal ∅ (orphan_agent_links_for_parent db parent at_).1.
Proof.
  intros HJ. unfold orphan_agent_links_for_parent.
  destruct (read_all _) as [active|e] eqn:Hr; simpl; [|done]. apply read_all_Ok in Hr as ->.
  pose proof HJ as [Hul _ _ _ Hrow].
  set (orph := with_link_state Orphaned None). set (active := select _ _).
  rewrite <-(foldl_fmap (λ db l, record_agent_link_event l at_ db) _ active orph).
  assert (∀ l, l ∈ active → l ∈ db.(links) ∧ active_of parent l = true ∧ l.(closed_at) = None) as Hact.
  { intros l [Hl Hp]%select_elem. split_and!; try done. destruct (Hrow l Hl) as (_ & _ & Hcl & _).
    unfold active_of, owns_child in Hp. destruct (closed_at l); [|done]. simpl in Hcl.
    symmetry in Hcl. apply bool_decide_eq_true in Hcl. rewrite Hcl in Hp. by rewrite andb_false_r in Hp. }
  assert (link_id <$> (orph <$> active) = link_id <$> active) as Hids by by rewrite <-list_fmap_compose.
  apply journal_records.
  - rewrite Hids. by apply (unique_select link_id).
  - intros l (l0 & -> & Hl0)%list_elem_of_fmap. split; [|set_solver].
    destruct (Hact l0 Hl0) as (Hin & Hp & Hcl). apply update_elem. exists l0. split; [done|].
    unfold orph. by rewrite Hp, Hcl.
  - replace (ids_of (orph <$> active)) with (ids_of active) by (unfold ids_of; by rewrite Hids).
    apply journal_update; [done|]. intros l Hl Hp. simpl.
    destruct (Hact l) as (_ & _ & ->); [by apply select_elem|]. by split_and!.
Qed.

(** ** Runs of the operations *)

Inductive LinkOp :=
  | OpReserve (child : option string) (own : option SpawnOwnership) (project : option ProjectReference)
      (uuid : string) (now : Z)
  | OpOpen (id : string) (now : Z)
  | OpAbandon (id : string) (now : Z)
  | OpClose (id : string) (now : Z)
  | OpTransfer (id new_parent : string) (now : Z)
  | OpOrphan (parent : string) (now : Z)
  | OpRuntimeEvent (i : DelegatedRuntimeEventInput)
  | OpAcknowledge (id parent : string) (now : Z).

Section LinkRuns.
Context (sha256_hex : string → string).

Definition link_step (db : LinkDb) (o : LinkOp) : LinkDb :=
  match o with
  | OpReserve child own project uuid now => (reserve_agent_link db child own project uuid now).1
  | OpOpen id now => (open_link db id now).1
  | OpAbandon id now => (abandon_link db id now).1
  | OpClose id now => (close_agent_link db id now).1
  | OpTransfer id p now => (fleet_transfer_agent_link db id p now).1
  | OpOrphan p now => (orphan_agent_links_for_parent db p now).1
  | OpRuntimeEvent i => (record_delegated_runtime_event sha256_hex db i).1
  | OpAcknowledge id p now => (acknowledge_delegated_runtime_event db id p now).1
  end.
Definition link_runs (ops : list LinkOp) (db : LinkDb) : LinkDb := foldl link_step db ops.

(** An operation on runtime events leaves the links and their journal. *)
Lemma runtime_event_links db i :
  (record_delegated_runtime_event sha256_hex db i).1.(links) = db.(links) ∧
  (record_delegated_runtime_event sha256_hex db i).1.(link_events) = db.(link_events).
Proof.
  unfold record_delegated_runtime_event. destruct (negb _); [done|].
  destruct (agent_link_for_child _ _) as [[l|]|e]; [|done..].
  destruct (exists_row _ _); destruct (select_one _ _); done.
Qed.

Lemma acknowledge_links db id p now :
  (acknowledge_delegated_runtime_event db id p now).1.(links) = db.(links) ∧
  (acknowledge_delegated_runtime_event db id p now).1.(link_events) = db.(link_events).
Proof.
  unfold acknowledge_delegated_runtime_event. destruct (_ || _); [done|]. destruct (select_one _ _); [|done].
  destruct (negb _); [done|]. destruct (is_some _); [done|]. by destruct (negb _).
Qed.

Lemma journal_same pend db db' :
  db'.(links) = db.(links) ∧ db'.(link_events) = db.(link_events) → journal pend db → journal pend db'.
Proof. intros [H1 H2] [????]. constructor; rewrite ?H1, ?H2; done. Qed.

Lemma reserve_cases db child own project uuid now :
  (reserve_agent_link db child own project uuid now).1 = db ∨
  ∃ l, (reserve_agent_link db child own project uuid now).1 = (create_agent_link db l).1.
Proof.
  unfold reserve_agent_link. destruct own as [own|]; [|by left].
  destruct (open_agent_links_for_parent _ _); [|by left]. destruct (is_some_and _ _); [by left|].
  destruct (agent_link_for_child _ _); [|by left]. destruct (is_some_and _ _); [by left|].
  destruct child as [c|]; [|by left]. destruct (create_agent_link _ _) as [db' [u|e]] eqn:Hc; right; eexists; by rewrite Hc.
Qed.

Lemma fleet_transfer_cases db id p now :
  (fleet_transfer_agent_link db id p now).1 = db ∨
  ∃ path, (fleet_transfer_agent_link db id p now).1 = (transfer_agent_link db id p path now).1.
Proof.
  unfold fleet_transfer_agent_link. destruct (agent_link_by_id _ _) as [[c|]|]; [|by left..].
  destruct (agent_link_for_child _ _); [|by left]. destruct (_ || _); [by left|].
  destruct (transfer_agent_link _ _ _ _ _) as [db' [u|e]] eqn:Hc; right; eexists; by rewrite Hc.
Qed.

Lemma link_step_journal db o : journal ∅ db → journal ∅ (link_step db o).
Proof.
  intros HJ. destruct o as [child own project uuid now| | | |id p now| |i|id p now]; simpl.
  - destruct (reserve_cases db child own project uuid now) as [->|[l ->]]; [done|]. by apply create_journal.
  - by apply transition_journal.
  - by apply transition_journal.
  - by apply transition_journal.
  - destruct (fleet_transfer_cases db id p now) as [->|[l ->]]; [done|]. by apply transfer_journal.
  - by apply orphan_journal.
  - by eapply journal_same; [apply runtime_event_links|].
  - by eapply journal_same; [apply acknowledge_links|].
Qed.

Lemma link_runs_journal ops db : journal ∅ db → journal ∅ (link_runs ops db).
Proof. revert db. induction ops as [|o ops IH]; intros db H; simpl; [done|]. by apply IH, link_step_journal. Qed.

Lemma empty_journal : journal ∅ (mkLinkDb [] [] []).
Proof. constructor; simpl; [constructor|constructor|..]; set_solver. Qed.

(** The links and their journal agree.  After any sequence of operations, a
    child has one link at most and a link one row; the events are numbered from 1
    without a gap; a link at revision [r] has exactly [r + 1] events, the last of
    which carries its state, its parent and its child; and the time of closing is
    set exactly when the link is closed. *)
Lemma links_invariant ops :
  let db := link_runs ops (mkLinkDb [] [] []) in
  unique link_id db.(links) ∧ unique child_instance_id db.(links) ∧
  (∀ i e, db.(link_events) !! i = Some e → e.(cursor) = Z.of_nat i + 1) ∧
  ∀ l, l ∈ db.(links) →
    Z.of_nat (count_if (of_link l.(link_id)) db.(link_events)) = l.(revision) + 1 ∧
    (is_some l.(closed_at) = bool_decide (l.(link_state) = Closed)) ∧
    ∃ e, last (List.filter (of_link l.(link_id)) db.(link_events)) = Some e ∧ event_of e l.
Proof.
  intros db. destruct (link_runs_journal ops _ empty_journal) as [H1 H2 H3 _ H5]. fold db in H1, H2, H3, H5.
  split_and!; try done. intros l Hl. destruct (H5 l Hl) as (_ & Hc & Hcl & He). split_and!; try done.
  by apply He; set_solver.
Qed.

(** ** What a link keeps *)

Definition evolves (l l' : AgentLinkRecord) : Prop :=
  l'.(link_id) = l.(link_id) ∧ l'.(child_instance_id) = l.(child_instance_id) ∧
  l'.(link_project) = l.(link_project) ∧ l'.(created_at) = l.(created_at) ∧
  l.(revision) ≤ l'.(revision) ∧ (l.(link_state) = Closed → l' = l).

Lemma evolves_refl l : evolves l l.
Proof. by unfold evolves. Qed.
Lemma evolves_trans l1 l2 l3 : evolves l1 l2 → evolves l2 l3 → evolves l1 l3.
Proof.
  intros (? & ? & ? & ? & ? & Hc) (? & ? & ? & ? & ? & Hc'). unfold evolves. split_and!; try congruence; [lia|].
  intros Hcl. specialize (Hc Hcl). subst l2. auto.
Qed.

Definition keeps (db db' : LinkDb) : Prop := ∀ l, l ∈ db.(links) → ∃ l', l' ∈ db'.(links) ∧ evolves l l'.

Lemma keeps_refl db : keeps db db.
Proof. intros l Hl. eauto using evolves_refl. Qed.
Lemma keeps_same db db' : db'.(links) = db.(links) → keeps db db'.
Proof. intros H l Hl. rewrite H. eauto using evolves_refl. Qed.

Lemma record_links l at_ db : (record_agent_link_event l at_ db).(links) = db.(links).
Proof. unfold record_agent_link_event. by destruct (exists_row _ _). Qed.

Lemma record_list_links {A} (g : A → AgentLinkRecord) ls at_ db :
  (foldl (λ db l, record_agent_link_event (g l) at_ db) db ls).(links) = db.(links).
Proof. revert db. induction ls as [|l ls IH]; intros db; simpl; [done|]. by rewrite IH, record_links. Qed.

Lemma keeps_update db p f : (∀ l, l ∈ db.(links) → p l = true → evolves l (f l)) →
  keeps db (set_links (update p f db.(links)) db).
Proof.
  intros H l Hl. exists (if p l then f l else l). split; [apply update_elem; eauto|].
  destruct (p l) eqn:Hp; [by apply H|apply evolves_refl].
Qed.

Lemma keeps_record db db' l at_ : keeps db db' → keeps db (record_agent_link_event l at_ db').
Proof. intros H x Hx. rewrite record_links. by apply H. Qed.

(** The row that a guarded update changes is the current one. *)
Lemma keeps_one db id current f :
  unique link_id db.(links) → current ∈ db.(links) → current.(link_id) = id → evolves current (f current) →
  keeps db (set_links (update (λ l, by_link id l && (l.(revision) =? current.(revision))) f db.(links)) db).
Proof.
  intros Hu Hc Hid Hev. apply keeps_update. intros l Hl [Hp _]%andb_true_iff. apply bool_decide_eq_true in Hp.
  by assert (l = current) as -> by (apply (unique_eq link_id db.(links)); congruence).
Qed.

Lemma transition_keeps db id allowed next at_ :
  unique link_id db.(links) → Closed ∉ allowed → keeps db (transition_agent_link db id allowed next at_).1.
Proof.
  intros Hu Ha. unfold transition_agent_link. destruct (agent_link_by_id db id) as [[c|]|e] eqn:Hc; simpl;
    try apply keeps_refl.
  case_bool_decide; simpl; [apply keeps_refl|]. destruct (negb (bool_decide _)) eqn:Hal; simpl; [apply keeps_refl|].
  apply negb_false_iff, bool_decide_eq_true in Hal.
  destruct (negb _); simpl; [apply keeps_refl|]. destruct (by_id_Some _ _ _ Hc) as [Hin Hid].
  destruct (agent_link_by_id (set_links _ db) id) as [[l|]|e] eqn:Hl; simpl; try apply keeps_refl.
  apply keeps_record, keeps_one; [done..|]. unfold evolves. simpl. split_and!; try done; [lia|].
  intros Hcl. by rewrite Hcl in Hal.
Qed.

Lemma transfer_keeps db id parent path at_ :
  unique link_id db.(links) → keeps db (transfer_agent_link db id parent path at_).1.
Proof.
  intros Hu. unfold transfer_agent_link. destruct (_ || _); simpl; [apply keeps_refl|].
  destruct (agent_link_by_id db id) as [[c|]|e] eqn:Hc; simpl; try apply keeps_refl.
  case_bool_decide; simpl; [apply keeps_refl|]. destruct (negb _); simpl; [apply keeps_refl|].
  destruct (by_id_Some _ _ _ Hc) as [Hin Hid].
  destruct (agent_link_by_id (set_links _ db) id) as [[l|]|e] eqn:Hl; simpl; try apply keeps_refl.
  apply keeps_record, keeps_one; [done..|]. unfold evolves. simpl. split_and!; try done; lia.
Qed.

Lemma orphan_keeps db parent at_ : keeps db (orphan_agent_links_for_parent db parent at_).1.
Proof.
  unfold orphan_agent_links_for_parent. destruct (read_all _); simpl; [|apply keeps_refl].
  intros l Hl. rewrite record_list_links. apply keeps_update; [|done]. intros x _ Hx.
  unfold evolves. simpl. split_and!; try done; [lia|]. intros Hc. unfold active_of in Hx.
  rewrite Hc in Hx. by rewrite andb_false_r in Hx.
Qed.

Lemma create_keeps db l : keeps db (create_agent_link db l).1.
Proof.
  unfold create_agent_link. destruct (negb _); [apply keeps_refl|]. destruct (is_some_and _ _); [apply keeps_refl|].
  destruct (select_one _ _); [apply keeps_refl|]. destruct (exists_row _ _); [apply keeps_refl|].
  apply keeps_record. intros x Hx. exists x. split; [simpl; set_solver|apply evolves_refl].
Qed.

Lemma link_step_keeps db o : journal ∅ db → keeps db (link_step db o).
Proof.
  intros [Hu _ _ _ _]. destruct o as [child own project uuid now| | | |id p now| |i|id p now]; simpl.
  - destruct (reserve_cases db child own project uuid now) as [->|[l ->]]; [apply keeps_refl|]. apply create_keeps.
  - apply transition_keeps; [done|set_solver].
  - apply transition_keeps; [done|set_solver].
  - apply transition_keeps; [done|set_solver].
  - destruct (fleet_transfer_cases db id p now) as [->|[l ->]]; [apply keeps_refl|]. by apply transfer_keeps.
  - apply orphan_keeps.
  - apply keeps_same, runtime_event_links.
  - apply keeps_same, acknowledge_links.
Qed.

Lemma link_runs_keeps ops db : journal ∅ db → keeps db (link_runs ops db).
Proof.
  revert db. induction ops as [|o ops IH]; intros db HJ l Hl; simpl; [eauto using evolves_refl|].
  destruct (link_step_keeps db o HJ l Hl) as (l' & Hl' & Hev).
  destruct (IH _ (link_step_journal _ o HJ) l' Hl') as (l2 & Hl2 & Hev2). eauto using evolves_trans.
Qed.

(** A child belongs to the same link for ever, and closing is final.  A link
    of a state reached by operations is found again after any further
    operations, for the same child, with the same project and creation, at a
    revision no smaller; a closed link is found again unchanged, so that its
    child is never owned again. *)
Lemma link_history ops ops' l :
  l ∈ (link_runs ops (mkLinkDb [] [] [])).(links) →
  ∃ l', select_one (by_child l.(child_instance_id)) (link_runs (ops ++ ops') (mkLinkDb [] [] [])).(links) = Some l' ∧
    evolves l l' ∧ (l.(link_state) = Closed → owns_child l'.(link_state) = false).
Proof.
  intros Hl. pose proof (link_runs_journal ops _ empty_journal) as HJ. unfold link_runs in *. rewrite foldl_app.
  destruct (link_runs_keeps ops' _ HJ l Hl) as (l' & Hl' & Hev). exists l'.
  pose proof Hev as (_ & Hch & _ & _ & _ & Hcl). split_and!; [|done|].
  - destruct (link_runs_journal ops' _ HJ) as [_ Hu _ _ _]. apply (unique_select_one child_instance_id); try done.
    + by apply bool_decide_eq_true_2.
    + intros r Hr. apply bool_decide_eq_true in Hr. congruence.
  - intros Hc. rewrite (Hcl Hc), Hc. done.
Qed.
End LinkRuns.

(** ** Reading the journal page by page *)

Definition of_parent (parent : string) (e : AgentLinkEvent) : bool := bool_decide (e.(e_parent) = parent).

(** A parent that asks for the events after the last cursor it has, until a page
    is empty. *)
Fixpoint read_pages (fuel : nat) (db : LinkDb) (parent : string) (after : option Z) : option (list AgentLinkEvent) :=
  match fuel with
  | O => None
  | S fuel =>
    let page := agent_link_events_after db parent after in
    match last page with
    | None => Some []
    | Some e => rest ← read_pages fuel db parent (Some e.(cursor)); Some (page ++ rest)
    end
  end.

Definition before (a b : AgentLinkEvent) : Prop := a.(cursor) < b.(cursor).

Lemma cursors_sorted (evs : list AgentLinkEvent) n :
  (∀ i e, evs !! i = Some e → e.(cursor) = n + Z.of_nat i + 1) → StronglySorted before evs.
Proof.
  revert n. induction evs as [|x evs IH]; intros n H; [constructor|]. constructor.
  - apply (IH (n + 1)). intros i e Hi. rewrite (H (S i) e Hi). lia.
  - apply Forall_lookup. intros i e Hi. unfold before. rewrite (H (S i) e Hi), (H O x eq_refl). lia.
Qed.

Lemma filter_sorted {A} (R : A → A → Prop) p l : StronglySorted R l → StronglySorted R (List.filter p l).
Proof.
  induction 1 as [|x l Hl IH Hx]; simpl; [constructor|]. destruct (p x); [|done]. constructor; [done|].
  rewrite Forall_forall in *. intros y [Hy _]%list_filter_elem. by apply Hx.
Qed.

Lemma after_split (seen rest : list AgentLinkEvent) c :
  StronglySorted before (seen ++ rest) → (∀ e, e ∈ seen ++ rest → 0 < e.(cursor)) →
  from_option cursor 0 (last seen) = c → select (λ e, c <? e.(cursor)) (seen ++ rest) = rest.
Proof.
  intros Hs H0 Hc. rewrite select_app, select_none, select_all; [done|..]; intros e He.
  - apply Z.ltb_lt. destruct (last seen) as [x|] eqn:Hl; simpl in Hc; subst c; [|apply H0; set_solver].
    apply last_Some in Hl as [d ->]. eapply StronglySorted_app_1_elem_of in Hs; [exact Hs| |done]. set_solver.
  - apply Z.ltb_ge. destruct (last seen) as [x|] eqn:Hl; simpl in Hc; subst c.
    + apply last_Some in Hl as [d ->]. apply elem_of_app in He as [He| ->%list_elem_of_singleton]; [|lia].
      apply StronglySorted_app_1_l in Hs.
      eapply (StronglySorted_app_1_elem_of _ d [x] e x) in Hs; [unfold before in Hs; lia|done|set_solver].
    + apply last_None in Hl. subst seen. by apply elem_of_nil in He.
Qed.

Lemma read_pages_from db parent : ∀ fuel seen rest after,
  select (of_parent parent) db.(link_events) = seen ++ rest →
  StronglySorted before (seen ++ rest) → (∀ e, e ∈ seen ++ rest → 0 < e.(cursor) ≤ i64_max) →
  default 0 after = from_option cursor 0 (last seen) →
  (length rest + PAGE ≤ PAGE * fuel)%nat → read_pages fuel db parent after = Some rest.
Proof.
  induction fuel as [|fuel IH]; intros seen rest after Hsel Hs H0 Ha Hf; [unfold PAGE in Hf; lia|].
  cbn [read_pages]. assert (0 ≤ default 0 after ≤ i64_max) as Hb.
  { rewrite Ha. destruct (last seen) as [x|] eqn:Hl; simpl; [|unfold_ints; lia].
    apply last_Some in Hl as [d ->]. destruct (H0 x); [set_solver|lia]. }
  assert (agent_link_events_after db parent after = take PAGE rest) as Hpage.
  { unfold agent_link_events_after, after_of. rewrite Z.min_l by lia. rewrite select_and.
    change (select _ db.(link_events)) with (select (of_parent parent) db.(link_events)). rewrite Hsel. f_equal.
    apply after_split; [done| |done]. intros e He. apply H0 in He. lia. }
  rewrite Hpage. destruct (last (take PAGE rest)) as [e|] eqn:Hl.
  - rewrite (IH (seen ++ take PAGE rest) (drop PAGE rest)).
    + simpl. by rewrite take_drop.
    + by rewrite <-app_assoc, take_drop.
    + by rewrite <-app_assoc, take_drop.
    + by rewrite <-app_assoc, take_drop.
    + apply last_Some in Hl as [d ->]. by rewrite app_assoc, last_snoc.
    + rewrite length_drop. assert (length rest ≠ 0)%nat by (intros Hz%nil_length_inv; by subst). unfold PAGE in *. lia.
  - apply last_None in Hl. destruct rest; [done|]. by unfold PAGE in Hl.
Qed.

(** A parent that reads its events page after page, each time from the last
    cursor it saw, comes to an empty page after one page for each 128 events and
    has then read every event of its links, each once and in order. *)
Lemma event_pages_complete sha ops parent fuel :
  let db := link_runs sha ops (mkLinkDb [] [] []) in
  let mine := select (of_parent parent) db.(link_events) in
  Z.of_nat (length db.(link_events)) ≤ i64_max → (length mine + PAGE ≤ PAGE * fuel)%nat →
  read_pages fuel db parent None = Some mine.
Proof.
  intros db mine Hlen Hf. destruct (link_runs_journal sha ops _ empty_journal) as [_ _ Hcur _ _]. fold db in Hcur.
  apply (read_pages_from db parent fuel []); [done| | |done|done].
  - apply filter_sorted, (cursors_sorted _ 0). intros i e Hi. rewrite (Hcur i e Hi). lia.
  - intros e [He _]%select_elem. apply list_elem_of_lookup in He as [i Hi]. rewrite (Hcur i e Hi).
    apply lookup_lt_Some in Hi. lia.
Qed.

Module AgentLinksExamples.

Definition no_sha (s : string) : string := "0".
Definition owned_by (parent : string) : option SpawnOwnership :=
  Some (mkOwnership parent None None None "worker" None None).
Definition spawn (child parent uuid : string) (now : Z) : LinkOp := OpReserve (Some child) (owned_by parent) None uuid now.

(** [A] owns [B], [B] owns [C], [Z] owns [Y]. *)
Definition tree : list LinkOp :=
  [spawn "B" "A" "lb" 1; spawn "C" "B" "lc" 2; spawn "Y" "Z" "ly" 3].
(** [B] moves under [Y], then [Y] under [C]. *)
Definition moves : list LinkOp := [OpTransfer "lb" "Y" 4; OpTransfer "ly" "C" 5].
Definition tree_db : LinkDb := link_runs no_sha (tree ++ moves) (mkLinkDb [] [] []).

Definition parent_of (db : LinkDb) (child : string) : option string :=
  parent_instance_id <$> select_one (by_child child) db.(links).

(** The cycle guard of a transfer reads the stored path of the new parent,
    and a transfer does not rewrite the paths of the descendants.  After [B]
    moved under [Y], the path of its child [C] is still ["A/B/C"], so that moving
    [Y] under [C] is accepted: [Y], [B] and [C] then own one another. *)
Lemma transfer_accepts_cycle :
  (fleet_transfer_agent_link (link_runs no_sha (tree ++ [OpTransfer "lb" "Y" 4]) (mkLinkDb [] [] [])) "ly" "C" 5).2 =
    Ok (mkLink "ly" "C" "Y" None None None None "worker" "A/B/C/Y" Transferred 3 None 1) ∧
  parent_of tree_db "Y" = Some "C" ∧ parent_of tree_db "C" = Some "B" ∧ parent_of tree_db "B" = Some "Y".
Proof. vm_compute. done. Qed.

Lemma link_history_witness :
  ∃ l', select_one (by_child "B") (link_runs no_sha ([spawn "B" "A" "lb" 1] ++ [OpClose "lb" 7]) (mkLinkDb [] [] [])).(links) = Some l' ∧
    evolves (mkLink "lb" "A" "B" None None None None "worker" "A/B" Reserved 1 None 0) l' ∧
    (Reserved = Closed → owns_child l'.(link_state) = false).
Proof.
  apply (link_history no_sha [spawn "B" "A" "lb" 1] [OpClose "lb" 7]
    (mkLink "lb" "A" "B" None None None None "worker" "A/B" Reserved 1 None 0)).
  assert ((link_runs no_sha [spawn "B" "A" "lb" 1] (mkLinkDb [] [] [])).(links) =
    [mkLink "lb" "A" "B" None None None None "worker" "A/B" Reserved 1 None 0]) as -> by (vm_compute; reflexivity).
  left.
Defined.

Lemma event_pages_complete_witness :
  option_map (length (A := AgentLinkEvent)) (read_pages 2 tree_db "Y" None) = Some 1%nat.
Proof.
  unfold tree_db. rewrite (event_pages_complete no_sha (tree ++ moves) "Y" 2).
  - vm_compute. reflexivity.
  - vm_compute. discriminate.
  - vm_compute. lia.
Defined.

End AgentLinksExamples.
