(* ===== verification/Guidance.v ===== *)
(** * Guidance: [bridget-daemon/src/guidance.rs] and its callers in [daemon.rs]

    Who may steer, interrupt or reorder the work of an agent: the pure guard, the
    facts that the daemon collects for it (live identities, links, tasks,
    projects, the pause, the recent interrupts), the journal of its decisions in
    [idempotency.rs], and the handler that cancels a request. *)

From S2P Require Import Prelude Text Uuid Message Router Guards Communication Dispatch Reminders Control Sql AgentLinks.
Local Open Scope Z_scope.

Inductive GuidanceAction :=
  Steer | Interrupt | MidTurnDelivery | QueueList | QueueCancel | QueueReorder | QueuePromote.
#[export] Instance GuidanceAction_eq_dec : EqDecision GuidanceAction.
Proof. solve_decision. Defined.

Inductive GuidancePath := PathSendIdempotent | PathSend | PathControl | PathCancel.
#[export] Instance GuidancePath_eq_dec : EqDecision GuidancePath.
Proof. solve_decision. Defined.

Inductive GuidanceActor := AttachedHuman | BareClient | AgentActor (agent : string) | InternalPause.
#[export] Instance GuidanceActor_eq_dec : EqDecision GuidanceActor.
Proof. solve_decision. Defined.

Record GuidanceFacts := mkGuidance {
  g_action : GuidanceAction;
  g_path : GuidancePath;
  g_actor : GuidanceActor;
  identity_attested : bool;
  trusted_origin : option MessageOrigin;
  child_proof : bool;
  actor_is_target : bool;
  actor_is_parent : bool;
  actor_is_child : bool;
  actor_is_author : bool;
  message_editable : bool;
  recipient_turn_active : bool;
  carrier_queue_fallback : bool;
  cross_project : bool;
  g_paused : bool;
  target_has_active_native_task : bool;
  recent_interrupts_pair : Z;
  recent_interrupts_target : Z;
  g_now : Z;
  last_interrupt_pair_at : option Z;
  third_latest_interrupt_target_at : option Z }.

Inductive GuidanceRefusal :=
  | IntentNotPermitted (reason : string)
  | ReferentPaused
  | MissionActive
  | NotEditable
  | NoActiveTurn
  | SteerUnavailable
  | InterruptRateLimited (retry_after_secs : Z).

(** ** The guard *)

Definition is_queue_edit (a : GuidanceAction) : bool :=
  match a with QueueCancel | QueueReorder | QueuePromote => true | _ => false end.

(** The copy that [QueuePromote] examines. *)
Definition as_steer (paused : bool) (f : GuidanceFacts) : GuidanceFacts :=
  mkGuidance Steer f.(g_path) f.(g_actor) f.(identity_attested) f.(trusted_origin) f.(child_proof)
    f.(actor_is_target) f.(actor_is_parent) f.(actor_is_child) f.(actor_is_author) f.(message_editable)
    f.(recipient_turn_active) f.(carrier_queue_fallback) f.(cross_project) paused
    f.(target_has_active_native_task) f.(recent_interrupts_pair) f.(recent_interrupts_target) f.(g_now)
    f.(last_interrupt_pair_at) f.(third_latest_interrupt_target_at).

(** The seconds before a window that opened at [at_] is over. *)
Definition retry_after (window now : Z) (at_ : option Z) : Z :=
  match at_ with
  | None => window
  | Some at_ => Z.max 0 (i64_saturating_sub (i64_saturating_add at_ window) now)
  end.

Definition interrupt_rate (f : GuidanceFacts) : result GuidanceRefusal () :=
  let pair_retry :=
    if f.(recent_interrupts_pair) =? 0 then 0 else retry_after 30 f.(g_now) f.(last_interrupt_pair_at) in
  let target_retry :=
    if f.(recent_interrupts_target) <? 3 then 0
    else retry_after 600 f.(g_now) f.(third_latest_interrupt_target_at) in
  let retry_after_secs := Z.max pair_retry target_retry in
  if 0 <? retry_after_secs then Err (InterruptRateLimited retry_after_secs) else Ok ().

(** The checks that follow the cases of the queue edits. *)
Definition authorize_direct (f : GuidanceFacts) : result GuidanceRefusal () :=
  let unattested := Err (IntentNotPermitted "identity_unattested") in
  let a := f.(g_action) in
  if bool_decide (f.(g_actor) = InternalPause) then Ok ()
  else if f.(child_proof) && negb (bool_decide (a = MidTurnDelivery)) then unattested
  else if bool_decide (a = QueueList) then Ok ()
  else if bool_decide (a = MidTurnDelivery) && bool_decide (f.(trusted_origin) = Some System) then Ok ()
  else if negb f.(identity_attested) then unattested
  else if bool_decide (f.(g_actor) = AttachedHuman) then Ok ()
  else if bool_decide (f.(g_actor) = BareClient) then
    if bool_decide (a = MidTurnDelivery) && bool_decide (f.(trusted_origin) = Some Human) then Ok () else unattested
  else if f.(actor_is_target) then Err (IntentNotPermitted "self_target")
  else if f.(cross_project) then Err (IntentNotPermitted "cross_project")
  else if bool_decide (a = QueueCancel) || bool_decide (a = QueueReorder) then
    if f.(actor_is_parent) || (bool_decide (a = QueueCancel) && f.(actor_is_author)) then Ok ()
    else Err (IntentNotPermitted "not_parent")
  else if negb f.(actor_is_parent) && negb (bool_decide (a = MidTurnDelivery) && f.(actor_is_child))
  then Err (IntentNotPermitted "not_parent")
  else if f.(g_paused) then Err ReferentPaused
  else if negb (bool_decide (a = Interrupt)) then Ok ()
  else if f.(target_has_active_native_task) then Err MissionActive
  else interrupt_rate f.

Definition authorize (f : GuidanceFacts) : result GuidanceRefusal () :=
  if is_queue_edit f.(g_action) && bool_decide (f.(g_actor) = InternalPause)
  then Err (IntentNotPermitted "identity_unattested")
  else if bool_decide (f.(g_action) = QueuePromote) then authorize_direct (as_steer false f)
  else authorize_direct f.

Definition authorize_queue_edit (f : GuidanceFacts) : result GuidanceRefusal () :=
  _ ← authorize f;
  if negb f.(message_editable) then Err NotEditable
  else if bool_decide (f.(g_action) = QueuePromote) then
    _ ← authorize (as_steer f.(g_paused) f);
    if negb f.(recipient_turn_active) then Err NoActiveTurn
    else if negb f.(carrier_queue_fallback) then Err SteerUnavailable
    else Ok ()
  else Ok ().

Definition guidance_refusal_fields (r : GuidanceRefusal) : string * string :=
  match r with
  | IntentNotPermitted reason => ("intent_not_permitted", reason)
  | ReferentPaused => ("referent_paused", "referent_paused")
  | MissionActive => ("mission_active", "mission_active")
  | NotEditable => ("not_held", "not_held")
  | NoActiveTurn => ("no_active_turn", "no_active_turn")
  | SteerUnavailable => ("steer_unavailable", "steer_unavailable")
  | InterruptRateLimited n =>
    ("interrupt_rate_limited",
     "{" +:+ dquote +:+ "code" +:+ dquote +:+ ":" +:+ dquote +:+ "interrupt_rate_limited" +:+ dquote +:+ "," +:+
     dquote +:+ "retry_after_secs" +:+ dquote +:+ ":" +:+ pretty n +:+ "}")
  end.

Definition queue_edit_refusal_code (r : GuidanceRefusal) : string :=
  let '(code, reason) := guidance_refusal_fields r in
  if bool_decide (code = "intent_not_permitted") then code +:+ ":" +:+ reason else code.

(** ** The journal of the decisions *)

Record GuidanceEvent := mkGuidanceEvent {
  ge_at : Z;
  ge_actor : string;
  ge_target : string;
  ge_action : string;
  ge_path : string;
  ge_message_id : option string;
  ge_outcome : string }.

(** [COUNT( * )] read into a [u32]. *)
Definition count_u32 {A} (rows : list A) : result string Z :=
  let n := Z.of_nat (length rows) in
  if n <=? u32_max then Ok n else Err "integer out of range".

(** The rows that both counts are about. *)
Definition admitted_interrupt (target : string) (since : Z) (e : GuidanceEvent) : bool :=
  negb (bool_decide (e.(ge_actor) = "human")) && bool_decide (e.(ge_target) = target)
  && bool_decide (e.(ge_action) = "interrupt") && bool_decide (e.(ge_outcome) = "admitted")
  && (since <=? e.(ge_at)).

Definition max_at (rows : list GuidanceEvent) : option Z :=
  match rows with
  | [] => None
  | e :: rows => Some (foldl (λ m e, Z.max m e.(ge_at)) e.(ge_at) rows)
  end.

Definition count_interrupts_pair (events : list GuidanceEvent) (actor target : string) (since : Z)
    : result string (Z * option Z) :=
  let rows := select (λ e, bool_decide (e.(ge_actor) = actor) && admitted_interrupt target since e) events in
  n ← count_u32 rows; Ok (n, max_at rows).

(** [ORDER BY at DESC, id DESC LIMIT 1 OFFSET 2]: the identifiers grow with the
    insertions, and the sort is stable. *)
Definition third_latest (rows : list GuidanceEvent) : option Z :=
  ge_at <$> sort_by (λ a b, b.(ge_at) <=? a.(ge_at)) (reverse rows) !! 2%nat.

Definition count_interrupts_target (events : list GuidanceEvent) (target : string) (since : Z)
    : result string (Z * option Z) :=
  let rows := select (admitted_interrupt target since) events in
  n ← count_u32 rows; Ok (n, third_latest rows).

Definition purge_guidance_events (events : list GuidanceEvent) (now : Z) : list GuidanceEvent * nat :=
  let old := λ e, e.(ge_at) <? i64_saturating_sub now 86400 in
  (delete_where old events, updated old events).

(** ** The state the daemon reads *)

Inductive ConnectionRole := RoleWrapper | RoleAttach | RoleClient | RoleService | RoleWorker.
#[export] Instance ConnectionRole_eq_dec : EqDecision ConnectionRole.
Proof. solve_decision. Defined.

(** The fields of a delegated task that guidance reads. *)
Record Task := mkTask {
  task_owner : string;
  task_owner_instance : string;
  task_child_instance : option string;
  task_mission : string;
  task_state : string }.

Definition task_terminal (t : Task) : bool :=
  bool_decide (t.(task_state) = "result_available") || bool_decide (t.(task_state) = "failed")
  || bool_decide (t.(task_state) = "cancelled").

Record GuidanceState := mkGState {
  gs_daemon : Daemon;
  connection_roles : gmap string ConnectionRole;
  gs_links : LinkDb;
  (** [native_delegations]: the child of each payload, and the payload, [None]
      when it does not decode. *)
  delegations : list (string * option Task);
  gs_control : ControlDb;
  guidance_events : list GuidanceEvent;
  (** Whether the journal accepts a row. *)
  events_writable : bool;
  (** [pending_attach_sends]: the connection of each message. *)
  pending_attach_sends : gmap string string;
  gs_requests : gmap string RequestRow;
  (** The column [cancel_reason] of the requests. *)
  cancel_reasons : gmap string string;
  gs_pending_replies : list PendingReply;
  wait_epoch : Z }.

(** What made the facts unavailable; the text is only logged. *)
Inductive FactsError := TaskUnreadable | LinkUnreadable (e : LinkError) | CountUnreadable (what : string).

Definition for_child (st : GuidanceState) (child : string) : result FactsError (option Task) :=
  match select_one (λ r, bool_decide (r.1 = child)) st.(delegations) with
  | None => Ok None
  | Some (_, Some t) => Ok (Some t)
  | Some (_, None) => Err TaskUnreadable
  end.

(** ** The facts *)

Definition guidance_source (mono : Z) (st : GuidanceState) (conn : option string)
    : GuidanceActor * option (string * string) * bool :=
  match conn with
  | None => (BareClient, None, false)
  | Some conn =>
    let d := st.(gs_daemon) in
    let identity := live_connection_identity mono d conn in
    let ui := is_some_and identity (λ ai, bool_decide (ai.1 = UI_HUMAN_AGENT_ID)
      && is_some_and (d.(presences) !! ai.2) (λ p, bool_decide (p.(p_agent_type) = "ui"))) in
    let actor :=
      if bool_decide (st.(connection_roles) !! conn = Some RoleAttach)
         && bool_decide (conn ∈ d.(connections)) && negb (is_some (d.(conn_names) !! conn)) then AttachedHuman
      else if ui then BareClient
      else match identity with Some (agent, _) => AgentActor agent | None => BareClient end in
    (actor, identity, ui)
  end.

Definition with_origin (o : option MessageOrigin) (m : BridgetMessage) : BridgetMessage :=
  mkMessage m.(cross_project_reason) m.(id) m.(from) m.(from_display_name) m.(thread_display_title)
    m.(to) m.(body) m.(reply) m.(hops) m.(reply_timeout) m.(deadline_at) m.(in_reply_to) m.(from_declared)
    o m.(intent) m.(references) m.(delegated_origin) m.(thread_notice).

Definition normalize_guidance_origin (mono : Z) (st : GuidanceState) (conn : string) (control : bool)
    (m : BridgetMessage) : BridgetMessage :=
  let '(actor, _, ui) := guidance_source mono st (Some conn) in
  if bool_decide (m.(origin) = Some System)
     || (bool_decide (m.(origin) = Some Human)
         && (control || (negb (bool_decide (actor = AttachedHuman)) && negb ui)))
  then with_origin None m else m.

Definition link_held_by (parent : string) (l : option AgentLinkRecord) : bool :=
  is_some_and l (λ l, bool_decide (l.(parent_instance_id) = parent)
    && (bool_decide (l.(link_state) = Open) || bool_decide (l.(link_state) = Transferred))).

Definition task_held_by (agent inst child : string) (t : option Task) : bool :=
  is_some_and t (λ t, bool_decide (t.(task_owner) = agent) && bool_decide (t.(task_owner_instance) = inst)
    && bool_decide (t.(task_child_instance) = Some child)).

(** Whether the actor is the parent, and the child, of the target. *)
Definition kinship (st : GuidanceState) (target : string) (task : option Task)
    (identity : option (string * string)) (target_instance : option string) : result FactsError (bool * bool) :=
  match identity, target_instance with
  | Some (agent, inst), Some ti =>
    l ← map_err LinkUnreadable (agent_link_for_child st.(gs_links) ti);
    let parent := link_held_by inst l || task_held_by agent inst ti task in
    l' ← map_err LinkUnreadable (agent_link_for_child st.(gs_links) inst);
    own ← for_child st agent;
    Ok (parent, link_held_by ti l' || task_held_by target ti inst own)
  | _, _ => Ok (false, false)
  end.

(** The counts of the recent interrupts, read for an agent that interrupts. *)
Definition interrupt_counts (st : GuidanceState) (actor : GuidanceActor) (action : GuidanceAction) (target : string)
    (now : Z) : result FactsError (Z * option Z * Z * option Z) :=
  match action, actor with
  | Interrupt, AgentActor agent =>
    '(npair, last) ← map_err CountUnreadable
       (count_interrupts_pair st.(guidance_events) agent target (i64_saturating_sub now 30));
    '(count, third) ← map_err CountUnreadable
       (count_interrupts_target st.(guidance_events) target (i64_saturating_sub now 600));
    Ok (npair, last, count, third)
  | _, _ => Ok (0, None, 0, None)
  end.

Definition target_instance_of (mono : Z) (d : Daemon) (target : string) : option string :=
  r ← get_agent d.(router) target;
  snd <$> live_connection_identity mono d r.(connection_id).

Definition guidance_facts (mono now : Z) (st : GuidanceState) (conn : option string) (target : string)
    (action : GuidanceAction) (path : GuidancePath) (trusted_producer : option MessageOrigin) (proof : bool)
    : result FactsError GuidanceFacts :=
  let d := st.(gs_daemon) in
  let '(source, identity, ui) := guidance_source mono st conn in
  let actor :=
    if negb (is_some conn) && bool_decide (action = Interrupt) && bool_decide (path = PathControl)
    then InternalPause else source in
  let target := routing_agent_id target in
  let target_instance := target_instance_of mono d target in
  task ← for_child st target;
  '(parent, child) ← kinship st target task identity target_instance;
  let cross :=
    match conn ≫= connection_communication_project mono d, agent_communication_project mono d target with
    | Some a, Some b => negb (bool_decide (a = b))
    | _, _ => false
    end in
  let paused :=
    match admit_autonomous_effect AgentGuidance (read st.(gs_control)) with
    | DeferredBy _ => true | EffectAdmitted => false
    end in
  '(npair, last, count, third) ← interrupt_counts st actor action target now;
  Ok (mkGuidance action path actor (is_some identity || bool_decide (actor = AttachedHuman))
        (opt_or trusted_producer (if ui then Some Human else None)) proof
        (is_some_and identity (λ ai, bool_decide (ai.1 = target))) parent child false false false false cross paused
        (is_some_and task (λ t, negb (task_terminal t) && negb (bool_decide (t.(task_mission) = ""))
           && is_some t.(task_child_instance) && bool_decide (t.(task_child_instance) = target_instance)))
        npair count now last third).

(** ** Recording the decisions *)

Definition guidance_event_labels (actor : GuidanceActor) (action : GuidanceAction) (path : GuidancePath)
    : string * string * string :=
  (match actor with
   | AgentActor agent => agent | AttachedHuman => "human" | BareClient => "unattested"
   | InternalPause => "internal_pause"
   end,
   match action with
   | Steer | QueuePromote => "steer" | Interrupt => "interrupt"
   | MidTurnDelivery | QueueList | QueueCancel | QueueReorder => "read_only"
   end,
   match path with
   | PathSendIdempotent => "send_idempotent" | PathSend => "send" | PathControl => "control"
   | PathCancel => "cancel"
   end).

Definition with_events (es : list GuidanceEvent) (st : GuidanceState) : GuidanceState :=
  mkGState st.(gs_daemon) st.(connection_roles) st.(gs_links) st.(delegations) st.(gs_control) es
    st.(events_writable) st.(pending_attach_sends) st.(gs_requests) st.(cancel_reasons)
    st.(gs_pending_replies) st.(wait_epoch).

Definition record_guidance_event (e : GuidanceEvent) (st : GuidanceState) : GuidanceState * result string () :=
  if st.(events_writable) then (with_events (st.(guidance_events) ++ [e]) st, Ok ())
  else (st, Err "guidance_events").

Definition is_guided (a : GuidanceAction) : bool :=
  match a with Steer | Interrupt => true | _ => false end.

Definition record_guidance_refusal (mono now : Z) (conn : option string) (target id : string)
    (action : option GuidanceAction) (path : GuidancePath) (code : string) (st : GuidanceState) : GuidanceState :=
  match action with
  | Some action =>
    if negb (is_guided action) then st
    else if negb (is_some conn) && bool_decide (path = PathControl) then st
    else
      let '(actor, _, _) := guidance_source mono st conn in
      let '(actor, action, path) := guidance_event_labels actor action path in
      (record_guidance_event
         (mkGuidanceEvent now actor (routing_agent_id target) action path (Some id) ("refused:" +:+ code)) st).1
  | None => st
  end.

Definition record_guidance_outcome (f : GuidanceFacts) (target id outcome : string) (st : GuidanceState)
    : GuidanceState * result string () :=
  if bool_decide (f.(g_actor) = InternalPause) || negb (is_guided f.(g_action)) then (st, Ok ())
  else
    let '(actor, action, path) := guidance_event_labels f.(g_actor) f.(g_action) f.(g_path) in
    record_guidance_event
      (mkGuidanceEvent f.(g_now) actor (routing_agent_id target) action path (Some id) outcome) st.

Definition check_guidance (mono now : Z) (conn : option string) (target : string) (action : GuidanceAction)
    (path : GuidancePath) (trusted_producer : option MessageOrigin) (proof : bool) (id : string) (st : GuidanceState)
    : GuidanceState * result (string * string) GuidanceFacts :=
  match guidance_facts mono now st conn target action path trusted_producer proof with
  | Err _ =>
    (record_guidance_refusal mono now conn target id (Some action) path "intent_not_permitted" st,
     Err ("intent_not_permitted", "identity_unattested"))
  | Ok f =>
    match authorize f with
    | Ok _ => (st, Ok f)
    | Err refusal =>
      let '(code, reason) := guidance_refusal_fields refusal in
      ((record_guidance_outcome f target id ("refused:" +:+ code) st).1, Err (code, reason))
    end
  end.

(** The delivery of a message in the middle of a turn is examined again at each
    attempt, for the connection that sent it. *)
Definition guidance_mid_turn_ok `{UuidLib} (mono now : Z) (st : GuidanceState) (m : BridgetMessage) (target : string)
    (trusted_producer : option MessageOrigin) (origin_conn : option string) : bool :=
  let conn :=
    opt_or origin_conn
      (opt_or (st.(pending_attach_sends) !! m.(id))
         (if negb (bool_decide (m.(from) = UI_HUMAN_AGENT_ID)) && is_some (parse_str m.(from))
          then connection_id <$> get_agent st.(gs_daemon).(router) m.(from) else None)) in
  match guidance_facts mono now st conn target MidTurnDelivery PathSendIdempotent trusted_producer
          (is_some m.(delegated_origin)) with
  | Ok f => is_ok (authorize f)
  | Err _ => false
  end.

(** The admission of an idempotent send.  A steer that the mobile ingress brings,
    once it has verified the device and its scope on this recipient, is examined
    as that of an attached human, and its refusal is not written in the journal;
    [scoped_mobile_human] tells this ingress. *)
Definition as_attached_human (f : GuidanceFacts) : GuidanceFacts :=
  mkGuidance f.(g_action) f.(g_path) AttachedHuman true f.(trusted_origin) f.(child_proof)
    f.(actor_is_target) f.(actor_is_parent) f.(actor_is_child) f.(actor_is_author) f.(message_editable)
    f.(recipient_turn_active) f.(carrier_queue_fallback) f.(cross_project) f.(g_paused)
    f.(target_has_active_native_task) f.(recent_interrupts_pair) f.(recent_interrupts_target) f.(g_now)
    f.(last_interrupt_pair_at) f.(third_latest_interrupt_target_at).
Definition guidance_admission (scoped_mobile_human : bool) (mono now : Z) (conn : option string) (target : string)
    (action : GuidanceAction) (path : GuidancePath) (trusted_producer : option MessageOrigin) (proof : bool) (id : string)
    (st : GuidanceState) : GuidanceState * result (string * string) GuidanceFacts :=
  if scoped_mobile_human && bool_decide (action = Steer) then
    (st, match guidance_facts mono now st conn target action PathSendIdempotent (Some Human) false with
         | Err _ => Err ("intent_not_permitted", "identity_unattested")
         | Ok f =>
           let f := as_attached_human f in
           match authorize f with Ok _ => Ok f | Err refusal => Err (guidance_refusal_fields refusal) end
         end)
  else check_guidance mono now conn target action path trusted_producer proof id st.

(** The common shape of the handlers of a guided command: the admission, then,
    under the same lock, the outcome that the rest of the handler decides: [None]
    when the command goes through, or the code of a later refusal. *)
Definition guided_command (scoped_mobile_human : bool) (mono now : Z) (conn : option string) (target : string)
    (action : GuidanceAction) (path : GuidancePath) (trusted_producer : option MessageOrigin) (proof : bool) (id : string)
    (later : option string) (st : GuidanceState) : GuidanceState * bool :=
  match guidance_admission scoped_mobile_human mono now conn target action path trusted_producer proof id st with
  | (st, Err _) => (st, false)
  | (st, Ok f) =>
    match later with
    | Some code => ((record_guidance_outcome f target id ("refused:" +:+ code) st).1, false)
    | None =>
      match record_guidance_outcome f target id "admitted" st with
      | (st, Ok _) => (st, true)
      | (st, Err _) => ((record_guidance_outcome f target id "refused:persistence_failed" st).1, false)
      end
    end
  end.

(** ** [CancelRequest] *)

Definition with_request (id : string) (r : RequestRow) (reason : option string) (st : GuidanceState) : GuidanceState :=
  mkGState st.(gs_daemon) st.(connection_roles) st.(gs_links) st.(delegations) st.(gs_control)
    st.(guidance_events) st.(events_writable) st.(pending_attach_sends) (<[id := r]> st.(gs_requests))
    (partial_alter (λ _, reason) id st.(cancel_reasons)) st.(gs_pending_replies) st.(wait_epoch).

Definition cancel_request (id sender : string) (reason : option string) (st : GuidanceState)
    : GuidanceState * option RequestRow :=
  match st.(gs_requests) !! id with
  | None => (st, None)
  | Some r =>
    if negb (bool_decide (r.(row_sender) = sender))
       || (negb (is_open r) && negb (bool_decide (r.(row_state) = "cancelled"))) then (st, Some r)
    else if is_open r then (with_request id (with_state "cancelled" r) reason st, Some (with_state "cancelled" r))
    else (st, Some r)
  end.

Inductive CancelReply := CancelNack (reason : string) | RequestCancelled (state : string).
Inductive Notification := CancelDelivery (reason : string) (interrupt_active : bool) | CancelText (body : string).

(** The replies waited for without those of the request, and the waiters woken. *)
Definition forget_request (id : string) (st : GuidanceState) : GuidanceState :=
  mkGState st.(gs_daemon) st.(connection_roles) st.(gs_links) st.(delegations) st.(gs_control)
    st.(guidance_events) st.(events_writable) st.(pending_attach_sends) st.(gs_requests) st.(cancel_reasons)
    (List.filter (λ p, negb (bool_decide (p.(msg_id) = id))) st.(gs_pending_replies))
    (wrap_u64 (st.(wait_epoch) + 1)).

Definition cancel_admission (mono now : Z) (conn id : string) (st : GuidanceState)
    : GuidanceState * option GuidanceFacts :=
  match opt_filter is_open (st.(gs_requests) !! id) with
  | None => (st, None)
  | Some r =>
    let d := st.(gs_daemon) in
    match project_scope (connection_communication_project mono d conn)
            (agent_communication_project mono d r.(row_target)) r.(row_target) None with
    | Err reason =>
      let code := if Str.starts_with "cross_project_reason_required" reason
                  then "cross_project_reason_required" else "invalid_cross_project_reason" in
      (record_guidance_refusal mono now (Some conn) r.(row_target) id (Some Interrupt) PathCancel code st, None)
    | Ok _ =>
      let '(st, f) := check_guidance mono now (Some conn) r.(row_target) Interrupt PathCancel None false id st in
      (st, ok f)
    end
  end.

Definition cancel_notification (id sender : string) (r : RequestRow) (interrupt_active : bool) (st : GuidanceState)
    : option (string * Notification) :=
  let d := st.(gs_daemon) in
  let reason := st.(cancel_reasons) !! id in
  a ← get_agent d.(router) r.(row_target);
  if negb (bool_decide (a.(connection_id) ∈ d.(connections))) then None
  else
    let structured := is_some_and (i ← d.(conn_instances) !! a.(connection_id); d.(presences) !! i)
      (λ p, bool_decide (p.(p_mode) = Some Acp) || bool_decide (p.(p_transport) = "t3code")) in
    Some (a.(connection_id),
          if structured then CancelDelivery (default "demande annulée" reason) interrupt_active
          else CancelText ("Demande #" +:+ id +:+ " annulée par " +:+ sender +:+ ". Aucune réponse n'est requise." +:+
                           from_option (λ r, " Motif : " +:+ r) "" reason)).

Definition refuse_admission (f : option GuidanceFacts) (target id code : string) (st : GuidanceState) : GuidanceState :=
  match f with Some f => (record_guidance_outcome f target id code st).1 | None => st end.

(** Whether the target is told to interrupt its turn: the grant must be written. *)
Definition grant_interrupt (f : option GuidanceFacts) (target id : string) (st : GuidanceState) : GuidanceState * bool :=
  match f with
  | None => (st, false)
  | Some f =>
    match record_guidance_outcome f target id "admitted" st with
    | (st, Ok _) => (st, true)
    | (st, Err _) => ((record_guidance_outcome f target id "refused:persistence_failed" st).1, false)
    end
  end.

Definition handle_cancel (mono now : Z) (conn id sender : string) (reason : option string) (st : GuidanceState)
    : GuidanceState * CancelReply * option (string * Notification) :=
  let d := st.(gs_daemon) in
  let authorized :=
    is_some_and (get_agent d.(router) sender) (λ a, bool_decide (a.(connection_id) = conn))
    || is_some_and (live_connection_identity mono d conn) (λ ai, bool_decide (ai.1 = sender)) in
  if negb authorized then
    (st, CancelNack "annulation réservée à la connexion de l'émetteur ou à son client auxiliaire attesté", None)
  else
    let '(st, facts) := cancel_admission mono now conn id st in
    match cancel_request id sender reason st with
    | (st, Some r) =>
      if negb (bool_decide (r.(row_sender) = sender)) then
        (refuse_admission facts r.(row_target) id "refused:not_permitted" st,
         CancelNack "seul l'émetteur peut annuler cette demande", None)
      else if bool_decide (r.(row_state) = "cancelled") then
        let '(st, interrupt_active) := grant_interrupt facts r.(row_target) id st in
        let st := forget_request id st in
        (st, RequestCancelled r.(row_state), cancel_notification id sender r interrupt_active st)
      else
        (refuse_admission facts r.(row_target) id "refused:terminal_request" st,
         CancelNack ("demande déjà terminale: " +:+ r.(row_state)), None)
    | (st, None) => (st, CancelNack "demande introuvable", None)
    end.

(** ** The rights *)

Definition agent_related (f : GuidanceFacts) : Prop :=
  match f.(g_action) with
  | QueueCancel => f.(actor_is_parent) = true ∨ f.(actor_is_author) = true
  | MidTurnDelivery => f.(actor_is_parent) = true ∨ f.(actor_is_child) = true
  | _ => f.(actor_is_parent) = true
  end.

(** The window of at most [n - 1] recent interrupts is not exhausted, or its
    oldest one is over. *)
Definition window_free (n count window now : Z) (at_ : option Z) : Prop :=
  count < n ∨ ∃ t, at_ = Some t ∧ i64_saturating_add t window ≤ now.

Definition agent_free (f : GuidanceFacts) : Prop :=
  match f.(g_action) with
  | Steer | MidTurnDelivery => f.(g_paused) = false
  | Interrupt => f.(g_paused) = false ∧ f.(target_has_active_native_task) = false ∧
      window_free 1 f.(recent_interrupts_pair) 30 f.(g_now) f.(last_interrupt_pair_at) ∧
      window_free 3 f.(recent_interrupts_target) 600 f.(g_now) f.(third_latest_interrupt_target_at)
  | _ => True
  end.

(** What each actor may do. *)
Definition permitted (f : GuidanceFacts) : Prop :=
  match f.(g_actor) with
  | InternalPause => is_queue_edit f.(g_action) = false
  | actor =>
    (f.(child_proof) = true → f.(g_action) = MidTurnDelivery) ∧
    (f.(g_action) = QueueList ∨ (f.(g_action) = MidTurnDelivery ∧ f.(trusted_origin) = Some System) ∨
     (f.(identity_attested) = true ∧
      match actor with
      | AgentActor _ => f.(actor_is_target) = false ∧ f.(cross_project) = false ∧ agent_related f ∧ agent_free f
      | BareClient => f.(g_action) = MidTurnDelivery ∧ f.(trusted_origin) = Some Human
      | _ => True
      end))
  end.

Lemma retry_after_0 window now at_ :
  0 < window → i64_min ≤ now ≤ i64_max →
  retry_after window now at_ ≤ 0 ↔ ∃ t, at_ = Some t ∧ i64_saturating_add t window ≤ now.
Proof.
  intros Hw Hn. unfold retry_after. destruct at_ as [t|]; [|split; [lia|naive_solver]].
  assert (i64_min ≤ i64_saturating_add t window ≤ i64_max).
  { unfold i64_saturating_add, i64_saturate. unfold_ints. lia. }
  assert ((∃ t0, Some t = Some t0 ∧ i64_saturating_add t0 window ≤ now) ↔ i64_saturating_add t window ≤ now) as ->
    by naive_solver.
  generalize dependent (i64_saturating_add t window). intros x Hx.
  unfold i64_saturating_sub, i64_saturate. unfold i64_min, i64_max in *. lia.
Qed.

Lemma interrupt_rate_Ok f :
  0 ≤ f.(recent_interrupts_pair) → i64_min ≤ f.(g_now) ≤ i64_max →
  interrupt_rate f = Ok () ↔
  window_free 1 f.(recent_interrupts_pair) 30 f.(g_now) f.(last_interrupt_pair_at) ∧
  window_free 3 f.(recent_interrupts_target) 600 f.(g_now) f.(third_latest_interrupt_target_at).
Proof.
  intros Hp Hn. unfold interrupt_rate, window_free.
  
  rewrite <-(retry_after_0 30 _ _ ltac:(lia) Hn), <-(retry_after_0 600 _ _ ltac:(lia) Hn).
  destruct (0 <? _) eqn:H; [apply Z.ltb_lt in H|apply Z.ltb_ge in H]; (split; [intros H'|intros [H1 H2]]); try done.
  - exfalso. destruct (Z.eqb_spec (recent_interrupts_pair f) 0), (Z.ltb_spec (recent_interrupts_target f) 3); lia.
  - destruct (Z.eqb_spec (recent_interrupts_pair f) 0), (Z.ltb_spec (recent_interrupts_target f) 3); lia.
Qed.

(** The equalities of constants that a guard compares, and its branches. *)
Ltac decide_constants :=
  repeat match goal with
  | |- context [bool_decide (?x = ?y)] =>
    first [rewrite (bool_decide_eq_true_2 (x = y)) by reflexivity
          |rewrite (bool_decide_eq_false_2 (x = y)) by discriminate]
  end.
Ltac by_guards := repeat match goal with |- context [if ?b then _ else _] => destruct b eqn:? end.

(** The guard grants exactly the rights of each actor.  An attached human may
    do everything; a client without identity may only have a human message
    delivered; an agent never acts on itself nor across projects, steers,
    interrupts and reorders only as the parent of the target, cancels also its
    own messages, and interrupts only outside a pause and a native mission, when
    its last interrupt of the target is 30 seconds old and the third latest of
    all 600 seconds old; the internal pause does everything but edit a queue. *)
Lemma authorize_grants f :
  0 ≤ f.(recent_interrupts_pair) → i64_min ≤ f.(g_now) ≤ i64_max →
  authorize f = Ok () ↔ permitted f.
Proof.
  intros Hp Hn. pose proof (interrupt_rate_Ok f Hp Hn) as Hrate.
  destruct f as [a path actor att ori proof tgt par chi auth ed act fb cross pau task np nt now lp tl]; simpl in *.
  unfold authorize, authorize_direct, permitted, agent_related, agent_free. simpl.
  destruct actor, a; simpl; decide_constants; simpl; by_guards; rewrite ?Hrate;
    rewrite ?andb_true_iff, ?andb_false_iff, ?orb_true_iff, ?orb_false_iff, ?negb_true_iff, ?negb_false_iff,
      ?bool_decide_eq_true, ?bool_decide_eq_false in *; naive_solver.
Qed.

(** ** The rate of interrupts *)

(** An interrupt of [target] that was granted to an agent. *)
Definition granted_interrupt (target : string) (e : GuidanceEvent) : bool :=
  negb (bool_decide (e.(ge_actor) = "human")) && bool_decide (e.(ge_target) = target)
  && bool_decide (e.(ge_action) = "interrupt") && bool_decide (e.(ge_outcome) = "admitted").
Definition granted_to (actor target : string) (e : GuidanceEvent) : bool :=
  bool_decide (e.(ge_actor) = actor) && granted_interrupt target e.

Lemma max_at_spec rows m : max_at rows = Some m → ∀ e, e ∈ rows → e.(ge_at) ≤ m.
Proof.
  destruct rows as [|x rows]; simpl; [done|]. intros [= <-].
  assert (∀ l acc, acc ≤ foldl (λ m e, Z.max m e.(ge_at)) acc l ∧
    ∀ e, e ∈ l → e.(ge_at) ≤ foldl (λ m e, Z.max m e.(ge_at)) acc l) as H.
  { clear. induction l as [|y l IH]; intros acc; simpl; [split; [lia|by intros e ?%elem_of_nil]|].
    destruct (IH (Z.max acc y.(ge_at))) as [H1 H2]. split; [lia|]. intros e [->|He]%elem_of_cons; [lia|by apply H2]. }
  destruct (H rows x.(ge_at)) as [H1 H2]. intros e [->|He]%elem_of_cons; [done|by apply H2].
Qed.

(** The third of a decreasing list is above every value that three elements reach. *)
Lemma third_latest_spec rows v x :
  third_latest rows = Some v → (3 ≤ count_if (λ e, (x <=? e.(ge_at))%Z) rows)%nat → x ≤ v.
Proof.
  unfold third_latest. set (desc := λ a b : GuidanceEvent, b.(ge_at) <=? a.(ge_at)). intros Hv Hc.
  assert (StronglySorted (λ a b, desc a b = true) (sort_by desc (reverse rows))) as Hs.
  { apply Sorted_StronglySorted; [intros a b c; unfold desc; lia|]. apply sort_by_sorted. unfold desc. intros. lia. }
  rewrite <-(count_if_perm _ (sort_by desc (reverse rows)) rows) in Hc
    by by rewrite sort_by_perm, reverse_Permutation.
  destruct (sort_by desc (reverse rows)) as [|a [|b [|c l]]]; simpl in Hv; [done..|]. injection Hv as <-.
  rewrite !count_if_cons in Hc. destruct (Z.leb_spec x (ge_at c)); [lia|exfalso].
  assert (count_if (λ e, x <=? e.(ge_at)) l = 0%nat); [|destruct (x <=? ge_at a), (x <=? ge_at b); lia].
  apply count_if_0. intros e He. inversion Hs as [|? ? Hs1 _]; subst. inversion Hs1 as [|? ? Hs2 _]; subst.
  inversion Hs2 as [|? ? _ Hf]; subst. rewrite Forall_forall in Hf. specialize (Hf e He). unfold desc in Hf. lia.
Qed.

(** What the guard saw of the journal when it granted an interrupt. *)
Definition rate_ok (evs : list GuidanceEvent) (e : GuidanceEvent) : Prop :=
  (∀ x, x ∈ evs → granted_to e.(ge_actor) e.(ge_target) x = true → x.(ge_at) + 30 ≤ e.(ge_at)) ∧
  (∀ x, (3 ≤ count_if (λ y, granted_interrupt e.(ge_target) y && (x <=? y.(ge_at))%Z) evs)%nat → x + 600 ≤ e.(ge_at)).

Definition clock_ok (now : Z) : Prop := 0 ≤ now ≤ i64_max - 600.

Lemma count_u32_Ok {A} (rows : list A) n : count_u32 rows = Ok n → n = Z.of_nat (length rows).
Proof. unfold count_u32. destruct (_ <=? _); congruence. Qed.

Lemma saturating_window t w now : clock_ok now → i64_saturating_add t w ≤ now → t + w ≤ now.
Proof. unfold clock_ok, i64_saturating_add, i64_saturate, i64_min, i64_max. lia. Qed.

Lemma since_window now w : clock_ok now → 0 ≤ w ≤ 600 → i64_saturating_sub now w = now - w.
Proof. unfold clock_ok, i64_saturating_sub, i64_saturate, i64_min, i64_max. lia. Qed.

Lemma admitted_granted target since e :
  admitted_interrupt target since e = granted_interrupt target e && (since <=? e.(ge_at)).
Proof. done. Qed.

(** An interrupt that the guard grants to an agent leaves both windows free. *)
Lemma interrupt_counts_rate st agent target now np nt last third path mid :
  clock_ok now →
  interrupt_counts st (AgentActor agent) Interrupt target now = Ok (np, last, nt, third) →
  window_free 1 np 30 now last → window_free 3 nt 600 now third →
  rate_ok st.(guidance_events) (mkGuidanceEvent now agent target "interrupt" path mid "admitted").
Proof.
  intros Hn Hc Hw1 Hw2. unfold interrupt_counts, count_interrupts_pair, count_interrupts_target in Hc.
  rewrite !(since_window now) in Hc by (done || lia).
  set (rows2 := select (admitted_interrupt target (now - 600)) _) in Hc. set (rows1 := select _ _) in Hc.
  apply bind_Ok in Hc as ([np' last'] & H1 & Hc). apply bind_Ok in Hc as ([nt' third'] & H2 & [= <- <- <- <-]).
  destruct (count_u32 rows1) as [n1|] eqn:Hr1; [|done]. injection H1 as <- <-.
  destruct (count_u32 rows2) as [n2|] eqn:Hr2; [|done]. injection H2 as <- <-.
  apply count_u32_Ok in Hr1 as ->, Hr2 as ->.
  split; simpl.
  - intros x Hx Hg. destruct (decide (x.(ge_at) < now - 30)); [lia|].
    assert (x ∈ rows1) as Hin.
    { apply select_elem. split; [done|]. unfold granted_to in Hg. rewrite admitted_granted.
      apply andb_true_iff in Hg as [-> ->]. simpl. lia. }
    destruct Hw1 as [Hz|(m & Hm & Hle)].
    + destruct rows1; [by apply elem_of_nil in Hin|simpl in Hz; lia].
    + pose proof (max_at_spec _ _ Hm _ Hin). apply saturating_window in Hle; [lia|done].
  - intros x Hx. destruct (decide (x < now - 600)); [lia|].
    assert (count_if (λ y, granted_interrupt target y && (x <=? y.(ge_at))) st.(guidance_events) =
            count_if (λ y, x <=? y.(ge_at)) rows2) as Heq.
    { unfold count_if, rows2, select. rewrite <-!select_and. unfold select. f_equal. apply List.filter_ext.
      intros y. rewrite admitted_granted. destruct (granted_interrupt target y); simpl; [|done].
      destruct (Z.leb_spec x (ge_at y)); destruct (Z.leb_spec (now - 600) (ge_at y)); simpl; lia || done. }
    rewrite Heq in Hx. destruct Hw2 as [Hz|(m & Hm & Hle)].
    + pose proof (count_if_length (λ y, x <=? y.(ge_at)) rows2). lia.
    + apply saturating_window in Hle; [|done]. pose proof (third_latest_spec _ _ _ Hm Hx). lia.
Qed.

(** A steer or an interrupt that the guard grants. *)
Lemma authorize_guided f :
  is_guided f.(g_action) = true → authorize f = Ok () →
  f.(g_actor) = InternalPause ∨ f.(g_actor) = AttachedHuman ∨
  ∃ a, f.(g_actor) = AgentActor a ∧ f.(actor_is_target) = false ∧ f.(cross_project) = false ∧
    f.(actor_is_parent) = true ∧ f.(g_paused) = false ∧
    (f.(g_action) = Interrupt → f.(target_has_active_native_task) = false ∧ interrupt_rate f = Ok ()).
Proof.
  unfold authorize, authorize_direct. destruct (g_action f) eqn:Ha, (g_actor f) eqn:Hac; try done; intros _; simpl;
    decide_constants; simpl; by_guards; rewrite ?andb_false_r, ?andb_true_r in *; try done; try (by eauto);
    intros; right; right; eexists; split_and!; try done;
    destruct (actor_is_parent f); done.
Qed.

Lemma guidance_facts_Ok mono now st conn target action path producer proof f :
  guidance_facts mono now st conn target action path producer proof = Ok f →
  let '(source, identity, ui) := guidance_source mono st conn in
  f.(g_action) = action ∧ f.(g_path) = path ∧ f.(g_now) = now ∧
  f.(g_actor) = (if negb (is_some conn) && bool_decide (action = Interrupt) && bool_decide (path = PathControl)
                 then InternalPause else source) ∧
  f.(actor_is_target) = is_some_and identity (λ ai, bool_decide (ai.1 = routing_agent_id target)) ∧
  (∃ task, for_child st (routing_agent_id target) = Ok task ∧
    kinship st (routing_agent_id target) task identity (target_instance_of mono st.(gs_daemon) (routing_agent_id target))
      = Ok (f.(actor_is_parent), f.(actor_is_child))) ∧
  f.(g_paused) = (read st.(gs_control)).(f_paused) ∧
  interrupt_counts st f.(g_actor) action (routing_agent_id target) now =
    Ok (f.(recent_interrupts_pair), f.(last_interrupt_pair_at), f.(recent_interrupts_target),
        f.(third_latest_interrupt_target_at)).
Proof.
  unfold guidance_facts. destruct (guidance_source mono st conn) as [[source identity] ui].
  intros H. apply bind_Ok in H as (task & Htask & H). apply bind_Ok in H as ([parent child] & Hk & H).
  apply bind_Ok in H as (q & Hc & H). destruct q as [[[np last] nt] third]. injection H as <-. simpl.
  split_and!; try done; [by eauto|].
  unfold admit_autonomous_effect. cbn. by destruct (paused _).
Qed.

(** What one command adds to the journal. *)
Definition appended (now : Z) (evs evs' : list GuidanceEvent) : Prop :=
  evs' = evs ∨ ∃ e, evs' = evs ++ [e] ∧ e.(ge_at) = now ∧
    (∀ target, granted_interrupt target e = true → rate_ok evs e).

Lemma refused_not_admitted code : "refused:" +:+ code ≠ "admitted".
Proof. rewrite !Str.app_cons. discriminate. Qed.

Lemma refused_appended now evs e code :
  e.(ge_at) = now → e.(ge_outcome) = "refused:" +:+ code → appended now evs (evs ++ [e]).
Proof.
  intros Hn Ho. right. exists e. split_and!; [done..|]. intros target Hg. exfalso. unfold granted_interrupt in Hg.
  rewrite Ho, (bool_decide_eq_false_2 (_ = "admitted")) in Hg by apply refused_not_admitted.
  by rewrite andb_false_r in Hg.
Qed.

Lemma record_outcome_refused f target id_ code st :
  appended f.(g_now) st.(guidance_events) (record_guidance_outcome f target id_ ("refused:" +:+ code) st).1.(guidance_events).
Proof.
  unfold record_guidance_outcome. destruct (_ || _); [by left|].
  destruct (guidance_event_labels _ _ _) as [[a b] c]. unfold record_guidance_event.
  destruct (events_writable st); [|by left]. simpl. by eapply refused_appended.
Qed.

Lemma record_refusal_appended mono now conn target id_ action path code st :
  appended now st.(guidance_events)
    (record_guidance_refusal mono now conn target id_ action path code st).(guidance_events).
Proof.
  unfold record_guidance_refusal. destruct action as [a|]; [|by left]. destruct (negb _); [by left|].
  destruct (_ && _); [by left|]. destruct (guidance_source _ _ _) as [[s i] u].
  destruct (guidance_event_labels _ _ _) as [[x y] z]. unfold record_guidance_event.
  destruct (events_writable st); [|by left]. simpl. by eapply refused_appended.
Qed.

Lemma interrupt_counts_pos st actor action target now np last nt third :
  interrupt_counts st actor action target now = Ok (np, last, nt, third) → 0 ≤ np.
Proof.
  unfold interrupt_counts. destruct action, actor; intros H; simplify_eq/=; try lia.
  apply bind_Ok in H as ([np' last'] & H1 & H). apply bind_Ok in H as ([nt' third'] & _ & [= <- <- <- <-]).
  unfold count_interrupts_pair in H1. destruct (count_u32 _) eqn:Hc; [|done]. apply count_u32_Ok in Hc as ->.
  injection H1 as <- _. lia.
Qed.

Lemma record_outcome_admitted mono now st conn target action path producer proof f id_ st2 :
  clock_ok now → guidance_facts mono now st conn target action path producer proof = Ok f → authorize f = Ok () →
  st2.(guidance_events) = st.(guidance_events) →
  appended now st.(guidance_events) (record_guidance_outcome f target id_ "admitted" st2).1.(guidance_events).
Proof.
  intros Hn Hf Ha Hst2. apply guidance_facts_Ok in Hf.
  destruct (guidance_source mono st conn) as [[source identity] ui].
  destruct Hf as (Hact & Hpath & Hnow & _ & _ & _ & _ & Hcounts). unfold record_guidance_outcome.
  destruct (bool_decide (g_actor f = InternalPause)) eqn:Hip; simpl; [by left|].
  destruct (is_guided (g_action f)) eqn:Hg; simpl; [|by left].
  unfold guidance_event_labels, record_guidance_event.
  destruct (events_writable st2); [|by left]. simpl. rewrite Hst2. right. eexists. split_and!; [done|done|].
  intros t Hgr.
  unfold granted_interrupt in Hgr. simpl in Hgr. apply bool_decide_eq_false in Hip.
  destruct (authorize_guided f Hg Ha) as [?|[Hh|(a & Hac & _ & _ & _ & _ & Hi)]]; [done|by rewrite Hh in Hgr|].
  rewrite Hac in *. destruct (g_action f) eqn:Hga; try done; [|clear Hgr].
  { exfalso. by rewrite (bool_decide_eq_false_2 ("steer" = "interrupt")), andb_false_r in Hgr. }
  destruct (Hi eq_refl) as [_ Hr]. rewrite Hnow. rewrite <-Hact in Hcounts.
  apply interrupt_rate_Ok in Hr as [Hw1 Hw2]; [|by eapply interrupt_counts_pos|unfold clock_ok, i64_min, i64_max in *; lia].
  rewrite Hnow in Hw1, Hw2. by eapply interrupt_counts_rate.
Qed.

Lemma check_guidance_cases mono now conn target action path producer proof id_ st st' r :
  check_guidance mono now conn target action path producer proof id_ st = (st', r) →
  match r with
  | Ok f => st' = st ∧ guidance_facts mono now st conn target action path producer proof = Ok f ∧
      authorize f = Ok () ∧ f.(g_now) = now
  | Err _ => appended now st.(guidance_events) st'.(guidance_events)
  end.
Proof.
  unfold check_guidance. destruct (guidance_facts _ _ _ _ _ _ _ _ _) as [f|e] eqn:Hf; intros H; simplify_eq.
  - assert (f.(g_now) = now) as Hn.
    { apply guidance_facts_Ok in Hf. destruct (guidance_source mono st conn) as [[? ?] ?]. naive_solver. }
    destruct (authorize f) as [[]|ref] eqn:Ha; simplify_eq; [done|].
    destruct (guidance_refusal_fields ref) as [code reason]; simplify_eq. apply record_outcome_refused.
  - apply record_refusal_appended.
Qed.

Lemma record_outcome_Err f target id_ out st st' e :
  record_guidance_outcome f target id_ out st = (st', Err e) → st' = st.
Proof.
  unfold record_guidance_outcome, record_guidance_event. destruct (_ || _); [done|].
  destruct (guidance_event_labels _ _ _) as [[a b] c]. destruct (events_writable st); congruence.
Qed.

(** The facts that an admission gives: those of the check, or those of a human on
    a phone. *)
Lemma admission_cases mobile mono now conn target action path producer proof id_ st st' r :
  guidance_admission mobile mono now conn target action path producer proof id_ st = (st', r) →
  match r with
  | Ok f => st' = st ∧ authorize f = Ok () ∧ f.(g_now) = now ∧ f.(g_action) = action ∧
      (guidance_facts mono now st conn target action path producer proof = Ok f ∨
       mobile = true ∧ action = Steer ∧ f.(g_actor) = AttachedHuman)
  | Err _ => appended now st.(guidance_events) st'.(guidance_events)
  end.
Proof.
  unfold guidance_admission. destruct (mobile && bool_decide (action = Steer)) eqn:Hm.
  - apply andb_true_iff in Hm as [-> ->%bool_decide_eq_true]. intros [= <- <-].
    destruct (guidance_facts _ _ _ _ _ _ _ _ _) as [f|e] eqn:Hf; [|by left].
    destruct (authorize (as_attached_human f)) as [[]|ref] eqn:Ha; [|by left]. apply guidance_facts_Ok in Hf.
    destruct (guidance_source mono st conn) as [[? ?] ?]. split_and!; try done; [naive_solver..|]. by right.
  - intros Hc%check_guidance_cases. destruct r as [f|e]; [|done]. destruct Hc as (-> & Hf & Ha & Hn). split_and!; try done; [|by left].
    apply guidance_facts_Ok in Hf. destruct (guidance_source mono st conn) as [[? ?] ?]. naive_solver.
Qed.

(** A steer is not an interrupt. *)
Lemma record_outcome_steer f target id_ st :
  f.(g_action) = Steer → appended f.(g_now) st.(guidance_events) (record_guidance_outcome f target id_ "admitted" st).1.(guidance_events).
Proof.
  intros Ha. unfold record_guidance_outcome. rewrite Ha. destruct (_ || _); [by left|].
  unfold guidance_event_labels, record_guidance_event. destruct (events_writable st); [|by left]. right. eexists. split_and!; [done..|].
  intros t Hg. exfalso. unfold granted_interrupt in Hg. cbn in Hg.
  by rewrite (bool_decide_eq_false_2 ("steer" = "interrupt")), andb_false_r in Hg.
Qed.

Lemma guided_command_appended mobile mono now conn target action path producer proof id_ later st :
  clock_ok now →
  appended now st.(guidance_events)
    (guided_command mobile mono now conn target action path producer proof id_ later st).1.(guidance_events).
Proof.
  intros Hn. unfold guided_command. destruct (guidance_admission _ _ _ _ _ _ _ _ _ _ _) as [st1 r] eqn:Hc.
  apply admission_cases in Hc. destruct r as [f|e]; [|done]. destruct Hc as (-> & Ha & Hnow & Hact & Hf).
  destruct later as [code|]; [rewrite <-Hnow; apply record_outcome_refused|].
  assert (appended now st.(guidance_events) (record_guidance_outcome f target id_ "admitted" st).1.(guidance_events)) as Hadm.
  { destruct Hf as [Hf|(_ & -> & _)]; [by eapply record_outcome_admitted|]. rewrite <-Hnow. by apply record_outcome_steer. }
  destruct (record_guidance_outcome f target id_ "admitted" st) as [st2 [[]|e]] eqn:Ho; [done|].
  apply record_outcome_Err in Ho as ->. rewrite <-Hnow.
  apply (record_outcome_refused f target id_ "persistence_failed" st).
Qed.

Lemma cancel_request_events id_ sender reason st st' r :
  cancel_request id_ sender reason st = (st', r) → st'.(guidance_events) = st.(guidance_events).
Proof.
  unfold cancel_request. destruct (_ !! id_) as [r0|]; [|by intros [= <- _]].
  destruct (_ || _); [by intros [= <- _]|]. destruct (is_open r0); by intros [= <- _].
Qed.

Lemma cancel_request_row id_ sender reason st st' r :
  cancel_request id_ sender reason st = (st', Some r) →
  ∃ r0, st.(gs_requests) !! id_ = Some r0 ∧ r.(row_target) = r0.(row_target) ∧ r.(row_sender) = r0.(row_sender).
Proof.
  unfold cancel_request. destruct (_ !! id_) as [r0|]; [|done]. exists r0. split; [done|].
  destruct (_ || _); [by simplify_eq|]. destruct (is_open r0); by simplify_eq.
Qed.

(** The admission of a cancellation: a decision already written, or facts that
    still wait for their outcome. *)
Lemma cancel_admission_cases mono now conn id_ st st1 facts :
  cancel_admission mono now conn id_ st = (st1, facts) →
  match facts with
  | None => appended now st.(guidance_events) st1.(guidance_events) ∧ st1.(gs_requests) = st.(gs_requests)
  | Some f => st1 = st ∧ f.(g_now) = now ∧ authorize f = Ok () ∧ ∃ r, st.(gs_requests) !! id_ = Some r ∧
      is_open r = true ∧ guidance_facts mono now st (Some conn) r.(row_target) Interrupt PathCancel None false = Ok f
  end.
Proof.
  assert (∀ e, (record_guidance_event e st).1.(gs_requests) = st.(gs_requests)) as Hev
    by (intros; unfold record_guidance_event; by destruct (events_writable st)).
  unfold cancel_admission. destruct (opt_filter _ _) as [r|] eqn:Hr; [|intros [= <- <-]; by split; [left|]].
  apply opt_filter_Some in Hr as [Hr Ho]. destruct (project_scope _ _ _ _) as [w|reason].
  - destruct (check_guidance _ _ _ _ _ _ _ _ _ _) as [st2 res] eqn:Hc. intros [= <- <-].
    pose proof (check_guidance_cases _ _ _ _ _ _ _ _ _ _ _ _ Hc) as Hcs. destruct res as [f|e]; simpl.
    { destruct Hcs as (-> & Hf & Ha & Hn). eauto 8. }
    split; [done|]. unfold check_guidance, record_guidance_refusal, record_guidance_outcome in Hc.
    destruct (guidance_facts _ _ _ _ _ _ _ _ _) as [f|]; [destruct (authorize f)|]; simplify_eq.
    + destruct (guidance_refusal_fields _) as [c0 r0]. simplify_eq.
      destruct (_ || _); [done|]. destruct (guidance_event_labels _ _ _) as [[? ?] ?]. apply Hev.
    + simpl. destruct (_ && _); [done|]. destruct (guidance_source _ _ _) as [[? ?] ?]. apply Hev.
  - intros [<- <-]%pair_eq. split; [apply record_refusal_appended|]. unfold record_guidance_refusal. simpl. apply Hev.
Qed.

Lemma refuse_admission_appended f target id_ code st st1 now :
  (∀ g, f = Some g → g.(g_now) = now) → (f = None → appended now st.(guidance_events) st1.(guidance_events)) →
  (is_Some f → st1.(guidance_events) = st.(guidance_events)) →
  appended now st.(guidance_events) (refuse_admission f target id_ ("refused:" +:+ code) st1).(guidance_events).
Proof.
  intros Hn Hnone Hsome. destruct f as [f|]; simpl; [|by apply Hnone].
  rewrite <-(Hn f eq_refl), <-(Hsome ltac:(eauto)). apply record_outcome_refused.
Qed.

(** A cancellation writes at most one decision; an interrupt is announced to the
    target only when its grant is written. *)
Lemma handle_cancel_appended mono now conn id_ sender reason st st' reply n :
  clock_ok now → handle_cancel mono now conn id_ sender reason st = (st', reply, n) →
  appended now st.(guidance_events) st'.(guidance_events).
Proof.
  intros Hn. unfold handle_cancel. destruct (negb _); [intros [= <- _ _]; by left|].
  destruct (cancel_admission _ _ _ _ _) as [st1 facts] eqn:Had. apply cancel_admission_cases in Had.
  destruct (cancel_request _ _ _ st1) as [st2 [r|]] eqn:Hc;
    pose proof (cancel_request_events _ _ _ _ _ _ Hc) as Hev.
  - assert (∀ g, facts = Some g → g.(g_now) = now) as H1 by (destruct facts; naive_solver).
    assert (facts = None → appended now st.(guidance_events) st2.(guidance_events)) as H2
      by (intros ->; rewrite Hev; by apply Had).
    assert (is_Some facts → st2.(guidance_events) = st.(guidance_events)) as H3
      by (intros [? ->]; rewrite Hev; by destruct Had as (-> & _)).
    destruct (negb _).
    { intros [= <- _ _]. by apply (refuse_admission_appended facts (row_target r) id_ "not_permitted"). }
    destruct (bool_decide _).
    2: { intros [= <- _ _]. by apply (refuse_admission_appended facts (row_target r) id_ "terminal_request"). }
    unfold grant_interrupt. destruct facts as [f|]; [|intros [= <- _ _]; by apply H2].
    destruct Had as (-> & Hnow & Ha & r0 & Hr0 & _ & Hf).
    apply cancel_request_row in Hc as (r1 & Hr1 & Ht & _). simplify_eq.
    destruct (record_guidance_outcome f (row_target r) id_ "admitted" st2) as [st3 [[]|e]] eqn:Ho; intros [= <- _ _]; simpl.
    + pose proof (record_outcome_admitted _ _ _ _ _ _ _ _ _ _ id_ st2 Hn Hf Ha Hev) as Hadm.
      rewrite <-Ht, Ho in Hadm. done.
    + apply record_outcome_Err in Ho as ->. rewrite <-Hev.
      apply (record_outcome_refused f (row_target r) id_ "persistence_failed" st2).
  - intros [= <- _ _]. rewrite Hev. destruct facts as [f|]; [destruct Had as (-> & _); by left|by apply Had].
Qed.

(** ** Runs of the daemon

    [guided_run t s h]: the state [s] is reached at the instant [t] from an empty
    journal, by commands, cancellations, refusals before the guard, purges, and
    any other change that leaves the journal; [h] holds every row ever written. *)
Inductive guided_run : Z → GuidanceState → list GuidanceEvent → Prop :=
  | run_start t s : 0 ≤ t → s.(guidance_events) = [] → guided_run t s []
  | run_other t s h s' : guided_run t s h → s'.(guidance_events) = s.(guidance_events) → guided_run t s' h
  | run_command t s h now s' evs : guided_run t s h → t ≤ now → clock_ok now →
      (∃ mobile mono conn target action path producer proof id_ later,
         s' = (guided_command mobile mono now conn target action path producer proof id_ later s).1) ∨
      (∃ mono conn id_ sender reason, s' = (handle_cancel mono now conn id_ sender reason s).1.1) ∨
      (∃ mono conn target id_ action path code,
         s' = record_guidance_refusal mono now conn target id_ action path code s) →
      s'.(guidance_events) = s.(guidance_events) ++ evs → guided_run now s' (h ++ evs)
  | run_purge t s h now : guided_run t s h → t ≤ now → clock_ok now →
      guided_run now (with_events (purge_guidance_events s.(guidance_events) now).1 s) h.

Definition time_sorted (h : list GuidanceEvent) : Prop := StronglySorted (λ a b, a.(ge_at) ≤ b.(ge_at)) h.

(** The journal is the history without what the purges removed, a day old at
    least; and each grant of the history left the windows free. *)
Record run_inv (t : Z) (s : GuidanceState) (h : list GuidanceEvent) : Prop := mkRunInv {
  ri_time : 0 ≤ t;
  ri_sorted : time_sorted h;
  ri_past : ∀ e, e ∈ h → e.(ge_at) ≤ t;
  ri_kept : ∃ c, c ≤ t - 86400 ∧ s.(guidance_events) = select (λ e, c <=? e.(ge_at)) h;
  ri_rate : ∀ h1 e h2 target, h = h1 ++ e :: h2 → granted_interrupt target e = true → rate_ok h1 e }.

Lemma select_count {A} (p q : A → bool) l :
  (∀ x, x ∈ l → p x = true → q x = true) → count_if p (select q l) = count_if p l.
Proof. apply count_if_filter. Qed.

(** The guard that reads the journal sees the windows of the whole history. *)
Lemma rate_ok_history c now h e :
  c ≤ now - 86400 → e.(ge_at) = now → rate_ok (select (λ x, c <=? x.(ge_at)) h) e → rate_ok h e.
Proof.
  intros Hc He [H1 H2]. split.
  - intros x Hx Hg. destruct (decide (c ≤ x.(ge_at))); [|lia]. apply H1; [|done]. apply select_elem. split; [done|lia].
  - intros x Hx. destruct (decide (c ≤ x)); [|lia]. apply H2. rewrite select_count; [done|].
    intros y _ Hy. apply andb_true_iff in Hy as [_ Hy]. lia.
Qed.

Lemma appended_run_inv t s h now s' :
  run_inv t s h → t ≤ now → appended now s.(guidance_events) s'.(guidance_events) →
  ∀ evs, s'.(guidance_events) = s.(guidance_events) ++ evs → run_inv now s' (h ++ evs).
Proof.
  intros [Ht Hs Hp (c & Hc & Hk) Hr] Hle Happ evs Hevs. destruct Happ as [Heq|(e & Heq & He & Hg)].
  - rewrite Heq in Hevs. rewrite <-(app_nil_r s.(guidance_events)) in Hevs at 1. apply app_inv_head in Hevs as <-.
    rewrite app_nil_r. constructor; [lia|done|intros e He; specialize (Hp e He); lia| |done].
    exists c. rewrite Heq. split; [lia|done].
  - rewrite Heq in Hevs. apply app_inv_head in Hevs as <-. constructor; [lia| | | |].
    + apply StronglySorted_app. split_and!; [|done|by repeat constructor].
      intros a b Ha Hb%list_elem_of_singleton. subst b. rewrite He. specialize (Hp a Ha). lia.
    + intros x [Hx|Hx%list_elem_of_singleton]%elem_of_app; [specialize (Hp x Hx); lia|subst x; lia].
    + exists c. split; [lia|]. rewrite Heq, select_app, Hk. f_equal. simpl.
      by rewrite (proj2 (Z.leb_le c (ge_at e))) by lia.
    + intros h1 x h2 target Hh Hx. destruct h2 as [|y h2 _] using rev_ind.
      * apply app_inj_tail in Hh as [<- <-]. apply (rate_ok_history c now); [lia|done|]. rewrite <-Hk. eauto.
      * rewrite app_comm_cons, app_assoc in Hh. apply app_inj_tail in Hh as [-> _]. eauto.
Qed.

Lemma purge_run_inv t s h now :
  run_inv t s h → t ≤ now → clock_ok now →
  run_inv now (with_events (purge_guidance_events s.(guidance_events) now).1 s) h.
Proof.
  intros [Ht Hs Hp (c & Hc & Hk) Hr] Hle Hn.
  constructor; [lia|done|intros e He; specialize (Hp e He); lia| |done].
  exists (Z.max c (now - 86400)). split; [lia|]. simpl. rewrite Hk.
  assert (i64_saturating_sub now 86400 = now - 86400) as ->
    by (unfold clock_ok, i64_saturating_sub, i64_saturate, i64_min, i64_max in *; lia).
  change (delete_where ?p ?l) with (select (λ r, negb (p r)) l). rewrite <-select_and.
  apply List.filter_ext. intros e. lia.
Qed.

Lemma guided_run_inv t s h : guided_run t s h → run_inv t s h.
Proof.
  induction 1 as [t s Ht Hs|t s h s' _ IH Heq|t s h now s' evs _ IH Hle Hn Hstep Hevs|t s h now _ IH Hle Hn].
  - constructor; [done|constructor|by intros e ?%elem_of_nil| |intros h1 e h2 tg Hh; by destruct h1].
    exists (t - 86400). by rewrite Hs.
  - destruct IH as [? ? ? Hk ?]. constructor; rewrite ?Heq; done.
  - eapply appended_run_inv; [exact IH|done| |done].
    destruct Hstep as [(mobile & mono & conn & target & action & path & producer & proof & id_ & later & ->)
      |[(mono & conn & id_ & sender & reason & ->)|(mono & conn & target & id_ & action & path & code & ->)]].
    + by apply guided_command_appended.
    + destruct (handle_cancel mono now conn id_ sender reason s) as [[s2 r] n] eqn:Hh. simpl.
      by eapply handle_cancel_appended.
    + apply record_refusal_appended.
  - by eapply purge_run_inv.
Qed.

Lemma time_sorted_le h1 a h2 b h3 : time_sorted (h1 ++ a :: h2 ++ b :: h3) → a.(ge_at) ≤ b.(ge_at).
Proof.
  intros H. apply StronglySorted_app in H as (_ & _ & H). inversion H as [|? ? _ Hf]; subst.
  rewrite Forall_forall in Hf. apply Hf. set_solver.
Qed.

(** C11: agents interrupt at a bounded rate.  In the whole history of decisions of
    a run, two interrupts of a target granted to the same agent are 30 seconds
    apart at least, and among four interrupts of a target granted to agents the
    last comes 600 seconds at least after the first, whatever the purges of the
    journal and whichever of the paths they came by. *)
Theorem interrupt_rate_bound t s h :
  guided_run t s h →
  (∀ h1 a h2 b h3 agent target, h = h1 ++ a :: h2 ++ b :: h3 →
     granted_to agent target a = true → granted_to agent target b = true → a.(ge_at) + 30 ≤ b.(ge_at)) ∧
  (∀ h1 a h2 b h3 c h4 d h5 target, h = h1 ++ a :: h2 ++ b :: h3 ++ c :: h4 ++ d :: h5 →
     Forall (λ e, granted_interrupt target e = true) [a; b; c; d] → a.(ge_at) + 600 ≤ d.(ge_at)).
Proof.
  intros Hrun. apply guided_run_inv in Hrun as [_ Hs _ _ Hr]. split.
  - intros h1 a h2 b h3 agent target -> Ha Hb. unfold granted_to in Hb. apply andb_true_iff in Hb as [Hb1 Hb2].
    destruct (Hr (h1 ++ a :: h2) b h3 target) as [H1 _]; [by rewrite <-app_assoc|done|].
    apply bool_decide_eq_true in Hb1. apply H1; [set_solver|]. rewrite Hb1.
    unfold granted_interrupt in Hb2. rewrite !andb_true_iff, !bool_decide_eq_true in Hb2.
    destruct Hb2 as [[[_ ->] _] _]. done.
  - intros h1 a h2 b h3 c h4 d h5 target -> Hf.
    rewrite !Forall_cons in Hf. destruct Hf as (Ha & Hb & Hc & Hd & _).
    set (pre := h1 ++ a :: h2 ++ b :: h3 ++ c :: h4).
    assert (h1 ++ a :: h2 ++ b :: h3 ++ c :: h4 ++ d :: h5 = pre ++ d :: h5) as Heq.
    { unfold pre. by rewrite <-!app_assoc; simpl; rewrite <-!app_assoc; simpl; rewrite <-!app_assoc. }
    destruct (Hr pre d h5 target Heq Hd) as [_ H2]. apply H2. clear Heq H2 Hr.
    assert (a.(ge_at) ≤ b.(ge_at)) by by eapply time_sorted_le.
    assert (a.(ge_at) ≤ c.(ge_at)).
    { eapply (time_sorted_le h1 a (h2 ++ b :: h3) c (h4 ++ d :: h5)). by rewrite <-app_assoc. }
    unfold granted_interrupt in Hd. rewrite !andb_true_iff, !bool_decide_eq_true in Hd. destruct Hd as [[[_ ->] _] _].
    unfold pre. rewrite !count_if_app, !count_if_cons, !count_if_app, !count_if_cons, !count_if_app, !count_if_cons.
    rewrite Ha, Hb, Hc. simpl. rewrite !(proj2 (Z.leb_le _ _)) by lia. lia.
Qed.

(** ** Who is obeyed *)

Definition holds_link (links_ : list AgentLinkRecord) (parent child : string) : Prop :=
  ∃ l, l ∈ links_ ∧ l.(child_instance_id) = child ∧ l.(parent_instance_id) = parent ∧
    (l.(link_state) = Open ∨ l.(link_state) = Transferred).
Definition holds_task (tasks : list (string * option Task)) (agent parent target child : string) : Prop :=
  ∃ t, (target, Some t) ∈ tasks ∧ t.(task_owner) = agent ∧ t.(task_owner_instance) = parent ∧
    t.(task_child_instance) = Some child.

Lemma for_child_Some st child t : for_child st child = Ok (Some t) → (child, Some t) ∈ st.(delegations).
Proof.
  unfold for_child. destruct (select_one _ _) as [[c [t'|]]|] eqn:Hs; [|done..]. intros [= ->].
  apply select_one_Some in Hs as [Hin Hc]. apply bool_decide_eq_true in Hc. simpl in Hc. by subst c.
Qed.

Lemma kinship_parent st target task identity ti child :
  for_child st target = Ok task → kinship st target task identity ti = Ok (true, child) →
  ∃ agent inst i, identity = Some (agent, inst) ∧ ti = Some i ∧
    (holds_link st.(gs_links).(links) inst i ∨ holds_task st.(delegations) agent inst target i).
Proof.
  intros Ht. unfold kinship. destruct identity as [[agent inst]|]; [|done]. destruct ti as [i|]; [|done].
  intros H. apply bind_Ok in H as (l & Hl & H). apply bind_Ok in H as (l' & _ & H). apply bind_Ok in H as (own & _ & [= Hp _]).
  exists agent, inst, i. split_and!; [done..|]. apply orb_true_iff in Hp as [Hp|Hp].
  - left. unfold link_held_by in Hp. apply is_some_and_true in Hp as (x & -> & Hx).
    rewrite andb_true_iff, orb_true_iff, !bool_decide_eq_true in Hx. destruct Hx as [Hpar Hst].
    destruct (agent_link_for_child _ i) as [o|] eqn:Ho; simplify_eq/=.
    apply read_optional_Some, select_one_Some in Ho as [Hin Hc]. apply bool_decide_eq_true in Hc. by exists x.
  - right. unfold task_held_by in Hp. apply is_some_and_true in Hp as (t & -> & Hx).
    rewrite !andb_true_iff, !bool_decide_eq_true in Hx. exists t. split; [by apply for_child_Some|naive_solver].
Qed.

(** C12: only a human or a parent steers and interrupts.  When a steer or an
    interrupt that came on a connection goes through, its grant is the last row
    of the journal, and either it is a steer brought by the mobile ingress, which
    verified the device and its scope; or the connection is an attached human's;
    or it is the live connection of an agent that is not the target, while the
    pause is off, and whose instance holds the open or transferred link of the
    live instance of the target, or owns the task that this instance works on. *)
Theorem guided_by_parent mobile mono now conn target action path producer proof id_ st st' :
  is_guided action = true →
  guided_command mobile mono now (Some conn) target action path producer proof id_ None st = (st', true) →
  let t := routing_agent_id target in
  (∃ e, st'.(guidance_events) = st.(guidance_events) ++ [e] ∧ e.(ge_at) = now ∧ e.(ge_target) = t ∧
     e.(ge_outcome) = "admitted" ∧ e.(ge_message_id) = Some id_) ∧
  (mobile = true ∧ action = Steer ∨
   st.(connection_roles) !! conn = Some RoleAttach ∨
   ∃ agent inst ti, live_connection_identity mono st.(gs_daemon) conn = Some (agent, inst) ∧
     target_instance_of mono st.(gs_daemon) t = Some ti ∧ agent ≠ t ∧ st.(gs_control).(row).(paused) = false ∧
     (holds_link st.(gs_links).(links) inst ti ∨ holds_task st.(delegations) agent inst t ti)).
Proof.
  intros Hg H t. unfold guided_command in H. destruct (guidance_admission _ _ _ _ _ _ _ _ _ _ _) as [st1 [f|e]] eqn:Hc; [|done].
  apply admission_cases in Hc as (-> & Ha & Hnow & Hact & Hf). rewrite <-Hact in Hg.
  assert (f.(g_actor) ≠ InternalPause) as Hnp.
  { intros Hp. destruct Hf as [Hf|(_ & _ & Hh)]; [|congruence]. apply guidance_facts_Ok in Hf. cbn in Hf.
    destruct Hf as (_ & _ & _ & Hac & _). rewrite Hp in Hac. repeat case_match; done. }
  split.
  - unfold record_guidance_outcome in H. rewrite Hg, bool_decide_eq_false_2 in H by done.
    cbn [orb negb] in H. unfold guidance_event_labels, record_guidance_event in H.
    destruct (events_writable st); [|done]. injection H as <-. simpl. eauto 8.
  - destruct Hf as [Hf|(-> & -> & _)]; [right|by left]. apply guidance_facts_Ok in Hf.
    cbn [guidance_source] in Hf. cbv zeta in Hf. cbn [is_some negb andb] in Hf.
    destruct Hf as (_ & _ & _ & Hac & Htgt & (task & Htask & Hk) & Hpau & _).
    destruct (authorize_guided f Hg Ha) as [Hp|[Hh|(a & Hag & Hnt & _ & Hpar & Hpo & _)]]; [done| |].
    + left. rewrite Hh in Hac. destruct (bool_decide (_ !! conn = _)) eqn:Hb; [by apply bool_decide_eq_true in Hb|].
      exfalso. simpl in Hac. repeat case_match; done.
    + right. rewrite Hpar in Hk. apply (kinship_parent _ _ _ _ _ _ Htask) in Hk as (agent & inst & ti & Hid & Hti & Hhold).
      exists agent, inst, ti. rewrite Hid in Htgt. simpl in Htgt. rewrite Hnt in Htgt. symmetry in Htgt.
      apply bool_decide_eq_false in Htgt. rewrite Hpo in Hpau. split_and!; done.
Qed.

Lemma record_outcome_requests f target id_ code s :
  (record_guidance_outcome f target id_ code s).1.(gs_requests) = s.(gs_requests).
Proof.
  unfold record_guidance_outcome, record_guidance_event. destruct (_ || _); [done|].
  destruct (guidance_event_labels _ _ _) as [[? ?] ?]. by destruct (events_writable s).
Qed.

Lemma refuse_admission_requests f target id_ code s :
  (refuse_admission f target id_ code s).(gs_requests) = s.(gs_requests).
Proof. destruct f as [f|]; [apply record_outcome_requests|done]. Qed.

Lemma cancel_request_cases id_ sender reason s s' o :
  cancel_request id_ sender reason s = (s', o) →
  (s' = s ∧ o = s.(gs_requests) !! id_) ∨
  (∃ r, s.(gs_requests) !! id_ = Some r ∧ is_open r = true ∧ r.(row_sender) = sender ∧
     s'.(gs_requests) = <[id_ := with_state "cancelled" r]> s.(gs_requests) ∧ o = Some (with_state "cancelled" r)).
Proof.
  unfold cancel_request. destruct (_ !! id_) as [r|] eqn:Hr; [|intros [= <- <-]; by left].
  destruct (_ || _) eqn:Hg; [intros [= <- <-]; by left|]. apply orb_false_iff in Hg as [Hs _].
  apply negb_false_iff, bool_decide_eq_true in Hs.
  destruct (is_open r) eqn:Ho; [|intros [= <- <-]; by left]. intros [= <- <-]. right. exists r. by split_and!.
Qed.

Lemma grant_interrupt_requests f target id_ s :
  (grant_interrupt f target id_ s).1.(gs_requests) = s.(gs_requests).
Proof.
  destruct f as [f|]; [|done]. unfold grant_interrupt.
  pose proof (record_outcome_requests f target id_ "admitted" s) as Hr.
  destruct (record_guidance_outcome f target id_ "admitted" s) as [s4 [[]|e]]; [done|].
  simpl. by rewrite record_outcome_requests.
Qed.

(** The table of requests after a cancellation. *)
Lemma handle_cancel_requests mono now conn id_ sender reason st st' reply n :
  handle_cancel mono now conn id_ sender reason st = (st', reply, n) →
  st'.(gs_requests) = st.(gs_requests) ∨
  ∃ r, st.(gs_requests) !! id_ = Some r ∧ is_open r = true ∧ r.(row_sender) = sender ∧
    st'.(gs_requests) = <[id_ := with_state "cancelled" r]> st.(gs_requests) ∧ reply = RequestCancelled "cancelled".
Proof.
  unfold handle_cancel. destruct (negb _); [intros [= <- _ _]; by left|].
  destruct (cancel_admission _ _ _ _ _) as [st1 facts] eqn:Had. apply cancel_admission_cases in Had.
  assert (st1.(gs_requests) = st.(gs_requests)) as Hst1 by (destruct facts; [by destruct Had as (-> & _)|by apply Had]).
  destruct (cancel_request _ _ _ st1) as [st2 o] eqn:Hc. apply cancel_request_cases in Hc. rewrite Hst1 in Hc.
  pose proof (λ r, grant_interrupt_requests facts (row_target r) id_ st2) as Hg.
  destruct Hc as [[-> ->]|(r & Hr & Ho & Hs & Hreq & ->)].
  - intros H. left. rewrite <-Hst1. destruct (_ !! id_) as [r|]; [|by simplify_eq]. specialize (Hg r). destruct (negb _).
    { simplify_eq. by rewrite refuse_admission_requests. }
    destruct (bool_decide _); [|simplify_eq; by rewrite refuse_admission_requests].
    destruct (grant_interrupt _ _ _ _) as [s3 b]. by simplify_eq/=.
  - rewrite (bool_decide_eq_true_2 (row_sender _ = sender)) by done. cbn [negb].
    rewrite bool_decide_eq_true_2 by done. specialize (Hg (with_state "cancelled" r)).
    destruct (grant_interrupt _ _ _ _) as [s3 b]. intros [= <- <- _]. right. exists r. simpl in *. rewrite Hg. by split_and!.
Qed.

Lemma handle_cancel_authorized mono now conn id_ sender reason st st' s n :
  handle_cancel mono now conn id_ sender reason st = (st', RequestCancelled s, n) →
  (∃ a, get_agent st.(gs_daemon).(router) sender = Some a ∧ a.(connection_id) = conn) ∨
  (∃ inst, live_connection_identity mono st.(gs_daemon) conn = Some (sender, inst)).
Proof.
  unfold handle_cancel. destruct (negb _) eqn:Hau; [done|]. intros _.
  apply negb_false_iff, orb_true_iff in Hau as [Hau|Hau]; apply is_some_and_true in Hau as (x & Hx & Hb);
    apply bool_decide_eq_true in Hb; [left; eauto|right]. destruct x as [x i]. simpl in Hb. subst x. eauto.
Qed.

Lemma source_not_pause mono st conn : (guidance_source mono st (Some conn)).1.1 ≠ InternalPause.
Proof. simpl. repeat case_match; done. Qed.

Lemma cancel_facts_recorded mono now conn id_ st f target s :
  guidance_facts mono now st (Some conn) target Interrupt PathCancel None false = Ok f →
  (grant_interrupt (Some f) target id_ s).2 = true →
  ∃ e, (grant_interrupt (Some f) target id_ s).1.(guidance_events) = s.(guidance_events) ++ [e] ∧
    e.(ge_action) = "interrupt" ∧ e.(ge_outcome) = "admitted" ∧ e.(ge_message_id) = Some id_.
Proof.
  intros Hf. apply guidance_facts_Ok in Hf. pose proof (source_not_pause mono st conn) as Hs.
  destruct (guidance_source mono st (Some conn)) as [[source identity] ui]. simpl in Hs.
  destruct Hf as (Hact & _ & _ & Hac & _). simpl in Hac. unfold grant_interrupt, record_guidance_outcome.
  rewrite Hac, Hact, bool_decide_eq_false_2 by done. cbn [is_guided negb orb].
  unfold guidance_event_labels, record_guidance_event. destruct (events_writable s) eqn:Hw; [|done].
  simpl. intros _. eauto.
Qed.

Lemma handle_cancel_interrupt mono now conn id_ sender reason st st' reply c why :
  handle_cancel mono now conn id_ sender reason st = (st', reply, Some (c, CancelDelivery why true)) →
  ∃ e, st'.(guidance_events) = st.(guidance_events) ++ [e] ∧ e.(ge_action) = "interrupt" ∧
    e.(ge_outcome) = "admitted" ∧ e.(ge_message_id) = Some id_.
Proof.
  unfold handle_cancel. destruct (negb _); [done|].
  destruct (cancel_admission _ _ _ _ _) as [st1 facts] eqn:Had. apply cancel_admission_cases in Had.
  destruct (cancel_request _ _ _ st1) as [st2 [r|]] eqn:Hc; [|done].
  destruct (negb _); [done|]. destruct (bool_decide _); [|done].
  destruct (grant_interrupt facts (row_target r) id_ st2) as [s3 b] eqn:Hg. intros [= <- _ Hn].
  destruct (cancel_request_row _ _ _ _ _ _ Hc) as (r1 & Hr1 & Ht & _).
  assert (b = true) as ->.
  { unfold cancel_notification in Hn. apply bind_Some in Hn as (a & _ & Hn). destruct (negb _); [done|].
    destruct (is_some_and _ _); by simplify_eq. }
  destruct facts as [f|]; [|done]. destruct Had as (-> & _ & _ & r0 & Hr0 & _ & Hf). simplify_eq.
  rewrite <-(cancel_request_events _ _ _ _ _ _ Hc).
  destruct (cancel_facts_recorded mono now conn id_ st f (row_target r) st2) as (e & He & ?);
    [by rewrite Ht|by rewrite Hg|]. rewrite Hg in He. simpl in *. eauto.
Qed.

(** A cancellation.  Other requests are untouched; the request changes only
    from open to cancelled, on the word of its sender, from the connection of
    the sender's route or of its live identity; and the target is told to
    interrupt its turn only when the grant of that interrupt is written. *)
Lemma cancel_by_sender_only mono now conn id_ sender reason st st' reply n :
  handle_cancel mono now conn id_ sender reason st = (st', reply, n) →
  (∀ i, i ≠ id_ → st'.(gs_requests) !! i = st.(gs_requests) !! i) ∧
  (st'.(gs_requests) !! id_ ≠ st.(gs_requests) !! id_ →
     ∃ r, st.(gs_requests) !! id_ = Some r ∧ is_open r = true ∧ r.(row_sender) = sender ∧
       st'.(gs_requests) !! id_ = Some (with_state "cancelled" r) ∧ reply = RequestCancelled "cancelled") ∧
  (∀ s, reply = RequestCancelled s →
     (∃ a, get_agent st.(gs_daemon).(router) sender = Some a ∧ a.(connection_id) = conn) ∨
     (∃ inst, live_connection_identity mono st.(gs_daemon) conn = Some (sender, inst))) ∧
  (∀ c why, n = Some (c, CancelDelivery why true) →
     ∃ e, st'.(guidance_events) = st.(guidance_events) ++ [e] ∧ e.(ge_action) = "interrupt" ∧
       e.(ge_outcome) = "admitted" ∧ e.(ge_message_id) = Some id_).
Proof.
  intros H. split_and!.
  - intros i Hi. destruct (handle_cancel_requests _ _ _ _ _ _ _ _ _ _ H) as [->|(r & _ & _ & _ & -> & _)]; [done|].
    by rewrite lookup_insert_ne.
  - intros Hne. destruct (handle_cancel_requests _ _ _ _ _ _ _ _ _ _ H) as [Heq|(r & Hr & Ho & Hs & Heq & ->)];
      [by rewrite Heq in Hne|]. exists r. rewrite Heq, lookup_insert_eq. by split_and!.
  - intros s ->. by eapply handle_cancel_authorized.
  - intros c why ->. by eapply handle_cancel_interrupt.
Qed.

Module GuidanceExamples.

(** A parent [P] and its child [C], both connected, joined by an open link; a
    request of [P] to [C] is open. *)
Definition present (name : string) : Presence := mkPresence name "codex" "stdio" (Some Acp) "connected" None 0.
Definition family : Daemon :=
  mkDaemon (mkRouter (<["C" := mkAgent "C" Claude "conn-c"]> {["P" := mkAgent "P" Codex "conn-p"]}))
    {["conn-p"; "conn-c"]} {["conn-p" := "P"; "conn-c" := "C"]} {["conn-p" := "ip"; "conn-c" := "ic"]} ∅
    {["ip" := present "P"; "ic" := present "C"]} ∅
    (Breaker.new 180 8) (Dedup.new 60) (Quarantine.new (from_secs 60)) (Some ∅) (Some ∅) ∅ ∅.
Definition the_link : AgentLinkRecord :=
  mkLink "l1" "ip" "ic" None None None None "worker" "ip/ic" Open 1 None 1.
Definition at_home : GuidanceState :=
  mkGState family ∅ (mkLinkDb [the_link] [] []) [] fresh [] true ∅
    {["r1" := mkRow "P" "C" "open" 0 60 0]} ∅ [] 0.

Definition interrupt (now : Z) (id_ : string) (st : GuidanceState) : GuidanceState * bool :=
  guided_command false 0 now (Some "conn-p") "C" Interrupt PathSend None false id_ None st.
Definition row_at (now : Z) (id_ outcome : string) : GuidanceEvent :=
  mkGuidanceEvent now "P" "C" "interrupt" "send" (Some id_) outcome.

(** Three interrupts a minute apart are granted, the fourth waits; the child may
    not interrupt its parent. *)
Definition after (times : list Z) : GuidanceState := foldl (λ st now, (interrupt now "i" st).1) at_home times.
Example interrupts :
  (λ e, (e.(ge_at), e.(ge_outcome))) <$> (after [100; 110; 160; 220; 280; 700]).(guidance_events) =
    [(100, "admitted"); (110, "refused:interrupt_rate_limited"); (160, "admitted"); (220, "admitted");
     (280, "refused:interrupt_rate_limited"); (700, "admitted")].
Proof. vm_compute. reflexivity. Qed.
Example child_refused :
  (check_guidance 0 100 (Some "conn-c") "P" Interrupt PathSend None false "i" at_home).2 =
    Err ("intent_not_permitted", "not_parent").
Proof. vm_compute. reflexivity. Qed.

(** A steer from a verified phone is granted, on a connection that is not that of
    a parent; the same one without the ingress is refused. *)
Example phone_steers :
  (guided_command true 0 100 (Some "conn-x") "C" Steer PathSendIdempotent None false "s" None at_home).2 = true ∧
  (guided_command false 0 100 (Some "conn-x") "C" Steer PathSendIdempotent None false "s" None at_home).2 = false.
Proof. split; vm_compute; reflexivity. Qed.

Definition parent_facts (now : Z) : GuidanceFacts :=
  mkGuidance Interrupt PathSend (AgentActor "P") true None false false true false false false false false false false
    false 1 1 now (Some 100) None.

Lemma authorize_grants_witness : permitted (parent_facts 130).
Proof. apply (authorize_grants (parent_facts 130)); [vm_compute; discriminate|split; vm_compute; discriminate|vm_compute; reflexivity]. Defined.

Lemma run_two : guided_run 160 (after [100; 160]) [row_at 100 "i" "admitted"; row_at 160 "i" "admitted"].
Proof.
  assert (∀ t now st h, guided_run t st h → t ≤ now → clock_ok now →
    (interrupt now "i" st).1.(guidance_events) = st.(guidance_events) ++ [row_at now "i" "admitted"] →
    guided_run now (interrupt now "i" st).1 (h ++ [row_at now "i" "admitted"])) as H.
  { intros t now st h Hr Hle Hn He. apply (run_command t st h now _ _ Hr Hle Hn); [left|done].
    exists false, 0, (Some "conn-p"), "C", Interrupt, PathSend, None, false, "i", None. reflexivity. }
  apply (H 100 160 (after [100]) [row_at 100 "i" "admitted"]);
    [apply (H 0 100 at_home [])|lia|split; vm_compute; discriminate|vm_compute; reflexivity].
  - apply run_start; [lia|reflexivity].
  - lia.
  - split; vm_compute; discriminate.
  - vm_compute. reflexivity.
Qed.

Lemma interrupt_rate_bound_witness : (row_at 100 "i" "admitted").(ge_at) + 30 ≤ (row_at 160 "i" "admitted").(ge_at).
Proof.
  apply (proj1 (interrupt_rate_bound 160 (after [100; 160]) _ run_two) [] _ [] _ [] "P" "C");
    [reflexivity|vm_compute; reflexivity..].
Defined.

Lemma guided_by_parent_witness :
  ∃ e, (interrupt 100 "i" at_home).1.(guidance_events) = at_home.(guidance_events) ++ [e] ∧ e.(ge_at) = 100 ∧
    e.(ge_target) = "C" ∧ e.(ge_outcome) = "admitted" ∧ e.(ge_message_id) = Some "i".
Proof.
  apply (guided_by_parent false 0 100 "conn-p" "C" Interrupt PathSend None false "i" at_home
    (interrupt 100 "i" at_home).1); [reflexivity|].
  rewrite (surjective_pairing (guided_command _ _ _ _ _ _ _ _ _ _ _ _)). f_equal.
Defined.

Definition cancelled : GuidanceState * CancelReply * option (string * Notification) :=
  handle_cancel 0 100 "conn-p" "r1" "P" (Some "inutile") at_home.
Lemma cancel_by_sender_only_witness :
  cancelled.2 = Some ("conn-c", CancelDelivery "inutile" true) ∧
  ∃ e, cancelled.1.1.(guidance_events) = [] ++ [e] ∧ e.(ge_action) = "interrupt" ∧ e.(ge_outcome) = "admitted" ∧
    e.(ge_message_id) = Some "r1".
Proof.
  split; [vm_compute; reflexivity|].
  apply (proj2 (proj2 (proj2 (cancel_by_sender_only 0 100 "conn-p" "r1" "P" (Some "inutile") at_home
    cancelled.1.1 cancelled.1.2 cancelled.2
    ltac:(unfold cancelled; by destruct (handle_cancel _ _ _ _ _ _ _) as [[? ?] ?])))) "conn-c" "inutile").
  vm_compute. reflexivity.
Defined.

End GuidanceExamples.
