(* ===== verification/Deliveries.v ===== *)
(** * Deliveries: [bridget-daemon/src/idempotency/send_delivery.rs]

    The saga of a durable send: the record of its key, the delivery that a
    recipient instance must acknowledge, the queue of the deliveries held while
    the recipient works, the edits of that queue, and the tables that the same
    transactions write (execution links, ledger, tracked requests, guidance
    journal, notices to the emitters).  A transaction that returns an error
    changes nothing.  The reading of an envelope by serde_json and by the JSON
    functions of SQLite is an argument. *)

From S2P Require Import Prelude Text Message Control Reminders Guidance Sql Idempotency.
Local Open Scope Z_scope.

(** [decode] is [serde_json::from_slice::<BridgetMessage>]; [json_id] is
    [json_extract(CAST(bytes AS TEXT),'$.id')], an error when the text is not
    JSON; [json_notice] tells a valid JSON text whose ['$.thread_notice'] is not
    null.  [json_text b f] reads [b] as a [serde_json::Value] and gives its field
    [f] when it is a string ([None] when [b] is not JSON); [json_set_body b s] is
    that value with the body [s], printed again; it decodes to the same message
    with that body.  [body_digest] is the SHA-256 of a body, in hexadecimal. *)
Definition with_body (s : string) (m : BridgetMessage) : BridgetMessage :=
  mkMessage m.(cross_project_reason) m.(id) m.(from) m.(from_display_name) m.(thread_display_title) m.(to) s m.(reply)
    m.(hops) m.(reply_timeout) m.(deadline_at) m.(in_reply_to) m.(from_declared) m.(origin) m.(intent) m.(references)
    m.(delegated_origin) m.(thread_notice).

Class EnvelopeCodec := {
  decode : string → option BridgetMessage;
  json_id : string → result string (option string);
  json_notice : string → bool;
  json_text : string → string → option (option string);
  json_set_body : string → string → string;
  body_digest : string → string;
  decode_set_body b s m : decode b = Some m → decode (json_set_body b s) = Some (with_body s m) }.

(** They agree on the texts that decode. *)
Class EnvelopeLaws (C : EnvelopeCodec) := {
  decode_json_id b m : decode b = Some m → json_id b = Ok (Some m.(id));
  decode_json_text b m : decode b = Some m → json_text b "body" = Some (Some m.(body)) ∧
    json_text b "id" = Some (Some m.(id)) ∧ json_text b "to" = Some (Some m.(to));
  decode_json_notice b m : decode b = Some m → json_notice b = is_some m.(thread_notice) }.

Inductive DeliveryPhase := DDispatching | DAcked | DIndeterminate | DOrphaned | DHeld | DCancelled.
#[export] Instance DeliveryPhase_eq_dec : EqDecision DeliveryPhase.
Proof. solve_decision. Defined.

(** A row of [send_deliveries]; its operation kind is always ["send"]. *)
Record Delivery := mkDelivery {
  queue_rank : Z;
  d_id : string;
  d_scope : string;
  d_key : string;
  d_instance : string;
  d_generation : Z;
  d_phase : DeliveryPhase;
  d_expires_at : Z;
  d_bytes : option string;
  d_agent : string;
  turn_gate : bool;
  acked_at : option Z }.

Record SendDelivery := mkSend {
  sd_id : string;
  sd_instance : string;
  sd_generation : Z;
  sd_expires_at : Z;
  sd_bytes : string }.

Record DeliveryExecutionLink := mkExecLink {
  xl_delivery_id : string; xl_submission_id : string; xl_execution_id : string }.
#[export] Instance DeliveryExecutionLink_eq_dec : EqDecision DeliveryExecutionLink.
Proof. solve_decision. Defined.

Record ReplyTracking := mkTracking {
  rt_request_id : string; rt_sender : string; rt_target : string; rt_created_at : Z; rt_deadline_at : Z }.

Record OrphanedDeliveryNotice := mkNotice {
  on_delivery_id : string; on_message_id : string; on_sender : string; on_target : string; on_reason : string }.

(** Rows of [orphan_emitter_notices], [ledger], [queue_edits] and
    [control_pause_interruptions]. *)
Record EmitterNotice := mkEmitter {
  en_delivery_id : string; en_sender : string; en_body : string; en_created_at : Z; en_notified_at : option Z }.
Record LedgerRow := mkLedger { lg_ts : Z; lg_sender : string; lg_body : string; lg_conversation : string }.
Record QueueEdit := mkEdit {
  qe_bytes : string; qe_action : string; qe_actor : string; qe_delivery_id : option string;
  qe_before : option string; qe_state : string; qe_refusal : option string; qe_created_at : Z; qe_expires_at : Z }.
Record PauseInterruption := mkPause {
  pi_target_agent : string; pi_resumed : bool; pi_resume_execution_id : option string }.

Record SendDb := mkSendDb {
  records : gmap (string * string * string) Row;
  deliveries : list Delivery;
  (** The counter of [AUTOINCREMENT]. *)
  next_rank : Z;
  exec_links : list DeliveryExecutionLink;
  ledger : gmap (string * string) LedgerRow;
  requests : gmap string RequestRow;
  guidance_log : list GuidanceEvent;
  notices : list EmitterNotice;
  queue_edits : gmap (string * string) QueueEdit;
  control : ControlDb;
  interruptions : list PauseInterruption }.

Definition set_records (t : gmap (string * string * string) Row) (db : SendDb) : SendDb :=
  mkSendDb t db.(deliveries) db.(next_rank) db.(exec_links) db.(ledger) db.(requests) db.(guidance_log)
    db.(notices) db.(queue_edits) db.(control) db.(interruptions).
Definition set_deliveries (ds : list Delivery) (db : SendDb) : SendDb :=
  mkSendDb db.(records) ds db.(next_rank) db.(exec_links) db.(ledger) db.(requests) db.(guidance_log)
    db.(notices) db.(queue_edits) db.(control) db.(interruptions).
Definition set_exec_links (ls : list DeliveryExecutionLink) (db : SendDb) : SendDb :=
  mkSendDb db.(records) db.(deliveries) db.(next_rank) ls db.(ledger) db.(requests) db.(guidance_log)
    db.(notices) db.(queue_edits) db.(control) db.(interruptions).
Definition set_requests (rs : gmap string RequestRow) (db : SendDb) : SendDb :=
  mkSendDb db.(records) db.(deliveries) db.(next_rank) db.(exec_links) db.(ledger) rs db.(guidance_log)
    db.(notices) db.(queue_edits) db.(control) db.(interruptions).
Definition set_notices (ns : list EmitterNotice) (db : SendDb) : SendDb :=
  mkSendDb db.(records) db.(deliveries) db.(next_rank) db.(exec_links) db.(ledger) db.(requests) db.(guidance_log)
    ns db.(queue_edits) db.(control) db.(interruptions).
Definition set_edits (es : gmap (string * string) QueueEdit) (db : SendDb) : SendDb :=
  mkSendDb db.(records) db.(deliveries) db.(next_rank) db.(exec_links) db.(ledger) db.(requests) db.(guidance_log)
    db.(notices) es db.(control) db.(interruptions).

(** A transaction: its result is kept when it is [Ok]. *)
Definition commit {X} (db : SendDb) (r : result IdempotencyError (SendDb * X)) : SendDb * result IdempotencyError X :=
  match r with Ok (db', x) => (db', Ok x) | Err e => (db, Err e) end.

(** The record of the key of a delivery. *)
Definition delivery_key (d : Delivery) : string * string * string := (d.(d_scope), "send", d.(d_key)).
Definition record_of (db : SendDb) (d : Delivery) : option Row := db.(records) !! delivery_key d.
Definition send_key (d : Delivery) : IdempotencyKey := mkKey d.(d_scope) Send d.(d_key).

Definition by_delivery (i : string) (d : Delivery) : bool := bool_decide (d.(d_id) = i).
Definition in_phase (p : DeliveryPhase) (d : Delivery) : bool := bool_decide (d.(d_phase) = p).
Definition held_for (agent : string) (d : Delivery) : bool := bool_decide (d.(d_agent) = agent) && in_phase DHeld d.
Definition gated_for (agent : string) (d : Delivery) : bool := bool_decide (d.(d_agent) = agent) && d.(turn_gate).

Definition with_phase (p : DeliveryPhase) (gate : bool) (d : Delivery) : Delivery :=
  mkDelivery d.(queue_rank) d.(d_id) d.(d_scope) d.(d_key) d.(d_instance) d.(d_generation) p d.(d_expires_at)
    d.(d_bytes) d.(d_agent) gate d.(acked_at).
Definition with_gate (gate : bool) (d : Delivery) : Delivery := with_phase d.(d_phase) gate d.
Definition with_instance (i : string) (gate : bool) (d : Delivery) : Delivery :=
  mkDelivery d.(queue_rank) d.(d_id) d.(d_scope) d.(d_key) i d.(d_generation) d.(d_phase) d.(d_expires_at)
    d.(d_bytes) d.(d_agent) gate d.(acked_at).
Definition with_rank (r : Z) (d : Delivery) : Delivery :=
  mkDelivery r d.(d_id) d.(d_scope) d.(d_key) d.(d_instance) d.(d_generation) d.(d_phase) d.(d_expires_at)
    d.(d_bytes) d.(d_agent) d.(turn_gate) d.(acked_at).
Definition with_ack (now : Z) (d : Delivery) : Delivery :=
  mkDelivery d.(queue_rank) d.(d_id) d.(d_scope) d.(d_key) d.(d_instance) d.(d_generation) DAcked d.(d_expires_at)
    d.(d_bytes) d.(d_agent) d.(turn_gate) (Some (default now d.(acked_at))).

(** [ORDER BY queue_rank]. *)
Definition by_rank (ds : list Delivery) : list Delivery :=
  sort_by (λ a b, a.(queue_rank) <=? b.(queue_rank)) ds.

Definition pending_pause (db : SendDb) (agent : string) : bool :=
  exists_row (λ p, bool_decide (p.(pi_target_agent) = agent) && negb p.(pi_resumed)) db.(interruptions).

(** An open request of the sender to the target whose deadline is later than [now]. *)
Definition request_open (db : SendDb) (m : BridgetMessage) (now : Z) : bool :=
  is_some_and (db.(requests) !! m.(id)) (λ r,
    bool_decide (r.(row_sender) = m.(from)) && bool_decide (r.(row_target) = m.(to)) && is_open r
    && (now <? r.(row_deadline_at))).
Definition request_overdue (db : SendDb) (m : BridgetMessage) (now : Z) : bool :=
  is_some_and (db.(requests) !! m.(id)) (λ r,
    bool_decide (r.(row_sender) = m.(from)) && bool_decide (r.(row_target) = m.(to)) && is_open r
    && (r.(row_deadline_at) <=? now)).

(** [UPDATE idempotency_records .. WHERE key AND state = 'dispatching']: whether
    its one row changed. *)
Definition conclude (d : Delivery) (f : Row → Row) (db : SendDb) : result IdempotencyError SendDb :=
  match update_in Dispatching f (send_key d) db.(records) with
  | (t, true) => Ok (set_records t db)
  | (_, false) => Err DispatchUnavailable
  end.

(** [ON CONFLICT(delivery_id) DO NOTHING]. *)
Definition add_notice (n : EmitterNotice) (db : SendDb) : SendDb :=
  if exists_row (λ x, bool_decide (x.(en_delivery_id) = n.(en_delivery_id))) db.(notices) then db
  else set_notices (db.(notices) ++ [n]) db.

Section Saga.
Context `{EnvelopeCodec}.

(** ** The beginning of a delivery *)

Definition insert_tracked (r : ReplyTracking) (db : SendDb) : result IdempotencyError SendDb :=
  match db.(requests) !! r.(rt_request_id) with
  | Some _ => Err (Sqlite "UNIQUE constraint failed: tracked_requests.id")
  | None =>
    Ok (set_requests (<[r.(rt_request_id) :=
          mkRow r.(rt_sender) r.(rt_target) "open" r.(rt_created_at) r.(rt_deadline_at) 0]> db.(requests)) db)
  end.

(** [INSERT OR REPLACE INTO ledger]. *)
Definition record_message (m : BridgetMessage) (conversation : string) (now : Z) (db : SendDb) : SendDb :=
  mkSendDb db.(records) db.(deliveries) db.(next_rank) db.(exec_links)
    (<[(m.(id), m.(to)) := mkLedger now m.(from) m.(body) conversation]> db.(ledger))
    db.(requests) db.(guidance_log) db.(notices) db.(queue_edits) db.(control) db.(interruptions).

Definition insert_delivery (d : Delivery) (db : SendDb) : result IdempotencyError SendDb :=
  if exists_row (by_delivery d.(d_id)) db.(deliveries) then Err (Sqlite "UNIQUE constraint failed: send_deliveries.delivery_id")
  else if exists_row (λ x, bool_decide (delivery_key x = delivery_key d)) db.(deliveries)
  then Err (Sqlite "UNIQUE constraint failed: idx_send_deliveries_operation")
  else if negb ((0 <? d.(d_generation)) && (d.(d_generation) <=? i64_max)) then Err (Sqlite "CHECK constraint failed")
  else Ok (mkSendDb db.(records) (db.(deliveries) ++ [d]) (d.(queue_rank) + 1) db.(exec_links) db.(ledger)
             db.(requests) db.(guidance_log) db.(notices) db.(queue_edits) db.(control) db.(interruptions)).

Definition insert_link (l : DeliveryExecutionLink) (db : SendDb) : result IdempotencyError SendDb :=
  if exists_row (λ x, bool_decide (x.(xl_delivery_id) = l.(xl_delivery_id))) db.(exec_links)
  then Err (Sqlite "UNIQUE constraint failed: send_delivery_execution_links.delivery_id")
  else Ok (set_exec_links (db.(exec_links) ++ [l]) db).

Definition log_guidance (e : GuidanceEvent) (db : SendDb) : SendDb :=
  mkSendDb db.(records) db.(deliveries) db.(next_rank) db.(exec_links) db.(ledger) db.(requests)
    (db.(guidance_log) ++ [e]) db.(notices) db.(queue_edits) db.(control) db.(interruptions).

(** Whether the delivery resumes an execution that a pause interrupted while
    other deliveries are held. *)
Definition resumed_gate (db : SendDb) (link : option DeliveryExecutionLink) (m : BridgetMessage) : bool :=
  is_some_and link (λ l,
    exists_row (held_for m.(to)) db.(deliveries)
    && exists_row (λ p, bool_decide (p.(pi_resume_execution_id) = Some l.(xl_execution_id))
                        && bool_decide (p.(pi_target_agent) = m.(to))) db.(interruptions)).

Definition begin_valid (k : IdempotencyKey) (sd : SendDelivery) (link : option DeliveryExecutionLink)
    (held_agent : option string) : bool :=
  match k.(operation_kind) with Send => true | Spawn => false end
  && negb (bool_decide (sd.(sd_id) = "")) && negb (bool_decide (sd.(sd_bytes) = ""))
  && (Z.of_nat (String.length sd.(sd_bytes)) <=? MAX_CANONICAL_BYTES)
  && negb (is_some_and link (λ l, negb (bool_decide (l.(xl_delivery_id) = sd.(sd_id)))
             || bool_decide (l.(xl_submission_id) = "") || bool_decide (l.(xl_execution_id) = "")))
  && negb (bool_decide (held_agent = Some "")) && negb (is_some held_agent && is_some link).

(** [guidance] is the row of the journal, written with the delivery; [now] is
    the date of the ledger. *)
Definition begin_send_delivery_with_guidance (db : SendDb) (k : IdempotencyKey) (sd : SendDelivery)
    (reply_ : option ReplyTracking) (link : option DeliveryExecutionLink) (guidance : option GuidanceEvent)
    (held_capacity : option Z) (held_agent : option string) (now : Z) : SendDb * result IdempotencyError () :=
  commit db (
    if negb (begin_valid k sd link held_agent) then Err InvalidDelivery
    else
      m ← ok_or (decode sd.(sd_bytes)) (CorruptRecord "enveloppe de remise illisible");
      let full := match held_agent, held_capacity with
                  | Some agent, Some capacity => capacity <=? Z.of_nat (count_if (held_for agent) db.(deliveries))
                  | _, _ => false
                  end in
      if full then Err HeldQueueFull
      else
        match update_in Prepared (with_row_state Dispatching) k db.(records) with
        | (_, false) => Err DispatchUnavailable
        | (t, true) =>
          let d := mkDelivery db.(next_rank) sd.(sd_id) k.(issuer_scope) k.(idempotency_key) sd.(sd_instance)
                     sd.(sd_generation) (if is_some held_agent then DHeld else DDispatching) sd.(sd_expires_at)
                     (Some sd.(sd_bytes)) (default m.(to) held_agent) (resumed_gate db link m) None in
          db1 ← insert_delivery d (set_records t db);
          db2 ← match link with Some l => insert_link l db1 | None => Ok db1 end;
          let db3 := record_message m (m.(from) +:+ "|" +:+ m.(to)) now db2 in
          db4 ← match reply_ with Some r => insert_tracked r db3 | None => Ok db3 end;
          Ok (match guidance with Some e => log_guidance e db4 | None => db4 end, ())
        end).

Definition link_send_delivery (db : SendDb) (l : DeliveryExecutionLink) : SendDb * result IdempotencyError () :=
  if bool_decide (l.(xl_delivery_id) = "") || bool_decide (l.(xl_submission_id) = "")
     || bool_decide (l.(xl_execution_id) = "") then (db, Err InvalidDelivery)
  else if negb (exists_row (by_delivery l.(xl_delivery_id)) db.(deliveries))
          && negb (exists_row (λ x, bool_decide (x.(xl_delivery_id) = l.(xl_delivery_id))) db.(exec_links))
  then (db, Err (Sqlite "FOREIGN KEY constraint failed"))
  else
    let db := match insert_link l db with Ok db' => db' | Err _ => db end in
    (db, match select_one (λ x, bool_decide (x.(xl_delivery_id) = l.(xl_delivery_id))) db.(exec_links) with
         | Some x => if bool_decide (x = l) then Ok () else Err InvalidDelivery
         | None => Err (CorruptRecord "lien causal de remise absent")
         end).

(** ** Moving deliveries to another instance *)

Definition free_of_notice (d : Delivery) : bool := negb (is_some_and d.(d_bytes) json_notice).

Definition reassign_dispatching_deliveries (db : SendDb) (from_ to_ : string) (now : Z) : SendDb * nat :=
  if bool_decide (from_ = "") || bool_decide (to_ = "") || bool_decide (from_ = to_) then (db, O)
  else
    let p := λ d, bool_decide (d.(d_instance) = from_) && (in_phase DDispatching d || in_phase DHeld d)
                  && (now <? d.(d_expires_at)) && free_of_notice d in
    (set_deliveries (update p (λ d, with_instance to_ d.(turn_gate) d) db.(deliveries)) db, updated p db.(deliveries)).

Definition WAKE_SCOPES : list string :=
  [CLI_WAKE_SCOPE; "bridget_internal_scheduled_wake158B_v1"; "bridget_internal_missed_summary158B_v1"].

Definition adopt_held_for_agent (db : SendDb) (agent inst : string) (recover : bool) (now : Z)
    : SendDb * result IdempotencyError nat :=
  if bool_decide (agent = "") || bool_decide (inst = "") then (db, Err InvalidDelivery)
  else
    let p := λ d, bool_decide (d.(d_agent) = agent)
      && (in_phase DHeld d
          || (recover && in_phase DDispatching d && negb (bool_decide (d.(d_instance) = inst))
              && (now <? d.(d_expires_at)) && negb (bool_decide (d.(d_scope) ∈ WAKE_SCOPES)) && free_of_notice d)) in
    (set_deliveries
       (update p (λ d, with_instance inst (if in_phase DDispatching d then true else d.(turn_gate)) d) db.(deliveries)) db,
     Ok (updated p db.(deliveries))).

(** ** Reads *)

Definition to_send (d : Delivery) : option SendDelivery :=
  b ← d.(d_bytes); Some (mkSend d.(d_id) d.(d_instance) d.(d_generation) d.(d_expires_at) b).

Definition stored_send_delivery (db : SendDb) (k : IdempotencyKey) : option Delivery :=
  select_one (λ d, bool_decide (d.(d_scope) = k.(issuer_scope)) && bool_decide (d.(d_key) = k.(idempotency_key)))
    db.(deliveries).
Definition send_delivery (db : SendDb) (k : IdempotencyKey) : option SendDelivery :=
  d ← stored_send_delivery db k; if in_phase DDispatching d then to_send d else None.
Definition send_delivery_phase (db : SendDb) (k : IdempotencyKey) : option DeliveryPhase :=
  d_phase <$> stored_send_delivery db k.
Definition orphaned_delivery_id (db : SendDb) (k : IdempotencyKey) : option string :=
  d_id <$> opt_filter (in_phase DOrphaned) (stored_send_delivery db k).

(** A text read where the column is [NULL]. *)
Fixpoint sends_of (ds : list Delivery) : result IdempotencyError (list SendDelivery) :=
  match ds with
  | [] => Ok []
  | d :: ds =>
    s ← ok_or (to_send d) (CorruptRecord "remise dispatching sans enveloppe après reclassement");
    rest ← sends_of ds; Ok (s :: rest)
  end.

(** The deliveries to push again to an instance that reconnects. *)
Definition dispatching_deliveries_for_instance (db : SendDb) (inst : string) (now : Z)
    : SendDb * result IdempotencyError (list SendDelivery) :=
  let mine := λ d, bool_decide (d.(d_instance) = inst) && in_phase DDispatching d in
  let ds := update (λ d, mine d && negb (is_some d.(d_bytes))) (with_phase DIndeterminate false) db.(deliveries) in
  commit db (
    out ← sends_of (by_rank (select (λ d, mine d && (now <? d.(d_expires_at))) ds));
    Ok (set_deliveries ds db, out)).

(** ** Settlements of deliveries in flight *)

Definition mark_delivery_indeterminate (db : SendDb) (i inst : string) (generation : Z)
    : SendDb * result IdempotencyError () :=
  let p := λ d, by_delivery i d && bool_decide (d.(d_instance) = inst) && (d.(d_generation) =? generation)
                && in_phase DDispatching d in
  (set_deliveries (update p (with_phase DIndeterminate false) db.(deliveries)) db,
   if (updated p db.(deliveries) =? 1)%nat then Ok () else Err InvalidDelivery).

Definition settle_expired_dispatching (db : SendDb) (now : Z) : SendDb * nat :=
  let p := λ d, in_phase DDispatching d && (d.(d_expires_at) <=? now) in
  (set_deliveries (update p (with_phase DIndeterminate false) db.(deliveries)) db, updated p db.(deliveries)).

(** The rows whose record is gone follow it, and their links. *)
Definition cascade (t : gmap (string * string * string) Row) (db : SendDb) : SendDb :=
  let ds := select (λ d, bool_decide (is_Some (t !! delivery_key d))) db.(deliveries) in
  set_exec_links (select (λ l, exists_row (by_delivery l.(xl_delivery_id)) ds) db.(exec_links))
    (set_deliveries ds (set_records t db)).

Definition purge_sends (db : SendDb) (now grace : Z) : SendDb * nat :=
  let '(t, n) := purge_expired_sends db.(records) now grace in (cascade t db, n).

Definition orphan_body (message_id target i reason : string) : string :=
  "ORPHELIN: le message " +:+ message_id +:+ " destiné à " +:+ target +:+
  " n'a pas été livré — présence purgée (delivery " +:+ i +:+ "). " +:+ reason +:+ newline +:+
  "Le rejeu à l'identique ne sert à rien — cette clé est close. Change de destinataire, ou attends son retour avec une clé neuve.".

(** One delivery of an instance whose presence was purged. *)
Definition orphan_one (reason : string) (now : Z) (d : Delivery) (db : SendDb)
    : result IdempotencyError (SendDb * OrphanedDeliveryNotice) :=
  let m := decode (default "" d.(d_bytes)) in
  let message_id := from_option (λ m : BridgetMessage, m.(id)) d.(d_id) m in
  let sender := from_option from "inconnu" m in
  let target := from_option to "inconnu" m in
  let p := λ x, by_delivery d.(d_id) x && (in_phase DDispatching x || in_phase DHeld x) in
  let n := updated p db.(deliveries) in
  let db1 := set_deliveries (update p (with_phase DOrphaned false) db.(deliveries)) db in
  db2 ← conclude d (with_result "orphaned" None (Some reason)) db1;
  if negb (n =? 1)%nat then Err DispatchUnavailable
  else Ok (add_notice (mkEmitter d.(d_id) sender (orphan_body message_id target d.(d_id) reason) now None) db2,
           mkNotice d.(d_id) message_id sender target reason).

Fixpoint orphan_all (reason : string) (now : Z) (ds : list Delivery) (db : SendDb)
    : result IdempotencyError (SendDb * list OrphanedDeliveryNotice) :=
  match ds with
  | [] => Ok (db, [])
  | d :: ds =>
    '(db1, n) ← orphan_one reason now d db;
    '(db2, ns) ← orphan_all reason now ds db1;
    Ok (db2, n :: ns)
  end.

Definition orphan_dispatching_for_instance (db : SendDb) (inst reason : string) (now : Z)
    : SendDb * result IdempotencyError (list OrphanedDeliveryNotice) :=
  commit db (orphan_all reason now
    (select (λ d, bool_decide (d.(d_instance) = inst) && (in_phase DDispatching d || in_phase DHeld d)) db.(deliveries)) db).

Definition pending_orphan_emitter_notices (db : SendDb) : list (string * string * string) :=
  (λ n, (n.(en_delivery_id), n.(en_sender), n.(en_body))) <$>
  sort_by (λ a b, (a.(en_created_at) <? b.(en_created_at))
             || ((a.(en_created_at) =? b.(en_created_at)) && String.leb a.(en_delivery_id) b.(en_delivery_id)))
    (select (λ n, negb (is_some n.(en_notified_at))) db.(notices)).

Definition mark_orphan_emitter_notified (db : SendDb) (i : string) (now : Z) : SendDb :=
  set_notices
    (update (λ n, bool_decide (n.(en_delivery_id) = i) && negb (is_some n.(en_notified_at)))
       (λ n, mkEmitter n.(en_delivery_id) n.(en_sender) n.(en_body) n.(en_created_at) (Some now)) db.(notices)) db.

(** The acknowledgement; the request that the message answers, when it closed it. *)
Definition acknowledge_send_delivery_at (db : SendDb) (i inst : string) (generation now : Z)
    : SendDb * result IdempotencyError (option string) :=
  commit db (
    d ← ok_or (select_one (by_delivery i) db.(deliveries)) InvalidDelivery;
    if negb (bool_decide (d.(d_instance) = inst)) || negb (d.(d_generation) =? generation) then Err InvalidDelivery
    else if in_phase DAcked d then Ok (db, None)
    else if negb (in_phase DDispatching d) then Err InvalidDelivery
    else
      let m := b ← d.(d_bytes); decode b in
      let p := λ x, by_delivery i x && in_phase DDispatching x in
      let db1 := set_deliveries (update p (with_ack now) db.(deliveries)) db in
      db2 ← conclude d (with_result "accepted" None None) db1;
      if negb (updated p db.(deliveries) =? 1)%nat then Err DispatchUnavailable
      else
        match (m ← m; r ← m.(in_reply_to); Some (m, r)) with
        | Some (m, r) =>
          let '(rs, changed) := mark_answered r m.(from) m.(to) db2.(requests) in
          Ok (set_requests rs db2, if changed : bool then Some r else None)
        | None => Ok (db2, None)
        end).

Definition linked_to (db : SendDb) (execution : string) (d : Delivery) : bool :=
  exists_row (λ l, bool_decide (l.(xl_delivery_id) = d.(d_id)) && bool_decide (l.(xl_execution_id) = execution))
    db.(exec_links).

(** A [NULL] envelope where the code reads bytes. *)
Definition read_send (d : Delivery) : result IdempotencyError SendDelivery :=
  ok_or (to_send d) (Sqlite "Invalid column type Null").

Definition dispatching_delivery_for_execution_any_instance (db : SendDb) (execution : string) (now : Z)
    : result IdempotencyError (option SendDelivery) :=
  if bool_decide (Str.trim execution = "") then Ok None
  else
    let rows := take 2 (sort_by (λ a b, String.leb a.(d_id) b.(d_id))
      (select (λ d, linked_to db execution d && in_phase DDispatching d && (now <? d.(d_expires_at))) db.(deliveries))) in
    match rows with
    | [] => Ok None
    | [d] => s ← read_send d; Ok (Some s)
    | d :: d' :: _ =>
      _ ← read_send d; _ ← read_send d';
      Err (CorruptRecord "plusieurs remises actives pour une exécution")
    end.

Definition dispatching_delivery_for_execution (db : SendDb) (execution inst : string) (now : Z)
    : result IdempotencyError (option SendDelivery) :=
  if bool_decide (Str.trim execution = "") || bool_decide (Str.trim inst = "") then Ok None
  else
    match select_one (λ d, linked_to db execution d && bool_decide (d.(d_instance) = inst)
                           && in_phase DDispatching d && (now <? d.(d_expires_at))) db.(deliveries) with
    | None => Ok None
    | Some d => s ← read_send d; Ok (Some s)
    end.

(** What an instance still has to receive, by rank, with the date of the send
    and whether it is held; the rows without a record do not join. *)
Fixpoint queued_rows (db : SendDb) (ds : list Delivery) : result IdempotencyError (list (SendDelivery * Z * bool)) :=
  match ds with
  | [] => Ok []
  | d :: ds =>
    match record_of db d with
    | None => queued_rows db ds
    | Some r => s ← read_send d; rest ← queued_rows db ds; Ok ((s, r.(issued_at), in_phase DHeld d) :: rest)
    end
  end.
Definition queued_deliveries_for_recipient (db : SendDb) (inst : string) (now : Z) (limit : nat) (include_held : bool)
    : result IdempotencyError (list (SendDelivery * Z * bool)) :=
  let joined := select (λ d, bool_decide (is_Some (record_of db d)) && bool_decide (d.(d_instance) = inst)
    && (in_phase DDispatching d || (include_held && in_phase DHeld d)) && (now <? d.(d_expires_at))) db.(deliveries) in
  queued_rows db (take (limit `min` 200)%nat (by_rank joined)).

(** ** The held queue *)

Definition removal_body (m : BridgetMessage) (reason : string) : string :=
  "RETIRÉ DE LA FILE : votre message " +:+ m.(id) +:+ " pour " +:+ m.(to) +:+
  " a été retiré avant livraison (" +:+ reason +:+ "). Il ne sera pas livré.".

(** The open request of a removed message is closed with it.  The date and the
    reason of that end, and the lifecycle record of a linked request, are columns
    and rows that no operation here reads; they are left out. *)
Definition close_request (m : BridgetMessage) (now : Z) (db : SendDb) : SendDb :=
  let state := if request_overdue db m now then "timed_out" else "cancelled" in
  match db.(requests) !! m.(id) with
  | Some r =>
    if bool_decide (r.(row_sender) = m.(from)) && bool_decide (r.(row_target) = m.(to)) && is_open r
    then set_requests (<[m.(id) := with_state state r]> db.(requests)) db else db
  | None => db
  end.

Definition SETTLE_REASONS : list string := ["expired_in_queue"; "request_closed_in_queue"; "cancelled_in_queue"].

Definition settle_held_in_transaction (i reason : string) (now : Z) (db : SendDb)
    : result IdempotencyError (SendDb * option OrphanedDeliveryNotice) :=
  if negb (bool_decide (reason ∈ SETTLE_REASONS)) then Err InvalidDelivery
  else
    match (d ← select_one (λ d, by_delivery i d && in_phase DHeld d) db.(deliveries);
           r ← record_of db d; Some (d, r)) with
    | None => Ok (db, None)
    | Some (d, r) =>
      bytes ← ok_or d.(d_bytes) (Sqlite "Invalid column type Null");
      if bool_decide (reason = "expired_in_queue") && (now <? d.(d_expires_at)) && (now <? r.(expires_at))
      then Ok (db, None)
      else
        m ← ok_or (decode bytes) (CorruptRecord "enveloppe retenue illisible");
        if bool_decide (reason = "request_closed_in_queue") && (negb m.(reply) || request_open db m now)
        then Ok (db, None)
        else
          let p := λ x, by_delivery i x && in_phase DHeld x in
          if negb (updated p db.(deliveries) =? 1)%nat then Err DispatchUnavailable
          else
            let db1 := set_deliveries (update p (with_phase DCancelled false) db.(deliveries)) db in
            let body := removal_body m reason in
            db2 ← conclude d (with_result "rejected" (Some reason) (Some body)) db1;
            let db3 := if m.(reply) then close_request m now db2 else db2 in
            Ok (add_notice (mkEmitter i m.(from) body now None) db3,
                Some (mkNotice i m.(id) m.(from) m.(to) reason))
    end.

Definition settle_held (db : SendDb) (i reason : string) (now : Z)
    : SendDb * result IdempotencyError (option OrphanedDeliveryNotice) :=
  commit db (settle_held_in_transaction i reason now db).

Definition clear_held_turn_gate (db : SendDb) (agent : string) : SendDb :=
  set_deliveries (update (gated_for agent) (with_gate false) db.(deliveries)) db.

(** The first held delivery of an agent that has a record. *)
Definition next_held (db : SendDb) (agent : string) : option (Delivery * Row) :=
  d ← head (by_rank (select (λ d, held_for agent d && bool_decide (is_Some (record_of db d))) db.(deliveries)));
  r ← record_of db d; Some (d, r).

(** What makes a held message undeliverable. *)
Definition settlement_reason (db : SendDb) (d : Delivery) (r : Row) (m : BridgetMessage) (now : Z) : option string :=
  if (d.(d_expires_at) <=? now) || (r.(expires_at) <=? now) then Some "expired_in_queue"
  else if m.(reply) && negb (request_open db m now) then Some "request_closed_in_queue" else None.

(** The acknowledged turns that have lasted 30 seconds no longer gate the agent. *)
Definition stale_gate (agent : string) (now : Z) (d : Delivery) : bool :=
  gated_for agent d && in_phase DAcked d && is_some_and d.(acked_at) (λ a, a <? i64_saturating_sub now 30).

(** The one update that puts a held delivery in flight. *)
Definition dispatch_held (d : Delivery) (p : Delivery → bool) (db : SendDb) : result IdempotencyError (SendDb * SendDelivery) :=
  if negb (updated p db.(deliveries) =? 1)%nat then Err DispatchUnavailable
  else
    s ← read_send d;
    Ok (set_deliveries (update p (with_phase DDispatching true) db.(deliveries)) db, s).

Definition release_next_held (db : SendDb) (agent : string) (now : Z)
    : SendDb * result IdempotencyError (option SendDelivery * option OrphanedDeliveryNotice) :=
  let paused := match admit_autonomous_effect HeldRelease (read db.(control)) with
                | DeferredBy _ => true | EffectAdmitted => false end in
  if paused || pending_pause db agent then (db, Ok (None, None))
  else
    let db1 := set_deliveries (update (stale_gate agent now) (with_gate false) db.(deliveries)) db in
    if exists_row (gated_for agent) db1.(deliveries) then (db, Ok (None, None))
    else
      commit db (
        match next_held db1 agent with
        | None => Ok (db1, (None, None))
        | Some (d, r) =>
          _ ← read_send d;
          if exists_row (λ l, bool_decide (l.(xl_delivery_id) = d.(d_id))) db1.(exec_links) then Err InvalidDelivery
          else
            m ← ok_or (b ← d.(d_bytes); decode b) (CorruptRecord "enveloppe retenue illisible");
            match settlement_reason db1 d r m now with
            | Some reason =>
              '(db2, notice) ← settle_held_in_transaction d.(d_id) reason now db1; Ok (db2, (None, notice))
            | None =>
              '(db2, s) ← dispatch_held d
                 (λ x, by_delivery d.(d_id) x && in_phase DHeld x && negb x.(turn_gate)) db1;
              Ok (db2, (Some s, None))
            end
        end).

(** ** Edits of the queue *)

(** [.. ORDER BY queue_rank LIMIT 2]: the rows are read in order until two match. *)
Fixpoint matching_ids (n : nat) (message_id : string) (ds : list Delivery) : result IdempotencyError (list string) :=
  match n, ds with
  | O, _ | _, [] => Ok []
  | S n', d :: ds' =>
    j ← match d.(d_bytes) with
        | Some b => match json_id b with Ok j => Ok j | Err e => Err (Sqlite e) end
        | None => Ok None
        end;
    if bool_decide (j = Some message_id) then rest ← matching_ids n' message_id ds'; Ok (d.(d_id) :: rest)
    else matching_ids n message_id ds'
  end.
Definition held_queue (db : SendDb) (agent : string) : list Delivery := by_rank (select (held_for agent) db.(deliveries)).
Definition unique_held_public_id (db : SendDb) (agent message_id : string) : result IdempotencyError (option string) :=
  ids ← matching_ids 2 message_id (held_queue db agent);
  Ok (match ids with [i] => Some i | _ => None end).

Inductive QueueEditAction := EditCancel | EditReorder | EditPromote.
#[export] Instance QueueEditAction_eq_dec : EqDecision QueueEditAction.
Proof. solve_decision. Defined.
Definition action_name (a : QueueEditAction) : string :=
  match a with EditCancel => "cancel" | EditReorder => "reorder" | EditPromote => "promote" end.

Inductive QueueEditState := Applied | Refused.
#[export] Instance QueueEditState_eq_dec : EqDecision QueueEditState.
Proof. solve_decision. Defined.
Definition edit_state_name (s : QueueEditState) : string :=
  match s with Applied => "applied" | Refused => "refused" end.

(** [effect] is [Unconfirmed] after a promotion. *)
Record QueueEditReceipt := mkReceipt { rc_state : QueueEditState; rc_refusal : option string; rc_effect : bool }.
#[export] Instance QueueEditReceipt_eq_dec : EqDecision QueueEditReceipt.
Proof. solve_decision. Defined.

Definition receipt (s : QueueEditState) (refusal : option string) (a : QueueEditAction) : QueueEditReceipt :=
  mkReceipt s refusal (bool_decide (s = Applied) && bool_decide (a = EditPromote)).

Definition QUEUE_EDIT_RETENTION_SECS : Z := 7 * 86400.

(** What the callback of an edit decides: the delivery, the one it moves before,
    and the effect or the refusal with the notice of a forced removal. *)
Record Decision T := mkDecision {
  dc_delivery : option string; dc_before : option string; dc_effect : T + (string * option OrphanedDeliveryNotice) }.
#[global] Arguments mkDecision {T}.
#[global] Arguments dc_delivery {T}.
#[global] Arguments dc_before {T}.
#[global] Arguments dc_effect {T}.

Definition refused {T} (i before : option string) (code : string) : Decision T := mkDecision i before (inr (code, None)).

Definition queue_edit_once {T} (db : SendDb) (scope request_id bytes : string) (action : QueueEditAction) (actor : string)
    (now : Z) (apply : SendDb → result IdempotencyError (SendDb * Decision T))
    : SendDb * result IdempotencyError (QueueEditReceipt * option T * option OrphanedDeliveryNotice) :=
  commit db (
    _ ← validate_issuer_scope scope;
    _ ← validate_idempotency_key request_id;
    _ ← validate_canonical_bytes bytes;
    e ← ok_or (i64_checked_add now QUEUE_EDIT_RETENTION_SECS) InvalidIssuedAt;
    match db.(queue_edits) !! (scope, request_id) with
    | Some q =>
      if negb (bool_decide (q.(qe_bytes) = bytes)) || negb (bool_decide (q.(qe_action) = action_name action))
      then Ok (db, (mkReceipt Refused (Some "envelope_mismatch") false, None, None))
      else if bool_decide (q.(qe_state) = "applied") then Ok (db, (receipt Applied q.(qe_refusal) action, None, None))
      else if bool_decide (q.(qe_state) = "refused") then Ok (db, (receipt Refused q.(qe_refusal) action, None, None))
      else Err (CorruptRecord "issue queue_edit invalide")
    | None =>
      '(db1, dc) ← apply db;
      '(db2, s, refusal, effect, notice) ←
        match dc.(dc_effect) with
        | inl x => Ok (db1, Applied, None, Some x, None)
        | inr (code, None) => Ok (db, Refused, Some code, None, None)
        | inr (code, Some n) =>
          if negb (bool_decide (action = EditPromote)) || negb (bool_decide (code = "not_held"))
             || negb (bool_decide (dc.(dc_delivery) = Some n.(on_delivery_id))) then Err InvalidDelivery
          else Ok (db1, Refused, Some code, None, Some n)
        end;
      Ok (set_edits (<[(scope, request_id) :=
            mkEdit bytes (action_name action) actor dc.(dc_delivery) dc.(dc_before) (edit_state_name s) refusal now e]>
            db2.(queue_edits)) db2,
          (receipt s refusal action, effect, notice))
    end).

Definition cancel_edit (agent message_id : string) (now : Z) (db : SendDb)
    : result IdempotencyError (SendDb * Decision OrphanedDeliveryNotice) :=
  i ← unique_held_public_id db agent message_id;
  match i with
  | None => Ok (db, refused None None "not_held")
  | Some i =>
    '(db1, n) ← settle_held_in_transaction i "cancelled_in_queue" now db;
    n ← ok_or n DispatchUnavailable;
    Ok (db1, mkDecision (Some i) None (inl n))
  end.

Definition apply_cancel (db : SendDb) (scope request_id bytes actor agent message_id : string) (now : Z)
    : SendDb * result IdempotencyError (QueueEditReceipt * option OrphanedDeliveryNotice * option OrphanedDeliveryNotice) :=
  queue_edit_once db scope request_id bytes EditCancel actor now (cancel_edit agent message_id now).

(** [Vec::insert]. *)
Definition insert_at {A} (i : nat) (x : A) (l : list A) : list A := take i l ++ x :: drop i l.

(** One [UPDATE .. SET queue_rank]: the row that matches, the primary key free. *)
Definition move_rank (p : Delivery → bool) (r : Z) (ds : list Delivery) : result IdempotencyError (list Delivery) :=
  if negb (updated p ds =? 1)%nat then Err DispatchUnavailable
  else if exists_row (λ d, negb (p d) && (d.(queue_rank) =? r)) ds then Err (Sqlite "UNIQUE constraint failed: send_deliveries.queue_rank")
  else Ok (update p (with_rank r) ds).

Fixpoint set_ranks (p : string → Z → Delivery → bool) (v : Z → Z) (rows : list (string * Z)) (ds : list Delivery)
    : result IdempotencyError (list Delivery) :=
  match rows with
  | [] => Ok ds
  | (i, r) :: rows => ds ← move_rank (p i r) (v r) ds; set_ranks p v rows ds
  end.
(** Every rank of the queue is negated, then each is given its new value. *)
Definition park_ranks (agent : string) : list (string * Z) → list Delivery → result IdempotencyError (list Delivery) :=
  set_ranks (λ i r d, by_delivery i d && held_for agent d && (d.(queue_rank) =? r)) Z.opp.
Definition place_ranks (agent : string) : list (string * Z) → list Delivery → result IdempotencyError (list Delivery) :=
  set_ranks (λ i r d, by_delivery i d && held_for agent d && (d.(queue_rank) <? 0)) (λ r, r).

(** The identifiers with one of them moved before another, or to the end. *)
Definition moved_before (i : string) (before : option string) (ids : list string) : result IdempotencyError (list string) :=
  source ← ok_or (position (λ x, bool_decide (x = i)) ids) DispatchUnavailable;
  let rest := delete source ids in
  destination ← match before with
                | Some b => ok_or (position (λ x, bool_decide (x = b)) rest) DispatchUnavailable
                | None => Ok (length rest)
                end;
  Ok (insert_at destination i rest).

(** The delivery to move before, [None] when its name is not that of one held
    message. *)
Definition named_before (db : SendDb) (agent : string) (before_message_id : option string)
    : result IdempotencyError (option (option string)) :=
  match before_message_id with
  | None => Ok (Some None)
  | Some b => b ← unique_held_public_id db agent b; Ok (match b with Some b => Some (Some b) | None => None end)
  end.

Definition reorder_edit (agent message_id : string) (before_message_id : option string) (db : SendDb)
    : result IdempotencyError (SendDb * Decision ()) :=
  i ← unique_held_public_id db agent message_id;
  match i with
  | None => Ok (db, refused None None "not_held")
  | Some i =>
    before ← named_before db agent before_message_id;
    match before with
    | None => Ok (db, refused (Some i) None "not_held")
    | Some before =>
      let rows := held_queue db agent in
      if exists_row (λ d, d.(queue_rank) <=? 0) rows then Err (CorruptRecord "rang retenu non positif")
      else
        let ids := d_id <$> rows in
        _ ← ok_or (position (λ x, bool_decide (x = i)) ids) DispatchUnavailable;
        if bool_decide (before = Some i) then Ok (db, mkDecision (Some i) before (inl ()))
        else
          ordered ← moved_before i before ids;
          if bool_decide (ids = ordered) then Ok (db, mkDecision (Some i) before (inl ()))
          else
            ds1 ← park_ranks agent ((λ d, (d.(d_id), d.(queue_rank))) <$> rows) db.(deliveries);
            ds2 ← place_ranks agent (zip ordered (queue_rank <$> rows)) ds1;
            Ok (set_deliveries ds2 db, mkDecision (Some i) before (inl ()))
    end
  end.

Definition apply_reorder (db : SendDb) (scope request_id bytes actor agent message_id : string)
    (before_message_id : option string) (now : Z)
    : SendDb * result IdempotencyError (QueueEditReceipt * option () * option OrphanedDeliveryNotice) :=
  queue_edit_once db scope request_id bytes EditReorder actor now (reorder_edit agent message_id before_message_id).

(** The facts of the caller, for the action [QueuePromote]. *)
Definition as_promote (f : GuidanceFacts) : GuidanceFacts :=
  mkGuidance QueuePromote f.(g_path) f.(g_actor) f.(identity_attested) f.(trusted_origin) f.(child_proof)
    f.(actor_is_target) f.(actor_is_parent) f.(actor_is_child) f.(actor_is_author) f.(message_editable)
    f.(recipient_turn_active) f.(carrier_queue_fallback) f.(cross_project) f.(g_paused)
    f.(target_has_active_native_task) f.(recent_interrupts_pair) f.(recent_interrupts_target) f.(g_now)
    f.(last_interrupt_pair_at) f.(third_latest_interrupt_target_at).
Definition freshened (editable paused : bool) (now : Z) (f : GuidanceFacts) : GuidanceFacts :=
  mkGuidance f.(g_action) f.(g_path) f.(g_actor) f.(identity_attested) f.(trusted_origin) f.(child_proof)
    f.(actor_is_target) f.(actor_is_parent) f.(actor_is_child) f.(actor_is_author) editable
    f.(recipient_turn_active) f.(carrier_queue_fallback) f.(cross_project) paused
    f.(target_has_active_native_task) f.(recent_interrupts_pair) f.(recent_interrupts_target) now
    f.(last_interrupt_pair_at) f.(third_latest_interrupt_target_at).

Definition promote_edit (agent message_id : string) (rights : GuidanceFacts) (now : Z) (db : SendDb)
    : result IdempotencyError (SendDb * Decision SendDelivery) :=
  i ← unique_held_public_id db agent message_id;
  match i with
  | None => Ok (db, refused None None "not_held")
  | Some i =>
    '(d, r) ← ok_or (d ← select_one (λ d, by_delivery i d && in_phase DHeld d) db.(deliveries);
                     r ← record_of db d; Some (d, r)) (Sqlite "query returned no rows");
    _ ← read_send d;
    m ← ok_or (b ← d.(d_bytes); decode b) (CorruptRecord "enveloppe retenue illisible");
    match settlement_reason db d r m now with
    | Some reason =>
      '(db1, n) ← settle_held_in_transaction i reason now db;
      n ← ok_or n DispatchUnavailable;
      Ok (db1, mkDecision (Some i) None (inr ("not_held", Some n)))
    | None =>
      let reserved := exists_row (gated_for agent) db.(deliveries) in
      let linked := exists_row (λ l, bool_decide (l.(xl_delivery_id) = i)) db.(exec_links) in
      let editable := (now <? d.(d_expires_at)) && (now <? r.(expires_at))
        && bool_decide (r.(Idempotency.row_state) = "dispatching") && negb linked && negb reserved
        && (negb m.(reply) || request_open db m now) in
      let paused := (read db.(control)).(f_paused) || pending_pause db agent in
      match authorize_queue_edit (freshened editable paused now rights) with
      | Err refusal => Ok (db, refused (Some i) None (queue_edit_refusal_code refusal))
      | Ok _ =>
        '(db1, s) ← dispatch_held d (λ x, by_delivery i x && held_for agent x && negb x.(turn_gate)) db;
        Ok (db1, mkDecision (Some i) None (inl s))
      end
    end
  end.

Definition apply_promote (db : SendDb) (scope request_id bytes actor agent message_id : string) (facts : GuidanceFacts)
    (now : Z) : SendDb * result IdempotencyError (QueueEditReceipt * option SendDelivery * option OrphanedDeliveryNotice) :=
  let rights := as_promote facts in
  match authorize rights with
  | Err refusal => (db, Ok (mkReceipt Refused (Some (queue_edit_refusal_code refusal)) false, None, None))
  | Ok _ => queue_edit_once db scope request_id bytes EditPromote actor now (promote_edit agent message_id rights now)
  end.

Definition purge_queue_edits (db : SendDb) (now : Z) : SendDb * nat :=
  let es := filter (λ kv, now ≤ kv.2.(qe_expires_at)) db.(queue_edits) in
  (set_edits es db, (size db.(queue_edits) - size es)%nat).

(** ** A message corrected from a phone *)

(** The answers of [replace], and the table [mobile_queue_replacements]: what was
    asked under a scope and a request identifier, its answer, its expiry. *)
Inductive ReplaceAnswer := ReplaceApplied | ReplaceRefused (code : string).
#[export] Instance ReplaceAnswer_eq_dec : EqDecision ReplaceAnswer.
Proof. solve_decision. Defined.
Record Replacement := mkReplacement { rp_canon : string; rp_answer : ReplaceAnswer; rp_expires_at : Z }.

Definition with_bytes (b : string) (d : Delivery) : Delivery :=
  mkDelivery d.(queue_rank) d.(d_id) d.(d_scope) d.(d_key) d.(d_instance) d.(d_generation) d.(d_phase) d.(d_expires_at)
    (Some b) d.(d_agent) d.(turn_gate) d.(acked_at).

(** [UPDATE ledger SET body .. WHERE id AND target AND sender='human']. *)
Definition set_ledger_body (message_id target body : string) (db : SendDb) : SendDb :=
  mkSendDb db.(records) db.(deliveries) db.(next_rank) db.(exec_links)
    (alter (λ l, if bool_decide (l.(lg_sender) = "human") then mkLedger l.(lg_ts) l.(lg_sender) body l.(lg_conversation) else l)
       (message_id, target) db.(ledger))
    db.(requests) db.(guidance_log) db.(notices) db.(queue_edits) db.(control) db.(interruptions).

(** The body of a held and unexpired delivery, when it is still the one that the
    caller read. *)
Definition replace_body (db : SendDb) (issuer delivery expected body : string) (now : Z)
    : result IdempotencyError (SendDb * ReplaceAnswer) :=
  match select_one (λ d, by_delivery delivery d && bool_decide (d.(d_scope) = issuer)) db.(deliveries) with
  | None => Ok (db, ReplaceRefused "not_held")
  | Some d =>
    b ← ok_or d.(d_bytes) (Sqlite "Invalid column type Null");
    if in_phase DHeld d && (now <? d.(d_expires_at)) then
      current ← ok_or (json_text b "body") (Sqlite "Query is not read-only");
      if negb (bool_decide (body_digest <$> current = Some expected)) then Ok (db, ReplaceRefused "queue_changed")
      else
        let b' := json_set_body b body in
        let db1 := set_deliveries (update (λ x, by_delivery delivery x && in_phase DHeld x) (with_bytes b') db.(deliveries)) db in
        let field f := mjoin (json_text b' f) in
        Ok (match field "id", field "to" with
            | Some i, Some t => set_ledger_body i t body db1
            | _, _ => db1
            end, ReplaceApplied)
    else Ok (db, ReplaceRefused "not_held")
  end.

(** The three readings of the clock are those of the guard, of the purge and of
    the insertion; [None] is an error of the store. *)
Definition replace (db : SendDb) (rs : gmap (string * string) Replacement) (issuer request canon delivery expected body : string)
    (now purge_now insert_now : Z) : SendDb * gmap (string * string) Replacement * option ReplaceAnswer :=
  match rs !! (issuer, request) with
  | Some r => (db, rs, Some (if bool_decide (r.(rp_canon) = canon) then r.(rp_answer) else ReplaceRefused "envelope_mismatch"))
  | None =>
    match replace_body db issuer delivery expected body now with
    | Err _ => (db, rs, None)
    | Ok (db', answer) =>
      (db', <[(issuer, request) := mkReplacement canon answer (insert_now + 7 * 86400)]>
              (filter (λ kv, purge_now < kv.2.(rp_expires_at)) rs), Some answer)
    end
  end.

(** ** The invariant of the saga *)

(** What the record of a delivery says in each phase. *)
Definition record_matches (p : DeliveryPhase) (r : Row) : Prop :=
  match p with
  | DDispatching | DHeld | DIndeterminate => r.(Idempotency.row_state) = "dispatching"
  | DAcked => r.(Idempotency.row_state) = "terminal" ∧ r.(public_result_kind) = Some "accepted"
  | DOrphaned => r.(Idempotency.row_state) = "terminal" ∧ r.(public_result_kind) = Some "orphaned"
  | DCancelled => r.(Idempotency.row_state) = "terminal" ∧ r.(public_result_kind) = Some "rejected"
  end.

(** A wake of the command line whose record the tick closed before its delivery
    was settled. *)
Definition closed_early (d : Delivery) (r : Row) : Prop :=
  d.(d_scope) = CLI_WAKE_SCOPE ∧ d.(d_phase) ∈ [DDispatching; DHeld; DIndeterminate] ∧ r.(Idempotency.row_state) = "terminal".

Definition row_ok (t : gmap (string * string * string) Row) (d : Delivery) : Prop :=
  (∃ r, t !! delivery_key d = Some r ∧ (record_matches d.(d_phase) r ∨ closed_early d r)) ∧
  (d.(d_phase) = DHeld → d.(turn_gate) = false ∧ ∃ b m, d.(d_bytes) = Some b ∧ decode b = Some m) ∧
  (d.(turn_gate) = true → d.(d_phase) = DDispatching ∨ d.(d_phase) = DAcked).

Record saga_ok (db : SendDb) : Prop := mkSaga {
  sg_ids : unique d_id db.(deliveries);
  sg_keys : unique delivery_key db.(deliveries);
  sg_ranks : unique queue_rank db.(deliveries);
  sg_range : ∀ d, d ∈ db.(deliveries) → 0 < d.(queue_rank) < db.(next_rank);
  sg_next : 0 < db.(next_rank);
  sg_row : ∀ d, d ∈ db.(deliveries) → row_ok db.(records) d }.

Lemma saga_same db db' :
  saga_ok db → db'.(records) = db.(records) → db'.(deliveries) = db.(deliveries) → db'.(next_rank) = db.(next_rank) →
  saga_ok db'.
Proof. intros [] H1 H2 H3. constructor; rewrite ?H1, ?H2, ?H3; done. Qed.

Lemma row_ok_frame t t' d : row_ok t d → t' !! delivery_key d = t !! delivery_key d → row_ok t' d.
Proof. intros [H1 H2] Heq. split; [by rewrite Heq|done]. Qed.

(** A change of rows that keeps their identity, with the records it needs. *)
Lemma saga_update db p g t :
  saga_ok db →
  (∀ x, x ∈ db.(deliveries) → p x = true →
     (g x).(d_id) = x.(d_id) ∧ delivery_key (g x) = delivery_key x ∧ (g x).(queue_rank) = x.(queue_rank) ∧ row_ok t (g x)) →
  (∀ x, x ∈ db.(deliveries) → p x = false → t !! delivery_key x = db.(records) !! delivery_key x) →
  saga_ok (set_records t (set_deliveries (update p g db.(deliveries)) db)).
Proof.
  intros [Hi Hk Hr Hrange Hn Hrow] Hg Ht. constructor; simpl; [..|done|].
  - apply update_unique; [|done]. intros x Hx Hp. by apply Hg.
  - apply update_unique; [|done]. intros x Hx Hp. by apply Hg.
  - apply update_unique; [|done]. intros x Hx Hp. by apply Hg.
  - intros d (x & Hx & ->)%update_elem. destruct (p x) eqn:Hp; [|by apply Hrange].
    destruct (Hg x Hx Hp) as (_ & _ & -> & _). by apply Hrange.
  - intros d (x & Hx & ->)%update_elem. destruct (p x) eqn:Hp; [by apply Hg|].
    eapply row_ok_frame; [by apply Hrow|]. by apply Ht.
Qed.

Lemma saga_update_rows db p g :
  saga_ok db →
  (∀ x, x ∈ db.(deliveries) → p x = true →
     (g x).(d_id) = x.(d_id) ∧ delivery_key (g x) = delivery_key x ∧ (g x).(queue_rank) = x.(queue_rank) ∧
     row_ok db.(records) (g x)) →
  saga_ok (set_deliveries (update p g db.(deliveries)) db).
Proof. intros Hs Hg. eapply saga_same; [apply (saga_update db p g db.(records))|..]; done. Qed.

Lemma saga_records db t :
  saga_ok db → (∀ d, d ∈ db.(deliveries) → t !! delivery_key d = db.(records) !! delivery_key d) →
  saga_ok (set_records t db).
Proof.
  intros [Hi Hk Hr Hrange Hn Hrow] Ht. constructor; simpl; try done. intros d Hd.
  eapply row_ok_frame; [by apply Hrow|by apply Ht].
Qed.

Lemma record_not_prepared t d r : row_ok t d → t !! delivery_key d = Some r → r.(Idempotency.row_state) ≠ "prepared".
Proof.
  intros [(r' & Hr & [Hm|(_ & _ & Hm)]) _] Hr'; simplify_eq; [|congruence].
  destruct (d_phase d); simpl in Hm; naive_solver congruence.
Qed.

Lemma delivery_columns d : columns (send_key d) = delivery_key d.
Proof. done. Qed.

(** Concluding a delivery in flight or held: the record is there. *)
Lemma conclude_ok db d r f ds :
  db.(records) !! delivery_key d = Some r → r.(Idempotency.row_state) = "dispatching" →
  conclude d f (set_deliveries ds db) =
    Ok (set_records (<[delivery_key d := f r]> db.(records)) (set_deliveries ds db)).
Proof.
  intros Hr Hs. unfold conclude. simpl. rewrite (update_in_hit Dispatching f (send_key d) _ r); [done..|].
  done.
Qed.

Lemma one_row db p d :
  saga_ok db → d ∈ db.(deliveries) → (∀ x, x ∈ db.(deliveries) → p x = true → x.(d_id) = d.(d_id)) → p d = true →
  (∀ x, x ∈ db.(deliveries) → p x = true → x = d) ∧ updated p db.(deliveries) = 1%nat.
Proof.
  intros [Hi _ _ _ _ _] Hd Hp Hpd.
  assert (∀ x, x ∈ db.(deliveries) → p x = true → x = d) as Heq.
  { intros x Hx Hpx. apply (unique_eq d_id db.(deliveries)); auto. }
  split; [done|]. unfold updated.
  rewrite (count_if_ext p (λ x, by_delivery d.(d_id) x) db.(deliveries)).
  - apply (updated_one d_id _ _ d); [done| |done|by apply bool_decide_eq_true_2].
    unfold by_delivery. intros x y Hx%bool_decide_eq_true Hy%bool_decide_eq_true. congruence.
  - intros x Hx. destruct (p x) eqn:Hpx; symmetry.
    + rewrite (Heq x Hx Hpx). by apply bool_decide_eq_true_2.
    + apply bool_decide_eq_false_2. intros He. assert (x = d) as -> by (by apply (unique_eq d_id db.(deliveries))). congruence.
Qed.

(** One delivery changes phase together with its record. *)
Lemma saga_conclude db d r p g f :
  saga_ok db → d ∈ db.(deliveries) → db.(records) !! delivery_key d = Some r →
  (∀ x, x ∈ db.(deliveries) → p x = true → x = d) → p d = true →
  (g d).(d_id) = d.(d_id) → delivery_key (g d) = delivery_key d → (g d).(queue_rank) = d.(queue_rank) →
  record_matches (g d).(d_phase) (f r) → (g d).(d_phase) ≠ DHeld →
  ((g d).(turn_gate) = true → (g d).(d_phase) = DDispatching ∨ (g d).(d_phase) = DAcked) →
  saga_ok (set_records (<[delivery_key d := f r]> db.(records)) (set_deliveries (update p g db.(deliveries)) db)).
Proof.
  intros Hs Hd Hr Hp Hpd H1 H2 H3 Hm Hh Hg. apply saga_update; [done|..].
  - intros x Hx Hpx. rewrite (Hp x Hx Hpx). split_and!; try done. split; [|done].
    exists (f r). rewrite H2, lookup_insert_eq. auto.
  - intros x Hx Hpx. apply lookup_insert_ne. intros Heq. destruct Hs as [_ Hk _ _ _ _].
    assert (d = x) as -> by (by apply (unique_eq delivery_key db.(deliveries))). congruence.
Qed.

(** ** Each operation keeps the invariant *)

Lemma commit_saga {X} db (r : result IdempotencyError (SendDb * X)) :
  saga_ok db → (∀ db' x, r = Ok (db', x) → saga_ok db') → saga_ok (commit db r).1.
Proof. intros Hs Hr. destruct r as [[db' x]|e]; simpl; [by eapply Hr|done]. Qed.

Lemma commit_Ok {X} db (r : result IdempotencyError (SendDb * X)) db' x :
  commit db r = (db', Ok x) → r = Ok (db', x).
Proof. destruct r as [[db0 x0]|e]; simpl; congruence. Qed.

(** Records change at a key that is absent or still prepared. *)
Lemma saga_prepared db t k :
  saga_ok db → (∀ row, db.(records) !! columns k = Some row → row.(Idempotency.row_state) = "prepared") →
  (∀ c, c ≠ columns k → t !! c = db.(records) !! c) → saga_ok (set_records t db).
Proof.
  intros Hs Hp Ht. apply saga_records; [done|]. intros d Hd. apply Ht. intros Heq.
  destruct (sg_row db Hs d Hd) as [(r & Hr & Hm) Hrest].
  apply (record_not_prepared _ d r (conj (ex_intro _ r (conj Hr Hm)) Hrest) Hr). apply Hp. by rewrite <-Heq.
Qed.

Lemma update_in_prepared t k f t' b :
  update_in Prepared f k t = (t', b) →
  (b = false ∧ t' = t) ∨
  (b = true ∧ ∃ row, t !! columns k = Some row ∧ row.(Idempotency.row_state) = "prepared" ∧ t' = <[columns k := f row]> t).
Proof.
  unfold update_in. destruct (t !! columns k) as [row|] eqn:Hr; [|intros [= <- <-]; by left].
  case_bool_decide; intros [= <- <-]; [right|by left]. eauto.
Qed.

Lemma reserve_saga db q : saga_ok db → saga_ok (set_records (reserve db.(records) q).1 db).
Proof.
  intros Hs. unfold reserve. destruct (reserve_check _ q) as [[a|e]|err]; simpl; [by eapply saga_same| |by eapply saga_same].
  unfold reserve_insert. destruct (records db !! columns (rv_key q)) as [row|] eqn:Hk; simpl; [by eapply saga_same|].
  apply (saga_prepared _ _ (rv_key q)); [done|by rewrite Hk|]. intros c Hc. by rewrite lookup_insert_ne.
Qed.

Lemma reject_saga db k category reason : saga_ok db → saga_ok (set_records (reject_prepared db.(records) k category reason).1 db).
Proof.
  intros Hs. unfold reject_prepared. destruct (update_in Prepared _ k _) as [t1 b1] eqn:H1.
  destruct (update_in_prepared _ _ _ _ _ H1) as [[-> ->]|(-> & row & Hr & Hp & ->)]; [by eapply saga_same|].
  destruct (update_in Dispatching _ k _) as [t2 b2] eqn:H2.
  destruct b2; [|by eapply saga_same]. simpl. apply (saga_prepared _ _ k); [done|by intros ? [= <-]%(eq_trans (eq_sym Hr))|].
  intros c Hc. pose proof (update_in_other Dispatching (with_result "rejected" (Some category) (Some reason)) k
    (<[columns k:=with_row_state Dispatching row]> (records db)) c Hc) as Ho.
  rewrite H2 in Ho. simpl in Ho. rewrite Ho. by rewrite lookup_insert_ne.
Qed.

(** A reply captured as a native result: its key goes from prepared to accepted. *)
Definition capture (db : SendDb) (k : IdempotencyKey) (e : Z) : SendDb :=
  match transition db.(records) k Prepared Dispatching with
  | (t1, Ok _) => set_records (finalize t1 k (ResultAccepted e)).1 db
  | (_, Err _) => db
  end.

Lemma capture_saga db k e : saga_ok db → saga_ok (capture db k e).
Proof.
  intros Hs. unfold capture, transition. destruct (update_in Prepared _ k _) as [t1 b1] eqn:H1.
  destruct (update_in_prepared _ _ _ _ _ H1) as [[-> ->]|(-> & row & Hr & Hp & ->)].
  { by destruct (load_record _ _) as [[?|]|?]. }
  simpl. unfold finalize. set (t1 := <[columns k := _]> _). destruct (update_in Dispatching _ k t1) as [t2 b2] eqn:H2.
  apply (saga_prepared _ _ k); [done|by intros ? [= <-]%(eq_trans (eq_sym Hr))|]. intros c Hc.
  assert (t1 !! c = records db !! c) as Ht1 by (unfold t1; by rewrite lookup_insert_ne).
  destruct b2; simpl; [|done]. pose proof (update_in_other Dispatching (with_result "accepted" None None) k t1 c Hc) as Ho.
  rewrite H2 in Ho. simpl in Ho. by rewrite Ho.
Qed.

(** ** The wakes of the command line *)

(** The daemon moves the record of such a wake itself, through [transition] and
    [finalize]; [begin_send_delivery] only writes the delivery of one that is
    for an agent. *)
Definition cli_wake_key (id : string) : IdempotencyKey := mkKey CLI_WAKE_SCOPE Send id.
Definition dispatch_cli_wake (db : SendDb) (id : string) : SendDb :=
  set_records (transition db.(records) (cli_wake_key id) Prepared Dispatching).1 db.
Definition finalize_cli_wake (db : SendDb) (id : string) (r : PublicResult) : SendDb :=
  set_records (finalize db.(records) (cli_wake_key id) r).1 db.

Lemma dispatch_cli_saga db id : saga_ok db → saga_ok (dispatch_cli_wake db id).
Proof.
  intros Hs. unfold dispatch_cli_wake, transition. destruct (update_in Prepared _ _ _) as [t1 b1] eqn:H1.
  destruct (update_in_prepared _ _ _ _ _ H1) as [[-> ->]|(-> & row & Hr & Hp & ->)]; [by eapply saga_same|].
  apply (saga_prepared _ _ (cli_wake_key id)); [done|by intros ? [= <-]%(eq_trans (eq_sym Hr))|].
  intros c Hc. simpl. by rewrite lookup_insert_ne.
Qed.

Lemma finalize_cli_saga db id r : saga_ok db → saga_ok (finalize_cli_wake db id r).
Proof.
  intros Hs. unfold finalize_cli_wake, finalize.
  set (f := match r with ResultAccepted _ => _ | ResultRejected _ _ => _ | ResultOrphaned _ => _ end).
  assert (∀ row, (f row).(Idempotency.row_state) = "terminal") as Hf by (intros row; unfold f; by destruct r).
  destruct (records db !! columns (cli_wake_key id)) as [row|] eqn:Hk; [|unfold update_in; rewrite Hk; by eapply saga_same].
  destruct (decide (row.(Idempotency.row_state) = "dispatching")) as [Hd|Hd].
  2: { rewrite (update_in_miss Dispatching f _ _ row) by done. by eapply saga_same. }
  rewrite (update_in_hit Dispatching f _ _ row) by done. simpl. destruct Hs as [Hi Hks Hr Hrange Hn Hrow].
  constructor; try done. simpl. intros d Hin. destruct (Hrow d Hin) as [(r0 & Hr0 & Hm) Hrest].
  destruct (decide (delivery_key d = columns (cli_wake_key id))) as [He|He].
  2: { apply (row_ok_frame db.(records)); [by split; [exists r0|]|]. simpl. by rewrite lookup_insert_ne. }
  split; [|done]. exists (f row). rewrite He, lookup_insert_eq. split; [done|]. right. rewrite He, Hk in Hr0. simplify_eq.
  injection He as Hsc _. split_and!; [done| |done]. destruct Hm as [Hm|(_ & Hm & _)]; [|done].
  destruct (d_phase d); simpl in Hm; set_solver by congruence.
Qed.

Lemma insert_delivery_Ok d db db' :
  insert_delivery d db = Ok db' →
  db'.(records) = db.(records) ∧ db'.(deliveries) = db.(deliveries) ++ [d] ∧ db'.(next_rank) = d.(queue_rank) + 1 ∧
  (∀ x, x ∈ db.(deliveries) → x.(d_id) ≠ d.(d_id) ∧ delivery_key x ≠ delivery_key d).
Proof.
  unfold insert_delivery. destruct (exists_row (by_delivery _) _) eqn:H1; [done|].
  destruct (exists_row (λ _, bool_decide _) _) eqn:H2; [done|]. destruct (negb _); [done|]. intros [= <-]. split_and!; try done. intros x Hx.
  rewrite exists_row_false in H1, H2. specialize (H1 x Hx). specialize (H2 x Hx).
  unfold by_delivery in H1. rewrite bool_decide_eq_false in H1, H2. done.
Qed.

Lemma begin_valid_held k sd link agent :
  begin_valid k sd link (Some agent) = true → k.(operation_kind) = Send ∧ link = None.
Proof.
  unfold begin_valid. rewrite !andb_true_iff. intros [[[[[[Hk _] _] _] _] _] Hl].
  destruct (operation_kind k); [|done]. by destruct link.
Qed.

Lemma begin_valid_send k sd link held : begin_valid k sd link held = true → k.(operation_kind) = Send.
Proof. unfold begin_valid. rewrite !andb_true_iff. intros [[[[[[Hk _] _] _] _] _] _]. by destruct (operation_kind k). Qed.

(** What a beginning that succeeds wrote in the three tables. *)
Lemma begin_Ok db k sd reply_ link g cap held now db' :
  begin_send_delivery_with_guidance db k sd reply_ link g cap held now = (db', Ok ()) →
  ∃ m row d, decode sd.(sd_bytes) = Some m ∧ k.(operation_kind) = Send ∧
    db.(records) !! columns k = Some row ∧ row.(Idempotency.row_state) = "prepared" ∧
    d = mkDelivery db.(next_rank) sd.(sd_id) k.(issuer_scope) k.(idempotency_key) sd.(sd_instance)
          sd.(sd_generation) (if is_some held then DHeld else DDispatching) sd.(sd_expires_at)
          (Some sd.(sd_bytes)) (default m.(to) held) (resumed_gate db link m) None ∧
    db'.(records) = <[columns k := with_row_state Dispatching row]> db.(records) ∧
    db'.(deliveries) = db.(deliveries) ++ [d] ∧ db'.(next_rank) = db.(next_rank) + 1 ∧
    (is_Some held → link = None) ∧
    (∀ x, x ∈ db.(deliveries) → x.(d_id) ≠ d.(d_id) ∧ delivery_key x ≠ delivery_key d).
Proof.
  intros Hb%commit_Ok. destruct (begin_valid k sd link held) eqn:Hv; cbn [negb] in Hb; [|done].
  apply bind_Ok in Hb as (m & Hm%ok_or_Ok & Hb). destruct (match held with Some _ => _ | None => _ end); [done|].
  destruct (update_in Prepared _ k _) as [t b] eqn:Hu.
  destruct (update_in_prepared _ _ _ _ _ Hu) as [[-> ->]|(-> & row & Hr & Hp & ->)]; [done|]. clear Hu.
  set (d := mkDelivery _ _ _ _ _ _ _ _ _ _ _ _) in Hb.
  apply bind_Ok in Hb as (db1 & Hi & Hb). apply insert_delivery_Ok in Hi as (H1 & H2 & H3 & H4).
  apply bind_Ok in Hb as (db2 & Hl & Hb). apply bind_Ok in Hb as (db4 & Hrt & Hb).
  assert (db2.(records) = db1.(records) ∧ db2.(deliveries) = db1.(deliveries) ∧ db2.(next_rank) = db1.(next_rank)) as (L1 & L2 & L3).
  { destruct link as [l|]; [|by simplify_eq]. unfold insert_link in Hl. destruct (exists_row _ _); by simplify_eq. }
  assert (db4.(records) = db2.(records) ∧ db4.(deliveries) = db2.(deliveries) ∧ db4.(next_rank) = db2.(next_rank)) as (T1 & T2 & T3).
  { destruct reply_ as [r|]; [|by simplify_eq]. unfold insert_tracked in Hrt. destruct (_ !! _); by simplify_eq. }
  injection Hb as <-.
  exists m, row, d. split_and!; try done.
  - by eapply begin_valid_send.
  - destruct g; simpl; by rewrite T1, L1, H1.
  - destruct g; simpl; by rewrite T2, L2, H2.
  - destruct g; simpl; rewrite T3, L3, H3; done.
  - intros [a Ha]. subst held. by eapply begin_valid_held.
Qed.

Lemma begin_saga db k sd reply_ link g cap held now :
  saga_ok db → saga_ok (begin_send_delivery_with_guidance db k sd reply_ link g cap held now).1.
Proof.
  intros Hs. destruct (begin_send_delivery_with_guidance db k sd reply_ link g cap held now) as [db' [[]|e]] eqn:Hb.
  2: { unfold begin_send_delivery_with_guidance, commit in Hb. by destruct (if negb _ then _ else _) as [[? ?]|?]; simplify_eq. }
  apply begin_Ok in Hb as (m & row & d & Hm & Hk & Hr & Hp & Hd & Hrec & Hdel & Hnext & Hheld & Hnew). simpl.
  assert (delivery_key d = columns k) as Hkey by (rewrite Hd; unfold delivery_key, columns; by rewrite Hk).
  pose proof Hs as [Hi Hks Hrk Hrange Hn Hrow]. constructor; rewrite ?Hdel, ?Hnext, ?Hrec.
  - apply unique_snoc; [done|]. intros. by apply Hnew.
  - apply unique_snoc; [done|]. intros. by apply Hnew.
  - apply unique_snoc; [done|]. intros x Hx Heq. specialize (Hrange x Hx). rewrite Hd in Heq. simpl in Heq. lia.
  - intros x [Hx|Hx%list_elem_of_singleton]%elem_of_app; [specialize (Hrange x Hx); lia|subst x; rewrite Hd; simpl; lia].
  - lia.
  - intros x [Hx|Hx%list_elem_of_singleton]%elem_of_app.
    + eapply row_ok_frame; [by apply Hrow|]. apply lookup_insert_ne. rewrite <-Hkey. apply not_eq_sym, Hnew, Hx.
    + subst x. split; [|split].
      * exists (with_row_state Dispatching row). rewrite Hkey, lookup_insert_eq. split; [done|]. left. rewrite Hd. simpl.
        by destruct (is_some held).
      * rewrite Hd. simpl. destruct held as [a|]; simpl; [|done]. intros _. rewrite Hheld by eauto. split; [done|]. eauto.
      * rewrite Hd. simpl. destruct held as [a|]; simpl; [|by left]. by rewrite Hheld by eauto.
Qed.

Lemma link_saga db l : saga_ok db → saga_ok (link_send_delivery db l).1.
Proof.
  intros Hs. unfold link_send_delivery. destruct (_ || _); [done|]. destruct (_ && _); [done|]. simpl.
  unfold insert_link. destruct (exists_row _ _); [done|]. by eapply saga_same.
Qed.

(** Changes of the instance, of the gate and of the phase of rows in flight. *)
Definition row_change (x y : Delivery) : Prop :=
  y.(d_id) = x.(d_id) ∧ delivery_key y = delivery_key x ∧ y.(queue_rank) = x.(queue_rank) ∧ y.(d_bytes) = x.(d_bytes) ∧
  (y.(d_phase) = x.(d_phase) ∧ (y.(turn_gate) = x.(turn_gate) ∨ y.(turn_gate) = false ∨ x.(d_phase) = DDispatching) ∨
   x.(d_phase) = DDispatching ∧ y.(d_phase) = DIndeterminate ∧ y.(turn_gate) = false ∨
   x.(d_phase) = DHeld ∧ y.(d_phase) = DDispatching).

Lemma rows_saga db p g :
  saga_ok db → (∀ x, x ∈ db.(deliveries) → p x = true → row_change x (g x)) →
  saga_ok (set_deliveries (update p g db.(deliveries)) db).
Proof.
  intros Hs Hg. apply saga_update_rows; [done|]. intros x Hx Hp.
  destruct (Hg x Hx Hp) as (H1 & H2 & H3 & H4 & H5). split_and!; try done.
  destruct (sg_row db Hs x Hx) as ((r & Hr & Hm) & Hh & Hgate). split; [|split].
  - exists r. rewrite H2. split; [done|]. destruct Hm as [Hm|(Hsc & Hph & Ht)].
    + left. destruct H5 as [[-> _]|[(Hx' & -> & _)|(Hx' & ->)]]; [done|by rewrite Hx' in Hm..].
    + right. split_and!; [by injection H2 as ->| |done].
      destruct H5 as [[-> _]|[(_ & -> & _)|(_ & ->)]]; [done|set_solver..].
  - rewrite H4. destruct H5 as [[-> Hgx]|[(Hx' & -> & _)|(Hx' & ->)]]; [|done..]. intros Hph.
    destruct (Hh Hph) as [Hgf Hb]. split; [|done]. destruct Hgx as [->|[->|Hd]]; [done..|congruence].
  - destruct H5 as [[-> Hgx]|[(Hx' & -> & ->)|(Hx' & ->)]]; [|done|by left].
    destruct Hgx as [->|[->|Hd]]; [done..|]. by left.
Qed.

Lemma in_phase_true p d : in_phase p d = true ↔ d.(d_phase) = p.
Proof. apply bool_decide_eq_true. Qed.

Lemma reassign_saga db f t now : saga_ok db → saga_ok (reassign_dispatching_deliveries db f t now).1.
Proof.
  intros Hs. unfold reassign_dispatching_deliveries. destruct (_ || _); [done|]. apply rows_saga; [done|].
  intros x Hx _. split_and!; try done. left. auto.
Qed.

Lemma adopt_saga db agent inst recover now : saga_ok db → saga_ok (adopt_held_for_agent db agent inst recover now).1.
Proof.
  intros Hs. unfold adopt_held_for_agent. destruct (_ || _); [done|]. apply rows_saga; [done|].
  intros x Hx _. split_and!; try done. left. split; [done|]. simpl.
  destruct (in_phase DDispatching x) eqn:Hd; [|by left]. apply in_phase_true in Hd. auto.
Qed.

Lemma indeterminate_row x : x.(d_phase) = DDispatching → row_change x (with_phase DIndeterminate false x).
Proof. intros Hx. split_and!; try done. by right; left. Qed.

Lemma redeliver_saga db inst now : saga_ok db → saga_ok (dispatching_deliveries_for_instance db inst now).1.
Proof.
  intros Hs. apply commit_saga; [done|]. intros db' out Ho. apply bind_Ok in Ho as (l & _ & [= <- <-]).
  apply rows_saga; [done|]. intros x Hx [[_ Hp]%andb_true_iff _]%andb_true_iff. apply in_phase_true in Hp.
  by apply indeterminate_row.
Qed.

Lemma indeterminate_saga db i inst generation : saga_ok db → saga_ok (mark_delivery_indeterminate db i inst generation).1.
Proof.
  intros Hs. apply rows_saga; [done|]. intros x Hx [_ Hp]%andb_true_iff. apply in_phase_true in Hp.
  by apply indeterminate_row.
Qed.

Lemma settle_expired_saga db now : saga_ok db → saga_ok (settle_expired_dispatching db now).1.
Proof.
  intros Hs. apply rows_saga; [done|]. intros x Hx [Hp _]%andb_true_iff. apply in_phase_true in Hp.
  by apply indeterminate_row.
Qed.

Lemma clear_gate_saga db agent : saga_ok db → saga_ok (clear_held_turn_gate db agent).
Proof. intros Hs. apply rows_saga; [done|]. intros x Hx _. split_and!; try done. left. auto. Qed.

(** The correction of a held message. *)
Lemma replace_body_cases db issuer i expected body now db' answer :
  saga_ok db → replace_body db issuer i expected body now = Ok (db', answer) →
  answer ≠ ReplaceApplied ∧ db' = db ∨
  answer = ReplaceApplied ∧ ∃ d b m, d ∈ db.(deliveries) ∧ d.(d_id) = i ∧ d.(d_scope) = issuer ∧ d.(d_phase) = DHeld ∧
    now < d.(d_expires_at) ∧ d.(d_bytes) = Some b ∧ decode b = Some m ∧ db'.(records) = db.(records) ∧
    db'.(next_rank) = db.(next_rank) ∧
    db'.(deliveries) = update (λ x, by_delivery i x && in_phase DHeld x) (with_bytes (json_set_body b body)) db.(deliveries).
Proof.
  intros Hs. unfold replace_body. destruct (select_one _ _) as [d|] eqn:Hsel; [|intros [= <- <-]; by left].
  apply select_one_Some in Hsel as [Hd [Hi%bool_decide_eq_true Hsc%bool_decide_eq_true]%andb_true_iff].
  intros (b & Hb%ok_or_Ok & H0)%bind_Ok. destruct (in_phase DHeld d) eqn:Hp; [|simplify_eq/=; by left].
  destruct (now <? d_expires_at d) eqn:He; [|simplify_eq/=; by left]. apply bind_Ok in H0 as (current & _ & H0).
  destruct (negb _); [simplify_eq; by left|]. right. apply in_phase_true in Hp.
  destruct (sg_row db Hs d Hd) as (_ & Hh & _). destruct (Hh Hp) as (_ & b0 & m & Hb0 & Hm). simplify_eq/=.
  split; [done|]. exists d, b, m. split_and!; try done; [lia|..];
    by destruct (mjoin (json_text (json_set_body b body) "id")), (mjoin (json_text (json_set_body b body) "to")).
Qed.

Lemma replace_saga db rs issuer request canon i expected body now1 now2 now3 :
  saga_ok db → saga_ok (replace db rs issuer request canon i expected body now1 now2 now3).1.1.
Proof.
  intros Hs. unfold replace. destruct (rs !! _); [done|].
  destruct (replace_body db issuer i expected body now1) as [[db' answer]|e] eqn:Hr; [|done]. simpl.
  destruct (replace_body_cases _ _ _ _ _ _ _ _ Hs Hr) as [[_ ->]|(_ & d & b & m & Hd & Hi & _ & Hp & _ & Hb & Hm & Hrec & Hnext & Hds)]; [done|].
  apply (saga_same (set_deliveries db'.(deliveries) db)); [|done..]. rewrite Hds. apply saga_update_rows; [done|].
  intros x Hx [Hxi%bool_decide_eq_true _]%andb_true_iff.
  assert (x = d) as -> by (apply (unique_eq d_id db.(deliveries)); [by destruct Hs|done..|congruence]).
  split_and!; try done. destruct (sg_row db Hs d Hd) as (H1 & H2 & H3). split; [|split]; [done| |done].
  intros _. split; [by apply H2|]. exists (json_set_body b body), (with_body body m). split; [done|]. by apply decode_set_body.
Qed.

Lemma purge_saga db now grace : saga_ok db → saga_ok (purge_sends db now grace).1.
Proof.
  intros [Hi Hk Hr Hrange Hn Hrow]. unfold purge_sends, purge_expired_sends. simpl. unfold cascade.
  set (t := filter _ db.(records)). constructor; simpl; [by apply unique_select..| |done|].
  - intros d [Hd _]%select_elem. by apply Hrange.
  - intros d [Hd Ht]%select_elem. apply bool_decide_eq_true in Ht as [r Ht].
    eapply row_ok_frame; [by apply Hrow|]. pose proof Ht as [Hr' _]%map_lookup_filter_Some. congruence.
Qed.

(** Still to be delivered. *)
Definition live (d : Delivery) : bool := in_phase DDispatching d || in_phase DHeld d.

(** Its record is terminal all the same. *)
Definition record_closed (db : SendDb) (d : Delivery) : bool :=
  is_some_and (record_of db d) (λ r, bool_decide (r.(Idempotency.row_state) = "terminal")).

(** The record of a live delivery is dispatching, or it is that of a wake of the
    command line and it is closed. *)
Lemma live_record db d : saga_ok db → d ∈ db.(deliveries) → live d = true →
  ∃ r, db.(records) !! delivery_key d = Some r ∧
    if record_closed db d then d.(d_scope) = CLI_WAKE_SCOPE ∧ r.(Idempotency.row_state) = "terminal"
    else r.(Idempotency.row_state) = "dispatching".
Proof.
  intros Hs Hd Hl. destruct (sg_row db Hs d Hd) as ((r & Hr & Hm) & _). exists r. split; [done|].
  unfold record_closed, record_of. rewrite Hr. cbn. destruct Hm as [Hm|(Hsc & _ & Ht)].
  - assert (r.(Idempotency.row_state) = "dispatching") as Hst.
    { unfold live in Hl. rewrite orb_true_iff, !in_phase_true in Hl. destruct Hl as [Hp|Hp]; by rewrite Hp in Hm. }
    by rewrite Hst.
  - by rewrite bool_decide_eq_true_2.
Qed.

(** A record that is closed refuses any conclusion. *)
Lemma conclude_closed db d f ds : record_closed db d = true → conclude d f (set_deliveries ds db) = Err DispatchUnavailable.
Proof.
  unfold record_closed, record_of, conclude, update_in. cbn. rewrite delivery_columns.
  destruct (records db !! delivery_key d) as [r|]; cbn; [|done]. intros Ht%bool_decide_eq_true. by rewrite Ht.
Qed.

Lemma add_notice_saga n db : saga_ok db → saga_ok (add_notice n db).
Proof. intros Hs. unfold add_notice. destruct (exists_row _ _); [done|]. by eapply saga_same. Qed.

Lemma add_notice_rows n db : (add_notice n db).(deliveries) = db.(deliveries).
Proof. unfold add_notice. by destruct (exists_row _ _). Qed.
Lemma add_notice_records n db : (add_notice n db).(records) = db.(records).
Proof. unfold add_notice. by destruct (exists_row _ _). Qed.

(** A delivery that is still live can be orphaned, whatever the other rows. *)
Lemma orphan_one_ok reason now d db :
  saga_ok db → d ∈ db.(deliveries) → live d = true → record_closed db d = false →
  ∃ db' n, orphan_one reason now d db = Ok (db', n) ∧ saga_ok db' ∧ n.(on_delivery_id) = d.(d_id) ∧
    db'.(deliveries) = update (λ x, by_delivery d.(d_id) x && live x) (with_phase DOrphaned false) db.(deliveries) ∧
    (∀ x, delivery_key x ≠ delivery_key d → record_closed db' x = record_closed db x).
Proof.
  intros Hs Hd Hl Hcl. destruct (live_record db d Hs Hd Hl) as (r & Hr & Hst). rewrite Hcl in Hst.
  set (p := λ x, by_delivery d.(d_id) x && live x).
  assert (p d = true) as Hpd by (unfold p; rewrite Hl; unfold by_delivery; by rewrite bool_decide_eq_true_2).
  destruct (one_row db p d Hs Hd) as [Heq Hone]; [|done|].
  { intros x _ [Hx _]%andb_true_iff. by apply bool_decide_eq_true in Hx. }
  unfold orphan_one. change (λ x, by_delivery d.(d_id) x && (in_phase DDispatching x || in_phase DHeld x)) with p.
  rewrite (conclude_ok db d r _ _ Hr Hst). rewrite Hone. simpl.
  eexists _, _. split; [done|]. split_and!; [|done|by rewrite add_notice_rows|].
  - apply add_notice_saga. apply (saga_conclude db d r p); done.
  - intros x Hx. unfold record_closed, record_of. rewrite add_notice_records. cbn. by rewrite lookup_insert_ne.
Qed.

Lemma orphan_one_closed reason now d db : record_closed db d = true → orphan_one reason now d db = Err DispatchUnavailable.
Proof. intros Hc. unfold orphan_one. by rewrite conclude_closed. Qed.

Lemma bool_decide_cons_eq {A} `{EqDecision A} (x y : A) l : bool_decide (x ∈ y :: l) = bool_decide (x = y) || bool_decide (x ∈ l).
Proof.
  destruct (decide (x = y)) as [->|Hne]; [by rewrite !bool_decide_eq_true_2 by (done || left)|].
  rewrite (bool_decide_eq_false_2 (x = y)) by done. simpl. apply bool_decide_ext. rewrite elem_of_cons. naive_solver.
Qed.

Lemma orphan_all_ok reason now ds : ∀ db,
  saga_ok db → NoDup (d_id <$> ds) → (∀ d, d ∈ ds → d ∈ db.(deliveries) ∧ live d = true) →
  match orphan_all reason now ds db with
  | Ok (db', ns) => saga_ok db' ∧ on_delivery_id <$> ns = d_id <$> ds ∧ (∀ d, d ∈ ds → record_closed db d = false) ∧
      db'.(deliveries) = update (λ x, bool_decide (x.(d_id) ∈ d_id <$> ds) && live x) (with_phase DOrphaned false) db.(deliveries)
  | Err e => e = DispatchUnavailable ∧ ∃ d, d ∈ ds ∧ record_closed db d = true
  end.
Proof.
  induction ds as [|d ds IH]; intros db Hs Hnd Hds; simpl.
  { split_and!; try done; [by intros d ?%elem_of_nil|]. by rewrite update_none. }
  cbn in Hnd. apply NoDup_cons in Hnd as [Hd Hnd]. destruct (Hds d) as [Hin Hl]; [set_solver|].
  destruct (record_closed db d) eqn:Hcl.
  { rewrite orphan_one_closed by done. cbn. split; [done|]. exists d. split; [left|done]. }
  destruct (orphan_one_ok reason now d db Hs Hin Hl Hcl) as (db1 & n & -> & Hs1 & Hn & Hdel & Hrc). simpl.
  assert (∀ x, x ∈ ds → record_closed db1 x = record_closed db x) as Hsame.
  { intros x Hx. apply Hrc. intros Hk. apply Hd. destruct (Hds x) as [Hxin _]; [set_solver|].
    rewrite (unique_eq delivery_key db.(deliveries) d x); [by apply list_elem_of_fmap_2|by destruct Hs|done..]. }
  assert (∀ x, x ∈ ds → x ∈ db1.(deliveries) ∧ live x = true) as Hds1.
  { intros x Hx. destruct (Hds x) as [Hxin Hxl]; [set_solver|]. split; [|done]. rewrite Hdel. apply update_elem.
    exists x. split; [done|]. unfold by_delivery. rewrite bool_decide_eq_false_2; [done|]. intros He. apply Hd.
    rewrite <-He. by apply list_elem_of_fmap_2. }
  specialize (IH db1 Hs1 Hnd Hds1). destruct (orphan_all reason now ds db1) as [[db2 ns]|e]; simpl.
  2: { destruct IH as (-> & x & Hx & Hxc). split; [done|]. exists x. split; [by right|]. by rewrite <-(Hsame x Hx). }
  destruct IH as (Hs2 & Hns & Hno & Hrows). split_and!; [done| | |].
  - rewrite Hn. f_equal. exact Hns.
  - intros x [->|Hx]%elem_of_cons; [done|]. rewrite <-(Hsame x Hx). by apply Hno.
  - rewrite Hrows, Hdel. unfold update. rewrite <-list_fmap_compose. apply list_fmap_ext. intros _ x _. simpl. unfold by_delivery.
    rewrite bool_decide_cons_eq. destruct (bool_decide (d_id x = d_id d)); simpl; [|done].
    destruct (live x) eqn:Hlx; simpl; [by rewrite andb_false_r|by rewrite Hlx, andb_false_r].
Qed.

(** The live deliveries of an instance. *)
Definition live_of (inst : string) (db : SendDb) : list Delivery :=
  select (λ d, bool_decide (d.(d_instance) = inst) && live d) db.(deliveries).

(** Orphaning an instance: all its live deliveries, or nothing when the record of
    one of them is closed. *)
Lemma orphan_cases db inst reason now :
  saga_ok db →
  match orphan_dispatching_for_instance db inst reason now with
  | (db', Ok ns) => saga_ok db' ∧ on_delivery_id <$> ns = d_id <$> live_of inst db ∧
      (∀ d, d ∈ live_of inst db → record_closed db d = false) ∧
      db'.(deliveries) = update (λ d, bool_decide (d.(d_instance) = inst) && live d) (with_phase DOrphaned false) db.(deliveries)
  | (db', Err e) => db' = db ∧ e = DispatchUnavailable ∧ ∃ d, d ∈ live_of inst db ∧ record_closed db d = true
  end.
Proof.
  intros Hs. pose proof (orphan_all_ok reason now (live_of inst db) db Hs) as Hc. unfold orphan_dispatching_for_instance.
  change (select (λ d, bool_decide (d.(d_instance) = inst) && (in_phase DDispatching d || in_phase DHeld d)) db.(deliveries))
    with (live_of inst db).
  destruct (orphan_all reason now (live_of inst db) db) as [[db' ns]|e]; simpl.
  2: { split; [done|]. apply Hc; [apply unique_select; by destruct Hs|]. by intros d [Hd [_ Hl]%andb_true_iff]%select_elem. }
  destruct Hc as (Hs' & Hns & Hno & Hrows); [apply unique_select; by destruct Hs|by intros d [Hd [_ Hl]%andb_true_iff]%select_elem|].
  split_and!; [done..|]. rewrite Hrows. apply update_ext. intros x Hx. apply eq_true_iff_eq.
  rewrite !andb_true_iff, !bool_decide_eq_true.
  split; [|intros [Hi Hl]; split; [|done]; apply list_elem_of_fmap_2, select_elem; by rewrite bool_decide_eq_true_2, Hl].
  intros [(y & Hy & [Hin [Hi _]%andb_true_iff]%select_elem)%list_elem_of_fmap Hl]. split; [|done].
  assert (x = y) as -> by (apply (unique_eq d_id db.(deliveries)); try done; by destruct Hs). by apply bool_decide_eq_true in Hi.
Qed.

Lemma orphan_saga db inst reason now : saga_ok db → saga_ok (orphan_dispatching_for_instance db inst reason now).1.
Proof.
  intros Hs. pose proof (orphan_cases db inst reason now Hs) as Hc.
  destruct (orphan_dispatching_for_instance db inst reason now) as [db' [ns|e]]; [by apply Hc|by destruct Hc as [-> _]].
Qed.

(** An acknowledgement by the instance and for the generation of the delivery. *)
Lemma acknowledge_ok db d now :
  saga_ok db → d ∈ db.(deliveries) → d.(d_phase) = DDispatching → record_closed db d = false →
  ∃ db' o, acknowledge_send_delivery_at db d.(d_id) d.(d_instance) d.(d_generation) now = (db', Ok o) ∧ saga_ok db' ∧
    db'.(deliveries) = update (λ x, by_delivery d.(d_id) x && in_phase DDispatching x) (with_ack now) db.(deliveries) ∧
    with_ack now d ∈ db'.(deliveries) ∧
    (∃ r, db.(records) !! delivery_key d = Some r ∧
       db'.(records) = <[delivery_key d := with_result "accepted" None None r]> db.(records)).
Proof.
  intros Hs Hd Hph Hcl. destruct (live_record db d Hs Hd) as (r & Hr & Hst).
  { unfold live. by rewrite (proj2 (in_phase_true _ _) Hph). }
  rewrite Hcl in Hst.
  set (p := λ x, by_delivery d.(d_id) x && in_phase DDispatching x).
  assert (p d = true) as Hpd.
  { unfold p. rewrite (proj2 (in_phase_true _ _) Hph). unfold by_delivery. by rewrite bool_decide_eq_true_2. }
  destruct (one_row db p d Hs Hd) as [Heq Hone]; [|done|].
  { intros x _ [Hx _]%andb_true_iff. by apply bool_decide_eq_true in Hx. }
  assert (select_one (by_delivery d.(d_id)) db.(deliveries) = Some d) as Hsel.
  { apply (unique_select_one d_id); [by destruct Hs|done|by apply bool_decide_eq_true_2|].
    intros x Hx. by apply bool_decide_eq_true in Hx. }
  unfold acknowledge_send_delivery_at. rewrite Hsel. cbn [ok_or].
  assert (∀ A B (x : A) (f : A → result IdempotencyError B), (Ok x ≫= f) = f x) as Hbind by done. rewrite Hbind.
  rewrite bool_decide_eq_true_2, Z.eqb_refl by done. cbn [negb orb]. unfold in_phase at 1 2. rewrite Hph.
  rewrite bool_decide_eq_false_2, bool_decide_eq_true_2 by done. cbn [negb].
  rewrite (conclude_ok db d r _ _ Hr Hst), Hbind. fold p. rewrite Hone. cbn [Nat.eqb negb].
  set (db2 := set_records _ _).
  assert (saga_ok db2) as Hs2.
  { apply (saga_conclude db d r p); try done. intros _. by right. }
  assert (with_ack now d ∈ db2.(deliveries)) as Hack by (simpl; apply update_elem; exists d; by rewrite Hpd).
  destruct (m ← (b ← d_bytes d; decode b); r0 ← in_reply_to m; Some (m, r0)) as [[m q]|]; simpl.
  - destruct (mark_answered q (from m) (to m) (requests db)) as [rs b]. simpl.
    eexists _, _. split; [done|]. split_and!; [by eapply saga_same|done|done|eauto].
  - eexists _, _. split; [done|]. split_and!; [done..|eauto].
Qed.

(** The same acknowledgement when the record is closed. *)
Lemma acknowledge_closed db d now :
  saga_ok db → d ∈ db.(deliveries) → d.(d_phase) = DDispatching → record_closed db d = true →
  acknowledge_send_delivery_at db d.(d_id) d.(d_instance) d.(d_generation) now = (db, Err DispatchUnavailable).
Proof.
  intros Hs Hd Hph Hcl. unfold acknowledge_send_delivery_at.
  rewrite (unique_select_one d_id _ _ d); [|by destruct Hs|done|by apply bool_decide_eq_true_2|].
  2: { intros x Hx. by apply bool_decide_eq_true in Hx. }
  cbn [ok_or]. change (Ok d ≫= ?f) with (f d). cbv beta.
  rewrite bool_decide_eq_true_2, Z.eqb_refl by done. cbn [negb orb]. unfold in_phase at 1 2. rewrite Hph.
  rewrite bool_decide_eq_false_2, bool_decide_eq_true_2 by done. cbn [negb]. by rewrite conclude_closed.
Qed.

(** An acknowledgement that succeeds repeats one, or puts the delivery in its
    final phase. *)
Lemma ack_cases db i inst generation now db' o :
  saga_ok db → acknowledge_send_delivery_at db i inst generation now = (db', Ok o) →
  db' = db ∨ saga_ok db' ∧
    db'.(deliveries) = update (λ x, by_delivery i x && in_phase DDispatching x) (with_ack now) db.(deliveries).
Proof.
  intros Hs Ha. pose proof Ha as Ha'. apply commit_Ok in Ha. apply bind_Ok in Ha as (d & Hd%ok_or_Ok & Ha).
  apply select_one_Some in Hd as [Hd Hid]. apply bool_decide_eq_true in Hid. subst i.
  destruct (_ || _) eqn:Hg; [done|]. apply orb_false_iff in Hg as [Hi Hgen].
  apply negb_false_iff, bool_decide_eq_true in Hi. apply negb_false_iff, Z.eqb_eq in Hgen. subst inst generation.
  destruct (in_phase DAcked d); [left; by simplify_eq|]. destruct (in_phase DDispatching d) eqn:Hp; [|done].
  apply in_phase_true in Hp. destruct (record_closed db d) eqn:Hcl.
  { rewrite (acknowledge_closed db d now Hs Hd Hp Hcl) in Ha'. done. }
  destruct (acknowledge_ok db d now Hs Hd Hp Hcl) as (db2 & o2 & Heq & Hs2 & Hds & _).
  rewrite Heq in Ha'. right. by simplify_eq.
Qed.

Lemma acknowledge_saga db i inst generation now : saga_ok db → saga_ok (acknowledge_send_delivery_at db i inst generation now).1.
Proof.
  intros Hs. destruct (acknowledge_send_delivery_at db i inst generation now) as [db' [o|e]] eqn:Ha.
  - by destruct (ack_cases db i inst generation now db' o Hs Ha) as [->|[Hs' _]].
  - unfold acknowledge_send_delivery_at, commit in Ha. by destruct (_ ≫= _) as [[? ?]|?]; simplify_eq.
Qed.

Lemma close_request_same m now db :
  (close_request m now db).(records) = db.(records) ∧ (close_request m now db).(deliveries) = db.(deliveries) ∧
  (close_request m now db).(next_rank) = db.(next_rank).
Proof. unfold close_request. destruct (requests db !! id m); [|done]. by destruct (_ && _). Qed.

(** The one row of a held delivery, with its record. *)
Lemma held_row db i d r :
  saga_ok db →
  (d ← select_one (λ d, by_delivery i d && in_phase DHeld d) db.(deliveries); r ← record_of db d; Some (d, r)) = Some (d, r) →
  d ∈ db.(deliveries) ∧ d.(d_id) = i ∧ d.(d_phase) = DHeld ∧ db.(records) !! delivery_key d = Some r ∧
  if record_closed db d then d.(d_scope) = CLI_WAKE_SCOPE ∧ r.(Idempotency.row_state) = "terminal"
  else r.(Idempotency.row_state) = "dispatching".
Proof.
  intros Hs H0. apply bind_Some in H0 as (d' & Hd & H0). apply bind_Some in H0 as (r' & Hr & [= -> ->]).
  apply select_one_Some in Hd as [Hd Hp]. apply andb_true_iff in Hp as [Hi Hp]. apply bool_decide_eq_true in Hi.
  pose proof Hp as Hph. apply in_phase_true in Hp. unfold record_of in Hr.
  destruct (live_record db d Hs Hd) as (r2 & Hr2 & Hst); [unfold live; by rewrite Hph, orb_true_r|].
  by simplify_eq.
Qed.

Definition settled (i : string) (ds : list Delivery) : list Delivery :=
  update (λ x, by_delivery i x && in_phase DHeld x) (with_phase DCancelled false) ds.

(** A removal from the queue: nothing, or the row is cancelled, its record is
    closed as rejected and its emitter is told. *)
Lemma settle_held_cases i reason now db :
  saga_ok db →
  match settle_held_in_transaction i reason now db with
  | Ok (db', None) => db' = db
  | Ok (db', Some n) => saga_ok db' ∧ n.(on_delivery_id) = i ∧ db'.(deliveries) = settled i db.(deliveries) ∧
      ∃ d m b, d ∈ db.(deliveries) ∧ d.(d_id) = i ∧ d.(d_phase) = DHeld ∧ d.(d_bytes) = Some b ∧ decode b = Some m ∧
        n = mkNotice i m.(id) m.(from) m.(to) reason
  | Err e => e = DispatchUnavailable →
      ∃ d, d ∈ db.(deliveries) ∧ d.(d_id) = i ∧ d.(d_phase) = DHeld ∧ d.(d_scope) = CLI_WAKE_SCOPE ∧ record_closed db d = true
  end.
Proof.
  intros Hs. unfold settle_held_in_transaction. destruct (negb _); [done|].
  destruct (d ← select_one _ _; r ← record_of db d; Some (d, r)) as [[d r]|] eqn:Hrow; [|done].
  destruct (held_row db i d r Hs Hrow) as (Hd & Hid & Hph & Hr & Hst).
  destruct (d_bytes d) as [b|] eqn:Hb; simpl; [|done]. destruct (_ && _ && _); [done|].
  destruct (decode b) as [m|] eqn:Hm; simpl; [|done]. destruct (_ && _); [done|].
  set (p := λ x, by_delivery i x && in_phase DHeld x).
  assert (p d = true) as Hpd.
  { unfold p. rewrite (proj2 (in_phase_true _ _) Hph). unfold by_delivery. by rewrite bool_decide_eq_true_2. }
  destruct (one_row db p d Hs Hd) as [Heq Hone]; [|done|].
  { intros x _ [Hx _]%andb_true_iff. apply bool_decide_eq_true in Hx. congruence. }
  rewrite Hone. cbn [Nat.eqb negb]. destruct (record_closed db d) eqn:Hcl.
  { rewrite conclude_closed by done. simpl. intros _. exists d. by destruct Hst. }
  rewrite (conclude_ok db d r _ _ Hr Hst). simpl. split_and!; [|done| |].
  - apply add_notice_saga. set (db2 := set_records _ _).
    assert (saga_ok db2) as Hs2 by (apply (saga_conclude db d r p); done).
    destruct (reply m); [|done]. destruct (close_request_same m now db2) as (H1 & H2 & H3). by eapply saga_same.
  - rewrite add_notice_rows. destruct (reply m); [|done]. by destruct (close_request_same m now
      (set_records (<[delivery_key d := with_result "rejected" (Some reason) (Some (removal_body m reason)) r]> (records db))
         (set_deliveries (update p (with_phase DCancelled false) (deliveries db)) db))) as (_ & -> & _).
  - eauto 10.
Qed.

Lemma settle_tx_saga i reason now db db' o :
  saga_ok db → settle_held_in_transaction i reason now db = Ok (db', o) → saga_ok db'.
Proof.
  intros Hs Heq. pose proof (settle_held_cases i reason now db Hs) as Hc. rewrite Heq in Hc.
  destruct o as [n|]; [by destruct Hc|by subst db'].
Qed.

Lemma settle_saga db i reason now : saga_ok db → saga_ok (settle_held db i reason now).1.
Proof. intros Hs. apply commit_saga; [done|]. intros db' o Ho. by eapply settle_tx_saga. Qed.

Lemma dispatch_held_saga d p db db' s :
  saga_ok db → (∀ x, p x = true → x.(d_phase) = DHeld) → dispatch_held d p db = Ok (db', s) → saga_ok db'.
Proof.
  intros Hs Hp. unfold dispatch_held. destruct (negb _); [done|]. intros (s' & _ & [= <- <-])%bind_Ok.
  apply rows_saga; [done|]. intros x _ Hx. split_and!; try done. right. right. split; [by apply Hp|done].
Qed.

Lemma stale_gate_saga db agent now :
  saga_ok db → saga_ok (set_deliveries (update (stale_gate agent now) (with_gate false) db.(deliveries)) db).
Proof. intros Hs. apply rows_saga; [done|]. intros x Hx _. split_and!; try done. left. auto. Qed.

Lemma release_saga db agent now : saga_ok db → saga_ok (release_next_held db agent now).1.
Proof.
  intros Hs. unfold release_next_held. destruct (_ || pending_pause _ _); [done|].
  set (db1 := set_deliveries _ db). destruct (exists_row (gated_for agent) _); [done|]. apply commit_saga; [done|].
  assert (saga_ok db1) as Hs1 by by apply stale_gate_saga.
  intros db' x. destruct (next_held db1 agent) as [[d r]|]; [|by intros [= <- _]].
  intros H0. apply bind_Ok in H0 as (_ & _ & H0). destruct (exists_row _ _); [done|].
  apply bind_Ok in H0 as (m & _ & H0). destruct (settlement_reason _ _ _ _ _) as [reason|].
  - apply bind_Ok in H0 as ([db2 n] & Hset & [= <- _]). by eapply settle_tx_saga.
  - apply bind_Ok in H0 as ([db2 s] & Hdis & [= <- _]). eapply dispatch_held_saga; [exact Hs1| |done].
    intros y [[_ Hy]%andb_true_iff _]%andb_true_iff. by apply in_phase_true.
Qed.

(** An edit leaves the deliveries as they were, or as its callback left them. *)
Lemma queue_edit_cases {T} db scope rid bytes action actor now (apply : SendDb → result IdempotencyError (SendDb * Decision T)) :
  let db' := (queue_edit_once db scope rid bytes action actor now apply).1 in
  let same x := db'.(deliveries) = x.(deliveries) ∧ db'.(records) = x.(records) ∧ db'.(next_rank) = x.(next_rank) in
  same db ∨ ∃ db1 dc, apply db = Ok (db1, dc) ∧ same db1.
Proof.
  simpl. destruct (queue_edit_once db scope rid bytes action actor now apply) as [db' [x|e]] eqn:Hq.
  2: { left. unfold queue_edit_once, commit in Hq. by destruct (_ ≫= _) as [[? ?]|?]; simplify_eq. }
  apply commit_Ok in Hq. apply bind_Ok in Hq as (_ & _ & H0). apply bind_Ok in H0 as (_ & _ & H0).
  apply bind_Ok in H0 as (_ & _ & H0). apply bind_Ok in H0 as (e & _ & H0). destruct (queue_edits db !! _) as [q|].
  { left. destruct (_ || _); [by simplify_eq|]. destruct (bool_decide _); [by simplify_eq|]. destruct (bool_decide _); by simplify_eq. }
  apply bind_Ok in H0 as ([db1 dc] & Hap & H0). apply bind_Ok in H0 as (y & Hy & H0).
  destruct y as [[[[db2 s] refusal] effect] notice]. injection H0 as <- _.
  destruct (dc_effect dc) as [x0|[code [n|]]]; simplify_eq; [right; eexists _, _; by split| |by left].
  destruct (_ || _); [done|]. simplify_eq. right. eexists _, _. by split.
Qed.

Lemma queue_edit_saga {T} db scope rid bytes action actor now (apply : SendDb → result IdempotencyError (SendDb * Decision T)) :
  saga_ok db → (∀ db' dc, apply db = Ok (db', dc) → saga_ok db') →
  saga_ok (queue_edit_once db scope rid bytes action actor now apply).1.
Proof.
  intros Hs Ha. destruct (queue_edit_cases db scope rid bytes action actor now apply) as [(H1 & H2 & H3)|(db1 & dc & Hap & H1 & H2 & H3)].
  - by apply (saga_same db).
  - apply (saga_same db1); [by eapply Ha|done..].
Qed.

Lemma cancel_saga db scope rid bytes actor agent mid now :
  saga_ok db → saga_ok (apply_cancel db scope rid bytes actor agent mid now).1.
Proof.
  intros Hs. apply queue_edit_saga; [done|]. intros db' dc H0. unfold cancel_edit in H0.
  apply bind_Ok in H0 as ([i|] & _ & H0); [|by simplify_eq].
  apply bind_Ok in H0 as ([db1 n] & Hset & H0). apply bind_Ok in H0 as (n' & _ & [= <- _]). by eapply settle_tx_saga.
Qed.

Lemma promote_saga db scope rid bytes actor agent mid facts now :
  saga_ok db → saga_ok (apply_promote db scope rid bytes actor agent mid facts now).1.
Proof.
  intros Hs. unfold apply_promote. destruct (authorize _); [|done]. apply queue_edit_saga; [done|]. intros db' dc H0.
  unfold promote_edit in H0. apply bind_Ok in H0 as ([i|] & _ & H0); [|by simplify_eq].
  apply bind_Ok in H0 as ([d r] & _ & H0). apply bind_Ok in H0 as (_ & _ & H0). apply bind_Ok in H0 as (m & _ & H0).
  destruct (settlement_reason _ _ _ _ _) as [reason|].
  - apply bind_Ok in H0 as ([db1 n] & Hset & H0). apply bind_Ok in H0 as (n' & _ & [= <- _]). by eapply settle_tx_saga.
  - destruct (authorize_queue_edit _); [|by simplify_eq].
    apply bind_Ok in H0 as ([db1 s] & Hdis & [= <- _]). eapply dispatch_held_saga; [exact Hs| |done].
    intros y [[_ [_ Hy]%andb_true_iff]%andb_true_iff _]%andb_true_iff. by apply in_phase_true.
Qed.

(** ** Reordering *)

(** The rows one by one: what a list of assignments does to a row. *)
Definition ranked (p : string → Z → Delivery → bool) (v : Z → Z) (rows : list (string * Z)) (d : Delivery) : Delivery :=
  foldl (λ d '(i, r), if p i r d then with_rank (v r) d else d) d rows.

Lemma ranked_app p v l1 l2 d : ranked p v (l1 ++ l2) d = ranked p v l2 (ranked p v l1 d).
Proof. apply foldl_app. Qed.

Lemma set_ranks_from p v l2 ds : ∀ l1,
  (∀ l i r l', l1 ++ l2 = l ++ (i, r) :: l' → (length l1 ≤ length l)%nat →
     updated (p i r) (ranked p v l <$> ds) = 1%nat ∧
     ∀ d, d ∈ ds → p i r (ranked p v l d) = false → (ranked p v l d).(queue_rank) ≠ v r) →
  set_ranks p v l2 (ranked p v l1 <$> ds) = Ok (ranked p v (l1 ++ l2) <$> ds).
Proof.
  induction l2 as [|[i r] l2 IH]; intros l1 Hok; simpl; [by rewrite app_nil_r|].
  destruct (Hok l1 i r l2 eq_refl ltac:(lia)) as [Hu Hn]. unfold move_rank. rewrite Hu. cbn [Nat.eqb negb].
  assert (exists_row (λ d, negb (p i r d) && (d.(queue_rank) =? v r)) (ranked p v l1 <$> ds) = false) as ->.
  { apply exists_row_false. intros x (d & -> & Hd)%list_elem_of_fmap. destruct (p i r (ranked p v l1 d)) eqn:Hp; [done|].
    simpl. apply Z.eqb_neq. by apply Hn. }
  assert (update (p i r) (with_rank (v r)) (ranked p v l1 <$> ds) = ranked p v (l1 ++ [(i, r)]) <$> ds) as Hupd.
  { unfold update. rewrite <-list_fmap_compose. apply list_fmap_ext. intros k d _. simpl. by rewrite ranked_app. }
  assert (∀ A B (x : A) (f : A → result IdempotencyError B), (Ok x ≫= f) = f x) as Hbind by done.
  rewrite Hbind, Hupd. replace (l1 ++ (i, r) :: l2) with ((l1 ++ [(i, r)]) ++ l2) by by rewrite <-app_assoc.
  apply IH. intros l i' r' l' Hl Hlen. rewrite <-app_assoc in Hl. apply (Hok l i' r' l'); [done|].
  rewrite length_app in Hlen. lia.
Qed.

Lemma set_ranks_all p v rows ds :
  (∀ l i r l', rows = l ++ (i, r) :: l' →
     updated (p i r) (ranked p v l <$> ds) = 1%nat ∧
     ∀ d, d ∈ ds → p i r (ranked p v l d) = false → (ranked p v l d).(queue_rank) ≠ v r) →
  set_ranks p v rows ds = Ok (ranked p v rows <$> ds).
Proof.
  intros Hok. rewrite <-(list_fmap_id ds) at 1. apply (set_ranks_from p v rows ds []).
  intros l i r l' Hl _. by apply (Hok l i r l').
Qed.

(** A row whose identifier is not assigned is kept, and one that is assigned once
    takes that rank. *)
Definition by_id_cond (p : string → Z → Delivery → bool) (c : Z → Delivery → bool) : Prop :=
  ∀ i r d, p i r d = by_delivery i d && c r d.

Lemma ranked_other p c v rows d : by_id_cond p c → d.(d_id) ∉ rows.*1 → ranked p v rows d = d.
Proof.
  intros Hp. revert d. induction rows as [|[i r] rows IH]; intros d Hd; [done|]. simpl in Hd.
  cbn. rewrite Hp. unfold by_delivery. rewrite bool_decide_eq_false_2 by set_solver. simpl. apply IH. set_solver.
Qed.

Lemma ranked_hit p c v l r l' d :
  by_id_cond p c → d.(d_id) ∉ l.*1 → d.(d_id) ∉ l'.*1 → c r d = true →
  ranked p v (l ++ (d.(d_id), r) :: l') d = with_rank (v r) d.
Proof.
  intros Hp Hl Hl' Hc. rewrite ranked_app, (ranked_other p c v l) by done. cbn. rewrite Hp, Hc.
  unfold by_delivery. rewrite bool_decide_eq_true_2 by done. simpl. by apply (ranked_other p c).
Qed.

Lemma NoDup_split_fst {B} (rows l : list (string * B)) i r l' :
  NoDup rows.*1 → (rows = l ++ (i, r) :: l') → (i ∉ l.*1) ∧ (i ∉ l'.*1).
Proof.
  intros Hnd ->. rewrite fmap_app in Hnd. simpl in Hnd. apply NoDup_app in Hnd as (_ & Hd & Hnd).
  apply NoDup_cons in Hnd as [Hi _]. split; [|done]. intros Hin. apply (Hd i Hin). left.
Qed.

Lemma ranked_same p v rows d : ∃ r, ranked p v rows d = with_rank r d.
Proof.
  revert d. unfold ranked. induction rows as [|[i r] rows IH]; intros d; cbn; [exists d.(queue_rank); by destruct d|].
  destruct (p i r d); [|apply IH]. destruct (IH (with_rank (v r) d)) as [r' Hr']. exists r'. by rewrite Hr'.
Qed.

Lemma ranked_id p v rows d : (ranked p v rows d).(d_id) = d.(d_id).
Proof. by destruct (ranked_same p v rows d) as [r ->]. Qed.
Lemma ranked_held p v rows d agent : held_for agent (ranked p v rows d) = held_for agent d.
Proof. by destruct (ranked_same p v rows d) as [r ->]. Qed.

Lemma ranked_unique p v rows ds : unique d_id ds → unique d_id (ranked p v rows <$> ds).
Proof.
  unfold unique. intros Hu. rewrite <-list_fmap_compose. erewrite list_fmap_ext; [exact Hu|].
  intros k d _. simpl. apply ranked_id.
Qed.

Lemma held_queue_elem db agent d : d ∈ held_queue db agent ↔ d ∈ db.(deliveries) ∧ held_for agent d = true.
Proof. unfold held_queue, by_rank. rewrite (sort_by_perm _ _). apply select_elem. Qed.

Lemma held_queue_unique {K} (key : Delivery → K) db agent : unique key db.(deliveries) → unique key (held_queue db agent).
Proof.
  intros Hu. unfold unique, held_queue, by_rank. rewrite (fmap_Permutation key _ _ (sort_by_perm _ _)).
  by apply unique_select.
Qed.

Lemma by_rank_sorted ds : unique queue_rank ds → StronglySorted (λ a b, a.(queue_rank) < b.(queue_rank)) (by_rank ds).
Proof.
  intros Hu. assert (unique queue_rank (by_rank ds)) as Hu'.
  { unfold unique, by_rank. by rewrite (fmap_Permutation queue_rank _ _ (sort_by_perm _ _)). }
  assert (StronglySorted (λ a b, (a.(queue_rank) <=? b.(queue_rank)) = true) (by_rank ds)) as Hs.
  { apply Sorted_StronglySorted; [intros a b c; lia|]. apply sort_by_sorted. intros a b. lia. }
  revert Hu'. induction Hs as [|d l Hl IH Hd]; intros Hu'; [constructor|]. unfold unique in Hu'. cbn in Hu'.
  apply NoDup_cons in Hu' as [Hn Hu']. constructor; [by apply IH|]. rewrite Forall_forall in *. intros x Hx.
  specialize (Hd x Hx). assert (queue_rank d ≠ queue_rank x); [|lia]. intros Heq. apply Hn. rewrite Heq.
  by apply list_elem_of_fmap_2.
Qed.

Section Reorder.
Context (db : SendDb) (agent : string) (Hs : saga_ok db).
#[local] Set Default Proof Using "Type*".

Definition queue_rows : list (string * Z) := (λ d, (d.(d_id), d.(queue_rank))) <$> held_queue db agent.
Definition parked (d : Delivery) : Delivery := if held_for agent d then with_rank (- d.(queue_rank)) d else d.

Lemma queue_rows_elem i r : (i, r) ∈ queue_rows ↔
  ∃ d, d ∈ db.(deliveries) ∧ held_for agent d = true ∧ d.(d_id) = i ∧ d.(queue_rank) = r.
Proof. unfold queue_rows. rewrite list_elem_of_fmap. setoid_rewrite held_queue_elem. naive_solver. Qed.

Lemma queue_rows_fst : queue_rows.*1 = d_id <$> held_queue db agent.
Proof. unfold queue_rows. by rewrite <-list_fmap_compose. Qed.
Lemma queue_rows_snd : queue_rows.*2 = queue_rank <$> held_queue db agent.
Proof. unfold queue_rows. by rewrite <-list_fmap_compose. Qed.

Lemma queue_rows_nodup : NoDup queue_rows.*1.
Proof. rewrite queue_rows_fst. apply held_queue_unique. by destruct Hs. Qed.

Definition p_park (i : string) (r : Z) (d : Delivery) : bool :=
  by_delivery i d && held_for agent d && (d.(queue_rank) =? r).
Definition p_place (i : string) (r : Z) (d : Delivery) : bool :=
  by_delivery i d && held_for agent d && (d.(queue_rank) <? 0).

Lemma p_park_cond : by_id_cond p_park (λ r d, held_for agent d && (d.(queue_rank) =? r)).
Proof. intros i r d. unfold p_park. by rewrite andb_assoc. Qed.
Lemma p_place_cond : by_id_cond p_place (λ r d, held_for agent d && (d.(queue_rank) <? 0)).
Proof. intros i r d. unfold p_place. by rewrite andb_assoc. Qed.

Lemma same_id d d' : d ∈ db.(deliveries) → d' ∈ db.(deliveries) → d.(d_id) = d'.(d_id) → d = d'.
Proof. apply unique_eq. by destruct Hs. Qed.
Lemma same_rank d d' : d ∈ db.(deliveries) → d' ∈ db.(deliveries) → d.(queue_rank) = d'.(queue_rank) → d = d'.
Proof. apply unique_eq. by destruct Hs. Qed.

(** A prefix of the parking: the rows of the prefix are parked, the others are not. *)
Lemma park_prefix l l' d :
  queue_rows = l ++ l' → d ∈ db.(deliveries) →
  if bool_decide (d.(d_id) ∈ l.*1) then held_for agent d = true ∧ ranked p_park Z.opp l d = with_rank (- d.(queue_rank)) d
  else ranked p_park Z.opp l d = d.
Proof.
  intros Hl Hd. case_bool_decide as Hin; [|by apply (ranked_other _ _ _ _ _ p_park_cond)].
  apply list_elem_of_fmap in Hin as ([i r] & Hi & Hir). simpl in Hi. subst i.
  assert ((d.(d_id), r) ∈ queue_rows) as Hq by (rewrite Hl; set_solver).
  apply queue_rows_elem in Hq as (d' & Hd' & Hm & Hid & Hr).
  assert (d' = d) as -> by (by apply same_id). subst r. split; [done|].
  apply list_elem_of_split in Hir as (l1 & l2 & ->).
  pose proof queue_rows_nodup as Hnd. rewrite Hl in Hnd.
  destruct (NoDup_split_fst _ l1 d.(d_id) d.(queue_rank) (l2 ++ l') Hnd) as [H1 H2]; [by rewrite <-app_assoc|].
  apply (ranked_hit _ _ _ _ _ _ _ p_park_cond); [done| |by rewrite Hm, Z.eqb_refl].
  rewrite fmap_app in H2. set_solver.
Qed.

Lemma park_ok : park_ranks agent queue_rows db.(deliveries) = Ok (parked <$> db.(deliveries)).
Proof.
  unfold park_ranks. change (λ i r d, by_delivery i d && held_for agent d && (queue_rank d =? r)) with p_park.
  rewrite set_ranks_all.
  - f_equal. apply list_fmap_ext. intros k d Hk. apply list_elem_of_lookup_2 in Hk.
    pose proof (park_prefix queue_rows [] d ltac:(by rewrite app_nil_r) Hk) as Hp. unfold parked.
    case_bool_decide as Hin; [by destruct Hp as [-> ->]|]. rewrite Hp. destruct (held_for agent d) eqn:Hm; [|done].
    destruct Hin. rewrite queue_rows_fst. apply list_elem_of_fmap_2, held_queue_elem. done.
  - intros l i r l' Hl. pose proof queue_rows_nodup as Hnd. rewrite Hl in Hnd.
    destruct (NoDup_split_fst _ l i r l' Hnd eq_refl) as [Hil _].
    assert ((i, r) ∈ queue_rows) as Hq by (rewrite Hl; set_solver).
    apply queue_rows_elem in Hq as (d0 & Hd0 & Hm0 & Hid0 & Hr0).
    assert (ranked p_park Z.opp l d0 = d0) as H0.
    { apply (ranked_other _ _ _ _ _ p_park_cond). by rewrite Hid0. }
    split.
    + apply (updated_one d_id _ _ d0).
      * apply ranked_unique. by destruct Hs.
      * intros x y [[Hx _]%andb_true_iff _]%andb_true_iff [[Hy _]%andb_true_iff _]%andb_true_iff.
        apply bool_decide_eq_true in Hx, Hy. congruence.
      * apply list_elem_of_fmap. eauto.
      * unfold p_park, by_delivery. rewrite Hm0, bool_decide_eq_true_2 by done. simpl. by apply Z.eqb_eq.
    + intros d Hd _. pose proof (park_prefix l ((i, r) :: l') d Hl Hd) as Hp.
      pose proof (sg_range db Hs d Hd) as Hpos. pose proof (sg_range db Hs d0 Hd0) as Hpos0.
      case_bool_decide as Hin; [destruct Hp as [_ ->]|rewrite Hp]; simpl; [|lia].
      intros Heq. assert (d = d0) as -> by (apply same_rank; [done..|lia]). by rewrite Hid0 in Hin.
Qed.

Context (ordered : list string) (Hord : ordered ≡ₚ d_id <$> held_queue db agent).
Definition new_rows : list (string * Z) := zip ordered (queue_rank <$> held_queue db agent).

Lemma new_rows_fst : new_rows.*1 = ordered.
Proof. apply fst_zip. rewrite length_fmap. by rewrite (Permutation_length Hord), length_fmap. Qed.
Lemma new_rows_snd : new_rows.*2 = queue_rank <$> held_queue db agent.
Proof. apply snd_zip. rewrite length_fmap. by rewrite (Permutation_length Hord), length_fmap. Qed.
Lemma new_rows_nodup : NoDup new_rows.*1.
Proof. rewrite new_rows_fst, Hord. rewrite <-queue_rows_fst. apply queue_rows_nodup. Qed.
Lemma new_rows_nodup_rank : NoDup new_rows.*2.
Proof. rewrite new_rows_snd. apply held_queue_unique. by destruct Hs. Qed.

(** An assigned rank is the rank of a row of the queue. *)
Lemma new_row_rank i r : (i, r) ∈ new_rows → ∃ d, d ∈ db.(deliveries) ∧ held_for agent d = true ∧ d.(queue_rank) = r.
Proof.
  intros Hir. assert (r ∈ new_rows.*2) as Hr by (apply list_elem_of_fmap; by exists (i, r)).
  rewrite new_rows_snd in Hr. apply list_elem_of_fmap in Hr as (d & -> & Hd). apply held_queue_elem in Hd. naive_solver.
Qed.
Lemma new_row_id i : i ∈ ordered ↔ ∃ d, d ∈ db.(deliveries) ∧ held_for agent d = true ∧ d.(d_id) = i.
Proof. rewrite Hord, list_elem_of_fmap. setoid_rewrite held_queue_elem. naive_solver. Qed.

Lemma place_prefix l l' d :
  new_rows = l ++ l' → d ∈ db.(deliveries) →
  if bool_decide (d.(d_id) ∈ l.*1)
  then held_for agent d = true ∧ ∃ r, (d.(d_id), r) ∈ l ∧ ranked p_place (λ r, r) l (parked d) = with_rank r d
  else ranked p_place (λ r, r) l (parked d) = parked d.
Proof.
  intros Hl Hd. assert ((parked d).(d_id) = d.(d_id)) as Hpid by (unfold parked; by destruct (held_for agent d)).
  case_bool_decide as Hin; [|apply (ranked_other _ _ _ _ _ p_place_cond); by rewrite Hpid].
  assert (held_for agent d = true) as Hm.
  { assert (d.(d_id) ∈ ordered) as Ho by (rewrite <-new_rows_fst, Hl, fmap_app; set_solver).
    apply new_row_id in Ho as (d' & Hd' & Hm' & Hid). by rewrite <-(same_id d' d). }
  split; [done|]. apply list_elem_of_fmap in Hin as ([i r] & Hi & Hir). simpl in Hi. subst i. exists r. split; [done|].
  apply list_elem_of_split in Hir as (l1 & l2 & ->).
  pose proof new_rows_nodup as Hnd. rewrite Hl in Hnd.
  destruct (NoDup_split_fst _ l1 d.(d_id) r (l2 ++ l') Hnd) as [H1 H2]; [by rewrite <-app_assoc|].
  assert (parked d = with_rank (- d.(queue_rank)) d) as Hpk by (unfold parked; by rewrite Hm). rewrite Hpk.
  pose proof (sg_range db Hs d Hd).
  etrans; [apply (ranked_hit _ _ (λ r, r) l1 r l2 (with_rank (- d.(queue_rank)) d) p_place_cond)|done]; [done|..].
  - rewrite fmap_app in H2. set_solver.
  - change (held_for agent (with_rank _ d)) with (held_for agent d). rewrite Hm. simpl. lia.
Qed.

Definition placed (d : Delivery) : Delivery := ranked p_place (λ r, r) new_rows (parked d).

Lemma placed_row d : d ∈ db.(deliveries) →
  if held_for agent d then ∃ r, (d.(d_id), r) ∈ new_rows ∧ placed d = with_rank r d else placed d = d.
Proof.
  intros Hd. pose proof (place_prefix new_rows [] d ltac:(by rewrite app_nil_r) Hd) as Hp. unfold placed.
  rewrite new_rows_fst in Hp. case_bool_decide as Hin; [by destruct Hp as [-> Hp]|]. rewrite Hp.
  destruct (held_for agent d) eqn:Hm; [|unfold parked; by rewrite Hm]. destruct Hin. apply new_row_id. eauto.
Qed.

Lemma place_ok : place_ranks agent new_rows (parked <$> db.(deliveries)) = Ok (placed <$> db.(deliveries)).
Proof.
  unfold place_ranks. change (λ i (_ : Z) d, by_delivery i d && held_for agent d && (queue_rank d <? 0)) with p_place.
  rewrite set_ranks_all; [by rewrite <-list_fmap_compose|].
  intros l i r l' Hl. pose proof new_rows_nodup as Hnd. rewrite Hl in Hnd.
  destruct (NoDup_split_fst _ l i r l' Hnd eq_refl) as [Hil _].
  assert (i ∈ ordered) as Hi by (rewrite <-new_rows_fst, Hl, fmap_app; set_solver).
  apply new_row_id in Hi as (d0 & Hd0 & Hm0 & Hid0). pose proof (sg_range db Hs d0 Hd0).
  assert (ranked p_place (λ r, r) l (parked d0) = with_rank (- d0.(queue_rank)) d0) as Hp0.
  { pose proof (place_prefix l ((i, r) :: l') d0 Hl Hd0) as Hp. rewrite bool_decide_eq_false_2 in Hp by by rewrite Hid0.
    rewrite Hp. unfold parked. by rewrite Hm0. }
  rewrite <-list_fmap_compose. split.
  - apply (updated_one d_id _ _ (with_rank (- d0.(queue_rank)) d0)).
    + unfold unique. rewrite <-list_fmap_compose. erewrite list_fmap_ext; [by destruct Hs|].
      intros k d _. simpl. rewrite ranked_id. unfold parked. by destruct (held_for agent d).
    + intros x y [[Hx _]%andb_true_iff _]%andb_true_iff [[Hy _]%andb_true_iff _]%andb_true_iff.
      apply bool_decide_eq_true in Hx, Hy. congruence.
    + apply list_elem_of_fmap. exists d0. simpl. by rewrite Hp0.
    + unfold p_place, by_delivery. simpl. change (held_for agent (with_rank _ d0)) with (held_for agent d0).
      rewrite Hm0, bool_decide_eq_true_2 by done. simpl. lia.
  - intros x (d & -> & Hd)%list_elem_of_fmap _. pose proof (place_prefix l ((i, r) :: l') d Hl Hd) as Hp.
    pose proof (sg_range db Hs d Hd).
    destruct (new_row_rank i r) as (e & He & Hme & Hre); [rewrite Hl; set_solver|]. pose proof (sg_range db Hs e He).
    case_bool_decide as Hin.
    + destruct Hp as (_ & r' & Hr' & ->). simpl. intros ->.
      pose proof new_rows_nodup_rank as Hndr. rewrite Hl, fmap_app in Hndr. simpl in Hndr.
      apply NoDup_app in Hndr as (_ & Hdis & _). apply (Hdis r); [|left]. apply list_elem_of_fmap. by exists (d.(d_id), r).
    + rewrite Hp. unfold parked. destruct (held_for agent d) eqn:Hm; simpl; [lia|]. intros Heq.
      assert (d = e) as -> by (apply same_rank; [done..|lia]). congruence.
Qed.

Definition reordered : SendDb := set_deliveries (placed <$> db.(deliveries)) db.

Lemma placed_with_rank d : ∃ r, placed d = with_rank r d.
Proof.
  destruct (ranked_same p_place (λ r, r) new_rows (parked d)) as [r Hr]. unfold placed. rewrite Hr.
  exists r. unfold parked. by destruct (held_for agent d).
Qed.

(** Two rows keep different ranks. *)
Lemma placed_rank_inj x y :
  x ∈ db.(deliveries) → y ∈ db.(deliveries) → (placed x).(queue_rank) = (placed y).(queue_rank) → x = y.
Proof.
  intros Hx Hy Heq. pose proof (placed_row x Hx) as Px. pose proof (placed_row y Hy) as Py.
  destruct (held_for agent x) eqn:Mx, (held_for agent y) eqn:My.
  - destruct Px as (r & Hr & Ex), Py as (r' & Hr' & Ey). rewrite Ex, Ey in Heq. simpl in Heq. subst r'.
    apply same_id; [done..|]. pose proof new_rows_nodup_rank as Hnd.
    apply list_elem_of_lookup in Hr as [i Hi]. apply list_elem_of_lookup in Hr' as [j Hj].
    assert (i = j) as ->; [|by simplify_eq]. eapply (NoDup_lookup _ _ _ r Hnd); rewrite list_lookup_fmap; [by rewrite Hi|by rewrite Hj].
  - destruct Px as (r & Hr & Ex). rewrite Ex, Py in Heq. simpl in Heq. destruct (new_row_rank _ _ Hr) as (e & He & Hme & Hre).
    assert (e = y) as -> by (apply same_rank; congruence). congruence.
  - destruct Py as (r & Hr & Ey). rewrite Px, Ey in Heq. simpl in Heq. destruct (new_row_rank _ _ Hr) as (e & He & Hme & Hre).
    assert (e = x) as -> by (apply same_rank; congruence). congruence.
  - rewrite Px, Py in Heq. by apply same_rank.
Qed.

Lemma reordered_saga : saga_ok reordered.
Proof.
  pose proof Hs as [Hi Hk Hr Hrange Hn Hrow].
  assert (NoDup db.(deliveries)) as Hnd by by apply (NoDup_fmap_1 d_id).
  constructor; simpl; [..|done|].
  - unfold unique. rewrite <-list_fmap_compose. erewrite list_fmap_ext; [exact Hi|].
    intros k d _. simpl. by destruct (placed_with_rank d) as [r ->].
  - unfold unique. rewrite <-list_fmap_compose. erewrite list_fmap_ext; [exact Hk|].
    intros k d _. simpl. by destruct (placed_with_rank d) as [r ->].
  - unfold unique. rewrite <-list_fmap_compose. apply NoDup_fmap_2_strong; [|done].
    intros x y Hx Hy Heq. by apply placed_rank_inj.
  - intros y (d & -> & Hd)%list_elem_of_fmap. pose proof (placed_row d Hd) as Hp.
    destruct (held_for agent d); [|rewrite Hp; by apply Hrange]. destruct Hp as (r & Hr' & ->). simpl.
    destruct (new_row_rank _ _ Hr') as (e & He & _ & <-). by apply Hrange.
  - intros y (d & -> & Hd)%list_elem_of_fmap. destruct (placed_with_rank d) as [r ->]. exact (Hrow d Hd).
Qed.

Definition id_rank (d : Delivery) : string * Z := (d.(d_id), d.(queue_rank)).

Lemma reordered_queue_perm : id_rank <$> held_queue reordered agent ≡ₚ new_rows.
Proof.
  pose proof reordered_saga as [Hi' _ _ _ _ _]. apply NoDup_Permutation.
  - apply (NoDup_fmap_1 fst). rewrite <-list_fmap_compose. by apply (held_queue_unique d_id).
  - apply (NoDup_fmap_1 fst). apply new_rows_nodup.
  - intros [i r]. rewrite list_elem_of_fmap. split.
    + intros (y & Hy & Hin). apply held_queue_elem in Hin as [Hin Hm]. simpl in Hin.
      apply list_elem_of_fmap in Hin as (d & -> & Hd). pose proof (placed_row d Hd) as Hp.
      destruct (placed_with_rank d) as [r0 Hr0]. rewrite Hr0 in Hm. change (held_for agent (with_rank r0 d)) with (held_for agent d) in Hm.
      rewrite Hm in Hp. destruct Hp as (r' & Hr' & Hp). rewrite Hp in Hy. unfold id_rank in Hy. simpl in Hy. by injection Hy as -> ->.
    + intros Hir. assert (i ∈ ordered) as Ho by (rewrite <-new_rows_fst; apply list_elem_of_fmap; by exists (i, r)).
      apply new_row_id in Ho as (d & Hd & Hm & Hid). pose proof (placed_row d Hd) as Hp. rewrite Hm in Hp.
      destruct Hp as (r' & Hr' & Hp). exists (placed d). split; [|apply held_queue_elem; split].
      * rewrite Hp. unfold id_rank. simpl. rewrite Hid. f_equal. rewrite Hid in Hr'.
        apply list_elem_of_lookup in Hir as [a Ha]. apply list_elem_of_lookup in Hr' as [b Hb].
        assert (a = b) as ->; [|by simplify_eq]. eapply (NoDup_lookup _ _ _ i new_rows_nodup); rewrite list_lookup_fmap; [by rewrite Ha|by rewrite Hb].
      * simpl. by apply list_elem_of_fmap_2.
      * rewrite Hp. exact Hm.
Qed.

(** The queue is the ordered list, on the ranks it had. *)
Lemma reordered_queue :
  d_id <$> held_queue reordered agent = ordered ∧
  queue_rank <$> held_queue reordered agent = queue_rank <$> held_queue db agent.
Proof.
  pose proof reordered_saga as Hs'. set (lt2 := λ a b : string * Z, a.2 < b.2).
  assert (AntiSymm (=) lt2) by (intros a b Hab Hba; unfold lt2 in *; lia).
  assert (id_rank <$> held_queue reordered agent = new_rows) as Heq.
  { apply (StronglySorted_unique lt2); [..|apply reordered_queue_perm].
    - apply (StronglySorted_fmap id_rank (λ a b, a.(queue_rank) < b.(queue_rank)) lt2); [done|].
      apply by_rank_sorted, unique_select. by destruct Hs'.
    - assert (StronglySorted Z.lt new_rows.*2) as Hss.
      { rewrite new_rows_snd. apply (StronglySorted_fmap queue_rank (λ a b, a.(queue_rank) < b.(queue_rank)) Z.lt); [done|].
        apply by_rank_sorted, unique_select. by destruct Hs. }
      revert Hss. generalize new_rows. clear. induction l as [|[i r] l IH]; simpl; intros Hss; [constructor|].
      inversion Hss as [|? ? Hl Hf]; subst. constructor; [by apply IH|]. apply Forall_forall. intros [j q] Hj.
      apply (proj1 (Forall_forall _ _) Hf q). change (q ∈ l.*2). apply list_elem_of_fmap. by exists (j, q). }
  split.
  - rewrite <-new_rows_fst, <-Heq, <-list_fmap_compose. done.
  - rewrite <-new_rows_snd, <-Heq, <-list_fmap_compose. done.
Qed.
End Reorder.

Lemma position_Some {A} (p : A → bool) l k :
  position p l = Some k → ∃ l1 x l2, l = l1 ++ x :: l2 ∧ length l1 = k ∧ p x = true ∧ ∀ y, y ∈ l1 → p y = false.
Proof.
  revert k. induction l as [|x l IH]; intros k; simpl; [done|]. destruct (p x) eqn:Hp.
  - intros [= <-]. exists [], x, l. split_and!; try done. by intros y ?%elem_of_nil.
  - intros (k' & Hk & ->)%fmap_Some. destruct (IH k' Hk) as (l1 & y & l2 & -> & Hl & Hy & Hl1).
    exists (x :: l1), y, l2. split_and!; try done; [by simpl; rewrite Hl|]. intros z [->|Hz]%elem_of_cons; auto.
Qed.

Lemma position_None {A} (p : A → bool) l x : position p l = None → x ∈ l → p x = false.
Proof.
  induction l as [|y l IH]; simpl; [by intros _ ?%elem_of_nil|]. destruct (p y) eqn:Hp; [done|].
  intros Hn%fmap_None [->|Hx]%elem_of_cons; auto.
Qed.

(** The order after a move: the others keep theirs, and the one moved comes just
    before [b], or last. *)
Definition moved_to (i : string) (before : option string) (ids ordered : list string) : Prop :=
  ordered ≡ₚ ids ∧ filter (.≠ i) ordered = filter (.≠ i) ids ∧
  match before with None => last ordered = Some i | Some b => ∃ l1 l2, ordered = l1 ++ i :: b :: l2 end.

Lemma moved_before_spec i before ids ordered :
  NoDup ids → moved_before i before ids = Ok ordered → moved_to i before ids ordered.
Proof.
  intros Hnd Hm. unfold moved_before in Hm. apply bind_Ok in Hm as (k & Hk%ok_or_Ok & Hm).
  apply position_Some in Hk as (l1 & x & l2 & -> & Hl & Hx & _). apply bool_decide_eq_true in Hx. subst x k.
  apply NoDup_app in Hnd as (_ & Hd & Hnd2). apply NoDup_cons in Hnd2 as [Hi2 _].
  assert (i ∉ l1) as Hi1 by (intros Hin; apply (Hd i Hin); left).
  rewrite delete_middle in Hm. apply bind_Ok in Hm as (k & Hk & [= <-]).
  assert (∀ n, insert_at n i (l1 ++ l2) ≡ₚ l1 ++ i :: l2 ∧
    filter (.≠ i) (insert_at n i (l1 ++ l2)) = filter (.≠ i) (l1 ++ i :: l2)) as Hn.
  { intros n. unfold insert_at. split.
    - rewrite <-!Permutation_middle. by rewrite take_drop.
    - rewrite !filter_app, !filter_cons, !decide_False by auto. by rewrite <-filter_app, take_drop, filter_app. }
  destruct (Hn k) as [H1 H2]. split_and!; [done..|]. unfold insert_at. destruct before as [b|].
  - apply ok_or_Ok, position_Some in Hk as (m1 & x & m2 & -> & <- & Hx & _). apply bool_decide_eq_true in Hx. subst x.
    rewrite take_app_length, drop_app_length. eauto.
  - injection Hk as <-. rewrite take_ge, drop_ge by lia. apply last_snoc.
Qed.

Lemma moved_before_total i before ids :
  NoDup ids → i ∈ ids → (∀ b, before = Some b → b ∈ ids ∧ b ≠ i) → ∃ ordered, moved_before i before ids = Ok ordered.
Proof.
  intros Hnd Hi Hb. unfold moved_before.
  destruct (position (λ x, bool_decide (x = i)) ids) as [k|] eqn:Hk.
  2: { apply (position_None _ _ i) in Hk; [|done]. by apply bool_decide_eq_false in Hk. }
  simpl. apply position_Some in Hk as (l1 & x & l2 & -> & <- & Hx & _). apply bool_decide_eq_true in Hx. subst x.
  rewrite delete_middle. destruct before as [b|]; simpl; [|eauto]. destruct (Hb b eq_refl) as [Hin Hne].
  destruct (position (λ x, bool_decide (x = b)) (l1 ++ l2)) as [k|] eqn:Hk; simpl; [eauto|].
  apply (position_None _ _ b) in Hk; [by apply bool_decide_eq_false in Hk|]. set_solver.
Qed.

Lemma matching_ids_elem n mid ds ids i : matching_ids n mid ds = Ok ids → i ∈ ids → i ∈ d_id <$> ds.
Proof.
  revert n ids. induction ds as [|d ds IH]; intros n ids.
  { destruct n; simpl; intros [= <-] Hi; by apply elem_of_nil in Hi. }
  destruct n as [|n]; simpl; [intros [= <-] Hi; by apply elem_of_nil in Hi|].
  intros (j & _ & Hm)%bind_Ok Hi. case_bool_decide.
  - apply bind_Ok in Hm as (rest & Hrest & [= <-]). apply elem_of_cons in Hi as [->|Hi]; [left|right; by eapply IH].
  - right. by eapply IH.
Qed.

Lemma unique_held_elem db agent mid i :
  unique_held_public_id db agent mid = Ok (Some i) → i ∈ d_id <$> held_queue db agent.
Proof.
  unfold unique_held_public_id. intros (ids & Hids & Hi)%bind_Ok. destruct ids as [|x [|y ids]]; simplify_eq.
  eapply matching_ids_elem; [exact Hids|]. left.
Qed.

Definition others (agent : string) (db : SendDb) : list Delivery := select (λ d, negb (held_for agent d)) db.(deliveries).

(** What the edit did to the queue of [agent]: the identifiers in order, the
    ranks, and the rows that are not in it. *)
Definition queue_changed (agent : string) (db db' : SendDb) (i : string) (before : option string) : Prop :=
  (if bool_decide (before = Some i) then db' = db
   else moved_to i before (d_id <$> held_queue db agent) (d_id <$> held_queue db' agent)) ∧
  queue_rank <$> held_queue db' agent = queue_rank <$> held_queue db agent ∧
  others agent db' = others agent db ∧ db' = set_deliveries db'.(deliveries) db.

Lemma queue_unchanged agent db i before :
  (before ≠ Some i → moved_to i before (d_id <$> held_queue db agent) (d_id <$> held_queue db agent)) →
  queue_changed agent db db i before.
Proof. intros H0. split_and!; try done; [|by destruct db]. case_bool_decide; auto. Qed.

Lemma placed_others agent db ordered (Hs : saga_ok db) (Hord : ordered ≡ₚ d_id <$> held_queue db agent) :
  others agent (reordered db agent ordered) = others agent db.
Proof.
  unfold others, reordered. simpl. assert (∀ l, (∀ d, d ∈ l → d ∈ db.(deliveries)) →
    select (λ d, negb (held_for agent d)) (placed db agent ordered <$> l) = select (λ d, negb (held_for agent d)) l) as Hl; [|by apply Hl].
  unfold select. induction l as [|d l IH]; intros Hin; [done|]. rewrite fmap_cons. cbn [List.filter]. pose proof (placed_row db agent Hs ordered Hord d (Hin d ltac:(left))) as Hp.
  destruct (placed_with_rank db agent Hs ordered Hord d) as [r Hr]. rewrite IH by set_solver.
  destruct (held_for agent d) eqn:Hm; [|by rewrite Hp, Hm].
  rewrite Hr. change (held_for agent (with_rank r d)) with (held_for agent d). by rewrite Hm.
Qed.

Lemma named_before_elem db agent before_mid b :
  named_before db agent before_mid = Ok (Some (Some b)) → b ∈ d_id <$> held_queue db agent.
Proof.
  destruct before_mid as [m|]; [|done]. intros ([b'|] & Hb & [= <-])%bind_Ok. by eapply unique_held_elem.
Qed.

(** The move itself, once the messages are found: none of its updates fails. *)
Lemma reorder_found db agent mid before_mid i before :
  saga_ok db → unique_held_public_id db agent mid = Ok (Some i) → named_before db agent before_mid = Ok (Some before) →
  ∃ db', reorder_edit agent mid before_mid db = Ok (db', mkDecision (Some i) before (inl ())) ∧ saga_ok db' ∧
    queue_changed agent db db' i before.
Proof.
  intros Hs Hi Hb. unfold reorder_edit. rewrite Hi, Hb. simpl. apply unique_held_elem in Hi.
  assert (∀ b, before = Some b → b ∈ d_id <$> held_queue db agent) as Hbef by (intros b ->; by eapply named_before_elem).
  assert (exists_row (λ d, d.(queue_rank) <=? 0) (held_queue db agent) = false) as ->.
  { apply exists_row_false. intros d [Hd _]%held_queue_elem. pose proof (sg_range db Hs d Hd). lia. }
  assert (NoDup (d_id <$> held_queue db agent)) as Hnd by (apply held_queue_unique; by destruct Hs).
  destruct (position (λ x, bool_decide (x = i)) (d_id <$> held_queue db agent)) as [k|] eqn:Hk; simpl.
  2: { apply (position_None _ _ i) in Hk; [|done]. by apply bool_decide_eq_false in Hk. }
  case_bool_decide as Hbi; simpl; [exists db; split_and!; try done; by apply queue_unchanged|].
  destruct (moved_before_total i before (d_id <$> held_queue db agent) Hnd Hi) as [ordered Ho].
  { intros b ->. split; [by apply Hbef|congruence]. }
  rewrite Ho. simpl. pose proof (moved_before_spec _ _ _ _ Hnd Ho) as Hmv. case_bool_decide as Heq; simpl.
  { exists db. split_and!; [done..|]. apply queue_unchanged. intros _. by rewrite Heq at 2. }
  assert (ordered ≡ₚ d_id <$> held_queue db agent) as Hord by apply Hmv.
  change ((λ d, (d_id d, queue_rank d)) <$> held_queue db agent) with (queue_rows db agent).
  rewrite (park_ok db agent Hs). simpl. change (zip ordered (queue_rank <$> held_queue db agent)) with (new_rows db agent ordered).
  rewrite (place_ok db agent Hs ordered Hord). simpl. change (set_deliveries _ db) with (reordered db agent ordered).
  destruct (reordered_queue db agent Hs ordered Hord) as [Hq1 Hq2].
  eexists. split; [done|]. split; [by apply reordered_saga|]. split_and!; [|done|by apply placed_others|done].
  rewrite bool_decide_eq_false_2 by done. by rewrite Hq1.
Qed.

Lemma reorder_edit_saga db agent mid before_mid db' dc :
  saga_ok db → reorder_edit agent mid before_mid db = Ok (db', dc) → saga_ok db'.
Proof.
  intros Hs H0. destruct (unique_held_public_id db agent mid) as [[i|]|e] eqn:Hi.
  - destruct (named_before db agent before_mid) as [[before|]|e] eqn:Hb.
    + destruct (reorder_found db agent mid before_mid i before Hs Hi Hb) as (db1 & Heq & Hs1 & _). rewrite H0 in Heq. by injection Heq as -> _.
    + unfold reorder_edit in H0. rewrite Hi, Hb in H0. by simplify_eq/=.
    + unfold reorder_edit in H0. rewrite Hi, Hb in H0. done.
  - unfold reorder_edit in H0. rewrite Hi in H0. by simplify_eq/=.
  - unfold reorder_edit in H0. rewrite Hi in H0. done.
Qed.

(** The callback of a reordering only changes ranks. *)
Lemma reorder_edit_rows db agent mid before_mid :
  saga_ok db → ∀ db' dc, reorder_edit agent mid before_mid db = Ok (db', dc) →
  ∃ f, db'.(deliveries) = f <$> db.(deliveries) ∧ ∀ x, ∃ r, f x = with_rank r x.
Proof.
  intros Hs db' dc. unfold reorder_edit.
  assert (∃ f, db.(deliveries) = f <$> db.(deliveries) ∧ ∀ x, ∃ r, f x = with_rank r x) as Hid.
  { exists (λ x, x). split; [by rewrite list_fmap_id|]. intros x. exists (queue_rank x). by destruct x. }
  intros ([i|] & Hi & H0)%bind_Ok; [|by simplify_eq]. apply bind_Ok in H0 as ([before|] & _ & H0); [|by simplify_eq].
  destruct (exists_row _ _); [done|]. apply bind_Ok in H0 as (k & _ & H0). destruct (bool_decide _); [by simplify_eq|].
  apply bind_Ok in H0 as (ordered & Ho & H0). destruct (bool_decide _); [by simplify_eq|].
  assert (ordered ≡ₚ d_id <$> held_queue db agent) as Hord.
  { eapply moved_before_spec; [|exact Ho]. apply held_queue_unique. by destruct Hs. }
  change ((λ d, (d_id d, queue_rank d)) <$> held_queue db agent) with (queue_rows db agent) in H0.
  rewrite (park_ok db agent Hs) in H0. simpl in H0.
  change (zip ordered (queue_rank <$> held_queue db agent)) with (new_rows db agent ordered) in H0.
  rewrite (place_ok db agent Hs ordered Hord) in H0. simpl in H0. injection H0 as <- _.
  exists (placed db agent ordered). split; [done|]. by apply placed_with_rank.
Qed.

Lemma reorder_saga db scope rid bytes actor agent mid before_mid now :
  saga_ok db → saga_ok (apply_reorder db scope rid bytes actor agent mid before_mid now).1.
Proof.
  intros Hs. apply queue_edit_saga; [done|]. intros db' dc. by apply reorder_edit_saga.
Qed.

(** ** The messages by name *)

(** The held messages whose envelope has this identifier, in order. *)
Definition named (mid : string) (d : Delivery) : bool :=
  is_some_and (b ← d.(d_bytes); decode b) (λ m, bool_decide (m.(id) = mid)).
Definition held_named (db : SendDb) (agent mid : string) : list Delivery := select (named mid) (held_queue db agent).
Definition sole {A} (l : list A) : option A := match l with [x] => Some x | _ => None end.

Lemma matching_ids_named `{!EnvelopeLaws _} n mid ds :
  (∀ d, d ∈ ds → ∃ b m, d.(d_bytes) = Some b ∧ decode b = Some m) →
  matching_ids n mid ds = Ok (take n (d_id <$> select (named mid) ds)).
Proof.
  revert n. induction ds as [|d ds IH]; intros n Hds; [by destruct n|]. destruct n as [|n]; [done|]. simpl.
  destruct (Hds d) as (b & m & Hb & Hm); [left|]. rewrite Hb, (decode_json_id b m Hm). simpl.
  assert (named mid d = bool_decide (id m = mid)) as Hn by (unfold named; rewrite Hb; simpl; by rewrite Hm).
  assert (∀ k, matching_ids k mid ds = Ok (take k (d_id <$> select (named mid) ds))) as IH' by (intros k; apply IH; set_solver).
  cbn. rewrite Hn. destruct (decide (id m = mid)) as [He|He].
  - rewrite (bool_decide_eq_true_2 (id m = mid)), bool_decide_eq_true_2 by congruence. simpl. by rewrite IH'.
  - rewrite (bool_decide_eq_false_2 (id m = mid)), bool_decide_eq_false_2 by congruence. apply IH'.
Qed.

Lemma unique_held_named `{!EnvelopeLaws _} db agent mid :
  saga_ok db → unique_held_public_id db agent mid = Ok (d_id <$> sole (held_named db agent mid)).
Proof.
  intros Hs. unfold unique_held_public_id. rewrite matching_ids_named.
  - simpl. unfold held_named. by destruct (select _ _) as [|x [|y l]].
  - intros d [Hd [_ Hp%in_phase_true]%andb_true_iff]%held_queue_elem. by apply (sg_row db Hs d Hd).
Qed.

(** C10: a reordering of the held queue is exact and never fails on a consistent
    base.  It is refused, and changes nothing, exactly when one of the two
    messages it names is not the message of one and only one held delivery of
    the agent.  Otherwise it is applied to those deliveries: the one moved comes
    just before the other, or last when none is named, the other messages keep
    their order, the queue keeps its ranks, and the rest of the base is
    untouched; a message moved before itself stays where it is. *)
Theorem reorder_exact `{!EnvelopeLaws _} db agent mid before_mid :
  saga_ok db →
  ∃ db' dc, reorder_edit agent mid before_mid db = Ok (db', dc) ∧
    match sole (held_named db agent mid),
          match before_mid with None => Some None | Some b => Some <$> sole (held_named db agent b) end with
    | Some d, Some before =>
        dc = mkDecision (Some d.(d_id)) (d_id <$> before) (inl ()) ∧
        (if bool_decide (d_id <$> before = Some d.(d_id)) then db' = db
         else moved_to d.(d_id) (d_id <$> before) (d_id <$> held_queue db agent) (d_id <$> held_queue db' agent)) ∧
        queue_rank <$> held_queue db' agent = queue_rank <$> held_queue db agent ∧
        others agent db' = others agent db ∧ db' = set_deliveries db'.(deliveries) db
    | _, _ => db' = db ∧ dc.(dc_effect) = inr ("not_held", None)
    end.
Proof.
  intros Hs. pose proof (unique_held_named db agent mid Hs) as Hi.
  assert (named_before db agent before_mid = Ok (fmap d_id <$>
    match before_mid with None => Some None | Some b => Some <$> sole (held_named db agent b) end)) as Hb.
  { unfold named_before. destruct before_mid as [b|]; [|done]. rewrite unique_held_named by done. simpl.
    by destruct (sole (held_named db agent b)). }
  set (bef := match before_mid with None => _ | Some _ => _ end) in *.
  destruct (sole (held_named db agent mid)) as [d|]; simpl in Hi.
  - destruct bef as [before|]; simpl in Hb.
    + destruct (reorder_found _ _ _ _ _ _ Hs Hi Hb) as (db' & Heq & _ & Hq). eexists _, _. split; [exact Heq|by split].
    + unfold reorder_edit. rewrite Hi, Hb. simpl. eauto.
  - unfold reorder_edit. rewrite Hi. simpl. eauto.
Qed.

End Saga.
