(* ===== verification/SendRuns.v ===== *)
(** * SendRuns: the life of durable sends under the operations of [send_delivery.rs]

    Every operation of the store as one step on its tables, in any order and
    with any argument: the invariant of the saga, what each phase of a delivery
    may become, the releases of the held queue one turn at a time, and the
    replays of its edits. *)

From Stdlib Require Import Ascii.
From S2P Require Import Prelude Text Message Control Reminders Guidance Sql Idempotency Deliveries.
Local Open Scope Z_scope.

Section Runs.
Context `{EnvelopeCodec}.

(** The calls of the daemon.  [ReplaceHeld] is the correction of a held message
    from a phone, whatever the replacements already recorded;
    [DispatchCliWake] and [FinalizeCliWake] are the calls by which the daemon
    moves the record of a wake of the command line ([deliver_frozen_wake] and the
    tick), reserved as any key is.  [OutsideWrites] is what the other components write
    in the tables that the saga only reads: tracked requests, the control plane
    and the interruptions of a pause. *)
Inductive SendOp :=
| ReserveKey (q : Request)
| RejectKey (k : IdempotencyKey) (category reason : string)
| CaptureReply (k : IdempotencyKey) (result_expires_at : Z)
| Begin (k : IdempotencyKey) (sd : SendDelivery) (tracking : option ReplyTracking) (link : option DeliveryExecutionLink)
    (guidance : option GuidanceEvent) (held_capacity : option Z) (held_agent : option string) (now : Z)
| Link (l : DeliveryExecutionLink)
| Reassign (from_ to_ : string) (now : Z)
| Adopt (agent inst : string) (recover : bool) (now : Z)
| Redeliver (inst : string) (now : Z)
| Indeterminate (i inst : string) (generation : Z)
| SettleExpired (now : Z)
| PurgeSends (now grace : Z)
| Orphan (inst reason : string) (now : Z)
| Notified (i : string) (now : Z)
| Acknowledge (i inst : string) (generation now : Z)
| SettleHeld (i reason : string) (now : Z)
| ClearGate (agent : string)
| Release (agent : string) (now : Z)
| CancelHeld (scope request_id bytes actor agent message_id : string) (now : Z)
| ReorderHeld (scope request_id bytes actor agent message_id : string) (before_message_id : option string) (now : Z)
| PromoteHeld (scope request_id bytes actor agent message_id : string) (facts : GuidanceFacts) (now : Z)
| PurgeEdits (now : Z)
| ReplaceHeld (rs : gmap (string * string) Replacement) (issuer request canon delivery expected body : string)
    (now purge_now insert_now : Z)
| DispatchCliWake (id : string)
| FinalizeCliWake (id : string) (r : PublicResult)
| OutsideWrites (rs : gmap string RequestRow) (c : ControlDb) (ps : list PauseInterruption).

Definition outside_writes (rs : gmap string RequestRow) (c : ControlDb) (ps : list PauseInterruption) (db : SendDb) : SendDb :=
  mkSendDb db.(records) db.(deliveries) db.(next_rank) db.(exec_links) db.(ledger) rs db.(guidance_log)
    db.(notices) db.(queue_edits) c ps.

Definition send_step (db : SendDb) (op : SendOp) : SendDb :=
  match op with
  | ReserveKey q => set_records (reserve db.(records) q).1 db
  | RejectKey k category reason => set_records (reject_prepared db.(records) k category reason).1 db
  | CaptureReply k e => capture db k e
  | Begin k sd tracking link g cap held now => (begin_send_delivery_with_guidance db k sd tracking link g cap held now).1
  | Link l => (link_send_delivery db l).1
  | Reassign f t now => (reassign_dispatching_deliveries db f t now).1
  | Adopt agent inst recover now => (adopt_held_for_agent db agent inst recover now).1
  | Redeliver inst now => (dispatching_deliveries_for_instance db inst now).1
  | Indeterminate i inst generation => (mark_delivery_indeterminate db i inst generation).1
  | SettleExpired now => (settle_expired_dispatching db now).1
  | PurgeSends now grace => (purge_sends db now grace).1
  | Orphan inst reason now => (orphan_dispatching_for_instance db inst reason now).1
  | Notified i now => mark_orphan_emitter_notified db i now
  | Acknowledge i inst generation now => (acknowledge_send_delivery_at db i inst generation now).1
  | SettleHeld i reason now => (settle_held db i reason now).1
  | ClearGate agent => clear_held_turn_gate db agent
  | Release agent now => (release_next_held db agent now).1
  | CancelHeld s r b a agent mid now => (apply_cancel db s r b a agent mid now).1
  | ReorderHeld s r b a agent mid before now => (apply_reorder db s r b a agent mid before now).1
  | PromoteHeld s r b a agent mid facts now => (apply_promote db s r b a agent mid facts now).1
  | PurgeEdits now => (purge_queue_edits db now).1
  | ReplaceHeld rs s r c i e b n1 n2 n3 => (replace db rs s r c i e b n1 n2 n3).1.1
  | DispatchCliWake id => dispatch_cli_wake db id
  | FinalizeCliWake id r => finalize_cli_wake db id r
  | OutsideWrites rs c ps => outside_writes rs c ps db
  end.
Definition send_run (db : SendDb) (ops : list SendOp) : SendDb := fold_left send_step ops db.

Definition empty_sends (c : ControlDb) : SendDb := mkSendDb ∅ [] 1 [] ∅ ∅ [] [] ∅ c [].

Lemma empty_saga c : saga_ok (empty_sends c).
Proof. constructor; simpl; try done; try apply NoDup_nil_2; intros d Hd; by apply elem_of_nil in Hd. Qed.

Lemma step_saga db op : saga_ok db → saga_ok (send_step db op).
Proof.
  intros Hs. destruct op; simpl;
    first [by apply reserve_saga | by apply reject_saga | by apply capture_saga | by apply begin_saga | by apply link_saga
          | by apply reassign_saga | by apply adopt_saga | by apply redeliver_saga | by apply indeterminate_saga
          | by apply settle_expired_saga | by apply purge_saga | by apply acknowledge_saga | by apply settle_saga
          | by apply clear_gate_saga | by apply release_saga | by apply cancel_saga | by apply reorder_saga
          | by apply promote_saga | by apply orphan_saga | by apply replace_saga | by apply dispatch_cli_saga
          | by apply finalize_cli_saga | by eapply saga_same].
Qed.

Lemma run_saga db ops : saga_ok db → saga_ok (send_run db ops).
Proof. revert db. induction ops as [|op ops IH]; intros db Hs; simpl; [done|]. apply IH. by apply step_saga. Qed.

(** C5: whatever sequence of operations the daemon runs on an empty base, the
    tables agree.  Delivery identifiers, keys and ranks are unique; every
    delivery has a record, terminal with the result of its phase when it is
    acknowledged, orphaned or removed, dispatching while it is held, in flight or
    indeterminate, except for a wake of the command line, whose record the tick
    may have closed already; a held delivery decodes and is not gated; a gate is
    on a delivery in flight or acknowledged. *)
Theorem saga_invariant c ops :
  let db := send_run (empty_sends c) ops in
  unique d_id db.(deliveries) ∧ unique delivery_key db.(deliveries) ∧ unique queue_rank db.(deliveries) ∧
  Forall (row_ok db.(records)) db.(deliveries).
Proof.
  destruct (run_saga (empty_sends c) ops (empty_saga c)) as [Hi Hk Hr _ _ Hrow].
  split_and!; try done. by apply Forall_forall.
Qed.

(** A record that is closed while its delivery is live is that of a wake of the
    command line. *)
Lemma closed_cli db d : saga_ok db → d ∈ db.(deliveries) → live d = true → record_closed db d = true → d.(d_scope) = CLI_WAKE_SCOPE.
Proof. intros Hs Hd Hl Hc. destruct (live_record db d Hs Hd Hl) as (r & _ & Hr). rewrite Hc in Hr. by destruct Hr. Qed.


(** ** What a delivery becomes *)

(** A held delivery may be released, removed or orphaned; one in flight may be
    acknowledged, become indeterminate or be orphaned; the other phases are final. *)
Definition reaches (p q : DeliveryPhase) : bool :=
  match p, q with
  | DHeld, _ => true
  | DDispatching, (DDispatching | DAcked | DIndeterminate | DOrphaned) => true
  | _, _ => bool_decide (p = q)
  end.

Lemma reaches_refl p : reaches p p = true.
Proof. by destruct p. Qed.
Lemma reaches_trans p q r : reaches p q = true → reaches q r = true → reaches p r = true.
Proof. by destruct p, q, r. Qed.

(** The envelope of a delivery later: the same bytes, or those of the same message
    with another body, written while the delivery was held. *)
Definition same_envelope (x y : Delivery) : Prop :=
  y.(d_bytes) = x.(d_bytes) ∨
  x.(d_phase) = DHeld ∧ ∃ b b' m s, x.(d_bytes) = Some b ∧ y.(d_bytes) = Some b' ∧ decode b = Some m ∧ decode b' = Some (with_body s m).

(** The same delivery later: its identity, its envelope and its expiry. *)
Definition later (x y : Delivery) : Prop :=
  y.(d_id) = x.(d_id) ∧ delivery_key y = delivery_key x ∧ y.(d_generation) = x.(d_generation) ∧
  y.(d_expires_at) = x.(d_expires_at) ∧ same_envelope x y ∧ y.(d_agent) = x.(d_agent) ∧
  reaches x.(d_phase) y.(d_phase) = true.

Lemma reaches_held p : reaches p DHeld = true → p = DHeld.
Proof. by destruct p. Qed.

Lemma same_envelope_trans x y z :
  reaches x.(d_phase) y.(d_phase) = true → same_envelope x y → same_envelope y z → same_envelope x z.
Proof.
  intros Hr [Hxy|(Hx & b & b' & m & s & Hb & Hb' & Hm & Hm')] [Hyz|(Hy & c & c' & n & t & Hc & Hc' & Hn & Hn')].
  - left. congruence.
  - right. rewrite Hy in Hr. split; [by apply reaches_held|]. exists c, c', n, t. split_and!; congruence.
  - right. split; [done|]. exists b, b', m, s. split_and!; congruence.
  - right. split; [done|]. exists b, c', m, t. split_and!; try done. rewrite Hn'. assert (n = with_body s m) as -> by congruence. done.
Qed.

#[local] Instance later_preorder : PreOrder later.
Proof.
  split.
  - intros x. split_and!; try done; [by left|]. apply reaches_refl.
  - intros x y z (H1 & H2 & H3 & H4 & H5 & H6 & H7) (K1 & K2 & K3 & K4 & K5 & K6 & K7).
    split_and!; try congruence; [by eapply same_envelope_trans|]. by eapply reaches_trans.
Qed.

(** Every row goes on, and every other row is a new delivery in its first phase. *)
Definition goes_on (db db' : SendDb) : Prop :=
  (∀ x, x ∈ db.(deliveries) → ∃ y, y ∈ db'.(deliveries) ∧ later x y) ∧
  (∀ y, y ∈ db'.(deliveries) → (∃ x, x ∈ db.(deliveries) ∧ later x y) ∨
     (∀ x, x ∈ db.(deliveries) → x.(d_id) ≠ y.(d_id)) ∧ (y.(d_phase) = DHeld ∨ y.(d_phase) = DDispatching)).

Lemma goes_on_same db db' : db'.(deliveries) = db.(deliveries) → goes_on db db'.
Proof. intros Hd. split; rewrite Hd; intros x Hx; [|left]; by exists x. Qed.

Lemma goes_on_fmap db db' f :
  db'.(deliveries) = f <$> db.(deliveries) → (∀ x, x ∈ db.(deliveries) → later x (f x)) → goes_on db db'.
Proof.
  intros Hd Hf. split; rewrite Hd.
  - intros x Hx. exists (f x). split; [by apply list_elem_of_fmap_2|auto].
  - intros y (x & -> & Hx)%list_elem_of_fmap. left. eauto.
Qed.

Lemma goes_on_update db db' p g :
  db'.(deliveries) = update p g db.(deliveries) → (∀ x, x ∈ db.(deliveries) → p x = true → later x (g x)) → goes_on db db'.
Proof.
  intros Hd Hg. eapply goes_on_fmap; [exact Hd|]. intros x Hx. simpl. destruct (p x) eqn:Hp; [by apply Hg|done].
Qed.

Lemma goes_on_trans db1 db2 db3 :
  (∀ y, y ∈ db2.(deliveries) → ∃ x, x ∈ db1.(deliveries) ∧ later x y) → goes_on db1 db2 → goes_on db2 db3 → goes_on db1 db3.
Proof.
  intros Hold [H1 _] [K1 K2]. split.
  - intros x Hx. destruct (H1 x Hx) as (y & Hy & Hxy). destruct (K1 y Hy) as (z & Hz & Hyz). exists z. split; [done|].
    by etransitivity.
  - intros z Hz. destruct (K2 z Hz) as [(y & Hy & Hyz)|[Hn Hp]].
    + destruct (Hold y Hy) as (x & Hx & Hxy). left. exists x. split; [done|]. by etransitivity.
    + right. split; [|done]. intros x Hx. destruct (H1 x Hx) as (y & Hy & Hxy). rewrite <-(proj1 Hxy). by apply Hn.
Qed.

Lemma commit_goes_on {X} db (r : result IdempotencyError (SendDb * X)) :
  (∀ db' x, r = Ok (db', x) → goes_on db db') → goes_on db (commit db r).1.
Proof. intros Hr. destruct r as [[db' x]|e]; simpl; [by eapply Hr|by apply goes_on_same]. Qed.

(** A change of phase that [reaches] allows. *)
Lemma later_phase x p gate : reaches x.(d_phase) p = true → later x (with_phase p gate x).
Proof. intros Hr. split_and!; try done. by left. Qed.

Lemma phase_goes_on db q p gate :
  (∀ x, q x = true → reaches x.(d_phase) p = true) →
  goes_on db (set_deliveries (update q (with_phase p gate) db.(deliveries)) db).
Proof. intros Hq. eapply goes_on_update; [done|]. intros x _ Hx. by apply later_phase, Hq. Qed.

Lemma settle_goes_on i reason now db db' o :
  saga_ok db → settle_held_in_transaction i reason now db = Ok (db', o) → goes_on db db'.
Proof.
  intros Hs Heq. pose proof (settle_held_cases i reason now db Hs) as Hc. rewrite Heq in Hc.
  destruct o as [n|]; [|subst db'; by apply goes_on_same]. destruct Hc as (_ & _ & Hd & _).
  eapply goes_on_update; [exact Hd|]. intros x _ [_ Hp%in_phase_true]%andb_true_iff. apply later_phase. by rewrite Hp.
Qed.

Lemma dispatch_goes_on d p db db' s :
  (∀ x, p x = true → x.(d_phase) = DHeld) → dispatch_held d p db = Ok (db', s) → goes_on db db'.
Proof.
  intros Hp. unfold dispatch_held. destruct (negb _); [done|]. intros (s' & _ & [= <- <-])%bind_Ok.
  apply phase_goes_on. intros x Hx. by rewrite (Hp x Hx).
Qed.

Lemma begin_goes_on db k sd tracking link g cap held now :
  goes_on db (begin_send_delivery_with_guidance db k sd tracking link g cap held now).1.
Proof.
  destruct (begin_send_delivery_with_guidance db k sd tracking link g cap held now) as [db' [[]|e]] eqn:Hb.
  2: { apply goes_on_same. unfold begin_send_delivery_with_guidance, commit in Hb.
       by destruct (if negb _ then _ else _) as [[? ?]|?]; simplify_eq. }
  apply begin_Ok in Hb as (m & row & d & _ & _ & _ & _ & Hd & _ & Hdel & _ & _ & Hnew). simpl. split; rewrite Hdel.
  - intros x Hx. exists x. split; [set_solver|done].
  - intros y [Hy|Hy%list_elem_of_singleton]%elem_of_app; [left; by exists y|right]. subst y. split; [intros x Hx; by apply Hnew|].
    rewrite Hd. simpl. destruct (is_some held); auto.
Qed.

Lemma ack_goes_on db i inst generation now :
  saga_ok db → goes_on db (acknowledge_send_delivery_at db i inst generation now).1.
Proof.
  intros Hs. destruct (acknowledge_send_delivery_at db i inst generation now) as [db' [o|e]] eqn:Ha.
  2: { apply goes_on_same. unfold acknowledge_send_delivery_at, commit in Ha. by destruct (_ ≫= _) as [[? ?]|?]; simplify_eq. }
  destruct (ack_cases db i inst generation now db' o Hs Ha) as [->|[_ Hd]]; [by apply goes_on_same|].
  eapply goes_on_update; [exact Hd|]. intros x _ [_ Hp%in_phase_true]%andb_true_iff. split_and!; try done; [by left|]. by rewrite Hp.
Qed.

Lemma release_goes_on db agent now : saga_ok db → goes_on db (release_next_held db agent now).1.
Proof.
  intros Hs. unfold release_next_held. destruct (_ || pending_pause _ _); [by apply goes_on_same|].
  set (db1 := set_deliveries _ db). destruct (exists_row (gated_for agent) _); [by apply goes_on_same|]. apply commit_goes_on.
  assert (saga_ok db1) as Hs1 by by apply stale_gate_saga.
  assert (∀ x, later x (with_gate false x)) as Hgate by (intros x; apply later_phase, reaches_refl).
  assert (goes_on db db1) as H1 by (eapply goes_on_update; [done|]; intros x _ _; apply Hgate).
  assert (∀ db', goes_on db1 db' → goes_on db db') as Ht.
  { intros db'. apply goes_on_trans; [|done]. intros y (x & Hx & ->)%update_elem. exists x. split; [done|].
    destruct (stale_gate agent now x); [apply Hgate|done]. }
  intros db' x. destruct (next_held db1 agent) as [[d r]|]; [|by intros [= <- _]].
  intros H0. apply bind_Ok in H0 as (_ & _ & H0). destruct (exists_row _ _); [done|].
  apply bind_Ok in H0 as (m & _ & H0). apply Ht. destruct (settlement_reason _ _ _ _ _) as [reason|].
  - apply bind_Ok in H0 as ([db2 n] & Hset & [= <- _]). by eapply settle_goes_on.
  - apply bind_Ok in H0 as ([db2 s] & Hdis & [= <- _]). eapply dispatch_goes_on; [|exact Hdis].
    intros y [[_ Hy]%andb_true_iff _]%andb_true_iff. by apply in_phase_true.
Qed.

Lemma edit_goes_on {T} db scope rid bytes action actor now (apply : SendDb → result IdempotencyError (SendDb * Decision T)) :
  (∀ db' dc, apply db = Ok (db', dc) → goes_on db db') →
  goes_on db (queue_edit_once db scope rid bytes action actor now apply).1.
Proof.
  intros Ha. destruct (queue_edit_cases db scope rid bytes action actor now apply) as [(Hd & _)|(db' & dc & Hap & Hd & _)].
  - by apply goes_on_same.
  - destruct (Ha _ _ Hap) as [H1 H2]. split; by rewrite Hd.
Qed.

Lemma cancel_goes_on db scope rid bytes actor agent mid now :
  saga_ok db → goes_on db (apply_cancel db scope rid bytes actor agent mid now).1.
Proof.
  intros Hs. apply edit_goes_on. intros db' dc H0. unfold cancel_edit in H0.
  apply bind_Ok in H0 as ([i|] & _ & H0); [|simplify_eq; by apply goes_on_same].
  apply bind_Ok in H0 as ([db1 n] & Hset & H0). apply bind_Ok in H0 as (n' & _ & [= <- _]). by eapply settle_goes_on.
Qed.

Lemma reorder_goes_on db scope rid bytes actor agent mid before now :
  saga_ok db → goes_on db (apply_reorder db scope rid bytes actor agent mid before now).1.
Proof.
  intros Hs. apply edit_goes_on. intros db' dc H0.
  destruct (reorder_edit_rows db agent mid before Hs _ _ H0) as (f & Hf & Hr). apply (goes_on_fmap _ _ f); [done|].
  intros x _. destruct (Hr x) as [r ->]. split_and!; try done; [by left|]. apply reaches_refl.
Qed.

Lemma promote_goes_on db scope rid bytes actor agent mid facts now :
  saga_ok db → goes_on db (apply_promote db scope rid bytes actor agent mid facts now).1.
Proof.
  intros Hs. unfold apply_promote. destruct (authorize _); [|by apply goes_on_same]. apply edit_goes_on. intros db' dc H0.
  unfold promote_edit in H0. apply bind_Ok in H0 as ([i|] & _ & H0); [|simplify_eq; by apply goes_on_same].
  apply bind_Ok in H0 as ([d r] & _ & H0). apply bind_Ok in H0 as (_ & _ & H0). apply bind_Ok in H0 as (m & _ & H0).
  destruct (settlement_reason _ _ _ _ _) as [reason|].
  - apply bind_Ok in H0 as ([db1 n] & Hset & H0). apply bind_Ok in H0 as (n' & _ & [= <- _]). by eapply settle_goes_on.
  - destruct (authorize_queue_edit _); [|simplify_eq; by apply goes_on_same].
    apply bind_Ok in H0 as ([db1 s] & Hdis & [= <- _]). eapply dispatch_goes_on; [|exact Hdis].
    intros y [[_ [_ Hy]%andb_true_iff]%andb_true_iff _]%andb_true_iff. by apply in_phase_true.
Qed.

Lemma replace_goes_on db rs issuer request canon i expected body now1 now2 now3 :
  saga_ok db → goes_on db (replace db rs issuer request canon i expected body now1 now2 now3).1.1.
Proof.
  intros Hs. unfold replace. destruct (rs !! _); [by apply goes_on_same|].
  destruct (replace_body db issuer i expected body now1) as [[db' answer]|e] eqn:Hr; [|by apply goes_on_same].
  destruct (replace_body_cases _ _ _ _ _ _ _ _ Hs Hr) as [[_ ->]|(_ & d & b & m & Hd & Hi & _ & Hp & _ & Hb & Hm & _ & _ & Hds)];
    [by apply goes_on_same|].
  eapply goes_on_update; [exact Hds|]. intros x Hx [Hxi%bool_decide_eq_true _]%andb_true_iff.
  assert (x = d) as -> by (apply (unique_eq d_id db.(deliveries)); [by destruct Hs|done..|congruence]).
  split_and!; try done; [|apply reaches_refl]. right. split; [done|]. exists b, (json_set_body b body), m, body.
  split_and!; try done. by apply decode_set_body.
Qed.

Definition is_purge (op : SendOp) : bool := match op with PurgeSends _ _ => true | _ => false end.

(** Rows in flight become indeterminate, rows change instance or gate. *)
Lemma rows_goes_on db op :
  match op with Reassign _ _ _ | Adopt _ _ _ _ | Redeliver _ _ | Indeterminate _ _ _ | SettleExpired _ | ClearGate _ => True
           | _ => False end → goes_on db (send_step db op).
Proof.
  destruct op; simpl; try done; intros _.
  - unfold reassign_dispatching_deliveries. destruct (_ || _); [by apply goes_on_same|]. eapply goes_on_update; [done|].
    intros x _ _. split_and!; try done; [by left|]. apply reaches_refl.
  - unfold adopt_held_for_agent. destruct (_ || _); [by apply goes_on_same|]. eapply goes_on_update; [done|].
    intros x _ _. split_and!; try done; [by left|]. apply reaches_refl.
  - apply commit_goes_on. intros db' out Ho. apply bind_Ok in Ho as (l & _ & [= <- <-]). apply phase_goes_on.
    intros x [[_ Hp%in_phase_true]%andb_true_iff _]%andb_true_iff. by rewrite Hp.
  - apply phase_goes_on. intros x [_ Hp%in_phase_true]%andb_true_iff. by rewrite Hp.
  - apply phase_goes_on. intros x [Hp%in_phase_true _]%andb_true_iff. by rewrite Hp.
  - eapply goes_on_update; [done|]. intros x _ _. apply later_phase, reaches_refl.
Qed.

Lemma step_goes_on db op : saga_ok db → is_purge op = false → goes_on db (send_step db op).
Proof.
  intros Hs Hop. destruct op; try done; try (by apply rows_goes_on); try (by apply goes_on_same); simpl.
  - apply goes_on_same. unfold capture. by destruct (transition _ _ _ _) as [? [?|?]].
  - apply begin_goes_on.
  - apply goes_on_same. unfold link_send_delivery. destruct (_ || _); [done|]. destruct (_ && _); [done|]. simpl.
    unfold insert_link. by destruct (exists_row _ _).
  - pose proof (orphan_cases db inst reason now Hs) as Hc.
    destruct (orphan_dispatching_for_instance db inst reason now) as [db' [ns|e]]; [|destruct Hc as [-> _]; by apply goes_on_same].
    destruct Hc as (_ & _ & _ & Hd). eapply goes_on_update; [exact Hd|].
    intros x _ [_ Hl]%andb_true_iff. apply later_phase. unfold live in Hl. rewrite orb_true_iff, !in_phase_true in Hl.
    by destruct Hl as [-> | ->].
  - by apply ack_goes_on.
  - apply commit_goes_on. intros db' o Ho. by eapply settle_goes_on.
  - by apply release_goes_on.
  - by apply cancel_goes_on.
  - by apply reorder_goes_on.
  - by apply promote_goes_on.
  - by apply replace_goes_on.
Qed.

(** C9: what becomes of a delivery.  On a base the daemon can reach, as long as
    the expired sends are not purged, a delivery stays in the table with its
    key, its generation, its agent, its expiry and its envelope, of which only
    the body may be corrected, and only while it is held; a held one may be put
    in flight, removed or orphaned, one in flight may be acknowledged, become
    indeterminate or be orphaned, and these four phases are final. *)
Theorem delivery_history c before ops d :
  let db := send_run (empty_sends c) before in
  d ∈ db.(deliveries) → forallb (λ op, negb (is_purge op)) ops = true →
  ∃ d', d' ∈ (send_run db ops).(deliveries) ∧ later d d' ∧
    (∀ d2, d2 ∈ (send_run db ops).(deliveries) → d2.(d_id) = d.(d_id) → d2 = d').
Proof.
  intros db. assert (saga_ok db) as Hs by apply run_saga, empty_saga. clearbody db. revert db d Hs.
  induction ops as [|op ops IH]; intros db d Hs Hd Hp; simpl in Hp |- *.
  - exists d. split_and!; [done..|]. intros d2 Hd2 Heq. apply (unique_eq d_id db.(deliveries)); try done. by destruct Hs.
  - apply andb_true_iff in Hp as [Hop%negb_true_iff Hp]. destruct (step_goes_on db op Hs Hop) as [Hon _].
    destruct (Hon d Hd) as (d1 & Hd1 & Hl1).
    destruct (IH (send_step db op) d1 (step_saga db op Hs) Hd1 Hp) as (d' & Hd' & Hl & Hu).
    exists d'. split_and!; [done|by etransitivity|]. intros d2 Hd2 Heq. apply Hu; [done|]. by rewrite (proj1 Hl1).
Qed.

(** ** Releases *)

Lemma select_update {R} (p q : R → bool) g (t : list R) :
  (∀ x, x ∈ t → q x = true → p x = false ∧ p (g x) = false) → select p (update q g t) = select p t.
Proof.
  induction t as [|x t IH]; intros Hx; [done|]. cbn. unfold select, update in IH. rewrite IH by (intros; apply Hx; set_solver).
  destruct (q x) eqn:Hq; [|done]. destruct (Hx x) as [-> ->]; [set_solver|done|]. done.
Qed.

(** Every delivery has its record, so the queue is all that is held. *)
Lemma next_held_head db agent d r :
  saga_ok db → next_held db agent = Some (d, r) → head (held_queue db agent) = Some d ∧ record_of db d = Some r.
Proof.
  intros Hs H0. apply bind_Some in H0 as (d' & Hd & H0). apply bind_Some in H0 as (r' & Hr & [= -> ->]). split; [|done].
  rewrite <-Hd. unfold held_queue. f_equal. f_equal. symmetry. rewrite select_and. apply select_all.
  intros x [Hx _]%select_elem. apply bool_decide_eq_true_2. destruct (sg_row db Hs x Hx) as ((rx & Hrx & _) & _). by exists rx.
Qed.

Lemma stale_gate_queue db agent now agent' :
  saga_ok db →
  held_queue (set_deliveries (update (stale_gate agent now) (with_gate false) db.(deliveries)) db) agent' = held_queue db agent'.
Proof.
  intros Hs. unfold held_queue. simpl. f_equal. apply select_update. intros x Hx.
  unfold stale_gate. rewrite !andb_true_iff. intros [[_ Hp%in_phase_true] _]. unfold held_for, in_phase. simpl.
  rewrite bool_decide_eq_false_2 with (P := d_phase x = DHeld) by (by rewrite Hp). by rewrite andb_false_r.
Qed.

(** A release that gives a delivery: what it saw and what it wrote. *)
Lemma release_given db agent now db' s n :
  saga_ok db → release_next_held db agent now = (db', Ok (Some s, n)) →
  ∃ d m, head (held_queue db agent) = Some d ∧ s.(sd_id) = d.(d_id) ∧ n = None ∧ to_send d = Some s ∧
    pending_pause db agent = false ∧ admit_autonomous_effect HeldRelease (read db.(control)) = EffectAdmitted ∧
    (∀ x, x ∈ db.(deliveries) → gated_for agent x = true → stale_gate agent now x = true) ∧
    (b ← d.(d_bytes); decode b) = Some m ∧ now < d.(d_expires_at) ∧ (m.(reply) = true → request_open db m now = true) ∧
    db'.(deliveries) = update (by_delivery d.(d_id)) (with_phase DDispatching true)
      (update (stale_gate agent now) (with_gate false) db.(deliveries)).
Proof.
  intros Hs. unfold release_next_held.
  destruct (admit_autonomous_effect HeldRelease _) eqn:Hadm; [|done]. simpl.
  destruct (pending_pause db agent) eqn:Hpause; [done|]. set (db1 := set_deliveries _ db).
  assert (saga_ok db1) as Hs1 by by apply stale_gate_saga.
  destruct (exists_row (gated_for agent) _) eqn:Hg; [done|]. intros H0%commit_Ok.
  destruct (next_held db1 agent) as [[d r]|] eqn:Hn; [|done]. apply next_held_head in Hn as [Hhead Hr]; [|done].
  apply bind_Ok in H0 as (s1 & Hs1' & H0). destruct (exists_row _ (exec_links db)); [done|].
  apply bind_Ok in H0 as (m & Hm%ok_or_Ok & H0). destruct (settlement_reason _ _ _ _ _) as [reason|] eqn:Hreason.
  { by apply bind_Ok in H0 as ([db2 n2] & _ & ?). }
  apply bind_Ok in H0 as ([db2 s2] & Hdis & H0). simplify_eq. unfold dispatch_held in Hdis.
  destruct (negb _) eqn:Hone; [done|]. apply bind_Ok in Hdis as (s3 & Hs3%ok_or_Ok & Hdis). simplify_eq.
  assert (d ∈ held_queue db1 agent) as Hin by (destruct (held_queue db1 agent); simplify_eq/=; left).
  unfold settlement_reason in Hreason. destruct (_ || _) eqn:Hexp; [done|]. apply orb_false_iff in Hexp as [Hexp _].
  pose proof Hin as Hin'. apply held_queue_elem in Hin' as [Hd1 Hheld].
  exists d, m. split_and!; try done.
  - rewrite <-Hhead. unfold db1. by rewrite stale_gate_queue.
  - apply bind_Some in Hs3 as (b & Hb & [= <-]). done.
  - intros x Hx Hgx. rewrite exists_row_false in Hg. destruct (stale_gate agent now x) eqn:Hst; [done|].
    rewrite (Hg x) in Hgx; [done|]. simpl. apply update_elem. exists x. by rewrite Hst.
  - lia.
  - intros Hrep. rewrite Hrep in Hreason. by destruct (request_open db1 m now) eqn:Ho.
  - simpl. apply update_ext. intros x Hx. destruct (by_delivery (d_id d) x) eqn:Hb; [|done]. simpl.
    assert (x = d) as ->.
    { apply bool_decide_eq_true in Hb. apply (unique_eq d_id db1.(deliveries)); try done. by destruct Hs1. }
    apply andb_true_iff in Hheld as [_ Hph]. rewrite Hph. apply in_phase_true in Hph.
    destruct (sg_row db1 Hs1 d Hd1) as (_ & Hh & _). destruct (Hh Hph) as [-> _]. done.
Qed.

(** The held queue of an agent gives one turn at a time, in order.  On a base
    the daemon can reach, the delivery that a release gives is the first of the
    queue by rank, unexpired and, for a request, still open; the control plane
    and the pauses allowed it, and no turn gated the agent unless it was
    acknowledged more than thirty seconds ago.  The delivery is then in flight
    and gates the agent: until something concludes or clears it, the next
    release gives nothing and changes nothing. *)
Lemma release_one_at_a_time c ops agent now db' s n :
  let db := send_run (empty_sends c) ops in
  release_next_held db agent now = (db', Ok (Some s, n)) →
  (∃ d m, head (held_queue db agent) = Some d ∧ to_send d = Some s ∧ n = None ∧ now < d.(d_expires_at) ∧
    (b ← d.(d_bytes); decode b) = Some m ∧ (m.(reply) = true → request_open db m now = true) ∧
    (∃ d', d' ∈ db'.(deliveries) ∧ d'.(d_id) = d.(d_id) ∧ d'.(d_phase) = DDispatching ∧ d'.(turn_gate) = true)) ∧
  pending_pause db agent = false ∧ admit_autonomous_effect HeldRelease (read db.(control)) = EffectAdmitted ∧
  (∀ x, x ∈ db.(deliveries) → gated_for agent x = true → stale_gate agent now x = true) ∧
  (∀ later_now, release_next_held db' agent later_now = (db', Ok (None, None))).
Proof.
  intros db Hrel. assert (saga_ok db) as Hs by apply run_saga, empty_saga. clearbody db.
  destruct (release_given db agent now db' s n Hs Hrel) as (d & m & Hh & Hid & Hn & Hsd & Hp & Ha & Hg & Hm & Hexp & Hreq & Hds).
  assert (d ∈ held_queue db agent) as Hin by (destruct (held_queue db agent); simplify_eq/=; left).
  apply held_queue_elem in Hin as [Hd Hheld]. apply andb_true_iff in Hheld as [Hagent Hph%in_phase_true].
  assert (with_phase DDispatching true d ∈ db'.(deliveries)) as Hd'.
  { rewrite Hds. apply update_elem. exists d. split; [|unfold by_delivery; by rewrite bool_decide_eq_true_2].
    apply update_elem. exists d. split; [done|]. unfold stale_gate, in_phase. rewrite Hph.
    by rewrite andb_false_r. }
  split_and!; [|done..|].
  { exists d, m. split_and!; try done. eauto. }
  intros now'. unfold release_next_held. destruct (_ || pending_pause db' agent); [done|].
  rewrite (proj2 (exists_row_true (gated_for agent) _)); [done|]. exists (with_phase DDispatching true d). split.
  - apply update_elem. exists (with_phase DDispatching true d). split; [done|]. unfold stale_gate, in_phase. simpl.
    by rewrite andb_false_r.
  - unfold gated_for. simpl. by rewrite Hagent.
Qed.

(** ** Replays of an edit *)

(** An edit of the queue runs once.  Whatever its callback, once an edit was
    answered, asking it again under the same scope and request identifier with
    the same bytes and action gives the same receipt, without an effect nor a
    notice, and changes nothing, whoever asks and whatever the callback would do
    now; with other bytes or for another action it is refused as a mismatch. *)
Lemma queue_edit_once_replayed {T} db scope rid bytes action actor now db1 rc effect notice
    (apply apply' : SendDb → result IdempotencyError (SendDb * Decision T)) actor' now' bytes' action' :
  queue_edit_once db scope rid bytes action actor now apply = (db1, Ok (rc, effect, notice)) →
  is_Some (i64_checked_add now' QUEUE_EDIT_RETENTION_SECS) →
  queue_edit_once db1 scope rid bytes action actor' now' apply' = (db1, Ok (rc, None, None)) ∧
  (db.(queue_edits) !! (scope, rid) = None → validate_canonical_bytes bytes' = Ok () → bytes' ≠ bytes ∨ action' ≠ action →
   queue_edit_once db1 scope rid bytes' action' actor' now' apply' =
     (db1, Ok (mkReceipt Refused (Some "envelope_mismatch") false, None, None))).
Proof.
  intros H0%commit_Ok [e' He']. apply bind_Ok in H0 as ([] & H1 & H0). apply bind_Ok in H0 as ([] & H2 & H0).
  apply bind_Ok in H0 as ([] & H3 & H0). apply bind_Ok in H0 as (e & _ & H0). unfold queue_edit_once.
  rewrite H1, H2, H3, He'. simpl. destruct (queue_edits db !! (scope, rid)) as [q|] eqn:Hq.
  - assert (db1 = db) as ->.
    { destruct (_ || _); [by simplify_eq|]. destruct (bool_decide _); [by simplify_eq|]. destruct (bool_decide _); by simplify_eq. }
    split; [|done]. rewrite Hq. destruct (_ || _); [by simplify_eq|]. destruct (bool_decide _); [by simplify_eq|].
    destruct (bool_decide _); by simplify_eq.
  - apply bind_Ok in H0 as ([db2 dc] & _ & H0). apply bind_Ok in H0 as (y & Hy & H0).
    destruct y as [[[[db3 s] refusal] eff] nt]. injection H0 as <- <- _ _. simpl. rewrite lookup_insert_eq. simpl. split.
    + rewrite !bool_decide_eq_true_2 by done. simpl. by destruct s.
    + intros _ Hb' Hne. rewrite Hb'. simpl.
      assert (negb (bool_decide (bytes = bytes')) || negb (bool_decide (action_name action = action_name action')) = true) as ->; [|done].
      apply orb_true_iff. destruct Hne as [Hne|Hne]; [left|right]; apply negb_true_iff, bool_decide_eq_false_2; [congruence|].
      by destruct action, action'.
Qed.

End Runs.

(** ** A queue of two messages *)

Module SendExamples.

Definition envelope (i f : string) : BridgetMessage :=
  mkMessage None i f None None "carol" "?" false 4 None None None false None None [] None None.

(** A reader of envelopes [e1], [e2] and [e3], whose body may follow a colon. *)
Definition sender_of (n : ascii) : option string :=
  if bool_decide (n = "2"%char) then Some "bob" else if bool_decide (n ∈ ["1"%char; "3"%char]) then Some "alice" else None.
Definition small_decode (b : string) : option BridgetMessage :=
  match b with
  | String "e" (String n rest) =>
    who ← sender_of n;
    body ← match rest with EmptyString => Some "?" | String ":" s => Some s | _ => None end;
    Some (with_body body (envelope (String "m" (String n "")) who))
  | _ => None
  end.
Definition small_set_body (b s : string) : string :=
  match b with String e (String n _) => String e (String n (String ":" s)) | _ => b end.
Definition small_text (b f : string) : option (option string) :=
  m ← small_decode b;
  Some (if bool_decide (f = "body") then Some m.(body) else if bool_decide (f = "id") then Some m.(id)
        else if bool_decide (f = "to") then Some m.(to) else None).

Lemma small_decode_Some b m :
  small_decode b = Some m →
  ∃ n rest who body, b = String "e" (String n rest) ∧ sender_of n = Some who ∧ m = with_body body (envelope (String "m" (String n "")) who).
Proof.
  intros Hd. destruct b as [|e b]; [done|]. destruct (decide (e = "e"%char)) as [->|He].
  - destruct b as [|n rest]; [done|]. cbn [small_decode] in Hd. apply bind_Some in Hd as (who & Hw & Hd).
    apply bind_Some in Hd as (body & _ & [= <-]). by exists n, rest, who, body.
  - exfalso. by destruct e as [[] [] [] [] [] [] [] []].
Qed.
Lemma small_decode_set_body b s m : small_decode b = Some m → small_decode (small_set_body b s) = Some (with_body s m).
Proof. intros (n & rest & who & body & -> & Hw & ->)%small_decode_Some. cbn. by rewrite Hw. Qed.

#[local] Instance small_codec : EnvelopeCodec := {|
  decode := small_decode;
  json_id b := match small_decode b with Some m => Ok (Some m.(id)) | None => Err "malformed JSON" end;
  json_notice b := false;
  json_text := small_text;
  json_set_body := small_set_body;
  body_digest s := s +:+ "#";
  decode_set_body := small_decode_set_body |}.
#[local] Instance small_laws : EnvelopeLaws small_codec.
Proof.
  split; cbn; intros b m Hm; [by rewrite Hm|by unfold small_text; rewrite Hm|].
  by apply small_decode_Some in Hm as (n & rest & who & body & _ & _ & ->).
Qed.

Definition scope : string := "scope-0123456789abcdef".
Definition key_of (n : string) : IdempotencyKey := mkKey scope Send n.
Definition sending (n : string) (held : option string) : list SendOp :=
  [ReserveKey (mkReserve (key_of n) ("e" +:+ n) 100 3600 100 5);
   Begin (key_of n) (mkSend ("d" +:+ n) "inst-c" 1 3700 ("e" +:+ n)) None None None None held 100].
(** One message in flight, two held. *)
Definition three_sends : list SendOp := sending "1" None ++ sending "2" (Some "carol") ++ sending "3" (Some "carol").
Definition three : SendDb := send_run (empty_sends fresh) three_sends.

Example three_rows :
  (λ d, (d.(queue_rank), d.(d_id), d.(d_phase))) <$> three.(deliveries) =
    [(1, "d1", DDispatching); (2, "d2", DHeld); (3, "d3", DHeld)].
Proof. vm_compute. reflexivity. Qed.

(** The last held message is moved first, released, and gates the agent. *)
Definition moved : SendDb := send_step three (ReorderHeld scope "edit-1" "b" "alice" "carol" "m3" (Some "m2") 110).
Example moved_rows : d_id <$> held_queue moved "carol" = ["d3"; "d2"].
Proof. vm_compute. reflexivity. Qed.
Example released :
  (release_next_held moved "carol" 120).2 = Ok (Some (mkSend "d3" "inst-c" 1 3700 "e3"), None) ∧
  (release_next_held (release_next_held moved "carol" 120).1 "carol" 5000).2 = Ok (None, None).
Proof. vm_compute. done. Qed.

Lemma three_saga : saga_ok three.
Proof. apply run_saga, empty_saga. Qed.

Definition held_row_of (r : Z) (n : string) : Delivery :=
  mkDelivery r ("d" +:+ n) scope n "inst-c" 1 DHeld 3700 (Some ("e" +:+ n)) "carol" false None.
Lemma three_named :
  sole (held_named three "carol" "m3") = Some (held_row_of 3 "3") ∧
  sole (held_named three "carol" "m2") = Some (held_row_of 2 "2") ∧ sole (held_named three "carol" "m1") = None.
Proof. vm_compute. done. Qed.

(** A message moved before another, one moved before a message that is not held. *)
Lemma reorder_exact_witness :
  (∃ db' dc, reorder_edit "carol" "m3" (Some "m2") three = Ok (db', dc) ∧
     moved_to "d3" (Some "d2") (d_id <$> held_queue three "carol") (d_id <$> held_queue db' "carol")) ∧
  (∃ db' dc, reorder_edit "carol" "m3" (Some "m1") three = Ok (db', dc) ∧ db' = three ∧ dc.(dc_effect) = inr ("not_held", None)).
Proof.
  destruct three_named as (H3 & H2 & H1). split.
  - destruct (reorder_exact three "carol" "m3" (Some "m2") three_saga) as (db' & dc & He & Hm). exists db', dc. split; [exact He|].
    rewrite H3, H2 in Hm. destruct Hm as (_ & Hm & _). exact Hm.
  - destruct (reorder_exact three "carol" "m3" (Some "m1") three_saga) as (db' & dc & He & Hm). exists db', dc. split; [exact He|].
    rewrite H3, H1 in Hm. exact Hm.
Defined.

Definition first_row : Delivery :=
  mkDelivery 1 "d1" scope "1" "inst-c" 1 DDispatching 3700 (Some "e1") "carol" false None.

(** Two messages in flight and two held: the tables and the rows. *)
Lemma saga_invariant_witness :
  length three.(deliveries) = 3%nat ∧ unique d_id three.(deliveries) ∧ Forall (row_ok three.(records)) three.(deliveries).
Proof.
  split; [vm_compute; reflexivity|]. destruct (saga_invariant fresh three_sends) as (H1 & _ & _ & H4). split; [exact H1|exact H4].
Defined.


(** A wake of the command line and another message, both in flight to the same
    instance.  Once the tick has closed the record of the wake, its
    acknowledgement is refused, and when the presence of the instance is purged
    neither delivery is orphaned: the emitter of the other message is not told. *)
Definition with_wake : list SendOp :=
  [ReserveKey (mkReserve (cli_wake_key "w1") "wake" 100 3600 100 5);
   Begin (cli_wake_key "w1") (mkSend "d0" "inst-c" 1 3700 "e3") None None None None None 100] ++ sending "1" None.
Definition wake_closed : SendDb :=
  send_run (empty_sends fresh) (with_wake ++ [FinalizeCliWake "w1" (ResultOrphaned "outcome_unknown")]).
Example closed_wake_blocks :
  (acknowledge_send_delivery_at wake_closed "d0" "inst-c" 1 130).2 = Err DispatchUnavailable ∧
  (orphan_dispatching_for_instance wake_closed "inst-c" "gone" 130).2 = Err DispatchUnavailable ∧
  match (orphan_dispatching_for_instance (send_run (empty_sends fresh) with_wake) "inst-c" "gone" 130).2 with
  | Ok ns => on_delivery_id <$> ns | Err _ => [] end = ["d0"; "d1"].
Proof. split_and!; vm_compute; reflexivity. Qed.

(** The body of a held message is corrected: the message released is the new one. *)
Definition corrected : SendDb := send_step three (ReplaceHeld ∅ scope "edit-3" "c" "d2" "?#" "nouveau" 110 110 110).
Example corrected_rows :
  d_bytes <$> corrected.(deliveries) = [Some "e1"; Some "e2:nouveau"; Some "e3"] ∧
  (replace three ∅ scope "edit-3" "c" "d2" "autre#" "nouveau" 110 110 110).2 = Some (ReplaceRefused "queue_changed") ∧
  (replace three ∅ scope "edit-3" "c" "d1" "?#" "nouveau" 110 110 110).2 = Some (ReplaceRefused "not_held").
Proof. split_and!; vm_compute; reflexivity. Qed.

Lemma delivery_history_witness :
  ∃ d', d' ∈ (send_run three [Acknowledge "d1" "inst-c" 1 130; Release "carol" 140]).(deliveries) ∧ later first_row d' ∧
    (∀ d2, d2 ∈ (send_run three [Acknowledge "d1" "inst-c" 1 130; Release "carol" 140]).(deliveries) →
       d2.(d_id) = first_row.(d_id) → d2 = d').
Proof.
  apply (delivery_history fresh three_sends [Acknowledge "d1" "inst-c" 1 130; Release "carol" 140] first_row);
    [vm_compute; left|reflexivity].
Defined.

Lemma with_answer {A B} (x : A * B) b : x.2 = b → x = (x.1, b).
Proof. intros <-. apply surjective_pairing. Qed.
Definition released_db : SendDb := (release_next_held (send_run (empty_sends fresh) three_sends) "carol" 120).1.
Definition second_send : SendDelivery := mkSend "d2" "inst-c" 1 3700 "e2".
Lemma release_three :
  release_next_held (send_run (empty_sends fresh) three_sends) "carol" 120 = (released_db, Ok (Some second_send, None)).
Proof. unfold released_db. apply with_answer. vm_compute. reflexivity. Qed.
Lemma release_one_at_a_time_witness :
  release_next_held released_db "carol" 5000 = (released_db, Ok (None, None)).
Proof.
  destruct (release_one_at_a_time fresh three_sends "carol" 120 released_db second_send None release_three) as (_ & _ & _ & _ & Hl).
  exact (Hl 5000).
Defined.

Definition cancel_once : SendDb * result IdempotencyError (QueueEditReceipt * option OrphanedDeliveryNotice * option OrphanedDeliveryNotice) :=
  queue_edit_once three scope "edit-2" "b" EditCancel "alice" 150 (cancel_edit "carol" "m2" 150).
Lemma cancel_once_ok :
  queue_edit_once three scope "edit-2" "b" EditCancel "alice" 150 (cancel_edit "carol" "m2" 150) =
  (cancel_once.1, Ok (mkReceipt Applied None false, Some (mkNotice "d2" "m2" "bob" "carol" "cancelled_in_queue"), None)).
Proof. unfold cancel_once. apply with_answer. vm_compute. reflexivity. Qed.
Lemma queue_edit_once_replayed_witness :
  queue_edit_once cancel_once.1 scope "edit-2" "b" EditCancel "bob" 160 (cancel_edit "carol" "m3" 160) =
    (cancel_once.1, Ok (mkReceipt Applied None false, None, None)).
Proof.
  assert (is_Some (i64_checked_add 160 QUEUE_EDIT_RETENTION_SECS)) as Hs by (eexists; vm_compute; reflexivity).
  destruct (queue_edit_once_replayed three scope "edit-2" "b" EditCancel "alice" 150 cancel_once.1
    (mkReceipt Applied None false) (Some (mkNotice "d2" "m2" "bob" "carol" "cancelled_in_queue")) None
    (cancel_edit "carol" "m2" 150) (cancel_edit "carol" "m3" 160) "bob" 160 "b" EditCancel cancel_once_ok Hs) as [Hr _].
  exact Hr.
Defined.

End SendExamples.
