(* ===== verification/SpawnCommands.v ===== *)
(** * SpawnCommands: [bridget-daemon/src/idempotency/spawn_commands.rs]

    The saga of an order of spawn: the record of its key and its row of
    [spawn_commands], from the request to the connection, the failure or the
    cancellation of the agent.  A transaction that returns an error changes
    nothing.  The readers of JSON are arguments. *)

From Stdlib Require Import Ascii.
From S2P Require Import Prelude Text Sql Idempotency AgentLinks.
Local Open Scope Z_scope.

Inductive SpawnCommandState := Requested | SpReserved | Starting | Connected | SpFailed | SpCancelled.
#[export] Instance SpawnCommandState_eq_dec : EqDecision SpawnCommandState.
Proof. solve_decision. Defined.

Definition spawn_as_str (s : SpawnCommandState) : string :=
  match s with
  | Requested => "requested" | SpReserved => "reserved" | Starting => "starting"
  | Connected => "connected" | SpFailed => "failed" | SpCancelled => "cancelled"
  end.
Definition spawn_from_str (value : string) : result IdempotencyError SpawnCommandState :=
  if bool_decide (value = "requested") then Ok Requested
  else if bool_decide (value = "reserved") then Ok SpReserved
  else if bool_decide (value = "starting") then Ok Starting
  else if bool_decide (value = "connected") then Ok Connected
  else if bool_decide (value = "failed") then Ok SpFailed
  else if bool_decide (value = "cancelled") then Ok SpCancelled
  else Err (CorruptRecord "état de commande spawn inconnu").
Definition spawn_is_terminal (s : SpawnCommandState) : bool :=
  match s with Connected | SpFailed | SpCancelled => true | _ => false end.

(** ** The placement of a remote agent *)

Record RemotePlacement := mkPlacement {
  rp_machine_id : string; rp_worker_id : string; rp_provisioning_revision : Z; rp_project_id : string;
  rp_mapping_revision : Z; rp_origin_host : string; rp_origin_cwd : string; rp_source_root_identity : string;
  rp_relative_cwd : string; rp_execution_cwd : string; rp_base_commit : option string;
  rp_definition_digest : string; rp_permission_digest : string }.
#[export] Instance RemotePlacement_eq_dec : EqDecision RemotePlacement.
Proof. solve_decision. Defined.

Definition MAX_WORKER_ATOM_BYTES : nat := 256.
Definition MAX_WORKER_PATH_BYTES : nat := 4096.
Definition HUMAN_LINEAGE_MAX_SEQ : Z := 9007199254740991.

Definition worker_atom (value : string) (max : nat) : bool :=
  negb (bool_decide (value = "")) && (String.length value <=? max)%nat
  && negb (existsb TextGuards.is_disallowed_control (Str.code_points value)).
Definition worker_revision (value : Z) : bool := (0 <? value) && (value <=? HUMAN_LINEAGE_MAX_SEQ).
Definition lower_hex (c : ascii) : bool := Str.is_ascii_digit c || ((97 <=? byte c) && (byte c <=? 102)).
Definition worker_digest (value : string) : bool := (String.length value =? 64)%nat && Str.all_bytes lower_hex value.

(** The components of a path of Unix: [Path::is_absolute] and [Component::ParentDir]. *)
Definition path_is_absolute (value : string) : bool := Str.starts_with "/" value.
Definition has_parent_dir (value : string) : bool := existsb (λ c, bool_decide (c = "..")) (Str.split "/" value).
Definition worker_absolute_path (value : string) : bool :=
  worker_atom value MAX_WORKER_PATH_BYTES && path_is_absolute value && negb (has_parent_dir value).
Definition worker_relative_path (value : string) : bool :=
  worker_atom value MAX_WORKER_PATH_BYTES && negb (path_is_absolute value) && negb (has_parent_dir value).
Definition worker_base_commit (value : option string) : bool :=
  is_none_or value (λ s, ((String.length s =? 40) || (String.length s =? 64))%nat && Str.all_bytes lower_hex s).

Definition placement_valid (p : RemotePlacement) : bool :=
  forallb (λ s, worker_atom s MAX_WORKER_ATOM_BYTES)
    [p.(rp_machine_id); p.(rp_worker_id); p.(rp_project_id); p.(rp_origin_host); p.(rp_source_root_identity)]
  && worker_revision p.(rp_provisioning_revision) && worker_revision p.(rp_mapping_revision)
  && worker_absolute_path p.(rp_origin_cwd) && worker_absolute_path p.(rp_execution_cwd)
  && worker_relative_path p.(rp_relative_cwd) && worker_base_commit p.(rp_base_commit)
  && worker_digest p.(rp_definition_digest) && worker_digest p.(rp_permission_digest).

(** ** The orders, and the readers of their canonical bytes *)

Inductive SpawnPosture := Discovery | Development.

Record SpawnOrder := mkOrder {
  so_posture : option SpawnPosture; so_agent_type : string; so_project : option ProjectReference;
  so_requested_name : option string; so_cwd : string; so_persistent : bool; so_command_id : string;
  so_issued_at : Z; so_deadline_at : Z; so_ownership : option SpawnOwnership;
  so_remote_placement : option RemotePlacement }.

Record HistoricalCanonicalSpawnOrder := mkHistorical {
  ho_command_id : string; ho_agent_type : string; ho_cwd : string; ho_persistent : bool;
  ho_project : option ProjectReference; ho_remote_placement : option RemotePlacement }.

(** [json_field] reads a text as JSON and takes the field [remote_placement]. *)
Class SpawnCodec := {
  Definition_ : Type;
  def_to_json : Definition_ → option string;
  def_from_json : string → option Definition_;
  json_field : string → option (option string);
  placement_from : string → option RemotePlacement;
  order_from : string → option SpawnOrder;
  historical_from : string → option HistoricalCanonicalSpawnOrder }.

(** A definition that was written is read back. *)
Class SpawnLaws (C : SpawnCodec) := {
  def_roundtrip d j : def_to_json d = Some j → def_from_json j = Some d }.

Definition is_ascii_whitespace (c : ascii) : bool :=
  (byte c =? 32) || (byte c =? 9) || (byte c =? 10) || (byte c =? 12) || (byte c =? 13).
Fixpoint first_byte (s : string) : option ascii :=
  match s with
  | EmptyString => None
  | String c s => if is_ascii_whitespace c then first_byte s else Some c
  end.

Record SpawnRow := mkSpawnRow {
  sp_name : string; sp_generation : Z; sp_persistent : bool; sp_state : string; sp_instance_id : option string;
  sp_deadline_at : Z; sp_expires_at : Z; sp_issue_kind : option string; sp_issue_category : option string;
  sp_issue_reason : option string; sp_definition_json : option string }.

Record SpawnDb := mkSpawnDb {
  sp_records : gmap (string * string * string) Row;
  sp_rows : gmap (string * string) SpawnRow }.

(** A parameter of 64 bits without sign is refused beyond the integers of SQLite. *)
Definition sql_u64 (v : Z) : result IdempotencyError Z :=
  if v <=? i64_max then Ok v else Err (Sqlite "out of range integral type conversion attempted").

Definition row_key (k : IdempotencyKey) : string * string := (k.(issuer_scope), k.(idempotency_key)).
Definition is_spawn (k : IdempotencyKey) : bool := match k.(operation_kind) with Spawn => true | Send => false end.

Section Spawn.
Context `{C : SpawnCodec}.

Inductive SpawnCommandIssue :=
  | IssueConnected (name : string) (generation : Z) (instance_id : string) (definition : option Definition_)
  | IssueFailed (category reason : string)
  | IssueCancelled (reason : string).

Record SpawnCommand := mkCommand {
  sc_command_id : string; sc_name : string; sc_generation : Z; sc_persistent : bool; sc_state : SpawnCommandState;
  sc_instance_id : option string; sc_deadline_at : Z; sc_expires_at : Z; sc_issue : option SpawnCommandIssue;
  sc_resolved_definition : option Definition_; sc_remote_placement : option RemotePlacement }.

Record HistoricalManagedSpawn := mkManaged {
  hm_agent_type : string; hm_cwd : string; hm_command_id : string; hm_generation : Z; hm_persistent : bool;
  hm_project : option ProjectReference; hm_resolved_definition : Definition_;
  hm_remote_placement : option RemotePlacement }.

Inductive SpawnReservation :=
  | SpawnRequested (c : SpawnCommand)
  | SpawnInFlight (c : SpawnCommand)
  | SpawnReplayed (i : SpawnCommandIssue)
  | SpawnMismatch
  | SpawnExpired.

Definition remote_placement_from_canonical (canonical : string) : result IdempotencyError (option RemotePlacement) :=
  let invalid := Err (CorruptRecord "placement canonique du spawn invalide") in
  if negb (bool_decide (first_byte canonical = Some "{"%char)) then Ok None
  else
    match json_field canonical with
    | None => invalid
    | Some None => Ok None
    | Some (Some v) =>
      match placement_from v with
      | None => invalid
      | Some p => if placement_valid p then Ok (Some p) else invalid
      end
    end.

(** An error of a reader becomes one of the database. *)
Definition to_sql_error {A} (r : result IdempotencyError A) : result IdempotencyError A :=
  map_err (λ e, match e with CorruptRecord w => Sqlite w | e => e end) r.
Definition corrupt {A} (what : string) : result IdempotencyError A := Err (Sqlite what).

(** The issue of a row, which its state must agree with. *)
Definition issue_of (row : SpawnRow) (state : SpawnCommandState) (definition : option Definition_)
    : result IdempotencyError (option SpawnCommandIssue) :=
  match row.(sp_issue_kind) with
  | None => if spawn_is_terminal state then corrupt "issue spawn incohérente" else Ok None
  | Some kind =>
    if bool_decide (kind = "connected") && bool_decide (state = Connected) then
      i ← ok_or row.(sp_instance_id) (Sqlite "instance spawn connectée absente");
      Ok (Some (IssueConnected row.(sp_name) row.(sp_generation) i definition))
    else if bool_decide (kind = "failed") && bool_decide (state = SpFailed) then
      category ← ok_or row.(sp_issue_category) (Sqlite "catégorie spawn absente");
      reason ← ok_or row.(sp_issue_reason) (Sqlite "motif spawn absent");
      Ok (Some (IssueFailed category reason))
    else if bool_decide (kind = "cancelled") && bool_decide (state = SpCancelled) then
      reason ← ok_or row.(sp_issue_reason) (Sqlite "motif annulation spawn absent");
      Ok (Some (IssueCancelled reason))
    else corrupt "issue spawn incohérente"
  end.

(** [canonical] is the column of the joined record. *)
Definition spawn_command_from_row (command_id : string) (row : SpawnRow) (canonical : option string)
    : result IdempotencyError SpawnCommand :=
  state ← to_sql_error (spawn_from_str row.(sp_state));
  canonical ← ok_or canonical (Sqlite "Invalid column type Null");
  placement ← to_sql_error (remote_placement_from_canonical canonical);
  definition ← match row.(sp_definition_json) with
               | None => Ok None
               | Some json => d ← ok_or (def_from_json json) (Sqlite "définition résolue du spawn invalide"); Ok (Some d)
               end;
  issue ← issue_of row state definition;
  Ok (mkCommand command_id row.(sp_name) row.(sp_generation) row.(sp_persistent) state row.(sp_instance_id)
        row.(sp_deadline_at) row.(sp_expires_at) issue definition placement).

Definition canonical_of (db : SpawnDb) (k : string * string) : option string :=
  canonical_bytes <$> db.(sp_records) !! (k.1, "spawn", k.2).

Definition load_spawn_command_from (db : SpawnDb) (k : IdempotencyKey) : result IdempotencyError (option SpawnCommand) :=
  match db.(sp_rows) !! row_key k with
  | None => Ok None
  | Some row => c ← spawn_command_from_row k.(idempotency_key) row (canonical_of db (row_key k)); Ok (Some c)
  end.

(** [Record::validate_spawn_issue]. *)
Definition validate_spawn_issue (r : Row) (issue : SpawnCommandIssue) : result IdempotencyError () :=
  let public kind category reason :=
    bool_decide (r.(public_result_kind) = Some kind) && bool_decide (r.(public_result_category) = category)
    && bool_decide (r.(public_result_reason) = reason) in
  ensure
    (match issue with
     | IssueConnected _ _ _ _ => public "accepted" None None
     | IssueFailed category reason => public "rejected" (Some category) (Some reason)
     | IssueCancelled reason => public "rejected" (Some "cancelled") (Some reason)
     end)
    (CorruptRecord "issue spawn incohérente avec le socle").

(** ** The writes *)

(** The arguments of [reserve_spawn]. *)
Record SpawnRequest := mkSpawnRequest {
  sr_key : IdempotencyKey; sr_bytes : string; sr_issued_at : Z; sr_horizon_secs : Z; sr_now : Z; sr_tolerance : Z;
  sr_name : string; sr_generation : Z; sr_persistent : bool; sr_deadline_at : Z; sr_instance_id : string }.

Definition reserve_valid (q : SpawnRequest) : bool :=
  is_spawn q.(sr_key) && negb (bool_decide (q.(sr_name) = "")) && negb (q.(sr_generation) =? 0)
  && (q.(sr_issued_at) <? q.(sr_deadline_at)) && negb (bool_decide (q.(sr_instance_id) = "")).

(** What a record that is already there answers. *)
Definition spawn_existing (db : SpawnDb) (q : SpawnRequest) (r : Rec) : result IdempotencyError SpawnReservation :=
  if r.(rec_row).(expires_at) <=? q.(sr_now) then Ok SpawnExpired
  else if negb (bool_decide (r.(rec_row).(canonical_bytes) = q.(sr_bytes))) then Ok SpawnMismatch
  else
    c ← load_spawn_command_from db q.(sr_key);
    c ← ok_or c (CorruptRecord "saga spawn absente");
    if bool_decide (r.(rec_state) = Terminal) then
      issue ← ok_or c.(sc_issue) (CorruptRecord "issue spawn terminale absente");
      _ ← validate_spawn_issue r.(rec_row) issue;
      Ok (SpawnReplayed issue)
    else if spawn_is_terminal c.(sc_state) then Err (CorruptRecord "saga terminale avec socle non terminal")
    else Ok (SpawnInFlight c).

Definition spawn_inserted (q : SpawnRequest) (e : Z) (db : SpawnDb) : SpawnDb :=
  mkSpawnDb
    (<[columns q.(sr_key) := mkRecordRow q.(sr_bytes) "prepared" None None None q.(sr_issued_at) e]> db.(sp_records))
    (<[row_key q.(sr_key) :=
       mkSpawnRow q.(sr_name) q.(sr_generation) q.(sr_persistent) "requested" (Some q.(sr_instance_id))
         q.(sr_deadline_at) e None None None None]> db.(sp_rows)).

Definition reserve_spawn (db : SpawnDb) (q : SpawnRequest) : SpawnDb * result IdempotencyError SpawnReservation :=
  let tx := λ r : result IdempotencyError (SpawnDb * SpawnReservation),
    match r with Ok (db', x) => (db', Ok x) | Err e => (db, Err e) end in
  tx (
    if negb (reserve_valid q) then Err InvalidSpawnCommand
    else
      _ ← validate_canonical_bytes q.(sr_bytes);
      placement ← remote_placement_from_canonical q.(sr_bytes);
      if i64_saturating_add q.(sr_now) (Z.max q.(sr_tolerance) 0) <? q.(sr_issued_at) then Err InvalidIssuedAt
      else
        r ← load_record db.(sp_records) q.(sr_key);
        match r with
        | Some r => x ← spawn_existing db q r; Ok (db, x)
        | None =>
          if q.(sr_horizon_secs) <=? 0 then Err InvalidHorizon
          else
            e ← ok_or (i64_checked_add q.(sr_issued_at) q.(sr_horizon_secs)) InvalidHorizon;
            if e <=? q.(sr_now) then Ok (db, SpawnExpired)
            else
              _ ← sql_u64 q.(sr_generation);
              (** The row of a key goes with its record. *)
              if is_some (db.(sp_rows) !! row_key q.(sr_key)) then Err (Sqlite "UNIQUE constraint failed")
              else
                Ok (spawn_inserted q e db,
                    SpawnRequested (mkCommand q.(sr_key).(idempotency_key) q.(sr_name) q.(sr_generation)
                      q.(sr_persistent) Requested (Some q.(sr_instance_id)) q.(sr_deadline_at) e None None placement))
        end).

(** An [UPDATE spawn_commands] of this key and generation, in one of these states. *)
Definition update_row (k : IdempotencyKey) (generation : Z) (p : SpawnRow → bool) (f : SpawnRow → SpawnRow) (db : SpawnDb)
    : result IdempotencyError SpawnDb :=
  match db.(sp_rows) !! row_key k with
  | Some row =>
    if (row.(sp_generation) =? generation) && p row
    then Ok (mkSpawnDb db.(sp_records) (<[row_key k := f row]> db.(sp_rows)))
    else Err DispatchUnavailable
  | None => Err DispatchUnavailable
  end.
Definition in_state (s : SpawnCommandState) (row : SpawnRow) : bool := bool_decide (row.(sp_state) = spawn_as_str s).
Definition with_spawn_state (s : SpawnCommandState) (json : option string) (row : SpawnRow) : SpawnRow :=
  mkSpawnRow row.(sp_name) row.(sp_generation) row.(sp_persistent) (spawn_as_str s) row.(sp_instance_id)
    row.(sp_deadline_at) row.(sp_expires_at) row.(sp_issue_kind) row.(sp_issue_category) row.(sp_issue_reason) json.

Definition commit_spawn (db : SpawnDb) (r : result IdempotencyError SpawnDb) : SpawnDb * result IdempotencyError () :=
  match r with Ok db' => (db', Ok ()) | Err e => (db, Err e) end.

Definition advance_spawn (db : SpawnDb) (k : IdempotencyKey) (generation : Z) (from to : SpawnCommandState)
    : SpawnDb * result IdempotencyError () :=
  commit_spawn db (
    if negb (is_spawn k)
       || negb ((bool_decide (from = Requested) && bool_decide (to = SpReserved))
                || (bool_decide (from = SpReserved) && bool_decide (to = Starting)))
    then Err InvalidSpawnCommand
    else
      db1 ← (if bool_decide (from = Requested) then
               match update_in Prepared (with_row_state Dispatching) k db.(sp_records) with
               | (t, true) => Ok (mkSpawnDb t db.(sp_rows))
               | (_, false) => Err DispatchUnavailable
               end
             else Ok db);
      _ ← sql_u64 generation;
      update_row k generation (in_state from) (λ row, with_spawn_state to row.(sp_definition_json) row) db1).

Definition advance_spawn_with_definition (db : SpawnDb) (k : IdempotencyKey) (generation : Z) (from to : SpawnCommandState)
    (definition : Definition_) : SpawnDb * result IdempotencyError () :=
  commit_spawn db (
    if negb (is_spawn k) || negb (bool_decide (from = SpReserved) && bool_decide (to = Starting)) then Err InvalidSpawnCommand
    else
      json ← ok_or (def_to_json definition) InvalidSpawnCommand;
      _ ← sql_u64 generation;
      update_row k generation (in_state SpReserved) (with_spawn_state Starting (Some json)) db).

(** The columns an issue writes: state, kind, instance, category, reason, and
    the kind of the public result. *)
Definition issue_columns (generation : Z) (issue : SpawnCommandIssue)
    : option (SpawnCommandState * string * option string * option string * option string * string) :=
  match issue with
  | IssueConnected _ g i _ =>
    if (g =? generation) && negb (bool_decide (i = "")) then Some (Connected, "connected", Some i, None, None, "accepted") else None
  | IssueFailed category reason =>
    if negb (bool_decide (category = "")) && negb (bool_decide (reason = ""))
    then Some (SpFailed, "failed", None, Some category, Some reason, "rejected") else None
  | IssueCancelled reason =>
    if negb (bool_decide (reason = "")) then Some (SpCancelled, "cancelled", None, Some "cancelled", Some reason, "rejected") else None
  end.

Definition finish_row (state : SpawnCommandState) (kind : string) (inst category reason : option string) (row : SpawnRow) : SpawnRow :=
  mkSpawnRow row.(sp_name) row.(sp_generation) row.(sp_persistent) (spawn_as_str state)
    (opt_or inst row.(sp_instance_id)) row.(sp_deadline_at) row.(sp_expires_at) (Some kind) category reason
    row.(sp_definition_json).

Definition finish_spawn (db : SpawnDb) (k : IdempotencyKey) (generation : Z) (issue : SpawnCommandIssue)
    : SpawnDb * result IdempotencyError () :=
  commit_spawn db (
    if negb (is_spawn k) || (generation =? 0) then Err InvalidSpawnCommand
    else
      '(state, kind, inst, category, reason, public_kind) ← ok_or (issue_columns generation issue) InvalidSpawnCommand;
      _ ← sql_u64 generation;
      db1 ← update_row k generation
              (λ row, (in_state Requested row || in_state SpReserved row || in_state Starting row)
                      && (negb (bool_decide (kind = "connected")) || bool_decide (row.(sp_instance_id) = inst)))
              (finish_row state kind inst category reason) db;
      match db1.(sp_records) !! columns k with
      | Some r =>
        if bool_decide (r.(row_state) = "prepared") || bool_decide (r.(row_state) = "dispatching")
        then Ok (mkSpawnDb (<[columns k := with_result public_kind category reason r]> db1.(sp_records)) db1.(sp_rows))
        else Err DispatchUnavailable
      | None => Err DispatchUnavailable
      end).

(** The rows follow the records that a purge deletes. *)
Definition spawn_cascade (t : gmap (string * string * string) Row) (db : SpawnDb) : SpawnDb :=
  mkSpawnDb t (filter (λ kv, is_Some (t !! (kv.1.1, "spawn", kv.1.2))) db.(sp_rows)).

(** ** The reads *)

(** [ORDER BY sc.generation, sc.command_id]. *)
Definition spawn_order_leb (a b : string * SpawnRow) : bool :=
  (a.2.(sp_generation) <? b.2.(sp_generation))
  || ((a.2.(sp_generation) =? b.2.(sp_generation)) && String.leb a.1 b.1).

Fixpoint read_commands (db : SpawnDb) (scope : string) (rows : list (string * SpawnRow))
    : result IdempotencyError (list SpawnCommand) :=
  match rows with
  | [] => Ok []
  | (i, row) :: rows =>
    c ← spawn_command_from_row i row (canonical_of db (scope, i));
    rest ← read_commands db scope rows;
    Ok (c :: rest)
  end.

(** The rows of a scope that satisfy a condition, in order. *)
Definition rows_of_scope (db : SpawnDb) (scope : string) (p : SpawnRow → bool) : list (string * SpawnRow) :=
  sort_by spawn_order_leb
    ((λ kv : string * string * SpawnRow, (kv.1.2, kv.2)) <$>
       select (λ kv : string * string * SpawnRow, bool_decide (kv.1.1 = scope) && p kv.2) (map_to_list db.(sp_rows))).

Definition spawn_commands (db : SpawnDb) (scope : string) : result IdempotencyError (list SpawnCommand) :=
  _ ← validate_issuer_scope scope;
  read_commands db scope (rows_of_scope db scope (λ _, true)).

Definition spawn_commands_for_instance (db : SpawnDb) (scope name inst : string) : result IdempotencyError (list SpawnCommand) :=
  _ ← validate_issuer_scope scope;
  read_commands db scope
    (rows_of_scope db scope (λ row, bool_decide (row.(sp_name) = name) && bool_decide (row.(sp_instance_id) = Some inst))).

Definition spawn_command (db : SpawnDb) (scope command_id : string) : result IdempotencyError (option SpawnCommand) :=
  k ← key_new scope Spawn command_id; load_spawn_command_from db k.

Definition spawn_order (db : SpawnDb) (k : IdempotencyKey) : result IdempotencyError (option SpawnOrder) :=
  if negb (is_spawn k) then Err InvalidSpawnCommand
  else
    _ ← validate_issuer_scope k.(issuer_scope);
    match canonical_of db (row_key k) with
    | None => Ok None
    | Some bytes =>
      order ← ok_or (order_from bytes) (CorruptRecord "canon de reprise spawn invalide");
      c ← load_spawn_command_from db k;
      c ← ok_or c (CorruptRecord "saga de reprise spawn absente");
      if negb (bool_decide (order.(so_command_id) = c.(sc_command_id)))
         || negb (Bool.eqb order.(so_persistent) c.(sc_persistent)) || negb (order.(so_deadline_at) =? c.(sc_deadline_at))
         || negb (bool_decide (order.(so_remote_placement) = c.(sc_remote_placement)))
         || is_some_and order.(so_requested_name) (λ n, negb (bool_decide (n = c.(sc_name))))
      then Err (CorruptRecord "canon de reprise spawn incohérent")
      else Ok (Some order)
    end.

(** [ORDER BY sc.generation DESC, sc.command_id DESC LIMIT 1], over all scopes. *)
Definition connected_rows (db : SpawnDb) (name : string) : list (string * string * SpawnRow) :=
  sort_by (λ a b, spawn_order_leb (b.1.2, b.2) (a.1.2, a.2))
    (select (λ kv, bool_decide (kv.2.(sp_name) = name) && in_state Connected kv.2
                   && bool_decide (kv.2.(sp_issue_kind) = Some "connected")
                   && is_some (db.(sp_records) !! (kv.1.1, "spawn", kv.1.2))) (map_to_list db.(sp_rows))).

Definition latest_connected_spawn_by_name (db : SpawnDb) (name : string) : result IdempotencyError (option HistoricalManagedSpawn) :=
  if bool_decide (Str.trim name = "") then Err InvalidSpawnCommand
  else
    match head (connected_rows db name) with
    | None => Ok None
    | Some (k, row) =>
      c ← spawn_command_from_row k.2 row (canonical_of db k);
      bytes ← ok_or (canonical_of db k) (Sqlite "Invalid column type Null");
      canonical ← ok_or (historical_from bytes) (CorruptRecord "canon historique du spawn invalide");
      if negb (bool_decide (canonical.(ho_command_id) = c.(sc_command_id)))
         || bool_decide (Str.trim canonical.(ho_agent_type) = "") || bool_decide (Str.trim canonical.(ho_cwd) = "")
         || negb (Bool.eqb canonical.(ho_persistent) c.(sc_persistent))
      then Err (CorruptRecord "canon historique du spawn incohérent")
      else
        d ← ok_or c.(sc_resolved_definition) (CorruptRecord "définition historique du spawn absente");
        Ok (Some (mkManaged canonical.(ho_agent_type) canonical.(ho_cwd) c.(sc_command_id) c.(sc_generation)
                    c.(sc_persistent) canonical.(ho_project) d canonical.(ho_remote_placement)))
    end.

(** ** The saga and its record agree *)

Definition spawn_phase (row : SpawnRow) (r : Row) : Prop :=
  match spawn_from_str row.(sp_state) with
  | Ok Requested => r.(row_state) = "prepared" ∧ row.(sp_issue_kind) = None
  | Ok (SpReserved | Starting) => r.(row_state) = "dispatching" ∧ row.(sp_issue_kind) = None
  | Ok s =>
    r.(row_state) = "terminal" ∧ row.(sp_issue_kind) = Some (spawn_as_str s) ∧
    r.(public_result_kind) = Some (if bool_decide (s = Connected) then "accepted" else "rejected") ∧
    r.(public_result_category) = row.(sp_issue_category) ∧ r.(public_result_reason) = row.(sp_issue_reason) ∧
    (if bool_decide (s = Connected) then row.(sp_issue_category) = None ∧ row.(sp_issue_reason) = None
     else is_Some row.(sp_issue_category) ∧ is_Some row.(sp_issue_reason)) ∧
    (s = SpCancelled → row.(sp_issue_category) = Some "cancelled")
  | Err _ => False
  end.

Definition pair_ok (row : SpawnRow) (r : Row) : Prop :=
  spawn_phase row r ∧ (∃ p, remote_placement_from_canonical r.(canonical_bytes) = Ok p) ∧
  (∀ j, row.(sp_definition_json) = Some j → is_Some (def_from_json j)) ∧ row.(sp_expires_at) = r.(expires_at) ∧
  is_Some row.(sp_instance_id).

Record spawns_ok (db : SpawnDb) : Prop := mkSpawnsOk {
  so_rows : ∀ k row, db.(sp_rows) !! k = Some row → ∃ r, db.(sp_records) !! (k.1, "spawn", k.2) = Some r ∧ pair_ok row r;
  so_records : ∀ s i r, db.(sp_records) !! (s, "spawn", i) = Some r → is_Some (db.(sp_rows) !! (s, i)) }.

Lemma spawn_columns k : is_spawn k = true → columns k = (k.(issuer_scope), "spawn", k.(idempotency_key)).
Proof. destruct k as [s [] i]; done. Qed.

Lemma spawns_set db k row r :
  spawns_ok db → is_spawn k = true → pair_ok row r →
  spawns_ok (mkSpawnDb (<[columns k := r]> db.(sp_records)) (<[row_key k := row]> db.(sp_rows))).
Proof.
  intros [Hr Hc] Hk Hp. rewrite (spawn_columns k Hk). constructor; simpl.
  - intros [s i] row'. destruct (decide (row_key k = (s, i))) as [Heq|Hne].
    + rewrite <-Heq, lookup_insert_eq. intros [= <-]. exists r. simpl. rewrite lookup_insert_eq. done.
    + rewrite lookup_insert_ne by done. intros Hrow. destruct (Hr _ _ Hrow) as (r' & Hr' & Hp'). exists r'.
      split; [|done]. rewrite lookup_insert_ne; [done|]. intros [= ? ?]. apply Hne. unfold row_key. by f_equal.
  - intros s i r'. destruct (decide (row_key k = (s, i))) as [Heq|Hne].
    + rewrite <-Heq, lookup_insert_eq. eauto.
    + rewrite lookup_insert_ne by (intros [= ? ?]; apply Hne; unfold row_key; by f_equal).
      rewrite lookup_insert_ne by done. apply Hc.
Qed.

(** The row of a key and its record. *)
Lemma spawns_row db k row :
  spawns_ok db → is_spawn k = true → db.(sp_rows) !! row_key k = Some row →
  ∃ r, db.(sp_records) !! columns k = Some r ∧ pair_ok row r.
Proof. intros [Hr _] Hk Hrow. rewrite (spawn_columns k Hk). by apply (Hr (row_key k)). Qed.

Lemma reserve_spawns db q : spawns_ok db → spawns_ok (reserve_spawn db q).1.
Proof.
  intros Hs. unfold reserve_spawn. destruct (_ : result IdempotencyError (SpawnDb * SpawnReservation)) as [[db' x]|e] eqn:He; simpl; [|done].
  destruct (reserve_valid q) eqn:Hv; cbn [negb] in He; [|done].
  apply bind_Ok in He as (_ & _ & He). apply bind_Ok in He as (p & Hp & He). destruct (_ <? _); [done|].
  apply bind_Ok in He as ([r|] & Hl & He).
  { apply bind_Ok in He as (y & _ & [= <- _]). done. }
  destruct (_ <=? 0); [done|]. apply bind_Ok in He as (e & _ & He). destruct (_ <=? _); [by simplify_eq|].
  apply bind_Ok in He as (_ & _ & He). destruct (is_some _); [done|]. injection He as <- _.
  apply spawns_set; [done| |].
  - unfold reserve_valid in Hv. rewrite !andb_true_iff in Hv. naive_solver.
  - split_and!; simpl; eauto; done.
Qed.

(** A row that [update_row] changed. *)
Lemma update_row_Ok k g p f db db' :
  update_row k g p f db = Ok db' →
  ∃ row, db.(sp_rows) !! row_key k = Some row ∧ row.(sp_generation) = g ∧ p row = true ∧
    db' = mkSpawnDb db.(sp_records) (<[row_key k := f row]> db.(sp_rows)).
Proof.
  unfold update_row. destruct (_ !! _) as [row|] eqn:Hrow; [|done].
  destruct (_ && _) eqn:Hp; [|done]. intros [= <-]. apply andb_true_iff in Hp as [Hg%Z.eqb_eq Hp]. eauto 10.
Qed.

Lemma in_state_phase s row r :
  in_state s row = true → spawn_phase row r →
  match s with
  | Requested => r.(row_state) = "prepared" ∧ row.(sp_issue_kind) = None
  | SpReserved | Starting => r.(row_state) = "dispatching" ∧ row.(sp_issue_kind) = None
  | _ => True
  end.
Proof. intros Hs%bool_decide_eq_true. unfold spawn_phase. rewrite Hs. by destruct s. Qed.

Lemma advance_spawns db k g f t : spawns_ok db → spawns_ok (advance_spawn db k g f t).1.
Proof.
  intros Hs. unfold advance_spawn. destruct (_ : result IdempotencyError SpawnDb) as [db'|e] eqn:He; simpl; [|done].
  destruct (is_spawn k) eqn:Hk; [|done]. cbn [negb orb] in He. destruct (negb _) eqn:Hft; [done|].
  apply negb_false_iff in Hft. rewrite orb_true_iff, !andb_true_iff, !bool_decide_eq_true in Hft.
  apply bind_Ok in He as (db1 & H1 & He). apply bind_Ok in He as (_ & _ & He).
  apply update_row_Ok in He as (row & Hrow & _ & Hst & ->).
  destruct Hft as [[-> ->]|[-> ->]].
  - rewrite bool_decide_eq_true_2 in H1 by done. unfold update_in in H1.
    destruct (sp_records db !! columns k) as [r|] eqn:Hr; [|done]. destruct (bool_decide _) eqn:Hp; [|done]. injection H1 as <-. simpl in *.
    destruct (spawns_row db k row Hs Hk Hrow) as (r' & Hr' & Hph & Hpl & Hd & Hx & Hi). simplify_eq.
    apply (spawns_set db); [done..|]. split_and!; try done. unfold spawn_phase in *. simpl. split; [done|].
    apply (in_state_phase Requested row r Hst Hph).
  - rewrite bool_decide_eq_false_2 in H1 by done. injection H1 as <-.
    destruct (spawns_row db k row Hs Hk Hrow) as (r & Hr & Hph & Hpl & Hd & Hx & Hi).
    rewrite <-(insert_id _ _ _ Hr). apply (spawns_set db); [done..|]. split_and!; try done.
    apply (in_state_phase SpReserved row r Hst Hph).
Qed.

Lemma advance_def_spawns `{!SpawnLaws C} db k g f t d : spawns_ok db → spawns_ok (advance_spawn_with_definition db k g f t d).1.
Proof.
  intros Hs. unfold advance_spawn_with_definition. destruct (_ : result IdempotencyError SpawnDb) as [db'|e] eqn:He; simpl; [|done].
  destruct (is_spawn k) eqn:Hk; [|done]. cbn [negb orb] in He. destruct (negb _); [done|].
  apply bind_Ok in He as (json & Hj%ok_or_Ok & He). apply bind_Ok in He as (_ & _ & He).
  apply update_row_Ok in He as (row & Hrow & _ & Hst & ->).
  destruct (spawns_row db k row Hs Hk Hrow) as (r & Hr & Hph & Hpl & Hd & Hx & Hi).
  rewrite <-(insert_id _ _ _ Hr). apply (spawns_set db); [done..|]. split_and!; try done.
  - apply (in_state_phase SpReserved row r Hst Hph).
  - intros j [= <-]. rewrite (def_roundtrip _ _ Hj). eauto.
Qed.

(** What an issue writes in the row and in the record. *)
Lemma issue_columns_Some g issue st kind inst cat reason public :
  issue_columns g issue = Some (st, kind, inst, cat, reason, public) →
  kind = spawn_as_str st ∧ spawn_is_terminal st = true ∧
  public = (if bool_decide (st = Connected) then "accepted" else "rejected") ∧
  (if bool_decide (st = Connected) then cat = None ∧ reason = None ∧ is_Some inst
   else is_Some cat ∧ is_Some reason ∧ inst = None) ∧ (st = SpCancelled → cat = Some "cancelled").
Proof.
  destruct issue; simpl; intros Hi; case_match; simplify_eq; simpl; split_and!; eauto; done.
Qed.

Lemma finish_phase st inst cat reason public row r :
  spawn_is_terminal st = true → public = (if bool_decide (st = Connected) then "accepted" else "rejected") →
  (if bool_decide (st = Connected) then cat = None ∧ reason = None ∧ is_Some inst
   else is_Some cat ∧ is_Some reason ∧ inst = None) → (st = SpCancelled → cat = Some "cancelled") →
  spawn_phase (finish_row st (spawn_as_str st) inst cat reason row) (with_result public cat reason r).
Proof. intros Ht -> Hc Hcan. unfold spawn_phase. by destruct st; simpl in *; destruct_and?; split_and!. Qed.

(** A finish that succeeds: the row was in flight, and both tables were written. *)
Lemma finish_Ok db k g issue db' :
  finish_spawn db k g issue = (db', Ok ()) →
  ∃ st kind inst cat reason public row r,
    is_spawn k = true ∧ issue_columns g issue = Some (st, kind, inst, cat, reason, public) ∧
    db.(sp_rows) !! row_key k = Some row ∧ row.(sp_generation) = g ∧
    (in_state Requested row || in_state SpReserved row || in_state Starting row) = true ∧
    (kind = "connected" → row.(sp_instance_id) = inst) ∧ db.(sp_records) !! columns k = Some r ∧
    db' = mkSpawnDb (<[columns k := with_result public cat reason r]> db.(sp_records))
            (<[row_key k := finish_row st kind inst cat reason row]> db.(sp_rows)).
Proof.
  unfold finish_spawn, commit_spawn. destruct (_ : result IdempotencyError SpawnDb) as [db2|e] eqn:He; [|done]. intros [= ->].
  destruct (is_spawn k) eqn:Hk; [|done]. cbn [negb orb] in He. destruct (g =? 0); [done|].
  apply bind_Ok in He as ([[[[[st kind] inst] cat] reason] public] & Hi%ok_or_Ok & He). apply bind_Ok in He as (_ & _ & He).
  apply bind_Ok in He as (db1 & Hu & He). apply update_row_Ok in Hu as (row & Hrow & Hg & Hp & ->).
  apply andb_true_iff in Hp as [Hp Hc]. simpl in He. destruct (sp_records db !! columns k) as [r|] eqn:Hr; [|done].
  destruct (bool_decide (row_state r = "prepared") || _); [|done]. injection He as <-. exists st, kind, inst, cat, reason, public, row, r.
  split_and!; try done. intros ->. rewrite bool_decide_eq_true_2 in Hc by done. simpl in Hc. by apply bool_decide_eq_true in Hc.
Qed.

Lemma finish_spawns db k g issue : spawns_ok db → spawns_ok (finish_spawn db k g issue).1.
Proof.
  intros Hs. destruct (finish_spawn db k g issue) as [db' [[]|e]] eqn:Hf.
  2: { unfold finish_spawn, commit_spawn in Hf. by destruct (_ : result IdempotencyError SpawnDb); simplify_eq. }
  apply finish_Ok in Hf as (st & kind & inst & cat & reason & public & row & r & Hk & Hi & Hrow & _ & _ & _ & Hr & ->).
  apply issue_columns_Some in Hi as (-> & Ht & Hpub & Hc & Hcan).
  destruct (spawns_row db k row Hs Hk Hrow) as (r' & Hr' & Hph & Hpl & Hd & Hx & [i Hinst]). simplify_eq.
  apply (spawns_set db); [done..|]. split_and!; try done.
  - by apply finish_phase.
  - simpl. rewrite Hinst. destruct inst; eauto.
Qed.

(** ** Runs *)

(** The operations on the spawns; [SpSends] is any change of the records of the
    sends, [SpPurge] the deletion of the expired records, which the rows follow. *)
Inductive SpawnOp :=
  | SpReserve (q : SpawnRequest)
  | SpAdvance (k : IdempotencyKey) (generation : Z) (from to : SpawnCommandState)
  | SpAdvanceWith (k : IdempotencyKey) (generation : Z) (from to : SpawnCommandState) (d : Definition_)
  | SpFinish (k : IdempotencyKey) (generation : Z) (issue : SpawnCommandIssue)
  | SpSends (t : gmap (string * string * string) Row)
  | SpPurge (now : Z).

Definition spawn_step (db : SpawnDb) (op : SpawnOp) : SpawnDb :=
  match op with
  | SpReserve q => (reserve_spawn db q).1
  | SpAdvance k g f t => (advance_spawn db k g f t).1
  | SpAdvanceWith k g f t d => (advance_spawn_with_definition db k g f t d).1
  | SpFinish k g issue => (finish_spawn db k g issue).1
  | SpSends t =>
    mkSpawnDb (filter (λ kv, kv.1.1.2 = "spawn") db.(sp_records) ∪ filter (λ kv, kv.1.1.2 ≠ "spawn") t) db.(sp_rows)
  | SpPurge now => spawn_cascade (purge_expired db.(sp_records) now).1 db
  end.
Definition spawn_run (db : SpawnDb) (ops : list SpawnOp) : SpawnDb := fold_left spawn_step ops db.
Definition no_spawns : SpawnDb := mkSpawnDb ∅ ∅.

(** The records of the spawns after a change of the sends. *)
Lemma sends_lookup db t s i : (spawn_step db (SpSends t)).(sp_records) !! (s, "spawn", i) = db.(sp_records) !! (s, "spawn", i).
Proof.
  simpl. destruct (db.(sp_records) !! (s, "spawn", i)) as [r|] eqn:Hr.
  - apply lookup_union_Some_l, map_lookup_filter_Some. done.
  - apply lookup_union_None. split; apply map_lookup_filter_None; [by left|]. right. intros r _ Hn. by apply Hn.
Qed.

Lemma purge_lookup db now k : is_spawn k = true → spawns_ok db →
  (spawn_step db (SpPurge now)).(sp_rows) !! row_key k =
    match db.(sp_rows) !! row_key k with
    | Some row => if now <? row.(sp_expires_at) then Some row else None
    | None => None
    end.
Proof.
  intros Hk Hs. simpl. destruct (db.(sp_rows) !! row_key k) as [row|] eqn:Hrow; [|apply map_lookup_filter_None; by left].
  destruct (spawns_row db k row Hs Hk Hrow) as (r & Hr & _ & _ & _ & Hx & _). rewrite (spawn_columns k Hk) in Hr.
  destruct (Z.ltb_spec now (sp_expires_at row)) as [Hlt|Hge].
  - apply map_lookup_filter_Some. split; [done|]. simpl. exists r. apply map_lookup_filter_Some. split; [done|]. simpl. lia.
  - apply map_lookup_filter_None. right. intros row' Hrow' [r' Hr'%map_lookup_filter_Some]. simpl in Hr'.
    destruct Hr' as [Hr' Hlt]. simplify_eq. simpl in Hlt. lia.
Qed.

Lemma step_spawns `{!SpawnLaws C} db op : spawns_ok db → spawns_ok (spawn_step db op).
Proof.
  intros Hs. destruct op; [by apply reserve_spawns|by apply advance_spawns|by apply advance_def_spawns|by apply finish_spawns| |].
  - destruct Hs as [Hr Hc]. constructor.
    + intros k row Hrow. destruct (Hr k row Hrow) as (r & Hk & Hp). exists r. by rewrite sends_lookup.
    + intros s i r. rewrite sends_lookup. apply Hc.
  - pose proof Hs as [Hr Hc]. constructor.
    + intros [s i] row Hrow. simpl in Hrow. apply map_lookup_filter_Some in Hrow as [Hrow [r Hk]]. simpl in Hk.
      pose proof Hk as [Hk' _]%map_lookup_filter_Some. destruct (Hr _ _ Hrow) as (r' & Hr' & Hp). simpl in Hr'. simplify_eq.
      eauto.
    + intros s i r Hk. simpl in Hk. pose proof Hk as [Hk' Hlt]%map_lookup_filter_Some. destruct (Hc s i r Hk') as [row Hrow].
      exists row. simpl. apply map_lookup_filter_Some. split; [done|]. simpl. eauto.
Qed.

Lemma run_spawns `{!SpawnLaws C} db ops : spawns_ok db → spawns_ok (spawn_run db ops).
Proof. revert db. induction ops as [|op ops IH]; intros db Hs; simpl; [done|]. by apply IH, step_spawns. Qed.

Lemma no_spawns_ok : spawns_ok no_spawns.
Proof. constructor; simpl; intros *; by rewrite lookup_empty. Qed.

(** The request passes every check that does not read the tables. *)
Definition spawn_checked (q : SpawnRequest) : bool :=
  reserve_valid q && is_ok (validate_canonical_bytes q.(sr_bytes)) && is_ok (remote_placement_from_canonical q.(sr_bytes))
  && (q.(sr_issued_at) <=? i64_saturating_add q.(sr_now) (Z.max q.(sr_tolerance) 0)).

(** On tables that agree, a record that is there is readable and answers. *)
Definition answer_of (row : SpawnRow) (r : Row) (q : SpawnRequest) (x : SpawnReservation) : Prop :=
  if r.(expires_at) <=? q.(sr_now) then x = SpawnExpired
  else if negb (bool_decide (r.(canonical_bytes) = q.(sr_bytes))) then x = SpawnMismatch
  else
    match spawn_from_str row.(sp_state) with
    | Ok Connected => ∃ i, row.(sp_instance_id) = Some i ∧
        x = SpawnReplayed (IssueConnected row.(sp_name) row.(sp_generation) i (j ← row.(sp_definition_json); def_from_json j))
    | Ok SpFailed => ∃ c w, row.(sp_issue_category) = Some c ∧ row.(sp_issue_reason) = Some w ∧ x = SpawnReplayed (IssueFailed c w)
    | Ok SpCancelled => ∃ w, row.(sp_issue_reason) = Some w ∧ x = SpawnReplayed (IssueCancelled w)
    | Ok s => ∃ c, x = SpawnInFlight c ∧ c.(sc_state) = s ∧ c.(sc_generation) = row.(sp_generation) ∧
        c.(sc_instance_id) = row.(sp_instance_id)
    | Err _ => False
    end.

Lemma read_definition (row : SpawnRow) :
  (∀ j, row.(sp_definition_json) = Some j → is_Some (def_from_json j)) →
  (match row.(sp_definition_json) with
   | None => Ok None
   | Some json => d ← ok_or (def_from_json json) (Sqlite "définition résolue du spawn invalide"); Ok (Some d)
   end : result IdempotencyError _) = Ok (j ← row.(sp_definition_json); def_from_json j).
Proof. intros Hd. destruct (sp_definition_json row) as [j|]; [|done]. destruct (Hd j eq_refl) as [d Hj]. simpl. by rewrite Hj. Qed.

Lemma command_read i row canonical st p issue :
  spawn_from_str row.(sp_state) = Ok st → remote_placement_from_canonical canonical = Ok p →
  (∀ j, row.(sp_definition_json) = Some j → is_Some (def_from_json j)) →
  issue_of row st (j ← row.(sp_definition_json); def_from_json j) = Ok issue →
  spawn_command_from_row i row (Some canonical) =
    Ok (mkCommand i row.(sp_name) row.(sp_generation) row.(sp_persistent) st row.(sp_instance_id) row.(sp_deadline_at)
          row.(sp_expires_at) issue (j ← row.(sp_definition_json); def_from_json j) p).
Proof.
  intros Hs Hp Hd Hi. unfold spawn_command_from_row. rewrite Hs. simpl. rewrite Hp. simpl.
  rewrite (read_definition row Hd). simpl. by rewrite Hi.
Qed.

(** The issue of a row that agrees with its record is readable and coherent. *)
Lemma issue_read row r st d :
  spawn_phase row r → is_Some row.(sp_instance_id) → spawn_from_str row.(sp_state) = Ok st →
  ∃ issue, issue_of row st d = Ok issue ∧ is_some issue = spawn_is_terminal st ∧
    r.(row_state) = (match st with Requested => "prepared" | SpReserved | Starting => "dispatching" | _ => "terminal" end) ∧
    match st with
    | Connected => ∃ i, row.(sp_instance_id) = Some i ∧ issue = Some (IssueConnected row.(sp_name) row.(sp_generation) i d)
    | SpFailed => ∃ c w, row.(sp_issue_category) = Some c ∧ row.(sp_issue_reason) = Some w ∧ issue = Some (IssueFailed c w)
    | SpCancelled => ∃ w, row.(sp_issue_reason) = Some w ∧ issue = Some (IssueCancelled w)
    | _ => issue = None
    end ∧ (∀ x, issue = Some x → validate_spawn_issue r x = Ok ()).
Proof.
  intros Hph [i Hi] Hs. unfold spawn_phase in Hph. rewrite Hs in Hph. unfold issue_of, validate_spawn_issue.
  destruct st; simpl in Hph |- *.
  1-3: destruct Hph as [Hst ->]; eexists; split_and!; eauto; done.
  all: destruct Hph as (Hst & -> & Hk & Hc & Hw & Hx & Hcan); rewrite Hi; simpl.
  - destruct Hx as [Hx1 Hx2]. eexists. split_and!; eauto. intros x [= <-]. by rewrite Hk, Hc, Hw, Hx1, Hx2.
  - destruct Hx as [[c Hx1] [w Hx2]]. rewrite Hx1, Hx2. simpl. eexists. split_and!; eauto.
    intros x [= <-]. rewrite Hk, Hc, Hw, Hx1, Hx2, !bool_decide_eq_true_2 by done. done.
  - destruct Hx as [[c Hx1] [w Hx2]]. rewrite Hx2. simpl. eexists. split_and!; eauto.
    intros x [= <-]. rewrite Hk, Hc, Hw, Hx2, (Hcan eq_refl), !bool_decide_eq_true_2 by done. done.
Qed.

Lemma spawn_existing_answer db q row r st :
  is_spawn q.(sr_key) = true → db.(sp_rows) !! row_key q.(sr_key) = Some row →
  db.(sp_records) !! columns q.(sr_key) = Some r → pair_ok row r → state_from_str r.(row_state) = Ok st →
  ∃ x, spawn_existing db q (mkRec r st) = Ok x ∧ answer_of row r q x.
Proof.
  intros Hk Hrow Hr (Hph & [p Hpl] & Hd & Hx & Hi) Hst. unfold spawn_existing, answer_of. simpl.
  destruct (_ <=? _); [eauto|]. destruct (negb _); [eauto|].
  assert (canonical_of db (row_key (sr_key q)) = Some (canonical_bytes r)) as Hcan.
  { unfold canonical_of, row_key. simpl. by rewrite <-(spawn_columns _ Hk), Hr. }
  destruct (spawn_from_str (sp_state row)) as [s|e] eqn:Hs; [|unfold spawn_phase in Hph; by rewrite Hs in Hph].
  destruct (issue_read row r s (j ← sp_definition_json row; def_from_json j) Hph Hi Hs) as (issue & Hiss & Hterm & Hrs & Hwhat & Hval).
  unfold load_spawn_command_from. rewrite Hrow, Hcan, (command_read _ _ _ _ _ _ Hs Hpl Hd Hiss). simpl.
  rewrite Hrs in Hst. destruct s; simpl in *; injection Hst as <-; simpl; [eauto 10..| | |].
  all: destruct issue as [x|]; [|done]; simpl; rewrite (Hval x eq_refl); simpl; eexists; (split; [done|]); naive_solver.
Qed.

(** A checked request is always answered; nothing about the tables is corrupt. *)
Lemma reserve_spawn_existing db q row r :
  spawns_ok db → spawn_checked q = true → db.(sp_rows) !! row_key q.(sr_key) = Some row →
  db.(sp_records) !! columns q.(sr_key) = Some r →
  ∃ x, reserve_spawn db q = (db, Ok x) ∧ answer_of row r q x.
Proof.
  intros Hs Hq Hrow Hr. unfold spawn_checked in Hq. rewrite !andb_true_iff in Hq. destruct Hq as [[[Hv Hb] Hp] Ht].
  assert (is_spawn (sr_key q) = true) as Hk by (unfold reserve_valid in Hv; rewrite !andb_true_iff in Hv; naive_solver).
  destruct (spawns_row db _ row Hs Hk Hrow) as (r' & Hr' & Hok). simplify_eq.
  assert (∃ st, state_from_str (row_state r) = Ok st) as [st Hst].
  { destruct Hok as (Hph & _ & _ & _ & Hi). destruct (spawn_from_str (sp_state row)) as [s|e] eqn:He.
    - destruct (issue_read row r s None Hph Hi He) as (_ & _ & _ & -> & _). destruct s; by eexists.
    - unfold spawn_phase in Hph. by rewrite He in Hph. }
  destruct (spawn_existing_answer db q row r st Hk Hrow Hr Hok Hst) as (x & Hx & Ha). exists x. split; [|done].
  unfold reserve_spawn. rewrite Hv. cbn [negb]. destruct (validate_canonical_bytes _) as [[]|]; [|done]. simpl.
  destruct (remote_placement_from_canonical _) as [pl|]; [|done]. simpl.
  destruct (_ <? _) eqn:Hlt; [lia|]. unfold load_record. rewrite Hr, Hst. simpl. by rewrite Hx.
Qed.

(** C34: the sagas of the spawns and their records agree.  After any sequence of
    reservations, advances, issues and purges, every row has its record and every
    record of a spawn its row, in matching states; and a request that passes the
    checks on its own fields is answered for a key that is there: expired, other
    bytes, in flight with the generation and instance of the row, or the issue
    recorded, never a corruption. *)
Theorem spawn_sagas_agree `{!SpawnLaws C} ops :
  let db := spawn_run no_spawns ops in
  (∀ k row, db.(sp_rows) !! k = Some row →
     ∃ r, db.(sp_records) !! (k.1, "spawn", k.2) = Some r ∧ spawn_phase row r ∧ row.(sp_expires_at) = r.(expires_at)) ∧
  (∀ s i r, db.(sp_records) !! (s, "spawn", i) = Some r → is_Some (db.(sp_rows) !! (s, i))) ∧
  (∀ q r, spawn_checked q = true → db.(sp_records) !! columns q.(sr_key) = Some r →
     ∃ row x, db.(sp_rows) !! row_key q.(sr_key) = Some row ∧ reserve_spawn db q = (db, Ok x) ∧ answer_of row r q x).
Proof.
  intros db. assert (spawns_ok db) as Hs by apply run_spawns, no_spawns_ok. pose proof Hs as [Hr Hc]. split_and!.
  - intros k row Hrow. destruct (Hr k row Hrow) as (r & Hk & Hph & _ & _ & Hx & _). eauto.
  - done.
  - intros q r Hq Hrec. assert (is_spawn (sr_key q) = true) as Hk.
    { unfold spawn_checked, reserve_valid in Hq. rewrite !andb_true_iff in Hq. naive_solver. }
    rewrite (spawn_columns _ Hk) in Hrec. destruct (Hc _ _ _ Hrec) as [row Hrow]. rewrite <-(spawn_columns _ Hk) in Hrec.
    destruct (reserve_spawn_existing db q row r Hs Hq Hrow Hrec) as (x & Hx & Ha). eauto.
Qed.

(** ** An issue stands *)

(** The key has this row and this record. *)
Definition has (k : IdempotencyKey) (row : SpawnRow) (r : Row) (db : SpawnDb) : Prop :=
  db.(sp_rows) !! row_key k = Some row ∧ db.(sp_records) !! columns k = Some r.

Lemma has_other k k' row r row' r' db :
  is_spawn k = true → is_spawn k' = true → row_key k' ≠ row_key k → has k row r db →
  has k row r (mkSpawnDb (<[columns k' := r']> db.(sp_records)) (<[row_key k' := row']> db.(sp_rows))).
Proof.
  intros Hk Hk' Hne [H1 H2]. split; simpl; [by rewrite lookup_insert_ne|]. rewrite lookup_insert_ne; [done|].
  rewrite (spawn_columns k Hk), (spawn_columns k' Hk'). intros [= ? ?]. apply Hne. unfold row_key. by f_equal.
Qed.

Lemma has_other_row k k' row r row' db :
  row_key k' ≠ row_key k → has k row r db → has k row r (mkSpawnDb db.(sp_records) (<[row_key k' := row']> db.(sp_rows))).
Proof. intros Hne [H1 H2]. split; simpl; [by rewrite lookup_insert_ne|done]. Qed.

Lemma same_columns k k' : is_spawn k = true → is_spawn k' = true → row_key k' = row_key k → columns k' = columns k.
Proof. intros Hk Hk' [= H1 H2]. by rewrite (spawn_columns k Hk), (spawn_columns k' Hk'), H1, H2. Qed.

Lemma terminal_state s row r : spawn_phase row r → r.(row_state) = "terminal" → in_state s row = true → spawn_is_terminal s = true.
Proof. intros Hph Ht Hs. pose proof (in_state_phase s row r Hs Hph). destruct s; naive_solver congruence. Qed.

(** Each operation leaves a concluded command as it is. *)
Lemma reserve_terminal db q k row r : is_spawn k = true → has k row r db → has k row r (reserve_spawn db q).1.
Proof.
  intros Hk Hh. pose proof Hh as [Hrow Hr]. unfold reserve_spawn.
  destruct (_ : result IdempotencyError (SpawnDb * SpawnReservation)) as [[db' x]|e] eqn:He; simpl; [|done].
  destruct (reserve_valid q) eqn:Hv; cbn [negb] in He; [|done].
  assert (is_spawn (sr_key q) = true) as Hk' by (unfold reserve_valid in Hv; rewrite !andb_true_iff in Hv; naive_solver).
  apply bind_Ok in He as (_ & _ & He). apply bind_Ok in He as (p & _ & He). destruct (_ <? _); [done|].
  apply bind_Ok in He as ([r0|] & Hl & He); [by apply bind_Ok in He as (y & _ & [= <- _])|].
  destruct (_ <=? 0); [done|]. apply bind_Ok in He as (e & _ & He). destruct (_ <=? _); [by simplify_eq|].
  apply bind_Ok in He as (_ & _ & He). destruct (is_some _) eqn:Hn; [done|]. injection He as <- _. apply has_other; try done.
  intros Heq. by rewrite Heq, Hrow in Hn.
Qed.

Lemma advance_terminal db k' g f t k row r :
  is_spawn k = true → has k row r db → spawn_phase row r → r.(row_state) = "terminal" → has k row r (advance_spawn db k' g f t).1.
Proof.
  intros Hk Hh Hph Ht. pose proof Hh as [Hrow Hr]. unfold advance_spawn.
  destruct (_ : result IdempotencyError SpawnDb) as [db'|e] eqn:He; simpl; [|done].
  destruct (is_spawn k') eqn:Hk'; [|done]. cbn [negb orb] in He. destruct (negb _) eqn:Hft; [done|].
  apply negb_false_iff in Hft. rewrite orb_true_iff, !andb_true_iff, !bool_decide_eq_true in Hft.
  apply bind_Ok in He as (db1 & H1 & He). apply bind_Ok in He as (_ & _ & He).
  apply update_row_Ok in He as (row' & Hrow' & _ & Hst & ->).
  assert (sp_rows db1 = sp_rows db) as Hsame.
  { destruct (bool_decide _); [|by simplify_eq]. destruct (update_in _ _ _ _) as [? []]; by simplify_eq. }
  rewrite Hsame in Hrow'. assert (row_key k' ≠ row_key k) as Hne.
  { intros Heq. rewrite Heq in Hrow'. simplify_eq. apply (terminal_state f row r Hph Ht) in Hst. naive_solver. }
  apply has_other_row; [done|]. destruct Hft as [[-> ->]|[-> ->]]; simpl in H1; [|by simplify_eq].
  unfold update_in in H1. destruct (sp_records db !! columns k') as [r'|]; [|done]. destruct (bool_decide _); [|done]. injection H1 as <-.
  split; simpl; [done|]. rewrite lookup_insert_ne; [done|]. rewrite (spawn_columns k Hk), (spawn_columns k' Hk'). intros [= ? ?].
  apply Hne. unfold row_key. by f_equal.
Qed.

Lemma step_terminal db op k row r :
  spawns_ok db → is_spawn k = true → has k row r db → r.(row_state) = "terminal" →
  (∀ now, op = SpPurge now → now < row.(sp_expires_at)) → has k row r (spawn_step db op).
Proof.
  intros Hs Hk Hh Ht Hp. pose proof Hh as [Hrow Hr]. destruct (spawns_row db k row Hs Hk Hrow) as (r' & Hr' & Hph & _).
  assert (r' = r) as -> by congruence.
  destruct op as [q|k' g f t|k' g f t d|k' g issue|t|now]; simpl; [by apply reserve_terminal|by apply advance_terminal|..].
  - unfold advance_spawn_with_definition. destruct (_ : result IdempotencyError SpawnDb) as [db'|e] eqn:He; simpl; [|done].
    destruct (is_spawn k') eqn:Hk'; [|done]. cbn [negb orb] in He. destruct (negb _); [done|].
    apply bind_Ok in He as (json & _ & He). apply bind_Ok in He as (_ & _ & He).
    apply update_row_Ok in He as (row' & Hrow' & _ & Hst & ->). apply has_other_row; [|done].
    intros Heq. rewrite Heq in Hrow'. simplify_eq. by apply (terminal_state SpReserved row r Hph Ht) in Hst.
  - destruct (finish_spawn db k' g issue) as [db' [[]|e]] eqn:Hf.
    2: { unfold finish_spawn, commit_spawn in Hf. by destruct (_ : result IdempotencyError SpawnDb); simplify_eq. }
    apply finish_Ok in Hf as (st & kind & inst & cat & reason & public & row' & r' & Hk' & _ & Hrow' & _ & Hfl & _ & _ & ->).
    apply has_other; try done. intros Heq. rewrite Heq in Hrow'. simplify_eq. rewrite !orb_true_iff in Hfl.
    destruct Hfl as [[Hfl|Hfl]|Hfl]; by apply (terminal_state _ row r Hph Ht) in Hfl.
  - split; [done|]. rewrite (spawn_columns k Hk). rewrite <-Hr, (spawn_columns k Hk). apply (sends_lookup db t).
  - specialize (Hp now eq_refl). destruct (spawns_row db k row Hs Hk Hrow) as (r2 & Hr2 & _ & _ & _ & Hx & _). simplify_eq. split.
    + pose proof (purge_lookup db now k Hk Hs) as Hl. rewrite Hrow, (proj2 (Z.ltb_lt _ _) Hp) in Hl. exact Hl.
    + simpl. apply map_lookup_filter_Some. split; [done|]. simpl. lia.
Qed.

Lemma run_terminal `{!SpawnLaws C} ops : ∀ db k row r,
  spawns_ok db → is_spawn k = true → has k row r db → r.(row_state) = "terminal" →
  (∀ now, SpPurge now ∈ ops → now < row.(sp_expires_at)) → has k row r (spawn_run db ops).
Proof.
  induction ops as [|op ops IH]; intros db k row r Hs Hk Hh Ht Hp; simpl; [done|].
  apply IH; [by apply step_spawns|done| |done|].
  - apply step_terminal; try done. intros now ->. apply Hp. left.
  - intros now Hn. apply Hp. by right.
Qed.

(** What a later request is told of an issue: the name and the definition of a
    connected agent are those of the row. *)
Definition recorded (row : SpawnRow) (issue : SpawnCommandIssue) : SpawnCommandIssue :=
  match issue with
  | IssueConnected _ g i _ => IssueConnected row.(sp_name) g i (j ← row.(sp_definition_json); def_from_json j)
  | issue => issue
  end.

(** The issue of a spawn is given once and stands.  Once an issue is recorded
    for a command that the daemon reached, every later request for it with the
    same bytes is answered that issue until the key expires, and every other
    issue is refused without effect, whatever happens to the other commands. *)
Lemma spawn_issue_stands `{!SpawnLaws C} before k g issue db1 later q row r g' issue' :
  let db := spawn_run no_spawns before in
  finish_spawn db k g issue = (db1, Ok ()) → has k row r db →
  (∀ now, SpPurge now ∈ later → now < row.(sp_expires_at)) →
  columns q.(sr_key) = columns k → q.(sr_bytes) = r.(canonical_bytes) → spawn_checked q = true →
  q.(sr_now) < row.(sp_expires_at) →
  let db2 := spawn_run db1 later in
  reserve_spawn db2 q = (db2, Ok (SpawnReplayed (recorded row issue))) ∧
  (finish_spawn db2 k g' issue').1 = db2 ∧ is_ok (finish_spawn db2 k g' issue').2 = false.
Proof.
  intros db Hf [Hrow Hr] Hp Hcol Hb Hq Hnow db2. assert (spawns_ok db) as Hs by apply run_spawns, no_spawns_ok.
  pose proof (finish_spawns db k g issue Hs) as Hs1. rewrite Hf in Hs1. simpl in Hs1.
  apply finish_Ok in Hf as (st & kind & inst & cat & reason & public & row0 & r0 & Hk & Hi & Hrow0 & Hg & _ & Hinst & Hr0 & Hdb1).
  assert (row0 = row) as -> by congruence. assert (r0 = r) as -> by congruence. subst db1 g.
  pose proof Hi as Hi'. apply issue_columns_Some in Hi' as (-> & Hterm & _ & Hwhat & _).
  set (row1 := finish_row st (spawn_as_str st) inst cat reason row). set (r1 := with_result public cat reason r).
  assert (has k row1 r1 db2) as [Hrow2 Hr2].
  { apply run_terminal; try done. split; simpl; by rewrite lookup_insert_eq. }
  assert (spawns_ok db2) as Hs2 by by apply run_spawns.
  assert (row_key (sr_key q) = row_key k) as Hkey.
  { unfold columns in Hcol. injection Hcol as H1 _ H2. unfold row_key. by rewrite H1, H2. }
  split; [|].
  - destruct (reserve_spawn_existing db2 q row1 r1 Hs2 Hq) as (x & -> & Hx); [by rewrite Hkey|by rewrite Hcol|]. do 2 f_equal.
    destruct (spawns_row db k row Hs Hk Hrow) as (r' & Hr' & _ & _ & _ & Hexp & _). simplify_eq.
    unfold answer_of in Hx. simpl in Hx. rewrite (proj2 (Z.leb_gt _ _)) in Hx by lia.
    rewrite Hb, bool_decide_eq_true_2 in Hx by done. simpl in Hx.
    assert (spawn_from_str (spawn_as_str st) = Ok st) as Hst by (by destruct st). rewrite Hst in Hx. clear Hst.
    destruct issue as [n g0 i0 d0|c0 w0|w0]; simpl in Hi.
    + destruct (g0 =? _) eqn:Hg0; [|done]. destruct (negb _) in Hi; [|done]. simpl in Hi. injection Hi as E1 _ E2 E3 E4 _. subst st inst cat reason. simpl in Hx.
      destruct Hx as (i & [= <-] & ->). apply Z.eqb_eq in Hg0. simpl. by rewrite Hg0.
    + destruct (_ && _) in Hi; [|done]. injection Hi as E1 _ E2 E3 E4 _. subst st inst cat reason. simpl in Hx. by destruct Hx as (c & w & [= <-] & [= <-] & ->).
    + destruct (negb _) in Hi; [|done]. injection Hi as E1 _ E2 E3 E4 _. subst st inst cat reason. simpl in Hx. by destruct Hx as (w & [= <-] & ->).
  - destruct (finish_spawn db2 k g' issue') as [db' [[]|e]] eqn:Hf2; simpl.
    + exfalso. apply finish_Ok in Hf2 as (st' & ? & ? & ? & ? & ? & row' & r' & _ & _ & Hrow' & _ & Hfl & _). simplify_eq.
      rewrite !orb_true_iff in Hfl. unfold row1, in_state in Hfl. simpl in Hfl. rewrite !bool_decide_eq_true in Hfl.
      destruct st; simpl in Hterm, Hfl; naive_solver congruence.
    + split; [|done]. unfold finish_spawn, commit_spawn in Hf2. by destruct (_ : result IdempotencyError SpawnDb); simplify_eq.
Qed.

End Spawn.

Module SpawnExamples.

(** Definitions are texts that stand for themselves; no order holds a placement. *)
#[local] Instance text_codec : SpawnCodec := {|
  Definition_ := string; def_to_json d := Some d; def_from_json j := Some j;
  json_field b := Some None; placement_from b := None; order_from b := None; historical_from b := None |}.
#[local] Instance text_laws : SpawnLaws text_codec.
Proof. constructor. by intros d j [= <-]. Qed.

Definition k1 : IdempotencyKey := mkKey "scope-0123456789abcdef" Spawn "cmd-1".
Definition ask_spawn (now : Z) : SpawnRequest := mkSpawnRequest k1 "{}" 100 3600 now 5 "alpha" 7 true 200 "inst-1".
Definition to_starting : list SpawnOp :=
  [SpReserve (ask_spawn 100); SpAdvance k1 7 Requested SpReserved; SpAdvanceWith k1 7 SpReserved Starting "def"].
Definition at_starting : SpawnDb := spawn_run no_spawns to_starting.

Example in_flight :
  (reserve_spawn at_starting (ask_spawn 110)).2 =
    Ok (SpawnInFlight (mkCommand "cmd-1" "alpha" 7 true Starting (Some "inst-1") 200 3700 None (Some "def") None)).
Proof. vm_compute. reflexivity. Qed.
Example other_generation_refused :
  (finish_spawn at_starting k1 8 (IssueFailed "exit" "1")).2 = Err DispatchUnavailable ∧
  (finish_spawn at_starting k1 7 (IssueConnected "x" 7 "inst-2" None)).2 = Err DispatchUnavailable.
Proof. vm_compute. done. Qed.

Definition row1 : SpawnRow := mkSpawnRow "alpha" 7 true "starting" (Some "inst-1") 200 3700 None None None (Some "def").
Definition rec1 : Row := mkRecordRow "{}" "dispatching" None None None 100 3700.
Definition connected : SpawnDb := (finish_spawn at_starting k1 7 (IssueConnected "ignored" 7 "inst-1" None)).1.

Lemma spawn_issue_stands_witness :
  reserve_spawn (spawn_run connected [SpPurge 3000]) (ask_spawn 300) =
    (spawn_run connected [SpPurge 3000], Ok (SpawnReplayed (IssueConnected "alpha" 7 "inst-1" (Some "def")))).
Proof.
  assert (finish_spawn at_starting k1 7 (IssueConnected "ignored" 7 "inst-1" None) = (connected, Ok ())) as Hf.
  { unfold connected. rewrite (surjective_pairing (finish_spawn at_starting _ _ _)) at 1. f_equal. }
  assert (has k1 row1 rec1 at_starting) as Hh by (split; vm_compute; reflexivity).
  assert (∀ now, SpPurge now ∈ [SpPurge 3000] → now < row1.(sp_expires_at)) as Hp.
  { intros now Hn. apply list_elem_of_singleton in Hn. injection Hn as ->. reflexivity. }
  destruct (spawn_issue_stands to_starting k1 7 (IssueConnected "ignored" 7 "inst-1" None) connected [SpPurge 3000]
    (ask_spawn 300) row1 rec1 1 (IssueCancelled "x") Hf Hh Hp eq_refl eq_refl
    ltac:(vm_compute; reflexivity) ltac:(vm_compute; reflexivity)) as [Hr _].
  exact Hr.
Defined.

Lemma spawn_sagas_agree_witness :
  ∃ row x, at_starting.(sp_rows) !! row_key k1 = Some row ∧ reserve_spawn at_starting (ask_spawn 110) = (at_starting, Ok x) ∧
    answer_of row rec1 (ask_spawn 110) x.
Proof.
  destruct (spawn_sagas_agree to_starting) as (_ & _ & Ha).
  apply (Ha (ask_spawn 110) rec1); vm_compute; reflexivity.
Defined.

End SpawnExamples.
