(* ===== verification/ExecutionStore.v ===== *)
(** * ExecutionStore: [bridget-daemon/src/execution_store.rs]

    The durable tables of the submissions and of their executions: admission,
    the queue of each agent, the conditional transitions, the continuations of an
    execution and the chains they form, the reservations, the usage and the
    budget facts, the control commands, the pauses and the resumptions after a
    quota.  A table is a map from its primary key.  A transaction that returns an
    error changes nothing.  The readers and writers of JSON are arguments. *)

From S2P Require Import Prelude Text Message Communication Sql AgentLinks.
Local Open Scope Z_scope.

(** [serde_json] on messages, references and warnings. *)
Class ExecCodec := {
  message_to_json : BridgetMessage → option string;
  message_from_json : string → option BridgetMessage;
  references_to_json : list string → option string;
  warnings_to_json : list ProjectWarning → option string;
  warnings_from_json : string → option (list ProjectWarning) }.

(** What was written is read back. *)
Class ExecLaws (C : ExecCodec) := {
  message_roundtrip m j : message_to_json m = Some j → message_from_json j = Some m;
  warnings_roundtrip w j : warnings_to_json w = Some j → warnings_from_json j = Some w;
  warnings_default : is_Some (warnings_from_json "[]") }.

(** ** Rows *)

Record SubmissionRow := mkSub {
  sub_target : string; sub_origin : option string; sub_intent : option string; sub_references : string;
  sub_message : option string; sub_state : string; sub_accepted_at : Z }.
Record ExecRow := mkExec {
  ex_submission : string; ex_instance : option string; ex_project : option string; ex_binding : option Z;
  ex_generation : Z; ex_state : string; ex_revision : Z; ex_reason : option string; ex_created_at : Z; ex_updated_at : Z }.
Record QueueRow := mkQueued { q_target : string; q_priority : Z; q_enqueued_at : Z }.
Record BindingRow := mkBinding {
  pb_kind : string; pb_path : string; pb_binary_path : option string; pb_binary_version : option string;
  pb_binary_digest : option string; pb_contract : option string; pb_session : option string; pb_thread : option string;
  pb_turn : option string; pb_capabilities : option string; pb_observed_at : Z }.
Record ContinuationRow := mkCont {
  cn_generation : Z; cn_parent : string; cn_mode : string; cn_reason : option string; cn_observed_at : Z }.
Record UsageRow := mkUsage {
  us_turns : Z; us_input : Z; us_output : Z; us_cache_creation : Z; us_cache_read : Z; us_observed_at : Z }.
Record ReservationRow := mkReservation {
  rz_continuation : string; rz_generation : Z; rz_revision : Z; rz_proof_idle_at : Z; rz_reserved_at : Z }.
Record ControlCommandRow := mkControl {
  cc_bytes : string; cc_execution : string; cc_state : string; cc_refusal : option string; cc_created_at : Z;
  cc_updated_at : Z; cc_expires_at : Z; cc_warnings : string }.
Record PauseRow := mkPauseRow {
  pz_target : string; pz_generation : Z; pz_requested_at : Z; pz_resumed_at : option Z; pz_resume : option string }.
Record QuotaRow := mkQuota { qt_identity : string; qt_reset_at : Z; qt_qualified_at : Z; qt_resume : option string }.

Record ExecDb := mkExecDb {
  submissions : gmap string SubmissionRow;
  executions : gmap string ExecRow;
  queue : gmap string QueueRow;
  bindings : gmap string BindingRow;
  continuations : gmap string ContinuationRow;
  usage : gmap (string * Z * string) UsageRow;
  reservations : gmap string ReservationRow;
  controls : gmap (string * string) ControlCommandRow;
  pauses : gmap string PauseRow;
  quotas : gmap string QuotaRow }.

Definition set_submissions t (db : ExecDb) : ExecDb :=
  mkExecDb t db.(executions) db.(queue) db.(bindings) db.(continuations) db.(usage) db.(reservations) db.(controls) db.(pauses) db.(quotas).
Definition set_executions t (db : ExecDb) : ExecDb :=
  mkExecDb db.(submissions) t db.(queue) db.(bindings) db.(continuations) db.(usage) db.(reservations) db.(controls) db.(pauses) db.(quotas).
Definition set_queue t (db : ExecDb) : ExecDb :=
  mkExecDb db.(submissions) db.(executions) t db.(bindings) db.(continuations) db.(usage) db.(reservations) db.(controls) db.(pauses) db.(quotas).
Definition set_bindings t (db : ExecDb) : ExecDb :=
  mkExecDb db.(submissions) db.(executions) db.(queue) t db.(continuations) db.(usage) db.(reservations) db.(controls) db.(pauses) db.(quotas).
Definition set_continuations t (db : ExecDb) : ExecDb :=
  mkExecDb db.(submissions) db.(executions) db.(queue) db.(bindings) t db.(usage) db.(reservations) db.(controls) db.(pauses) db.(quotas).
Definition set_usage t (db : ExecDb) : ExecDb :=
  mkExecDb db.(submissions) db.(executions) db.(queue) db.(bindings) db.(continuations) t db.(reservations) db.(controls) db.(pauses) db.(quotas).
Definition set_reservations t (db : ExecDb) : ExecDb :=
  mkExecDb db.(submissions) db.(executions) db.(queue) db.(bindings) db.(continuations) db.(usage) t db.(controls) db.(pauses) db.(quotas).
Definition set_controls t (db : ExecDb) : ExecDb :=
  mkExecDb db.(submissions) db.(executions) db.(queue) db.(bindings) db.(continuations) db.(usage) db.(reservations) t db.(pauses) db.(quotas).
Definition set_pauses t (db : ExecDb) : ExecDb :=
  mkExecDb db.(submissions) db.(executions) db.(queue) db.(bindings) db.(continuations) db.(usage) db.(reservations) db.(controls) t db.(quotas).
Definition set_quotas t (db : ExecDb) : ExecDb :=
  mkExecDb db.(submissions) db.(executions) db.(queue) db.(bindings) db.(continuations) db.(usage) db.(reservations) db.(controls) db.(pauses) t.

Definition commit_exec {X} (db : ExecDb) (r : result string (ExecDb * X)) : ExecDb * result string X :=
  match r with Ok (db', x) => (db', Ok x) | Err e => (db, Err e) end.

(** [i64::try_from] of a counter, and the parameters of 64 bits without sign. *)
Definition sql_counter (value : Z) : result string Z :=
  if value <=? i64_max then Ok value else Err "compteur fournisseur hors borne SQLite".

(** ** Data *)

Record ExecutionSnapshot := mkSnapshot {
  sn_execution_id : string; sn_project : option ProjectReference; sn_state : string; sn_generation : Z;
  sn_revision : Z; sn_created_at : Z }.
#[export] Instance ExecutionSnapshot_eq_dec : EqDecision ExecutionSnapshot.
Proof. solve_decision. Defined.
Record ExecutionControlTarget := mkTarget { ct_snapshot : ExecutionSnapshot; ct_target_agent : string }.
Inductive ConditionalTransition := TransitionApplied (s : ExecutionSnapshot) | TransitionRejected (s : ExecutionSnapshot) | TransitionMissing.
Record ReconstructedExecution := mkReconstructed {
  re_parent : string; re_snapshot : ExecutionSnapshot; re_message : BridgetMessage }.
Inductive ExecutionRecoveryOutcome :=
  | RecoveryNone | Reconstructed (r : ReconstructedExecution) | PayloadUnavailable (parent : string)
  | AmbiguousExecutions (ids : list string).
Inductive QuotaRecoveryOutcome :=
  | NotQualified | NotFailed | NotLeaf | AlreadyResumed (execution_id : string) | QuotaReconstructed (r : ReconstructedExecution).
Record QueuedSubmission := mkQueuedSubmission {
  qs_submission_id : string; qs_target_agent : string; qs_priority : Z; qs_enqueued_at : Z; qs_message : option BridgetMessage }.
Record AgentExecutionSummary := mkSummary {
  sm_state : option string; sm_updated_at : option Z; sm_queue_depth : Z; sm_continuation_mode : option string }.
Inductive ControlCommandStatus := StatusPrepared | StatusDispatched | StatusAccepted | StatusRefused (reason : string).
Record StoredControlCommand := mkStored {
  st_execution_id : string; st_status : ControlCommandStatus; st_expires_at : Z; st_warnings : list ProjectWarning }.
Inductive ProviderBindingOutcome := BindingApplied | BindingMissing | BindingGenerationMismatch | BindingIncompatible.
Inductive ContinuationMode := Native | Forked | ModeReconstructed.
Definition mode_as_str (m : ContinuationMode) : string :=
  match m with Native => "native" | Forked => "forked" | ModeReconstructed => "reconstructed" end.
Definition mode_parse (value : string) : option ContinuationMode :=
  if bool_decide (value = "native") then Some Native
  else if bool_decide (value = "forked") then Some Forked
  else if bool_decide (value = "reconstructed") then Some ModeReconstructed else None.
Record ContinuationRecord := mkContinuation {
  cr_execution_id : string; cr_generation : Z; cr_parent_execution_id : string; cr_mode : ContinuationMode;
  cr_reason : option string; cr_observed_at : Z }.
Inductive ContinuationOutcome :=
  | ContinuationApplied | ContinuationMissing | ContinuationGenerationMismatch | ParentMissing | ContinuationIncompatible.
Record UsageTokens := mkTokens {
  tk_input : Z; tk_output : Z; tk_cache_creation : Z; tk_cache_read : Z }.
Record ExecutionUsageSample := mkSample {
  us_execution_id : string; us_generation : Z; us_tokens : UsageTokens; us_source : string; us_at : Z }.
Record UsageAggregate := mkAggregate {
  ag_turns : Z; ag_input : Z; ag_output : Z; ag_cache_creation : Z; ag_cache_read : Z; ag_facturable : Z }.
Record ExecutionBudgetFacts := mkBudget { bf_duration_secs : Z; bf_descendants : Z; bf_usage : option UsageAggregate }.
Inductive ContinuationReservation :=
  | ReservationReserved | ReservationReplayed | AlreadyReserved | ReservationMissing | ReservationGenerationMismatch
  | ReservationRevisionMismatch | NotInactive | StaleProof | ConcurrentExecution.
Inductive ContinuationReservationContext := InactiveParent | RecoveryAfterIdleWrapper.
#[export] Instance ContinuationReservationContext_eq_dec : EqDecision ContinuationReservationContext.
Proof. solve_decision. Defined.
Inductive ControlReservation := ControlNew | ControlReplayed (c : StoredControlCommand) | ControlMismatch | ControlExpired.
Record ProviderObservation := mkObservation {
  po_binary_path : string; po_binary_version : string; po_binary_digest : string; po_contract_version : string }.
Record ExecutionProviderContext := mkContext {
  pc_execution_id : string; pc_generation : Z; pc_provider_kind : string; pc_execution_path : string;
  pc_observation : ProviderObservation; pc_session : option string; pc_thread : option string; pc_turn : option string;
  pc_observed_at : Z }.

Definition FOCUS_QUEUE_PRIORITY : Z := 100.

(** The groups of states that the statements list. *)
Definition ACTIVE_STATES : list string := ["starting"; "running"; "waiting_approval"; "waiting_user_input"; "interrupting"].
Definition RECOVERABLE_STATES : list string := "queued" :: ACTIVE_STATES.
Definition INACTIVE_STATES : list string := ["interrupted"; "completed"; "failed"; "unreachable"; "paused"; "blocked"].

(** [project_reference_from_parts]. *)
Definition execution_project (p : option string) (g : option Z) : result string (option ProjectReference) :=
  match p, g with
  | None, None => Ok None
  | Some p, Some g => if 0 <? g then Ok (Some (mkProjectRef p g)) else Err "référence projet d'exécution incomplète"
  | _, _ => Err "référence projet d'exécution incomplète"
  end.

(** ** Insertions, with the constraints of the tables *)

Definition insert_execution (i : string) (row : ExecRow) (db : ExecDb) : result string ExecDb :=
  if is_some (db.(executions) !! i) then Err "UNIQUE constraint failed: executions.execution_id"
  else if negb (is_some (db.(submissions) !! row.(ex_submission))) then Err "FOREIGN KEY constraint failed"
  else Ok (set_executions (<[i := row]> db.(executions)) db).

Definition insert_continuation (i : string) (row : ContinuationRow) (db : ExecDb) : result string ExecDb :=
  if is_some (db.(continuations) !! i) then Err "UNIQUE constraint failed: execution_continuations.execution_id"
  else if negb ((0 <? row.(cn_generation)) && (0 <=? row.(cn_observed_at))) then Err "CHECK constraint failed"
  else if negb (is_some (db.(executions) !! i) && is_some (db.(executions) !! row.(cn_parent))) then Err "FOREIGN KEY constraint failed"
  else Ok (set_continuations (<[i := row]> db.(continuations)) db).

(** The first execution of a submission, in the project of the caller. *)
Definition first_execution (submission : string) (project : option ProjectReference) (now : Z) : result string ExecRow :=
  g ← match project with Some p => g ← sql_counter p.(binding_generation); Ok (Some g) | None => Ok None end;
  Ok (mkExec submission None (project_id <$> project) g 1 "starting" 0 None now now).

Section Store.
Context `{C : ExecCodec}.

(** ** Admission *)

(** [INSERT INTO work_submissions .. ON CONFLICT DO NOTHING]: whether it was inserted. *)
Definition insert_submission (i : string) (row : SubmissionRow) (db : ExecDb) : ExecDb * bool :=
  if is_some (db.(submissions) !! i) then (db, false) else (set_submissions (<[i := row]> db.(submissions)) db, true).

Definition record_starting_for_project (db : ExecDb) (submission execution target : string)
    (project : option ProjectReference) (now : Z) : ExecDb * result string () :=
  commit_exec db (
    if is_some_and (db.(submissions) !! submission) (λ s, bool_decide (s.(sub_state) = "prepared")) then Err "Query is not read-only"
    else
      let '(db1, _) := insert_submission submission
        (mkSub target (Some "system") (Some "trigger_turn") "[]" None "accepted" now) db in
      row ← first_execution submission project now;
      if is_some (db1.(executions) !! execution) then Ok (db1, ())
      else db2 ← insert_execution execution row db1; Ok (db2, ())).

(** A submission that is new, then its execution. *)
Definition admit_with (db : ExecDb) (submission : string) (row : SubmissionRow) (execution : string)
    (project : option ProjectReference) (now : Z) : ExecDb * result string bool :=
  commit_exec db (
    match insert_submission submission row db with
    | (_, false) => Ok (db, false)
    | (db1, true) =>
      e ← first_execution submission project now;
      db2 ← insert_execution execution e db1;
      Ok (db2, true)
    end).

Definition admit_starting_for_project (db : ExecDb) (submission execution target : string)
    (project : option ProjectReference) (now : Z) : ExecDb * result string bool :=
  admit_with db submission (mkSub target (Some "system") (Some "trigger_turn") "[]" None "accepted" now) execution project now.

Definition origin_text (o : MessageOrigin) : string :=
  match o with Human => "human" | Agent => "agent" | Routine => "routine" | System => "system" end.
Definition intent_text (i : MessageIntent) : string :=
  match i with
  | QueueOnly => "queue_only" | TriggerTurn => "trigger_turn" | SteerCurrent => "steer_current"
  | InterruptAndStart => "interrupt_and_start" | ControlOnly => "control_only"
  end.

(** The row of a message that is kept whole. *)
Definition message_row (m : BridgetMessage) (now : Z) : result string SubmissionRow :=
  json ← ok_or (message_to_json m) "ToSqlConversionFailure";
  refs ← ok_or (references_to_json m.(references)) "ToSqlConversionFailure";
  Ok (mkSub m.(to) (origin_text <$> m.(origin)) (intent_text <$> m.(intent)) refs (Some json) "accepted" now).

Definition admit_starting_message_for_project (db : ExecDb) (m : BridgetMessage) (execution : string)
    (project : option ProjectReference) (now : Z) : ExecDb * result string bool :=
  match message_row m now with
  | Err e => (db, Err e)
  | Ok row => admit_with db m.(id) row execution project now
  end.

(** A submission that is new, then its place in the queue. *)
Definition enqueue (db : ExecDb) (submission : string) (row : SubmissionRow) (priority now : Z) : ExecDb * result string bool :=
  commit_exec db (
    match insert_submission submission row db with
    | (_, false) => Ok (db, false)
    | (db1, true) =>
      if is_some (db1.(queue) !! submission) then Err "UNIQUE constraint failed: execution_queue.submission_id"
      else Ok (set_queue (<[submission := mkQueued row.(sub_target) priority now]> db1.(queue)) db1, true)
    end).

Definition admit_submission (db : ExecDb) (submission target : string) (priority now : Z) : ExecDb * result string bool :=
  enqueue db submission (mkSub target (Some "system") (Some "queue_only") "[]" None "accepted" now) priority now.

Definition queue_priority_for (m : BridgetMessage) (requested : Z) : Z :=
  if existsb (Str.starts_with "focus:") m.(references) then Z.max requested FOCUS_QUEUE_PRIORITY else requested.

Definition admit_message_submission (db : ExecDb) (m : BridgetMessage) (priority now : Z) : ExecDb * result string bool :=
  match message_row m now with
  | Err e => (db, Err e)
  | Ok row => enqueue db m.(id) row (queue_priority_for m priority) now
  end.

(** [ORDER BY priority DESC, enqueued_at, submission_id]. *)
Definition queue_leb (a b : string * QueueRow) : bool :=
  (b.2.(q_priority) <? a.2.(q_priority))
  || ((a.2.(q_priority) =? b.2.(q_priority))
      && ((a.2.(q_enqueued_at) <? b.2.(q_enqueued_at))
          || ((a.2.(q_enqueued_at) =? b.2.(q_enqueued_at)) && String.leb a.1 b.1))).

(** The queue of an agent, with the submissions that are accepted. *)
Definition waiting (db : ExecDb) (target : string) : list (string * QueueRow) :=
  sort_by queue_leb
    (select (λ kv, bool_decide (kv.2.(q_target) = target)
                   && is_some_and (db.(submissions) !! kv.1) (λ s, bool_decide (s.(sub_state) = "accepted")))
       (map_to_list db.(queue))).

Definition take_next_submission (db : ExecDb) (target : string) : ExecDb * result string (option QueuedSubmission) :=
  commit_exec db (
    match head (waiting db target) with
    | None => Ok (db, None)
    | Some (i, q) =>
      m ← match s ← db.(submissions) !! i; s.(sub_message) with
          | None => Ok None
          | Some json => m ← ok_or (message_from_json json) "FromSqlConversionFailure"; Ok (Some m)
          end;
      Ok (set_queue (delete i db.(queue)) db,
          Some (mkQueuedSubmission i q.(q_target) q.(q_priority) q.(q_enqueued_at) m))
    end).

(** [reserve_specialist_request] and [accept_specialist_request] of
    [execution_store/specialists.rs], on the tables of this store: a submission
    that waits for its acceptance, which starts its execution. *)
Definition prepare_submission (db : ExecDb) (i : string) (row : SubmissionRow) : ExecDb * result string () :=
  if is_some (db.(submissions) !! i) then (db, Err "UNIQUE constraint failed: work_submissions.submission_id")
  else (set_submissions (<[i := mkSub row.(sub_target) (Some "agent") (Some "trigger_turn") row.(sub_references)
                                  row.(sub_message) "prepared" row.(sub_accepted_at)]> db.(submissions)) db, Ok ()).
(** [request] is the row of [specialist_requests]: the submission, the canonical
    bytes and the revision of the grant. *)
Definition accept_submission (db : ExecDb) (request : option (string * string * Z)) (canonical : string) (grant_revision : Z)
    (project : option ProjectReference) (now : Z) : ExecDb * result string bool :=
  commit_exec db (
    '(i, stored, revision) ← ok_or request "Query returned no rows";
    if negb (bool_decide (stored = canonical)) || negb (revision =? grant_revision) then Err "Invalid parameter name: mandate_changed"
    else
      match db.(submissions) !! i with
      | Some s =>
        if bool_decide (s.(sub_state) = "prepared") then
          let s' := mkSub s.(sub_target) s.(sub_origin) s.(sub_intent) s.(sub_references) s.(sub_message) "accepted" s.(sub_accepted_at) in
          e ← first_execution i project now;
          db1 ← insert_execution ("execution-" +:+ i) e (set_submissions (<[i := s']> db.(submissions)) db);
          Ok (db1, true)
        else Ok (db, false)
      | None => Ok (db, false)
      end).

(** ** Reads of an execution *)

Definition snapshot_of (i : string) (row : ExecRow) : result string ExecutionSnapshot :=
  p ← execution_project row.(ex_project) row.(ex_binding);
  Ok (mkSnapshot i p row.(ex_state) row.(ex_generation) row.(ex_revision) row.(ex_created_at)).

Definition execution_snapshot (db : ExecDb) (i : string) : result string (option ExecutionSnapshot) :=
  match db.(executions) !! i with
  | None => Ok None
  | Some row => s ← snapshot_of i row; Ok (Some s)
  end.

Definition target_of (db : ExecDb) (row : ExecRow) : option string :=
  sub_target <$> db.(submissions) !! row.(ex_submission).

Definition execution_control_target (db : ExecDb) (i : string) : result string (option ExecutionControlTarget) :=
  match row ← db.(executions) !! i; t ← target_of db row; Some (row, t) with
  | None => Ok None
  | Some (row, t) => s ← snapshot_of i row; Ok (Some (mkTarget s t))
  end.

Definition execution_message (db : ExecDb) (i : string) : result string (option BridgetMessage) :=
  match row ← db.(executions) !! i; db.(submissions) !! row.(ex_submission) with
  | None => Ok None
  | Some s =>
    (** A message that was never kept is [NULL] where a text is read. *)
    match s.(sub_message) with
    | None => Err "Invalid column type Null"
    | Some json => m ← ok_or (message_from_json json) "FromSqlConversionFailure"; Ok (Some m)
    end
  end.

(** The executions of an agent that a restart takes up: at most two are read. *)
Definition created_leb (a b : string * ExecRow) : bool :=
  (a.2.(ex_created_at) <? b.2.(ex_created_at)) || ((a.2.(ex_created_at) =? b.2.(ex_created_at)) && String.leb a.1 b.1).
Definition pause_open (db : ExecDb) (i : string) : bool :=
  is_some_and (db.(pauses) !! i) (λ p, negb (is_some p.(pz_resumed_at))).
Definition recoverable (db : ExecDb) (target : string) : list (string * ExecRow) :=
  sort_by created_leb
    (select (λ kv, bool_decide (target_of db kv.2 = Some target)
                   && (bool_decide (kv.2.(ex_state) ∈ RECOVERABLE_STATES) || pause_open db kv.1))
       (map_to_list db.(executions))).

Definition recoverable_execution_ids_for_agent (db : ExecDb) (target : string) : list string :=
  (take 2 (recoverable db target)).*1.

Definition recoverable_execution_ids (db : ExecDb) : list string :=
  (sort_by created_leb (select (λ kv, bool_decide (kv.2.(ex_state) ∈ RECOVERABLE_STATES)) (map_to_list db.(executions)))).*1.

(** ** Transitions *)

Definition with_transition (next : string) (why : string) (now : Z) (row : ExecRow) : ExecRow :=
  mkExec row.(ex_submission) row.(ex_instance) row.(ex_project) row.(ex_binding) row.(ex_generation) next
    (row.(ex_revision) + 1) (Some why) row.(ex_created_at) now.

Definition transition_if_current (db : ExecDb) (i expected_state : string) (expected_revision expected_generation : Z)
    (next why : string) (now : Z) : ExecDb * result string ConditionalTransition :=
  commit_exec db (
    match db.(executions) !! i with
    | None => Ok (db, TransitionMissing)
    | Some row =>
      s ← snapshot_of i row;
      if negb (bool_decide (s.(sn_state) = expected_state)) || negb (s.(sn_revision) =? expected_revision)
         || negb (s.(sn_generation) =? expected_generation)
      then Ok (db, TransitionRejected s)
      else
        Ok (set_executions (<[i := with_transition next why now row]> db.(executions)) db,
            TransitionApplied (mkSnapshot s.(sn_execution_id) s.(sn_project) next s.(sn_generation)
                                 (expected_revision + 1) s.(sn_created_at)))
    end).

Definition stale_starting (cutoff : Z) (row : ExecRow) : bool :=
  bool_decide (row.(ex_state) = "starting") && (row.(ex_updated_at) <? cutoff).
Definition expire_starting_before (db : ExecDb) (cutoff now : Z) : ExecDb * nat :=
  (set_executions
     ((λ row, if stale_starting cutoff row then with_transition "unreachable" "provider_unavailable" now row else row)
        <$> db.(executions)) db,
   size (filter (λ kv, stale_starting cutoff kv.2 = true) db.(executions))).

(** ** Provider references *)

Definition compatible (known : option string) (observed : string) : bool := is_none_or known (λ k, bool_decide (k = observed)).
Definition compatible_option (known observed : option string) : bool :=
  match known, observed with Some k, Some o => bool_decide (k = o) | _, _ => true end.

Definition binding_compatible (b : BindingRow) (c : ExecutionProviderContext) : bool :=
  let o := c.(pc_observation) in
  bool_decide (b.(pb_kind) = c.(pc_provider_kind)) && bool_decide (b.(pb_path) = c.(pc_execution_path))
  && compatible b.(pb_binary_path) o.(po_binary_path) && compatible b.(pb_binary_version) o.(po_binary_version)
  && compatible b.(pb_binary_digest) o.(po_binary_digest) && compatible b.(pb_contract) o.(po_contract_version)
  && compatible b.(pb_capabilities) o.(po_contract_version) && compatible_option b.(pb_session) c.(pc_session)
  && compatible_option b.(pb_thread) c.(pc_thread) && compatible_option b.(pb_turn) c.(pc_turn).

(** [COALESCE] of each column, [MAX] of the dates. *)
Definition binding_completed (b : BindingRow) (c : ExecutionProviderContext) : BindingRow :=
  let o := c.(pc_observation) in
  mkBinding b.(pb_kind) b.(pb_path) (opt_or b.(pb_binary_path) (Some o.(po_binary_path)))
    (opt_or b.(pb_binary_version) (Some o.(po_binary_version))) (opt_or b.(pb_binary_digest) (Some o.(po_binary_digest)))
    (opt_or b.(pb_contract) (Some o.(po_contract_version))) (opt_or b.(pb_session) c.(pc_session))
    (opt_or b.(pb_thread) c.(pc_thread)) (opt_or b.(pb_turn) c.(pc_turn))
    (opt_or b.(pb_capabilities) (Some o.(po_contract_version))) (Z.max b.(pb_observed_at) c.(pc_observed_at)).
Definition binding_new (c : ExecutionProviderContext) : BindingRow :=
  let o := c.(pc_observation) in
  mkBinding c.(pc_provider_kind) c.(pc_execution_path) (Some o.(po_binary_path)) (Some o.(po_binary_version))
    (Some o.(po_binary_digest)) (Some o.(po_contract_version)) c.(pc_session) c.(pc_thread) c.(pc_turn)
    (Some o.(po_contract_version)) c.(pc_observed_at).

Definition record_provider_context (db : ExecDb) (c : ExecutionProviderContext) : ExecDb * ProviderBindingOutcome :=
  match db.(executions) !! c.(pc_execution_id) with
  | None => (db, BindingMissing)
  | Some row =>
    if negb (row.(ex_generation) =? c.(pc_generation)) then (db, BindingGenerationMismatch)
    else
      match db.(bindings) !! c.(pc_execution_id) with
      | Some b =>
        if negb (binding_compatible b c) then (db, BindingIncompatible)
        else (set_bindings (<[c.(pc_execution_id) := binding_completed b c]> db.(bindings)) db, BindingApplied)
      | None => (set_bindings (<[c.(pc_execution_id) := binding_new c]> db.(bindings)) db, BindingApplied)
      end
  end.

(** ** Continuations and their chains *)

Definition record_continuation (db : ExecDb) (i : string) (generation : Z) (parent : string) (mode : ContinuationMode)
    (why : option string) (now : Z) : ExecDb * result string ContinuationOutcome :=
  commit_exec db (
    match db.(executions) !! i with
    | None => Ok (db, ContinuationMissing)
    | Some row =>
      if negb (row.(ex_generation) =? generation) then Ok (db, ContinuationGenerationMismatch)
      else if bool_decide (i = parent) || negb (is_some (db.(executions) !! parent)) then Ok (db, ParentMissing)
      else
        match db.(continuations) !! i with
        | Some c =>
          if negb ((c.(cn_generation) =? generation) && bool_decide (c.(cn_parent) = parent)
                   && bool_decide (c.(cn_mode) = mode_as_str mode) && bool_decide (c.(cn_reason) = why))
          then Ok (db, ContinuationIncompatible)
          else
            Ok (set_continuations (<[i := mkCont c.(cn_generation) c.(cn_parent) c.(cn_mode) c.(cn_reason)
                                            (Z.max c.(cn_observed_at) now)]> db.(continuations)) db,
                ContinuationApplied)
        | None =>
          db1 ← insert_continuation i (mkCont generation parent (mode_as_str mode) why now) db;
          Ok (db1, ContinuationApplied)
        end
    end).

Definition continuation_for (db : ExecDb) (i : string) : result string (option ContinuationRecord) :=
  match db.(continuations) !! i with
  | None => Ok None
  | Some c =>
    mode ← ok_or (mode_parse c.(cn_mode)) "mode de continuité inconnu";
    Ok (Some (mkContinuation i c.(cn_generation) c.(cn_parent) mode c.(cn_reason) c.(cn_observed_at)))
  end.

(** The executions that continue [i]. *)
Definition children (db : ExecDb) (i : string) : list string :=
  (select (λ kv, bool_decide (kv.2.(cn_parent) = i)) (map_to_list db.(continuations))).*1.

(** [WITH RECURSIVE .. UNION]: each row is taken from the queue once, and the
    rows it adds are those not seen yet. *)
Fixpoint lineage_go (fuel : nat) (db : ExecDb) (todo seen : list string) : option (list string) :=
  match todo, fuel with
  | [], _ => Some seen
  | _ :: _, O => None
  | i :: todo, S fuel =>
    let new := select (λ j, negb (bool_decide (j ∈ seen))) (children db i) in
    lineage_go fuel db (todo ++ new) (seen ++ new)
  end.
Definition lineage (db : ExecDb) (i : string) : option (list string) :=
  lineage_go (S (size db.(continuations))) db [i] [i].

(** [ORDER BY generation DESC LIMIT 1] over the leaves; SQLite is free between
    leaves of the same generation. *)
Definition latest_in_chain (db : ExecDb) (root : string) : result string (option ExecutionSnapshot) :=
  let leaves := select (λ kv : string * ExecRow, bool_decide (kv.1 ∈ default [] (lineage db root)) && bool_decide (children db kv.1 = []))
                  (map_to_list db.(executions)) in
  match max_by_key (λ kv : string * ExecRow, kv.2.(ex_generation)) leaves with
  | None => Ok None
  | Some (i, _) => execution_snapshot db i
  end.

(** ** Usage and budgets *)

Definition record_execution_usage (db : ExecDb) (x : ExecutionUsageSample) : ExecDb * result string bool :=
  if bool_decide (Str.trim x.(us_execution_id) = "") || (x.(us_generation) =? 0) || bool_decide (Str.trim x.(us_source) = "")
     || (64 <? String.length x.(us_source))%nat || (x.(us_at) <=? 0)
  then (db, Ok false)
  else
    commit_exec db (
      input ← sql_counter x.(us_tokens).(tk_input);
      output ← sql_counter x.(us_tokens).(tk_output);
      creation ← sql_counter x.(us_tokens).(tk_cache_creation);
      cread ← sql_counter x.(us_tokens).(tk_cache_read);
      if negb (bool_decide (ex_generation <$> db.(executions) !! x.(us_execution_id) = Some x.(us_generation))) then Ok (db, false)
      else
        let k := (x.(us_execution_id), x.(us_generation), x.(us_source)) in
        let add := λ a b, Z.min i64_max (a + b) in
        let row := match db.(usage) !! k with
                   | Some u => mkUsage (add u.(us_turns) 1) (add u.(us_input) input) (add u.(us_output) output)
                                 (add u.(us_cache_creation) creation) (add u.(us_cache_read) cread)
                                 (Z.max u.(us_observed_at) x.(us_at))
                   | None => mkUsage 1 input output creation cread x.(us_at)
                   end in
        Ok (set_usage (<[k := row]> db.(usage)) db, true)).

Definition execution_budget_facts (db : ExecDb) (i : string) (now : Z) : result string (option ExecutionBudgetFacts) :=
  match db.(executions) !! i with
  | None => Ok None
  | Some row =>
    let members := default [] (lineage db i) in
    let rows := (select (λ kv : string * Z * string * UsageRow, bool_decide (kv.1.1.1 ∈ members)) (map_to_list db.(usage))).*2 in
    turns ← sql_sum 0 (us_turns <$> rows);
    input ← sql_sum 0 (us_input <$> rows);
    output ← sql_sum 0 (us_output <$> rows);
    creation ← sql_sum 0 (us_cache_creation <$> rows);
    cread ← sql_sum 0 (us_cache_read <$> rows);
    Ok (Some (mkBudget (Z.max (i64_saturating_sub now row.(ex_created_at)) 0) (Z.of_nat (length members) - 1)
      (if bool_decide (length rows = O) then None
       else Some (mkAggregate turns input output creation cread
                    (u64_saturating_add (u64_saturating_add input output) creation)))))
  end.

(** ** Reservations of a continuation *)

Definition concurrent (db : ExecDb) (target parent : string) : bool :=
  exists_row (λ kv : string * ExecRow, bool_decide (target_of db kv.2 = Some target) && negb (bool_decide (kv.1 = parent))
                     && bool_decide (kv.2.(ex_state) ∈ ACTIVE_STATES)) (map_to_list db.(executions)).

Definition reserve_continuation_with_context (db : ExecDb) (parent : string) (expected_generation expected_revision : Z)
    (continuation : string) (proof_idle_at now : Z) (context : ContinuationReservationContext)
    : ExecDb * result string ContinuationReservation :=
  if bool_decide (Str.trim continuation = "") || (proof_idle_at <=? 0) || (now <? proof_idle_at) then (db, Ok StaleProof)
  else
    match row ← db.(executions) !! parent; t ← target_of db row; Some (row, t) with
    | None => (db, Ok ReservationMissing)
    | Some (row, target) =>
      if negb (row.(ex_generation) =? expected_generation) then (db, Ok ReservationGenerationMismatch)
      else if negb (row.(ex_revision) =? expected_revision) then (db, Ok ReservationRevisionMismatch)
      else if negb (bool_decide (row.(ex_state) ∈ INACTIVE_STATES)
                    || (bool_decide (context = RecoveryAfterIdleWrapper) && bool_decide (row.(ex_state) ∈ RECOVERABLE_STATES)))
      then (db, Ok NotInactive)
      else if proof_idle_at <? row.(ex_updated_at) then (db, Ok StaleProof)
      else
        match db.(reservations) !! parent with
        | Some r => (db, Ok (if bool_decide (r.(rz_continuation) = continuation) then ReservationReplayed else AlreadyReserved))
        | None =>
          if concurrent db target parent then (db, Ok ConcurrentExecution)
          else if existsb (λ kv, bool_decide (kv.2.(rz_continuation) = continuation)) (map_to_list db.(reservations))
          then (db, Err "UNIQUE constraint failed: execution_continuation_reservations.continuation_id")
          else
            (set_reservations
               (<[parent := mkReservation continuation expected_generation expected_revision proof_idle_at now]> db.(reservations)) db,
             Ok ReservationReserved)
        end
    end.

(** ** Failures of quota *)

Definition quota_failure_for (db : ExecDb) (i : string) : option QuotaRow := db.(quotas) !! i.

Definition qualify_quota_failure (db : ExecDb) (i identity : string) (reset_at now : Z)
    : ExecDb * result string (option QuotaRow) :=
  if bool_decide (Str.trim i = "") || bool_decide (Str.trim identity = "") then (db, Err "qualification quota invalide")
  else if negb (is_some_and (db.(executions) !! i) (λ row, bool_decide (row.(ex_state) = "failed"))) then (db, Ok None)
  else
    match quota_failure_for db i with
    | Some q => (db, Ok (if bool_decide (q.(qt_identity) = identity) then Some q else None))
    | None =>
      if existsb (λ kv, bool_decide (kv.2.(qt_identity) = identity)) (map_to_list db.(quotas)) then (db, Ok None)
      else if (reset_at <? 0) || (now <? 0) then (db, Err "qualification quota invalide")
      else
        let q := mkQuota identity reset_at now None in
        (set_quotas (<[i := q]> db.(quotas)) db, Ok (Some q))
    end.

(** The execution that takes up an execution: its row and its link to the parent. *)
Definition continue_as (db : ExecDb) (parent child inst why : string) (row : ExecRow) (project : option ProjectReference) (now : Z)
    : result string (ExecDb * ExecutionSnapshot) :=
  g ← sql_counter (row.(ex_generation) + 1);
  b ← match project with Some p => b ← sql_counter p.(binding_generation); Ok (Some b) | None => Ok None end;
  db1 ← insert_execution child
          (mkExec row.(ex_submission) (Some inst) (project_id <$> project) b g "starting" 0 (Some "accepted") now now) db;
  db2 ← insert_continuation child (mkCont g parent "reconstructed" (Some why) now) db1;
  Ok (db2, mkSnapshot child project "starting" g 0 now).

Definition reconstruct_quota_failed (db : ExecDb) (parent identity inst child : string) (now : Z)
    : ExecDb * result string QuotaRecoveryOutcome :=
  commit_exec db (
    if bool_decide (Str.trim parent = "") || bool_decide (Str.trim identity = "") || bool_decide (Str.trim inst = "")
       || bool_decide (Str.trim child = "") || (now <? 0)
    then Err "reconstruction quota invalide"
    else
      match quota_failure_for db parent with
      | None => Ok (db, NotQualified)
      | Some q =>
        if negb (bool_decide (q.(qt_identity) = identity)) then Ok (db, NotQualified)
        else
          match q.(qt_resume) with
          | Some i => Ok (db, AlreadyResumed i)
          | None =>
            s ← execution_snapshot db parent;
            match s, db.(executions) !! parent with
            | Some s, Some row =>
              if negb (bool_decide (s.(sn_state) = "failed")) then Ok (db, NotFailed)
              else if negb (bool_decide (children db parent = [])) then Ok (db, NotLeaf)
              else
                m ← execution_message db parent;
                m ← ok_or m "Query returned no rows";
                '(db1, s1) ← continue_as db parent child inst "usage_limit_reset" row s.(sn_project) now;
                let q1 := mkQuota q.(qt_identity) q.(qt_reset_at) q.(qt_qualified_at) (Some child) in
                Ok (set_quotas (<[parent := q1]> db1.(quotas)) db1, QuotaReconstructed (mkReconstructed parent s1 m))
            | _, _ => Ok (db, NotFailed)
            end
          end
      end).

(** ** Pauses *)

Definition record_pause_interruption (db : ExecDb) (i target : string) (control_generation now : Z) : ExecDb * result string () :=
  match sql_counter control_generation with
  | Err e => (db, Err e)
  | Ok g =>
    if is_some (db.(pauses) !! i) then (db, Ok ())
    else if negb (is_some (db.(executions) !! i)) then (db, Err "FOREIGN KEY constraint failed")
    else (set_pauses (<[i := mkPauseRow target g now None None]> db.(pauses)) db, Ok ())
  end.

Definition pending_pause_interruptions (db : ExecDb) : list (string * string) :=
  (λ kv : string * PauseRow, (kv.1, kv.2.(pz_target))) <$>
  sort_by (λ a b, (a.2.(pz_requested_at) <? b.2.(pz_requested_at))
             || ((a.2.(pz_requested_at) =? b.2.(pz_requested_at)) && String.leb a.1 b.1))
    (select (λ kv, negb (is_some kv.2.(pz_resumed_at))) (map_to_list db.(pauses))).

(** An open pause is closed, with the execution that resumes it. *)
Definition close_pause (i : string) (now : Z) (resume : option string) (db : ExecDb) : ExecDb :=
  match db.(pauses) !! i with
  | Some p =>
    if is_some p.(pz_resumed_at) then db
    else set_pauses (<[i := mkPauseRow p.(pz_target) p.(pz_generation) p.(pz_requested_at) (Some now) resume]> db.(pauses)) db
  | None => db
  end.

Definition abandon_pause_interruption (db : ExecDb) (i : string) (now : Z) : ExecDb * bool :=
  (close_pause i now None db, pause_open db i).

(** ** Reconstruction after the loss of the provider *)

(** The message of the submission, when it is kept and can be read. *)
Definition kept_message (db : ExecDb) (row : ExecRow) : option BridgetMessage :=
  s ← db.(submissions) !! row.(ex_submission); j ← s.(sub_message); message_from_json j.
(** The state and the reason of the parent that is closed, when it can be. *)
Definition closed_parent (db : ExecDb) (i : string) (row : ExecRow) (now : Z) : option ExecRow :=
  if bool_decide (row.(ex_state) ∈ RECOVERABLE_STATES) then Some (with_transition "unreachable" "daemon_restart" now row)
  else if bool_decide (row.(ex_state) = "interrupted") && pause_open db i
  then Some (with_transition "interrupted" "control_resume" now row) else None.

Definition reconstruct_active_for_agent (db : ExecDb) (target inst child : string) (now : Z)
    : ExecDb * result string ExecutionRecoveryOutcome :=
  commit_exec db (
    if bool_decide (Str.trim target = "") || bool_decide (Str.trim inst = "") || bool_decide (Str.trim child = "") || (now <? 0)
    then Err "reconstruction d'exécution invalide"
    else
      match take 2 (recoverable db target) with
      | [] => Ok (db, RecoveryNone)
      | [(parent, row)] =>
        project ← execution_project row.(ex_project) row.(ex_binding);
        match kept_message db row with
        | None =>
          Ok (if bool_decide (row.(ex_state) ∈ RECOVERABLE_STATES)
              then set_executions (<[parent := with_transition "unreachable" "recovery_payload_unavailable" now row]> db.(executions)) db
              else db,
              PayloadUnavailable parent)
        | Some m =>
          closed ← ok_or (closed_parent db parent row now) "Query returned no rows";
          let db1 := set_executions (<[parent := closed]> db.(executions)) db in
          '(db2, s) ← continue_as db1 parent child inst "daemon_restart" row project now;
          Ok (close_pause parent now (Some child) db2, Reconstructed (mkReconstructed parent s m))
        end
      | (i, row) :: (i', row') :: _ =>
        _ ← execution_project row.(ex_project) row.(ex_binding);
        _ ← execution_project row'.(ex_project) row'.(ex_binding);
        Ok (db, AmbiguousExecutions [i; i'])
      end).

(** ** Control commands *)

Definition control_status (row : ControlCommandRow) : ControlCommandStatus :=
  if bool_decide (row.(cc_state) = "prepared") then StatusPrepared
  else if bool_decide (row.(cc_state) = "dispatched") then StatusDispatched
  else if bool_decide (row.(cc_state) = "accepted") then StatusAccepted
  else if bool_decide (row.(cc_state) = "refused") then StatusRefused (default "refus_sans_raison" row.(cc_refusal))
  else StatusRefused "etat_controle_inconnu".
Definition stored_control (row : ControlCommandRow) : result string StoredControlCommand :=
  w ← ok_or (warnings_from_json row.(cc_warnings)) "FromSqlConversionFailure";
  Ok (mkStored row.(cc_execution) (control_status row) row.(cc_expires_at) w).

Definition reserve_control_command (db : ExecDb) (scope command execution bytes : string) (now expires : Z)
    : ExecDb * result string ControlReservation :=
  match db.(controls) !! (scope, command) with
  | Some row =>
    (db, if row.(cc_expires_at) <=? now then Ok ControlExpired
         else if negb (bool_decide (row.(cc_bytes) = bytes)) then Ok ControlMismatch
         else c ← stored_control row; Ok (ControlReplayed c))
  | None =>
    if negb (is_some (db.(executions) !! execution)) then (db, Err "FOREIGN KEY constraint failed")
    else (set_controls (<[(scope, command) := mkControl bytes execution "prepared" None now now expires "[]"]> db.(controls)) db,
          Ok ControlNew)
  end.

(** One [UPDATE .. WHERE key AND state]: whether its row changed. *)
Definition update_control (k : string * string) (expected : string) (f : ControlCommandRow → ControlCommandRow) (db : ExecDb)
    : ExecDb * bool :=
  match db.(controls) !! k with
  | Some row =>
    if bool_decide (row.(cc_state) = expected) then (set_controls (<[k := f row]> db.(controls)) db, true) else (db, false)
  | None => (db, false)
  end.
Definition with_control (state : string) (refusal : option string) (now : Z) (warnings : string) (row : ControlCommandRow)
    : ControlCommandRow :=
  mkControl row.(cc_bytes) row.(cc_execution) state refusal row.(cc_created_at) now row.(cc_expires_at) warnings.

Definition mark_control_dispatched (db : ExecDb) (scope command : string) (now : Z) (w : list ProjectWarning)
    : ExecDb * result string bool :=
  match warnings_to_json w with
  | None => (db, Err "ToSqlConversionFailure")
  | Some json =>
    let '(db', b) := update_control (scope, command) "prepared"
      (λ row, with_control "dispatched" row.(cc_refusal) now json row) db in (db', Ok b)
  end.
Definition refuse_control_command (db : ExecDb) (scope command why : string) (now : Z) : ExecDb * bool :=
  update_control (scope, command) "prepared" (λ row, with_control "refused" (Some why) now row.(cc_warnings) row) db.
Definition resolve_control_command (db : ExecDb) (scope command : string) (accepted : bool) (why : option string) (now : Z)
    : ExecDb * bool :=
  update_control (scope, command) "dispatched"
    (λ row, with_control (if accepted then "accepted" else "refused") why now row.(cc_warnings) row) db.
Definition lookup_control_command (db : ExecDb) (scope command : string) (now : Z) : result string (option StoredControlCommand) :=
  match db.(controls) !! (scope, command) with
  | Some row => if now <? row.(cc_expires_at) then c ← stored_control row; Ok (Some c) else Ok None
  | None => Ok None
  end.

(** ** Summaries *)

Definition empty_summary : AgentExecutionSummary := mkSummary None None 0 None.
Definition count_queued (t : gmap string AgentExecutionSummary) (q : QueueRow) : gmap string AgentExecutionSummary :=
  let e := default empty_summary (t !! q.(q_target)) in
  <[q.(q_target) := mkSummary e.(sm_state) e.(sm_updated_at) (e.(sm_queue_depth) + 1) e.(sm_continuation_mode)]> t.
Definition add_active (db : ExecDb) (t : gmap string AgentExecutionSummary) (kv : string * ExecRow) : gmap string AgentExecutionSummary :=
  match target_of db kv.2 with
  | None => t
  | Some target =>
    let e := default empty_summary (t !! target) in
    if is_some e.(sm_state) then <[target := e]> t
    else <[target := mkSummary (Some kv.2.(ex_state)) (Some kv.2.(ex_updated_at)) e.(sm_queue_depth)
                       (cn_mode <$> db.(continuations) !! kv.1)]> t
  end.
Definition agent_execution_summaries (db : ExecDb) : gmap string AgentExecutionSummary :=
  let queued := fold_left count_queued (map_to_list db.(queue)).*2 ∅ in
  fold_left (add_active db)
    (sort_by (λ a b, (b.2.(ex_updated_at) <? a.2.(ex_updated_at))
                || ((a.2.(ex_updated_at) =? b.2.(ex_updated_at)) && String.leb b.1 a.1))
       (select (λ kv, bool_decide (kv.2.(ex_state) ∈ ACTIVE_STATES)) (map_to_list db.(executions)))) queued.

(** ** Chains *)

(** [j] continues [i]. *)
Definition continues (db : ExecDb) (i j : string) : Prop := ∃ c, db.(continuations) !! j = Some c ∧ c.(cn_parent) = i.

Lemma children_elem db i j : j ∈ children db i ↔ continues db i j.
Proof.
  unfold children, continues. rewrite list_elem_of_fmap. split.
  - intros ([j' c] & -> & [Hj Hp]%select_elem). apply elem_of_map_to_list in Hj. apply bool_decide_eq_true in Hp. eauto.
  - intros (c & Hj & Hp). exists (j, c). split; [done|]. apply select_elem. split; [by apply elem_of_map_to_list|].
    by apply bool_decide_eq_true_2.
Qed.

Lemma children_nodup db i : NoDup (children db i).
Proof. apply unique_select. unfold unique. apply NoDup_fst_map_to_list. Qed.

(** The members found so far: those still to do are among them, the others have
    all their children among them. *)
Record lineage_inv (db : ExecDb) (root : string) (todo seen : list string) : Prop := mkLineage {
  li_nodup : NoDup seen;
  li_todo : todo ⊆ seen;
  li_root : root ∈ seen;
  li_reach : ∀ j, j ∈ seen → rtc (continues db) root j;
  li_known : ∀ j, j ∈ seen → j = root ∨ is_Some (db.(continuations) !! j);
  li_done : ∀ j k, j ∈ seen → j ∉ todo → continues db j k → k ∈ seen }.

Lemma lineage_step db root i todo seen :
  lineage_inv db root (i :: todo) seen →
  let new := select (λ j, negb (bool_decide (j ∈ seen))) (children db i) in
  lineage_inv db root (todo ++ new) (seen ++ new).
Proof.
  intros [Hn Ht Hr Hreach Hk Hd] new.
  assert (∀ j, j ∈ new ↔ continues db i j ∧ j ∉ seen) as Hnew.
  { intros j. unfold new. rewrite select_elem, children_elem, negb_true_iff, bool_decide_eq_false. done. }
  constructor.
  - apply NoDup_app. split_and!; [done| |].
    + intros j Hj Hj'. by apply Hnew in Hj' as [_ ?].
    + pose proof (unique_select (λ j, j) (λ j, negb (bool_decide (j ∈ seen))) (children db i)) as Hu.
      unfold unique in Hu. rewrite !list_fmap_id in Hu. apply Hu, children_nodup.
  - set_solver.
  - set_solver.
  - intros j [Hj|Hj]%elem_of_app; [by apply Hreach|]. apply Hnew in Hj as [Hj _].
    eapply rtc_r; [apply Hreach, Ht; left|done].
  - intros j [Hj|Hj]%elem_of_app; [by apply Hk|]. apply Hnew in Hj as [(c & Hc & _) _]. right. by exists c.
  - intros j k [Hj|Hj]%elem_of_app Hnt Hjk; [|set_solver]. apply elem_of_app. destruct (decide (j = i)) as [->|Hne].
    + destruct (decide (k ∈ seen)); [by left|]. right. by apply Hnew.
    + left. apply (Hd j k); [done| |done]. set_solver.
Qed.

Lemma lineage_length db root todo seen :
  lineage_inv db root todo seen → (length seen ≤ S (size db.(continuations)))%nat.
Proof.
  intros [Hn _ _ _ Hk _]. assert (seen ⊆ root :: elements (dom db.(continuations))) as Hsub.
  { intros j Hj. destruct (Hk j Hj) as [->|Hs]; [left|right]. by apply elem_of_elements, elem_of_dom. }
  apply NoDup_submseteq, submseteq_length in Hsub; [|done]. simpl in Hsub. by rewrite <-size_dom.
Qed.

Lemma lineage_go_exact db root : ∀ fuel todo seen,
  lineage_inv db root todo seen → (S (size db.(continuations)) + length todo ≤ fuel + length seen)%nat →
  ∃ l, lineage_go fuel db todo seen = Some l ∧ lineage_inv db root [] l.
Proof.
  induction fuel as [|fuel IH]; intros [|i todo] seen Hi Hf.
  - by exists seen.
  - pose proof (lineage_length _ _ _ _ Hi). simpl in Hf. lia.
  - by exists seen.
  - simpl. apply IH; [by apply lineage_step|]. rewrite !length_app. simpl in Hf. lia.
Qed.

(** The members of a chain: the root and all that continue it, once each. *)
Lemma lineage_members db root :
  ∃ l, lineage db root = Some l ∧ NoDup l ∧ ∀ j, j ∈ l ↔ rtc (continues db) root j.
Proof.
  destruct (lineage_go_exact db root (S (size db.(continuations))) [root] [root]) as (l & Hl & [Hn _ Hr Hreach _ Hd]).
  - constructor; [apply NoDup_singleton|done|by left| | |].
    + intros j ->%list_elem_of_singleton. done.
    + intros j ->%list_elem_of_singleton. by left.
    + intros j k ->%list_elem_of_singleton Hj. destruct Hj. by left.
  - simpl. lia.
  - exists l. split_and!; [done..|]. intros j. split; [by apply Hreach|]. intros Hj.
    revert j Hj. apply (rtc_ind_r (λ j, j ∈ l) root); [done|]. intros j k _ Hjk IH. apply (Hd j k); [done| |done].
    by intros ?%elem_of_nil.
Qed.

(** The leaves of a chain that are executions. *)
Definition leaf_of (db : ExecDb) (root i : string) (row : ExecRow) : Prop :=
  db.(executions) !! i = Some row ∧ rtc (continues db) root i ∧ ∀ j, ¬ continues db i j.

Lemma no_children db i : children db i = [] ↔ ∀ j, ¬ continues db i j.
Proof.
  split.
  - intros Hn j Hj. apply children_elem in Hj. rewrite Hn in Hj. by apply elem_of_nil in Hj.
  - intros Hn. destruct (children db i) as [|j l] eqn:Hc; [done|]. destruct (Hn j). apply children_elem. rewrite Hc. left.
Qed.

(** The recursive query of a chain ends and is exact.  On any tables, cyclic
    ones included, it finds the root and every execution that continues it,
    directly or not, once each; the budget of an execution counts exactly its
    descendants; and the latest execution of a chain is one of its leaves, with
    the greatest generation, and is missing only when no leaf exists. *)
Lemma chain_exact db root now :
  ∃ l, lineage db root = Some l ∧ NoDup l ∧ (∀ j, j ∈ l ↔ rtc (continues db) root j) ∧
    (∀ f, execution_budget_facts db root now = Ok (Some f) → f.(bf_descendants) = Z.of_nat (length l) - 1) ∧
    (∀ s, latest_in_chain db root = Ok (Some s) →
       ∃ row, leaf_of db root s.(sn_execution_id) row ∧
         ∀ i row', leaf_of db root i row' → row'.(ex_generation) ≤ row.(ex_generation)) ∧
    (latest_in_chain db root = Ok None → ∀ i row, ¬ leaf_of db root i row).
Proof.
  destruct (lineage_members db root) as (l & Hl & Hn & Hm). exists l. unfold latest_in_chain, execution_budget_facts. rewrite Hl. simpl.
  set (leaves := select _ (map_to_list db.(executions))).
  assert (∀ i row, (i, row) ∈ leaves ↔ leaf_of db root i row) as Hleaf.
  { intros i row. unfold leaves, leaf_of. rewrite select_elem, elem_of_map_to_list. simpl.
    rewrite andb_true_iff, !bool_decide_eq_true, Hm, no_children. done. }
  split_and!; try done.
  - intros f Hf. destruct (executions db !! root); [|done].
    do 5 (apply bind_Ok in Hf as (? & _ & Hf)). by injection Hf as <-.
  - intros s Hs. destruct (max_by_key _ leaves) as [[i row]|] eqn:Hmax; [|done].
    apply max_by_key_Some in Hmax as [Hin Hmax]. apply Hleaf in Hin. exists row.
    pose proof Hin as (Hrow & _ & _). unfold execution_snapshot in Hs. rewrite Hrow in Hs.
    apply bind_Ok in Hs as (s' & Hs' & [= <-]). apply bind_Ok in Hs' as (p & _ & [= <-]). simpl. split; [done|].
    intros i' row' Hi'. apply (Hmax (i', row')). by apply Hleaf.
  - intros Hs i row Hi. apply Hleaf in Hi. destruct (max_by_key _ leaves) as [[i' row']|] eqn:Hmax.
    + apply max_by_key_Some in Hmax as [Hin _]. apply Hleaf in Hin as (Hrow & _ & _).
      unfold execution_snapshot in Hs. rewrite Hrow in Hs. apply bind_Ok in Hs as (s' & _ & ?). done.
    + destruct leaves as [|? ?]; [by apply elem_of_nil in Hi|done].
Qed.

(** ** Runs *)

Inductive ExecOp :=
  | OpRecordStarting (submission execution target : string) (project : option ProjectReference) (now : Z)
  | OpAdmitStarting (submission execution target : string) (project : option ProjectReference) (now : Z)
  | OpAdmitStartingMessage (m : BridgetMessage) (execution : string) (project : option ProjectReference) (now : Z)
  | OpAdmitSubmission (submission target : string) (priority now : Z)
  | OpAdmitMessage (m : BridgetMessage) (priority now : Z)
  | OpTakeNext (target : string)
  | OpPrepare (i : string) (row : SubmissionRow)
  | OpAccept (request : option (string * string * Z)) (canonical : string) (revision : Z) (project : option ProjectReference) (now : Z)
  | OpProviderContext (c : ExecutionProviderContext)
  | OpContinuation (i : string) (generation : Z) (parent : string) (mode : ContinuationMode) (why : option string) (now : Z)
  | OpUsage (x : ExecutionUsageSample)
  | OpReserveContinuation (parent : string) (generation revision : Z) (continuation : string) (proof now : Z)
      (context : ContinuationReservationContext)
  | OpQualifyQuota (i identity : string) (reset_at now : Z)
  | OpReconstructQuota (parent identity inst child : string) (now : Z)
  | OpPause (i target : string) (control_generation now : Z)
  | OpAbandonPause (i : string) (now : Z)
  | OpReconstruct (target inst child : string) (now : Z)
  | OpTransition (i expected : string) (revision generation : Z) (next why : string) (now : Z)
  | OpExpireStarting (cutoff now : Z)
  | OpReserveControl (scope command execution bytes : string) (now expires : Z)
  | OpDispatchControl (scope command : string) (now : Z) (w : list ProjectWarning)
  | OpRefuseControl (scope command why : string) (now : Z)
  | OpResolveControl (scope command : string) (accepted : bool) (why : option string) (now : Z).

(** What a step tells its caller to do: run a submission, send a command. *)
Inductive ExecEffect := RunSubmission (s : QueuedSubmission) | SendCommand (k : string * string).

Definition exec_step (db : ExecDb) (op : ExecOp) : ExecDb * list ExecEffect :=
  match op with
  | OpRecordStarting s e t p now => ((record_starting_for_project db s e t p now).1, [])
  | OpAdmitStarting s e t p now => ((admit_starting_for_project db s e t p now).1, [])
  | OpAdmitStartingMessage m e p now => ((admit_starting_message_for_project db m e p now).1, [])
  | OpAdmitSubmission s t prio now => ((admit_submission db s t prio now).1, [])
  | OpAdmitMessage m prio now => ((admit_message_submission db m prio now).1, [])
  | OpTakeNext t =>
    match take_next_submission db t with (db', Ok (Some x)) => (db', [RunSubmission x]) | (db', _) => (db', []) end
  | OpPrepare i row => ((prepare_submission db i row).1, [])
  | OpAccept request canonical revision p now => ((accept_submission db request canonical revision p now).1, [])
  | OpProviderContext c => ((record_provider_context db c).1, [])
  | OpContinuation i g p m w now => ((record_continuation db i g p m w now).1, [])
  | OpUsage x => ((record_execution_usage db x).1, [])
  | OpReserveContinuation p g r c proof now ctx => ((reserve_continuation_with_context db p g r c proof now ctx).1, [])
  | OpQualifyQuota i identity reset now => ((qualify_quota_failure db i identity reset now).1, [])
  | OpReconstructQuota p identity inst child now => ((reconstruct_quota_failed db p identity inst child now).1, [])
  | OpPause i t g now => ((record_pause_interruption db i t g now).1, [])
  | OpAbandonPause i now => ((abandon_pause_interruption db i now).1, [])
  | OpReconstruct t inst child now => ((reconstruct_active_for_agent db t inst child now).1, [])
  | OpTransition i e r g next why now => ((transition_if_current db i e r g next why now).1, [])
  | OpExpireStarting cutoff now => ((expire_starting_before db cutoff now).1, [])
  | OpReserveControl s c e b now x => ((reserve_control_command db s c e b now x).1, [])
  | OpDispatchControl s c now w =>
    match mark_control_dispatched db s c now w with (db', Ok true) => (db', [SendCommand (s, c)]) | (db', _) => (db', []) end
  | OpRefuseControl s c why now => ((refuse_control_command db s c why now).1, [])
  | OpResolveControl s c acc why now => ((resolve_control_command db s c acc why now).1, [])
  end.

Fixpoint exec_run (db : ExecDb) (ops : list ExecOp) : ExecDb * list ExecEffect :=
  match ops with
  | [] => (db, [])
  | op :: ops => let '(db1, l1) := exec_step db op in let '(db2, l2) := exec_run db1 ops in (db2, l1 ++ l2)
  end.
Definition empty_execs : ExecDb := mkExecDb ∅ ∅ ∅ ∅ ∅ ∅ ∅ ∅ ∅ ∅.

(** The queue and the commands are untouched, and an accepted submission keeps its row. *)
Definition untouched (db db' : ExecDb) : Prop :=
  db'.(queue) = db.(queue) ∧ db'.(controls) = db.(controls) ∧
  ∀ i s, db.(submissions) !! i = Some s → s.(sub_state) = "accepted" → db'.(submissions) !! i = Some s.

#[local] Instance untouched_preorder : PreOrder untouched.
Proof.
  split; [done|]. intros a b c (H1 & H2 & H3) (K1 & K2 & K3). split_and!; [congruence..|auto].
Qed.

Lemma commit_untouched {X} db (r : result string (ExecDb * X)) :
  (∀ db' x, r = Ok (db', x) → untouched db db') → untouched db (commit_exec db r).1.
Proof. intros Hr. destruct r as [[db' x]|e]; simpl; [by eapply Hr|done]. Qed.

Lemma fresh_submission_untouched i row db :
  db.(submissions) !! i = None → untouched db (set_submissions (<[i := row]> db.(submissions)) db).
Proof.
  intros Hi. split_and!; [done..|]. intros j x Hj _. simpl. rewrite lookup_insert_ne; [done|]. intros ->. congruence.
Qed.
Lemma insert_submission_untouched i row db : untouched db (insert_submission i row db).1.
Proof.
  unfold insert_submission. destruct (db.(submissions) !! i) eqn:Hi; [done|]. simpl. by apply fresh_submission_untouched.
Qed.

Lemma insert_execution_untouched i row db db' : insert_execution i row db = Ok db' → untouched db db'.
Proof. unfold insert_execution. destruct (is_some _); [done|]. destruct (negb _); [done|]. by intros [= <-]. Qed.
Lemma insert_continuation_untouched i row db db' : insert_continuation i row db = Ok db' → untouched db db'.
Proof.
  unfold insert_continuation. destruct (is_some _); [done|]. destruct (negb _); [done|]. destruct (negb _); [done|]. by intros [= <-].
Qed.
Lemma continue_as_untouched db parent child inst why row project now db' s :
  continue_as db parent child inst why row project now = Ok (db', s) → untouched db db'.
Proof.
  intros (g & _ & H0)%bind_Ok. apply bind_Ok in H0 as (b & _ & H0). apply bind_Ok in H0 as (db1 & H1 & H0).
  apply bind_Ok in H0 as (db2 & H2 & [= <- _]). etransitivity; [by eapply insert_execution_untouched|by eapply insert_continuation_untouched].
Qed.
Lemma close_pause_untouched i now resume db : untouched db (close_pause i now resume db).
Proof. unfold close_pause. destruct (_ !! _); [|done]. by destruct (is_some _). Qed.

Lemma admit_untouched db i row e p now : untouched db (admit_with db i row e p now).1.
Proof.
  apply commit_untouched. intros db' x. pose proof (insert_submission_untouched i row db) as Hu.
  destruct (insert_submission i row db) as [db1 []]; simpl in Hu; [|by intros [= <- _]].
  intros (ex & _ & H0)%bind_Ok. apply bind_Ok in H0 as (db2 & H2 & [= <- _]). etransitivity; [done|by eapply insert_execution_untouched].
Qed.
Lemma record_starting_untouched db s e t p now : untouched db (record_starting_for_project db s e t p now).1.
Proof.
  apply commit_untouched. intros db' x. destruct (is_some_and _ _); [done|].
  set (row := mkSub _ _ _ _ _ _ _). pose proof (insert_submission_untouched s row db) as Hu.
  destruct (insert_submission s row db) as [db1 b]; simpl in Hu. intros (ex & _ & H0)%bind_Ok.
  destruct (is_some (executions db1 !! e)); [by injection H0 as <- _|].
  apply bind_Ok in H0 as (db2 & H2 & [= <- _]). etransitivity; [done|by eapply insert_execution_untouched].
Qed.
Lemma accept_untouched db request canonical revision p now : untouched db (accept_submission db request canonical revision p now).1.
Proof.
  apply commit_untouched. intros db' x H0. apply bind_Ok in H0 as ([[i stored] rev] & _ & H0). destruct (_ || _); [done|].
  destruct (_ !! i) as [s|] eqn:Hi; [|by injection H0 as <- _].
  case_bool_decide as Hs; [|by injection H0 as <- _]. apply bind_Ok in H0 as (e & _ & H0). apply bind_Ok in H0 as (db1 & H1 & [= <- _]).
  etransitivity; [|by eapply insert_execution_untouched]. split_and!; [done..|]. intros j y Hj Ha. simpl.
  rewrite lookup_insert_ne; [done|]. intros ->. congruence.
Qed.
Lemma record_continuation_untouched db i g p m w now : untouched db (record_continuation db i g p m w now).1.
Proof.
  apply commit_untouched. intros db' x. repeat first [case_match|done|by intros [= <- _]].
  intros (db1 & Hc & [= <- _])%bind_Ok. by eapply insert_continuation_untouched.
Qed.
Lemma usage_untouched db x : untouched db (record_execution_usage db x).1.
Proof.
  unfold record_execution_usage. case_match; [done|]. apply commit_untouched. intros db' b H0.
  do 4 (apply bind_Ok in H0 as (? & _ & H0)). by case_match; simplify_eq.
Qed.
Lemma reconstruct_quota_untouched db p identity inst child now : untouched db (reconstruct_quota_failed db p identity inst child now).1.
Proof.
  apply commit_untouched. intros db' x. repeat first [case_match|done|by intros [= <- _]].
  all: intros (s & _ & Hr)%bind_Ok; repeat first [case_match|done|by injection Hr as <- _].
  apply bind_Ok in Hr as (m & _ & Hr). apply bind_Ok in Hr as (m' & _ & Hr). apply bind_Ok in Hr as ([db1 s1] & Hc & Hr).
  injection Hr as <- _. etransitivity; [by eapply continue_as_untouched|done].
Qed.
Lemma reconstruct_untouched db t inst child now : untouched db (reconstruct_active_for_agent db t inst child now).1.
Proof.
  apply commit_untouched. intros db' x. case_match; [done|].
  destruct (take 2 (recoverable db t)) as [|[p row] [|[p' row'] l]]; [by intros [= <- _]| |].
  - intros (pr & _ & Hr)%bind_Ok. case_match; [|by repeat case_match; injection Hr as <- _].
    apply bind_Ok in Hr as (cl & _ & Hr). apply bind_Ok in Hr as ([db2 s] & Hc & Hr). injection Hr as <- _.
    etransitivity; [|apply close_pause_untouched]. etransitivity; [|by eapply continue_as_untouched]. done.
  - intros (? & _ & Hr)%bind_Ok. by apply bind_Ok in Hr as (? & _ & [= <- _]).
Qed.

(** The operations that neither queue, take nor command. *)
Definition inert (op : ExecOp) : bool :=
  match op with
  | OpAdmitSubmission _ _ _ _ | OpAdmitMessage _ _ _ | OpTakeNext _ | OpReserveControl _ _ _ _ _ _
  | OpDispatchControl _ _ _ _ | OpRefuseControl _ _ _ _ | OpResolveControl _ _ _ _ _ => false
  | _ => true
  end.

Lemma inert_untouched db op : inert op = true → untouched db (exec_step db op).1 ∧ (exec_step db op).2 = [].
Proof.
  intros Hop. split; [|by destruct op]. destruct op; simpl; try done.
  - apply record_starting_untouched.
  - apply admit_untouched.
  - unfold admit_starting_message_for_project. case_match; [apply admit_untouched|done].
  - unfold prepare_submission. destruct (_ !! i) eqn:Hi; [done|]. simpl. by apply fresh_submission_untouched.
  - apply accept_untouched.
  - unfold record_provider_context. by repeat case_match.
  - apply record_continuation_untouched.
  - apply usage_untouched.
  - unfold reserve_continuation_with_context. by repeat case_match.
  - unfold qualify_quota_failure. by repeat case_match.
  - apply reconstruct_quota_untouched.
  - unfold record_pause_interruption. by repeat case_match.
  - apply close_pause_untouched.
  - apply reconstruct_untouched.
  - apply commit_untouched. intros db' x. case_match; [|by intros [= <- _]].
    intros (s & _ & H0)%bind_Ok. by case_match; simplify_eq.
Qed.

(** ** The queue along a run *)

(** The submissions that the steps of a run gave to be run, and the commands to be sent. *)
Definition runs (fx : list ExecEffect) : list string :=
  omap (λ e, match e with RunSubmission x => Some x.(qs_submission_id) | SendCommand _ => None end) fx.
Definition sends (fx : list ExecEffect) : list (string * string) :=
  omap (λ e, match e with RunSubmission _ => None | SendCommand k => Some k end) fx.

(** The message of a row is none, or one that was written. *)
Definition kept (i : string) (s : SubmissionRow) : Prop :=
  s.(sub_message) = None ∨
  ∃ m j, message_to_json m = Some j ∧ s.(sub_message) = Some j ∧ m.(id) = i ∧ m.(to) = s.(sub_target).

Record queue_inv (db : ExecDb) (taken : list string) : Prop := mkQueueInv {
  qi_rows : ∀ i q, db.(queue) !! i = Some q →
    ∃ s, db.(submissions) !! i = Some s ∧ s.(sub_state) = "accepted" ∧ s.(sub_target) = q.(q_target) ∧ kept i s;
  qi_taken : ∀ i, i ∈ taken → db.(queue) !! i = None ∧ ∃ s, db.(submissions) !! i = Some s ∧ s.(sub_state) = "accepted";
  qi_nodup : NoDup taken }.

Lemma untouched_queue_inv db db' taken : untouched db db' → queue_inv db taken → queue_inv db' taken.
Proof.
  intros (Hq & _ & Hs) [Hr Ht Hn]. split; [| |done].
  - intros i q. rewrite Hq. intros (s & Hi & Ha & ?)%Hr. eauto 10.
  - intros i (Hi & s & Hi' & Ha)%Ht. rewrite Hq. eauto 10.
Qed.

Lemma enqueue_queue_inv db i row prio now taken :
  row.(sub_state) = "accepted" → kept i row → queue_inv db taken → queue_inv (enqueue db i row prio now).1 taken.
Proof.
  intros Ha Hk Hinv. unfold enqueue, insert_submission. destruct (db.(submissions) !! i) eqn:Hi; [done|]. simpl.
  destruct (db.(queue) !! i) eqn:Hqi; [done|]. simpl. destruct Hinv as [Hr Ht Hn]. split; [| |done]; simpl.
  - intros j q. destruct (decide (i = j)) as [->|Hne].
    + rewrite !lookup_insert_eq. intros [= <-]. eauto 10.
    + rewrite !lookup_insert_ne by done. apply Hr.
  - intros j (Hj & s & Hs & Hsa)%Ht. assert (i ≠ j) by (intros ->; congruence). rewrite !lookup_insert_ne by done. eauto.
Qed.

Lemma enqueue_keeps db j row prio now i q :
  db.(queue) !! i = Some q → (enqueue db j row prio now).1.(queue) !! i = Some q.
Proof.
  intros Hi. unfold enqueue, insert_submission. destruct (is_some (db.(submissions) !! j)); [done|]. simpl.
  destruct (db.(queue) !! j) eqn:Hj; [done|]. simpl. rewrite lookup_insert_ne; [done|]. intros ->. congruence.
Qed.

Lemma message_row_kept m now row : message_row m now = Ok row → row.(sub_state) = "accepted" ∧ kept m.(id) row.
Proof.
  intros (j & Hj & H0)%bind_Ok. apply bind_Ok in H0 as (r & _ & [= <-]). split; [done|]. right. exists m, j.
  split_and!; [|done..]. by destruct (message_to_json m); simplify_eq/=.
Qed.

Lemma queue_leb_total a b : queue_leb a b = false → queue_leb b a = true.
Proof.
  unfold queue_leb. destruct a as [i [t p e]], b as [j [u p' e']]; simpl. intros H.
  destruct (Z.lt_trichotomy p p') as [?|[->|?]].
  - by replace (p <? p') with true by lia.
  - rewrite Z.ltb_irrefl, Z.eqb_refl in *. simpl in *. destruct (Z.lt_trichotomy e e') as [?|[->|?]].
    + by replace (e <? e') with true in H by lia.
    + rewrite Z.ltb_irrefl, Z.eqb_refl in *. simpl in *. by apply string_leb_total.
    + by replace (e' <? e) with true by lia.
  - by replace (p' <? p) with true in H by lia.
Qed.
Lemma queue_leb_spec a b : queue_leb a b = true ↔
  b.2.(q_priority) < a.2.(q_priority) ∨
  b.2.(q_priority) = a.2.(q_priority) ∧
  (a.2.(q_enqueued_at) < b.2.(q_enqueued_at) ∨ a.2.(q_enqueued_at) = b.2.(q_enqueued_at) ∧ String.leb a.1 b.1 = true).
Proof.
  unfold queue_leb. rewrite !orb_true_iff, !andb_true_iff, !orb_true_iff, !andb_true_iff, !Z.ltb_lt, !Z.eqb_eq. naive_solver.
Qed.
Lemma queue_leb_trans a b c : queue_leb a b = true → queue_leb b c = true → queue_leb a c = true.
Proof.
  rewrite !queue_leb_spec. intros [?|(? & [?|[? H1]])] [?|(? & [?|[? H2]])]; first [lia|idtac].
  all: right; split; [lia|]; first [left; lia|right; split; [lia|by eapply string_leb_trans]].
Qed.

Lemma waiting_head db t i q :
  head (waiting db t) = Some (i, q) →
  db.(queue) !! i = Some q ∧ q.(q_target) = t ∧
  is_some_and (db.(submissions) !! i) (λ s, bool_decide (s.(sub_state) = "accepted")) = true.
Proof.
  intros Hh. apply head_Some_elem_of in Hh. unfold waiting in Hh. rewrite sort_by_perm, select_elem, elem_of_map_to_list in Hh.
  destruct Hh as [Hq Hb]. simpl in Hb. apply andb_true_iff in Hb as [Hb1%bool_decide_eq_true Hb2]. done.
Qed.

Lemma take_queue_inv db t taken :
  queue_inv db taken →
  queue_inv (exec_step db (OpTakeNext t)).1 (taken ++ runs (exec_step db (OpTakeNext t)).2).
Proof.
  intros Hinv. simpl. unfold take_next_submission. destruct (head (waiting db t)) as [[i q]|] eqn:Hh; [|simpl; by rewrite app_nil_r].
  destruct (mbind _ _) as [[db' o]|e] eqn:Hm; [|simpl; by rewrite app_nil_r]. simpl.
  apply bind_Ok in Hm as (m & _ & [= <- <-]). simpl. apply waiting_head in Hh as (Hq & _ & _).
  destruct Hinv as [Hr Ht Hn]. destruct (Hr i q Hq) as (s & Hs & Ha & _ & _). split; simpl.
  - intros j qj Hj. apply lookup_delete_Some in Hj as [? Hj]. eauto.
  - intros j [Hj|Hj]%elem_of_app.
    + apply Ht in Hj as [Hj ?]. split; [|done]. apply lookup_delete_None. auto.
    + apply list_elem_of_singleton in Hj as ->. rewrite lookup_delete_eq. eauto.
  - apply NoDup_app. split_and!; [done| |apply NoDup_singleton]. intros j Hj Hi. apply list_elem_of_singleton in Hi as ->.
    apply Ht in Hj as [Hj _]. congruence.
Qed.

Lemma control_frame db k e f : (update_control k e f db).1.(queue) = db.(queue) ∧ (update_control k e f db).1.(submissions) = db.(submissions).
Proof. unfold update_control. by repeat case_match. Qed.

Lemma queue_inv_frame db db' taken :
  db'.(queue) = db.(queue) → db'.(submissions) = db.(submissions) → queue_inv db taken → queue_inv db' taken.
Proof. intros Hq Hs [? ? ?]. split; [rewrite Hq, Hs|rewrite Hq, Hs|]; done. Qed.

Lemma mark_control_cases db s c now w :
  (∃ j, let r := update_control (s, c) "prepared" (λ row, with_control "dispatched" row.(cc_refusal) now j row) db in
        exec_step db (OpDispatchControl s c now w) = (r.1, if r.2 then [SendCommand (s, c)] else []))
  ∨ exec_step db (OpDispatchControl s c now w) = (db, []).
Proof.
  simpl. unfold mark_control_dispatched. destruct (warnings_to_json w) as [j|]; [|by right].
  left. exists j. by destruct (update_control _ _ _ db) as [db' []].
Qed.

Lemma step_queue_inv db op taken :
  queue_inv db taken → queue_inv (exec_step db op).1 (taken ++ runs (exec_step db op).2).
Proof.
  intros Hinv. destruct (inert op) eqn:Hop.
  { destruct (inert_untouched db op Hop) as [Hu ->]. simpl. rewrite app_nil_r. by eapply untouched_queue_inv. }
  destruct op; try done; try by apply take_queue_inv.
  5-6: simpl; rewrite app_nil_r; eapply queue_inv_frame; [..|done]; apply control_frame.
  - simpl. rewrite app_nil_r. apply enqueue_queue_inv; [done|by left|done].
  - simpl. rewrite app_nil_r. unfold admit_message_submission. destruct (message_row m now) as [row|e] eqn:Hm; [|done].
    apply message_row_kept in Hm as [? ?]. by apply enqueue_queue_inv.
  - simpl. rewrite app_nil_r. unfold reserve_control_command. repeat case_match; simpl; by destruct Hinv.
  - destruct (mark_control_cases db scope command now w) as [(j & ->)| ->]; [|simpl; by rewrite app_nil_r].
    cbn [fst snd]. replace (runs _) with (@nil string) by by case_match. rewrite app_nil_r.
    eapply queue_inv_frame; [apply control_frame..|done].
Qed.

Lemma run_queue_inv ops : ∀ db taken,
  queue_inv db taken → queue_inv (exec_run db ops).1 (taken ++ runs (exec_run db ops).2).
Proof.
  induction ops as [|op ops IH]; intros db taken Hinv; simpl; [by rewrite app_nil_r|].
  apply (step_queue_inv db op) in Hinv. destruct (exec_step db op) as [db1 l1]. simpl in Hinv. apply (IH db1) in Hinv.
  destruct (exec_run db1 ops) as [db2 l2]. simpl in *. unfold runs in *. by rewrite omap_app, app_assoc.
Qed.
Lemma empty_queue_inv : queue_inv empty_execs [].
Proof. split; [by intros i q ?|by intros i ?%elem_of_nil|constructor]. Qed.

(** A submission that waits stays in the queue until it is taken. *)
Lemma step_queue_kept db op i q :
  db.(queue) !! i = Some q → (exec_step db op).1.(queue) !! i = Some q ∨ i ∈ runs (exec_step db op).2.
Proof.
  intros Hq. destruct (inert op) eqn:Hop; [left; by destruct (inert_untouched db op Hop) as [(-> & _) _]|].
  destruct op; try done.
  6-7: left; simpl; unfold refuse_control_command, resolve_control_command; by rewrite (proj1 (control_frame _ _ _ _)).
  - left. by apply enqueue_keeps.
  - left. simpl. unfold admit_message_submission. case_match; [by apply enqueue_keeps|done].
  - simpl. unfold take_next_submission. destruct (head (waiting db target)) as [[j qj]|]; [|by left].
    destruct (mbind _ _) as [[db' o]|e] eqn:Hm; [|by left]. apply bind_Ok in Hm as (m & _ & [= <- <-]). simpl.
    destruct (decide (j = i)) as [->|Hne]; [right; left|left; by rewrite lookup_delete_ne].
  - left. simpl. unfold reserve_control_command. by repeat case_match.
  - left. destruct (mark_control_cases db scope command now w) as [(j & ->)| ->]; [|done].
    cbn [fst]. by rewrite (proj1 (control_frame _ _ _ _)).
Qed.
Lemma run_queue_kept ops : ∀ db i q,
  db.(queue) !! i = Some q → (exec_run db ops).1.(queue) !! i = Some q ∨ i ∈ runs (exec_run db ops).2.
Proof.
  induction ops as [|op ops IH]; intros db i q Hq; simpl; [by left|].
  apply (step_queue_kept db op) in Hq. destruct (exec_step db op) as [db1 l1]. simpl in Hq.
  specialize (IH db1 i q). destruct (exec_run db1 ops) as [db2 l2]. simpl in *. unfold runs in *. rewrite omap_app, elem_of_app.
  naive_solver.
Qed.
Lemma exec_run_app db ops ops' :
  exec_run db (ops ++ ops') =
  let r := exec_run db ops in let r' := exec_run r.1 ops' in (r'.1, r.2 ++ r'.2).
Proof.
  revert db. induction ops as [|op ops IH]; intros db; simpl; [by destruct (exec_run db ops')|].
  destruct (exec_step db op) as [db1 l1]. rewrite IH. destruct (exec_run db1 ops) as [db2 l2]. simpl. by rewrite app_assoc.
Qed.

(** C33: no submission is run twice and none is lost.  Along any run of the store
    from its empty tables, whatever the operations and their order, the queue
    gives each submission at most once; a submission that was given is not in the
    queue and can never be queued again; and one that waits is, after any further
    operations, still there with its priority and its place, or it was given. *)
Theorem submission_taken_once ops ops' :
  let r := exec_run empty_execs ops in
  let r' := exec_run r.1 ops' in
  NoDup (runs (r.2 ++ r'.2)) ∧
  (∀ i, i ∈ runs r.2 → r'.1.(queue) !! i = None) ∧
  (∀ i q, r.1.(queue) !! i = Some q → r'.1.(queue) !! i = Some q ∨ i ∈ runs r'.2).
Proof.
  intros r r'. pose proof (run_queue_inv (ops ++ ops') empty_execs [] empty_queue_inv) as [_ Ht Hn].
  rewrite exec_run_app in Ht, Hn. simpl in Ht, Hn. split_and!; [done| |intros i q; by apply run_queue_kept].
  intros i Hi. apply Ht. unfold runs in *. rewrite omap_app, elem_of_app. by left.
Qed.

(** The queue of an agent is served in its order and never blocks.  When what
    was written as JSON is read back, on the tables any run reaches, asking for
    the next submission of an agent never fails: it answers none only if nothing
    waits for the agent, and otherwise the first one by priority, then by age,
    then by name, with the message that was admitted under that name for that
    agent; the row leaves the queue and the rest of the queue does not change. *)
Lemma queue_served {L : ExecLaws C} ops t :
  let db := (exec_run empty_execs ops).1 in
  match take_next_submission db t with
  | (_, Err _) => False
  | (db', Ok None) => db' = db ∧ ∀ i q, db.(queue) !! i = Some q → q.(q_target) ≠ t
  | (db', Ok (Some x)) =>
    ∃ q, db.(queue) !! x.(qs_submission_id) = Some q ∧ q.(q_target) = t ∧
      x.(qs_target_agent) = t ∧ x.(qs_priority) = q.(q_priority) ∧ x.(qs_enqueued_at) = q.(q_enqueued_at) ∧
      (∀ i q', db.(queue) !! i = Some q' → q'.(q_target) = t →
         q'.(q_priority) < q.(q_priority) ∨
         q'.(q_priority) = q.(q_priority) ∧
         (q.(q_enqueued_at) < q'.(q_enqueued_at) ∨
          q.(q_enqueued_at) = q'.(q_enqueued_at) ∧ String.leb x.(qs_submission_id) i = true)) ∧
      (∀ m, x.(qs_message) = Some m → m.(id) = x.(qs_submission_id) ∧ m.(to) = t) ∧
      db' = set_queue (delete x.(qs_submission_id) db.(queue)) db
  end.
Proof.
  intros db. destruct (run_queue_inv ops empty_execs [] empty_queue_inv) as [Hr _ _]. fold db in Hr. clearbody db.
  assert (∀ i q, db.(queue) !! i = Some q → q.(q_target) = t → (i, q) ∈ waiting db t) as Hw.
  { intros i q Hq Ht. unfold waiting. rewrite sort_by_perm, select_elem, elem_of_map_to_list. split; [done|]. simpl.
    destruct (Hr i q Hq) as (s & -> & Ha & _). rewrite (bool_decide_eq_true_2 _ Ht). simpl. by apply bool_decide_eq_true_2. }
  unfold take_next_submission. destruct (head (waiting db t)) as [[i q]|] eqn:Hh; simpl.
  - pose proof (waiting_head db t i q Hh) as (Hq & Ht & _). destruct (Hr i q Hq) as (s & Hs & _ & Hst & Hk). rewrite Hs. simpl.
    apply sort_by_head in Hh as [_ Hleast]; [|apply queue_leb_total|apply queue_leb_trans].
    assert (∀ i' q', db.(queue) !! i' = Some q' → q'.(q_target) = t →
      q'.(q_priority) < q.(q_priority) ∨ q'.(q_priority) = q.(q_priority) ∧
      (q.(q_enqueued_at) < q'.(q_enqueued_at) ∨ q.(q_enqueued_at) = q'.(q_enqueued_at) ∧ String.leb i i' = true)) as Hfirst.
    { intros i' q' Hq' Ht'. apply (queue_leb_spec (i, q) (i', q')), Hleast. specialize (Hw i' q' Hq' Ht'). unfold waiting in Hw. by rewrite sort_by_perm in Hw. }
    destruct Hk as [->|(m & j & Hj & -> & Hid & Hto)]; simpl.
    + exists q. split_and!; by auto.
    + rewrite (message_roundtrip m j Hj). simpl. exists q. split_and!; try by auto. intros m' [= <-]. split; congruence.
  - split; [done|]. intros i q Hq Ht. specialize (Hw i q Hq Ht). destruct (waiting db t); [by apply elem_of_nil in Hw|done].
Qed.

(** ** Control commands along a run *)

Definition control_states : list string := ["prepared"; "dispatched"; "accepted"; "refused"].
(** A command that was resolved or refused. *)
Definition settled (row : ControlCommandRow) : Prop := row.(cc_state) = "accepted" ∨ row.(cc_state) = "refused".

Record control_inv (db : ExecDb) (sent : list (string * string)) : Prop := mkControlInv {
  ci_states : ∀ k row, db.(controls) !! k = Some row → row.(cc_state) ∈ control_states;
  ci_prepared : ∀ k row, db.(controls) !! k = Some row → row.(cc_state) = "prepared" → k ∉ sent;
  ci_sent : ∀ k row, db.(controls) !! k = Some row → row.(cc_state) ∈ ["dispatched"; "accepted"] → k ∈ sent;
  ci_known : ∀ k, k ∈ sent → is_Some (db.(controls) !! k);
  ci_nodup : NoDup sent }.

(** What no step changes in the row of a command. *)
Definition row_grows (row row' : ControlCommandRow) : Prop :=
  row'.(cc_bytes) = row.(cc_bytes) ∧ row'.(cc_execution) = row.(cc_execution) ∧
  row'.(cc_created_at) = row.(cc_created_at) ∧ row'.(cc_expires_at) = row.(cc_expires_at) ∧ (settled row → row' = row).
#[local] Instance row_grows_preorder : PreOrder row_grows.
Proof.
  split; [by intros row|]. intros a b c (? & ? & ? & ? & Hab) (? & ? & ? & ? & Hbc). split_and!; [congruence..|].
  intros Ha. rewrite Hbc; [by apply Hab|]. by rewrite Hab.
Qed.
Definition controls_grow (db db' : ExecDb) : Prop :=
  ∀ k row, db.(controls) !! k = Some row → ∃ row', db'.(controls) !! k = Some row' ∧ row_grows row row'.
Lemma same_controls_grow db db' : db'.(controls) = db.(controls) → controls_grow db db'.
Proof. intros H k row Hk. exists row. rewrite H. split; [done|reflexivity]. Qed.

Lemma update_control_inv db k e st why now (js : ControlCommandRow → string) sent :
  (e = "prepared" ∨ e = "dispatched") → control_inv db sent →
  (e = "prepared" ∧ st = "dispatched") ∨ st = "refused" ∨ (e = "dispatched" ∧ st = "accepted") →
  let r := update_control k e (λ row, with_control st (why row) now (js row) row) db in
  control_inv r.1 (sent ++ if r.2 && bool_decide (st = "dispatched") then [k] else []) ∧ controls_grow db r.1.
Proof.
  intros He [Hst Hp Hs Hk Hn] Hst'. unfold update_control. destruct (db.(controls) !! k) as [row|] eqn:Hrow; simpl.
  2: { rewrite app_nil_r. split; [done|by apply same_controls_grow]. }
  case_bool_decide as Hre; simpl; [|rewrite app_nil_r; split; [done|by apply same_controls_grow]].
  set (sent' := sent ++ _).
  assert (∀ k', k' ∈ sent' ↔ k' ∈ sent ∨ st = "dispatched" ∧ k' = k) as Hin.
  { intros k'. unfold sent'. rewrite elem_of_app. case_bool_decide; rewrite ?list_elem_of_singleton, ?elem_of_nil; naive_solver. }
  split; [split|]; simpl.
  - intros k' row'. rewrite lookup_insert_Some. intros [[<- <-]|[_ H]]; [|by eapply Hst]. simpl.
    unfold control_states. destruct Hst' as [[_ ->]|[->|[_ ->]]]; set_solver.
  - intros k' row'. rewrite lookup_insert_Some, Hin. intros [[<- <-]|[Hne H]] Hpr; simpl in Hpr.
    + destruct Hst' as [[_ ->]|[->|[_ ->]]]; done.
    + intros [?|[_ ?]]; [by eapply Hp|congruence].
  - intros k' row'. rewrite lookup_insert_Some, Hin. intros [[<- <-]|[Hne H]] Hd; simpl in Hd; [|left; by eapply Hs].
    destruct Hst' as [[_ ->]|[->|[-> ->]]]; [by right|exfalso; set_solver|left]. eapply Hs; [done|]. rewrite Hre. set_solver.
  - intros k'. rewrite Hin, lookup_insert_is_Some. intros [H|[_ ->]]; [|by left]. destruct (decide (k = k')); auto.
  - unfold sent'. case_bool_decide as Hd; [|by rewrite app_nil_r]. apply NoDup_app. split_and!; [done| |apply NoDup_singleton].
    intros k' Hk' ->%list_elem_of_singleton. assert (e = "prepared") as -> by naive_solver. by eapply Hp.
  - intros k' row' Hk'. destruct (decide (k = k')) as [<-|Hne]; simpl; [|rewrite lookup_insert_ne by done; exists row'; by split].
    rewrite lookup_insert_eq. eexists. split; [done|]. simplify_eq. split_and!; [done..|].
    intros [Hse|Hse]; destruct He as [He|He]; rewrite He in Hse; done.
Qed.

Lemma enqueue_controls db i row prio now : (enqueue db i row prio now).1.(controls) = db.(controls).
Proof.
  unfold enqueue, insert_submission. destruct (is_some _); [done|]. simpl. by destruct (is_some _).
Qed.
Lemma reserve_control_inv db s c e b now x sent :
  control_inv db sent →
  control_inv (reserve_control_command db s c e b now x).1 (sent ++ []) ∧
  controls_grow db (reserve_control_command db s c e b now x).1.
Proof.
  intros Hinv. rewrite app_nil_r. unfold reserve_control_command.
  destruct (db.(controls) !! (s, c)) as [row|] eqn:Hk; [split; [done|by apply same_controls_grow]|].
  destruct (negb _); [split; [done|by apply same_controls_grow]|]. simpl. destruct Hinv as [Hst Hp Hs Hkn Hn]. split; [split|]; simpl.
  - intros k row [[<- <-]|[_ H]]%lookup_insert_Some; [|by eapply Hst]. left.
  - intros k row [[<- <-]|[_ H]]%lookup_insert_Some; [|by eapply Hp]. intros _ [r Hr]%Hkn. congruence.
  - intros k row [[<- <-]|[_ H]]%lookup_insert_Some; [|by eapply Hs]. simpl. set_solver.
  - intros k Hin. apply lookup_insert_is_Some. destruct (decide ((s, c) = k)); auto.
  - done.
  - intros k row H. exists row. simpl. rewrite lookup_insert_ne by congruence. by split.
Qed.

Lemma step_control db op sent :
  control_inv db sent →
  control_inv (exec_step db op).1 (sent ++ sends (exec_step db op).2) ∧ controls_grow db (exec_step db op).1.
Proof.
  intros Hinv.
  assert (∀ db', db'.(controls) = db.(controls) → control_inv db' (sent ++ []) ∧ controls_grow db db') as Hframe.
  { intros db' Hc. rewrite app_nil_r. split; [destruct Hinv; split; rewrite ?Hc; done|by apply same_controls_grow]. }
  destruct (inert op) eqn:Hop; [destruct (inert_untouched db op Hop) as [(_ & Hc & _) ->]; by apply Hframe|].
  destruct op; try done.
  - apply Hframe, enqueue_controls.
  - apply Hframe. simpl. unfold admit_message_submission. case_match; [apply enqueue_controls|done].
  - simpl. unfold take_next_submission. destruct (head (waiting db target)) as [[i q]|]; [|by apply Hframe].
    destruct (mbind _ _) as [[db' o]|e] eqn:Hm; [|by apply Hframe]. apply bind_Ok in Hm as (m & _ & [= <- <-]). by apply Hframe.
  - by apply reserve_control_inv.
  - destruct (mark_control_cases db scope command now w) as [(j & ->)| ->]; [|by apply Hframe]. cbn [fst snd].
    eapply (update_control_inv db (scope, command) "prepared" "dispatched" cc_refusal now (λ _, j) sent) in Hinv as [Hi Hg]; [|auto..].
    split; [|done]. simpl in Hi. rewrite andb_true_r in Hi. by destruct (update_control _ _ _ db).2.
  - eapply (update_control_inv db (scope, command) "prepared" "refused" (λ _, Some why) now cc_warnings sent) in Hinv; [|auto..].
    simpl in Hinv. by rewrite andb_false_r in Hinv.
  - eapply (update_control_inv db (scope, command) "dispatched" (if accepted then "accepted" else "refused") (λ _, why) now cc_warnings sent)
      in Hinv; [|auto|destruct accepted; auto]. destruct accepted; simpl in Hinv; by rewrite andb_false_r in Hinv.
Qed.

Lemma run_control ops : ∀ db sent,
  control_inv db sent →
  control_inv (exec_run db ops).1 (sent ++ sends (exec_run db ops).2) ∧ controls_grow db (exec_run db ops).1.
Proof.
  induction ops as [|op ops IH]; intros db sent Hinv; simpl; [rewrite app_nil_r; split; [done|by apply same_controls_grow]|].
  apply (step_control db op) in Hinv as [Hinv Hg]. destruct (exec_step db op) as [db1 l1]. simpl in *. apply (IH db1) in Hinv as [Hinv Hg'].
  destruct (exec_run db1 ops) as [db2 l2]. simpl in *. unfold sends in *. rewrite omap_app, app_assoc. split; [done|].
  intros k row (row1 & H1 & Hr1)%Hg. apply Hg' in H1 as (row2 & H2 & Hr2). exists row2. split; [done|by etransitivity].
Qed.

(** A command that is no longer prepared counts as one that was sent. *)
Lemma control_inv_cons db k row sent :
  db.(controls) !! k = Some row → row.(cc_state) ≠ "prepared" → k ∉ sent → control_inv db sent → control_inv db (k :: sent).
Proof.
  intros Hk Hnp Hns [Hst Hp Hs Hkn Hn]. split; [done| | | |by constructor].
  - intros k' row' Hk' Hpr [->|?]%elem_of_cons; [congruence|by eapply Hp].
  - intros k' row' Hk' Hd. right. by eapply Hs.
  - intros k' [->|?]%elem_of_cons; eauto.
Qed.

(** A control command is sent at most once.  Along any run of the store from
    its empty tables, a key is given to be sent at most once, and only while its
    command is prepared; a command that is dispatched or accepted was sent; a
    command keeps its bytes, its execution and its date of expiry for ever, and
    the answer of one that was accepted or refused never changes. *)
Lemma control_dispatched_once ops ops' :
  let r := exec_run empty_execs ops in
  let r' := exec_run r.1 ops' in
  NoDup (sends (r.2 ++ r'.2)) ∧
  (∀ k row, r.1.(controls) !! k = Some row →
     row.(cc_state) ∈ control_states ∧ (row.(cc_state) = "prepared" → k ∉ sends r.2) ∧
     (row.(cc_state) ∈ ["dispatched"; "accepted"] → k ∈ sends r.2) ∧
     (row.(cc_state) ≠ "prepared" → k ∉ sends r'.2) ∧
     ∃ row', r'.1.(controls) !! k = Some row' ∧ row_grows row row').
Proof.
  intros r r'.
  assert (control_inv empty_execs []) as H0 by (split; [by intros k row ?..|by intros k ?%elem_of_nil|constructor]).
  pose proof (run_control ops _ _ H0) as [Hi _]. simpl in Hi. pose proof (run_control ops' _ _ Hi) as [Hi' Hg].
  fold r in Hi, Hi', Hg. fold r' in Hi', Hg. split; [unfold sends; rewrite omap_app; apply Hi'|].
  intros k row Hk. pose proof Hi as [Hst Hp Hs _ _]. split_and!; [by eapply Hst|by apply (Hp k row)|by apply (Hs k row)| |by apply Hg].
  intros Hnp Hr'. destruct (decide (k ∈ sends r.2)) as [Hr|Hr].
  - destruct Hi' as [_ _ _ _ Hn]. apply NoDup_app in Hn as (_ & Hn & _). by eapply Hn.
  - pose proof (run_control ops' _ _ (control_inv_cons _ _ _ _ Hk Hnp Hr Hi)) as [[_ _ _ _ Hn] _]. fold r' in Hn.
    apply NoDup_app in Hn as (_ & Hn & _). by apply (Hn k); [left|].
Qed.

Lemma commit_exec_Ok {X} db (r : result string (ExecDb * X)) db' x : commit_exec db r = (db', Ok x) → r = Ok (db', x).
Proof. destruct r as [[]|]; simpl; congruence. Qed.

(** ** The resumption of the work of an agent *)

Lemma recoverable_elem db t i row :
  (i, row) ∈ recoverable db t ↔
  db.(executions) !! i = Some row ∧ target_of db row = Some t ∧ (row.(ex_state) ∈ RECOVERABLE_STATES ∨ pause_open db i = true).
Proof.
  unfold recoverable. rewrite sort_by_perm, select_elem, elem_of_map_to_list. simpl.
  by rewrite andb_true_iff, orb_true_iff, !bool_decide_eq_true.
Qed.
Lemma recoverable_nodup db t : NoDup (recoverable db t).
Proof.
  unfold recoverable. rewrite sort_by_perm. apply NoDup_ListNoDup, List.NoDup_filter, NoDup_ListNoDup, NoDup_map_to_list.
Qed.

Lemma close_pause_closes i now resume db : pause_open (close_pause i now resume db) i = false.
Proof.
  unfold pause_open, close_pause. destruct (db.(pauses) !! i) as [p|] eqn:Hp; [|by rewrite Hp].
  destruct (is_some p.(pz_resumed_at)) eqn:Hr; [rewrite Hp; simpl; by rewrite Hr|]. simpl. by rewrite lookup_insert_eq.
Qed.
Lemma close_pause_others i j now resume db : i ≠ j → pause_open (close_pause i now resume db) j = pause_open db j.
Proof.
  intros Hne. unfold pause_open, close_pause. destruct (db.(pauses) !! i) as [p|] eqn:Hp; [|done].
  destruct (is_some p.(pz_resumed_at)); [done|]. simpl. by rewrite lookup_insert_ne.
Qed.
Lemma close_pause_frame i now resume db :
  let db' := close_pause i now resume db in
  db'.(executions) = db.(executions) ∧ db'.(submissions) = db.(submissions) ∧ db'.(continuations) = db.(continuations).
Proof. unfold close_pause. by repeat case_match. Qed.

Lemma continue_as_Ok db parent child inst why row project now db' s :
  continue_as db parent child inst why row project now = Ok (db', s) →
  let g := row.(ex_generation) + 1 in
  s = mkSnapshot child project "starting" g 0 now ∧ db.(executions) !! child = None ∧
  (∃ b, db'.(executions) = <[child := mkExec row.(ex_submission) (Some inst) (project_id <$> project) b g "starting" 0
                                       (Some "accepted") now now]> db.(executions)) ∧
  db'.(continuations) = <[child := mkCont g parent "reconstructed" (Some why) now]> db.(continuations) ∧
  db'.(submissions) = db.(submissions) ∧ db'.(pauses) = db.(pauses).
Proof.
  intros (g & Hg & H0)%bind_Ok. assert (g = row.(ex_generation) + 1) as -> by (unfold sql_counter in Hg; destruct (_ <=? _); congruence).
  apply bind_Ok in H0 as (b & _ & H0). apply bind_Ok in H0 as (db1 & H1 & H0). apply bind_Ok in H0 as (db2 & H2 & [= <- <-]).
  unfold insert_execution in H1. destruct (db.(executions) !! child) eqn:Hc; [done|]. simpl in H1. destruct (negb _); [done|].
  injection H1 as <-. unfold insert_continuation in H2. repeat (case_match; [done|]). injection H2 as <-. simpl. eauto 10.
Qed.

Lemma closed_parent_spec db i row now closed :
  closed_parent db i row now = Some closed → closed.(ex_revision) = row.(ex_revision) + 1 ∧ closed.(ex_state) ∉ RECOVERABLE_STATES.
Proof.
  unfold closed_parent. intros H. repeat case_match; simplify_eq; (split; [done|]); simpl;
    apply (bool_decide_eq_false_1 _); by vm_compute.
Qed.
Lemma nodup_singleton {X} (l : list X) a : NoDup l → (∀ b, b ∈ l ↔ b = a) → l = [a].
Proof.
  intros Hn Hl. destruct l as [|b [|c l]].
  - destruct (not_elem_of_nil a). by apply Hl.
  - f_equal. apply Hl. left.
  - assert (b = a) as -> by (apply Hl; left). assert (c = a) as -> by (apply Hl; right; left).
    apply NoDup_cons in Hn as [Hn _]. destruct Hn. left.
Qed.

(** A resumption takes up the work of an agent once.  When the store says that
    it reconstructed an execution, the parent was the only execution of the agent
    to take up and is closed at the next revision; the child is a new name, starts
    for the same submission and the same project at the next generation, and is
    linked to its parent; the message given back is the one kept with the
    submission; the pause of the parent is closed, and from then on the only
    execution of the agent to take up is the child: asked again, the store closes
    the child, never the parent a second time. *)
Lemma reconstruct_continues db t inst child now db' x :
  reconstruct_active_for_agent db t inst child now = (db', Ok (Reconstructed x)) →
  ∃ row row' closed,
    recoverable db t = [(x.(re_parent), row)] ∧ db.(executions) !! child = None ∧
    db'.(executions) = <[child := row']> (<[x.(re_parent) := closed]> db.(executions)) ∧
    closed.(ex_revision) = row.(ex_revision) + 1 ∧ (closed.(ex_state) ∉ RECOVERABLE_STATES) ∧
    row'.(ex_submission) = row.(ex_submission) ∧ row'.(ex_generation) = row.(ex_generation) + 1 ∧
    row'.(ex_state) = "starting" ∧ row'.(ex_instance) = Some inst ∧ row'.(ex_project) = row.(ex_project) ∧
    (∃ c, db'.(continuations) = <[child := c]> db.(continuations) ∧ c.(cn_parent) = x.(re_parent) ∧ c.(cn_generation) = row'.(ex_generation)) ∧
    kept_message db row = Some x.(re_message) ∧
    pause_open db' x.(re_parent) = false ∧ recoverable db' t = [(child, row')].
Proof.
  unfold reconstruct_active_for_agent. intros Hr. apply commit_exec_Ok in Hr. case_match; [done|].
  destruct (recoverable db t) as [|[p row] [|[p' row'] l]] eqn:Hrec; [done| |].
  2: { simpl in Hr. apply bind_Ok in Hr as (? & _ & Hr). by apply bind_Ok in Hr as (? & _ & ?). }
  simpl in Hr. apply bind_Ok in Hr as (project & Hpr & Hr).
  destruct (kept_message db row) as [m|] eqn:Hm; [|by repeat case_match].
  apply bind_Ok in Hr as (closed & Hcl & Hr). apply bind_Ok in Hr as ([db2 s] & Hc & Hr). injection Hr as <- <-. simpl.
  apply continue_as_Ok in Hc as (-> & Hchild & (b & He) & Hco & Hs & Hp). simpl in *.
  set (row' := mkExec _ _ _ b _ _ _ _ _ _) in *.
  assert (p ≠ child) as Hne by (intros ->; by rewrite lookup_insert_eq in Hchild).
  rewrite lookup_insert_ne in Hchild by done.
  apply ok_or_Ok in Hcl. destruct (closed_parent_spec db p row now closed Hcl) as [Hrev Hst].
  destruct (close_pause_frame p now (Some child) db2) as (Fe & Fs & Fc).
  assert ((p, row) ∈ recoverable db t) as Hin by (rewrite Hrec; left). apply recoverable_elem in Hin as (Hprow & Ht & _).
  exists row, row', closed. split_and!; try done; [by rewrite Fe| | |apply close_pause_closes|].
  - unfold execution_project in Hpr. repeat case_match; simplify_eq; simpl; congruence.
  - eexists. rewrite Fc. by split_and!.
  - apply nodup_singleton; [apply recoverable_nodup|]. intros [i r]. rewrite recoverable_elem, Fe, He.
    unfold target_of. rewrite Fs, Hs. fold (target_of db r). rewrite lookup_insert_Some, lookup_insert_Some. split.
    + intros ([[<- <-]|(Hic & [[<- <-]|[Hip Hr]])] & Hrt & Hrs); [done|by rewrite close_pause_closes in Hrs; destruct Hrs|].
      rewrite close_pause_others in Hrs by done.
      assert ((i, r) ∈ recoverable db t) as Hin; [|rewrite Hrec in Hin; set_solver].
      apply recoverable_elem. unfold pause_open in *. by rewrite Hp in Hrs.
    + intros [= -> ->]. split_and!; [by left|done|left; simpl; unfold RECOVERABLE_STATES, ACTIVE_STATES; set_solver].
Qed.

End Store.

Module StoreExamples.

Definition note (i : string) (refs : list string) : BridgetMessage :=
  mkMessage None i "alice" None None "bob" "?" false 4 None None None false (Some Agent) (Some QueueOnly) refs None None.
Definition urgent := note "c" ["focus:1"].

(** Three messages can be written, each as a text of its own; warnings are written when there are none. *)
#[local] Instance note_codec : ExecCodec := {|
  message_to_json m :=
    if bool_decide (m = note "a" []) then Some "a" else if bool_decide (m = note "b" []) then Some "b"
    else if bool_decide (m = urgent) then Some "c" else None;
  message_from_json j :=
    if bool_decide (j = "a") then Some (note "a" []) else if bool_decide (j = "b") then Some (note "b" [])
    else if bool_decide (j = "c") then Some urgent else None;
  references_to_json l := Some "[..]";
  warnings_to_json w := match w with [] => Some "[]" | _ => None end;
  warnings_from_json j := if bool_decide (j = "[]") then Some [] else None |}.
#[local] Instance note_laws : ExecLaws note_codec.
Proof.
  constructor.
  - intros m j. simpl. repeat case_bool_decide; intros [= <-]; by subst.
  - intros w j. simpl. destruct w; [|done]. by intros [= <-].
  - by eexists.
Qed.

Definition three : list ExecOp :=
  [OpAdmitMessage (note "b" []) 0 10; OpAdmitMessage (note "a" []) 0 10; OpAdmitMessage urgent 0 20; OpAdmitMessage (note "a" []) 5 30].

(** The urgent message first, then by date and by name; the second message named [a] is refused. *)
Example served_in_order : runs (exec_run empty_execs (three ++ replicate 4 (OpTakeNext "bob"))).2 = ["c"; "a"; "b"].
Proof. vm_compute. reflexivity. Qed.

Lemma queue_served_witness :
  match take_next_submission (exec_run empty_execs three).1 "bob" with
  | (_, Ok (Some x)) => x.(qs_submission_id) = "c" ∧ x.(qs_priority) = 100
  | _ => False
  end.
Proof.
  pose proof (queue_served (L := note_laws) three "bob") as H. cbv zeta in H.
  destruct (take_next_submission _ "bob") as [db' [[x|]|e]] eqn:Ht; [|by vm_compute in Ht|done].
  vm_compute in Ht. by injection Ht as _ <-.
Defined.

(** An execution that the provider lost is taken up once. *)
Definition at_work : list ExecOp :=
  [OpAdmitStartingMessage (note "a" []) "exec-1" None 10; OpTransition "exec-1" "starting" 0 1 "running" "accepted" 11].
Definition working : ExecDb := (exec_run empty_execs at_work).1.
Definition taken_up := reconstruct_active_for_agent working "bob" "inst-2" "exec-2" 20.

Lemma reconstruct_continues_witness :
  recoverable_execution_ids_for_agent taken_up.1 "bob" = ["exec-2"] ∧ pause_open taken_up.1 "exec-1" = false.
Proof.
  assert (taken_up = (taken_up.1, Ok (Reconstructed (mkReconstructed "exec-1" (mkSnapshot "exec-2" None "starting" 2 0 20) (note "a" []))))) as H.
  { rewrite (surjective_pairing taken_up) at 1. f_equal. }
  destruct (reconstruct_continues (C := note_codec) working "bob" "inst-2" "exec-2" 20 taken_up.1 _ H)
    as (row & row' & closed & _ & _ & _ & _ & _ & _ & _ & _ & _ & _ & _ & _ & Hp & Hr).
  split; [|exact Hp]. unfold recoverable_execution_ids_for_agent. by rewrite Hr.
Defined.

(** A turn that ends by itself after its pause was recorded: the pause stays open, the
    reconstruction of the agent fails, and it fails again whatever the name and the date. *)
Definition ended : ExecDb :=
  (exec_run working [OpPause "exec-1" "bob" 1 12; OpTransition "exec-1" "running" 1 1 "completed" "done" 13]).1.
Lemma completed_pause_blocks inst child now :
  Str.trim inst ≠ "" → Str.trim child ≠ "" → 0 ≤ now →
  reconstruct_active_for_agent ended "bob" inst child now = (ended, Err "Query returned no rows") ∧
  pending_pause_interruptions ended = [("exec-1", "bob")].
Proof.
  intros Hi Hc Hn. split; [|by vm_compute]. unfold reconstruct_active_for_agent.
  rewrite (bool_decide_eq_false_2 (Str.trim inst = "")), (bool_decide_eq_false_2 (Str.trim child = "")) by done.
  replace (now <? 0) with false by lia. by vm_compute.
Qed.

(** A command that was answered is not sent again. *)
Definition commanded : list ExecOp :=
  [OpReserveControl "scope" "cmd" "exec-1" "{}" 12 99; OpDispatchControl "scope" "cmd" 13 []; OpDispatchControl "scope" "cmd" 14 [];
   OpResolveControl "scope" "cmd" true None 15; OpDispatchControl "scope" "cmd" 16 []; OpRefuseControl "scope" "cmd" "late" 17].
Example answered_once :
  sends (exec_run working commanded).2 = [("scope", "cmd")] ∧
  cc_state <$> (exec_run working commanded).1.(controls) !! ("scope", "cmd") = Some "accepted".
Proof. by vm_compute. Qed.

(** A cycle of continuations is read to its end. *)
Definition cyclic : ExecDb :=
  (exec_run working [OpAdmitStartingMessage (note "b" []) "exec-9" None 10; OpContinuation "exec-1" 1 "exec-9" Native None 11;
                     OpContinuation "exec-9" 1 "exec-1" Native None 12]).1.
Example cycle_read : lineage cyclic "exec-1" = Some ["exec-1"; "exec-9"] ∧ latest_in_chain cyclic "exec-1" = Ok None.
Proof. by vm_compute. Qed.

End StoreExamples.
