(* ===== verification/ThreadStore.v ===== *)
(** * ThreadStore: [bridget-daemon/src/store/threads.rs]

    The discussion threads between agents: their members, their numbered
    entries, the operations that were recorded for replay, the receipts of
    reading and the solicitations of the members that an entry names.  A table is
    a map from its primary key, and every operation is one transaction: an error
    or a refusal leaves the tables as they were.  The texts of JSON are read and
    written by arguments. *)

From S2P Require Import Prelude Text Communication Sql.
Local Open Scope Z_scope.

(** ** Rows *)

(** [discussion_threads], by thread. *)
Record ThreadRow := mkThread {
  th_creator_id : string; th_title : string; th_created_at : Z; th_closed_at : option Z; th_last_seq : Z; th_body_bytes : Z }.
(** [discussion_members], by thread and agent. *)
Record MemberRow := mkMember {
  mb_acked_seq : Z; mb_last_ack_receipt : option string; mb_last_ack_through_seq : option Z }.
(** [discussion_entries], by thread and number. *)
Record EntryRow := mkEntry {
  en_message_id : string; en_author_id : string; en_body : string; en_created_at : Z; en_notify_json : string;
  en_reply_to_seq : option Z; en_kind : option string; en_supersedes_seq : option Z }.
(** [thread_operations], by actor and operation. *)
Record OperationRow := mkOperation {
  op_action : string; op_thread_id : string; op_canonical_hash : string; op_result_json : string; op_created_at : Z }.
(** [thread_reads], by thread and agent. *)
Record ReadRow := mkRead {
  rd_receipt_id : string; rd_base_seq : Z; rd_through_seq : Z; rd_snapshot_seq : Z; rd_expires_at : Z; rd_requested_limit : Z }.
(** [thread_wakes], by thread and agent. *)
Record WakeRow := mkWake {
  wk_pending_seq : Z; wk_generation : Z; wk_active_through_seq : option Z; wk_delivery_id : option string;
  wk_delivery_key : option string; wk_recipient_instance_id : option string; wk_delivery_generation : option Z;
  wk_issued_at : option Z; wk_expires_at : option Z; wk_state : string; wk_reason : option string; wk_dispatched_seq : Z;
  wk_last_attempt_at : option Z; wk_last_uncertain_generation : option Z; wk_last_uncertain_seq : option Z }.

(** The tables, and the [dormant] column of [agent_tracking], which this store reads. *)
Record ThreadDb := mkThreadDb {
  threads : gmap string ThreadRow;
  members : gmap (string * string) MemberRow;
  entries : gmap (string * Z) EntryRow;
  operations : gmap (string * string) OperationRow;
  reads : gmap (string * string) ReadRow;
  wakes : gmap (string * string) WakeRow;
  tracking : gmap string bool }.

Definition set_threads t (db : ThreadDb) : ThreadDb :=
  mkThreadDb t db.(members) db.(entries) db.(operations) db.(reads) db.(wakes) db.(tracking).
Definition set_members t (db : ThreadDb) : ThreadDb :=
  mkThreadDb db.(threads) t db.(entries) db.(operations) db.(reads) db.(wakes) db.(tracking).
Definition set_entries t (db : ThreadDb) : ThreadDb :=
  mkThreadDb db.(threads) db.(members) t db.(operations) db.(reads) db.(wakes) db.(tracking).
Definition set_operations t (db : ThreadDb) : ThreadDb :=
  mkThreadDb db.(threads) db.(members) db.(entries) t db.(reads) db.(wakes) db.(tracking).
Definition set_reads t (db : ThreadDb) : ThreadDb :=
  mkThreadDb db.(threads) db.(members) db.(entries) db.(operations) t db.(wakes) db.(tracking).
Definition set_wakes t (db : ThreadDb) : ThreadDb :=
  mkThreadDb db.(threads) db.(members) db.(entries) db.(operations) db.(reads) t db.(tracking).
Definition set_tracking t (db : ThreadDb) : ThreadDb :=
  mkThreadDb db.(threads) db.(members) db.(entries) db.(operations) db.(reads) db.(wakes) t.

(** ** Data *)

Inductive StoreError := ThreadSqlite (what : string) | ThreadInvariant (what : string).

Record ThreadLimits := mkLimits {
  max_threads : Z; max_open_per_creator : Z; max_entries_per_thread : Z; max_body_bytes_per_thread : Z;
  max_body_bytes_total : Z }.

Inductive NotifySpec := NotifyNone | NotifyTargets (l : list string) | NotifyAll.
Definition notify_mode (n : NotifySpec) : string :=
  match n with NotifyNone => "none" | NotifyTargets _ => "targets" | NotifyAll => "all" end.

Inductive ThreadRefusal :=
  | EnvelopeMismatch | ThreadUnavailable | ThreadClosed | CreatorRequired | AudienceChanged | NotAMember (l : list string)
  | InvalidReplyReference | InvalidSupersession | CapacityExceeded (what : string) | ReceiptInvalid | ReceiptObsolete
  | CursorConflict | RangeUnavailable.

Inductive ThreadEntryKind := KHistory | KAction | KBlocker | KDecision.
#[export] Instance ThreadEntryKind_eq_dec : EqDecision ThreadEntryKind.
Proof. solve_decision. Defined.
Definition entry_kind_as_str (k : ThreadEntryKind) : string :=
  match k with KHistory => "history" | KAction => "action" | KBlocker => "blocker" | KDecision => "decision" end.

(** The line of a solicited member in the result of a post. *)
Record WakeNote := mkWakeNote { wn_agent_id : string; wn_state : string; wn_reason : option string }.

(** The JSON results that are kept with an operation; [VNull] is what an unreadable text gives. *)
Inductive ThreadValue :=
  | VNull
  | VMembers (status thread_id : string) (union added : list string) (w : list ProjectWarning)
  | VCreated (thread_id title creator_id : string) (members : list string) (created_at : Z) (w : list ProjectWarning)
  | VPosted (thread_id message_id : string) (seq : Z) (targets notices : list string) (wakes : list WakeNote)
      (dormant_recipients : list string) (w : list ProjectWarning)
  | VClosed (thread_id : string) (closed_at : Z).

Inductive ThreadTxOutcome := Done (v : ThreadValue) | Replayed (v : ThreadValue) | NoChange (v : ThreadValue) | Refused (r : ThreadRefusal).

(** An entry as a page shows it: a body that is left out has a presentation. *)
Record EntryView := mkEntryView {
  ev_seq : Z; ev_message_id : string; ev_author_id : string; ev_created_at : Z; ev_body : option string;
  ev_notify : string * list string; ev_reply_to_seq : option Z; ev_kind : option string; ev_supersedes_seq : option Z;
  ev_superseded_by_seq : option Z; ev_presentation : option string }.

Record ThreadView := mkThreadView { tv_thread : ThreadRow; tv_members : list string; tv_own : MemberRow; tv_own_wake : option WakeRow }.
Record ThreadSummary := mkThreadSummary { ts_thread_id : string; ts_title : string; ts_creator_id : string; ts_closed : bool; ts_last_seq : Z }.
Record RecentThreadSummary := mkRecent { rt_summary : ThreadSummary; rt_last_activity_at : Z }.
Record Page := mkPage {
  pg_entries : list EntryView; pg_base_seq : Z; pg_through_seq : Z; pg_snapshot_seq : Z; pg_has_more : bool }.
Inductive ReadOutcome :=
  | ReadPage (page : Page) (receipt : option string) (expires_at : option Z) (requested_limit : Z) (replayed : bool)
  | ReadRefused (r : ThreadRefusal).
Inductive AckOutcome :=
  | Acknowledged (acked_seq : Z) (wake : option WakeRow) | AlreadyAcknowledged (acked_seq : Z) (wake : option WakeRow)
  | AckRefused (r : ThreadRefusal).
Inductive HistoryOutcome := HistoryPage (p : Page) | HistoryRefused (r : ThreadRefusal).

Record CreateThread := mkCreate {
  c_actor : string; c_operation_id : string; c_canonical_hash : string; c_thread_id : string; c_title : string;
  c_members : list string; c_project_warnings : list ProjectWarning; c_now : Z; c_limits : ThreadLimits }.
Record AddMembers := mkAdd {
  a_actor : string; a_operation_id : string; a_canonical_hash : string; a_thread_id : string; a_candidates : list string;
  a_expected_members : list string; a_project_warnings : list ProjectWarning; a_now : Z }.
Record PostEntry := mkPost {
  p_actor : string; p_operation_id : string; p_canonical_hash : string; p_thread_id : string; p_message_id : string;
  p_body : string; p_notify : NotifySpec; p_notices : list string; p_project_warnings : list ProjectWarning;
  p_reply_to_seq : option Z; p_ack_receipt : option string; p_kind : option ThreadEntryKind; p_supersedes_seq : option Z;
  p_now : Z; p_limits : ThreadLimits }.
Record CloseThread := mkClose {
  x_actor : string; x_operation_id : string; x_canonical_hash : string; x_thread_id : string; x_now : Z }.
Record ReadRequest := mkReadRequest {
  r_actor : string; r_thread_id : string; r_limit : Z; r_byte_budget : Z; r_receipt_id : string; r_receipt_ttl_secs : Z; r_now : Z }.
Record WakeCandidate := mkCandidate { wc_thread_id : string; wc_agent_id : string; wc_pending_seq : Z; wc_generation : Z }.
Record WakeReservation := mkWakeReservation {
  wr_thread_id : string; wr_agent_id : string; wr_expected_generation : Z; wr_through_seq : Z; wr_delivery_id : string;
  wr_delivery_key : string; wr_recipient_instance_id : string; wr_delivery_generation : Z; wr_issued_at : Z; wr_expires_at : Z }.
Inductive WakeOutcome := WDispatched | WRefused (reason : string) | WOutcomeUnknown.

(** [crate::threads]. *)
Definition MAX_MEMBERS : nat := 16.
Definition LIMITS : ThreadLimits := mkLimits 256 32 10000 (16 * 1024 * 1024) (128 * 1024 * 1024).
Lemma limits_positive : 0 < LIMITS.(max_entries_per_thread) < i64_max ∧ 0 < LIMITS.(max_body_bytes_per_thread).
Proof. by vm_compute. Qed.

(** [serde_json] on the results, on the targets of an entry, and the length of
    the text of an entry, which fits in an address space of 48 bits. *)
Class ThreadCodec := {
  value_to_json : ThreadValue → string;
  value_from_json : string → option ThreadValue;
  notify_to_json : string → list string → string;
  notify_from_json : string → option (string * list string);
  entry_json_len : EntryView → Z }.
Class ThreadLaws (C : ThreadCodec) := {
  value_roundtrip v : value_from_json (value_to_json v) = Some v;
  notify_roundtrip m l : notify_from_json (notify_to_json m l) = Some (m, l);
  entry_json_len_bound e : 0 ≤ entry_json_len e < 2 ^ 48 }.

(** [sort(); dedup()] of texts. *)
Fixpoint dedup_sorted (l : list string) : list string :=
  match l with
  | x :: ((y :: _) as r) => if bool_decide (x = y) then dedup_sorted r else x :: dedup_sorted r
  | _ => l
  end.
Definition sort_dedup (l : list string) : list string := dedup_sorted (sort_by String.leb l).

Definition u64_of (v : Z) : Z := Z.max v 0.

Section ThreadOps.
Context `{C : ThreadCodec}.

(** ** Reads of rows *)

Definition load_thread (db : ThreadDb) (t : string) : option ThreadRow :=
  (λ r, mkThread r.(th_creator_id) r.(th_title) r.(th_created_at) r.(th_closed_at) (u64_of r.(th_last_seq)) (u64_of r.(th_body_bytes)))
    <$> db.(threads) !! t.
Definition load_member (db : ThreadDb) (t a : string) : option MemberRow :=
  (λ r, mkMember (u64_of r.(mb_acked_seq)) r.(mb_last_ack_receipt) (u64_of <$> r.(mb_last_ack_through_seq)))
    <$> db.(members) !! (t, a).
Definition load_thread_for_member (db : ThreadDb) (t actor : string) : result ThreadRefusal (ThreadRow * MemberRow) :=
  match load_thread db t with
  | None => Err ThreadUnavailable
  | Some thread =>
    match load_member db t actor with None => Err ThreadUnavailable | Some m => Ok (thread, m) end
  end.
(** [ORDER BY agent_id]. *)
Definition load_members (db : ThreadDb) (t : string) : list string :=
  sort_by String.leb ((λ kv : string * string * MemberRow, kv.1.2) <$> select (λ kv, bool_decide (kv.1.1 = t)) (map_to_list db.(members))).
Definition load_wake (db : ThreadDb) (t a : string) : option WakeRow :=
  (λ w, mkWake (u64_of w.(wk_pending_seq)) (u64_of w.(wk_generation)) (u64_of <$> w.(wk_active_through_seq)) w.(wk_delivery_id)
          w.(wk_delivery_key) w.(wk_recipient_instance_id) (u64_of <$> w.(wk_delivery_generation)) w.(wk_issued_at) w.(wk_expires_at)
          w.(wk_state) w.(wk_reason) (u64_of w.(wk_dispatched_seq)) w.(wk_last_attempt_at)
          (u64_of <$> w.(wk_last_uncertain_generation)) (u64_of <$> w.(wk_last_uncertain_seq)))
    <$> db.(wakes) !! (t, a).
Definition dormant (db : ThreadDb) (a : string) : bool := default false (db.(tracking) !! a).

(** ** Operations that are recorded for replay *)

Definition lookup_operation (db : ThreadDb) (actor operation hash : string) : option (result () ThreadValue) :=
  (λ r, if bool_decide (r.(op_canonical_hash) = hash) then Ok (default VNull (value_from_json r.(op_result_json))) else Err ())
    <$> db.(operations) !! (actor, operation).
Definition record_operation (actor operation action t hash : string) (now : Z) (v : ThreadValue) (db : ThreadDb)
    : result StoreError ThreadDb :=
  if is_some (db.(operations) !! (actor, operation)) then Err (ThreadSqlite "UNIQUE constraint failed: thread_operations")
  else Ok (set_operations (<[(actor, operation) := mkOperation action t hash (value_to_json v) now]> db.(operations)) db).
Definition thread_operation_replay (db : ThreadDb) (actor operation hash : string) : option ThreadTxOutcome :=
  (λ o, match o with Ok v => Replayed v | Err () => Refused EnvelopeMismatch end) <$> lookup_operation db actor operation hash.

(** A transaction that is committed, or whose error leaves the tables. *)
Definition commit_thread {X} (db : ThreadDb) (r : result StoreError (ThreadDb * X)) : ThreadDb * result StoreError X :=
  match r with Ok (db', x) => (db', Ok x) | Err e => (db, Err e) end.
(** What precedes every operation with a key: its replay. *)
Definition once (db : ThreadDb) (actor operation hash : string) (body : result StoreError (ThreadDb * ThreadTxOutcome))
    : ThreadDb * result StoreError ThreadTxOutcome :=
  match thread_operation_replay db actor operation hash with
  | Some o => (db, Ok o)
  | None => commit_thread db body
  end.

(** [INSERT INTO discussion_members] of each agent. *)
Fixpoint insert_members (t : string) (l : list string) (db : ThreadDb) : result StoreError ThreadDb :=
  match l with
  | [] => Ok db
  | a :: l =>
    if is_some (db.(members) !! (t, a)) then Err (ThreadSqlite "UNIQUE constraint failed: discussion_members")
    else insert_members t l (set_members (<[(t, a) := mkMember 0 None None]> db.(members)) db)
  end.

Definition thread_add_members (db : ThreadDb) (q : AddMembers) : ThreadDb * result StoreError ThreadTxOutcome :=
  once db q.(a_actor) q.(a_operation_id) q.(a_canonical_hash) (
    match load_thread_for_member db q.(a_thread_id) q.(a_actor) with
    | Err r => Ok (db, Refused r)
    | Ok (thread, _) =>
      if negb (bool_decide (thread.(th_creator_id) = q.(a_actor))) then Ok (db, Refused CreatorRequired)
      else if is_some thread.(th_closed_at) then Ok (db, Refused ThreadClosed)
      else
        let existing := load_members db q.(a_thread_id) in
        let union := sort_dedup (existing ++ q.(a_candidates)) in
        if negb (bool_decide (union = q.(a_expected_members))) then Ok (db, Refused AudienceChanged)
        else if (MAX_MEMBERS <? length union)%nat then Ok (db, Refused (CapacityExceeded "members"))
        else
          let added := List.filter (λ a, negb (bool_decide (a ∈ existing))) union in
          let status := if bool_decide (added = []) then "no_change" else "members_added" in
          let result := VMembers status q.(a_thread_id) union added q.(a_project_warnings) in
          if bool_decide (added = []) then Ok (db, NoChange result)
          else
            db1 ← insert_members q.(a_thread_id) added db;
            db2 ← record_operation q.(a_actor) q.(a_operation_id) "add_members" q.(a_thread_id) q.(a_canonical_hash) q.(a_now) result db1;
            Ok (db2, Done result)
    end).

Definition thread_create (db : ThreadDb) (q : CreateThread) : ThreadDb * result StoreError ThreadTxOutcome :=
  once db q.(c_actor) q.(c_operation_id) q.(c_canonical_hash) (
    if q.(c_limits).(max_threads) <=? Z.of_nat (size db.(threads)) then Ok (db, Refused (CapacityExceeded "threads"))
    else
      let open_by_creator := count_if (λ kv : string * ThreadRow,
        bool_decide (kv.2.(th_creator_id) = q.(c_actor)) && negb (is_some kv.2.(th_closed_at))) (map_to_list db.(threads)) in
      if q.(c_limits).(max_open_per_creator) <=? Z.of_nat open_by_creator
      then Ok (db, Refused (CapacityExceeded "open_threads_per_creator"))
      else if is_some (db.(threads) !! q.(c_thread_id)) then Err (ThreadSqlite "UNIQUE constraint failed: discussion_threads.thread_id")
      else
        db1 ← insert_members q.(c_thread_id) q.(c_members)
                (set_threads (<[q.(c_thread_id) := mkThread q.(c_actor) q.(c_title) q.(c_now) None 0 0]> db.(threads)) db);
        let result := VCreated q.(c_thread_id) q.(c_title) q.(c_actor) q.(c_members) q.(c_now) q.(c_project_warnings) in
        db2 ← record_operation q.(c_actor) q.(c_operation_id) "create" q.(c_thread_id) q.(c_canonical_hash) q.(c_now) result db1;
        Ok (db2, Done result)).

(** ** Confirmation of a page *)

Inductive AckApplied := AckDone (through : Z) | AckAlready (acked : Z) | AckNo (r : ThreadRefusal).

(** The solicitations a confirmed page satisfies. *)
Definition satisfied (through : Z) (w : WakeRow) : bool :=
  (w.(wk_pending_seq) <=? through) && negb (is_some w.(wk_active_through_seq))
  && bool_decide (w.(wk_state) ∈ ["pending"; "refused"; "outcome_unknown"; "dispatched"]).
Definition with_wake_state (s : string) (r : option string) (w : WakeRow) : WakeRow :=
  mkWake w.(wk_pending_seq) w.(wk_generation) w.(wk_active_through_seq) w.(wk_delivery_id) w.(wk_delivery_key)
    w.(wk_recipient_instance_id) w.(wk_delivery_generation) w.(wk_issued_at) w.(wk_expires_at) s r w.(wk_dispatched_seq)
    w.(wk_last_attempt_at) w.(wk_last_uncertain_generation) w.(wk_last_uncertain_seq).
(** [UPDATE thread_wakes .. WHERE thread_id AND agent_id AND ..]: the rows and whether one changed. *)
Definition update_wake (t a : string) (p : WakeRow → bool) (f : WakeRow → WakeRow) (db : ThreadDb) : ThreadDb * bool :=
  match db.(wakes) !! (t, a) with
  | Some w => if p w then (set_wakes (<[(t, a) := f w]> db.(wakes)) db, true) else (db, false)
  | None => (db, false)
  end.

Definition apply_ack (db : ThreadDb) (t a : string) (m : MemberRow) (receipt : string) : ThreadDb * AckApplied :=
  if bool_decide (m.(mb_last_ack_receipt) = Some receipt) then (db, AckAlready m.(mb_acked_seq))
  else
    match db.(reads) !! (t, a) with
    | None => (db, AckNo ReceiptInvalid)
    | Some r =>
      if negb (bool_decide (r.(rd_receipt_id) = receipt)) then (db, AckNo ReceiptObsolete)
      else if negb (u64_of r.(rd_base_seq) =? m.(mb_acked_seq)) then (db, AckNo CursorConflict)
      else
        let through := u64_of r.(rd_through_seq) in
        let db1 := set_members (<[(t, a) := mkMember through (Some receipt) (Some through)]> db.(members)) db in
        let db2 := set_reads (delete (t, a) db1.(reads)) db1 in
        let db3 := (update_wake t a (satisfied through) (with_wake_state "satisfied_by_read" None) db2).1 in
        (db3, AckDone through)
    end.

(** ** Posts *)

(** The number of the entry that replaces an entry, among those up to [bound]. *)
Definition successor (db : ThreadDb) (t : string) (seq bound : Z) : option Z :=
  (λ kv : string * Z * EntryRow, kv.1.2) <$>
  select_one (λ kv, bool_decide (kv.1.1 = t) && bool_decide (kv.2.(en_supersedes_seq) = Some seq) && (kv.1.2 <=? bound))
    (map_to_list db.(entries)).
Definition replaced (db : ThreadDb) (t : string) (seq : Z) : bool :=
  exists_row (λ kv : string * Z * EntryRow, bool_decide (kv.1.1 = t) && bool_decide (kv.2.(en_supersedes_seq) = Some seq))
    (map_to_list db.(entries)).

Definition post_targets (actor : string) (all : list string) (n : NotifySpec) : result ThreadRefusal (list string) :=
  match n with
  | NotifyNone => Ok []
  | NotifyAll => Ok (List.filter (λ a, negb (bool_decide (a = actor))) all)
  | NotifyTargets wanted =>
    let unknown := List.filter (λ a, negb (bool_decide (a ∈ all))) wanted in
    if negb (bool_decide (unknown = [])) then Err (NotAMember unknown)
    else Ok (sort_dedup (List.filter (λ a, negb (bool_decide (a = actor))) wanted))
  end.

(** Whether an entry may replace the one numbered [supersedes]. *)
Definition supersession_valid (db : ThreadDb) (q : PostEntry) (last_seq : Z) (targets : list string) (supersedes : Z)
    : result StoreError bool :=
  let n := Z.min supersedes i64_max in
  match db.(entries) !! (q.(p_thread_id), n) with
  | None => Ok false
  | Some prior =>
    '(_, old) ← ok_or (notify_from_json prior.(en_notify_json)) (ThreadInvariant "cibles de fil illisibles");
    Ok ((0 <? supersedes) && (supersedes <=? last_seq) && bool_decide (prior.(en_author_id) = q.(p_actor))
        && negb (bool_decide (prior.(en_kind) = Some "history")) && negb (replaced db q.(p_thread_id) n)
        && bool_decide (old = targets)
        && match q.(p_kind) with Some KAction | Some KBlocker | Some KDecision => true | _ => false end)
  end.

Definition insert_entry (t : string) (seq : Z) (e : EntryRow) (db : ThreadDb) : result StoreError ThreadDb :=
  if is_some (db.(entries) !! (t, seq)) then Err (ThreadSqlite "UNIQUE constraint failed: discussion_entries.seq")
  else if exists_row (λ kv : string * Z * EntryRow, bool_decide (kv.2.(en_message_id) = e.(en_message_id))) (map_to_list db.(entries))
  then Err (ThreadSqlite "UNIQUE constraint failed: discussion_entries.message_id")
  else if is_some_and e.(en_supersedes_seq) (λ n, replaced db t n)
  then Err (ThreadSqlite "UNIQUE constraint failed: idx_discussion_entries_supersedes")
  else if negb (0 <? seq) || is_some_and e.(en_supersedes_seq) (λ n, n <=? 0) then Err (ThreadSqlite "CHECK constraint failed")
  else if negb (is_some (db.(members) !! (t, e.(en_author_id)))) then Err (ThreadSqlite "FOREIGN KEY constraint failed")
  else Ok (set_entries (<[(t, seq) := e]> db.(entries)) db).

(** The solicitation of a member up to [seq]: inserted, or merged with the one that is there. *)
Definition fresh_wake (seq : Z) : WakeRow :=
  mkWake seq 0 None None None None None None None "pending" None 0 None None None.
Definition merged_wake (seq : Z) (w : WakeRow) : WakeRow :=
  let active := is_some w.(wk_active_through_seq) in
  mkWake (Z.max w.(wk_pending_seq) seq) w.(wk_generation) w.(wk_active_through_seq) w.(wk_delivery_id) w.(wk_delivery_key)
    w.(wk_recipient_instance_id) w.(wk_delivery_generation) w.(wk_issued_at) w.(wk_expires_at)
    (if active then w.(wk_state) else "pending") (if active then w.(wk_reason) else None) w.(wk_dispatched_seq)
    w.(wk_last_attempt_at) w.(wk_last_uncertain_generation) w.(wk_last_uncertain_seq).
Fixpoint solicit (t : string) (seq : Z) (targets : list string) (db : ThreadDb)
    : result StoreError (ThreadDb * list WakeNote * list string) :=
  match targets with
  | [] => Ok (db, [], [])
  | a :: targets =>
    if dormant db a then
      '(db', notes, sleeping) ← solicit t seq targets db;
      Ok (db', mkWakeNote a "not_solicited" (Some "agent_dormant") :: notes, a :: sleeping)
    else if negb (is_some (db.(members) !! (t, a))) then Err (ThreadSqlite "FOREIGN KEY constraint failed")
    else
      let w := match db.(wakes) !! (t, a) with Some w => merged_wake seq w | None => fresh_wake seq end in
      let db1 := set_wakes (<[(t, a) := w]> db.(wakes)) db in
      wake ← ok_or (load_wake db1 t a) (ThreadInvariant "sollicitation absente après écriture");
      '(db', notes, sleeping) ← solicit t seq targets db1;
      Ok (db', mkWakeNote a wake.(wk_state) wake.(wk_reason) :: notes, sleeping)
  end.

(** The checks of capacity of a post, the number of bytes of its body known. *)
Definition post_room (db : ThreadDb) (thread : ThreadRow) (l : ThreadLimits) (body_len : Z)
    : result StoreError (option ThreadRefusal) :=
  if l.(max_entries_per_thread) <? thread.(th_last_seq) + 1 then Ok (Some (CapacityExceeded "entries_per_thread"))
  else if l.(max_body_bytes_per_thread) <? thread.(th_body_bytes) + body_len then Ok (Some (CapacityExceeded "body_bytes_per_thread"))
  else
    total ← map_err ThreadSqlite (sql_sum 0 ((λ kv : string * ThreadRow, kv.2.(th_body_bytes)) <$> map_to_list db.(threads)));
    Ok (if l.(max_body_bytes_total) <? u64_of total + body_len then Some (CapacityExceeded "body_bytes_total") else None).

(** The writes of a post that was accepted. *)
Definition write_post (db : ThreadDb) (q : PostEntry) (thread : ThreadRow) (targets : list string)
    : result StoreError (ThreadDb * ThreadTxOutcome) :=
  let t := q.(p_thread_id) in
  let seq := thread.(th_last_seq) + 1 in
  db1 ← insert_entry t seq
          (mkEntry q.(p_message_id) q.(p_actor) q.(p_body) q.(p_now) (notify_to_json (notify_mode q.(p_notify)) targets)
             (wrap_i64 <$> q.(p_reply_to_seq)) (entry_kind_as_str <$> q.(p_kind)) (wrap_i64 <$> q.(p_supersedes_seq))) db;
  let db2 := match db1.(threads) !! t with
             | Some r => set_threads (<[t := mkThread r.(th_creator_id) r.(th_title) r.(th_created_at) r.(th_closed_at) seq
                                               (r.(th_body_bytes) + Z.of_nat (String.length q.(p_body)))]> db1.(threads)) db1
             | None => db1
             end in
  '(db3, notes, sleeping) ← solicit t seq targets db2;
  let notices := q.(p_notices) ++ when (negb (bool_decide (sleeping = []))) ["dormant_members_ignored"] in
  let result := VPosted t q.(p_message_id) seq targets notices notes sleeping q.(p_project_warnings) in
  db4 ← record_operation q.(p_actor) q.(p_operation_id) "post" t q.(p_canonical_hash) q.(p_now) result db3;
  Ok (db4, Done result).

Definition thread_post (db : ThreadDb) (q : PostEntry) : ThreadDb * result StoreError ThreadTxOutcome :=
  once db q.(p_actor) q.(p_operation_id) q.(p_canonical_hash) (
    match load_thread_for_member db q.(p_thread_id) q.(p_actor) with
    | Err r => Ok (db, Refused r)
    | Ok (thread, member) =>
      if is_some thread.(th_closed_at) then Ok (db, Refused ThreadClosed)
      else if is_some_and q.(p_reply_to_seq) (λ n, (n =? 0) || (thread.(th_last_seq) <? n)) then Ok (db, Refused InvalidReplyReference)
      else
        match post_targets q.(p_actor) (load_members db q.(p_thread_id)) q.(p_notify) with
        | Err r => Ok (db, Refused r)
        | Ok targets =>
          valid ← match q.(p_supersedes_seq) with
                  | Some n => supersession_valid db q thread.(th_last_seq) targets n
                  | None => Ok true
                  end;
          if negb valid then Ok (db, Refused InvalidSupersession)
          else
            let '(db1, applied) := match q.(p_ack_receipt) with
                                   | Some receipt => apply_ack db q.(p_thread_id) q.(p_actor) member receipt
                                   | None => (db, AckAlready 0)
                                   end in
            match applied with
            | AckNo r => Ok (db, Refused r)
            | _ =>
              room ← post_room db1 thread q.(p_limits) (Z.of_nat (String.length q.(p_body)));
              match room with
              | Some r => Ok (db, Refused r)
              | None => write_post db1 q thread targets
              end
            end
        end
    end).

(** ** Closing *)

Definition cancelled (t : string) (k : string * string) (w : WakeRow) : bool :=
  bool_decide (k.1 = t) && negb (is_some w.(wk_active_through_seq)) && bool_decide (w.(wk_state) ∈ ["pending"; "refused"]).
(** [UPDATE thread_wakes .. WHERE ..] over the table. *)
Definition update_wakes (p : string * string → WakeRow → bool) (f : WakeRow → WakeRow) (db : ThreadDb) : ThreadDb :=
  set_wakes (map_imap (λ k w, Some (if p k w then f w else w)) db.(wakes)) db.

Definition thread_close (db : ThreadDb) (q : CloseThread) : ThreadDb * result StoreError ThreadTxOutcome :=
  once db q.(x_actor) q.(x_operation_id) q.(x_canonical_hash) (
    match load_thread_for_member db q.(x_thread_id) q.(x_actor) with
    | Err r => Ok (db, Refused r)
    | Ok (thread, _) =>
      if negb (bool_decide (thread.(th_creator_id) = q.(x_actor))) then Ok (db, Refused CreatorRequired)
      else if is_some thread.(th_closed_at) then Ok (db, Refused ThreadClosed)
      else
        let close r := mkThread r.(th_creator_id) r.(th_title) r.(th_created_at) (Some q.(x_now)) r.(th_last_seq) r.(th_body_bytes) in
        let db1 := set_threads (alter close q.(x_thread_id) db.(threads)) db in
        let db2 := update_wakes (cancelled q.(x_thread_id)) (with_wake_state "cancelled" None) db1 in
        let result := VClosed q.(x_thread_id) q.(x_now) in
        db3 ← record_operation q.(x_actor) q.(x_operation_id) "close" q.(x_thread_id) q.(x_canonical_hash) q.(x_now) result db2;
        Ok (db3, Done result)
    end).

(** ** Lists and views *)

Definition summary_of (t : string) (r : ThreadRow) : ThreadSummary :=
  mkThreadSummary t r.(th_title) r.(th_creator_id) (is_some r.(th_closed_at)) (u64_of r.(th_last_seq)).
(** The threads of a member, with their rows. *)
Definition threads_of (db : ThreadDb) (actor : string) : list (string * ThreadRow) :=
  select (λ kv, is_some (db.(members) !! (kv.1, actor))) (map_to_list db.(threads)).
(** One row more than the page tells whether another page follows. *)
Definition paged {X} (limit : Z) (key : X → string) (rows : list X) : list X * option string :=
  let rows := take (Z.to_nat (limit + 1)) rows in
  if limit <? Z.of_nat (length rows) then let page := take (Z.to_nat limit) rows in (page, key <$> last page) else (rows, None).

Definition thread_list (db : ThreadDb) (actor : string) (limit : Z) (after : option string) : list ThreadSummary * option string :=
  paged limit ts_thread_id
    ((λ kv, summary_of kv.1 kv.2) <$>
     sort_by (λ a b, String.leb a.1 b.1)
       (select (λ kv, is_none_or after (λ x, negb (String.leb kv.1 x))) (threads_of db actor))).

Definition activity (db : ThreadDb) (t : string) (r : ThreadRow) : Z :=
  from_option en_created_at r.(th_created_at) (db.(entries) !! (t, r.(th_last_seq))).
Definition recent_leb (db : ThreadDb) (a b : string * ThreadRow) : bool :=
  let x := activity db a.1 a.2 in let y := activity db b.1 b.2 in
  (y <? x) || ((x =? y) && String.leb a.1 b.1).
Definition thread_list_recent (db : ThreadDb) (actor : string) (limit : Z) (after : option (Z * string))
    : list RecentThreadSummary * option string :=
  paged limit (λ s, pretty s.(rt_last_activity_at) +:+ ":" +:+ s.(rt_summary).(ts_thread_id))
    ((λ kv, mkRecent (summary_of kv.1 kv.2) (activity db kv.1 kv.2)) <$>
     sort_by (recent_leb db)
       (select (λ kv, is_none_or after (λ x, let d := activity db kv.1 kv.2 in
                        (d <? x.1) || ((d =? x.1) && negb (String.leb kv.1 x.2))))
          (threads_of db actor))).

Definition thread_show (db : ThreadDb) (actor t : string) : result ThreadRefusal ThreadView :=
  match load_thread_for_member db t actor with
  | Err r => Err r
  | Ok (thread, own) => Ok (mkThreadView thread (load_members db t) own (load_wake db t actor))
  end.

Definition human_thread_members (db : ThreadDb) (t : string) : gset string := list_to_set (load_members db t).
Definition human_thread_viewers_for_member (db : ThreadDb) (a : string) : gset string :=
  list_to_set ((λ kv : string * string * MemberRow, kv.1.2) <$>
               select (λ kv, is_some (db.(members) !! (kv.1.1, a))) (map_to_list db.(members))).

(** The members of the threads asked for, with the names [agent_profiles] gives them. *)
Record HumanThreadMember := mkHumanMember { hm_agent_id : string; hm_name : option string }.
Definition thread_members_with_names (names : string → option string) (db : ThreadDb) (actor : string) (ids : list string)
    : result StoreError (gmap string (list HumanThreadMember)) :=
  let shown := List.filter (λ t, is_some (db.(members) !! (t, actor)) && negb (bool_decide (load_members db t = []))) ids in
  if existsb (λ t, (MAX_MEMBERS <? length (load_members db t))%nat) shown then Err (ThreadSqlite "InvalidQuery")
  else Ok (list_to_map ((λ t, (t, (λ a, mkHumanMember a (names a)) <$> load_members db t)) <$> shown)).

(** ** Pages *)

(** The rows of a range in the order asked for. *)
Definition range_rows (db : ThreadDb) (t : string) (from_ to_ : Z) (recent : bool) : list (Z * EntryRow) :=
  sort_by (λ a b, if recent then b.1 <=? a.1 else a.1 <=? b.1)
    ((λ kv : string * Z * EntryRow, (kv.1.2, kv.2)) <$>
     select (λ kv, bool_decide (kv.1.1 = t) && (wrap_i64 from_ <=? kv.1.2) && (kv.1.2 <=? wrap_i64 to_)) (map_to_list db.(entries))).

Definition entry_view (db : ThreadDb) (t : string) (bound : Z) (projected : bool) (kv : Z * EntryRow) : EntryView :=
  let e := kv.2 in
  let next := u64_of <$> successor db t kv.1 bound in
  let hidden := projected && (bool_decide (e.(en_kind) = Some "history") || is_some next) in
  mkEntryView (u64_of kv.1) e.(en_message_id) e.(en_author_id) e.(en_created_at) (if hidden then None else Some e.(en_body))
    (default ("none", []) (notify_from_json e.(en_notify_json))) (u64_of <$> e.(en_reply_to_seq)) e.(en_kind)
    (u64_of <$> e.(en_supersedes_seq)) next
    (then_some hidden (if is_some next then "superseded_reference" else "history_reference")).

(** The first entry, then those that fit in the budget. *)
Fixpoint cut_page (budget used : Z) (first : bool) (l : list EntryView) : list EntryView :=
  match l with
  | [] => []
  | e :: l =>
    let size := entry_json_len e + 1 in
    if negb first && (budget <? used + size) then [] else e :: cut_page budget (used + size) false l
  end.

Definition read_range_ordered (db : ThreadDb) (t : string) (from_ to_ limit budget : Z) (projection recent : option Z) : list EntryView :=
  if (to_ <? from_) || (limit =? 0) then []
  else
    let bound := wrap_i64 (default to_ (opt_or recent projection)) in
    cut_page budget 0 true
      (entry_view db t bound (is_some projection) <$> take (Z.to_nat limit) (range_rows db t from_ to_ (is_some recent))).
Definition read_range (db : ThreadDb) (t : string) (from_ to_ limit budget : Z) (projection : option Z) : list EntryView :=
  read_range_ordered db t from_ to_ limit budget projection None.
Definition last_seq_of (l : list EntryView) : option Z := ev_seq <$> last l.

Definition u32_clamp (v : Z) : Z := Z.max 1 (Z.min u32_max v).

(** The receipt of a new page replaces the one of the member and any other with
    its identifier; its constraints hold by the bounds of the range. *)
Definition thread_read (db : ThreadDb) (q : ReadRequest) : ThreadDb * ReadOutcome :=
  let t := q.(r_thread_id) in
  match load_thread_for_member db t q.(r_actor) with
  | Err r => (db, ReadRefused r)
  | Ok (thread, member) =>
    match opt_filter (λ r, q.(r_now) <? r.(rd_expires_at)) (db.(reads) !! (t, q.(r_actor))) with
    | Some r =>
      let base := u64_of r.(rd_base_seq) in let through := u64_of r.(rd_through_seq) in let snapshot := u64_of r.(rd_snapshot_seq) in
      (db, ReadPage (mkPage (read_range db t (base + 1) through u32_max u64_max (Some snapshot)) base through snapshot
                       (r.(rd_through_seq) <? r.(rd_snapshot_seq)))
             (Some r.(rd_receipt_id)) (Some r.(rd_expires_at)) (u32_clamp r.(rd_requested_limit)) true)
    | None =>
      let snapshot := thread.(th_last_seq) in let base := member.(mb_acked_seq) in
      let l := read_range db t (base + 1) snapshot q.(r_limit) q.(r_byte_budget) (Some snapshot) in
      match last_seq_of l with
      | None => (db, ReadPage (mkPage l base base snapshot false) None None q.(r_limit) false)
      | Some through =>
        let expires := i64_saturating_add q.(r_now) q.(r_receipt_ttl_secs) in
        let others := filter (λ kv : string * string * ReadRow, kv.2.(rd_receipt_id) ≠ q.(r_receipt_id)) db.(reads) in
        (set_reads (<[(t, q.(r_actor)) := mkRead q.(r_receipt_id) base through snapshot expires q.(r_limit)]> others) db,
         ReadPage (mkPage l base through snapshot (through <? snapshot)) (Some q.(r_receipt_id)) (Some expires) q.(r_limit) false)
      end
    end
  end.

Definition thread_ack (db : ThreadDb) (actor t receipt : string) : ThreadDb * AckOutcome :=
  match load_thread_for_member db t actor with
  | Err r => (db, AckRefused r)
  | Ok (_, member) =>
    match apply_ack db t actor member receipt with
    | (db', AckDone acked) => (db', Acknowledged acked (load_wake db' t actor))
    | (_, AckAlready acked) => (db, AlreadyAcknowledged acked (load_wake db t actor))
    | (_, AckNo r) => (db, AckRefused r)
    end
  end.

Definition thread_history (db : ThreadDb) (actor t : string) (from_ : Z) (to_ : option Z) (limit budget : Z) : HistoryOutcome :=
  match load_thread_for_member db t actor with
  | Err r => HistoryRefused r
  | Ok (thread, _) =>
    if is_some_and to_ (λ n, thread.(th_last_seq) <? n) then HistoryRefused RangeUnavailable
    else
      let snapshot := default thread.(th_last_seq) to_ in
      let l := read_range db t from_ snapshot limit budget None in
      let through := default (u64_saturating_sub from_ 1) (last_seq_of l) in
      HistoryPage (mkPage l (u64_saturating_sub from_ 1) through snapshot (negb (bool_decide (length l = O)) && (through <? snapshot)))
  end.

Definition thread_history_recent (db : ThreadDb) (actor t : string) (before to_ : option Z) (limit budget : Z) : HistoryOutcome :=
  match load_thread_for_member db t actor with
  | Err r => HistoryRefused r
  | Ok (thread, _) =>
    if is_some_and to_ (λ n, thread.(th_last_seq) <? n) then HistoryRefused RangeUnavailable
    else
      let snapshot := default thread.(th_last_seq) to_ in
      let through := Z.min (default snapshot before) snapshot in
      let l := read_range_ordered db t 1 through limit budget None (Some snapshot) in
      let more := match last_seq_of l with
                  | Some n => exists_row (λ kv : string * Z * EntryRow, bool_decide (kv.1.1 = t) && (kv.1.2 <? wrap_i64 n)) (map_to_list db.(entries))
                  | None => false
                  end in
      HistoryPage (mkPage l 0 through snapshot more)
  end.

(** ** Solicitations *)

Definition thread_wake_by_delivery (db : ThreadDb) (delivery : string) : option (string * string * WakeRow) :=
  kv ← select_one (λ kv : string * string * WakeRow, bool_decide (kv.2.(wk_delivery_id) = Some delivery)) (map_to_list db.(wakes));
  w ← load_wake db kv.1.1 kv.1.2; Some (kv.1, w).

(** The solicitations that may leave. *)
Definition is_candidate (db : ThreadDb) (now : Z) (k : string * string) (w : WakeRow) : bool :=
  match db.(threads) !! k.1, db.(members) !! k with
  | Some t, Some m =>
    negb (is_some t.(th_closed_at)) && bool_decide (w.(wk_state) ∈ ["pending"; "refused"; "outcome_unknown"; "dispatched"])
    && (Z.max m.(mb_acked_seq) w.(wk_dispatched_seq) <? w.(wk_pending_seq))
    && match w.(wk_active_through_seq) with
       | None => true
       | Some n => bool_decide (w.(wk_state) = "outcome_unknown") && is_some_and w.(wk_expires_at) (λ e, e <=? now) && (n <? w.(wk_pending_seq))
       end
  | _, _ => false
  end.
(** [ORDER BY last_attempt_at IS NOT NULL, last_attempt_at ASC]; SQL leaves the order of equal rows open. *)
Definition attempt_leb (a b : string * string * WakeRow) : bool :=
  match a.2.(wk_last_attempt_at), b.2.(wk_last_attempt_at) with
  | None, _ => true | Some _, None => false | Some x, Some y => x <=? y
  end.
Definition thread_wake_candidates (db : ThreadDb) (now batch : Z) : list WakeCandidate :=
  (λ kv : string * string * WakeRow, mkCandidate kv.1.1 kv.1.2 (u64_of kv.2.(wk_pending_seq)) (u64_of kv.2.(wk_generation))) <$>
  take (Z.to_nat batch) (sort_by attempt_leb (select (λ kv, is_candidate db now kv.1 kv.2) (map_to_list db.(wakes)))).

Definition reserved_wake (r : WakeReservation) (now : Z) (w : WakeRow) : WakeRow :=
  let unknown := bool_decide (w.(wk_state) = "outcome_unknown") in
  mkWake w.(wk_pending_seq) (w.(wk_generation) + 1) (Some (wrap_i64 r.(wr_through_seq))) (Some r.(wr_delivery_id)) (Some r.(wr_delivery_key))
    (Some r.(wr_recipient_instance_id)) (Some (wrap_i64 r.(wr_delivery_generation))) (Some r.(wr_issued_at)) (Some r.(wr_expires_at))
    "in_flight" None w.(wk_dispatched_seq) (Some now)
    (if unknown then Some w.(wk_generation) else w.(wk_last_uncertain_generation))
    (if unknown then w.(wk_active_through_seq) else w.(wk_last_uncertain_seq)).
Definition reservable (r : WakeReservation) (now : Z) (w : WakeRow) : bool :=
  (w.(wk_generation) =? wrap_i64 r.(wr_expected_generation))
  && (negb (is_some w.(wk_active_through_seq))
      || (bool_decide (w.(wk_state) = "outcome_unknown") && is_some_and w.(wk_expires_at) (λ e, e <=? now))).
Definition thread_wake_reserve (db : ThreadDb) (r : WakeReservation) (now : Z) : ThreadDb * result StoreError bool :=
  let k := (r.(wr_thread_id), r.(wr_agent_id)) in
  if is_some_and (db.(wakes) !! k) (reservable r now)
     && exists_row (λ kv : string * string * WakeRow, bool_decide (kv.2.(wk_delivery_id) = Some r.(wr_delivery_id)) && negb (bool_decide (kv.1 = k)))
          (map_to_list db.(wakes))
  then (db, Err (ThreadSqlite "UNIQUE constraint failed: idx_thread_wakes_delivery"))
  else
    let '(db', b) := update_wake r.(wr_thread_id) r.(wr_agent_id) (reservable r now) (reserved_wake r now) db in (db', Ok b).

Definition deferred_wake (reason : string) (now : Z) (w : WakeRow) : WakeRow :=
  mkWake w.(wk_pending_seq) w.(wk_generation) w.(wk_active_through_seq) w.(wk_delivery_id) w.(wk_delivery_key)
    w.(wk_recipient_instance_id) w.(wk_delivery_generation) w.(wk_issued_at) w.(wk_expires_at) "pending" (Some reason)
    w.(wk_dispatched_seq) (Some now) w.(wk_last_uncertain_generation) w.(wk_last_uncertain_seq).
Definition thread_wake_defer (db : ThreadDb) (t a reason : string) (now : Z) : ThreadDb :=
  (update_wake t a (λ w, negb (is_some w.(wk_active_through_seq))) (deferred_wake reason now) db).1.

(** A delivery that is over: what it held is cleared, its identifier with [keep] apart. *)
Definition cleared_wake (keep : bool) (dispatched : Z) (s : string) (reason : option string) (w : WakeRow) : WakeRow :=
  mkWake w.(wk_pending_seq) w.(wk_generation) None (if keep then w.(wk_delivery_id) else None) None None None None None s reason
    dispatched w.(wk_last_attempt_at) w.(wk_last_uncertain_generation) w.(wk_last_uncertain_seq).
Definition thread_wake_settle (db : ThreadDb) (t a : string) (generation : Z) (o : WakeOutcome) : ThreadDb * bool :=
  let here w := w.(wk_generation) =? wrap_i64 generation in
  match o with
  | WDispatched =>
    update_wake t a (λ w, here w && bool_decide (w.(wk_state) ∈ ["in_flight"; "outcome_unknown"]))
      (λ w, cleared_wake true (Z.max w.(wk_dispatched_seq) (default 0 w.(wk_active_through_seq))) "dispatched" None w) db
  | WRefused reason =>
    update_wake t a (λ w, here w && bool_decide (w.(wk_state) = "in_flight"))
      (λ w, cleared_wake false w.(wk_dispatched_seq) "refused" (Some reason) w) db
  | WOutcomeUnknown =>
    update_wake t a (λ w, here w && bool_decide (w.(wk_state) = "in_flight")) (λ w, with_wake_state "outcome_unknown" w.(wk_reason) w) db
  end.

Definition expired_wake (now : Z) (k : string * string) (w : WakeRow) : bool :=
  bool_decide (w.(wk_state) = "in_flight") && is_some_and w.(wk_expires_at) (λ e, e <=? now).
Definition thread_wakes_expire (db : ThreadDb) (now : Z) : ThreadDb :=
  update_wakes (expired_wake now) (λ w, with_wake_state "outcome_unknown" w.(wk_reason) w) db.
Definition thread_wakes_in_flight (db : ThreadDb) : list (string * string * WakeRow) :=
  select (λ kv, bool_decide (kv.2.(wk_state) = "in_flight")) (map_to_list db.(wakes)).

(** ** What the tables always satisfy *)

(** The bytes of the bodies of the first entries of a thread. *)
Fixpoint body_sum (es : gmap (string * Z) EntryRow) (t : string) (n : nat) : Z :=
  match n with
  | O => 0
  | S n => body_sum es t n + from_option (λ e, Z.of_nat (String.length e.(en_body))) 0 (es !! (t, Z.of_nat (S n)))
  end.
Definition thread_bytes (ts : gmap string ThreadRow) : Z := map_fold (λ _ r acc, r.(th_body_bytes) + acc) 0 ts.

Definition thread_ok (es : gmap (string * Z) EntryRow) (t : string) (th : ThreadRow) : Prop :=
  0 ≤ th.(th_last_seq) ≤ LIMITS.(max_entries_per_thread) ∧
  0 ≤ th.(th_body_bytes) ≤ LIMITS.(max_body_bytes_per_thread) ∧
  th.(th_body_bytes) = body_sum es t (Z.to_nat th.(th_last_seq)) ∧
  ∀ n, 1 ≤ n ≤ th.(th_last_seq) → is_Some (es !! (t, n)).

(** An entry that replaces another one: the same author, the same targets, one
    successor at most, and never a piece of history. *)
Definition replaces (es : gmap (string * Z) EntryRow) (t : string) (n p : Z) (e : EntryRow) : Prop :=
  1 ≤ p < n ∧
  (∃ e0, es !! (t, p) = Some e0 ∧ e0.(en_author_id) = e.(en_author_id) ∧ e0.(en_kind) ≠ Some "history" ∧
     snd <$> notify_from_json e0.(en_notify_json) = snd <$> notify_from_json e.(en_notify_json)) ∧
  (∃ k, e.(en_kind) = Some k ∧ k ∈ ["action"; "blocker"; "decision"]) ∧
  (∀ n' e', es !! (t, n') = Some e' → e'.(en_supersedes_seq) = Some p → n' = n).
Definition entry_ok (es : gmap (string * Z) EntryRow) (t : string) (n : Z) (e : EntryRow) : Prop :=
  (∀ r, e.(en_reply_to_seq) = Some r → 1 ≤ r < n) ∧ (∀ p, e.(en_supersedes_seq) = Some p → replaces es t n p e).

Definition flying : list string := ["in_flight"; "outcome_unknown"].
Definition resting : list string := ["pending"; "dispatched"; "refused"; "satisfied_by_read"; "cancelled"].
(** A delivery is held exactly by the rows that fly; it goes beyond what was
    dispatched and beyond the last delivery whose outcome stayed unknown. *)
Definition wake_ok (last : Z) (w : WakeRow) : Prop :=
  0 < w.(wk_pending_seq) ≤ last ∧ 0 ≤ w.(wk_generation) ∧ 0 ≤ w.(wk_dispatched_seq) ≤ w.(wk_pending_seq) ∧
  (∀ u, w.(wk_last_uncertain_seq) = Some u → u < w.(wk_pending_seq)) ∧
  match w.(wk_active_through_seq) with
  | None => w.(wk_state) ∈ resting
  | Some n => w.(wk_state) ∈ flying ∧ w.(wk_dispatched_seq) < n ≤ w.(wk_pending_seq) ∧
              ∀ u, w.(wk_last_uncertain_seq) = Some u → u < n
  end.

Record threads_ok (db : ThreadDb) : Prop := mkThreadsOk {
  ok_threads : ∀ t th, db.(threads) !! t = Some th → thread_ok db.(entries) t th;
  ok_size : Z.of_nat (size db.(threads)) ≤ LIMITS.(max_threads);
  ok_total : thread_bytes db.(threads) ≤ LIMITS.(max_body_bytes_total);
  ok_entries : ∀ t n e, db.(entries) !! (t, n) = Some e →
    entry_ok db.(entries) t n e ∧ is_Some (db.(members) !! (t, e.(en_author_id))) ∧
    ∃ th, db.(threads) !! t = Some th ∧ 1 ≤ n ≤ th.(th_last_seq);
  ok_members : ∀ t a m, db.(members) !! (t, a) = Some m →
    ∃ th, db.(threads) !! t = Some th ∧ 0 ≤ m.(mb_acked_seq) ≤ th.(th_last_seq);
  ok_reads : ∀ t a r, db.(reads) !! (t, a) = Some r →
    ∃ th m, db.(threads) !! t = Some th ∧ db.(members) !! (t, a) = Some m ∧ r.(rd_base_seq) = m.(mb_acked_seq) ∧
      r.(rd_base_seq) < r.(rd_through_seq) ≤ r.(rd_snapshot_seq) ∧ r.(rd_snapshot_seq) ≤ th.(th_last_seq);
  ok_wakes : ∀ t a w, db.(wakes) !! (t, a) = Some w →
    is_Some (db.(members) !! (t, a)) ∧ ∃ th, db.(threads) !! t = Some th ∧ wake_ok th.(th_last_seq) w }.

Lemma flying_not_resting s : s ∈ flying → s ∈ resting → False.
Proof. unfold flying, resting. rewrite !elem_of_cons, !elem_of_nil. intros. destruct_or?; by subst. Qed.

Lemma u64_of_id v : 0 ≤ v → u64_of v = v.
Proof. unfold u64_of. lia. Qed.

Lemma load_thread_ok db t : threads_ok db → load_thread db t = db.(threads) !! t.
Proof.
  intros [Ht _ _ _ _ _ _]. unfold load_thread. destruct (db.(threads) !! t) as [th|] eqn:E; [|done]. simpl.
  destruct (Ht t th E) as (H1 & H2 & _). rewrite !u64_of_id by lia. by destruct th.
Qed.
(** The cursor of a member is read as it is. *)
Lemma load_member_acked db t a m :
  threads_ok db → db.(members) !! (t, a) = Some m →
  ∃ m', load_member db t a = Some m' ∧ m'.(mb_acked_seq) = m.(mb_acked_seq) ∧ m'.(mb_last_ack_receipt) = m.(mb_last_ack_receipt).
Proof.
  intros [_ _ _ _ Hm _ _] E. destruct (Hm t a m E) as (th & _ & H). unfold load_member. rewrite E. simpl. eexists. split; [done|].
  simpl. by rewrite u64_of_id by lia.
Qed.
Lemma load_for_member_Ok db t a th m :
  threads_ok db → load_thread_for_member db t a = Ok (th, m) →
  db.(threads) !! t = Some th ∧ ∃ m0, db.(members) !! (t, a) = Some m0 ∧ m.(mb_acked_seq) = m0.(mb_acked_seq) ∧
    m.(mb_last_ack_receipt) = m0.(mb_last_ack_receipt).
Proof.
  intros Hok. unfold load_thread_for_member. rewrite load_thread_ok by done. destruct (db.(threads) !! t) as [th'|]; [|done].
  destruct (db.(members) !! (t, a)) as [m0|] eqn:E; [|unfold load_member; by rewrite E].
  destruct (load_member_acked db t a m0 Hok E) as (m' & -> & ? & ?). intros [= <- <-]. eauto.
Qed.
Lemma load_for_member_outside db t a :
  db.(members) !! (t, a) = None → load_thread_for_member db t a = Err ThreadUnavailable.
Proof. intros E. unfold load_thread_for_member, load_member. rewrite E. by destruct (load_thread db t). Qed.

(** ** The primitive writes keep it *)

Lemma ok_same db db' :
  db'.(threads) = db.(threads) → db'.(members) = db.(members) → db'.(entries) = db.(entries) → db'.(reads) = db.(reads) →
  db'.(wakes) = db.(wakes) → threads_ok db → threads_ok db'.
Proof. intros H1 H2 H3 H4 H5 [? ? ? ? ? ? ?]. by split; rewrite ?H1, ?H2, ?H3, ?H4, ?H5. Qed.

Lemma record_operation_Ok a o act t h now v db db' :
  record_operation a o act t h now v db = Ok db' →
  db.(operations) !! (a, o) = None ∧
  db' = set_operations (<[(a, o) := mkOperation act t h (value_to_json v) now]> db.(operations)) db.
Proof. unfold record_operation. destruct (_ !! _) eqn:E; [done|]. by intros [= <-]. Qed.
Lemma record_operation_ok a o act t h now v db db' :
  record_operation a o act t h now v db = Ok db' → threads_ok db → threads_ok db'.
Proof. intros [_ ->]%record_operation_Ok. by apply ok_same. Qed.

(** The members of [db'] are those of [db] and more. *)
Lemma ok_members_grow db m' :
  (∀ k x, db.(members) !! k = Some x → m' !! k = Some x) →
  (∀ k x, m' !! k = Some x → db.(members) !! k = Some x ∨ x = mkMember 0 None None ∧ is_Some (db.(threads) !! k.1)) →
  threads_ok db → threads_ok (set_members m' db).
Proof.
  intros Hold Hnew [Ht Hsz Hto He Hm Hr Hw]. split; simpl; [done..| | | |].
  - intros t n e (? & [x Hx] & ?)%He. split_and!; eauto.
  - intros t a x [Hx|[-> [th Hth]]]%Hnew; [by eapply Hm|]. exists th. split; [done|]. destruct (Ht _ _ Hth) as (? & _). simpl. lia.
  - intros t a r (th & m & ? & ? & ?)%Hr. exists th, m. eauto.
  - intros t a w ([x ?] & ?)%Hw. eauto.
Qed.
Lemma insert_members_ok t l : ∀ db db',
  insert_members t l db = Ok db' → is_Some (db.(threads) !! t) → threads_ok db → threads_ok db'.
Proof.
  induction l as [|a l IH]; intros db db' H Ht Hok; simpl in H; [by injection H as <-|].
  destruct (db.(members) !! (t, a)) eqn:Ha; [done|]. simpl in H. eapply IH in H; [done|done|].
  apply ok_members_grow; [| |done].
  - intros k x Hk. rewrite lookup_insert_ne; [done|]. congruence.
  - intros k x [[<- <-]|[_ ?]]%lookup_insert_Some; [by right|by left].
Qed.

Lemma thread_bytes_fresh ts t r : ts !! t = None → thread_bytes (<[t := r]> ts) = r.(th_body_bytes) + thread_bytes ts.
Proof.
  intros Ht. unfold thread_bytes. rewrite (map_fold_insert_L (λ _ r acc, th_body_bytes r + acc)); [done|intros; lia|done].
Qed.
Lemma thread_bytes_insert ts t r r' :
  ts !! t = Some r → thread_bytes (<[t := r']> ts) = thread_bytes ts - r.(th_body_bytes) + r'.(th_body_bytes).
Proof.
  intros Ht. rewrite <-(insert_delete_id ts t r) at 2 by done. rewrite <-(insert_delete_eq ts t r').
  rewrite !thread_bytes_fresh by apply lookup_delete_eq. lia.
Qed.
Lemma size_insert_present {A} (ts : gmap string A) t r r' : ts !! t = Some r → size (<[t := r']> ts) = size ts.
Proof. intros Ht. by rewrite map_size_insert_Some. Qed.

(** A row of the threads that is there: what changes of its counters. *)
Lemma ok_thread_row db t r r' :
  db.(threads) !! t = Some r → r'.(th_last_seq) = r.(th_last_seq) → r'.(th_body_bytes) = r.(th_body_bytes) →
  threads_ok db → threads_ok (set_threads (<[t := r']> db.(threads)) db).
Proof.
  intros Hr Hl Hb [Ht Hsz Hto He Hm Hrd Hw].
  assert (∀ t' th, db.(threads) !! t' = Some th → ∃ th', <[t := r']> db.(threads) !! t' = Some th' ∧ th'.(th_last_seq) = th.(th_last_seq)) as Hth.
  { intros t' th Hth. destruct (decide (t = t')) as [<-|Hne]; [rewrite lookup_insert_eq|rewrite lookup_insert_ne by done; by eauto].
    exists r'. split; [done|]. congruence. }
  split; simpl in *.
  - intros t' th' [[<- <-]|[_ ?]]%lookup_insert_Some; [|by apply Ht]. destruct (Ht t r Hr) as (? & ? & ? & ?).
    unfold thread_ok. by rewrite Hl, Hb.
  - by rewrite (size_insert_present _ _ r).
  - rewrite (thread_bytes_insert _ _ r) by done. lia.
  - intros t' n e (? & ? & th & (th' & ? & Heq)%Hth & ?)%He. rewrite <-Heq in *. eauto 10.
  - intros t' a m (th & (th' & ? & Heq)%Hth & ?)%Hm. rewrite <-Heq in *. eauto.
  - intros t' a x (th & m & (th' & ? & Heq)%Hth & ?)%Hrd. rewrite <-Heq in *. eauto.
  - intros t' a w (? & th & (th' & ? & Heq)%Hth & ?)%Hw. rewrite <-Heq in *. eauto.
Qed.
Lemma ok_thread_fresh db t r :
  db.(threads) !! t = None → r.(th_last_seq) = 0 → r.(th_body_bytes) = 0 → Z.of_nat (size db.(threads)) < LIMITS.(max_threads) →
  threads_ok db → threads_ok (set_threads (<[t := r]> db.(threads)) db).
Proof.
  intros Hr Hl Hb Hlim [Ht Hsz Hto He Hm Hrd Hw].
  assert (∀ t' th, db.(threads) !! t' = Some th → <[t := r]> db.(threads) !! t' = Some th) as Hth.
  { intros t' th Hth. rewrite lookup_insert_ne; [done|]. congruence. }
  split; simpl in *.
  - intros t' th' [[<- <-]|[_ ?]]%lookup_insert_Some; [|by apply Ht]. unfold thread_ok. rewrite Hl, Hb. pose proof limits_positive. split_and!; try lia; done.
  - rewrite map_size_insert_None by done. lia.
  - rewrite thread_bytes_fresh by done. lia.
  - intros t' n e (? & ? & th & ? & ?)%He. eauto 10.
  - intros t' a m (th & ? & ?)%Hm. eauto.
  - intros t' a x (th & m & ? & ?)%Hrd. eauto 10.
  - intros t' a w (? & th & ? & ?)%Hw. eauto.
Qed.

(** A change of the solicitations row by row. *)
Lemma ok_wakes_change db w' :
  (∀ k w x, w' !! k = Some w → db.(threads) !! k.1 = Some x →
     (∃ w0, db.(wakes) !! k = Some w0 ∧ (wake_ok x.(th_last_seq) w0 → wake_ok x.(th_last_seq) w)) ∨
     is_Some (db.(members) !! k) ∧ wake_ok x.(th_last_seq) w) →
  (∀ k w, w' !! k = Some w → is_Some (db.(wakes) !! k) ∨ is_Some (db.(members) !! k)) →
  threads_ok db → threads_ok (set_wakes w' db).
Proof.
  intros Hw' Hk [Ht Hsz Hto He Hm Hrd Hw]. split; simpl; [done..|]. intros t a w Hin.
  assert (is_Some (db.(members) !! (t, a))) as [m Hma].
  { destruct (Hk _ _ Hin) as [[w0 Hw0]|Hk']; [|done]. by destruct (Hw t a w0 Hw0). }
  split; [eauto|]. destruct (Hm t a m Hma) as (th & Hth & _). exists th. split; [done|].
  destruct (Hw' (t, a) w th Hin Hth) as [(w0 & Hw0 & Himp)|[_ ?]]; [|done]. apply Himp.
  destruct (Hw t a w0 Hw0) as (_ & th0 & Hth0 & ?). simpl in *. by simplify_eq.
Qed.

Lemma update_wake_ok t a p f db :
  (∀ last w, db.(wakes) !! (t, a) = Some w → p w = true → wake_ok last w → wake_ok last (f w)) →
  threads_ok db → threads_ok (update_wake t a p f db).1.
Proof.
  intros Hf Hok. unfold update_wake. destruct (db.(wakes) !! (t, a)) as [w|] eqn:Hw; [|done]. destruct (p w) eqn:Hp; [|done]. simpl.
  apply ok_wakes_change; [| |done].
  - intros k w' x [[<- <-]|[_ Hk]]%lookup_insert_Some _; left; eauto.
  - intros k w' [[<- <-]|[_ Hk]]%lookup_insert_Some; left; eauto.
Qed.
Lemma update_wakes_ok p f db :
  (∀ last k w, p k w = true → wake_ok last w → wake_ok last (f w)) → threads_ok db → threads_ok (update_wakes p f db).
Proof.
  intros Hf Hok. apply ok_wakes_change; [| |done].
  - intros k w x. rewrite map_lookup_imap. intros (w0 & Hw0 & [= <-])%bind_Some _. left. exists w0. split; [done|].
    destruct (p k w0) eqn:Hp; [by eapply Hf|done].
  - intros k w. rewrite map_lookup_imap. intros (w0 & Hw0 & _)%bind_Some. eauto.
Qed.

Lemma wake_satisfied_ok last w : satisfied last w = true → ∀ l, wake_ok l w → wake_ok l (with_wake_state "satisfied_by_read" None w).
Proof.
  unfold satisfied. rewrite !andb_true_iff, negb_true_iff. intros [[_ Ha] _] l (? & ? & ? & ? & H). unfold wake_ok. simpl.
  destruct (wk_active_through_seq w); [done|]. do 4 (split; [done|]). unfold resting. set_solver.
Qed.

Lemma apply_ack_ok db t a m m0 receipt db' x :
  threads_ok db → db.(members) !! (t, a) = Some m0 → m.(mb_acked_seq) = m0.(mb_acked_seq) →
  apply_ack db t a m receipt = (db', AckDone x) → threads_ok db'.
Proof.
  intros Hok Hm0 Ha. unfold apply_ack. case_bool_decide; [done|]. destruct (db.(reads) !! (t, a)) as [r|] eqn:Hr; [|done].
  case_bool_decide; [|done]. simpl. destruct (_ =? _); [|done]. simpl. intros [= <- <-].
  apply update_wake_ok; [intros last w _ ? ?; by eapply wake_satisfied_ok|].
  destruct Hok as [Ht Hsz Hto He Hm Hrd Hw]. destruct (Hrd t a r Hr) as (th & m1 & Hth & Hm1 & Hb & Hlt & Hle).
  rewrite Hm0 in Hm1. injection Hm1 as <-. destruct (Hm t a m0 Hm0) as (th' & Hth' & ?).
  rewrite Hth in Hth'. injection Hth' as <-. rewrite (u64_of_id (rd_through_seq r)) by lia. split; simpl; [done..| | | |].
  - intros t' n e (? & Ham & ?)%He. split_and!; try done. rewrite lookup_insert_is_Some'. auto.
  - intros t' a' x [[[= <- <-] <-]|[_ ?]]%lookup_insert_Some; [|by eapply Hm]. exists th. simpl. split; [done|lia].
  - intros t' a' x [Hne Hx]%lookup_delete_Some. destruct (Hrd t' a' x Hx) as (th2 & m2 & ? & ? & ?). exists th2, m2.
    rewrite lookup_insert_ne by done. done.
  - intros t' a' w [Hmem ?]%Hw. split; [|done]. rewrite lookup_insert_is_Some'. auto.
Qed.

Lemma body_sum_other es t t' n e k : (t ≠ t' ∨ Z.of_nat k < n) → body_sum (<[(t, n) := e]> es) t' k = body_sum es t' k.
Proof.
  induction k as [|k IH]; [done|]. intros H. cbn [body_sum]. rewrite IH by (destruct H; [by left|right; lia]).
  f_equal. rewrite lookup_insert_ne; [done|]. intros [= -> ->]. destruct H; [done|lia].
Qed.

(** The tables after an entry of a thread. *)
Definition with_entry (t : string) (th : ThreadRow) (e : EntryRow) (db : ThreadDb) : ThreadDb :=
  let n := th.(th_last_seq) + 1 in
  set_threads (<[t := mkThread th.(th_creator_id) th.(th_title) th.(th_created_at) th.(th_closed_at) n
                        (th.(th_body_bytes) + Z.of_nat (String.length e.(en_body)))]> db.(threads))
    (set_entries (<[(t, n) := e]> db.(entries)) db).

Lemma entry_ok_grow es t n e t' n' e' :
  es !! (t, n) = None → (∀ p, e.(en_supersedes_seq) = Some p → ∀ k x, es !! (t, k) = Some x → x.(en_supersedes_seq) ≠ Some p) →
  es !! (t', n') = Some e' → entry_ok es t' n' e' → entry_ok (<[(t, n) := e]> es) t' n' e'.
Proof.
  intros Hn Hs Hin [Hr Hp]. split; [done|]. intros p Hpp. destruct (Hp p Hpp) as (Hlt & (e0 & He0 & ?) & Hki & Hu). split; [done|].
  split; [|split; [done|]].
  - exists e0. split; [|done]. rewrite lookup_insert_ne; [done|]. congruence.
  - intros k x [[[= <- <-] <-]|[_ Hk]]%lookup_insert_Some Hx; [|by eapply Hu]. by destruct (Hs p Hx n' e').
Qed.

Lemma with_entry_ok db t th e :
  db.(threads) !! t = Some th → th.(th_last_seq) + 1 ≤ LIMITS.(max_entries_per_thread) →
  th.(th_body_bytes) + Z.of_nat (String.length e.(en_body)) ≤ LIMITS.(max_body_bytes_per_thread) →
  thread_bytes db.(threads) + Z.of_nat (String.length e.(en_body)) ≤ LIMITS.(max_body_bytes_total) →
  is_Some (db.(members) !! (t, e.(en_author_id))) →
  (∀ p, e.(en_supersedes_seq) = Some p → ∀ k x, db.(entries) !! (t, k) = Some x → x.(en_supersedes_seq) ≠ Some p) →
  entry_ok (<[(t, th.(th_last_seq) + 1) := e]> db.(entries)) t (th.(th_last_seq) + 1) e →
  threads_ok db → threads_ok (with_entry t th e db).
Proof.
  intros Hth Hn Hb Htot Hau Hsu Hnew [Ht Hsz Hto He Hm Hrd Hw]. destruct (Ht t th Hth) as (Hl & Hbb & Hsum & Hall).
  set (n := th.(th_last_seq) + 1) in *.
  assert (db.(entries) !! (t, n) = None) as Hfree.
  { destruct (db.(entries) !! (t, n)) as [x|] eqn:Hx; [|done]. apply He in Hx as (_ & _ & th' & ? & ?). simplify_eq. lia. }
  assert (∀ t' x, db.(threads) !! t' = Some x → ∃ x', (with_entry t th e db).(threads) !! t' = Some x' ∧ x.(th_last_seq) ≤ x'.(th_last_seq)) as Hgrow.
  { intros t' x Hx. unfold with_entry. simpl. destruct (decide (t = t')) as [<-|Hne]; [rewrite lookup_insert_eq|rewrite lookup_insert_ne by done].
    - simplify_eq. eexists. split; [done|]. simpl. lia.
    - exists x. split; [done|lia]. }
  split.
  - intros t' th'. unfold with_entry. simpl. fold n. intros [[<- <-]|[Hne Hx]]%lookup_insert_Some.
    + unfold thread_ok. cbn [th_last_seq th_body_bytes]. split_and!; try lia.
      * replace (Z.to_nat n) with (S (Z.to_nat th.(th_last_seq))) by lia. cbn [body_sum].
        rewrite body_sum_other by (right; lia). replace (Z.of_nat (S (Z.to_nat (th_last_seq th)))) with n by lia.
        rewrite lookup_insert_eq, <-Hsum. done.
      * intros k Hk. rewrite lookup_insert_is_Some'. destruct (decide (k = n)) as [->|]; [by left|]. right. apply Hall. lia.
    + destruct (Ht t' th' Hx) as (? & ? & Hs' & Ha'). unfold thread_ok. rewrite body_sum_other by (by left).
      do 3 (split; [done|]). intros k Hk. rewrite lookup_insert_is_Some'. right. by apply Ha'.
  - unfold with_entry. simpl. by rewrite (size_insert_present _ _ th).
  - unfold with_entry. simpl. rewrite (thread_bytes_insert _ _ th) by done. simpl in *. lia.
  - intros t' k x Hx. unfold with_entry in Hx. simpl in Hx. fold n in Hx. apply lookup_insert_Some in Hx as [[[= <- <-] <-]|[_ Hx]].
    + split; [done|]. split; [done|]. unfold with_entry. simpl. rewrite lookup_insert_eq. eexists. split; [done|]. simpl. lia.
    + destruct (He t' k x Hx) as (Hok & Hau' & th' & Hth' & ?). split; [by apply entry_ok_grow|]. split; [done|].
      destruct (Hgrow t' th' Hth') as (x' & ? & ?). exists x'. split; [done|lia].
  - intros t' a m (x & Hx & ?)%Hm. destruct (Hgrow t' x Hx) as (x' & ? & ?). exists x'. split; [done|lia].
  - intros t' a r (x & m & Hx & ?)%Hrd. destruct (Hgrow t' x Hx) as (x' & ? & ?). exists x', m. split; [done|]. naive_solver lia.
  - intros t' a w (? & x & Hx & Hwo)%Hw. split; [done|]. destruct (Hgrow t' x Hx) as (x' & ? & ?). exists x'. split; [done|].
    destruct Hwo as (? & ?). split; [lia|done].
Qed.

Lemma fresh_wake_ok seq : 0 < seq → wake_ok seq (fresh_wake seq).
Proof. intros. unfold wake_ok. simpl. split_and!; try lia; [done|]. unfold resting. set_solver. Qed.
Lemma merged_wake_ok seq w last : 0 < seq → last ≤ seq → wake_ok last w → wake_ok seq (merged_wake seq w).
Proof.
  intros Hs Hl (Hp & Hg & Hd & Hu & Ha). unfold wake_ok, merged_wake. simpl. split; [lia|]. split; [done|]. split; [lia|].
  split; [intros u ?%Hu; lia|]. destruct w.(wk_active_through_seq) as [n|]; simpl.
  - destruct Ha as (? & ? & ?). split; [done|]. split; [lia|done].
  - unfold resting. set_solver.
Qed.

Lemma solicit_ok t seq targets : ∀ db db' notes sleeping,
  solicit t seq targets db = Ok (db', notes, sleeping) →
  (∃ th, db.(threads) !! t = Some th ∧ th.(th_last_seq) = seq) → 0 < seq → threads_ok db →
  threads_ok db' ∧ db' = set_wakes db'.(wakes) db.
Proof.
  induction targets as [|a targets IH]; intros db db' notes sleeping H Hth Hs Hok; simpl in H.
  { injection H as <- _ _. split; [done|by destruct db]. }
  destruct (dormant db a).
  { apply bind_Ok in H as ([[db1 n1] s1] & H1 & [= <- _ _]). by eapply IH. }
  destruct (db.(members) !! (t, a)) as [m|] eqn:Hm; [|done]. simpl in H. set (w := match _ with Some w => _ | None => _ end) in H.
  apply bind_Ok in H as (x & _ & H). apply bind_Ok in H as ([[db1 n1] s1] & H1 & [= <- _ _]).
  assert (threads_ok (set_wakes (<[(t, a) := w]> db.(wakes)) db)) as Hok1.
  { destruct Hth as (th & Hth & <-). apply ok_wakes_change; [| |done].
    - intros k w' y [[<- <-]|[_ Hk]]%lookup_insert_Some Hy; [right|left; by eauto]. split; [by eauto|]. simpl in Hy. simplify_eq. unfold w.
      destruct (db.(wakes) !! (t, a)) as [w0|] eqn:Hw0; [|by apply fresh_wake_ok].
      destruct (ok_wakes _ Hok t a w0 Hw0) as (_ & th' & ? & ?). simplify_eq. by eapply merged_wake_ok.
    - intros k w' [[<- <-]|[_ Hk]]%lookup_insert_Some; [right|left]; eauto. }
  destruct (IH _ _ _ _ H1 Hth Hs Hok1) as [? Heq]. split; [done|]. by rewrite Heq at 1.
Qed.

Lemma insert_entry_Ok t n e db db' :
  insert_entry t n e db = Ok db' →
  db.(entries) !! (t, n) = None ∧ db' = set_entries (<[(t, n) := e]> db.(entries)) db ∧ is_Some (db.(members) !! (t, e.(en_author_id))) ∧
  (∀ p, e.(en_supersedes_seq) = Some p → ∀ k x, db.(entries) !! (t, k) = Some x → x.(en_supersedes_seq) ≠ Some p).
Proof.
  unfold insert_entry. destruct (db.(entries) !! (t, n)) eqn:Hn; [done|]. simpl. destruct (exists_row _ _); [done|].
  destruct (is_some_and _ (λ n, replaced db t n)) eqn:Hr; [done|]. destruct (_ || _); [done|].
  destruct (db.(members) !! _) eqn:Hm; [|done]. simpl. intros [= <-]. split_and!; try done.
  intros p Hp k x Hk Hx. rewrite Hp in Hr. simpl in Hr. unfold replaced in Hr.
  assert ((t, k, x) ∈ map_to_list db.(entries)) as Hin by by apply elem_of_map_to_list.
  pose proof (proj1 (exists_row_false _ _) Hr _ Hin) as Hf. simpl in Hf.
  by rewrite !bool_decide_eq_true_2 in Hf by done.
Qed.

Lemma thread_bytes_sum ts s :
  sql_sum 0 ((λ kv : string * ThreadRow, kv.2.(th_body_bytes)) <$> map_to_list ts) = Ok s → s = thread_bytes ts.
Proof.
  unfold thread_bytes. rewrite map_fold_foldr.
  assert (∀ l acc, sql_sum acc ((λ kv : string * ThreadRow, kv.2.(th_body_bytes)) <$> l) = Ok s →
    s = acc + foldr (uncurry (λ (_ : string) r a, th_body_bytes r + a)) 0 l) as H; [|by intros ->%H].
  induction l as [|[k r] l IH]; intros acc; simpl; [intros [= <-]; lia|]. destruct (_ <=? _); [|done]. intros ->%IH. lia.
Qed.
Lemma post_room_None db th l n :
  post_room db th l n = Ok None → th.(th_last_seq) + 1 ≤ l.(max_entries_per_thread) ∧
  th.(th_body_bytes) + n ≤ l.(max_body_bytes_per_thread) ∧ thread_bytes db.(threads) + n ≤ l.(max_body_bytes_total).
Proof.
  unfold post_room. destruct (_ <? th_last_seq th + 1) eqn:H1; [done|]. destruct (_ <? th_body_bytes th + n) eqn:H2; [done|].
  intros (s & Hs & H3)%bind_Ok. destruct (sql_sum _ _) as [s'|] eqn:Hsum; [|done]. injection Hs as <-. apply thread_bytes_sum in Hsum as ->.
  destruct (_ <? u64_of _ + n) eqn:H4; [done|]. unfold u64_of in H4. lia.
Qed.

Lemma apply_ack_frame db t a m receipt :
  let db' := (apply_ack db t a m receipt).1 in
  db'.(threads) = db.(threads) ∧ db'.(entries) = db.(entries) ∧ db'.(operations) = db.(operations) ∧ db'.(tracking) = db.(tracking).
Proof.
  unfold apply_ack, update_wake. case_bool_decide; [done|]. destruct (db.(reads) !! _); [|done]. case_bool_decide; [|done]. simpl.
  destruct (_ =? _); [|done]. simpl. by repeat case_match.
Qed.

Lemma supersession_spec db q last targets p :
  supersession_valid db q last targets p = Ok true → last < i64_max →
  1 ≤ p ≤ last ∧ (∃ e0, db.(entries) !! (q.(p_thread_id), p) = Some e0 ∧ e0.(en_author_id) = q.(p_actor) ∧ e0.(en_kind) ≠ Some "history" ∧
    snd <$> notify_from_json e0.(en_notify_json) = Some targets) ∧
  ∃ k, entry_kind_as_str <$> q.(p_kind) = Some k ∧ k ∈ ["action"; "blocker"; "decision"].
Proof.
  unfold supersession_valid. intros H Hl. destruct (db.(entries) !! _) as [e0|] eqn:He; [|done].
  apply bind_Ok in H as ([mode old] & Hn%ok_or_Ok & H). injection H as H. rewrite !andb_true_iff, !bool_decide_eq_true, !negb_true_iff in H.
  destruct H as ((((((H1 & H2) & H3) & H4) & _) & ->) & H6). rewrite Z.ltb_lt in H1. rewrite Z.leb_le in H2.
  rewrite Z.min_l in He by lia. split; [lia|]. split.
  - exists e0. rewrite Hn. split_and!; try done. intros Hk. by rewrite bool_decide_eq_true_2 in H4.
  - destruct q.(p_kind) as [[]|]; try done; eexists; (split; [done|set_solver]).
Qed.

Definition under_limits (q : PostEntry) : PostEntry :=
  mkPost q.(p_actor) q.(p_operation_id) q.(p_canonical_hash) q.(p_thread_id) q.(p_message_id) q.(p_body) q.(p_notify) q.(p_notices)
    q.(p_project_warnings) q.(p_reply_to_seq) q.(p_ack_receipt) q.(p_kind) q.(p_supersedes_seq) q.(p_now) LIMITS.

(** The entry a post writes. *)
Definition posted_entry (q : PostEntry) (targets : list string) : EntryRow :=
  mkEntry q.(p_message_id) q.(p_actor) q.(p_body) q.(p_now) (notify_to_json (notify_mode q.(p_notify)) targets)
    (wrap_i64 <$> q.(p_reply_to_seq)) (entry_kind_as_str <$> q.(p_kind)) (wrap_i64 <$> q.(p_supersedes_seq)).

Lemma wrap_i64_id z : i64_min ≤ z ≤ i64_max → wrap_i64 z = z.
Proof. unfold wrap_i64, i64_min, i64_max. intros H. rewrite Z.mod_small by lia. lia. Qed.

(** ** The rows of a range *)

(** The entries [from_], [from_ + 1], .., [to_]. *)
Definition rows_between (db : ThreadDb) (t : string) (from_ to_ : Z) : list (Z * EntryRow) :=
  omap (λ n, pair n <$> db.(entries) !! (t, n)) (seqZ from_ (to_ - from_ + 1)).

Definition in_range (db : ThreadDb) (t : string) (from_ to_ : Z) : list (Z * EntryRow) :=
  (λ kv : string * Z * EntryRow, (kv.1.2, kv.2)) <$>
  select (λ kv, bool_decide (kv.1.1 = t) && (wrap_i64 from_ <=? kv.1.2) && (kv.1.2 <=? wrap_i64 to_)) (map_to_list db.(entries)).
Lemma in_range_elem db t from_ to_ n e :
  i64_min ≤ from_ ≤ i64_max → i64_min ≤ to_ ≤ i64_max →
  (n, e) ∈ in_range db t from_ to_ ↔ db.(entries) !! (t, n) = Some e ∧ from_ ≤ n ≤ to_.
Proof.
  intros H1 H2. unfold in_range. rewrite list_elem_of_fmap, !wrap_i64_id by done. split.
  - intros ([[t' n'] e'] & [= -> ->] & Hin). apply select_elem in Hin as [Hin Hp]. apply elem_of_map_to_list in Hin. simpl in Hp.
    rewrite !andb_true_iff, bool_decide_eq_true, !Z.leb_le in Hp. destruct Hp as [[-> ?] ?]. done.
  - intros [He Hn]. exists (t, n, e). split; [done|]. apply select_elem. split; [by apply elem_of_map_to_list|]. simpl.
    rewrite bool_decide_eq_true_2 by done. simpl. lia.
Qed.
Lemma in_range_keys db t from_ to_ : NoDup (in_range db t from_ to_).*1.
Proof.
  unfold in_range. rewrite <-list_fmap_compose. apply NoDup_fmap_2_strong.
  - intros [[t1 n1] e1] [[t2 n2] e2] [H1 P1]%select_elem [H2 P2]%select_elem. simpl in *. intros ->.
    rewrite !andb_true_iff, !bool_decide_eq_true in P1, P2. destruct P1 as [[-> _] _], P2 as [[-> _] _].
    apply elem_of_map_to_list in H1, H2. by simplify_eq.
  - apply NoDup_ListNoDup, List.NoDup_filter, NoDup_ListNoDup, NoDup_map_to_list.
Qed.

Lemma rows_between_elem db t from_ to_ n e :
  (n, e) ∈ rows_between db t from_ to_ ↔ db.(entries) !! (t, n) = Some e ∧ from_ ≤ n ≤ to_.
Proof.
  unfold rows_between. rewrite list_elem_of_omap. split.
  - intros (n' & Hn & (e' & He & [= <- <-])%fmap_Some). apply elem_of_seqZ in Hn. split; [done|lia].
  - intros [He Hn]. exists n. rewrite He. split; [|done]. apply elem_of_seqZ. lia.
Qed.
Lemma rows_between_sorted db t from_ to_ : StronglySorted (λ a b, a.1 < b.1) (rows_between db t from_ to_).
Proof.
  unfold rows_between. assert (∀ k m, StronglySorted (λ a b : Z * EntryRow, a.1 < b.1)
    (omap (λ n, pair n <$> db.(entries) !! (t, n)) (seqZ m (Z.of_nat k)))) as H.
  - induction k as [|k IH]; intros m; [constructor|]. rewrite seqZ_cons by lia. replace (Z.pred (Z.of_nat (S k))) with (Z.of_nat k) by lia.
    cbn [omap list_omap]. destruct (db.(entries) !! (t, m)) as [e|]; simpl; [|apply IH]. constructor; [apply IH|].
    apply Forall_forall. intros [n x] (n' & Hn & (y & _ & [= <- <-])%fmap_Some)%list_elem_of_omap. apply elem_of_seqZ in Hn. simpl. lia.
  - destruct (decide (0 ≤ to_ - from_ + 1)); [|rewrite seqZ_nil by lia; constructor]. rewrite <-(Z2Nat.id (to_ - from_ + 1)) by done. apply H.
Qed.
Lemma rows_between_nodup db t from_ to_ : NoDup (rows_between db t from_ to_).
Proof.
  pose proof (rows_between_sorted db t from_ to_) as H. induction H as [|a l Hs IH Hall]; constructor; [|done].
  intros Ha. rewrite Forall_forall in Hall. specialize (Hall a Ha). lia.
Qed.

Lemma range_rows_exact db t th from_ to_ :
  threads_ok db → db.(threads) !! t = Some th → 1 ≤ from_ ≤ i64_max → to_ ≤ th.(th_last_seq) → 0 ≤ to_ →
  range_rows db t from_ to_ false = rows_between db t from_ to_ ∧ range_rows db t from_ to_ true = reverse (rows_between db t from_ to_).
Proof.
  intros Hok Hth Hf Hto H0. destruct (ok_threads _ Hok t th Hth) as (Hl & _ & _ & Hall). pose proof limits_positive.
  assert (∀ n e, (n, e) ∈ in_range db t from_ to_ ↔ db.(entries) !! (t, n) = Some e ∧ from_ ≤ n ≤ to_) as Hin.
  { intros n e. apply in_range_elem; unfold i64_min, i64_max in *; lia. }
  assert (in_range db t from_ to_ ≡ₚ rows_between db t from_ to_) as Hperm.
  { apply NoDup_Permutation; [eapply NoDup_fmap_1, in_range_keys|apply rows_between_nodup|]. intros [n e]. rewrite Hin.
    symmetry. apply rows_between_elem. }
  assert (∀ a b : Z * EntryRow, a ∈ rows_between db t from_ to_ → b ∈ rows_between db t from_ to_ → a.1 = b.1 → a = b) as Heq.
  { intros [n e] [n' e'] [? _]%rows_between_elem [? _]%rows_between_elem. simpl. intros ->. by simplify_eq. }
  assert (Sorted (λ a b, (a.1 <=? b.1) = true) (rows_between db t from_ to_)) as Hs.
  { apply StronglySorted_Sorted. rewrite <-(list_fmap_id (rows_between db t from_ to_)).
    eapply (StronglySorted_fmap Datatypes.id (λ a b : Z * EntryRow, a.1 < b.1)); [|apply rows_between_sorted]. unfold Datatypes.id. lia. }
  split.
  - apply sort_by_unique; [intros a b; lia|intros a b c; lia|intros a b Ha Hb ? ?; apply Heq; [done..|lia]|done|].
    exact Hs.
  - apply sort_by_unique; [intros a b; lia|intros a b c; lia| |by rewrite reverse_Permutation|].
    + intros a b Ha Hb ? ?. rewrite elem_of_reverse in Ha, Hb. apply Heq; [done..|lia].
    + exact (Sorted_reverse _ _ Hs).
Qed.

Lemma rows_between_app db t from_ mid to_ :
  from_ - 1 ≤ mid ≤ to_ → rows_between db t from_ to_ = rows_between db t from_ mid ++ rows_between db t (mid + 1) to_.
Proof.
  intros H. unfold rows_between. replace (to_ - from_ + 1) with ((mid - from_ + 1) + (to_ - (mid + 1) + 1)) by lia.
  rewrite seqZ_app by lia. rewrite omap_app. by replace (from_ + (mid - from_ + 1)) with (mid + 1) by lia.
Qed.
Lemma rows_between_length db t from_ to_ :
  (∀ n, from_ ≤ n ≤ to_ → is_Some (db.(entries) !! (t, n))) → length (rows_between db t from_ to_) = Z.to_nat (to_ - from_ + 1).
Proof.
  intros H. rewrite <-(length_seqZ from_ (to_ - from_ + 1)). unfold rows_between.
  assert (∀ n, n ∈ seqZ from_ (to_ - from_ + 1) → is_Some (db.(entries) !! (t, n))) as H' by (intros n ?%elem_of_seqZ; apply H; lia).
  induction (seqZ _ _) as [|n l IH]; [done|]. simpl. destruct (H' n) as [e ->]; [left|]. simpl. f_equal. apply IH. intros. apply H'. by right.
Qed.
Lemma rows_between_take db t from_ to_ (k : nat) :
  (∀ n, from_ ≤ n ≤ to_ → is_Some (db.(entries) !! (t, n))) → Z.of_nat k ≤ to_ - from_ + 1 →
  take k (rows_between db t from_ to_) = rows_between db t from_ (from_ + Z.of_nat k - 1).
Proof.
  intros H Hk. rewrite (rows_between_app db t from_ (from_ + Z.of_nat k - 1) to_) by lia.
  rewrite take_app_length'; [done|]. rewrite rows_between_length; [lia|]. intros n Hn. apply H. lia.
Qed.

Lemma cut_page_prefix budget l : ∀ used first, ∃ k, cut_page budget used first l = take k l ∧ (k ≤ length l)%nat ∧ (first = true → l ≠ [] → (0 < k)%nat).
Proof.
  induction l as [|e l IH]; intros used first; simpl; [by exists 0%nat|].
  destruct (negb first && _) eqn:Hc; [exists 0%nat; split_and!; [done|lia|]; intros ->; done|].
  destruct (IH (used + (entry_json_len e + 1)) false) as (k & -> & Hk & _). exists (S k). split_and!; [done|simpl; lia|lia].
Qed.

(** The number a view shows is the one of its row. *)
Lemma view_seq db t bound proj kv : 0 ≤ kv.1 → (entry_view db t bound proj kv).(ev_seq) = kv.1.
Proof. intros. simpl. by apply u64_of_id. Qed.

(** A page that reads upwards is exactly the entries of an initial part of the range. *)
Lemma read_range_exact db t th from_ to_ limit budget proj :
  threads_ok db → db.(threads) !! t = Some th → 1 ≤ from_ ≤ to_ → to_ ≤ th.(th_last_seq) → 0 < limit →
  ∃ through, from_ ≤ through ≤ to_ ∧ last_seq_of (read_range db t from_ to_ limit budget proj) = Some through ∧
    read_range db t from_ to_ limit budget proj =
      entry_view db t (wrap_i64 (default to_ proj)) (is_some proj) <$> rows_between db t from_ through.
Proof.
  intros Hok Hth Hf Hto Hlim. destruct (ok_threads _ Hok t th Hth) as (Hl & _ & _ & Hall). pose proof limits_positive.
  unfold read_range, read_range_ordered. replace (to_ <? from_) with false by lia. replace (limit =? 0) with false by lia.
  cbn [orb opt_or is_some]. destruct (range_rows_exact db t th from_ to_ Hok Hth) as [-> _]; [lia..|].
  set (view := entry_view db t _ _). set (rows := rows_between db t from_ to_).
  assert (∀ n, from_ ≤ n ≤ to_ → is_Some (db.(entries) !! (t, n))) as Hpres by (intros n Hn; apply Hall; lia).
  assert (length rows = Z.to_nat (to_ - from_ + 1)) as Hlen by by apply rows_between_length.
  destruct (cut_page_prefix budget (view <$> take (Z.to_nat limit) rows) 0 true) as (k & -> & Hk & Hpos).
  rewrite length_fmap, length_take in Hk. destruct k as [|k].
  { exfalso. assert (0 < 0)%nat; [|lia]. apply Hpos; [done|]. intros Hnil. apply (f_equal length) in Hnil.
    rewrite length_fmap, length_take in Hnil. simpl in Hnil. lia. }
  exists (from_ + Z.of_nat (S k) - 1). split; [lia|].
  rewrite <-fmap_take, take_take, Nat.min_l by lia. unfold rows at 1 2. rewrite rows_between_take; [|done|lia]. split; [|done].
  set (m := from_ + Z.of_nat (S k) - 1). unfold last_seq_of. rewrite (rows_between_app db t from_ (m - 1) m) by lia.
  rewrite fmap_app. replace (m - 1 + 1) with m by lia. unfold rows_between at 2. replace (m - m + 1) with 1 by lia. simpl.
  destruct (Hpres m) as [e He]; [lia|]. rewrite Z.add_0_l, He. simpl. rewrite last_snoc. simpl. by rewrite u64_of_id by lia.
Qed.

Section laws.
Context {L : ThreadLaws C}.

Lemma posted_entry_ok db q th targets :
  0 ≤ th.(th_last_seq) < i64_max →
  is_some_and q.(p_reply_to_seq) (λ n, (n =? 0) || (th.(th_last_seq) <? n)) = false → (∀ r, q.(p_reply_to_seq) = Some r → 0 ≤ r) →
  (∀ p, q.(p_supersedes_seq) = Some p → supersession_valid db q th.(th_last_seq) targets p = Ok true) →
  (∀ k x, db.(entries) !! (q.(p_thread_id), k) = Some x → k ≤ th.(th_last_seq)) →
  (∀ p, (posted_entry q targets).(en_supersedes_seq) = Some p →
     ∀ k x, db.(entries) !! (q.(p_thread_id), k) = Some x → x.(en_supersedes_seq) ≠ Some p) →
  entry_ok (<[(q.(p_thread_id), th.(th_last_seq) + 1) := posted_entry q targets]> db.(entries)) q.(p_thread_id) (th.(th_last_seq) + 1)
    (posted_entry q targets).
Proof using L.
  intros Hl Hr Hr0 Hs Hk Hu. split.
  - intros r Hr'. simpl in Hr'. destruct q.(p_reply_to_seq) as [r0|] eqn:Hq; [|done]. simpl in Hr, Hr'. specialize (Hr0 r0 eq_refl).
    apply orb_false_iff in Hr as [? ?]. unfold i64_max in *. rewrite wrap_i64_id in Hr' by (unfold i64_min, i64_max; lia). injection Hr' as <-. lia.
  - intros p Hp. simpl in Hp. destruct q.(p_supersedes_seq) as [p0|] eqn:Hq; [|done]. simpl in Hp.
    destruct (supersession_spec _ _ _ _ _ (Hs p0 eq_refl)) as (Hle & (e0 & He0 & Ha & Hk0 & Hn) & Hkind); [lia|].
    unfold i64_max in *. rewrite wrap_i64_id in Hp by (unfold i64_min, i64_max; lia). injection Hp as <-. split; [lia|]. split; [|split; [done|]].
    + exists e0. split; [rewrite lookup_insert_ne; [done|]; intros [= ?]; lia|]. split; [done|]. split; [done|].
      simpl. by rewrite notify_roundtrip.
    + intros n' e' [[[= <-] <-]|[_ He']]%lookup_insert_Some Hse; [done|]. exfalso. eapply Hu; [|done|done]. simpl. rewrite Hq. simpl.
      rewrite wrap_i64_id by (unfold i64_min, i64_max; lia). done.
Qed.

(** A post that is done: the tables it leaves. *)
Lemma write_post_Ok db q th targets db' o :
  write_post db q th targets = Ok (db', o) → db.(threads) !! q.(p_thread_id) = Some th → 0 ≤ th.(th_last_seq) →
  ∃ db3 notes sleeping notices v,
    insert_entry q.(p_thread_id) (th.(th_last_seq) + 1) (posted_entry q targets) db =
      Ok (set_entries (<[(q.(p_thread_id), th.(th_last_seq) + 1) := posted_entry q targets]> db.(entries)) db) ∧
    solicit q.(p_thread_id) (th.(th_last_seq) + 1) targets (with_entry q.(p_thread_id) th (posted_entry q targets) db) = Ok (db3, notes, sleeping) ∧
    v = VPosted q.(p_thread_id) q.(p_message_id) (th.(th_last_seq) + 1) targets notices notes sleeping q.(p_project_warnings) ∧
    record_operation q.(p_actor) q.(p_operation_id) "post" q.(p_thread_id) q.(p_canonical_hash) q.(p_now) v db3 = Ok db' ∧ o = Done v.
Proof.
  intros (db1 & H1 & H)%bind_Ok Hth Hl. pose proof (insert_entry_Ok _ _ _ _ _ H1) as (_ & -> & _). simpl in H. rewrite Hth in H.
  apply bind_Ok in H as ([[db3 notes] sleeping] & H3 & H). apply bind_Ok in H as (db4 & H4 & [= <- <-]).
  exists db3, notes, sleeping. eauto 10.
Qed.

Lemma once_cases db a o h body db' r :
  once db a o h body = (db', r) →
  (∃ x, thread_operation_replay db a o h = Some x ∧ db' = db ∧ r = Ok x) ∨
  thread_operation_replay db a o h = None ∧
    ((∃ x, body = Ok (db', x) ∧ r = Ok x) ∨ ∃ e, body = Err e ∧ db' = db ∧ r = Err e).
Proof.
  unfold once, commit_thread. destruct (thread_operation_replay _ _ _ _); [intros [= <- <-]; eauto 10|].
  destruct body as [[db1 x]|e]; intros [= <- <-]; eauto 10.
Qed.

(** A post leaves the tables as they are, or it is done: what it went through. *)
Lemma thread_post_cases db q db' r :
  threads_ok db → thread_post db q = (db', r) →
  (db' = db ∧ ∀ v, r ≠ Ok (Done v)) ∨
  ∃ th m m0 targets db1 v,
    r = Ok (Done v) ∧ db.(threads) !! q.(p_thread_id) = Some th ∧ th.(th_closed_at) = None ∧
    db.(members) !! (q.(p_thread_id), q.(p_actor)) = Some m0 ∧ m.(mb_acked_seq) = m0.(mb_acked_seq) ∧
    is_some_and q.(p_reply_to_seq) (λ n, (n =? 0) || (th.(th_last_seq) <? n)) = false ∧
    post_targets q.(p_actor) (load_members db q.(p_thread_id)) q.(p_notify) = Ok targets ∧
    (∀ p, q.(p_supersedes_seq) = Some p → supersession_valid db q th.(th_last_seq) targets p = Ok true) ∧
    (db1 = db ∨ ∃ receipt x, apply_ack db q.(p_thread_id) q.(p_actor) m receipt = (db1, AckDone x)) ∧
    post_room db1 th q.(p_limits) (Z.of_nat (String.length q.(p_body))) = Ok None ∧ write_post db1 q th targets = Ok (db', Done v).
Proof.
  intros Hok H. apply once_cases in H as [(x & Hx & -> & ->)|[_ [(x & Hb & ->)|(e & _ & -> & ->)]]]; [left|..|by left].
  { split; [done|]. intros v [= ->]. unfold thread_operation_replay in Hx. apply fmap_Some in Hx as ([?|[]] & _ & ?); done. }
  destruct (load_thread_for_member db _ _) as [[th m]|rf] eqn:Hld; [|left; by injection Hb as <- <-].
  apply load_for_member_Ok in Hld as (Hth & m0 & Hm0 & Ha & _); [|done].
  destruct th.(th_closed_at) eqn:Hcl; [left; by injection Hb as <- <-|]. simpl in Hb.
  destruct (is_some_and _ _) eqn:Hrp; [left; by injection Hb as <- <-|].
  destruct (post_targets _ _ _) as [targets|rf] eqn:Htg; [|left; by injection Hb as <- <-].
  apply bind_Ok in Hb as ([] & Hv & Hb); [|left; by injection Hb as <- <-]. simpl in Hb.
  set (ra := match q.(p_ack_receipt) with Some _ => _ | None => _ end) in Hb.
  assert (∀ db1 y, ra = (db1, y) → (∃ rf, y = AckNo rf) ∨ db1 = db ∨ ∃ receipt z, apply_ack db q.(p_thread_id) q.(p_actor) m receipt = (db1, AckDone z)) as Hra.
  { intros db1 y. unfold ra. destruct q.(p_ack_receipt) as [receipt|]; [|intros [= <- <-]; by right; left].
    intros Hy. destruct y as [z|z|rf]; [right; right; by eauto|right; left|left; by eauto].
    revert Hy. unfold apply_ack. repeat case_match; by intros [= <-]. }
  destruct ra as [db1 y]. specialize (Hra db1 y eq_refl).
  destruct y as [z|z|rf]; [..|left; by injection Hb as <- <-].
  all: destruct Hra as [[rf ?]|Hra]; [done|]; apply bind_Ok in Hb as ([rf|] & Hroom & Hb); [left; by injection Hb as <- <-|].
  all: right; pose proof Hb as Hw.
  all: assert (∃ v, x = Done v) as [v ->] by (apply bind_Ok in Hb as (? & _ & Hb); simpl in Hb; apply bind_Ok in Hb as ([[? ?] ?] & _ & Hb);
    apply bind_Ok in Hb as (? & _ & [= _ <-]); eauto).
  all: exists th, m, m0, targets, db1, v; split_and!; try done; intros p Hp; by rewrite Hp in Hv.
Qed.

Lemma thread_post_ok db q db' r :
  threads_ok db → (∀ n, q.(p_reply_to_seq) = Some n → 0 ≤ n) → q.(p_limits) = LIMITS → thread_post db q = (db', r) → threads_ok db'.
Proof using L.
  intros Hok Hr0 Hlim H.
  destruct (thread_post_cases _ _ _ _ Hok H) as [[-> _]|(th & m & m0 & targets & db1 & v & _ & Hth & _ & Hm0 & Ha & Hrp & _ & Hs & Hdb1 & Hroom & Hw)]; [done|].
  assert (threads_ok db1 ∧ db1.(threads) = db.(threads) ∧ db1.(entries) = db.(entries)) as (Hok1 & Ht1 & He1).
  { destruct Hdb1 as [->|(receipt & x & Hx)]; [done|]. split; [by eapply apply_ack_ok|].
    pose proof (apply_ack_frame db q.(p_thread_id) q.(p_actor) m receipt) as (? & ? & _). by rewrite Hx in *. }
  rewrite Hlim in Hroom. apply post_room_None in Hroom as (Hn & Hb & Htot). rewrite <-Ht1 in Hth.
  destruct (ok_threads _ Hok1 _ _ Hth) as (Hl & _). pose proof limits_positive.
  apply write_post_Ok in Hw as (db3 & notes & sleeping & notices & v' & Hins & Hsol & _ & Hrec & _); [|done|lia].
  apply insert_entry_Ok in Hins as (_ & _ & Hmem & Hu). eapply record_operation_ok; [done|].
  eapply solicit_ok; [done| |lia|].
  - unfold with_entry. simpl. rewrite lookup_insert_eq. eauto.
  - apply with_entry_ok; try done. apply posted_entry_ok; try done; [lia|..].
    + intros p Hp. specialize (Hs p Hp). unfold supersession_valid, replaced in *. by rewrite He1.
    + intros k x Hx. apply (ok_entries _ Hok1) in Hx as (_ & _ & th' & ? & ?). simplify_eq. lia.
Qed.

Lemma cut_page_all budget l : ∀ used first, used + Z.of_nat (length l) * 2 ^ 48 ≤ budget → cut_page budget used first l = l.
Proof using L.
  induction l as [|e l IH]; intros used first H; [done|]. simpl. pose proof (entry_json_len_bound e).
  assert (Z.of_nat (length (e :: l)) = Z.of_nat (length l) + 1) as Hl by (simpl; lia). rewrite Hl in H.
  replace (budget <? used + (entry_json_len e + 1)) with false by lia. rewrite andb_false_r, IH; [done|lia].
Qed.

(** The page of a receipt is the whole of its range. *)
Lemma read_range_whole db t th from_ to_ proj :
  threads_ok db → db.(threads) !! t = Some th → 1 ≤ from_ ≤ to_ → to_ ≤ th.(th_last_seq) →
  read_range db t from_ to_ u32_max u64_max (Some proj) = entry_view db t (wrap_i64 proj) true <$> rows_between db t from_ to_.
Proof using L.
  intros Hok Hth Hf Hto. destruct (ok_threads _ Hok t th Hth) as (Hl & _ & _ & Hall).
  assert (LIMITS.(max_entries_per_thread) = 10000) as Hlim by done.
  unfold read_range, read_range_ordered. replace (to_ <? from_) with false by lia. cbn [orb opt_or is_some default].
  destruct (range_rows_exact db t th from_ to_ Hok Hth) as [-> _]; [unfold i64_max; lia..|].
  assert (length (rows_between db t from_ to_) = Z.to_nat (to_ - from_ + 1)) as Hlen.
  { apply rows_between_length. intros n Hn. apply Hall. lia. }
  rewrite (take_ge (rows_between db t from_ to_)) by (rewrite Hlen; unfold u32_max; lia).
  apply cut_page_all. rewrite length_fmap, Hlen. unfold u64_max. lia.
Qed.

(** A page on the tables of a run: a receipt that is replayed, nothing new, or a
    new receipt for exactly the entries from the cursor on. *)
Lemma thread_read_cases db q db' o :
  threads_ok db → 0 < q.(r_limit) → thread_read db q = (db', o) →
  (o = ReadRefused ThreadUnavailable ∧ db' = db) ∨
  ∃ th m, db.(threads) !! q.(r_thread_id) = Some th ∧ db.(members) !! (q.(r_thread_id), q.(r_actor)) = Some m ∧
    ((∃ r, db.(reads) !! (q.(r_thread_id), q.(r_actor)) = Some r ∧ q.(r_now) < r.(rd_expires_at) ∧ db' = db ∧
        o = ReadPage (mkPage (entry_view db q.(r_thread_id) (wrap_i64 r.(rd_snapshot_seq)) true <$>
                                rows_between db q.(r_thread_id) (m.(mb_acked_seq) + 1) r.(rd_through_seq))
                        m.(mb_acked_seq) r.(rd_through_seq) r.(rd_snapshot_seq) (r.(rd_through_seq) <? r.(rd_snapshot_seq)))
               (Some r.(rd_receipt_id)) (Some r.(rd_expires_at)) (u32_clamp r.(rd_requested_limit)) true) ∨
     m.(mb_acked_seq) = th.(th_last_seq) ∧ db' = db ∧
        o = ReadPage (mkPage [] m.(mb_acked_seq) m.(mb_acked_seq) th.(th_last_seq) false) None None q.(r_limit) false ∨
     ∃ through, m.(mb_acked_seq) < through ≤ th.(th_last_seq) ∧
        db' = set_reads (<[(q.(r_thread_id), q.(r_actor)) := mkRead q.(r_receipt_id) m.(mb_acked_seq) through th.(th_last_seq)
                              (i64_saturating_add q.(r_now) q.(r_receipt_ttl_secs)) q.(r_limit)]>
                           (filter (λ kv : string * string * ReadRow, kv.2.(rd_receipt_id) ≠ q.(r_receipt_id)) db.(reads))) db ∧
        o = ReadPage (mkPage (entry_view db q.(r_thread_id) (wrap_i64 th.(th_last_seq)) true <$>
                                rows_between db q.(r_thread_id) (m.(mb_acked_seq) + 1) through)
                        m.(mb_acked_seq) through th.(th_last_seq) (through <? th.(th_last_seq)))
               (Some q.(r_receipt_id)) (Some (i64_saturating_add q.(r_now) q.(r_receipt_ttl_secs))) q.(r_limit) false).
Proof using L.
  intros Hok Hlim. unfold thread_read. set (t := q.(r_thread_id)). set (a := q.(r_actor)).
  destruct (load_thread_for_member db t a) as [[th m]|r] eqn:Hld.
  2: { intros [= <- <-]. left. unfold load_thread_for_member in Hld. repeat case_match; by simplify_eq. }
  apply load_for_member_Ok in Hld as (Hth & m0 & Hm0 & Ha & _); [|done]. intros Hread. right. exists th, m0. split; [done|]. split; [done|].
  destruct (ok_members _ Hok t a m0 Hm0) as (th' & Hth' & Hack). assert (th' = th) as -> by congruence. revert Hread.
  destruct (opt_filter _ _) as [r|] eqn:Hf; intros H.
  - apply opt_filter_Some in Hf as [Hr Hexp]. destruct (ok_reads _ Hok t a r Hr) as (th2 & m2 & Ht2 & Hm2 & Hb & Hlt & Hle).
    assert (th2 = th) as -> by congruence. assert (m2 = m0) as -> by congruence.
    left. exists r. split; [done|]. split; [lia|]. rewrite !u64_of_id in H by lia. rewrite (read_range_whole db t th) in H by (done || lia).
    injection H as <- <-. by rewrite Hb.
  - right. rewrite Ha in H. destruct (decide (m0.(mb_acked_seq) = th.(th_last_seq))) as [Heq|Hne].
    + left. unfold read_range, read_range_ordered in H. replace (th_last_seq th <? mb_acked_seq m0 + 1) with true in H by lia.
      by injection H as <- <-.
    + right. destruct (read_range_exact db t th (m0.(mb_acked_seq) + 1) th.(th_last_seq) q.(r_limit) q.(r_byte_budget) (Some th.(th_last_seq)) Hok Hth)
        as (n & Hn & Hlast & Hpage); [lia..|]. rewrite Hlast, Hpage in H. injection H as <- <-. exists n. split; [lia|done].
Qed.

Lemma thread_read_ok db q db' o : threads_ok db → 0 < q.(r_limit) → thread_read db q = (db', o) → threads_ok db'.
Proof using L.
  intros Hok Hlim H. destruct (thread_read_cases _ _ _ _ Hok Hlim H) as [[_ ->]|(th & m & Hth & Hm & [(r & _ & _ & -> & _)|[(_ & -> & _)|(n & Hn & -> & _)]])]; try done.
  destruct Hok as [? ? ? ? ? Hrd ?]. split; simpl; try done. intros t a r [[[= <- <-] <-]|[_ Hr]]%lookup_insert_Some.
  - exists th, m. simpl. split_and!; try done; lia.
  - apply map_lookup_filter_Some in Hr as [Hr _]. by eapply Hrd.
Qed.

End laws.

Lemma thread_ack_cases db actor t receipt db' o :
  threads_ok db → thread_ack db actor t receipt = (db', o) →
  db' = db ∨ ∃ m m0 x, db.(members) !! (t, actor) = Some m0 ∧ m.(mb_acked_seq) = m0.(mb_acked_seq) ∧
    apply_ack db t actor m receipt = (db', AckDone x) ∧ o = Acknowledged x (load_wake db' t actor).
Proof.
  intros Hok. unfold thread_ack. destruct (load_thread_for_member db t actor) as [[th m]|r] eqn:Hld; [|intros [= <- _]; by left].
  apply load_for_member_Ok in Hld as (Hth & m0 & Hm0 & Ha & _); [|done].
  destruct (apply_ack db t actor m receipt) as [db1 [x|x|r]] eqn:Hack; [|intros [= <- _]; by left..].
  intros [= <- <-]. right. exists m, m0, x. done.
Qed.
Lemma thread_ack_ok db actor t receipt db' o : threads_ok db → thread_ack db actor t receipt = (db', o) → threads_ok db'.
Proof.
  intros Hok H. destruct (thread_ack_cases _ _ _ _ _ _ Hok H) as [->|(m & m0 & x & ? & ? & ? & _)]; [done|by eapply apply_ack_ok].
Qed.

Lemma thread_create_cases db q db' r :
  thread_create db q = (db', r) →
  (db' = db ∧ ∀ v, r ≠ Ok (Done v)) ∨
  ∃ db1 v, r = Ok (Done v) ∧ Z.of_nat (size db.(threads)) < q.(c_limits).(max_threads) ∧ db.(threads) !! q.(c_thread_id) = None ∧
    insert_members q.(c_thread_id) q.(c_members)
      (set_threads (<[q.(c_thread_id) := mkThread q.(c_actor) q.(c_title) q.(c_now) None 0 0]> db.(threads)) db) = Ok db1 ∧
    record_operation q.(c_actor) q.(c_operation_id) "create" q.(c_thread_id) q.(c_canonical_hash) q.(c_now) v db1 = Ok db'.
Proof.
  intros H. apply once_cases in H as [(x & Hx & -> & ->)|[_ [(x & Hb & ->)|(e & _ & -> & ->)]]]; [left|..|by left].
  { split; [done|]. intros v [= ->]. unfold thread_operation_replay in Hx. apply fmap_Some in Hx as ([?|[]] & _ & ?); done. }
  destruct (_ <=? Z.of_nat (size _)) eqn:Hsz; [left; by injection Hb as <- <-|]. simpl in Hb.
  destruct (max_open_per_creator _ <=? _); [left; by injection Hb as <- <-|]. destruct (db.(threads) !! _) eqn:Ht; [done|]. simpl in Hb.
  apply bind_Ok in Hb as (db1 & H1 & Hb). apply bind_Ok in Hb as (db2 & H2 & [= <- <-]). right. exists db1. eexists. split_and!; try done. lia.
Qed.
Lemma thread_create_ok db q db' r : threads_ok db → q.(c_limits) = LIMITS → thread_create db q = (db', r) → threads_ok db'.
Proof.
  intros Hok Hlim [[-> _]|(db1 & v & _ & Hsz & Ht & H1 & H2)]%thread_create_cases; [done|]. eapply record_operation_ok; [done|].
  rewrite Hlim in Hsz. eapply insert_members_ok; [done| |by apply ok_thread_fresh]. simpl. rewrite lookup_insert_eq. eauto.
Qed.

Lemma thread_add_cases db q db' r :
  thread_add_members db q = (db', r) →
  (db' = db ∧ ∀ v, r ≠ Ok (Done v)) ∨
  ∃ th m db1 v, r = Ok (Done v) ∧ load_thread_for_member db q.(a_thread_id) q.(a_actor) = Ok (th, m) ∧
    th.(th_creator_id) = q.(a_actor) ∧ th.(th_closed_at) = None ∧
    (length (sort_dedup (load_members db q.(a_thread_id) ++ q.(a_candidates))) ≤ MAX_MEMBERS)%nat ∧
    insert_members q.(a_thread_id)
      (List.filter (λ a, negb (bool_decide (a ∈ load_members db q.(a_thread_id)))) (sort_dedup (load_members db q.(a_thread_id) ++ q.(a_candidates))))
      db = Ok db1 ∧
    record_operation q.(a_actor) q.(a_operation_id) "add_members" q.(a_thread_id) q.(a_canonical_hash) q.(a_now) v db1 = Ok db'.
Proof.
  intros H. apply once_cases in H as [(x & Hx & -> & ->)|[_ [(x & Hb & ->)|(e & _ & -> & ->)]]]; [left|..|by left].
  { split; [done|]. intros v [= ->]. unfold thread_operation_replay in Hx. apply fmap_Some in Hx as ([?|[]] & _ & ?); done. }
  destruct (load_thread_for_member db _ _) as [[th m]|rf] eqn:Hld; [|left; by injection Hb as <- <-].
  case_bool_decide as Hcr; [|left; by injection Hb as <- <-]. simpl in Hb.
  destruct th.(th_closed_at) eqn:Hcl; [left; by injection Hb as <- <-|]. simpl in Hb.
  case_bool_decide; [|left; by injection Hb as <- <-]. simpl in Hb.
  destruct (MAX_MEMBERS <? _)%nat eqn:Hlen; [left; by injection Hb as <- <-|].
  case_bool_decide; [left; by injection Hb as <- <-|].
  apply bind_Ok in Hb as (db1 & H1 & Hb). apply bind_Ok in Hb as (db2 & H2 & [= <- <-]). right. exists th, m, db1. eexists.
  split_and!; try done. by apply Nat.ltb_ge.
Qed.
Lemma thread_add_ok db q db' r : threads_ok db → thread_add_members db q = (db', r) → threads_ok db'.
Proof.
  intros Hok [[-> _]|(th & m & db1 & v & _ & Hld & _ & _ & _ & H1 & H2)]%thread_add_cases; [done|]. eapply record_operation_ok; [done|].
  apply load_for_member_Ok in Hld as (Hth & _); [|done]. eapply insert_members_ok; eauto.
Qed.

Lemma wake_cancelled_ok t last k w : cancelled t k w = true → wake_ok last w → wake_ok last (with_wake_state "cancelled" None w).
Proof.
  unfold cancelled. rewrite !andb_true_iff, negb_true_iff. intros [[_ Ha] _] (? & ? & ? & ? & H). unfold wake_ok. simpl.
  destruct (wk_active_through_seq w); [done|]. do 4 (split; [done|]). unfold resting. set_solver.
Qed.
Lemma alter_Some {A} (f : A → A) (m : gmap string A) i x : m !! i = Some x → alter f i m = <[i := f x]> m.
Proof.
  intros Hx. apply map_eq. intros j. destruct (decide (i = j)) as [<-|Hne].
  - by rewrite lookup_alter_eq, lookup_insert_eq, Hx.
  - by rewrite lookup_alter_ne, lookup_insert_ne.
Qed.
Definition closed_row (now : Z) (r : ThreadRow) : ThreadRow :=
  mkThread r.(th_creator_id) r.(th_title) r.(th_created_at) (Some now) r.(th_last_seq) r.(th_body_bytes).
Lemma thread_close_cases db q db' r :
  threads_ok db → thread_close db q = (db', r) →
  (db' = db ∧ ∀ v, r ≠ Ok (Done v)) ∨
  ∃ th v, r = Ok (Done v) ∧ db.(threads) !! q.(x_thread_id) = Some th ∧ th.(th_creator_id) = q.(x_actor) ∧ th.(th_closed_at) = None ∧
    record_operation q.(x_actor) q.(x_operation_id) "close" q.(x_thread_id) q.(x_canonical_hash) q.(x_now) v
      (update_wakes (cancelled q.(x_thread_id)) (with_wake_state "cancelled" None)
         (set_threads (<[q.(x_thread_id) := closed_row q.(x_now) th]> db.(threads)) db)) = Ok db'.
Proof.
  intros Hok H. apply once_cases in H as [(x & Hx & -> & ->)|[_ [(x & Hb & ->)|(e & _ & -> & ->)]]]; [left|..|by left].
  { split; [done|]. intros v [= ->]. unfold thread_operation_replay in Hx. apply fmap_Some in Hx as ([?|[]] & _ & ?); done. }
  destruct (load_thread_for_member db _ _) as [[th m]|rf] eqn:Hld; [|left; by injection Hb as <- <-].
  apply load_for_member_Ok in Hld as (Hth & _); [|done].
  case_bool_decide as Hcr; [|left; by injection Hb as <- <-]. simpl in Hb.
  destruct th.(th_closed_at) eqn:Hcl; [left; by injection Hb as <- <-|]. simpl in Hb.
  apply bind_Ok in Hb as (db2 & H2 & [= <- <-]). right. exists th. eexists. split_and!; try done.
  rewrite (alter_Some _ _ _ th) in H2 by done. exact H2.
Qed.

Lemma thread_close_ok db q db' r : threads_ok db → thread_close db q = (db', r) → threads_ok db'.
Proof.
  intros Hok H. destruct (thread_close_cases _ _ _ _ Hok H) as [[-> _]|(th & v & _ & Hth & _ & _ & H2)]; [done|].
  eapply record_operation_ok; [done|]. apply update_wakes_ok; [intros ? ? ?; apply wake_cancelled_ok|]. by eapply ok_thread_row.
Qed.

(** ** Solicitations *)

Lemma reserve_ok db r now db' x :
  threads_ok db →
  (∀ w, db.(wakes) !! (r.(wr_thread_id), r.(wr_agent_id)) = Some w → reservable r now w = true →
     wrap_i64 r.(wr_through_seq) = w.(wk_pending_seq) ∧ w.(wk_dispatched_seq) < w.(wk_pending_seq) ∧
     ∀ n, w.(wk_active_through_seq) = Some n → n < w.(wk_pending_seq)) →
  thread_wake_reserve db r now = (db', x) → threads_ok db'.
Proof.
  intros Hok Hc. unfold thread_wake_reserve. destruct (_ && _); [by intros [= <- _]|].
  destruct (update_wake _ _ _ _ db) as [db1 b] eqn:Hu. intros [= <- _].
  replace db1 with (update_wake r.(wr_thread_id) r.(wr_agent_id) (reservable r now) (reserved_wake r now) db).1 by by rewrite Hu.
  apply update_wake_ok; [|done]. intros last w Hw Hres (Hp & Hg & Hd & Hun & Ha).
  destruct (Hc w Hw Hres) as (Hth & Hlt & Hac). unfold wake_ok, reserved_wake. simpl. rewrite Hth. split; [done|]. split; [lia|]. split; [done|].
  assert (∀ u, (if bool_decide (wk_state w = "outcome_unknown") then wk_active_through_seq w else wk_last_uncertain_seq w) = Some u → u < wk_pending_seq w) as Hu'.
  { intros u. case_bool_decide; [apply Hac|apply Hun]. }
  split; [done|]. split; [unfold flying; set_solver|]. split; [lia|done].
Qed.

Lemma deferred_ok last reason now w : is_some w.(wk_active_through_seq) = false → wake_ok last w → wake_ok last (deferred_wake reason now w).
Proof.
  intros Ha (? & ? & ? & ? & H). unfold wake_ok. simpl. destruct (wk_active_through_seq w); [done|]. do 4 (split; [done|]).
  unfold resting. set_solver.
Qed.
Lemma defer_ok db t a reason now : threads_ok db → threads_ok (thread_wake_defer db t a reason now).
Proof. apply update_wake_ok. intros last w _ Ha%negb_true_iff. by apply deferred_ok. Qed.

Lemma unknown_ok last w : w.(wk_state) = "in_flight" → wake_ok last w → wake_ok last (with_wake_state "outcome_unknown" w.(wk_reason) w).
Proof.
  intros Hs (? & ? & ? & ? & H). unfold wake_ok. simpl. do 4 (split; [done|]). 
  destruct (wk_active_through_seq w); [|destruct (flying_not_resting w.(wk_state)); [rewrite Hs; unfold flying; set_solver|done]]. destruct H as [_ ?]. split; [unfold flying; set_solver|done].
Qed.
Lemma settle_ok db t a g o : threads_ok db → threads_ok (thread_wake_settle db t a g o).1.
Proof.
  intros Hok. destruct o as [|reason|]; apply update_wake_ok; try done; intros last w _ [_ Hs%bool_decide_eq_true]%andb_true_iff Hw.
  - destruct Hw as (? & ? & ? & Hu & H). unfold wake_ok. simpl. split; [done|]. split; [done|].
    destruct (wk_active_through_seq w) as [n|]; [|by destruct (flying_not_resting w.(wk_state))]. destruct H as (? & ? & ?). simpl. split; [lia|].
    split; [done|unfold resting; set_solver].
  - destruct Hw as (? & ? & ? & Hu & H). unfold wake_ok. simpl. do 4 (split; [done|]). unfold resting. set_solver.
  - by apply unknown_ok.
Qed.
Lemma expire_ok db now : threads_ok db → threads_ok (thread_wakes_expire db now).
Proof. apply update_wakes_ok. intros last k w [Hs%bool_decide_eq_true _]%andb_true_iff. by apply unknown_ok. Qed.

End ThreadOps.
