(* ===== verification/ThreadRuns.v ===== *)
(** * ThreadRuns: the solicitations of [daemon.rs] and the runs of the threads

    [dispatch_thread_wakes] sends the alerts of the threads: it selects the
    solicitations that may leave, reserves each one before its alert is handed to
    the durable sends, and bounds how many leave in a second.  What it asks of the
    rest of the daemon (routes, presences, the outcome of the durable send) is an
    argument.  The runs are the sequences of the operations of the store and of
    these passes, in any order. *)

From S2P Require Import Prelude Text Communication Sql ThreadStore.
Local Open Scope Z_scope.

Definition WAKE_DEPARTURES_PER_SEC : nat := 5.
Definition WAKE_BATCH : Z := 16.
Definition WAKE_INJECTION_DEADLINE_SECS : Z := 120.
Definition THREAD_NOTICE_VERSION : Z := 1.
(** Instants and durations are in nanoseconds. *)
Definition one_second : Z := 1000000000.

Record ThreadWakeDeparture := mkDeparture {
  dp_thread_id : string; dp_agent_id : string; dp_through_seq : Z; dp_generation : Z; dp_delivery_id : string;
  dp_delivery_key : string; dp_recipient_instance_id : string; dp_delivery_generation : Z; dp_issued_at : Z; dp_expires_at : Z;
  dp_target_conn : string }.

(** What the daemon knows when a pass runs. *)
Record Surroundings := mkSurroundings {
  route : string → option string;                  (** the connection of an agent in the router *)
  connected : string → bool;                       (** whether a connection is open *)
  conn_instance : string → option string;          (** the instance of a connection *)
  presence : string → option (string * bool);      (** the state of an instance, and whether it asked for quiet *)
  notice_version : string → option Z;              (** the version of the alerts a connection reads *)
  new_delivery : string → string → string * Z;     (** the identifier and the generation of a new delivery *)
  already_engraved : string → bool;                (** whether the durable sends know a key *)
  durable_send : ThreadWakeDeparture → option string (** the reason of a durable send that is refused *) }.

Definition thread_wake_recipient (s : Surroundings) (agent : string) : option (string * string) :=
  conn ← s.(route) agent;
  if negb (s.(connected) conn) then None
  else
    inst ← s.(conn_instance) conn;
    p ← s.(presence) inst;
    if bool_decide (p.1 ∈ ["connected"; "busy"]) then Some (conn, inst) else None.

(** What a step gives to the outside: alerts that leave, that are refused, or that are sent again. *)
Inductive WakeEffect :=
  | Departed (k : string * string) (generation through : Z)
  | Withdrawn (k : string * string) (generation : Z)
  | Resent (d : ThreadWakeDeparture).

Section Passes.
Context `{C : ThreadCodec}.

Definition project_thread_wake (db : ThreadDb) (s : Surroundings) (d : ThreadWakeDeparture) : option string :=
  if dormant db d.(dp_agent_id) then Some "agent_dormant" else s.(durable_send) d.

(** The alerts of the reservations that stopped before the durable send knew them. *)
Definition resend (db : ThreadDb) (s : Surroundings) (kw : string * string * WakeRow) : option ThreadWakeDeparture :=
  let '((t, a), _) := kw in
  w ← load_wake db t a;
  delivery ← w.(wk_delivery_id);
  key ← w.(wk_delivery_key);
  inst ← w.(wk_recipient_instance_id);
  g ← w.(wk_delivery_generation);
  issued ← w.(wk_issued_at);
  expires ← w.(wk_expires_at);
  through ← w.(wk_active_through_seq);
  if s.(already_engraved) key then None
  else
    '(conn, live) ← thread_wake_recipient s a;
    if negb (bool_decide (live = inst)) then None
    else Some (mkDeparture t a through w.(wk_generation) delivery key inst g issued expires conn).
Definition recover_thread_wakes_in_flight (db : ThreadDb) (s : Surroundings) : list ThreadWakeDeparture :=
  omap (resend db s) (thread_wakes_in_flight db).

Definition departure_of (s : Surroundings) (now : Z) (c : WakeCandidate) (conn inst : string) : ThreadWakeDeparture :=
  let g := c.(wc_generation) + 1 in
  mkDeparture c.(wc_thread_id) c.(wc_agent_id) c.(wc_pending_seq) g (s.(new_delivery) c.(wc_thread_id) c.(wc_agent_id)).1
    ("thread-wake:" +:+ c.(wc_thread_id) +:+ ":" +:+ c.(wc_agent_id) +:+ ":" +:+ pretty g) inst
    (s.(new_delivery) c.(wc_thread_id) c.(wc_agent_id)).2 now (now + WAKE_INJECTION_DEADLINE_SECS) conn.
Definition reservation_of (d : ThreadWakeDeparture) (c : WakeCandidate) : WakeReservation :=
  mkWakeReservation d.(dp_thread_id) d.(dp_agent_id) c.(wc_generation) d.(dp_through_seq) d.(dp_delivery_id) d.(dp_delivery_key)
    d.(dp_recipient_instance_id) d.(dp_delivery_generation) d.(dp_issued_at) d.(dp_expires_at).

(** The reservation of an alert, its projection, and the refusal that undoes it. *)
Definition depart (db : ThreadDb) (s : Surroundings) (now : Z) (c : WakeCandidate) (conn inst : string)
    : ThreadDb * bool * list WakeEffect :=
  let d := departure_of s now c conn inst in
  let k := (d.(dp_thread_id), d.(dp_agent_id)) in
  match thread_wake_reserve db (reservation_of d c) now with
  | (db1, Ok true) =>
    match project_thread_wake db1 s d with
    | None => (db1, true, [Departed k d.(dp_generation) d.(dp_through_seq)])
    | Some reason =>
      let '(db2, b) := thread_wake_settle db1 d.(dp_thread_id) d.(dp_agent_id) d.(dp_generation) (WRefused reason) in
      (db2, true, Departed k d.(dp_generation) d.(dp_through_seq) :: when b [Withdrawn k d.(dp_generation)])
    end
  | (db1, _) => (db1, false, [])
  end.

(** The loop over the candidates; [departures] are the instants of the last departures. *)
Fixpoint wake_loop (s : Surroundings) (now instant : Z) (cs : list WakeCandidate) (db : ThreadDb) (departures : list Z)
    : ThreadDb * list Z * list WakeEffect :=
  match cs with
  | [] => (db, departures, [])
  | c :: cs =>
    let departures := List.filter (λ d, Z.max 0 (instant - d) <? one_second) departures in
    let defer reason := thread_wake_defer db c.(wc_thread_id) c.(wc_agent_id) reason now in
    if dormant db c.(wc_agent_id) then wake_loop s now instant cs db departures
    else if (WAKE_DEPARTURES_PER_SEC <=? length departures)%nat then (defer "rate_limited", departures, [])
    else
      match thread_wake_recipient s c.(wc_agent_id) with
      | None => wake_loop s now instant cs (defer "offline") departures
      | Some (conn, inst) =>
        if from_option snd false (s.(presence) inst) then wake_loop s now instant cs (defer "dnd") departures
        else if negb (bool_decide (s.(notice_version) conn = Some THREAD_NOTICE_VERSION))
        then wake_loop s now instant cs (defer "capability_unavailable") departures
        else
          let '(db1, gone, fx) := depart db s now c conn inst in
          let '(db2, departures2, fx2) := wake_loop s now instant cs db1 (departures ++ when gone [instant]) in
          (db2, departures2, fx ++ fx2)
      end
  end.

Definition dispatch_thread_wakes (s : Surroundings) (now instant : Z) (db : ThreadDb) (departures : list Z)
    : ThreadDb * list Z * list WakeEffect :=
  let db1 := thread_wakes_expire db now in
  let again := Resent <$> List.filter (λ d, negb (is_some (project_thread_wake db1 s d))) (recover_thread_wakes_in_flight db1 s) in
  let '(db2, departures2, fx) := wake_loop s now instant (thread_wake_candidates db1 now WAKE_BATCH) db1 departures in
  (db2, departures2, again ++ fx).

Definition settle_thread_wake_by_delivery (db : ThreadDb) (delivery : string) (o : WakeOutcome) : ThreadDb * list WakeEffect :=
  match thread_wake_by_delivery db delivery with
  | None => (db, [])
  | Some ((t, a), w) =>
    let '(db', b) := thread_wake_settle db t a w.(wk_generation) o in
    (db', match o with WRefused _ => when b [Withdrawn (t, a) w.(wk_generation)] | _ => [] end)
  end.

(** [record_change] of [agent_tracking.rs]: an agent that goes to sleep is no
    longer solicited for what was not sent to it. *)
Definition unsent_of (a : string) (k : string * string) (w : WakeRow) : bool :=
  bool_decide (k.2 = a) && negb (is_some w.(wk_active_through_seq)) && bool_decide (w.(wk_state) ∈ ["pending"; "refused"]).
Definition record_change (db : ThreadDb) (a : string) (sleeps : bool) : ThreadDb :=
  let db1 := set_tracking (<[a := sleeps]> db.(tracking)) db in
  if sleeps then update_wakes (unsent_of a) (with_wake_state "cancelled" (Some "agent_dormant")) db1 else db1.

(** ** Runs *)

Inductive ThreadOp :=
  | TCreate (q : CreateThread) | TAdd (q : AddMembers) | TPost (q : PostEntry) | TClose (q : CloseThread)
  | TRead (q : ReadRequest) | TAck (actor t receipt : string)
  | TTrack (agent : string) (sleeps : bool)
  | TPass (s : Surroundings) (now instant : Z)
  | TSettle (delivery : string) (o : WakeOutcome).

Record Board := mkBoard { bd_db : ThreadDb; bd_departures : list Z }.

Definition thread_step (b : Board) (op : ThreadOp) : Board * list WakeEffect :=
  let db := b.(bd_db) in
  let keep db' := (mkBoard db' b.(bd_departures), []) in
  match op with
  | TCreate q => keep (thread_create db q).1
  | TAdd q => keep (thread_add_members db q).1
  | TPost q => keep (thread_post db q).1
  | TClose q => keep (thread_close db q).1
  | TRead q => keep (thread_read db q).1
  | TAck a t r => keep (thread_ack db a t r).1
  | TTrack a x => keep (record_change db a x)
  | TPass s now instant =>
    let '(db', deps, fx) := dispatch_thread_wakes s now instant db b.(bd_departures) in (mkBoard db' deps, fx)
  | TSettle d o => let '(db', fx) := settle_thread_wake_by_delivery db d o in (mkBoard db' b.(bd_departures), fx)
  end.
Fixpoint thread_run (b : Board) (ops : list ThreadOp) : Board * list WakeEffect :=
  match ops with
  | [] => (b, [])
  | op :: ops => let '(b1, l1) := thread_step b op in let '(b2, l2) := thread_run b1 ops in (b2, l1 ++ l2)
  end.
Definition no_threads : Board := mkBoard (mkThreadDb ∅ ∅ ∅ ∅ ∅ ∅ ∅) [].

(** Requests as the daemon makes them: numbers without sign, pages of one entry
    at least, and the limits of the contract. *)
Definition op_typed (op : ThreadOp) : Prop :=
  match op with
  | TCreate q => q.(c_limits) = LIMITS
  | TPost q => q.(p_limits) = LIMITS ∧ ∀ n, q.(p_reply_to_seq) = Some n → 0 ≤ n
  | TRead q => 0 < q.(r_limit)
  | _ => True
  end.

(** ** The alerts that left *)

(** What was dispatched, or stayed without an outcome before the delivery in flight. *)
Definition settled_seq (w : WakeRow) : Z := Z.max w.(wk_dispatched_seq) (default 0 w.(wk_last_uncertain_seq)).

Definition once_each (fx : list WakeEffect) : Prop :=
  ∀ l1 l2 l3 k g n g' n', fx = l1 ++ Departed k g n :: l2 ++ Departed k g' n' :: l3 → g < g' ∧ (n < n' ∨ Withdrawn k g ∈ l2).

Record traced (db : ThreadDb) (fx : list WakeEffect) : Prop := mkTraced {
  tr_departed : ∀ k g n, Departed k g n ∈ fx → ∃ w, db.(wakes) !! k = Some w ∧ g ≤ w.(wk_generation) ∧
    (Withdrawn k g ∈ fx ∨ n ≤ settled_seq w ∨ g = w.(wk_generation) ∧ w.(wk_active_through_seq) = Some n);
  tr_withdrawn : ∀ l1 l2 k g, fx = l1 ++ Withdrawn k g :: l2 → ∃ n, Departed k g n ∈ l1;
  tr_resent : ∀ l1 l2 d, fx = l1 ++ Resent d :: l2 → Departed (d.(dp_thread_id), d.(dp_agent_id)) d.(dp_generation) d.(dp_through_seq) ∈ l1;
  tr_active : ∀ k w n, db.(wakes) !! k = Some w → w.(wk_active_through_seq) = Some n → Departed k w.(wk_generation) n ∈ fx;
  tr_once : once_each fx }.

(** A change of the rows that leaves the deliveries where they are, or settles them. *)
Definition wake_settles (w w' : WakeRow) : Prop :=
  w'.(wk_generation) = w.(wk_generation) ∧ settled_seq w ≤ settled_seq w' ∧
  (∀ n, w.(wk_active_through_seq) = Some n → w'.(wk_active_through_seq) = Some n ∨ n ≤ settled_seq w') ∧
  ∀ n, w'.(wk_active_through_seq) = Some n → w.(wk_active_through_seq) = Some n.
#[local] Instance wake_settles_preorder : PreOrder wake_settles.
Proof.
  split; [intros w; split_and!; auto with lia|]. intros a b c (? & ? & Hab & Hba) (? & ? & Hbc & Hcb). split; [congruence|]. split; [lia|].
  split; [intros n [?%Hbc|?]%Hab; [done|right; lia]|]. intros n ?%Hcb. by apply Hba.
Qed.
Definition wakes_settle (db db' : ThreadDb) : Prop :=
  (∀ k w, db.(wakes) !! k = Some w → ∃ w', db'.(wakes) !! k = Some w' ∧ wake_settles w w') ∧
  ∀ k w', db'.(wakes) !! k = Some w' → is_Some (db.(wakes) !! k) ∨ w'.(wk_active_through_seq) = None.

#[local] Instance wakes_settle_preorder : PreOrder wakes_settle.
Proof.
  split.
  - intros db. split; [|by eauto]. intros k w Hk. exists w. split; [done|reflexivity].
  - intros db1 db2 db3 [H1 N1] [H2 N2]. split.
    + intros k w (w1 & Hw1 & ?)%H1. apply H2 in Hw1 as (w2 & ? & ?). exists w2. split; [done|by etransitivity].
    + intros k w' Hk. destruct (N2 k w' Hk) as [[w Hw]|?]; [|by right]. destruct (N1 k w Hw) as [?|Hnone]; [by left|right].
      apply H2 in Hw as (w2 & Hw2 & _ & _ & _ & Hb). assert (w2 = w') as -> by congruence. destruct (wk_active_through_seq w') as [n|]; [|done].
      specialize (Hb n eq_refl). congruence.
Qed.
Lemma same_wakes_settle db db' : db'.(wakes) = db.(wakes) → wakes_settle db db'.
Proof. intros H. split; intros k w Hk; [exists w; rewrite H; split; [done|reflexivity]|left; rewrite <-H; eauto]. Qed.
Lemma insert_settles db k w w' :
  db.(wakes) !! k = Some w → wake_settles w w' → wakes_settle db (set_wakes (<[k := w']> db.(wakes)) db).
Proof.
  intros Hk Hs. split; simpl.
  - intros k' w0 Hk'. destruct (decide (k = k')) as [<-|Hne]; [rewrite lookup_insert_eq|rewrite lookup_insert_ne by done].
    + exists w'. by simplify_eq.
    + exists w0. split; [done|reflexivity].
  - intros k' w0 [[<- _]|[_ ?]]%lookup_insert_Some; left; eauto.
Qed.
Lemma update_wake_settles t a p f db :
  (∀ w, db.(wakes) !! (t, a) = Some w → p w = true → wake_settles w (f w)) → wakes_settle db (update_wake t a p f db).1.
Proof.
  intros H. unfold update_wake. destruct (db.(wakes) !! (t, a)) as [w|] eqn:Hw; [|reflexivity].
  destruct (p w) eqn:Hp; [|reflexivity]. apply (insert_settles _ _ w); [done|]. by apply H.
Qed.
Lemma update_wakes_settle p f db : (∀ k w, p k w = true → wake_settles w (f w)) → wakes_settle db (update_wakes p f db).
Proof.
  intros H. unfold update_wakes. split; simpl; intros k w.
  - intros Hk. rewrite map_lookup_imap, Hk. simpl. eexists. split; [done|]. destruct (p k w) eqn:Hp; [by apply (H k)|reflexivity].
  - rewrite map_lookup_imap. intros (w0 & Hw0 & _)%bind_Some. eauto.
Qed.
Lemma state_settles s r w : wake_settles w (with_wake_state s r w).
Proof. split_and!; simpl; auto. by unfold settled_seq. Qed.

Lemma traced_quiet db db' fx : wakes_settle db db' → traced db fx → traced db' fx.
Proof.
  intros [Hs Hn] [Hd Hw Hrs Hac Ho]. split; [|done|done| |done].
  - intros k g n (w & (w' & Hk' & Hg & Hm & Ha & _)%Hs & Hle & Hor)%Hd. exists w'. split; [done|]. split; [lia|].
    destruct Hor as [?|[?|[-> Hact]]]; [by left|right; left; lia|]. destruct (Ha n Hact) as [?|?]; [right; right; split; [lia|done]|right; left; lia].
  - intros k w' n Hk Hact. destruct (Hn k w' Hk) as [[w Hw0]|?]; [|congruence]. destruct (Hs k w Hw0) as (w2 & ? & Hg & _ & _ & Hb).
    simplify_eq. rewrite Hg. apply Hac; [done|by apply Hb].
Qed.

(** An element of a list that grew at its end. *)
Lemma snoc_split {A} (l l1 l2 : list A) x e :
  l ++ [e] = l1 ++ x :: l2 → l2 = [] ∧ l1 = l ∧ x = e ∨ ∃ l2', l2 = l2' ++ [e] ∧ l = l1 ++ x :: l2'.
Proof.
  destruct l2 as [|y l2 _] using rev_ind; intros H.
  - apply app_inj_tail in H as [<- <-]. by left.
  - rewrite app_comm_cons, app_assoc in H. apply app_inj_tail in H as [-> ->]. right. eauto.
Qed.

(** An effect that is no departure is added at the end. *)
Lemma once_each_quiet fx e : (∀ k g n, e ≠ Departed k g n) → once_each fx → once_each (fx ++ [e]).
Proof.
  intros He Ho l1 l2 l3 k g n g' n'. rewrite app_comm_cons, app_assoc. intros [(_ & _ & <-)|(l3' & _ & ->)]%snoc_split; [by destruct (He k g' n')|].
  apply (Ho l1 l2 l3'). by rewrite <-app_assoc.
Qed.
Lemma resent_quiet (fx : list WakeEffect) e :
  (∀ d, e = Resent d → Departed (d.(dp_thread_id), d.(dp_agent_id)) d.(dp_generation) d.(dp_through_seq) ∈ fx) →
  (∀ l1 l2 d, fx = l1 ++ Resent d :: l2 → Departed (d.(dp_thread_id), d.(dp_agent_id)) d.(dp_generation) d.(dp_through_seq) ∈ l1) →
  ∀ l1 l2 d, fx ++ [e] = l1 ++ Resent d :: l2 → Departed (d.(dp_thread_id), d.(dp_agent_id)) d.(dp_generation) d.(dp_through_seq) ∈ l1.
Proof. intros He Hf l1 l2 d [(_ & -> & Heq)|(l2' & _ & ->)]%snoc_split; [by apply He|by eapply Hf]. Qed.
Lemma withdrawn_quiet (fx : list WakeEffect) e :
  (∀ k g, e = Withdrawn k g → ∃ n, Departed k g n ∈ fx) →
  (∀ l1 l2 k g, fx = l1 ++ Withdrawn k g :: l2 → ∃ n, Departed k g n ∈ l1) →
  ∀ l1 l2 k g, fx ++ [e] = l1 ++ Withdrawn k g :: l2 → ∃ n, Departed k g n ∈ l1.
Proof. intros He Hf l1 l2 k g [(_ & -> & Heq)|(l2' & _ & ->)]%snoc_split; [by apply He|by eapply Hf]. Qed.

Lemma traced_withdraw db fx k w w' n :
  db.(wakes) !! k = Some w → w.(wk_active_through_seq) = Some n → w'.(wk_generation) = w.(wk_generation) → settled_seq w' = settled_seq w →
  w'.(wk_active_through_seq) = None →
  traced db fx → traced (set_wakes (<[k := w']> db.(wakes)) db) (fx ++ [Withdrawn k w.(wk_generation)]).
Proof.
  intros Hk Hact Hg Hm Hact' [Hd Hw Hrs Hac Ho]. split; [| | | |by apply once_each_quiet].
  - intros k' g n' [Hin'|Hin']%elem_of_app; [|by apply list_elem_of_singleton in Hin']. simpl.
    apply Hd in Hin' as (w0 & Hk' & Hle & Hor). destruct (decide (k = k')) as [<-|Hne].
    + rewrite lookup_insert_eq. exists w'. assert (w0 = w) as -> by congruence. split; [done|]. split; [lia|]. rewrite elem_of_app.
      destruct Hor as [?|[?|[-> _]]]; [by left; left|right; left; lia|left; right; left].
    + rewrite lookup_insert_ne by done. exists w0. split; [done|]. split; [done|]. rewrite elem_of_app. tauto.
  - apply withdrawn_quiet; [|done]. intros ? ? [= <- <-]. eauto.
  - by apply resent_quiet.
  - intros k' w0 n0. simpl. intros [[<- <-]|[_ Hk']]%lookup_insert_Some Hn0; [congruence|]. apply elem_of_app. left. by eapply Hac.
Qed.

(** Before a generation leaves it was not withdrawn. *)
Lemma departed_before_withdrawn db fx l1 l2 k g n : traced db fx → fx = l1 ++ Departed k g n :: l2 → Withdrawn k g ∉ l1.
Proof.
  intros [_ Hw _ _ Ho] -> (a & b & ->)%list_elem_of_split. destruct (Hw a (b ++ Departed k g n :: l2) k g) as [n1 Hn1]; [by rewrite <-app_assoc|].
  apply list_elem_of_split in Hn1 as (a1 & a2 & ->). destruct (Ho a1 (a2 ++ Withdrawn k g :: b) l2 k g n1 g n) as [? _]; [|lia].
  by simplify_list_eq.
Qed.

Lemma traced_depart db fx k w w' n :
  db.(wakes) !! k = Some w → w'.(wk_generation) = w.(wk_generation) + 1 → settled_seq w < n → settled_seq w ≤ settled_seq w' →
  (∀ m, w.(wk_active_through_seq) = Some m → m < n ∧ m ≤ settled_seq w') → w'.(wk_active_through_seq) = Some n →
  traced db fx → traced (set_wakes (<[k := w']> db.(wakes)) db) (fx ++ [Departed k (w.(wk_generation) + 1) n]).
Proof.
  intros Hk Hg Hlt Hle Hact Hact' Htr. pose proof Htr as [Hd Hw Hrs Hac Ho]. split; [..|intros l1 l2 l3 k' g n0 g' n'].
  - intros k' g n0. simpl. rewrite elem_of_app. intros [Hin|Hin].
    + apply Hd in Hin as (w0 & Hk' & Hg' & Hor). destruct (decide (k = k')) as [<-|Hne].
      * rewrite lookup_insert_eq. exists w'. assert (w0 = w) as -> by congruence. split; [done|]. split; [lia|]. rewrite elem_of_app.
        destruct Hor as [?|[?|[-> [_ ?]%Hact]]]; [by left; left|right; left; lia|right; left; lia].
      * rewrite lookup_insert_ne by done. exists w0. split; [done|]. split; [done|]. rewrite elem_of_app. tauto.
    + apply list_elem_of_singleton in Hin as [= -> -> ->]. rewrite lookup_insert_eq. exists w'. split; [done|]. split; [lia|]. right; right.
      split; [lia|done].
  - by apply withdrawn_quiet.
  - by apply resent_quiet.
  - intros k' w0 n0. simpl. rewrite elem_of_app. intros [[<- <-]|[_ Hk']]%lookup_insert_Some Hn0; [right|left; by eapply Hac].
    assert (n0 = n) as -> by congruence. rewrite Hg. left.
  - rewrite app_comm_cons, app_assoc. intros [(_ & <- & [= -> -> ->])|(l3' & _ & ->)]%snoc_split.
    + destruct (Hd k g n0) as (w0 & Hk' & Hg' & Hor); [set_solver|]. assert (w0 = w) as -> by congruence. split; [lia|].
      destruct Hor as [Hwd|[?|[-> [? _]%Hact]]]; [|left; lia|left; lia]. right.
      apply elem_of_app in Hwd as [Hwd|Hwd]; [|by apply elem_of_cons in Hwd as [?|?]].
      by destruct (departed_before_withdrawn _ _ _ _ _ _ _ Htr eq_refl Hwd).
    + apply (Ho l1 l2 l3'). by rewrite <-app_assoc.
Qed.

(** ** The pass *)

(** What the selection of a candidate says of its row. *)
Definition cand_ok (db : ThreadDb) (c : WakeCandidate) : Prop :=
  ∃ w, db.(wakes) !! (c.(wc_thread_id), c.(wc_agent_id)) = Some w ∧ w.(wk_pending_seq) = c.(wc_pending_seq) ∧
    w.(wk_generation) = c.(wc_generation) ∧ w.(wk_dispatched_seq) < w.(wk_pending_seq) ∧
    ∀ n, w.(wk_active_through_seq) = Some n → n < w.(wk_pending_seq).
Definition cand_key (c : WakeCandidate) : string * string := (c.(wc_thread_id), c.(wc_agent_id)).

Lemma candidates_ok db now batch :
  threads_ok db → NoDup (cand_key <$> thread_wake_candidates db now batch) ∧ Forall (cand_ok db) (thread_wake_candidates db now batch).
Proof.
  intros Hok. unfold thread_wake_candidates. set (rows := select _ (map_to_list db.(wakes))). split.
  - rewrite <-list_fmap_compose. apply (NoDup_fmap_2_strong (λ kv : string * string * WakeRow, _)).
    + intros [[t a] w] [[t' a'] w'] H1%elem_of_take H2%elem_of_take. destruct H1 as (i & H1 & _), H2 as (i' & H2 & _).
      apply list_elem_of_lookup_2 in H1, H2. rewrite sort_by_perm in H1, H2. apply select_elem in H1 as [H1 _], H2 as [H2 _].
      apply elem_of_map_to_list in H1, H2. unfold cand_key. simpl. intros [= -> ->]. by simplify_eq.
    + apply (sublist_NoDup _ (sort_by attempt_leb rows)); [|apply sublist_take]. rewrite sort_by_perm.
      apply NoDup_ListNoDup, List.NoDup_filter, NoDup_ListNoDup, NoDup_map_to_list.
  - apply Forall_forall. intros c ([[t a] w] & -> & Hin)%list_elem_of_fmap. apply elem_of_take in Hin as (i & Hin & _).
    apply list_elem_of_lookup_2 in Hin. rewrite sort_by_perm in Hin. apply select_elem in Hin as [Hin Hc].
    apply elem_of_map_to_list in Hin. simpl in Hc. exists w. simpl. split; [done|].
    destruct (ok_wakes _ Hok t a w Hin) as (_ & th & _ & (Hp & Hg & _)). rewrite !u64_of_id by lia. split; [done|]. split; [done|].
    unfold is_candidate in Hc. simpl in Hc. destruct (db.(threads) !! t) as [th'|]; [|done]. destruct (db.(members) !! (t, a)) as [m|]; [|done].
    rewrite !andb_true_iff in Hc. destruct Hc as [[_ Hlt] Ha]. split; [lia|]. intros n Hn. rewrite Hn in Ha. rewrite !andb_true_iff in Ha. lia.
Qed.


(** A reservation of a candidate: its row, and what is known of it. *)
Lemma reserved_settles last r now w n :
  wake_ok last w → reservable r now w = true → wrap_i64 r.(wr_through_seq) = n →
  (∀ m, w.(wk_active_through_seq) = Some m → m < n) →
  settled_seq w ≤ settled_seq (reserved_wake r now w) ∧
  ∀ m, w.(wk_active_through_seq) = Some m → m < n ∧ m ≤ settled_seq (reserved_wake r now w).
Proof.
  intros (_ & _ & ? & _ & Hac) [_ Hr]%andb_true_iff _ Hlt. unfold settled_seq, reserved_wake. simpl.
  destruct (wk_active_through_seq w) as [m|]; simpl in *.
  - apply andb_true_iff in Hr as [-> _]. destruct Hac as (_ & ? & Hu). simpl. split; [|intros ? [= <-]; split; [by apply Hlt|lia]].
    destruct (wk_last_uncertain_seq w) as [u|]; simpl; [specialize (Hu u eq_refl)|]; lia.
  - split; [|done]. rewrite bool_decide_eq_false_2; [done|]. intros Hs. apply (flying_not_resting w.(wk_state)); [rewrite Hs; unfold flying; set_solver|done].
Qed.

(** The refusal of the delivery a row holds. *)
Lemma refuse_traced db t a g reason db' b fx :
  threads_ok db → traced db fx → (∀ w, db.(wakes) !! (t, a) = Some w → w.(wk_generation) = g) →
  thread_wake_settle db t a g (WRefused reason) = (db', b) →
  threads_ok db' ∧ traced db' (fx ++ when b [Withdrawn (t, a) g]) ∧ ∀ k, k ≠ (t, a) → db'.(wakes) !! k = db.(wakes) !! k.
Proof.
  intros Hok Htr Hg Hs. pose proof (settle_ok db t a g (WRefused reason) Hok) as Hok'. rewrite Hs in Hok'. split; [done|].
  unfold thread_wake_settle, update_wake in Hs. destruct (db.(wakes) !! (t, a)) as [w|] eqn:Hk; [|injection Hs as <- <-; by rewrite app_nil_r].
  destruct (_ && _) eqn:Hc; injection Hs as <- <-; [|by rewrite app_nil_r]. split; [|intros k Hne; simpl; by rewrite lookup_insert_ne].
  apply andb_true_iff in Hc as [_ Hst%bool_decide_eq_true]. rewrite <-(Hg w eq_refl).
  destruct (ok_wakes _ Hok _ _ _ Hk) as (_ & th & _ & (_ & _ & _ & _ & Hac)). destruct (wk_active_through_seq w) as [n|] eqn:Hact.
  - by eapply traced_withdraw.
  - destruct (flying_not_resting w.(wk_state)); [rewrite Hst; unfold flying; set_solver|done].
Qed.

(** What a departure leaves: the rows of the other agents as they were. *)
Lemma depart_traced db s now c conn inst db' gone l fx :
  threads_ok db → traced db fx → cand_ok db c → depart db s now c conn inst = (db', gone, l) →
  threads_ok db' ∧ traced db' (fx ++ l) ∧ ∀ k, k ≠ cand_key c → db'.(wakes) !! k = db.(wakes) !! k.
Proof.
  intros Hok Htr (w & Hk & Hp & Hg & Hd & Hac) Hdep. unfold depart in Hdep. set (d := departure_of s now c conn inst) in Hdep.
  set (r := reservation_of d c) in Hdep. destruct (ok_wakes _ Hok _ _ _ Hk) as (_ & th & Hth & Hw). destruct (ok_threads _ Hok _ _ Hth) as (Hlast & _).
  assert (LIMITS.(max_entries_per_thread) = 10000) as Hlim by done.
  assert (wrap_i64 r.(wr_through_seq) = w.(wk_pending_seq)) as Hth2.
  { simpl. rewrite <-Hp. destruct Hw as (? & _). apply wrap_i64_id. unfold i64_min, i64_max. lia. }
  destruct (thread_wake_reserve db r now) as [db1 x] eqn:Hres.
  assert (threads_ok db1) as Hok1.
  { eapply reserve_ok; [done| |done]. simpl. intros w0 Hw0 _. simplify_eq. eauto. }
  unfold thread_wake_reserve in Hres. destruct (_ && _) eqn:Hdup; [injection Hres as <- <-; injection Hdep as <- <- <-; by rewrite app_nil_r|].
  unfold update_wake in Hres. simpl in Hres. rewrite Hk in Hres.
  destruct (reservable r now w) eqn:Hrv; [|injection Hres as <- <-; injection Hdep as <- <- <-; by rewrite app_nil_r]. injection Hres as <- <-.
  destruct (reserved_settles th.(th_last_seq) r now w _ Hw Hrv Hth2 Hac) as [Hse Hac'].
  assert (settled_seq w < w.(wk_pending_seq)) as Hlt.
  { destruct Hw as (? & _ & _ & Hu & _). unfold settled_seq. destruct (wk_last_uncertain_seq w) as [u|]; simpl; [specialize (Hu u eq_refl)|]; lia. }
  assert (traced (set_wakes (<[cand_key c := reserved_wake r now w]> db.(wakes)) db)
            (fx ++ [Departed (cand_key c) (w.(wk_generation) + 1) w.(wk_pending_seq)])) as Htr1.
  { apply traced_depart; try done. simpl. by rewrite <-Hth2. }
  rewrite Hg, Hp in Htr1. fold (cand_key c) in Hdep, Hok1.
  destruct (project_thread_wake _ s d) as [reason|].
  - destruct (thread_wake_settle _ _ _ _ _) as [db2 b] eqn:Hset in Hdep. injection Hdep as <- <- <-.
    eapply refuse_traced in Hset as (? & Htr2 & Hframe); [|done|exact Htr1|]; [split_and!; [done| |]|].
    + by rewrite <-app_assoc in Htr2.
    + intros k Hne. rewrite Hframe by done. simpl. by rewrite lookup_insert_ne.
    + intros w0. simpl. fold (cand_key c). rewrite lookup_insert_eq. intros [= <-]. simpl. lia.
  - injection Hdep as <- <- <-. split_and!; [done..|]. intros k Hne. simpl. by rewrite lookup_insert_ne.
Qed.

Lemma deferred_settles reason now w : wake_settles w (deferred_wake reason now w).
Proof. split_and!; simpl; auto. by unfold settled_seq. Qed.
Lemma defer_frame db t a reason now :
  wakes_settle db (thread_wake_defer db t a reason now) ∧
  ∀ k, k ≠ (t, a) → (thread_wake_defer db t a reason now).(wakes) !! k = db.(wakes) !! k.
Proof.
  split; [apply update_wake_settles; intros; apply deferred_settles|]. intros k Hne. unfold thread_wake_defer, update_wake.
  destruct (db.(wakes) !! (t, a)); [|done]. destruct (negb _); [|done]. simpl. by rewrite lookup_insert_ne.
Qed.

(** Candidates that remain are still what was selected. *)
Lemma cand_ok_frame db db' k cs :
  (∀ k', k' ≠ k → db'.(wakes) !! k' = db.(wakes) !! k') → k ∉ (cand_key <$> cs) → Forall (cand_ok db) cs → Forall (cand_ok db') cs.
Proof.
  intros Hf Hk Hcs. apply Forall_forall. intros c Hc. rewrite Forall_forall in Hcs. destruct (Hcs c Hc) as (w & Hw & ?). exists w.
  split; [|done]. rewrite Hf; [done|]. intros Heq. apply Hk. apply list_elem_of_fmap. exists c. done.
Qed.

Lemma loop_traced s now instant cs : ∀ db departures db' departures' l fx,
  NoDup (cand_key <$> cs) → Forall (cand_ok db) cs → threads_ok db → traced db fx →
  wake_loop s now instant cs db departures = (db', departures', l) → threads_ok db' ∧ traced db' (fx ++ l).
Proof.
  induction cs as [|c cs IH]; intros db deps db' deps' l fx Hnd Hcs Hok Htr Hrun; cbn [wake_loop] in Hrun.
  { injection Hrun as <- _ <-. by rewrite app_nil_r. }
  set (deps1 := List.filter _ deps) in Hrun. rewrite fmap_cons in Hnd. apply NoDup_cons in Hnd as [Hc Hnd]. apply Forall_cons in Hcs as [Hco Hcs].
  assert (∀ reason, threads_ok (thread_wake_defer db c.(wc_thread_id) c.(wc_agent_id) reason now) ∧
    traced (thread_wake_defer db c.(wc_thread_id) c.(wc_agent_id) reason now) fx ∧
    Forall (cand_ok (thread_wake_defer db c.(wc_thread_id) c.(wc_agent_id) reason now)) cs) as Hdef.
  { intros reason. destruct (defer_frame db c.(wc_thread_id) c.(wc_agent_id) reason now) as [? ?].
    split_and!; [by apply defer_ok|by eapply traced_quiet|by eapply cand_ok_frame]. }
  destruct (dormant db _); [by eapply IH|]. destruct (_ <=? _)%nat.
  { injection Hrun as <- _ <-. rewrite app_nil_r. destruct (Hdef "rate_limited") as (? & ? & _). done. }
  destruct (thread_wake_recipient s _) as [[conn inst]|]; [|destruct (Hdef "offline") as (? & ? & ?); by eapply IH].
  destruct (from_option _ _ _); [destruct (Hdef "dnd") as (? & ? & ?); by eapply IH|].
  destruct (negb _); [destruct (Hdef "capability_unavailable") as (? & ? & ?); by eapply IH|].
  destruct (depart db s now c conn inst) as [[db1 gone] l1] eqn:Hd. destruct (wake_loop _ _ _ cs db1 _) as [[db2 d2] l2] eqn:Hl.
  injection Hrun as <- _ <-. eapply depart_traced in Hd as (? & Htr1 & ?); [|done..]. rewrite app_assoc. eapply IH; [done| |done..].
  by eapply cand_ok_frame.
Qed.

(** Alerts that are sent again are those of the deliveries in flight. *)
Lemma traced_resent db fx d :
  Departed (d.(dp_thread_id), d.(dp_agent_id)) d.(dp_generation) d.(dp_through_seq) ∈ fx → traced db fx → traced db (fx ++ [Resent d]).
Proof.
  intros Hin0 [Hd Hw Hrs Hac Ho]. split; [| | | |by apply once_each_quiet].
  - intros k g n [Hin|Hin]%elem_of_app; [|by apply list_elem_of_singleton in Hin]. destruct (Hd k g n Hin) as (w & ? & ? & ?). exists w.
    rewrite elem_of_app. tauto.
  - by apply withdrawn_quiet.
  - apply resent_quiet; [|done]. by intros ? [= <-].
  - intros k w n Hk Hn. apply elem_of_app. left. by eapply Hac.
Qed.
Lemma traced_resents db l : ∀ fx,
  (∀ d, d ∈ l → Departed (d.(dp_thread_id), d.(dp_agent_id)) d.(dp_generation) d.(dp_through_seq) ∈ fx) →
  traced db fx → traced db (fx ++ (Resent <$> l)).
Proof.
  induction l as [|d l IH]; intros fx Hl Htr; [by rewrite app_nil_r|]. rewrite fmap_cons, cons_middle, app_assoc. apply IH.
  - intros d' Hd'. apply elem_of_app. left. apply Hl. by right.
  - apply traced_resent; [|done]. apply Hl. left.
Qed.
Lemma recovered_departed db s fx d :
  threads_ok db → traced db fx → d ∈ recover_thread_wakes_in_flight db s →
  Departed (d.(dp_thread_id), d.(dp_agent_id)) d.(dp_generation) d.(dp_through_seq) ∈ fx.
Proof.
  intros Hok Htr ([[t a] w0] & _ & Hd)%list_elem_of_omap. unfold resend in Hd. apply bind_Some in Hd as (w & Hw & Hd).
  unfold load_wake in Hw. apply fmap_Some in Hw as (w1 & Hw1 & ->).
  do 6 apply bind_Some in Hd as (? & _ & Hd). apply bind_Some in Hd as (n & Hn & Hd). simpl in Hn. apply fmap_Some in Hn as (n1 & Hn1 & ->).
  destruct (ok_wakes _ Hok t a w1 Hw1) as (_ & th & _ & (_ & ? & ? & _ & Hac)). rewrite Hn1 in Hac. destruct Hac as (_ & ? & _).
  destruct (already_engraved _ _); [done|]. apply bind_Some in Hd as ([conn live] & _ & Hd). destruct (negb _); [done|].
  injection Hd as <-. simpl. rewrite !u64_of_id by lia. by eapply tr_active.
Qed.

Lemma expire_settles db now : wakes_settle db (thread_wakes_expire db now).
Proof. apply update_wakes_settle. intros. apply state_settles. Qed.

Lemma dispatch_traced s now instant db deps db' deps' l fx :
  threads_ok db → traced db fx → dispatch_thread_wakes s now instant db deps = (db', deps', l) → threads_ok db' ∧ traced db' (fx ++ l).
Proof.
  intros Hok Htr. unfold dispatch_thread_wakes. set (db1 := thread_wakes_expire db now). set (again := List.filter _ _).
  destruct (wake_loop _ _ _ _ _ _) as [[db2 d2] l2] eqn:Hl. intros [= <- _ <-].
  assert (threads_ok db1) as Hok1 by by apply expire_ok. destruct (candidates_ok db1 now WAKE_BATCH Hok1) as [Hnd Hcs].
  assert (traced db1 fx) as Htr1 by (eapply traced_quiet; [apply expire_settles|done]).
  rewrite app_assoc. eapply loop_traced; [exact Hnd|exact Hcs|done| |exact Hl]. apply traced_resents; [|done].
  intros d [Hd _]%list_filter_elem. by eapply recovered_departed.
Qed.

Lemma load_wake_same db t a : threads_ok db → ∀ w, load_wake db t a = Some w →
  ∃ w0, db.(wakes) !! (t, a) = Some w0 ∧ w.(wk_generation) = w0.(wk_generation).
Proof.
  intros Hok w. unfold load_wake. intros (w0 & Hw0 & ->)%fmap_Some. exists w0. split; [done|].
  destruct (ok_wakes _ Hok t a w0 Hw0) as (_ & th & _ & (_ & ? & _)). simpl. by rewrite u64_of_id.
Qed.

Lemma settle_quiet db t a g o : (∀ r, o ≠ WRefused r) → threads_ok db → wakes_settle db (thread_wake_settle db t a g o).1.
Proof.
  intros Ho Hok. destruct o as [|r|]; [| by destruct (Ho r)|]; apply update_wake_settles; intros w Hw Hp; [|apply state_settles].
  destruct (ok_wakes _ Hok _ _ _ Hw) as (_ & th & _ & (_ & _ & ? & _ & Hac)).
  unfold wake_settles, settled_seq. simpl. split_and!; [done|lia| |done]. intros n ->. simpl. right. lia.
Qed.

Lemma by_delivery_traced db delivery o db' l fx :
  threads_ok db → traced db fx → settle_thread_wake_by_delivery db delivery o = (db', l) → threads_ok db' ∧ traced db' (fx ++ l).
Proof.
  intros Hok Htr. unfold settle_thread_wake_by_delivery, thread_wake_by_delivery.
  destruct (select_one _ _) as [[[t a] w0]|]; simpl; [|intros [= <- <-]; by rewrite app_nil_r].
  destruct (load_wake db t a) as [w|] eqn:Hlw; simpl; [|intros [= <- <-]; by rewrite app_nil_r].
  apply load_wake_same in Hlw as (w1 & Hw1 & Hg); [|done].
  destruct (thread_wake_settle db t a _ o) as [db1 b] eqn:Hs. intros [= <- <-].
  destruct o as [|r|].
  2: { eapply refuse_traced in Hs as (? & ? & _); [done|done|done|]. intros w2 Hw2. congruence. }
  all: rewrite app_nil_r; match type of Hs with _ = _ => replace db1 with (db1, b).1 by done; rewrite <-Hs end.
  all: split; [by apply settle_ok|]; eapply traced_quiet; [by apply settle_quiet|done].
Qed.

(** ** Runs *)

Lemma solicit_settles t seq targets : ∀ db db' notes sleeping,
  solicit t seq targets db = Ok (db', notes, sleeping) → wakes_settle db db'.
Proof.
  induction targets as [|a targets IH]; intros db db' notes sleeping H; simpl in H; [injection H as <- _ _; reflexivity|].
  destruct (dormant db a); [apply bind_Ok in H as ([[db1 n1] s1] & H1 & [= <- _ _]); by eapply IH|].
  destruct (negb _); [done|]. apply bind_Ok in H as (x & _ & H). apply bind_Ok in H as ([[db1 n1] s1] & H1 & [= <- _ _]).
  etransitivity; [|by eapply IH]. destruct (db.(wakes) !! (t, a)) as [w|] eqn:Hw.
  - apply (insert_settles _ _ w); [done|]. split_and!; simpl; auto. by unfold settled_seq.
  - split; simpl.
    + intros k w Hk. rewrite lookup_insert_ne by congruence. exists w. split; [done|reflexivity].
    + intros k w [[_ <-]|[_ ?]]%lookup_insert_Some; [by right|left; eauto].
Qed.
Lemma apply_ack_settles db t a m receipt : wakes_settle db (apply_ack db t a m receipt).1.
Proof.
  unfold apply_ack. case_bool_decide; [reflexivity|]. destruct (db.(reads) !! _); [|reflexivity]. case_bool_decide; [|reflexivity]. simpl.
  destruct (negb _); [reflexivity|]. simpl. etransitivity; [|apply update_wake_settles; intros; apply state_settles]. by apply same_wakes_settle.
Qed.
Lemma insert_members_wakes t l : ∀ db db', insert_members t l db = Ok db' → db'.(wakes) = db.(wakes).
Proof. induction l as [|a l IH]; intros db db' H; simpl in H; [by injection H as <-|]. destruct (is_some _); [done|]. by apply IH in H. Qed.

Lemma create_settles db q : wakes_settle db (thread_create db q).1.
Proof.
  destruct (thread_create db q) as [db' r] eqn:H. apply thread_create_cases in H as [[-> _]|(db1 & v & _ & _ & _ & H1 & H2)]; [reflexivity|].
  apply record_operation_Ok in H2 as [_ ->]. apply same_wakes_settle. simpl. by rewrite (insert_members_wakes _ _ _ _ H1).
Qed.
Lemma add_settles db q : wakes_settle db (thread_add_members db q).1.
Proof.
  destruct (thread_add_members db q) as [db' r] eqn:H. apply thread_add_cases in H as [[-> _]|(th & m & db1 & v & _ & _ & _ & _ & _ & H1 & H2)]; [reflexivity|].
  apply record_operation_Ok in H2 as [_ ->]. apply same_wakes_settle. simpl. by rewrite (insert_members_wakes _ _ _ _ H1).
Qed.
Lemma close_settles db q : threads_ok db → wakes_settle db (thread_close db q).1.
Proof.
  intros Hok. destruct (thread_close db q) as [db' r] eqn:H. apply thread_close_cases in H as [[-> _]|(th & v & _ & _ & _ & _ & H2)]; [reflexivity| |done].
  apply record_operation_Ok in H2 as [_ ->]. etransitivity; [|apply same_wakes_settle; reflexivity].
  etransitivity; [|apply update_wakes_settle; intros; apply state_settles]. by apply same_wakes_settle.
Qed.
Lemma post_settles db q : threads_ok db → wakes_settle db (thread_post db q).1.
Proof.
  intros Hok. destruct (thread_post db q) as [db' r] eqn:H.
  apply thread_post_cases in H as [[-> _]|(th & m & m0 & targets & db1 & v & _ & Hth & _ & _ & _ & _ & _ & _ & Hdb1 & _ & Hw)]; [reflexivity| |done].
  assert (wakes_settle db db1 ∧ db1.(threads) = db.(threads)) as [Hs1 Ht1].
  { destruct Hdb1 as [->|(receipt & x & Hx)]; [split; [reflexivity|done]|].
    pose proof (apply_ack_frame db q.(p_thread_id) q.(p_actor) m receipt) as (? & _).
    pose proof (apply_ack_settles db q.(p_thread_id) q.(p_actor) m receipt). by rewrite Hx in *. }
  destruct (ok_threads _ Hok _ _ Hth) as (Hl & _). rewrite <-Ht1 in Hth.
  apply write_post_Ok in Hw as (db3 & notes & sleeping & notices & v' & _ & Hsol & _ & Hrec & _); [|done|lia].
  apply record_operation_Ok in Hrec as [_ ->]. etransitivity; [exact Hs1|]. transitivity db3; [|by apply same_wakes_settle].
  etransitivity; [|by eapply solicit_settles]. by apply same_wakes_settle.
Qed.
Lemma read_settles db q : wakes_settle db (thread_read db q).1.
Proof. apply same_wakes_settle. unfold thread_read. by repeat case_match. Qed.
Lemma ack_settles db a t r : threads_ok db → wakes_settle db (thread_ack db a t r).1.
Proof.
  intros Hok. destruct (thread_ack db a t r) as [db' o] eqn:H.
  apply thread_ack_cases in H as [->|(m & m0 & x & _ & _ & Hx & _)]; [reflexivity| |done].
  pose proof (apply_ack_settles db t a m r) as Hs. by rewrite Hx in Hs.
Qed.

Lemma track_ok db a x : threads_ok db → threads_ok (record_change db a x).
Proof.
  intros Hok. unfold record_change. set (db1 := set_tracking _ db). assert (threads_ok db1) as Hok1 by by apply (ok_same db).
  destruct x; [|done]. apply update_wakes_ok; [|done]. intros last k w Hu (? & ? & ? & ? & H). unfold unsent_of in Hu.
  rewrite !andb_true_iff, negb_true_iff in Hu. destruct Hu as [[_ Ha] _]. unfold wake_ok. simpl.
  destruct (wk_active_through_seq w); [done|]. do 4 (split; [done|]). unfold resting. set_solver.
Qed.
Lemma track_settles db a x : wakes_settle db (record_change db a x).
Proof.
  unfold record_change. set (db1 := set_tracking _ db). assert (wakes_settle db db1) as H1 by by apply same_wakes_settle.
  destruct x; [|done]. etransitivity; [exact H1|]. apply update_wakes_settle. intros. apply state_settles.
Qed.

Section Laws.
Context {L : ThreadLaws C}.

Lemma step_traced b op b' l fx :
  op_typed op → threads_ok b.(bd_db) → traced b.(bd_db) fx → thread_step b op = (b', l) →
  threads_ok b'.(bd_db) ∧ traced b'.(bd_db) (fx ++ l).
Proof using L.
  intros Hty Hok Htr. destruct op as [q|q|q|q|q|a t r|a x|s now instant|d o]; simpl in Hty |- *.
  8: { destruct (dispatch_thread_wakes _ _ _ _ _) as [[db' deps] l'] eqn:H. intros [= <- <-]. by eapply dispatch_traced. }
  8: { destruct (settle_thread_wake_by_delivery _ _ _) as [db' l'] eqn:H. intros [= <- <-]. by eapply by_delivery_traced. }
  all: intros [= <- <-]; rewrite app_nil_r; simpl; split.
  all: try (eapply traced_quiet; [|done]).
  - eapply thread_create_ok; [done..|apply surjective_pairing].
  - apply create_settles.
  - eapply thread_add_ok; [done..|apply surjective_pairing].
  - apply add_settles.
  - eapply thread_post_ok; [done|apply Hty..|apply surjective_pairing].
  - by apply post_settles.
  - eapply thread_close_ok; [done..|apply surjective_pairing].
  - by apply close_settles.
  - eapply thread_read_ok; [done..|apply surjective_pairing].
  - apply read_settles.
  - eapply thread_ack_ok; [done..|apply surjective_pairing].
  - by apply ack_settles.
  - by apply track_ok.
  - apply track_settles.
Qed.
Lemma run_traced ops : ∀ b b' l fx,
  Forall op_typed ops → threads_ok b.(bd_db) → traced b.(bd_db) fx → thread_run b ops = (b', l) →
  threads_ok b'.(bd_db) ∧ traced b'.(bd_db) (fx ++ l).
Proof using L.
  induction ops as [|op ops IH]; intros b b' l fx Hty Hok Htr H; simpl in H; [injection H as <- <-; by rewrite app_nil_r|].
  apply Forall_cons in Hty as [Hop Hty]. destruct (thread_step b op) as [b1 l1] eqn:H1. destruct (thread_run b1 ops) as [b2 l2] eqn:H2.
  injection H as <- <-. eapply step_traced in H1 as [? ?]; [|done..]. rewrite app_assoc. by eapply IH.
Qed.
Lemma no_threads_ok : threads_ok no_threads.(bd_db) ∧ traced no_threads.(bd_db) [].
Proof.
  split; split; simpl; try (intros; simplify_map_eq; fail).
  - by vm_compute.
  - by vm_compute.
  - intros k g n Hin. by apply elem_of_nil in Hin.
  - intros l1 l2 k g Heq. by apply app_cons_not_nil in Heq.
  - intros l1 l2 d Heq. by apply app_cons_not_nil in Heq.
  - intros l1 l2 l3 k g n g' n' Heq. by apply app_cons_not_nil in Heq.
Qed.

(** C16: the tables after any run of the threads are in order: the numbers of the entries of a thread have no hole, what it counts is
    what its entries hold and stays under the limits of the contract, an entry replaces an earlier one of the same author and is
    replaced once at most, a cursor and a receipt stay within the entries, and a solicitation holds a delivery exactly while it flies. *)
Theorem threads_invariant ops b fx : Forall op_typed ops → thread_run no_threads ops = (b, fx) → threads_ok b.(bd_db).
Proof using L. intros Hty H. destruct no_threads_ok as [Hok Htr]. by eapply run_traced in H as [? _]. Qed.

(** C15: whatever the passes, the outcomes, the posts and the readings of a run, a later alert to the same member of the same thread
    has a greater generation, and reaches further in the thread unless the earlier one was withdrawn in between; an alert that is sent
    again is one that left. *)
Theorem alert_sent_once ops b fx :
  Forall op_typed ops → thread_run no_threads ops = (b, fx) →
  (∀ l1 l2 l3 k g n g' n', fx = l1 ++ Departed k g n :: l2 ++ Departed k g' n' :: l3 → g < g' ∧ (n < n' ∨ Withdrawn k g ∈ l2)) ∧
  ∀ l1 l2 d, fx = l1 ++ Resent d :: l2 → Departed (d.(dp_thread_id), d.(dp_agent_id)) d.(dp_generation) d.(dp_through_seq) ∈ l1.
Proof using L.
  intros Hty H. destruct no_threads_ok as [Hok Htr]. eapply run_traced in H as [_ Ht]; [|done..]. split; [apply (tr_once _ _ Ht)|apply (tr_resent _ _ Ht)].
Qed.

End Laws.

(** ** The rate of the departures *)

Definition is_departed (e : WakeEffect) : bool := match e with Departed _ _ _ => true | _ => false end.
(** The instants of the departures of a run. *)
Fixpoint departure_instants (b : Board) (ops : list ThreadOp) : list Z :=
  match ops with
  | [] => []
  | op :: ops =>
    let '(b1, l1) := thread_step b op in
    match op with TPass _ _ i => replicate (count_if is_departed l1) i | _ => [] end ++ departure_instants b1 ops
  end.
Definition pass_instants : list ThreadOp → list Z := omap (λ op, match op with TPass _ _ i => Some i | _ => None end).
Definition in_window (x t : Z) : bool := (x <=? t) && (t <? x + one_second).
Definition recent (i t : Z) : bool := Z.max 0 (i - t) <? one_second.

Record rated (i : Z) (log deps : list Z) : Prop := mkRated {
  rt_past : ∀ t, t ∈ log → t ≤ i;
  rt_window : ∀ x, (count_if (in_window x) log ≤ WAKE_DEPARTURES_PER_SEC)%nat;
  rt_kept : ∀ j, i ≤ j → (count_if (recent j) log ≤ count_if (recent j) deps)%nat }.

Lemma rated_later i j log deps : i ≤ j → rated i log deps → rated j log deps.
Proof. intros Hij [Hp Hw Hk]. split; [intros t ?%Hp; lia|done|intros; apply Hk; lia]. Qed.
Lemma rated_drop i log deps : rated i log deps → rated i log (List.filter (recent i) deps).
Proof.
  intros [Hp Hw Hk]. split; [done..|]. intros j Hj. rewrite count_if_filter; [by apply Hk|]. intros t _. unfold recent. lia.
Qed.
Lemma rated_depart i log deps :
  rated i log deps → (length deps < WAKE_DEPARTURES_PER_SEC)%nat → rated i (log ++ [i]) (deps ++ [i]).
Proof.
  intros [Hp Hw Hk] Hlen. split.
  - intros t [?%Hp|Ht]%elem_of_app; [done|]. apply list_elem_of_singleton in Ht. lia.
  - intros x. rewrite count_if_app. destruct (in_window x i) eqn:Hx; [|specialize (Hw x); unfold count_if in *; simpl; rewrite Hx; simpl; lia].
    assert (count_if (in_window x) log ≤ count_if (recent i) log)%nat.
    { apply count_if_le. intros t _. unfold in_window, recent in *. lia. }
    specialize (Hk i ltac:(lia)). assert (count_if (recent i) deps ≤ length deps)%nat by apply count_if_length.
    unfold count_if at 2. simpl. rewrite Hx. simpl. lia.
  - intros j Hj. rewrite !count_if_app. specialize (Hk j Hj). lia.
Qed.

Lemma depart_count db s now c conn inst db' gone l :
  depart db s now c conn inst = (db', gone, l) → count_if is_departed l = if gone then 1%nat else 0%nat.
Proof.
  unfold depart. destruct (thread_wake_reserve _ _ _) as [db1 [[]|e]]; [|by intros [= _ <- <-]..].
  destruct (project_thread_wake _ _ _); [|by intros [= _ <- <-]]. destruct (thread_wake_settle _ _ _ _ _) as [db2 []]; by intros [= _ <- <-].
Qed.
Lemma loop_rated s now i cs : ∀ db deps db' deps' l log,
  rated i log deps → wake_loop s now i cs db deps = (db', deps', l) → rated i (log ++ replicate (count_if is_departed l) i) deps'.
Proof.
  induction cs as [|c cs IH]; intros db deps db' deps' l log Hr Hrun; cbn [wake_loop] in Hrun.
  { injection Hrun as _ <- <-. simpl. by rewrite app_nil_r. }
  apply rated_drop in Hr. unfold recent in Hr at 1. set (deps1 := List.filter _ deps) in Hrun, Hr.
  destruct (dormant db _); [by eapply IH|]. destruct (_ <=? _)%nat eqn:Hlen; [injection Hrun as _ <- <-; simpl; by rewrite app_nil_r|].
  apply Nat.leb_gt in Hlen. destruct (thread_wake_recipient s _) as [[conn inst]|]; [|by eapply IH]. destruct (from_option _ _ _); [by eapply IH|].
  destruct (negb _); [by eapply IH|]. destruct (depart db s now c conn inst) as [[db1 gone] l1] eqn:Hd.
  destruct (wake_loop _ _ _ cs db1 _) as [[db2 d2] l2] eqn:Hl. injection Hrun as _ <- <-. apply depart_count in Hd.
  rewrite count_if_app, Hd, replicate_add, app_assoc. eapply IH; [|exact Hl]. destruct gone; simpl; [by apply rated_depart|by rewrite !app_nil_r].
Qed.

Lemma run_rated ops : ∀ b i log,
  rated i log b.(bd_departures) → StronglySorted Z.le (pass_instants ops) → Forall (Z.le i) (pass_instants ops) →
  ∀ x, (count_if (in_window x) (log ++ departure_instants b ops) ≤ WAKE_DEPARTURES_PER_SEC)%nat.
Proof.
  induction ops as [|op ops IH]; intros b i log Hr Hs Hf x; simpl; [rewrite app_nil_r; apply Hr|].
  destruct (thread_step b op) as [b1 l1] eqn:H1. rewrite app_assoc.
  assert (∀ db', b1 = mkBoard db' b.(bd_departures) → rated i log b1.(bd_departures)) as Hkeep by by intros ? ->.
  destruct op as [q|q|q|q|q|a t r|a y|s now j|d o]; simpl in H1, Hs, Hf.
  8: { apply StronglySorted_inv in Hs as [Hs Hall]. apply Forall_cons in Hf as [Hij _].
       unfold dispatch_thread_wakes in H1. destruct (wake_loop _ _ _ _ _ _) as [[db2 deps2] l2] eqn:Hl. injection H1 as <- <-.
       apply (IH _ j); [|done..]. rewrite count_if_app.
       assert (∀ l, count_if is_departed (Resent <$> l) = 0%nat) as -> by (intros l; by induction l). simpl.
       eapply loop_rated; [by eapply rated_later|exact Hl]. }
  8: { destruct (settle_thread_wake_by_delivery _ _ _) as [db' l'] eqn:H. injection H1 as <- <-. rewrite app_nil_r. by eapply IH. }
  all: injection H1 as <- <-; rewrite app_nil_r; by eapply IH.
Qed.

(** With a clock that does not go back, no second of a run sees more than five alerts leave, whatever the passes and the
    solicitations that wait. *)
Lemma wake_rate_bound ops x :
  Sorted Z.le (pass_instants ops) → (count_if (in_window x) (departure_instants no_threads ops) ≤ 5)%nat.
Proof.
  intros Hs%Sorted_StronglySorted; [|intros ? ? ?; lia]. destruct (pass_instants ops) as [|i l] eqn:Hp.
  - apply (run_rated ops no_threads 0 []); [|by rewrite Hp..]. split; simpl; [intros t Ht; by apply elem_of_nil in Ht|intros; vm_compute; lia|done].
  - apply (run_rated ops no_threads i []); [|rewrite Hp; try done..].
    + split; simpl; [intros t Ht; by apply elem_of_nil in Ht|intros; vm_compute; lia|done].
    + apply StronglySorted_inv in Hs as [_ ?]. by constructor.
Qed.

(** ** What is never lost *)

Definition thread_kept (th th' : ThreadRow) : Prop :=
  th'.(th_creator_id) = th.(th_creator_id) ∧ th'.(th_title) = th.(th_title) ∧ th'.(th_created_at) = th.(th_created_at) ∧
  th.(th_last_seq) ≤ th'.(th_last_seq) ∧
  ∀ c, th.(th_closed_at) = Some c → th'.(th_closed_at) = Some c ∧ th'.(th_last_seq) = th.(th_last_seq).
Record kept (db db' : ThreadDb) : Prop := mkKept {
  kp_entries : db.(entries) ⊆ db'.(entries);
  kp_operations : db.(operations) ⊆ db'.(operations);
  kp_threads : ∀ t th, db.(threads) !! t = Some th → ∃ th', db'.(threads) !! t = Some th' ∧ thread_kept th th';
  kp_members : ∀ k m, db.(members) !! k = Some m → ∃ m', db'.(members) !! k = Some m' ∧ m.(mb_acked_seq) ≤ m'.(mb_acked_seq) }.

Lemma thread_kept_refl th : thread_kept th th.
Proof. unfold thread_kept. split_and!; auto with lia. Qed.
#[local] Hint Resolve thread_kept_refl : core.
#[local] Instance kept_preorder : PreOrder kept.
Proof.
  split; [intros db; split; eauto with lia|]. intros d1 d2 d3 [E1 O1 T1 M1] [E2 O2 T2 M2]. split; [by etransitivity..| |].
  - intros t th (th1 & Hth1 & H1)%T1. apply T2 in Hth1 as (th2 & ? & H2). exists th2. split; [done|]. unfold thread_kept in *.
    destruct H2 as (-> & -> & -> & ? & C2), H1 as (-> & -> & -> & ? & C1). split_and!; [done..|lia|]. intros c [? ?]%C1.
    destruct (C2 c) as [? ?]; [done|]. split; [done|lia].
  - intros k m (m1 & Hm1 & ?)%M1. apply M2 in Hm1 as (m2 & ? & ?). exists m2. split; [done|lia].
Qed.
(** Writes of the other tables. *)
Lemma kept_same db db' :
  db'.(entries) = db.(entries) → db'.(operations) = db.(operations) → db'.(threads) = db.(threads) → db'.(members) = db.(members) → kept db db'.
Proof. intros He Ho Ht Hm. split; rewrite ?He, ?Ho, ?Ht, ?Hm; eauto with lia. Qed.
#[local] Hint Resolve kept_same : core.
Lemma record_operation_kept a o act t h now v db db' : record_operation a o act t h now v db = Ok db' → kept db db'.
Proof. intros [Hn ->]%record_operation_Ok. split; simpl; eauto with lia. by apply insert_subseteq. Qed.
Lemma insert_members_kept t l : ∀ db db', insert_members t l db = Ok db' → kept db db'.
Proof.
  induction l as [|a l IH]; intros db db' H; simpl in H; [injection H as <-; reflexivity|].
  destruct (db.(members) !! (t, a)) eqn:Ha; [done|]. simpl in H. etransitivity; [|by eapply IH]. split; simpl; eauto.
  intros k m Hk. rewrite lookup_insert_ne by congruence. eauto with lia.
Qed.
Lemma threads_row_kept db t th th' :
  (∀ th0, db.(threads) !! t = Some th0 → th0 = th ∧ thread_kept th th') → kept db (set_threads (<[t := th']> db.(threads)) db).
Proof.
  intros H. split; simpl; eauto with lia. intros t' th0 Ht'. destruct (decide (t = t')) as [<-|Hne].
  - rewrite lookup_insert_eq. apply H in Ht' as [-> ?]. eauto.
  - rewrite lookup_insert_ne by done. eauto.
Qed.
Lemma update_wake_kept t a p f db : kept db (update_wake t a p f db).1.
Proof. unfold update_wake. repeat case_match; [by apply kept_same|reflexivity..]. Qed.
Lemma apply_ack_kept db t a m m0 receipt :
  threads_ok db → db.(members) !! (t, a) = Some m0 → m.(mb_acked_seq) = m0.(mb_acked_seq) → kept db (apply_ack db t a m receipt).1.
Proof.
  intros Hok Hm0 Ha. unfold apply_ack. case_bool_decide; [reflexivity|]. destruct (db.(reads) !! (t, a)) as [r|] eqn:Hr; [|reflexivity].
  case_bool_decide; [|reflexivity]. simpl. destruct (_ =? _); [|reflexivity]. simpl. etransitivity; [|apply update_wake_kept].
  destruct (ok_reads _ Hok t a r Hr) as (th & m1 & _ & Hm1 & Hb & ? & _). split; simpl; eauto. intros k m2 Hk.
  destruct (decide ((t, a) = k)) as [<-|Hne]; [rewrite lookup_insert_eq|rewrite lookup_insert_ne by done; by eauto with lia].
  eexists. split; [done|]. simpl. simplify_eq. unfold u64_of. lia.
Qed.
Lemma with_entry_kept db t th e :
  db.(threads) !! t = Some th → th.(th_closed_at) = None → db.(entries) !! (t, th.(th_last_seq) + 1) = None → kept db (with_entry t th e db).
Proof.
  intros Hth Hc Hn. transitivity (set_entries (<[(t, th.(th_last_seq) + 1) := e]> db.(entries)) db).
  - split; simpl; eauto with lia. by apply insert_subseteq.
  - apply (threads_row_kept (set_entries (<[(t, th.(th_last_seq) + 1) := e]> db.(entries)) db) t th). simpl. intros th0 Hth0.
    assert (th0 = th) as -> by congruence. split; [done|]. unfold thread_kept. simpl. split_and!; try done; [lia|congruence].
Qed.

Lemma create_kept db q : kept db (thread_create db q).1.
Proof.
  destruct (thread_create db q) as [db' r] eqn:H. apply thread_create_cases in H as [[-> _]|(db1 & v & _ & _ & Ht & H1 & H2)]; [reflexivity|].
  etransitivity; [|by eapply record_operation_kept]. etransitivity; [|by eapply insert_members_kept].
  apply (threads_row_kept _ _ (mkThread "" "" 0 None 0 0)). congruence.
Qed.
Lemma add_kept db q : kept db (thread_add_members db q).1.
Proof.
  destruct (thread_add_members db q) as [db' r] eqn:H.
  apply thread_add_cases in H as [[-> _]|(th & m & db1 & v & _ & _ & _ & _ & _ & H1 & H2)]; [reflexivity|].
  etransitivity; [|by eapply record_operation_kept]. by eapply insert_members_kept.
Qed.
Lemma close_kept db q : threads_ok db → kept db (thread_close db q).1.
Proof.
  intros Hok. destruct (thread_close db q) as [db' r] eqn:H.
  apply thread_close_cases in H as [[-> _]|(th & v & _ & Hth & _ & Hc & H2)]; [reflexivity| |done].
  etransitivity; [|by eapply record_operation_kept].
  transitivity (set_threads (<[q.(x_thread_id) := closed_row q.(x_now) th]> db.(threads)) db); [|by apply kept_same].
  eapply threads_row_kept. intros th0 Hth0. assert (th0 = th) as -> by congruence. split; [done|]. unfold thread_kept. simpl.
  split_and!; try done. congruence.
Qed.
Lemma solicit_kept t seq targets : ∀ db db' notes sleeping, solicit t seq targets db = Ok (db', notes, sleeping) → kept db db'.
Proof.
  induction targets as [|a targets IH]; intros db db' notes sleeping H; simpl in H; [injection H as <- _ _; reflexivity|].
  destruct (dormant db a); [apply bind_Ok in H as ([[db1 n1] s1] & H1 & [= <- _ _]); by eapply IH|].
  destruct (negb _); [done|]. apply bind_Ok in H as (x & _ & H). apply bind_Ok in H as ([[db1 n1] s1] & H1 & [= <- _ _]).
  etransitivity; [|by eapply IH]. by apply kept_same.
Qed.
Lemma post_kept db q : threads_ok db → kept db (thread_post db q).1.
Proof.
  intros Hok. destruct (thread_post db q) as [db' r] eqn:H.
  apply thread_post_cases in H as [[-> _]|(th & m & m0 & targets & db1 & v & _ & Hth & Hc & Hm0 & Ha & _ & _ & _ & Hdb1 & _ & Hw)]; [reflexivity| |done].
  assert (kept db db1 ∧ db1.(threads) = db.(threads)) as [Hs1 Ht1].
  { destruct Hdb1 as [->|(receipt & x & Hx)]; [split; [reflexivity|done]|].
    pose proof (apply_ack_frame db q.(p_thread_id) q.(p_actor) m receipt) as (? & _).
    pose proof (apply_ack_kept db q.(p_thread_id) q.(p_actor) m m0 receipt Hok Hm0 Ha). by rewrite Hx in *. }
  destruct (ok_threads _ Hok _ _ Hth) as (Hl & _). rewrite <-Ht1 in Hth.
  apply write_post_Ok in Hw as (db3 & notes & sleeping & notices & v' & Hins & Hsol & _ & Hrec & _); [|done|lia].
  apply insert_entry_Ok in Hins as (Hn & _). etransitivity; [exact Hs1|]. etransitivity; [|by eapply record_operation_kept].
  etransitivity; [|by eapply solicit_kept]. by apply with_entry_kept.
Qed.
Lemma ack_kept db a t r : threads_ok db → kept db (thread_ack db a t r).1.
Proof.
  intros Hok. destruct (thread_ack db a t r) as [db' o] eqn:H.
  apply thread_ack_cases in H as [->|(m & m0 & x & Hm & Ha & Hx & _)]; [reflexivity| |done].
  pose proof (apply_ack_kept db t a m m0 r Hok Hm Ha) as Hs. by rewrite Hx in Hs.
Qed.

Lemma depart_kept db s now c conn inst : kept db (depart db s now c conn inst).1.1.
Proof.
  unfold depart. destruct (thread_wake_reserve _ _ _) as [db1 x] eqn:H. assert (kept db db1) as Hk.
  { unfold thread_wake_reserve in H. destruct (_ && _); [injection H as <- _; reflexivity|].
    pose proof (update_wake_kept c.(wc_thread_id) c.(wc_agent_id) (reservable (reservation_of (departure_of s now c conn inst) c) now)
      (reserved_wake (reservation_of (departure_of s now c conn inst) c) now) db) as Hu. simpl in H. destruct (update_wake _ _ _ _ db) as [db2 b].
    by injection H as <- _. }
  destruct x as [[]|]; try done. destruct (project_thread_wake _ _ _); [|done].
  pose proof (update_wake_kept c.(wc_thread_id) c.(wc_agent_id)) as Hu. unfold thread_wake_settle. simpl. 
  destruct (update_wake _ _ _ _ db1) as [db2 b] eqn:H2. simpl. etransitivity; [exact Hk|]. change db2 with (db2, b).1. rewrite <-H2. apply Hu.
Qed.
Lemma loop_kept s now i cs : ∀ db deps, kept db (wake_loop s now i cs db deps).1.1.
Proof.
  induction cs as [|c cs IH]; intros db deps; cbn [wake_loop]; [reflexivity|].
  assert (∀ reason, kept db (thread_wake_defer db c.(wc_thread_id) c.(wc_agent_id) reason now)) as Hdef by (intros; apply update_wake_kept).
  destruct (dormant db _); [apply IH|]. destruct (_ <=? _)%nat; [apply Hdef|].
  destruct (thread_wake_recipient s _) as [[conn inst]|]; [|etransitivity; [apply Hdef|apply IH]].
  destruct (from_option _ _ _); [etransitivity; [apply Hdef|apply IH]|]. destruct (negb _); [etransitivity; [apply Hdef|apply IH]|].
  pose proof (depart_kept db s now c conn inst) as Hd. destruct (depart db s now c conn inst) as [[db1 gone] l1].
  pose proof (IH db1 (List.filter (λ d, Z.max 0 (i - d) <? one_second) deps ++ when gone [i])) as Hl. destruct (wake_loop _ _ _ cs db1 _) as [[db2 d2] l2].
  simpl in *. by etransitivity.
Qed.

Lemma step_kept b op : threads_ok b.(bd_db) → kept b.(bd_db) (thread_step b op).1.(bd_db).
Proof.
  intros Hok. destruct op as [q|q|q|q|q|a t r|a x|s now instant|d o]; simpl.
  - apply create_kept.
  - apply add_kept.
  - by apply post_kept.
  - by apply close_kept.
  - apply kept_same; unfold thread_read; by repeat case_match.
  - by apply ack_kept.
  - unfold record_change. destruct x; by apply kept_same.
  - unfold dispatch_thread_wakes. pose proof (loop_kept s now instant (thread_wake_candidates (thread_wakes_expire b.(bd_db) now) now WAKE_BATCH)
      (thread_wakes_expire b.(bd_db) now) b.(bd_departures)) as Hl. destruct (wake_loop _ _ _ _ _ _) as [[db2 d2] l2]. simpl in *.
    etransitivity; [|exact Hl]. apply kept_same; reflexivity.
  - unfold settle_thread_wake_by_delivery. destruct (thread_wake_by_delivery _ _) as [[[t a] w]|]; [|reflexivity].
    destruct (thread_wake_settle _ _ _ _ _) as [db' x] eqn:H. simpl. change db' with (db', x).1. rewrite <-H.
    destruct o; apply update_wake_kept.
Qed.

Section Kept.
Context {L : ThreadLaws C}.

Lemma run_kept ops : ∀ b b' fx l,
  Forall op_typed ops → threads_ok b.(bd_db) → traced b.(bd_db) l → thread_run b ops = (b', fx) → kept b.(bd_db) b'.(bd_db).
Proof using L.
  induction ops as [|op ops IH]; intros b b' fx l Hty Hok Htr H; simpl in H; [injection H as <- _; reflexivity|].
  apply Forall_cons in Hty as [Hop Hty]. pose proof (step_kept b op Hok) as Hk. destruct (thread_step b op) as [b1 l1] eqn:Hs.
  destruct (thread_run b1 ops) as [b2 l2] eqn:Hr. injection H as <- <-. eapply step_traced in Hs as [? ?]; [|done..].
  etransitivity; [exact Hk|]. by eapply IH.
Qed.

(** Nothing of a thread is lost or changed afterwards.  Between two moments of a run, the entries and the recorded operations that
    were there are there, identical; a thread keeps its creator, its title and its date, its numbers only grow, and closing is final,
    with no entry after it; members stay, and the cursor of a reader never goes back. *)
Lemma threads_append_only ops1 ops2 b1 fx1 b2 fx2 :
  Forall op_typed (ops1 ++ ops2) → thread_run no_threads ops1 = (b1, fx1) → thread_run b1 ops2 = (b2, fx2) → kept b1.(bd_db) b2.(bd_db).
Proof using L.
  intros [Ht1 Ht2]%Forall_app H1 H2. destruct no_threads_ok as [Hok Htr]. eapply run_traced in H1 as [Hok1 Htr1]; [|done..]. by eapply run_kept.
Qed.

(** The operations with a key: the key, and what the call gives. *)
Definition keyed_call (db : ThreadDb) (op : ThreadOp) : option (string * string * string * (ThreadDb * result StoreError ThreadTxOutcome)) :=
  match op with
  | TCreate q => Some (q.(c_actor), q.(c_operation_id), q.(c_canonical_hash), thread_create db q)
  | TAdd q => Some (q.(a_actor), q.(a_operation_id), q.(a_canonical_hash), thread_add_members db q)
  | TPost q => Some (q.(p_actor), q.(p_operation_id), q.(p_canonical_hash), thread_post db q)
  | TClose q => Some (q.(x_actor), q.(x_operation_id), q.(x_canonical_hash), thread_close db q)
  | _ => None
  end.
Lemma keyed_step b op k c : keyed_call b.(bd_db) op = Some (k, c) → thread_step b op = (mkBoard c.1 b.(bd_departures), []).
Proof. destruct op; simpl; try done; by intros [= _ <-]. Qed.
Lemma done_recorded db op a o h db' v :
  threads_ok db → keyed_call db op = Some (a, o, h, (db', Ok (Done v))) →
  ∃ row, db'.(operations) !! (a, o) = Some row ∧ row.(op_canonical_hash) = h ∧ row.(op_result_json) = value_to_json v.
Proof.
  intros Hok. assert (∀ act t now db1, record_operation a o act t h now v db1 = Ok db' →
    ∃ row, db'.(operations) !! (a, o) = Some row ∧ row.(op_canonical_hash) = h ∧ row.(op_result_json) = value_to_json v) as Hrec.
  { intros act t now db1 [_ ->]%record_operation_Ok. simpl. rewrite lookup_insert_eq. by eexists. }
  destruct op; simpl; try done; intros [= <- <- <- H].
  - apply thread_create_cases in H as [[_ H]|(db1 & v' & [= <-] & _ & _ & _ & H)]; [by destruct (H v)|by eapply Hrec].
  - apply thread_add_cases in H as [[_ H]|(th & m & db1 & v' & [= <-] & _ & _ & _ & _ & _ & H)]; [by destruct (H v)|by eapply Hrec].
  - apply thread_post_cases in H as [[_ H]|(th & m & m0 & tg & db1 & v' & [= <-] & Hth & _ & _ & _ & _ & _ & _ & Hdb1 & _ & H)]; [by destruct (H v)| |done].
    destruct (ok_threads _ Hok _ _ Hth) as (Hl & _). apply write_post_Ok in H as (db3 & nt & sl & nc & v' & _ & _ & _ & H & [= <-]); [by eapply Hrec| |lia].
    destruct Hdb1 as [->|(receipt & x & Hx)]; [done|]. pose proof (apply_ack_frame db q.(p_thread_id) q.(p_actor) m receipt) as (Ht & _).
    rewrite Hx in Ht. simpl in Ht. by rewrite Ht.
  - apply thread_close_cases in H as [[_ H]|(th & v' & [= <-] & _ & _ & _ & H)]; [by destruct (H v)|by eapply Hrec|done].
Qed.
Lemma keyed_replay db op a o h c row v :
  keyed_call db op = Some (a, o, h, c) → db.(operations) !! (a, o) = Some row → value_from_json row.(op_result_json) = Some v →
  c = (db, Ok (if bool_decide (row.(op_canonical_hash) = h) then Replayed v else Refused EnvelopeMismatch)).
Proof.
  intros Hc Hrow Hv. assert (∀ body, once db a o h body =
    (db, Ok (if bool_decide (row.(op_canonical_hash) = h) then Replayed v else Refused EnvelopeMismatch))) as Hon.
  { intros body. unfold once, thread_operation_replay, lookup_operation. rewrite Hrow. simpl. case_bool_decide; simpl; by rewrite ?Hv. }
  destruct op; simpl in Hc; try done; injection Hc as <- <- <- <-; apply Hon.
Qed.

(** An operation of a thread is applied once.  Once a creation, an addition, a post or a closing of a caller was done under a key,
    any call of that caller under that key, at any later moment, changes nothing: it gives the first result again when its content is
    the same, and is refused when its content differs. *)
Lemma operation_applied_once ops1 ops2 op op' b1 fx1 b2 fx2 a o h h' db' v c :
  Forall op_typed (ops1 ++ op :: ops2) → thread_run no_threads ops1 = (b1, fx1) →
  keyed_call b1.(bd_db) op = Some (a, o, h, (db', Ok (Done v))) →
  thread_run (mkBoard db' b1.(bd_departures)) ops2 = (b2, fx2) → keyed_call b2.(bd_db) op' = Some (a, o, h', c) →
  c = (b2.(bd_db), Ok (if bool_decide (h = h') then Replayed v else Refused EnvelopeMismatch)) ∧ thread_step b2 op' = (b2, []).
Proof using L.
  intros [Ht1 [Hop Ht2]%Forall_cons]%Forall_app H1 Hc H2 Hc'. destruct no_threads_ok as [Hok Htr].
  eapply run_traced in H1 as [Hok1 Htr1]; [|done..]. pose proof (keyed_step _ _ _ _ Hc) as Hs. eapply step_traced in Hs as [Hok2 Htr2]; [|done..].
  apply done_recorded in Hc as (row & Hrow & <- & Hj); [|done]. eapply run_kept in H2; [|done..].
  pose proof (lookup_weaken _ _ _ _ Hrow (kp_operations _ _ H2)) as Hrow2.
  pose proof (keyed_step _ _ _ _ Hc') as Hst. eapply keyed_replay in Hc' as Heq; [|done|rewrite Hj; apply value_roundtrip].
  split; [done|]. rewrite Hst, Heq. by destruct b2.
Qed.

(** ** Reading a thread to its end *)

(** A reader that asks for a page and confirms it, until a page has no receipt.  Receipts are named by [rid]. *)
Fixpoint read_all (fuel : nat) (rid : nat → string) (now ttl limit budget : Z) (actor t : string) (db : ThreadDb)
    : option (ThreadDb * list EntryView) :=
  match fuel with
  | O => None
  | S fuel =>
    match thread_read db (mkReadRequest actor t limit budget (rid fuel) ttl now) with
    | (db1, ReadPage page (Some receipt) _ _ _) =>
      match thread_ack db1 actor t receipt with
      | (db2, Acknowledged _ _) =>
        '(db3, l) ← read_all fuel rid now ttl limit budget actor t db2; Some (db3, page.(pg_entries) ++ l)
      | _ => None
      end
    | (db1, ReadPage page None _ _ _) => Some (db1, page.(pg_entries))
    | _ => None
    end
  end.

(** The receipt of a member is confirmed: its cursor goes to the end of the page. *)
Lemma ack_current db t a m r :
  threads_ok db → db.(members) !! (t, a) = Some m → db.(reads) !! (t, a) = Some r → m.(mb_last_ack_receipt) ≠ Some r.(rd_receipt_id) →
  ∃ db' w m', thread_ack db a t r.(rd_receipt_id) = (db', Acknowledged r.(rd_through_seq) w) ∧ db'.(entries) = db.(entries) ∧
    db'.(threads) = db.(threads) ∧ db'.(reads) = delete (t, a) db.(reads) ∧ db'.(members) !! (t, a) = Some m' ∧
    m'.(mb_acked_seq) = r.(rd_through_seq) ∧ m'.(mb_last_ack_receipt) = Some r.(rd_receipt_id).
Proof.
  intros Hok Hm Hr Hne. destruct (ok_reads _ Hok t a r Hr) as (th & m0 & Hth & Hm0 & Hb & ? & _). assert (m0 = m) as -> by congruence.
  destruct (ok_members _ Hok t a m Hm) as (th' & _ & ?).
  unfold thread_ack, load_thread_for_member. rewrite load_thread_ok, Hth by done.
  destruct (load_member_acked db t a m Hok Hm) as (m1 & -> & Ha & Hl).
  destruct (apply_ack db t a m1 r.(rd_receipt_id)) as [db' x] eqn:Happ.
  unfold apply_ack in Happ. rewrite bool_decide_eq_false_2 in Happ by congruence. rewrite Hr, bool_decide_eq_true_2 in Happ by done. simpl in Happ.
  rewrite !u64_of_id in Happ by lia. replace (rd_base_seq r =? mb_acked_seq m1) with true in Happ by lia. simpl in Happ. injection Happ as <- <-.
  eexists _, _, _. split; [done|]. unfold update_wake. simpl. destruct (db.(wakes) !! (t, a)) as [w|]; [destruct (satisfied _ w)|]; simpl.
  all: rewrite lookup_insert_eq; split_and!; done.
Qed.
Lemma entry_view_same db db' t bound p kv : db'.(entries) = db.(entries) → entry_view db' t bound p kv = entry_view db t bound p kv.
Proof. intros He. unfold entry_view, successor. by rewrite He. Qed.
Lemma rows_between_same db db' t x y : db'.(entries) = db.(entries) → rows_between db' t x y = rows_between db t x y.
Proof. intros He. unfold rows_between. by rewrite He. Qed.

(** The views of rows, each as of some moment of the thread. *)
Definition views_of (db : ThreadDb) (t : string) (l : list EntryView) (rows : list (Z * EntryRow)) : Prop :=
  Forall2 (λ v kv, ∃ bound, v = entry_view db t bound true kv) l rows.
Lemma views_of_fmap db db' t bound rows : db'.(entries) = db.(entries) → views_of db t (entry_view db' t bound true <$> rows) rows.
Proof.
  intros He. apply Forall2_fmap_l. apply Forall_Forall2_diag. apply Forall_forall. intros kv _. exists bound. by apply entry_view_same.
Qed.

Lemma rows_between_seqs db t x y :
  0 ≤ x → (∀ n, x ≤ n ≤ y → is_Some (db.(entries) !! (t, n))) → (λ kv, u64_of kv.1) <$> rows_between db t x y = seqZ x (y - x + 1).
Proof.
  intros Hx H. unfold rows_between. assert (∀ n, n ∈ seqZ x (y - x + 1) → 0 ≤ n ∧ is_Some (db.(entries) !! (t, n))) as H'
    by (intros n ?%elem_of_seqZ; split; [lia|apply H; lia]).
  induction (seqZ _ _) as [|n l IH]; [done|]. simpl. destruct (H' n) as [? [e ->]]; [left|]. simpl. rewrite u64_of_id by done. f_equal.
  apply IH. intros. apply H'. by right.
Qed.
Lemma views_of_seqs db t l rows : views_of db t l rows → ev_seq <$> l = (λ kv, u64_of kv.1) <$> rows.
Proof. induction 1 as [|v kv l rows [bound ->] _ IH]; [done|]. rewrite !fmap_cons, IH. done. Qed.
Lemma member_reads db q th m db' r :
  threads_ok db → db.(threads) !! q.(r_thread_id) = Some th → db.(members) !! (q.(r_thread_id), q.(r_actor)) = Some m →
  thread_read db q = (db', ReadRefused r) → False.
Proof.
  intros Hok Hth Hm. unfold thread_read, load_thread_for_member. rewrite load_thread_ok, Hth by done.
  destruct (load_member_acked db _ _ m Hok Hm) as (m' & -> & _). by repeat case_match.
Qed.

(** A page and its confirmation. *)
Lemma page_then_ack db q th m :
  threads_ok db → 0 < q.(r_limit) → db.(threads) !! q.(r_thread_id) = Some th →
  db.(members) !! (q.(r_thread_id), q.(r_actor)) = Some m → m.(mb_acked_seq) < th.(th_last_seq) →
  m.(mb_last_ack_receipt) ≠ Some q.(r_receipt_id) →
  (∀ r, db.(reads) !! (q.(r_thread_id), q.(r_actor)) = Some r → m.(mb_last_ack_receipt) ≠ Some r.(rd_receipt_id)) →
  ∃ db1 page receipt e lim again n db2 w m2,
    thread_read db q = (db1, ReadPage page (Some receipt) e lim again) ∧ m.(mb_acked_seq) < n ≤ th.(th_last_seq) ∧
    (receipt = q.(r_receipt_id) ∨ ∃ r, db.(reads) !! (q.(r_thread_id), q.(r_actor)) = Some r ∧ receipt = r.(rd_receipt_id)) ∧
    views_of db q.(r_thread_id) page.(pg_entries) (rows_between db q.(r_thread_id) (m.(mb_acked_seq) + 1) n) ∧
    thread_ack db1 q.(r_actor) q.(r_thread_id) receipt = (db2, Acknowledged n w) ∧ threads_ok db2 ∧
    db2.(entries) = db.(entries) ∧ db2.(threads) !! q.(r_thread_id) = Some th ∧
    db2.(reads) !! (q.(r_thread_id), q.(r_actor)) = None ∧ db2.(members) !! (q.(r_thread_id), q.(r_actor)) = Some m2 ∧
    m2.(mb_acked_seq) = n ∧ m2.(mb_last_ack_receipt) = Some receipt.
Proof using L.
  intros Hok Hlim Hth Hm Hlt Hfresh Hold. destruct (thread_read db q) as [db1 o] eqn:Hread. pose proof (thread_read_ok _ _ _ _ Hok Hlim Hread) as Hok1.
  destruct (thread_read_cases _ _ _ _ Hok Hlim Hread) as [[-> ->]|(th' & m' & Hth' & Hm' & Hc)].
  { by apply (member_reads db q th m) in Hread. }
  assert (th' = th) as -> by congruence. assert (m' = m) as -> by congruence.
  destruct Hc as [(r & Hr & _ & -> & ->)|[(? & _)|(n & Hn & -> & ->)]]; [|lia|].
  - destruct (ok_reads _ Hok _ _ r Hr) as (th2 & m2 & Ht2 & Hm2 & ? & ? & ?). assert (th2 = th) as -> by congruence. assert (m2 = m) as -> by congruence.
    destruct (ack_current db _ _ m r Hok Hm Hr (Hold r Hr)) as (db2 & w & m3 & Hack & He & Ht & Hrd & Hm3 & Ha3 & Hl3).
    eexists _, _, _, _, _, _, r.(rd_through_seq), db2, w, m3. split; [done|]. split; [lia|]. split; [right; by eauto|].
    split; [by apply views_of_fmap|]. split; [done|]. split; [by eapply thread_ack_ok|]. rewrite Ht, Hrd, lookup_delete_eq. done.
  - set (r := mkRead _ _ _ _ _ _) in *. destruct (ack_current _ q.(r_thread_id) q.(r_actor) m r Hok1) as (db2 & w & m3 & Hack & He & Ht & Hrd & Hm3 & Ha3 & Hl3);
      [done|simpl; by rewrite lookup_insert_eq|done|].
    eexists _, _, _, _, _, _, n, db2, w, m3. split; [done|]. split; [lia|]. split; [by left|]. split; [by apply views_of_fmap|].
    split; [done|]. split; [by eapply thread_ack_ok|]. rewrite He, Ht, Hrd, lookup_delete_eq. done.
Qed.

Lemma read_all_complete rid now ttl limit budget actor t th fuel : ∀ db m,
  (∀ i j, rid i = rid j → i = j) → threads_ok db → 0 < limit → db.(threads) !! t = Some th → db.(members) !! (t, actor) = Some m →
  (∀ i, (i < fuel)%nat → m.(mb_last_ack_receipt) ≠ Some (rid i)) →
  (∀ r, db.(reads) !! (t, actor) = Some r → m.(mb_last_ack_receipt) ≠ Some r.(rd_receipt_id) ∧ ∀ i, (i < fuel)%nat → r.(rd_receipt_id) ≠ rid i) →
  th.(th_last_seq) - m.(mb_acked_seq) < Z.of_nat fuel →
  ∃ db' l m', read_all fuel rid now ttl limit budget actor t db = Some (db', l) ∧
    views_of db t l (rows_between db t (m.(mb_acked_seq) + 1) th.(th_last_seq)) ∧
    db'.(members) !! (t, actor) = Some m' ∧ m'.(mb_acked_seq) = th.(th_last_seq).
Proof using L.
  induction fuel as [|fuel IH]; intros db m Hinj Hok Hlim Hth Hm Hf Hr Hfuel.
  { destruct (ok_members _ Hok _ _ _ Hm) as (th' & ? & ?). simplify_eq. lia. }
  cbn [read_all]. set (q := mkReadRequest actor t limit budget (rid fuel) ttl now).
  destruct (ok_members _ Hok _ _ _ Hm) as (th' & Hth' & Hle). assert (th' = th) as -> by congruence.
  destruct (decide (m.(mb_acked_seq) = th.(th_last_seq))) as [Heq|Hne].
  - destruct (thread_read db q) as [db1 o] eqn:Hread.
    destruct (thread_read_cases _ _ _ _ Hok (Hlim : 0 < q.(r_limit)) Hread) as [[-> ->]|(th2 & m2 & Hth2 & Hm2 & Hc)].
    { by apply (member_reads db q th m) in Hread. }
    simpl in Hth2, Hm2, Hc. assert (th2 = th) as -> by congruence. assert (m2 = m) as -> by congruence.
    destruct Hc as [(r & Hr0 & _)|[(_ & -> & ->)|(n & ? & _)]]; [|exists db, [], m|lia].
    + destruct (ok_reads _ Hok _ _ r Hr0) as (th3 & m3 & ? & ? & ? & ? & ?). simplify_eq. lia.
    + split; [done|]. split; [|done]. unfold rows_between. rewrite seqZ_nil by lia. constructor.
  - destruct (page_then_ack db q th m) as (db1 & page & receipt & e & lim & again & n & db2 & w & m2 & Hrd & Hn & Hrec & Hv & Hak & Hok2 & He2 & Ht2 & Hr2 & Hm2 & Ha2 & Hl2);
      [done..|simpl; lia|apply Hf; lia|apply Hr|]. rewrite Hrd. simpl in *. rewrite Hak.
    destruct (IH db2 m2) as (db' & l & m' & Hall & Hvl & Hm' & Ha'); [done..| |by rewrite Hr2|lia|].
    { intros i Hi. rewrite Hl2. intros [= ->]. destruct Hrec as [Heq|(r & Hr0 & Heq)]; [apply Hinj in Heq; lia|]. destruct (Hr r Hr0) as [_ Hd]. eapply Hd; [|done]. lia. }
    rewrite Hall. simpl. eexists _, _, _. split; [done|]. split; [|done]. rewrite (rows_between_app db t _ n) by lia. apply Forall2_app; [done|].
    rewrite <-Ha2. rewrite (rows_between_same db db2) in Hvl by done. eapply Forall2_impl; [exact Hvl|]. intros v kv [bound ->]. exists bound. by apply entry_view_same.
Qed.

(** C17: a member who reads a thread and confirms each page, whatever the size of the pages and the budget of bytes, comes to the end
    after at most as many pages as there are unread entries, having seen each unread entry once, in order and without a hole; the cursor
    is then at the end of the thread.  No confirmation is refused on the way, as long as receipts have names of their own. *)
Theorem reading_complete ops b fx rid now ttl limit budget actor t th m fuel :
  Forall op_typed ops → thread_run no_threads ops = (b, fx) →
  b.(bd_db).(threads) !! t = Some th → b.(bd_db).(members) !! (t, actor) = Some m → 0 < limit →
  (∀ i j, rid i = rid j → i = j) → (∀ i, m.(mb_last_ack_receipt) ≠ Some (rid i)) →
  (∀ r, b.(bd_db).(reads) !! (t, actor) = Some r → m.(mb_last_ack_receipt) ≠ Some r.(rd_receipt_id) ∧ ∀ i, r.(rd_receipt_id) ≠ rid i) →
  th.(th_last_seq) - m.(mb_acked_seq) < Z.of_nat fuel →
  ∃ db' l m', read_all fuel rid now ttl limit budget actor t b.(bd_db) = Some (db', l) ∧
    views_of b.(bd_db) t l (rows_between b.(bd_db) t (m.(mb_acked_seq) + 1) th.(th_last_seq)) ∧
    ev_seq <$> l = seqZ (m.(mb_acked_seq) + 1) (th.(th_last_seq) - m.(mb_acked_seq)) ∧
    db'.(members) !! (t, actor) = Some m' ∧ m'.(mb_acked_seq) = th.(th_last_seq).
Proof using L.
  intros Hty Hrun Hth Hm Hlim Hinj Hf Hr Hfuel. destruct no_threads_ok as [Hok0 Htr]. eapply run_traced in Hrun as [Hok _]; [|done..].
  destruct (read_all_complete rid now ttl limit budget actor t th fuel b.(bd_db) m) as (db' & l & m' & Hall & Hv & Hm' & Ha'); try done.
  { intros r Hr0. destruct (Hr r Hr0) as [? Hd]. split; [done|]. intros i _. apply Hd. }
  exists db', l, m'. split; [done|]. split; [done|]. split; [|done].
  apply views_of_seqs in Hv as ->. destruct (ok_members _ Hok _ _ _ Hm) as (th' & ? & ?). simplify_eq.
  destruct (ok_threads _ Hok _ _ Hth) as (_ & _ & _ & Hall2). rewrite rows_between_seqs.
  - by replace (th_last_seq th - (mb_acked_seq m + 1) + 1) with (th_last_seq th - mb_acked_seq m) by lia.
  - lia.
  - intros n Hn. apply Hall2. lia.
Qed.

End Kept.

End Passes.

(** ** Examples *)

Module ThreadExamples.

#[local] Instance project_countable : Countable CommunicationProject.
Proof. apply (inj_countable' (λ p, (p.(host), p.(root))) (λ p, mkProject p.1 p.2)). by intros []. Defined.
#[local] Instance warning_eq_dec : EqDecision ProjectWarning.
Proof. solve_decision. Defined.
#[local] Instance warning_countable : Countable ProjectWarning.
Proof.
  apply (inj_countable' (λ w, (w.(code), w.(sender_project), w.(recipient_project), w.(recipient), w.(w_reason)))
           (λ '(a, b, c, d, e), mkWarning a b c d e)). by intros [].
Defined.
#[local] Instance note_eq_dec : EqDecision WakeNote.
Proof. solve_decision. Defined.
#[local] Instance note_countable : Countable WakeNote.
Proof. apply (inj_countable' (λ n, (n.(wn_agent_id), n.(wn_state), n.(wn_reason))) (λ '(a, b, c), mkWakeNote a b c)). by intros []. Defined.
#[local] Instance value_eq_dec : EqDecision ThreadValue.
Proof. solve_decision. Defined.
#[local] Instance value_countable : Countable ThreadValue.
Proof.
  apply (inj_countable'
    (λ v, match v with
          | VNull => inl (inl None)
          | VMembers a b c d e => inl (inl (Some (a, b, c, d, e)))
          | VCreated a b c d e f => inl (inr (a, b, c, d, e, f))
          | VPosted a b c d e f g h => inr (inl (a, b, c, d, (e, f, g, h)))
          | VClosed a b => inr (inr (a, b))
          end)
    (λ x, match x with
          | inl (inl None) => VNull
          | inl (inl (Some (a, b, c, d, e))) => VMembers a b c d e
          | inl (inr (a, b, c, d, e, f)) => VCreated a b c d e f
          | inr (inl (a, b, c, d, (e, f, g, h))) => VPosted a b c d e f g h
          | inr (inr (a, b)) => VClosed a b
          end)). by intros [].
Defined.

Definition bits_codec : ThreadCodec := {|
  value_to_json v := bits (encode v);
  value_from_json s := decode (of_bits s);
  notify_to_json m l := bits (encode (m, l));
  notify_from_json s := decode (of_bits s);
  entry_json_len e := Z.min (from_option (λ b, Z.of_nat (String.length b)) 0 e.(ev_body) + 100) (2 ^ 40) |}.
#[local] Existing Instance bits_codec.
#[local] Instance bits_laws : ThreadLaws bits_codec.
Proof.
  constructor; simpl; intros.
  - rewrite of_bits_bits. apply decode_encode.
  - rewrite of_bits_bits. apply decode_encode.
  - destruct (ev_body e); simpl; lia.
Qed.

Definition everyone : Surroundings :=
  mkSurroundings (λ a, Some a) (λ _, true) (λ c, Some c) (λ _, Some ("connected", false)) (λ _, Some 1) (λ t a, (t +:+ "/" +:+ a, 1))
    (λ _, true) (λ _, None).
Definition nobody : Surroundings :=
  mkSurroundings (λ _, None) (λ _, false) (λ _, None) (λ _, None) (λ _, None) (λ t a, (t +:+ "/" +:+ a, 1)) (λ _, true) (λ _, None).

Definition open_thread (who t : string) (l : list string) : ThreadOp :=
  TCreate (mkCreate who ("create-" +:+ t) ("h-" +:+ t) t "plan" l [] 10 LIMITS).
Definition said (who t key body : string) (n : NotifySpec) : PostEntry :=
  mkPost who key ("h-" +:+ body) t ("m-" +:+ key) body n [] [] None None None None 20 LIMITS.

(** Two entries, each with its alert; the reader then reads one. *)
Definition talk : list ThreadOp :=
  [open_thread "ann" "t" ["ann"; "bob"]; TPost (said "ann" "t" "k1" "hello" NotifyAll); TPass everyone 30 0;
   TSettle "t/bob" WDispatched; TPass everyone 31 1; TPost (said "ann" "t" "k2" "again" NotifyAll); TPass everyone 32 2;
   TRead (mkReadRequest "bob" "t" 1 1000 "r1" 900 33); TAck "bob" "t" "r1"].
Lemma talk_typed : Forall op_typed talk.
Proof. unfold talk. repeat constructor. all: by intros. Qed.
Definition talked := thread_run no_threads talk.

Lemma threads_invariant_witness : threads_ok talked.1.(bd_db).
Proof. apply (threads_invariant (L := bits_laws) talk talked.1 talked.2 talk_typed). apply surjective_pairing. Defined.
Lemma alert_sent_once_witness :
  talked.2 = [Departed ("t", "bob") 1 1; Departed ("t", "bob") 2 2] ∧ 1 < 2 ∧ (1 < 2 ∨ Withdrawn ("t", "bob") 1 ∈ []).
Proof.
  assert (talked.2 = [Departed ("t", "bob") 1 1; Departed ("t", "bob") 2 2]) as Hfx by by vm_compute. split; [done|].
  destruct (alert_sent_once (L := bits_laws) talk talked.1 talked.2 talk_typed) as [H _]; [apply surjective_pairing|].
  apply (H [] [] [] ("t", "bob") 1 1 2 2). by rewrite Hfx.
Defined.
Lemma wake_rate_bound_witness : (count_if (in_window 0) (departure_instants no_threads talk) ≤ 5)%nat.
Proof. apply (wake_rate_bound (C := bits_codec) talk 0). cbn. repeat constructor; lia. Defined.
Lemma threads_append_only_witness :
  ∃ e, (thread_run no_threads (take 3 talk)).1.(bd_db).(entries) !! ("t", 1) = Some e ∧
       (thread_run (thread_run no_threads (take 3 talk)).1 (drop 3 talk)).1.(bd_db).(entries) !! ("t", 1) = Some e.
Proof.
  set (b1 := thread_run no_threads (take 3 talk)). set (b2 := thread_run b1.1 (drop 3 talk)).
  pose proof (threads_append_only (L := bits_laws) (take 3 talk) (drop 3 talk) b1.1 b1.2 b2.1 b2.2 talk_typed
    (surjective_pairing _) (surjective_pairing _)) as [He _ _ _].
  eexists. split; [by vm_compute|]. eapply lookup_weaken; [|exact He]. by vm_compute.
Defined.

(** The first post asked again at the end: its first result; the same key with another body: refused. *)
Lemma operation_applied_once_witness :
  ∃ v, (thread_post talked.1.(bd_db) (said "ann" "t" "k1" "hello" NotifyAll)).2 = Ok (Replayed v) ∧
       (thread_post talked.1.(bd_db) (said "ann" "t" "k1" "other" NotifyAll)).2 = Ok (Refused EnvelopeMismatch).
Proof.
  set (b1 := thread_run no_threads (take 1 talk)). set (op := TPost (said "ann" "t" "k1" "hello" NotifyAll)).
  assert (∃ v, (thread_post b1.1.(bd_db) (said "ann" "t" "k1" "hello" NotifyAll)).2 = Ok (Done v)) as [v Hv] by (eexists; by vm_compute).
  assert (keyed_call b1.1.(bd_db) op =
    Some ("ann", "k1", "h-hello", ((thread_post b1.1.(bd_db) (said "ann" "t" "k1" "hello" NotifyAll)).1, Ok (Done v)))) as Hc
    by (simpl; rewrite <-Hv; by destruct (thread_post _ _)).
  assert (Forall op_typed (take 1 talk ++ op :: drop 2 talk)) as Hty by exact talk_typed.
  set (b2 := thread_run (mkBoard (thread_post b1.1.(bd_db) (said "ann" "t" "k1" "hello" NotifyAll)).1 b1.1.(bd_departures)) (drop 2 talk)).
  assert (talked.1 = b2.1) as -> by by vm_compute.
  pose proof (λ op' h' c, operation_applied_once (L := bits_laws) (take 1 talk) (drop 2 talk) op op' b1.1 b1.2 b2.1 b2.2 "ann" "k1" "h-hello" h' _ v c
    Hty (surjective_pairing _) Hc (surjective_pairing _)) as Honce.
  exists v. split.
  - by destruct (Honce op "h-hello" _ eq_refl) as [-> _].
  - by destruct (Honce (TPost (said "ann" "t" "k1" "other" NotifyAll)) "h-other" _ eq_refl) as [-> _].
Defined.

(** Bob read the first entry: the second one is what remains. *)
Definition names (i : nat) : string := bits (Pos.of_succ_nat i).
Lemma names_inj i j : names i = names j → i = j.
Proof. unfold names. intros H. apply (f_equal of_bits) in H. rewrite !of_bits_bits in H. lia. Qed.
Lemma reading_complete_witness :
  ∃ db' l, read_all 2 names 40 900 5 1000 "bob" "t" talked.1.(bd_db) = Some (db', l) ∧ ev_seq <$> l = [2].
Proof.
  edestruct (reading_complete (L := bits_laws) talk talked.1 talked.2 names 40 900 5 1000 "bob" "t") with (fuel := 2%nat)
    as (db' & l & m' & Hall & _ & Hseq & _); [exact talk_typed|apply surjective_pairing|by vm_compute|by vm_compute|lia|exact names_inj| | |by vm_compute|].
  - intros i. unfold names. simpl. intros [= H]. by destruct (Pos.of_succ_nat i).
  - intros r Hr. by vm_compute in Hr.
  - exists db', l. split; [done|]. by rewrite Hseq.
Defined.

(** An agent that goes to sleep is not sent the alert that waited for it. *)
Definition put_to_sleep : list ThreadOp :=
  [open_thread "zoe" "t1" ["win"; "zoe"]; TPost (said "zoe" "t1" "k1" "a" NotifyAll); TTrack "win" true; TTrack "win" false].
Example sleeper_not_alerted :
  (λ w, (w.(wk_state), w.(wk_reason))) <$> (thread_run no_threads put_to_sleep).1.(bd_db).(wakes) !! ("t1", "win") =
    Some ("cancelled", Some "agent_dormant") ∧
  (thread_run no_threads (put_to_sleep ++ [TPass everyone 30 0])).2 = [] ∧
  length (thread_run no_threads (take 2 put_to_sleep ++ [TPass everyone 30 0])).2 = 1%nat.
Proof. split_and!; vm_compute; reflexivity. Qed.

End ThreadExamples.
