(* ===== verification/Threads.v ===== *)
(** * Threads: [bridget-daemon/src/threads.rs]

    The rules of the threads above their store: what a request must look like,
    the fingerprint that identifies an operation with a key, the order of the
    checks of each action, and what an answer says.  The directory of the agents
    is the class [Directory], which the daemon implements; the digest SHA-256, the
    length of a text of JSON and fresh UUIDs are arguments. *)

From S2P Require Import Prelude Text Message Uuid Communication Sql ThreadStore ThreadRuns.
From Stdlib Require Import Ascii.
Local Open Scope Z_scope.

Definition THREAD_CONTRACT_VERSION : Z := 1.
Definition MIN_MEMBERS : nat := 2.
Definition TITLE_MAX_CHARS : nat := 160.
Definition BODY_MAX_BYTES : nat := 16 * 1024.
Definition ACTION_MAX_BYTES : nat := 2048.
Definition PAGE_DEFAULT : Z := 50.
Definition PAGE_MAX : Z := 200.
Definition PAGE_MAX_BYTES : Z := 60 * 1024.
Definition PAGE_METADATA_RESERVE_BYTES : Z := 12 * 1024.
Definition ENTRY_MAX_JSON_BYTES : Z := PAGE_MAX_BYTES - PAGE_METADATA_RESERVE_BYTES.
Definition RECEIPT_TTL_SECS : Z := 10 * 60.
Definition LIST_DEFAULT : Z := 20.
Definition LIST_MAX : Z := 100.

(** ** Requests and answers *)

Inductive ThreadNotify := TargetAll | Targets (l : list string).
Inductive ThreadAction :=
  | AddMembersTo (thread_id : string) (members : list string) (operation_id : string)
  | Create (title : string) (members : list string) (operation_id : string)
  | ListThreads (limit : option Z) (after_thread_id : option string)
  | ShowThread (thread_id : string)
  | Post (thread_id body : string) (notify : ThreadNotify) (operation_id : string) (reply_to_seq : option Z)
      (ack_receipt : option string) (kind : option ThreadEntryKind) (supersedes_seq : option Z)
  | Read (thread_id : string) (limit : option Z)
  | Ack (thread_id receipt : string)
  | History (thread_id : string) (from_seq to_seq limit : option Z)
  | Close (thread_id operation_id : string).
Record ThreadRequest := mkRequest { q_cross_project_reason : option string; q_version : Z; q_request : ThreadAction }.

Record MemberFacts := mkFacts { mf_dormant : bool; mf_connected : option bool; mf_thread_notice_version : option Z }.

(** The JSON answers, by their shape. *)
Inductive ThreadReply :=
  | RError (code detail : string) (retryable : bool)
  | RValue (v : ThreadValue)
  | RListed (threads : list ThreadSummary) (next_after : option string)
  | RShown (thread_id : string) (thread : ThreadRow) (members : list (string * MemberFacts)) (own_acked_seq : Z) (own_wake : option WakeRow)
  | RRead (thread_id : string) (p : Page) (receipt : option string) (expires_at : option Z) (requested_limit : Z) (notices : list string)
  | RAck (status thread_id : string) (acked_seq : Z) (own_wake : option WakeRow)
  | RHistory (thread_id : string) (p : Page) (from_seq : Z) (next_from_seq : option Z).

(** What the daemon knows of the agents. *)
Class Directory := {
  known_agent : string → bool;
  member_facts : string → MemberFacts;
  communication_scope : string → list string → option string → result ThreadReply (list ProjectWarning) }.

(** What [threads.rs] calls of other crates: [sha2], the length of the text of an
    entry before it is posted, and [Uuid::new_v4]. *)
Record ThreadTools := mkTools {
  sha256 : list Z → string;
  post_json_len : string → string → string → list string → option Z → Z;
  new_uuid : string }.

Definition invalid (detail : string) : ThreadReply := RError "invalid_request" detail false.

(** ** Validation *)

Definition refusal_result (r : ThreadRefusal) : ThreadReply :=
  match r with
  | EnvelopeMismatch => RError "envelope_mismatch" "Clé déjà utilisée pour une autre opération ; l'opération d'origine est inchangée." false
  | ThreadUnavailable => RError "thread_unavailable" "Fil indisponible pour cette identité." false
  | ThreadClosed => RError "thread_closed" "Fil clos : consultation seulement." false
  | CreatorRequired => RError "creator_required" "Opération réservée au créateur initial du fil." false
  | AudienceChanged => RError "audience_changed" "Les membres ont changé pendant la vérification ; revalider la demande." true
  | NotAMember unknown => RError "not_a_member" ("Cibles hors du fil : " +:+ Str.join ", " unknown) false
  | InvalidReplyReference => RError "invalid_reply_reference" "reply_to_seq ne désigne aucune entrée de ce fil." false
  | InvalidSupersession =>
    RError "invalid_supersession" "Remplacement refusé : cible actuelle, même auteur et mêmes destinataires requis." false
  | CapacityExceeded kind => RError "capacity_exceeded" ("Plafond atteint : " +:+ kind +:+ " ; aucune écriture effectuée.") false
  | ReceiptInvalid => RError "receipt_invalid" "Reçu inconnu pour ce fil et cette identité." false
  | ReceiptObsolete => RError "receipt_obsolete" "Reçu remplacé par une lecture plus récente ; aucun changement." false
  | CursorConflict => RError "cursor_conflict" "Le reçu ne part pas du repère confirmé courant." false
  | RangeUnavailable => RError "range_unavailable" "to_seq dépasse la dernière entrée du fil." false
  end.
Definition storage_error (e : StoreError) : ThreadReply :=
  RError "storage_unavailable" "Stockage indisponible ; rejouer avec la même clé et la même enveloppe." true.

Definition page_limit (limit : option Z) (dflt max : Z) : result ThreadReply Z :=
  match limit with
  | None => Ok dflt
  | Some value =>
    if (1 <=? value) && (value <=? max) then Ok value else Err (invalid ("limit doit être compris entre 1 et " +:+ pretty max +:+ "."))
  end.

(** [chars().all(char::is_whitespace)]: nothing is left once trimmed. *)
Definition validate_body (body : string) : result ThreadReply () :=
  if bool_decide (body = "") || (BODY_MAX_BYTES <? String.length body)%nat
  then Err (invalid ("body doit faire entre 1 et " +:+ pretty (Z.of_nat BODY_MAX_BYTES) +:+ " octets UTF-8."))
  else if Str.is_blank body then Err (invalid "body ne peut pas être vide ou tout blanc.")
  else Ok ().

Definition validate_title (title : string) : result ThreadReply string :=
  let trimmed := Str.trim title in
  let chars := Str.chars_count trimmed in
  if (chars =? 0)%nat || (TITLE_MAX_CHARS <? chars)%nat
  then Err (invalid ("title doit faire entre 1 et " +:+ pretty (Z.of_nat TITLE_MAX_CHARS) +:+ " caractères."))
  else Ok trimmed.

Section Rules.
Context `{U : UuidLib}.

Definition require_uuid (value field : string) : result ThreadReply string :=
  ok_or (opt_filter (λ c, (String.length value =? 36)%nat && bool_decide (Str.lowercase c = Str.lowercase value))
           (hyphenated <$> parse_str value))
    (invalid (field +:+ " doit être un UUID de 36 caractères avec tirets.")).
Definition require_opt (o : option string) (field : string) : result ThreadReply (option string) :=
  match o with Some v => c ← require_uuid v field; Ok (Some c) | None => Ok None end.
Definition canonical_uuid (value : string) : option string :=
  u ← parse_str value; then_some (bool_decide (hyphenated u = value)) (hyphenated u).

Definition parse_recent_cursor (value : string) : option (Z * string) :=
  if (128 <? String.length value)%nat then None
  else
    '(time, id) ← Str.split_once ":"%char value;
    n ← Str.parse_u64 time;
    if (9007199254740991 <? n) || negb (bool_decide (pretty n = time)) then None
    else c ← canonical_uuid id; Some (n, c).

Fixpoint require_all (field : string) (l : list string) : result ThreadReply (list string) :=
  match l with
  | [] => Ok []
  | x :: l => c ← require_uuid x field; r ← require_all field l; Ok (c :: r)
  end.

(** ** Fingerprints *)

(** What the digest reads: each part after its length. *)
Definition digest_input (parts : list (list Z)) : list Z := mjoin (canonical_field <$> parts).
Definition digest (t : ThreadTools) (parts : list (list Z)) : string := t.(sha256) (digest_input parts).

Definition reason_parts (reason : option string) : list (list Z) :=
  match reason with Some r => [bytes_of "communication-project-v1"; bytes_of r] | None => [] end.
Definition create_parts (title : string) (members : list string) (reason : option string) : list (list Z) :=
  [bytes_of "create"; bytes_of "v1"; bytes_of title] ++ (bytes_of <$> members) ++ reason_parts reason.
Definition add_parts (t : string) (members : list string) (reason : option string) : list (list Z) :=
  [bytes_of "add_members"; bytes_of "v1"; bytes_of t] ++ (bytes_of <$> members) ++ reason_parts reason.
Definition close_parts (t : string) : list (list Z) := [bytes_of "close"; bytes_of "v1"; bytes_of t].
Definition post_parts (t body mode : string) (targets : list string) (reply_to : option Z) (ack : option string)
    (kind : option ThreadEntryKind) (supersedes : option Z) (reason : option string) : list (list Z) :=
  [bytes_of "post"; bytes_of "v1"; bytes_of t; bytes_of body; bytes_of mode] ++ (bytes_of <$> targets)
  ++ [bytes_of "reply_to"] ++ match reply_to with Some n => [be_bytes 8 n] | None => [] end
  ++ [bytes_of "ack"] ++ match ack with Some r => [bytes_of r] | None => [] end
  ++ match kind with
     | Some k => [bytes_of "entry-control-v1"; bytes_of (entry_kind_as_str k)]
                 ++ match supersedes with Some n => [be_bytes 8 n] | None => [] end
     | None => []
     end
  ++ reason_parts reason.

(** ** Actions *)

Context `{C : ThreadCodec} `{D : Directory}.

(** What an action gives: the tables, the answer, and the thread whose views are out of date. *)
Definition Answer : Type := ThreadDb * ThreadReply * option string.
(** An error is the answer, and leaves the tables. *)
Definition answer (db : ThreadDb) (r : result ThreadReply Answer) : Answer :=
  match r with Ok x => x | Err e => (db, e, None) end.

Definition value_thread_id (v : ThreadValue) : option string :=
  match v with
  | VNull => None
  | VMembers _ t _ _ _ | VCreated t _ _ _ _ _ | VPosted t _ _ _ _ _ _ _ | VClosed t _ => Some t
  end.
Definition tx_result (db : ThreadDb) (o : ThreadTxOutcome) : result ThreadReply Answer :=
  match o with
  | Done v => Ok (db, RValue v, value_thread_id v)
  | Replayed v | NoChange v => Ok (db, RValue v, None)
  | Refused r => Err (refusal_result r)
  end.
(** A transaction of the store and its result. *)
Definition tx (x : ThreadDb * result StoreError ThreadTxOutcome) : result ThreadReply Answer :=
  o ← map_err storage_error x.2; tx_result x.1 o.

Definition create (k : ThreadTools) (db : ThreadDb) (actor title : string) (members : list string) (operation_id : string)
    (reason : option string) (now : Z) : Answer :=
  answer db (
    title ← validate_title title;
    operation_id ← require_uuid operation_id "operation_id";
    members ← require_all "members[]" members;
    let set := sort_dedup (members ++ [actor]) in
    if negb ((MIN_MEMBERS <=? length set) && (length set <=? MAX_MEMBERS))%nat
    then Err (invalid ("Un fil compte de " +:+ pretty (Z.of_nat MIN_MEMBERS) +:+ " à " +:+ pretty (Z.of_nat MAX_MEMBERS)
                       +:+ " membres, créateur inclus."))
    else
      let hash := digest k (create_parts title set reason) in
      match thread_operation_replay db actor operation_id hash with
      | Some replay => tx_result db replay
      | None =>
        let unknown := List.filter (λ m, negb (bool_decide (m = actor)) && negb (known_agent m)) set in
        if negb (bool_decide (unknown = []))
        then Err (RError "unknown_member" ("Membres inconnus de l'annuaire : " +:+ Str.join ", " unknown) false)
        else
          warnings ← communication_scope actor set reason;
          tx (thread_create db (mkCreate actor operation_id hash k.(new_uuid) title set warnings now LIMITS))
      end).

Definition add_members (k : ThreadTools) (db : ThreadDb) (actor thread_id : string) (members : list string) (operation_id : string)
    (reason : option string) (now : Z) : Answer :=
  answer db (
    thread_id ← require_uuid thread_id "thread_id";
    operation_id ← require_uuid operation_id "operation_id";
    members ← require_all "members[]" members;
    let candidates := sort_dedup members in
    if bool_decide (candidates = []) || (MAX_MEMBERS <? length candidates)%nat
    then Err (invalid "members exige de 1 à 16 UUID distincts.")
    else
      let hash := digest k (add_parts thread_id candidates reason) in
      match thread_operation_replay db actor operation_id hash with
      | Some replay => tx_result db replay
      | None =>
        view ← map_err refusal_result (thread_show db actor thread_id);
        if negb (bool_decide (view.(tv_thread).(th_creator_id) = actor)) then Err (refusal_result CreatorRequired)
        else if is_some view.(tv_thread).(th_closed_at) then Err (refusal_result ThreadClosed)
        else
          let union := sort_dedup (view.(tv_members) ++ candidates) in
          if (MAX_MEMBERS <? length union)%nat then Err (refusal_result (CapacityExceeded "members"))
          else if existsb (λ m, negb (bool_decide (m ∈ view.(tv_members))) && negb (known_agent m)) candidates
          then Err (RError "unknown_member" "Membre candidat inconnu de l'annuaire." false)
          else
            warnings ← communication_scope actor union reason;
            tx (thread_add_members db (mkAdd actor operation_id hash thread_id candidates union warnings now))
      end).

Definition list_threads (db : ThreadDb) (actor : string) (limit : option Z) (after : option string) : Answer :=
  answer db (
    limit ← page_limit limit LIST_DEFAULT LIST_MAX;
    after ← require_opt after "after_thread_id";
    let '(l, next) := thread_list db actor limit after in
    Ok (db, RListed l next, None)).

Definition show (db : ThreadDb) (actor thread_id : string) : Answer :=
  answer db (
    thread_id ← require_uuid thread_id "thread_id";
    view ← map_err refusal_result (thread_show db actor thread_id);
    Ok (db, RShown thread_id view.(tv_thread) ((λ m, (m, member_facts m)) <$> view.(tv_members)) view.(tv_own).(mb_acked_seq)
              view.(tv_own_wake), None)).

(** The targets of a post, without the author, who is told once. *)
Fixpoint wanted_targets (actor : string) (l : list string) : result ThreadReply (list string * bool) :=
  match l with
  | [] => Ok ([], false)
  | x :: l =>
    c ← require_uuid x "notify[]";
    '(r, self) ← wanted_targets actor l;
    Ok (if bool_decide (c = actor) then (r, true) else (c :: r, self))
  end.
Definition notify_of (actor : string) (n : ThreadNotify) : result ThreadReply (NotifySpec * string * list string * list string) :=
  match n with
  | TargetAll => Ok (NotifyAll, "all", [], [])
  | Targets wanted =>
    '(l, self) ← wanted_targets actor wanted;
    let targets := sort_dedup l in
    let notices := when self ["self_mention_ignored"] in
    Ok (if bool_decide (targets = []) then (NotifyNone, "none", [], notices) else (NotifyTargets targets, "targets", targets, notices))
  end.

(** The rules on the class of an entry. *)
Definition validate_kind (body : string) (n : ThreadNotify) (kind : option ThreadEntryKind) (supersedes reply_to : option Z)
    : result ThreadReply () :=
  let silent := match n with Targets [] => true | _ => false end in
  if bool_decide (kind = Some KHistory) && (negb silent || is_some supersedes)
  then Err (invalid "history exige notify:[] et aucun remplacement.")
  else if negb (bool_decide (kind = Some KHistory)) && is_some kind && (ACTION_MAX_BYTES <? String.length body)%nat
  then Err (invalid "Action, blocage ou décision limité à 2048 octets ; publier les preuves en history.")
  else if is_some supersedes && negb (is_some kind) then Err (invalid "supersedes_seq exige une classe déclarée.")
  else if bool_decide (reply_to = Some 0) then Err (invalid "reply_to_seq doit être strictement positif.")
  else Ok ().

Definition post (k : ThreadTools) (db : ThreadDb) (actor thread_id body : string) (n : ThreadNotify) (operation_id : string)
    (reply_to : option Z) (ack_receipt : option string) (kind : option ThreadEntryKind) (supersedes : option Z)
    (reason : option string) (now : Z) : Answer :=
  answer db (
    thread_id ← require_uuid thread_id "thread_id";
    operation_id ← require_uuid operation_id "operation_id";
    _ ← validate_body body;
    _ ← validate_kind body n kind supersedes reply_to;
    ack_receipt ← require_opt ack_receipt "ack_receipt";
    '(spec, mode, targets, notices) ← notify_of actor n;
    let message_id := k.(new_uuid) in
    let entry_len := k.(post_json_len) message_id actor body targets reply_to + if is_some kind then 128 else 0 in
    if ENTRY_MAX_JSON_BYTES <? entry_len
    then Err (RError "entry_too_large" ("Entrée sérialisée de " +:+ pretty entry_len +:+ " octets ; maximum "
                                        +:+ pretty ENTRY_MAX_JSON_BYTES +:+ ".") false)
    else
      let hash := digest k (post_parts thread_id body mode targets reply_to ack_receipt kind supersedes reason) in
      match thread_operation_replay db actor operation_id hash with
      | Some replay => tx_result db replay
      | None =>
        view ← map_err refusal_result (thread_show db actor thread_id);
        warnings ← communication_scope actor view.(tv_members) reason;
        tx (thread_post db (mkPost actor operation_id hash thread_id message_id body spec notices warnings reply_to ack_receipt kind
                              supersedes now LIMITS))
      end).

Definition read (k : ThreadTools) (db : ThreadDb) (actor thread_id : string) (limit : option Z) (now : Z) : Answer :=
  answer db (
    thread_id ← require_uuid thread_id "thread_id";
    limit ← page_limit limit PAGE_DEFAULT PAGE_MAX;
    match thread_read db (mkReadRequest actor thread_id limit ENTRY_MAX_JSON_BYTES k.(new_uuid) RECEIPT_TTL_SECS now) with
    | (_, ReadRefused r) => Err (refusal_result r)
    | (db', ReadPage page receipt expires_at requested_limit replayed) =>
      Ok (db', RRead thread_id page receipt expires_at requested_limit (when replayed ["pending_receipt_replayed"]), None)
    end).

Definition ack (db : ThreadDb) (actor thread_id receipt : string) : Answer :=
  answer db (
    thread_id ← require_uuid thread_id "thread_id";
    receipt ← map_err (λ _, refusal_result ReceiptInvalid) (require_uuid receipt "receipt");
    match thread_ack db actor thread_id receipt with
    | (db', Acknowledged acked wake) => Ok (db', RAck "acknowledged" thread_id acked wake, None)
    | (db', AlreadyAcknowledged acked wake) => Ok (db', RAck "already_acknowledged" thread_id acked wake, None)
    | (_, AckRefused r) => Err (refusal_result r)
    end).

(** [to_seq + 1] wraps at the end of [u64] in a build without checks of overflow. *)
Definition history (db : ThreadDb) (actor thread_id : string) (from_seq to_seq limit : option Z) : Answer :=
  answer db (
    thread_id ← require_uuid thread_id "thread_id";
    limit ← page_limit limit PAGE_DEFAULT PAGE_MAX;
    let from_seq := default 1 from_seq in
    if from_seq =? 0 then Err (invalid "from_seq doit être strictement positif.")
    else if is_some_and to_seq (λ n, wrap_u64 (n + 1) <? from_seq) then Err (invalid "to_seq ne peut pas précéder from_seq - 1.")
    else
      match thread_history db actor thread_id from_seq to_seq limit ENTRY_MAX_JSON_BYTES with
      | HistoryRefused r => Err (refusal_result r)
      | HistoryPage page =>
        Ok (db, RHistory thread_id page from_seq (then_some page.(pg_has_more) (page.(pg_through_seq) + 1)), None)
      end).

Definition close (k : ThreadTools) (db : ThreadDb) (actor thread_id operation_id : string) (now : Z) : Answer :=
  answer db (
    thread_id ← require_uuid thread_id "thread_id";
    operation_id ← require_uuid operation_id "operation_id";
    tx (thread_close db (mkClose actor operation_id (digest k (close_parts thread_id)) thread_id now))).

Definition handle_with_change (k : ThreadTools) (db : ThreadDb) (actor : string) (q : ThreadRequest) (now : Z) : Answer :=
  if negb (q.(q_version) =? THREAD_CONTRACT_VERSION)
  then (db, RError "unsupported_version" ("Version " +:+ pretty q.(q_version) +:+ " inconnue ; version attendue "
                                          +:+ pretty THREAD_CONTRACT_VERSION +:+ ".") false, None)
  else
    match validate_cross_project_reason q.(q_cross_project_reason) with
    | Err detail => (db, RError "invalid_cross_project_reason" detail false, None)
    | Ok reason =>
      match q.(q_request) with
      | AddMembersTo t members o => add_members k db actor t members o reason now
      | Create title members o => create k db actor title members o reason now
      | ListThreads limit after => list_threads db actor limit after
      | ShowThread t => show db actor t
      | Post t body n o reply ackr kind sup => post k db actor t body n o reply ackr kind sup reason now
      | Read t limit => read k db actor t limit now
      | Ack t receipt => ack db actor t receipt
      | History t from_ to_ limit => history db actor t from_ to_ limit
      | Close t o => close k db actor t o now
      end
    end.

End Rules.

(** ** The alerts *)

Definition notice_body (thread_id : string) (through_seq : Z) : string :=
  "Sollicitation dans le fil " +:+ thread_id +:+ ", nouveautés jusqu'à " +:+ pretty through_seq +:+ ". " +:+
  "Lis les nouveautés avec bridget_thread/read. Les références sans body " +:+
  "sont des preuves historiques ou des consignes remplacées : history permet " +:+
  "de les relire, jamais de les exécuter comme consignes actuelles. Confirme " +:+
  "chaque page entièrement lue avec ack, puis refais le même read sur le même " +:+
  "fil tant que has_more est vrai, avant d'agir. Ne mets pas from_seq/to_seq " +:+
  "dans read ; history ne fait pas avancer le repère. L'ACK n'accepte aucune mission. Publie preuves avec kind=history " +:+
  "et notify:[], consignes courtes avec kind=action/blocker/decision et " +:+
  "supersedes_seq si remplacement. Ne réponds pas par message direct à cette alerte.".
Definition notice_message_id (thread_id agent_id : string) (generation : Z) : string :=
  "thread-notice:" +:+ thread_id +:+ ":" +:+ agent_id +:+ ":" +:+ pretty generation.

(** ** The directory of the daemon *)

(** [detail.split(" : ").next()]: what precedes the first separator. *)
Fixpoint before_colon (s : string) : string :=
  match s with
  | EmptyString => EmptyString
  | String c r => if Str.starts_with " : " s then EmptyString else String c (before_colon r)
  end.
(** The warnings of the projects of an audience, [project] giving the project of an agent. *)
Fixpoint scope_of (project : string → option CommunicationProject) (actor : string) (members : list string) (reason : option string)
    : result ThreadReply (list ProjectWarning) :=
  match members with
  | [] => Ok []
  | m :: members =>
    w ← (if bool_decide (m = actor) then Ok []
         else map_err (λ d, RError (before_colon d) d false) (project_scope (project actor) (project m) m reason));
    r ← scope_of project actor members reason;
    Ok (w ++ r)
  end.

(** [DaemonDirectory]: routes, presences by the name of their agent, and projects. *)
Definition daemon_directory (db : ThreadDb) (s : Surroundings) (presence_named : string → bool)
    (project : string → option CommunicationProject) : Directory := {|
  known_agent a := is_some (s.(route) a) || presence_named a;
  member_facts a := mkFacts (dormant db a) (Some (is_some (thread_wake_recipient s a))) (c ← s.(route) a; s.(notice_version) c);
  communication_scope := scope_of project |}.

(** ** Access *)

Section Access.
Context `{U : UuidLib} `{C : ThreadCodec} `{D : Directory}.

(** The thread an action names. *)
Definition thread_named (a : ThreadAction) : option string :=
  match a with
  | AddMembersTo t _ _ | ShowThread t | Post t _ _ _ _ _ _ _ | Read t _ | Ack t _ | History t _ _ _ | Close t _ => Some t
  | Create _ _ _ | ListThreads _ _ => None
  end.

(** An answer that says the same on both tables, and changes neither. *)
Definition same_answer (db db' : ThreadDb) (x x' : result ThreadReply Answer) : Prop :=
  ∃ reply, answer db x = (db, reply, None) ∧ answer db' x' = (db', reply, None).
Lemma same_err db db' e : same_answer db db' (Err e) (Err e).
Proof. by exists e. Qed.
Lemma same_bind {A} db db' (r : result ThreadReply A) f g :
  (∀ x, r = Ok x → same_answer db db' (f x) (g x)) → same_answer db db' (r ≫= f) (r ≫= g).
Proof. destruct r as [x|e]; simpl; [auto|intros _; apply same_err]. Qed.

Lemma same_replay db db' actor o h x : db.(operations) = db'.(operations) →
  thread_operation_replay db actor o h = Some x →
  thread_operation_replay db' actor o h = Some x ∧ same_answer db db' (tx_result db x) (tx_result db' x).
Proof.
  intros Ho. unfold thread_operation_replay, lookup_operation. rewrite Ho. intros H. split; [done|].
  apply fmap_Some in H as ([v|[]] & _ & ->); simpl; [by eexists|apply same_err].
Qed.
Lemma same_no_replay db db' actor o h : db.(operations) = db'.(operations) →
  thread_operation_replay db actor o h = None → thread_operation_replay db' actor o h = None.
Proof. intros Ho. unfold thread_operation_replay, lookup_operation. by rewrite Ho. Qed.
Lemma show_outside db actor t : db.(members) !! (t, actor) = None → thread_show db actor t = Err ThreadUnavailable.
Proof. intros H. unfold thread_show. by rewrite load_for_member_outside. Qed.

(** C18: an agent learns nothing of a thread it is no member of.  Whatever it asks about the thread, and with whatever arguments, the
    answer is the one it would get from any other tables that hold the same recorded operations and where it is no member of that
    thread either (among them those where the thread does not exist); nothing is changed, and no view is told to refresh. *)
Theorem outsider_learns_nothing k db db' actor q now t :
  thread_named q.(q_request) = Some t → db.(operations) = db'.(operations) →
  (∀ c, require_uuid t "thread_id" = Ok c → db.(members) !! (c, actor) = None ∧ db'.(members) !! (c, actor) = None) →
  ∃ reply, handle_with_change k db actor q now = (db, reply, None) ∧ handle_with_change k db' actor q now = (db', reply, None).
Proof.
  intros Ht Ho Hout. unfold handle_with_change. destruct (negb _); [by eexists|].
  destruct (validate_cross_project_reason _) as [reason|e]; [|by eexists].
  assert (∀ o h f f', (thread_operation_replay db actor o h = None → same_answer db db' f f') →
    same_answer db db' match thread_operation_replay db actor o h with Some x => tx_result db x | None => f end
      match thread_operation_replay db' actor o h with Some x => tx_result db' x | None => f' end) as Hreplay.
  { intros o h f f' Hf. destruct (thread_operation_replay db actor o h) as [x|] eqn:Hx.
    - destruct (same_replay _ _ _ _ _ _ Ho Hx) as [-> ?]. done.
    - rewrite (same_no_replay _ _ _ _ _ Ho Hx). by apply Hf. }
  assert (∀ c, require_uuid t "thread_id" = Ok c → load_thread_for_member db c actor = Err ThreadUnavailable ∧
    load_thread_for_member db' c actor = Err ThreadUnavailable ∧ thread_show db actor c = Err ThreadUnavailable ∧
    thread_show db' actor c = Err ThreadUnavailable) as Hno.
  { intros c [? ?]%Hout. rewrite !show_outside, !load_for_member_outside by done. done. }
  destruct q.(q_request); simplify_eq/=; unfold add_members, show, post, read, ack, history, close;
    (apply same_bind || fail 1); intros c Hc; destruct (Hno c Hc) as (Hl & Hl' & Hs & Hs').
  - apply same_bind. intros o _. apply same_bind. intros ms _. destruct (_ || _); [apply same_err|]. apply Hreplay. intros _. rewrite Hs, Hs'. apply same_err.
  - rewrite Hs, Hs'. apply same_err.
  - apply same_bind. intros o _. do 3 (apply same_bind; intros ? _). apply same_bind. intros [[[spec mode] targets] notices] _.
    destruct (_ <? _); [apply same_err|]. apply Hreplay. intros _. rewrite Hs, Hs'. apply same_err.
  - apply same_bind. intros lim _. unfold thread_read. simpl. rewrite Hl, Hl'. apply same_err.
  - apply same_bind. intros rc _. unfold thread_ack. rewrite Hl, Hl'. apply same_err.
  - apply same_bind. intros lim _. destruct (_ =? _); [apply same_err|]. destruct (is_some_and _ _); [apply same_err|]. unfold thread_history. rewrite Hl, Hl'. apply same_err.
  - apply same_bind. intros o _. unfold thread_close, once. simpl. rewrite Hl, Hl'.
    destruct (thread_operation_replay db actor o _) as [x|] eqn:Hx.
    + destruct (same_replay _ _ _ _ _ _ Ho Hx) as [-> ?]. done.
    + rewrite (same_no_replay _ _ _ _ _ Ho Hx). apply same_err.
Qed.

End Access.

(** ** Fingerprints tell contents apart *)

(** The normalised content of an operation with a key. *)
Inductive Content :=
  | CCreate (title : string) (members : list string) (reason : option string)
  | CAdd (thread_id : string) (members : list string) (reason : option string)
  | CPost (thread_id body mode : string) (targets : list string) (reply_to : option Z) (ack : option string)
      (kind : option ThreadEntryKind) (supersedes : option Z) (reason : option string)
  | CClose (thread_id : string).
Definition content_parts (c : Content) : list (list Z) :=
  match c with
  | CCreate title members reason => create_parts title members reason
  | CAdd t members reason => add_parts t members reason
  | CPost t body mode targets reply ack kind sup reason => post_parts t body mode targets reply ack kind sup reason
  | CClose t => close_parts t
  end.

(** What the validation gives: identifiers of 36 bytes, numbers of 64 bits, no replacement without a class, and no member
    whose name is the mark that precedes a reason. *)
Definition marker : string := "communication-project-v1".
Definition id36 (s : string) : Prop := String.length s = 36%nat.
Definition content_ok (c : Content) : Prop :=
  Forall short (content_parts c) ∧
  match c with
  | CCreate _ members _ | CAdd _ members _ => Forall (λ m, m ≠ marker) members
  | CPost _ _ _ targets reply ack kind sup _ =>
    Forall id36 targets ∧ (∀ n, reply = Some n → be_range 8 0 n) ∧ (∀ r, ack = Some r → id36 r) ∧
    (∀ n, sup = Some n → be_range 8 0 n ∧ kind ≠ None)
  | CClose _ => True
  end.

Lemma digest_input_inj l : ∀ l', Forall short l → Forall short l' → digest_input l = digest_input l' → l = l'.
Proof.
  assert (∀ x r, canonical_field x ++ r ≠ []) as Hne.
  { intros x r H. apply (f_equal length) in H. unfold canonical_field in H. rewrite !length_app, length_be_bytes in H. simpl in H. lia. }
  unfold digest_input. induction l as [|x l IH]; intros [|y l'] Hl Hl' H; rewrite ?fmap_cons in H; cbn [mjoin list_join] in H.
  { done. }
  { symmetry in H. by apply Hne in H. }
  { by apply Hne in H. }
  apply Forall_cons in Hl as [Hx Hl], Hl' as [Hy Hl']. apply canonical_field_prefix_free in H as [-> H]; [|done..]. f_equal. by apply IH.
Qed.

(** Two lists that stop at the first element without [P]. *)
Lemma app_until {A} (P : A → Prop) (l1 l2 r1 r2 : list A) :
  Forall P l1 → Forall P l2 → (∀ x r, r1 = x :: r → ¬ P x) → (∀ x r, r2 = x :: r → ¬ P x) → l1 ++ r1 = l2 ++ r2 → l1 = l2 ∧ r1 = r2.
Proof.
  intros H1. revert l2. induction H1 as [|x l1 Hx H1 IH]; intros l2 H2 N1 N2 Heq; destruct H2 as [|y l2 Hy H2]; simpl in Heq.
  - done.
  - by destruct (N1 y (l2 ++ r2) Heq).
  - by destruct (N2 x (l1 ++ r1)).
  - injection Heq as -> Heq. destruct (IH l2 H2 N1 N2 Heq) as [-> ->]. done.
Qed.
(** An optional element, told from what follows it by a property. *)
Lemma opt_until {A B} (P : A → Prop) (enc : B → A) (o1 o2 : option B) (r1 r2 : list A) :
  (∀ b, o1 = Some b → P (enc b)) → (∀ b, o2 = Some b → P (enc b)) → (∀ x r, r1 = x :: r → ¬ P x) → (∀ x r, r2 = x :: r → ¬ P x) →
  (∀ a b, o1 = Some a → o2 = Some b → enc a = enc b → a = b) →
  match o1 with Some b => [enc b] | None => [] end ++ r1 = match o2 with Some b => [enc b] | None => [] end ++ r2 → o1 = o2 ∧ r1 = r2.
Proof.
  intros P1 P2 N1 N2 Hinj H. destruct (app_until P (match o1 with Some b => [enc b] | None => [] end) (match o2 with Some b => [enc b] | None => [] end) r1 r2)
    as [Ho ->]; [destruct o1; repeat constructor; by apply P1|destruct o2; repeat constructor; by apply P2|done|done|done|]. split; [|done].
  destruct o1 as [a|], o2 as [b|]; try done. injection Ho as Ho. f_equal. by apply Hinj.
Qed.

Lemma length_bytes_of s : length (bytes_of s) = String.length s.
Proof. induction s; simpl; auto. Qed.
Lemma fmap_bytes_inj (l l' : list string) : bytes_of <$> l = bytes_of <$> l' → l = l'.
Proof. revert l'. induction l as [|x l IH]; intros [|y l']; simpl; try done. intros [= ?%bytes_of_inj ?%IH]. by subst. Qed.
Lemma text_cons_inj s s' (l l' : list (list Z)) : bytes_of s :: l = bytes_of s' :: l' → s = s' ∧ l = l'.
Proof. intros [= ?%bytes_of_inj ->]. by subst. Qed.
Lemma reason_parts_inj r r' : reason_parts r = reason_parts r' → r = r'.
Proof. destruct r as [x|], r' as [y|]; simpl; try done. by intros [= ->%bytes_of_inj]. Qed.
Lemma reason_parts_head r x l : reason_parts r = x :: l → x = bytes_of marker.
Proof. destruct r; simpl; [by intros [= <- _]|done]. Qed.
Lemma members_reason_inj ms ms' r r' :
  Forall (λ m, m ≠ marker) ms → Forall (λ m, m ≠ marker) ms' →
  (bytes_of <$> ms) ++ reason_parts r = (bytes_of <$> ms') ++ reason_parts r' → ms = ms' ∧ r = r'.
Proof.
  intros H H' Heq. assert (∀ l, Forall (λ m, m ≠ marker) l → Forall (λ x, x ≠ bytes_of marker) (bytes_of <$> l)) as Hf.
  { intros l Hl. apply Forall_fmap. eapply Forall_impl; [exact Hl|]. intros m Hm ?%bytes_of_inj. done. }
  apply (app_until (λ x, x ≠ bytes_of marker)) in Heq as [?%fmap_bytes_inj ?%reason_parts_inj]; [done|by apply Hf..| |].
  all: intros x l Hx%reason_parts_head Hn; done.
Qed.

Lemma entry_kind_inj k k' : entry_kind_as_str k = entry_kind_as_str k' → k = k'.
Proof. by destruct k, k'. Qed.

Lemma control_parts_inj k k' s s' r r' :
  (∀ n, s = Some n → be_range 8 0 n ∧ k ≠ None) → (∀ n, s' = Some n → be_range 8 0 n ∧ k' ≠ None) →
  match k with Some k => [bytes_of "entry-control-v1"; bytes_of (entry_kind_as_str k)] ++ match s with Some n => [be_bytes 8 n] | None => [] end
             | None => [] end ++ reason_parts r =
  match k' with Some k => [bytes_of "entry-control-v1"; bytes_of (entry_kind_as_str k)] ++ match s' with Some n => [be_bytes 8 n] | None => [] end
              | None => [] end ++ reason_parts r' →
  k = k' ∧ s = s' ∧ r = r'.
Proof.
  intros Hs Hs' Heq. destruct k as [k|], k' as [k'|].
  - rewrite <-!app_assoc in Heq. apply text_cons_inj in Heq as [_ Heq]. apply text_cons_inj in Heq as [->%entry_kind_inj Heq].
    apply (opt_until (λ x, length x = 8%nat)) in Heq as [-> ?%reason_parts_inj]; [done|intros; apply length_be_bytes..| | |].
    + by intros x l ->%reason_parts_head.
    + by intros x l ->%reason_parts_head.
    + intros a b Ha Hb. apply (be_bytes_inj 8 0); [by apply Hs|by apply Hs'].
  - destruct r'; [|done]. by apply text_cons_inj in Heq as [? _].
  - destruct r; [|done]. by apply text_cons_inj in Heq as [? _].
  - assert (s = None) as -> by (destruct s as [n|]; [by destruct (Hs n eq_refl)|done]).
    assert (s' = None) as -> by (destruct s' as [n|]; [by destruct (Hs' n eq_refl)|done]). by apply reason_parts_inj in Heq.
Qed.

(** The fingerprint of an operation tells its content: two operations whose fingerprints are computed from the same bytes are the
    same action with the same thread, texts, members, targets, references, class and reason. *)
Lemma fingerprint_tells_content c c' :
  content_ok c → content_ok c' → digest_input (content_parts c) = digest_input (content_parts c') → c = c'.
Proof.
  intros [Hs Hc] [Hs' Hc'] Heq%digest_input_inj; [|done..]. clear Hs Hs'.
  destruct c as [ti ms r|t ms r|t body mode tg rp ak kd sp r|t], c' as [ti' ms' r'|t' ms' r'|t' body' mode' tg' rp' ak' kd' sp' r'|t'];
    try (by apply text_cons_inj in Heq as [? _]); do 2 apply text_cons_inj in Heq as [_ Heq]; apply text_cons_inj in Heq as [-> Heq].
  - by apply members_reason_inj in Heq as [-> ->].
  - by apply members_reason_inj in Heq as [-> ->].
  - do 2 apply text_cons_inj in Heq as [-> Heq]. destruct Hc as (Ht & Hr & Ha & Hp), Hc' as (Ht' & Hr' & Ha' & Hp').
    assert (∀ l, Forall id36 l → Forall (λ x, length x = 36%nat) (bytes_of <$> l)) as Hf.
    { intros l Hl. apply Forall_fmap. eapply Forall_impl; [exact Hl|]. intros m Hm. simpl. by rewrite length_bytes_of. }
    apply (app_until (λ x, length x = 36%nat)) in Heq as [->%fmap_bytes_inj Heq]; [|by apply Hf..|by intros ? ? [= <- _]|by intros ? ? [= <- _]].
    apply text_cons_inj in Heq as [_ Heq]. apply (opt_until (λ x, length x = 8%nat)) in Heq as [-> Heq]; [|intros; apply length_be_bytes..| | |].
    2,3: by intros ? ? [= <- _].
    2: { intros a b Ha0 Hb0. apply (be_bytes_inj 8 0); [by apply Hr|by apply Hr']. }
    apply text_cons_inj in Heq as [_ Heq]. apply (opt_until (λ x, length x = 36%nat)) in Heq as [-> Heq].
    + by apply control_parts_inj in Heq as (-> & -> & ->).
    + intros b Hb. rewrite length_bytes_of. by apply Ha.
    + intros b Hb. rewrite length_bytes_of. by apply Ha'.
    + intros x l Hx. destruct kd; [by injection Hx as <- _|]. by apply reason_parts_head in Hx as ->.
    + intros x l Hx. destruct kd'; [by injection Hx as <- _|]. by apply reason_parts_head in Hx as ->.
    + intros a b _ _. apply bytes_of_inj.
  - done.
Qed.

(** What the validation of a post gives is a content in order. *)
Lemma lowercase_length s : String.length (Str.lowercase s) = String.length s.
Proof. induction s as [|c s IH]; simpl; [done|by rewrite IH]. Qed.

Section Validated.
Context `{U : UuidLib}.

Lemma require_uuid_id36 v f c : require_uuid v f = Ok c → id36 c.
Proof.
  unfold require_uuid. intros [_ H]%ok_or_Ok%opt_filter_Some. apply andb_true_iff in H as [Hl Hc%bool_decide_eq_true].
  apply Nat.eqb_eq in Hl. unfold id36. by rewrite <-lowercase_length, Hc, lowercase_length.
Qed.
Lemma wanted_targets_id36 actor l : ∀ r self, wanted_targets actor l = Ok (r, self) → Forall id36 r.
Proof.
  induction l as [|x l IH]; intros r self H; simpl in H; [by injection H as <- _|].
  apply bind_Ok in H as (c & Hc & H). apply bind_Ok in H as ([r' s'] & Hr & [= H]). apply require_uuid_id36 in Hc. apply IH in Hr.
  case_bool_decide; injection H as <- _; [done|by constructor].
Qed.
Lemma dedup_sorted_elem x l : x ∈ dedup_sorted l → x ∈ l.
Proof.
  induction l as [|y [|z l] IH]; [done..|]. cbn [dedup_sorted]. case_bool_decide; [intros ?%IH; by right|].
  intros [->|?%IH]%elem_of_cons; [left|by right].
Qed.
Lemma sort_dedup_elem x l : x ∈ sort_dedup l → x ∈ l.
Proof. intros H%dedup_sorted_elem. by rewrite sort_by_perm in H. Qed.

Lemma validated_content t body n kind sup reply ackr ackr' actor spec mode targets notices reason :
  validate_kind body n kind sup reply = Ok () → require_opt ackr "ack_receipt" = Ok ackr' →
  notify_of actor n = Ok (spec, mode, targets, notices) → is_none_or reply in_u64 = true → is_none_or sup in_u64 = true →
  Forall short (content_parts (CPost t body mode targets reply ackr' kind sup reason)) →
  content_ok (CPost t body mode targets reply ackr' kind sup reason).
Proof.
  intros Hk Ha Hn Hr Hs Hshort. split; [done|].
  assert (∀ n, in_u64 n = true → be_range 8 0 n) as Hu
    by (intros m; unfold in_u64, be_range, u64_max; change (256 ^ Z.of_nat 8) with (2 ^ 64); rewrite andb_true_iff; lia).
  split; [|split; [intros m ->; by apply Hu|split]].
  - destruct n as [|wanted]; [by injection Hn as _ _ <- _|]. simpl in Hn. apply bind_Ok in Hn as ([l self] & Hl & [= Hn]).
    case_bool_decide; injection Hn as _ _ <- _; [done|]. apply wanted_targets_id36 in Hl. rewrite Forall_forall in Hl |- *.
    intros x ?%sort_dedup_elem. by apply Hl.
  - intros r ->. destruct ackr as [v|]; simpl in Ha; [|done]. apply bind_Ok in Ha as (c & Hc & [= <-]). by eapply require_uuid_id36.
  - intros m ->. split; [by apply Hu|]. intros ->. unfold validate_kind in Hk. simpl in Hk. done.
Qed.

End Validated.

(** ** Pages of a list *)

(** Rows in a total order, walked page after page: [after c] selects the rows beyond the cursor [c]. *)
Section Walk.
Context {X Y K : Type} (leb : X → X → bool) (rows : list X) (after : K → X → bool) (view : X → Y) (key : Y → K).
Hypothesis Htot : ∀ a b, leb a b = false → leb b a = true.
Hypothesis Htr : ∀ a b c, leb a b = true → leb b c = true → leb a c = true.
Hypothesis Hanti : ∀ a b, a ∈ rows → b ∈ rows → leb a b = true → leb b a = true → a = b.
Hypothesis Hnodup : NoDup rows.
(** The cursor of a row selects what is not before it. *)
Hypothesis Hafter : ∀ a b, a ∈ rows → b ∈ rows → after (key (view a)) b = negb (leb b a).

Lemma walk_sorted_filter p : sort_by leb (List.filter p rows) = List.filter p (sort_by leb rows).
Proof using Htot Htr Hanti.
  assert (Transitive (λ a b, leb a b = true)) by (intros a b c; apply Htr).
  apply sort_by_unique; [done..| | |].
  - intros a b [Ha _]%list_filter_elem [Hb _]%list_filter_elem. rewrite sort_by_perm in Ha, Hb. by apply Hanti.
  - apply list_filter_perm. by rewrite sort_by_perm.
  - apply StronglySorted_Sorted. pose proof (sort_by_sorted leb rows Htot) as Hs. apply Sorted_StronglySorted in Hs; [|done].
    induction Hs as [|x l Hs IH Hall]; simpl; [constructor|]. destruct (p x); [|done]. constructor; [done|].
    rewrite Forall_forall in Hall |- *. intros y [Hy _]%list_filter_elem. by apply Hall.
Qed.

(** Beyond the last row of a first part comes the rest. *)
Lemma walk_rest pre x rest : sort_by leb rows = pre ++ x :: rest → sort_by leb (List.filter (after (key (view x))) rows) = rest.
Proof using Htot Htr Hanti Hnodup Hafter.
  intros Heq. rewrite walk_sorted_filter, Heq. assert (Transitive (λ a b, leb a b = true)) by (intros a b c; apply Htr).
  assert (∀ y, y ∈ pre ++ x :: rest → y ∈ rows) as Hin by (intros y Hy; rewrite <-Heq, sort_by_perm in Hy; done).
  pose proof (sort_by_sorted leb rows Htot) as Hs. apply Sorted_StronglySorted in Hs; [|done]. rewrite Heq in Hs.
  assert (NoDup (pre ++ x :: rest)) as Hnd by (by rewrite <-Heq, sort_by_perm).
  apply NoDup_app in Hnd as (_ & Hdis & [Hx Hnd]%NoDup_cons).
  apply StronglySorted_app in Hs as (Hpre & _ & Hs). apply StronglySorted_inv in Hs as [Hs Hall].
  rewrite List.filter_app. simpl. rewrite Hafter by (apply Hin; set_solver).
  assert (leb x x = true) as Hxx by (destruct (leb x x) eqn:E; [done|by rewrite (Htot _ _ E) in E]). rewrite Hxx. simpl.
  assert (List.filter (after (key (view x))) pre = []) as ->.
  { apply list_filter_nil. intros y Hy. rewrite Hafter by (apply Hin; set_solver). rewrite Hpre; [done|done|left]. }
  apply list_filter_all. intros y Hy. rewrite Hafter by (apply Hin; set_solver). rewrite Forall_forall in Hall. specialize (Hall y Hy).
  destruct (leb y x) eqn:E; [|done]. assert (y = x) as -> by (apply Hanti; [apply Hin; set_solver..|done|done]). done.
Qed.

(** The pages from a cursor on. *)
Fixpoint walk (fuel : nat) (limit : Z) (from_ : option K) : option (list Y) :=
  match fuel with
  | O => None
  | S fuel =>
    let l := view <$> take (Z.to_nat (limit + 1)) (sort_by leb (List.filter (λ x, is_none_or from_ (λ c, after c x)) rows)) in
    if limit <? Z.of_nat (length l) then
      let page := take (Z.to_nat limit) l in
      match key <$> last page with Some c => (page ++.) <$> walk fuel limit (Some c) | None => None end
    else Some l
  end.
Lemma walk_complete_from fuel limit : ∀ pre rest from_, 0 < limit → sort_by leb rows = pre ++ rest →
  sort_by leb (List.filter (λ x, is_none_or from_ (λ c, after c x)) rows) = rest → (length rest < fuel)%nat →
  walk fuel limit from_ = Some (view <$> rest).
Proof using Htot Htr Hanti Hnodup Hafter.
  induction fuel as [|fuel IH]; intros pre rest from_ Hlim Hall Hrest Hfuel; [lia|]. cbn [walk]. rewrite Hrest.
  rewrite length_fmap, length_take. destruct (limit <? _) eqn:Hc.
  - rewrite <-fmap_take, take_take, Nat.min_l by lia. rewrite fmap_last.
    apply Z.ltb_lt in Hc. assert (0 < Z.to_nat limit)%nat as Hn0 by lia. assert (Z.to_nat limit ≤ length rest)%nat as Hn1 by lia. clear Hc.
    set (n := Z.to_nat limit) in *. destruct (last (take n rest)) as [x|] eqn:Hx.
    2: { apply last_None in Hx. apply (f_equal length) in Hx. rewrite length_take in Hx. simpl in Hx. lia. }
    apply last_Some in Hx as [init Hx]. cbn [fmap option_fmap option_map].
    assert (rest = init ++ x :: drop n rest) as Hsplit by (rewrite <-(take_drop n rest) at 1; by rewrite Hx, <-app_assoc).
    rewrite (IH (pre ++ take n rest) (drop n rest) (Some (key (view x)))).
    + cbn [fmap option_fmap option_map]. by rewrite <-fmap_app, take_drop.
    + done.
    + by rewrite <-app_assoc, take_drop.
    + cbn [is_none_or]. apply (walk_rest (pre ++ init)). rewrite Hall, Hsplit at 1. by rewrite <-app_assoc.
    + rewrite length_drop. lia.
  - apply Z.ltb_ge in Hc. by rewrite take_ge by lia.
Qed.
Lemma walk_complete fuel limit : 0 < limit → (length rows < fuel)%nat → walk fuel limit None = Some (view <$> sort_by leb rows).
Proof using Htot Htr Hanti Hnodup Hafter.
  intros Hlim Hfuel. apply (walk_complete_from fuel limit []); [done..| |].
  - cbn [is_none_or]. by rewrite list_filter_all.
  - by rewrite sort_by_perm.
Qed.

End Walk.

(** The pages of [thread_list], from a cursor on. *)
Fixpoint list_all (fuel : nat) (db : ThreadDb) (actor : string) (limit : Z) (after : option string) : option (list ThreadSummary) :=
  match fuel with
  | O => None
  | S fuel =>
    match thread_list db actor limit after with
    | (l, Some c) => (l ++.) <$> list_all fuel db actor limit (Some c)
    | (l, None) => Some l
    end
  end.
Definition id_leb (a b : string * ThreadRow) : bool := String.leb a.1 b.1.
Lemma list_all_walk fuel db actor limit : 0 < limit → ∀ after,
  list_all fuel db actor limit after =
  walk id_leb (threads_of db actor) (λ c kv, negb (String.leb kv.1 c)) (λ kv, summary_of kv.1 kv.2) ts_thread_id fuel limit after.
Proof.
  intros Hlim. induction fuel as [|fuel IH]; intros after; [done|]. cbn [list_all walk]. unfold thread_list, paged, select. rewrite <-fmap_take.
  unfold id_leb. set (rows := take _ _). destruct (limit <? _) eqn:Hc; [|done].
  destruct (ts_thread_id <$> last _) as [c|] eqn:Hl; [by rewrite IH|]. apply Z.ltb_lt in Hc. apply fmap_None, last_None in Hl. apply (f_equal length) in Hl.
  rewrite length_take in Hl. simpl in Hl. lia.
Qed.

(** An agent that lists its threads page after page, whatever the size of the pages, comes to the end and is shown each thread it is
    a member of exactly once, in the order of the identifiers, and no other thread. *)
Lemma listing_complete fuel db actor limit :
  0 < limit → (size db.(threads) < fuel)%nat →
  ∃ l, list_all fuel db actor limit None = Some l ∧ Sorted (λ a b, String.leb a b = true) (ts_thread_id <$> l) ∧ NoDup (ts_thread_id <$> l) ∧
    ∀ s, s ∈ l ↔ ∃ t th, db.(threads) !! t = Some th ∧ is_Some (db.(members) !! (t, actor)) ∧ s = summary_of t th.
Proof.
  intros Hlim Hfuel. set (rows := threads_of db actor).
  assert (∀ kv, kv ∈ rows ↔ db.(threads) !! kv.1 = Some kv.2 ∧ is_Some (db.(members) !! (kv.1, actor))) as Hin.
  { intros [t th]. unfold rows, threads_of. rewrite select_elem, elem_of_map_to_list. simpl.
    destruct (db.(members) !! (t, actor)); simpl; [|by split; [intros [_ ?]|intros [_ [? ?]]]]. split; intros [? _]; eauto. }
  assert (NoDup rows) as Hnd by apply NoDup_ListNoDup, List.NoDup_filter, NoDup_ListNoDup, NoDup_map_to_list.
  assert (∀ a b, a ∈ rows → b ∈ rows → a.1 = b.1 → a = b) as Hkey.
  { intros [t th] [t' th'] [Ha _]%Hin [Hb _]%Hin. simpl in *. intros ->. by simplify_eq. }
  assert (∀ a b : string * ThreadRow, id_leb a b = false → id_leb b a = true) as Htot by (intros; by apply string_leb_total).
  exists ((λ kv, summary_of kv.1 kv.2) <$> sort_by id_leb rows). split_and!.
  - rewrite list_all_walk by done. apply walk_complete; try done.
    + intros a b c. apply string_leb_trans.
    + intros a b Ha Hb H1 H2. apply Hkey; [done..|]. by apply String.leb_antisym.
    + eapply Nat.le_lt_trans; [|exact Hfuel]. unfold rows, threads_of, select. rewrite <-length_map_to_list. apply List.filter_length_le.
  - rewrite <-list_fmap_compose. apply StronglySorted_Sorted. eapply (StronglySorted_fmap _ (λ a b, id_leb a b = true)); [done|].
    apply Sorted_StronglySorted; [intros a b c; apply string_leb_trans|]. by apply sort_by_sorted.
  - rewrite <-list_fmap_compose. apply NoDup_fmap_2_strong; [|by rewrite sort_by_perm]. intros a b Ha Hb. rewrite sort_by_perm in Ha, Hb. by apply Hkey.
  - intros s. rewrite list_elem_of_fmap. split.
    + intros ([t th] & -> & Hkv). rewrite sort_by_perm, Hin in Hkv. destruct Hkv. eauto.
    + intros (t & th & ? & ? & ->). exists (t, th). split; [done|]. by rewrite sort_by_perm, Hin.
Qed.


(** ** The tables of the store through the rules *)

Section Kept.
Context `{U : UuidLib} `{C : ThreadCodec} {L : ThreadLaws C} `{D : Directory}.

(** Numbers as the wire decodes them. *)
Definition request_typed (q : ThreadRequest) : Prop :=
  match q.(q_request) with Post _ _ _ _ reply _ _ _ => ∀ n, reply = Some n → 0 ≤ n | _ => True end.

Lemma answer_ok db r : threads_ok db → (∀ db' x c, r = Ok (db', x, c) → threads_ok db') → threads_ok (answer db r).1.1.
Proof. intros Hok H. destruct r as [[[db' x] c]|e]; simpl; [by eapply H|done]. Qed.
Lemma tx_ok x db' reply c : tx x = Ok (db', reply, c) → db' = x.1.
Proof.
  unfold tx. destruct x as [db1 [o|e]]; simpl; [|done]. destruct o; simpl; try done; by intros [= <- _ _].
Qed.
Lemma tx_result_same db o db' reply c : tx_result db o = Ok (db', reply, c) → db' = db.
Proof. destruct o; simpl; try done; by intros [= <- _ _]. Qed.
Lemma page_limit_pos l d m n : page_limit l d m = Ok n → 0 < d → 0 < n.
Proof. unfold page_limit. destruct l as [v|]; [|by intros [= <-]]. destruct (_ && _) eqn:H; [|done]. intros [= <-]. lia. Qed.

(** Every request, from whatever agent, keeps the tables of the threads in order: the calls the rules make of the store are those
    the store expects, and every refusal and error leaves the tables as they were. *)
Lemma handle_keeps_tables k db actor q now :
  threads_ok db → request_typed q → threads_ok (handle_with_change k db actor q now).1.1.
Proof using L.
  intros Hok Hty. unfold handle_with_change. destruct (negb _); [done|]. destruct (validate_cross_project_reason _) as [reason|e]; [|done].
  unfold request_typed in Hty. destruct q.(q_request); apply answer_ok; try done; intros db' x c H.
  - do 3 apply bind_Ok in H as (? & _ & H). cbv zeta in H. destruct (_ || _); [done|]. destruct (thread_operation_replay _ _ _ _); [by apply tx_result_same in H as ->|].
    apply bind_Ok in H as (v & _ & H). destruct (negb _); [done|]. destruct (is_some _); [done|]. cbv zeta in H. destruct (_ <? _)%nat; [done|].
    destruct (existsb _ _); [done|]. apply bind_Ok in H as (w & _ & ->%tx_ok). eapply thread_add_ok; [done|apply surjective_pairing].
  - do 3 apply bind_Ok in H as (? & _ & H). cbv zeta in H. destruct (negb _); [done|]. destruct (thread_operation_replay _ _ _ _); [by apply tx_result_same in H as ->|].
    destruct (negb _); [done|]. apply bind_Ok in H as (w & _ & ->%tx_ok). eapply thread_create_ok; [done| |apply surjective_pairing]. done.
  - do 2 apply bind_Ok in H as (? & _ & H). cbv zeta in H. destruct (thread_list _ _ _ _). by injection H as <- _ _.
  - do 2 apply bind_Ok in H as (? & _ & H). by injection H as <- _ _.
  - do 5 apply bind_Ok in H as (? & _ & H). apply bind_Ok in H as ([[[spec mode] targets] notices] & _ & H). cbv zeta in H. destruct (_ <? _); [done|].
    destruct (thread_operation_replay _ _ _ _); [by apply tx_result_same in H as ->|]. apply bind_Ok in H as (v & _ & H).
    apply bind_Ok in H as (w & _ & ->%tx_ok). eapply thread_post_ok; [done| | |apply surjective_pairing]; done.
  - apply bind_Ok in H as (? & _ & H). apply bind_Ok in H as (lim & Hlim & H).
    destruct (thread_read _ _) as [db1 o] eqn:Hr. destruct o as [p rc ex rl rp|r]; [|done]. injection H as <- _ _.
    eapply thread_read_ok; [done| |exact Hr]. simpl. by eapply page_limit_pos.
  - do 2 apply bind_Ok in H as (? & _ & H). cbv zeta in H. destruct (thread_ack _ _ _ _) as [db1 o] eqn:Hr.
    destruct o; [..|done]; injection H as <- _ _; by eapply thread_ack_ok.
  - do 2 apply bind_Ok in H as (? & _ & H). cbv zeta in H. destruct (_ =? _); [done|]. destruct (is_some_and _ _); [done|].
    destruct (thread_history _ _ _ _ _ _ _); [|done]. by injection H as <- _ _.
  - do 2 apply bind_Ok in H as (? & _ & H). apply tx_ok in H as ->. eapply thread_close_ok; [done|apply surjective_pairing].
Qed.

End Kept.

(** ** Examples *)

Module RulesExamples.
Import ThreadExamples Uuid.Canonical.
#[local] Existing Instance bits_codec.

Definition ann := "aaaaaaaa-0000-4000-8000-000000000001".
Definition bob := "bbbbbbbb-0000-4000-8000-000000000002".
Definition eve := "eeeeeeee-0000-4000-8000-000000000003".
Definition plan := "11111111-0000-4000-8000-000000000004".
Definition key1 := "22222222-0000-4000-8000-000000000005".

#[local] Instance open_directory : Directory := daemon_directory no_threads.(bd_db) everyone (λ _, true) (λ _, Some (mkProject "h" "/p")).
Definition tools : ThreadTools := mkTools (λ l, bits (encode l)) (λ _ _ _ _ _, 300) plan.
Definition ask (a : ThreadAction) : ThreadRequest := mkRequest None 1 a.

(** Ann opens a thread with Bob. *)
Definition opened : Answer := handle_with_change tools no_threads.(bd_db) ann (ask (Create " plan " [bob] key1)) 10.
Example opened_answer : opened.1.2 = RValue (VCreated plan "plan" ann [ann; bob] 10 []) ∧ opened.2 = Some plan.
Proof. vm_compute. done. Qed.

(** Eve is answered as if the thread did not exist. *)
Lemma outsider_learns_nothing_witness :
  let q := ask (Post plan "hello" TargetAll key1 None None None None) in
  ∃ reply, handle_with_change tools opened.1.1 eve q 20 = (opened.1.1, reply, None) ∧
    handle_with_change tools (set_operations opened.1.1.(operations) no_threads.(bd_db)) eve q 20 =
      (set_operations opened.1.1.(operations) no_threads.(bd_db), reply, None).
Proof.
  intros q. apply (outsider_learns_nothing tools _ _ eve q 20 plan); [done|done|].
  intros c Hc. vm_compute in Hc. injection Hc as <-. split; by vm_compute.
Defined.

(** A post with a reference and a post with a reason: other bytes. *)
Definition with_reply : Content := CPost plan "hello" "targets" [bob] (Some 7) None (Some KAction) (Some 3) None.
Definition with_reason : Content := CPost plan "hello" "targets" [bob] None None (Some KAction) (Some 3) (Some "joint work").
Lemma example_contents_ok : content_ok with_reply ∧ content_ok with_reason.
Proof.
  split; (split; [repeat constructor; unfold short; rewrite ?length_bytes_of, ?length_be_bytes; by vm_compute|]).
  all: split_and!; [by repeat constructor|intros n [= <-]|done|intros n [= <-]; split; [|done]]; by vm_compute.
Qed.
Lemma fingerprint_tells_content_witness : digest_input (content_parts with_reply) ≠ digest_input (content_parts with_reason).
Proof.
  intros H. destruct example_contents_ok as [H1 H2]. by pose proof (fingerprint_tells_content with_reply with_reason H1 H2 H).
Defined.

Lemma listing_complete_witness :
  ∃ l, list_all 2 opened.1.1 bob 5 None = Some l ∧ mkThreadSummary plan "plan" ann false 0 ∈ l.
Proof.
  destruct (listing_complete 2 opened.1.1 bob 5) as (l & Hl & _ & _ & Hin); [lia|by vm_compute|]. exists l. split; [done|].
  apply Hin. exists plan, (mkThread ann "plan" 10 None 0 0). split_and!; [by vm_compute|eexists; by vm_compute|done].
Defined.
End RulesExamples.
