(* ===== verification/HumanThreads.v ===== *)
(** * HumanThreads: the consultation of the threads by a human ([threads.rs], [human_view])

    A read-only projection of the threads of one agent: lists by identifier or by
    last activity, one thread, its history upwards or from the end.  The names of
    the agents, which the table of profiles holds, and the length of the text of an
    answer are arguments. *)

From S2P Require Import Prelude Text Message Uuid Communication Sql ThreadStore ThreadRuns Threads.
From Stdlib Require Import Ascii.
Local Open Scope Z_scope.

Definition HUMAN_THREAD_VIEW_VERSION : Z := 1.
Definition HUMAN_THREAD_VIEW_MAX_BYTES : Z := 128 * 1024.
Definition MAX_SEQ : Z := 9007199254740991.

Inductive HumanThreadViewAction :=
  | HListRecent (limit : option Z) (after : option string)
  | HHistoryRecent (thread_id : string) (before_seq to_seq limit : option Z)
  | HList (limit : option Z) (after_thread_id : option string)
  | HShow (thread_id : string)
  | HHistory (thread_id : string) (from_seq to_seq limit : option Z).
Inductive HumanThreadViewError :=
  | UnsupportedVersion | BindingUnavailable | ProjectMismatch | HThreadUnavailable | InvalidRequest | StorageUnavailable | ResponseTooLarge.
#[export] Instance HumanThreadViewError_eq_dec : EqDecision HumanThreadViewError.
Proof. solve_decision. Defined.
Definition error_detail (e : HumanThreadViewError) : string :=
  match e with
  | UnsupportedVersion => "Version de consultation incompatible."
  | BindingUnavailable => "Liaison T3 indisponible."
  | ProjectMismatch => "Projet T3 indisponible ou différent."
  | HThreadUnavailable => "Fil indisponible pour cette identité."
  | InvalidRequest => "Requête de consultation invalide."
  | StorageUnavailable => "Stockage indisponible."
  | ResponseTooLarge => "Projection supérieure à la limite de consultation."
  end.

Inductive HumanThreadState := HOpen | HClosed.
Record HumanThreadSummary := mkHumanSummary {
  hs_thread_id : string; hs_title : string; hs_creator_id : string; hs_state : HumanThreadState; hs_last_seq : Z;
  hs_members : list HumanThreadMember }.
Record HumanRecentThreadSummary := mkHumanRecent { hr_summary : HumanThreadSummary; hr_last_activity_at : Z }.
Inductive HumanThreadNotifyMode := HNotifyNone | HNotifyTargets | HNotifyAll.
Record HumanThreadEntry := mkHumanEntry {
  he_seq : Z; he_message_id : string; he_author_id : string; he_author_name : option string; he_created_at : Z; he_body : string;
  he_notify : HumanThreadNotifyMode * list string; he_reply_to_seq : option Z; he_kind : option ThreadEntryKind;
  he_supersedes_seq : option Z; he_superseded_by_seq : option Z }.
Inductive HumanThreadViewOutcome :=
  | OListedRecent (threads : list HumanRecentThreadSummary) (next_after : option string)
  | OHistoryRecent (thread_id : string) (through_seq snapshot_seq : Z) (has_more : bool) (next_before_seq : option Z) (entries : list HumanThreadEntry)
  | OListed (threads : list HumanThreadSummary) (next_after : option string)
  | OShown (thread_id title creator_id : string) (st : HumanThreadState) (created_at : Z) (closed_at : option Z) (last_seq : Z)
      (members : list HumanThreadMember)
  | OHistory (thread_id : string) (from_seq through_seq snapshot_seq : Z) (has_more : bool) (next_from_seq : option Z)
      (entries : list HumanThreadEntry)
  | OError (code : HumanThreadViewError) (detail : string) (retryable : bool).
Record HumanThreadViewResult := mkHumanResult {
  hv_version : Z; hv_subject : option HumanThreadMember; hv_result : HumanThreadViewOutcome }.
Definition result_error (e : HumanThreadViewError) : HumanThreadViewResult :=
  mkHumanResult HUMAN_THREAD_VIEW_VERSION None (OError e (error_detail e) (bool_decide (e = StorageUnavailable))).

Definition state_of (closed : bool) : HumanThreadState := if closed then HClosed else HOpen.

(** [serde_json::from_value] of an entry of a page: the body is there, and the class and the mode are known ones. *)
Definition parse_kind (s : string) : option ThreadEntryKind :=
  if bool_decide (s = "history") then Some KHistory else if bool_decide (s = "action") then Some KAction
  else if bool_decide (s = "blocker") then Some KBlocker else if bool_decide (s = "decision") then Some KDecision else None.
Definition parse_mode (s : string) : option HumanThreadNotifyMode :=
  if bool_decide (s = "none") then Some HNotifyNone else if bool_decide (s = "targets") then Some HNotifyTargets
  else if bool_decide (s = "all") then Some HNotifyAll else None.
Definition human_entry (names : string → option string) (e : EntryView) : result HumanThreadViewError HumanThreadEntry :=
  ok_or (
    body ← e.(ev_body);
    mode ← parse_mode e.(ev_notify).1;
    kind ← match e.(ev_kind) with Some s => Some <$> parse_kind s | None => Some None end;
    if is_some e.(ev_presentation) then None
    else Some (mkHumanEntry e.(ev_seq) e.(ev_message_id) e.(ev_author_id) (names e.(ev_author_id)) e.(ev_created_at) body
                 (mode, e.(ev_notify).2) e.(ev_reply_to_seq) kind e.(ev_supersedes_seq) e.(ev_superseded_by_seq)))
    StorageUnavailable.
Fixpoint collect {A B} (f : A → result HumanThreadViewError B) (l : list A) : result HumanThreadViewError (list B) :=
  match l with
  | [] => Ok []
  | x :: l => y ← f x; r ← collect f l; Ok (y :: r)
  end.

Section View.
Context `{U : UuidLib} `{C : ThreadCodec}.
(** The display names of [agent_profiles], and the length of the text of an answer. *)
Context (profile_name : string → option string) (result_len : HumanThreadViewResult → Z).

Definition human_uuid (v : string) : result HumanThreadViewError string := ok_or (canonical_uuid v) InvalidRequest.
Definition human_limit (l : option Z) (d m : Z) : result HumanThreadViewError Z := map_err (λ _, InvalidRequest) (page_limit l d m).
(** The members of threads that are shown, with their names. *)
Definition members_of (db : ThreadDb) (actor : string) (ids : list string) : result HumanThreadViewError (gmap string (list HumanThreadMember)) :=
  map_err (λ _, StorageUnavailable) (thread_members_with_names profile_name db actor ids).

Definition list_recent (db : ThreadDb) (actor : string) (requested : option Z) (after : option string)
    : result HumanThreadViewError HumanThreadViewOutcome :=
  limit ← human_limit requested LIST_DEFAULT LIST_MAX;
  cursor ← match after with
           | Some v => c ← ok_or (parse_recent_cursor v) InvalidRequest; Ok (Some c)
           | None => Ok None
           end;
  let '(threads, next_after) := thread_list_recent db actor limit cursor in
  members ← members_of db actor ((λ t, t.(rt_summary).(ts_thread_id)) <$> threads);
  l ← collect (λ t : RecentThreadSummary,
         if (t.(rt_last_activity_at) <? 0) || (MAX_SEQ <? t.(rt_last_activity_at)) then Err StorageUnavailable
         else
           let s := t.(rt_summary) in
           Ok (mkHumanRecent (mkHumanSummary s.(ts_thread_id) s.(ts_title) s.(ts_creator_id) (state_of s.(ts_closed)) s.(ts_last_seq)
                                (default [] (members !! s.(ts_thread_id)))) t.(rt_last_activity_at))) threads;
  Ok (OListedRecent l next_after).

Definition list_by_id (db : ThreadDb) (actor : string) (requested : option Z) (after : option string)
    : result HumanThreadViewError HumanThreadViewOutcome :=
  limit ← human_limit requested LIST_DEFAULT LIST_MAX;
  after ← match after with Some v => c ← human_uuid v; Ok (Some c) | None => Ok None end;
  let '(threads, next_after) := thread_list db actor limit after in
  members ← members_of db actor (ts_thread_id <$> threads);
  Ok (OListed ((λ s, mkHumanSummary s.(ts_thread_id) s.(ts_title) s.(ts_creator_id) (state_of s.(ts_closed)) s.(ts_last_seq)
                       (default [] (members !! s.(ts_thread_id)))) <$> threads) next_after).

Definition show_thread (db : ThreadDb) (actor thread_id : string) : result HumanThreadViewError HumanThreadViewOutcome :=
  t ← human_uuid thread_id;
  view ← map_err (λ _, HThreadUnavailable) (thread_show db actor t);
  grouped ← members_of db actor [t];
  let th := view.(tv_thread) in
  Ok (OShown t th.(th_title) th.(th_creator_id) (state_of (is_some th.(th_closed_at))) th.(th_created_at) th.(th_closed_at) th.(th_last_seq)
        (default [] (grouped !! t))).

(** The page of a history, and the entries with the names of their authors. *)
Definition history_entries (db : ThreadDb) (actor t : string) (o : HistoryOutcome) : result HumanThreadViewError (Page * list HumanThreadEntry) :=
  page ← match o with
         | HistoryPage p => Ok p
         | HistoryRefused RangeUnavailable => Err InvalidRequest
         | HistoryRefused _ => Err HThreadUnavailable
         end;
  grouped ← members_of db actor [t];
  let named := default [] (grouped !! t) in
  let author a := m ← find_first (λ m, bool_decide (m.(hm_agent_id) = a)) named; m.(hm_name) in
  entries ← collect (human_entry author) page.(pg_entries);
  Ok (page, entries).
Definition history_up (db : ThreadDb) (actor thread_id : string) (from_seq to_seq requested : option Z)
    : result HumanThreadViewError HumanThreadViewOutcome :=
  t ← human_uuid thread_id;
  limit ← human_limit requested PAGE_DEFAULT PAGE_MAX;
  let from_ := default 1 from_seq in
  if (from_ =? 0) || (MAX_SEQ <? from_) || is_some_and to_seq (λ n, (MAX_SEQ <? n) || (u64_saturating_add n 1 <? from_)) then Err InvalidRequest
  else
    '(page, entries) ← history_entries db actor t (thread_history db actor t from_ to_seq limit ENTRY_MAX_JSON_BYTES);
    Ok (OHistory t from_ page.(pg_through_seq) page.(pg_snapshot_seq) page.(pg_has_more)
          (then_some page.(pg_has_more) (page.(pg_through_seq) + 1)) entries).
Definition history_down (db : ThreadDb) (actor thread_id : string) (before_seq to_seq requested : option Z)
    : result HumanThreadViewError HumanThreadViewOutcome :=
  t ← human_uuid thread_id;
  limit ← human_limit requested PAGE_DEFAULT PAGE_MAX;
  if is_some_and before_seq (λ n, MAX_SEQ <? n) || is_some_and to_seq (λ n, MAX_SEQ <? n) then Err InvalidRequest
  else
    '(page, entries) ← history_entries db actor t (thread_history_recent db actor t before_seq to_seq limit ENTRY_MAX_JSON_BYTES);
    Ok (OHistoryRecent t page.(pg_through_seq) page.(pg_snapshot_seq) page.(pg_has_more)
          (if page.(pg_has_more) then (λ e, e.(he_seq) - 1) <$> last entries else None) entries).

Definition human_view (db : ThreadDb) (actor : string) (a : HumanThreadViewAction) : HumanThreadViewResult :=
  let r :=
    result ← match a with
             | HListRecent limit after => list_recent db actor limit after
             | HList limit after => list_by_id db actor limit after
             | HShow t => show_thread db actor t
             | HHistory t from_ to_ limit => history_up db actor t from_ to_ limit
             | HHistoryRecent t before to_ limit => history_down db actor t before to_ limit
             end;
    let projection := mkHumanResult HUMAN_THREAD_VIEW_VERSION (Some (mkHumanMember actor (profile_name actor))) result in
    if HUMAN_THREAD_VIEW_MAX_BYTES <? result_len projection then Err ResponseTooLarge else Ok projection in
  match r with Ok p => p | Err e => result_error e end.

End View.

(** ** A history is read as of one moment *)

Section Snapshot.
Context `{C : ThreadCodec}.

(** The one entry that replaces another, up to a bound. *)
Lemma successor_spec db t n bound x :
  threads_ok db → successor db t n bound = Some x ↔ ∃ e, db.(entries) !! (t, x) = Some e ∧ e.(en_supersedes_seq) = Some n ∧ x ≤ bound.
Proof.
  intros Hok. unfold successor. split.
  - intros ([[t' x'] e] & Hs & ->)%fmap_Some. apply select_one_Some in Hs as [Hin Hp]. apply elem_of_map_to_list in Hin.
    simpl in *. rewrite !andb_true_iff, !bool_decide_eq_true in Hp. destruct Hp as [[-> ?] ?]. exists e. split_and!; [done..|lia].
  - intros (e & He & Hs & Hb). destruct (select_one _ _) as [[[t' x'] e']|] eqn:Hsel.
    + apply select_one_Some in Hsel as [Hin Hp]. apply elem_of_map_to_list in Hin.
      simpl in *. rewrite !andb_true_iff, !bool_decide_eq_true in Hp. destruct Hp as [[-> Hs'] _]. simpl. f_equal.
      destruct (ok_entries _ Hok _ _ _ He) as ([_ Hr] & _). destruct (Hr n Hs) as (_ & _ & _ & Hu). by eapply Hu.
    + pose proof (select_one_None _ (t, x, e) _ Hsel) as Hno. simpl in Hno.
      rewrite !bool_decide_eq_true_2 in Hno by done. simpl in Hno. exfalso. assert ((x <=? bound) = false); [|lia]. apply Hno. by apply elem_of_map_to_list.
Qed.

(** Two tables that agree on the entries of a thread up to a number. *)
Definition agree_upto (db db' : ThreadDb) (t : string) (snap : Z) : Prop := ∀ n, n ≤ snap → db.(entries) !! (t, n) = db'.(entries) !! (t, n).
Lemma kept_agree db db' t th : threads_ok db → threads_ok db' → kept db db' → db.(threads) !! t = Some th → agree_upto db db' t th.(th_last_seq).
Proof.
  intros Hok Hok' [He _ Ht _] Hth n Hn. destruct (db.(entries) !! (t, n)) as [e|] eqn:Hen; [by rewrite (lookup_weaken _ _ _ _ Hen He)|].
  destruct (db'.(entries) !! (t, n)) as [e|] eqn:Hen'; [|done]. destruct (ok_entries _ Hok' _ _ _ Hen') as (_ & _ & th' & Hth' & ?).
  destruct (ok_threads _ Hok _ _ Hth) as (_ & _ & _ & Hall). destruct (Hall n) as [x Hx]; [lia|congruence].
Qed.

Lemma agree_successor db db' t n bound snap :
  threads_ok db → threads_ok db' → agree_upto db db' t snap → bound ≤ snap → successor db t n bound = successor db' t n bound.
Proof.
  intros Hok Hok' Ha Hb. apply option_eq. intros x. rewrite !successor_spec by done.
  split; intros (e & He & Hs & Hx); exists e; (split; [|done]); [rewrite <-Ha by lia|rewrite Ha by lia]; done.
Qed.
Lemma agree_view db db' t snap bound p kv :
  threads_ok db → threads_ok db' → agree_upto db db' t snap → bound ≤ snap → entry_view db t bound p kv = entry_view db' t bound p kv.
Proof. intros Hok Hok' Ha Hb. unfold entry_view. by rewrite (agree_successor db db' t kv.1 bound snap). Qed.
Lemma agree_rows db db' t snap x y : agree_upto db db' t snap → y ≤ snap → rows_between db t x y = rows_between db' t x y.
Proof.
  intros Ha Hy. unfold rows_between. assert (∀ n, n ∈ seqZ x (y - x + 1) → n ≤ snap) as Hin by (intros n ?%elem_of_seqZ; lia).
  induction (seqZ _ _) as [|n l IH]; [done|]. simpl. rewrite (Ha n) by (apply Hin; left).
  destruct (db'.(entries) !! (t, n)); simpl; [f_equal|]; apply IH; intros m ?; apply Hin; by right.
Qed.
Lemma agree_range db db' t th th' snap from_ to_ limit budget recent :
  threads_ok db → threads_ok db' → agree_upto db db' t snap → db.(threads) !! t = Some th → db'.(threads) !! t = Some th' →
  snap ≤ th.(th_last_seq) → snap ≤ th'.(th_last_seq) → 1 ≤ from_ ≤ i64_max → 0 ≤ to_ ≤ snap → is_none_or recent (λ r, 0 <=? r) = true → is_none_or recent (λ r, r <=? snap) = true →
  read_range_ordered db t from_ to_ limit budget None recent = read_range_ordered db' t from_ to_ limit budget None recent.
Proof.
  intros Hok Hok' Ha Hth Hth' Hs Hs' Hf Hto Hr0 Hr. unfold read_range_ordered. destruct (_ || _); [done|].
  destruct (ok_threads _ Hok _ _ Hth) as (Hl & _), (ok_threads _ Hok' _ _ Hth') as (Hl' & _). pose proof limits_positive.
  set (bound := wrap_i64 _). assert (bound ≤ snap) as Hb.
  { unfold bound. destruct recent as [r|]; simpl in *; rewrite wrap_i64_id; unfold i64_min, i64_max in *; lia. }
  assert (range_rows db t from_ to_ (is_some recent) = range_rows db' t from_ to_ (is_some recent)) as ->.
  { destruct (range_rows_exact db t th from_ to_ Hok Hth) as [E1 E2]; [lia..|].
    destruct (range_rows_exact db' t th' from_ to_ Hok' Hth') as [E1' E2']; [lia..|].
    destruct recent; simpl; rewrite ?E1, ?E2, ?E1', ?E2', (agree_rows db db' t snap) by (done || lia); done. }
  f_equal. apply list_fmap_ext. intros i kv _. by apply (agree_view _ _ _ snap).
Qed.

(** The numbers of a page are those of its range. *)
Lemma page_numbers db t th from_ to_ limit budget recent n :
  threads_ok db → db.(threads) !! t = Some th → 1 ≤ from_ ≤ i64_max → 0 ≤ to_ ≤ th.(th_last_seq) →
  last_seq_of (read_range_ordered db t from_ to_ limit budget None recent) = Some n → from_ ≤ n ≤ to_.
Proof.
  intros Hok Hth Hf Hto. unfold read_range_ordered. destruct (_ || _); [done|]. unfold last_seq_of. intros (v & Hv & ->)%fmap_Some.
  apply last_Some_elem_of in Hv. set (l := _ <$> take _ _) in Hv. destruct (cut_page_prefix budget l 0 true) as (k & Hk & _). rewrite Hk in Hv.
  apply elem_of_take in Hv as (i & Hv & _). apply list_elem_of_lookup_2 in Hv. unfold l in Hv. apply list_elem_of_fmap in Hv as ([m e] & -> & Hv).
  apply elem_of_take in Hv as (j & Hv & _). apply list_elem_of_lookup_2 in Hv.
  assert ((m, e) ∈ rows_between db t from_ to_) as Hr.
  { destruct (range_rows_exact db t th from_ to_ Hok Hth) as [E1 E2]; [lia..|].
    destruct recent; simpl in Hv; rewrite ?E1, ?E2, ?elem_of_reverse in Hv; done. }
  apply rows_between_elem in Hr as [_ Hr]. simpl. rewrite u64_of_id by lia. done.
Qed.
Lemma agree_before db db' t snap n :
  agree_upto db db' t snap → n ≤ snap →
  exists_row (λ kv : string * Z * EntryRow, bool_decide (kv.1.1 = t) && (kv.1.2 <? n)) (map_to_list db.(entries)) =
  exists_row (λ kv : string * Z * EntryRow, bool_decide (kv.1.1 = t) && (kv.1.2 <? n)) (map_to_list db'.(entries)).
Proof.
  intros Ha Hn. apply eq_true_iff_eq. rewrite !exists_row_true. split; intros ([[t' k] e] & Hin & Hp); apply elem_of_map_to_list in Hin;
    simpl in Hp; rewrite andb_true_iff, bool_decide_eq_true in Hp; destruct Hp as [-> Hk]; exists (t, k, e); (split; [apply elem_of_map_to_list|simpl; by rewrite bool_decide_eq_true_2]).
  - rewrite <-Ha by lia. done.
  - rewrite Ha by lia. done.
Qed.

Lemma load_for_member_in db t a th m :
  threads_ok db → db.(threads) !! t = Some th → db.(members) !! (t, a) = Some m → ∃ m', load_thread_for_member db t a = Ok (th, m').
Proof.
  intros Hok Hth Hm. unfold load_thread_for_member. rewrite load_thread_ok, Hth by done.
  destruct (load_member_acked db t a m Hok Hm) as (m' & -> & _). eauto.
Qed.

Section Laws.
Context {L : ThreadLaws C}.

(** Pages of a history asked for up to one number are those of one moment: whatever is posted, replaced, read, confirmed or closed
    between two requests, upwards or from the end, the page is the one the thread had when that number was its last. *)
Lemma history_snapshot_stable ops1 ops2 b1 fx1 b2 fx2 actor t th m snap from_ before limit budget :
  Forall op_typed (ops1 ++ ops2) → thread_run no_threads ops1 = (b1, fx1) → thread_run b1 ops2 = (b2, fx2) →
  b1.(bd_db).(threads) !! t = Some th → b1.(bd_db).(members) !! (t, actor) = Some m →
  0 ≤ snap ≤ th.(th_last_seq) → 1 ≤ from_ ≤ i64_max → is_none_or before (λ n, 0 <=? n) = true →
  agree_upto b1.(bd_db) b2.(bd_db) t snap ∧
  thread_history b1.(bd_db) actor t from_ (Some snap) limit budget = thread_history b2.(bd_db) actor t from_ (Some snap) limit budget ∧
  thread_history_recent b1.(bd_db) actor t before (Some snap) limit budget = thread_history_recent b2.(bd_db) actor t before (Some snap) limit budget.
Proof using L.
  intros [Ht1 Ht2]%Forall_app H1 H2 Hth Hm Hs Hf Hbf. destruct no_threads_ok as [Hok0 Htr0]. eapply run_traced in H1 as [Hok1 Htr1]; [|done..].
  pose proof H2 as H2'. eapply run_traced in H2' as [Hok2 _]; [|done..]. eapply run_kept in H2; [|done..].
  pose proof (kept_agree _ _ t th Hok1 Hok2 H2 Hth) as Ha. destruct (kp_threads _ _ H2 t th Hth) as (th' & Hth' & _ & _ & _ & Hle & _).
  destruct (kp_members _ _ H2 _ m Hm) as (m' & Hm' & _).
  destruct (load_for_member_in _ _ _ _ _ Hok1 Hth Hm) as (mm & Hl), (load_for_member_in _ _ _ _ _ Hok2 Hth' Hm') as (mm' & Hl').
  unfold thread_history, thread_history_recent. rewrite Hl, Hl'. simpl.
  replace (th_last_seq th <? snap) with false by lia. replace (th_last_seq th' <? snap) with false by lia.
  assert (agree_upto b1.(bd_db) b2.(bd_db) t snap) as Ha' by (intros n ?; apply Ha; lia). split; [done|split].
  - unfold read_range. by rewrite (agree_range _ b2.(bd_db) t th th' snap) by (done || lia).
  - set (through := Z.min _ _). assert (0 ≤ through ≤ snap) by (unfold through; destruct before; simpl in *; lia).
    rewrite (agree_range _ b2.(bd_db) t th th' snap) by (done || simpl; lia).
    destruct (last_seq_of _) as [n|] eqn:Hn; [|done]. destruct (ok_threads _ Hok2 _ _ Hth') as (Hb & _). pose proof limits_positive.
    apply (page_numbers _ t th') in Hn; [|done|done|unfold i64_max; lia|lia]. do 2 f_equal. apply (agree_before _ _ _ snap); [done|].
    rewrite wrap_i64_id; [lia|]. unfold i64_min, i64_max in *. lia.
Qed.

End Laws.
End Snapshot.

Module HumanExamples.
Import ThreadExamples.
#[local] Existing Instance bits_codec.

(** The first entry, before and after the second one was posted. *)
Lemma history_snapshot_stable_witness :
  let b1 := (thread_run no_threads (take 3 talk)).1 in let b2 := (thread_run b1 (drop 3 talk)).1 in
  agree_upto b1.(bd_db) b2.(bd_db) "t" 1 ∧
  thread_history b1.(bd_db) "bob" "t" 1 (Some 1) 10 1000 = thread_history b2.(bd_db) "bob" "t" 1 (Some 1) 10 1000 ∧
  thread_history_recent b1.(bd_db) "bob" "t" None (Some 1) 10 1000 = thread_history_recent b2.(bd_db) "bob" "t" None (Some 1) 10 1000.
Proof.
  intros b1 b2.
  apply (history_snapshot_stable (L := bits_laws) (take 3 talk) (drop 3 talk) b1 (thread_run no_threads (take 3 talk)).2 b2 (thread_run b1 (drop 3 talk)).2
    "bob" "t" (mkThread "ann" "plan" 10 None 1 5) (mkMember 0 None None) 1 1 None 10 1000); [exact talk_typed|apply surjective_pairing..|by vm_compute|by vm_compute|simpl; lia|unfold i64_max; lia|done].
Defined.
End HumanExamples.
