(* ===== verification/WakeCalendar.v ===== *)
(** * WakeCalendar: the rules of [bridget-daemon/src/wake_schedules.rs]

    A wake schedule has an owner, a target, a cadence (an interval in seconds,
    or a time of day on chosen weekdays) and at most one frozen occurrence.
    [calculate_cadence] reads the civil calendar of the daemon and gives the
    occurrence that is due, if any, and the next one.  The calendar functions
    of the C library are an argument ([CivilLib]) whose documented behaviour is
    [CivilLaws]; so are the JSON text of an occurrence ([WakeCodec]) and the
    description of the local zone that the fingerprint is made of.  The second
    half proves the properties of the cadence on any calendar, and ends with a
    Gregorian calendar with two offsets on which the examples run. *)

From Stdlib Require Import Ascii.
From S2P Require Import Prelude Text Uuid Communication ThreadStore Threads.
Local Open Scope Z_scope.

(** ** Data *)

(** [WakeTarget] and [WakeCadence] of [protocol.rs]. *)
Inductive WakeTarget := SelfTarget | AgentTarget (id : string) | ThreadTarget (id : string).
#[export] Instance WakeTarget_eq_dec : EqDecision WakeTarget.
Proof. solve_decision. Defined.

Inductive WakeCadence := Interval (seconds : Z) | AtTime (time : string) (weekdays : list Z).
#[export] Instance WakeCadence_eq_dec : EqDecision WakeCadence.
Proof. solve_decision. Defined.
(** [matches!(cadence, WakeCadence::At { .. })]. *)
Definition is_at (c : WakeCadence) : bool := match c with AtTime _ _ => true | Interval _ => false end.

Inductive WakeSource := Scheduled | CliOnce | MissedSummary.
#[export] Instance WakeSource_eq_dec : EqDecision WakeSource.
Proof. solve_decision. Defined.

Inductive WakePhase :=
  | WPrepared
  | WDeferred
  | WDispatchingAgent
  | WCommittedThread
  | WConfirmed
  | WOutcomeUnknown
  | WMissedBeforeDeparture
  | WOwnerUnavailable.
#[export] Instance WakePhase_eq_dec : EqDecision WakePhase.
Proof. solve_decision. Defined.

Definition terminal (p : WakePhase) : bool :=
  match p with
  | WCommittedThread | WConfirmed | WOutcomeUnknown | WMissedBeforeDeparture | WOwnerUnavailable => true
  | WPrepared | WDeferred | WDispatchingAgent => false
  end.

(** The names of [rename_all = "snake_case"]. *)
Definition phase_name (p : WakePhase) : string :=
  match p with
  | WPrepared => "prepared" | WDeferred => "deferred" | WDispatchingAgent => "dispatching_agent"
  | WCommittedThread => "committed_thread" | WConfirmed => "confirmed" | WOutcomeUnknown => "outcome_unknown"
  | WMissedBeforeDeparture => "missed_before_departure" | WOwnerUnavailable => "owner_unavailable"
  end.

Record NativeWakeOrigin := mkNative { nw_task_id : string; nw_instance_id : string; nw_mission : string }.
#[export] Instance NativeWakeOrigin_eq_dec : EqDecision NativeWakeOrigin.
Proof. solve_decision. Defined.

Record FrozenWake := mkFrozen {
  fw_version : Z;
  fw_source : WakeSource;
  fw_target : WakeTarget;
  fw_owner : string;
  fw_owner_project : option CommunicationProject;
  fw_owner_native : option NativeWakeOrigin;
  fw_due_at : Z;
  fw_issued_at : Z;
  fw_grace_until : Z;
  fw_id : string;
  fw_label : string;
  fw_body : string;
  (** Not serialised: computed again when the occurrence is read. *)
  fw_canonical_bytes : string;
  fw_thread_operation_id : option string;
  fw_delivery_id : option string;
  fw_phase : WakePhase }.
#[export] Instance FrozenWake_eq_dec : EqDecision FrozenWake.
Proof. solve_decision. Defined.

Definition fw_with (bytes : string) (delivery : option string) (phase : WakePhase) (w : FrozenWake) : FrozenWake :=
  mkFrozen w.(fw_version) w.(fw_source) w.(fw_target) w.(fw_owner) w.(fw_owner_project) w.(fw_owner_native)
    w.(fw_due_at) w.(fw_issued_at) w.(fw_grace_until) w.(fw_id) w.(fw_label) w.(fw_body) bytes
    w.(fw_thread_operation_id) delivery phase.
Definition with_wake_phase (p : WakePhase) (w : FrozenWake) : FrozenWake :=
  fw_with w.(fw_canonical_bytes) w.(fw_delivery_id) p w.
Definition with_wake_bytes (b : string) (w : FrozenWake) : FrozenWake := fw_with b w.(fw_delivery_id) w.(fw_phase) w.

Record WakeSchedule := mkSchedule {
  ws_schedule_id : string;
  ws_owner : string;
  ws_owner_project : option CommunicationProject;
  ws_owner_native : option NativeWakeOrigin;
  ws_target : WakeTarget;
  ws_cadence : WakeCadence;
  ws_label : string;
  ws_anchor_at : Z;
  ws_next_at : Z;
  ws_timezone : string;
  ws_next_calendar_date : option string;
  ws_previous_calendar_date : option string;
  ws_occurrence : option FrozenWake;
  ws_cancelled_at : option Z }.
#[export] Instance WakeSchedule_eq_dec : EqDecision WakeSchedule.
Proof. solve_decision. Defined.

Record CalendarSnapshot := mkSnapshot {
  cs_fingerprint : string;
  cs_next_at : Z;
  cs_due_at : option Z;
  cs_calendar_date : option string;
  cs_next_calendar_date : option string }.

(** ** The canonical text of an occurrence *)

(** [serde_json::to_vec] and [from_slice] of a [FrozenWake]. *)
Class WakeCodec := {
  wake_to_vec : FrozenWake → string;
  wake_from_slice : string → option FrozenWake }.
Class WakeLaws (W : WakeCodec) := {
  wake_roundtrip w : wake_from_slice (wake_to_vec w) = Some (with_wake_bytes "" w) }.

Definition LABEL_MAX : nat := 2048.
Definition GRACE_SECS : Z := 600.

Definition freeze_canonical `{WakeCodec} (w : FrozenWake) : result string FrozenWake :=
  if negb (w.(fw_version) =? 1) || (LABEL_MAX <? String.length w.(fw_label))%nat
     || negb (w.(fw_grace_until) =? i64_saturating_add w.(fw_due_at) GRACE_SECS)
  then Err "invalid_request"
  else Ok (with_wake_bytes (wake_to_vec (fw_with w.(fw_canonical_bytes) None WPrepared w)) w).

(** ** Validation *)

(** The bytes of [HH:MM], read as two numbers. *)
Definition clock_bytes (time : string) : option (Z * Z) :=
  match time with
  | String a (String b (String c (String d (String e EmptyString)))) =>
    if negb (bool_decide (c = ":"%char)) then None
    else
      h1 ← Str.digit a; h2 ← Str.digit b; m1 ← Str.digit d; m2 ← Str.digit e;
      Some (h1 * 10 + h2, m1 * 10 + m2)
  | _ => None
  end.

Section Validation.
Context `{U : UuidLib}.

Definition target_valid (t : WakeTarget) : bool :=
  match t with
  | SelfTarget => true
  | AgentTarget i | ThreadTarget i => bool_decide (canonical_uuid i = Some i)
  end.

Definition cadence_valid (c : WakeCadence) : bool :=
  match c with
  | Interval seconds => (60 <=? seconds) && (seconds <=? i64_max)
  | AtTime time weekdays =>
    match clock_bytes time with
    | None => false
    | Some (hour, minute) =>
      negb ((23 <? hour) || (59 <? minute) || bool_decide (weekdays = []) || (7 <? length weekdays)%nat
            || existsb (λ d, negb ((1 <=? d) && (d <=? 7))) weekdays || negb (bool_decide (NoDup weekdays)))
    end
  end.

Definition validate_schedule (s : WakeSchedule) : result string () :=
  if negb (is_some (parse_str s.(ws_schedule_id))) || bool_decide (s.(ws_owner) = "")
     || (LABEL_MAX <? String.length s.(ws_label))%nat
  then Err "invalid_request"
  else if negb (target_valid s.(ws_target)) then Err "invalid_request"
  else ensure (cadence_valid s.(ws_cadence)) "invalid_request".
End Validation.

(** ** The civil calendar *)

(** [libc::tm], whose zone name is [None] when it is null or not UTF-8. *)
Record Tm := mkTm {
  tm_year : Z; tm_mon : Z; tm_mday : Z; tm_hour : Z; tm_min : Z; tm_sec : Z;
  tm_wday : Z; tm_isdst : Z; tm_gmtoff : Z; tm_zone : option string }.

Definition tm_at (h m s : Z) (t : Tm) : Tm :=
  mkTm t.(tm_year) t.(tm_mon) t.(tm_mday) h m s t.(tm_wday) t.(tm_isdst) t.(tm_gmtoff) t.(tm_zone).
Definition tm_utc (t : Tm) : Tm :=
  mkTm t.(tm_year) t.(tm_mon) t.(tm_mday) t.(tm_hour) t.(tm_min) t.(tm_sec) t.(tm_wday) 0 t.(tm_gmtoff) t.(tm_zone).

(** The fields of a civil date and time. *)
Definition civil (t : Tm) : Z * Z * Z * Z * Z * Z :=
  (t.(tm_year), t.(tm_mon), t.(tm_mday), t.(tm_hour), t.(tm_min), t.(tm_sec)).

(** [localtime_r], [gmtime_r] and [timegm] of the C library. *)
Class CivilLib := {
  localtime_r : Z → option Tm;
  gmtime_r : Z → option Tm;
  timegm : Tm → Z }.
(** [timegm] reads the six civil fields only, and counts the seconds of the
    local reading of an instant as its offset says. *)
Class CivilLaws (L : CivilLib) := {
  timegm_civil t t' : civil t = civil t' → timegm t = timegm t';
  timegm_local e t : localtime_r e = Some t → timegm t = e + t.(tm_gmtoff) }.

(** The day of the week is that of the date: two readings of the same date agree. *)
Class WeekdayLaw (L : CivilLib) := {
  weekday_of_date e e' t t' : localtime_r e = Some t → gmtime_r e' = Some t' →
    (t.(tm_year), t.(tm_mon), t.(tm_mday)) = (t'.(tm_year), t'.(tm_mon), t'.(tm_mday)) → t.(tm_wday) = t'.(tm_wday) }.

(** What names the zone: the variable [TZ], not UTF-8 when [None], or the file
    [/etc/localtime], [None] when it cannot be read. *)
Record LocaltimeFile := mkLocaltime {
  lt_target : option string;
  lt_ino : Z; lt_mtime : Z; lt_mtime_nsec : Z;
  lt_actual_ino : Z; lt_actual_mtime : Z; lt_actual_mtime_nsec : Z; lt_actual_len : Z }.
Inductive ZoneSource := ZoneEnv (value : option string) | ZoneFile (file : option LocaltimeFile).

Definition calendar_unavailable : string := "calendar_unavailable".

(** [{:0width}] of an integer. *)
Fixpoint zeros (n : nat) : string := match n with O => "" | S n => "0" +:+ zeros n end.
Definition padded (width : nat) (z : Z) : string :=
  if z <? 0 then let d := pretty (- z) in "-" +:+ zeros (width - 1 - String.length d) +:+ d
  else let d := pretty z in zeros (width - String.length d) +:+ d.

(** [str::parse::<i32>]. *)
Definition parse_i32 (s : string) : option Z := opt_filter (λ z, (i32_min <=? z) && (z <=? i32_max)) (Str.parse_i64 s).

Section Calendar.
Context `{U : UuidLib} `{L : CivilLib} (sha256_hex : string → string).

Definition local (epoch : Z) : result string Tm :=
  civil ← ok_or (localtime_r epoch) calendar_unavailable;
  if (86400 <? Z.abs civil.(tm_gmtoff)) || negb (Z.rem civil.(tm_gmtoff) 60 =? 0)
  then Err calendar_unavailable else Ok civil.

Definition configured (z : ZoneSource) : result string string :=
  match z with
  | ZoneEnv value => v ← ok_or value calendar_unavailable; Ok ("env:" +:+ v)
  | ZoneFile file =>
    f ← ok_or file calendar_unavailable;
    target ← ok_or f.(lt_target) calendar_unavailable;
    Ok ("file:" +:+ target +:+ ":" +:+ pretty f.(lt_ino) +:+ ":" +:+ pretty f.(lt_mtime) +:+ ":" +:+ pretty f.(lt_mtime_nsec)
        +:+ ":" +:+ pretty f.(lt_actual_ino) +:+ ":" +:+ pretty f.(lt_actual_mtime) +:+ ":" +:+ pretty f.(lt_actual_mtime_nsec)
        +:+ ":" +:+ pretty f.(lt_actual_len))
  end.

Definition timezone_fingerprint (z : ZoneSource) (now : Z) : result string string :=
  civil ← local now;
  zone ← ok_or civil.(tm_zone) calendar_unavailable;
  c ← configured z;
  Ok (zone +:+ ":" +:+ pretty civil.(tm_gmtoff) +:+ ":" +:+ sha256_hex c).

Definition date (t : Tm) : string :=
  padded 4 (t.(tm_year) + 1900) +:+ "-" +:+ padded 2 (t.(tm_mon) + 1) +:+ "-" +:+ padded 2 t.(tm_mday).

(** The civil reading the loop looks for. *)
Definition reads_as (day : Tm) (hour minute : Z) (c : Tm) : bool :=
  (c.(tm_year) =? day.(tm_year)) && (c.(tm_mon) =? day.(tm_mon)) && (c.(tm_mday) =? day.(tm_mday))
  && (c.(tm_hour) =? hour) && (c.(tm_min) =? minute) && (c.(tm_sec) =? 0).

Fixpoint first_civil_from (day : Tm) (hour minute center : Z) (steps : list Z) : result string (option Z) :=
  match steps with
  | [] => Ok None
  | step :: steps =>
    epoch ← ok_or (i64_checked_add center (step * 60)) calendar_unavailable;
    candidate ← local epoch;
    if reads_as day hour minute candidate then Ok (Some epoch) else first_civil_from day hour minute center steps
  end.
Definition first_civil_epoch (day : Tm) (hour minute : Z) : result string (option Z) :=
  first_civil_from day hour minute (timegm (tm_utc (tm_at hour minute 0 day))) (seqZ (-1440) 2881).

(** The arm of the intervals; [step] is the number of seconds. *)
Definition interval_snapshot (s : WakeSchedule) (step now : Z) (fingerprint : string) : result string CalendarSnapshot :=
  passed ← ok_or (i64_checked_sub now s.(ws_anchor_at)) calendar_unavailable;
  whole ← ok_or (i64_checked_mul (passed / step) step) calendar_unavailable;
  last ← ok_or (i64_checked_add s.(ws_anchor_at) whole) calendar_unavailable;
  next ← ok_or (i64_checked_add last step) calendar_unavailable;
  Ok (mkSnapshot fingerprint next (then_some ((s.(ws_next_at) <=? last) && (last <=? now)) last) None None).

(** [tm_wday] counts from Sunday, [weekdays] from Monday. *)
Definition weekday_of (day : Tm) : Z := if day.(tm_wday) =? 0 then 7 else day.(tm_wday).

(** The loop on the days: what is due, and the next one when it is found. *)
Fixpoint at_days (s : WakeSchedule) (weekdays : list Z) (hour minute base now : Z) (offsets : list Z) (due : option (Z * string))
    : result string (option (Z * string) * option (Z * string)) :=
  match offsets with
  | [] => Ok (due, None)
  | offset :: offsets =>
    epoch ← ok_or (i64_checked_add base (offset * 86400)) calendar_unavailable;
    day ← ok_or (gmtime_r epoch) calendar_unavailable;
    if negb (bool_decide (weekday_of day ∈ weekdays)) || bool_decide (s.(ws_previous_calendar_date) = Some (date day))
    then at_days s weekdays hour minute base now offsets due
    else
      found ← first_civil_epoch day hour minute;
      match found with
      | None => at_days s weekdays hour minute base now offsets due
      | Some candidate =>
        if candidate <=? now then
          at_days s weekdays hour minute base now offsets
            (if (s.(ws_next_at) <=? candidate) && (i64_saturating_sub now candidate <=? GRACE_SECS) && negb (is_some due)
             then Some (candidate, date day) else due)
        else Ok (due, Some (candidate, date day))
      end
  end.

(** The occurrence computed earlier stays due for its grace. *)
Definition already_due (s : WakeSchedule) (now : Z) : option (Z * string) :=
  if (s.(ws_next_at) <=? now) && (i64_saturating_sub now s.(ws_next_at) <=? GRACE_SECS) then
    d ← s.(ws_next_calendar_date);
    if negb (bool_decide (s.(ws_previous_calendar_date) = Some d)) then Some (s.(ws_next_at), d) else None
  else None.

(** The arm of the times of day; [after] is the zone when the loop ends. *)
Definition at_snapshot (s : WakeSchedule) (time : string) (weekdays : list Z) (now : Z) (fingerprint : string) (after : ZoneSource)
    : result string CalendarSnapshot :=
  hour ← ok_or (parse_i32 (String.substring 0 2 time)) "invalid_request";
  minute ← ok_or (parse_i32 (String.substring 3 (String.length time - 3) time)) "invalid_request";
  today ← local now;
  '(due, next) ← at_days s weekdays hour minute (timegm (tm_at 0 0 0 today)) now (seqZ 0 8) (already_due s now);
  '(next_at, next_date) ← ok_or next calendar_unavailable;
  again ← timezone_fingerprint after now;
  if negb (bool_decide (again = fingerprint)) then Err calendar_unavailable
  else Ok (mkSnapshot fingerprint next_at (fst <$> due) (snd <$> due) (Some next_date)).

(** [before] and [after] are the zone as the two fingerprints read it. *)
Definition calculate_cadence (before after : ZoneSource) (s : WakeSchedule) (now : Z) : result string CalendarSnapshot :=
  _ ← validate_schedule s;
  fingerprint ← timezone_fingerprint before now;
  match s.(ws_cadence) with
  | Interval seconds => interval_snapshot s seconds now fingerprint
  | AtTime time weekdays => at_snapshot s time weekdays now fingerprint after
  end.
End Calendar.

(** ** The cadence on any calendar *)

Section CadenceFacts.
Context `{U : UuidLib} `{L : CivilLib} (sha256_hex : string → string).

Lemma validated_cadence s : validate_schedule s = Ok () → cadence_valid s.(ws_cadence) = true.
Proof.
  unfold validate_schedule. destruct (_ || _ || _); [done|]. destruct (negb _); [done|]. apply ensure_Ok.
Qed.

(** An interval: the multiples of the step around [now]. *)
Lemma interval_snapshot_Ok s step now f c :
  0 < step → interval_snapshot s step now f = Ok c →
  ∃ k, c.(cs_next_at) = s.(ws_anchor_at) + (k + 1) * step ∧
       s.(ws_anchor_at) + k * step ≤ now < s.(ws_anchor_at) + (k + 1) * step ∧
       c.(cs_due_at) = then_some (s.(ws_next_at) <=? s.(ws_anchor_at) + k * step) (s.(ws_anchor_at) + k * step).
Proof.
  unfold interval_snapshot. intros Hs H.
  apply bind_Ok in H as (p & [-> _]%ok_or_Ok%i64_checked_Some & H).
  apply bind_Ok in H as (w & [-> _]%ok_or_Ok%i64_checked_Some & H).
  apply bind_Ok in H as (l & [-> _]%ok_or_Ok%i64_checked_Some & H).
  apply bind_Ok in H as (n & [-> _]%ok_or_Ok%i64_checked_Some & [= <-]).
  exists ((now - s.(ws_anchor_at)) / step). cbn [cs_next_at cs_due_at].
  pose proof (Z.div_mod (now - s.(ws_anchor_at)) step ltac:(lia)).
  pose proof (Z.mod_pos_bound (now - s.(ws_anchor_at)) step Hs).
  split_and!; [lia..|]. rewrite (proj2 (Z.leb_le _ now)), andb_true_r by lia. done.
Qed.

(** What a day contributes to what is due. *)
Definition timely (s : WakeSchedule) (now : Z) (d : Z * string) : Prop :=
  s.(ws_next_at) ≤ d.1 ≤ now ∧ now - d.1 ≤ GRACE_SECS ∧ s.(ws_previous_calendar_date) ≠ Some d.2.

Lemma grace_le now e : e ≤ now → i64_saturating_sub now e ≤ GRACE_SECS → now - e ≤ GRACE_SECS.
Proof. unfold GRACE_SECS. unfold_ints. lia. Qed.

Lemma already_due_timely s now d : already_due s now = Some d → timely s now d.
Proof.
  unfold already_due. destruct (_ && _) eqn:E; [|done]. apply andb_true_iff in E as [H1%Z.leb_le H2%Z.leb_le].
  destruct s.(ws_next_calendar_date) as [x|]; [|done]. simpl. destruct (negb _) eqn:E; [|done].
  intros [= <-]. apply negb_true_iff, bool_decide_eq_false in E. apply grace_le in H2; [|done]. split_and!; cbn; done || lia.
Qed.

(** The day and the reading that a candidate comes from. *)
Definition chosen_day (s : WakeSchedule) (weekdays : list Z) (hour minute base : Z) (offsets : list Z) (c : Z * string) : Prop :=
  ∃ offset day, offset ∈ offsets ∧ gmtime_r (base + offset * 86400) = Some day ∧ weekday_of day ∈ weekdays ∧
    c.2 = date day ∧ s.(ws_previous_calendar_date) ≠ Some c.2 ∧ first_civil_epoch day hour minute = Ok (Some c.1).

Lemma chosen_day_weaken s wd h m b l l' c : l ⊆ l' → chosen_day s wd h m b l c → chosen_day s wd h m b l' c.
Proof. intros Hl (o & d & Ho & H). exists o, d. split; [by apply Hl|done]. Qed.

(** What the loop gives from a list of days, for what was due before it. *)
Definition days_give (s : WakeSchedule) (weekdays : list Z) (hour minute base now : Z) (offsets : list Z)
    (due due' next : option (Z * string)) : Prop :=
  (∀ d, due = Some d → due' = Some d) ∧
  (∀ d, due = None → due' = Some d → timely s now d ∧ chosen_day s weekdays hour minute base offsets d) ∧
  (∀ c, next = Some c → now < c.1 ∧ chosen_day s weekdays hour minute base offsets c).

Lemma days_give_cons s wd h m b now o l due due' next :
  days_give s wd h m b now l due due' next → days_give s wd h m b now (o :: l) due due' next.
Proof.
  intros (H1 & H2 & H3). assert (l ⊆ o :: l) as Hl by set_solver. split_and!; [done| |].
  - intros d Hn Hd. destruct (H2 d Hn Hd). eauto using chosen_day_weaken.
  - intros c Hc. destruct (H3 c Hc). eauto using chosen_day_weaken.
Qed.

Lemma at_days_Ok s wd h m b now l due due' next :
  at_days s wd h m b now l due = Ok (due', next) → days_give s wd h m b now l due due' next.
Proof.
  revert due. induction l as [|o l IH]; intros due H; simpl in H.
  { injection H as <- <-. split_and!; congruence. }
  apply bind_Ok in H as (e & [-> _]%ok_or_Ok%i64_checked_Some & H).
  apply bind_Ok in H as (day & Hday%ok_or_Ok & H).
  destruct (_ || _) eqn:Hskip; [by apply days_give_cons, IH|].
  apply orb_false_iff in Hskip as [Hwd%negb_false_iff%bool_decide_eq_true Hprev%bool_decide_eq_false].
  apply bind_Ok in H as ([c|] & Hc & H); [|by apply days_give_cons, IH].
  assert (chosen_day s wd h m b (o :: l) (c, date day)) as Hch.
  { exists o, day. split_and!; [set_solver|done..]. }
  destruct (c <=? now) eqn:Hle.
  2: { injection H as <- <-. apply Z.leb_gt in Hle. split_and!; [done|congruence|]. by intros ? [= <-]. }
  apply IH, (days_give_cons _ _ _ _ _ _ o) in H as (H1 & H2 & H3). split_and!; [| |done].
  - intros d ->. apply H1. cbn. by rewrite andb_false_r.
  - intros d -> Hd. destruct (_ && _) eqn:Hin; [|by apply H2]. rewrite (H1 _ eq_refl) in Hd. injection Hd as <-.
    split; [|done]. rewrite andb_true_r in Hin. apply andb_true_iff in Hin as [Hn%Z.leb_le Hg%Z.leb_le].
    apply Z.leb_le in Hle. split_and!; cbn; [lia..| |done]. by apply grace_le.
Qed.

Lemma at_snapshot_Ok s time wd now f z c :
  at_snapshot sha256_hex s time wd now f z = Ok c →
  ∃ h m today d next_date,
    parse_i32 (String.substring 0 2 time) = Some h ∧
    parse_i32 (String.substring 3 (String.length time - 3) time) = Some m ∧
    local now = Ok today ∧
    c.(cs_due_at) = fst <$> d ∧ c.(cs_calendar_date) = snd <$> d ∧ c.(cs_next_calendar_date) = Some next_date ∧
    now < c.(cs_next_at) ∧ chosen_day s wd h m (timegm (tm_at 0 0 0 today)) (seqZ 0 8) (c.(cs_next_at), next_date) ∧
    ∀ x, d = Some x → timely s now x ∧
      (already_due s now = Some x ∨ chosen_day s wd h m (timegm (tm_at 0 0 0 today)) (seqZ 0 8) x).
Proof.
  unfold at_snapshot. intros H.
  apply bind_Ok in H as (h & Hh%ok_or_Ok & H). apply bind_Ok in H as (m & Hm%ok_or_Ok & H).
  apply bind_Ok in H as (today & Ht & H). apply bind_Ok in H as ([due next] & Hd & H).
  apply bind_Ok in H as ([na nd] & ->%ok_or_Ok & H). apply bind_Ok in H as (again & _ & H).
  destruct (negb _); [done|]. injection H as <-. apply at_days_Ok in Hd as (H1 & H2 & H3).
  destruct (H3 _ eq_refl) as [Hlt Hch]. exists h, m, today, due, nd. split_and!; try done.
  intros x ->. destruct (already_due s now) as [y|] eqn:Ha.
  - specialize (H1 _ eq_refl) as [= ->]. split; [by apply already_due_timely|by left].
  - destruct (H2 x eq_refl eq_refl) as [Htx Hx]. split; [done|by right].
Qed.

(** On any cadence, the next date is to come and what is due is past. *)
Lemma cadence_bounds before after s now c :
  calculate_cadence sha256_hex before after s now = Ok c →
  now < c.(cs_next_at) ∧ ∀ d, c.(cs_due_at) = Some d → s.(ws_next_at) ≤ d ≤ now.
Proof.
  unfold calculate_cadence. intros H. apply bind_Ok in H as ([] & Hv & H). apply bind_Ok in H as (f & _ & H).
  apply validated_cadence in Hv. destruct s.(ws_cadence) as [step|time wd].
  - cbn in Hv. apply andb_true_iff in Hv as [H60%Z.leb_le _].
    apply interval_snapshot_Ok in H as (k & Hn & Hk & Hd); [|lia]. split; [lia|]. intros d. rewrite Hd.
    intros [Hle%Z.leb_le ->]%then_some_Some. lia.
  - apply at_snapshot_Ok in H as (h & m & today & d & nd & _ & _ & _ & Hdue & _ & _ & Hlt & _ & Hd). split; [done|].
    intros x. rewrite Hdue. destruct d as [y|]; [|done]. intros [= <-]. by destruct (Hd y eq_refl) as [[? _] _].
Qed.
End CadenceFacts.

(** ** The claims on the cadence *)

Section CadenceClaims.
Context `{U : UuidLib} `{L : CivilLib} (sha256_hex : string → string).

(** Nothing overflows while the instants around [now] are representable. *)
Lemma interval_snapshot_total s step now f :
  0 < step → s.(ws_anchor_at) ≤ now → i64_min ≤ s.(ws_anchor_at) → now + step ≤ i64_max → now - s.(ws_anchor_at) ≤ i64_max →
  is_ok (interval_snapshot s step now f) = true.
Proof.
  intros Hs Ha Hmin Hmax Hp. unfold interval_snapshot, i64_checked_sub, i64_checked_mul, i64_checked_add.
  pose proof (Z.div_mod (now - s.(ws_anchor_at)) step ltac:(lia)).
  pose proof (Z.mod_pos_bound (now - s.(ws_anchor_at)) step Hs).
  pose proof (Z.div_pos (now - s.(ws_anchor_at)) step ltac:(lia) Hs).
  set (q := (now - s.(ws_anchor_at)) / step) in *. assert (0 ≤ q * step) by nia.
  assert (∀ z, i64_min ≤ z ≤ i64_max → i64_checked z = Some z) as Hc by (intros; by apply i64_checked_Some).
  rewrite (Hc (now - _)) by (unfold_ints; lia). simpl. fold q. rewrite (Hc (q * step)) by (unfold_ints; lia). simpl.
  rewrite (Hc (ws_anchor_at s + _)) by lia. simpl. rewrite Hc by lia. done.
Qed.

Lemma first_civil_from_Ok day h m center steps r :
  Sorted Z.lt steps → first_civil_from day h m center steps = Ok r →
  match r with
  | Some e => ∃ c step, step ∈ steps ∧ e = center + step * 60 ∧ local e = Ok c ∧ reads_as day h m c = true ∧
      ∀ s c', s ∈ steps → local (center + s * 60) = Ok c' → reads_as day h m c' = true → step ≤ s
  | None => ∀ s c', s ∈ steps → local (center + s * 60) = Ok c' → reads_as day h m c' = false
  end.
Proof.
  intros Hs. apply Sorted_StronglySorted in Hs; [|intros ???; lia]. induction Hs as [|s l Hs IH Hall]; cbn.
  { intros [= <-]. set_solver. }
  intros H. apply bind_Ok in H as (e & [-> _]%ok_or_Ok%i64_checked_Some & H).
  apply bind_Ok in H as (c & Hc & H). destruct (reads_as day h m c) eqn:Hr.
  - injection H as <-. exists c, s. split_and!; [set_solver|done..|]. intros s' c' [->|Hin]%elem_of_cons _ _; [done|].
    rewrite Forall_forall in Hall. specialize (Hall s' Hin). lia.
  - specialize (IH H). destruct r as [e|].
    + destruct IH as (c1 & st & Hst & -> & Hl & Hr1 & Hmin). exists c1, st. split_and!; [set_solver|done..|].
      intros s' c' [->|Hin]%elem_of_cons Hl' Hr'; [congruence|by apply (Hmin s' c')].
    + intros s' c' [->|Hin]%elem_of_cons Hl'; [congruence|by apply (IH s')].
Qed.

Lemma seqZ_sorted a n : Sorted Z.lt (seqZ a n).
Proof.
  unfold seqZ. assert (∀ k i, Sorted Z.lt ((λ j, Z.of_nat j + a) <$> seq i k)) as H; [|apply H].
  induction k as [|k IH]; intros i; [constructor|]. cbn. constructor; [apply IH|]. destruct k; cbn; constructor. lia.
Qed.

Lemma local_Ok e c : local e = Ok c → localtime_r e = Some c ∧ Z.abs c.(tm_gmtoff) ≤ 86400 ∧ Z.rem c.(tm_gmtoff) 60 = 0.
Proof.
  unfold local. intros H. apply bind_Ok in H as (t & Ht%ok_or_Ok & H). destruct (_ || _) eqn:E; [done|].
  injection H as <-. apply orb_false_iff in E as [H1%Z.ltb_ge H2%negb_false_iff%Z.eqb_eq]. done.
Qed.

(** An instant that the local calendar reads as that time, to the minute, on one
    of the days of the week, and the date it reads there. *)
Definition falls_on (weekdays : list Z) (hour minute e : Z) (d : string) : Prop :=
  ∃ t, local e = Ok t ∧ t.(tm_hour) = hour ∧ t.(tm_min) = minute ∧ t.(tm_sec) = 0 ∧ weekday_of t ∈ weekdays ∧ d = date t.

Lemma chosen_falls_on `{!WeekdayLaw L} s wd h m b l c : chosen_day s wd h m b l c → falls_on wd h m c.1 c.2.
Proof.
  intros (o & day & _ & Hg & Hwd & Hd & _ & Hf). apply first_civil_from_Ok in Hf; [|apply seqZ_sorted].
  destruct Hf as (t & step & _ & _ & Hl & Hr & _). unfold reads_as in Hr. rewrite !andb_true_iff, !Z.eqb_eq in Hr.
  destruct Hr as (((((Hy & Hmo) & Hmd) & Hh) & Hm) & Hs). pose proof (local_Ok _ _ Hl) as (Hl' & _).
  exists t. split_and!; try done.
  - unfold weekday_of in *. rewrite (weekday_of_date _ _ _ _ Hl' Hg); [done|]. congruence.
  - rewrite Hd. unfold date. by rewrite Hy, Hmo, Hmd.
Qed.

(** C31: what a schedule owes at [now].  For an interval, the next occurrence is
    the first multiple of the step from the anchor after [now], and the one
    that is due is the last multiple not after [now], when it was not already
    passed; the answer is an error only when the zone cannot be read or the
    dates leave 64 bits.  For a time of day, the next occurrence is after [now],
    the local calendar reads it as that time on one of the days of the week, on
    the date given, and what is due is at most ten minutes old, not before the
    date announced, never on the date that fired last, and is either the
    occurrence announced or reads as that time on one of the days too. *)
Theorem cadence_exact `{!WeekdayLaw L} before after s now :
  validate_schedule s = Ok () →
  match s.(ws_cadence) with
  | Interval step =>
    (∀ c, calculate_cadence sha256_hex before after s now = Ok c →
       ∃ k, s.(ws_anchor_at) + k * step ≤ now < s.(ws_anchor_at) + (k + 1) * step ∧
            c.(cs_next_at) = s.(ws_anchor_at) + (k + 1) * step ∧
            c.(cs_due_at) = then_some (s.(ws_next_at) <=? s.(ws_anchor_at) + k * step) (s.(ws_anchor_at) + k * step)) ∧
    (is_ok (timezone_fingerprint sha256_hex before now) = true → i64_min ≤ s.(ws_anchor_at) ≤ now →
     now + step ≤ i64_max → now - s.(ws_anchor_at) ≤ i64_max →
     is_ok (calculate_cadence sha256_hex before after s now) = true)
  | AtTime time weekdays =>
    ∀ c, calculate_cadence sha256_hex before after s now = Ok c →
      ∃ hour minute,
        parse_i32 (String.substring 0 2 time) = Some hour ∧
        parse_i32 (String.substring 3 (String.length time - 3) time) = Some minute ∧
        now < c.(cs_next_at) ∧
        (∃ d, c.(cs_next_calendar_date) = Some d ∧ s.(ws_previous_calendar_date) ≠ Some d ∧
           falls_on weekdays hour minute c.(cs_next_at) d) ∧
        ∀ due, c.(cs_due_at) = Some due →
          s.(ws_next_at) ≤ due ≤ now ∧ now - due ≤ GRACE_SECS ∧
          ∃ d, c.(cs_calendar_date) = Some d ∧ s.(ws_previous_calendar_date) ≠ Some d ∧
            (due = s.(ws_next_at) ∧ s.(ws_next_calendar_date) = Some d ∨ falls_on weekdays hour minute due d)
  end.
Proof.
  intros Hv. pose proof (validated_cadence s Hv) as Hcv. unfold calculate_cadence. rewrite Hv. cbn [mbind result_bind].
  destruct s.(ws_cadence) as [step|time wd].
  - simpl in Hcv. apply andb_true_iff in Hcv as [H60%Z.leb_le _]. split.
    + intros c H. apply bind_Ok in H as (f & _ & H). apply interval_snapshot_Ok in H as (k & ? & ? & ?); [|lia].
      by exists k.
    + intros Hz ? ? ?. destruct (timezone_fingerprint _ _ _) as [f|]; [|done]. apply interval_snapshot_total; lia.
  - intros c H. apply bind_Ok in H as (f & _ & H).
    apply at_snapshot_Ok in H as (h & m & today & d & nd & Hh & Hm & _ & Hdue & Hdate & Hnd & Hlt & Hch & Hd).
    exists h, m. split_and!; try done.
    + exists nd. split_and!; [done| |by apply chosen_falls_on in Hch]. by destruct Hch as (o & day & _ & _ & _ & _ & Hp & _).
    + intros due Heq. rewrite Hdue in Heq. destruct d as [x|]; [|done].
      injection Heq as <-. destruct (Hd x eq_refl) as [(? & ? & ?) Hx]. split_and!; [lia..|]. exists x.2. rewrite Hdate.
      split_and!; [done..|]. destruct Hx as [Hx|Hx]; [left|right; by apply chosen_falls_on in Hx].
      unfold already_due in Hx. destruct (_ && _); [|done]. apply bind_Some in Hx as (y & Hy & Hx).
      destruct (negb _); [|done]. by injection Hx as <-.
Qed.

Context {Laws : CivilLaws L}.

Lemma reads_as_civil day h m c :
  reads_as day h m c = true ↔ civil c = civil (tm_utc (tm_at h m 0 day)).
Proof.
  unfold reads_as, civil. cbn. rewrite !andb_true_iff, !Z.eqb_eq. split; [by intros (((((-> & ->) & ->) & ->) & ->) & ->)|].
  by intros [= -> -> -> -> -> ->].
Qed.

(** An instant that reads as asked is one of the steps around the centre. *)
Lemma reading_in_window day h m e c :
  local e = Ok c → reads_as day h m c = true →
  ∃ step, step ∈ seqZ (-1440) 2881 ∧ e = timegm (tm_utc (tm_at h m 0 day)) + step * 60.
Proof using Laws.
  intros (Hl & Habs & Hrem)%local_Ok Hr%reads_as_civil. apply timegm_civil in Hr. apply timegm_local in Hl.
  pose proof (Z.quot_rem' c.(tm_gmtoff) 60). exists (- Z.quot c.(tm_gmtoff) 60). rewrite elem_of_seqZ. lia.
Qed.

(** C32: the inverse of the civil calendar is exact.  When the search ends, it
    has found the earliest of all the instants whose local reading is that day
    at that time, among however many the zone repeats; and when it finds none,
    no instant reads so, as in the hour a zone skips. *)
Theorem first_civil_epoch_exact day hour minute r :
  first_civil_epoch day hour minute = Ok r →
  match r with
  | Some e => (∃ c, local e = Ok c ∧ reads_as day hour minute c = true) ∧
      ∀ e' c, local e' = Ok c → reads_as day hour minute c = true → e ≤ e'
  | None => ∀ e' c, local e' = Ok c → reads_as day hour minute c = false
  end.
Proof using Laws.
  intros H. apply first_civil_from_Ok in H; [|apply seqZ_sorted]. destruct r as [e|].
  - destruct H as (c & st & _ & -> & Hl & Hr & Hmin). split; [by exists c|].
    intros e' c' Hl' Hr'. destruct (reading_in_window _ _ _ _ _ Hl' Hr') as (s & Hs & ->).
    specialize (Hmin s c' Hs Hl' Hr'). lia.
  - intros e' c' Hl'. destruct (reads_as day hour minute c') eqn:Hr; [|done].
    destruct (reading_in_window _ _ _ _ _ Hl' Hr) as (s & Hs & ->). rewrite (H s c' Hs Hl') in Hr. done.
Qed.
End CadenceClaims.

(** ** A Gregorian calendar whose zone moves by one hour once *)

Module Gregorian.

(** Days since the epoch as a year counted from March, a month and a day. *)
Definition civil_from_days (z0 : Z) : Z * Z * Z :=
  let z := z0 + 719468 in
  let era := z / 146097 in
  let doe := z mod 146097 in
  let yoe := (doe - doe / 1460 + doe / 36524 - doe / 146096) / 365 in
  let doy := doe - (365 * yoe + yoe / 4 - yoe / 100) in
  let mp := (5 * doy + 2) / 153 in
  let d := doy - (153 * mp + 2) / 5 + 1 in
  let m := if mp <? 10 then mp + 3 else mp - 9 in
  (yoe + era * 400 + (if m <=? 2 then 1 else 0), m, d).

Definition days_from_civil (y0 m d : Z) : Z :=
  let y := if m <=? 2 then y0 - 1 else y0 in
  let era := y / 400 in
  let yoe := y mod 400 in
  let doy := (153 * (if 2 <? m then m - 3 else m + 9) + 2) / 5 + d - 1 in
  era * 146097 + (yoe * 365 + yoe / 4 - yoe / 100 + doy) - 719468.

Lemma year_of_era doe :
  0 ≤ doe < 146097 →
  let yoe := (doe - doe / 1460 + doe / 36524 - doe / 146096) / 365 in
  0 ≤ yoe < 400 ∧ 0 ≤ doe - (365 * yoe + yoe / 4 - yoe / 100) ≤ 365.
Proof. intros H. cbv zeta. Z.div_mod_to_equations. lia. Qed.

Lemma days_roundtrip z : let '(y, m, d) := civil_from_days z in days_from_civil y m d = z.
Proof.
  unfold civil_from_days, days_from_civil.
  pose proof (Z.mod_pos_bound (z + 719468) 146097 ltac:(lia)) as Hdoe.
  pose proof (Z.div_mod (z + 719468) 146097 ltac:(lia)) as Hz.
  pose proof (year_of_era _ Hdoe) as [Hy Hdoy]. cbv zeta in *.
  set (doe := (z + 719468) mod 146097) in *. set (era := (z + 719468) / 146097) in *.
  set (yoe := (doe - doe / 1460 + doe / 36524 - doe / 146096) / 365) in *.
  set (doy := doe - (365 * yoe + yoe / 4 - yoe / 100)) in *.
  set (mp := (5 * doy + 2) / 153). assert (0 ≤ mp ≤ 11) by (subst mp; Z.div_mod_to_equations; lia).
  assert ((yoe + era * 400) / 400 = era ∧ (yoe + era * 400) mod 400 = yoe) as [E1 E2].
  { rewrite Z.div_add, Z.div_small, Z_mod_plus_full, Z.mod_small by lia. lia. }
  destruct (mp <? 10) eqn:Hm; [apply Z.ltb_lt in Hm|apply Z.ltb_ge in Hm].
  - rewrite (proj2 (Z.leb_gt _ _)), (proj2 (Z.ltb_lt _ _)), Z.add_0_r, E1, E2 by lia.
    replace (mp + 3 - 3) with mp by lia. lia.
  - rewrite (proj2 (Z.leb_le _ _)), (proj2 (Z.ltb_ge _ _)) by lia.
    replace (yoe + era * 400 + 1 - 1) with (yoe + era * 400) by lia. rewrite E1, E2.
    replace (mp - 9 + 9) with mp by lia. lia.
Qed.

(** The reading of [e] seconds, with an offset that is written only. *)
Definition broken (e gmtoff : Z) (zone : string) : Tm :=
  let '(y, m, d) := civil_from_days (e / 86400) in
  let s := e mod 86400 in
  mkTm (y - 1900) (m - 1) d (s / 3600) (s / 60 mod 60) (s mod 60) ((e / 86400 + 4) mod 7) 0 gmtoff (Some zone).
Definition seconds_of (t : Tm) : Z :=
  days_from_civil (t.(tm_year) + 1900) (t.(tm_mon) + 1) t.(tm_mday) * 86400
  + t.(tm_hour) * 3600 + t.(tm_min) * 60 + t.(tm_sec).

Lemma broken_seconds e o z : seconds_of (broken e o z) = e.
Proof.
  unfold seconds_of, broken. pose proof (days_roundtrip (e / 86400)) as H.
  destruct (civil_from_days (e / 86400)) as [[y m] d]. cbn.
  replace (y - 1900 + 1900) with y by lia. replace (m - 1 + 1) with m by lia. rewrite H.
  Z.div_mod_to_equations. lia.
Qed.

(** The last Sunday of March 2026 at one, in universal time. *)
Definition change : Z := 1774746000.
Definition offset (e : Z) : Z := if e <? change then 3600 else 7200.

#[export] Instance lib : CivilLib := {|
  localtime_r e := Some (broken (e + offset e) (offset e) (if e <? change then "CET" else "CEST"));
  gmtime_r e := Some (broken e 0 "UTC");
  timegm := seconds_of |}.

#[export] Instance laws : CivilLaws lib.
Proof.
  split.
  - intros t t'. cbn. unfold civil, seconds_of. by intros [= -> -> -> -> -> ->].
  - intros e t [= <-]. unfold timegm, lib. rewrite broken_seconds. unfold broken.
    by destruct (civil_from_days _) as [[? ?] ?].
Qed.

#[export] Instance weekday_law : WeekdayLaw lib.
Proof.
  split. intros e e' t t' [= <-] [= <-]. unfold broken.
  pose proof (days_roundtrip ((e + offset e) / 86400)) as H. pose proof (days_roundtrip (e' / 86400)) as H'.
  destruct (civil_from_days ((e + offset e) / 86400)) as [[y m] d]. destruct (civil_from_days (e' / 86400)) as [[y' m'] d'].
  cbn. intros [= Hy Hm ->]. replace y' with y in H' by lia. replace m' with m in H' by lia. by rewrite <-H, <-H'.
Qed.
End Gregorian.

(** ** Examples *)

Module CalendarExamples.
Import Gregorian.
#[local] Existing Instance Canonical.lib.

Definition hex (s : string) : string := s.
Definition paris : ZoneSource := ZoneEnv (Some "Europe/Paris").
Definition some_id : string := "0a0a0a0a-0a0a-4a0a-8a0a-0a0a0a0a0a0a".

Definition schedule (c : WakeCadence) (anchor next : Z) (next_date previous : option string) : WakeSchedule :=
  mkSchedule some_id "alice" None None SelfTarget c "" anchor next "" next_date previous None None.

(** Every hour from the anchor, 1000 seconds after the third hour. *)
Definition hourly : WakeSchedule := schedule (Interval 3600) 1700000000 1700003600 None None.

Example hourly_due :
  calculate_cadence hex paris paris hourly 1700011800 =
  Ok (mkSnapshot "CET:3600:env:Europe/Paris" 1700014400 (Some 1700010800) None None).
Proof. vm_compute. reflexivity. Qed.

(** On Mondays and Thursdays at a quarter past nine, on a Wednesday. *)
Definition twice_a_week : WakeSchedule := schedule (AtTime "09:15" [1; 4]) 1700000000 1700122500 (Some "2023-11-16") None.
Example thursday_next :
  calculate_cadence hex paris paris twice_a_week 1700050000 =
  Ok (mkSnapshot "CET:3600:env:Europe/Paris" 1700122500 None None (Some "2023-11-16")).
Proof. vm_compute. reflexivity. Qed.

Lemma cadence_exact_witness :
  (validate_schedule hourly = Ok () ∧ is_ok (calculate_cadence hex paris paris hourly 1700011800) = true ∧
   ∀ c, calculate_cadence hex paris paris hourly 1700011800 = Ok c →
     ∃ k, 1700000000 + k * 3600 ≤ 1700011800 < 1700000000 + (k + 1) * 3600 ∧ c.(cs_next_at) = 1700000000 + (k + 1) * 3600) ∧
  (validate_schedule twice_a_week = Ok () ∧ falls_on [1; 4] 9 15 1700122500 "2023-11-16").
Proof.
  assert (validate_schedule hourly = Ok ()) as Hv by (vm_compute; reflexivity).
  assert (validate_schedule twice_a_week = Ok ()) as Hw by (vm_compute; reflexivity).
  destruct (cadence_exact hex paris paris hourly 1700011800 Hv) as [H1 H2]. split.
  - split_and!; [exact Hv|apply H2; vm_compute; done|].
    intros c Hc. destruct (H1 c Hc) as (k & Hk & Hn & _). by exists k.
  - split; [exact Hw|].
    destruct (cadence_exact hex paris paris twice_a_week 1700050000 Hw _ thursday_next)
      as (hour & minute & [= <-] & [= <-] & _ & (d & [= <-] & _ & Hf) & _). exact Hf.
Defined.

(** The day of the change, where half past two does not exist. *)
Definition gap_day : Tm := broken 1774742400 0 "UTC".

Lemma gap_day_skips e c : local e = Ok c → reads_as gap_day 2 30 c = false.
Proof.
  intros (H & _ & _)%local_Ok. destruct (reads_as gap_day 2 30 c) eqn:Hr; [|done].
  apply reads_as_civil, timegm_civil in Hr. apply timegm_local in H as Ht. rewrite Hr in Ht.
  assert (c.(tm_gmtoff) = offset e) as Ho.
  { injection H as <-. unfold broken. by destruct (civil_from_days _) as [[? ?] ?]. }
  rewrite Ho in Ht. change (timegm _) with 1774751400 in Ht. revert Ht. unfold offset.
  destruct (e <? change) eqn:E; [apply Z.ltb_lt in E|apply Z.ltb_ge in E]; unfold change in E; lia.
Qed.

Lemma gap_day_none steps center :
  (∀ s, s ∈ steps → i64_min ≤ center + s * 60 ≤ i64_max) → first_civil_from gap_day 2 30 center steps = Ok None.
Proof.
  induction steps as [|s l IH]; intros H; [done|]. cbn [first_civil_from].
  unfold i64_checked_add. rewrite (proj2 (i64_checked_Some (center + s * 60) _)) by (split; [reflexivity|apply H; set_solver]).
  cbn [ok_or]. change (mbind ?f (Ok (center + s * 60))) with (f (center + s * 60)). cbv beta.
  destruct (local (center + s * 60)) as [c|] eqn:E.
  - change (mbind ?f (Ok c)) with (f c). cbv beta. rewrite (gap_day_skips _ _ E). apply IH. set_solver.
  - exfalso. revert E. unfold local. cbn [localtime_r lib ok_or mbind result_bind].
    set (o := offset _). assert (o = 3600 ∨ o = 7200) as Ho by (subst o; unfold offset; destruct (_ <? _); auto).
    unfold broken. destruct (civil_from_days _) as [[? ?] ?]. cbn. by destruct Ho as [-> | ->].
Qed.

Lemma gap_day_search : first_civil_epoch gap_day 2 30 = Ok None.
Proof.
  apply gap_day_none. intros s Hs%elem_of_seqZ. change (timegm _) with 1774751400. unfold_ints. lia.
Qed.

Lemma first_civil_epoch_exact_witness :
  first_civil_epoch gap_day 2 30 = Ok None ∧
  ∀ e c, local e = Ok c → reads_as gap_day 2 30 c = false.
Proof.
  split; [exact gap_day_search|exact (first_civil_epoch_exact gap_day 2 30 None gap_day_search)].
Defined.

(** A weekly wake on Sundays at half past two, computed for the 22nd of March
    2026 and read thirty seconds after it is due: because that time does not
    exist on the Sunday after, no next date is found within the eight days and
    the whole answer is an error, so that the occurrence that is due is not
    frozen; ten minutes later it is no longer due either. *)
Definition sundays : WakeSchedule :=
  schedule (AtTime "02:30" [7]) 1773000000 1774143000 (Some "2026-03-22") (Some "2026-03-15").

Lemma missing_hour_loses_the_week_before :
  calculate_cadence hex paris paris sundays 1774143030 = Err calendar_unavailable ∧
  already_due sundays 1774143030 = Some (1774143000, "2026-03-22") ∧ already_due sundays 1774143601 = None.
Proof. split_and!; vm_compute; reflexivity. Qed.
End CalendarExamples.
