(* ===== verification/WakeStore.v ===== *)
(** * WakeStore: the table of [bridget-daemon/src/store/wake_schedules.rs]

    A row mirrors the owner, the next date and the cancellation of its payload,
    the JSON text of the schedule.  Each operation is one transaction.  The
    table is the map of its primary key; where the code orders rows, so does
    the model.  The laws of the JSON text ([PayloadLaws]) are its round trip,
    which drops the canonical bytes of the occurrence, and what the
    [json_extract] of SQLite reads in it. *)

From S2P Require Import Prelude Text Uuid Communication ThreadStore Threads WakeCalendar.
Local Open Scope Z_scope.

(** The canonical bytes are not serialised. *)
Definition with_occurrence (o : option FrozenWake) (s : WakeSchedule) : WakeSchedule :=
  mkSchedule s.(ws_schedule_id) s.(ws_owner) s.(ws_owner_project) s.(ws_owner_native) s.(ws_target) s.(ws_cadence) s.(ws_label)
    s.(ws_anchor_at) s.(ws_next_at) s.(ws_timezone) s.(ws_next_calendar_date) s.(ws_previous_calendar_date) o s.(ws_cancelled_at).
Definition with_cancelled (now : Z) (s : WakeSchedule) : WakeSchedule :=
  mkSchedule s.(ws_schedule_id) s.(ws_owner) s.(ws_owner_project) s.(ws_owner_native) s.(ws_target) s.(ws_cadence) s.(ws_label)
    s.(ws_anchor_at) s.(ws_next_at) s.(ws_timezone) s.(ws_next_calendar_date) s.(ws_previous_calendar_date) s.(ws_occurrence)
    (Some now).
Definition with_next (next_at : Z) (next_date : option string) (timezone : string) (s : WakeSchedule) : WakeSchedule :=
  mkSchedule s.(ws_schedule_id) s.(ws_owner) s.(ws_owner_project) s.(ws_owner_native) s.(ws_target) s.(ws_cadence) s.(ws_label)
    s.(ws_anchor_at) next_at timezone next_date s.(ws_previous_calendar_date) s.(ws_occurrence) s.(ws_cancelled_at).
Definition with_previous (d : option string) (s : WakeSchedule) : WakeSchedule :=
  mkSchedule s.(ws_schedule_id) s.(ws_owner) s.(ws_owner_project) s.(ws_owner_native) s.(ws_target) s.(ws_cadence) s.(ws_label)
    s.(ws_anchor_at) s.(ws_next_at) s.(ws_timezone) s.(ws_next_calendar_date) d s.(ws_occurrence) s.(ws_cancelled_at).
Definition serialised (s : WakeSchedule) : WakeSchedule :=
  with_occurrence (with_wake_bytes "" <$> s.(ws_occurrence)) s.

(** [serde_json] on a schedule, and [json_extract] on its text: whether
    [$.occurrence] is null, and [$.occurrence.phase]. *)
Class PayloadCodec := {
  Json : Type;
  schedule_to_json : WakeSchedule → Json;
  schedule_from_json : Json → option WakeSchedule;
  json_no_occurrence : Json → bool;
  json_occurrence_phase : Json → option string }.
Class PayloadLaws (P : PayloadCodec) := {
  payload_roundtrip s : schedule_from_json (schedule_to_json s) = Some (serialised s);
  payload_no_occurrence s : json_no_occurrence (schedule_to_json s) = negb (is_some s.(ws_occurrence));
  payload_phase s : json_occurrence_phase (schedule_to_json s) = (λ w, phase_name w.(fw_phase)) <$> s.(ws_occurrence) }.

Definition OWNER_LIMIT : nat := 16.
Definition TOTAL_LIMIT : nat := 128.
(** The key of an occurrence. *)
Definition wake_key (id : string) (due : Z) : string := "wake:" +:+ id +:+ ":" +:+ pretty due.

Section WakeOps.
Context `{U : UuidLib} `{W : WakeCodec} `{P : PayloadCodec}.

Record ScheduleRow := mkScheduleRow {
  sr_owner : string; sr_next_at : Z; sr_cancelled_at : option Z; sr_payload : Json }.

Definition freeze_occurrence (o : option FrozenWake) : result string (option FrozenWake) :=
  match o with Some w => w' ← freeze_canonical w; Ok (Some w') | None => Ok None end.

Definition decode_schedule (payload : Json) : result StoreError WakeSchedule :=
  s ← ok_or (schedule_from_json payload) (ThreadInvariant "wake schedule illisible");
  _ ← map_err ThreadInvariant (validate_schedule s);
  o ← map_err ThreadInvariant (freeze_occurrence s.(ws_occurrence));
  Ok (with_occurrence o s).

(** ** Creation *)

Definition settled_phases : list string :=
  ["committed_thread"; "confirmed"; "outcome_unknown"; "missed_before_departure"; "owner_unavailable"].
Definition removable (only : option string) (r : ScheduleRow) : bool :=
  is_some r.(sr_cancelled_at) && is_none_or only (λ o, bool_decide (r.(sr_owner) = o))
  && (json_no_occurrence r.(sr_payload) || is_some_and (json_occurrence_phase r.(sr_payload)) (λ p, bool_decide (p ∈ settled_phases))).
Definition counted (only : option string) (t : gmap string ScheduleRow) : nat :=
  count_if (λ kv, is_none_or only (λ o, bool_decide (kv.2.(sr_owner) = o))) (map_to_list t).

(** [ORDER BY cancelled_at, schedule_id]. *)
Definition row_before (x y : string * ScheduleRow) : bool :=
  let a := default 0 x.2.(sr_cancelled_at) in let b := default 0 y.2.(sr_cancelled_at) in
  (a <? b) || ((a =? b) && String.leb x.1 y.1).
Definition oldest_removable (only : option string) (t : gmap string ScheduleRow) : option string :=
  fst <$> head (sort_by row_before (List.filter (λ kv, removable only kv.2) (map_to_list t))).

(** The loop that deletes until there is room; a deletion uses one unit of fuel. *)
Fixpoint make_room (fuel : nat) (only : option string) (limit : nat) (t : gmap string ScheduleRow) : result StoreError (gmap string ScheduleRow) :=
  if (counted only t <? limit)%nat then Ok t
  else
    match oldest_removable only t with
    | None => Err (ThreadInvariant "schedule_limit")
    | Some id =>
      match fuel with
      | O => Err (ThreadInvariant "fuel")
      | S fuel => make_room fuel only limit (delete id t)
      end
    end.

Definition row_of (s : WakeSchedule) : ScheduleRow :=
  mkScheduleRow s.(ws_owner) s.(ws_next_at) s.(ws_cancelled_at) (schedule_to_json s).

(** A transaction, undone by its errors. *)
Definition commit_wake {X} (t : gmap string ScheduleRow) (r : result StoreError (gmap string ScheduleRow * X)) : gmap string ScheduleRow * result StoreError X :=
  match r with Ok (t', x) => (t', Ok x) | Err e => (t, Err e) end.

Definition create_wake_schedule (t : gmap string ScheduleRow) (s : WakeSchedule) : gmap string ScheduleRow * result StoreError () :=
  commit_wake t (
    _ ← map_err ThreadInvariant (validate_schedule s);
    if is_some s.(ws_cancelled_at) || is_some s.(ws_occurrence)
       || (is_at s.(ws_cadence) && negb (is_some s.(ws_next_calendar_date)))
    then Err (ThreadInvariant "invalid_request")
    else
      t ← make_room (size t) (Some s.(ws_owner)) OWNER_LIMIT t;
      t ← make_room (size t) None TOTAL_LIMIT t;
      if is_some (t !! s.(ws_schedule_id)) then Err (ThreadSqlite "UNIQUE constraint failed: wake_schedules.schedule_id")
      else Ok (<[s.(ws_schedule_id) := mkScheduleRow s.(ws_owner) s.(ws_next_at) None (schedule_to_json s)]> t, ())).

(** ** Reads *)

(** [ORDER BY next_at, schedule_id]. *)
Definition due_before (x y : string * ScheduleRow) : bool :=
  (x.2.(sr_next_at) <? y.2.(sr_next_at)) || ((x.2.(sr_next_at) =? y.2.(sr_next_at)) && String.leb x.1 y.1).
Fixpoint decode_all (l : list (string * ScheduleRow)) : result StoreError (list WakeSchedule) :=
  match l with
  | [] => Ok []
  | x :: l => s ← decode_schedule x.2.(sr_payload); r ← decode_all l; Ok (s :: r)
  end.
Definition list_wake_schedules (t : gmap string ScheduleRow) (owner : option string) : result StoreError (list WakeSchedule) :=
  decode_all (take TOTAL_LIMIT (sort_by due_before
    (List.filter (λ kv, is_none_or owner (λ o, bool_decide (kv.2.(sr_owner) = o))) (map_to_list t)))).

Definition wake_schedule (t : gmap string ScheduleRow) (id : string) : result StoreError (option WakeSchedule) :=
  match t !! id with
  | None => Ok None
  | Some r => s ← decode_schedule r.(sr_payload); Ok (Some s)
  end.

(** ** Updates *)

Definition cancel_wake_schedule (t : gmap string ScheduleRow) (owner : option string) (id : string) (now : Z) : gmap string ScheduleRow * result StoreError bool :=
  commit_wake t (
    r ← ok_or (t !! id) (ThreadInvariant "target_unknown");
    s ← decode_schedule r.(sr_payload);
    if is_some_and owner (λ o, negb (bool_decide (o = s.(ws_owner)))) then Err (ThreadInvariant "not_owner")
    else if is_some s.(ws_cancelled_at) then Ok (t, false)
    else Ok (<[id := mkScheduleRow r.(sr_owner) r.(sr_next_at) (Some now) (schedule_to_json (with_cancelled now s))]> t, true)).

(** [WHERE schedule_id=?1 AND next_at=?2 AND cancelled_at IS NULL]. *)
Definition expected_row (t : gmap string ScheduleRow) (id : string) (expected_next_at : Z) : option ScheduleRow :=
  opt_filter (λ r, (r.(sr_next_at) =? expected_next_at) && negb (is_some r.(sr_cancelled_at))) (t !! id).
Definition occurrence_live (s : WakeSchedule) : bool := is_some_and s.(ws_occurrence) (λ w, negb (terminal w.(fw_phase))).
Definition put_next (t : gmap string ScheduleRow) (id : string) (r : ScheduleRow) (s : WakeSchedule) : gmap string ScheduleRow :=
  <[id := mkScheduleRow r.(sr_owner) s.(ws_next_at) r.(sr_cancelled_at) (schedule_to_json s)]> t.

Definition advance_wake_calendar (t : gmap string ScheduleRow) (id : string) (expected_next_at : Z) (calculated_tz current_tz : string)
    (next_at : Z) (next_calendar_date : option string) (now : Z) : gmap string ScheduleRow * result StoreError bool :=
  if negb (bool_decide (calculated_tz = current_tz)) || (next_at <=? now) then (t, Ok false)
  else
    match expected_row t id expected_next_at with
    | None => (t, Ok false)
    | Some r =>
      commit_wake t (
        s ← decode_schedule r.(sr_payload);
        if occurrence_live s then Ok (t, false)
        else if is_at s.(ws_cadence) && negb (is_some next_calendar_date) then Err (ThreadInvariant "calendar_unavailable")
        else Ok (put_next t id r (with_next next_at next_calendar_date current_tz s), true))
    end.

(** What an occurrence must agree with. *)
Definition wake_matches (s : WakeSchedule) (id : string) (expected_next_at : Z) (w : FrozenWake) (next_at : Z) : bool :=
  bool_decide (w.(fw_source) = Scheduled) && bool_decide (w.(fw_owner) = s.(ws_owner)) && bool_decide (w.(fw_target) = s.(ws_target))
  && bool_decide (w.(fw_owner_project) = s.(ws_owner_project)) && bool_decide (w.(fw_owner_native) = s.(ws_owner_native))
  && bool_decide (w.(fw_label) = s.(ws_label)) && (expected_next_at <=? w.(fw_due_at)) && (w.(fw_due_at) <? next_at)
  && bool_decide (w.(fw_phase) = WPrepared) && bool_decide (w.(fw_id) = wake_key id w.(fw_due_at)).

Definition freeze_wake_occurrence (t : gmap string ScheduleRow) (id : string) (expected_next_at : Z) (calculated_tz current_tz : string)
    (wake : FrozenWake) (next_at : Z) (calendar_date next_calendar_date : option string) : gmap string ScheduleRow * result StoreError bool :=
  if negb (bool_decide (calculated_tz = current_tz)) then (t, Ok false)
  else
    match expected_row t id expected_next_at with
    | None => (t, Ok false)
    | Some r =>
      commit_wake t (
        s ← decode_schedule r.(sr_payload);
        if occurrence_live s then Ok (t, false)
        else if negb (wake_matches s id expected_next_at wake next_at) then Err (ThreadInvariant "invalid_request")
        else
          frozen ← map_err ThreadInvariant (freeze_canonical wake);
          if negb (bool_decide (wake.(fw_canonical_bytes) = ""))
             && negb (bool_decide (frozen.(fw_canonical_bytes) = wake.(fw_canonical_bytes)))
          then Err (ThreadInvariant "envelope_mismatch")
          else if is_at s.(ws_cadence) && negb (is_some next_calendar_date) then Err (ThreadInvariant "calendar_unavailable")
          else
            let s1 := with_next next_at next_calendar_date current_tz (with_occurrence (Some frozen) s) in
            let s2 := match calendar_date with Some d => with_previous (Some d) s1 | None => s1 end in
            Ok (put_next t id r s2, true))
    end.

Definition settle_wake_occurrence (t : gmap string ScheduleRow) (id key : string) (phase : WakePhase) (next_at : Z)
    (next_calendar_date : option string) : gmap string ScheduleRow * result StoreError bool :=
  match t !! id with
  | None => (t, Ok false)
  | Some r =>
    commit_wake t (
      s ← decode_schedule r.(sr_payload);
      match s.(ws_occurrence) with
      | None => Ok (t, false)
      | Some w =>
        if negb (bool_decide (w.(fw_id) = key)) || terminal w.(fw_phase) then Ok (t, false)
        else if bool_decide (phase = WPrepared)
                || (bool_decide (w.(fw_phase) = WDispatchingAgent)
                    && negb (bool_decide (phase = WConfirmed) || bool_decide (phase = WOutcomeUnknown)))
        then Err (ThreadInvariant "invalid_request")
        else
          let s1 := with_occurrence (Some (with_wake_phase phase w)) s in
          if terminal phase then
            if (next_at <=? w.(fw_due_at)) || (next_at <? s.(ws_next_at)) then Err (ThreadInvariant "invalid_request")
            else if is_at s.(ws_cadence) && negb (is_some next_calendar_date) then Err (ThreadInvariant "calendar_unavailable")
            else Ok (put_next t id r (with_next next_at next_calendar_date s.(ws_timezone) s1), true)
          else Ok (put_next t id r s1, true)
      end)
  end.
End WakeOps.

(** ** Counting rows and making room *)

Section Room.
Context `{U : UuidLib} `{W : WakeCodec} `{P : PayloadCodec}.

Definition owned (only : option string) (r : ScheduleRow) : bool := is_none_or only (λ o, bool_decide (r.(sr_owner) = o)).
(** The rows that the creation may not delete. *)
Definition kept (only : option string) (t : gmap string ScheduleRow) : nat :=
  count_if (λ kv, owned only kv.2 && negb (removable only kv.2)) (map_to_list t).

Lemma count_insert (p : string * ScheduleRow → bool) (t : gmap string ScheduleRow) id r :
  t !! id = None → count_if p (map_to_list (<[id := r]> t)) = ((if p (id, r) then 1 else 0) + count_if p (map_to_list t))%nat.
Proof. intros H. rewrite (count_if_perm p _ _ (map_to_list_insert t id r H)). apply count_if_cons. Qed.

Lemma count_delete (p : string * ScheduleRow → bool) (t : gmap string ScheduleRow) id r :
  t !! id = Some r → count_if p (map_to_list t) = ((if p (id, r) then 1 else 0) + count_if p (map_to_list (delete id t)))%nat.
Proof.
  intros H. rewrite <-(insert_delete_id t id r H) at 1. apply count_insert, lookup_delete_eq.
Qed.

(** A row rewritten under the same owner counts as before. *)
Lemma counted_update only t id r r' :
  t !! id = Some r → r'.(sr_owner) = r.(sr_owner) → counted only (<[id := r']> t) = counted only t.
Proof.
  intros H Ho. unfold counted. rewrite (count_delete _ t id r H), <-(insert_delete_eq t id r').
  rewrite count_insert by apply lookup_delete_eq. simpl. by rewrite Ho.
Qed.

Lemma counted_delete only t id r :
  t !! id = Some r → counted only t = ((if owned only r then 1 else 0) + counted only (delete id t))%nat.
Proof. intros H. unfold counted. by rewrite (count_delete _ t id r H). Qed.

Lemma counted_all t : counted None t = size t.
Proof.
  unfold counted, count_if. rewrite list_filter_all by done. by rewrite length_map_to_list.
Qed.

Lemma oldest_removable_Some only t id :
  oldest_removable only t = Some id → ∃ r, t !! id = Some r ∧ removable only r = true.
Proof.
  unfold oldest_removable. intros ([k r] & Hh & ->)%fmap_Some. exists r.
  assert ((k, r) ∈ sort_by row_before (List.filter (λ kv, removable only kv.2) (map_to_list t))) as Hin.
  { destruct (sort_by _ _); [done|]. injection Hh as ->. set_solver. }
  rewrite sort_by_perm, list_filter_elem, elem_of_map_to_list in Hin. done.
Qed.

Lemma oldest_removable_None only t id r : oldest_removable only t = None → t !! id = Some r → removable only r = false.
Proof.
  unfold oldest_removable. intros Hn Hr. destruct (removable only r) eqn:E; [|done].
  assert ((id, r) ∈ sort_by row_before (List.filter (λ kv, removable only kv.2) (map_to_list t))) as Hin.
  { rewrite sort_by_perm, list_filter_elem, elem_of_map_to_list. done. }
  destruct (sort_by _ _); [by apply elem_of_nil in Hin|done].
Qed.

Lemma removable_owned only r : removable only r = true → owned only r = true.
Proof. unfold removable, owned. rewrite !andb_true_iff. tauto. Qed.

Lemma kept_delete only t id r : t !! id = Some r → removable only r = true → kept only (delete id t) = kept only t.
Proof. intros H Hr. unfold kept. rewrite (count_delete _ t id r H). simpl. by rewrite Hr, andb_false_r. Qed.

(** The loop: what it deletes, the room it makes, and when it refuses. *)
Lemma make_room_spec fuel only limit t :
  (size t ≤ fuel)%nat →
  match make_room fuel only limit t with
  | Ok t' => t' ⊆ t ∧ (counted only t' < limit)%nat ∧ (kept only t < limit)%nat ∧
             (∀ id r, t !! id = Some r → t' !! id = None → removable only r = true) ∧
             ∀ o, (∀ r, removable only r = true → removable o r = true) → kept o t' = kept o t
  | Err e => e = ThreadInvariant "schedule_limit" ∧ (limit ≤ kept only t)%nat
  end.
Proof.
  revert t. induction fuel as [|fuel IH]; intros t Hf; simpl; destruct (counted only t <? limit)%nat eqn:E;
    [apply Nat.ltb_lt in E|apply Nat.ltb_ge in E|apply Nat.ltb_lt in E|apply Nat.ltb_ge in E].
  1, 3: assert (kept only t ≤ counted only t)%nat by
    (apply count_if_le; intros kv _; unfold owned; by intros [H _]%andb_true_iff);
    split_and!; [done|done|lia|congruence|done].
  - destruct (oldest_removable only t) as [id|] eqn:Ho.
    { apply oldest_removable_Some in Ho as (r & Hr & _). assert (size t = 0%nat) as Hz by lia.
      apply map_size_empty_inv in Hz as ->. by rewrite lookup_empty in Hr. }
    split; [done|]. unfold kept. etrans; [exact E|]. apply count_if_le. intros [k r] Hin. simpl.
    apply elem_of_map_to_list in Hin. rewrite (oldest_removable_None _ _ _ _ Ho Hin), andb_true_r. done.
  - destruct (oldest_removable only t) as [id|] eqn:Ho.
    + apply oldest_removable_Some in Ho as (r & Hr & Hrem).
      assert (size (delete id t) ≤ fuel)%nat as Hs.
      { rewrite map_size_delete, Hr. simpl. lia. }
      specialize (IH _ Hs). rewrite <-(kept_delete only t id r Hr Hrem).
      destruct (make_room fuel only limit (delete id t)) as [t'|e]; [|done].
      destruct IH as (Hsub & Hc & Hk & Hrm & Hkk). split_and!; [|done..| |].
      * etrans; [exact Hsub|apply delete_subseteq].
      * intros id' r' Hr' Hn. destruct (decide (id' = id)) as [->|Hne]; [congruence|].
        apply (Hrm id'); [by rewrite lookup_delete_ne|done].
      * intros o Ho. rewrite (Hkk o Ho). apply (kept_delete o t id r Hr), Ho, Hrem.
    + split; [done|]. unfold kept. etrans; [exact E|]. apply count_if_le. intros [k r] Hin. simpl.
      apply elem_of_map_to_list in Hin. rewrite (oldest_removable_None _ _ _ _ Ho Hin), andb_true_r. done.
Qed.
End Room.

(** ** What the rows hold *)

Section Rows.
Context `{U : UuidLib} `{W : WakeCodec} `{P : PayloadCodec} {L : PayloadLaws P}.

(** The bytes an occurrence has when it is read back. *)
Definition canonised (w : FrozenWake) : FrozenWake := with_wake_bytes (wake_to_vec (fw_with "" None WPrepared w)) w.
Definition canonical (s : WakeSchedule) : WakeSchedule := with_occurrence (canonised <$> s.(ws_occurrence)) s.
Definition freezable (w : FrozenWake) : Prop :=
  w.(fw_version) = 1 ∧ (String.length w.(fw_label) ≤ LABEL_MAX)%nat ∧ w.(fw_grace_until) = i64_saturating_add w.(fw_due_at) GRACE_SECS.

(** An occurrence is that of its schedule; it was due when it was frozen, and
    the next date is after it. *)
Definition occurrence_of (clock : Z) (id : string) (s : WakeSchedule) (w : FrozenWake) : Prop :=
  w.(fw_source) = Scheduled ∧ w.(fw_owner) = s.(ws_owner) ∧ w.(fw_target) = s.(ws_target) ∧
  w.(fw_owner_project) = s.(ws_owner_project) ∧ w.(fw_owner_native) = s.(ws_owner_native) ∧ w.(fw_label) = s.(ws_label) ∧
  w.(fw_id) = wake_key id w.(fw_due_at) ∧ freezable w ∧ w.(fw_due_at) < s.(ws_next_at) ∧ w.(fw_due_at) ≤ clock.
Definition schedule_ok (clock : Z) (id : string) (s : WakeSchedule) : Prop :=
  s.(ws_schedule_id) = id ∧ validate_schedule s = Ok () ∧
  (is_at s.(ws_cadence) = true → is_some s.(ws_next_calendar_date) = true) ∧
  ∀ w, s.(ws_occurrence) = Some w → occurrence_of clock id s w.
Definition rows_ok (clock : Z) (t : gmap string ScheduleRow) : Prop :=
  ∀ id r, t !! id = Some r → ∃ s, r = row_of s ∧ schedule_ok clock id s.
(** The table: its rows, and the limits on their number. *)
Definition wakes_ok (clock : Z) (t : gmap string ScheduleRow) : Prop :=
  rows_ok clock t ∧ (∀ o, counted (Some o) t ≤ OWNER_LIMIT)%nat ∧ (size t ≤ TOTAL_LIMIT)%nat.

Lemma freeze_canonical_Ok w w' : freeze_canonical w = Ok w' → freezable w ∧
  w' = with_wake_bytes (wake_to_vec (fw_with w.(fw_canonical_bytes) None WPrepared w)) w.
Proof.
  unfold freeze_canonical. destruct (_ || _) eqn:E; [done|]. intros [= <-]. split; [|done].
  apply orb_false_iff in E as [[E1%negb_false_iff%Z.eqb_eq E2%Nat.ltb_ge]%orb_false_iff E3%negb_false_iff%Z.eqb_eq]. done.
Qed.

Lemma freezable_freezes w : freezable w →
  freeze_canonical w = Ok (with_wake_bytes (wake_to_vec (fw_with w.(fw_canonical_bytes) None WPrepared w)) w).
Proof.
  intros (H1 & H2 & H3). unfold freeze_canonical. rewrite H1, (proj2 (Nat.ltb_ge _ _) H2), (proj2 (Z.eqb_eq _ _) H3). done.
Qed.

Lemma decode_row clock id s : schedule_ok clock id s → decode_schedule (schedule_to_json s) = Ok (canonical s).
Proof using L.
  intros (_ & Hv & _ & Ho). unfold decode_schedule. rewrite payload_roundtrip. cbn.
  change (validate_schedule (serialised s)) with (validate_schedule s). rewrite Hv. cbn. unfold canonical.
  destruct s.(ws_occurrence) as [w|] eqn:E; [|done]. cbn.
  assert (freezable (with_wake_bytes "" w)) as Hf by apply (Ho w eq_refl).
  rewrite (freezable_freezes _ Hf). done.
Qed.

Lemma canonical_ok clock id s : schedule_ok clock id s → schedule_ok clock id (canonical s).
Proof.
  intros (H1 & H2 & H3 & H4). split_and!; [done..|]. intros w Hw. cbn in Hw.
  apply fmap_Some in Hw as (w0 & Hw0 & ->). apply (H4 w0 Hw0).
Qed.

Lemma schedule_ok_later clock clock' id s : clock ≤ clock' → schedule_ok clock id s → schedule_ok clock' id s.
Proof.
  intros Hc (H1 & H2 & H3 & H4). split_and!; [done..|]. intros w Hw. destruct (H4 w Hw) as (? & ? & ? & ? & ? & ? & ? & ? & ? & ?).
  split_and!; try done. lia.
Qed.

Lemma wakes_ok_later clock clock' t : clock ≤ clock' → wakes_ok clock t → wakes_ok clock' t.
Proof.
  intros Hc (H1 & H2 & H3). split_and!; [|done..]. intros id r Hr. destruct (H1 id r Hr) as (s & -> & Hs).
  eauto using schedule_ok_later.
Qed.

(** A row is rewritten under its key and its owner. *)
Lemma wakes_ok_update clock t id s s' :
  wakes_ok clock t → t !! id = Some (row_of s) → schedule_ok clock id s' → s'.(ws_owner) = s.(ws_owner) →
  wakes_ok clock (<[id := row_of s']> t).
Proof.
  intros (H1 & H2 & H3) Hid Hs Ho. split_and!.
  - intros id' r [[<- <-]|[_ Hr]]%lookup_insert_Some; eauto.
  - intros o. by rewrite (counted_update _ _ _ _ _ Hid).
  - by rewrite map_size_insert, Hid.
Qed.

(** The settled phases of the text are the terminal ones. *)
Lemma settled_terminal p : bool_decide (phase_name p ∈ settled_phases) = terminal p.
Proof. by destruct p. Qed.

Lemma removable_row only s :
  removable only (row_of s) = is_some s.(ws_cancelled_at) && owned only (row_of s) && negb (occurrence_live s).
Proof using L.
  unfold removable, occurrence_live. cbn. rewrite payload_no_occurrence, payload_phase. f_equal.
  destruct s.(ws_occurrence) as [w|]; [|done]. cbn. rewrite settled_terminal. by destruct (terminal _).
Qed.
End Rows.

(** ** How a schedule changes *)

Section Changes.
Context `{U : UuidLib} `{W : WakeCodec} `{P : PayloadCodec} {L : PayloadLaws P}.

(** The phases a live occurrence may go to. *)
Definition phase_step (p p' : WakePhase) : Prop :=
  terminal p = false ∧ p' ≠ WPrepared ∧ (p = WDispatchingAgent → p' = WConfirmed ∨ p' = WOutcomeUnknown).

Definition dated (s : WakeSchedule) (next_date : option string) : Prop :=
  is_at s.(ws_cadence) = true → is_some next_date = true.

Inductive evolves (id : string) (s : WakeSchedule) : WakeSchedule → Prop :=
  | Cancels now :
      s.(ws_cancelled_at) = None → evolves id s (with_cancelled now (canonical s))
  | Advances next next_date tz :
      s.(ws_cancelled_at) = None → occurrence_live s = false → dated s next_date →
      (∀ w, s.(ws_occurrence) = Some w → w.(fw_due_at) < next) →
      evolves id s (with_next next next_date tz (canonical s))
  | Freezes w next d next_date tz :
      s.(ws_cancelled_at) = None → occurrence_live s = false → dated s next_date →
      w.(fw_phase) = WPrepared → s.(ws_next_at) ≤ w.(fw_due_at) < next →
      (∀ clock s', w.(fw_due_at) ≤ clock → s'.(ws_next_at) = next → s'.(ws_owner) = s.(ws_owner) →
         s'.(ws_target) = s.(ws_target) → s'.(ws_owner_project) = s.(ws_owner_project) →
         s'.(ws_owner_native) = s.(ws_owner_native) → s'.(ws_label) = s.(ws_label) → occurrence_of clock id s' w) →
      evolves id s (with_previous d (with_next next next_date tz (with_occurrence (Some w) (canonical s))))
  | Settles w p next next_date :
      s.(ws_occurrence) = Some w → phase_step w.(fw_phase) p →
      (if terminal p then w.(fw_due_at) < next ∧ s.(ws_next_at) ≤ next ∧ dated s next_date
       else next = s.(ws_next_at) ∧ next_date = s.(ws_next_calendar_date)) →
      evolves id s (with_next next next_date s.(ws_timezone)
                      (with_occurrence (Some (with_wake_phase p (canonised w))) (canonical s))).

(** What an update does to the table: nothing, or one schedule evolves. *)
Definition one_change (clock : Z) (id : string) (t t' : gmap string ScheduleRow) (Q : WakeSchedule → WakeSchedule → Prop) : Prop :=
  ∃ s s', t !! id = Some (row_of s) ∧ schedule_ok clock id s ∧ evolves id s s' ∧ t' = <[id := row_of s']> t ∧ Q s s'.

Lemma live_canonical s : occurrence_live (canonical s) = occurrence_live s.
Proof. unfold occurrence_live. cbn. by destruct s.(ws_occurrence). Qed.

Lemma at_dated (s : WakeSchedule) nd :
  is_at s.(ws_cadence) && negb (is_some nd) = false → dated s nd.
Proof. unfold dated. destruct (is_at _), (is_some nd); done. Qed.

Lemma cancel_cases clock t owner id now :
  rows_ok clock t →
  (cancel_wake_schedule t owner id now).1 = t ∨
  one_change clock id t (cancel_wake_schedule t owner id now).1
    (λ s s', s.(ws_cancelled_at) = None ∧ s' = with_cancelled now (canonical s) ∧ (∀ o, owner = Some o → o = s.(ws_owner)) ∧
             (cancel_wake_schedule t owner id now).2 = Ok true).
Proof using L.
  intros Hok. unfold cancel_wake_schedule. destruct (t !! id) as [r|] eqn:Hid; [|by left]. cbn.
  destruct (Hok id r Hid) as (s & -> & Hs). cbn. rewrite (decode_row _ _ _ Hs). cbn.
  destruct (is_some_and owner _) eqn:Ho; [by left|].
  destruct s.(ws_cancelled_at) eqn:Hc; [by left|]. cbn. right. exists s, (with_cancelled now (canonical s)).
  split_and!; try done; [by constructor|]. intros o ->. by apply negb_false_iff, bool_decide_eq_true in Ho.
Qed.

Lemma expected_row_Some t id n r :
  expected_row t id n = Some r → t !! id = Some r ∧ r.(sr_next_at) = n ∧ r.(sr_cancelled_at) = None.
Proof.
  unfold expected_row. intros (H1 & H2)%opt_filter_Some. apply andb_true_iff in H2 as [H2%Z.eqb_eq H3].
  by destruct r.(sr_cancelled_at).
Qed.

(** [due_at] of the last occurrence is not after the clock of the rows. *)
Lemma advance_cases clock t id n tz tz' next nd now :
  rows_ok clock t → clock ≤ now →
  (advance_wake_calendar t id n tz tz' next nd now).1 = t ∨
  one_change clock id t (advance_wake_calendar t id n tz tz' next nd now).1
    (λ s s', s.(ws_next_at) = n ∧ now < next ∧ s'.(ws_occurrence) = canonised <$> s.(ws_occurrence) ∧
             s'.(ws_cancelled_at) = None ∧ s'.(ws_next_at) = next).
Proof using L.
  intros Hok Hnow. unfold advance_wake_calendar. destruct (_ || _) eqn:E; [by left|].
  apply orb_false_iff in E as [_ Hlt%Z.leb_gt].
  destruct (expected_row t id n) as [r|] eqn:He; [|by left]. apply expected_row_Some in He as (Hid & Hn & Hc).
  destruct (Hok id r Hid) as (s & -> & Hs). cbn in Hn, Hc |- *. rewrite (decode_row _ _ _ Hs). cbn.
  rewrite live_canonical. destruct (occurrence_live s) eqn:Hl; [by left|].
  destruct (is_at _ && _) eqn:Hat; [by left|]. apply (at_dated s) in Hat. right.
  exists s, (with_next next nd tz' (canonical s)). split_and!; try done.
  constructor; try done. intros w Hw. destruct Hs as (_ & _ & _ & Ho).
  destruct (Ho w Hw) as (_ & _ & _ & _ & _ & _ & _ & _ & _ & Hdue). lia.
Qed.

Lemma wake_matches_true s id n w next :
  wake_matches s id n w next = true →
  w.(fw_phase) = WPrepared ∧ n ≤ w.(fw_due_at) < next ∧
  (freezable w → ∀ clock s', w.(fw_due_at) ≤ clock → s'.(ws_next_at) = next → s'.(ws_owner) = s.(ws_owner) →
     s'.(ws_target) = s.(ws_target) → s'.(ws_owner_project) = s.(ws_owner_project) →
     s'.(ws_owner_native) = s.(ws_owner_native) → s'.(ws_label) = s.(ws_label) → occurrence_of clock id s' w).
Proof.
  unfold wake_matches. rewrite !andb_true_iff, !bool_decide_eq_true, Z.leb_le, Z.ltb_lt.
  intros (((((((((H1 & H2) & H3) & H4) & H5) & H6) & H7) & H8) & H9) & H10). split_and!; [done|lia|lia|].
  intros Hf clock s' Hc Hn E1 E2 E3 E4 E5. unfold occurrence_of. rewrite E1, E2, E3, E4, E5, Hn. done.
Qed.

Lemma freeze_cases clock t id n tz tz' w next d nd :
  rows_ok clock t →
  let r := freeze_wake_occurrence t id n tz tz' w next d nd in
  (r.1 = t ∧ r.2 ≠ Ok true) ∨
  (r.2 = Ok true ∧ one_change clock id t r.1
    (λ s s', s.(ws_next_at) = n ∧ s.(ws_cancelled_at) = None ∧ occurrence_live s = false ∧ n ≤ w.(fw_due_at) < next ∧
             s'.(ws_next_at) = next ∧
             ∃ w', s'.(ws_occurrence) = Some w' ∧ w'.(fw_due_at) = w.(fw_due_at) ∧ w'.(fw_phase) = WPrepared ∧
                   w'.(fw_body) = w.(fw_body) ∧ w'.(fw_thread_operation_id) = w.(fw_thread_operation_id))).
Proof using L.
  intros Hok. cbv zeta. unfold freeze_wake_occurrence. destruct (negb _); [by left|].
  destruct (expected_row t id n) as [r|] eqn:He; [|by left]. apply expected_row_Some in He as (Hid & Hn & Hc).
  destruct (Hok id r Hid) as (s & -> & Hs). cbn in Hn, Hc |- *. rewrite (decode_row _ _ _ Hs). cbn.
  rewrite live_canonical. destruct (occurrence_live s) eqn:Hl; [by left|].
  destruct (negb _) eqn:Hm; [by left|]. apply negb_false_iff, wake_matches_true in Hm as (Hph & Hdue & Hocc).
  destruct (freeze_canonical w) as [f|e] eqn:Hf; [|by left]. apply freeze_canonical_Ok in Hf as (Hfz & ->). cbn.
  destruct (_ && _); [by left|]. destruct (is_at _ && _) eqn:Hat; [by left|]. apply (at_dated s) in Hat.
  right. split; [done|].
  set (f := with_wake_bytes _ w). exists s.
  exists (with_previous (match d with Some _ => d | None => s.(ws_previous_calendar_date) end)
            (with_next next nd tz' (with_occurrence (Some f) (canonical s)))).
  split_and!; try done.
  - apply Freezes; try done; [by subst n|]. intros clock' s' Hck ? ? ? ? ? ?. by apply (Hocc Hfz clock' s').
  - by destruct d.
  - lia.
  - lia.
  - by exists f.
Qed.

Lemma settle_cases clock t id key p next nd :
  rows_ok clock t →
  let r := settle_wake_occurrence t id key p next nd in
  (r.1 = t ∧ r.2 ≠ Ok true) ∨
  (r.2 = Ok true ∧ one_change clock id t r.1
    (λ s s', ∃ w, s.(ws_occurrence) = Some w ∧ w.(fw_id) = key ∧ s'.(ws_occurrence) = Some (with_wake_phase p (canonised w)) ∧
             s'.(ws_cancelled_at) = s.(ws_cancelled_at) ∧ s.(ws_next_at) ≤ s'.(ws_next_at))).
Proof using L.
  intros Hok. cbv zeta. unfold settle_wake_occurrence. destruct (t !! id) as [r|] eqn:Hid; [|by left].
  destruct (Hok id r Hid) as (s & -> & Hs). cbn. rewrite (decode_row _ _ _ Hs). cbn.
  destruct s.(ws_occurrence) as [w|] eqn:Hw; [|by left]. cbn.
  destruct (_ || terminal _) eqn:Hk; [by left|]. apply orb_false_iff in Hk as [Hk%negb_false_iff%bool_decide_eq_true Ht].
  destruct (_ || _) eqn:Hp; [by left|]. apply orb_false_iff in Hp as [Hp%bool_decide_eq_false Hd].
  assert (phase_step w.(fw_phase) p) as Hstep.
  { split; [done|split; [done|]]. intros E. rewrite bool_decide_true in Hd by done. cbn in Hd.
    apply negb_false_iff, orb_true_iff in Hd. rewrite !bool_decide_eq_true in Hd. done. }
  set (s1 := with_occurrence (Some (with_wake_phase p (canonised w))) (canonical s)).
  destruct (terminal p) eqn:Htp.
  - destruct ((next <=? w.(fw_due_at)) || (next <? s.(ws_next_at))) eqn:Hn; [by left|].
    apply orb_false_iff in Hn as [Hn1%Z.leb_gt Hn2%Z.ltb_ge].
    destruct (is_at _ && _) eqn:Hat; [by left|]. apply (at_dated s) in Hat. right. split; [done|].
    exists s, (with_next next nd s.(ws_timezone) s1). split_and!; [done|done| |done|exists w; split_and!; done || lia].
    by apply (Settles id s w p next nd); [..|rewrite Htp].
  - right. split; [done|]. exists s, (with_next s.(ws_next_at) s.(ws_next_calendar_date) s.(ws_timezone) s1).
    split_and!; [done|done| |done|exists w; split_and!; done || lia].
    by apply (Settles id s w p s.(ws_next_at) s.(ws_next_calendar_date)); [..|rewrite Htp].
Qed.

(** A schedule that evolves is the same schedule, still well formed once the
    clock has reached the occurrence it may have frozen. *)
Lemma evolves_ok clock id s s' :
  schedule_ok clock id s → evolves id s s' → (∀ w, s'.(ws_occurrence) = Some w → w.(fw_due_at) ≤ clock) →
  schedule_ok clock id s' ∧ s'.(ws_owner) = s.(ws_owner).
Proof.
  intros Hs H Hdue. pose proof (canonical_ok _ _ _ Hs) as (Hi & Hv & Hat & Hocc).
  destruct H as [now Hc|next nd tz Hc Hl Hd Hn|w next d nd tz Hc Hl Hd Hp Hw Hof|w p next nd Hw Hp Hn]; (split; [|done]).
  - by split_and!.
  - split_and!; [done..|]. intros w Hw. destruct (Hocc w Hw) as (? & ? & ? & ? & ? & ? & ? & ? & _ & ?).
    cbn in Hw. apply fmap_Some in Hw as (w0 & Hw0 & ->). specialize (Hn w0 Hw0). by split_and!.
  - split_and!; [done..|]. intros w' [= <-]. apply Hof; try done. by apply Hdue.
  - assert (w.(fw_due_at) < next ∧ dated s nd) as [Hlt Hd].
    { destruct (Hocc (canonised w)) as (_ & _ & _ & _ & _ & _ & _ & _ & Hlt & _); [cbn; by rewrite Hw|].
      destruct (terminal p); [tauto|]. destruct Hn as [-> ->]. done. }
    split_and!; [done..|]. intros w' [= <-].
    destruct (Hocc (canonised w)) as (? & ? & ? & ? & ? & ? & ? & ? & _ & ?); [cbn; by rewrite Hw|]. by split_and!.
Qed.

(** ** Lists *)

Lemma decode_all_rows clock (t : gmap string ScheduleRow) l :
  rows_ok clock t → (∀ x, x ∈ l → t !! x.1 = Some x.2) →
  ∃ out, decode_all l = Ok out ∧ Forall2 (λ x s, ∃ s0, x.2 = row_of s0 ∧ s = canonical s0 ∧ schedule_ok clock x.1 s0) l out.
Proof using L.
  intros Hok. induction l as [|x l IH]; intros Hl; [by exists []|].
  destruct IH as (out & Hout & Hf); [intros y Hy; apply Hl; set_solver|].
  destruct (Hok x.1 x.2) as (s & Hx & Hs); [apply Hl; set_solver|].
  exists (canonical s :: out). cbn. rewrite Hout, Hx. cbn. rewrite (decode_row _ _ _ Hs). cbn.
  split; [done|]. constructor; [by exists s|done].
Qed.

(** The list of an owner, or of the daemon, is complete. *)
Lemma listing_total clock t owner :
  wakes_ok clock t →
  ∃ out, list_wake_schedules t owner = Ok out ∧
    ∀ id s, t !! id = Some (row_of s) → owned owner (row_of s) = true → schedule_ok clock id s →
      ∃ s', s' ∈ out ∧ s'.(ws_schedule_id) = id ∧ schedule_ok clock id s'.
Proof using L.
  intros (Hok & _ & Hsize). unfold list_wake_schedules.
  set (sorted := sort_by _ _).
  assert (length sorted ≤ TOTAL_LIMIT)%nat as Hlen.
  { subst sorted. rewrite sort_by_perm. etrans; [apply count_if_length|]. by rewrite length_map_to_list. }
  rewrite take_ge by done.
  assert (∀ x, x ∈ sorted ↔ t !! x.1 = Some x.2 ∧ owned owner x.2 = true) as Hin.
  { intros [k r]. subst sorted. by rewrite sort_by_perm, list_filter_elem, elem_of_map_to_list. }
  destruct (decode_all_rows clock t sorted Hok) as (out & -> & Hf); [intros x Hx; by apply Hin|].
  exists out. split; [done|]. intros id s Hid Ho Hs. assert ((id, row_of s) ∈ sorted) as Hx by by apply Hin.
  apply list_elem_of_lookup_1 in Hx as [i Hi]. destruct (Forall2_lookup_l _ _ _ _ _ Hf Hi) as (s' & Hs' & s0 & _ & -> & Hs0).
  exists (canonical s0). split_and!; [by eapply list_elem_of_lookup_2|apply Hs0|by apply canonical_ok].
Qed.
End Changes.

(** ** Creation *)

Section Creation.
Context `{U : UuidLib} `{W : WakeCodec} `{P : PayloadCodec} {L : PayloadLaws P}.

(** What a creation asks of its schedule. *)
Definition fresh_schedule (s : WakeSchedule) : Prop :=
  validate_schedule s = Ok () ∧ s.(ws_cancelled_at) = None ∧ s.(ws_occurrence) = None ∧ dated s s.(ws_next_calendar_date).

Lemma removable_any only r : removable only r = true → removable None r = true.
Proof. unfold removable. rewrite !andb_true_iff. tauto. Qed.

Lemma counted_le only t t' : t' ⊆ t → (counted only t' ≤ counted only t)%nat.
Proof.
  intros Hs. unfold counted, count_if. apply submseteq_length.
  destruct (submseteq_Permutation _ _ (map_to_list_submseteq _ _ Hs)) as [l Hl].
  rewrite (list_filter_perm _ _ _ Hl), List.filter_app. by apply submseteq_inserts_r.
Qed.

(** Both limits, in the order of the code. *)
Lemma make_both_rooms t o :
  match t ← make_room (size t) (Some o) OWNER_LIMIT t; make_room (size t) None TOTAL_LIMIT t with
  | Ok t' => t' ⊆ t ∧ (counted (Some o) t' < OWNER_LIMIT)%nat ∧ (counted None t' < TOTAL_LIMIT)%nat ∧
             (kept (Some o) t < OWNER_LIMIT)%nat ∧ (kept None t < TOTAL_LIMIT)%nat ∧
             ∀ id r, t !! id = Some r → t' !! id = None → removable None r = true
  | Err e => e = ThreadInvariant "schedule_limit" ∧ (OWNER_LIMIT ≤ kept (Some o) t ∨ TOTAL_LIMIT ≤ kept None t)%nat
  end.
Proof.
  pose proof (make_room_spec (size t) (Some o) OWNER_LIMIT t ltac:(lia)) as H1.
  destruct (make_room (size t) (Some o) OWNER_LIMIT t) as [t1|e]; cbn; [|naive_solver].
  destruct H1 as (Hs1 & Hc1 & Hk1 & Hr1 & Hkk).
  pose proof (make_room_spec (size t1) None TOTAL_LIMIT t1 ltac:(lia)) as H2.
  rewrite (Hkk None) in H2 by apply removable_any.
  destruct (make_room (size t1) None TOTAL_LIMIT t1) as [t2|e]; [|naive_solver].
  destruct H2 as (Hs2 & Hc2 & Hk2 & Hr2 & _). split_and!; try done; [by etrans| |].
  - eapply Nat.le_lt_trans; [by apply counted_le|exact Hc1].
  - intros id r Hr Hn. destruct (t1 !! id) as [r1|] eqn:E; [|by eapply removable_any, Hr1].
    assert (t !! id = Some r1) as Hr' by by eapply lookup_weaken. simplify_eq. by eapply Hr2.
Qed.

Lemma create_cases t s :
  let room := t ← make_room (size t) (Some s.(ws_owner)) OWNER_LIMIT t; make_room (size t) None TOTAL_LIMIT t in
  (∃ e, create_wake_schedule t s = (t, Err e) ∧
        (fresh_schedule s → (∃ t', room = Ok t' ∧ is_Some (t' !! s.(ws_schedule_id))) ∨ room = Err e)) ∨
  ∃ t', room = Ok t' ∧ fresh_schedule s ∧ t' !! s.(ws_schedule_id) = None ∧
        create_wake_schedule t s = (<[s.(ws_schedule_id) := row_of s]> t', Ok ()).
Proof.
  cbv zeta. unfold create_wake_schedule, commit_wake. destruct (validate_schedule s) as [[]|e] eqn:Hv; cbn.
  2: { left. eexists. split; [done|]. intros (H & _). congruence. }
  destruct (_ || _) eqn:E.
  { left. eexists. split; [done|]. intros (_ & Hc & Ho & Hd). exfalso. rewrite Hc, Ho in E. cbn in E.
    unfold dated in Hd. destruct (is_at _), (is_some _); cbn in E; try done. by specialize (Hd eq_refl). }
  destruct (make_room (size t) _ _ t) as [t1|e]; cbn; [|left; eauto].
  destruct (make_room (size t1) None _ t1) as [t2|e]; cbn; [|left; eauto].
  destruct (t2 !! s.(ws_schedule_id)) eqn:Hid; cbn; [left; eexists; split; [done|]; intros _; left; by exists t2|].
  assert (s.(ws_cancelled_at) = None ∧ s.(ws_occurrence) = None ∧ dated s s.(ws_next_calendar_date)) as (Hc & Ho & Hd).
  { apply orb_false_iff in E as [[E1 E2]%orb_false_iff E3]. apply at_dated in E3.
    by destruct s.(ws_cancelled_at), s.(ws_occurrence). }
  right. exists t2. split_and!; [done..|]. unfold row_of. by rewrite Hc.
Qed.

Lemma rows_ok_mono clock t t' : t' ⊆ t → rows_ok clock t → rows_ok clock t'.
Proof. intros Hs Hok id r Hr. apply (Hok id r). by eapply lookup_weaken. Qed.

Lemma create_ok clock t s : wakes_ok clock t → wakes_ok clock (create_wake_schedule t s).1.
Proof.
  intros (Hrows & Howner & Hsize). destruct (create_cases t s) as [(e & -> & _)|(t' & Hroom & Hf & Hid & ->)]; [done|].
  pose proof (make_both_rooms t s.(ws_owner)) as H. cbv zeta in Hroom. rewrite Hroom in H.
  destruct H as (Hs & Hc1 & Hc2 & _ & _ & _). split_and!; cbn.
  - intros id r [[<- <-]|[_ Hr]]%lookup_insert_Some; [|by eapply rows_ok_mono].
    destruct Hf as (Hv & Hcan & Ho & Hd). exists s. split; [done|]. split_and!; [done..|]. by rewrite Ho.
  - intros o. unfold counted. rewrite count_insert by done. fold (counted (Some o) t'). cbn.
    case_bool_decide; [subst o; lia|]. etrans; [by apply counted_le|apply Howner].
  - rewrite map_size_insert, Hid. rewrite counted_all in Hc2. lia.
Qed.

(** The limits on wake schedules.  A well-formed schedule with a new
    identifier is refused exactly when its owner already has sixteen schedules,
    or the daemon one hundred and twenty-eight, that are not both cancelled and
    settled, and then nothing changes.  Otherwise it is stored as it is, no
    other row appears or changes, and a row disappears only if it was cancelled
    and has no occurrence in flight; the limits hold again. *)
Lemma create_exact clock t s :
  wakes_ok clock t → fresh_schedule s → t !! s.(ws_schedule_id) = None →
  let '(t', r) := create_wake_schedule t s in
  if (OWNER_LIMIT <=? kept (Some s.(ws_owner)) t)%nat || (TOTAL_LIMIT <=? kept None t)%nat
  then t' = t ∧ r = Err (ThreadInvariant "schedule_limit")
  else r = Ok () ∧ t' !! s.(ws_schedule_id) = Some (row_of s) ∧ wakes_ok clock t' ∧
       (∀ id r, id ≠ s.(ws_schedule_id) → t' !! id = Some r → t !! id = Some r) ∧
       ∀ id r, t !! id = Some r → t' !! id = Some r ∨
         t' !! id = None ∧ ∃ old, r = row_of old ∧ is_some old.(ws_cancelled_at) = true ∧ occurrence_live old = false.
Proof using L.
  intros Hok Hf Hnew. pose proof (create_ok clock t s Hok) as Hok'. pose proof (make_both_rooms t s.(ws_owner)) as Hroom.
  destruct (create_cases t s) as [(e & Hc & H)|(t' & Hr & _ & Hid & Hc)]; rewrite Hc in Hok' |- *; cbv zeta in *.
  - destruct (H Hf) as [(t' & E & Hin)|E]; rewrite E in Hroom.
    { destruct Hroom as (Hs & _). destruct Hin as [x Hx]. eapply lookup_weaken in Hx; [|exact Hs]. congruence. }
    destruct Hroom as [-> Hk]. rewrite <-!Nat.leb_le in Hk. apply orb_true_iff in Hk. by rewrite Hk.
  - rewrite Hr in Hroom. destruct Hroom as (Hs & _ & _ & Hk1 & Hk2 & Hrem).
    rewrite (proj2 (Nat.leb_gt _ _) Hk1), (proj2 (Nat.leb_gt _ _) Hk2). cbn.
    split_and!; [done|by rewrite lookup_insert_eq|done| |].
    + intros id r Hne Hin. rewrite lookup_insert_ne in Hin by done. by eapply lookup_weaken.
    + intros id r Hin. destruct (decide (id = s.(ws_schedule_id))) as [->|Hne]; [congruence|].
      rewrite lookup_insert_ne by done. destruct (t' !! id) as [r'|] eqn:E.
      { left. eapply lookup_weaken in E; [|exact Hs]. congruence. }
      right. split; [done|]. destruct (proj1 Hok id r Hin) as (old & -> & _). exists old. split; [done|].
      specialize (Hrem id _ Hin E). rewrite removable_row, !andb_true_iff, negb_true_iff in Hrem. tauto.
Qed.
End Creation.
