(* ===== verification/WakeDelivery.v ===== *)
(** * WakeDelivery: the departure of a wake

    The wakes asked on the command line ([reserve_cli_wake], [cli_wake] and
    [pending_cli_wakes] of [idempotency.rs]), the guards of the origin and of
    the target, and [deliver_frozen_wake] of [daemon.rs], by which every wake
    leaves.  The state of the daemon is [WakeWorld]: its memory, the schedules,
    the durable sends and the threads.  A delivery takes the lock twice; what
    each lock reads beside these tables (clocks, native tasks, directory of the
    threads, registry of the agents) is a [Beside]. *)

From Stdlib Require Import Ascii.
From S2P Require Import Prelude Text Uuid Message Router Guards Communication Dispatch Reminders Control Sql Idempotency.
From S2P Require Import AgentLinks Guidance Deliveries ExecutionStore ThreadStore ThreadRuns Threads WakeCalendar WakeStore.
Local Open Scope Z_scope.

Definition SCHEDULED_WAKE_SCOPE : string := "bridget_internal_scheduled_wake158B_v1".
Definition MISSED_SUMMARY_SCOPE : string := "bridget_internal_missed_summary158B_v1".
Definition scope_of_source (s : WakeSource) : string :=
  match s with
  | Scheduled => SCHEDULED_WAKE_SCOPE
  | CliOnce => CLI_WAKE_SCOPE
  | MissedSummary => MISSED_SUMMARY_SCOPE
  end.

Definition WAKE_HORIZON_SECS : Z := 7 * 86400.
Definition CLI_WAKE_WINDOW_SECS : Z := 60.
Definition CLI_WAKE_LIMIT : nat := 60.

(** ** Wakes asked on the command line *)

Section CliWakes.
Context `{W : WakeCodec}.

(** The canonical bytes of a record, read as the wake of that record. *)
Definition cli_frozen (row : Row) (id : string) : result IdempotencyError FrozenWake :=
  w ← ok_or (wake_from_slice row.(canonical_bytes)) (CorruptRecord "canon wake CLI");
  if negb (w.(fw_version) =? 1) || negb (bool_decide (w.(fw_source) = CliOnce)) || negb (bool_decide (w.(fw_id) = id))
     || negb (w.(fw_issued_at) =? row.(Idempotency.issued_at))
  then Err (CorruptRecord "domaine wake CLI")
  else Ok (with_wake_bytes row.(canonical_bytes) w).

Definition cli_wake (t : gmap (string * string * string) Row) (id : string)
    : result IdempotencyError (option (FrozenWake * RecordState * Z)) :=
  k ← key_new CLI_WAKE_SCOPE Send id;
  r ← load_record t k;
  match r with
  | None => Ok None
  | Some r =>
    w ← cli_frozen r.(rec_row) id;
    Ok (Some (w, r.(rec_state), r.(rec_row).(Idempotency.expires_at)))
  end.

(** The records of the last minute. *)
Definition recent_cli (since : Z) (kv : string * string * string * Row) : bool :=
  bool_decide (kv.1.1.1 = CLI_WAKE_SCOPE) && bool_decide (kv.1.1.2 = "send") && (since <? kv.2.(Idempotency.issued_at)).
Definition recent_cli_wakes (t : gmap (string * string * string) Row) (now : Z) : list Row :=
  snd <$> List.filter (recent_cli (i64_saturating_sub now CLI_WAKE_WINDOW_SECS)) (map_to_list t).
Definition oldest (l : list Row) : Z := foldr (λ r m, Z.min r.(Idempotency.issued_at) m) i64_max l.

Definition is_thread (t : WakeTarget) : bool := match t with ThreadTarget _ => true | _ => false end.

(** [uuid] is the fresh identifier of the operation on the thread. *)
Definition new_cli_wake (uuid id owner : string) (target : WakeTarget) (label : string) (project : option CommunicationProject)
    (now grace : Z) : FrozenWake :=
  mkFrozen 1 CliOnce target owner project None now now grace id label
    ("Réveil déclenché par " +:+ owner +:+ Message.newline +:+ label) "" (then_some (is_thread target) uuid) None WPrepared.

Definition reserve_cli_wake (t : gmap (string * string * string) Row) (uuid id owner : string) (target : WakeTarget) (label : string)
    (project : option CommunicationProject) (now : Z)
    : gmap (string * string * string) Row * result IdempotencyError (Reservation * FrozenWake) :=
  match key_new CLI_WAKE_SCOPE Send id with
  | Err e => (t, Err e)
  | Ok k =>
    if bool_decide (owner = "") || (LABEL_MAX <? String.length label)%nat then (t, Err InvalidDelivery)
    else
      match load_record t k with
      | Err e => (t, Err e)
      | Ok (Some r) =>
        (t, w ← cli_frozen r.(rec_row) id;
            answer ← (if r.(rec_row).(Idempotency.expires_at) <=? now then Ok IdempotencyExpired
                      else if negb (bool_decide (w.(fw_owner) = owner)) || negb (bool_decide (w.(fw_target) = target))
                              || negb (bool_decide (w.(fw_label) = label)) then Ok Idempotency.EnvelopeMismatch
                      else l ← lookup_result r; Ok (Idempotency.Replayed l));
            Ok (answer, w))
      | Ok None =>
        let recent := recent_cli_wakes t now in
        if (CLI_WAKE_LIMIT <=? length recent)%nat then
          (t, Err (CliWakeRateLimited
                     (Z.max 1 (i64_saturating_sub (i64_saturating_add (oldest recent) CLI_WAKE_WINDOW_SECS) now))))
        else
          match (expires ← ok_or (i64_checked_add now WAKE_HORIZON_SECS) InvalidHorizon;
                 grace ← ok_or (i64_checked_add now GRACE_SECS) InvalidIssuedAt;
                 w ← map_err (λ _, InvalidDelivery) (freeze_canonical (new_cli_wake uuid id owner target label project now grace));
                 _ ← validate_canonical_bytes w.(fw_canonical_bytes);
                 Ok (expires, w)) with
          | Err e => (t, Err e)
          | Ok (expires, w) =>
            (<[columns k := mkRecordRow w.(fw_canonical_bytes) "prepared" None None None now expires]> t,
             Ok (ReservedPrepared expires, w))
          end
      end
  end.

(** [ORDER BY issued_at, idempotency_key]. *)
Definition cli_before (x y : Z * string) : bool := (x.1 <? y.1) || ((x.1 =? y.1) && String.leb x.2 y.2).
Fixpoint load_cli_wakes (t : gmap (string * string * string) Row) (ids : list string)
    : result IdempotencyError (list (FrozenWake * RecordState * Z)) :=
  match ids with
  | [] => Ok []
  | id :: ids => w ← cli_wake t id; w ← ok_or w MissingRecord; l ← load_cli_wakes t ids; Ok (w :: l)
  end.
Definition pending_cli (now : Z) (after : option (Z * string)) (kv : string * string * string * Row) : bool :=
  bool_decide (kv.1.1.1 = CLI_WAKE_SCOPE) && bool_decide (kv.1.1.2 = "send")
  && bool_decide (kv.2.(Idempotency.row_state) ∈ ["prepared"; "dispatching"]) && (now <? kv.2.(Idempotency.expires_at))
  && is_none_or after (λ a, (a.1 <? kv.2.(Idempotency.issued_at))
       || ((kv.2.(Idempotency.issued_at) =? a.1) && negb (String.leb kv.1.2 a.2))).
Definition pending_cli_wakes (t : gmap (string * string * string) Row) (now : Z) (after : option (Z * string))
    : result IdempotencyError (list (FrozenWake * RecordState * Z)) :=
  load_cli_wakes t (snd <$> take 128 (sort_by cli_before
    ((λ kv, (kv.2.(Idempotency.issued_at), kv.1.2)) <$> List.filter (pending_cli now after) (map_to_list t)))).
End CliWakes.

(** ** A wake of the command line asked again *)

Section CliReplay.
Context `{W : WakeCodec} {WL : WakeLaws W}.

(** A request on the command line is taken once.  When a wake is accepted,
    the record gives back that very wake, and asking again under its identifier
    changes nothing, at any later date and whoever asks: the same request is
    answered that its outcome is not known yet, with the wake that was accepted,
    until the record expires; another owner, target or label is refused. *)
Lemma cli_wake_taken_once t uuid id owner target label project now t' e w :
  reserve_cli_wake t uuid id owner target label project now = (t', Ok (ReservedPrepared e, w)) →
  cli_wake t' id = Ok (Some (w, Prepared, e)) ∧ e = now + WAKE_HORIZON_SECS ∧
  w.(fw_owner) = owner ∧ w.(fw_target) = target ∧ w.(fw_label) = label ∧
  ∀ uuid' owner' target' label' project' now', owner' ≠ "" → (String.length label' ≤ LABEL_MAX)%nat →
    reserve_cli_wake t' uuid' id owner' target' label' project' now' =
      (t', Ok (if e <=? now' then IdempotencyExpired
               else if bool_decide (owner' = owner ∧ target' = target ∧ label' = label)
               then Idempotency.Replayed (OutcomeUnknown e) else Idempotency.EnvelopeMismatch, w)).
Proof using WL.
  unfold reserve_cli_wake at 1. destruct (key_new CLI_WAKE_SCOPE Send id) as [k|] eqn:Hk; [|done].
  destruct (_ || _) eqn:Hv; [done|]. destruct (load_record t k) as [[r|]|] eqn:Hl; [| |done].
  { intros [= _ H]. exfalso. apply bind_Ok in H as (f & _ & H). apply bind_Ok in H as (a & Ha & [= -> _]).
    destruct (_ <=? _); [done|]. destruct (_ || _ || _); [done|]. by apply bind_Ok in Ha as (? & _ & ?). }
  destruct (_ <=? _)%nat; [done|]. destruct (_ ≫= _) as [[x w']|] eqn:He; [|done]. intros [= <- <- <-].
  apply bind_Ok in He as (x' & [-> _]%ok_or_Ok%i64_checked_Some & He). apply bind_Ok in He as (g & _ & He).
  apply bind_Ok in He as (f & Hf & He). apply bind_Ok in He as (_ & _ & [= <- <-]).
  unfold freeze_canonical in Hf. destruct (_ || _) in Hf; [done|]. cbn in Hf. injection Hf as <-.
  set (w := with_wake_bytes _ _). set (row := mkRecordRow _ _ _ _ _ _ _).
  assert (load_record (<[columns k := row]> t) k = Ok (Some (mkRec row Prepared))) as Hload.
  { unfold load_record. by rewrite lookup_insert_eq. }
  assert (cli_frozen row id = Ok w) as Hfrozen.
  { unfold cli_frozen. change row.(canonical_bytes) with (wake_to_vec (fw_with "" None WPrepared (new_cli_wake uuid id owner target label project now g))).
    rewrite wake_roundtrip. cbn.
    by rewrite !bool_decide_eq_true_2, Z.eqb_refl. }
  split_and!; [|done..|].
  - unfold cli_wake. rewrite Hk. cbn. rewrite Hload. cbn. by rewrite Hfrozen.
  - intros uuid' owner' target' label' project' now' Ho Hl'. unfold reserve_cli_wake. rewrite Hk, Hload.
    rewrite bool_decide_eq_false_2, (proj2 (Nat.ltb_ge _ _) Hl') by done. cbn [orb rec_row]. rewrite Hfrozen. cbn.
    destruct (_ <=? _); [done|]. repeat case_bool_decide; naive_solver.
Qed.
End CliReplay.

(** ** The state, and what a lock reads beside it *)

(** A task of the native delegations, as far as the wakes read it. *)
Record NativeTask := mkTask {
  nt_task_id : string;
  nt_owner : string;
  nt_root_owner_agent_id : string;
  nt_child_instance : option string;
  nt_mission : string;
  nt_state : string;
  nt_cleanup_done : bool;
  nt_parent_task_id : option string;
  nt_parent_execution_id : option string }.
Definition root_owner (t : NativeTask) : string :=
  if bool_decide (t.(nt_root_owner_agent_id) = "") then t.(nt_owner) else t.(nt_root_owner_agent_id).

(** The tasks by child and by identifier ([Err] when they cannot be read), the
    links of the fleet, the instances that a task manages, the executions. *)
Record NativeWorld := mkNativeWorld {
  nv_for_child : string → result () (option NativeTask);
  nv_get : string → result () (option NativeTask);
  nv_links : LinkDb;
  nv_managed : string → option string;
  nv_executions : ExecDb }.

Record Beside := mkBeside {
  be_mono : Z;                        (** the clock that dates the presences *)
  be_native : NativeWorld;
  be_directory : Directory;
  be_path : string → option bool      (** whether an agent type runs by its protocol; [None] when it is unknown *) }.

Section World.
Context `{P : PayloadCodec}.
Record WakeWorld := mkWorld {
  ww_daemon : Daemon;
  ww_wakes : gmap string ScheduleRow;
  ww_sends : SendDb;
  ww_threads : ThreadDb }.
Definition set_sends (s : SendDb) (w : WakeWorld) : WakeWorld := mkWorld w.(ww_daemon) w.(ww_wakes) s w.(ww_threads).
Definition set_wakes (t : gmap string ScheduleRow) (w : WakeWorld) : WakeWorld := mkWorld w.(ww_daemon) t w.(ww_sends) w.(ww_threads).
Definition set_threads (t : ThreadDb) (w : WakeWorld) : WakeWorld := mkWorld w.(ww_daemon) w.(ww_wakes) w.(ww_sends) t.
Definition set_breaker (cb : Breaker.CircuitBreaker) (w : WakeWorld) : WakeWorld :=
  mkWorld (with_guards cb w.(ww_daemon).(deduplicator) w.(ww_daemon).(envelope_guard) w.(ww_daemon))
    w.(ww_wakes) w.(ww_sends) w.(ww_threads).

(** Code under the lock: the state, and a result or the refusal that ends it. *)
Definition Locked (A : Type) : Type := WakeWorld → WakeWorld * result string A.
#[global] Instance locked_ret : MRet Locked := λ A a w, (w, Ok a).
#[global] Instance locked_bind : MBind Locked := λ A B f m w,
  match m w with (w', Ok a) => f a w' | (w', Err e) => (w', Err e) end.
Definition fail {A} (e : string) : Locked A := λ w, (w, Err e).
Definition pure {A} (r : result string A) : Locked A := λ w, (w, r).
Definition reading {A} (f : WakeWorld → A) : Locked A := λ w, (w, Ok (f w)).

(** Code that leaves a part of the state as it is. *)
Definition frames {X A} (part : WakeWorld → X) (m : Locked A) : Prop := ∀ w, part (m w).1 = part w.
Lemma frames_bind {X A B} (part : WakeWorld → X) (m : Locked A) (f : A → Locked B) :
  frames part m → (∀ a, frames part (f a)) → frames part (m ≫= f).
Proof.
  intros Hm Hf w. unfold mbind, locked_bind. specialize (Hm w). destruct (m w) as [w' [a|e]]; cbn in *; [|done].
  by rewrite (Hf a w').
Qed.

Lemma locked_bind_Ok {A B} (m : Locked A) (f : A → Locked B) w w' b :
  (m ≫= f) w = (w', Ok b) → ∃ w1 a, m w = (w1, Ok a) ∧ f a w1 = (w', Ok b).
Proof. unfold mbind, locked_bind. destruct (m w) as [w1 [a|e]]; [|done]. eauto. Qed.

(** An operation of the idempotent records; its errors are one refusal. *)
Definition on_records {A}
    (f : gmap (string * string * string) Row → gmap (string * string * string) Row * result IdempotencyError A) : Locked A :=
  λ w, let '(t, r) := f w.(ww_sends).(records) in
       (set_sends (set_records t w.(ww_sends)) w, map_err (λ _, "storage_unavailable") r).
End World.

(** ** Guards *)

Section WakeGuards.
Context `{U : UuidLib} `{C : ThreadCodec} `{P : PayloadCodec}.

Definition task_active (t : NativeTask) : bool :=
  negb t.(nt_cleanup_done) && bool_decide (t.(nt_state) ∈ ["starting"; "mission_pending"; "working"; "waiting_for_children"]).

(** The walk to the root: [seen] holds the tasks met, at most eight. *)
Fixpoint ancestors (fuel : nat) (n : NativeWorld) (root : string) (seen : list string) (current : NativeTask) : result string () :=
  match current.(nt_parent_task_id) with
  | None => Ok ()
  | Some id =>
    match fuel with
    | O => Err "owner_unavailable"
    | S fuel =>
      if (8 <=? length seen)%nat || bool_decide (id ∈ seen) then Err "owner_unavailable"
      else
        next ← map_err (λ _, "storage_unavailable") (n.(nv_get) id);
        next ← ok_or next "owner_unavailable";
        if negb (bool_decide (root_owner next = root)) || negb (task_active next) then Err "owner_unavailable"
        else ancestors fuel n root (id :: seen) next
    end
  end.

Definition wake_native_origin (b : Beside) (d : Daemon) (owner : string) (frozen : option NativeWakeOrigin)
    : result string (option NativeWakeOrigin) :=
  let n := b.(be_native) in
  task ← map_err (λ _, "storage_unavailable") (n.(nv_for_child) owner);
  match task with
  | None => if is_some frozen then Err "owner_unavailable" else Ok None
  | Some task =>
    inst ← ok_or task.(nt_child_instance) "owner_unavailable";
    if is_some_and frozen (λ old, negb (bool_decide (old = mkNative task.(nt_task_id) inst task.(nt_mission))))
       || negb (task_active task)
    then Err "owner_unavailable"
    else
      route ← ok_or (get_agent d.(router) owner) "owner_unavailable";
      if negb (bool_decide (live_connection_identity b.(be_mono) d route.(connection_id) = Some (owner, inst)))
      then Err "owner_unavailable"
      else
        link ← map_err (λ _, "storage_unavailable") (agent_link_for_child n.(nv_links) inst);
        link ← ok_or link "owner_unavailable";
        if negb (bool_decide (link.(role) = "native_delegate")) || negb (owns_child link.(link_state))
           || negb (bool_decide (link.(delegation_id) = Some task.(nt_task_id)))
           || negb (bool_decide (n.(nv_managed) inst = Some task.(nt_task_id)))
        then Err "owner_unavailable"
        else
          _ ← ancestors 8 n (root_owner task) [task.(nt_task_id)] task;
          _ ← match task.(nt_parent_execution_id) with
              | None => Ok ()
              | Some id =>
                x ← map_err (λ _, "storage_unavailable") (execution_snapshot n.(nv_executions) id);
                x ← ok_or x "owner_unavailable";
                ensure (negb (bool_decide (x.(sn_state) ∈ ["interrupted"; "completed"; "failed"; "unreachable"]))) "owner_unavailable"
              end;
          Ok (Some (mkNative task.(nt_task_id) inst task.(nt_mission)))
  end.

Definition presence_named (d : Daemon) (name : string) : bool :=
  existsb (λ kv : string * Presence, bool_decide (kv.2.(p_name) = name)) (map_to_list d.(presences)).

Definition awake (d : Daemon) (agent : string) : result string () :=
  sleeping ← ok_or (Dispatch.dormant d agent) "tracking_storage_unavailable";
  ensure (negb sleeping) "agent_dormant".

Definition wake_target_guard (b : Beside) (k : ThreadTools) (d : Daemon) (threads : ThreadDb) (owner : string) (target : WakeTarget) (now : Z)
    : result string () :=
  match target with
  | SelfTarget => awake d owner
  | AgentTarget id =>
    _ ← ensure (bool_decide (canonical_uuid id = Some id)) "invalid_request";
    _ ← awake d id;
    _ ← ensure (presence_named d id || is_some (get_agent d.(router) id)) "target_unknown";
    if bool_decide (owner = id) then Ok ()
    else
      _ ← map_err (λ _, "project_scope_unavailable")
            (project_scope (agent_communication_project b.(be_mono) d owner) (agent_communication_project b.(be_mono) d id) id None);
      Ok ()
  | ThreadTarget id =>
    match (handle_with_change (D := b.(be_directory)) k threads owner (Threads.mkRequest None 1 (ShowThread id)) now).1.2 with
    | RShown _ thread members _ _ =>
      if is_some thread.(th_closed_at) then Err "thread_unavailable"
      else
        _ ← map_err (λ _, "project_scope_unavailable") (communication_scope (Directory := b.(be_directory)) owner (fst <$> members) None);
        Ok ()
    | _ => Err "thread_unavailable"
    end
  end.
End WakeGuards.

(** ** The delivery *)

(** The clocks of one delivery: the tick that starts it (monotonic), the wall
    clock and the monotonic clock read first, the wall clock before and after
    the record of a thread wake, and the readings inside the second lock.  A
    wall clock is [None] before the epoch; all are in nanoseconds. *)
Record WakeClocks := mkClocks {
  wc_tick : Z;
  wc_wall_before : option Z;
  wc_mono_anchor : Z;
  wc_wall_post1 : option Z;
  wc_wall_post2 : option Z;
  wc_wall_depart : option Z;
  wc_mono_depart : Z;
  wc_wall_commit : option Z;
  wc_mono_commit : Z;
  wc_mono_last : Z }.

(** How the frame meets its socket: never (the lock of the writer or of the
    state is not had in time), or written, or broken. *)
Inductive Push := PushNever | PushDone (written : bool).

(** [DeliverIdempotent], as far as it is read here. *)
Record WakeFrame := mkFrame { wf_delivery : SendDelivery; wf_message : BridgetMessage }.
(** The target, its connection and its instance. *)
Record WakeRoute := mkRoute { wr_target : string; wr_conn : string; wr_instance : string }.

Definition age_before (c : WakeClocks) : Z := Z.max 0 (c.(wc_mono_anchor) - c.(wc_tick)).
Definition tick_wall_lower (c : WakeClocks) : option Z :=
  wall ← c.(wc_wall_before); if age_before c <=? wall then Some (wall - age_before c) else None.
Definition departure_deadline (c : WakeClocks) : Z :=
  Z.min (c.(wc_tick) + from_secs 1) (c.(wc_mono_anchor) + from_secs 1).
Definition current_now (c : WakeClocks) (now : Z) (wall : option Z) : option Z :=
  wall ← wall; tick ← tick_wall_lower c;
  delta ← u64_checked_sub (as_secs wall) (as_secs tick);
  if delta <=? i64_max then i64_checked_add now delta else None.
Definition current_clock (c : WakeClocks) (mono : Z) : Z := c.(wc_tick) + (age_before c + Z.max 0 (mono - c.(wc_mono_anchor))).

Definition CLIENT_ISSUED_AT_TOLERANCE_SECS : Z := 60.
Definition LOCAL_CLI : string := "bridget-local-cli".

Section Delivery.
Context `{U : UuidLib} `{W : WakeCodec} `{P : PayloadCodec} `{C : ThreadCodec} `{E : EnvelopeCodec}.
Context (tools : ThreadTools) (encode_message : BridgetMessage → string).

(** The wakes of the command line by a shell have no target to guard. *)
Definition unguarded (wake : FrozenWake) : bool := bool_decide (wake.(fw_source) = CliOnce) && bool_decide (wake.(fw_owner) = LOCAL_CLI).
Definition wake_hash (id body : string) : string :=
  digest tools (post_parts id body "all" [] None None None None None).

Definition posted_in (id : string) (o : ThreadTxOutcome) : bool :=
  match o with ThreadStore.Replayed (VPosted t _ _ _ _ _ _ _) => bool_decide (t = id) | _ => false end.

(** The record of a command-line wake is closed with its thread. *)
Definition close_cli_record (k : IdempotencyKey) (wake : FrozenWake) : Locked () :=
  '(_, phase, expires) ← (λ w, (w, x ← map_err (λ _, "storage_unavailable") (cli_wake w.(ww_sends).(records) wake.(fw_id));
                                   ok_or x "storage_unavailable"));
  _ ← (if bool_decide (phase = Prepared) then on_records (λ t, transition t k Prepared Dispatching) else mret ());
  if bool_decide (phase = Terminal) then mret () else on_records (λ t, finalize t k (ResultAccepted expires)).

(** What is already known of the wake: a committed post, or its delivery. *)
Definition known_phase (k : IdempotencyKey) (wake : FrozenWake) (now : Z) : Locked (option WakePhase) :=
  done ← match wake.(fw_target) with
         | ThreadTarget id =>
           operation_id ← pure (ok_or wake.(fw_thread_operation_id) "invalid_request");
           replay ← reading (λ w, thread_operation_replay w.(ww_threads) wake.(fw_owner) operation_id (wake_hash id wake.(fw_body)));
           match replay with
           | None => mret None
           | Some o =>
             if posted_in id o then
               _ ← (if bool_decide (wake.(fw_source) = CliOnce) then close_cli_record k wake else mret ());
               mret (Some WCommittedThread)
             else match o with
                  | Refused ThreadStore.EnvelopeMismatch => fail "envelope_mismatch"
                  | _ => fail "thread_unavailable"
                  end
           end
         | _ => mret None
         end;
  match done with
  | Some p => mret (Some p)
  | None =>
    phase ← reading (λ w, send_delivery_phase w.(ww_sends) k);
    mret (match phase with
          | Some DAcked => Some WConfirmed
          | Some DDispatching => if now <? wake.(fw_grace_until) then Some WDispatchingAgent else Some WOutcomeUnknown
          | Some _ => Some WOutcomeUnknown
          | None => None
          end)
  end.

Definition current_schedule (t : gmap string ScheduleRow) (id : string) : result string WakeSchedule :=
  s ← map_err (λ _, "storage_unavailable") (wake_schedule t id);
  ok_or s "owner_unavailable".
(** The schedule of the wake still has this occurrence, and is not cancelled. *)
Definition still_scheduled (wake : FrozenWake) (s : WakeSchedule) : bool :=
  negb (is_some s.(ws_cancelled_at)) && is_some_and s.(ws_occurrence) (λ w, bool_decide (w.(fw_id) = wake.(fw_id))).

(** A wake for a thread is a post of its owner. *)
Definition post_wake (b : Beside) (c : WakeClocks) (k : IdempotencyKey) (wake : FrozenWake) (id : string) (now : Z) : Locked WakePhase :=
  at1 ← pure (ok_or (current_now c now c.(wc_wall_post1)) "calendar_unavailable");
  if wake.(fw_grace_until) <=? at1 then mret WMissedBeforeDeparture
  else
    _ ← (if bool_decide (wake.(fw_source) = CliOnce) then
           x ← (λ w, (w, map_err (λ _, "storage_unavailable") (cli_wake w.(ww_sends).(records) wake.(fw_id))));
           if is_some_and x (λ x, bool_decide (x.1.2 = Prepared))
           then on_records (λ t, transition t k Prepared Dispatching) else mret ()
         else mret ());
    at2 ← pure (ok_or (current_now c now c.(wc_wall_post2)) "calendar_unavailable");
    if wake.(fw_grace_until) <=? at2 then mret WMissedBeforeDeparture
    else
      operation_id ← pure (ok_or wake.(fw_thread_operation_id) "invalid_request");
      reply ← (λ w, let '(db, reply, _) :=
                      handle_with_change (D := b.(be_directory)) tools w.(ww_threads) wake.(fw_owner)
                        (Threads.mkRequest None 1 (Post id wake.(fw_body) TargetAll operation_id None None None None)) at2 in
                    (set_threads db w, Ok reply));
      _ ← match reply with RValue (VPosted _ _ _ _ _ _ _ _) => mret () | _ => fail "thread_unavailable" end;
      _ ← (if bool_decide (wake.(fw_source) = CliOnce)
           then on_records (λ t, finalize t k (ResultAccepted (i64_saturating_add wake.(fw_issued_at) WAKE_HORIZON_SECS))) else mret ());
      mret WCommittedThread.

Definition ready_state (p : Presence) : bool := bool_decide (p.(p_state) ∈ ["connected"; "busy"]).

(** The first lock: a phase that ends the delivery, or the route to try. *)
Definition first_lock (b : Beside) (c : WakeClocks) (k : IdempotencyKey) (wake : FrozenWake) (scheduled : option string) (now : Z)
    : Locked (WakePhase + WakeRoute) :=
  known ← known_phase k wake now;
  match known with
  | Some p => mret (inl p)
  | None =>
    if wake.(fw_grace_until) <=? now then mret (inl WMissedBeforeDeparture)
    else
      gone ← match scheduled with
             | None => mret false
             | Some id =>
               s ← (λ w, (w, current_schedule w.(ww_wakes) id));
               mret (negb (still_scheduled wake s))
             end;
      if gone : bool then mret (inl WOwnerUnavailable)
      else
        d ← reading ww_daemon;
        if negb (bool_decide (agent_communication_project b.(be_mono) d wake.(fw_owner) = wake.(fw_owner_project)))
        then fail "project_scope_unavailable"
        else
          _ ← pure (wake_native_origin b d wake.(fw_owner) wake.(fw_owner_native));
          _ ← (if unguarded wake then mret ()
               else λ w, (w, wake_target_guard b tools d w.(ww_threads) wake.(fw_owner) wake.(fw_target) now));
          control ← reading (λ w, Control.read w.(ww_sends).(Deliveries.control));
          match admit_autonomous_effect ScheduledWake control with
          | DeferredBy _ => mret (inl WDeferred)
          | EffectAdmitted =>
            match wake.(fw_target) with
            | ThreadTarget id => p ← post_wake b c k wake id now; mret (inl p)
            | _ =>
              let target := match wake.(fw_target) with AgentTarget id => id | _ => wake.(fw_owner) end in
              sleeping ← pure (ok_or (Dispatch.dormant d target) "tracking_storage_unavailable");
              if sleeping : bool then mret (inl WMissedBeforeDeparture)
              else
                route ← pure (ok_or (get_agent d.(router) target) "target_unavailable");
                let conn := route.(connection_id) in
                inst ← pure (ok_or (d.(conn_instances) !! conn) "target_unavailable");
                presence ← pure (ok_or (d.(presences) !! inst) "target_unavailable");
                if is_dnd c.(wc_tick) presence || negb (ready_state presence)
                   || negb (bool_decide (live_connection_identity b.(be_mono) d conn = Some (target, inst)))
                then mret (inl WDeferred)
                else
                  path ← pure (ok_or (b.(be_path) presence.(p_agent_type)) "target_unavailable");
                  if negb path then mret (inl WDeferred)
                  else
                    _ ← pure (ensure (bool_decide (conn ∈ d.(Dispatch.connections))) "target_unavailable");
                    mret (inr (mkRoute target conn inst))
            end
          end
  end.

Definition departure_refused {A} (r : result string A) : result string A := map_err (λ _, "wake departure refused") r.

(** The message that leaves. *)
Definition wake_message (uuid target : string) (wake : FrozenWake) : BridgetMessage :=
  let m := message_new uuid "bridget" target wake.(fw_body) in
  mkMessage m.(cross_project_reason) wake.(fw_id) m.(from) m.(from_display_name) m.(thread_display_title) m.(to) m.(body) false
    m.(hops) m.(reply_timeout) (Some (Z.max 0 wake.(fw_grace_until))) m.(in_reply_to) m.(from_declared)
    (Some Message.System) (Some TriggerTurn) m.(references) m.(delegated_origin) m.(thread_notice).

(** The guards of the second lock. *)
Definition may_depart (b : Beside) (c : WakeClocks) (wake : FrozenWake) (scheduled : option string) (r : WakeRoute) (now : Z)
    (w : WakeWorld) : bool :=
  let d := w.(ww_daemon) in
  bool_decide (agent_communication_project b.(be_mono) d wake.(fw_owner) = wake.(fw_owner_project))
  && (unguarded wake || is_ok (wake_target_guard b tools d w.(ww_threads) wake.(fw_owner) wake.(fw_target) now))
  && is_ok (wake_native_origin b d wake.(fw_owner) wake.(fw_owner_native))
  && match scheduled with
     | None => true
     | Some id => match wake_schedule w.(ww_wakes) id with Ok (Some s) => still_scheduled wake s | _ => false end
     end.
Definition target_ready (b : Beside) (wake : FrozenWake) (r : WakeRoute) (clock : Z) (w : WakeWorld) : bool :=
  let d := w.(ww_daemon) in
  bool_decide (live_connection_identity b.(be_mono) d r.(wr_conn) = Some (r.(wr_target), r.(wr_instance)))
  && is_some_and (get_agent d.(router) r.(wr_target)) (λ route, bool_decide (route.(connection_id) = r.(wr_conn)))
  && is_some_and (d.(presences) !! r.(wr_instance)) (λ p, negb (is_dnd clock p) && ready_state p
       && bool_decide (b.(be_path) p.(p_agent_type) = Some true))
  && Breaker.check_at wake.(fw_owner) r.(wr_target) clock d.(circuit_breaker).

Definition prepared_until (t : gmap (string * string * string) Row) (k : IdempotencyKey) (now : Z) : result string Z :=
  x ← map_err (λ _, "storage_unavailable") (prepared_expiry t k now);
  ok_or x "wake departure refused".

(** [begin_send_delivery], and [record_at] of the breaker. *)
Definition begin_delivery (k : IdempotencyKey) (delivery : SendDelivery) (ledger_now : Z) : Locked () := λ w,
  let '(db, x) := begin_send_delivery_with_guidance w.(ww_sends) k delivery None None None None None ledger_now in
  (set_sends db w, map_err (λ _, "storage_unavailable") x).
Definition record_exchange (owner target : string) (clock : Z) : Locked () := λ w,
  (set_breaker (Breaker.record_at owner target clock w.(ww_daemon).(circuit_breaker)) w, Ok ()).

(** The callback under the lock of the writer; [uuid] and [delivery_id] are fresh. *)
Definition depart (b : Beside) (c : WakeClocks) (k : IdempotencyKey) (wake : FrozenWake) (scheduled : option string) (r : WakeRoute)
    (uuid delivery_id : string) (ledger_now now : Z) : Locked WakeFrame :=
  ok ← reading (may_depart b c wake scheduled r now);
  if negb ok then fail "wake departure refused"
  else
    control ← reading (λ w, Control.read w.(ww_sends).(Deliveries.control));
    at_ ← pure (departure_refused (ok_or (current_now c now c.(wc_wall_depart)) ""));
    ready ← reading (target_ready b wake r (current_clock c c.(wc_mono_depart)));
    if control.(f_paused) || (wake.(fw_grace_until) <=? at_) || negb ready then fail "wake departure refused"
    else
      reservation ← on_records (λ t, reserve t (mkReserve k wake.(fw_canonical_bytes) wake.(fw_issued_at) WAKE_HORIZON_SECS at_
                                                  CLIENT_ISSUED_AT_TOLERANCE_SECS));
      expiry ← match reservation with
               | ReservedPrepared e => mret e
               | Idempotency.Replayed _ =>
                 λ w, (w, prepared_until w.(ww_sends).(records) k at_)
               | _ => fail "wake departure refused"
               end;
      let message := wake_message uuid r.(wr_target) wake in
      let delivery := mkSend delivery_id r.(wr_instance) 1 expiry (encode_message message) in
      commit_now ← pure (departure_refused (ok_or (current_now c now c.(wc_wall_commit)) ""));
      if (wake.(fw_grace_until) <=? commit_now) || (departure_deadline c <=? c.(wc_mono_last)) then fail "wake departure refused"
      else
        _ ← begin_delivery k delivery ledger_now;
        _ ← record_exchange wake.(fw_owner) r.(wr_target) (current_clock c c.(wc_mono_commit));
        mret (mkFrame delivery message).

(** A frame that was given to the writer and not written is indeterminate. *)
Definition after_push (written : bool) (f : WakeFrame) (w : WakeWorld) : WakeWorld :=
  if written then w
  else set_sends (mark_delivery_indeterminate w.(ww_sends) f.(wf_delivery).(sd_id) f.(wf_delivery).(sd_instance) 1).1 w.

(** The second half: the state after it, the phase, and the frame given to the writer. *)
Definition second_lock (b : Beside) (c : WakeClocks) (k : IdempotencyKey) (wake : FrozenWake) (scheduled : option string) (r : WakeRoute)
    (uuid delivery_id : string) (ledger_now now : Z) (push : Push) (w : WakeWorld) : WakeWorld * WakePhase * option WakeFrame :=
  match push with
  | PushNever => (w, WDeferred, None)
  | PushDone written =>
    match depart b c k wake scheduled r uuid delivery_id ledger_now now w with
    | (w', Ok f) => (after_push written f w', WDispatchingAgent, Some f)
    | (w', Err _) => (w', WDeferred, None)
    end
  end.

(** The whole delivery.  [others] is what the other connections do between the
    two locks, [b1] and [b2] what each lock reads. *)
Definition deliver_frozen_wake (b1 b2 : Beside) (c : WakeClocks) (wake : FrozenWake) (scheduled : option string)
    (uuid delivery_id : string) (ledger_now now : Z) (push : Push) (others : WakeWorld → WakeWorld) (w : WakeWorld)
    : WakeWorld * result string WakePhase * option WakeFrame :=
  match key_new (scope_of_source wake.(fw_source)) Send wake.(fw_id) with
  | Err _ => (w, Err "invalid_request", None)
  | Ok k =>
    match first_lock b1 c k wake scheduled now w with
    | (w', Err e) => (w', Err e, None)
    | (w', Ok (inl p)) => (w', Ok p, None)
    | (w', Ok (inr r)) =>
      let '(w'', p, f) := second_lock b2 c k wake scheduled r uuid delivery_id ledger_now now push (others w') in (w'', Ok p, f)
    end
  end.
End Delivery.
