(* ===== verification/WakeTick.v ===== *)
(** * WakeTick: the requests on wakes and the tick that fires them

    [handle_wake_request] and [scheduled_wakes_tick] of [daemon.rs].  The tick
    takes the lock several times for one schedule: [tick_plan] is what it reads
    before it writes, [tick_write] its first write, [deliver_frozen_wake] the
    departure, [tick_settle] the last write.  Before each lock the other
    connections may have run any operations on the schedules and left the rest
    of the state as they like ([Meanwhile]).  [daemon_run] is any sequence of
    requests and ticks; the theorems are about the occurrences it freezes. *)

From S2P Require Import Prelude Text Uuid Message Router Guards Communication Dispatch Reminders Control Sql Idempotency.
From S2P Require Import AgentLinks Guidance Deliveries ExecutionStore ThreadStore ThreadRuns Threads.
From S2P Require Import WakeCalendar WakeStore WakeDelivery.
Local Open Scope Z_scope.

(** ** Requests *)

(** [WakeAction] of [protocol.rs]. *)
Inductive WakeAction :=
  | ScheduleWake (target : WakeTarget) (cadence : WakeCadence) (label : option string)
  | ListWakes
  | CancelWake (schedule_id : string)
  | CliOnceWake (target : string) (label : option string) (id : string)
  | AdminListWakes
  | AdminCancelWake (schedule_id : string).
Record WakeRequest := mkWakeRequest { wq_version : Z; wq_request : WakeAction }.

(** The JSON answers, by their shape. *)
Inductive WakeReply :=
  | Refusal (status code : string)
  | ScheduledReply (s : WakeSchedule)
  | ListedReply (l : list WakeSchedule)
  | CancelledReply (status id : string)
  | RateLimited (retry_after_secs : Z)
  | PreparedReply (id : string) (issued_at : Z) (target : WakeTarget)
  | ReplayedReply (id : string) (issued_at : Z) (result : LookupResult).

(** What is known of the connection beside its identity: its role, its
    negotiation (version, and whether it has the control capability), whether
    it speaks for a human, whether its user is that of the daemon. *)
Record WakeConn := mkWakeConn {
  cn_client : bool; cn_negotiated : option (Z * bool); cn_human : bool; cn_same_uid : bool }.
Definition CLIENT_CONTRACT_VERSION : Z := 1.

(** What a name on the command line stands for in the directory of the agents. *)
Inductive Resolved := AgentNamed (id : string) | NameAmbiguous | NameUnknown.

Definition is_admin (a : WakeAction) : bool := match a with AdminListWakes | AdminCancelWake _ => true | _ => false end.
Definition is_cli (a : WakeAction) : bool := match a with CliOnceWake _ _ _ => true | _ => false end.

Section Requests.
Context `{U : UuidLib} `{W : WakeCodec} `{P : PayloadCodec} `{C : ThreadCodec} `{L : CivilLib}.
Context (tools : ThreadTools) (sha256_hex : string → string).

(** The identity of the request: its owner, its native origin, and whether it is an administrator. *)
Definition wake_requester (b : Beside) (conn : string) (cn : WakeConn) (a : WakeAction) (d : Daemon)
    : result string (string * option NativeWakeOrigin * bool) :=
  who ← (if is_admin a then
           if negb cn.(cn_client) then Err "identity_unavailable"
           else
             n ← ok_or cn.(cn_negotiated) "negotiation_required";
             _ ← ensure n.2 "capability_not_negotiated";
             _ ← ensure cn.(cn_human) "human_actor_required";
             Ok ("", None, true)
         else
           match live_connection_identity b.(be_mono) d conn with
           | Some (owner, _) => native ← wake_native_origin b d owner None; Ok (owner, native, false)
           | None =>
             if is_cli a && cn.(cn_client) && is_some_and cn.(cn_negotiated) (λ n, n.1 =? CLIENT_CONTRACT_VERSION) && cn.(cn_same_uid)
             then Ok (LOCAL_CLI, None, false) else Err "identity_unavailable"
           end);
  if is_cli a && is_some who.1.2 then Err "identity_unavailable" else Ok who.

(** The schedule of a request; [before], [after] and [current] are the zone as the three fingerprints read it. *)
Definition new_schedule (id owner : string) (native : option NativeWakeOrigin) (project : option CommunicationProject) (target : WakeTarget)
    (cadence : WakeCadence) (label : option string) (before after : ZoneSource) (now : Z) : result string WakeSchedule :=
  let label := default "" label in
  if (LABEL_MAX <? String.length label)%nat then Err "invalid_request"
  else
    next ← match cadence with
           | Interval seconds =>
             seconds ← ok_or (then_some (seconds <=? i64_max) seconds) "invalid_request";
             ok_or (i64_checked_add now seconds) "invalid_request"
           | AtTime _ _ => Ok (i64_saturating_add now 1)
           end;
    let s := mkSchedule id owner project native target cadence label now next "" None None None None in
    c ← calculate_cadence sha256_hex before after s now;
    Ok (with_next c.(cs_next_at) c.(cs_next_calendar_date) c.(cs_fingerprint) s).

(** The arm of the creations. *)
Definition schedule_wake (b1 b2 : Beside) (id conn owner : string) (native : option NativeWakeOrigin) (target : WakeTarget)
    (cadence : WakeCadence) (label : option string) (before after current : ZoneSource) (now unix : Z) (w1 w2 : WakeWorld)
    : WakeWorld * result string WakeReply :=
  match (s ← new_schedule id owner native (agent_communication_project b1.(be_mono) w1.(ww_daemon) owner) target cadence label before after now;
         tz ← timezone_fingerprint sha256_hex current now;
         let d := w2.(ww_daemon) in
         _ ← ensure (is_some_and (live_connection_identity b2.(be_mono) d conn) (λ who, bool_decide (who.1 = owner))) "identity_unavailable";
         _ ← wake_native_origin b2 d owner s.(ws_owner_native);
         _ ← wake_target_guard b2 tools d w2.(ww_threads) owner s.(ws_target) unix;
         _ ← ensure (bool_decide (tz = s.(ws_timezone))) calendar_unavailable;
         Ok s) with
  | Err e => (w2, Err e)
  | Ok s =>
    let '(t, r) := create_wake_schedule w2.(ww_wakes) s in
    (set_wakes t w2,
     match r with
     | Ok () => Ok (ScheduledReply s)
     | Err (ThreadInvariant what) => Err (if bool_decide (what = "schedule_limit") then "schedule_limit" else "storage_unavailable")
     | Err _ => Err "storage_unavailable"
     end)
  end.

Definition cancel_reply (id : string) (r : result StoreError bool) : result string WakeReply :=
  match r with
  | Ok changed => Ok (CancelledReply (if changed : bool then "cancelled" else "already_cancelled") id)
  | Err (ThreadInvariant what) =>
    Err (if bool_decide (what = "target_unknown") then "target_unknown"
         else if bool_decide (what = "not_owner") then "not_owner" else "storage_unavailable")
  | Err _ => Err "storage_unavailable"
  end.

(** The arm of the wakes of the command line. *)
Definition cli_once (b : Beside) (conn owner target id : string) (label : option string) (resolved : Resolved) (uuid : string) (now unix : Z)
    (w : WakeWorld) : WakeWorld * result string WakeReply :=
  let label := default "" label in
  let d := w.(ww_daemon) in
  let thread := is_some (canonical_uuid target) && is_some (w.(ww_threads).(threads) !! target) in
  match (if (LABEL_MAX <? String.length label)%nat || bool_decide (id = "") || (256 <? String.length id)%nat then Err "invalid_request"
         else
           agent ← match resolved with
                   | AgentNamed a => Ok (Some a)
                   | NameUnknown => Ok None
                   | NameAmbiguous => if is_some (canonical_uuid target) then Ok None else Err "target_ambiguous"
                   end;
           _ ← ensure (negb (is_some agent && thread)) "target_ambiguous";
           target ← (if thread then
                       _ ← ensure (is_some (live_connection_identity b.(be_mono) d conn)) "identity_unavailable";
                       Ok (ThreadTarget target)
                     else a ← ok_or agent "target_unknown"; Ok (AgentTarget a));
           _ ← (if bool_decide (owner = LOCAL_CLI) then Ok () else wake_target_guard b tools d w.(ww_threads) owner target unix);
           Ok target) with
  | Err e => (w, Err e)
  | Ok target =>
    let '(t, r) := reserve_cli_wake w.(ww_sends).(records) uuid id owner target label (agent_communication_project b.(be_mono) d owner) now in
    (set_sends (set_records t w.(ww_sends)) w,
     match r with
     | Err (CliWakeRateLimited n) => Ok (RateLimited n)
     | Err _ => Err "storage_unavailable"
     | Ok (Idempotency.EnvelopeMismatch, _) => Err "envelope_mismatch"
     | Ok (IdempotencyExpired, _) => Err "request_expired"
     | Ok (ReservedPrepared _, f) => Ok (PreparedReply id f.(fw_issued_at) f.(fw_target))
     | Ok (Idempotency.Replayed x, f) => Ok (ReplayedReply id f.(fw_issued_at) x)
     end)
  end.

(** A request: [w1] is the state that its first lock finds, [w2] the last one. *)
Definition handle_wake_request (b1 b2 : Beside) (conn : string) (cn : WakeConn) (q : WakeRequest) (id uuid : string) (resolved : Resolved)
    (before after current : ZoneSource) (now unix : Z) (w1 w2 : WakeWorld) : WakeWorld * WakeReply :=
  let '(w, r) :=
    match (_ ← ensure (q.(wq_version) =? 1) "invalid_request"; wake_requester b1 conn cn q.(wq_request) w1.(ww_daemon)) with
    | Err e => (w2, Err e)
    | Ok (owner, native, admin) =>
      let whose := if admin : bool then None else Some owner in
      match q.(wq_request) with
      | ScheduleWake target cadence label =>
        schedule_wake b1 b2 id conn owner native target cadence label before after current now unix w1 w2
      | ListWakes | AdminListWakes =>
        (w2, match list_wake_schedules w2.(ww_wakes) whose with Ok l => Ok (ListedReply l) | Err _ => Err "storage_unavailable" end)
      | CancelWake id | AdminCancelWake id =>
        if negb (bool_decide (canonical_uuid id = Some id)) then (w2, Err "invalid_request")
        else let '(t, r) := cancel_wake_schedule w2.(ww_wakes) whose id now in (set_wakes t w2, cancel_reply id r)
      | CliOnceWake target label id => cli_once b2 conn owner target id label resolved uuid now unix w2
      end
    end in
  (w, match r with
      | Ok reply => reply
      | Err code => Refusal (if bool_decide (code ∈ ["storage_unavailable"; "calendar_unavailable"]) then "error" else "refused") code
      end).
End Requests.

(** ** Operations on the schedules *)

(** One operation of the table, by whichever code. *)
Inductive WakeOp :=
  | OpCreate (s : WakeSchedule)
  | OpCancel (owner : option string) (id : string)
  | OpAdvance (id : string) (expected : Z) (calculated_tz current_tz : string) (next_at : Z) (next_date : option string)
  | OpFreeze (id : string) (expected : Z) (calculated_tz current_tz : string) (wake : FrozenWake) (next_at : Z) (date next_date : option string)
  | OpSettle (id key : string) (phase : WakePhase) (next_at : Z) (next_date : option string).

Section Ops.
Context `{U : UuidLib} `{W : WakeCodec} `{P : PayloadCodec}.

(** The table after an operation at [now]. *)
Definition wake_op (t : gmap string ScheduleRow) (now : Z) (op : WakeOp) : gmap string ScheduleRow :=
  match op with
  | OpCreate s => (create_wake_schedule t s).1
  | OpCancel owner id => (cancel_wake_schedule t owner id now).1
  | OpAdvance id e tz tz' next nd => (advance_wake_calendar t id e tz tz' next nd now).1
  | OpFreeze id e tz tz' w next d nd => (freeze_wake_occurrence t id e tz tz' w next d nd).1
  | OpSettle id key p next nd => (settle_wake_occurrence t id key p next nd).1
  end.

(** The occurrence that an operation freezes: its schedule and its date. *)
Definition frozen_by (t : gmap string ScheduleRow) (op : WakeOp) : list (string * Z) :=
  match op with
  | OpFreeze id e tz tz' w next d nd =>
    match (freeze_wake_occurrence t id e tz tz' w next d nd).2 with Ok true => [(id, w.(fw_due_at))] | _ => [] end
  | _ => []
  end.
End Ops.

(** ** The tick, for one schedule *)

(** What other connections did before a lock: operations on the schedules, and the rest of the state as they left it. *)
Record Meanwhile := mkMeanwhile {
  mw_ops : list WakeOp; mw_daemon : Daemon; mw_sends : SendDb; mw_threads : ThreadDb; mw_beside : Beside }.

(** The clocks and identifiers of the departure. *)
Record DepartureArgs := mkDeparture {
  da_clocks : WakeClocks; da_uuid : string; da_delivery_id : string; da_ledger_now : Z; da_push : Push }.

(** What the tick reads of one schedule: before its write (the thread of the
    occurrence, its origin, its delivery), at its write, at the two locks of
    the departure and at the last write; the zone as each fingerprint reads it;
    a fresh identifier for a post. *)
Record TickArgs := mkTick {
  ta_read : Meanwhile; ta_write : Meanwhile; ta_depart1 : Meanwhile; ta_depart2 : Meanwhile; ta_settle : Meanwhile;
  ta_zone1 : ZoneSource; ta_before : ZoneSource; ta_after : ZoneSource; ta_zone2 : ZoneSource;
  ta_future_before : ZoneSource; ta_future_after : ZoneSource;
  ta_operation_id : string; ta_departure : DepartureArgs }.

(** What the reads give: the occurrence in flight, whether the origin is closed, the phase of
    a cancellation, the calendar and the zone. *)
Record TickPlan := mkPlan {
  tp_frozen : option FrozenWake; tp_owner_closed : bool; tp_cancellation : option WakePhase;
  tp_calendar : CalendarSnapshot; tp_current_tz : string }.

Section Tick.
Context `{U : UuidLib} `{W : WakeCodec} `{P : PayloadCodec} `{C : ThreadCodec} `{E : EnvelopeCodec} `{L : CivilLib}.
Context (tools : ThreadTools) (encode_message : BridgetMessage → string) (sha256_hex : string → string).

Definition meanwhile (now : Z) (m : Meanwhile) (w : WakeWorld) : WakeWorld :=
  mkWorld m.(mw_daemon) (foldl (λ t op, wake_op t now op) w.(ww_wakes) m.(mw_ops)) m.(mw_sends) m.(mw_threads).

(** Whether the post of an occurrence is committed; [None] leaves the schedule for a later tick. *)
Definition committed_thread (threads : ThreadDb) (frozen : option FrozenWake) : option bool :=
  match frozen with
  | None => Some false
  | Some wake =>
    match wake.(fw_target) with
    | ThreadTarget id =>
      operation_id ← wake.(fw_thread_operation_id);
      match thread_operation_replay threads wake.(fw_owner) operation_id (wake_hash tools id wake.(fw_body)) with
      | None => Some false
      | Some o => if posted_in id o then Some true else None
      end
    | _ => Some false
    end
  end.

(** What becomes of an occurrence whose schedule is cancelled or whose origin is closed. *)
Definition cancellation_phase (sends : SendDb) (wake : FrozenWake) (now : Z) : option (option WakePhase) :=
  k ← ok (key_new SCHEDULED_WAKE_SCOPE Send wake.(fw_id));
  Some (match send_delivery_phase sends k with
        | None => Some WOwnerUnavailable
        | Some DAcked => Some WConfirmed
        | Some DDispatching => if now <? wake.(fw_grace_until) then None else Some WOutcomeUnknown
        | Some _ => Some WOutcomeUnknown
        end).

Definition live_occurrence (s : WakeSchedule) : option FrozenWake := opt_filter (λ w, negb (terminal w.(fw_phase))) s.(ws_occurrence).

Definition tick_plan (a : TickArgs) (s : WakeSchedule) (now : Z) : option TickPlan :=
  let m := a.(ta_read) in
  let frozen := live_occurrence s in
  if is_some s.(ws_cancelled_at) && negb (is_some frozen) then None
  else
    committed ← committed_thread m.(mw_threads) frozen;
    let native := wake_native_origin m.(mw_beside) m.(mw_daemon) s.(ws_owner) s.(ws_owner_native) in
    let closed := match native with Err e => bool_decide (e = "owner_unavailable") | Ok _ => false end in
    if negb (is_ok native) && negb closed && negb committed then None
    else
      phase ← (if committed : bool then Some (Some WCommittedThread)
               else if is_some s.(ws_cancelled_at) || closed then
                 match frozen with Some wake => cancellation_phase m.(mw_sends) wake now | None => Some None end
               else Some None);
      tz ← ok (timezone_fingerprint sha256_hex a.(ta_zone1) now);
      calendar ← (if (negb (is_some frozen) && ((s.(ws_next_at) <=? now) || negb (bool_decide (tz = s.(ws_timezone)))))
                     || (is_some phase && (s.(ws_next_at) <=? now))
                  then ok (calculate_cadence sha256_hex a.(ta_before) a.(ta_after) s now)
                  else Some (mkSnapshot tz s.(ws_next_at) None None s.(ws_next_calendar_date)));
      current ← ok (timezone_fingerprint sha256_hex a.(ta_zone2) now);
      Some (mkPlan frozen closed phase calendar current).

(** The occurrence that the tick freezes at [due]. *)
Definition scheduled_occurrence (s : WakeSchedule) (due now : Z) (operation_id : string) : FrozenWake :=
  mkFrozen 1 Scheduled s.(ws_target) s.(ws_owner) s.(ws_owner_project) s.(ws_owner_native) due now
    (i64_saturating_add due GRACE_SECS) (wake_key s.(ws_schedule_id) due) s.(ws_label)
    ("Réveil programmé par " +:+ s.(ws_owner) +:+ Message.newline +:+ s.(ws_label)) ""
    (then_some (is_thread s.(ws_target)) operation_id) None WPrepared.

(** The end of an occurrence. *)
Definition settlement (s : WakeSchedule) (wake : FrozenWake) (phase : WakePhase) (c : CalendarSnapshot) : WakeOp :=
  OpSettle s.(ws_schedule_id) wake.(fw_id) phase (Z.max c.(cs_next_at) s.(ws_next_at)) c.(cs_next_calendar_date).

(** The operations of the write, in their order, and the occurrence that leaves after it. *)
Definition tick_write (a : TickArgs) (s : WakeSchedule) (p : TickPlan) (now : Z) (w : WakeWorld) : list WakeOp * option FrozenWake :=
  let c := p.(tp_calendar) in
  match p.(tp_owner_closed), p.(tp_cancellation), p.(tp_frozen) with
  | true, Some phase, Some wake => ([OpCancel (Some s.(ws_owner)) s.(ws_schedule_id); settlement s wake phase c], None)
  | true, _, _ => ([OpCancel (Some s.(ws_owner)) s.(ws_schedule_id)], None)
  | false, Some phase, Some wake => ([settlement s wake phase c], None)
  | false, _, Some wake => ([], Some wake)
  | false, _, None =>
    if is_some s.(ws_cancelled_at) || (Control.read w.(ww_sends).(Deliveries.control)).(f_paused) then ([], None)
    else
      match c.(cs_due_at) with
      | Some due =>
        let guard := wake_target_guard a.(ta_write).(mw_beside) tools w.(ww_daemon) w.(ww_threads) s.(ws_owner) s.(ws_target) now in
        let sleeping := match guard with Err e => bool_decide (e = "agent_dormant") | Ok _ => false end in
        if negb (is_ok guard) && negb sleeping then ([], None)
        else
          match freeze_canonical (scheduled_occurrence s due now a.(ta_operation_id)) with
          | Err _ => ([], None)
          | Ok wake =>
            let freeze := OpFreeze s.(ws_schedule_id) s.(ws_next_at) c.(cs_fingerprint) p.(tp_current_tz) wake c.(cs_next_at)
                            c.(cs_calendar_date) c.(cs_next_calendar_date) in
            match frozen_by w.(ww_wakes) freeze with
            | [] => ([freeze], None)
            | _ =>
              if sleeping
              then ([freeze; OpSettle s.(ws_schedule_id) wake.(fw_id) WMissedBeforeDeparture c.(cs_next_at) c.(cs_next_calendar_date)], None)
              else ([freeze], Some wake)
            end
          end
      | None =>
        if negb (c.(cs_next_at) =? s.(ws_next_at)) || negb (bool_decide (c.(cs_fingerprint) = s.(ws_timezone)))
        then ([OpAdvance s.(ws_schedule_id) s.(ws_next_at) c.(cs_fingerprint) p.(tp_current_tz) c.(cs_next_at) c.(cs_next_calendar_date)], None)
        else ([], None)
      end
  end.

(** The calendar of the last write; [None] leaves the occurrence for a later tick. *)
Definition future_calendar (a : TickArgs) (s : WakeSchedule) (p : TickPlan) (phase : WakePhase) (now : Z) : option CalendarSnapshot :=
  if terminal phase && (s.(ws_next_at) <=? now)
  then ok (calculate_cadence sha256_hex a.(ta_future_before) a.(ta_future_after) s now) else Some p.(tp_calendar).

(** The departure of an occurrence, its two locks and what happens between them. *)
Definition tick_deliver (a : TickArgs) (s : WakeSchedule) (wake : FrozenWake) (now : Z) (w : WakeWorld)
    : WakeWorld * result string WakePhase * option WakeFrame :=
  let d := a.(ta_departure) in
  deliver_frozen_wake tools encode_message a.(ta_depart1).(mw_beside) a.(ta_depart2).(mw_beside) d.(da_clocks) wake
    (Some s.(ws_schedule_id)) d.(da_uuid) d.(da_delivery_id) d.(da_ledger_now) now d.(da_push)
    (meanwhile now a.(ta_depart2)) (meanwhile now a.(ta_depart1) w).

(** The operations in the order in which they reach the table. *)
Definition run_ops (t : gmap string ScheduleRow) (now : Z) (ops : list WakeOp) : gmap string ScheduleRow * list (string * Z) :=
  foldl (λ acc op, (wake_op acc.1 now op, acc.2 ++ frozen_by acc.1 op)) (t, []) ops.

(** The tick of one schedule: the state after it, the occurrences it froze, the frame it sent. *)
Definition tick_schedule (a : TickArgs) (s : WakeSchedule) (now : Z) (w : WakeWorld) : WakeWorld * list (string * Z) * option WakeFrame :=
  match tick_plan a s now with
  | None => (w, [], None)
  | Some p =>
    let w1 := meanwhile now a.(ta_write) w in
    let '(ops, leaving) := tick_write a s p now w1 in
    let '(t, log) := run_ops w1.(ww_wakes) now ops in
    let w2 := set_wakes t w1 in
    match leaving with
    | None => (w2, log, None)
    | Some wake =>
      let '(w3, r, f) := tick_deliver a s wake now w2 in
      match r with
      | Err _ => (w3, log, f)
      | Ok phase =>
        match future_calendar a s p phase now with
        | None => (w3, log, f)
        | Some c =>
          let w4 := meanwhile now a.(ta_settle) w3 in
          (set_wakes (wake_op w4.(ww_wakes) now (settlement s wake phase c)) w4, log, f)
        end
      end
    end
  end.

(** The whole tick on the schedules it lists at its start; [args] gives each its readings. *)
Fixpoint tick_all (args : WakeSchedule → TickArgs) (l : list WakeSchedule) (now : Z) (w : WakeWorld)
    : WakeWorld * list (string * Z) * list WakeFrame :=
  match l with
  | [] => (w, [], [])
  | s :: l =>
    let '(w1, log, f) := tick_schedule (args s) s now w in
    let '(w2, log', fs) := tick_all args l now w1 in
    (w2, log ++ log', option_list f ++ fs)
  end.
Definition scheduled_wakes_tick (args : WakeSchedule → TickArgs) (now : Z) (w : WakeWorld) : WakeWorld * list (string * Z) * list WakeFrame :=
  match list_wake_schedules w.(ww_wakes) None with
  | Ok l => tick_all args l now w
  | Err _ => (w, [], [])
  end.
End Tick.

(** ** The tick, for the wakes of the command line *)

Section CliTick.
Context `{U : UuidLib} `{W : WakeCodec} `{P : PayloadCodec} `{C : ThreadCodec} `{E : EnvelopeCodec}.
Context (tools : ThreadTools) (encode_message : BridgetMessage → string).

(** The outcomes that close the record of a wake. *)
Definition cli_terminal (r : result string WakePhase) : option PublicResult :=
  match r with
  | Ok WMissedBeforeDeparture => Some (ResultRejected "missed_before_departure" "réveil expiré avant départ")
  | Ok WOutcomeUnknown => Some (ResultOrphaned "outcome_unknown")
  | Err e => if bool_decide (e = "owner_unavailable") then Some (ResultRejected "owner_unavailable" "origine native terminée") else None
  | Ok _ => None
  end.

(** The record is put in dispatch, if it was not, and closed; errors are ignored. *)
Definition close_cli (id : string) (result : PublicResult) (t : gmap (string * string * string) Row) : gmap (string * string * string) Row :=
  match key_new CLI_WAKE_SCOPE Send id with
  | Err _ => t
  | Ok k =>
    let t1 := match cli_wake t id with
              | Ok (Some (_, Prepared, _)) => (transition t k Prepared Dispatching).1
              | _ => t
              end in
    (finalize t1 k result).1
  end.

(** The pending wakes in turn; the cursor is the last one tried. *)
Fixpoint cli_wakes (args : FrozenWake → TickArgs) (l : list FrozenWake) (now : Z) (w : WakeWorld) (cursor : option (Z * string))
    : WakeWorld * option (Z * string) * list WakeFrame :=
  match l with
  | [] => (w, cursor, [])
  | wake :: l =>
    let a := args wake in
    let d := a.(ta_departure) in
    let '(w1, r, f) :=
      deliver_frozen_wake tools encode_message a.(ta_depart1).(mw_beside) a.(ta_depart2).(mw_beside) d.(da_clocks) wake None
        d.(da_uuid) d.(da_delivery_id) d.(da_ledger_now) now d.(da_push) (meanwhile now a.(ta_depart2)) (meanwhile now a.(ta_depart1) w) in
    let w2 := match cli_terminal r with
              | None => w1
              | Some result => set_sends (set_records (close_cli wake.(fw_id) result w1.(ww_sends).(records)) w1.(ww_sends)) w1
              end in
    let '(w3, cursor', fs) := cli_wakes args l now w2 (Some (wake.(fw_issued_at), wake.(fw_id))) in
    (w3, cursor', option_list f ++ fs)
  end.
Definition cli_wakes_tick (args : FrozenWake → TickArgs) (now : Z) (w : WakeWorld) (cursor : option (Z * string))
    : WakeWorld * option (Z * string) * list WakeFrame :=
  match pending_cli_wakes w.(ww_sends).(records) now cursor with
  | Err _ => (w, cursor, [])
  | Ok [] => (w, None, [])
  | Ok l => cli_wakes args ((λ x, x.1.1) <$> l) now w cursor
  end.
End CliTick.

(** ** Occurrences go forward *)

Section Forward.
Context `{U : UuidLib} `{W : WakeCodec} `{P : PayloadCodec} {PL : PayloadLaws P}.

(** What the code guarantees of its operations: a schedule is created with a
    date to come, an occurrence is frozen when it is due. *)
Definition timely_op (now : Z) (op : WakeOp) : Prop :=
  match op with
  | OpCreate s => now < s.(ws_next_at)
  | OpFreeze _ _ _ _ w _ _ _ => w.(fw_due_at) ≤ now
  | _ => True
  end.

(** Two occurrences of a schedule are at increasing dates. *)
Definition fires_forward (log : list (string * Z)) : Prop :=
  ∀ i j id d1 d2, (i < j)%nat → log !! i = Some (id, d1) → log !! j = Some (id, d2) → d1 < d2.
(** The log agrees with the table: what was frozen was due, and is before the next date. *)
Definition log_ok (clock : Z) (t : gmap string ScheduleRow) (log : list (string * Z)) : Prop :=
  wakes_ok clock t ∧ fires_forward log ∧
  ∀ id due, (id, due) ∈ log → due ≤ clock ∧ ∀ r, t !! id = Some r → due < r.(sr_next_at).

Lemma fires_snoc log id due :
  fires_forward log → (∀ d, (id, d) ∈ log → d < due) → fires_forward (log ++ [(id, due)]).
Proof.
  intros Hf Hd i j id' d1 d2 Hij Hi Hj. apply lookup_app_Some in Hj as [Hj|[Hlen Hj]].
  - rewrite lookup_app_l in Hi by (apply lookup_lt_Some in Hj; lia). by eapply Hf.
  - apply list_lookup_singleton_Some in Hj as [Hz [= <- <-]]. rewrite lookup_app_l in Hi by lia.
    eapply Hd, list_elem_of_lookup_2, Hi.
Qed.

(** A row evolves without going back below what it was, or past the clock. *)
Lemma log_change clock now t log id t' Q :
  clock ≤ now → log_ok clock t log → one_change clock id t t' Q →
  (∀ s s', evolves id s s' → Q s s' → s.(ws_next_at) ≤ s'.(ws_next_at) ∨ now < s'.(ws_next_at)) →
  (∀ s s' w, schedule_ok clock id s → Q s s' → s'.(ws_occurrence) = Some w → w.(fw_due_at) ≤ now) →
  log_ok now t' log.
Proof.
  intros Hc (Hok & Hf & Hl) (s & s' & Hid & Hs & Hev & -> & HQ) Hnext Hdue.
  pose proof (wakes_ok_later _ now _ Hc Hok) as Hok'. pose proof (schedule_ok_later _ now _ _ Hc Hs) as Hs'.
  destruct (evolves_ok now id s s' Hs' Hev) as [Hgood Ho]; [by intros w; apply (Hdue s)|].
  split_and!; [by eapply wakes_ok_update|done|]. intros i due Hin. destruct (Hl i due Hin) as [Hd Hr]. split; [lia|].
  intros r [[<- <-]|[_ Hr']]%lookup_insert_Some; [|by apply Hr]. cbn. specialize (Hr _ Hid). cbn in Hr.
  destruct (Hnext s s' Hev HQ); lia.
Qed.

Lemma log_same clock now t log : clock ≤ now → log_ok clock t log → log_ok now t log.
Proof.
  intros Hc (Hok & Hf & Hl). split_and!; [by eapply wakes_ok_later|done|]. intros i due Hin.
  destruct (Hl i due Hin) as [Hd Hr]. split; [lia|done].
Qed.

Lemma canonised_due clock id s w : schedule_ok clock id s → canonised <$> s.(ws_occurrence) = Some w → w.(fw_due_at) ≤ clock.
Proof.
  intros (_ & _ & _ & Ho) (w0 & Hw0 & ->)%fmap_Some. destruct (Ho w0 Hw0) as (_ & _ & _ & _ & _ & _ & _ & _ & _ & Hd). done.
Qed.

Lemma log_create clock now t log s :
  clock ≤ now → now < s.(ws_next_at) → log_ok clock t log → log_ok now (create_wake_schedule t s).1 log.
Proof.
  intros Hc Hn H. apply (log_same _ now) in H as (Hok & Hf & Hl); [|done]. split_and!; [by apply create_ok|done|].
  intros i due Hin. destruct (Hl i due Hin) as [Hd Hr]. split; [done|]. intros r.
  destruct (create_cases t s) as [(e & -> & _)|(t' & Hroom & _ & _ & ->)]; [by apply Hr|]. cbn.
  intros [[<- <-]|[_ Hr']]%lookup_insert_Some; [cbn; lia|]. apply Hr.
  pose proof (make_both_rooms t s.(ws_owner)) as Hb. cbv zeta in Hroom. rewrite Hroom in Hb. destruct Hb as (Hs & _).
  by eapply lookup_weaken.
Qed.

(** Every operation keeps the log and the table in agreement. *)
Lemma log_op clock now t log op :
  clock ≤ now → timely_op now op → log_ok clock t log → log_ok now (wake_op t now op) (log ++ frozen_by t op).
Proof using PL.
  intros Hc Hop H. pose proof (proj1 (proj1 H)) as Hrows. destruct op as [s|owner id|id e tz tz' next nd|id e tz tz' w next d nd|id key p next nd];
    cbn [frozen_by wake_op]; rewrite ?app_nil_r.
  - by apply (log_create clock).
  - destruct (cancel_cases clock t owner id now Hrows) as [->|Hch]; [by apply (log_same clock)|].
    apply (log_change clock now t log id _ _ Hc H Hch).
    + intros s s' _ (_ & -> & _). by left.
    + intros s s' w Hs (_ & -> & _) Hw. pose proof (canonised_due _ _ _ _ Hs Hw). lia.
  - destruct (advance_cases clock t id e tz tz' next nd now Hrows Hc) as [->|Hch]; [by apply (log_same clock)|].
    apply (log_change clock now t log id _ _ Hc H Hch).
    + intros s s' _ (_ & Hlt & _ & _ & ->). by right.
    + intros s s' w Hs (_ & _ & Ho & _) Hw. rewrite Ho in Hw. pose proof (canonised_due _ _ _ _ Hs Hw). lia.
  - cbn in Hop. destruct (freeze_cases clock t id e tz tz' w next d nd Hrows) as [[Hsame Hno]|[Hyes Hch]].
    + rewrite Hsame. destruct (freeze_wake_occurrence _ _ _ _ _ _ _ _ _).2 as [[]|]; [done|..]; rewrite app_nil_r; by apply (log_same clock).
    + rewrite Hyes. pose proof Hch as (s & s' & Hid & _ & _ & Ht' & Hn & _ & _ & Hdue & Hn' & _).
      assert (log_ok now (freeze_wake_occurrence t id e tz tz' w next d nd).1 log) as (Hok & Hf & Hl).
      { apply (log_change clock now t log id _ _ Hc H Hch).
        - intros s1 s1' _ (<- & _ & _ & Hd & -> & _). left. lia.
        - intros s1 s1' w1 _ (_ & _ & _ & _ & _ & w' & Hw' & Hd' & _) Hw1. simplify_eq. lia. }
      split_and!; [done| |].
      * apply fires_snoc; [done|]. intros d0 Hin. destruct H as (_ & _ & Hold). destruct (Hold id d0 Hin) as [_ Hr].
        specialize (Hr _ Hid). cbn in Hr. lia.
      * intros i due [Hin|Hin%list_elem_of_singleton]%elem_of_app; [by apply Hl|]. injection Hin as -> ->. split; [done|].
        intros r. rewrite Ht', lookup_insert_eq. intros [= <-]. cbn. rewrite Hn'. lia.
  - destruct (settle_cases clock t id key p next nd Hrows) as [[-> _]|[_ Hch]]; [by apply (log_same clock)|].
    apply (log_change clock now t log id _ _ Hc H Hch).
    + intros s s' _ (w & _ & _ & _ & _ & Hle). by left.
    + intros s s' w Hs (w0 & Hw0 & _ & Ho & _) Hw. rewrite Ho in Hw. injection Hw as <-. cbn.
      enough (w0.(fw_due_at) ≤ clock) by lia. apply (canonised_due clock id s (canonised w0)); [done|]. by rewrite Hw0.
Qed.
End Forward.

(** ** The code keeps the log *)

Section TickLog.
Context `{U : UuidLib} `{W : WakeCodec} `{P : PayloadCodec} {PL : PayloadLaws P} `{C : ThreadCodec} `{E : EnvelopeCodec} `{L : CivilLib}.
Context (tools : ThreadTools) (encode_message : BridgetMessage → string) (sha256_hex : string → string).

(** The other connections run requests: they create and cancel. *)
Definition from_request (now : Z) (op : WakeOp) : Prop :=
  match op with OpCreate s => now < s.(ws_next_at) | OpCancel _ _ => True | _ => False end.

Lemma request_log clock now t log ops :
  clock ≤ now → Forall (from_request now) ops → log_ok clock t log →
  log_ok now (foldl (λ t op, wake_op t now op) t ops) log.
Proof using PL.
  intros Hc Ho H. apply (log_same _ now) in H; [|done]. clear Hc. revert t H.
  induction Ho as [|op ops Hop Ho IH]; intros t H; [done|]. cbn. apply IH.
  assert (timely_op now op ∧ frozen_by t op = []) as [Ht Hn] by by destruct op.
  rewrite <-(app_nil_r log), <-Hn. by apply (log_op now).
Qed.

Lemma ops_log clock now ops : ∀ t log,
  clock ≤ now → Forall (timely_op now) ops → log_ok clock t log →
  log_ok now (run_ops t now ops).1 (log ++ (run_ops t now ops).2).
Proof using PL.
  intros t log Hc Ho H. apply (log_same _ now) in H; [|done]. clear Hc. unfold run_ops.
  assert (∀ acc, log_ok now acc.1 (log ++ acc.2) →
    log_ok now (foldl (λ acc op, (wake_op acc.1 now op, acc.2 ++ frozen_by acc.1 op)) acc ops).1
      (log ++ (foldl (λ acc op, (wake_op acc.1 now op, acc.2 ++ frozen_by acc.1 op)) acc ops).2)) as Hgo.
  { induction Ho as [|op ops Hop Ho IH]; intros acc Hacc; [done|]. cbn. apply IH. cbn. rewrite app_assoc.
    by apply (log_op now). }
  apply Hgo. cbn. by rewrite app_nil_r.
Qed.

(** *** Code under the lock leaves the schedules alone *)

Definition spares {A} (m : Locked A) : Prop := frames ww_wakes m.
Lemma spares_bind {A B} (m : Locked A) (f : A → Locked B) : spares m → (∀ a, spares (f a)) → spares (m ≫= f).
Proof. apply frames_bind. Qed.
Lemma spares_records {A} (f : gmap (string * string * string) Row → gmap (string * string * string) Row * result IdempotencyError A) :
  spares (on_records f).
Proof. intros w. unfold on_records. by destruct (f _). Qed.
Lemma spares_begin k d n : spares (begin_delivery k d n).
Proof. intros w. unfold begin_delivery. by destruct (begin_send_delivery_with_guidance _ _ _ _ _ _ _ _ _). Qed.
Lemma spares_post b w0 q now : spares (λ w, let '(db, reply, _) := handle_with_change (D := b) tools w.(ww_threads) w0 q now in
  (set_threads db w, @Ok string ThreadReply reply)).
Proof. intros w. by destruct (handle_with_change _ _ _ _ _) as [[? ?] ?]. Qed.

Ltac only_spares :=
  repeat match goal with
    | |- spares (_ ≫= _) => apply spares_bind; [|intros ?]
    | |- spares (match ?x with _ => _ end) => destruct x
    | |- spares (let _ := _ in _) => cbv zeta
    | |- spares (on_records _) => apply spares_records
    | |- spares (begin_delivery _ _ _) => apply spares_begin
    end; try (done || apply spares_post).

Lemma known_phase_spares k wake now : spares (known_phase tools k wake now).
Proof. unfold known_phase, close_cli_record. only_spares. Qed.
Lemma first_lock_spares b c k wake scheduled now : spares (first_lock tools b c k wake scheduled now).
Proof.
  unfold first_lock. apply spares_bind; [apply known_phase_spares|]. intros known. unfold post_wake. only_spares.
Qed.
Lemma depart_spares b c k wake scheduled r uuid did lnow now : spares (depart tools encode_message b c k wake scheduled r uuid did lnow now).
Proof. unfold depart. only_spares. Qed.

(** A delivery leaves the schedules to what happens between its locks. *)
Lemma deliver_wakes b1 b2 c wake scheduled uuid did lnow now push others w :
  let w' := (deliver_frozen_wake tools encode_message b1 b2 c wake scheduled uuid did lnow now push others w).1.1 in
  w'.(ww_wakes) = w.(ww_wakes) ∨ ∃ w1, w1.(ww_wakes) = w.(ww_wakes) ∧ w'.(ww_wakes) = (others w1).(ww_wakes).
Proof.
  cbv zeta. unfold deliver_frozen_wake. destruct (key_new _ _ _) as [k|]; [|by left].
  pose proof (first_lock_spares b1 c k wake scheduled now w) as Hf.
  destruct (first_lock _ _ _ _ _ _ _ w) as [w1 [[p|r]|e]]; cbn in Hf; [by left| |by left].
  right. exists w1. split; [done|]. unfold second_lock. destruct push as [|written]; [done|].
  pose proof (depart_spares b2 c k wake scheduled r uuid did lnow now (others w1)) as Hd.
  destruct (depart _ _ _ _ _ _ _ _ _ _ _ _ (others w1)) as [w2 [f|e]]; cbn in Hd |- *; [|done].
  rewrite <-Hd. by destruct written.
Qed.

Definition meanwhile_ok (now : Z) (m : Meanwhile) : Prop := Forall (from_request now) m.(mw_ops).
Definition tick_ok (now : Z) (a : TickArgs) : Prop :=
  meanwhile_ok now a.(ta_write) ∧ meanwhile_ok now a.(ta_depart1) ∧ meanwhile_ok now a.(ta_depart2) ∧ meanwhile_ok now a.(ta_settle).

Lemma meanwhile_log clock now m w log :
  clock ≤ now → meanwhile_ok now m → log_ok clock w.(ww_wakes) log → log_ok now (meanwhile now m w).(ww_wakes) log.
Proof using PL. intros Hc Hm H. cbn. by apply (request_log clock). Qed.

(** What the plan says is due is due. *)
Lemma plan_due a s now p d :
  tick_plan tools sha256_hex a s now = Some p → p.(tp_calendar).(cs_due_at) = Some d → d ≤ now.
Proof.
  unfold tick_plan. destruct (_ && _); [done|]. intros H. apply bind_Some in H as (co & _ & H).
  destruct (negb _ && _ && _); [done|]. apply bind_Some in H as (ph & _ & H). apply bind_Some in H as (tz & _ & H).
  apply bind_Some in H as (c & Hc & H). apply bind_Some in H as (cur & _ & [= <-]). cbn. destruct (_ || _).
  - destruct (calculate_cadence _ _ _ _ _) as [c'|] eqn:Ec; [|done]. injection Hc as ->. intros Hd.
    by apply (cadence_bounds sha256_hex _ _ _ _ _ Ec).
  - by injection Hc as <-.
Qed.

Lemma write_timely a s p now w :
  (∀ d, p.(tp_calendar).(cs_due_at) = Some d → d ≤ now) → Forall (timely_op now) (tick_write tools a s p now w).1.
Proof.
  intros Hd. unfold tick_write.
  destruct p.(tp_owner_closed), p.(tp_cancellation), p.(tp_frozen); try (by repeat constructor).
  all: destruct (is_some _ || f_paused _); [by constructor|]; destruct p.(tp_calendar).(cs_due_at) as [due|];
    [|destruct (negb (_ =? _) || _); by repeat constructor].
  all: specialize (Hd due eq_refl); cbv zeta; destruct (negb (is_ok _) && _); [by constructor|];
    destruct (freeze_canonical _) as [w'|] eqn:Hf; [|by constructor]; apply freeze_canonical_Ok in Hf as [_ ->];
    destruct (frozen_by _ _); [by repeat constructor|]; by case_match; repeat constructor.
Qed.

Lemma tick_schedule_log clock now a s w log :
  clock ≤ now → tick_ok now a → log_ok clock w.(ww_wakes) log →
  let x := tick_schedule tools encode_message sha256_hex a s now w in log_ok now x.1.1.(ww_wakes) (log ++ x.1.2).
Proof using PL.
  intros Hc (Hw & Hd1 & Hd2 & Hs) H. cbv zeta. unfold tick_schedule.
  destruct (tick_plan tools sha256_hex a s now) as [p|] eqn:Hp; [|cbn; rewrite app_nil_r; by apply (log_same clock)].
  apply (meanwhile_log _ now a.(ta_write)) in H; [|done..]. set (w1 := meanwhile now a.(ta_write) w) in *.
  pose proof (write_timely a s p now w1 (λ d, plan_due a s now p d Hp)) as Ht.
  destruct (tick_write tools a s p now w1) as [ops leaving]. cbn in Ht.
  pose proof (ops_log now now ops _ _ ltac:(lia) Ht H) as H2. destruct (run_ops w1.(ww_wakes) now ops) as [t l]. cbn in H2.
  destruct leaving as [wake|]; [|done]. unfold tick_deliver.
  pose proof (deliver_wakes a.(ta_depart1).(mw_beside) a.(ta_depart2).(mw_beside) a.(ta_departure).(da_clocks) wake
    (Some s.(ws_schedule_id)) a.(ta_departure).(da_uuid) a.(ta_departure).(da_delivery_id) a.(ta_departure).(da_ledger_now) now
    a.(ta_departure).(da_push) (meanwhile now a.(ta_depart2)) (meanwhile now a.(ta_depart1) (set_wakes t w1))) as Hdw.
  destruct (deliver_frozen_wake _ _ _ _ _ _ _ _ _ _ _ _ _ _) as [[w3 r] f]. cbn [fst] in Hdw.
  assert (log_ok now (meanwhile now a.(ta_depart1) (set_wakes t w1)).(ww_wakes) (log ++ l)) as H3.
  { by apply (meanwhile_log now). }
  assert (log_ok now w3.(ww_wakes) (log ++ l)) as H4.
  { destruct Hdw as [->|(w4 & Hw4 & ->)]; [done|]. apply (meanwhile_log now); [done..|]. by rewrite Hw4. }
  destruct r as [phase|]; [|done]. destruct (future_calendar _ _ _ _ _ _) as [c|]; [|done]. cbn [fst snd ww_wakes set_wakes].
  rewrite <-(app_nil_r l). assert (frozen_by (meanwhile now a.(ta_settle) w3).(ww_wakes) (settlement s wake phase c) = []) as <- by done.
  rewrite app_assoc. apply (log_op now); [done..|]. by apply (meanwhile_log now).
Qed.

Lemma tick_all_log args l : ∀ clock now w log,
  clock ≤ now → (∀ s, tick_ok now (args s)) → log_ok clock w.(ww_wakes) log →
  let x := tick_all tools encode_message sha256_hex args l now w in log_ok now x.1.1.(ww_wakes) (log ++ x.1.2).
Proof using PL.
  induction l as [|s l IH]; intros clock now w log Hc Ha H; cbn; [rewrite app_nil_r; by apply (log_same clock)|].
  pose proof (tick_schedule_log clock now (args s) s w log Hc (Ha s) H) as H1.
  destruct (tick_schedule _ _ _ _ _ _ _) as [[w1 l1] f]. cbn in H1.
  pose proof (IH now now w1 (log ++ l1) ltac:(lia) Ha H1) as H2.
  destruct (tick_all _ _ _ _ _ _ _) as [[w2 l2] fs]. cbn in H2 |- *. by rewrite app_assoc.
Qed.

(** *** Requests *)

Lemma new_schedule_future id owner native project target cadence label before after now s :
  new_schedule sha256_hex id owner native project target cadence label before after now = Ok s → now < s.(ws_next_at).
Proof.
  unfold new_schedule. destruct (_ <? _)%nat; [done|]. intros H. apply bind_Ok in H as (n & _ & H).
  apply bind_Ok in H as (c & Hc & [= <-]). cbn. by apply (cadence_bounds sha256_hex) in Hc as [Hc _].
Qed.

(** A request does at most one operation on the schedules, a creation with a date to come or a cancellation. *)
Lemma request_effect b1 b2 conn cn q id uuid resolved before after current now unix w1 w2 :
  let w := (handle_wake_request tools sha256_hex b1 b2 conn cn q id uuid resolved before after current now unix w1 w2).1 in
  w.(ww_wakes) = w2.(ww_wakes) ∨ ∃ op, from_request now op ∧ w.(ww_wakes) = wake_op w2.(ww_wakes) now op.
Proof.
  cbv zeta. unfold handle_wake_request. destruct (_ ≫= _) as [[[owner native] admin]|e]; [|by left].
  destruct q.(wq_request) as [target cadence label| |i|target label i| |i]; try (by left).
  - unfold schedule_wake. destruct (_ ≫= _) as [s|e] eqn:Hs; [|by left]. right. exists (OpCreate s).
    apply bind_Ok in Hs as (s' & Hn & H). apply bind_Ok in H as (? & _ & H). cbv zeta in H.
    apply bind_Ok in H as (? & _ & H). apply bind_Ok in H as (? & _ & H). apply bind_Ok in H as (? & _ & H).
    apply bind_Ok in H as (? & _ & [= <-]). apply new_schedule_future in Hn. split; [done|].
    cbn. by destruct (create_wake_schedule _ _) as [t r].
  - destruct (negb _); [by left|]. right. exists (OpCancel (if admin then None else Some owner) i). split; [done|].
    cbn. by destruct (cancel_wake_schedule _ _ _ _) as [t r].
  - left. unfold cli_once. destruct (if _ || _ || _ then _ else _) as [tg|e]; [|done].
    by destruct (reserve_cli_wake _ _ _ _ _ _ _ _) as [t r].
  - destruct (negb _); [by left|]. right. exists (OpCancel (if admin then None else Some owner) i). split; [done|].
    cbn. by destruct (cancel_wake_schedule _ _ _ _) as [t r].
Qed.

(** *** Runs *)

(** A request with what it reads and what happens before its last lock, or a tick. *)
Record Asked := mkAsked {
  as_b1 : Beside; as_b2 : Beside; as_conn : string; as_cn : WakeConn; as_request : WakeRequest; as_id : string; as_uuid : string;
  as_resolved : Resolved; as_before : ZoneSource; as_after : ZoneSource; as_current : ZoneSource; as_unix : Z; as_first : WakeWorld;
  as_meanwhile : Meanwhile }.
Inductive DaemonEvent := Ask (a : Asked) (now : Z) | Tick (args : WakeSchedule → TickArgs) (m : Meanwhile) (now : Z).
Definition daemon_now (e : DaemonEvent) : Z := match e with Ask _ now | Tick _ _ now => now end.
Definition daemon_event_ok (e : DaemonEvent) : Prop :=
  match e with
  | Ask a now => meanwhile_ok now a.(as_meanwhile)
  | Tick args m now => meanwhile_ok now m ∧ ∀ s, tick_ok now (args s)
  end.
(** The clock does not go back. *)
Fixpoint daemon_in_order (clock : Z) (es : list DaemonEvent) : Prop :=
  match es with [] => True | e :: es => clock ≤ daemon_now e ∧ daemon_event_ok e ∧ daemon_in_order (daemon_now e) es end.

Definition daemon_step (w : WakeWorld) (e : DaemonEvent) : WakeWorld * list (string * Z) :=
  match e with
  | Ask a now =>
    ((handle_wake_request tools sha256_hex a.(as_b1) a.(as_b2) a.(as_conn) a.(as_cn) a.(as_request) a.(as_id) a.(as_uuid) a.(as_resolved)
        a.(as_before) a.(as_after) a.(as_current) now a.(as_unix) a.(as_first) (meanwhile now a.(as_meanwhile) w)).1, [])
  | Tick args m now => (scheduled_wakes_tick tools encode_message sha256_hex args now (meanwhile now m w)).1
  end.
(** The schedules and dates frozen along a run, each with the clock of its event. *)
Fixpoint daemon_run (w : WakeWorld) (es : list DaemonEvent) : WakeWorld * list (string * Z * Z) :=
  match es with
  | [] => (w, [])
  | e :: es =>
    let '(w1, l1) := daemon_step w e in
    let '(w2, l2) := daemon_run w1 es in
    (w2, ((λ x, (x, daemon_now e)) <$> l1) ++ l2)
  end.
(** The clock of the last event. *)
Definition last_now (clock : Z) (es : list DaemonEvent) : Z := foldl (λ _ e, daemon_now e) clock es.

Lemma daemon_step_log clock w log e :
  clock ≤ daemon_now e → daemon_event_ok e → log_ok clock w.(ww_wakes) log →
  log_ok (daemon_now e) (daemon_step w e).1.(ww_wakes) (log ++ (daemon_step w e).2).
Proof using PL.
  intros Hc He H. destruct e as [a now|args m now]; cbn [daemon_step daemon_now fst snd] in *.
  - rewrite app_nil_r. apply (meanwhile_log _ now a.(as_meanwhile)) in H; [|done..].
    destruct (request_effect a.(as_b1) a.(as_b2) a.(as_conn) a.(as_cn) a.(as_request) a.(as_id) a.(as_uuid) a.(as_resolved)
      a.(as_before) a.(as_after) a.(as_current) now a.(as_unix) a.(as_first) (meanwhile now a.(as_meanwhile) w)) as [->|(op & Hop & ->)]; [done|].
    by apply (request_log now now _ log [op]); [lia|repeat constructor|].
  - destruct He as [Hm Ha]. apply (meanwhile_log _ now m) in H; [|done..]. unfold scheduled_wakes_tick.
    destruct (list_wake_schedules _ None) as [l|]; [|by rewrite app_nil_r]. by apply (tick_all_log args l now).
Qed.

Lemma daemon_run_log es : ∀ clock w log,
  daemon_in_order clock es → log_ok clock w.(ww_wakes) log →
  log_ok (last_now clock es) (daemon_run w es).1.(ww_wakes) (log ++ (daemon_run w es).2.*1) ∧
  Forall (λ x, x.1.2 ≤ x.2) (daemon_run w es).2.
Proof using PL.
  induction es as [|e es IH]; intros clock w log Ho H; cbn.
  { by rewrite app_nil_r. }
  destruct Ho as (Hc & He & Ho). pose proof (daemon_step_log clock w log e Hc He H) as H1.
  destruct (daemon_step w e) as [w1 l1]. cbn in H1. destruct (IH _ _ _ Ho H1) as [H2 H3].
  destruct (daemon_run w1 es) as [w2 l2]. cbn in *. split.
  - rewrite fmap_app, <-list_fmap_compose, app_assoc. unfold compose. cbn. by rewrite list_fmap_id.
  - apply Forall_app. split; [|done]. apply Forall_forall. intros x (y & -> & Hy)%list_elem_of_fmap. cbn.
    destruct H1 as (_ & _ & Hl). destruct y as [id due]. by apply (Hl id due), elem_of_app; right.
Qed.

(** C13: a schedule never fires early, nor twice for the same date.  Along any
    sequence of requests and of ticks from an empty table, with requests of
    other connections between any two locks and a clock that does not go back,
    each occurrence is frozen by a tick whose clock has reached its date, and
    the occurrences frozen for a schedule have strictly increasing dates, all
    before the next date of its row.  At the clock of the last event, every row
    is a well-formed schedule whose occurrence is its own, was due, and is
    before its next date; and no owner has more than sixteen schedules, nor the
    daemon more than one hundred and twenty-eight. *)
Theorem wakes_fire_forward w es :
  w.(ww_wakes) = ∅ → daemon_in_order 0 es →
  let '(w', log) := daemon_run w es in
  fires_forward log.*1 ∧ wakes_ok (last_now 0 es) w'.(ww_wakes) ∧
  ∀ id due at_, (id, due, at_) ∈ log → due ≤ at_ ∧ ∀ r, w'.(ww_wakes) !! id = Some r → due < r.(sr_next_at).
Proof using PL.
  intros Hw Ho. destruct (daemon_run_log es 0 w [] Ho) as [(Hok & Hf & Hl) Hd].
  - rewrite Hw. split_and!; [split_and!|..].
    + intros id r Hr. by rewrite lookup_empty in Hr.
    + intros o. unfold counted. rewrite map_to_list_empty. unfold count_if. cbn. lia.
    + rewrite map_size_empty. lia.
    + intros i j ? ? ? _ Hi. by rewrite lookup_nil in Hi.
    + intros ? ? Hin. by apply elem_of_nil in Hin.
  - destruct (daemon_run w es) as [w' log]. cbn in *. split_and!; [done..|]. intros id due at_ Hin. split.
    + apply (proj1 (Forall_forall _ _) Hd _ Hin).
    + apply (Hl id due). change (id, due) with (id, due, at_).1. by apply list_elem_of_fmap_2.
Qed.
End TickLog.
