(* ===== verification/WakeRuns.v ===== *)
(** * WakeRuns: wakes along the life of the daemon

    The first part follows one wake for an agent through any sequence of
    departures, interleaved with any operations of the durable sends: it leaves
    at most once.  It needs that the operations of the sends keep the dates of
    a record, which is proved for each of them.  The second part bounds the
    wakes of the command line, the third shows that a wake for a thread is
    posted once. *)

From S2P Require Import Prelude Text Uuid Message Router Guards Communication Dispatch Reminders Control Sql Idempotency.
From S2P Require Import AgentLinks Guidance Deliveries SendRuns ExecutionStore ThreadStore ThreadRuns Threads.
From S2P Require Import WakeCalendar WakeStore WakeDelivery WakeTick.
Local Open Scope Z_scope.

(** ** The dates of the records *)

Definition dates (row : Row) : Z * Z := (row.(Idempotency.issued_at), row.(Idempotency.expires_at)).
(** The same keys have a record, with the same dates. *)
Definition same_dates (t t' : gmap (string * string * string) Row) : Prop := ∀ c, dates <$> t' !! c = dates <$> t !! c.

#[export] Instance dates_preorder : PreOrder same_dates.
Proof. split; [by intros t c|]. intros t1 t2 t3 H12 H23 c. by rewrite H23, H12. Qed.

Lemma dates_insert t c row row' : t !! c = Some row → dates row' = dates row → same_dates t (<[c := row']> t).
Proof.
  intros Hc Hd c'. destruct (decide (c' = c)) as [->|Hne]; [|by rewrite lookup_insert_ne].
  rewrite lookup_insert_eq, Hc. cbn. by rewrite Hd.
Qed.

Lemma dates_update_in s f k t : (∀ row, dates (f row) = dates row) → same_dates t (update_in s f k t).1.
Proof.
  intros Hf. unfold update_in. destruct (t !! columns k) as [row|] eqn:Hk; [|done].
  case_bool_decide; [|done]. by eapply dates_insert.
Qed.

Lemma dates_conclude d f db db' :
  (∀ row, dates (f row) = dates row) → conclude d f db = Ok db' →
  same_dates db.(records) db'.(records).
Proof.
  intros Hf. unfold conclude. pose proof (dates_update_in Dispatching f (send_key d) db.(records) Hf) as H.
  destruct (update_in _ _ _ _) as [t [|]]; [|done]. by intros [= <-].
Qed.

Section Dates.
Context `{E : EnvelopeCodec}.

Lemma dates_commit {X} db (r : result IdempotencyError (SendDb * X)) :
  (∀ db' x, r = Ok (db', x) → same_dates db.(records) db'.(records)) → same_dates db.(records) (commit db r).1.(records).
Proof. intros H. destruct r as [[db' x]|e]; cbn; [by eapply H|done]. Qed.

Lemma dates_orphan reason now ds : ∀ db db' ns,
  orphan_all reason now ds db = Ok (db', ns) → same_dates db.(records) db'.(records).
Proof.
  induction ds as [|d ds IH]; intros db db' ns; cbn; [by intros [= <- _]|].
  intros H. apply bind_Ok in H as ([db1 n] & H1 & H). apply bind_Ok in H as ([db2 ns'] & H2 & [= <- _]).
  etrans; [|by eapply IH]. unfold orphan_one in H1. apply bind_Ok in H1 as (db3 & Hc & H1).
  destruct (negb _); [done|]. injection H1 as <- _. rewrite add_notice_records.
  by eapply (dates_conclude d (with_result "orphaned" None (Some reason))) in Hc.
Qed.

Lemma dates_settle i reason now db db' o :
  settle_held_in_transaction i reason now db = Ok (db', o) → same_dates db.(records) db'.(records).
Proof.
  unfold settle_held_in_transaction. destruct (negb _); [done|].
  destruct (d ← select_one _ _; r ← record_of db d; Some (d, r)) as [[d r]|]; [|by intros [= <- _]].
  intros H. apply bind_Ok in H as (b & _ & H). destruct (_ && _ && _); [by injection H as <- _|].
  apply bind_Ok in H as (m & _ & H). destruct (_ && _); [by injection H as <- _|]. destruct (negb _); [done|].
  apply bind_Ok in H as (db2 & Hc & [= <- _]). rewrite add_notice_records.
  eapply dates_conclude in Hc; [|done]. cbn in Hc. destruct (reply m); [|done].
  destruct (close_request_same m now db2) as (-> & _). done.
Qed.

Lemma dates_release db agent now : same_dates db.(records) (release_next_held db agent now).1.(records).
Proof.
  unfold release_next_held. destruct (_ || pending_pause _ _); [done|]. set (db1 := set_deliveries _ db).
  change (records db) with (records db1). destruct (exists_row (gated_for agent) _); [done|].
  change (same_dates db1.(records)) with (same_dates db.(records)). apply dates_commit. intros db' x.
  destruct (next_held db1 agent) as [[d r]|]; [|by intros [= <- _]].
  intros H. apply bind_Ok in H as (_ & _ & H). destruct (exists_row _ _); [done|].
  apply bind_Ok in H as (m & _ & H). destruct (settlement_reason _ _ _ _ _) as [reason|].
  - apply bind_Ok in H as ([db2 n] & Hset & [= <- _]). by eapply dates_settle in Hset.
  - apply bind_Ok in H as ([db2 s] & Hdis & [= <- _]). unfold dispatch_held in Hdis. destruct (negb _); [done|].
    apply bind_Ok in Hdis as (s' & _ & [= <- _]). done.
Qed.

Lemma dates_edit {T} db scope rid bytes action actor now (apply : SendDb → result IdempotencyError (SendDb * Decision T)) :
  (∀ db' dc, apply db = Ok (db', dc) → same_dates db.(records) db'.(records)) →
  same_dates db.(records) (queue_edit_once db scope rid bytes action actor now apply).1.(records).
Proof.
  intros Ha. destruct (queue_edit_cases db scope rid bytes action actor now apply) as [(_ & -> & _)|(db' & dc & Hap & _ & -> & _)]; [done|].
  by eapply Ha.
Qed.

Lemma dates_cancel db scope rid bytes actor agent mid now :
  same_dates db.(records) (apply_cancel db scope rid bytes actor agent mid now).1.(records).
Proof.
  apply dates_edit. intros db' dc H. unfold cancel_edit in H. apply bind_Ok in H as ([i|] & _ & H); [|by injection H as <- _].
  apply bind_Ok in H as ([db1 n] & Hs & H). apply bind_Ok in H as (n' & _ & [= <- _]). by eapply dates_settle.
Qed.

Lemma dates_reorder db scope rid bytes actor agent mid before now :
  same_dates db.(records) (apply_reorder db scope rid bytes actor agent mid before now).1.(records).
Proof.
  apply dates_edit. intros db' dc H. unfold reorder_edit in H. apply bind_Ok in H as ([i|] & _ & H); [|by injection H as <- _].
  apply bind_Ok in H as ([b|] & _ & H); [|by injection H as <- _]. destruct (exists_row _ _); [done|].
  apply bind_Ok in H as (p & _ & H). destruct (bool_decide _); [by injection H as <- _|].
  apply bind_Ok in H as (ids & _ & H). destruct (bool_decide _); [by injection H as <- _|].
  apply bind_Ok in H as (ds1 & _ & H). apply bind_Ok in H as (ds2 & _ & [= <- _]). done.
Qed.

Lemma dates_promote db scope rid bytes actor agent mid facts now :
  same_dates db.(records) (apply_promote db scope rid bytes actor agent mid facts now).1.(records).
Proof.
  unfold apply_promote. destruct (authorize _); [|done]. apply dates_edit. intros db' dc H. unfold promote_edit in H.
  apply bind_Ok in H as ([i|] & _ & H); [|by injection H as <- _]. apply bind_Ok in H as ([d r] & _ & H).
  apply bind_Ok in H as (_ & _ & H). apply bind_Ok in H as (m & _ & H). destruct (settlement_reason _ _ _ _ _) as [reason|].
  - apply bind_Ok in H as ([db1 n] & Hset & H). apply bind_Ok in H as (n' & _ & [= <- _]). by eapply dates_settle.
  - destruct (authorize_queue_edit _); [|by injection H as <- _]. apply bind_Ok in H as ([db1 s] & Hdis & [= <- _]).
    unfold dispatch_held in Hdis. destruct (negb _); [done|]. apply bind_Ok in Hdis as (s' & _ & [= <- _]). done.
Qed.

Lemma dates_transition t k a b : same_dates t (transition t k a b).1.
Proof.
  destruct a, b; try done. cbn. pose proof (dates_update_in Prepared (with_row_state Dispatching) k t) as H.
  destruct (update_in _ _ _ _) as [t' [|]]; [by apply H|done].
Qed.

Lemma dates_finalize t k r : same_dates t (finalize t k r).1.
Proof.
  unfold finalize. set (f := match r with ResultAccepted _ => _ | ResultRejected _ _ => _ | ResultOrphaned _ => _ end).
  pose proof (dates_update_in Dispatching f k t) as H. destruct (update_in _ _ _ _) as [t' [|]]; [|done].
  apply H. intros row. unfold f. by destruct r.
Qed.

Lemma dates_reject t k category reason : same_dates t (reject_prepared t k category reason).1.
Proof.
  unfold reject_prepared. pose proof (dates_update_in Prepared (with_row_state Dispatching) k t) as H.
  destruct (update_in Prepared _ _ _) as [t1 [|]]; [|done].
  pose proof (dates_update_in Dispatching (with_result "rejected" (Some category) (Some reason)) k t1) as H'.
  destruct (update_in Dispatching _ _ _) as [t2 [|]]; [|done]. cbn in *. etrans; [by apply H|by apply H'].
Qed.

Lemma dates_capture db k e : same_dates db.(records) (capture db k e).(records).
Proof.
  unfold capture. pose proof (dates_transition db.(records) k Prepared Dispatching) as H.
  destruct (transition _ _ _ _) as [t [x|x]]; [|done]. cbn in H |- *. etrans; [exact H|apply dates_finalize].
Qed.

Lemma dates_begin db k sd tracking link g cap held now :
  same_dates db.(records) (begin_send_delivery_with_guidance db k sd tracking link g cap held now).1.(records).
Proof.
  destruct (begin_send_delivery_with_guidance db k sd tracking link g cap held now) as [db' [[]|e]] eqn:Hb.
  2: { unfold begin_send_delivery_with_guidance, commit in Hb. by destruct (if negb _ then _ else _) as [[? ?]|?]; simplify_eq. }
  apply begin_Ok in Hb as (m & row & d & _ & _ & Hrow & _ & _ & Hrec & _). cbn. rewrite Hrec. by eapply dates_insert.
Qed.

Lemma dates_acknowledge db i inst generation now :
  same_dates db.(records) (acknowledge_send_delivery_at db i inst generation now).1.(records).
Proof.
  apply dates_commit. intros db' x H. apply bind_Ok in H as (d & _ & H). destruct (_ || _); [done|].
  destruct (in_phase DAcked d); [by injection H as <- _|]. destruct (negb _); [done|]. apply bind_Ok in H as (db2 & Hc & H).
  eapply dates_conclude in Hc; [|done]. cbn in Hc. destruct (negb _); [done|].
  destruct (m ← _; r ← _; Some (m, r)) as [[m r]|]; [|by injection H as <- _].
  destruct (mark_answered _ _ _ _) as [rs changed]. injection H as <- _. done.
Qed.

Lemma reserve_dates t q c row' :
  (reserve t q).1 !! c = Some row' →
  t !! c = Some row' ∨ c = columns q.(rv_key) ∧ t !! c = None ∧
    dates row' = (q.(rv_issued_at), q.(rv_issued_at) + q.(rv_horizon_secs)).
Proof.
  unfold reserve. destruct (reserve_check t q) as [[a|e]|x] eqn:Hc; [by left| |by left].
  unfold reserve_insert. destruct (t !! columns q.(rv_key)) eqn:Hk; [by left|]. cbn.
  intros [[<- <-]|[_ H]]%lookup_insert_Some; [right|by left]. split_and!; [done..|]. cbn.
  unfold reserve_check in Hc. apply bind_Ok in Hc as (_ & _ & Hc). destruct (_ <? _); [done|].
  apply bind_Ok in Hc as ([r|] & _ & Hc); [discriminate Hc|]. destruct (rv_horizon_secs q <=? 0); [done|].
  apply bind_Ok in Hc as (e' & [-> _]%ok_or_Ok%i64_checked_Some & Hc). destruct (_ <=? _); [discriminate Hc|].
  unfold dates. cbn. by injection Hc as <-.
Qed.

Lemma dates_replace db rs issuer request canon i expected body now1 now2 now3 :
  same_dates db.(records) (replace db rs issuer request canon i expected body now1 now2 now3).1.1.(records).
Proof.
  unfold replace. destruct (rs !! _); [done|].
  destruct (replace_body db issuer i expected body now1) as [[db' answer]|e] eqn:Hr; [|done]. unfold replace_body in Hr.
  destruct (select_one _ _) as [d|]; [|by injection Hr as <- _]. apply bind_Ok in Hr as (b & _ & Hr).
  destruct (_ && _); [|by injection Hr as <- _]. apply bind_Ok in Hr as (current & _ & Hr).
  destruct (negb _); injection Hr as <- _; [done|]. by destruct (mjoin (json_text (json_set_body b body) "id")), (mjoin (json_text (json_set_body b body) "to")).
Qed.

Lemma dates_step_from db op : (∀ q, op ≠ ReserveKey q) → is_purge op = false → same_dates db.(records) (send_step db op).(records).
Proof.
  intros Hq Hp. destruct op; try done; cbn [send_step]; try (exact (reflexivity (R := same_dates) db.(records))).
  1: by destruct (Hq q).
  - apply dates_reject.
  - apply dates_capture.
  - apply dates_begin.
  - unfold link_send_delivery. destruct (_ || _); [done|]. destruct (_ && _); [done|]. cbn. unfold insert_link. by destruct (exists_row _ _).
  - unfold reassign_dispatching_deliveries. by destruct (_ || _).
  - unfold adopt_held_for_agent. by destruct (_ || _).
  - apply dates_commit. intros db' out Ho. by apply bind_Ok in Ho as (l & _ & [= <- <-]).
  - apply dates_commit. intros db' ns. apply dates_orphan.
  - apply dates_acknowledge.
  - apply dates_commit. intros db' o. apply dates_settle.
  - apply dates_release.
  - apply dates_cancel.
  - apply dates_reorder.
  - apply dates_promote.
  - apply dates_replace.
  - apply dates_transition.
  - apply dates_finalize.
Qed.

(** A record comes from a record with the same dates. *)
Lemma dates_step db op c row' :
  (send_step db op).(records) !! c = Some row' → (∀ q, op = ReserveKey q → columns q.(rv_key) ≠ c) →
  ∃ row, db.(records) !! c = Some row ∧ dates row' = dates row.
Proof.
  intros H Hq. destruct (is_purge op) eqn:Hp.
  { destruct op; try done. cbn in H. apply map_lookup_filter_Some in H as [H _]. by exists row'. }
  assert ((∃ q, op = ReserveKey q) ∨ ∀ q, op ≠ ReserveKey q) as [[q ->]|Hno] by (destruct op; eauto).
  - cbn [send_step set_records records] in H. apply reserve_dates in H as [H|(-> & _)]; [by exists row'|]. by destruct (Hq _ eq_refl).
  - pose proof (dates_step_from db op Hno Hp c) as Hd. rewrite H in Hd. destruct (records db !! c) as [row|]; [|done].
    exists row. split; [done|]. by apply (inj Some) in Hd.
Qed.

End Dates.

(** ** Code under the lock that only reads *)

Section Reads.
Context `{P : PayloadCodec}.

Definition reads {A} (m : Locked A) : Prop := frames (λ w, w) m.

Lemma reads_bind {A B} (m : Locked A) (f : A → Locked B) : reads m → (∀ a, reads (f a)) → reads (m ≫= f).
Proof. apply frames_bind. Qed.
Lemma reads_ret {A} (a : A) : reads (mret a).
Proof. done. Qed.
Lemma reads_pure {A} (r : result string A) : reads (pure r).
Proof. done. Qed.
Lemma reads_fail {A} e : reads (fail (A := A) e).
Proof. done. Qed.
Lemma reads_reading {A} (f : WakeWorld → A) : reads (reading f).
Proof. done. Qed.
Lemma reads_with {A} (f : WakeWorld → result string A) : reads (λ w, (w, f w)).
Proof. done. Qed.
End Reads.
#[local] Hint Resolve reads_ret reads_pure reads_fail reads_reading reads_with : core.

(** Binds, conditions and matches, down to the reads. *)
Ltac only_reads :=
  repeat match goal with
    | |- reads (_ ≫= _) => apply reads_bind; [|intros ?]
    | |- reads (match ?x with _ => _ end) => destruct x
    | |- reads (let _ := _ in _) => cbv zeta
    end; auto.

Section Departures.
Context `{U : UuidLib} `{W : WakeCodec} `{P : PayloadCodec} `{C : ThreadCodec} `{E : EnvelopeCodec}.
Context (tools : ThreadTools) (encode_message : BridgetMessage → string).

Lemma known_phase_reads k wake now : is_thread wake.(fw_target) = false → reads (known_phase tools k wake now).
Proof. intros Ht. unfold known_phase. destruct wake.(fw_target); [| |done]; only_reads. Qed.

Lemma first_lock_reads b c k wake scheduled now :
  is_thread wake.(fw_target) = false → reads (first_lock tools b c k wake scheduled now).
Proof.
  intros Ht. unfold first_lock. apply reads_bind; [by apply known_phase_reads|]. intros known.
  destruct (wake.(fw_target)) eqn:E0; [| |done]; only_reads.
Qed.

(** The reservation that a departure asks for at [at_]. *)
Definition wake_reservation (k : IdempotencyKey) (wake : FrozenWake) (at_ : Z) : Request :=
  mkReserve k wake.(fw_canonical_bytes) wake.(fw_issued_at) WAKE_HORIZON_SECS at_ CLIENT_ISSUED_AT_TOLERANCE_SECS.

Lemma current_now_later c now wall at_ : current_now c now wall = Some at_ → now ≤ at_.
Proof.
  unfold current_now. intros H. apply bind_Some in H as (x & _ & H). apply bind_Some in H as (t & _ & H).
  apply bind_Some in H as (d & [-> [Hd _]]%u64_checked_Some & H). destruct (_ <=? _); [|done].
  apply i64_checked_Some in H as [-> _]. lia.
Qed.

(** What a departure does to the sends. *)
Lemma depart_cases b c k wake scheduled r uuid did lnow now w w' x :
  depart tools encode_message b c k wake scheduled r uuid did lnow now w = (w', x) →
  (w'.(ww_sends) = w.(ww_sends) ∧ ∀ f, x ≠ Ok f) ∨
  ∃ at_, now ≤ at_ < wake.(fw_grace_until) ∧
    let db1 := set_records (reserve w.(ww_sends).(records) (wake_reservation k wake at_)).1 w.(ww_sends) in
    (w'.(ww_sends) = db1 ∧ ∀ f, x ≠ Ok f) ∨
    ∃ f, x = Ok f ∧ f.(wf_message).(id) = wake.(fw_id) ∧
      begin_send_delivery_with_guidance db1 k f.(wf_delivery) None None None None None lnow = (w'.(ww_sends), Ok ()).
Proof.
  unfold depart. cbv beta iota delta [mbind locked_bind reading pure fail mret locked_ret departure_refused].
  destruct (negb (may_depart _ _ _ _ _ _ _ _)); [intros [= <- <-]; by left|].
  destruct (current_now c now c.(wc_wall_depart)) as [at_|] eqn:Hat; cbn [ok_or map_err]; [|intros [= <- <-]; by left].
  apply current_now_later in Hat.
  destruct (f_paused _ || _ || _) eqn:Hg; [intros [= <- <-]; by left|].
  apply orb_false_iff in Hg as [[_ Hg%Z.leb_gt]%orb_false_iff _].
  fold (wake_reservation k wake at_). unfold on_records. destruct (reserve _ _) as [t1 res] eqn:Hres. cbn.
  intros H. right. exists at_. split; [lia|]. rewrite Hres. cbn.
  assert (∀ w0 e, w0.(ww_sends) = set_records t1 w.(ww_sends) → (w0, Err e) = (w', x) →
    w'.(ww_sends) = set_records t1 w.(ww_sends) ∧ ∀ f : WakeFrame, x ≠ Ok f) as Hstop by (intros w0 e Hw [= <- <-]; done).
  destruct res as [res|e]; cbn in H; [|left; eapply Hstop; [|exact H]; done].
  destruct (match res with ReservedPrepared _ => _ | _ => _ end) as [w1 [expiry|e]] eqn:He.
  2: { left. eapply Hstop; [|exact H]. by destruct res; injection He as <-. }
  assert (w1.(ww_sends) = set_records t1 w.(ww_sends)) as Hw1 by (by destruct res; injection He as <-).
  destruct (current_now c now c.(wc_wall_commit)) as [cn|]; cbn in H; [|left; eapply Hstop; [|exact H]; done].
  destruct (_ || _); [left; eapply Hstop; [|exact H]; done|]. unfold begin_delivery in H. rewrite Hw1 in H.
  set (sd := mkSend _ _ _ _ _) in H. destruct (begin_send_delivery_with_guidance _ k sd _ _ _ _ _ _) as [db2 [[]|e]] eqn:Hb.
  - cbn in H. injection H as <- <-. right. eexists. split; [done|]. split; [done|]. exact Hb.
  - left. eapply Hstop; [|exact H]. cbn. unfold begin_send_delivery_with_guidance, commit in Hb.
    by destruct (if negb _ then _ else _) as [[? ?]|?]; simplify_eq.
Qed.
End Departures.

(** ** One wake for an agent, along a run *)

Section OneWake.
Context `{U : UuidLib} `{W : WakeCodec} `{P : PayloadCodec} `{C : ThreadCodec} `{E : EnvelopeCodec}.
Context (wake : FrozenWake).

(** A call of [deliver_frozen_wake] for the wake: what its two locks find, and
    the operations of the sends that others run between them. *)
Record Attempt := mkAttempt {
  a_first : Beside; a_second : Beside;
  a_daemon1 : Daemon; a_wakes1 : gmap string ScheduleRow; a_threads1 : ThreadDb;
  a_between : list SendOp;
  a_daemon2 : Daemon; a_wakes2 : gmap string ScheduleRow; a_threads2 : ThreadDb;
  a_clocks : WakeClocks; a_scheduled : option string; a_uuid : string; a_delivery_id : string;
  a_ledger_now : Z; a_now : Z; a_push : Push }.

Inductive WakeEvent := Elsewhere (op : SendOp) (now : Z) | Leaving (a : Attempt).
Definition event_now (e : WakeEvent) : Z := match e with Elsewhere _ now => now | Leaving a => a.(a_now) end.

(** The key of the wake. *)
Definition own_key : IdempotencyKey := mkKey (scope_of_source wake.(fw_source)) Send wake.(fw_id).
(** The scope of the wakes is used by their departures only, and a purge does
    not reach past the clock. *)
Definition others_ok (now : Z) (op : SendOp) : Prop :=
  match op with
  | ReserveKey q => columns q.(rv_key) ≠ columns own_key
  | PurgeSends n grace => i64_saturating_sub n grace ≤ now
  | _ => True
  end.
Definition event_ok (e : WakeEvent) : Prop :=
  match e with Elsewhere op now => others_ok now op | Leaving a => Forall (others_ok a.(a_now)) a.(a_between) end.

(** The clock does not go back. *)
Fixpoint in_order (clock : Z) (es : list WakeEvent) : Prop :=
  match es with [] => True | e :: es => clock ≤ event_now e ∧ event_ok e ∧ in_order (event_now e) es end.

(** The date at which the record of the wake expires. *)
Definition wake_expiry : Z := wake.(fw_issued_at) + WAKE_HORIZON_SECS.

(** The record has that expiry, and a wake that left has its delivery until then. *)
Definition gone_once (clock : Z) (left : nat) (db : SendDb) : Prop :=
  saga_ok db ∧
  (∀ row, db.(records) !! columns own_key = Some row → row.(Idempotency.expires_at) = wake_expiry) ∧
  (left ≤ 1)%nat ∧
  (left = 1%nat → (∃ d, d ∈ db.(deliveries) ∧ delivery_key d = columns own_key) ∨ wake_expiry ≤ clock).

Lemma gone_later clock clock' left db : clock ≤ clock' → gone_once clock left db → gone_once clock' left db.
Proof. intros Hc (H1 & H2 & H3 & H4). split_and!; [done..|]. intros Hl. destruct (H4 Hl); [by left|right; lia]. Qed.

Lemma gone_other clock left db op : others_ok clock op → gone_once clock left db → gone_once clock left (send_step db op).
Proof.
  intros Hop (Hs & Hrow & Hl & Hd). split_and!; [by apply step_saga| |done|].
  - intros row Hr. destruct (dates_step db op _ row Hr) as (r0 & Hr0 & [= _ ->]); [|by apply Hrow]. intros q ->. exact Hop.
  - intros Hone. destruct (Hd Hone) as [(d & Hin & Hk)|He]; [|by right].
    destruct (is_purge op) eqn:Hp.
    + destruct op; try done. cbn in Hop. destruct (sg_row db Hs d Hin) as ((r & Hr & _) & _). rewrite Hk in Hr.
      destruct (decide (wake_expiry ≤ clock)) as [|Hlt]; [by right|left]. exists d. split; [|done].
      cbn. apply select_elem. split; [done|]. apply bool_decide_eq_true_2. rewrite Hk.
      exists r. apply map_lookup_filter_Some_2; [done|]. cbn. rewrite (Hrow r Hr). lia.
    + left. destruct (step_goes_on db op Hs Hp) as [H _]. destruct (H d Hin) as (d' & Hd' & _ & Hk' & _).
      exists d'. split; [done|]. congruence.
Qed.

Lemma gone_others clock left ops : ∀ db,
  Forall (others_ok clock) ops → gone_once clock left db → gone_once clock left (send_run db ops).
Proof.
  induction ops as [|op ops IH]; intros db Ho Hg; [done|]. apply Forall_cons in Ho as [H1 H2].
  cbn. apply IH; [done|]. by apply gone_other.
Qed.

Lemma gone_reserved clock left db at_ :
  gone_once clock left db →
  gone_once clock left (set_records (reserve db.(records) (wake_reservation own_key wake at_)).1 db).
Proof.
  intros (Hs & Hrow & Hl & Hd). split_and!; [by apply reserve_saga| |done|exact Hd].
  intros row Hr. cbn in Hr. apply reserve_dates in Hr as [Hr|(_ & _ & [= _ ->])]; [by apply Hrow|done].
Qed.

Lemma own_columns d : d.(d_scope) = own_key.(Idempotency.issuer_scope) → d.(d_key) = own_key.(idempotency_key) →
  delivery_key d = columns own_key.
Proof. unfold delivery_key, columns. by intros -> ->. Qed.

(** The beginning of a delivery of the wake before its record expires. *)
Lemma gone_begins clock left db sd now db' :
  clock < wake_expiry → gone_once clock left db →
  begin_send_delivery_with_guidance db own_key sd None None None None None now = (db', Ok ()) →
  left = 0%nat ∧ gone_once clock 1 db'.
Proof.
  intros Hlt (Hs & Hrow & Hl & Hd) Hb. pose proof (begin_saga db own_key sd None None None None None now Hs) as Hs'.
  pose proof (dates_begin db own_key sd None None None None None now) as Hex. rewrite Hb in Hs', Hex. cbn in Hs', Hex.
  apply begin_Ok in Hb as (m & row & d & _ & _ & _ & _ & Hdd & _ & Hdel & _ & _ & Hnew).
  assert (delivery_key d = columns own_key) as Hk by (apply own_columns; by rewrite Hdd). split.
  - destruct left as [|[|n]]; [done| |lia]. destruct (Hd eq_refl) as [(x & Hx & Hxk)|]; [|lia].
    destruct (Hnew x Hx) as [_ Hne]. congruence.
  - split_and!; [done| |lia|].
    + intros r Hr. specialize (Hex (columns own_key)). rewrite Hr in Hex. destruct (records db !! _) as [r0|] eqn:Hr0; [|done].
      injection Hex as _ ->. by apply Hrow.
    + intros _. left. exists d. split; [|done]. rewrite Hdel. set_solver.
Qed.

Lemma gone_pushed clock left written f w :
  gone_once clock left w.(ww_sends) → gone_once clock left (after_push written f w).(ww_sends).
Proof.
  intros H. destruct written; [done|]. by apply (gone_other clock left w.(ww_sends) (Indeterminate _ _ 1)).
Qed.

Context (tools : ThreadTools) (encode_message : BridgetMessage → string).

Definition attempt (a : Attempt) (db : SendDb) : SendDb * option WakeFrame :=
  let '(w, _, f) :=
    deliver_frozen_wake tools encode_message a.(a_first) a.(a_second) a.(a_clocks) wake a.(a_scheduled) a.(a_uuid)
      a.(a_delivery_id) a.(a_ledger_now) a.(a_now) a.(a_push)
      (λ w, mkWorld a.(a_daemon2) a.(a_wakes2) (send_run w.(ww_sends) a.(a_between)) a.(a_threads2))
      (mkWorld a.(a_daemon1) a.(a_wakes1) db a.(a_threads1)) in
  (w.(ww_sends), f).

Definition event_step (db : SendDb) (e : WakeEvent) : SendDb * option WakeFrame :=
  match e with Elsewhere op _ => (send_step db op, None) | Leaving a => attempt a db end.
Fixpoint wake_run (db : SendDb) (es : list WakeEvent) : SendDb * list WakeFrame :=
  match es with
  | [] => (db, [])
  | e :: es => let '(db1, f) := event_step db e in let '(db2, fs) := wake_run db1 es in (db2, option_list f ++ fs)
  end.

(** An attempt: it may give the wake to the writer only if it never left. *)
Lemma gone_attempt clock left a db db' f :
  is_thread wake.(fw_target) = false → wake.(fw_grace_until) ≤ wake_expiry → clock ≤ a.(a_now) →
  Forall (others_ok a.(a_now)) a.(a_between) → gone_once clock left db → attempt a db = (db', f) →
  gone_once a.(a_now) (left + length (option_list f)) db' ∧ (∀ x, f = Some x → x.(wf_message).(id) = wake.(fw_id)).
Proof.
  intros Ht Hgr Hc Ho Hg Ha. apply (gone_later _ a.(a_now)) in Hg; [|done]. unfold attempt, deliver_frozen_wake in Ha.
  destruct (key_new _ _ _) as [k|] eqn:Hk; [|injection Ha as <- <-; by rewrite Nat.add_0_r].
  assert (k = own_key) as -> by (unfold key_new in Hk; apply bind_Ok in Hk as (_ & _ & Hk); apply bind_Ok in Hk as (_ & _ & [= <-]); done).
  set (w := mkWorld a.(a_daemon1) a.(a_wakes1) db a.(a_threads1)) in Ha.
  pose proof (first_lock_reads tools a.(a_first) a.(a_clocks) own_key wake a.(a_scheduled) a.(a_now) Ht w) as Hr.
  destruct (first_lock _ _ _ _ _ _ _ w) as [w1 [[p|r]|e]]; cbn in Hr; subst w1; [injection Ha as <- <-; by rewrite Nat.add_0_r| |
    injection Ha as <- <-; by rewrite Nat.add_0_r]. cbn in Ha.
  apply (gone_others _ _ a.(a_between)) in Hg; [|done]. set (db1 := send_run db a.(a_between)) in *.
  unfold second_lock in Ha. destruct a.(a_push) as [|written]; [injection Ha as <- <-; by rewrite Nat.add_0_r|].
  set (w2 := mkWorld _ _ db1 _) in Ha. destruct (depart _ _ _ _ _ _ _ _ _ _ _ _ w2) as [w3 x] eqn:Hd.
  apply depart_cases in Hd as [[Hsame Hno]|(at_ & Hat & [[Hsame Hno]|(fr & -> & Hid & Hb)])].
  - destruct x as [fr|e]; [by destruct (Hno fr)|]. injection Ha as <- <-. rewrite Nat.add_0_r, Hsame. done.
  - destruct x as [fr|e]; [by destruct (Hno fr)|]. injection Ha as <- <-. rewrite Nat.add_0_r, Hsame.
    split; [|done]. by apply gone_reserved.
  - injection Ha as <- <-. apply (gone_reserved _ _ _ at_) in Hg. cbn in Hb.
    assert (a.(a_now) < wake_expiry) as Hlt by lia. destruct (gone_begins _ _ _ _ _ _ Hlt Hg Hb) as [-> Hg']. cbn. split; [|by intros y [= <-]].
    by apply gone_pushed.
Qed.

Lemma wake_run_once es : ∀ clock left db,
  is_thread wake.(fw_target) = false → wake.(fw_grace_until) ≤ wake_expiry →
  gone_once clock left db → in_order clock es →
  (left + length (wake_run db es).2 ≤ 1)%nat ∧ Forall (λ f, f.(wf_message).(id) = wake.(fw_id)) (wake_run db es).2.
Proof.
  induction es as [|e es IH]; intros clock left db Ht Hgr Hg Ho; cbn.
  { split; [|by constructor]. destruct Hg as (_ & _ & Hl & _). cbn. lia. }
  destruct Ho as (Hc & Hok & Ho). destruct (event_step db e) as [db1 f] eqn:He.
  assert (gone_once (event_now e) (left + length (option_list f)) db1 ∧ ∀ x, f = Some x → x.(wf_message).(id) = wake.(fw_id)) as [Hg1 Hid].
  { destruct e as [op now|a]; cbn in *.
    - injection He as <- <-. split; [|done]. rewrite Nat.add_0_r. apply gone_other; [done|]. by apply (gone_later clock).
    - by apply (gone_attempt clock left a db). }
  destruct (IH _ _ _ Ht Hgr Hg1 Ho) as [Hn Hf]. destruct (wake_run db1 es) as [db2 fs]. cbn in *.
  rewrite length_app. split; [lia|]. apply Forall_app. split; [|done]. destruct f as [x|]; cbn; [|by constructor]. constructor; [by apply Hid|constructor].
Qed.

(** C14: a wake for an agent leaves at most once.  However often the daemon tries to
    deliver it, whatever the state it finds at each lock, and however the tries
    are interleaved with the other operations of the durable sends and with the
    purge of the expired ones, at most one frame is given to the writer of a
    connection, and it carries the identifier of the wake; provided that the
    clock does not go back, that a purge does not reach past it, and that only
    the departures of the wake reserve its key. *)
Theorem wake_leaves_once c es :
  is_thread wake.(fw_target) = false → wake.(fw_grace_until) ≤ wake_expiry → in_order 0 es →
  (length (wake_run (empty_sends c) es).2 ≤ 1)%nat ∧
  Forall (λ f, f.(wf_message).(id) = wake.(fw_id)) (wake_run (empty_sends c) es).2.
Proof.
  intros Ht Hg Ho. apply (wake_run_once es 0 0 (empty_sends c)); [done..| |done].
  split_and!; [apply empty_saga| |lia|done]. by cbn.
Qed.
End OneWake.

(** ** The wakes of the command line *)

Section CliRuns.
Context `{W : WakeCodec} `{E : EnvelopeCodec}.

(** What these wakes write in the table of the records is what the operations of
    the durable sends write: a reservation, a departure, an end. *)
Lemma reserve_cli_is_op db uuid id owner target label project now :
  ∃ ops, set_records (reserve_cli_wake db.(records) uuid id owner target label project now).1 db = send_run db ops.
Proof.
  assert (∃ ops, set_records db.(records) db = send_run db ops) as Hsame by (exists []; by destruct db).
  unfold reserve_cli_wake. destruct (key_new CLI_WAKE_SCOPE Send id) as [k|e] eqn:Hk; [|done].
  destruct (_ || _); [done|]. destruct (load_record db.(records) k) as [[r|]|e] eqn:Hl; [done| |done].
  destruct (_ <=? _)%nat; [done|].
  destruct (expires ← _; grace ← _; w ← _; _ ← _; Ok (expires, w)) as [[e w]|er] eqn:Hn; [|done].
  apply bind_Ok in Hn as (e' & He%ok_or_Ok & Hn). apply bind_Ok in Hn as (g & _ & Hn). apply bind_Ok in Hn as (w' & _ & Hn).
  apply bind_Ok in Hn as ([] & Hv & [= -> ->]).
  exists [ReserveKey (mkReserve k w.(fw_canonical_bytes) now WAKE_HORIZON_SECS now 0)]. cbn [send_run fold_left send_step].
  f_equal. unfold reserve, reserve_check. cbn [rv_bytes rv_now rv_tolerance_secs rv_issued_at rv_key rv_horizon_secs]. rewrite Hv.
  unfold replay_existing. rewrite Hl. cbn [mbind result_bind]. pose proof He as [-> [Hlo Hhi]]%i64_checked_Some.
  assert ((i64_saturating_add now (Z.max 0 0) <? now) = false) as -> by (unfold WAKE_HORIZON_SECS in *; unfold_ints; lia).
  rewrite He. cbn. replace (now + WAKE_HORIZON_SECS <=? now) with false by (unfold WAKE_HORIZON_SECS; lia).
  unfold reserve_insert. cbn. unfold load_record in Hl. destruct (db.(records) !! columns k); [|done].
  by destruct (state_from_str _).
Qed.

Lemma close_cli_is_ops db id r :
  ∃ ops, set_records (close_cli id r db.(records)) db = send_run db ops ∧ ops ⊆ [DispatchCliWake id; FinalizeCliWake id r].
Proof.
  unfold close_cli. destruct (key_new CLI_WAKE_SCOPE Send id) as [k|e] eqn:Hk.
  2: { exists []. split; [by destruct db|set_solver]. }
  assert (k = cli_wake_key id) as ->.
  { unfold key_new in Hk. apply bind_Ok in Hk as (_ & _ & Hk). by apply bind_Ok in Hk as (_ & _ & [= <-]). }
  assert (∃ ops, set_records (finalize db.(records) (cli_wake_key id) r).1 db = send_run db ops ∧
    ops ⊆ [DispatchCliWake id; FinalizeCliWake id r]) as Hfin by (exists [FinalizeCliWake id r]; split; [done|set_solver]).
  destruct (cli_wake db.(records) id) as [[[[w []] e]|]|e]; [|done..].
  exists [DispatchCliWake id; FinalizeCliWake id r]. split; [done|set_solver].
Qed.

Record CliAsk := mkCliAsk {
  ca_uuid : string; ca_id : string; ca_owner : string; ca_target : WakeTarget; ca_label : string;
  ca_project : option CommunicationProject }.
(** A request, the end of a wake by the tick, or an operation of the durable sends. *)
Inductive CliEvent := CliAsks (q : CliAsk) (now : Z) | CliCloses (id : string) (r : PublicResult) (now : Z) | CliElse (op : SendOp) (now : Z).
Definition cli_now (e : CliEvent) : Z := match e with CliAsks _ now | CliCloses _ _ now | CliElse _ now => now end.
(** The scope of the command line is reserved by these requests only. *)
Definition cli_event_ok (e : CliEvent) : Prop :=
  match e with
  | CliElse (ReserveKey q) _ => q.(rv_key).(Idempotency.issuer_scope) ≠ CLI_WAKE_SCOPE
  | CliElse (PurgeSends n grace) now => i64_saturating_sub n grace ≤ now
  | _ => True
  end.
Fixpoint cli_in_order (clock : Z) (es : list CliEvent) : Prop :=
  match es with [] => True | e :: es => clock ≤ cli_now e ∧ cli_event_ok e ∧ cli_in_order (cli_now e) es end.

Definition cli_key (id : string) : string * string * string := (CLI_WAKE_SCOPE, "send", id).
(** The base after an event, and the wake it accepts with its date. *)
Definition cli_step (db : SendDb) (e : CliEvent) : SendDb * list (string * string * string * Z) :=
  match e with
  | CliAsks q now =>
    let '(t, r) := reserve_cli_wake db.(records) q.(ca_uuid) q.(ca_id) q.(ca_owner) q.(ca_target) q.(ca_label) q.(ca_project) now in
    (set_records t db, match r with Ok (ReservedPrepared _, _) => [(cli_key q.(ca_id), now)] | _ => [] end)
  | CliCloses id r _ => (set_records (close_cli id r db.(records)) db, [])
  | CliElse op _ => (send_step db op, [])
  end.
Fixpoint cli_run (db : SendDb) (es : list CliEvent) : SendDb * list (string * string * string * Z) :=
  match es with
  | [] => (db, [])
  | e :: es => let '(db1, l1) := cli_step db e in let '(db2, l2) := cli_run db1 es in (db2, l1 ++ l2)
  end.

Definition in_window (T : Z) (e : string * string * string * Z) : bool := (T <? e.2) && (e.2 <=? T + CLI_WAKE_WINDOW_SECS).
Definition unexpired (clock : Z) (e : string * string * string * Z) : bool := clock <? e.2 + WAKE_HORIZON_SECS.

(** The accepted wakes that have not expired have their records. *)
Record cli_ok (clock : Z) (t : gmap (string * string * string) Row) (log : list (string * string * string * Z)) : Prop := mkCliOk {
  co_past e : e ∈ log → e.2 ≤ clock ∧ e.1 = cli_key e.1.2;
  co_records e : e ∈ log → unexpired clock e = true → ∃ row, t !! e.1 = Some row ∧ dates row = (e.2, e.2 + WAKE_HORIZON_SECS);
  co_keys : NoDup (fst <$> List.filter (unexpired clock) log);
  co_bound T : (count_if (in_window T) log ≤ CLI_WAKE_LIMIT)%nat }.

Lemma unexpired_later clock clock' e : clock ≤ clock' → unexpired clock' e = true → unexpired clock e = true.
Proof. unfold unexpired. rewrite !Z.ltb_lt. lia. Qed.

(** A table where the records of the scope that have not expired keep their dates. *)
Lemma cli_ok_table clock clock' t t' log :
  clock ≤ clock' → cli_ok clock t log →
  (∀ id row, t !! cli_key id = Some row → clock' < row.(Idempotency.expires_at) →
     ∃ row', t' !! cli_key id = Some row' ∧ dates row' = dates row) →
  cli_ok clock' t' log.
Proof.
  intros Hc [H1 H2 H3 H4] Ht. split; [| | |done].
  - intros e He. destruct (H1 e He). split; [lia|done].
  - intros e He Hu. destruct (H2 e He (unexpired_later _ _ _ Hc Hu)) as (row & Hr & Hd). destruct (H1 e He) as [_ Hk].
    rewrite Hk in Hr. destruct (Ht _ _ Hr) as (row' & Hr' & Hd').
    { injection Hd as _ ->. by apply Z.ltb_lt in Hu. }
    exists row'. rewrite Hk. by rewrite Hd'.
  - eapply sublist_NoDup; [exact H3|]. apply fmap_sublist. clear H1 H2 H3 H4.
    induction log as [|e log IH]; [done|]. cbn. destruct (unexpired clock' e) eqn:E1.
    + rewrite (unexpired_later _ _ _ Hc E1). by constructor.
    + destruct (unexpired clock e); [by constructor|done].
Qed.

Lemma dates_close id r t : same_dates t (close_cli id r t).
Proof.
  unfold close_cli. destruct (key_new _ _ _) as [k|]; [|done].
  etrans; [|apply dates_finalize]. destruct (cli_wake t id) as [[[[w s] x]|]|]; [|done..]. destruct s; [apply dates_transition|done..].
Qed.

Lemma same_dates_keeps t t' c row : same_dates t t' → t !! c = Some row → ∃ row', t' !! c = Some row' ∧ dates row' = dates row.
Proof.
  intros H Hr. specialize (H c). rewrite Hr in H. destruct (t' !! c) as [row'|]; [|done]. exists row'. split; [done|].
  by apply (inj Some) in H.
Qed.

(** The requests of the last minute are all in the table. *)
Lemma recent_counts clock now t log :
  0 ≤ now → clock ≤ now → cli_ok clock t log →
  (count_if (λ e : string * string * string * Z, (now - CLI_WAKE_WINDOW_SECS <? e.2)%Z) log ≤ length (recent_cli_wakes t now))%nat.
Proof.
  intros H0 Hc [H1 H2 H3 _]. unfold recent_cli_wakes. rewrite length_fmap.
  set (recent := λ e : string * string * string * Z, now - CLI_WAKE_WINDOW_SECS <? e.2).
  assert (∀ e, e ∈ log → recent e = true → unexpired clock e = true) as Hun.
  { intros e He Hr. destruct (H1 e He) as [Hle _]. unfold recent, unexpired, CLI_WAKE_WINDOW_SECS, WAKE_HORIZON_SECS in *.
    apply Z.ltb_lt in Hr. apply Z.ltb_lt. lia. }
  unfold count_if. rewrite <-(length_fmap fst (List.filter recent log)).
  rewrite <-(length_fmap fst (List.filter (recent_cli _) (map_to_list t))). apply submseteq_length, NoDup_submseteq.
  - eapply sublist_NoDup; [exact H3|]. apply fmap_sublist. clear H1 H2 H3.
    induction log as [|e log IH]; [done|]. cbn. assert (∀ e', e' ∈ log → recent e' = true → unexpired clock e' = true) as Hun'
      by (intros; apply Hun; set_solver). specialize (IH Hun').
    destruct (recent e) eqn:E1; [rewrite (Hun e) by (done || set_solver); by constructor|]. destruct (unexpired clock e); [by constructor|done].
  - intros c ([c' x] & -> & Hin)%list_elem_of_fmap. apply list_filter_elem in Hin as [Hin Hr]. cbn.
    destruct (H2 _ Hin (Hun _ Hin Hr)) as (row & Hrow & Hd). destruct (H1 _ Hin) as [_ Hk]. cbn in Hrow, Hd, Hk.
    apply list_elem_of_fmap. exists (c', row). split; [done|]. apply list_filter_elem. split; [by apply elem_of_map_to_list|].
    unfold recent_cli. cbn. rewrite Hk. cbn. injection Hd as -> _. unfold recent in Hr. cbn in Hr. apply Z.ltb_lt in Hr. apply Z.ltb_lt.
    unfold CLI_WAKE_WINDOW_SECS in *. unfold_ints. lia.
Qed.

(** What a reservation does: nothing, or a new record of a wake that had none. *)
Lemma reserve_cli_cases t uuid id owner target label project now :
  let '(t', r) := reserve_cli_wake t uuid id owner target label project now in
  (t' = t ∧ ∀ e w, r ≠ Ok (ReservedPrepared e, w)) ∨
  (length (recent_cli_wakes t now) < CLI_WAKE_LIMIT)%nat ∧ t !! cli_key id = None ∧
  ∃ row w, t' = <[cli_key id := row]> t ∧ dates row = (now, now + WAKE_HORIZON_SECS) ∧ r = Ok (ReservedPrepared (now + WAKE_HORIZON_SECS), w).
Proof.
  unfold reserve_cli_wake. destruct (key_new _ _ _) as [k|] eqn:Hk; [|by left].
  assert (columns k = cli_key id) as Hkey by (unfold key_new in Hk; apply bind_Ok in Hk as (_ & _ & Hk);
    apply bind_Ok in Hk as (_ & _ & [= <-]); done).
  destruct (_ || _); [by left|]. destruct (load_record t k) as [[r|]|] eqn:Hl; [| |by left].
  - left. split; [done|]. intros e w H. apply bind_Ok in H as (f & _ & H). apply bind_Ok in H as (a & Ha & [= -> _]).
    destruct (_ <=? _); [done|]. destruct (_ || _ || _); [done|]. by apply bind_Ok in Ha as (? & _ & ?).
  - destruct (CLI_WAKE_LIMIT <=? _)%nat eqn:Hn; [by left|]. apply Nat.leb_gt in Hn.
    destruct (_ ≫= _) as [[x w]|e] eqn:He; [|by left]. right. split; [done|].
    apply bind_Ok in He as (x' & [-> _]%ok_or_Ok%i64_checked_Some & He). apply bind_Ok in He as (g & _ & He).
    apply bind_Ok in He as (w' & _ & He). apply bind_Ok in He as (? & _ & [= <- <-]). split.
    + unfold load_record in Hl. rewrite Hkey in Hl. destruct (t !! cli_key id); [|done]. by apply bind_Ok in Hl as (? & _ & ?).
    + rewrite Hkey. by eexists _, _.
Qed.

Lemma cli_ok_accept clock now t log id row :
  0 ≤ now → clock ≤ now → cli_ok clock t log → (length (recent_cli_wakes t now) < CLI_WAKE_LIMIT)%nat → t !! cli_key id = None →
  dates row = (now, now + WAKE_HORIZON_SECS) → cli_ok now (<[cli_key id := row]> t) (log ++ [(cli_key id, now)]).
Proof.
  intros H0 Hc Hok Hlt Hnone Hd. pose proof (recent_counts clock now t log H0 Hc Hok) as Hcount.
  assert (cli_ok now t log) as [H1 H2 H3 H4] by (eapply cli_ok_table; [exact Hc|exact Hok|eauto]). split.
  - intros e [He| ->%list_elem_of_singleton]%elem_of_app; [by apply H1|done].
  - intros e [He| ->%list_elem_of_singleton]%elem_of_app Hu; [|exists row; by rewrite lookup_insert_eq].
    destruct (H2 e He Hu) as (row' & Hr' & Hd'). exists row'. rewrite lookup_insert_ne; [done|]. congruence.
  - rewrite List.filter_app, fmap_app. cbn. assert (unexpired now (cli_key id, now) = true) as -> by (unfold unexpired, WAKE_HORIZON_SECS; cbn; lia).
    cbn. apply NoDup_app. split_and!; [done| |apply NoDup_singleton]. intros c (e & -> & He)%list_elem_of_fmap Hin%list_elem_of_singleton.
    apply list_filter_elem in He as [He Hu]. destruct (H2 e He Hu) as (row' & Hr' & _). congruence.
  - intros T. rewrite count_if_app, count_if_cons. change (count_if (in_window T) []) with 0%nat.
    destruct (in_window T (cli_key id, now)) eqn:Ew; [|specialize (H4 T); lia].
    unfold in_window in Ew. cbn in Ew. apply andb_true_iff in Ew as [E1%Z.ltb_lt E2%Z.leb_le].
    assert (count_if (in_window T) log ≤ count_if (λ e : string * string * string * Z, (now - CLI_WAKE_WINDOW_SECS <? e.2)%Z) log)%nat; [|lia].
    apply count_if_le. intros e _ [Ha%Z.ltb_lt Hb]%andb_true_iff. apply Z.ltb_lt. lia.
Qed.

Lemma cli_step_ok clock db log e :
  0 ≤ clock → clock ≤ cli_now e → cli_event_ok e → cli_ok clock db.(records) log →
  cli_ok (cli_now e) (cli_step db e).1.(records) (log ++ (cli_step db e).2).
Proof.
  intros H0 Hc He H. destruct e as [q now|id r now|op now]; cbn [cli_step cli_now cli_event_ok] in *.
  - pose proof (reserve_cli_cases db.(records) q.(ca_uuid) q.(ca_id) q.(ca_owner) q.(ca_target) q.(ca_label) q.(ca_project) now) as Hr.
    destruct (reserve_cli_wake _ _ _ _ _ _ _ _) as [t x].
    destruct Hr as [[-> Hno]|(Hlt & Hnone & row & w & -> & Hd & ->)]; cbn.
    + assert (match x with Ok (ReservedPrepared _, _) => [(cli_key q.(ca_id), now)] | _ => [] end = []) as ->.
      { destruct x as [[[e| | |] w]|]; try done. by destruct (Hno e w). }
      rewrite app_nil_r. eapply cli_ok_table; [exact Hc|exact H|eauto].
    + apply (cli_ok_accept clock); done || lia.
  - cbn. rewrite app_nil_r. eapply cli_ok_table; [exact Hc|exact H|]. intros i row Hr _.
    by eapply same_dates_keeps; [apply dates_close|].
  - cbn [fst snd]. rewrite app_nil_r. eapply cli_ok_table; [exact Hc|exact H|]. intros i row Hr Hx.
    destruct (is_purge op) eqn:Hp.
    { destruct op; try done. cbn in He |- *. exists row. split; [|done]. apply map_lookup_filter_Some_2; [done|]. cbn. lia. }
    assert ((∃ q, op = ReserveKey q) ∨ ∀ q, op ≠ ReserveKey q) as [[q ->]|Hno] by (destruct op; eauto).
    + exists row. split; [|done]. cbn. unfold reserve. destruct (reserve_check _ _) as [[a|x]|x]; [done| |done].
      pose proof (insert_row db.(records) q x (cli_key i) row Hr) as Hi. destruct (reserve_insert _ _ _) as [t' [|[|n]]]; done.
    + by eapply same_dates_keeps; [apply dates_step_from|].
Qed.

Lemma cli_run_ok es : ∀ clock db log,
  0 ≤ clock → cli_in_order clock es → cli_ok clock db.(records) log →
  ∃ clock', cli_ok clock' (cli_run db es).1.(records) (log ++ (cli_run db es).2).
Proof.
  induction es as [|e es IH]; intros clock db log H0 Ho H; cbn; [exists clock; by rewrite app_nil_r|].
  destruct Ho as (Hc & He & Ho). pose proof (cli_step_ok clock db log e H0 Hc He H) as H1.
  destruct (cli_step db e) as [db1 l1]. cbn in H1. destruct (IH (cli_now e) db1 _ ltac:(lia) Ho H1) as (c' & H2).
  destruct (cli_run db1 es) as [db2 l2]. cbn in *. exists c'. by rewrite app_assoc.
Qed.

(** The wakes of the command line are bounded.  Along any sequence of
    requests, of wakes that end, and of other operations of the durable sends
    and their purge, in any minute at most sixty requests are accepted. *)
Lemma cli_wake_rate_bound c es T :
  cli_in_order 0 es → (count_if (in_window T) (cli_run (empty_sends c) es).2 ≤ CLI_WAKE_LIMIT)%nat.
Proof.
  intros Ho. destruct (cli_run_ok es 0 (empty_sends c) [] ltac:(lia) Ho) as (c' & H).
  - split; [by intros e He%elem_of_nil..|apply NoDup_nil_2|]. intros T'. unfold count_if. cbn. lia.
  - by apply (co_bound _ _ _ H).
Qed.
End CliRuns.

(** ** The wake of a thread *)

(** The refusals of the rules, and of a directory, are errors and never values. *)
Definition by_error {A} (r : result ThreadReply A) : Prop := ∀ v, r ≠ Err (RValue v).
Lemma by_error_bind {A B} (r : result ThreadReply A) (f : A → result ThreadReply B) :
  by_error r → (∀ a, by_error (f a)) → by_error (r ≫= f).
Proof. intros Hr Hf v. destruct r as [a|e]; cbn; [apply Hf|]. intros [= ->]. by apply (Hr v). Qed.
Lemma by_error_Ok {A} (a : A) : by_error (Ok a).
Proof. done. Qed.
Lemma by_error_RError {A} c d b : by_error (Err (RError c d b) : result ThreadReply A).
Proof. done. Qed.
Definition directory_refuses (D : Directory) : Prop := ∀ actor l reason, by_error (communication_scope actor l reason).
#[local] Hint Resolve by_error_Ok by_error_RError : core.

Lemma daemon_directory_refuses db s named project : directory_refuses (daemon_directory db s named project).
Proof.
  intros actor l reason. cbn. induction l as [|m l IH]; cbn; [done|]. apply by_error_bind; [|intros w; by apply by_error_bind].
  destruct (bool_decide _); [done|]. by destruct (project_scope _ _ _ _).
Qed.

Section ThreadWakes.
Context `{U : UuidLib} `{W : WakeCodec} `{P : PayloadCodec} `{C : ThreadCodec} {CL : ThreadLaws C} `{E : EnvelopeCodec}.
Context (tools : ThreadTools) (encode_message : BridgetMessage → string) (wake : FrozenWake) (thread operation : string).

(** The post of the wake is in the ledger of the operations. *)
Definition post_replayed (db : ThreadDb) : option ThreadTxOutcome :=
  thread_operation_replay db wake.(fw_owner) operation (wake_hash tools thread wake.(fw_body)).
Definition post_recorded (db : ThreadDb) : Prop := ∃ o, post_replayed db = Some o ∧ posted_in thread o = true.

Lemma recorded_kept db db' : db.(operations) ⊆ db'.(operations) → post_recorded db → post_recorded db'.
Proof.
  intros Hs (o & Ho & Hp). exists o. split; [|done]. revert Ho. unfold post_replayed, thread_operation_replay, lookup_operation.
  destruct (db.(operations) !! _) as [row|] eqn:Hr; [|done]. by rewrite (lookup_weaken _ _ _ _ Hr Hs).
Qed.

Lemma canonical_required v field c : canonical_uuid v = Some v → require_uuid v field = Ok c → c = v.
Proof.
  unfold canonical_uuid, require_uuid. intros (u & -> & Hu)%bind_Some Hc%ok_or_Ok. cbn in Hc.
  unfold then_some in Hu. destruct (bool_decide _); [|done]. destruct (_ && _); congruence.
Qed.

(** A post under a new key is done, or refused. *)
Lemma post_outcome db q db' o :
  thread_operation_replay db q.(p_actor) q.(p_operation_id) q.(p_canonical_hash) = None → thread_post db q = (db', Ok o) →
  match o with Done v => posted_in q.(p_thread_id) (ThreadStore.Replayed v) = true | Refused _ => True | _ => False end.
Proof.
  intros Hn. unfold thread_post, once. rewrite Hn. unfold commit_thread.
  match goal with |- (match ?R with _ => _ end) = _ → _ => destruct R as [[db1 o1]|e] eqn:H; [|done] end.
  intros [= _ <-]. revert H. destruct (load_thread_for_member _ _ _) as [[th m]|]; [|by intros [= _ <-]].
  destruct (is_some _); [by intros [= _ <-]|]. destruct (is_some_and _ _); [by intros [= _ <-]|].
  destruct (post_targets _ _ _) as [tg|]; [|by intros [= _ <-]]. intros (valid & _ & H)%bind_Ok.
  destruct (negb valid) in H; [by injection H as _ <-|].
  match type of H with (let (_, _) := ?R in _) = _ => destruct R as [db2 applied] end.
  destruct applied; [..|by injection H as _ <-]; apply bind_Ok in H as (room & _ & H); (destruct room; [by injection H as _ <-|]);
    unfold write_post in H; apply bind_Ok in H as (? & _ & H); apply bind_Ok in H as ([[? ?] ?] & _ & H);
    apply bind_Ok in H as (? & _ & [= _ <-]); by apply bool_decide_eq_true.
Qed.

Lemma tx_by_error x : by_error (tx x).
Proof. destruct x as [db [[v|v|v|r]|e]]; cbn; try done. by destruct r. Qed.

(** The post of the wake, as a request of the store. *)
Definition wake_post (q : PostEntry) : Prop :=
  op_typed (TPost q) ∧ q.(p_actor) = wake.(fw_owner) ∧ q.(p_operation_id) = operation ∧
  q.(p_canonical_hash) = wake_hash tools thread wake.(fw_body) ∧ q.(p_thread_id) = thread ∧ q.(p_body) = wake.(fw_body).

(** An answer with a value to the post of the wake: the post was done. *)
Lemma wake_post_done (D : Directory) db at_ db' v c :
  directory_refuses D → canonical_uuid thread = Some thread → canonical_uuid operation = Some operation → post_replayed db = None →
  handle_with_change tools db wake.(fw_owner)
    (Threads.mkRequest None 1 (Post thread wake.(fw_body) TargetAll operation None None None None)) at_ = (db', RValue v, c) →
  ∃ q, thread_post db q = (db', Ok (Done v)) ∧ wake_post q.
Proof.
  intros Hd Hu1 Hu2 Hn H. change (handle_with_change _ _ _ _ _) with
    (post tools db wake.(fw_owner) thread wake.(fw_body) TargetAll operation None None None None None at_) in H. revert H. unfold post, answer.
  match goal with |- (match ?R with _ => _ end) = _ → _ => assert (by_error R) as He; [|destruct R as [x|e] eqn:HR] end.
  - apply by_error_bind; [unfold require_uuid; by destruct (opt_filter _ _)|intros t].
    apply by_error_bind; [unfold require_uuid; by destruct (opt_filter _ _)|intros o].
    apply by_error_bind; [unfold validate_body; repeat case_match; done|intros _].
    apply by_error_bind; [done|intros _]. apply by_error_bind; [done|intros ack]. apply by_error_bind; [done|intros [[[spec mode] targets] notices]].
    cbv zeta. destruct (_ <? _); [done|]. destruct (thread_operation_replay _ _ _ _) as [r|]; [apply (tx_by_error (db, Ok r))|].
    apply by_error_bind; [destruct (thread_show _ _ _) as [|r]; [done|by destruct r]|intros view].
    apply by_error_bind; [apply Hd|intros warnings; apply tx_by_error].
  - intros [= ->]. apply bind_Ok in HR as (t & ->%(canonical_required _ _ _ Hu1) & H). apply bind_Ok in H as (o & ->%(canonical_required _ _ _ Hu2) & H).
    apply bind_Ok in H as (_ & _ & H).
    apply bind_Ok in H as (_ & _ & H). apply bind_Ok in H as (ack & [= <-] & H). apply bind_Ok in H as (x & [= <-] & H).
    cbv zeta beta iota in H. destruct (_ <? _) in H; [done|].
    change (thread_operation_replay _ _ _ _) with (post_replayed db) in H. rewrite Hn in H.
    apply bind_Ok in H as (view & _ & H). apply bind_Ok in H as (warnings & _ & H).
    match type of H with tx (thread_post _ ?p) = _ => exists p; destruct (thread_post db p) as [db1 r1] eqn:Hp end.
    apply bind_Ok in H as (o & Ho & H). destruct r1 as [o1|]; [|done]. cbn in Ho. injection Ho as ->.
    apply post_outcome in Hp as Hout; [|exact Hn]. destruct o; cbn in H; try done. injection H as <- <- _. split_and!; done.
  - intros [= _ ->]. by destruct (He v).
Qed.

(** Code under the lock that leaves the threads alone. *)
Lemma close_cli_keeps k : frames ww_threads (close_cli_record k wake).
Proof.
  unfold close_cli_record. apply frames_bind; [done|intros [[_ phase] expires]].
  apply frames_bind; [|intros _]; case_match; try done; intros w; unfold on_records; by destruct (_ w.(ww_sends).(records)).
Qed.

Hypothesis Htarget : wake.(fw_target) = ThreadTarget thread.
Hypothesis Hoperation : wake.(fw_thread_operation_id) = Some operation.

(** The post is looked for first. *)
Lemma known_phase_cases k now w w' r :
  known_phase tools k wake now w = (w', r) →
  w'.(ww_threads) = w.(ww_threads) ∧
  (post_recorded w.(ww_threads) ∧ (r = Ok (Some WCommittedThread) ∨ wake.(fw_source) = CliOnce ∧ ∃ e, r = Err e) ∨
   post_replayed w.(ww_threads) = None ∧ r ≠ Ok (Some WCommittedThread) ∨ ¬ post_recorded w.(ww_threads) ∧ ∃ e, r = Err e).
Proof using Htarget Hoperation.
  unfold known_phase. rewrite Htarget, Hoperation. cbv beta iota delta [mbind locked_bind pure reading mret locked_ret ok_or fail].
  change (thread_operation_replay _ _ _ _) with (post_replayed w.(ww_threads)).
  destruct (post_replayed w.(ww_threads)) as [o|] eqn:Ho.
  - destruct (posted_in thread o) eqn:Hp.
    + assert (post_recorded w.(ww_threads)) as Hrec by by exists o.
      pose proof (close_cli_keeps k w) as Hc. destruct (bool_decide _) eqn:Hs; [apply bool_decide_eq_true in Hs|].
      * destruct (close_cli_record k wake w) as [w1 [u|e]]; cbn in Hc |- *; intros [= <- <-]; eauto 10.
      * intros [= <- <-]. eauto 10.
    + assert (¬ post_recorded w.(ww_threads)) as Hno by (intros (o' & ? & ?); congruence).
      destruct o as [?|?|?|[]]; intros [= <- <-]; eauto 10.
  - intros [= <- <-]. split; [done|]. right; left. split; [done|]. by repeat case_match.
Qed.

(** The first lock: what is known, or a phase that leaves the state, or the post. *)
Lemma first_lock_thread b c k scheduled now w w' x :
  first_lock tools b c k wake scheduled now w = (w', Ok x) →
  ∃ w1 known, known_phase tools k wake now w = (w1, Ok known) ∧
    match known with
    | Some p => w' = w1 ∧ x = inl p
    | None => w' = w1 ∧ (∃ p, x = inl p ∧ p ≠ WCommittedThread) ∨ ∃ p, x = inl p ∧ post_wake tools b c k wake thread now w1 = (w', Ok p)
    end.
Proof using Htarget Hoperation.
  unfold first_lock. intros (w1 & known & Hk & H)%locked_bind_Ok. exists w1, known. split; [done|].
  destruct known as [p|]; [by injection H as <- <-|]. destruct (_ <=? _); [injection H as <- <-; by left; eauto|].
  apply locked_bind_Ok in H as (w2 & gone & Hg & H).
  assert (w2 = w1) as -> by (destruct scheduled; [apply locked_bind_Ok in Hg as (w3 & ? & [= <- _] & [= <- _])|injection Hg as <- _]; done).
  destruct gone; [injection H as <- <-; by left; eauto|]. apply locked_bind_Ok in H as (w2 & d & [= <- <-] & H).
  destruct (negb _); [done|]. apply locked_bind_Ok in H as (w2 & ? & [= <- _] & H).
  apply locked_bind_Ok in H as (w2 & ? & Hg2 & H). assert (w2 = w1) as -> by (destruct (unguarded wake); by injection Hg2 as <- _).
  apply locked_bind_Ok in H as (w2 & control & [= <- <-] & H). destruct (admit_autonomous_effect _ _); [|injection H as <- <-; by left; eauto].
  rewrite Htarget in H. apply locked_bind_Ok in H as (w2 & p & Hp & [= <- <-]). right. eauto.
Qed.

(** A post that is committed. *)
Lemma post_wake_done b c k now w w' :
  directory_refuses b.(be_directory) → canonical_uuid thread = Some thread → canonical_uuid operation = Some operation →
  post_replayed w.(ww_threads) = None → post_wake tools b c k wake thread now w = (w', Ok WCommittedThread) →
  ∃ q v, thread_post w.(ww_threads) q = (w'.(ww_threads), Ok (Done v)) ∧ wake_post q.
Proof using Htarget Hoperation.
  intros Hd Hu1 Hu2 Hn. unfold post_wake. intros (w1 & at1 & [= <- _] & H)%locked_bind_Ok. destruct (_ <=? _); [done|].
  apply locked_bind_Ok in H as (w1 & ? & Hr & H). assert (w1.(ww_threads) = w.(ww_threads)) as Hw1.
  { destruct (bool_decide _); [|by injection Hr as <- _]. apply locked_bind_Ok in Hr as (w2 & z & [= <- _] & Hr).
    destruct (is_some_and _ _); [|by injection Hr as <- _]. unfold on_records in Hr. by destruct (transition _ _ _ _); injection Hr as <- _. }
  apply locked_bind_Ok in H as (w2 & at2 & [= <- _] & H). destruct (_ <=? _); [done|].
  rewrite Hoperation in H. apply locked_bind_Ok in H as (w2 & ? & [= <- <-] & H). apply locked_bind_Ok in H as (w2 & reply & Hpost & H).
  rewrite Hw1 in Hpost. destruct (handle_with_change _ _ _ _ _) as [[db' rep] ch] eqn:Hh. injection Hpost as <- <-.
  apply locked_bind_Ok in H as (w2 & ? & Hv & H). destruct rep as [|v| | | | |]; try done. destruct v; try done. injection Hv as <- _.
  apply wake_post_done in Hh as (q & Hq & Hqf); [|done..]. exists q. eexists. split; [|done]. rewrite Hq.
  apply locked_bind_Ok in H as (w3 & ? & Hf & [= <-]). destruct (bool_decide _); [|by injection Hf as <- _].
  unfold on_records in Hf. by destruct (finalize _ _ _); injection Hf as <- _.
Qed.

Definition wake_id_key : option IdempotencyKey := ok (key_new (scope_of_source wake.(fw_source)) Send wake.(fw_id)).

(** A delivery of the wake. *)
Lemma thread_delivery b1 b2 c scheduled uuid did lnow now push others w w' r f :
  deliver_frozen_wake tools encode_message b1 b2 c wake scheduled uuid did lnow now push others w = (w', r, f) →
  (is_Some wake_id_key → post_recorded w.(ww_threads) →
   w'.(ww_threads) = w.(ww_threads) ∧ f = None ∧ (wake.(fw_source) ≠ CliOnce → r = Ok WCommittedThread)) ∧
  (directory_refuses b1.(be_directory) → canonical_uuid thread = Some thread → canonical_uuid operation = Some operation →
   r = Ok WCommittedThread → is_Some wake_id_key ∧ f = None ∧
     (post_recorded w.(ww_threads) ∧ w'.(ww_threads) = w.(ww_threads) ∨
      ∃ q v, thread_post w.(ww_threads) q = (w'.(ww_threads), Ok (Done v)) ∧ wake_post q)).
Proof using Htarget Hoperation.
  unfold deliver_frozen_wake, wake_id_key. destruct (key_new _ _ _) as [k|] eqn:Hk; [|intros [= <- <- <-]; by split; [intros [? ?]|]].
  intros H. destruct (first_lock tools b1 c k wake scheduled now w) as [w1 [x|e]] eqn:Hf.
  - pose proof Hf as (w2 & known & Hkn & Hx)%first_lock_thread. apply known_phase_cases in Hkn as [Ht Hcases].
    assert (∃ p, x = inl p) as [p ->] by (destruct known; naive_solver). injection H as <- <- <-. destruct known as [p'|].
    + destruct Hx as [-> [= ->]]. split.
      * intros _ Hrec. split_and!; [done..|]. intros Hs. destruct Hcases as [(_ & [[= ->]|[? _]])|[[Hn _]|[Hno _]]]; try done.
        destruct Hrec as (o & Ho & _). congruence.
      * intros _ _ _ [= ->]. split_and!; [done..|]. left. split; [|done]. by destruct Hcases as [[? _]|[[_ ?]|[_ [e ?]]]].
    + destruct Hcases as [(Hrec & [?|[_ [e ?]]])|[[Hn _]|[_ [e ?]]]]; try done. split.
      { intros _ (o & Ho & _). congruence. }
      intros Hd Hu1 Hu2 [= ->]. split_and!; [done..|]. right. destruct Hx as [[-> (p & [= <-] & ?)]|(p & [= <-] & Hp)]; [done|].
      rewrite <-Ht in *. by eapply post_wake_done.
  - injection H as <- <- <-. split; [|done]. intros _ Hrec. unfold first_lock in Hf. unfold mbind at 1, locked_bind at 1 in Hf.
    destruct (known_phase tools k wake now w) as [w2 y] eqn:Hkn. apply known_phase_cases in Hkn as [Ht Hcases].
    destruct Hcases as [(_ & [->|[Hs [e' ->]]])|[[Hn _]|[Hno _]]]; try done; [by injection Hf as <- <-|].
    destruct Hrec as (o & Ho & _). congruence.
Qed.

Lemma done_new db q db' v : thread_post db q = (db', Ok (Done v)) →
  thread_operation_replay db q.(p_actor) q.(p_operation_id) q.(p_canonical_hash) = None.
Proof.
  unfold thread_post, once. destruct (thread_operation_replay _ _ _ _) as [x|] eqn:Hx; [|done]. intros [= _ ->].
  unfold thread_operation_replay in Hx. by apply fmap_Some in Hx as ([?|[]] & _ & ?).
Qed.

Lemma post_records db q db' v : threads_ok db → thread_post db q = (db', Ok (Done v)) → wake_post q → post_recorded db'.
Proof using CL.
  intros Hok Hq (_ & Ha & Ho & Hh & Ht & _). pose proof (post_outcome _ _ _ _ (done_new _ _ _ _ Hq) Hq) as Hv.
  assert (keyed_call db (TPost q) = Some (q.(p_actor), q.(p_operation_id), q.(p_canonical_hash), (db', Ok (Done v)))) as Hkc by (cbn; by rewrite Hq).
  apply done_recorded in Hkc as (row & Hrow & Hrh & Hrj); [|done]. exists (ThreadStore.Replayed v). rewrite <-Ht. split; [|done].
  unfold post_replayed, thread_operation_replay, lookup_operation. rewrite <-Ha, <-Ho, Hrow. cbn.
  by rewrite Hrh, Hh, bool_decide_eq_true_2, Hrj, value_roundtrip.
Qed.

(** The wake of a thread is posted once.  When a delivery of the wake ends
    with the phase of a committed post, it posted the text of the wake in the
    name of its owner, in one transaction of the threads, or the post was
    already there.  Then, whatever becomes of the threads, every later delivery
    of the same wake finds that post: it leaves the threads as they are, sends
    no frame and ends with the same phase.  Only the record of a wake of the
    command line may be refused its closing. *)
Lemma thread_wake_posts_once ops0 b0 fx0 b1 b2 c scheduled uuid did lnow now push others w w' f :
  Forall op_typed ops0 → thread_run no_threads ops0 = (b0, fx0) → w.(ww_threads) = b0.(bd_db) →
  directory_refuses b1.(be_directory) → canonical_uuid thread = Some thread → canonical_uuid operation = Some operation →
  deliver_frozen_wake tools encode_message b1 b2 c wake scheduled uuid did lnow now push others w = (w', Ok WCommittedThread, f) →
  f = None ∧
  (w'.(ww_threads) = w.(ww_threads) ∨ ∃ q v, thread_post w.(ww_threads) q = (w'.(ww_threads), Ok (Done v)) ∧ wake_post q) ∧
  ∀ deps ops b fx b1' b2' c' scheduled' uuid' did' lnow' now' push' others' w2,
    Forall op_typed ops → thread_run (mkBoard w'.(ww_threads) deps) ops = (b, fx) → w2.(ww_threads) = b.(bd_db) →
    let '(w3, r, f') :=
      deliver_frozen_wake tools encode_message b1' b2' c' wake scheduled' uuid' did' lnow' now' push' others' w2 in
    w3.(ww_threads) = w2.(ww_threads) ∧ f' = None ∧ (wake.(fw_source) ≠ CliOnce → r = Ok WCommittedThread).
Proof using CL Htarget Hoperation.
  intros Hty0 H0 Hw Hd Hu1 Hu2 H. destruct no_threads_ok as [Hok Htr]. eapply run_traced in H0 as [Hok0 Htr0]; [|done..].
  rewrite <-Hw in *. apply thread_delivery in H as [_ H]. destruct (H Hd Hu1 Hu2 eq_refl) as (Hkey & -> & Hpost). clear H.
  assert (post_recorded w'.(ww_threads) ∧ threads_ok w'.(ww_threads) ∧ ∃ l, traced w'.(ww_threads) l) as (Hrec & Hok' & l & Htr').
  { destruct Hpost as [[Hrec ->]|(q & v & Hq & Hwp)]; [by eauto|]. split; [by eapply post_records|].
    assert (thread_step (mkBoard w.(ww_threads) []) (TPost q) = (mkBoard w'.(ww_threads) [], [])) as Hs by (cbn; by rewrite Hq).
    eapply step_traced in Hs as [? ?]; [|apply Hwp|done..]. eauto. }
  split; [done|]. split; [destruct Hpost as [[_ ?]|?]; [by left|by right]|].
  intros deps ops b fx b1' b2' c' scheduled' uuid' did' lnow' now' push' others' w2 Hty Hrun Hw2.
  eapply run_kept in Hrun; [|done..]. apply (recorded_kept _ w2.(ww_threads)) in Hrec; [|rewrite Hw2; apply (kp_operations _ _ Hrun)].
  destruct (deliver_frozen_wake _ _ _ _ _ _ _ _ _ _ _ _ _ w2) as [[w3 r] f'] eqn:H. apply thread_delivery in H as [H _]. by apply H.
Qed.
End ThreadWakes.
