(* ===== verification/WakeExamples.v ===== *)
(** * WakeExamples: wakes on concrete inputs

    Codecs that satisfy the laws of the wakes, and a small daemon: one agent
    with a live connection, a schedule that fires every hour, a wake that
    leaves for its agent, a wake asked on the command line. *)

From S2P Require Import Prelude Text Uuid Message Router Guards Communication Dispatch Reminders Control Sql Idempotency.
From S2P Require Import AgentLinks Guidance Deliveries SendRuns ExecutionStore ThreadStore ThreadRuns Threads.
From S2P Require Import WakeCalendar WakeStore WakeDelivery WakeTick WakeRuns.
Local Open Scope Z_scope.

Module WakeExamples.
Import CalendarExamples.
#[local] Existing Instance Canonical.lib.
#[local] Existing Instance Gregorian.lib.
#[local] Existing Instance ThreadExamples.bits_codec.
#[local] Existing Instance RulesExamples.open_directory.

(** A schedule as its own text. *)
#[local] Instance payloads : PayloadCodec := {|
  Json := WakeSchedule;
  schedule_to_json := serialised;
  schedule_from_json := Some;
  json_no_occurrence s := negb (is_some s.(ws_occurrence));
  json_occurrence_phase s := (λ w, phase_name w.(fw_phase)) <$> s.(ws_occurrence) |}.
#[local] Instance payload_laws : PayloadLaws payloads.
Proof. split; intros s; cbn; [done| |]; by destruct s.(ws_occurrence). Qed.

(** A wake as the bits of its number. *)
#[local] Existing Instance ThreadExamples.project_countable.
#[local] Instance source_countable : Countable WakeSource.
Proof.
  apply (inj_countable' (λ s, match s with Scheduled => 0 | CliOnce => 1 | MissedSummary => 2 end)
           (λ n, if n =? 0 then Scheduled else if n =? 1 then CliOnce else MissedSummary)). by intros [].
Defined.
#[local] Instance target_countable : Countable WakeTarget.
Proof.
  apply (inj_countable' (λ t, match t with SelfTarget => None | AgentTarget i => Some (inl i) | ThreadTarget i => Some (inr i) end)
           (λ x, match x with None => SelfTarget | Some (inl i) => AgentTarget i | Some (inr i) => ThreadTarget i end)). by intros [].
Defined.
#[local] Instance phase_countable : Countable WakePhase.
Proof.
  apply (inj_countable (λ p, phase_name p)
           (λ s, find (λ p, bool_decide (phase_name p = s))
                   [WPrepared; WDeferred; WDispatchingAgent; WCommittedThread; WConfirmed; WOutcomeUnknown; WMissedBeforeDeparture; WOwnerUnavailable])).
  by intros [].
Defined.
#[local] Instance native_countable : Countable NativeWakeOrigin.
Proof. apply (inj_countable' (λ n, (n.(nw_task_id), n.(nw_instance_id), n.(nw_mission))) (λ '(a, b, c), mkNative a b c)). by intros []. Defined.
#[local] Instance frozen_countable : Countable FrozenWake.
Proof.
  apply (inj_countable'
    (λ w, ((w.(fw_version), w.(fw_source), w.(fw_target), w.(fw_owner), w.(fw_owner_project), w.(fw_owner_native)),
           (w.(fw_due_at), w.(fw_issued_at), w.(fw_grace_until), w.(fw_id), w.(fw_label)),
           (w.(fw_body), w.(fw_canonical_bytes), w.(fw_thread_operation_id), w.(fw_delivery_id), w.(fw_phase))))
    (λ '((a, b, c, d, e, f), (g, h, i, j, k), (l, m, n, o, p)), mkFrozen a b c d e f g h i j k l m n o p)). by intros [].
Defined.
#[local] Instance wakes : WakeCodec := {|
  wake_to_vec w := bits (encode (with_wake_bytes "" w));
  wake_from_slice s := countable.decode (of_bits s) |}.
#[local] Instance wake_laws : WakeLaws wakes.
Proof. split. intros w. cbn. rewrite of_bits_bits. apply decode_encode. Qed.

(** ** The table *)

Definition hourly_of (id owner : string) : WakeSchedule :=
  mkSchedule id owner None None SelfTarget (Interval 3600) "tea" 1700000000 1700003600 "" None None None None.

Lemma create_exact_witness :
  (create_wake_schedule ∅ (hourly_of some_id "P")).1 !! some_id = Some (row_of (hourly_of some_id "P")) ∧
  wakes_ok 1700000000 (create_wake_schedule ∅ (hourly_of some_id "P")).1.
Proof.
  assert (wakes_ok 1700000000 ∅) as H0.
  { split_and!; [by intros id r Hr|intros o; unfold counted; rewrite map_to_list_empty; unfold count_if; cbn; lia|].
    rewrite map_size_empty. lia. }
  assert (fresh_schedule (hourly_of some_id "P")) as Hf by (split_and!; by vm_compute).
  pose proof (create_exact 1700000000 ∅ (hourly_of some_id "P") H0 Hf (lookup_empty _)) as H.
  destruct (create_wake_schedule _ _) as [t r]. change (_ || _) with false in H. by destruct H as (_ & Hin & Hok & _).
Defined.

(** ** One agent that asks to be woken every hour *)

Definition quiet : Beside :=
  mkBeside 0 (mkNativeWorld (λ _, Ok None) (λ _, Ok None) (mkLinkDb [] [] []) (λ _, None) empty_execs)
    RulesExamples.open_directory (λ _, Some true).
Definition house : WakeWorld := mkWorld GuidanceExamples.family ∅ (empty_sends fresh) no_threads.(bd_db).
Definition meanwhile_sends (db : SendDb) : Meanwhile := mkMeanwhile [] GuidanceExamples.family db no_threads.(bd_db) quiet.
Definition nothing : Meanwhile := meanwhile_sends (empty_sends fresh).
Definition clocks : WakeClocks :=
  let s := from_secs 1 in let d := from_secs 1700003610 in mkClocks s (Some d) s (Some d) (Some d) (Some d) s (Some d) s s.
Definition leaves_now : DepartureArgs := mkDeparture clocks "u1" "d1" 1700003610 (PushDone true).
Definition readings (m : Meanwhile) (_ : WakeSchedule) : TickArgs :=
  mkTick m m m m m paris paris paris paris paris paris "op" leaves_now.

Definition ask_hourly : Asked :=
  mkAsked quiet quiet "conn-p" (mkWakeConn false None false false) (mkWakeRequest 1 (ScheduleWake SelfTarget (Interval 3600) (Some "tea")))
    some_id "u" NameUnknown paris paris paris 1700000000 house nothing.
Definition encode_wake (_ : BridgetMessage) : string := "e1".
#[local] Existing Instance SendExamples.small_codec.

(** The wake of the first hour leaves; the next tick is after its grace, and
    closes it; the second hour fires. *)
Definition first_hour : list DaemonEvent := [Ask ask_hourly 1700000000; Tick (readings nothing) nothing 1700003610].
Definition sent : Meanwhile :=
  meanwhile_sends (send_run (empty_sends fresh)
    [ReserveKey (mkReserve (mkKey SCHEDULED_WAKE_SCOPE Send (wake_key some_id 1700003600)) "" 1700003610 WAKE_HORIZON_SECS 1700003610 60);
     Begin (mkKey SCHEDULED_WAKE_SCOPE Send (wake_key some_id 1700003600)) (mkSend "d1" "ip" 1 1700608410 "e1") None None None None None 1700003610]).
Definition an_hour : list DaemonEvent := first_hour ++ [Tick (readings sent) sent 1700007100; Tick (readings sent) sent 1700007201].

Example an_hour_fires :
  (daemon_run RulesExamples.tools encode_wake hex house an_hour).2 =
    [(some_id, 1700003600, 1700003610); (some_id, 1700007200, 1700007201)].
Proof. vm_compute. reflexivity. Qed.

Lemma wakes_fire_forward_witness :
  daemon_in_order 0 an_hour ∧
  ∀ id due at_, (id, due, at_) ∈ (daemon_run RulesExamples.tools encode_wake hex house an_hour).2 → due ≤ at_.
Proof.
  assert (daemon_in_order 0 an_hour) as Ho.
  { cbn. split_and!; try lia; try done; try (by constructor); intros s; split_and!; by constructor. }
  split; [exact Ho|]. pose proof (wakes_fire_forward RulesExamples.tools encode_wake hex house an_hour eq_refl Ho) as H.
  destruct (daemon_run _ _ _ _ _) as [w log]. intros id due at_ Hin. exact (proj1 (proj2 (proj2 H) id due at_ Hin)).
Defined.

(** ** A wake that leaves for its agent *)

Definition tea_time : FrozenWake :=
  match freeze_canonical (scheduled_occurrence (hourly_of some_id "P") 1700003600 1700003605 "op") with Ok w => w | Err _ => new_cli_wake "" "" "" SelfTarget "" None 0 0 end.
(** The schedule of the wake, at the locks of its departures. *)
Definition with_tea : gmap string ScheduleRow :=
  {[some_id := row_of (with_next 1700007200 None "" (with_occurrence (Some tea_time) (hourly_of some_id "P")))]}.
Definition tries (now : Z) (delivery : string) : Attempt :=
  mkAttempt quiet quiet GuidanceExamples.family with_tea no_threads.(bd_db) [] GuidanceExamples.family with_tea no_threads.(bd_db)
    clocks (Some some_id) "u" delivery now now (PushDone true).
(** Two tries, then a third one after an acknowledgement. *)
Definition tea_run : list WakeEvent :=
  [Leaving (tries 1700003610 "d1"); Leaving (tries 1700003620 "d2"); Elsewhere (Acknowledge "d1" "ip" 1 1700003621) 1700003621;
   Leaving (tries 1700003622 "d3")].

Example tea_leaves :
  (λ f, f.(wf_delivery).(sd_id)) <$> (wake_run tea_time RulesExamples.tools encode_wake (empty_sends fresh) tea_run).2 = ["d1"].
Proof. vm_compute. reflexivity. Qed.

Lemma wake_leaves_once_witness :
  (length (wake_run tea_time RulesExamples.tools encode_wake (empty_sends fresh) tea_run).2 ≤ 1)%nat.
Proof.
  apply (wake_leaves_once tea_time RulesExamples.tools encode_wake fresh tea_run); [done|by vm_compute|].
  cbn. split_and!; by constructor || lia || done.
Defined.

(** ** Two wakes asked on the command line *)

Definition tea_on (id : string) : CliAsk := mkCliAsk "u" id "bridget-local-cli" (AgentTarget "P") "tea" None.
Definition two_asks : list CliEvent := [CliAsks (tea_on "ask-1") 1000; CliAsks (tea_on "ask-2") 1001; CliAsks (tea_on "ask-1") 1002].

Example two_accepted : snd <$> (cli_run (empty_sends fresh) two_asks).2 = [1000; 1001].
Proof. vm_compute. reflexivity. Qed.

Lemma cli_wake_rate_bound_witness : (count_if (in_window 950) (cli_run (empty_sends fresh) two_asks).2 ≤ 60)%nat.
Proof. apply (cli_wake_rate_bound fresh two_asks 950). cbn. split_and!; done || lia. Defined.

Definition asked : gmap (string * string * string) Row * result IdempotencyError (Reservation * FrozenWake) :=
  reserve_cli_wake ∅ "u" "ask-1" "bridget-local-cli" (AgentTarget "P") "tea" None 1000.
Definition asked_wake : FrozenWake :=
  match asked.2 with Ok (_, w) => w | Err _ => new_cli_wake "" "" "" SelfTarget "" None 0 0 end.
Lemma asked_ok : asked = (asked.1, Ok (ReservedPrepared 605800, asked_wake)).
Proof. unfold asked_wake. apply SendExamples.with_answer. vm_compute. reflexivity. Qed.

Lemma cli_wake_taken_once_witness :
  cli_wake asked.1 "ask-1" = Ok (Some (asked_wake, Prepared, 605800)) ∧
  reserve_cli_wake asked.1 "v" "ask-1" "bridget-local-cli" (AgentTarget "P") "tea" None 2000 =
    (asked.1, Ok (Idempotency.Replayed (OutcomeUnknown 605800), asked_wake)) ∧
  reserve_cli_wake asked.1 "v" "ask-1" "bridget-local-cli" (AgentTarget "P") "coffee" None 2000 =
    (asked.1, Ok (Idempotency.EnvelopeMismatch, asked_wake)).
Proof.
  destruct (cli_wake_taken_once ∅ "u" "ask-1" "bridget-local-cli" (AgentTarget "P") "tea" None 1000 asked.1 605800 asked_wake asked_ok)
    as (H1 & _ & _ & _ & _ & H2).
  split_and!; [exact H1|rewrite H2; [reflexivity|discriminate|apply Nat.leb_le; reflexivity]..].
Defined.

(** ** A wake posted in a thread *)

Import RulesExamples.
Definition thread_wake : FrozenWake :=
  mkFrozen 1 Scheduled (ThreadTarget plan) ann None None 1700003600 1700003605 1700004200 (wake_key some_id 1700003600) "tea" "tea time" ""
    (Some key1) None WPrepared.
Definition open_ops : list ThreadOp :=
  [TCreate (mkCreate ann "k0" "h" plan "plan" [ann; bob] [] 10 LIMITS)].
Definition opened_board : Board := (thread_run no_threads open_ops).1.
Definition thread_schedule : WakeSchedule :=
  mkSchedule some_id ann None None (ThreadTarget plan) (Interval 3600) "tea" 1700000000 1700007200 "" None None (Some thread_wake) None.
Definition thread_house : WakeWorld :=
  mkWorld GuidanceExamples.family {[some_id := row_of thread_schedule]} (empty_sends fresh) opened_board.(bd_db).
Definition posts (w : WakeWorld) : WakeWorld * result string WakePhase * option WakeFrame :=
  deliver_frozen_wake tools encode_wake quiet quiet clocks thread_wake (Some some_id) "u" "d" 1700003610 1700003610 (PushDone true) (λ w, w) w.
Definition posted : WakeWorld := (posts thread_house).1.1.

Lemma posted_ok : posts thread_house = (posted, Ok WCommittedThread, None).
Proof.
  unfold posted. assert ((posts thread_house).1.2 = Ok WCommittedThread ∧ (posts thread_house).2 = None) as [<- <-] by by vm_compute.
  by destruct (posts thread_house) as [[w r] f].
Qed.

Lemma thread_wake_posts_once_witness :
  posted.(ww_threads).(entries) !! (plan, 1) ≠ None ∧ (posts posted).1.1.(ww_threads) = posted.(ww_threads).
Proof.
  split; [by vm_compute|].
  destruct (thread_wake_posts_once (CL := ThreadExamples.bits_laws) tools encode_wake thread_wake plan key1 eq_refl eq_refl
    open_ops opened_board (thread_run no_threads open_ops).2 quiet quiet clocks (Some some_id) "u" "d" 1700003610 1700003610 (PushDone true)
    (λ w, w) thread_house posted None) as (_ & _ & H).
  - by repeat constructor.
  - apply surjective_pairing.
  - done.
  - apply daemon_directory_refuses.
  - by vm_compute.
  - by vm_compute.
  - exact posted_ok.
  - specialize (H [] [] (mkBoard posted.(ww_threads) []) [] quiet quiet clocks (Some some_id) "u" "d" 1700003610 1700003610 (PushDone true)
      (λ w, w) posted (Forall_nil_2 _) eq_refl eq_refl).
    unfold posts. destruct (deliver_frozen_wake _ _ _ _ _ _ _ _ _ _ _ _ _ posted) as [[w r] f]. by destruct H as [H _].
Defined.
End WakeExamples.
