(* ===== verification/HumanInbox.v ===== *)
(** * HumanInbox: the inbox of the human, [bridget-daemon/src/human_inbox.rs]

    The daemon and its companion service deposit items, a human decides on
    each of them once, the producer reads the decisions without marking them
    and acknowledges a decision after it applied it.  The table is the list of
    its rows (see [Sql]); each operation is one transaction or one statement.
    JSON texts go through [InboxCodec]; fresh identifiers are arguments; the
    external channel is a program whose answers are arguments.  The handlers
    are those of [daemon.rs].  Rows with the same date are listed in the order
    of their insertion, which SQLite does not promise: no theorem uses it. *)

From Stdlib Require Import Ascii.
From S2P Require Import Prelude Text Sql.
Local Open Scope Z_scope.

(** ** Data of [protocol.rs] *)

Inductive HumanInboxKind :=
  | InterventionRequired | ChainExhausted | ReviewVerdictPending | ActivationApproval | BudgetReached | ReplyDebt
  | FocusWaitingAgent | ObjectVanished | HumanRouteReplaced.
#[export] Instance HumanInboxKind_eq_dec : EqDecision HumanInboxKind.
Proof. solve_decision. Defined.
Definition ALL_KINDS : list HumanInboxKind :=
  [InterventionRequired; ChainExhausted; ReviewVerdictPending; ActivationApproval; BudgetReached; ReplyDebt; FocusWaitingAgent;
   ObjectVanished; HumanRouteReplaced].
Definition kind_as_sql (k : HumanInboxKind) : string :=
  match k with
  | InterventionRequired => "intervention_required" | ChainExhausted => "chain_exhausted"
  | ReviewVerdictPending => "review_verdict_pending" | ActivationApproval => "activation_approval"
  | BudgetReached => "budget_reached" | ReplyDebt => "reply_debt" | FocusWaitingAgent => "focus_waiting_agent"
  | ObjectVanished => "object_vanished" | HumanRouteReplaced => "human_route_replaced"
  end.
Definition kind_from_sql (value : string) : option HumanInboxKind := find_first (λ k, bool_decide (kind_as_sql k = value)) ALL_KINDS.

Inductive HumanInboxState := StateOpen | StateResolved | StateClosedSelf.
#[export] Instance HumanInboxState_eq_dec : EqDecision HumanInboxState.
Proof. solve_decision. Defined.
Definition state_literal (s : HumanInboxState) : string :=
  match s with StateOpen => "open" | StateResolved => "resolved" | StateClosedSelf => "closed_self" end.
Definition state_from (s : string) : option HumanInboxState :=
  find_first (λ x, bool_decide (state_literal x = s)) [StateOpen; StateResolved; StateClosedSelf].

Inductive HumanInboxProducer := ProducerDaemon | ProducerGuichet.
#[export] Instance HumanInboxProducer_eq_dec : EqDecision HumanInboxProducer.
Proof. solve_decision. Defined.
Definition producer_literal (p : HumanInboxProducer) : string := match p with ProducerDaemon => "daemon" | ProducerGuichet => "guichet" end.
Definition producer_from (s : string) : option HumanInboxProducer :=
  find_first (λ x, bool_decide (producer_literal x = s)) [ProducerDaemon; ProducerGuichet].

Record HumanInboxSubject := mkSubject {
  su_objective_id : option string; su_delegation_id : option string; su_message_id : option string; su_project_id : option string;
  su_agent_id : option string }.
Definition default_subject : HumanInboxSubject := mkSubject None None None None None.

Record HumanInboxDecision := mkDecision { de_id : string; de_choice : string; de_actor : string; de_at : Z }.

Record HumanInboxItemFrame := mkItem {
  it_id : string; it_dedup_key : string; it_kind : HumanInboxKind; it_subject : HumanInboxSubject; it_context : string;
  it_options : list string; it_state : HumanInboxState; it_producer : HumanInboxProducer; it_created_at : Z;
  it_resolved_at : option Z; it_occurrences : Z; it_decision : option HumanInboxDecision; it_acked_at : option Z }.

Record HumanInboxPendingDecision := mkPending {
  pd_decision_id : string; pd_item_id : string; pd_dedup_key : string; pd_kind : HumanInboxKind; pd_subject : HumanInboxSubject;
  pd_choice : string; pd_at : Z }.

Inductive HumanInboxListFilter := FilterOpen | FilterAll.
Inductive HumanInboxRefusal :=
  | HumanPrincipalRequired | CapabilityRequired | UnsupportedVersion | InvalidRequest | UnknownItem | AlreadyResolved
  | ChoiceNotOffered | StoreUnavailable.

(** ** The table *)

Definition MAX_CONTEXT_BYTES : nat := 16 * 1024.
Definition MAX_SUMMARY_CHARS : nat := 400.
Definition MAX_NOTIFY_ATTEMPTS : nat := 20.
Definition DEFAULT_REMINDER_AFTER_SECS : Z := 3600.

Record NotifyAttempt := mkNotify { na_at : Z; na_ok : bool; na_error : option string }.

(** The occurrences of an item are a number of transactions: they stay below the integers of SQLite. *)
Record InboxRow := mkInboxRow {
  ib_id : string;
  ib_dedup_key : string;
  ib_kind : string;
  ib_subject_json : string;
  ib_context_json : string;
  ib_options_json : string;
  ib_state : string;
  ib_producer : string;
  ib_created_at : Z;
  ib_resolved_at : option Z;
  ib_occurrences : Z;
  ib_decision_json : option string;
  ib_acked_at : option Z;
  ib_notify_attempts_json : string;
  ib_last_reminded_at : option Z }.

Definition with_occurrences (n : Z) (r : InboxRow) : InboxRow :=
  mkInboxRow r.(ib_id) r.(ib_dedup_key) r.(ib_kind) r.(ib_subject_json) r.(ib_context_json) r.(ib_options_json) r.(ib_state)
    r.(ib_producer) r.(ib_created_at) r.(ib_resolved_at) n r.(ib_decision_json) r.(ib_acked_at) r.(ib_notify_attempts_json)
    r.(ib_last_reminded_at).
Definition with_decision (now : Z) (json : string) (r : InboxRow) : InboxRow :=
  mkInboxRow r.(ib_id) r.(ib_dedup_key) r.(ib_kind) r.(ib_subject_json) r.(ib_context_json) r.(ib_options_json) "resolved"
    r.(ib_producer) r.(ib_created_at) (Some now) r.(ib_occurrences) (Some json) r.(ib_acked_at) r.(ib_notify_attempts_json)
    r.(ib_last_reminded_at).
Definition with_acked (now : Z) (r : InboxRow) : InboxRow :=
  mkInboxRow r.(ib_id) r.(ib_dedup_key) r.(ib_kind) r.(ib_subject_json) r.(ib_context_json) r.(ib_options_json) r.(ib_state)
    r.(ib_producer) r.(ib_created_at) r.(ib_resolved_at) r.(ib_occurrences) r.(ib_decision_json) (Some now) r.(ib_notify_attempts_json)
    r.(ib_last_reminded_at).
Definition with_closed (now : Z) (context : string) (r : InboxRow) : InboxRow :=
  mkInboxRow r.(ib_id) r.(ib_dedup_key) r.(ib_kind) r.(ib_subject_json) context r.(ib_options_json) "closed_self"
    r.(ib_producer) r.(ib_created_at) (Some now) r.(ib_occurrences) r.(ib_decision_json) r.(ib_acked_at) r.(ib_notify_attempts_json)
    r.(ib_last_reminded_at).
Definition with_notify (json : string) (r : InboxRow) : InboxRow :=
  mkInboxRow r.(ib_id) r.(ib_dedup_key) r.(ib_kind) r.(ib_subject_json) r.(ib_context_json) r.(ib_options_json) r.(ib_state)
    r.(ib_producer) r.(ib_created_at) r.(ib_resolved_at) r.(ib_occurrences) r.(ib_decision_json) r.(ib_acked_at) json
    r.(ib_last_reminded_at).
Definition with_reminded (now : Z) (r : InboxRow) : InboxRow :=
  mkInboxRow r.(ib_id) r.(ib_dedup_key) r.(ib_kind) r.(ib_subject_json) r.(ib_context_json) r.(ib_options_json) r.(ib_state)
    r.(ib_producer) r.(ib_created_at) r.(ib_resolved_at) r.(ib_occurrences) r.(ib_decision_json) r.(ib_acked_at) r.(ib_notify_attempts_json)
    (Some now).

(** [serde_json] on the columns, the [json_extract] of a decision ([Err] when
    its text is not JSON), the [json_set] of the reason of a closing ([None]
    when the context is not JSON), the ["summary"] of a context. *)
Class InboxCodec := {
  subject_to_json : HumanInboxSubject → string;
  subject_from_json : string → option HumanInboxSubject;
  options_to_json : list string → string;
  options_from_json : string → option (list string);
  decision_to_json : HumanInboxDecision → string;
  decision_from_json : string → option HumanInboxDecision;
  decision_json_id : string → result string (option string);
  decision_json_actor : string → result string (option string);
  attempts_to_json : list NotifyAttempt → string;
  attempts_from_json : string → option (list NotifyAttempt);
  set_closed_reason : string → string → option string;
  context_summary : string → option string }.
Class InboxLaws (C : InboxCodec) := {
  subject_roundtrip s : subject_from_json (subject_to_json s) = Some s;
  options_roundtrip l : options_from_json (options_to_json l) = Some l;
  decision_roundtrip d : decision_from_json (decision_to_json d) = Some d;
  decision_id_extracted d : decision_json_id (decision_to_json d) = Ok (Some d.(de_id));
  decision_actor_extracted d : decision_json_actor (decision_to_json d) = Ok (Some d.(de_actor));
  attempts_roundtrip l : attempts_from_json (attempts_to_json l) = Some l;
  attempts_default : attempts_from_json "[]" = Some [] }.

Record DepositRequest := mkDeposit {
  dq_dedup_key : string; dq_kind : HumanInboxKind; dq_subject : HumanInboxSubject; dq_context : string; dq_options : list string;
  dq_producer : HumanInboxProducer; dq_now : Z }.
Record Deposited := mkDeposited { dp_item_id : string; dp_created : bool; dp_occurrences : Z }.

Definition u32_of (z : Z) : Z := z mod 2 ^ 32.
Definition is_open (r : InboxRow) : bool := bool_decide (r.(ib_state) = "open").
Definition is_resolved (r : InboxRow) : bool := bool_decide (r.(ib_state) = "resolved").
Definition has_id (i : string) (r : InboxRow) : bool := bool_decide (r.(ib_id) = i).

Section InboxOps.
Context `{C : InboxCodec}.

Definition valid_deposit (q : DepositRequest) : bool :=
  negb (Str.is_blank q.(dq_dedup_key)) && (String.length q.(dq_context) <=? MAX_CONTEXT_BYTES)%nat
  && negb (bool_decide (q.(dq_options) = [])) && forallb (λ o, negb (Str.is_blank o)) q.(dq_options).
Definition new_row (id : string) (q : DepositRequest) : InboxRow :=
  mkInboxRow id q.(dq_dedup_key) (kind_as_sql q.(dq_kind)) (subject_to_json q.(dq_subject)) q.(dq_context)
    (options_to_json q.(dq_options)) "open" (producer_literal q.(dq_producer)) q.(dq_now) None 1 None None "[]" None.

(** [id] is the fresh identifier. *)
Definition deposit (t : list InboxRow) (q : DepositRequest) (id : string)
    : list InboxRow * result string (result HumanInboxRefusal Deposited) :=
  if negb (valid_deposit q) then (t, Ok (Err InvalidRequest))
  else
    match select_one (λ r, bool_decide (r.(ib_dedup_key) = q.(dq_dedup_key)) && is_open r) t with
    | Some r =>
      (update (has_id r.(ib_id)) (λ r, with_occurrences (r.(ib_occurrences) + 1) r) t,
       Ok (Ok (mkDeposited r.(ib_id) false (u32_of (Z.max (r.(ib_occurrences) + 1) 1)))))
    | None =>
      if exists_row (has_id id) t then (t, Err "UNIQUE constraint failed: human_inbox.id")
      else (t ++ [new_row id q], Ok (Ok (mkDeposited id true 1)))
    end.

Definition row_to_frame (r : InboxRow) : HumanInboxItemFrame :=
  mkItem r.(ib_id) r.(ib_dedup_key) (default InterventionRequired (kind_from_sql r.(ib_kind)))
    (default default_subject (subject_from_json r.(ib_subject_json))) r.(ib_context_json)
    (default [] (options_from_json r.(ib_options_json))) (default StateOpen (state_from r.(ib_state)))
    (default ProducerDaemon (producer_from r.(ib_producer))) r.(ib_created_at) r.(ib_resolved_at)
    (u32_of (Z.max r.(ib_occurrences) 0)) (r.(ib_decision_json) ≫= decision_from_json) r.(ib_acked_at).

Definition get (t : list InboxRow) (id : string) : option HumanInboxItemFrame := row_to_frame <$> select_one (has_id id) t.

(** [ORDER BY created_at,id] and [ORDER BY created_at DESC,id DESC]. *)
Definition created_before (a b : InboxRow) : bool :=
  (a.(ib_created_at) <? b.(ib_created_at)) || ((a.(ib_created_at) =? b.(ib_created_at)) && String.leb a.(ib_id) b.(ib_id)).
Definition find_by_dedup_key (t : list InboxRow) (key : string) : option HumanInboxItemFrame :=
  row_to_frame <$> head (sort_by created_before (select (λ r, bool_decide (r.(ib_dedup_key) = key)) t)).

Definition clamp (lo hi x : Z) : Z := Z.max lo (Z.min hi x).
Definition newest_first (a b : InboxRow) : bool := b.(ib_created_at) <=? a.(ib_created_at).
Definition open_count (t : list InboxRow) : Z := u32_of (Z.of_nat (updated is_open t)).
Definition list_items (t : list InboxRow) (f : HumanInboxListFilter) (limit : Z) : list HumanInboxItemFrame * Z :=
  let rows := match f with FilterOpen => select is_open t | FilterAll => t end in
  (row_to_frame <$> take (Z.to_nat (clamp 1 500 limit)) (sort_by newest_first rows), open_count t).

Definition page_after (after : option (Z * string)) (r : InboxRow) : bool :=
  is_none_or after (λ a, (r.(ib_created_at) <? a.1) || ((r.(ib_created_at) =? a.1) && String.ltb r.(ib_id) a.2)).
Definition list_open_page (t : list InboxRow) (limit : Z) (after : option (Z * string)) : list HumanInboxItemFrame :=
  row_to_frame <$> take (Z.to_nat (clamp 1 51 limit)) (sort_by (λ a b, created_before b a) (select (λ r, is_open r && page_after after r) t)).

(** The rows whose [json_extract] has this value; a text that is not JSON ends the query. *)
Fixpoint extracting (f : string → result string (option string)) (value : string) (t : list InboxRow) : result string (list InboxRow) :=
  match t with
  | [] => Ok []
  | r :: t =>
    x ← match r.(ib_decision_json) with Some json => f json | None => Ok None end;
    l ← extracting f value t;
    Ok (if bool_decide (x = Some value) then r :: l else l)
  end.
Definition find_decision_by_actor (t : list InboxRow) (actor : string) : result string (option HumanInboxItemFrame) :=
  l ← extracting decision_json_actor actor t;
  if (1 <? length l)%nat then Err "invalid query" else Ok (row_to_frame <$> head l).

(** [uuid] is the fresh identifier of the decision. *)
Definition resolve (t : list InboxRow) (item_id choice actor uuid : string) (now : Z)
    : list InboxRow * result string (result HumanInboxRefusal HumanInboxItemFrame) :=
  match get t item_id with
  | None => (t, Ok (Err UnknownItem))
  | Some item =>
    if negb (bool_decide (item.(it_state) = StateOpen)) then (t, Ok (Err AlreadyResolved))
    else if negb (existsb (λ o, bool_decide (o = choice)) item.(it_options)) then (t, Ok (Err ChoiceNotOffered))
    else
      let t' := update (has_id item_id) (with_decision now (decision_to_json (mkDecision uuid choice actor now))) t in
      match get t' item_id with
      | Some updated => (t', Ok (Ok updated))
      | None => (t, Err "query returned no rows")
      end
  end.

Definition pending_of (item : HumanInboxItemFrame) : option HumanInboxPendingDecision :=
  d ← item.(it_decision);
  Some (mkPending d.(de_id) item.(it_id) item.(it_dedup_key) item.(it_kind) item.(it_subject) d.(de_choice) d.(de_at)).
Definition is_pending (producer : HumanInboxProducer) (r : InboxRow) : bool :=
  is_resolved r && negb (is_some r.(ib_acked_at)) && bool_decide (r.(ib_producer) = producer_literal producer).
(** [ORDER BY resolved_at], where an absent date comes first. *)
Definition resolved_before (a b : InboxRow) : bool :=
  match a.(ib_resolved_at), b.(ib_resolved_at) with
  | None, _ => true
  | Some _, None => false
  | Some x, Some y => x <=? y
  end.
Definition pending_decisions (t : list InboxRow) (producer : HumanInboxProducer) (limit : Z) : list HumanInboxPendingDecision :=
  omap (λ r, pending_of (row_to_frame r))
    (take (Z.to_nat (clamp 1 200 limit)) (sort_by resolved_before (select (is_pending producer) t))).

(** The first row that matches; the texts before it must be JSON. *)
Fixpoint find_decision (decision_id : string) (t : list InboxRow) : result string (option InboxRow) :=
  match t with
  | [] => Ok None
  | r :: t =>
    if negb (is_resolved r) then find_decision decision_id t
    else
      x ← match r.(ib_decision_json) with Some json => decision_json_id json | None => Ok None end;
      if bool_decide (x = Some decision_id) then Ok (Some r) else find_decision decision_id t
  end.
Definition ack (t : list InboxRow) (decision_id : string) (now : Z) : list InboxRow * result string (option Z) :=
  match find_decision decision_id t with
  | Err e => (t, Err e)
  | Ok None => (t, Ok None)
  | Ok (Some r) =>
    match r.(ib_acked_at) with
    | Some at_ => (t, Ok (Some at_))
    | None => (update (has_id r.(ib_id)) (with_acked now) t, Ok (Some now))
    end
  end.

Definition close_self (t : list InboxRow) (item_id reason : string) (now : Z) : list InboxRow * result string bool :=
  match select_one (λ r, has_id item_id r && is_open r) t with
  | None => (t, Ok false)
  | Some r =>
    match set_closed_reason r.(ib_context_json) reason with
    | None => (t, Err "malformed JSON")
    | Some context => (update (λ r, has_id item_id r && is_open r) (with_closed now context) t, Ok true)
    end
  end.

(** ** Reminders and attempts *)

Definition due_row (threshold : Z) (r : InboxRow) : bool :=
  is_open r && (r.(ib_created_at) <=? threshold) && is_none_or r.(ib_last_reminded_at) (λ at_, at_ <=? threshold).
Definition due_rows (t : list InboxRow) (now after_secs : Z) : list InboxRow :=
  take 50 (sort_by (λ a b, a.(ib_created_at) <=? b.(ib_created_at)) (select (due_row (i64_saturating_sub now after_secs)) t)).
Definition due_for_reminder (t : list InboxRow) (now after_secs : Z) : list HumanInboxItemFrame := row_to_frame <$> due_rows t now after_secs.
Definition mark_reminded (t : list InboxRow) (item_id : string) (now : Z) : list InboxRow := update (has_id item_id) (with_reminded now) t.

(** The attempts that are kept: the last twenty. *)
Definition kept_attempts (l : list NotifyAttempt) (a : NotifyAttempt) : list NotifyAttempt :=
  let l := l ++ [a] in drop (length l - MAX_NOTIFY_ATTEMPTS) l.
Definition notify_attempts (t : list InboxRow) (item_id : string) : list NotifyAttempt :=
  default [] ((ib_notify_attempts_json <$> select_one (has_id item_id) t) ≫= attempts_from_json).
Definition record_notify_attempt (t : list InboxRow) (item_id : string) (a : NotifyAttempt) : list InboxRow :=
  update (has_id item_id) (with_notify (attempts_to_json (kept_attempts (notify_attempts t item_id) a))) t.
End InboxOps.

Lemma kept_attempts_length l a : (length (kept_attempts l a) ≤ MAX_NOTIFY_ATTEMPTS)%nat.
Proof. unfold kept_attempts. rewrite length_drop. lia. Qed.

(** ** The external channel *)

Record HumanChannelConfig := mkChannel { ch_command : list string; ch_reminder_after_secs : Z }.

(** The file of the channel: the check of its place, its content, its mode. *)
Inductive FileRead := FileContent (raw : string) | FileAbsent | FileError (error : string).
Record ChannelFile := mkChannelFile {
  cf_path : string; cf_place : result string (); cf_read : FileRead; cf_mode : result string Z }.

(** A number in octal, as [{:o}] writes it. *)
Fixpoint octal_go (fuel : nat) (z : Z) (acc : string) : string :=
  let s := String (ascii_of_nat (48 + Z.to_nat (z mod 8))) acc in
  match fuel with
  | O => s
  | S fuel => if z / 8 =? 0 then s else octal_go fuel (z / 8) s
  end.
(** Nine bits are three digits. *)
Definition octal (z : Z) : string := octal_go 3 z "".
Definition is_absolute (path : string) : bool := Str.starts_with "/" path.

Definition load_channel_config (parse : string → result string HumanChannelConfig) (f : ChannelFile)
    : result string (option HumanChannelConfig) :=
  let at_ e := f.(cf_path) +:+ ": " +:+ e in
  _ ← f.(cf_place);
  match f.(cf_read) with
  | FileAbsent => Ok None
  | FileError e => Err (at_ e)
  | FileContent raw =>
    mode ← map_err at_ f.(cf_mode);
    let mode := Z.land mode 511 in
    if negb (Z.land mode 63 =? 0) then Err (at_ ("permissions " +:+ octal mode +:+ " trop larges, 0600 attendu"))
    else
      config ← map_err at_ (parse raw);
      program ← ok_or (head config.(ch_command)) (at_ "commande vide");
      if negb (is_absolute program) then Err (at_ "la commande doit être un chemin absolu")
      else if config.(ch_reminder_after_secs) <? 60 then Err (at_ "reminder_after_secs doit valoir au moins 60")
      else Ok (Some config)
  end.

Record ChannelSummary := mkSummary {
  cs_item_id : string; cs_kind : HumanInboxKind; cs_summary : string; cs_options : list string; cs_open_count : Z; cs_reminder : bool }.

Fixpoint underscores_spaced (s : string) : string :=
  match s with
  | EmptyString => EmptyString
  | String c s => String (if bool_decide (c = "_"%char) then " "%char else c) (underscores_spaced s)
  end.
Definition channel_summary `{InboxCodec} (item : HumanInboxItemFrame) (open_count : Z) (reminder : bool) : ChannelSummary :=
  mkSummary item.(it_id) item.(it_kind)
    (Str.chars_take MAX_SUMMARY_CHARS (default (underscores_spaced (kind_as_sql item.(it_kind))) (context_summary item.(it_context))))
    item.(it_options) open_count reminder.

(** *** The program of the channel *)

Record ExitStatus := mkExit { xs_success : bool; xs_code : option Z }.
Inductive IoRead := ReadBytes (bytes : string) | ReadAgain | ReadFails (error : string).
Inductive IoWrite := Wrote (count : nat) | WriteAgain | WriteFails (error : string).
(** One turn of the loop: whether the deadline is over, and the answers of the system. *)
Record Turn := mkTurn { tn_late : bool; tn_write : IoWrite; tn_read : IoRead; tn_wait : result string (option ExitStatus) }.
Record ChannelState := mkChannelState {
  cl_written : nat; cl_stdin : bool; cl_retained : string; cl_eof : bool; cl_status : option ExitStatus }.

Section ChannelLoop.
(** [String::from_utf8_lossy], and the bytes to write. *)
Context (lossy : string → string) (payload : nat).

Definition write_turn (w : IoWrite) (s : ChannelState) : result string ChannelState :=
  if negb s.(cl_stdin) then Ok s
  else
    written ← match w with
              | Wrote O => Err "stdin: écriture interrompue"
              | Wrote n => Ok (s.(cl_written) + n)%nat
              | WriteAgain => Ok s.(cl_written)
              | WriteFails e => Err ("stdin: " +:+ e)
              end;
    Ok (mkChannelState written (negb (written =? payload)%nat) s.(cl_retained) s.(cl_eof) s.(cl_status)).
Definition read_turn (r : IoRead) (s : ChannelState) : result string ChannelState :=
  if s.(cl_eof) then Ok s
  else
    match r with
    | ReadBytes EmptyString => Ok (mkChannelState s.(cl_written) s.(cl_stdin) s.(cl_retained) true s.(cl_status))
    | ReadBytes b =>
      let keep := Nat.min (String.length b) (1024 - String.length s.(cl_retained)) in
      Ok (mkChannelState s.(cl_written) s.(cl_stdin) (s.(cl_retained) +:+ String.substring 0 keep b) false s.(cl_status))
    | ReadAgain => Ok s
    | ReadFails e => Err ("stderr: " +:+ e)
    end.
Definition wait_turn (w : result string (option ExitStatus)) (s : ChannelState) : result string ChannelState :=
  match s.(cl_status) with
  | Some _ => Ok s
  | None =>
    x ← map_err (λ e, "attente: " +:+ e) w;
    Ok (mkChannelState s.(cl_written) s.(cl_stdin) s.(cl_retained) s.(cl_eof) x)
  end.
Definition exit_result (x : ExitStatus) (retained : string) : result string () :=
  if x.(xs_success) then Ok ()
  else Err ("sortie " +:+ pretty (default (-1) x.(xs_code)) +:+ ": " +:+ Str.chars_take 200 (lossy retained)).

(** The turns in their order; [None] when the loop still runs after them. *)
Fixpoint channel_loop (turns : list Turn) (s : ChannelState) : option (result string ()) :=
  match turns with
  | [] => None
  | tn :: turns =>
    if tn.(tn_late) then Some (Err "délai canal dépassé")
    else
      match (s ← write_turn tn.(tn_write) s; s ← read_turn tn.(tn_read) s; wait_turn tn.(tn_wait) s) with
      | Err e => Some (Err e)
      | Ok s =>
        match s.(cl_status) with
        | Some x => if s.(cl_eof) && negb s.(cl_stdin) then Some (exit_result x s.(cl_retained)) else channel_loop turns s
        | None => channel_loop turns s
        end
      end
  end.

(** The stop of a program that failed: whether it already ended, the signal, then the turns of the wait. *)
Inductive KillResult := Killed | NoSuchProcess | KillFails (error : string).
Fixpoint wait_stopped (waits : list (result string bool)) : result string () :=
  match waits with
  | [] => Err "enfant canal non arrêté après SIGTERM"
  | Err e :: _ => Err e
  | Ok true :: _ => Ok ()
  | Ok false :: waits => wait_stopped waits
  end.
Definition stop_child (ended : result string bool) (kill : KillResult) (waits : list (result string bool)) : result string () :=
  e ← ended;
  if e : bool then Ok ()
  else match kill with KillFails error => Err error | _ => wait_stopped waits end.

(** The whole push: the launch, the loop, and the stop of a program that failed. *)
Definition push_to_channel (late : bool) (launch pipes : result string ()) (turns : list Turn)
    (ended : result string bool) (kill : KillResult) (waits : list (result string bool)) : option (result string ()) :=
  if late then Some (Err "délai canal dépassé avant lancement")
  else
    match launch with
    | Err e => Some (Err ("lancement: " +:+ e))
    | Ok _ =>
      r ← match pipes with Err e => Some (Err e) | Ok _ => channel_loop turns (mkChannelState O true "" false None) end;
      Some (match r with
            | Ok u => Ok u
            | Err cause => Err (match stop_child ended kill waits with Ok _ => cause | Err e => cause +:+ "; arrêt: " +:+ e end)
            end)
    end.
End ChannelLoop.

(** ** Deposits and reminders with the channel *)

Section InboxChannel.
Context `{C : InboxCodec} (push : HumanChannelConfig → ChannelSummary → result string ()).

Definition attempt_of (now : Z) (r : result string ()) : NotifyAttempt :=
  match r with Ok _ => mkNotify now true None | Err e => mkNotify now false (Some e) end.

Definition deposit_and_notify (t : list InboxRow) (q : DepositRequest) (id : string) (channel : option HumanChannelConfig)
    : list InboxRow * result string (result HumanInboxRefusal Deposited) :=
  let '(t1, r) := deposit t q id in
  match r, channel with
  | Ok (Ok d), Some config =>
    if d.(dp_created) then
      match get t1 d.(dp_item_id) with
      | Some item =>
        let pushed := push config (channel_summary item (open_count t1) false) in
        (record_notify_attempt t1 d.(dp_item_id) (attempt_of q.(dq_now) pushed), r)
      | None => (t1, r)
      end
    else (t1, r)
  | _, _ => (t1, r)
  end.

(** The items in turn; the log holds what was pushed. *)
Fixpoint remind_each (config : HumanChannelConfig) (count now : Z) (items : list HumanInboxItemFrame) (t : list InboxRow)
    : list InboxRow * list string :=
  match items with
  | [] => (t, [])
  | item :: items =>
    let pushed := push config (channel_summary item count true) in
    let t1 := mark_reminded (record_notify_attempt t item.(it_id) (attempt_of now pushed)) item.(it_id) now in
    let '(t2, l) := remind_each config count now items t1 in
    (t2, item.(it_id) :: l)
  end.
Definition remind_overdue (t : list InboxRow) (channel : option HumanChannelConfig) (now : Z) : list InboxRow * list string :=
  match channel with
  | None => (t, [])
  | Some config => remind_each config (open_count t) now (due_for_reminder t now config.(ch_reminder_after_secs)) t
  end.

(** ** Requests *)

Definition HUMAN_INBOX_CONTRACT_VERSION : Z := 1.
Inductive InboxRequest :=
  | InboxDeposit (q : DepositRequest)
  | InboxList (f : HumanInboxListFilter) (limit : Z)
  | InboxResolve (item_id choice : string)
  | InboxDecisions (limit : Z)
  | InboxAck (decision_id : string)
  | InboxClose (item_id reason : string).
Inductive InboxReply :=
  | InboxRejected (reason : HumanInboxRefusal)
  | InboxDeposited (item_id : string) (created : bool) (occurrences : Z)
  | InboxItems (items : list HumanInboxItemFrame) (open_count : Z)
  | InboxDecisionsBatch (decisions : list HumanInboxPendingDecision)
  | InboxAcked (decision_id : string) (acked_at : Z)
  | InboxClosed (item_id : string) (closed : bool).

Definition store_answer {A} (r : result string (result HumanInboxRefusal A)) (f : A → InboxReply) : InboxReply :=
  match r with Ok (Ok a) => f a | Ok (Err reason) => InboxRejected reason | Err _ => InboxRejected StoreUnavailable end.

(** The handlers; [actor] is the human that the connection speaks for, [uuid] a fresh identifier. *)
Definition handle_human_inbox (t : list InboxRow) (actor : option string) (version : Z) (channel : option HumanChannelConfig)
    (uuid : string) (now : Z) (q : InboxRequest) : list InboxRow * InboxReply :=
  if negb (version =? HUMAN_INBOX_CONTRACT_VERSION) then (t, InboxRejected UnsupportedVersion)
  else
    match q with
    | InboxDeposit q =>
      let '(t', r) :=
        deposit_and_notify t (mkDeposit q.(dq_dedup_key) q.(dq_kind) q.(dq_subject) q.(dq_context) q.(dq_options) ProducerGuichet now)
          uuid channel in
      (t', store_answer r (λ d, InboxDeposited d.(dp_item_id) d.(dp_created) d.(dp_occurrences)))
    | InboxList f limit =>
      match actor with
      | None => (t, InboxRejected HumanPrincipalRequired)
      | Some _ => (t, InboxItems (list_items t f limit).1 (list_items t f limit).2)
      end
    | InboxResolve item_id choice =>
      match actor with
      | None => (t, InboxRejected HumanPrincipalRequired)
      | Some actor =>
        let '(t', r) := resolve t item_id choice actor uuid now in
        (t', store_answer r (λ item, InboxItems [item] (open_count t')))
      end
    | InboxDecisions limit => (t, InboxDecisionsBatch (pending_decisions t ProducerGuichet limit))
    | InboxAck decision_id =>
      let '(t', r) := ack t decision_id now in
      (t', match r with
           | Ok (Some at_) => InboxAcked decision_id at_
           | Ok None => InboxRejected UnknownItem
           | Err _ => InboxRejected StoreUnavailable
           end)
    | InboxClose item_id reason =>
      let '(t', r) := close_self t item_id reason now in
      (t', match r with Ok closed => InboxClosed item_id closed | Err _ => InboxRejected StoreUnavailable end)
    end.

(** A deposit of the daemon itself; [refusal_debug] is the name of a refusal as [{:?}] writes it. *)
Definition refusal_debug (r : HumanInboxRefusal) : string :=
  match r with
  | HumanPrincipalRequired => "HumanPrincipalRequired" | CapabilityRequired => "CapabilityRequired"
  | UnsupportedVersion => "UnsupportedVersion" | InvalidRequest => "InvalidRequest" | UnknownItem => "UnknownItem"
  | AlreadyResolved => "AlreadyResolved" | ChoiceNotOffered => "ChoiceNotOffered" | StoreUnavailable => "StoreUnavailable"
  end.
Definition daemon_deposit_human_inbox (t : list InboxRow) (q : DepositRequest) (id : string) (channel : option HumanChannelConfig)
    : list InboxRow * result string Deposited :=
  let '(t', r) :=
    deposit_and_notify t (mkDeposit q.(dq_dedup_key) q.(dq_kind) q.(dq_subject) q.(dq_context) q.(dq_options) ProducerDaemon q.(dq_now))
      id channel in
  (t', match r with
       | Ok (Ok d) => Ok d
       | Ok (Err refusal) => Err ("human_inbox_refused:" +:+ refusal_debug refusal)
       | Err e => Err e
       end).
End InboxChannel.

(** ** The state of the table *)

Section InboxInvariant.
Context `{C : InboxCodec} {L : InboxLaws C}.

(** What a state says of the other columns. *)
Definition state_ok (options : list string) (r : InboxRow) : Prop :=
  r.(ib_state) = "open" ∧ r.(ib_resolved_at) = None ∧ r.(ib_decision_json) = None ∧ r.(ib_acked_at) = None ∨
  r.(ib_state) = "resolved" ∧
    (∃ d, r.(ib_decision_json) = Some (decision_to_json d) ∧ r.(ib_resolved_at) = Some d.(de_at) ∧ d.(de_choice) ∈ options) ∨
  r.(ib_state) = "closed_self" ∧ is_Some r.(ib_resolved_at) ∧ r.(ib_decision_json) = None ∧ r.(ib_acked_at) = None.
Definition row_ok (r : InboxRow) : Prop :=
  (∃ options, r.(ib_options_json) = options_to_json options ∧ options ≠ [] ∧ (∀ o, o ∈ options → Str.is_blank o = false) ∧ state_ok options r) ∧
  1 ≤ r.(ib_occurrences) ∧ is_Some (kind_from_sql r.(ib_kind)) ∧ is_Some (producer_from r.(ib_producer)) ∧
  ∃ l, attempts_from_json r.(ib_notify_attempts_json) = Some l ∧ (length l ≤ MAX_NOTIFY_ATTEMPTS)%nat.

(** One open item per key, one item per decision. *)
Record inbox_ok (t : list InboxRow) : Prop := mkInboxOk {
  io_ids : unique ib_id t;
  io_rows r : r ∈ t → row_ok r;
  io_keys r r' : r ∈ t → r' ∈ t → is_open r = true → is_open r' = true → r.(ib_dedup_key) = r'.(ib_dedup_key) → r.(ib_id) = r'.(ib_id);
  io_decisions r r' d d' : r ∈ t → r' ∈ t → r.(ib_decision_json) = Some (decision_to_json d) →
    r'.(ib_decision_json) = Some (decision_to_json d') → d.(de_id) = d'.(de_id) → r.(ib_id) = r'.(ib_id) }.

Definition fresh_decision (t : list InboxRow) (uuid : string) : Prop :=
  ∀ r d, r ∈ t → r.(ib_decision_json) = Some (decision_to_json d) → d.(de_id) ≠ uuid.

(** How a row becomes another: its identity stays, what ended stays ended with
    its decision, an acknowledgement stays. *)
Record inbox_later (r r' : InboxRow) : Prop := mkLater {
  il_same : (r'.(ib_id), r'.(ib_dedup_key), r'.(ib_kind), r'.(ib_subject_json), r'.(ib_options_json), r'.(ib_producer), r'.(ib_created_at)) =
            (r.(ib_id), r.(ib_dedup_key), r.(ib_kind), r.(ib_subject_json), r.(ib_options_json), r.(ib_producer), r.(ib_created_at));
  il_occurrences : r.(ib_occurrences) ≤ r'.(ib_occurrences);
  il_ended : is_open r = false →
    (r'.(ib_state), r'.(ib_resolved_at), r'.(ib_decision_json), r'.(ib_context_json)) =
    (r.(ib_state), r.(ib_resolved_at), r.(ib_decision_json), r.(ib_context_json));
  il_acked at_ : r.(ib_acked_at) = Some at_ → r'.(ib_acked_at) = Some at_ }.

#[export] Instance inbox_later_preorder : PreOrder inbox_later.
Proof.
  split.
  - intros r. split; [done|lia|done|done].
  - intros r1 r2 r3 [A1 B1 C1 D1] [A2 B2 C2 D2]. split; [congruence|lia| |eauto].
    intros H. specialize (C1 H). assert (is_open r2 = false) as H2 by (unfold is_open in *; injection C1 as -> _ _ _; done).
    specialize (C2 H2). congruence.
Qed.

Lemma later_id r r' : inbox_later r r' → r'.(ib_id) = r.(ib_id).
Proof. intros [H _ _ _]. by injection H. Qed.
Lemma later_open r r' : inbox_later r r' → is_open r' = true → is_open r = true.
Proof.
  intros [_ _ H _] Ho. destruct (is_open r) eqn:E; [done|]. specialize (H eq_refl). unfold is_open in *. injection H as H _ _ _. rewrite H in Ho. congruence.
Qed.

(** An update of one row that makes it a later one, without a decision or with a new one. *)
Lemma update_inbox_ok t p f :
  inbox_ok t → (∀ r r', p r = true → p r' = true → r.(ib_id) = r'.(ib_id)) →
  (∀ r, r ∈ t → p r = true → row_ok (f r) ∧ inbox_later r (f r) ∧
     ((f r).(ib_decision_json) = r.(ib_decision_json) ∨
      ∃ d, (f r).(ib_decision_json) = Some (decision_to_json d) ∧ fresh_decision t d.(de_id))) →
  inbox_ok (update p f t).
Proof using L.
  intros [Hi Hr Hk Hd] Hp Hf.
  assert (∀ x, x ∈ update p f t → ∃ r, r ∈ t ∧ (x = r ∨ p r = true ∧ x = f r)) as Hin.
  { intros x (r & Hin & ->)%update_elem. exists r. destruct (p r); auto. }
  assert (∀ x r, r ∈ t → x = r ∨ p r = true ∧ x = f r → inbox_later r x) as Hlater.
  { intros x r Hin0 [->|[Hpr ->]]; [done|]. by apply Hf. }
  split.
  - apply update_unique; [|done]. intros r Hin0 Hpr. by apply later_id, Hf.
  - intros x (r & Hin0 & [->|[Hpr ->]])%Hin; [by apply Hr|]. by apply Hf.
  - intros x x' (r & Hin0 & Hx)%Hin (r' & Hin1 & Hx')%Hin Ho Ho' Hkey.
    apply Hlater in Hx, Hx'; [|done..]. rewrite (later_id _ _ Hx), (later_id _ _ Hx').
    apply Hk; [done|done|by eapply later_open|by eapply later_open|]. destruct Hx as [Hs _ _ _], Hx' as [Hs' _ _ _]. congruence.
  - intros x x' d d' (r & Hin0 & Hx)%Hin (r' & Hin1 & Hx')%Hin Hj Hj' He.
    assert (∀ y d0 r0, r0 ∈ t → y = r0 ∨ p r0 = true ∧ y = f r0 → y.(ib_decision_json) = Some (decision_to_json d0) →
      r0.(ib_decision_json) = Some (decision_to_json d0) ∨ p r0 = true ∧ fresh_decision t d0.(de_id)) as Hnew.
    { intros y d0 r0 Hin2 [->|[Hpr ->]] Hy; [by left|]. destruct (Hf r0 Hin2 Hpr) as (_ & _ & [Hs|(d1 & Hs & Hfr)]); [left; congruence|].
      right. split; [done|]. rewrite Hs in Hy. injection Hy as Hy. apply (f_equal decision_from_json) in Hy.
      rewrite !decision_roundtrip in Hy. by injection Hy as <-. }
    rewrite (later_id _ _ (Hlater _ _ Hin0 Hx)), (later_id _ _ (Hlater _ _ Hin1 Hx')).
    destruct (Hnew x d r Hin0 Hx Hj) as [Ho|[Hp1 Hf1]], (Hnew x' d' r' Hin1 Hx' Hj') as [Ho'|[Hp2 Hf2]].
    + by apply (Hd r r' d d').
    + by destruct (Hf2 r d Hin0 Ho).
    + by destruct (Hf1 r' d' Hin1 Ho').
    + by apply Hp.
Qed.

Lemma has_id_one i r r' : has_id i r = true → has_id i r' = true → r.(ib_id) = r'.(ib_id).
Proof. unfold has_id. rewrite !bool_decide_eq_true. congruence. Qed.

Lemma row_of_id t y x : inbox_ok t → y ∈ t → x ∈ t → has_id x.(ib_id) y = true → y = x.
Proof. intros Hok Hy Hx Hi. apply (unique_eq ib_id t); [apply Hok|done..|]. unfold has_id in Hi. by apply bool_decide_eq_true in Hi. Qed.

(** ** Operations keep it *)

(** A change of a row that its state does not read. *)
Lemma row_ok_aside r r' :
  row_ok r → inbox_later r r' →
  (r'.(ib_state), r'.(ib_resolved_at), r'.(ib_decision_json), r'.(ib_acked_at)) = (r.(ib_state), r.(ib_resolved_at), r.(ib_decision_json), r.(ib_acked_at)) →
  (∃ l, attempts_from_json r'.(ib_notify_attempts_json) = Some l ∧ (length l ≤ MAX_NOTIFY_ATTEMPTS)%nat) → row_ok r'.
Proof.
  intros ((o & Ho & Hne & Hb & Hs) & Hocc & Hk & Hp & _) [Hsame Hle _ _] Hst Hl. injection Hsame as _ _ Hk' _ Ho' Hp' _.
  injection Hst as E1 E2 E3 E4. split; [|rewrite Hk', Hp'; split_and!; [lia|done..]]. exists o. rewrite Ho'. split_and!; [done..|].
  unfold state_ok in *. rewrite E1, E2, E3, E4. exact Hs.
Qed.

Lemma later_occurrences r n : r.(ib_occurrences) ≤ n → inbox_later r (with_occurrences n r).
Proof. intros H. by split. Qed.
Lemma later_notify r json : inbox_later r (with_notify json r).
Proof. by split. Qed.
Lemma later_reminded r now : inbox_later r (with_reminded now r).
Proof. by split. Qed.
Lemma later_acked r now : r.(ib_acked_at) = None → inbox_later r (with_acked now r).
Proof. intros H. split; try done; cbn; congruence. Qed.
Lemma later_decision r now json : is_open r = true → inbox_later r (with_decision now json r).
Proof. intros H. split; try done; cbn; congruence. Qed.
Lemma later_closed r now context : is_open r = true → inbox_later r (with_closed now context r).
Proof. intros H. split; try done; cbn; congruence. Qed.

Lemma state_from_open r : row_ok r → (row_to_frame r).(it_state) = StateOpen → is_open r = true.
Proof.
  intros ((o & _ & _ & _ & Hs) & _). unfold row_to_frame, is_open. cbn.
  destruct Hs as [(-> & _)|[(-> & _)|(-> & _)]]; [done| |]; by vm_compute.
Qed.
Lemma frame_options r options : r.(ib_options_json) = options_to_json options → (row_to_frame r).(it_options) = options.
Proof using L. intros H. cbn. by rewrite H, options_roundtrip. Qed.

Lemma new_row_ok id q : valid_deposit q = true → row_ok (new_row id q).
Proof using L.
  unfold valid_deposit. rewrite !andb_true_iff, !negb_true_iff, bool_decide_eq_false, forallb_elem. intros (((_ & _) & Hne) & Hb).
  split; [exists q.(dq_options); split_and!; [done..| |by left]; intros o Ho; by apply negb_true_iff, Hb|].
  split_and!; [done|cbn; destruct q.(dq_kind); by eexists|cbn; destruct q.(dq_producer); by eexists|].
  exists []. split; [apply attempts_default|cbn; lia].
Qed.

(** What a deposit does: nothing, or one more occurrence of the open item of its key, or a new item. *)
Lemma deposit_cases t q id :
  let '(t', r) := deposit t q id in
  (t' = t ∧ ∀ d, r ≠ Ok (Ok d)) ∨
  valid_deposit q = true ∧
  ((∃ x, x ∈ t ∧ is_open x = true ∧ x.(ib_dedup_key) = q.(dq_dedup_key) ∧
      t' = update (has_id x.(ib_id)) (λ r, with_occurrences (r.(ib_occurrences) + 1) r) t ∧
      r = Ok (Ok (mkDeposited x.(ib_id) false (u32_of (Z.max (x.(ib_occurrences) + 1) 1))))) ∨
   (∀ x, x ∈ t → x.(ib_id) ≠ id ∧ (is_open x = true → x.(ib_dedup_key) ≠ q.(dq_dedup_key))) ∧
     t' = t ++ [new_row id q] ∧ r = Ok (Ok (mkDeposited id true 1))).
Proof.
  unfold deposit. destruct (valid_deposit q) eqn:Hv; [|by left]. cbn [negb].
  destruct (select_one _ t) as [x|] eqn:Hx.
  - apply select_one_Some in Hx as [Hin [Hk Ho]%andb_true_iff]. right. split; [done|]. left. exists x. by apply bool_decide_eq_true in Hk.
  - destruct (exists_row (has_id id) t) eqn:He; [by left|]. right. split; [done|]. right. split; [|done].
    intros x Hin. rewrite exists_row_false in He. specialize (He x Hin). unfold has_id in He. apply bool_decide_eq_false in He.
    split; [done|]. intros Ho Hk. pose proof (select_one_None _ _ _ Hx Hin) as Hn. cbv beta in Hn.
    rewrite Ho, bool_decide_eq_true_2 in Hn by done. done.
Qed.

Lemma append_ok t x :
  inbox_ok t → row_ok x → x.(ib_decision_json) = None → (∀ r, r ∈ t → r.(ib_id) ≠ x.(ib_id) ∧ (is_open r = true → r.(ib_dedup_key) ≠ x.(ib_dedup_key))) →
  inbox_ok (t ++ [x]).
Proof.
  intros [H1 H2 H3 H4] Hx Hn Hnew. split.
  - apply unique_snoc; [done|]. intros r Hr. by apply Hnew.
  - intros r [Hr| ->%list_elem_of_singleton]%elem_of_app; [by apply H2|done].
  - intros r r' [Hr| ->%list_elem_of_singleton]%elem_of_app [Hr'| ->%list_elem_of_singleton]%elem_of_app Ho Ho' Hk; [by apply H3| | |done].
    + by destruct (proj2 (Hnew r Hr) Ho).
    + by destruct (proj2 (Hnew r' Hr') Ho').
  - intros r r' d d' [Hr| ->%list_elem_of_singleton]%elem_of_app [Hr'| ->%list_elem_of_singleton]%elem_of_app Hd Hd' He; try congruence.
    by apply (H4 r r' d d').
Qed.

Lemma deposit_ok t q id : inbox_ok t → inbox_ok (deposit t q id).1.
Proof using L.
  intros Hok. pose proof (deposit_cases t q id) as H. destruct (deposit t q id) as [t' r]. cbn.
  destruct H as [[-> _]|(Hv & [(x & Hin & Ho & Hk & -> & _)|(Hnew & -> & _)])]; [done| |].
  - apply update_inbox_ok; [done|apply has_id_one|]. intros y Hy _. pose proof (io_rows _ Hok y Hy) as Hy'.
    assert (inbox_later y (with_occurrences (y.(ib_occurrences) + 1) y)) as Hl by (apply later_occurrences; lia).
    split_and!; [|done|by left]. apply (row_ok_aside y); [done..|]. apply Hy'.
  - apply append_ok; [done|by apply new_row_ok|done|]. exact Hnew.
Qed.

(** A decision is taken on an open item among its options, once. *)
Lemma resolve_cases t item choice actor uuid now :
  inbox_ok t →
  let '(t', r) := resolve t item choice actor uuid now in
  (t' = t ∧ ∀ f, r ≠ Ok (Ok f)) ∨
  ∃ x options f, x ∈ t ∧ x.(ib_id) = item ∧ is_open x = true ∧ x.(ib_options_json) = options_to_json options ∧ choice ∈ options ∧
    t' = update (has_id item) (with_decision now (decision_to_json (mkDecision uuid choice actor now))) t ∧
    r = Ok (Ok f) ∧ f = row_to_frame (with_decision now (decision_to_json (mkDecision uuid choice actor now)) x).
Proof using L.
  intros Hok. unfold resolve, get. destruct (select_one (has_id item) t) as [x|] eqn:Hx; [|by left]. cbn [fmap option_fmap option_map].
  apply select_one_Some in Hx as [Hin Hid]. pose proof (io_rows _ Hok x Hin) as Hrow.
  destruct (negb (bool_decide _)) eqn:Hs; [by left|]. apply negb_false_iff, bool_decide_eq_true, (state_from_open x Hrow) in Hs.
  destruct Hrow as ((o & Ho & _ & _ & _) & _). rewrite (frame_options x o Ho).
  destruct (existsb _ o) eqn:Hc; [|by left]. apply existsb_elem in Hc as (c & Hc & ->%bool_decide_eq_true). cbn [negb].
  set (f := with_decision _ _). assert (select_one (has_id item) (update (has_id item) f t) = Some (f x)) as ->.
  { apply (unique_select_one ib_id).
    - apply update_unique; [by intros|apply Hok].
    - apply update_elem. exists x. by rewrite Hid.
    - exact Hid.
    - intros r' Hr'. by eapply has_id_one; [exact Hr'|]. }
  right. exists x, o, (row_to_frame (f x)). split_and!; try done. unfold has_id in Hid. by apply bool_decide_eq_true in Hid.
Qed.

Lemma resolve_ok t item choice actor uuid now :
  inbox_ok t → fresh_decision t uuid → inbox_ok (resolve t item choice actor uuid now).1.
Proof using L.
  intros Hok Hfr. pose proof (resolve_cases t item choice actor uuid now Hok) as H. destruct (resolve _ _ _ _ _ _) as [t' r]. cbn.
  destruct H as [[-> _]|(x & o & f & Hin & Hid & Ho & Hopt & Hc & -> & _)]; [done|].
  apply update_inbox_ok; [done|apply has_id_one|]. intros y Hy Hyi.
  subst item. rewrite (row_of_id t y x) in * by done.
  split_and!; [|by apply later_decision|right; by eexists].
  destruct (io_rows _ Hok x Hin) as ((o' & Ho' & Hne & Hb & _) & Hrest). rewrite Hopt in Ho'.
  apply (f_equal options_from_json) in Ho'. rewrite !options_roundtrip in Ho'. injection Ho' as <-.
  split; [|exact Hrest]. exists o. split_and!; [done..|]. right; left. split; [done|]. by eexists.
Qed.

(** The decision of a resolved item. *)
Lemma resolved_decision r : row_ok r → is_resolved r = true → ∃ d, r.(ib_decision_json) = Some (decision_to_json d) ∧ r.(ib_resolved_at) = Some d.(de_at).
Proof.
  intros ((o & _ & _ & _ & Hs) & _) Hr. unfold is_resolved in Hr. apply bool_decide_eq_true in Hr.
  destruct Hs as [(H & _)|[(_ & d & Hd & Ha & _)|(H & _)]]; [congruence|by exists d|congruence].
Qed.
Lemma decided_resolved r d : row_ok r → r.(ib_decision_json) = Some d → is_resolved r = true.
Proof.
  intros ((o & _ & _ & _ & Hs) & _) Hd. apply bool_decide_eq_true. destruct Hs as [(_ & _ & H & _)|[(H & _)|(_ & _ & H & _)]]; congruence.
Qed.

(** The search of a decision never fails on the tables of a run. *)
Lemma find_decision_spec id t :
  (∀ r, r ∈ t → row_ok r) →
  ∃ o, find_decision id t = Ok o ∧
    match o with
    | Some r => r ∈ t ∧ ∃ d, r.(ib_decision_json) = Some (decision_to_json d) ∧ d.(de_id) = id
    | None => ∀ r d, r ∈ t → r.(ib_decision_json) = Some (decision_to_json d) → d.(de_id) ≠ id
    end.
Proof using L.
  induction t as [|r t IH]; intros Hok; cbn; [exists None; split; [done|]; by intros r d ?%elem_of_nil|].
  destruct IH as (o & Ho & Hspec); [intros x Hx; apply Hok; set_solver|].
  assert (row_ok r) as Hr by (apply Hok; set_solver). destruct (is_resolved r) eqn:Hres; cbn [negb].
  - destruct (resolved_decision r Hr Hres) as (d & Hd & _). rewrite Hd, decision_id_extracted. cbn.
    case_bool_decide as He.
    + exists (Some r). split; [done|]. split; [set_solver|]. exists d. split; [done|congruence].
    + exists o. split; [done|]. destruct o as [r'|]; [destruct Hspec; split; [set_solver|done]|].
      intros r' d' [->|Hin]%elem_of_cons Hd'; [|by apply (Hspec r')]. rewrite Hd in Hd'. injection Hd' as Hj.
      apply (f_equal decision_from_json) in Hj. rewrite !decision_roundtrip in Hj. congruence.
  - exists o. split; [done|]. destruct o as [r'|]; [destruct Hspec; split; [set_solver|done]|].
    intros r' d' [->|Hin]%elem_of_cons Hd'; [|by apply (Hspec r')]. apply (decided_resolved _ _ Hr) in Hd'. congruence.
Qed.

(** An acknowledgement gives the date of the first one, or writes its own. *)
Lemma inbox_ack_cases t id now :
  inbox_ok t →
  (ack t id now = (t, Ok None) ∧ ∀ r d, r ∈ t → r.(ib_decision_json) = Some (decision_to_json d) → d.(de_id) ≠ id) ∨
  ∃ r d, r ∈ t ∧ r.(ib_decision_json) = Some (decision_to_json d) ∧ d.(de_id) = id ∧
    ack t id now = match r.(ib_acked_at) with
                   | Some at_ => (t, Ok (Some at_))
                   | None => (update (has_id r.(ib_id)) (with_acked now) t, Ok (Some now))
                   end.
Proof using L.
  intros Hok. unfold ack. destruct (find_decision_spec id t (io_rows _ Hok)) as (o & -> & Hspec).
  destruct o as [r|]; [|by left]. right. destruct Hspec as (Hin & d & Hd & He). by exists r, d.
Qed.

Lemma ack_ok t id now : inbox_ok t → inbox_ok (ack t id now).1.
Proof using L.
  intros Hok. destruct (inbox_ack_cases t id now Hok) as [[-> _]|(r & d & Hin & Hd & _ & ->)]; [done|].
  destruct r.(ib_acked_at) eqn:Ha; [done|]. apply update_inbox_ok; [done|apply has_id_one|]. intros y Hy Hyi.
  rewrite (row_of_id t y r) in * by done.
  split_and!; [|by apply later_acked|by left]. destruct (io_rows _ Hok r Hin) as ((o & Ho & Hne & Hb & Hs) & Hrest).
  split; [|exact Hrest]. exists o. split_and!; [done..|]. destruct Hs as [(_ & _ & H & _)|[H|(_ & _ & H & _)]]; [congruence| |congruence].
  by right; left.
Qed.

(** A closing ends an open item whose context is JSON. *)
Lemma close_cases t item reason now :
  ((close_self t item reason now).1 = t ∧ (close_self t item reason now).2 ≠ Ok true) ∨
  ∃ r context, r ∈ t ∧ r.(ib_id) = item ∧ is_open r = true ∧ set_closed_reason r.(ib_context_json) reason = Some context ∧
    close_self t item reason now = (update (λ r, has_id item r && is_open r) (with_closed now context) t, Ok true).
Proof.
  unfold close_self. destruct (select_one _ t) as [r|] eqn:Hr; [|by left].
  destruct (set_closed_reason _ _) as [context|] eqn:Hc; [|by left]. right. exists r, context.
  apply select_one_Some in Hr as [Hin [Hi Ho]%andb_true_iff]. unfold has_id in Hi. by apply bool_decide_eq_true in Hi.
Qed.

Lemma close_ok t item reason now : inbox_ok t → inbox_ok (close_self t item reason now).1.
Proof using L.
  intros Hok. destruct (close_cases t item reason now) as [[-> _]|(r & context & Hin & Hid & Ho & _ & ->)]; [done|].
  apply update_inbox_ok; [done| |].
  { intros x x' [Hx _]%andb_true_iff [Hx' _]%andb_true_iff. by eapply has_id_one. }
  intros y Hy [_ Hyo]%andb_true_iff. split_and!; [|by apply later_closed|by left].
  destruct (io_rows _ Hok y Hy) as ((o & Hopt & Hne & Hb & Hs) & Hrest). split; [|exact Hrest]. exists o. split_and!; [done..|].
  right; right. unfold is_open in Hyo. apply bool_decide_eq_true in Hyo.
  destruct Hs as [(_ & _ & Hd & Ha)|[(H & _)|(H & _)]]; [|congruence..]. split_and!; [done|by eexists|done..].
Qed.

Lemma notify_ok t item a : inbox_ok t → inbox_ok (record_notify_attempt t item a).
Proof using L.
  intros Hok. apply update_inbox_ok; [done|apply has_id_one|]. intros r Hr _.
  split_and!; [|apply later_notify|by left]. apply (row_ok_aside r); [by apply Hok|apply later_notify|done|].
  eexists. split; [apply attempts_roundtrip|apply kept_attempts_length].
Qed.
Lemma reminded_ok t item now : inbox_ok t → inbox_ok (mark_reminded t item now).
Proof using L.
  intros Hok. apply update_inbox_ok; [done|apply has_id_one|]. intros r Hr _.
  split_and!; [|apply later_reminded|by left]. apply (row_ok_aside r); [by apply Hok|apply later_reminded|done|].
  apply (io_rows _ Hok r Hr).
Qed.

(** *** Later tables *)

Definition table_later (t t' : list InboxRow) : Prop := ∀ r, r ∈ t → ∃ r', r' ∈ t' ∧ inbox_later r r'.
#[export] Instance table_later_preorder : PreOrder table_later.
Proof.
  split; [intros t r Hr; by exists r|]. intros t1 t2 t3 H12 H23 r Hr. destruct (H12 r Hr) as (r2 & Hr2 & Hl2).
  destruct (H23 r2 Hr2) as (r3 & Hr3 & Hl3). exists r3. split; [done|by etrans].
Qed.

Lemma update_later t p f : (∀ r, r ∈ t → p r = true → inbox_later r (f r)) → table_later t (update p f t).
Proof.
  intros Hf r Hr. exists (if p r then f r else r). split; [apply update_elem; eauto|]. destruct (p r) eqn:Hp; [by apply Hf|done].
Qed.
Lemma append_later t x : table_later t (t ++ [x]).
Proof. intros r Hr. exists r. split; [apply elem_of_app; by left|done]. Qed.

Lemma deposit_later t q id : table_later t (deposit t q id).1.
Proof.
  pose proof (deposit_cases t q id) as H. destruct (deposit t q id) as [t' r]. cbn.
  destruct H as [[-> _]|(_ & [(x & _ & _ & _ & -> & _)|(_ & -> & _)])]; [done| |apply append_later].
  apply update_later. intros y _ _. apply later_occurrences. lia.
Qed.
Lemma resolve_later t item choice actor uuid now : inbox_ok t → table_later t (resolve t item choice actor uuid now).1.
Proof using L.
  intros Hok. pose proof (resolve_cases t item choice actor uuid now Hok) as H. destruct (resolve _ _ _ _ _ _) as [t' r]. cbn.
  destruct H as [[-> _]|(x & o & f & Hin & Hid & Ho & _ & _ & -> & _)]; [done|]. apply update_later. intros y Hy Hyi.
  subst item. rewrite (row_of_id t y x) in * by done.
  by apply later_decision.
Qed.
Lemma ack_later t id now : inbox_ok t → table_later t (ack t id now).1.
Proof using L.
  intros Hok. destruct (inbox_ack_cases t id now Hok) as [[-> _]|(r & d & Hin & Hd & _ & ->)]; [done|].
  destruct r.(ib_acked_at) eqn:Ha; [done|]. apply update_later. intros y Hy Hyi.
  rewrite (row_of_id t y r) in * by done.
  by apply later_acked.
Qed.
Lemma close_later t item reason now : table_later t (close_self t item reason now).1.
Proof.
  destruct (close_cases t item reason now) as [[-> _]|(r & context & _ & _ & _ & _ & ->)]; [done|]. apply update_later.
  intros y _ [_ Ho]%andb_true_iff. by apply later_closed.
Qed.
End InboxInvariant.
