(* ===== verification/InboxRuns.v ===== *)
(** * InboxRuns: the inbox of the human along the life of the daemon

    Any sequence of deposits, decisions, acknowledgements, closings, reminders
    and attempts on an empty table: the invariant of the table, what becomes of
    a decision, the count of the occurrences, the pages of the open items and
    the pace of the reminders. *)

From S2P Require Import Prelude Text Sql HumanInbox.
Local Open Scope Z_scope.

Section InboxRuns.
Context `{C : InboxCodec} {L : InboxLaws C} (push : HumanChannelConfig → ChannelSummary → result string ()).

Inductive InboxOp :=
  | ODeposit (q : DepositRequest) (id : string) (channel : option HumanChannelConfig)
  | OResolve (item choice actor uuid : string) (now : Z)
  | OAck (decision : string) (now : Z)
  | OClose (item reason : string) (now : Z)
  | ORemind (channel : option HumanChannelConfig) (now : Z)
  | OAttempt (item : string) (a : NotifyAttempt).

Definition inbox_step (t : list InboxRow) (op : InboxOp) : list InboxRow :=
  match op with
  | ODeposit q id channel => (deposit_and_notify push t q id channel).1
  | OResolve item choice actor uuid now => (resolve t item choice actor uuid now).1
  | OAck d now => (ack t d now).1
  | OClose item reason now => (close_self t item reason now).1
  | ORemind channel now => (remind_overdue push t channel now).1
  | OAttempt item a => record_notify_attempt t item a
  end.
Definition inbox_run (t : list InboxRow) (ops : list InboxOp) : list InboxRow := foldl inbox_step t ops.

(** The identifier of a decision is new when it is taken. *)
Definition op_fresh (t : list InboxRow) (op : InboxOp) : Prop :=
  match op with OResolve _ _ _ uuid _ => fresh_decision t uuid | _ => True end.
Fixpoint run_fresh (t : list InboxRow) (ops : list InboxOp) : Prop :=
  match ops with [] => True | op :: ops => op_fresh t op ∧ run_fresh (inbox_step t op) ops end.

(** ** Steps *)

Lemma notify_cases t q id channel :
  let t1 := (deposit t q id).1 in
  (deposit_and_notify push t q id channel).2 = (deposit t q id).2 ∧
  ((deposit_and_notify push t q id channel).1 = t1 ∨
   ∃ item a, (deposit_and_notify push t q id channel).1 = record_notify_attempt t1 item a).
Proof.
  unfold deposit_and_notify. destruct (deposit t q id) as [t1 r]. destruct r as [[d|]|], channel as [config|]; cbn; auto.
  destruct d.(dp_created); cbn; auto. destruct (get t1 _); cbn; eauto.
Qed.

(** A property of tables that attempts and reminders keep. *)
Lemma remind_each_keeps (P : list InboxRow → Prop) config count now items :
  (∀ t item a, P t → P (record_notify_attempt t item a)) → (∀ t item, P t → P (mark_reminded t item now)) →
  ∀ t, P t → P (remind_each push config count now items t).1.
Proof.
  intros H1 H2. induction items as [|item items IH]; intros t Ht; [done|]. cbn.
  set (t1 := mark_reminded _ _ _). specialize (IH t1 (H2 _ _ (H1 _ _ _ Ht))).
  by destruct (remind_each push config count now items t1) as [t2 l].
Qed.
Lemma remind_keeps (P : list InboxRow → Prop) channel now t :
  (∀ t item a, P t → P (record_notify_attempt t item a)) → (∀ t item, P t → P (mark_reminded t item now)) →
  P t → P (remind_overdue push t channel now).1.
Proof. intros H1 H2 Ht. unfold remind_overdue. destruct channel; [by apply remind_each_keeps|done]. Qed.

Lemma attempt_later t item a : table_later t (record_notify_attempt t item a).
Proof. apply update_later. intros r _ _. apply later_notify. Qed.
Lemma reminded_later t item now : table_later t (mark_reminded t item now).
Proof. apply update_later. intros r _ _. apply later_reminded. Qed.

Lemma inbox_step_ok t op : inbox_ok t → op_fresh t op → inbox_ok (inbox_step t op).
Proof using L.
  intros Hok Hf. destruct op as [q id channel|item choice actor uuid now|d now|item reason now|channel now|item a]; cbn.
  - destruct (notify_cases t q id channel) as [_ [->|(item & a & ->)]]; [by apply deposit_ok|]. by apply notify_ok, deposit_ok.
  - by apply resolve_ok.
  - by apply ack_ok.
  - by apply close_ok.
  - apply remind_keeps; [intros; by apply notify_ok|intros; by apply reminded_ok|done].
  - by apply notify_ok.
Qed.
Lemma inbox_step_later t op : inbox_ok t → table_later t (inbox_step t op).
Proof using L.
  intros Hok. destruct op as [q id channel|item choice actor uuid now|d now|item reason now|channel now|item a]; cbn.
  - destruct (notify_cases t q id channel) as [_ [->|(item & a & ->)]]; [apply deposit_later|].
    etrans; [apply deposit_later|apply attempt_later].
  - by apply resolve_later.
  - by apply ack_later.
  - apply close_later.
  - apply (remind_keeps (table_later t)); [intros t' item a H|intros t' item H|done]; etrans; [exact H|apply attempt_later|exact H|apply reminded_later].
  - apply attempt_later.
Qed.

Lemma empty_inbox_ok : inbox_ok [].
Proof. split; [by apply NoDup_nil_2|..]; intros ? ?%elem_of_nil || intros ? ? ?%elem_of_nil || intros ? ? ? ? ?%elem_of_nil; done. Qed.
Lemma inbox_run_ok ops : ∀ t, inbox_ok t → run_fresh t ops → inbox_ok (inbox_run t ops) ∧ table_later t (inbox_run t ops).
Proof using L.
  induction ops as [|op ops IH]; intros t Hok Hf; [done|]. destruct Hf as [Hf Hfs].
  destruct (IH _ (inbox_step_ok _ _ Hok Hf) Hfs) as [H1 H2]. split; [done|]. etrans; [by apply inbox_step_later|exact H2].
Qed.

(** ** Decisions *)

(** The item that holds a decision. *)
Definition decided (t : list InboxRow) (item : string) (d : HumanInboxDecision) (x : InboxRow) : Prop :=
  x ∈ t ∧ x.(ib_id) = item ∧ x.(ib_decision_json) = Some (decision_to_json d).

Lemma decided_ended t item d x : inbox_ok t → decided t item d x → is_open x = false.
Proof.
  intros Hok (Hin & _ & Hd). apply (decided_resolved _ _ (io_rows _ Hok x Hin)), bool_decide_eq_true in Hd.
  unfold is_open. by rewrite Hd.
Qed.
Lemma decided_later t t' item d x : inbox_ok t → table_later t t' → decided t item d x → ∃ x', decided t' item d x' ∧ inbox_later x x'.
Proof using L.
  intros Hok Hl (Hin & Hid & Hd). destruct (Hl x Hin) as (x' & Hin' & Hx). exists x'. split; [|done].
  split_and!; [done|by rewrite (later_id _ _ Hx)|]. assert (is_open x = false) as Ho by (by apply (decided_ended t item d)).
  apply (il_ended _ _ Hx) in Ho. by injection Ho as _ _ -> _.
Qed.
Lemma decided_one t item d x : inbox_ok t → decided t item d x → select_one (has_id item) t = Some x.
Proof.
  intros Hok (Hin & <- & _). apply (unique_select_one ib_id); [apply Hok|done|by apply bool_decide_eq_true|].
  intros r Hr. by apply bool_decide_eq_true in Hr.
Qed.
Lemma decided_frame t item d x :
  inbox_ok t → decided t item d x → (row_to_frame x).(it_state) = StateResolved ∧ (row_to_frame x).(it_decision) = Some d.
Proof using L.
  intros Hok (Hin & _ & Hd). pose proof (decided_resolved _ _ (io_rows _ Hok x Hin) Hd) as Hr. apply bool_decide_eq_true in Hr.
  cbn. rewrite Hr, Hd. split; [done|]. cbn. apply decision_roundtrip.
Qed.

Lemma decided_resolve t item d x choice actor uuid now :
  inbox_ok t → decided t item d x → resolve t item choice actor uuid now = (t, Ok (Err AlreadyResolved)).
Proof using L.
  intros Hok Hx. unfold resolve, get. rewrite (decided_one _ _ _ _ Hok Hx). cbn [fmap option_fmap option_map].
  destruct (decided_frame _ _ _ _ Hok Hx) as [-> _]. done.
Qed.
Lemma decided_close t item d x reason now : inbox_ok t → decided t item d x → close_self t item reason now = (t, Ok false).
Proof.
  intros Hok Hx. pose proof (decided_ended _ _ _ _ Hok Hx) as Ho. unfold close_self.
  destruct (select_one _ t) as [r|] eqn:Hr; [|done]. apply select_one_Some in Hr as [Hin [Hi Hr]%andb_true_iff].
  destruct Hx as (Hin' & <- & _). rewrite (row_of_id t r x) in Hr by done. congruence.
Qed.

(** The acknowledgement of a decision answers the date that its item then has. *)
Lemma decided_ack t item d x now :
  inbox_ok t → decided t item d x →
  ∃ x', (ack t d.(de_id) now).2 = Ok (Some (default now x.(ib_acked_at))) ∧ decided (ack t d.(de_id) now).1 item d x' ∧
    x'.(ib_acked_at) = Some (default now x.(ib_acked_at)).
Proof using L.
  intros Hok Hx. pose proof Hx as (Hin & Hid & Hd).
  destruct (inbox_ack_cases t d.(de_id) now Hok) as [[_ H]|(r & d' & Hin' & Hd' & He & ->)]; [by destruct (H x d Hin Hd)|].
  assert (r = x) as ->. { apply (unique_eq ib_id t); [apply Hok|done..|]. by apply (io_decisions _ Hok r x d' d). }
  destruct x.(ib_acked_at) as [at_|] eqn:Ha; cbn.
  - by exists x.
  - exists (with_acked now x). split_and!; [done| |done]. split_and!; [|done..]. apply update_elem. exists x.
    unfold has_id. by rewrite bool_decide_eq_true_2.
Qed.

(** As long as it is not acknowledged, its producer reads it. *)
Lemma decided_pending t item d x producer limit :
  inbox_ok t → decided t item d x → x.(ib_acked_at) = None → producer_from x.(ib_producer) = Some producer →
  Z.of_nat (length (select (is_pending producer) t)) ≤ limit ≤ 200 →
  ∃ p, p ∈ pending_decisions t producer limit ∧ p.(pd_decision_id) = d.(de_id) ∧ p.(pd_item_id) = item ∧ p.(pd_choice) = d.(de_choice).
Proof using L.
  intros Hok Hx Ha Hp Hlim. pose proof Hx as (Hin & <- & Hd). destruct (decided_frame _ _ _ _ Hok Hx) as [_ Hf].
  assert (x.(ib_producer) = producer_literal producer) as Hp'.
  { apply find_first_Some in Hp as [_ ?%bool_decide_eq_true]. done. }
  exists (mkPending d.(de_id) x.(ib_id) x.(ib_dedup_key) (row_to_frame x).(it_kind) (row_to_frame x).(it_subject) d.(de_choice) d.(de_at)).
  split; [|done]. apply list_elem_of_omap. exists x. split; [|unfold pending_of; by rewrite Hf].
  assert (x ∈ select (is_pending producer) t) as Hs.
  { apply select_elem. split; [done|]. unfold is_pending. rewrite (decided_resolved _ _ (io_rows _ Hok x Hin) Hd), Ha, Hp'.
    by rewrite bool_decide_eq_true_2. }
  rewrite take_ge; [by rewrite sort_by_perm|]. rewrite (Permutation_length (sort_by_perm _ _)). unfold clamp. lia.
Qed.

Lemma resolve_decided t item choice actor uuid now f :
  inbox_ok t → (resolve t item choice actor uuid now).2 = Ok (Ok f) →
  ∃ x, decided (resolve t item choice actor uuid now).1 item (mkDecision uuid choice actor now) x.
Proof using L.
  intros Hok Hr. pose proof (resolve_cases t item choice actor uuid now Hok) as H. destruct (resolve _ _ _ _ _ _) as [t' r]. cbn in *.
  destruct H as [[_ H]|(x & o & f' & Hin & Hid & _ & _ & _ & -> & _)]; [by destruct (H f)|].
  eexists. split_and!; [apply update_elem; exists x; split; [done|]|..]; [unfold has_id; by rewrite bool_decide_eq_true_2|done..].
Qed.

(** ** Occurrences *)

(** The deposits of a run that were accepted, in their order. *)
Definition op_deposited (t : list InboxRow) (op : InboxOp) : list Deposited :=
  match op with
  | ODeposit q id channel => match (deposit_and_notify push t q id channel).2 with Ok (Ok d) => [d] | _ => [] end
  | _ => []
  end.
Fixpoint run_deposited (t : list InboxRow) (ops : list InboxOp) : list Deposited :=
  match ops with [] => [] | op :: ops => op_deposited t op ++ run_deposited (inbox_step t op) ops end.

Definition on_item (i : string) (d : Deposited) : bool := bool_decide (d.(dp_item_id) = i).
Definition creates (i : string) (d : Deposited) : bool := on_item i d && d.(dp_created).
Definition id_and_count (r : InboxRow) : string * Z := (r.(ib_id), r.(ib_occurrences)).
Record tallied (log : list Deposited) (l : list (string * Z)) : Prop := mkCounted {
  ct_count i n : (i, n) ∈ l → n = Z.of_nat (count_if (on_item i) log) ∧ count_if (creates i) log = 1%nat;
  ct_known d : d ∈ log → d.(dp_item_id) ∈ l.*1 }.

Lemma attempt_counts t item a : id_and_count <$> record_notify_attempt t item a = id_and_count <$> t.
Proof. by apply update_key. Qed.
(** The other operations update rows, and no column that the counts and the
    pace read; only a decision writes a decision. *)
Definition id_and_decision (r : InboxRow) : string * option string := (r.(ib_id), r.(ib_decision_json)).
Definition pace_key (r : InboxRow) : string * Z * option Z := (r.(ib_id), r.(ib_created_at), r.(ib_last_reminded_at)).
Lemma step_shape t op :
  inbox_ok t → match op with ODeposit _ _ _ | ORemind _ _ => False | _ => True end →
  inbox_step t op = t ∨
  ∃ p f, inbox_step t op = update p f t ∧ ∀ r, id_and_count (f r) = id_and_count r ∧ pace_key (f r) = pace_key r ∧
    match op with OResolve _ _ _ _ _ => True | _ => id_and_decision (f r) = id_and_decision r end.
Proof using L.
  intros Hok Hop. destruct op as [q id channel|item choice actor uuid now|d now|item reason now|channel now|item a]; cbn; [done|..|done|].
  - pose proof (resolve_cases t item choice actor uuid now Hok) as H. destruct (resolve _ _ _ _ _ _) as [t' r]. cbn.
    destruct H as [[-> _]|(x & o & f' & _ & _ & _ & _ & _ & -> & _)]; [by left|right; by do 2 eexists].
  - destruct (inbox_ack_cases t d now Hok) as [[-> _]|(r & d' & _ & _ & _ & ->)]; [by left|].
    destruct r.(ib_acked_at); [by left|right; by do 2 eexists].
  - destruct (close_cases t item reason now) as [[-> _]|(r & c & _ & _ & _ & _ & ->)]; [by left|right; by do 2 eexists].
  - right. by do 2 eexists.
Qed.

Lemma other_counts t op : inbox_ok t → (∀ q id channel, op ≠ ODeposit q id channel) → id_and_count <$> inbox_step t op = id_and_count <$> t.
Proof using L.
  intros Hok Hop. destruct op as [q id channel| | | |channel now|]; [by destruct (Hop q id channel)|..|].
  4: { apply (remind_keeps (λ t', id_and_count <$> t' = id_and_count <$> t)); [intros t' i a <-; apply attempt_counts| |done].
       intros t' i <-. by apply update_key. }
  all: edestruct step_shape as [->|(p & f & -> & Hf)]; [done..|]; apply update_key; intros r _ _; apply Hf.
Qed.

Lemma count_snoc i log d :
  count_if (on_item i) (log ++ [d]) = (count_if (on_item i) log + if decide (d.(dp_item_id) = i) then 1 else 0)%nat ∧
  count_if (creates i) (log ++ [d]) =
    (count_if (creates i) log + if decide (d.(dp_item_id) = i) then if d.(dp_created) then 1 else 0 else 0)%nat.
Proof.
  rewrite !count_if_app. cbn. unfold creates at 2, on_item at 2 4.
  destruct (decide (d.(dp_item_id) = i)); [rewrite bool_decide_eq_true_2 by done|rewrite bool_decide_eq_false_2 by done]; by destruct d.(dp_created).
Qed.
Lemma deposit_counted t q id log :
  inbox_ok t → tallied log (id_and_count <$> t) →
  tallied (log ++ match (deposit t q id).2 with Ok (Ok d) => [d] | _ => [] end) (id_and_count <$> (deposit t q id).1).
Proof using L.
  intros Hok [H1 H2]. pose proof (deposit_cases t q id) as H. destruct (deposit t q id) as [t' r]. cbn.
  destruct H as [[-> Hn]|(_ & [(x & Hin & _ & _ & -> & ->)|(Hnew & -> & ->)])].
  - destruct r as [[d|]|]; [by destruct (Hn d)|by rewrite app_nil_r..].
  - split.
    + intros i n (y & Hy & (z & Hz & ->)%update_elem)%list_elem_of_fmap. destruct (H1 z.(ib_id) z.(ib_occurrences)) as [E1 E2].
      { apply list_elem_of_fmap. by exists z. }
      destruct (count_snoc i log (mkDeposited x.(ib_id) false (u32_of (Z.max (x.(ib_occurrences) + 1) 1)))) as [-> ->].
      revert Hy. unfold has_id. case_bool_decide as Hi; intros [= -> ->]; cbn; case_decide; try congruence; lia.
    + assert ((id_and_count <$> update (has_id x.(ib_id)) (λ r, with_occurrences (r.(ib_occurrences) + 1) r) t).*1 = (id_and_count <$> t).*1) as ->.
      { rewrite <-!list_fmap_compose. by apply update_key. }
      intros d [Hd| ->%list_elem_of_singleton]%elem_of_app; [by apply H2|]. cbn. rewrite <-list_fmap_compose. apply list_elem_of_fmap. by exists x.
  - rewrite fmap_app. assert (id ∉ (id_and_count <$> t).*1) as Hn.
    { rewrite <-list_fmap_compose. intros (y & -> & Hy)%list_elem_of_fmap. by destruct (Hnew y Hy). }
    split.
    + intros i n Hi. destruct (count_snoc i log (mkDeposited id true 1)) as [-> ->]. cbn.
      apply elem_of_app in Hi as [Hi|[= -> ->]%list_elem_of_singleton].
      * destruct (H1 i n Hi) as [E1 E2]. apply (list_elem_of_fmap_2 fst) in Hi. case_decide; [by subst|lia].
      * rewrite decide_True by done. rewrite !count_if_0; [done|..]; intros d Hd; unfold creates, on_item.
        all: rewrite bool_decide_eq_false_2; [done|]; intros E; apply H2 in Hd; rewrite E in Hd; done.
    + intros d [Hd| ->%list_elem_of_singleton]%elem_of_app; rewrite fmap_app; apply elem_of_app; [left; by apply H2|right; by left].
Qed.

Lemma step_counted t op log :
  inbox_ok t → tallied log (id_and_count <$> t) → tallied (log ++ op_deposited t op) (id_and_count <$> inbox_step t op).
Proof using L.
  intros Hok Hc. destruct op as [q id channel| | | | |]; [|cbn [op_deposited]; rewrite app_nil_r, other_counts by done; exact Hc..].
  cbn. destruct (notify_cases t q id channel) as [-> [->|(item & a & ->)]]; [by apply deposit_counted|].
  rewrite attempt_counts. by apply deposit_counted.
Qed.
Lemma run_counted ops : ∀ t log,
  inbox_ok t → run_fresh t ops → tallied log (id_and_count <$> t) → tallied (log ++ run_deposited t ops) (id_and_count <$> inbox_run t ops).
Proof using L.
  induction ops as [|op ops IH]; intros t log Hok Hf Hc; cbn; [by rewrite app_nil_r|]. destruct Hf as [Hf Hfs].
  rewrite app_assoc. apply IH; [by apply inbox_step_ok|done|by apply step_counted].
Qed.

(** A decision comes from the table, or it is the one that the step takes. *)
Lemma decisions_step t op y j :
  inbox_ok t → y ∈ inbox_step t op → y.(ib_decision_json) = Some j →
  (∃ x, x ∈ t ∧ x.(ib_id) = y.(ib_id) ∧ x.(ib_decision_json) = Some j) ∨
  ∃ item choice actor uuid now, op = OResolve item choice actor uuid now ∧ j = decision_to_json (mkDecision uuid choice actor now).
Proof using L.
  intros Hok Hy Hj. assert (∀ t', id_and_decision <$> t' = id_and_decision <$> t → y ∈ t' → ∃ x, x ∈ t ∧ x.(ib_id) = y.(ib_id) ∧ x.(ib_decision_json) = Some j) as Hsame.
  { intros t' E Hy'. apply (list_elem_of_fmap_2 id_and_decision) in Hy'. rewrite E in Hy'. apply list_elem_of_fmap in Hy' as (x & [= E1 E2] & Hx).
    exists x. by rewrite <-E1, <-E2. }
  destruct op as [q id channel|item choice actor uuid now|d now|item reason now|channel now|item a]; cbn in Hy.
  - left. assert (y ∈ (deposit t q id).1 ∨ ∃ z, z ∈ (deposit t q id).1 ∧ id_and_decision z = id_and_decision y) as Hz.
    { destruct (notify_cases t q id channel) as [_ [E|(item & a & E)]]; rewrite E in Hy; [by left|right].
      apply update_elem in Hy as (z & Hz & ->). exists z. by destruct (has_id item z). }
    assert (∃ z, z ∈ (deposit t q id).1 ∧ id_and_decision z = id_and_decision y) as (z & Hz' & [= E1 E2]) by (destruct Hz; eauto).
    rewrite <-E1. rewrite Hj in E2. clear Hz Hy Hsame Hj. pose proof (deposit_cases t q id) as H. destruct (deposit t q id) as [t' r]. cbn in Hz'.
    destruct H as [[-> _]|(_ & [(x & _ & _ & _ & -> & _)|(_ & -> & _)])]; [by exists z| |].
    + apply update_elem in Hz' as (x' & Hx' & ->). exists x'. by destruct (has_id x.(ib_id) x').
    + apply elem_of_app in Hz' as [Hz'|Hz']; [by exists z|]. apply list_elem_of_singleton in Hz' as ->. done.
  - pose proof (resolve_cases t item choice actor uuid now Hok) as H. destruct (resolve _ _ _ _ _ _) as [t' r]. cbn in Hy.
    destruct H as [[-> _]|(x & o & f' & _ & _ & _ & _ & _ & -> & _)]; [left; by exists y|].
    apply update_elem in Hy as (x' & Hx' & ->). destruct (has_id item x'); [|left; by exists x']. right. injection Hj as <-.
    by exists item, choice, actor, uuid, now.
  - left. apply (Hsame (inbox_step t (OAck d now))); [|exact Hy]. edestruct step_shape as [->|(p & f & -> & Hf)]; [done..|].
    apply update_key. intros r _ _. apply Hf.
  - left. apply (Hsame (inbox_step t (OClose item reason now))); [|exact Hy]. edestruct step_shape as [->|(p & f & -> & Hf)]; [done..|].
    apply update_key. intros r _ _. apply Hf.
  - left. refine (Hsame _ _ Hy). apply (remind_keeps (λ t', id_and_decision <$> t' = id_and_decision <$> t)); [..|done].
    all: intros t' *; intros <-; by apply update_key.
  - left. refine (Hsame _ _ Hy). by apply update_key.
Qed.

(** ** Reminders *)

Record Reminded := mkReminded { rm_item : string; rm_at : Z; rm_after : Z }.
Definition op_reminded (t : list InboxRow) (op : InboxOp) : list Reminded :=
  match op with
  | ORemind (Some config) now => (λ i, mkReminded i now config.(ch_reminder_after_secs)) <$> (remind_overdue push t (Some config) now).2
  | _ => []
  end.
Fixpoint run_reminded (t : list InboxRow) (ops : list InboxOp) : list Reminded :=
  match ops with [] => [] | op :: ops => op_reminded t op ++ run_reminded (inbox_step t op) ops end.
(** The clock and the delay of the configuration are not negative. *)
Definition op_timed (op : InboxOp) : Prop :=
  match op with ORemind (Some config) now => 0 ≤ now ≤ i64_max ∧ 0 ≤ config.(ch_reminder_after_secs) ≤ i64_max | _ => True end.

Definition spaced_out (x y : Reminded) : Prop := x.(rm_item) = y.(rm_item) → x.(rm_at) + y.(rm_after) ≤ y.(rm_at).
(** The table knows the last reminder of each item. *)
Record paced (log : list Reminded) (t : list InboxRow) : Prop := mkPaced {
  pc_known x : x ∈ log → ∃ r last, r ∈ t ∧ r.(ib_id) = x.(rm_item) ∧ r.(ib_created_at) + x.(rm_after) ≤ x.(rm_at) ∧
    r.(ib_last_reminded_at) = Some last ∧ x.(rm_at) ≤ last;
  pc_spaced : StronglySorted spaced_out log }.
Definition keeps_pace (t t' : list InboxRow) : Prop := ∀ r, r ∈ t → ∃ r', r' ∈ t' ∧ pace_key r' = pace_key r.

Lemma paced_keeps log t t' : keeps_pace t t' → paced log t → paced log t'.
Proof.
  intros Hk [H1 H2]. split; [|done]. intros x Hx. destruct (H1 x Hx) as (r & last & Hr & Hid & Hc & Hl & Hle).
  destruct (Hk r Hr) as (r' & Hr' & [= E1 E2 E3]). exists r', last. rewrite E1, E2, E3. done.
Qed.
Lemma update_keeps p f t : (∀ r, r ∈ t → p r = true → pace_key (f r) = pace_key r) → keeps_pace t (update p f t).
Proof.
  intros Hf r Hr. exists (if p r then f r else r). split; [apply update_elem; eauto|]. destruct (p r) eqn:Hp; [by apply Hf|done].
Qed.
#[export] Instance keeps_pace_preorder : PreOrder keeps_pace.
Proof.
  split; [intros t r Hr; by exists r|]. intros t1 t2 t3 H12 H23 r Hr. destruct (H12 r Hr) as (r2 & Hr2 & E2).
  destruct (H23 r2 Hr2) as (r3 & Hr3 & E3). exists r3. split; [done|congruence].
Qed.
Lemma attempt_pace t item a : keeps_pace t (record_notify_attempt t item a).
Proof. by apply update_keeps. Qed.
Lemma deposit_pace t q id : keeps_pace t (deposit t q id).1.
Proof.
  pose proof (deposit_cases t q id) as H. destruct (deposit t q id) as [t' r]. cbn.
  destruct H as [[-> _]|(_ & [(x & _ & _ & _ & -> & _)|(_ & -> & _)])]; [done|by apply update_keeps|].
  intros y Hy. exists y. split; [apply elem_of_app; by left|done].
Qed.
Lemma other_pace t op : inbox_ok t → (∀ channel now, op ≠ ORemind channel now) → keeps_pace t (inbox_step t op).
Proof using L.
  intros Hok Hop. destruct op as [q id channel| | | |channel now|]; [|..|by destruct (Hop channel now)|].
  1: { cbn. destruct (notify_cases t q id channel) as [_ [->|(item & a & ->)]]; [|etrans; [|apply attempt_pace]]; apply deposit_pace. }
  all: edestruct step_shape as [->|(p & f & -> & Hf)]; [done..|]; apply update_keeps; intros r _ _; apply Hf.
Qed.

(** One reminder of an item that is due. *)
Definition due_at (now after : Z) (r : InboxRow) : Prop :=
  r.(ib_created_at) + after ≤ now ∧ ∀ last, r.(ib_last_reminded_at) = Some last → last + after ≤ now.
Lemma mark_paced log t r now after :
  unique ib_id t → paced log t → r ∈ t → due_at now after r → 0 ≤ after →
  paced (log ++ [mkReminded r.(ib_id) now after]) (mark_reminded t r.(ib_id) now).
Proof.
  intros Hu [H1 H2] Hr [Hc Hl] Ha. assert (with_reminded now r ∈ mark_reminded t r.(ib_id) now) as Hin.
  { apply update_elem. exists r. unfold has_id. by rewrite bool_decide_eq_true_2. }
  split.
  - intros x [Hx| ->%list_elem_of_singleton]%elem_of_app; [|exists (with_reminded now r), now; cbn; split_and!; done || lia].
    destruct (H1 x Hx) as (r' & last & Hr' & Hid & Hc' & Hl' & Hle). destruct (decide (r'.(ib_id) = r.(ib_id))) as [E|E].
    + apply (unique_eq ib_id t) in E as ->; [|done..]. exists (with_reminded now r), now. cbn. specialize (Hl last Hl'). split_and!; done || lia.
    + exists r', last. split_and!; try done. apply update_elem. exists r'. unfold has_id. by rewrite bool_decide_eq_false_2.
  - apply StronglySorted_app_2; [|done|repeat constructor]. intros x y Hx ->%list_elem_of_singleton E.
    destruct (H1 x Hx) as (r' & last & Hr' & Hid & _ & Hl' & Hle). cbn in *.
    rewrite (unique_eq ib_id t r' r) in Hl' by (done || congruence). specialize (Hl last Hl'). lia.
Qed.

Lemma mark_other t r r' now : r ∈ t → r.(ib_id) ≠ r'.(ib_id) → r ∈ mark_reminded t r'.(ib_id) now.
Proof. intros Hr E. apply update_elem. exists r. unfold has_id. by rewrite bool_decide_eq_false_2. Qed.
Lemma remind_each_paced config count now rows : ∀ t log,
  unique ib_id t → paced log t → NoDup (ib_id <$> rows) → 0 ≤ config.(ch_reminder_after_secs) →
  (∀ r, r ∈ rows → due_at now config.(ch_reminder_after_secs) r ∧ ∃ r', r' ∈ t ∧ pace_key r' = pace_key r) →
  let '(t', l) := remind_each push config count now (row_to_frame <$> rows) t in
  paced (log ++ ((λ i, mkReminded i now config.(ch_reminder_after_secs)) <$> l)) t'.
Proof.
  induction rows as [|r rows IH]; intros t log Hu Hp Hnd Ha Hdue; [cbn; by rewrite app_nil_r|]. cbn.
  set (after := config.(ch_reminder_after_secs)) in *. set (a := attempt_of _ _).
  set (t1 := record_notify_attempt t r.(ib_id) a).
  assert (unique ib_id t1) as Hu1 by by apply update_unique.
  destruct (Hdue r) as [Hr (r0 & Hr0 & E0)]; [by left|]. apply (attempt_pace _ r.(ib_id) a) in Hr0 as (r1 & Hr1 & E1).
  rewrite E0 in E1. injection E1 as Ei Ec El.
  assert (paced (log ++ [mkReminded r.(ib_id) now after]) (mark_reminded t1 r.(ib_id) now)) as Hp1.
  { rewrite <-Ei. apply mark_paced; [done|eapply paced_keeps; [apply attempt_pace|done]|done| |done]. unfold due_at in *. by rewrite Ec, El. }
  cbn in Hnd. apply NoDup_cons in Hnd as [Hn Hnd].
  assert (∀ x, x ∈ rows → due_at now after x ∧ ∃ x', x' ∈ mark_reminded t1 r.(ib_id) now ∧ pace_key x' = pace_key x) as Hdue1.
  { intros x Hx. destruct (Hdue x) as [Hx1 (x0 & Hx0 & Ex)]; [by right|]. split; [done|].
    apply (attempt_pace _ r.(ib_id) a) in Hx0 as (x1 & Hx1' & Ex1). exists x1. split; [|congruence].
    rewrite <-Ei. apply mark_other; [done|]. rewrite Ei. rewrite Ex in Ex1. injection Ex1 as -> _ _.
    intros E. apply Hn. rewrite <-E. by apply list_elem_of_fmap_2. }
  assert (unique ib_id (mark_reminded t1 r.(ib_id) now)) as Hu2 by by apply update_unique.
  specialize (IH _ _ Hu2 Hp1 Hnd Ha Hdue1).
  destruct (remind_each push config count now (row_to_frame <$> rows) _) as [t' l].
  rewrite <-app_assoc in IH. exact IH.
Qed.

Lemma due_rows_spec t now after r :
  0 ≤ now ≤ i64_max → 0 ≤ after ≤ i64_max → r ∈ due_rows t now after → r ∈ t ∧ due_at now after r.
Proof.
  intros Hn Ha Hr%subseteq_take. rewrite sort_by_perm in Hr. apply select_elem in Hr as [Hr Hd]. split; [done|].
  unfold due_row in Hd. rewrite !andb_true_iff, Z.leb_le in Hd. destruct Hd as [[_ Hc] Hl].
  assert (i64_saturating_sub now after = now - after) as E by (unfold i64_saturating_sub; rewrite i64_saturate_id; [done|unfold i64_min, i64_max in *; lia]).
  rewrite E in Hc, Hl. split; [lia|]. intros last Hlast. rewrite Hlast in Hl. cbn in Hl. lia.
Qed.
Lemma due_rows_unique t now after : unique ib_id t → NoDup (ib_id <$> due_rows t now after).
Proof.
  intros Hu. unfold due_rows. rewrite fmap_take. eapply sublist_NoDup; [|apply sublist_take]. rewrite sort_by_perm. by apply unique_select.
Qed.

Lemma step_paced t op log : inbox_ok t → op_timed op → paced log t → paced (log ++ op_reminded t op) (inbox_step t op).
Proof using L.
  intros Hok Ht Hp. destruct op as [| | | |[config|] now|].
  5: { cbn in Ht. destruct Ht as [Hn Ha]. cbn [inbox_step op_reminded]. unfold remind_overdue, due_for_reminder.
       pose proof (remind_each_paced config (open_count t) now (due_rows t now config.(ch_reminder_after_secs)) t log) as H.
       destruct (remind_each _ _ _ _ _ _) as [t' l]. apply H; [apply Hok|done|apply due_rows_unique, Hok|lia|].
       intros r [Hr Hd]%due_rows_spec; [|done..]. split; [done|by exists r]. }
  5: { cbn. by rewrite app_nil_r. }
  all: cbn [op_reminded]; rewrite app_nil_r; eapply paced_keeps; [by apply other_pace|done].
Qed.
Lemma run_paced ops : ∀ t log,
  inbox_ok t → run_fresh t ops → Forall op_timed ops → paced log t → paced (log ++ run_reminded t ops) (inbox_run t ops).
Proof using L.
  induction ops as [|op ops IH]; intros t log Hok Hf Ht Hc; cbn; [by rewrite app_nil_r|]. destruct Hf as [Hf Hfs].
  apply Forall_cons in Ht as [Ht Hts]. rewrite app_assoc. apply IH; [by apply inbox_step_ok|done..|by apply step_paced].
Qed.

Lemma run_fresh_app ops ops' : ∀ t, run_fresh t (ops ++ ops') ↔ run_fresh t ops ∧ run_fresh (inbox_run t ops) ops'.
Proof. induction ops as [|op ops IH]; intros t; cbn; [naive_solver|]. rewrite IH. tauto. Qed.

(** The inbox is in order.  After any run each item has its own identifier,
    a key has at most one open item, a decision belongs to one item; an open
    item has no decision, a resolved one has a decision among the options that
    were offered with the date of its resolution, a closed one has neither a
    decision nor an acknowledgement; at most twenty attempts are kept. *)
Lemma inbox_invariant ops : run_fresh [] ops → inbox_ok (inbox_run [] ops).
Proof using L. intros H. by apply inbox_run_ok; [apply empty_inbox_ok|]. Qed.

(** C20: a decision is taken once and is never lost.  Once a decision was taken
    on an item, whatever the inbox does next: the item holds this decision,
    another decision or a closing is refused and changes nothing, its producer
    reads the decision as long as it did not acknowledge it, when it asks for as
    many decisions as wait for it and for at most 200, which is the most a
    reading gives, and all the acknowledgements answer the date of the first
    one. *)
Theorem decision_kept ops item choice actor uuid now f later :
  let d := mkDecision uuid choice actor now in
  let t := inbox_run [] (ops ++ [OResolve item choice actor uuid now]) in
  let t' := inbox_run t later in
  run_fresh [] (ops ++ OResolve item choice actor uuid now :: later) →
  (resolve (inbox_run [] ops) item choice actor uuid now).2 = Ok (Ok f) →
  (∃ g, get t' item = Some g ∧ g.(it_state) = StateResolved ∧ g.(it_decision) = Some d ∧
    (g.(it_acked_at) = None → ∀ limit, Z.of_nat (length (select (is_pending g.(it_producer)) t')) ≤ limit ≤ 200 →
       ∃ p, p ∈ pending_decisions t' g.(it_producer) limit ∧ p.(pd_decision_id) = uuid ∧ p.(pd_item_id) = item ∧ p.(pd_choice) = choice) ∧
    ∀ at_ last, run_fresh (ack t' uuid at_).1 last → ∀ at2,
      (ack t' uuid at_).2 = Ok (Some (default at_ g.(it_acked_at))) ∧
      (ack (inbox_run (ack t' uuid at_).1 last) uuid at2).2 = Ok (Some (default at_ g.(it_acked_at)))) ∧
  (∀ choice actor uuid now, resolve t' item choice actor uuid now = (t', Ok (Err AlreadyResolved))) ∧
  (∀ reason now, close_self t' item reason now = (t', Ok false)).
Proof using L.
  intros d t t' Hf Hr. apply run_fresh_app in Hf as [Hf1 [Hf2 Hf3]].
  pose proof (inbox_run_ok _ _ empty_inbox_ok Hf1) as [Hok0 _].
  assert (t = (resolve (inbox_run [] ops) item choice actor uuid now).1) as Et by (unfold t, inbox_run; by rewrite foldl_app).
  destruct (resolve_decided _ _ _ _ _ _ _ Hok0 Hr) as [x0 Hx0]. pose proof (inbox_step_ok _ _ Hok0 Hf2) as Hok1. cbn in Hok1, Hf3.
  rewrite <-Et in Hx0, Hok1, Hf3. destruct (inbox_run_ok later t Hok1 Hf3) as [Hok2 Hl2]. fold t' in Hok2, Hl2.
  destruct (decided_later _ _ _ _ _ Hok1 Hl2 Hx0) as (x & Hx & _). fold d in Hx.
  split; [|split; intros; [by apply (decided_resolve _ _ d x)|by apply (decided_close _ _ d x)]].
  exists (row_to_frame x). destruct (decided_frame _ _ _ _ Hok2 Hx) as [H1 H2].
  split_and!; [unfold get; by rewrite (decided_one _ _ _ _ Hok2 Hx)|done|done| |].
  - intros Ha limit. apply (decided_pending t' item d x); [done..|]. destruct (io_rows _ Hok2 x (proj1 Hx)) as (_ & _ & _ & [p Hp] & _).
    unfold row_to_frame. cbn [it_producer]. by rewrite Hp.
  - intros at_ last Hf at2. destruct (decided_ack t' item d x at_ Hok2 Hx) as (x1 & Ha1 & Hx1 & Hd1). split; [done|].
    assert (inbox_ok (ack t' uuid at_).1) as Hok3 by by apply ack_ok. destruct (inbox_run_ok last _ Hok3 Hf) as [Hok4 Hl4].
    destruct (decided_later _ _ _ _ _ Hok3 Hl4 Hx1) as (x2 & Hx2 & Hl). apply (il_acked _ _ Hl) in Hd1.
    destruct (decided_ack _ _ _ _ at2 Hok4 Hx2) as (_ & Ha2 & _). rewrite Hd1 in Ha2. exact Ha2.
Qed.

(** No deposit is lost and none is doubled.  After any run the number of
    occurrences of an item is the number of the accepted deposits that were
    answered with its identifier, exactly one of which said that it created the
    item; an accepted deposit was answered with the identifier of an item of
    the table. *)
Lemma deposits_counted ops :
  run_fresh [] ops →
  let t := inbox_run [] ops in let log := run_deposited [] ops in
  (∀ r, r ∈ t → r.(ib_occurrences) = Z.of_nat (count_if (on_item r.(ib_id)) log) ∧ count_if (creates r.(ib_id)) log = 1%nat) ∧
  (∀ d, d ∈ log → ∃ r, r ∈ t ∧ r.(ib_id) = d.(dp_item_id)).
Proof using L.
  intros Hf t log. destruct (run_counted ops [] [] empty_inbox_ok Hf) as [H1 H2].
  { split; [intros i n|intros d]; by intros ?%elem_of_nil. }
  split.
  - intros r Hr. apply H1, list_elem_of_fmap. by exists r.
  - intros d Hd%H2. rewrite <-list_fmap_compose in Hd. apply list_elem_of_fmap in Hd as (r & -> & Hr). by exists r.
Qed.

(** The human is not harassed.  Along any run, two reminders of the same item
    are at least the configured delay apart, whatever the other operations
    between them, and no reminder comes before its item is that old. *)
Lemma reminders_spaced ops :
  run_fresh [] ops → Forall op_timed ops →
  StronglySorted spaced_out (run_reminded [] ops) ∧
  ∀ x, x ∈ run_reminded [] ops →
    ∃ r, r ∈ inbox_run [] ops ∧ r.(ib_id) = x.(rm_item) ∧ r.(ib_created_at) + x.(rm_after) ≤ x.(rm_at).
Proof using L.
  intros Hf Ht. destruct (run_paced ops [] [] empty_inbox_ok Hf Ht) as [H1 H2]; [split; [by intros x ?%elem_of_nil|constructor]|].
  split; [done|]. intros x Hx. destruct (H1 x Hx) as (r & _ & Hr & Hid & Hc & _). by exists r.
Qed.
End InboxRuns.

(** ** Examples *)

Module InboxExamples.

#[local] Instance subject_eq_dec : EqDecision HumanInboxSubject.
Proof. solve_decision. Defined.
#[local] Instance subject_countable : Countable HumanInboxSubject.
Proof.
  apply (inj_countable' (λ s, (s.(su_objective_id), s.(su_delegation_id), s.(su_message_id), s.(su_project_id), s.(su_agent_id)))
           (λ '(a, b, c, d, e), mkSubject a b c d e)). by intros [].
Defined.
#[local] Instance decision_eq_dec : EqDecision HumanInboxDecision.
Proof. solve_decision. Defined.
#[local] Instance decision_countable : Countable HumanInboxDecision.
Proof. apply (inj_countable' (λ d, (d.(de_id), d.(de_choice), d.(de_actor), d.(de_at))) (λ '(a, b, c, d), mkDecision a b c d)). by intros []. Defined.
#[local] Instance attempt_eq_dec : EqDecision NotifyAttempt.
Proof. solve_decision. Defined.
#[local] Instance attempt_countable : Countable NotifyAttempt.
Proof. apply (inj_countable' (λ a, (a.(na_at), a.(na_ok), a.(na_error))) (λ '(a, b, c), mkNotify a b c)). by intros []. Defined.

(** Texts of bits; a context is JSON when it starts with a brace. *)
Definition inbox_codec : InboxCodec := {|
  subject_to_json s := bits (encode s);
  subject_from_json s := countable.decode (of_bits s);
  options_to_json l := bits (encode l);
  options_from_json s := countable.decode (of_bits s);
  decision_to_json d := bits (encode d);
  decision_from_json s := countable.decode (of_bits s);
  decision_json_id s := Ok (de_id <$> countable.decode (of_bits s));
  decision_json_actor s := Ok (de_actor <$> countable.decode (of_bits s));
  attempts_to_json l := bits (encode l);
  attempts_from_json s := if bool_decide (s = "[]") then Some [] else countable.decode (of_bits s);
  set_closed_reason context reason := if Str.starts_with "{" context then Some (context +:+ reason) else None;
  context_summary _ := None |}.
#[local] Existing Instance inbox_codec.
#[local] Instance inbox_laws : InboxLaws inbox_codec.
Proof.
  split; intros; cbn; rewrite ?of_bits_bits, ?decode_encode; try done.
  rewrite bool_decide_eq_false_2; [done|]. by destruct (encode l).
Qed.

Lemma undecided_fresh t uuid : forallb (λ r, negb (is_some r.(ib_decision_json))) t = true → fresh_decision t uuid.
Proof. rewrite forallb_elem. intros H r d Hr%H Hd. by rewrite Hd in Hr. Qed.

Definition asked (key context : string) (now : Z) : DepositRequest :=
  mkDeposit key BudgetReached default_subject context ["yes"; "no"] ProducerGuichet now.
Definition bell : HumanChannelConfig := mkChannel ["/bin/bell"] 60.
Definition quiet (_ : HumanChannelConfig) (_ : ChannelSummary) : result string () := Ok ().
Definition day : list InboxOp :=
  [ODeposit (asked "k" "{}" 100) "i1" (Some bell); ODeposit (asked "k" "{}" 110) "i2" None; ORemind (Some bell) 120;
   ORemind (Some bell) 200; ORemind (Some bell) 230; ORemind (Some bell) 290].
Definition evening : list InboxOp := [ODeposit (asked "k" "{}" 320) "i3" None; OClose "i1" "done" 330].

Lemma day_fresh : run_fresh quiet [] (day ++ OResolve "i1" "yes" "ana" "d1" 300 :: evening).
Proof. cbn [run_fresh app day evening op_fresh]. split_and!; try done. apply undecided_fresh. by vm_compute. Qed.
Lemma day_resolved : ∃ f, (resolve (inbox_run quiet [] day) "i1" "yes" "ana" "d1" 300).2 = Ok (Ok f).
Proof. eexists. vm_compute. reflexivity. Qed.

Lemma day_log :
  run_deposited quiet [] (day ++ OResolve "i1" "yes" "ana" "d1" 300 :: evening) =
  [mkDeposited "i1" true 1; mkDeposited "i1" false 2; mkDeposited "i3" true 1].
Proof. vm_compute. reflexivity. Qed.

Lemma inbox_invariant_witness : inbox_ok (inbox_run quiet [] (day ++ OResolve "i1" "yes" "ana" "d1" 300 :: evening)).
Proof. apply inbox_invariant, day_fresh. Defined.
Lemma decision_kept_witness :
  ∃ g, get (inbox_run quiet (inbox_run quiet [] (day ++ [OResolve "i1" "yes" "ana" "d1" 300])) evening) "i1" = Some g ∧
    g.(it_decision) = Some (mkDecision "d1" "yes" "ana" 300).
Proof.
  destruct day_resolved as [f Hf]. destruct (decision_kept quiet day "i1" "yes" "ana" "d1" 300 f evening day_fresh Hf) as [(g & Hg & _ & Hd & _) _].
  exists g. split; [exact Hg|exact Hd].
Defined.
Lemma deposits_counted_witness :
  ∃ r, r ∈ inbox_run quiet [] (day ++ OResolve "i1" "yes" "ana" "d1" 300 :: evening) ∧ r.(ib_id) = "i1" ∧ r.(ib_occurrences) = 2.
Proof.
  destruct (deposits_counted quiet _ day_fresh) as [H1 H2].
  rewrite day_log in H1, H2. destruct (H2 (mkDeposited "i1" false 2)) as (r & Hr & Hid); [right; left|].
  exists r. split_and!; [done..|]. destruct (H1 r Hr) as [-> _]. rewrite Hid. reflexivity.
Defined.
Lemma reminders_spaced_witness : run_reminded quiet [] day = [mkReminded "i1" 200 60; mkReminded "i1" 290 60] ∧
  StronglySorted spaced_out (run_reminded quiet [] day).
Proof.
  split; [vm_compute; reflexivity|]. apply reminders_spaced; [cbn [run_fresh day op_fresh]; repeat split|].
  repeat constructor; cbn; lia || (vm_compute; discriminate).
Defined.

(** An item whose context is not JSON is accepted; its producer can never close it. *)
Lemma unclosable_item :
  let t := (deposit [] (asked "k" "plain text" 100) "i1").1 in
  (deposit [] (asked "k" "plain text" 100) "i1").2 = Ok (Ok (mkDeposited "i1" true 1)) ∧
  ∀ uuid actor now reason, handle_human_inbox quiet t actor 1 None uuid now (InboxClose "i1" reason) = (t, InboxRejected StoreUnavailable).
Proof. split; [by vm_compute|]. intros. cbv. reflexivity. Qed.
End InboxExamples.
