(* ===== verification/MobileDevices.v ===== *)
(** * MobileDevices: the authorisations of the phones, [bridget-daemon/src/mobile/store.rs]

    A pairing is a temporary grant that a phone claims once with a key of its
    own; the device it creates expires after thirty days unless its key is
    renewed, and can be revoked for ever.  The four tables are lists of rows
    (see [Sql]); each operation that writes is one transaction, whose error
    leaves the tables as they were.  The digests of keys, the JSON of a scope
    and the fresh identifiers are arguments; a digest has sixty-four digits, so
    that the checks on the length of the columns hold. *)

From Stdlib Require Import Ascii.
From S2P Require Import Prelude Text Uuid Communication Sql SpawnCommands.
Local Open Scope Z_scope.

Definition PAIRING_TTL : Z := 300.
Definition DEVICE_TTL : Z := 30 * 86400.
Definition ROTATION_REPLAY_TTL : Z := 600.
Definition MAX_DEVICES : Z := 16.
Definition MAX_RETAINED : Z := 256.
Definition SPECIALISTS_MANAGEMENT_INTRODUCED_AT : Z := 1793532131.

Inductive MobileRight :=
  | RightRead | RightMessage | RightTaskRead | RightTaskCreate | RightTaskContinue | RightTaskCancel | RightTaskRespond
  | RightDevicesManage | RightSpecialistsManage.
#[export] Instance MobileRight_eq_dec : EqDecision MobileRight.
Proof. solve_decision. Defined.

Record Scope := mkScope {
  sc_all_machines : bool; sc_machines : list string; sc_all_projects : bool; sc_projects : list CommunicationProject;
  sc_operations : list MobileRight }.
#[export] Instance Scope_eq_dec : EqDecision Scope.
Proof. solve_decision. Defined.

Record Device := mkDevice {
  d_device_id : string; d_label : string; d_scope : Scope; d_created_at : Z; d_expires_at : Z; d_revoked_at : option Z }.
Record Pairing := mkPairing { gr_pairing_id : string; gr_credential : string; gr_expires_at : Z }.

Inductive MobileError :=
  | InvalidRequest | PairingUnavailable | AuthorizationRequired | DeviceRevoked | CredentialExpired | EnvelopeMismatch | DeviceLimit
  | StorageUnavailable.
Definition store_error_code (e : MobileError) : string :=
  match e with
  | InvalidRequest => "invalid_request" | PairingUnavailable => "pairing_unavailable"
  | AuthorizationRequired => "authorization_required" | DeviceRevoked => "device_revoked"
  | CredentialExpired => "credential_expired" | EnvelopeMismatch => "envelope_mismatch"
  | DeviceLimit => "device_limit" | StorageUnavailable => "storage_unavailable"
  end.

(** ** Scopes *)

Definition grants (s : Scope) (op : MobileRight) : bool := existsb (λ o, bool_decide (o = op)) s.(sc_operations).
Definition LEGACY : list MobileRight :=
  [RightRead; RightMessage; RightTaskRead; RightTaskContinue; RightTaskCancel; RightTaskRespond; RightDevicesManage].
Definition legacy_global_administrator (s : Scope) : bool :=
  s.(sc_all_machines) && s.(sc_all_projects) && bool_decide (s.(sc_machines) = []) && bool_decide (s.(sc_projects) = [])
  && (length s.(sc_operations) =? length LEGACY)%nat && forallb (grants s) LEGACY.
Definition permits_federation (s : Scope) (op : MobileRight) : bool := s.(sc_all_machines) && s.(sc_all_projects) && grants s op.
Definition permits (s : Scope) (op : MobileRight) (machine : string) (project : option CommunicationProject) : bool :=
  grants s op
  && (s.(sc_all_machines) || existsb (λ m, bool_decide (m = machine)) s.(sc_machines))
  && (s.(sc_all_projects) || match project with Some p => existsb (λ q, bool_decide (q = p)) s.(sc_projects) | None => false end).

Definition bounded_label (value : string) (limit : nat) : bool :=
  negb (bool_decide (value = "")) && bool_decide (Str.trim value = value) && (String.length value <=? limit)%nat
  && negb (has_control value).
Definition project_refused (p : CommunicationProject) : bool :=
  negb (bounded_label p.(host) 256) || negb (path_is_absolute p.(root)) || (4096 <? String.length p.(root))%nat
  || has_control p.(root) || has_parent_dir p.(root).
Definition validate (s : Scope) : result MobileError () :=
  if grants s RightTaskCreate || (128 <? length s.(sc_machines))%nat || (128 <? length s.(sc_projects))%nat
     || bool_decide (s.(sc_operations) = []) || (9 <? length s.(sc_operations))%nat
     || (s.(sc_all_machines) && negb (bool_decide (s.(sc_machines) = [])))
     || (s.(sc_all_projects) && negb (bool_decide (s.(sc_projects) = [])))
     || existsb (λ m, negb (bounded_label m 256)) s.(sc_machines) || existsb project_refused s.(sc_projects)
  then Err InvalidRequest else Ok ().

Definition permits_specialists_management (d : Device) : bool :=
  d.(d_scope).(sc_all_machines)
  && (grants d.(d_scope) RightSpecialistsManage
      || ((1 <=? d.(d_created_at)) && (d.(d_created_at) <? SPECIALISTS_MANAGEMENT_INTRODUCED_AT)
          && legacy_global_administrator d.(d_scope))).

Definition valid_id `{UuidLib} (value : string) : bool :=
  match parse_str value with Some u => bool_decide (hyphenated u = value) && is_random u | None => false end.
Definition valid_key (value : string) : bool := (String.length value =? 64)%nat && Str.all_bytes lower_hex value.
(** Two identifiers without their hyphens. *)
Definition random_key (simple1 simple2 : string) : string := simple1 +:+ simple2.

(** ** The tables *)

Record DeviceRow := mkDeviceRow {
  dv_device_id : string; dv_label : string; dv_scope : string; dv_key_hash : string; dv_created_at : Z; dv_expires_at : Z;
  dv_revoked_at : option Z }.
Record PairingRow := mkPairingRow {
  pg_pairing_id : string; pg_credential_hash : string; pg_scope : string; pg_expires_at : Z; pg_attempt_id : option string;
  pg_binding_hash : option string; pg_device_id : option string }.
Record RotationRow := mkRotationRow {
  rt_from_hash : string; rt_to_hash : string; rt_request_id : string; rt_device_id : string; rt_replay_until : Z }.
Record NotificationRow := mkNotificationRow { nt_device_id : string; nt_token : string }.
Record MobileDb := mkMobileDb {
  mobile_devices : list DeviceRow; mobile_pairings : list PairingRow; mobile_rotations : list RotationRow;
  mobile_notifications : list NotificationRow }.
Definition empty_db : MobileDb := mkMobileDb [] [] [] [].

Definition with_revoked (now : Z) (r : DeviceRow) : DeviceRow :=
  mkDeviceRow r.(dv_device_id) r.(dv_label) r.(dv_scope) r.(dv_key_hash) r.(dv_created_at) r.(dv_expires_at)
    (Some (default now r.(dv_revoked_at))).
Definition with_key (hash : string) (expires_at : Z) (r : DeviceRow) : DeviceRow :=
  mkDeviceRow r.(dv_device_id) r.(dv_label) r.(dv_scope) hash r.(dv_created_at) expires_at r.(dv_revoked_at).
Definition with_claim (attempt binding device : string) (r : PairingRow) : PairingRow :=
  mkPairingRow r.(pg_pairing_id) r.(pg_credential_hash) r.(pg_scope) r.(pg_expires_at) (Some attempt) (Some binding) (Some device).

(** The digest in hexadecimal, the JSON of a scope and of the binding of a claim. *)
Class MobileCodec := {
  sha256_hex : string → string;
  scope_to_json : Scope → string;
  scope_from_json : string → option Scope;
  binding_json : string → string → string → string }.
Class MobileLaws (C : MobileCodec) := {
  scope_roundtrip s : scope_from_json (scope_to_json s) = Some s }.

Definition named (id : string) (r : DeviceRow) : bool := bool_decide (r.(dv_device_id) = id).
Definition keyed (hash : string) (r : DeviceRow) : bool := bool_decide (r.(dv_key_hash) = hash).
Definition is_active (now : Z) (r : DeviceRow) : bool := negb (is_some r.(dv_revoked_at)) && (now <? r.(dv_expires_at)).

(** [DELETE FROM mobile_devices], with what its references remove. *)
Definition delete_devices (p : DeviceRow → bool) (db : MobileDb) : MobileDb :=
  let gone i := existsb (λ r, p r && named i r) db.(mobile_devices) in
  mkMobileDb (delete_where p db.(mobile_devices))
    (delete_where (λ r, match r.(pg_device_id) with Some i => gone i | None => false end) db.(mobile_pairings))
    (delete_where (λ r, gone r.(rt_device_id)) db.(mobile_rotations))
    (delete_where (λ r, gone r.(nt_device_id)) db.(mobile_notifications)).

Section MobileStore.
Context `{U : UuidLib} `{C : MobileCodec}.

Definition hash_key (value : string) : string := sha256_hex value.
Definition fingerprint (attempt key label : string) : string := sha256_hex (binding_json attempt (hash_key key) label).

Definition row_device (r : DeviceRow) : result MobileError Device :=
  scope ← ok_or (scope_from_json r.(dv_scope)) StorageUnavailable;
  Ok (mkDevice r.(dv_device_id) r.(dv_label) scope r.(dv_created_at) r.(dv_expires_at) r.(dv_revoked_at)).
Definition active (d : Device) (now : Z) : result MobileError Device :=
  if is_some d.(d_revoked_at) then Err DeviceRevoked
  else if d.(d_expires_at) <=? now then Err CredentialExpired
  else _ ← validate d.(d_scope); Ok d.
(** A query for one device, with the error of a missing row. *)
Definition query_device (p : DeviceRow → bool) (missing : MobileError) (db : MobileDb) : result MobileError Device :=
  r ← ok_or (select_one p db.(mobile_devices)) missing; row_device r.

(** *** Reads *)

Definition authenticate (db : MobileDb) (key : string) (now : Z) : result MobileError Device :=
  if negb (valid_key key) || (now <? 0) then Err AuthorizationRequired
  else d ← query_device (keyed (hash_key key)) AuthorizationRequired db; active d now.

Definition renewal_subject (db : MobileDb) (key : string) (now : Z) : result MobileError Device :=
  match authenticate db key now with
  | Ok d => Ok d
  | Err AuthorizationRequired =>
    if negb (valid_key key) || (now <? 0) then Err AuthorizationRequired
    else
      d ← query_device
            (λ d, existsb (λ r, bool_decide (r.(rt_device_id) = d.(dv_device_id)) && bool_decide (r.(rt_to_hash) = d.(dv_key_hash))
                           && bool_decide (r.(rt_from_hash) = hash_key key) && (now <? r.(rt_replay_until))) db.(mobile_rotations))
            AuthorizationRequired db;
      active d now
  | Err e => Err e
  end.

Definition device_order (a b : DeviceRow) : bool :=
  (a.(dv_created_at) <? b.(dv_created_at))
  || ((a.(dv_created_at) =? b.(dv_created_at)) && String.leb a.(dv_device_id) b.(dv_device_id)).
Fixpoint row_devices (l : list DeviceRow) : result MobileError (list Device) :=
  match l with [] => Ok [] | r :: l => d ← row_device r; ds ← row_devices l; Ok (d :: ds) end.
Definition devices (db : MobileDb) : result MobileError (list Device) := row_devices (sort_by device_order db.(mobile_devices)).

(** *** Notifications *)

Definition fcm_token_byte (c : ascii) : bool :=
  Str.is_ascii_alphanumeric c || existsb (λ x, bool_decide (x = c)) ["_"%char; "-"%char; ":"%char; "."%char].
Definition token_valid (token : string) : bool :=
  (20 <=? String.length token)%nat && (String.length token <=? 4096)%nat && Str.all_bytes fcm_token_byte token.
Definition set_tokens (l : list NotificationRow) (db : MobileDb) : MobileDb :=
  mkMobileDb db.(mobile_devices) db.(mobile_pairings) db.(mobile_rotations) l.

(** The two statements are in turn; [INSERT OR REPLACE] removes the row of the device and the row of the token. *)
Definition set_notifications (db : MobileDb) (device_id : string) (token : option string) (now : Z)
    : MobileDb * result MobileError () :=
  match (d ← query_device (named device_id) StorageUnavailable db; active d now) with
  | Err e => (db, Err e)
  | Ok current =>
    if negb (permits_federation current.(d_scope) RightRead) || negb (permits_federation current.(d_scope) RightTaskRead)
    then (db, Err InvalidRequest)
    else
      match token with
      | None => (set_tokens (delete_where (λ n, bool_decide (n.(nt_device_id) = device_id)) db.(mobile_notifications)) db, Ok ())
      | Some token =>
        if negb (token_valid token) then (db, Err InvalidRequest)
        else
          let ended i := existsb (λ r, named i r && negb (is_active now r)) db.(mobile_devices) in
          let kept := delete_where (λ n, ended n.(nt_device_id)) db.(mobile_notifications) in
          let replaced n := bool_decide (n.(nt_device_id) = device_id) || bool_decide (n.(nt_token) = token) in
          (set_tokens (delete_where replaced kept ++ [mkNotificationRow device_id token]) db, Ok ())
      end
  end.

Definition wants_notifications (s : Scope) : bool := permits_federation s RightRead && permits_federation s RightTaskRead.
Fixpoint targets_of (l : list (DeviceRow * NotificationRow)) : result MobileError (list (string * string)) :=
  match l with
  | [] => Ok []
  | (r, n) :: l =>
    d ← row_device r; ts ← targets_of l;
    Ok (if wants_notifications d.(d_scope) then (d.(d_device_id), n.(nt_token)) :: ts else ts)
  end.
Definition joined (now : Z) (db : MobileDb) : list (DeviceRow * NotificationRow) :=
  r ← select (is_active now) db.(mobile_devices);
  pair r <$> select (λ n, bool_decide (n.(nt_device_id) = r.(dv_device_id))) db.(mobile_notifications).
Definition notification_targets (db : MobileDb) (now : Z) : result MobileError (list (string * string)) :=
  targets_of (take 16 (joined now db)).
Definition remove_notification_token (db : MobileDb) (device_id token : string) : MobileDb :=
  set_tokens (delete_where (λ n, bool_decide (n.(nt_device_id) = device_id) && bool_decide (n.(nt_token) = token)) db.(mobile_notifications)) db.

(** *** Grants, claims, renewals *)

Definition purge_rotations (now : Z) (db : MobileDb) : MobileDb :=
  mkMobileDb db.(mobile_devices) db.(mobile_pairings) (delete_where (λ r, r.(rt_replay_until) <=? now) db.(mobile_rotations))
    db.(mobile_notifications).
Definition purge_pairings (now : Z) (db : MobileDb) : MobileDb :=
  mkMobileDb db.(mobile_devices)
    (delete_where (λ r, (r.(pg_expires_at) <=? now) && negb (is_some r.(pg_device_id))) db.(mobile_pairings))
    db.(mobile_rotations) db.(mobile_notifications).
Definition purged (now : Z) (db : MobileDb) : MobileDb :=
  delete_devices (λ r, r.(dv_expires_at) <=? i64_saturating_sub now DEVICE_TTL) (purge_pairings now (purge_rotations now db)).
Definition set_pairings (l : list PairingRow) (db : MobileDb) : MobileDb :=
  mkMobileDb db.(mobile_devices) l db.(mobile_rotations) db.(mobile_notifications).

(** [id] and [credential] are fresh. *)
Definition issue_pairing (db : MobileDb) (scope : Scope) (now : Z) (id credential : string) : MobileDb * result MobileError Pairing :=
  match (_ ← validate scope; ok_or (e ← i64_checked (now + PAIRING_TTL); then_some (0 <=? now) e) InvalidRequest) with
  | Err e => (db, Err e)
  | Ok expires_at =>
    let encoded := scope_to_json scope in
    if 16 * 1024 <? Z.of_nat (String.length encoded) then (db, Err InvalidRequest)
    else
      let db1 := purged now db in
      if (MAX_RETAINED <=? Z.of_nat (length db1.(mobile_devices))) || (MAX_RETAINED <=? Z.of_nat (length db1.(mobile_pairings)))
      then (db, Err DeviceLimit)
      else if exists_row (λ r, bool_decide (r.(pg_pairing_id) = id) || bool_decide (r.(pg_credential_hash) = hash_key credential))
                db1.(mobile_pairings)
      then (db, Err StorageUnavailable)
      else
        (set_pairings (db1.(mobile_pairings) ++ [mkPairingRow id (hash_key credential) encoded expires_at None None None]) db1,
         Ok (mkPairing id credential expires_at))
  end.

Definition claimed_by (credential : string) (r : PairingRow) : bool := bool_decide (r.(pg_credential_hash) = hash_key credential).
(** [id] is the fresh identifier of the device. *)
Definition pair_device (db : MobileDb) (pairing attempt key label : string) (now : Z) (id : string)
    : MobileDb * result MobileError Device :=
  if negb (valid_key pairing) || negb (valid_key key) || negb (valid_id attempt) || negb (bounded_label label 128) || (now <? 0)
  then (db, Err InvalidRequest)
  else
    match select_one (claimed_by pairing) db.(mobile_pairings) with
    | None => (db, Err PairingUnavailable)
    | Some row =>
      match row.(pg_device_id) with
      | Some claimed =>
        (db,
         if negb (bool_decide (row.(pg_binding_hash) = Some (fingerprint attempt key label))) then Err PairingUnavailable
         else d ← query_device (λ r, named claimed r && keyed (hash_key key) r) PairingUnavailable db; active d now)
      | None =>
        if row.(pg_expires_at) <=? now then (db, Err PairingUnavailable)
        else
          match (scope ← ok_or (scope_from_json row.(pg_scope)) StorageUnavailable; _ ← validate scope; Ok scope) with
          | Err e => (db, Err e)
          | Ok scope =>
            if MAX_DEVICES <=? Z.of_nat (updated (is_active now) db.(mobile_devices)) then (db, Err DeviceLimit)
            else
              match i64_checked (now + DEVICE_TTL) with
              | None => (db, Err InvalidRequest)
              | Some expires_at =>
                if exists_row (λ r, named id r || keyed (hash_key key) r) db.(mobile_devices) then (db, Err StorageUnavailable)
                else
                  (mkMobileDb
                     (db.(mobile_devices) ++ [mkDeviceRow id label row.(pg_scope) (hash_key key) now expires_at None])
                     (update (claimed_by pairing) (with_claim attempt (fingerprint attempt key label) id) db.(mobile_pairings))
                     db.(mobile_rotations) db.(mobile_notifications),
                   Ok (mkDevice id label scope now expires_at None))
              end
          end
      end
    end.

Definition revoke (db : MobileDb) (id : string) (now : Z) : MobileDb * result MobileError bool :=
  if negb (valid_id id) || (now <? 0) then (db, Err InvalidRequest)
  else
    (mkMobileDb (update (named id) (with_revoked now) db.(mobile_devices)) db.(mobile_pairings) db.(mobile_rotations)
       db.(mobile_notifications),
     Ok (updated (named id) db.(mobile_devices) =? 1)%nat).

Definition renew (db : MobileDb) (old new request : string) (now : Z) : MobileDb * result MobileError Device :=
  if negb (valid_key old) || negb (valid_key new) || bool_decide (old = new) || negb (valid_id request) || (now <? 0)
  then (db, Err InvalidRequest)
  else
    let old_hash := hash_key old in let new_hash := hash_key new in
    match select_one (λ r, bool_decide (r.(rt_from_hash) = old_hash)) db.(mobile_rotations) with
    | Some r =>
      (db,
       if r.(rt_replay_until) <=? now then Err AuthorizationRequired
       else if negb (bool_decide (r.(rt_to_hash) = new_hash)) || negb (bool_decide (r.(rt_request_id) = request)) then Err EnvelopeMismatch
       else d ← query_device (λ d, named r.(rt_device_id) d && keyed new_hash d) AuthorizationRequired db; active d now)
    | None =>
      match (d ← query_device (keyed old_hash) AuthorizationRequired db; active d now) with
      | Err e => (db, Err e)
      | Ok device =>
        let db1 := purge_rotations now db in
        if 1024 <=? Z.of_nat (length db1.(mobile_rotations)) then (db, Err DeviceLimit)
        else
          match i64_checked (now + DEVICE_TTL), i64_checked (now + ROTATION_REPLAY_TTL) with
          | Some expires_at, Some until =>
            if exists_row (λ r, keyed new_hash r && negb (named device.(d_device_id) r)) db1.(mobile_devices)
            then (db, Err StorageUnavailable)
            else
              (mkMobileDb (update (named device.(d_device_id)) (with_key new_hash expires_at) db1.(mobile_devices))
                 db1.(mobile_pairings)
                 (db1.(mobile_rotations) ++ [mkRotationRow old_hash new_hash request device.(d_device_id) until])
                 db1.(mobile_notifications),
               Ok (mkDevice device.(d_device_id) device.(d_label) device.(d_scope) device.(d_created_at) expires_at device.(d_revoked_at)))
          | _, _ => (db, Err InvalidRequest)
          end
      end
    end.
End MobileStore.

(** ** The state of the tables *)

Section MobileInvariant.
Context `{U : UuidLib} `{C : MobileCodec}.

Definition scope_ok (json : string) : Prop := ∃ s, scope_from_json json = Some s ∧ validate s = Ok ().
Definition has_device (db : MobileDb) (i : string) : Prop := ∃ d, d ∈ db.(mobile_devices) ∧ d.(dv_device_id) = i.

Record mobile_ok (db : MobileDb) : Prop := mkMobileOk {
  mo_ids : unique dv_device_id db.(mobile_devices);
  mo_keys : unique dv_key_hash db.(mobile_devices);
  mo_pairing_ids : unique pg_pairing_id db.(mobile_pairings);
  mo_credentials : unique pg_credential_hash db.(mobile_pairings);
  mo_from : unique rt_from_hash db.(mobile_rotations);
  mo_targets : unique nt_device_id db.(mobile_notifications);
  mo_tokens : unique nt_token db.(mobile_notifications);
  (** A device comes from one pairing, and has its scope. *)
  mo_claimed d : d ∈ db.(mobile_devices) →
    ∃ p, p ∈ db.(mobile_pairings) ∧ p.(pg_device_id) = Some d.(dv_device_id) ∧ p.(pg_scope) = d.(dv_scope);
  mo_scopes p : p ∈ db.(mobile_pairings) → scope_ok p.(pg_scope);
  mo_pairing_device p i : p ∈ db.(mobile_pairings) → p.(pg_device_id) = Some i → has_device db i;
  mo_rotation_device r : r ∈ db.(mobile_rotations) → has_device db r.(rt_device_id);
  mo_notification_device n : n ∈ db.(mobile_notifications) → has_device db n.(nt_device_id);
  mo_pairings_bound : Z.of_nat (length db.(mobile_pairings)) ≤ MAX_RETAINED;
  mo_rotations_bound : Z.of_nat (length db.(mobile_rotations)) ≤ 1024 }.

Lemma empty_mobile_ok : mobile_ok empty_db.
Proof. split; cbn; try (by apply NoDup_nil_2) || (by intros ? ?%elem_of_nil) || (by intros ? ? ?%elem_of_nil) || (vm_compute; discriminate). Qed.

(** Each device has a pairing of its own: there are no more devices than pairings. *)
Lemma devices_bound db : mobile_ok db → (length db.(mobile_devices) ≤ length db.(mobile_pairings))%nat.
Proof.
  intros Hok. rewrite <-(length_fmap dv_device_id). transitivity (length (omap pg_device_id db.(mobile_pairings))).
  - apply submseteq_length, NoDup_submseteq; [apply Hok|]. intros i (d & -> & Hd)%list_elem_of_fmap.
    destruct (mo_claimed _ Hok d Hd) as (p & Hp & Hi & _). apply list_elem_of_omap. by exists p.
  - generalize db.(mobile_pairings). induction l as [|p l IH]; cbn; [done|]. destruct p.(pg_device_id); cbn; lia.
Qed.

Lemma delete_elem {R} (p : R → bool) t r : r ∈ delete_where p t ↔ r ∈ t ∧ p r = false.
Proof. unfold delete_where. rewrite list_filter_elem, negb_true_iff. done. Qed.
Lemma delete_unique {R K} (key : R → K) (p : R → bool) t : unique key t → unique key (delete_where p t).
Proof. apply unique_select. Qed.
Lemma delete_length {R} (p : R → bool) t : (length (delete_where p t) ≤ length t)%nat.
Proof. apply List.filter_length_le. Qed.

(** The devices that a deletion leaves keep what refers to them. *)
Lemma delete_keeps p db i :
  unique dv_device_id db.(mobile_devices) →
  existsb (λ r, p r && named i r) db.(mobile_devices) = false → has_device db i → has_device (delete_devices p db) i.
Proof.
  intros Hu Hg (d & Hd & Hi). exists d. split; [|done]. apply delete_elem. split; [done|].
  destruct (p d) eqn:Hp; [|done]. assert (existsb (λ r, p r && named i r) db.(mobile_devices) = true); [|congruence].
  apply existsb_elem. exists d. split; [done|]. rewrite Hp. by apply bool_decide_eq_true.
Qed.
Lemma delete_gone p db d :
  mobile_ok db → d ∈ db.(mobile_devices) → p d = false →
  existsb (λ r, p r && named d.(dv_device_id) r) db.(mobile_devices) = false.
Proof.
  intros Hok Hd Hp. destruct (existsb _ _) eqn:E; [|done]. apply existsb_elem in E as (d' & Hd' & [Hp' Hn]%andb_true_iff).
  apply bool_decide_eq_true in Hn. rewrite (unique_eq dv_device_id _ d' d (mo_ids _ Hok) Hd' Hd Hn) in Hp'. congruence.
Qed.
Lemma delete_devices_ok p db : mobile_ok db → mobile_ok (delete_devices p db).
Proof.
  intros Hok. pose proof Hok as [H1 H2 H3 H4 H5 H6 H7 H8 H9 H10 H11 H12 H13 H14].
  split; cbn; try by apply delete_unique.
  - intros d [Hd Hp]%delete_elem. destruct (H8 d Hd) as (q & Hq & Hi & Hs). exists q. split; [|done]. apply delete_elem.
    split; [done|]. rewrite Hi. by apply delete_gone.
  - intros q [Hq _]%delete_elem. by apply H9.
  - intros q i [Hq Hg]%delete_elem Hi. rewrite Hi in Hg. apply delete_keeps; [done..|]. by apply (H10 q).
  - intros r [Hr Hg]%delete_elem. apply delete_keeps; [done..|]. by apply H11.
  - intros r [Hr Hg]%delete_elem. apply delete_keeps; [done..|]. by apply H12.
  - etrans; [apply inj_le, delete_length|done].
  - etrans; [apply inj_le, delete_length|done].
Qed.
Lemma purge_rotations_ok now db : mobile_ok db → mobile_ok (purge_rotations now db).
Proof.
  intros [H1 H2 H3 H4 H5 H6 H7 H8 H9 H10 H11 H12 H13 H14]. split; cbn; try done; [by apply delete_unique| |].
  - intros r [Hr _]%delete_elem. by apply H11.
  - etrans; [apply inj_le, delete_length|done].
Qed.
Lemma purge_pairings_ok now db : mobile_ok db → mobile_ok (purge_pairings now db).
Proof.
  intros [H1 H2 H3 H4 H5 H6 H7 H8 H9 H10 H11 H12 H13 H14]. split; cbn; try done; try by apply delete_unique.
  - intros d Hd. destruct (H8 d Hd) as (q & Hq & Hi & Hs). exists q. split; [|done]. apply delete_elem. split; [done|].
    rewrite Hi. cbn. by rewrite andb_false_r.
  - intros q [Hq _]%delete_elem. by apply H9.
  - intros q i [Hq _]%delete_elem. by apply H10.
  - etrans; [apply inj_le, delete_length|done].
Qed.
Lemma purged_ok now db : mobile_ok db → mobile_ok (purged now db).
Proof. intros H. by apply delete_devices_ok, purge_pairings_ok, purge_rotations_ok. Qed.

(** ** What the operations do *)

(** The device that a query answers: the row it comes from is active. *)
Definition answers (p : DeviceRow → bool) (now : Z) (db : MobileDb) (d : Device) : Prop :=
  ∃ r, r ∈ db.(mobile_devices) ∧ p r = true ∧ row_device r = Ok d ∧ is_active now r = true ∧ validate d.(d_scope) = Ok ().
Lemma query_active p e now db d : (x ← query_device p e db; active x now) = Ok d → answers p now db d.
Proof.
  unfold query_device. destruct (select_one p db.(mobile_devices)) as [r|] eqn:Hr; [|done]. cbn.
  apply select_one_Some in Hr as [Hin Hp]. destruct (row_device r) as [d'|] eqn:Hd; [|done]. cbn. unfold active.
  destruct (is_some d'.(d_revoked_at)) eqn:Hrev; [done|]. destruct (d'.(d_expires_at) <=? now) eqn:He; [done|].
  destruct (validate _) as [[]|] eqn:Hv; [|done]. cbn. intros [= <-]. exists r. split_and!; [done..| |done].
  unfold row_device in Hd. destruct (scope_from_json _); [|done]. cbn in Hd. injection Hd as <-. cbn in Hrev, He.
  unfold is_active. rewrite Hrev. cbn. lia.
Qed.
Lemma row_device_id r d : row_device r = Ok d → d.(d_device_id) = r.(dv_device_id).
Proof. unfold row_device. destruct (scope_from_json _); [|done]. cbn. by intros [= <-]. Qed.

Lemma issue_cases db scope now id credential :
  let '(db', r) := issue_pairing db scope now id credential in
  (db' = db ∧ ∀ g, r ≠ Ok g) ∨
  validate scope = Ok () ∧ 0 ≤ now ∧ Z.of_nat (length (purged now db).(mobile_pairings)) < MAX_RETAINED ∧
  (∀ q, q ∈ (purged now db).(mobile_pairings) → q.(pg_pairing_id) ≠ id ∧ q.(pg_credential_hash) ≠ hash_key credential) ∧
  r = Ok (mkPairing id credential (now + PAIRING_TTL)) ∧
  db' = set_pairings ((purged now db).(mobile_pairings) ++
          [mkPairingRow id (hash_key credential) (scope_to_json scope) (now + PAIRING_TTL) None None None]) (purged now db).
Proof.
  unfold issue_pairing. cbv zeta. generalize (purged now db). intros db1. destruct (validate scope) as [[]|]; [|by left]. cbn.
  destruct (i64_checked (now + PAIRING_TTL)) as [e|] eqn:He; [|by left]. apply i64_checked_Some in He as [-> _]. cbn.
  destruct (0 <=? now) eqn:Hn; [|by left]. cbn. destruct (_ <? Z.of_nat _); [by left|].
  destruct (_ || _) eqn:Hl; [by left|]. destruct (exists_row _ _) eqn:He; [by left|]. right.
  apply orb_false_iff in Hl as [_ Hl]. split_and!; [done|lia|lia| |done|done].
  intros q Hq. rewrite exists_row_false in He. specialize (He q Hq). apply orb_false_iff in He as [H1 H2].
  by apply bool_decide_eq_false in H1, H2.
Qed.

Lemma pair_cases db pairing attempt key label now id :
  let '(db', r) := pair_device db pairing attempt key label now id in
  (db' = db ∧ ∀ d, r = Ok d → ∃ q i, q ∈ db.(mobile_pairings) ∧ q.(pg_credential_hash) = hash_key pairing ∧
     q.(pg_device_id) = Some i ∧ q.(pg_binding_hash) = Some (fingerprint attempt key label) ∧ 0 ≤ now ∧
     answers (λ r, named i r && keyed (hash_key key) r) now db d) ∨
  ∃ q scope, q ∈ db.(mobile_pairings) ∧ q.(pg_credential_hash) = hash_key pairing ∧ q.(pg_device_id) = None ∧
    scope_from_json q.(pg_scope) = Some scope ∧ validate scope = Ok () ∧ 0 ≤ now < q.(pg_expires_at) ∧
    Z.of_nat (updated (is_active now) db.(mobile_devices)) < MAX_DEVICES ∧ valid_key key = true ∧
    (∀ r, r ∈ db.(mobile_devices) → r.(dv_device_id) ≠ id ∧ r.(dv_key_hash) ≠ hash_key key) ∧
    r = Ok (mkDevice id label scope now (now + DEVICE_TTL) None) ∧
    db' = mkMobileDb (db.(mobile_devices) ++ [mkDeviceRow id label q.(pg_scope) (hash_key key) now (now + DEVICE_TTL) None])
            (update (claimed_by pairing) (with_claim attempt (fingerprint attempt key label) id) db.(mobile_pairings))
            db.(mobile_rotations) db.(mobile_notifications).
Proof.
  unfold pair_device. destruct (_ || (now <? 0)) eqn:Hv; [by left|]. rewrite !orb_false_iff, !negb_false_iff in Hv.
  destruct Hv as ((((_ & Hk) & _) & _) & Hn). destruct (select_one _ _) as [q|] eqn:Hq; [|by left].
  apply select_one_Some in Hq as [Hin Hc]. apply bool_decide_eq_true in Hc. destruct q.(pg_device_id) as [i|] eqn:Hi.
  - left. split; [done|]. intros d Hd. exists q, i. destruct (bool_decide _) eqn:Hb; [|done]. apply bool_decide_eq_true in Hb.
    split_and!; [done..|lia|]. by apply query_active in Hd.
  - destruct (_ <=? now) eqn:He; [by left|]. destruct (scope_from_json _) as [scope|] eqn:Hs; [|by left]. cbn.
    destruct (validate scope) as [[]|] eqn:Hval; [|by left]. cbn. destruct (MAX_DEVICES <=? _) eqn:Hm; [by left|].
    destruct (i64_checked _) as [e|] eqn:Hx; [|by left]. apply i64_checked_Some in Hx as [-> _].
    destruct (exists_row _ _) eqn:Hr; [by left|]. right. exists q, scope.
    split_and!; try done; try lia. intros r Hrin. rewrite exists_row_false in Hr. specialize (Hr r Hrin).
    apply orb_false_iff in Hr as [H1 H2]. by apply bool_decide_eq_false in H1, H2.
Qed.

Lemma renew_cases db old new request now :
  let '(db', r) := renew db old new request now in
  (db' = db ∧ ∀ d, r = Ok d → ∃ p, answers p now db d) ∨
  ∃ d row, row ∈ db.(mobile_devices) ∧ row.(dv_key_hash) = hash_key old ∧ row_device row = Ok d ∧ is_active now row = true ∧
    0 ≤ now ∧ valid_key new = true ∧ Z.of_nat (length (purge_rotations now db).(mobile_rotations)) < 1024 ∧
    (∀ x, x ∈ db.(mobile_rotations) → x.(rt_from_hash) ≠ hash_key old) ∧
    (∀ x, x ∈ db.(mobile_devices) → x.(dv_key_hash) = hash_key new → x.(dv_device_id) = row.(dv_device_id)) ∧
    r = Ok (mkDevice d.(d_device_id) d.(d_label) d.(d_scope) d.(d_created_at) (now + DEVICE_TTL) d.(d_revoked_at)) ∧
    db' = mkMobileDb (update (named row.(dv_device_id)) (with_key (hash_key new) (now + DEVICE_TTL)) db.(mobile_devices))
            db.(mobile_pairings)
            ((purge_rotations now db).(mobile_rotations) ++
               [mkRotationRow (hash_key old) (hash_key new) request row.(dv_device_id) (now + ROTATION_REPLAY_TTL)])
            db.(mobile_notifications).
Proof.
  unfold renew. destruct (_ || (now <? 0)) eqn:Hv; [by left|]. rewrite !orb_false_iff, !negb_false_iff in Hv.
  destruct Hv as ((((_ & Hk) & _) & _) & Hn). destruct (select_one _ db.(mobile_rotations)) as [x|] eqn:Hx.
  - left. split; [done|]. intros d Hd. destruct (_ <=? now); [done|]. destruct (_ || _); [done|]. apply query_active in Hd. eauto.
  - destruct (d ← _; _) as [d|] eqn:Hd; [|by left]. apply query_active in Hd as (row & Hin & Hkey & Hrow & Ha & _).
    destruct (1024 <=? _) eqn:Hl; [by left|]. destruct (i64_checked (now + DEVICE_TTL)) as [e|] eqn:He; [|by left].
    destruct (i64_checked (now + ROTATION_REPLAY_TTL)) as [u|] eqn:Hu; [|by left].
    apply i64_checked_Some in He as [-> _], Hu as [-> _]. destruct (exists_row _ _) eqn:Hr; [by left|]. right.
    rewrite (row_device_id _ _ Hrow) in *. exists d, row. apply bool_decide_eq_true in Hkey.
    split_and!; try done; try lia.
    + intros y Hy E. pose proof (select_one_None _ _ _ Hx Hy) as Hno. by apply bool_decide_eq_false in Hno.
    + intros y Hy E. rewrite exists_row_false in Hr. specialize (Hr y Hy). unfold keyed in Hr. rewrite bool_decide_eq_true_2 in Hr by done.
      cbn in Hr. by apply negb_false_iff, bool_decide_eq_true in Hr.
    + by rewrite (row_device_id _ _ Hrow).
Qed.

(** The tokens that an operation leaves are those of devices, one for each. *)
Lemma notifications_cases db device token now :
  (set_notifications db device token now).1 = db ∨
  ∃ l, (set_notifications db device token now).1 = set_tokens l db ∧
    (mobile_ok db → unique nt_device_id l ∧ unique nt_token l ∧ ∀ n, n ∈ l → has_device db n.(nt_device_id)).
Proof.
  unfold set_notifications. destruct (d ← _; _) as [d|] eqn:Hd; [|by left]. apply query_active in Hd as (row & Hin & Hi & _).
  destruct (_ || _); [by left|]. destruct token as [token|].
  - destruct (token_valid token); [|by left]. cbn. right. eexists. split; [done|]. intros Hok. split_and!.
    + apply unique_snoc; [by do 2 apply delete_unique; apply Hok|]. intros n [_ [Hn _]%orb_false_iff]%delete_elem.
      by apply bool_decide_eq_false in Hn.
    + apply unique_snoc; [by do 2 apply delete_unique; apply Hok|]. intros n [_ [_ Hn]%orb_false_iff]%delete_elem.
      by apply bool_decide_eq_false in Hn.
    + intros n [Hn|Hn]%elem_of_app; [by apply delete_elem in Hn as [[Hn _]%delete_elem _]; apply Hok|].
      apply list_elem_of_singleton in Hn as ->. exists row. by apply bool_decide_eq_true in Hi.
  - right. eexists. split; [done|]. intros Hok. split_and!; [apply delete_unique, Hok..|].
    intros n [Hn _]%delete_elem. by apply Hok.
Qed.
Lemma set_tokens_ok db l :
  mobile_ok db → unique nt_device_id l → unique nt_token l → (∀ n, n ∈ l → has_device db n.(nt_device_id)) → mobile_ok (set_tokens l db).
Proof. intros [H1 H2 H3 H4 H5 H6 H7 H8 H9 H10 H11 H12 H13 H14] HA HB HC. by split. Qed.

(** An update of devices that keeps their identifiers and their scopes. *)
Lemma has_device_keys db db' i :
  (dv_device_id <$> db'.(mobile_devices)) = (dv_device_id <$> db.(mobile_devices)) → has_device db i → has_device db' i.
Proof.
  intros E (d & Hd & <-). apply (list_elem_of_fmap_2 dv_device_id) in Hd. rewrite <-E in Hd. apply list_elem_of_fmap in Hd as (d' & ? & ?).
  by exists d'.
Qed.
Lemma update_devices_ok db p f :
  mobile_ok db → (∀ r, r ∈ db.(mobile_devices) → p r = true → (f r).(dv_device_id) = r.(dv_device_id) ∧ (f r).(dv_scope) = r.(dv_scope)) →
  unique dv_key_hash (update p f db.(mobile_devices)) →
  mobile_ok (mkMobileDb (update p f db.(mobile_devices)) db.(mobile_pairings) db.(mobile_rotations) db.(mobile_notifications)).
Proof.
  intros [H1 H2 H3 H4 H5 H6 H7 H8 H9 H10 H11 H12 H13 H14] Hf Hu.
  assert (dv_device_id <$> update p f db.(mobile_devices) = dv_device_id <$> db.(mobile_devices)) as E.
  { apply update_key. intros r Hr Hp. by apply Hf. }
  split; cbn; try done; [unfold unique; by rewrite E|..].
  - intros d (r & Hr & ->)%update_elem. destruct (H8 r Hr) as (q & Hq & Hi & Hs). exists q.
    destruct (p r) eqn:Hp; [|done]. by destruct (Hf r Hr Hp) as [-> ->].
  - intros q i Hq Hi. eapply has_device_keys; [|by eapply H10]. done.
  - intros x Hx. eapply has_device_keys; [|by apply H11]. done.
  - intros x Hx. eapply has_device_keys; [|by apply H12]. done.
Qed.

Lemma revoke_ok db id now : mobile_ok db → mobile_ok (revoke db id now).1.
Proof.
  intros Hok. unfold revoke. destruct (_ || _); [done|]. apply update_devices_ok; [done|done|]. apply update_unique; [done|apply Hok].
Qed.
Lemma issue_ok {L : MobileLaws C} db scope now id credential : mobile_ok db → mobile_ok (issue_pairing db scope now id credential).1.
Proof.
  intros Hok. pose proof (issue_cases db scope now id credential) as H. destruct (issue_pairing _ _ _ _ _) as [db' r]. cbn.
  destruct H as [[-> _]|(Hv & _ & Hl & Hnew & _ & ->)]; [done|].
  destruct (purged_ok now db Hok) as [H1 H2 H3 H4 H5 H6 H7 H8 H9 H10 H11 H12 H13 H14]. revert Hl Hnew H1 H2 H3 H4 H5 H6 H7 H8 H9 H10 H11 H12 H13 H14.
  generalize (purged now db). intros db1 Hl Hnew H1 H2 H3 H4 H5 H6 H7 H8 H9 H10 H11 H12 H13 H14. split; cbn; try done.
  - apply unique_snoc; [done|]. intros q Hq. by apply Hnew.
  - apply unique_snoc; [done|]. intros q Hq. by apply Hnew.
  - intros d Hd. destruct (H8 d Hd) as (q & Hq & Hi). exists q. split; [apply elem_of_app; by left|done].
  - intros q [Hq| ->%list_elem_of_singleton]%elem_of_app; [by apply H9|]. exists scope. split; [apply scope_roundtrip|done].
  - intros q i [Hq| ->%list_elem_of_singleton]%elem_of_app Hi; [by apply (H10 q)|done].
  - rewrite length_app. cbn. lia.
Qed.

Lemma pair_ok db pairing attempt key label now id : mobile_ok db → mobile_ok (pair_device db pairing attempt key label now id).1.
Proof.
  intros Hok. pose proof (pair_cases db pairing attempt key label now id) as H. destruct (pair_device _ _ _ _ _ _ _) as [db' r]. cbn.
  destruct H as [[-> _]|(q & scope & Hq & Hc & Hnone & _ & _ & _ & _ & _ & Hnew & _ & ->)]; [done|].
  destruct Hok as [H1 H2 H3 H4 H5 H6 H7 H8 H9 H10 H11 H12 H13 H14].
  assert (∀ i, has_device db i → has_device (mkMobileDb (db.(mobile_devices) ++ [mkDeviceRow id label q.(pg_scope) (hash_key key) now (now + DEVICE_TTL) None])
    (update (claimed_by pairing) (with_claim attempt (fingerprint attempt key label) id) db.(mobile_pairings))
    db.(mobile_rotations) db.(mobile_notifications)) i) as Hk.
  { intros i (d & Hd & Hi). exists d. split; [apply elem_of_app; by left|done]. }
  assert (∀ x, x ∈ db.(mobile_pairings) → claimed_by pairing x = true → x = q) as Hone.
  { intros x Hx E. apply (unique_eq pg_credential_hash db.(mobile_pairings)); [done..|]. apply bool_decide_eq_true in E. congruence. }
  split; cbn; try done.
  - apply unique_snoc; [done|]. intros d Hd. by apply Hnew.
  - apply unique_snoc; [done|]. intros d Hd. by apply Hnew.
  - by apply update_unique.
  - by apply update_unique.
  - intros d [Hd| ->%list_elem_of_singleton]%elem_of_app.
    + destruct (H8 d Hd) as (x & Hx & Hi & Hs). exists x. split; [|done]. apply update_elem. exists x. split; [done|].
      destruct (claimed_by pairing x) eqn:E; [|done]. rewrite (Hone x Hx E) in Hi. congruence.
    + eexists. split; [apply update_elem; exists q; split; [done|]; unfold claimed_by; by rewrite bool_decide_eq_true_2|done].
  - intros x (y & Hy & ->)%update_elem. destruct (claimed_by pairing y); exact (H9 y Hy).
  - intros x i (y & Hy & ->)%update_elem. destruct (claimed_by pairing y) eqn:E; [|intros Hi; by apply Hk, (H10 y)].
    intros [= <-]. eexists. split; [apply elem_of_app; right; by left|done].
  - intros x Hx. by apply Hk, H11.
  - intros x Hx. by apply Hk, H12.
  - unfold update. by rewrite length_fmap.
Qed.

Lemma rotated_unique db row hash e :
  mobile_ok db → row ∈ db.(mobile_devices) →
  (∀ x, x ∈ db.(mobile_devices) → x.(dv_key_hash) = hash → x.(dv_device_id) = row.(dv_device_id)) →
  unique dv_key_hash (update (named row.(dv_device_id)) (with_key hash e) db.(mobile_devices)).
Proof.
  intros Hok Hrow Hn. apply (unique_via dv_device_id); [apply update_unique; [done|apply Hok]|].
  intros x x' (r & Hr & ->)%update_elem (r' & Hr' & ->)%update_elem. unfold named.
  case_bool_decide as E; case_bool_decide as E'; cbn; intros Hk; [congruence|symmetry; rewrite E; by apply Hn|rewrite E'; by apply Hn|].
  by rewrite (unique_eq dv_key_hash _ r r' (mo_keys _ Hok) Hr Hr' Hk).
Qed.
Lemma renew_ok db old new request now : mobile_ok db → mobile_ok (renew db old new request now).1.
Proof.
  intros Hok. pose proof (renew_cases db old new request now) as H. destruct (renew _ _ _ _ _) as [db' r]. cbn.
  destruct H as [[-> _]|(d & row & Hrow & _ & _ & _ & _ & _ & Hl & Hfrom & Hn & _ & ->)]; [done|].
  pose proof (update_devices_ok (purge_rotations now db) (named row.(dv_device_id)) (with_key (hash_key new) (now + DEVICE_TTL))
    (purge_rotations_ok now db Hok)) as H.
  destruct H as [H1 H2 H3 H4 H5 H6 H7 H8 H9 H10 H11 H12 H13 H14]; [done|by apply (rotated_unique db)|].
  split; cbn in *; try done.
  - apply unique_snoc; [done|]. intros x [Hx _]%delete_elem. by apply Hfrom.
  - intros x [Hx| ->%list_elem_of_singleton]%elem_of_app; [by apply H11|].
    eexists. split; [apply update_elem; exists row; split; [done|]; unfold named; by rewrite bool_decide_eq_true_2|done].
  - rewrite length_app. cbn. lia.
Qed.
End MobileInvariant.
