(* ===== verification/MobileRuns.v ===== *)
(** * MobileRuns: the authorisations of the phones along the life of the daemon

    Any sequence of grants, claims, renewals, revocations and changes of
    notifications on empty tables: the invariant of the tables and their
    bounds, the end of a revoked device, the single use of a pairing, the
    number of active devices, and where an authority comes from. *)

From S2P Require Import Prelude Text Uuid Communication Sql SpawnCommands MobileDevices.
Local Open Scope Z_scope.

Inductive MobileOp :=
  | MIssue (scope : Scope) (now : Z) (id credential : string)
  | MPair (pairing attempt key label : string) (now : Z) (id : string)
  | MRevoke (id : string) (now : Z)
  | MRenew (old new request : string) (now : Z)
  | MNotify (device : string) (token : option string) (now : Z)
  | MForget (device token : string).

Section MobileRuns.
Context `{U : UuidLib} `{C : MobileCodec} {L : MobileLaws C}.

Definition mobile_step (db : MobileDb) (op : MobileOp) : MobileDb :=
  match op with
  | MIssue scope now id credential => (issue_pairing db scope now id credential).1
  | MPair pairing attempt key label now id => (pair_device db pairing attempt key label now id).1
  | MRevoke id now => (revoke db id now).1
  | MRenew old new request now => (renew db old new request now).1
  | MNotify device token now => (set_notifications db device token now).1
  | MForget device token => remove_notification_token db device token
  end.
Definition mobile_run (db : MobileDb) (ops : list MobileOp) : MobileDb := foldl mobile_step db ops.

Lemma forget_ok db device token : mobile_ok db → mobile_ok (remove_notification_token db device token).
Proof.
  intros Hok. apply set_tokens_ok; [done|apply delete_unique, Hok..|]. intros n [Hn _]%delete_elem. by apply Hok.
Qed.
Lemma notify_device_ok db device token now : mobile_ok db → mobile_ok (set_notifications db device token now).1.
Proof.
  intros Hok. destruct (notifications_cases db device token now) as [->|(l & -> & Hl)]; [done|]. destruct (Hl Hok) as (H1 & H2 & H3).
  by apply set_tokens_ok.
Qed.
Lemma mobile_step_ok db op : mobile_ok db → mobile_ok (mobile_step db op).
Proof using L.
  intros Hok. destruct op; cbn; eauto using issue_ok, pair_ok, revoke_ok, renew_ok, notify_device_ok, forget_ok.
Qed.
Lemma mobile_run_ok ops : ∀ db, mobile_ok db → mobile_ok (mobile_run db ops).
Proof using L. induction ops as [|op ops IH]; intros db Hok; [done|]. by apply IH, mobile_step_ok. Qed.

(** What a step does to the devices: it removes some, updates some, or adds one. *)
Lemma step_devices db op r :
  mobile_ok db → r ∈ (mobile_step db op).(mobile_devices) →
  r ∈ db.(mobile_devices) ∨
  (∃ x id now, op = MRevoke id now ∧ x ∈ db.(mobile_devices) ∧ x.(dv_device_id) = id ∧ r = with_revoked now x) ∨
  (∃ x old new request now, op = MRenew old new request now ∧ x ∈ db.(mobile_devices) ∧ is_active now x = true ∧
     r = with_key (hash_key new) (now + DEVICE_TTL) x) ∨
  ∃ pairing attempt key label now id q, op = MPair pairing attempt key label now id ∧ q ∈ db.(mobile_pairings) ∧
    r = mkDeviceRow id label q.(pg_scope) (hash_key key) now (now + DEVICE_TTL) None.
Proof using.
  intros Hok.
  destruct op as [scope now id credential|pairing attempt key label now id|id now|old new request now|device token now|device token]; cbn.
  - pose proof (issue_cases db scope now id credential) as H. destruct (issue_pairing _ _ _ _ _) as [db' x]. cbn.
    destruct H as [[-> _]|(_ & _ & _ & _ & _ & ->)]; [by left|]. intros [Hr _]%delete_elem. by left.
  - pose proof (pair_cases db pairing attempt key label now id) as H. destruct (pair_device _ _ _ _ _ _ _) as [db' x]. cbn.
    destruct H as [[-> _]|(q & scope & Hq & _ & _ & _ & _ & _ & _ & _ & _ & _ & ->)]; [by left|].
    intros [Hr|Hr]%elem_of_app; [by left|]. apply list_elem_of_singleton in Hr as ->. do 3 right. by exists pairing, attempt, key, label, now, id, q.
  - unfold revoke. destruct (_ || _); [by left|]. intros (x & Hx & ->)%update_elem. unfold named. case_bool_decide; [|by left].
    right; left. by exists x, id, now.
  - pose proof (renew_cases db old new request now) as H. destruct (renew _ _ _ _ _) as [db' x]. cbn.
    destruct H as [[-> _]|(d & row & Hrow & _ & _ & Ha & _ & _ & _ & _ & _ & _ & ->)]; [by left|].
    intros (y & Hy & ->)%update_elem. unfold named. case_bool_decide as E; [|by left]. right; right; left.
    rewrite (unique_eq dv_device_id _ y row (mo_ids _ Hok) Hy Hrow E). by exists row, old, new, request, now.
  - destruct (notifications_cases db device token now) as [->|(l & -> & _)]; by left.
  - by left.
Qed.

(** What it does to the pairings. *)
Lemma step_pairings db op q :
  q ∈ (mobile_step db op).(mobile_pairings) →
  q ∈ db.(mobile_pairings) ∨
  (∃ scope now id credential, op = MIssue scope now id credential ∧
     q = mkPairingRow id (hash_key credential) (scope_to_json scope) (now + PAIRING_TTL) None None None) ∨
  ∃ pairing attempt key label now id x, op = MPair pairing attempt key label now id ∧ x ∈ db.(mobile_pairings) ∧
    x.(pg_credential_hash) = hash_key pairing ∧ q = with_claim attempt (fingerprint attempt key label) id x ∧
    ∃ y, y ∈ db.(mobile_pairings) ∧ y.(pg_credential_hash) = hash_key pairing ∧ y.(pg_device_id) = None.
Proof using.
  destruct op as [scope now id credential|pairing attempt key label now id|id now|old new request now|device token now|device token]; cbn.
  - pose proof (issue_cases db scope now id credential) as H. destruct (issue_pairing _ _ _ _ _) as [db' x]. cbn.
    destruct H as [[-> _]|(_ & _ & _ & _ & _ & ->)]; [by left|]. intros [Hq|Hq]%elem_of_app.
    + left. by apply delete_elem in Hq as [[Hq _]%delete_elem _].
    + apply list_elem_of_singleton in Hq as ->. right; left. by exists scope, now, id, credential.
  - pose proof (pair_cases db pairing attempt key label now id) as H. destruct (pair_device _ _ _ _ _ _ _) as [db' x]. cbn.
    destruct H as [[-> _]|(y & scope & Hy & Hc & Hn & _ & _ & _ & _ & _ & _ & _ & ->)]; [by left|].
    intros (x' & Hx & ->)%update_elem. unfold claimed_by. case_bool_decide; [|by left]. right; right.
    exists pairing, attempt, key, label, now, id, x'. split_and!; try done. by exists y.
  - unfold revoke. destruct (_ || _); by left.
  - pose proof (renew_cases db old new request now) as H. destruct (renew _ _ _ _ _) as [db' x]. cbn.
    destruct H as [[-> _]|(d & row & _ & _ & _ & _ & _ & _ & _ & _ & _ & _ & ->)]; by left.
  - destruct (notifications_cases db device token now) as [->|(l & -> & _)]; by left.
  - by left.
Qed.

(** ** Revocation *)

Definition revoked_in (i : string) (db : MobileDb) : Prop :=
  ∀ r, r ∈ db.(mobile_devices) → r.(dv_device_id) = i → is_some r.(dv_revoked_at) = true.
(** The identifier of a new device is new. *)
Definition not_again (i : string) (op : MobileOp) : Prop := match op with MPair _ _ _ _ _ id => id ≠ i | _ => True end.

Lemma revoked_step i db op : mobile_ok db → not_again i op → revoked_in i db → revoked_in i (mobile_step db op).
Proof using.
  intros Hok Hop Hr r Hin Hi. apply step_devices in Hin; [|done].
  destruct Hin as [Hin|[(x & id & now & -> & Hx & _ & ->)|[(x & old & new & request & now & -> & Hx & _ & ->)|H]]]; [by apply Hr|done| |].
  - by apply (Hr x).
  - destruct H as (pairing & attempt & key & label & now & id & q & -> & _ & ->). done.
Qed.
Lemma revoked_run i ops : ∀ db, mobile_ok db → Forall (not_again i) ops → revoked_in i db → revoked_in i (mobile_run db ops).
Proof using L.
  induction ops as [|op ops IH]; intros db Hok Ha Hr; [done|]. apply Forall_cons in Ha as [Ha Has].
  apply IH; [by apply mobile_step_ok|done|by apply revoked_step].
Qed.
Lemma revoked_answers i p now db d : revoked_in i db → answers p now db d → d.(d_device_id) ≠ i.
Proof using.
  intros Hr (r & Hin & _ & Hd & Ha & _) E. rewrite (row_device_id _ _ Hd) in E. unfold is_active in Ha. by rewrite (Hr r Hin E) in Ha.
Qed.
Lemma authenticate_answers db key now d : authenticate db key now = Ok d → 0 ≤ now ∧ answers (keyed (hash_key key)) now db d.
Proof using. unfold authenticate. destruct (_ || _) eqn:E; [done|]. apply orb_false_iff in E as [_ E]. intros H%query_active. split; [lia|done]. Qed.
Lemma subject_answers db key now d : renewal_subject db key now = Ok d → ∃ p, answers p now db d.
Proof using.
  unfold renewal_subject. destruct (authenticate db key now) as [x|e] eqn:E.
  - intros [= <-]. apply authenticate_answers in E as [_ E]. eauto.
  - destruct e; try done. destruct (_ || _); [done|]. intros H%query_active. eauto.
Qed.

(** ** Notifications *)

Definition entitled (r : DeviceRow) : Prop := ∃ s, scope_from_json r.(dv_scope) = Some s ∧ wants_notifications s = true.
Lemma targets_of_spec l :
  (∀ x, x ∈ l → scope_ok x.1.(dv_scope)) →
  ∃ ts, targets_of l = Ok ts ∧ ∀ i token, (i, token) ∈ ts ↔ ∃ x, x ∈ l ∧ entitled x.1 ∧ x.1.(dv_device_id) = i ∧ x.2.(nt_token) = token.
Proof using.
  induction l as [|[r n] l IH]; intros Hok; cbn.
  - exists []. split; [done|]. intros i token. split; [by intros ?%elem_of_nil|by intros (x & ?%elem_of_nil & _)].
  - destruct IH as (ts & -> & Hts); [intros x Hx; apply Hok; by right|]. destruct (Hok (r, n)) as (s & Hs & _); [by left|].
    unfold row_device. cbn in Hs. rewrite Hs. cbn. eexists. split; [done|]. intros i token. destruct (wants_notifications s) eqn:Hw.
    + rewrite elem_of_cons, Hts. split.
      * intros [[= -> ->]|(x & Hx & H)]; [exists (r, n); split; [by left|]; split; [by exists s|done]|exists x; split; [by right|done]].
      * intros (x & [->|Hx]%elem_of_cons & He & <- & <-); [by left|right; by exists x].
    + rewrite Hts. split; intros (x & Hx & He & H); [exists x; split; [by right|done]|].
      apply elem_of_cons in Hx as [->|Hx]; [|by exists x]. destruct He as (s' & Hs' & Hw'). cbn in Hs'. congruence.
Qed.
Lemma joined_elem now db x :
  x ∈ joined now db ↔ x.1 ∈ db.(mobile_devices) ∧ is_active now x.1 = true ∧ x.2 ∈ db.(mobile_notifications) ∧
    x.2.(nt_device_id) = x.1.(dv_device_id).
Proof using.
  unfold joined. rewrite list_elem_of_bind. setoid_rewrite list_elem_of_fmap. setoid_rewrite select_elem. split.
  - intros (r & (n & -> & Hn & Hi) & Hr & Ha). apply bool_decide_eq_true in Hi. done.
  - destruct x as [r n]. cbn. intros (Hr & Ha & Hn & Hi). exists r. split; [|done]. exists n. split; [done|]. split; [done|].
    by apply bool_decide_eq_true.
Qed.
Lemma device_scope_ok db r : mobile_ok db → r ∈ db.(mobile_devices) → scope_ok r.(dv_scope).
Proof using. intros Hok Hr. destruct (mo_claimed _ Hok r Hr) as (q & Hq & _ & <-). by apply (mo_scopes _ Hok). Qed.
Lemma targets_spec now db :
  mobile_ok db →
  ∃ ts, notification_targets db now = Ok ts ∧
    ∀ i token, (i, token) ∈ ts ↔ ∃ x, x ∈ take 16 (joined now db) ∧ entitled x.1 ∧ x.1.(dv_device_id) = i ∧ x.2.(nt_token) = token.
Proof using.
  intros Hok. apply targets_of_spec. intros x Hx%subseteq_take. apply joined_elem in Hx as (Hr & _). by apply (device_scope_ok db).
Qed.

(** At most one row of the notifications per device: no more targets than active devices. *)
Lemma joined_length now db : mobile_ok db → (length (joined now db) ≤ updated (is_active now) db.(mobile_devices))%nat.
Proof using.
  intros Hok. unfold joined, updated, count_if, select. set (l := List.filter _ db.(mobile_devices)). clearbody l.
  induction l as [|r l IH]; cbn; [done|]. rewrite length_app, length_fmap.
  pose proof (unique_updated nt_device_id (λ n, bool_decide (n.(nt_device_id) = r.(dv_device_id))) _ (mo_targets _ Hok)) as H.
  unfold updated, count_if, select in *. ospecialize (H _); [|lia].
  intros n n' E E'. apply bool_decide_eq_true in E, E'. congruence.
Qed.

(** ** The number of active devices *)

Definition op_now (op : MobileOp) : option Z :=
  match op with
  | MIssue _ now _ _ | MPair _ _ _ _ now _ | MRevoke _ now | MRenew _ _ _ now | MNotify _ _ now => Some now
  | MForget _ _ => None
  end.
(** A clock that does not go back. *)
Fixpoint clocked (t : Z) (ops : list MobileOp) (last : Z) : Prop :=
  match ops with
  | [] => t ≤ last
  | op :: ops => t ≤ default t (op_now op) ∧ clocked (default t (op_now op)) ops last
  end.
Definition active_count (now : Z) (db : MobileDb) : nat := updated (is_active now) db.(mobile_devices).

Lemma active_later t now r : t ≤ now → is_active now r = true → is_active t r = true.
Proof using. unfold is_active. rewrite !andb_true_iff. intros Ht [-> H]. split; [done|lia]. Qed.
Lemma active_count_later t now db : t ≤ now → (active_count now db ≤ active_count t db)%nat.
Proof using. intros Ht. apply count_if_le. intros r _. by apply active_later. Qed.
Lemma active_step t db op :
  mobile_ok db → t ≤ default t (op_now op) → Z.of_nat (active_count t db) ≤ MAX_DEVICES →
  Z.of_nat (active_count (default t (op_now op)) (mobile_step db op)) ≤ MAX_DEVICES.
Proof using.
  intros Hok Ht Hc. pose proof (active_count_later t (default t (op_now op)) db Ht) as Hl.
  destruct op as [scope now id credential|pairing attempt key label now id|id now|old new request now|device token now|device token]; cbn in *.
  - pose proof (issue_cases db scope now id credential) as H. destruct (issue_pairing _ _ _ _ _) as [db' x]. cbn [fst].
    destruct H as [[-> _]|(_ & _ & _ & _ & _ & ->)]; [lia|]. unfold active_count, updated in *. cbn [set_pairings mobile_devices purged delete_devices].
    etrans; [apply inj_le, (delete_count _ (is_active now) db.(mobile_devices))|lia].
  - pose proof (pair_cases db pairing attempt key label now id) as H. destruct (pair_device _ _ _ _ _ _ _) as [db' x]. cbn.
    destruct H as [[-> _]|(q & scope & _ & _ & _ & _ & _ & _ & Hm & _ & _ & _ & ->)]; [lia|].
    unfold active_count, updated in *. cbn [mobile_devices]. rewrite count_if_app.
    pose proof (count_if_length (is_active now) [mkDeviceRow id label q.(pg_scope) (hash_key key) now (now + DEVICE_TTL) None]) as H1.
    cbn [length] in H1. lia.
  - unfold revoke. destruct (_ || _); [cbn; lia|]. unfold active_count, updated in *. cbn [fst mobile_devices].
    etrans; [apply inj_le, update_count|lia]. by intros r _ _.
  - pose proof (renew_cases db old new request now) as H. destruct (renew _ _ _ _ _) as [db' x]. cbn.
    destruct H as [[-> _]|(d & row & Hrow & _ & _ & Ha & _ & _ & _ & _ & _ & _ & ->)]; [lia|].
    unfold active_count, updated in *. cbn [mobile_devices]. etrans; [apply inj_le, update_count|lia]. intros r Hr E _.
    apply bool_decide_eq_true in E. by rewrite (unique_eq dv_device_id _ r row (mo_ids _ Hok) Hr Hrow E).
  - destruct (notifications_cases db device token now) as [->|(l & -> & _)]; [lia|].
    change (active_count now (set_tokens l db)) with (active_count now db). lia.
  - exact Hc.
Qed.
Lemma active_run ops : ∀ t db last,
  mobile_ok db → clocked t ops last → Z.of_nat (active_count t db) ≤ MAX_DEVICES →
  Z.of_nat (active_count last (mobile_run db ops)) ≤ MAX_DEVICES.
Proof using L.
  induction ops as [|op ops IH]; intros t db last Hok Hcl Hc; cbn in *; [pose proof (active_count_later t last db Hcl); lia|].
  destruct Hcl as [Ht Hcl]. eapply IH; [by apply mobile_step_ok|exact Hcl|by apply active_step].
Qed.

(** ** The claim of a pairing *)

Definition bound_to (h binding i : string) (db : MobileDb) : Prop :=
  ∀ q, q ∈ db.(mobile_pairings) → q.(pg_credential_hash) = h → q.(pg_binding_hash) = Some binding ∧ q.(pg_device_id) = Some i.
(** The credential of a grant is new. *)
Definition other_grant (h : string) (op : MobileOp) : Prop := match op with MIssue _ _ _ c => hash_key c ≠ h | _ => True end.

Lemma bound_step h b i db op : other_grant h op → bound_to h b i db → bound_to h b i (mobile_step db op).
Proof using.
  intros Hop Hb q Hq Hh. apply step_pairings in Hq as [Hq|[(scope & now & id & credential & -> & ->)|H]]; [by apply Hb|done|].
  destruct H as (pairing & attempt & key & label & now & id & x & -> & Hx & Hc & -> & y & Hy & Hc' & Hn). cbn in Hh.
  destruct (Hb y Hy) as [_ E]; congruence.
Qed.
Lemma bound_run h b i ops : ∀ db, Forall (other_grant h) ops → bound_to h b i db → bound_to h b i (mobile_run db ops).
Proof using.
  induction ops as [|op ops IH]; intros db Ho Hb; [done|]. apply Forall_cons in Ho as [Ho Hos]. apply IH; [done|by apply bound_step].
Qed.
Lemma pair_bound db pairing attempt key label now id d :
  mobile_ok db → (pair_device db pairing attempt key label now id).2 = Ok d →
  bound_to (hash_key pairing) (fingerprint attempt key label) d.(d_device_id) (pair_device db pairing attempt key label now id).1.
Proof using.
  intros Hok Hd. pose proof (pair_cases db pairing attempt key label now id) as H. destruct (pair_device _ _ _ _ _ _ _) as [db' r]. cbn in *.
  destruct H as [[-> H]|(q & scope & _ & _ & _ & _ & _ & _ & _ & _ & _ & -> & ->)].
  - destruct (H d Hd) as (q & i & Hq & Hc & Hi & Hb & _ & (x & Hx & [Hn _]%andb_true_iff & Hrow & _)).
    apply bool_decide_eq_true in Hn. rewrite (row_device_id _ _ Hrow), Hn. intros q' Hq' Hc'.
    by rewrite (unique_eq pg_credential_hash _ q' q (mo_credentials _ Hok) Hq' Hq) by congruence.
  - injection Hd as <-. intros q' (y & Hy & ->)%update_elem Hc. unfold claimed_by in *. case_bool_decide; done.
Qed.
Lemma bound_pair db pairing b i attempt key label now id :
  bound_to (hash_key pairing) b i db →
  (pair_device db pairing attempt key label now id).1 = db ∧
  ∀ d, (pair_device db pairing attempt key label now id).2 = Ok d → d.(d_device_id) = i ∧ fingerprint attempt key label = b.
Proof using.
  intros Hb. pose proof (pair_cases db pairing attempt key label now id) as H. destruct (pair_device _ _ _ _ _ _ _) as [db' r]. cbn.
  destruct H as [[-> H]|(q & scope & Hq & Hc & Hn & _)]; [|by destruct (Hb q Hq Hc); congruence].
  split; [done|]. intros d Hd. destruct (H d Hd) as (q & j & Hq & Hc & Hj & Hfp & _ & (x & Hx & [Hn _]%andb_true_iff & Hrow & _)).
  apply bool_decide_eq_true in Hn. rewrite (row_device_id _ _ Hrow), Hn. destruct (Hb q Hq Hc) as [E1 E2]. split; congruence.
Qed.

(** ** Where an authority comes from *)

Definition granted (ops : list MobileOp) (s : Scope) : Prop := ∃ now id c, MIssue s now id c ∈ ops.
(** The key was presented in a claim or as the new key of a renewal, at most thirty days before its end. *)
Definition presented (ops : list MobileOp) (key : string) (t : Z) : Prop :=
  (∃ p a l i, MPair p a key l t i ∈ ops) ∨ ∃ o q, MRenew o key q t ∈ ops.
Definition key_given (ops : list MobileOp) (h : string) (expires_at : Z) : Prop :=
  ∃ key t, hash_key key = h ∧ expires_at = t + DEVICE_TTL ∧ presented ops key t.
Definition sourced (ops : list MobileOp) (db : MobileDb) : Prop :=
  (∀ q, q ∈ db.(mobile_pairings) → ∃ s, scope_from_json q.(pg_scope) = Some s ∧ granted ops s) ∧
  (∀ r, r ∈ db.(mobile_devices) → key_given ops r.(dv_key_hash) r.(dv_expires_at)).

Lemma granted_more ops op s : granted ops s → granted (ops ++ [op]) s.
Proof using. intros (now & id & c & H). exists now, id, c. apply elem_of_app. by left. Qed.
Lemma given_more ops op h e : key_given ops h e → key_given (ops ++ [op]) h e.
Proof using.
  intros (key & t & Hk & He & H). exists key, t. split_and!; [done..|].
  destruct H as [(p & a & l & i & H)|(o & q & H)]; [left; exists p, a, l, i|right; exists o, q]; apply elem_of_app; by left.
Qed.
Lemma last_op {A} (l : list A) x : x ∈ l ++ [x].
Proof using. apply elem_of_app. right. by left. Qed.
Lemma sourced_step ops db op : mobile_ok db → sourced ops db → sourced (ops ++ [op]) (mobile_step db op).
Proof using L.
  intros Hok [H1 H2]. split.
  - intros q Hq. apply step_pairings in Hq as [Hq|[(scope & now & id & credential & -> & ->)|H]].
    + destruct (H1 q Hq) as (s & Hs & Hg). exists s. split; [done|by apply granted_more].
    + exists scope. split; [apply scope_roundtrip|]. exists now, id, credential. apply last_op.
    + destruct H as (pairing & attempt & key & label & now & id & x & -> & Hx & _ & -> & _).
      destruct (H1 x Hx) as (s & Hs & Hg). exists s. split; [done|by apply granted_more].
  - intros r Hr. apply step_devices in Hr; [|done].
    destruct Hr as [Hr|[(x & id & now & -> & Hx & _ & ->)|[(x & old & new & request & now & -> & Hx & _ & ->)|H]]].
    + by apply given_more, H2.
    + by apply given_more, (H2 x).
    + exists new, now. split_and!; [done..|]. right. exists old, request. apply last_op.
    + destruct H as (pairing & attempt & key & label & now & id & q & -> & _ & ->). exists key, now. split_and!; [done..|].
      left. exists pairing, attempt, label, id. apply last_op.
Qed.
Lemma sourced_run ops : ∀ pre db, mobile_ok db → sourced pre db → sourced (pre ++ ops) (mobile_run db ops).
Proof using L.
  induction ops as [|op ops IH]; intros pre db Hok Hs; [by rewrite app_nil_r|]. rewrite cons_middle, app_assoc.
  apply IH; [by apply mobile_step_ok|by apply sourced_step].
Qed.

(** The device that a query answers after a run. *)
Lemma answers_sourced ops p now d :
  answers p now (mobile_run empty_db ops) d →
  granted ops d.(d_scope) ∧ validate d.(d_scope) = Ok () ∧ d.(d_revoked_at) = None ∧
  ∃ r, p r = true ∧ ∃ key t, hash_key key = r.(dv_key_hash) ∧ presented ops key t ∧ now < t + DEVICE_TTL ∧ d.(d_expires_at) = t + DEVICE_TTL.
Proof using L.
  set (db := mobile_run empty_db ops). intros (r & Hr & Hk & Hd & Ha & Hv).
  assert (mobile_ok db) as Hok by apply mobile_run_ok, empty_mobile_ok.
  destruct (sourced_run ops [] empty_db empty_mobile_ok) as [H1 H2]; [by split; intros ? ?%elem_of_nil|].
  destruct (mo_claimed _ Hok r Hr) as (q & Hq & _ & Hs). destruct (H1 q Hq) as (s & Hs' & Hg). destruct (H2 r Hr) as (key & t & Hk' & He & Hp).
  unfold row_device in Hd. rewrite <-Hs, Hs' in Hd. injection Hd as <-. unfold is_active in Ha. apply andb_true_iff in Ha as [Ha1 Ha2]. cbn in *.
  split_and!; [done..|by destruct r.(dv_revoked_at)|]. exists r. split; [done|]. exists key, t. split_and!; [done|done|lia|done].
Qed.

(** ** Theorems *)

(** The tables of the phones are in order and bounded.  After any run the
    identifiers, the digests of keys and of credentials and the tokens are
    unique, each device comes from one pairing whose valid scope it has, what
    refers to a device refers to one of the table, and there are at most 256
    pairings, no more devices than pairings and at most 1024 rotations. *)
Lemma mobile_invariant ops :
  mobile_ok (mobile_run empty_db ops) ∧
  (length (mobile_run empty_db ops).(mobile_devices) ≤ length (mobile_run empty_db ops).(mobile_pairings))%nat.
Proof using L.
  assert (mobile_ok (mobile_run empty_db ops)) as H by apply mobile_run_ok, empty_mobile_ok. split; [done|by apply devices_bound].
Qed.

(** C19: a revocation is final.  Once a device was revoked, whatever happens next,
    no key gives it any more: not to authenticate, not as the subject of a
    renewal, not by a renewal nor its replay, not by the replay of its claim,
    and it receives no notification. *)
Theorem revocation_final ops i now later :
  valid_id i = true → 0 ≤ now → Forall (not_again i) later →
  let db := mobile_run (revoke (mobile_run empty_db ops) i now).1 later in
  (∀ key t d, authenticate db key t = Ok d → d.(d_device_id) ≠ i) ∧
  (∀ key t d, renewal_subject db key t = Ok d → d.(d_device_id) ≠ i) ∧
  (∀ old new request t d, (renew db old new request t).2 = Ok d → d.(d_device_id) ≠ i) ∧
  (∀ pairing attempt key label t id d, id ≠ i → (pair_device db pairing attempt key label t id).2 = Ok d → d.(d_device_id) ≠ i) ∧
  (∀ t ts token, notification_targets db t = Ok ts → (i, token) ∉ ts).
Proof using L.
  intros Hi Hn Hl db. assert (mobile_ok (mobile_run empty_db ops)) as Hok0 by apply mobile_run_ok, empty_mobile_ok.
  assert (revoked_in i (revoke (mobile_run empty_db ops) i now).1) as Hr0.
  { unfold revoke. rewrite Hi, (proj2 (Z.ltb_ge now 0)) by done. cbn. intros r (x & Hx & ->)%update_elem. unfold named.
    case_bool_decide; done. }
  assert (mobile_ok db) as Hok by by apply mobile_run_ok, revoke_ok. assert (revoked_in i db) as Hr by (apply revoked_run; [by apply revoke_ok|done..]).
  split_and!.
  - intros key t d [_ Hd]%authenticate_answers. by eapply revoked_answers.
  - intros key t d [p Hd]%subject_answers. by eapply revoked_answers.
  - intros old new request t d Hd. pose proof (renew_cases db old new request t) as H. destruct (renew _ _ _ _ _) as [db' r]. cbn in Hd.
    destruct H as [[_ H]|(x & row & Hrow & _ & Hx & Ha & _ & _ & _ & _ & _ & -> & _)]; [destruct (H d Hd) as [p Hp]; by eapply revoked_answers|].
    injection Hd as <-. cbn. rewrite (row_device_id _ _ Hx). intros E. unfold is_active in Ha. by rewrite (Hr row Hrow E) in Ha.
  - intros pairing attempt key label t id d Hne Hd. pose proof (pair_cases db pairing attempt key label t id) as H.
    destruct (pair_device _ _ _ _ _ _ _) as [db' r]. cbn in Hd.
    destruct H as [[_ H]|(q & scope & _ & _ & _ & _ & _ & _ & _ & _ & _ & -> & _)]; [|by injection Hd as <-].
    destruct (H d Hd) as (q & j & _ & _ & _ & _ & _ & Ha). by eapply revoked_answers.
  - intros t ts token Hts Hin. destruct (targets_spec t db Hok) as (ts' & Hts' & Hspec). rewrite Hts in Hts'. injection Hts' as <-.
    apply Hspec in Hin as (x & Hx%subseteq_take & _ & E & _). apply joined_elem in Hx as (Hx & Ha & _). unfold is_active in Ha.
    by rewrite (Hr x.1 Hx E) in Ha.
Qed.

(** C29: a pairing is used once.  After a claim answered a device, whatever happens
    next as long as its credential is not granted again, a claim of the same
    pairing changes nothing, and only a claim with the same digest of its
    attempt, its key and its label is answered, with the same device. *)
Theorem pairing_used_once ops pairing attempt key label now id d later :
  let db := mobile_run empty_db ops in
  (pair_device db pairing attempt key label now id).2 = Ok d → Forall (other_grant (hash_key pairing)) later →
  let db' := mobile_run (pair_device db pairing attempt key label now id).1 later in
  ∀ attempt' key' label' now' id',
    (pair_device db' pairing attempt' key' label' now' id').1 = db' ∧
    ∀ d', (pair_device db' pairing attempt' key' label' now' id').2 = Ok d' →
      d'.(d_device_id) = d.(d_device_id) ∧ fingerprint attempt' key' label' = fingerprint attempt key label.
Proof using L.
  intros db Hd Hl db' attempt' key' label' now' id'. apply bound_pair, bound_run; [done|]. apply pair_bound; [|done].
  apply mobile_run_ok, empty_mobile_ok.
Qed.

(** At most sixteen devices are active, and the limit of the notifications
    hides none.  When the clock does not go back, at the end of any run at most
    sixteen devices are active, and the targets of a notification are all the
    active devices that have a token and the rights to read. *)
Lemma active_devices_bounded ops t last :
  clocked t ops last →
  let db := mobile_run empty_db ops in
  Z.of_nat (active_count last db) ≤ MAX_DEVICES ∧
  ∃ ts, notification_targets db last = Ok ts ∧
    ∀ i token, (i, token) ∈ ts ↔
      ∃ r n, r ∈ db.(mobile_devices) ∧ is_active last r = true ∧ entitled r ∧ r.(dv_device_id) = i ∧
        n ∈ db.(mobile_notifications) ∧ n.(nt_device_id) = i ∧ n.(nt_token) = token.
Proof using L.
  intros Hcl db. assert (mobile_ok db) as Hok by apply mobile_run_ok, empty_mobile_ok.
  assert (Z.of_nat (active_count last db) ≤ MAX_DEVICES) as Hc by (eapply active_run; [apply empty_mobile_ok|done|done]).
  split; [done|]. destruct (targets_spec last db Hok) as (ts & Hts & Hspec). exists ts. split; [done|]. intros i token. rewrite Hspec.
  rewrite take_ge by (etrans; [by apply joined_length|]; unfold active_count, MAX_DEVICES in Hc; lia). split.
  - intros ([r n] & (Hr & Ha & Hn & Hni)%joined_elem & He & <- & <-). by exists r, n.
  - intros (r & n & Hr & Ha & He & <- & Hn & Hni & <-). exists (r, n). split; [by apply joined_elem|done].
Qed.

(** No authority without a grant.  A device that a key authenticates has a
    valid scope that was granted in the run, exactly; its key was presented in a
    claim or as the new key of a renewal, at most thirty days ago; it is not
    revoked. *)
Lemma authority_granted ops key now d :
  let db := mobile_run empty_db ops in
  authenticate db key now = Ok d →
  granted ops d.(d_scope) ∧ validate d.(d_scope) = Ok () ∧ d.(d_revoked_at) = None ∧
  ∃ key' t, hash_key key' = hash_key key ∧ presented ops key' t ∧ now < t + DEVICE_TTL ∧ d.(d_expires_at) = t + DEVICE_TTL.
Proof using L.
  intros db [_ Ha]%authenticate_answers. destruct (answers_sourced ops _ _ _ Ha) as (H1 & H2 & H3 & r & Hk & key' & t & Hk' & Hp & Ht & He).
  apply bool_decide_eq_true in Hk. split_and!; [done..|]. exists key', t. by rewrite Hk', Hk.
Qed.
End MobileRuns.

(** ** Examples *)

Module MobileExamples.
#[local] Existing Instance Canonical.lib.

#[local] Instance project_countable : Countable CommunicationProject.
Proof. apply (inj_countable' (λ p, (p.(host), p.(root))) (λ p, mkProject p.1 p.2)). by intros []. Defined.
Definition ALL_RIGHTS : list MobileRight :=
  [RightRead; RightMessage; RightTaskRead; RightTaskCreate; RightTaskContinue; RightTaskCancel; RightTaskRespond; RightDevicesManage;
   RightSpecialistsManage].
Fixpoint rank (o : MobileRight) (l : list MobileRight) : nat :=
  match l with [] => O | x :: l => if bool_decide (x = o) then O else S (rank o l) end.
#[local] Instance right_countable : Countable MobileRight.
Proof. apply (inj_countable (λ o, rank o ALL_RIGHTS) (λ n, ALL_RIGHTS !! n)). by intros []. Defined.
#[local] Instance scope_countable : Countable Scope.
Proof.
  apply (inj_countable' (λ s, (s.(sc_all_machines), s.(sc_machines), s.(sc_all_projects), s.(sc_projects), s.(sc_operations)))
           (λ '(a, b, c, d, e), mkScope a b c d e)). by intros [].
Defined.
(** A digest that changes nothing. *)
Definition mobile_codec : MobileCodec := {|
  sha256_hex s := s;
  scope_to_json s := bits (encode s);
  scope_from_json s := countable.decode (of_bits s);
  binding_json a k l := a +:+ "," +:+ k +:+ "," +:+ l |}.
#[local] Existing Instance mobile_codec.
#[local] Instance mobile_laws : MobileLaws mobile_codec.
Proof. split. intros s. cbn. rewrite of_bits_bits. apply decode_encode. Qed.

Fixpoint rep (n : nat) (s : string) : string := match n with O => "" | S n => s +:+ rep n s end.
Definition reader : Scope := mkScope true [] true [] [RightRead; RightTaskRead; RightTaskRespond].
Definition uuid1 : string := "11111111-1111-4111-8111-111111111111".
Definition uuid2 : string := "22222222-2222-4222-8222-222222222222".
Definition token1 : string := rep 20 "t".
Definition claim (now : Z) (id : string) : MobileOp := MPair (rep 64 "c") uuid2 (rep 64 "a") "phone" now id.
Definition phone : list MobileOp := [MIssue reader 100 "p" (rep 64 "c"); claim 110 uuid1; MNotify uuid1 (Some token1) 120].

Lemma phone_claimed : (pair_device (mobile_run empty_db [MIssue reader 100 "p" (rep 64 "c")]) (rep 64 "c") uuid2 (rep 64 "a") "phone" 110 uuid1).2
  = Ok (mkDevice uuid1 "phone" reader 110 (110 + DEVICE_TTL) None).
Proof. vm_compute. reflexivity. Qed.
Lemma phone_authenticates : authenticate (mobile_run empty_db phone) (rep 64 "a") 200 = Ok (mkDevice uuid1 "phone" reader 110 (110 + DEVICE_TTL) None).
Proof. vm_compute. reflexivity. Qed.
Lemma phone_notified : notification_targets (mobile_run empty_db phone) 200 = Ok [(uuid1, token1)].
Proof. vm_compute. reflexivity. Qed.

Lemma mobile_invariant_witness : mobile_ok (mobile_run empty_db phone).
Proof. apply (mobile_invariant phone). Defined.
Lemma revocation_final_witness :
  authenticate (mobile_run empty_db phone) (rep 64 "a") 200 = Ok (mkDevice uuid1 "phone" reader 110 (110 + DEVICE_TTL) None) ∧
  ∀ key t d, authenticate (mobile_run (revoke (mobile_run empty_db phone) uuid1 300).1 [claim 310 uuid2]) key t = Ok d → d.(d_device_id) ≠ uuid1.
Proof.
  split; [apply phone_authenticates|].
  apply (revocation_final phone uuid1 300 [claim 310 uuid2]); [vm_compute; reflexivity|lia|repeat constructor; discriminate].
Defined.
Lemma pairing_used_once_witness :
  (pair_device (mobile_run empty_db phone) (rep 64 "c") uuid2 (rep 64 "b") "other" 130 uuid2).1 = mobile_run empty_db phone.
Proof.
  refine (proj1 (pairing_used_once [MIssue reader 100 "p" (rep 64 "c")] (rep 64 "c") uuid2 (rep 64 "a") "phone" 110 uuid1 _
    [MNotify uuid1 (Some token1) 120] phone_claimed _ uuid2 (rep 64 "b") "other" 130 uuid2)).
  repeat constructor.
Defined.
Lemma active_devices_bounded_witness : Z.of_nat (active_count 200 (mobile_run empty_db phone)) ≤ MAX_DEVICES.
Proof. apply (active_devices_bounded phone 0 200). cbn. lia. Defined.
Lemma authority_granted_witness : granted phone reader.
Proof. apply (authority_granted phone (rep 64 "a") 200 _ phone_authenticates). Defined.
End MobileExamples.
