(* ===== verification/MobileQuestions.v ===== *)
(** * MobileQuestions: the inbox of the human on a phone, [bridget-daemon/src/daemon/mobile_questions.rs]

    A phone reads the open items by pages, shows one, answers one, and asks for
    the receipt of an answer.  The device is authenticated before the operation
    and again after it (see [MobileDevices]); an answer is a decision of
    [HumanInbox] whose actor is the device and its command.  The JSON of the
    projections and of the cursors goes through [QuestionCodec]; the requests of
    the native children are an argument.  The operations on the forms of the
    agents ([handle_user_input]) are in [PhoneInputs]. *)

From Stdlib Require Import Ascii.
From S2P Require Import Prelude Text Uuid Communication Sql SpawnCommands HumanInbox InboxRuns MobileDevices MobileRuns.
Local Open Scope Z_scope.

(** What a child says of its request: its item, the state of its delivery. *)
Record ChildDelivery := mkChild { ch_inbox_item_id : option string; ch_delivery_state : string }.
Record Application := mkApplication { ap_producer_acknowledged : bool; ap_confirmed : option bool; ap_state : string }.
Record Question := mkQuestion {
  qu_item_id : string; qu_kind : HumanInboxKind; qu_subject : HumanInboxSubject; qu_summary : string; qu_facts : string;
  qu_quoted_untrusted : option string; qu_options : list string; qu_state : HumanInboxState; qu_created_at : Z;
  qu_resolved_at : option Z; qu_acked_at : option Z; qu_decision : option (string * string * Z); qu_can_respond : bool;
  qu_application : Application }.
Record QuestionReceiptFrame := mkReceipt {
  rc_command_id : string; rc_item_id : string; rc_decision_id : string; rc_choice : string; rc_state : HumanInboxState;
  rc_acked_at : option Z; rc_application : Application }.

Inductive QuestionOperation :=
  | Questions (after : option string) (limit : Z)
  | QuestionShow (item_id : string)
  | QuestionRespond (device_id command_id item_id choice : string)
  | QuestionReceipt (device_id command_id item_id choice : string)
  | OtherOperation.
Inductive QuestionReply :=
  | QuestionRefused (code : string)
  | QuestionPage (items : list Question) (next_cursor : option string)
  | QuestionItem (item : Question)
  | QuestionReceipted (r : QuestionReceiptFrame).

(** The ["facts"] of a context as JSON, its quoted text, the JSON of a cursor, the bytes of a projection. *)
Class QuestionCodec := {
  context_facts : string → string;
  context_quoted : string → option string;
  cursor_to_json : Z * string → string;
  cursor_from_json : string → option (Z * string);
  question_size : Question → Z }.
Class QuestionLaws (C : QuestionCodec) := {
  cursor_roundtrip c : i64_min ≤ c.1 ≤ i64_max → cursor_from_json (cursor_to_json c) = Some c;
  cursor_short c : String.length c.2 = 36%nat → i64_min ≤ c.1 ≤ i64_max → Z.of_nat (String.length (cursor_to_json c)) ≤ 256 }.

Section Questions.
Context `{U : UuidLib} `{C : InboxCodec} `{Q : QuestionCodec}.
(** [get_child_request] of the store of the delegations. *)
Context (child : string → result string (option ChildDelivery)).

Definition respond_actor (device id : string) : string := "mobile177:respond:" +:+ device +:+ ":" +:+ id.

Definition application (item : HumanInboxItemFrame) : result string Application :=
  '(confirmed, state) ←
    match Str.strip_prefix "native-child-request:" item.(it_dedup_key) with
    | Some id =>
      row ← map_err (λ _, "storage_unavailable") (child id);
      row ← ok_or (r ← row; then_some (bool_decide (r.(ch_inbox_item_id) = Some item.(it_id))) r) "question_unavailable";
      let state := row.(ch_delivery_state) in
      Ok (if bool_decide (state = "delivered") then (Some true, "delivered")
          else if bool_decide (state = "void") then (Some false, "not_applied")
          else if bool_decide (state = "unknown") then (None, "unknown")
          else if bool_decide (state = "pending") || bool_decide (state = "sent") then (None, "pending")
          else (None, "not_confirmed"))
    | None => Ok (None, "not_confirmed")
    end;
  Ok (mkApplication (is_some item.(it_acked_at)) confirmed state).

Definition projection (item : HumanInboxItemFrame) (respond : bool) : result string Question :=
  if (MAX_CONTEXT_BYTES <? String.length item.(it_context))%nat || (32 <? length item.(it_options))%nat
     || existsb (λ s, 1024 <? Z.of_nat (String.length s)) item.(it_options)
  then Err "resource_limit"
  else
    let summary := (channel_summary item 0 false).(cs_summary) in
    let facts := context_facts item.(it_context) in
    if 4096 <? Z.of_nat (String.length facts) then Err "resource_limit"
    else
      let quoted := Str.chars_take 2048 <$> context_quoted item.(it_context) in
      a ← application item;
      Ok (mkQuestion item.(it_id) item.(it_kind) item.(it_subject) summary facts quoted item.(it_options) item.(it_state)
            item.(it_created_at) item.(it_resolved_at) item.(it_acked_at)
            ((λ d, (d.(de_id), d.(de_choice), d.(de_at))) <$> item.(it_decision))
            (respond && bool_decide (item.(it_state) = StateOpen)) a).

(** *** Pages *)

Definition PAGE_BUDGET : Z := 128 * 1024 - 4096.
(** The items that fit; the place of the last one, and whether some are left. *)
Fixpoint fill_page (respond : bool) (limit count bytes : Z) (last : option (Z * string)) (rows : list HumanInboxItemFrame)
    : result string (list Question * option (Z * string) * bool) :=
  match rows with
  | [] => Ok ([], last, false)
  | item :: rows =>
    value ← projection item respond;
    let len := question_size value in
    if (limit <=? count) || (PAGE_BUDGET <? bytes + len) then Ok ([], last, true)
    else
      '(items, last, more) ← fill_page respond limit (count + 1) (bytes + len) (Some (item.(it_created_at), item.(it_id))) rows;
      Ok (value :: items, last, more)
  end.
Definition cursor_of (after : option string) : option (option (Z * string)) :=
  match after with
  | None => Some None
  | Some s =>
    c ← cursor_from_json s;
    then_some ((0 <=? c.1) && valid_id c.2) (Some c)
  end.
Definition questions_page (t : list InboxRow) (respond : bool) (after : option string) (limit : Z) : QuestionReply :=
  if negb ((1 <=? limit) && (limit <=? 50))
     || match after with Some s => 2048 <? Z.of_nat (String.length s) | None => false end
  then QuestionRefused "invalid_request"
  else
    match cursor_of after with
    | None => QuestionRefused "invalid_request"
    | Some cursor =>
      match fill_page respond limit 0 1024 None (list_open_page t (limit + 1) cursor) with
      | Err code => QuestionRefused code
      | Ok (items, last, more) => QuestionPage items (if more then cursor_to_json <$> last else None)
      end
    end.

(** *** Answers *)

Definition question_receipt (item : HumanInboxItemFrame) (command : string) : QuestionReply :=
  match item.(it_decision) with
  | None => QuestionRefused "question_unavailable"
  | Some d =>
    match application item with
    | Err code => QuestionRefused code
    | Ok a => QuestionReceipted (mkReceipt command item.(it_id) d.(de_id) d.(de_choice) item.(it_state) item.(it_acked_at) a)
    end
  end.
Definition refusal_code (r : HumanInboxRefusal) : string :=
  match r with
  | AlreadyResolved => "question_already_resolved"
  | ChoiceNotOffered => "choice_not_offered"
  | UnknownItem => "not_found"
  | _ => "question_unavailable"
  end.
(** [device] is the device that was authenticated; [uuid] the fresh identifier of the decision. *)
Definition question_answer (t : list InboxRow) (device : string) (answering : bool) (device_id command_id item_id choice uuid : string) (now : Z)
    : list InboxRow * QuestionReply :=
  if negb (bool_decide (device_id = device)) then (t, QuestionRefused "command_origin_changed")
  else if negb (valid_id command_id) || negb (valid_id item_id) || bool_decide (choice = "") || (1024 <? Z.of_nat (String.length choice))
  then (t, QuestionRefused "invalid_request")
  else
    let actor := respond_actor device command_id in
    match find_decision_by_actor t actor with
    | Err _ => (t, QuestionRefused "storage_unavailable")
    | Ok (Some item) =>
      (t,
       if negb (bool_decide (item.(it_id) = item_id)) || negb (bool_decide (de_choice <$> item.(it_decision) = Some choice))
       then QuestionRefused "envelope_mismatch" else question_receipt item command_id)
    | Ok None =>
      if negb answering then (t, QuestionRefused "not_found")
      else
        let '(t', r) := resolve t item_id choice actor uuid now in
        (t', match r with
             | Ok (Ok item) => question_receipt item command_id
             | Ok (Err reason) => QuestionRefused (refusal_code reason)
             | Err _ => QuestionRefused "storage_unavailable"
             end)
    end.

(** *** The handler *)

Definition is_answer (op : QuestionOperation) : bool := match op with QuestionRespond _ _ _ _ | QuestionReceipt _ _ _ _ => true | _ => false end.
(** [before] and [after] are the answers of the authentication before and after the operation. *)
Definition handle_question (t : list InboxRow) (before after : result MobileError Device) (op : QuestionOperation) (uuid : string) (now : Z)
    : list InboxRow * QuestionReply :=
  match before with
  | Err e => (t, QuestionRefused (store_error_code e))
  | Ok device =>
    if negb (permits_federation device.(d_scope) (if is_answer op then RightTaskRespond else RightTaskRead))
    then (t, QuestionRefused "forbidden_scope")
    else
      let respond := permits_federation device.(d_scope) RightTaskRespond in
      let '(t', result) :=
        match op with
        | Questions after limit => (t, questions_page t respond after limit)
        | QuestionShow item_id =>
          (t, if negb (valid_id item_id) then QuestionRefused "invalid_request"
              else match get t item_id with
                   | Some item => match projection item respond with Ok v => QuestionItem v | Err code => QuestionRefused code end
                   | None => QuestionRefused "not_found"
                   end)
        | QuestionRespond device_id command_id item_id choice =>
          question_answer t device.(d_device_id) true device_id command_id item_id choice uuid now
        | QuestionReceipt device_id command_id item_id choice =>
          question_answer t device.(d_device_id) false device_id command_id item_id choice uuid now
        | OtherOperation => (t, QuestionRefused "invalid_request")
        end in
      (t', match after with Err e => QuestionRefused (store_error_code e) | Ok _ => result end)
  end.
End Questions.

(** ** The pages of the open items *)

Lemma older_total a b : created_before a b = false → created_before b a = true.
Proof. apply (stamp_total (a.(ib_created_at), a.(ib_id)) (b.(ib_created_at), b.(ib_id))). Qed.
Lemma older_trans a b c : created_before a b = true → created_before b c = true → created_before a c = true.
Proof. apply (stamp_trans (a.(ib_created_at), a.(ib_id)) (b.(ib_created_at), b.(ib_id)) (c.(ib_created_at), c.(ib_id))). Qed.
Lemma older_antisym a b : created_before a b = true → created_before b a = true → a.(ib_id) = b.(ib_id).
Proof. intros H1 H2. by injection (stamp_antisym (a.(ib_created_at), a.(ib_id)) (b.(ib_created_at), b.(ib_id)) H1 H2). Qed.
Lemma page_after_older x r : page_after (Some (x.(ib_created_at), x.(ib_id))) r = negb (created_before x r).
Proof.
  unfold page_after, created_before. cbn. rewrite string_ltb_leb, Z.eqb_sym, negb_orb, negb_andb.
  destruct (Z.ltb_spec r.(ib_created_at) x.(ib_created_at)), (Z.ltb_spec x.(ib_created_at) r.(ib_created_at)),
    (Z.eqb_spec x.(ib_created_at) r.(ib_created_at)); cbn; try lia; done.
Qed.

(** The open items, the newest first. *)
Definition newest (a b : InboxRow) : bool := created_before b a.
Definition sorted_open (t : list InboxRow) : list InboxRow := sort_by newest (select is_open t).
Lemma sorted_open_sorted t : StronglySorted (λ a b, newest a b = true) (sorted_open t).
Proof.
  apply Sorted_StronglySorted; [intros a b c H1 H2; by eapply older_trans|]. apply sort_by_sorted. intros a b. apply older_total.
Qed.
Lemma sorted_open_elem t r : r ∈ sorted_open t ↔ r ∈ t ∧ is_open r = true.
Proof. unfold sorted_open. rewrite sort_by_perm. apply select_elem. Qed.

(** The rows after the last one of a page are those that the next page starts with. *)
Lemma page_rest t pre x rest :
  unique ib_id t → sorted_open t = pre ++ x :: rest →
  sort_by newest (select (λ r, is_open r && page_after (Some (x.(ib_created_at), x.(ib_id))) r) t) = rest.
Proof.
  intros Hu E. pose proof (sorted_open_sorted t) as Hs. rewrite E in Hs.
  assert (∀ r r', r ∈ pre ++ x :: rest → r' ∈ pre ++ x :: rest → r.(ib_id) = r'.(ib_id) → r = r') as Hone.
  { intros r r' Hr Hr'. rewrite <-E, sorted_open_elem in Hr, Hr'. apply (unique_eq ib_id t); naive_solver. }
  assert (NoDup (pre ++ x :: rest)) as Hnd.
  { rewrite <-E. unfold sorted_open. rewrite sort_by_perm. eapply NoDup_fmap_1, (unique_select ib_id), Hu. }
  rewrite select_and. apply sort_by_unique.
  - intros a b. apply older_total.
  - intros a b c H1 H2. by eapply older_trans.
  - intros a b Ha Hb H1 H2. apply Hone; [set_solver..|]. by apply older_antisym.
  - unfold select at 1. etrans; [apply list_filter_perm; symmetry; apply (sort_by_perm newest)|]. fold (sorted_open t).
    rewrite E, List.filter_app. cbn [List.filter].
    rewrite list_filter_nil, page_after_older.
    + destruct (created_before x x) eqn:Ex; [|by rewrite (older_total x x Ex) in Ex]. cbn. rewrite list_filter_all; [done|].
      intros y Hy. rewrite page_after_older. apply negb_true_iff, not_true_iff_false. intros Hxy.
      apply StronglySorted_app_1_r, StronglySorted_inv in Hs as [_ Hs]. rewrite Forall_forall in Hs. specialize (Hs y Hy).
      assert (x = y) as <- by (apply Hone; [set_solver..|by apply older_antisym]).
      apply NoDup_app in Hnd as (_ & _ & Hnd). by apply NoDup_cons in Hnd as [? _].
    + intros y Hy. rewrite page_after_older. apply negb_false_iff. apply (StronglySorted_app_1_elem_of _ pre (x :: rest) y x Hs Hy). by left.
  - apply StronglySorted_Sorted. apply StronglySorted_app_1_r in Hs. by apply StronglySorted_inv in Hs as [? _].
Qed.

Section Pages.
Context `{U : UuidLib} {UL : UuidLaws U} `{C : InboxCodec} `{Q : QuestionCodec} {QL : QuestionLaws Q}.
Context (child : string → result string (option ChildDelivery)).

(** The phone follows the cursors until there is none. *)
Fixpoint read_pages (fuel : nat) (t : list InboxRow) (respond : bool) (limit : Z) (after : option string) : option (list Question) :=
  match fuel with
  | O => None
  | S fuel =>
    match questions_page child t respond after limit with
    | QuestionPage items None => Some items
    | QuestionPage items (Some next) => l ← read_pages fuel t respond limit (Some next); Some (items ++ l)
    | _ => None
    end
  end.

Definition projects (respond : bool) (r : InboxRow) (v : Question) : Prop := projection child (row_to_frame r) respond = Ok v.
(** An item that a page can hold. *)
Definition shown (respond : bool) (r : InboxRow) : Prop :=
  ∃ v, projects respond r v ∧ 1024 + question_size v ≤ PAGE_BUDGET.

Lemma fill_spec respond limit l : ∀ count bytes place,
  (∀ r, r ∈ l → shown respond r) → count ≤ limit →
  ∃ items l1 l2, l = l1 ++ l2 ∧ Forall2 (projects respond) l1 items ∧ Z.of_nat (length l1) ≤ limit - count ∧
    (count < limit → bytes ≤ 1024 → l ≠ [] → l1 ≠ []) ∧
    fill_page child respond limit count bytes place (row_to_frame <$> l) =
      Ok (items, match last l1 with Some r => Some (r.(ib_created_at), r.(ib_id)) | None => place end, negb (bool_decide (length l2 = O))).
Proof.
  induction l as [|r l IH]; intros count bytes place Hok Hc; cbn.
  - exists [], [], []. split_and!; [done|constructor|cbn; lia|done|done].
  - destruct (Hok r) as (v & Hv & Hsize); [by left|]. unfold projects in Hv. rewrite Hv. cbn. destruct (_ || _) eqn:Hfull.
    + exists [], [], (r :: l). split_and!; [done|constructor|cbn; lia| |done].
      intros Hlt Hb _. apply orb_true_iff in Hfull as [Hf|Hf]; lia.
    + apply orb_false_iff in Hfull as [Hf _].
      destruct (IH (count + 1) (bytes + question_size v) (Some (r.(ib_created_at), r.(ib_id)))) as (items & l1 & l2 & -> & Hp & Hl & _ & Hfill);
        [intros x Hx; apply Hok; by right|lia|].
      exists (v :: items), (r :: l1), l2. split_and!; [done|by constructor|cbn [length]; lia|done|]. cbn in Hfill. rewrite Hfill. cbn.
      do 2 f_equal. f_equal. destruct l1 as [|y l1]; [done|]. rewrite last_cons_cons. by destruct (last (y :: l1)) eqn:E; [|by apply last_None in E].
Qed.

(** A row whose place is a cursor that a phone can send back. *)
Definition placed (r : InboxRow) : Prop := valid_id r.(ib_id) = true ∧ 0 ≤ r.(ib_created_at) ≤ i64_max.
Lemma placed_cursor r :
  placed r →
  Z.of_nat (String.length (cursor_to_json (r.(ib_created_at), r.(ib_id)))) ≤ 2048 ∧
  cursor_of (Some (cursor_to_json (r.(ib_created_at), r.(ib_id)))) = Some (Some (r.(ib_created_at), r.(ib_id))).
Proof using UL QL.
  intros [Hid Hc]. split.
  - transitivity 256; [|lia]. apply cursor_short; cbn; [|unfold i64_min, i64_max in *; lia]. unfold valid_id in Hid. destruct (parse_str _) as [u|] eqn:Hu; [|done].
    apply andb_true_iff in Hid as [Hid _]. apply bool_decide_eq_true in Hid. rewrite <-Hid. by apply (hyphenated_length r.(ib_id)).
  - unfold cursor_of. rewrite cursor_roundtrip by (cbn; unfold i64_min, i64_max in *; lia). cbn. by rewrite Hid, (proj2 (Z.leb_le _ _)) by lia.
Qed.

(** The rows that the query of a page reads. *)
Lemma page_rows t pre rest after limit :
  unique ib_id t → 1 ≤ limit ≤ 50 → sorted_open t = pre ++ rest →
  after = (λ r, (r.(ib_created_at), r.(ib_id))) <$> last pre →
  list_open_page t (limit + 1) after = row_to_frame <$> take (Z.to_nat (limit + 1)) rest.
Proof using.
  intros Hu Hl E ->. unfold list_open_page. fold newest. assert (clamp 1 51 (limit + 1) = limit + 1) as -> by (unfold clamp; lia).
  do 2 f_equal. destruct (last pre) as [x|] eqn:Hx; cbn [fmap option_fmap option_map].
  - apply last_Some in Hx as [pre' ->]. rewrite <-app_assoc in E. by eapply page_rest.
  - apply last_None in Hx as ->. cbn in E. rewrite <-E. unfold sorted_open. f_equal. apply List.filter_ext. intros r. cbn. by rewrite andb_true_r.
Qed.

Lemma read_pages_spec fuel t respond limit : ∀ pre rest,
  unique ib_id t → 1 ≤ limit ≤ 50 → (∀ r, r ∈ sorted_open t → placed r ∧ shown respond r) →
  sorted_open t = pre ++ rest → (length rest < fuel)%nat →
  ∃ items, read_pages fuel t respond limit ((λ r, cursor_to_json (r.(ib_created_at), r.(ib_id))) <$> last pre) = Some items ∧
    Forall2 (projects respond) rest items.
Proof using UL QL.
  induction fuel as [|fuel IH]; intros pre rest Hu Hl Hok E Hf; [lia|]. cbn [read_pages].
  destruct (fill_spec respond limit (take (Z.to_nat (limit + 1)) rest) 0 1024 None) as (items & l1 & l2 & El & Hp & Hlen & Hne & Hfill); [|lia|].
  { intros r Hr%subseteq_take. apply Hok. rewrite E. set_solver. }
  assert (questions_page child t respond ((λ r, cursor_to_json (r.(ib_created_at), r.(ib_id))) <$> last pre) limit =
    QuestionPage items (if negb (bool_decide (length l2 = O)) then cursor_to_json <$> ((λ r, (r.(ib_created_at), r.(ib_id))) <$> last l1) else None)) as ->.
  { unfold questions_page. assert (cursor_of ((λ r, cursor_to_json (r.(ib_created_at), r.(ib_id))) <$> last pre) =
      Some ((λ r, (r.(ib_created_at), r.(ib_id))) <$> last pre) ∧
      match (λ r, cursor_to_json (r.(ib_created_at), r.(ib_id))) <$> last pre with Some s => 2048 <? Z.of_nat (String.length s) | None => false end = false) as [-> ->].
    { destruct (last pre) as [x|] eqn:Hx; cbn [fmap option_fmap option_map]; [|done]. apply last_Some in Hx as [pre' ->].
      destruct (placed_cursor x) as [H1 ->]; [apply Hok; rewrite E; set_solver|]. split; [done|lia]. }
    replace (1 <=? limit) with true by lia. replace (limit <=? 50) with true by lia. cbn [andb negb orb].
    rewrite (page_rows t pre rest) by done. rewrite Hfill. by destruct (last l1). }
  set (n := Z.to_nat (limit + 1)) in *. rewrite <-(take_drop n rest) in Hf |- *. rewrite El in Hf |- *. clear Hfill.
  destruct l2 as [|y l2]; cbn [length].
  - assert (drop n rest = []) as ->.
    { apply drop_ge. assert (length (take n rest) = length l1) as Hn by (by rewrite El, app_nil_r). rewrite length_take in Hn. lia. }
    rewrite !app_nil_r. by exists items.
  - rewrite bool_decide_eq_false_2 by done. cbn [negb]. destruct l1 as [|x l1] using rev_ind; [by destruct Hne; [lia..|by rewrite El|]|].
    rewrite last_snoc. cbn [fmap option_fmap option_map]. clear IHl1.
    destruct (IH (pre ++ l1 ++ [x]) ((y :: l2) ++ drop n rest)) as (items' & Hr & Hp'); [done..| | |].
    + rewrite E. rewrite <-(take_drop n rest) at 1. rewrite El. by rewrite <-!app_assoc.
    + rewrite !length_app in *. cbn [length] in *. lia.
    + rewrite app_assoc, last_snoc in Hr. cbn [fmap option_fmap option_map] in Hr. rewrite Hr. exists (items ++ items'). split; [done|].
      rewrite <-app_assoc. by apply Forall2_app.
Qed.

(** C28: a phone reads every open item once, when each open item can be shown, that
    is when its projection is accepted and fits a page by itself, for any limit
    from 1 to 50.  A phone that follows the cursors of the pages, from the first
    one until there is none, then obtains the projections of all the open items,
    each once, the newest first and by identifiers when the dates are equal; it
    needs at most one page per open item and one more. *)
Theorem question_pages_complete t respond limit :
  unique ib_id t → 1 ≤ limit ≤ 50 → (∀ r, r ∈ t → is_open r = true → placed r ∧ shown respond r) →
  ∃ items, read_pages (S (length (select is_open t))) t respond limit None = Some items ∧
    Forall2 (projects respond) (sorted_open t) items ∧
    sorted_open t ≡ₚ select is_open t ∧ StronglySorted (λ a b, newest a b = true) (sorted_open t).
Proof using UL QL.
  intros Hu Hl Hok. destruct (read_pages_spec (S (length (select is_open t))) t respond limit [] (sorted_open t)) as (items & H1 & H2); [done..| |done| |].
  - intros r [Hr Ho]%sorted_open_elem. by apply Hok.
  - unfold sorted_open. rewrite sort_by_perm. lia.
  - exists items. split_and!; [done..|apply sort_by_perm|apply sorted_open_sorted].
Qed.
End Pages.

(** ** The answers *)

Section Answers.
Context `{U : UuidLib} `{C : InboxCodec} {L : InboxLaws C}.
Context (push : HumanChannelConfig → ChannelSummary → result string ()).

(** The only decision of an actor. *)
Definition acted (t : list InboxRow) (actor item : string) (d : HumanInboxDecision) : Prop :=
  d.(de_actor) = actor ∧ (∃ x, decided t item d x) ∧
  ∀ y d', y ∈ t → y.(ib_decision_json) = Some (decision_to_json d') → d'.(de_actor) = actor → y.(ib_id) = item.
Definition other_actor (actor : string) (op : InboxOp) : Prop := match op with OResolve _ _ a _ _ => a ≠ actor | _ => True end.

Lemma row_decision r j : row_ok r → r.(ib_decision_json) = Some j → ∃ d, j = decision_to_json d.
Proof using.
  intros Hr Hj. pose proof (decided_resolved _ _ Hr Hj) as Hres. destruct (resolved_decision _ Hr Hres) as (d & Hd & _).
  exists d. congruence.
Qed.
Lemma decision_to_json_inj d d' : decision_to_json d = decision_to_json d' → d = d'.
Proof using L. intros E%(f_equal decision_from_json). rewrite !decision_roundtrip in E. by injection E. Qed.

Lemma acted_step t op actor item d :
  inbox_ok t → other_actor actor op → acted t actor item d → op_fresh t op → acted (inbox_step push t op) actor item d.
Proof using L.
  intros Hok Hop (Ha & (x & Hx) & Hone) Hf. split_and!; [done| |].
  - destruct (decided_later t (inbox_step push t op) item d x Hok (inbox_step_later push t op Hok) Hx) as (x' & Hx' & _). by exists x'.
  - intros y d' Hy Hd' Ha'. apply (decisions_step push t op y _ Hok Hy) in Hd'.
    destruct Hd' as [(z & Hz & <- & Hd)|(i & choice & a & uuid & now & -> & E)]; [by apply (Hone z d')|].
    apply decision_to_json_inj in E as ->. done.
Qed.
Lemma acted_run ops actor item d : ∀ t,
  inbox_ok t → run_fresh push t ops → Forall (other_actor actor) ops → acted t actor item d → acted (inbox_run push t ops) actor item d.
Proof using L.
  induction ops as [|op ops IH]; intros t Hok Hf Ho Ha; [done|]. destruct Hf as [Hf Hfs]. apply Forall_cons in Ho as [Ho Hos].
  apply IH; [by apply inbox_step_ok|done..|by apply acted_step].
Qed.

(** The rows whose decision has this actor. *)
Definition by_actor (actor : string) (r : InboxRow) : bool :=
  match r.(ib_decision_json) with Some j => bool_decide (decision_json_actor j = Ok (Some actor)) | None => false end.
Lemma extracting_spec actor t : (∀ r, r ∈ t → row_ok r) → extracting decision_json_actor actor t = Ok (select (by_actor actor) t).
Proof using L.
  induction t as [|r t IH]; intros Hok; [done|]. cbn. rewrite IH by (intros x Hx; apply Hok; by right). unfold by_actor.
  destruct r.(ib_decision_json) as [j|] eqn:Hj; [|done]. destruct (row_decision r j) as [d ->]; [apply Hok; by left|done|].
  rewrite decision_actor_extracted. cbn. destruct (decide (d.(de_actor) = actor)) as [->|Hn]; [by rewrite !bool_decide_eq_true_2|].
  by rewrite !bool_decide_eq_false_2 by congruence.
Qed.
Lemma by_actor_elem actor t y d :
  y.(ib_decision_json) = Some (decision_to_json d) → y ∈ t → d.(de_actor) = actor → y ∈ select (by_actor actor) t.
Proof using L.
  intros Hd Hy Ha. apply select_elem. split; [done|]. unfold by_actor. rewrite Hd, decision_actor_extracted. apply bool_decide_eq_true. congruence.
Qed.

Lemma acted_find t actor item d x :
  inbox_ok t → acted t actor item d → decided t item d x → find_decision_by_actor t actor = Ok (Some (row_to_frame x)).
Proof using L.
  intros Hok (Ha & _ & Hone) (Hin & Hid & Hd). unfold find_decision_by_actor. rewrite extracting_spec by apply Hok. cbn.
  assert (x ∈ select (by_actor actor) t) as Hx by by apply (by_actor_elem actor t x d).
  assert (∀ y, y ∈ select (by_actor actor) t → y = x) as Hall.
  { intros y [Hy Hb]%select_elem. apply (unique_eq ib_id t); [apply Hok|done..|]. unfold by_actor in Hb.
    destruct y.(ib_decision_json) as [j|] eqn:Hj; [|done]. destruct (row_decision y j (io_rows _ Hok y Hy) Hj) as [d' ->].
    rewrite decision_actor_extracted in Hb. apply bool_decide_eq_true in Hb. rewrite Hid. apply (Hone y d'); [done..|congruence]. }
  pose proof (unique_select ib_id (by_actor actor) t (io_ids _ Hok)) as Hu.
  destruct (select (by_actor actor) t) as [|a [|b l]]; [by apply elem_of_nil in Hx|by rewrite (Hall a) by left|].
  exfalso. unfold unique in Hu. cbn in Hu. apply NoDup_cons in Hu as [Hn _]. apply Hn. rewrite (Hall a), (Hall b) by set_solver. left.
Qed.
Lemma find_acted t actor f :
  inbox_ok t → find_decision_by_actor t actor = Ok (Some f) → ∃ d x, acted t actor f.(it_id) d ∧ decided t f.(it_id) d x ∧ f = row_to_frame x.
Proof using L.
  intros Hok. unfold find_decision_by_actor. rewrite extracting_spec by apply Hok. cbn.
  destruct (select (by_actor actor) t) as [|x [|z l]] eqn:Hs; cbn; [done| |done]. intros [= <-].
  assert (x ∈ select (by_actor actor) t) as [Hx Hb]%select_elem by (rewrite Hs; by left). unfold by_actor in Hb.
  destruct x.(ib_decision_json) as [j|] eqn:Hj; [|done]. destruct (row_decision x j (io_rows _ Hok x Hx) Hj) as [d ->].
  rewrite decision_actor_extracted in Hb. apply bool_decide_eq_true in Hb. exists d, x. split_and!; [|done|done]. split_and!; [congruence|by exists x|].
  intros y d' Hy Hd' Ha'. pose proof (by_actor_elem actor t y d' Hd' Hy Ha') as Hin. rewrite Hs in Hin. by apply list_elem_of_singleton in Hin as ->.
Qed.
Lemma find_none t actor y d :
  inbox_ok t → find_decision_by_actor t actor = Ok None → y ∈ t → y.(ib_decision_json) = Some (decision_to_json d) → d.(de_actor) ≠ actor.
Proof using L.
  intros Hok. unfold find_decision_by_actor. rewrite extracting_spec by apply Hok. cbn.
  destruct (select (by_actor actor) t) as [|x [|z l]] eqn:Hs; cbn; [|done..]. intros _ Hy Hd Ha. pose proof (by_actor_elem actor t y d Hd Hy Ha) as Hin.
  rewrite Hs in Hin. by apply elem_of_nil in Hin.
Qed.

(** A decision of a new actor is its only one. *)
Lemma resolve_acted t item choice actor uuid now f :
  inbox_ok t → find_decision_by_actor t actor = Ok None → (resolve t item choice actor uuid now).2 = Ok (Ok f) →
  acted (resolve t item choice actor uuid now).1 actor item (mkDecision uuid choice actor now).
Proof using L.
  intros Hok Hnone Hr. split_and!; [done|by eapply resolve_decided|]. intros y d' Hy Hd' Ha.
  pose proof (resolve_cases t item choice actor uuid now Hok) as H. destruct (resolve _ _ _ _ _ _) as [t' r]. cbn in *.
  destruct H as [[_ H]|(x & o & f' & _ & _ & _ & _ & _ & -> & _)]; [by destruct (H f)|].
  apply update_elem in Hy as (z & Hz & ->). unfold has_id in *. case_bool_decide; [done|]. by destruct (find_none t actor z d' Hok Hnone Hz Hd').
Qed.

(** An answer that a phone can send. *)
Definition well_formed (command item choice : string) : Prop :=
  valid_id command = true ∧ valid_id item = true ∧ choice ≠ "" ∧ Z.of_nat (String.length choice) ≤ 1024.
Lemma well_formed_check command item choice :
  negb (valid_id command) || negb (valid_id item) || bool_decide (choice = "") || (1024 <? Z.of_nat (String.length choice)) = false ↔
  well_formed command item choice.
Proof using. unfold well_formed. rewrite !orb_false_iff, !negb_false_iff, bool_decide_eq_false, Z.ltb_ge. tauto. Qed.

Lemma receipted child f command r :
  question_receipt child f command = QuestionReceipted r →
  ∃ d, f.(it_decision) = Some d ∧ r.(rc_item_id) = f.(it_id) ∧ r.(rc_decision_id) = d.(de_id) ∧ r.(rc_choice) = d.(de_choice).
Proof using. unfold question_receipt. destruct f.(it_decision) as [d|]; [|done]. destruct (application child f); [|done]. intros [= <-]. by exists d. Qed.

(** An answer that has its receipt is the only decision of its command. *)
Lemma answer_acted child t device device_id command item choice uuid now t' r :
  inbox_ok t → fresh_decision t uuid →
  question_answer child t device true device_id command item choice uuid now = (t', QuestionReceipted r) →
  device_id = device ∧ well_formed command item choice ∧ inbox_ok t' ∧
  ∃ d, acted t' (respond_actor device command) item d ∧ d.(de_choice) = choice ∧ r.(rc_item_id) = item ∧ r.(rc_decision_id) = d.(de_id) ∧
    r.(rc_choice) = choice.
Proof using L.
  intros Hok Hf. unfold question_answer. destruct (bool_decide _) eqn:Hdev; [|done]. apply bool_decide_eq_true in Hdev. cbn [negb].
  destruct (_ || _) eqn:Hw; [done|]. apply well_formed_check in Hw. destruct (find_decision_by_actor t _) as [[f|]|] eqn:Hfind; [| |done].
  - destruct (_ || _) eqn:Hm; [done|]. intros [= <- Hr]. apply orb_false_iff in Hm as [H1 H2].
    rewrite negb_false_iff, bool_decide_eq_true in H1, H2. destruct (receipted _ _ _ _ Hr) as (d & Hd & E1 & E2 & E3).
    destruct (find_acted _ _ _ Hok Hfind) as (d' & x & Ha & Hx & ->). destruct (decided_frame _ _ _ _ Hok Hx) as [_ Hd'].
    rewrite Hd in Hd', H2. injection Hd' as <-. injection H2 as E. split_and!; [done..|]. exists d. rewrite <-H1. split_and!; congruence.
  - cbn [negb]. destruct (resolve t item choice _ uuid now) as [t1 res] eqn:Hres. intros [= <- Hr]. destruct res as [[f|]|]; [|done..].
    pose proof (resolve_acted t item choice (respond_actor device command) uuid now f Hok Hfind) as Ha. rewrite Hres in Ha. specialize (Ha eq_refl).
    pose proof (resolve_ok t item choice (respond_actor device command) uuid now Hok Hf) as Hok'. rewrite Hres in Hok'.
    pose proof (resolve_cases t item choice (respond_actor device command) uuid now Hok) as Hc. rewrite Hres in Hc.
    destruct Hc as [[_ Hc]|(x & o & f' & Hin & Hid & Ho & _ & _ & _ & [= <-] & ->)]; [by destruct (Hc f)|].
    destruct (receipted _ _ _ _ Hr) as (d & Hd & E1 & E2 & E3). cbn in Hd. rewrite decision_roundtrip in Hd. injection Hd as <-.
    split_and!; [done..|]. eexists. split_and!; [exact Ha|done|by rewrite E1|done|done].
Qed.

(** What the same command is answered from then on. *)
Lemma acted_answer child t device command item d answering item' choice' uuid now :
  inbox_ok t → acted t (respond_actor device command) item d → well_formed command item' choice' →
  ∃ f, get t item = Some f ∧ f.(it_decision) = Some d ∧
    question_answer child t device answering device command item' choice' uuid now =
      (t, if bool_decide (item' = item ∧ choice' = d.(de_choice)) then question_receipt child f command else QuestionRefused "envelope_mismatch").
Proof using L.
  intros Hok Ha Hw. pose proof Ha as (_ & (x & Hx) & _). exists (row_to_frame x). destruct (decided_frame _ _ _ _ Hok Hx) as [_ Hd].
  split_and!; [unfold get; by rewrite (decided_one _ _ _ _ Hok Hx)|done|]. unfold question_answer. rewrite bool_decide_eq_true_2 by done.
  cbn [negb]. rewrite (proj2 (well_formed_check _ _ _) Hw), (acted_find _ _ _ _ _ Hok Ha Hx), Hd.
  assert ((row_to_frame x).(it_id) = item) as -> by apply Hx. f_equal. cbn [fmap option_fmap option_map].
  destruct (decide (item' = item ∧ choice' = d.(de_choice))) as [[-> ->]|E]; [by rewrite !bool_decide_eq_true_2|].
  rewrite (bool_decide_eq_false_2 (item' = item ∧ _)) by done.
  destruct (negb (bool_decide (item = item')) || negb (bool_decide (Some d.(de_choice) = Some choice'))) eqn:Hm; [done|].
  apply orb_false_iff in Hm as [H1 H2]. rewrite negb_false_iff, bool_decide_eq_true in H1, H2. destruct E. split; congruence.
Qed.

(** C27: an answer of a phone is taken once.  Once a command of a device has its
    receipt, whatever the inbox does next: the command sent again changes
    nothing and is answered with the receipt of the same decision, unless the
    child it concerns can no longer be read, and the same command with another
    item or another choice is refused. *)
Theorem question_answered_once child ops device device_id command item choice uuid now t' r later :
  run_fresh push [] ops → fresh_decision (inbox_run push [] ops) uuid →
  question_answer child (inbox_run push [] ops) device true device_id command item choice uuid now = (t', QuestionReceipted r) →
  run_fresh push t' later → Forall (other_actor (respond_actor device command)) later →
  let t := inbox_run push t' later in
  ∃ f d, get t item = Some f ∧ f.(it_decision) = Some d ∧ d.(de_id) = r.(rc_decision_id) ∧ d.(de_choice) = choice ∧
    d.(de_actor) = respond_actor device command ∧
    ∀ child' answering item' choice' uuid' now', well_formed command item' choice' →
      question_answer child' t device answering device command item' choice' uuid' now' =
        (t, if bool_decide (item' = item ∧ choice' = choice) then question_receipt child' f command else QuestionRefused "envelope_mismatch").
Proof using L.
  intros Hf Hu Ha Hl Ho t. destruct (inbox_run_ok push ops [] empty_inbox_ok Hf) as [Hok _].
  destruct (answer_acted _ _ _ _ _ _ _ _ _ _ _ Hok Hu Ha) as (-> & Hw & Hok' & d & Hact & <- & _ & Hid & _).
  destruct (inbox_run_ok push later t' Hok' Hl) as [Hok2 _]. pose proof (acted_run later _ _ _ t' Hok' Hl Ho Hact) as Hact2. fold t in Hok2, Hact2.
  destruct (acted_answer child t device command item d true item d.(de_choice) uuid now Hok2 Hact2 Hw) as (f & Hg & Hd & _).
  exists f, d. split_and!; [done..|apply Hact|]. intros child' answering item' choice' uuid' now' Hw'.
  destruct (acted_answer child' t device command item d answering item' choice' uuid' now' Hok2 Hact2 Hw') as (f' & Hg' & _ & ->).
  by rewrite Hg in Hg'; injection Hg' as <-.
Qed.
End Answers.

(** ** The authority of an answer *)

Section Authority.
Context `{U : UuidLib} `{C : InboxCodec} `{Q : QuestionCodec} `{M : MobileCodec} {ML : MobileLaws M}.

Lemma answer_changes child t device answering device_id command item choice uuid now :
  (question_answer child t device answering device_id command item choice uuid now).1 = t ∨
  answering = true ∧ device_id = device ∧
  (question_answer child t device answering device_id command item choice uuid now).1 =
    (resolve t item choice (respond_actor device command) uuid now).1.
Proof using.
  unfold question_answer. destruct (bool_decide _) eqn:Hd; [|by left]. apply bool_decide_eq_true in Hd. cbn [negb].
  destruct (_ || _); [by left|]. destruct (find_decision_by_actor t _) as [[f|]|]; [by left| |by left].
  destruct answering; [|by left]. cbn [negb]. right. destruct (resolve _ _ _ _ _ _) as [t' r]. done.
Qed.

(** No decision of a phone without a grant.  An operation of a phone leaves
    the inbox as it was, or it is the answer of the authenticated device itself,
    decided in its name; then the device has the right to respond everywhere by
    a valid scope that was granted, it is not revoked, and its key was presented
    in a claim or in a renewal at most thirty days before. *)
Lemma answer_authority child ops key at_ t after op uuid now :
  let before := authenticate (mobile_run empty_db ops) key at_ in
  (handle_question child t before after op uuid now).1 = t ∨
  ∃ d command item choice, before = Ok d ∧ op = QuestionRespond d.(d_device_id) command item choice ∧
    (handle_question child t before after op uuid now).1 = (resolve t item choice (respond_actor d.(d_device_id) command) uuid now).1 ∧
    permits_federation d.(d_scope) RightTaskRespond = true ∧ granted ops d.(d_scope) ∧ validate d.(d_scope) = Ok () ∧
    d.(d_revoked_at) = None ∧
    ∃ key' t', hash_key key' = hash_key key ∧ presented ops key' t' ∧ at_ < t' + DEVICE_TTL.
Proof using ML.
  intros before. unfold handle_question. destruct before as [d|e] eqn:Hb; [|by left]. unfold before in Hb.
  destruct (negb _) eqn:Hp; [by left|]. apply negb_false_iff in Hp. destruct op as [a limit|i|dev command item choice|dev command item choice|]; try by left.
  - destruct (answer_changes child t d.(d_device_id) true dev command item choice uuid now) as [H|(_ & -> & H)];
      destruct (question_answer _ _ _ _ _ _ _ _ _ _) as [t1 r]; cbn in H |- *; subst t1; [by left|right].
    apply authenticate_answers in Hb as [_ Hb]. destruct (answers_sourced ops _ _ _ Hb) as (H1 & H2 & H3 & r0 & Hk & key' & t' & Hk' & Hpr & Ht & _).
    apply bool_decide_eq_true in Hk. exists d, command, item, choice. split_and!; [done..|]. exists key', t'. by rewrite Hk', Hk.
  - destruct (answer_changes child t d.(d_device_id) false dev command item choice uuid now) as [H|(H & _)]; [|done].
    destruct (question_answer _ _ _ _ _ _ _ _ _ _) as [t1 r]. cbn in H |- *. subst t1. by left.
Qed.
End Authority.

(** ** Examples *)

Module QuestionExamples.
Import InboxExamples MobileExamples.
#[local] Existing Instance Canonical.lib.
#[local] Existing Instance Canonical.laws.
#[local] Existing Instance inbox_codec.
#[local] Existing Instance inbox_laws.
#[local] Existing Instance mobile_codec.
#[local] Existing Instance mobile_laws.

Lemma bits_length n : ∀ p, Z.pos p < 2 ^ Z.of_nat n → (String.length (bits p) ≤ n)%nat.
Proof.
  induction n as [|n IH]; intros p Hp; [cbn in Hp; lia|]. rewrite Nat2Z.inj_succ, Z.pow_succ_r in Hp by lia.
  destruct p as [p|p|]; cbn; [assert (String.length (bits p) ≤ n)%nat by (apply IH; lia); lia..|lia].
Qed.
Lemma bits_split p s : Str.split_once ","%char (bits p +:+ "," +:+ s) = Some (bits p, s).
Proof. unfold String.app. induction p as [p IH|p IH|]; simpl; [by rewrite IH..|done]. Qed.

(** A cursor is the bits of its date and its identifier; an item is a page of a thousand bytes. *)
#[local] Instance questions : QuestionCodec := {|
  context_facts _ := "null";
  context_quoted _ := None;
  cursor_to_json c := bits (encode c.1) +:+ "," +:+ c.2;
  cursor_from_json s := '(a, b) ← Str.split_once ","%char s; z ← countable.decode (of_bits a); Some (z, b);
  question_size _ := 1000 |}.
#[local] Instance question_laws : QuestionLaws questions.
Proof.
  split; intros [z id]; cbn.
  - intros _. rewrite bits_split. cbn. by rewrite of_bits_bits, decode_encode.
  - intros Hid Hz. rewrite !Str.app_length. cbn. rewrite Hid.
    assert (String.length (bits (encode z)) ≤ 66)%nat; [|lia]. apply bits_length. unfold i64_min, i64_max in Hz. unfold encode, Z_countable. destruct z; lia.
Qed.

Definition orphan (_ : string) : result string (option ChildDelivery) := Ok None.
Definition asked_items : list InboxOp :=
  [ODeposit (asked "k" "{}" 100) uuid1 None; ODeposit (asked "l" "{}" 100) uuid2 None].
Definition items : list InboxRow := inbox_run quiet [] asked_items.

Lemma read_two_pages : length <$> read_pages orphan 3 items true 1 None = Some 2%nat.
Proof. vm_compute. reflexivity. Qed.
Lemma items_unique : unique ib_id items.
Proof. apply (inbox_run_ok quiet asked_items [] empty_inbox_ok). cbn. done. Qed.
Lemma question_pages_complete_witness :
  ∃ l, read_pages orphan (S (length (select is_open items))) items true 1 None = Some l ∧ Forall2 (projects orphan true) (sorted_open items) l.
Proof.
  edestruct (question_pages_complete orphan items true 1) as (l & H1 & H2 & _); [apply items_unique|lia| |by exists l].
  intros r Hr _. apply list_elem_of_In in Hr. vm_compute in Hr. destruct Hr as [<-|[<-|[]]].
  all: split; [split; [vm_compute; reflexivity|vm_compute; split; discriminate]|eexists; split; [vm_compute; reflexivity|vm_compute; discriminate]].
Defined.

Lemma phone_answers : ∃ t r, question_answer orphan items uuid1 true uuid1 uuid2 uuid1 "yes" "d1" 110 = (t, QuestionReceipted r).
Proof. do 2 eexists. vm_compute. reflexivity. Qed.
Lemma question_answered_once_witness :
  ∃ t f, get t uuid1 = Some f ∧ ∀ now,
    question_answer orphan t uuid1 false uuid1 uuid2 uuid1 "no" "d2" now = (t, QuestionRefused "envelope_mismatch").
Proof.
  destruct phone_answers as (t & r & H).
  destruct (question_answered_once quiet orphan asked_items uuid1 uuid1 uuid2 uuid1 "yes" "d1" 110 t r []) as (f & d & Hg & _ & _ & _ & _ & Hs);
    [done|apply undecided_fresh; vm_compute; reflexivity|exact H|done|constructor|].
  exists t, f. split; [exact Hg|]. intros now. etrans; [apply (Hs orphan false uuid1 "no" "d2" now)|done].
  split_and!; vm_compute; done.
Defined.
Lemma answer_authority_witness :
  ∃ d, authenticate (mobile_run empty_db phone) (rep 64 "a") 200 = Ok d ∧ granted phone d.(d_scope).
Proof.
  destruct (answer_authority orphan phone (rep 64 "a") 200 items (Ok (mkDevice uuid1 "phone" reader 110 (110 + DEVICE_TTL) None))
    (QuestionRespond uuid1 uuid2 uuid1 "yes") "d1" 210) as [H|(d & _ & _ & _ & Hb & _ & _ & _ & Hg & _)]; [|by exists d].
  exfalso. rewrite phone_authenticates in H. apply (f_equal (updated is_open)) in H. vm_compute in H. discriminate.
Defined.

(** An item with thirty-three options is accepted; it then hides every question of the phone. *)
Lemma blocked_page :
  let crowded := mkDeposit "m" BudgetReached default_subject "{}" (replicate 33 "yes") ProducerGuichet 120 in
  (deposit items crowded "i3").2 = Ok (Ok (mkDeposited "i3" true 1)) ∧
  questions_page orphan (deposit items crowded "i3").1 true None 50 = QuestionRefused "resource_limit".
Proof. split; vm_compute; reflexivity. Qed.
End QuestionExamples.
