(* ===== verification/Json.v ===== *)
(** * Json: the values of [serde_json]

    [Value] with the accesses that the code makes: [value["key"]] (null when
    the key is absent or the value is no object), [get], [as_str], [as_array],
    [as_object], [as_i64].  A map is ordered by its keys, so that two equal
    maps are the same list.  A number that is not an integer is its text. *)

From S2P Require Import Prelude Text.
Local Open Scope Z_scope.

#[warnings="-register-all"]
Inductive Value :=
  | VNull
  | VBool (b : bool)
  | VNum (z : Z)
  | VReal (text : string)
  | VString (s : string)
  | VArray (l : list Value)
  | VObject (l : list (string * Value)).

Fixpoint Value_eqb (a b : Value) : bool :=
  match a, b with
  | VNull, VNull => true
  | VBool x, VBool y => Bool.eqb x y
  | VNum x, VNum y => x =? y
  | VReal x, VReal y => String.eqb x y
  | VString x, VString y => String.eqb x y
  | VArray l, VArray l' =>
    (fix go (l l' : list Value) : bool :=
       match l, l' with
       | [], [] => true
       | x :: l, y :: l' => Value_eqb x y && go l l'
       | _, _ => false
       end) l l'
  | VObject l, VObject l' =>
    (fix go (l l' : list (string * Value)) : bool :=
       match l, l' with
       | [], [] => true
       | (k, x) :: l, (k', y) :: l' => String.eqb k k' && (Value_eqb x y && go l l')
       | _, _ => false
       end) l l'
  | _, _ => false
  end.

(** Induction through the arrays and the objects. *)
Section induction.
Context (P : Value → Prop) (Hnull : P VNull) (Hbool : ∀ b, P (VBool b)) (Hnum : ∀ z, P (VNum z)) (Hreal : ∀ s, P (VReal s))
  (Hstring : ∀ s, P (VString s)) (Harray : ∀ l, Forall P l → P (VArray l)) (Hobject : ∀ l, Forall (λ kv, P kv.2) l → P (VObject l)).
Fixpoint value_induction (v : Value) : P v :=
  match v with
  | VNull => Hnull
  | VBool b => Hbool b
  | VNum z => Hnum z
  | VReal s => Hreal s
  | VString s => Hstring s
  | VArray l =>
    Harray l ((fix go l : Forall P l := match l with [] => Forall_nil_2 _ | x :: l => Forall_cons_2 _ _ _ (value_induction x) (go l) end) l)
  | VObject l =>
    Hobject l ((fix go l : Forall (λ kv, P kv.2) l :=
                  match l with [] => Forall_nil_2 _ | kv :: l => Forall_cons_2 _ _ _ (value_induction kv.2) (go l) end) l)
  end.
End induction.

Lemma Value_eqb_eq a : ∀ b, Value_eqb a b = true ↔ a = b.
Proof.
  induction a as [|x|z|s|s|l IH|l IH] using value_induction; intros [|y|z'|s'|s'|l'|l']; cbn; try (split; [done|by intros [=]]).
  - rewrite Bool.eqb_true_iff. split; [by intros ->|by intros [=]].
  - rewrite Z.eqb_eq. split; [by intros ->|by intros [=]].
  - rewrite String.eqb_eq. split; [by intros ->|by intros [=]].
  - rewrite String.eqb_eq. split; [by intros ->|by intros [=]].
  - enough (∀ l', (fix go (l l' : list Value) : bool :=
       match l, l' with [], [] => true | x :: l, y :: l' => Value_eqb x y && go l l' | _, _ => false end) l l' = true ↔ l = l') as H.
    { rewrite H. split; [by intros ->|by intros [=]]. }
    clear l'. induction IH as [|x l Hx _ IHl]; intros [|y l']; [done|split; [done|by intros [=]]..|].
    rewrite andb_true_iff, Hx, IHl. split; [by intros [-> ->]|by intros [= -> ->]].
  - enough (∀ l', (fix go (l l' : list (string * Value)) : bool :=
       match l, l' with
       | [], [] => true | (k, x) :: l, (k', y) :: l' => String.eqb k k' && (Value_eqb x y && go l l') | _, _ => false end) l l' = true ↔ l = l') as H.
    { rewrite H. split; [by intros ->|by intros [=]]. }
    clear l'. induction IH as [|[k x] l Hx _ IHl]; intros [|[k' y] l']; [done|split; [done|by intros [=]]..|]. cbn in Hx.
    rewrite !andb_true_iff, String.eqb_eq, Hx, IHl. split; [by intros (-> & -> & ->)|by intros [= -> -> ->]].
Qed.
#[export] Instance Value_eq_dec : EqDecision Value.
Proof. intros a b. destruct (Value_eqb a b) eqn:E; [left; by apply Value_eqb_eq|right; intros H%Value_eqb_eq; congruence]. Defined.

(** ** Accesses *)

Definition as_str (v : Value) : option string := match v with VString s => Some s | _ => None end.
Definition as_bool (v : Value) : option bool := match v with VBool b => Some b | _ => None end.
Definition as_array (v : Value) : option (list Value) := match v with VArray l => Some l | _ => None end.
Definition as_object (v : Value) : option (list (string * Value)) := match v with VObject l => Some l | _ => None end.
Definition as_i64 (v : Value) : option Z := match v with VNum z => then_some (in_i64 z) z | _ => None end.
Definition as_u64 (v : Value) : option Z := match v with VNum z => then_some ((0 <=? z) && (z <=? u64_max)) z | _ => None end.
Definition map_get (key : string) (l : list (string * Value)) : option Value := snd <$> find_first (λ kv, bool_decide (kv.1 = key)) l.
Definition value_get (key : string) (v : Value) : option Value := as_object v ≫= map_get key.
(** [value[key]] *)
Definition index (v : Value) (key : string) : Value := default VNull (value_get key v).
(** [map.insert(key, value)] *)
Fixpoint map_insert (key : string) (v : Value) (l : list (string * Value)) : list (string * Value) :=
  match l with
  | [] => [(key, v)]
  | (k, x) :: l =>
    match String.compare key k with Lt => (key, v) :: (k, x) :: l | Eq => (key, v) :: l | Gt => (k, x) :: map_insert key v l end
  end.
Definition of_option_string (o : option string) : Value := match o with Some s => VString s | None => VNull end.

Lemma as_str_Some v s : as_str v = Some s ↔ v = VString s.
Proof. destruct v; cbn; split; by intros [=]; subst. Qed.
Lemma map_get_elem key l v : map_get key l = Some v → (key, v) ∈ l.
Proof.
  unfold map_get. destruct (find_first _ l) as [[k x]|] eqn:E; [|done]. intros [= <-]. apply find_first_Some in E as [Hin Hk].
  apply bool_decide_eq_true in Hk. cbn in *. by subst.
Qed.
Lemma map_get_insert key k v l : map_get key (map_insert k v l) = if decide (key = k) then Some v else map_get key l.
Proof.
  unfold map_get. induction l as [|[k' x] l IH]; cbn.
  - destruct (decide (key = k)) as [->|Hne]; [by rewrite bool_decide_eq_true_2|]. by rewrite bool_decide_eq_false_2.
  - destruct (String.compare k k') eqn:E; cbn.
    + apply String.compare_eq_iff in E as ->. destruct (decide (key = k')) as [->|Hne]; [by rewrite bool_decide_eq_true_2|].
      by rewrite !bool_decide_eq_false_2.
    + destruct (decide (key = k)) as [->|Hne]; [by rewrite bool_decide_eq_true_2|]. by rewrite (bool_decide_eq_false_2 (k = key)).
    + destruct (decide (k' = key)) as [->|Hne]; [|by rewrite !bool_decide_eq_false_2].
      rewrite !bool_decide_eq_true_2 by done. destruct (decide (key = k)) as [->|]; [|done].
      pose proof (String.compare_antisym k k) as H. rewrite E in H. done.
Qed.
