(* ===== verification/UserInputs.v ===== *)
(** * UserInputs: the questions of the agents to their user, [bridget-daemon/src/user_input.rs]

    An agent publishes a form of questions, a human answers it once, the agent
    acknowledges what it did with the answers; forms expire after seven days
    and their texts are then removed.  The JSON of a row is the record of its
    fields ([serde_json] gives back what it wrote); the texts of values, the
    digests and the versions of identifiers are arguments ([InputLib]).  The
    handler is [execute] of [daemon/user_input.rs] with the facts that it reads
    of the connections.  Dates are far from the bounds of 64 bits. *)

From S2P Require Import Prelude Text Uuid Sql Json.
Local Open Scope Z_scope.

Definition MAX_BYTES : Z := 64 * 1024.
Definition RETENTION : Z := 7 * 86400.

Class InputLib `{U : UuidLib} := {
  get_version_num : Uuid → Z;
  json_text : Value → string;
  digest_hex : string → string }.

(** ** Forms *)

Section Forms.
Context `{L : InputLib}.

Definition control_in_text (c : Z) : bool := TextGuards.is_control c && negb (c =? 10) && negb (c =? 9).
Definition text_ok (value : Value) (limit : Z) (empty : bool) : bool :=
  match as_str value with
  | Some s =>
    (Z.of_nat (String.length s) <=? limit) && (empty || negb (Str.is_blank s)) && negb (existsb control_in_text (Str.code_points s))
  | None => false
  end.
Definition fields_ok (value : Value) (allowed : list string) : bool :=
  match as_object value with Some l => forallb (λ kv, existsb (λ a, bool_decide (a = kv.1)) allowed) l | None => false end.
Definition input_uuid (id : string) : bool :=
  match parse_str id with
  | Some u => ((get_version_num u =? 4) || (get_version_num u =? 5)) && bool_decide (hyphenated u = id)
  | None => false
  end.
Definition encoded (value : Value) : result string string :=
  let s := json_text value in
  if MAX_BYTES <? Z.of_nat (String.length s) then Err "resource_limit" else Ok s.

(** [is_some_and] on the value of a key. *)
Definition key_bad (bad : Value → bool) (key : string) (v : Value) : bool := match value_get key v with Some x => bad x | None => false end.
Definition not_bool (v : Value) : bool := negb (is_some (as_bool v)).
Definition option_key (o : Value) : option string := as_str (default (index o "label") (value_get "value" o)).

Fixpoint check_options (values : list string) (l : list Value) : result string () :=
  match l with
  | [] => Ok ()
  | o :: l =>
    if negb (fields_ok o ["label"; "description"; "value"]) || negb (text_ok (index o "label") 4096 false)
       || key_bad (λ v, negb (text_ok v 8192 true)) "description" o || key_bad (λ v, negb (text_ok v 4096 false)) "value" o
    then Err "invalid_questions"
    else
      key ← ok_or (option_key o) "invalid_questions";
      if existsb (λ x, bool_decide (x = key)) values then Err "invalid_questions" else check_options (key :: values) l
  end.
Definition QUESTION_FIELDS : list string :=
  ["id"; "header"; "question"; "options"; "multiSelect"; "allowCustomAnswer"; "initialAnswer"; "required"].
Fixpoint check_items (ids : list string) (count : Z) (l : list Value) : result string () :=
  match l with
  | [] => Ok ()
  | item :: l =>
    if negb (fields_ok item QUESTION_FIELDS) || negb (text_ok (index item "id") 4096 false)
       || negb (text_ok (index item "header") 1024 false) || negb (text_ok (index item "question") 16384 false)
    then Err "invalid_questions"
    else
      id ← ok_or (as_str (index item "id")) "invalid_questions";
      if existsb (λ x, bool_decide (x = id)) ids || key_bad not_bool "multiSelect" item || key_bad not_bool "allowCustomAnswer" item
         || key_bad not_bool "required" item || key_bad (λ v, negb (text_ok v 10000 true)) "initialAnswer" item
      then Err "invalid_questions"
      else
        options ← ok_or (a ← as_array (index item "options"); then_some (length a <=? 32)%nat a) "invalid_questions";
        let count := count + Z.of_nat (length options) in
        if 64 <? count then Err "resource_limit"
        else
          _ ← check_options [] options;
          if bool_decide (options = []) && bool_decide (index item "allowCustomAnswer" = VBool false) then Err "invalid_questions"
          else check_items (id :: ids) count l
  end.
Definition validate_questions (questions : Value) : result string () :=
  _ ← encoded questions;
  q ← ok_or (a ← as_array questions; then_some (negb (bool_decide (a = [])) && (length a <=? 16)%nat) a) "invalid_questions";
  check_items [] (Z.of_nat (length q)) q.

Definition offered (question : Value) : list string := omap option_key (default [] (as_array (index question "options"))).
Fixpoint check_selected (allowed seen : list string) (l : list Value) : result string () :=
  match l with
  | [] => Ok ()
  | v :: l =>
    value ← ok_or (as_str v) "invalid_answer";
    if negb (existsb (λ x, bool_decide (x = value)) allowed) || existsb (λ x, bool_decide (x = value)) seen
    then Err "invalid_answer" else check_selected allowed (value :: seen) l
  end.
Definition check_answer (question : Value) (entries : list (string * Value)) : result string () :=
  id ← ok_or (as_str (index question "id")) "invalid_questions";
  answer ← ok_or (map_get id entries) "invalid_answer";
  if negb (fields_ok answer ["selected"; "text"]) || negb (text_ok (index answer "text") 10000 true) then Err "invalid_answer"
  else
    selected ← ok_or (as_array (index answer "selected")) "invalid_answer";
    body ← ok_or (as_str (index answer "text")) "invalid_answer";
    if (negb (bool_decide (index question "required" = VBool false)) && bool_decide (selected = []) && Str.is_blank body)
       || (negb (bool_decide (index question "multiSelect" = VBool true)) && (1 <? Z.of_nat (length selected)))
       || (bool_decide (index question "allowCustomAnswer" = VBool false) && negb (bool_decide (body = "")))
    then Err "invalid_answer"
    else
      _ ← ok_or (as_array (index question "options")) "invalid_questions";
      check_selected (offered question) [] selected.
Fixpoint check_answers (entries : list (string * Value)) (l : list Value) : result string () :=
  match l with [] => Ok () | q :: l => _ ← check_answer q entries; check_answers entries l end.
Definition validate_answers (questions answers : Value) : result string () :=
  _ ← validate_questions questions;
  e ← encoded answers;
  if 32 * 1024 <? Z.of_nat (String.length e) then Err "resource_limit"
  else
    entries ← ok_or (as_object answers) "invalid_answer";
    questions ← ok_or (as_array questions) "invalid_questions";
    if negb (length entries =? length questions)%nat then Err "invalid_answer" else check_answers entries questions.
End Forms.

(** ** The table *)

Record InputData := mkInputData {
  in_request_id : string; in_owner : string; in_instance : string; in_project : option string; in_origin : string;
  in_callback : option Value; in_revision : string; in_questions : option Value; in_state : string; in_created_at : Z; in_updated_at : Z;
  in_expires_at : Z; in_command_id : option string; in_actor : option string; in_answers : option Value }.
#[export] Instance InputData_eq_dec : EqDecision InputData.
Proof. solve_decision. Defined.
Record InputRow := mkInputRow {
  ui_id : string; ui_owner : string; ui_instance : string; ui_origin : string; ui_origin_ref : string; ui_state : string;
  ui_command_id : option string; ui_data : InputData; ui_created_at : Z; ui_updated_at : Z; ui_expires_at : Z }.

Definition with_input_state (state : string) (d : InputData) : InputData :=
  mkInputData d.(in_request_id) d.(in_owner) d.(in_instance) d.(in_project) d.(in_origin) d.(in_callback) d.(in_revision) d.(in_questions)
    state d.(in_created_at) d.(in_updated_at) d.(in_expires_at) d.(in_command_id) d.(in_actor) d.(in_answers).
Definition with_input_updated (state : string) (now : Z) (d : InputData) : InputData :=
  mkInputData d.(in_request_id) d.(in_owner) d.(in_instance) d.(in_project) d.(in_origin) d.(in_callback) d.(in_revision) d.(in_questions)
    state d.(in_created_at) now d.(in_expires_at) d.(in_command_id) d.(in_actor) d.(in_answers).
Definition with_answers (command actor : string) (answers : Value) (now : Z) (d : InputData) : InputData :=
  mkInputData d.(in_request_id) d.(in_owner) d.(in_instance) d.(in_project) d.(in_origin) d.(in_callback) d.(in_revision) d.(in_questions)
    "submitted" d.(in_created_at) now d.(in_expires_at) (Some command) (Some actor) (Some answers).
(** [json_remove] of the texts. *)
Definition scrubbed (d : InputData) : InputData :=
  mkInputData d.(in_request_id) d.(in_owner) d.(in_instance) d.(in_project) d.(in_origin) None d.(in_revision) None
    d.(in_state) d.(in_created_at) d.(in_updated_at) d.(in_expires_at) d.(in_command_id) None None.
Definition with_data (state : string) (d : InputData) (r : InputRow) : InputRow :=
  mkInputRow r.(ui_id) r.(ui_owner) r.(ui_instance) r.(ui_origin) r.(ui_origin_ref) state r.(ui_command_id) d r.(ui_created_at)
    r.(ui_updated_at) r.(ui_expires_at).
Definition with_finished (state : string) (d : InputData) (now : Z) (r : InputRow) : InputRow :=
  mkInputRow r.(ui_id) r.(ui_owner) r.(ui_instance) r.(ui_origin) r.(ui_origin_ref) state r.(ui_command_id) d r.(ui_created_at)
    now r.(ui_expires_at).
Definition with_submitted (command : string) (d : InputData) (now : Z) (r : InputRow) : InputRow :=
  mkInputRow r.(ui_id) r.(ui_owner) r.(ui_instance) r.(ui_origin) r.(ui_origin_ref) "submitted" (Some command) d r.(ui_created_at)
    now r.(ui_expires_at).

Definition active_state (s : string) : bool := existsb (λ x, bool_decide (x = s)) ["pending"; "submitted"; "unknown"].
Definition final_state (s : string) : bool :=
  existsb (λ x, bool_decide (x = s)) ["applied"; "resolved_elsewhere"; "expired"; "cancelled"; "closed"].
Definition input_active (r : InputRow) : bool := active_state r.(ui_state).
Definition input_named (id : string) (r : InputRow) : bool := bool_decide (r.(ui_id) = id).

Section Inputs.
Context `{L : InputLib}.

Definition get_input (t : list InputRow) (id : string) : option InputData := ui_data <$> select_one (input_named id) t.

Definition lapses (now : Z) (r : InputRow) : bool := (r.(ui_expires_at) <=? now) && bool_decide (r.(ui_state) = "pending").
Definition scrubs (now : Z) (r : InputRow) : bool :=
  (r.(ui_updated_at) <? now - RETENTION) && negb (input_active r) && is_some r.(ui_data).(in_questions).
Definition expire_inputs (t : list InputRow) (now : Z) : list InputRow :=
  update (scrubs now) (λ r, with_data r.(ui_state) (scrubbed r.(ui_data)) r)
    (update (lapses now) (λ r, with_data "expired" (with_input_state "expired" r.(ui_data)) r) t).

Definition new_input (id owner instance : string) (project : option string) (origin : string) (callback : Value) (revision : string)
    (questions : Value) (now : Z) : InputData :=
  mkInputData id owner instance project origin (Some callback) revision (Some questions) "pending" now now (now + RETENTION) None None None.

Definition create_input (t : list InputRow) (owner instance : string) (project : option string) (id : string) (questions : Value)
    (origin : string) (callback : Value) (now : Z) : list InputRow * result string InputData :=
  match
    _ ← validate_questions questions;
    if negb (input_uuid id) || bool_decide (owner = "") || bool_decide (instance = "")
       || negb (existsb (λ x, bool_decide (x = origin)) ["mcp"; "codex"; "claude"; "t3"])
    then Err "invalid_request"
    else
      c ← encoded callback;
      if 16384 <? Z.of_nat (String.length c) then Err "invalid_request"
      else q ← encoded questions; Ok (digest_hex q, if bool_decide (callback = VNull) then id else digest_hex c)
  with
  | Err e => (t, Err e)
  | Ok (revision, origin_ref) =>
    let t1 := expire_inputs t now in
    match get_input t1 id with
    | Some existing =>
      if negb (bool_decide (existing.(in_owner) = owner)) || negb (bool_decide (existing.(in_instance) = instance))
      then (t, Err "question_unavailable")
      else if existing.(in_expires_at) <=? now then (t, Err "idempotency_expired")
      else if negb (bool_decide (existing.(in_revision) = revision)) || negb (bool_decide (existing.(in_project) = project))
              || negb (bool_decide (existing.(in_origin) = origin)) || negb (bool_decide (default VNull existing.(in_callback) = callback))
      then (t, Err "envelope_mismatch")
      else (t1, Ok existing)
    | None =>
      if (32 <=? Z.of_nat (updated (λ r, bool_decide (r.(ui_owner) = owner) && input_active r) t1))
         || (2048 <=? Z.of_nat (updated input_active t1)) || (100000 <=? Z.of_nat (length t1))
      then (t, Err "resource_limit")
      else if exists_row (λ r, bool_decide ((r.(ui_owner), r.(ui_instance), r.(ui_origin), r.(ui_origin_ref)) = (owner, instance, origin, origin_ref))) t1
      then (t, Err "storage_unavailable")
      else
        let data := new_input id owner instance project origin callback revision questions now in
        (t1 ++ [mkInputRow id owner instance origin origin_ref "pending" None data now now (now + RETENTION)], Ok data)
    end
  end.

Definition respond_input (t : list InputRow) (id revision command actor : string) (answers : Value) (now : Z)
    : list InputRow * result string InputData :=
  if negb (input_uuid id) || negb (input_uuid command) || bool_decide (actor = "") then (t, Err "invalid_request")
  else
    match select_one (λ r, bool_decide (r.(ui_command_id) = Some command)) t with
    | Some prior =>
      (t,
       row ← ok_or (get_input t prior.(ui_id)) "storage_unavailable";
       if negb (bool_decide (prior.(ui_id) = id)) || negb (bool_decide (row.(in_actor) = Some actor))
          || negb (bool_decide (row.(in_revision) = revision)) || negb (bool_decide (default VNull row.(in_answers) = answers))
       then Err "envelope_mismatch"
       else if row.(in_expires_at) <=? now then Err "idempotency_expired"
       else Ok row)
    | None =>
      match
        row ← ok_or (get_input t id) "question_unavailable";
        if negb (bool_decide (row.(in_revision) = revision)) then Err "question_changed"
        else if row.(in_expires_at) <=? now then Err "question_expired"
        else if negb (bool_decide (row.(in_state) = "pending")) then Err "question_already_resolved"
        else _ ← validate_answers (default VNull row.(in_questions)) answers; Ok (with_answers command actor answers now row)
      with
      | Err e => (t, Err e)
      | Ok row =>
        let p r := input_named id r && bool_decide (r.(ui_state) = "pending") in
        if negb (updated p t =? 1)%nat then (t, Err "question_already_resolved")
        else (update p (with_submitted command row now) t, Ok row)
      end
    end.

Definition has_active (t : list InputRow) (now : Z) : bool :=
  exists_row (λ r, bool_decide (r.(ui_state) = "submitted") || bool_decide (r.(ui_state) = "unknown")
                   || (bool_decide (r.(ui_state) = "pending") && (now <? r.(ui_expires_at)))) t.
(** [ORDER BY created_at,id] *)
Definition input_order (a b : InputRow) : bool :=
  (a.(ui_created_at) <? b.(ui_created_at)) || ((a.(ui_created_at) =? b.(ui_created_at)) && String.leb a.(ui_id) b.(ui_id)).
Definition list_page_inputs (t : list InputRow) (after : option (Z * string)) (now limit : Z) : list InputRow * result string (list InputData) :=
  if negb ((1 <=? limit) && (limit <=? 100)) then (t, Err "invalid_request")
  else
    let t1 := expire_inputs t now in
    let a := default (-1, "") after in
    let later r := (a.1 <? r.(ui_created_at)) || ((r.(ui_created_at) =? a.1) && String.ltb a.2 r.(ui_id)) in
    (t1, Ok (ui_data <$> take (Z.to_nat limit) (sort_by input_order (select (λ r, input_active r && later r) t1)))).
Definition list_inputs (t : list InputRow) (owner : option string) (now limit : Z) : list InputRow * result string (list InputData) :=
  if negb ((1 <=? limit) && (limit <=? 100)) then (t, Err "invalid_request")
  else
    let t1 := expire_inputs t now in
    let mine r := is_none_or owner (λ o, bool_decide (r.(ui_owner) = o)) in
    (t1, Ok (ui_data <$> take (Z.to_nat limit) (sort_by input_order (select (λ r, mine r && input_active r) t1)))).

Definition finish_input (t : list InputRow) (id owner instance : string) (command : option string) (state : string) (now : Z)
    : list InputRow * result string InputData :=
  if negb (bool_decide (state = "unknown") || final_state state) then (t, Err "invalid_request")
  else
    match get_input t id with
    | None => (t, Err "question_unavailable")
    | Some row =>
      if negb (bool_decide (row.(in_owner) = owner)) || negb (bool_decide (row.(in_instance) = instance)) then (t, Err "question_unavailable")
      else if bool_decide (state = "applied")
              && (negb (is_some command) || negb (bool_decide (row.(in_command_id) = command))
                  || negb (bool_decide (row.(in_state) = "submitted") || bool_decide (row.(in_state) = "applied")))
      then (t, Err "response_unconfirmed")
      else if final_state row.(in_state) then
        (t, if negb (bool_decide (row.(in_state) = state)) then Err "question_already_resolved" else Ok row)
      else
        let row := with_input_updated state now row in
        (update (input_named id) (with_finished state row now) t, Ok row)
    end.

(** What everyone may see: no callback, no instance, no actor. *)
Record PublicInput := mkPublic {
  pb_request_id : string; pb_owner : string; pb_project : option string; pb_origin : string; pb_revision : string;
  pb_questions : option Value; pb_state : string; pb_created_at : Z; pb_updated_at : Z; pb_expires_at : Z; pb_command_id : option string;
  pb_answers : option Value }.
Definition input_projection (d : InputData) : PublicInput :=
  mkPublic d.(in_request_id) d.(in_owner) d.(in_project) d.(in_origin) d.(in_revision) d.(in_questions) d.(in_state) d.(in_created_at)
    d.(in_updated_at) d.(in_expires_at) d.(in_command_id) d.(in_answers).
End Inputs.

(** ** The handler *)

(** What the daemon knows of a connection. *)
Record InputConn := mkInputConn {
  cn_known_role : bool;  (* a client or a wrapper *)
  cn_client : bool;
  cn_primary : option (string * string);  (* [live_connection_identity] *)
  cn_negotiated : bool;  (* the capability of the inputs in this version of the contract *)
  cn_control : bool;  (* the capability of the control state *)
  cn_auxiliary : bool;
  cn_actor : option string  (* [control_client_actor] *) }.
Record SourceAgent := mkSource { sa_agent_id : string; sa_display_name : string; sa_machine : string; sa_state : string }.
Record InputView := mkView { vw_public : PublicInput; vw_source : option SourceAgent; vw_can_respond : bool }.
Inductive InputReply :=
  | ReplyViews (items : list InputView)
  | ReplyOwn (items : list InputData)
  | ReplyView (item : InputView) (changed : bool)
  | ReplyItem (item : InputData) (changed : bool).

Section Handler.
Context `{L : InputLib}.
(** The project of an agent, whether the instance of a row still lives, its name and presence, and the links of the fleet. *)
Context (project : string → option string) (live : InputData → bool) (source : InputData → option SourceAgent)
  (native_delegate : string → bool).

Definition public_view (now : Z) (d : InputData) : InputView :=
  mkView (input_projection d) (source d) (bool_decide (d.(in_state) = "pending") && live d && (now <? d.(in_expires_at))).
Definition action_fields (action : string) : option (list string) :=
  if bool_decide (action = "create") then Some ["questions"]
  else if bool_decide (action = "publish") then Some ["questions"; "origin"; "callback"]
  else if bool_decide (action = "wait") then Some ["wait_timeout"]
  else if bool_decide (action = "status") || bool_decide (action = "cancel") then Some []
  else if bool_decide (action = "list") || bool_decide (action = "pending") then Some ["agent_id"; "limit"]
  else if bool_decide (action = "respond") then Some ["revision"; "command_id"; "answers"]
  else if bool_decide (action = "ack") then Some ["command_id"; "applied"]
  else if bool_decide (action = "close") then Some ["state"]
  else None.
Definition input_human (c : InputConn) : bool := c.(cn_negotiated) && c.(cn_client) && is_some c.(cn_actor) && c.(cn_control).

(** The answer of a human. *)
Definition execute_respond (t : list InputRow) (c : InputConn) (request : Value) (id : string) (now : Z) : list InputRow * result string InputReply :=
  match get_input t id with
  | None => (t, Err "question_unavailable")
  | Some row =>
    if negb (live row) then (t, Err "question_not_resumable")
    else
      match
        revision ← ok_or (as_str (index request "revision")) "invalid_request";
        command ← ok_or (as_str (index request "command_id")) "invalid_request";
        actor ← ok_or c.(cn_actor) "human_actor_required";
        Ok (revision, command, actor)
      with
      | Err e => (t, Err e)
      | Ok (revision, command, actor) =>
        let '(t', r) := respond_input t id revision command actor (index request "answers") now in
        (t', d ← r; Ok (ReplyView (public_view now d) (bool_decide (row.(in_state) = "pending"))))
      end
  end.
Definition execute_create (t : list InputRow) (c : InputConn) (owner instance : string) (publish : bool) (request : Value) (id : string) (now : Z)
    : list InputRow * result string InputReply :=
  match (if publish then ok_or (as_str (index request "origin")) "invalid_request" else Ok "mcp") with
  | Err e => (t, Err e)
  | Ok origin =>
    if publish && c.(cn_auxiliary) then (t, Err "forbidden_scope")
    else
      let fresh := negb (is_some (get_input t id)) in
      let '(t', r) := create_input t owner instance (project owner) id (index request "questions") origin
                        (if publish then index request "callback" else VNull) now in
      (t', d ← r; Ok (ReplyItem d fresh))
  end.
(** The owner on one of its own forms. *)
Definition execute_own (t : list InputRow) (owner instance action : string) (request : Value) (id : string) (now : Z)
    : list InputRow * result string InputReply :=
  match (row ← get_input t id; then_some (bool_decide (row.(in_owner) = owner) && bool_decide (row.(in_instance) = instance)) row) with
  | None => (t, Err "question_unavailable")
  | Some row =>
    if negb (bool_decide (row.(in_project) = project owner)) then (t, Err "forbidden_scope")
    else
      let '(t', r) :=
        if bool_decide (action = "status") || bool_decide (action = "wait") then
          if bool_decide (row.(in_state) = "pending") && (row.(in_expires_at) <=? now)
          then finish_input t id owner instance None "expired" now else (t, Ok row)
        else if bool_decide (action = "cancel") then finish_input t id owner instance None "cancelled" now
        else if bool_decide (action = "ack") then
          finish_input t id owner instance (as_str (index request "command_id"))
            (if bool_decide (index request "applied" = VBool true) then "applied" else "unknown") now
        else if bool_decide (action = "close") then
          match as_str (index request "state") with
          | Some state => finish_input t id owner instance None state now
          | None => (t, Err "invalid_request")
          end
        else (t, Err "invalid_request") in
      (t', d ← r; Ok (ReplyItem d (negb (bool_decide (d = row)))))
  end.

Definition execute (t : list InputRow) (c : InputConn) (request : Value) (now : Z) : list InputRow * result string InputReply :=
  if 64 * 1024 <? Z.of_nat (String.length (json_text request)) then (t, Err "resource_limit")
  else
    match (action ← as_str (index request "action"); fields ← action_fields action; Some (action, fields)) with
    | None => (t, Err "invalid_request")
    | Some (action, fields) =>
      if negb (fields_ok request ("action" :: "request_id" :: fields)) then (t, Err "invalid_request")
      else if negb c.(cn_known_role) then (t, Err "forbidden_scope")
      else if negb c.(cn_negotiated) && (negb (is_some c.(cn_primary)) || c.(cn_auxiliary)) then (t, Err "capability_not_negotiated")
      else
        let human := input_human c in
        let id := default "" (as_str (index request "request_id")) in
        if bool_decide (action = "list") || bool_decide (action = "respond") then
          if negb human then (t, Err "human_actor_required")
          else if bool_decide (action = "list") then
            let '(t', r) := list_inputs t (as_str (index request "agent_id")) now (default 50 (as_u64 (index request "limit"))) in
            (t', l ← r; Ok (ReplyViews (public_view now <$> l)))
          else execute_respond t c request id now
        else if bool_decide (action = "status") && human then
          (t, d ← ok_or (get_input t id) "question_unavailable"; Ok (ReplyView (public_view now d) false))
        else
          match c.(cn_primary) with
          | None => (t, Err "identity_unavailable")
          | Some (owner, instance) =>
            if native_delegate instance then (t, Err "delegated_tool_forbidden")
            else if bool_decide (action = "create") then execute_create t c owner instance false request id now
            else if bool_decide (action = "publish") then execute_create t c owner instance true request id now
            else if bool_decide (action = "pending") then
              let '(t', r) := list_inputs t (Some owner) now 100 in
              (t', l ← r; Ok (ReplyOwn (List.filter (λ d, bool_decide (d.(in_instance) = instance) && bool_decide (d.(in_state) = "submitted")) l)))
            else execute_own t owner instance action request id now
          end
    end.
End Handler.
