(* ===== verification/InputRuns.v ===== *)
(** * InputRuns: the questions to the user along the life of the daemon

    What an accepted answer is, and any sequence of publications, answers,
    endings and expirations on an empty table: the invariant of the rows, what
    becomes of an answer, and the bounds of the table. *)

From S2P Require Import Prelude Text Uuid Sql Json UserInputs.
Local Open Scope Z_scope.

(** ** Answers that fit their questions *)

Section Answers.
Context `{L : InputLib}.

Definition answer_fits (question answer : Value) : Prop :=
  fields_ok answer ["selected"; "text"] = true ∧ text_ok (index answer "text") 10000 true = true ∧
  ∃ selected body,
    index answer "selected" = VArray (VString <$> selected) ∧ index answer "text" = VString body ∧
    (index question "required" = VBool false ∨ selected ≠ [] ∨ Str.is_blank body = false) ∧
    (index question "multiSelect" = VBool true ∨ (length selected ≤ 1)%nat) ∧
    (index question "allowCustomAnswer" = VBool false → body = "") ∧
    NoDup selected ∧ ∀ v, v ∈ selected → v ∈ offered question.

Lemma existsb_eq (x : string) l : existsb (λ y, bool_decide (y = x)) l = true ↔ x ∈ l.
Proof using. rewrite existsb_elem. split; [by intros (y & Hy & ->%bool_decide_eq_true)|]. intros Hx. exists x. by rewrite bool_decide_eq_true. Qed.
Lemma existsb_neq (x : string) l : existsb (λ y, bool_decide (y = x)) l = false ↔ x ∉ l.
Proof using. rewrite <-not_true_iff_false, existsb_eq. done. Qed.

Lemma check_selected_spec allowed l : ∀ seen,
  check_selected allowed seen l = Ok () ↔
  ∃ ss, l = VString <$> ss ∧ NoDup ss ∧ ∀ v, v ∈ ss → v ∈ allowed ∧ v ∉ seen.
Proof using.
  induction l as [|x l IH]; intros seen; cbn.
  - split; [intros _; exists []; split_and!; [done|constructor|by intros v ?%elem_of_nil]|done].
  - split.
    + destruct (as_str x) as [s|] eqn:Hx; [|done]. cbn. apply as_str_Some in Hx as ->. destruct (_ || _) eqn:E; [done|].
      apply orb_false_iff in E as [E1 E2]. rewrite negb_false_iff, existsb_eq in E1. rewrite existsb_neq in E2.
      intros (ss & -> & Hnd & Hss)%IH. exists (s :: ss). split_and!; [done| |].
      * constructor; [|done]. intros Hs. destruct (Hss s Hs) as [_ Hn]. apply Hn. by left.
      * intros v [->|Hv]%elem_of_cons; [done|]. destruct (Hss v Hv) as [? Hn]. split; [done|]. intros ?. apply Hn. by right.
    + intros ([|s ss] & [= -> ->] & Hnd & Hss). apply NoDup_cons in Hnd as [Hs Hnd]. cbn.
      destruct (Hss s) as [Ha Hb]; [by left|]. rewrite (proj2 (existsb_eq s allowed) Ha), (proj2 (existsb_neq s seen) Hb). cbn.
      apply IH. exists ss. split_and!; [done..|]. intros v Hv. destruct (Hss v) as [? Hn]; [by right|]. split; [done|].
      intros [->|?]%elem_of_cons; done.
Qed.

Lemma check_answer_spec q entries id opts :
  index q "id" = VString id → index q "options" = VArray opts →
  check_answer q entries = Ok () ↔ ∃ answer, map_get id entries = Some answer ∧ answer_fits q answer.
Proof using.
  intros Hid Ho. unfold check_answer. rewrite Hid, Ho. cbn. destruct (map_get id entries) as [a|]; cbn; [|split; [done|by intros (? & ? & _)]].
  unfold answer_fits. destruct (fields_ok a _) eqn:Hf; cbn; [|split; [done|by intros (? & [= <-] & ? & _); congruence]].
  destruct (text_ok (index a "text") 10000 true) eqn:Ht; cbn; [|split; [done|by intros (? & [= <-] & _ & ? & _); congruence]].
  split.
  - destruct (as_array (index a "selected")) as [sel|] eqn:Hs; [|done]. cbn. destruct (as_str (index a "text")) as [body|] eqn:Hb; [|done]. cbn.
    apply as_str_Some in Hb. destruct (index a "selected") eqn:Hsel; try done. injection Hs as ->.
    destruct (_ || _) eqn:E; [done|]. rewrite !orb_false_iff, !andb_false_iff, !negb_false_iff, !bool_decide_eq_true, !bool_decide_eq_false, Z.ltb_ge in E.
    intros (ss & -> & Hnd & Hss)%check_selected_spec. rewrite length_fmap in E. exists a. split; [done|]. split_and!; [done..|].
    exists ss, body. split_and!; [done..| | | |done|intros v Hv; by apply Hss].
    + destruct E as [[[[E|E]|E] _] _]; [by left|right; left; by intros ->|by right; right].
    + destruct E as [[_ [E|E]] _]; [by left|right; lia].
    + intros Hc. destruct E as [_ [E|E]]; done.
  - intros (? & [= <-] & _ & _ & ss & body & -> & -> & H1 & H2 & H3 & Hnd & Hss). cbn. destruct (_ || _) eqn:E.
    + exfalso. rewrite !orb_true_iff, !andb_true_iff, !negb_true_iff, !bool_decide_eq_true, !bool_decide_eq_false, Z.ltb_lt, length_fmap in E.
      destruct E as [[((E1 & E2) & E3)|(E1 & E2)]|(E1 & E2)]; [|destruct H2; [done|lia]|by destruct E2; apply H3].
      destruct H1 as [?|[H1|?]]; [done| |congruence]. apply H1. by destruct ss.
    + apply check_selected_spec. exists ss. split_and!; [done..|]. intros v Hv. split; [by apply Hss|by intros ?%elem_of_nil].
Qed.

Lemma check_items_elem l : ∀ ids n, check_items ids n l = Ok () → ∀ q, q ∈ l → ∃ id opts, index q "id" = VString id ∧ index q "options" = VArray opts.
Proof using.
  induction l as [|x l IH]; intros ids n; [by intros _ q ?%elem_of_nil|]. cbn. destruct (_ || _); [done|].
  destruct (as_str (index x "id")) as [id|] eqn:Hid; [|done]. cbn. destruct (_ || _); [done|].
  destruct (as_array (index x "options")) as [opts|] eqn:Ho; [|done]. cbn. destruct (length opts <=? 32)%nat; [|done]. cbn.
  destruct (64 <? _); [done|]. destruct (check_options [] opts) as [[]|]; [|done]. cbn. destruct (_ && _); [done|].
  intros Hl q [->|Hq]%elem_of_cons; [|by eapply IH]. exists id, opts. apply as_str_Some in Hid. split; [done|]. by destruct (index x "options"); inversion Ho.
Qed.
Lemma valid_items questions :
  validate_questions questions = Ok () →
  ∃ items, questions = VArray items ∧ ∀ q, q ∈ items → ∃ id opts, index q "id" = VString id ∧ index q "options" = VArray opts.
Proof using.
  unfold validate_questions. destruct (encoded questions); [|done]. cbn. destruct (as_array questions) as [items|] eqn:Ha; [|done]. cbn.
  destruct (_ && _); [|done]. cbn. intros H. exists items. split; [by destruct questions; inversion Ha|]. by eapply check_items_elem.
Qed.
Lemma check_answers_spec entries l :
  (∀ q, q ∈ l → ∃ id opts, index q "id" = VString id ∧ index q "options" = VArray opts) →
  check_answers entries l = Ok () ↔
  ∀ q, q ∈ l → ∃ id answer, index q "id" = VString id ∧ map_get id entries = Some answer ∧ answer_fits q answer.
Proof using.
  induction l as [|q l IH]; intros Hq; cbn; [split; [by intros _ q ?%elem_of_nil|done]|].
  destruct (Hq q) as (id & opts & Hid & Ho); [by left|]. pose proof (check_answer_spec q entries id opts Hid Ho) as Hs.
  specialize (IH (λ q' H, Hq q' (list_elem_of_further _ _ _ H))). destruct (check_answer q entries) as [[]|e]; cbn.
  - rewrite IH. destruct (proj1 Hs eq_refl) as (a & Ha & Hf). split; [|intros H q' ?; apply H; by right].
    intros H q' [->|Hq']%elem_of_cons; [by exists id, a|by apply H].
  - split; [done|]. intros H. destruct (H q) as (id' & a & Hid' & Ha & Hf); [by left|]. rewrite Hid in Hid'. injection Hid' as <-.
    assert (Err e = Ok ()) by (apply Hs; by exists a). done.
Qed.

(** C26: the answers to a form are accepted exactly when the form is valid, the
    text of the answers has at most 32 KiB, there is one answer for each
    question and no other, and each one fits its question: a required question
    is not left empty, one choice unless several are allowed, no free text where
    it is not offered, and every choice is offered and made once. *)
Theorem answers_exact questions answers :
  validate_answers questions answers = Ok () ↔
  validate_questions questions = Ok () ∧ Z.of_nat (String.length (json_text answers)) ≤ 32 * 1024 ∧
  ∃ items entries, questions = VArray items ∧ answers = VObject entries ∧ length entries = length items ∧
    ∀ q, q ∈ items → ∃ id answer, index q "id" = VString id ∧ map_get id entries = Some answer ∧ answer_fits q answer.
Proof using.
  unfold validate_answers. destruct (validate_questions questions) as [[]|e] eqn:Hq; cbn; [|split; [done|by intros [? _]]].
  pose proof (valid_items questions Hq) as (items & -> & Hi).
  unfold encoded, MAX_BYTES. destruct (Z.leb_spec (Z.of_nat (String.length (json_text answers))) (32 * 1024)) as [Hle|Hgt].
  - rewrite (proj2 (Z.ltb_ge (64 * 1024) _)) by lia. cbn. rewrite (proj2 (Z.ltb_ge 32768 _)) by lia.
    destruct answers as [| | | | | |entries]; cbn; try (split; [done|intros (_ & _ & ? & ? & _ & [=] & _)]).
    destruct (Nat.eqb_spec (length entries) (length items)) as [El|El]; cbn.
    + rewrite (check_answers_spec entries items Hi). split; [intros H; split_and!; try done; by exists items, entries|].
      by intros (_ & _ & ? & ? & [= <-] & [= <-] & _ & H).
    + split; [done|]. by intros (_ & _ & ? & ? & [= <-] & [= <-] & ? & _).
  - split; [|intros (_ & ? & _); lia]. destruct (64 * 1024 <? _); [done|]. cbn.
    by rewrite (proj2 (Z.ltb_lt 32768 _)) by lia.
Qed.
End Answers.

(** ** The state of the table *)

Section InputRuns.
Context `{L : InputLib}.

Definition answered (d : InputData) : Prop :=
  ∃ c q a, d.(in_command_id) = Some c ∧ is_Some d.(in_actor) ∧ d.(in_questions) = Some q ∧ d.(in_answers) = Some a ∧ validate_answers q a = Ok ().
Definition unanswered (d : InputData) : Prop :=
  d.(in_command_id) = None ∧ d.(in_actor) = None ∧ d.(in_answers) = None ∧ ∃ q, d.(in_questions) = Some q ∧ validate_questions q = Ok ().
Definition input_state_ok (d : InputData) : Prop :=
  d.(in_state) = "pending" ∧ unanswered d ∨ d.(in_state) = "submitted" ∧ answered d ∨ d.(in_state) = "unknown" ∧ (answered d ∨ unanswered d) ∨
  final_state d.(in_state) = true ∧ (d.(in_state) = "applied" → is_Some d.(in_command_id)).
Record input_row_ok (r : InputRow) : Prop := mkInputRowOk {
  ir_columns : (r.(ui_id), r.(ui_owner), r.(ui_instance), r.(ui_state), r.(ui_command_id), r.(ui_expires_at),
     r.(ui_origin), r.(ui_created_at)) =
    (r.(ui_data).(in_request_id), r.(ui_data).(in_owner), r.(ui_data).(in_instance), r.(ui_data).(in_state), r.(ui_data).(in_command_id),
     r.(ui_data).(in_expires_at), r.(ui_data).(in_origin), r.(ui_data).(in_created_at));
  ir_state : input_state_ok r.(ui_data);
  ir_pair : is_some r.(ui_data).(in_actor) = is_some r.(ui_data).(in_answers) ∧ input_uuid r.(ui_id) = true }.
Record inputs_ok (t : list InputRow) : Prop := mkInputsOk {
  is_ids : unique ui_id t;
  is_rows r : r ∈ t → input_row_ok r;
  is_commands r r' c : r ∈ t → r' ∈ t → r.(ui_command_id) = Some c → r'.(ui_command_id) = Some c → r.(ui_id) = r'.(ui_id);
  is_owner owner : Z.of_nat (updated (λ r, bool_decide (r.(ui_owner) = owner) && input_active r) t) ≤ 32;
  is_total : Z.of_nat (updated input_active t) ≤ 2048;
  is_length : Z.of_nat (length t) ≤ 100000 }.

(** How a row becomes another: a form that is no longer pending never is again,
    an end stays, an answer is kept or removed with its author, never changed. *)
Definition input_fixed (d : InputData) : string * string * string * option string * string * string * Z * Z :=
  (d.(in_request_id), d.(in_owner), d.(in_instance), d.(in_project), d.(in_origin), d.(in_revision), d.(in_created_at), d.(in_expires_at)).
Record input_later (r r' : InputRow) : Prop := mkInputLater {
  it_same : (r'.(ui_id), r'.(ui_owner), input_fixed r'.(ui_data)) = (r.(ui_id), r.(ui_owner), input_fixed r.(ui_data));
  it_texts : (r'.(ui_data).(in_callback), r'.(ui_data).(in_questions)) = (r.(ui_data).(in_callback), r.(ui_data).(in_questions)) ∨
    input_active r' = false ∧ (r'.(ui_data).(in_callback), r'.(ui_data).(in_questions)) = (None, None);
  it_active : input_active r' = true → input_active r = true;
  it_pending : r'.(ui_state) = "pending" → r.(ui_state) = "pending";
  it_final : final_state r.(ui_state) = true → r'.(ui_state) = r.(ui_state);
  it_command c : r.(ui_command_id) = Some c → r'.(ui_command_id) = Some c;
  it_answers c : r.(ui_command_id) = Some c →
    (r'.(ui_data).(in_actor), r'.(ui_data).(in_answers)) = (r.(ui_data).(in_actor), r.(ui_data).(in_answers)) ∨
    (r'.(ui_data).(in_actor), r'.(ui_data).(in_answers)) = (None, None) }.
#[export] Instance input_later_preorder : PreOrder input_later.
Proof using.
  split; [intros r; split; auto|]. intros r1 r2 r3 [A1 A0 A2 A3 A4 A5 A6] [B1 B0 B2 B3 B4 B5 B6]. split; [congruence| |eauto..| |eauto|].
  - destruct B0 as [->|B0]; [|by right]. destruct A0 as [->|[Hn ->]]; [by left|]. right. split; [|done].
    destruct (input_active r3) eqn:E; [|done]. specialize (B2 eq_refl). congruence.
  - intros H. specialize (A4 H). rewrite <-A4 in H. specialize (B4 H). congruence.
  - intros c Hc. destruct (A6 c Hc) as [E|E], (B6 c (A5 c Hc)) as [E'|E']; rewrite E'; auto.
Qed.

Definition inputs_later (t t' : list InputRow) : Prop := ∀ r, r ∈ t → ∃ r', r' ∈ t' ∧ input_later r r'.
#[export] Instance inputs_later_preorder : PreOrder inputs_later.
Proof using.
  split; [intros t r Hr; by exists r|]. intros t1 t2 t3 H12 H23 r Hr. destruct (H12 r Hr) as (r2 & Hr2 & Hl2).
  destruct (H23 r2 Hr2) as (r3 & Hr3 & Hl3). exists r3. split; [done|by etrans].
Qed.

(** An update that makes rows later ones, with their command or with a new one. *)
Lemma update_inputs t p f :
  inputs_ok t →
  (∀ r, r ∈ t → p r = true → input_row_ok (f r) ∧ input_later r (f r) ∧
     ((f r).(ui_command_id) = r.(ui_command_id) ∨
      ∃ c, (f r).(ui_command_id) = Some c ∧ (∀ x, x ∈ t → x.(ui_command_id) ≠ Some c) ∧ ∀ x, x ∈ t → p x = true → x.(ui_id) = r.(ui_id))) →
  inputs_ok (update p f t) ∧ inputs_later t (update p f t).
Proof using.
  intros [H1 H2 H3 H4 H5 H6] Hf.
  assert (∀ r, r ∈ t → p r = true → (f r).(ui_id) = r.(ui_id) ∧ (f r).(ui_owner) = r.(ui_owner)) as Hsame.
  { intros r Hr Hp. destruct (Hf r Hr Hp) as (_ & [E _ _ _ _ _ _] & _). by injection E. }
  split; [split|].
  - apply update_unique; [|done]. intros r Hr Hp. by apply Hsame.
  - intros x (r & Hr & ->)%update_elem. destruct (p r) eqn:Hp; [by apply Hf|by apply H2].
  - intros x x' c (r & Hr & ->)%update_elem (r' & Hr' & ->)%update_elem.
    assert (∀ y, y ∈ t → (if p y then f y else y).(ui_id) = y.(ui_id)) as Hid by (intros y Hy; destruct (p y) eqn:Hp; [by apply Hsame|done]).
    rewrite (Hid r Hr), (Hid r' Hr'). intros Hc Hc'.
    assert (∀ y, y ∈ t → (if p y then f y else y).(ui_command_id) = Some c → y.(ui_command_id) = Some c ∨
      p y = true ∧ (∀ x, x ∈ t → x.(ui_command_id) ≠ Some c) ∧ ∀ x, x ∈ t → p x = true → x.(ui_id) = y.(ui_id)) as Hcase.
    { intros y Hy Hyc. destruct (p y) eqn:Hp; [|by left]. destruct (Hf y Hy Hp) as (_ & _ & [E|(c' & E & Hn & Hone)]); [left; congruence|].
      rewrite E in Hyc. injection Hyc as ->. by right. }
    destruct (Hcase r Hr Hc) as [E|(Hp & Hn & Hone)], (Hcase r' Hr' Hc') as [E'|(Hp' & Hn' & Hone')].
    + by apply (H3 r r' c).
    + by destruct (Hn' r Hr).
    + by destruct (Hn r' Hr').
    + symmetry. by apply Hone.
  - intros owner. specialize (H4 owner). etrans; [apply inj_le, update_count|exact H4]. intros r Hr Hp. destruct (Hf r Hr Hp) as (_ & Hl & _).
    rewrite !andb_true_iff, !bool_decide_eq_true. destruct (Hsame r Hr Hp) as [_ ->]. intros [? ?]. split; [done|]. by apply (it_active _ _ Hl).
  - etrans; [apply inj_le, update_count|exact H5]. intros r Hr Hp. destruct (Hf r Hr Hp) as (_ & Hl & _). apply (it_active _ _ Hl).
  - unfold update. by rewrite length_fmap.
  - intros r Hr. exists (if p r then f r else r). split; [apply update_elem; eauto|]. destruct (p r) eqn:Hp; [by apply Hf|done].
Qed.

(** ** Operations keep it *)

Lemma row_state r : input_row_ok r → r.(ui_state) = r.(ui_data).(in_state) ∧ r.(ui_command_id) = r.(ui_data).(in_command_id).
Proof using. intros [E _ _]. by injection E as _ _ _ -> -> _ _ _. Qed.
Lemma final_inactive s : final_state s = true → active_state s = false.
Proof using.
  unfold final_state, active_state. intros (x & Hx & ->%bool_decide_eq_true)%existsb_elem.
  repeat (apply elem_of_cons in Hx as [->|Hx]; [reflexivity|]). by apply elem_of_nil in Hx.
Qed.
Lemma inactive_final r : input_row_ok r → input_active r = false → final_state r.(ui_state) = true.
Proof using.
  intros Hr. destruct (row_state r Hr) as [E _]. destruct Hr as [_ Hs _]. unfold input_active. rewrite E.
  destruct Hs as [[-> _]|[[-> _]|[[-> _]|[? _]]]]; done.
Qed.

Lemma inputs_expire_ok t now : inputs_ok t → inputs_ok (expire_inputs t now) ∧ inputs_later t (expire_inputs t now).
Proof using.
  intros Hok. unfold expire_inputs. set (t1 := update (lapses now) _ t).
  assert (inputs_ok t1 ∧ inputs_later t t1) as [Hok1 Hl1].
  { apply update_inputs; [done|]. intros r Hr [_ Hp]%andb_true_iff. apply bool_decide_eq_true in Hp.
    pose proof (is_rows _ Hok r Hr) as Hrow. destruct (row_state r Hrow) as [E1 E2]. destruct Hrow as [Hc Hs [Hpair Huid]]. split_and!; [| |by left].
    - split; cbn; [injection Hc as -> -> -> _ -> -> -> ->; done| |done]. right; right; right. split; [done|]. by intros [=].
    - destruct Hs as [[E (Hcmd & _)]|[[E _]|[[E _]|[E _]]]]; [|rewrite E1, E in Hp; done..|rewrite E1 in Hp; by rewrite Hp in E].
      split; cbn; try done; [by left| |].
      + rewrite Hp. done.
      + intros c. rewrite E2. congruence. }
  enough (inputs_ok (update (scrubs now) (λ r, with_data r.(ui_state) (scrubbed r.(ui_data)) r) t1) ∧
          inputs_later t1 (update (scrubs now) (λ r, with_data r.(ui_state) (scrubbed r.(ui_data)) r) t1)) as [H1 H2] by (split; [done|by etrans]).
  apply update_inputs; [done|]. intros r Hr [[_ Ha]%andb_true_iff _]%andb_true_iff. apply negb_true_iff in Ha.
  pose proof (is_rows _ Hok1 r Hr) as Hrow. pose proof (inactive_final r Hrow Ha) as Hfin. destruct (row_state r Hrow) as [E1 E2].
  destruct Hrow as [Hc Hs [Hpair Huid]]. split_and!; [| |by left].
  - split; cbn; [done| |done]. right; right; right. cbn. rewrite <-E1. split; [done|].
    destruct Hs as [[E _]|[[E _]|[[E _]|[_ Hs]]]]; rewrite ?E1 in *; [by rewrite E in Hfin..|done].
  - split; cbn; try done; [by right|]. intros c _. by right.
Qed.

(** The row of a form. *)
Lemma get_input_Some t id d : inputs_ok t → get_input t id = Some d → ∃ r, r ∈ t ∧ r.(ui_id) = id ∧ r.(ui_data) = d.
Proof using.
  intros Hok. unfold get_input. destruct (select_one _ t) as [r|] eqn:Hr; [|done]. intros [= <-].
  apply select_one_Some in Hr as [Hin Hid%bool_decide_eq_true]. by exists r.
Qed.
Lemma get_input_elem t r : inputs_ok t → r ∈ t → get_input t r.(ui_id) = Some r.(ui_data).
Proof using.
  intros Hok Hr. unfold get_input. rewrite (unique_select_one ui_id _ t r); [done|apply Hok|done|by apply bool_decide_eq_true|].
  intros r' Hr'. by apply bool_decide_eq_true in Hr'.
Qed.
Lemma get_input_None t id r : get_input t id = None → r ∈ t → r.(ui_id) ≠ id.
Proof using.
  unfold get_input. destruct (select_one _ t) as [x|] eqn:E; [done|]. intros _ Hr. pose proof (select_one_None _ _ _ E Hr) as H.
  by apply bool_decide_eq_false in H.
Qed.

Lemma input_create_cases t owner instance project id questions origin callback now :
  let '(t', r) := create_input t owner instance project id questions origin callback now in
  (t' = t ∧ ∀ d, r ≠ Ok d) ∨ (t' = expire_inputs t now ∧ ∃ d, r = Ok d) ∨
  ∃ revision origin_ref, validate_questions questions = Ok () ∧ input_uuid id = true ∧
    (∀ x, x ∈ expire_inputs t now → x.(ui_id) ≠ id) ∧
    Z.of_nat (updated (λ r, bool_decide (r.(ui_owner) = owner) && input_active r) (expire_inputs t now)) < 32 ∧
    Z.of_nat (updated input_active (expire_inputs t now)) < 2048 ∧ Z.of_nat (length (expire_inputs t now)) < 100000 ∧
    let data := new_input id owner instance project origin callback revision questions now in
    t' = expire_inputs t now ++ [mkInputRow id owner instance origin origin_ref "pending" None data now now (now + RETENTION)] ∧ r = Ok data.
Proof using.
  unfold create_input. destruct (validate_questions questions) as [[]|] eqn:Hq; [|by left]. cbn.
  destruct (negb (input_uuid id) || _ || _ || _) eqn:Hu; [by left|]. rewrite !orb_false_iff, negb_false_iff in Hu. destruct Hu as [[[Hu _] _] _]. destruct (encoded callback) as [c|]; [|by left]. cbn. destruct (16384 <? _); [by left|].
  destruct (encoded questions) as [q|]; [|by left]. cbn. destruct (get_input _ id) as [existing|] eqn:Hg.
  - destruct (_ || _); [by left|]. destruct (_ <=? now); [by left|]. destruct (_ || _); [by left|]. right; left. eauto.
  - destruct (_ || _) eqn:Hl; [by left|]. destruct (exists_row _ _); [by left|]. right; right. do 2 eexists. split; [done|]. split; [done|].
    rewrite !orb_false_iff, !Z.leb_gt in Hl. destruct Hl as [[H1 H2] H3]. split_and!; try done. intros x Hx. by apply (get_input_None _ _ x Hg).
Qed.
Lemma input_create_ok t owner instance project id questions origin callback now :
  inputs_ok t →
  inputs_ok (create_input t owner instance project id questions origin callback now).1 ∧
  inputs_later t (create_input t owner instance project id questions origin callback now).1.
Proof using.
  intros Hok. pose proof (input_create_cases t owner instance project id questions origin callback now) as H.
  destruct (create_input _ _ _ _ _ _ _ _ _) as [t' r]. cbn. destruct (inputs_expire_ok t now Hok) as [Hok1 Hl1].
  destruct H as [[-> _]|[[-> _]|(revision & origin_ref & Hq & Huid & Hnew & H1 & H2 & H3 & -> & _)]]; [done..|].
  split; [|etrans; [exact Hl1|]; intros r0 Hr0; exists r0; split; [apply elem_of_app; by left|done]].
  destruct Hok1 as [A1 A2 A3 A4 A5 A6]. split.
  - apply unique_snoc; [done|]. intros x Hx. by apply Hnew.
  - intros x [Hx| ->%list_elem_of_singleton]%elem_of_app; [by apply A2|]. split; [done| |done]. left. split; [done|]. split_and!; [done..|]. by exists questions.
  - intros x x' c [Hx| ->%list_elem_of_singleton]%elem_of_app [Hx'| ->%list_elem_of_singleton]%elem_of_app Hc Hc'; [by apply (A3 x x' c)|done..].
  - intros o. specialize (A4 o). unfold updated in *. rewrite count_if_app.
    pose proof (count_if_length (λ r, bool_decide (r.(ui_owner) = o) && input_active r) [mkInputRow id owner instance origin origin_ref "pending" None
      (new_input id owner instance project origin callback revision questions now) now now (now + RETENTION)]) as Hone. cbn [length] in Hone.
    destruct (decide (owner = o)) as [<-|Hne]; [lia|]. rewrite (count_if_0 _ [_]); [lia|]. intros x ->%list_elem_of_singleton.
    apply andb_false_iff. left. by apply bool_decide_eq_false.
  - unfold updated in *. rewrite count_if_app. pose proof (count_if_length input_active [mkInputRow id owner instance origin origin_ref "pending" None
      (new_input id owner instance project origin callback revision questions now) now now (now + RETENTION)]) as Hone. cbn [length] in Hone. lia.
  - rewrite length_app. cbn [length]. lia.
Qed.

(** What an answer does: nothing, or the first one of a pending form. *)
Lemma respond_cases t id revision command actor answers now :
  inputs_ok t →
  let '(t', r) := respond_input t id revision command actor answers now in
  (t' = t ∧ ∀ d, r = Ok d →
     ∃ x, x ∈ t ∧ x.(ui_id) = id ∧ x.(ui_data) = d ∧ x.(ui_command_id) = Some command ∧ d.(in_actor) = Some actor ∧ d.(in_revision) = revision ∧
       d.(in_answers) = Some answers) ∨
  ∃ x q, x ∈ t ∧ x.(ui_id) = id ∧ x.(ui_state) = "pending" ∧ x.(ui_data).(in_revision) = revision ∧ x.(ui_data).(in_questions) = Some q ∧
    validate_answers q answers = Ok () ∧ (∀ y, y ∈ t → y.(ui_command_id) ≠ Some command) ∧
    r = Ok (with_answers command actor answers now x.(ui_data)) ∧
    t' = update (λ r, input_named id r && bool_decide (r.(ui_state) = "pending"))
           (with_submitted command (with_answers command actor answers now x.(ui_data)) now) t.
Proof using.
  intros Hok. unfold respond_input. destruct (_ || _); [by left|]. destruct (select_one _ t) as [prior|] eqn:Hp.
  - left. split; [done|]. intros d. apply select_one_Some in Hp as [Hin Hc%bool_decide_eq_true]. rewrite (get_input_elem t prior Hok Hin). cbn.
    destruct (_ || _) eqn:E; [done|]. rewrite !orb_false_iff, !negb_false_iff, !bool_decide_eq_true in E. destruct E as [[[E1 E2] E3] E4].
    destruct (_ <=? now); [done|]. intros [= <-]. exists prior. split_and!; try done.
    pose proof (ir_pair _ (is_rows _ Hok prior Hin)) as [Hpair _]. rewrite E2 in Hpair. by destruct prior.(ui_data).(in_answers); [cbn in E4; congruence|].
  - destruct (get_input t id) as [row|] eqn:Hg; [|by left]. cbn. destruct (bool_decide (row.(in_revision) = revision)) eqn:Hrev; [|by left].
    apply bool_decide_eq_true in Hrev. cbn. destruct (_ <=? now); [by left|]. destruct (bool_decide (row.(in_state) = "pending")) eqn:Hs; [|by left].
    apply bool_decide_eq_true in Hs. cbn. apply (get_input_Some t id row Hok) in Hg as (x & Hx & Hid & <-).
    pose proof (is_rows _ Hok x Hx) as Hrow. destruct (row_state x Hrow) as [E1 _]. destruct Hrow as [_ Hst _].
    assert (unanswered x.(ui_data)) as (_ & _ & _ & q & Hq & _).
    { destruct Hst as [[_ ?]|[[E _]|[[E _]|[E _]]]]; [done|congruence|congruence|rewrite Hs in E; done]. }
    rewrite Hq. cbn. destruct (validate_answers q answers) as [[]|] eqn:Hv; [|by left]. cbn. destruct (_ =? 1)%nat; [|by left]. cbn.
    right. exists x, q. split_and!; try done; [congruence|]. intros y Hy Hc. pose proof (select_one_None _ _ _ Hp Hy) as Hn. by apply bool_decide_eq_false in Hn.
Qed.
Lemma pending_update_row t id x r :
  inputs_ok t → x ∈ t → x.(ui_id) = id → r ∈ t → input_named id r && bool_decide (r.(ui_state) = "pending") = true → r = x.
Proof using.
  intros Hok Hx Hid Hr [Hn _]%andb_true_iff. apply bool_decide_eq_true in Hn. apply (unique_eq ui_id t); [apply Hok|done..|congruence].
Qed.
Lemma respond_ok t id revision command actor answers now :
  inputs_ok t → inputs_ok (respond_input t id revision command actor answers now).1 ∧ inputs_later t (respond_input t id revision command actor answers now).1.
Proof using.
  intros Hok. pose proof (respond_cases t id revision command actor answers now Hok) as H. destruct (respond_input _ _ _ _ _ _ _) as [t' r]. cbn.
  destruct H as [[-> _]|(x & q & Hx & Hid & Hs & _ & Hq & Hv & Hfresh & _ & ->)]; [done|]. apply update_inputs; [done|]. intros y Hy Hp.
  rewrite (pending_update_row t id x y Hok Hx Hid Hy Hp). pose proof (is_rows _ Hok x Hx) as Hrow. destruct (row_state x Hrow) as [E1 E2].
  destruct Hrow as [Hc Hst [Hpair Huid]]. assert (unanswered x.(ui_data)) as (Hcmd & Hact & Hans & _).
  { destruct Hst as [[_ ?]|[[E _]|[[E _]|[E _]]]]; [done|congruence|congruence|]. rewrite <-E1, Hs in E. done. }
  split_and!.
  - split; cbn; [injection Hc as -> -> -> _ _ -> -> ->; done| |done]. right; left. split; [done|]. exists command, q, answers. by split_and!.
  - split; cbn; try done; [by left|by rewrite Hs|by rewrite Hs|..]; intros c; rewrite E2; congruence.
  - right. exists command. split_and!; [done..|]. intros z Hz Hpz. by rewrite (pending_update_row t id x z Hok Hx Hid Hz Hpz).
Qed.

Lemma finish_cases t id owner instance command state now :
  inputs_ok t →
  (finish_input t id owner instance command state now).1 = t ∨
  ∃ x, x ∈ t ∧ x.(ui_id) = id ∧ final_state x.(ui_state) = false ∧ x.(ui_owner) = owner ∧ x.(ui_instance) = instance ∧
    (state = "unknown" ∨ final_state state = true) ∧ (state = "applied" → is_Some command ∧ x.(ui_command_id) = command ∧ x.(ui_state) = "submitted") ∧
    (finish_input t id owner instance command state now).1 =
      update (input_named id) (with_finished state (with_input_updated state now x.(ui_data)) now) t.
Proof using.
  intros Hok. unfold finish_input. destruct (bool_decide (state = "unknown") || final_state state) eqn:Hst; [|by left]. cbn [negb].
  destruct (get_input t id) as [row|] eqn:Hg; [|by left]. apply (get_input_Some t id row Hok) in Hg as (x & Hx & Hid & <-).
  destruct (negb (bool_decide (in_owner _ = _)) || _) eqn:Ho; [by left|]. destruct (bool_decide (state = "applied") && _) eqn:Ha; [by left|]. destruct (final_state x.(ui_data).(in_state)) eqn:Hf; [by left|].
  right. exists x. pose proof (is_rows _ Hok x Hx) as Hrow. destruct (row_state x Hrow) as [E1 E2]. destruct Hrow as [Hc _ _].
  rewrite orb_false_iff, !negb_false_iff, !bool_decide_eq_true in Ho. injection Hc as _ -> -> _ _ _ _ _. rewrite E1, E2.
  split_and!; try done; [apply Ho..| |].
  - apply orb_true_iff in Hst as [H%bool_decide_eq_true|H]; auto.
  - intros ->. rewrite bool_decide_eq_true_2 in Ha by done. cbn in Ha.
    rewrite !orb_false_iff, !negb_false_iff, bool_decide_eq_true, orb_true_iff, !bool_decide_eq_true in Ha. destruct Ha as [[H1 H2] H3].
    split_and!; [by destruct command|done|]. destruct H3 as [H3|H3]; [done|]. by rewrite H3 in Hf.
Qed.
Lemma finish_ok t id owner instance command state now :
  inputs_ok t →
  inputs_ok (finish_input t id owner instance command state now).1 ∧ inputs_later t (finish_input t id owner instance command state now).1.
Proof using.
  intros Hok. destruct (finish_cases t id owner instance command state now Hok) as [->|(x & Hx & Hid & Hf & _ & _ & Hst & Happ & ->)]; [done|].
  apply update_inputs; [done|]. intros y Hy Hn%bool_decide_eq_true. assert (y = x) as -> by (apply (unique_eq ui_id t); [apply Hok|done..|congruence]).
  pose proof (is_rows _ Hok x Hx) as Hrow. destruct (row_state x Hrow) as [E1 E2]. assert (input_active x = true) as Hact.
  { destruct (input_active x) eqn:E; [done|]. apply inactive_final in E; [congruence|done]. }
  destruct Hrow as [Hc Hs [Hpair Huid]]. split_and!; [| |by left].
  - split; cbn; [injection Hc as -> -> -> _ -> -> -> ->; done| |done]. destruct Hst as [->|Hfin].
    + right; right; left. split; [done|]. destruct Hs as [[_ ?]|[[_ ?]|[[_ ?]|[E _]]]]; [by right|by left|done|]. rewrite E1 in Hf. congruence.
    + right; right; right. split; [done|]. cbn. intros ->. destruct (Happ eq_refl) as ([c ->] & H & _). rewrite <-E2, H. by eexists.
  - split; cbn; try done; [by left| |change (final_state x.(ui_state) = true → state = x.(ui_state)); congruence|by left].
    intros ->. by destruct Hst.
Qed.

(** ** Runs *)

Inductive InputOp :=
  | UCreate (owner instance : string) (project : option string) (id : string) (questions : Value) (origin : string) (callback : Value) (now : Z)
  | URespond (id revision command actor : string) (answers : Value) (now : Z)
  | UFinish (id owner instance : string) (command : option string) (state : string) (now : Z)
  | UExpire (now : Z).
Definition input_step (t : list InputRow) (op : InputOp) : list InputRow :=
  match op with
  | UCreate owner instance project id questions origin callback now => (create_input t owner instance project id questions origin callback now).1
  | URespond id revision command actor answers now => (respond_input t id revision command actor answers now).1
  | UFinish id owner instance command state now => (finish_input t id owner instance command state now).1
  | UExpire now => expire_inputs t now
  end.
Definition input_run (t : list InputRow) (ops : list InputOp) : list InputRow := foldl input_step t ops.

Lemma input_step_ok t op : inputs_ok t → inputs_ok (input_step t op) ∧ inputs_later t (input_step t op).
Proof using. intros Hok. destruct op; cbn; [by apply input_create_ok|by apply respond_ok|by apply finish_ok|by apply inputs_expire_ok]. Qed.
Lemma input_run_ok ops : ∀ t, inputs_ok t → inputs_ok (input_run t ops) ∧ inputs_later t (input_run t ops).
Proof using.
  induction ops as [|op ops IH]; intros t Hok; [done|]. destruct (input_step_ok t op Hok) as [H1 H2]. destruct (IH _ H1) as [H3 H4].
  split; [exact H3|]. by etrans.
Qed.
Lemma no_inputs_ok : inputs_ok [].
Proof using.
  split; try (by apply NoDup_nil_2) || (by intros ? ?%elem_of_nil) || (by intros ? ? ? ?%elem_of_nil) || (vm_compute; discriminate) || (intros ?; vm_compute; discriminate).
Qed.

Lemma command_not_pending r c : input_row_ok r → r.(ui_command_id) = Some c → r.(ui_state) ≠ "pending".
Proof using.
  intros Hr Hc Hp. destruct (row_state r Hr) as [E1 E2]. destruct Hr as [_ [[_ (H & _)]|[[E _]|[[E _]|[E _]]]] _]; try congruence.
  rewrite <-E1, Hp in E. done.
Qed.

(** The row that an accepted answer leaves, new or replayed. *)
Definition holds_answer (r : InputRow) (id revision command actor : string) (answers : Value) : Prop :=
  r.(ui_id) = id ∧ r.(ui_command_id) = Some command ∧ r.(ui_data).(in_revision) = revision ∧
  r.(ui_data).(in_actor) = Some actor ∧ r.(ui_data).(in_answers) = Some answers.
Lemma respond_accepted t id revision command actor answers now d :
  inputs_ok t → (respond_input t id revision command actor answers now).2 = Ok d →
  ∃ r, r ∈ (respond_input t id revision command actor answers now).1 ∧ holds_answer r id revision command actor answers.
Proof using.
  intros Hok. pose proof (respond_cases t id revision command actor answers now Hok) as H.
  destruct (respond_input _ _ _ _ _ _ _) as [t' r]. cbn. intros ->.
  destruct H as [[-> H]|(x & q & Hx & Hid & Hs & Hrev & _ & _ & _ & _ & ->)].
  - destruct (H d eq_refl) as (x & Hx & Hid & <- & Hc & Ha & Hr & Hans). by exists x.
  - eexists. split; [apply update_elem; exists x; split; [exact Hx|reflexivity]|]. unfold input_named. rewrite Hid, Hs, !bool_decide_eq_true_2 by done. done.
Qed.

(** Once a row has its answer, no other answer changes the table or is accepted. *)
Lemma respond_again t r command id revision command' actor answers now :
  inputs_ok t → r ∈ t → r.(ui_id) = id → r.(ui_command_id) = Some command →
  (respond_input t id revision command' actor answers now).1 = t ∧
  ∀ d, (respond_input t id revision command' actor answers now).2 = Ok d → holds_answer r id revision command' actor answers.
Proof using.
  intros Hok Hr Hid Hc. pose proof (respond_cases t id revision command' actor answers now Hok) as H.
  destruct (respond_input _ _ _ _ _ _ _) as [t' res]. cbn.
  destruct H as [[-> H]|(x & q & Hx & Hxid & Hs & _)].
  - split; [done|]. intros d Hd. destruct (H d Hd) as (x & Hx & Hxid & <- & ? & ? & ? & ?).
    by assert (x = r) as -> by (apply (unique_eq ui_id t); [apply Hok|done..|congruence]).
  - assert (x = r) as -> by (apply (unique_eq ui_id t); [apply Hok|done..|congruence]).
    by destruct (command_not_pending r command (is_rows _ Hok r Hr) Hc).
Qed.

(** C21: an answer that was accepted stays the only one of its form: whatever
    publications, answers, endings and expirations follow, the form keeps its
    command and its answers (or has lost its texts), is never open again, and
    another answer to it changes nothing and is accepted only when it is the
    same answer of the same person under the same command. *)
Theorem input_answered_once before after id revision command actor answers now d :
  (respond_input (input_run [] before) id revision command actor answers now).2 = Ok d →
  let t := input_run (respond_input (input_run [] before) id revision command actor answers now).1 after in
  (∃ r, r ∈ t ∧ r.(ui_id) = id ∧ r.(ui_command_id) = Some command ∧ r.(ui_state) ≠ "pending" ∧
     ((r.(ui_data).(in_actor), r.(ui_data).(in_answers)) = (Some actor, Some answers) ∨
      (r.(ui_data).(in_actor), r.(ui_data).(in_answers)) = (None, None))) ∧
  ∀ revision' command' actor' answers' now',
    (respond_input t id revision' command' actor' answers' now').1 = t ∧
    ∀ d', (respond_input t id revision' command' actor' answers' now').2 = Ok d' →
      (revision', command', actor', answers') = (revision, command, actor, answers).
Proof using.
  intros Hd t. destruct (input_run_ok before [] no_inputs_ok) as [Hok _]. destruct (respond_ok _ id revision command actor answers now Hok) as [Hok1 _].
  destruct (respond_accepted _ _ _ _ _ _ _ _ Hok Hd) as (r & Hr & Hid & Hc & Hrev & Ha & Hans).
  destruct (input_run_ok after _ Hok1) as [Hok2 Hl]. destruct (Hl r Hr) as (r' & Hr' & [E _ _ _ _ Hcmd Hkeep]). fold t in Hok2, Hr'.
  injection E as E1 _ _ _ _ _ _ E3 _ _. specialize (Hcmd _ Hc). specialize (Hkeep _ Hc). rewrite Ha, Hans in Hkeep.
  split; [exists r'; split_and!; [done|congruence|done|by apply (command_not_pending r' command); [apply Hok2|]|done]|].
  intros revision' command' actor' answers' now'.
  destruct (respond_again t r' command id revision' command' actor' answers' now' Hok2 Hr') as [H1 H2]; [congruence|done|].
  split; [done|]. intros d' (_ & H3 & H4 & H5 & H6)%H2. destruct Hkeep as [[= ? ?]|[= ? ?]]; congruence.
Qed.

(** C30: from an empty table, every sequence of operations keeps at most 32 forms
    of an agent open, 2048 in all and 100000 rows; a command answers at most one
    form; an open form has valid questions and no answer, a submitted one has
    answers that fit its questions, an applied one has been answered. *)
Theorem input_invariant ops :
  let t := input_run [] ops in
  unique ui_id t ∧
  (∀ owner, Z.of_nat (updated (λ r, bool_decide (r.(ui_owner) = owner) && input_active r) t) ≤ 32) ∧
  Z.of_nat (updated input_active t) ≤ 2048 ∧ Z.of_nat (length t) ≤ 100000 ∧
  (∀ r r' c, r ∈ t → r' ∈ t → r.(ui_command_id) = Some c → r'.(ui_command_id) = Some c → r = r') ∧
  ∀ r, r ∈ t → input_row_ok r.
Proof using.
  intros t. destruct (input_run_ok ops [] no_inputs_ok) as [[H1 H2 H3 H4 H5 H6] _]. split_and!; try done.
  intros r r' c Hr Hr' Hc Hc'. apply (unique_eq ui_id (input_run [] ops)); [done..|]. by apply (H3 r r' c).
Qed.
End InputRuns.

(** ** Requests *)

Section Authority.
Context `{L : InputLib}.
Context (project : string → option string) (live : InputData → bool) (source : InputData → option SourceAgent)
  (native_delegate : string → bool).

(** What a connection may do to the table: an agent publishes and ends its own
    forms, a human answers those of an agent that still runs. *)
Definition op_authorised (t : list InputRow) (c : InputConn) (now : Z) (op : InputOp) : Prop :=
  match op with
  | UCreate owner instance p _ _ origin callback n =>
    n = now ∧ c.(cn_primary) = Some (owner, instance) ∧ native_delegate instance = false ∧ p = project owner ∧
    (c.(cn_auxiliary) = true → origin = "mcp" ∧ callback = VNull)
  | URespond id _ _ actor _ n => n = now ∧ input_human c = true ∧ c.(cn_actor) = Some actor ∧ ∃ d, get_input t id = Some d ∧ live d = true
  | UFinish id owner instance _ _ n =>
    n = now ∧ c.(cn_primary) = Some (owner, instance) ∧ native_delegate instance = false ∧
    ∃ d, get_input t id = Some d ∧ d.(in_owner) = owner ∧ d.(in_instance) = instance ∧ d.(in_project) = project owner
  | UExpire n => n = now
  end.
Definition authorised (t : list InputRow) (c : InputConn) (now : Z) (t' : list InputRow) : Prop :=
  t' = t ∨ ∃ op, t' = input_step t op ∧ op_authorised t c now op.

Lemma fst_bind {A B} (x : list InputRow * result string A) (f : A → B) :
  (let '(t', r) := x in (t', d ← r; Ok (f d))).1 = x.1.
Proof using. by destruct x. Qed.

Lemma list_authorised t c owner now limit : authorised t c now (list_inputs t owner now limit).1.
Proof using. unfold list_inputs. destruct (negb _); [by left|]. right. by exists (UExpire now). Qed.
Lemma respond_authorised t c request id now :
  input_human c = true → authorised t c now (execute_respond live source t c request id now).1.
Proof using.
  intros Hh. unfold execute_respond. destruct (get_input t id) as [row|] eqn:Hg; [|by left]. destruct (live row) eqn:Hl; [|by left]. cbn [negb].
  destruct (as_str (index request "revision")) as [revision|]; [|by left]. cbn. destruct (as_str (index request "command_id")) as [command|]; [|by left]. cbn.
  destruct c.(cn_actor) as [actor|] eqn:Ha; [|by left]. cbn. rewrite fst_bind. right.
  exists (URespond id revision command actor (index request "answers") now). split; [done|]. split_and!; try done. by exists row.
Qed.
Lemma create_authorised t c owner instance publish request id now :
  c.(cn_primary) = Some (owner, instance) → native_delegate instance = false →
  authorised t c now (execute_create project t c owner instance publish request id now).1.
Proof using.
  intros Hp Hn. unfold execute_create. destruct (if publish then _ else _) as [origin|] eqn:Ho; [|by left].
  destruct (publish && c.(cn_auxiliary)) eqn:Ha; [by left|]. rewrite fst_bind. right. eexists (UCreate _ _ _ _ _ _ _ _). split; [reflexivity|].
  split_and!; try done. intros Haux. rewrite Haux, andb_true_r in Ha. subst publish. by injection Ho as <-.
Qed.
Lemma own_authorised t c owner instance action request id now :
  c.(cn_primary) = Some (owner, instance) → native_delegate instance = false →
  authorised t c now (execute_own project t owner instance action request id now).1.
Proof using.
  intros Hp Hn. unfold execute_own. destruct (get_input t id) as [row|] eqn:Hg; [|by left]. cbn.
  destruct (bool_decide (row.(in_owner) = owner) && _) eqn:Ho; [|by left]. cbn. destruct (bool_decide (row.(in_project) = _)) eqn:Hj; [|by left]. cbn [negb].
  rewrite andb_true_iff, !bool_decide_eq_true in Ho. destruct Ho. apply bool_decide_eq_true in Hj. rewrite fst_bind.
  assert (∀ command state, authorised t c now (finish_input t id owner instance command state now).1) as Hf.
  { intros command state. right. exists (UFinish id owner instance command state now). split; [done|]. split_and!; try done. by exists row. }
  destruct (_ || _); [by destruct (_ && _); [|left]|]. destruct (bool_decide (action = "cancel")); [done|].
  destruct (bool_decide (action = "ack")); [done|]. destruct (bool_decide (action = "close")); [|by left].
  destruct (as_str _); [done|by left].
Qed.

(** C22: a request leaves the table as it is, or does one operation that its
    connection may do: only the agent of a live connection, no native delegate,
    publishes forms in its name (from an auxiliary connection without origin or
    callback) and ends its own ones, in the project where they were published;
    only a human client that negotiated the capability answers, in the name of
    that client, and only a form whose agent still runs. *)
Theorem input_authority t c request now : authorised t c now (execute project live source native_delegate t c request now).1.
Proof using.
  unfold execute. destruct (_ <? _); [by left|]. destruct (action ← _; _) as [[action fields]|]; [|by left].
  destruct (negb (fields_ok _ _)); [by left|]. destruct (negb c.(cn_known_role)); [by left|]. destruct (negb c.(cn_negotiated) && _); [by left|].
  set (id := default "" _). destruct (bool_decide (action = "list") || _).
  { destruct (input_human c) eqn:Hh; [|by left]. cbn [negb]. destruct (bool_decide (action = "list")); [|by apply respond_authorised].
    rewrite fst_bind. apply list_authorised. }
  destruct (bool_decide (action = "status") && _); [by left|]. destruct c.(cn_primary) as [[owner instance]|] eqn:Hp; [|by left].
  destruct (native_delegate instance) eqn:Hn; [by left|]. destruct (bool_decide (action = "create")); [by apply create_authorised|].
  destruct (bool_decide (action = "publish")); [by apply create_authorised|]. destruct (bool_decide (action = "pending")); [|by apply own_authorised].
  rewrite fst_bind. apply list_authorised.
Qed.
End Authority.

(** ** Examples *)

Module InputExamples.
#[local] Existing Instance Canonical.lib.

(** The texts of values without escapes, and the text itself as its digest. *)
Fixpoint plain (v : Value) : string :=
  match v with
  | VNull => "null"
  | VBool b => if b then "true" else "false"
  | VNum z => pretty z
  | VReal s => s
  | VString s => "'" +:+ s +:+ "'"
  | VArray l => "[" +:+ String.concat "," (plain <$> l) +:+ "]"
  | VObject l => "{" +:+ String.concat "," ((λ kv, kv.1 +:+ ":" +:+ plain kv.2) <$> l) +:+ "}"
  end.
#[local] Instance inputs_lib : @InputLib Canonical.lib := {|
  get_version_num u := default 0 ((u : list Z) !! 12%nat);
  json_text := plain;
  digest_hex s := s |}.

Definition form : Value :=
  VArray [VObject [("header", VString "Choice"); ("id", VString "q1");
    ("options", VArray [VObject [("label", VString "A")]; VObject [("label", VString "B")]]); ("question", VString "Which path?")]].
Definition chosen (l : list string) (body : string) : Value :=
  VObject [("q1", VObject [("selected", VArray (VString <$> l)); ("text", VString body)])].
Definition a_form : string := "00000000-0000-4000-8000-000000000001".
Definition a_command : string := "00000000-0000-4000-8000-000000000002".
Definition published : list InputOp := [UCreate "agent" "instance" None a_form form "mcp" VNull 100].
Definition answered_table (now : Z) : list InputRow := (respond_input (input_run [] published) a_form (plain form) a_command "human" (chosen ["A"] "") now).1.

Example accepts_and_refuses :
  (λ a, is_ok (validate_answers form a)) <$> [chosen ["A"] ""; chosen [] "free"; chosen ["A"] "and more"; chosen [] " "; chosen ["A"; "B"] ""; chosen ["C"] ""; VObject []] =
  [true; true; true; false; false; false; false].
Proof. vm_compute. reflexivity. Qed.

(** A form that was answered and whose agent never says what it did with the
    answer: ten years later it is still active, with the texts of the answer. *)
Example answer_kept_for_ever :
  let t := input_run (answered_table 200) [UExpire (200 + 3650 * 86400); UCreate "agent" "instance" None a_command form "t3" VNull (201 + 3650 * 86400)] in
  has_active t (400 + 7300 * 86400) = true ∧ (λ r, (r.(ui_state), is_some r.(ui_data).(in_answers))) <$> t = [("submitted", true); ("pending", false)].
Proof. vm_compute. done. Qed.

Lemma input_answered_once_witness :
  (∃ r, r ∈ input_run (answered_table 200) [UFinish a_form "agent" "instance" (Some a_command) "applied" 300; UExpire (400 + RETENTION)] ∧
     r.(ui_id) = a_form ∧ r.(ui_command_id) = Some a_command ∧ r.(ui_state) ≠ "pending" ∧
     ((r.(ui_data).(in_actor), r.(ui_data).(in_answers)) = (Some "human", Some (chosen ["A"] "")) ∨
      (r.(ui_data).(in_actor), r.(ui_data).(in_answers)) = (None, None))).
Proof.
  assert (∃ d, (respond_input (input_run [] published) a_form (plain form) a_command "human" (chosen ["A"] "") 200).2 = Ok d) as [d Hd]
    by (vm_compute; by eexists).
  exact (proj1 (input_answered_once published [UFinish a_form "agent" "instance" (Some a_command) "applied" 300; UExpire (400 + RETENTION)]
    a_form (plain form) a_command "human" (chosen ["A"] "") 200 d Hd)).
Defined.
End InputExamples.
