(* ===== verification/NativeInputs.v ===== *)
(** * NativeInputs: the questions of the providers, [bridget-daemon/src/daemon/user_input.rs]

    A provider (Codex, Claude, t3code) asks its user through its own callback:
    the wrapper sends the request, the daemon publishes it as a form of
    [UserInputs], and a tick sends the answer back to the exact callback until
    the wrapper says what became of it.  The JSON of a request and the
    identifiers of version 5 are arguments ([NativeCodec]). *)

From S2P Require Import Prelude Text Uuid Sql Json UserInputs InputRuns.
Local Open Scope Z_scope.

Inductive ChildProviderRequestId := PString (s : string) | PNumber (z : Z).
Inductive ChildRequestKind := ApprovalCommand | ApprovalFile | ElicitationForm | UserInput.
Inductive ChildRequestDecision := DecisionAccept | DecisionDecline | DecisionCancel.
Inductive ChildRequestClosedState := ClosedBeforeApply | AlreadyApplied.
#[export] Instance ChildRequestKind_eq_dec : EqDecision ChildRequestKind.
Proof. solve_decision. Defined.
#[export] Instance ChildRequestClosedState_eq_dec : EqDecision ChildRequestClosedState.
Proof. solve_decision. Defined.
Record ChildProviderRequest := mkChildRequest {
  cr_version : Z; cr_provider_session : string; cr_turn_id : string; cr_provider_request_id : ChildProviderRequestId;
  cr_kind : ChildRequestKind; cr_details : Value; cr_offered : list ChildRequestDecision; cr_question_ids : list string; cr_truncated : bool }.
Record ChildRequestAnswer := mkChildAnswer {
  ca_request_id : string; ca_provider_session : string; ca_turn_id : string; ca_provider_request_id : ChildProviderRequestId;
  ca_decision : ChildRequestDecision; ca_answer : option Value; ca_outcome : string }.

(** [to_value], [from_value], and the text of [Uuid::new_v5] in the namespace of the OIDs. *)
Class NativeCodec := {
  request_to_json : ChildProviderRequest → Value;
  request_from_json : Value → option ChildProviderRequest;
  new_v5_oid : string → string }.
Class NativeLaws (C : NativeCodec) := {
  request_roundtrip r : request_from_json (request_to_json r) = Some r;
  request_null : request_from_json VNull = None }.

(** What the daemon knows of the connection of a wrapper. *)
Record NativeConn := mkNativeConn {
  nc_identity : option (string * string);  (* [live_connection_identity] *)
  nc_session : option string;  (* [native_permission_facts] *)
  nc_auxiliary : bool }.

Section Native.
Context `{L : InputLib} `{C : NativeCodec}.
Context (project : string → option string) (live : InputData → bool) (native_delegate : string → bool).
(** The connection of the route of an agent, when it can be written to. *)
Context (writer : string → option string).

(** ** Publication *)

Definition native_option (o : Value) : Value :=
  let base := [("description", default (VString "") (value_get "description" o)); ("label", index o "label")] in
  VObject (match value_get "value" o with Some v => map_insert "value" v base | None => base end).
Definition copy_key (q : Value) (key : string) (l : list (string * Value)) : list (string * Value) :=
  match value_get key q with Some v => map_insert key v l | None => l end.
Definition native_question (n : Z) (q : Value) : result string Value :=
  if bool_decide (index q "isSecret" = VBool true) || bool_decide (index q "is_secret" = VBool true) then Err "secret_not_forwardable"
  else
    id ← ok_or (as_str (index q "id")) "invalid_questions";
    options ← ok_or (as_array (index q "options")) "invalid_questions";
    Ok (VObject (copy_key q "required" (copy_key q "initialAnswer"
      [("allowCustomAnswer", VBool (default true (as_bool (index q "allowCustomAnswer"))));
       ("header", default (VString ("Question " +:+ pretty (n + 1))) (value_get "header" q));
       ("id", VString id);
       ("multiSelect", VBool (default false (as_bool (index q "multiSelect"))));
       ("options", VArray (native_option <$> options));
       ("question", index q "question")]))).
Fixpoint native_questions (n : Z) (l : list Value) : result string (list Value) :=
  match l with
  | [] => Ok []
  | q :: l => v ← native_question n q; rest ← native_questions (n + 1) l; Ok (v :: rest)
  end.
Definition output_ids (form : Value) : list string := omap (λ v, as_str (index v "id")) (default [] (as_array form)).
Definition native_form (request : ChildProviderRequest) : result string Value :=
  if negb (request.(cr_version) =? 1) then Err "unsupported_version"
  else if request.(cr_truncated) || bool_decide (index request.(cr_details) "secret" = VBool true) then Err "secret_not_forwardable"
  else
    raw ← ok_or (as_array (index request.(cr_details) "questions")) "invalid_questions";
    output ← native_questions 0 raw;
    let form := VArray output in
    _ ← validate_questions form;
    if negb (bool_decide (output_ids form = request.(cr_question_ids))) then Err "invalid_questions" else Ok form.

Definition T3_METHOD : string := "t3.runtime-request.respond".
Definition primary_request (c : NativeConn) (request : ChildProviderRequest) : bool :=
  bool_decide (request.(cr_kind) = UserInput)
  && (bool_decide (index request.(cr_details) "method" = VString T3_METHOD)
      || is_none_or c.(nc_session) (λ s, bool_decide (s = request.(cr_provider_session))))
  && negb c.(nc_auxiliary)
  && match c.(nc_identity) with Some (_, i) => negb (native_delegate i) | None => false end.

Definition request_id_json (id : ChildProviderRequestId) : Value := match id with PString s => VString s | PNumber z => VNum z end.
Definition native_key (identity : option (string * string)) (request : ChildProviderRequest) : string :=
  json_text (VArray
    [match identity with Some (a, i) => VArray [VString a; VString i] | None => VNull end;
     VString request.(cr_provider_session); VString request.(cr_turn_id); request_id_json request.(cr_provider_request_id);
     if bool_decide (index request.(cr_details) "method" = VString T3_METHOD) then index request.(cr_details) "questions" else VNull]).
Definition native_id (identity : option (string * string)) (request : ChildProviderRequest) : string :=
  new_v5_oid ("bridget.user-input.v1:" +:+ native_key identity request).
Definition origin_of_method (method : Value) : option string :=
  m ← as_str method;
  if bool_decide (m = "item/tool/requestUserInput") then Some "codex"
  else if bool_decide (m = "AskUserQuestion") then Some "claude"
  else if bool_decide (m = T3_METHOD) then Some "t3" else None.
(** [Ok] is the form that was published, [Err] the refusal that the callback gets. *)
Definition receive_native (t : list InputRow) (c : NativeConn) (request : ChildProviderRequest) (now : Z)
    : list InputRow * result ChildRequestAnswer InputData :=
  let id := native_id c.(nc_identity) request in
  let '(t', r) :=
    match
      if negb (primary_request c request) then Err "request_unlinked"
      else
        identity ← ok_or c.(nc_identity) "identity_unavailable";
        origin ← ok_or (origin_of_method (index request.(cr_details) "method")) "request_unsupported";
        form ← native_form request;
        Ok (identity, origin, form)
    with
    | Err e => (t, Err e)
    | Ok ((owner, instance), origin, form) => create_input t owner instance (project owner) id form origin (request_to_json request) now
    end in
  (t', match r with
       | Ok item => Ok item
       | Err reason =>
         Err (mkChildAnswer id request.(cr_provider_session) request.(cr_turn_id) request.(cr_provider_request_id) DecisionDecline None
                ("user_input_refused:" +:+ reason))
       end).

(** ** The answers on their way back *)

Definition native_origin (origin : string) : bool := existsb (λ x, bool_decide (x = origin)) ["codex"; "claude"; "t3"].
Definition BATCH : nat := 32.
Definition dispatchable (r : InputRow) : bool := bool_decide (r.(ui_state) = "submitted") && native_origin r.(ui_origin).
Definition row_after (after : Z * string) (r : InputRow) : bool :=
  (after.1 <? r.(ui_created_at)) || ((r.(ui_created_at) =? after.1) && String.ltb after.2 r.(ui_id)).
Definition dispatch_rows (t : list InputRow) (request_id : option string) (after : Z * string) : list InputRow :=
  take BATCH (sort_by input_order
    (select (λ r, dispatchable r && match request_id with Some id => input_named id r | None => row_after after r end) t)).

Definition native_values (codex : bool) (answers : Value) (id : string) : list Value :=
  let a := index answers id in
  default [] (as_array (index a "selected"))
  ++ match as_str (index a "text") with
     | Some text => if bool_decide (text = "") then [] else [VString (if codex then "user_note: " +:+ text else text)]
     | None => []
     end.
Definition native_answer (origin : string) (question_ids : list string) (answers : Value) : Value :=
  if bool_decide (origin = "codex") || bool_decide (origin = "t3")
  then VObject (foldl (λ l id, map_insert id (VArray (native_values (bool_decide (origin = "codex")) answers id)) l) [] question_ids)
  else answers.
Definition native_frame (d : InputData) : option (string * ChildRequestAnswer) :=
  if negb (live d) then None
  else
    connection ← writer d.(in_owner);
    callback ← request_from_json (default VNull d.(in_callback));
    Some (connection,
          mkChildAnswer d.(in_request_id) callback.(cr_provider_session) callback.(cr_turn_id) callback.(cr_provider_request_id) DecisionAccept
            (Some (native_answer d.(in_origin) callback.(cr_question_ids) (default VNull d.(in_answers))))
            (if bool_decide (d.(in_origin) = "t3") then default "" d.(in_command_id) else "human_user_input")).
(** The cursor that the daemon keeps, and the frames to write. *)
Definition tick_request (t : list InputRow) (request_id : option string) (cursor : option (Z * string))
    : option (Z * string) * list (string * ChildRequestAnswer) :=
  let rows := dispatch_rows t request_id (default (-1, "") cursor) in
  (if is_some request_id then cursor else (λ r, (r.(ui_data).(in_created_at), r.(ui_data).(in_request_id))) <$> last rows,
   omap (λ r, native_frame r.(ui_data)) rows).

(** ** What became of an answer *)

(** Whether the message was about a form of a provider. *)
Definition native_ack (t : list InputRow) (c : NativeConn) (id : string) (applied : option bool) (closed : option ChildRequestClosedState) (now : Z)
    : list InputRow * bool :=
  match get_input t id with
  | None => (t, false)
  | Some row =>
    if negb (native_origin row.(in_origin)) then (t, false)
    else
      match c.(nc_identity) with
      | None => (t, true)
      | Some (owner, instance) =>
        if negb (bool_decide (row.(in_owner) = owner)) || negb (bool_decide (row.(in_instance) = instance)) || c.(nc_auxiliary) then (t, true)
        else
          let phase :=
            if bool_decide (applied = Some true) || (bool_decide (closed = Some AlreadyApplied) && bool_decide (row.(in_state) = "submitted"))
            then "applied"
            else if bool_decide (applied = Some false) then "closed"
            else if bool_decide (row.(in_state) = "pending") then "resolved_elsewhere" else "closed" in
          ((finish_input t id owner instance row.(in_command_id) phase now).1, true)
      end
  end.
End Native.

(** ** A form keeps the request that it was published for *)

Section Delivery.
Context `{L : InputLib} `{C : NativeCodec} {NL : NativeLaws C}.
Context (project : string → option string) (live : InputData → bool) (native_delegate : string → bool) (writer : string → option string).

Lemma create_accepted t owner instance project_ id questions origin callback now d :
  inputs_ok t → (create_input t owner instance project_ id questions origin callback now).2 = Ok d →
  ∃ r, r ∈ (create_input t owner instance project_ id questions origin callback now).1 ∧ r.(ui_id) = id ∧ r.(ui_data) = d ∧
    d.(in_request_id) = id ∧ d.(in_owner) = owner ∧ d.(in_origin) = origin ∧ default VNull d.(in_callback) = callback.
Proof using.
  intros Hok. pose proof (inputs_expire_ok t now Hok) as [Hok1 _]. unfold create_input. destruct (validate_questions _ ≫= _) as [[revision ref]|]; [|done].
  destruct (get_input (expire_inputs t now) id) as [row|] eqn:Hg.
  - apply (get_input_Some _ _ _ Hok1) in Hg as (r & Hr & Hid & <-).
    destruct (negb (bool_decide (in_owner _ = _)) || _) eqn:Ho; [done|]. destruct (_ <=? now); [done|].
    destruct (_ || negb (bool_decide (default VNull _ = _))) eqn:Hc; [done|]. cbn. intros [= <-].
    rewrite !orb_false_iff, !negb_false_iff, !bool_decide_eq_true in Ho. rewrite !orb_false_iff, !negb_false_iff, !bool_decide_eq_true in Hc. exists r. pose proof (ir_columns _ (is_rows _ Hok1 r Hr)) as E.
    split_and!; try done; [by injection E; congruence|apply Ho|apply Hc|apply Hc].
  - destruct (_ || (100000 <=? _)); [done|]. destruct (exists_row _ _); [done|]. cbn. intros [= <-].
    eexists. split; [apply elem_of_app; right; by apply list_elem_of_singleton|]. done.
Qed.
Lemma receive_accepted t c rq now d :
  inputs_ok t → (receive_native project native_delegate t c rq now).2 = Ok d →
  ∃ r, r ∈ (receive_native project native_delegate t c rq now).1 ∧ r.(ui_id) = d.(in_request_id) ∧ r.(ui_data) = d ∧
    d.(in_callback) = Some (request_to_json rq) ∧ native_origin d.(in_origin) = true.
Proof using NL.
  intros Hok. unfold receive_native. destruct (negb _); [done|]. destruct c.(nc_identity) as [[owner instance]|]; [|done].
  cbn -[create_input]. destruct (origin_of_method _) as [origin|] eqn:Ho; [|done]. cbn -[create_input].
  destruct (native_form rq) as [form|]; [|done]. cbn -[create_input].
  pose proof (create_accepted t owner instance (project owner) (native_id (Some (owner, instance)) rq) form origin (request_to_json rq) now) as H.
  destruct (create_input _ _ _ _ _ _ _ _ _) as [t' [d0|]]; [|done]. cbn in *. intros [= <-].
  destruct (H d0 Hok eq_refl) as (r & Hr & Hid & Hd & H1 & _ & H2 & H3). exists r. split_and!; [done|congruence|done| |].
  - destruct d0.(in_callback) as [v|]; [by cbn in H3; subst v|]. cbn in H3. pose proof request_null as Hn. rewrite H3, request_roundtrip in Hn. done.
  - rewrite H2. unfold origin_of_method in Ho. destruct (as_str _) as [m|]; [|done]. cbn in Ho.
    repeat (destruct (bool_decide _); [by injection Ho as <-|]). done.
Qed.
Lemma receive_ok t c rq now :
  inputs_ok t → inputs_ok (receive_native project native_delegate t c rq now).1 ∧ inputs_later t (receive_native project native_delegate t c rq now).1.
Proof using.
  intros Hok. unfold receive_native. destruct (if negb _ then _ else _) as [[[[owner instance] origin] form]|]; [|done].
  pose proof (input_create_ok t owner instance (project owner) (native_id c.(nc_identity) rq) form origin (request_to_json rq) now Hok) as H.
  by destruct (create_input _ _ _ _ _ _ _ _ _).
Qed.

Lemma answer_get codex answers ids : ∀ l q,
  map_get q (foldl (λ l id, map_insert id (VArray (native_values codex answers id)) l) l ids) =
  if decide (q ∈ ids) then Some (VArray (native_values codex answers q)) else map_get q l.
Proof using.
  induction ids as [|id ids IH]; intros l q; cbn [foldl]; [by destruct (decide (q ∈ [])) as [?%elem_of_nil|]|].
  rewrite IH, map_get_insert. destruct (decide (q ∈ ids)) as [H|H].
  - by rewrite decide_True by by right.
  - destruct (decide (q = id)) as [->|Hne]; [by rewrite decide_True by by left|]. rewrite decide_False; [done|]. by intros [?|?]%elem_of_cons.
Qed.

(** The tick that follows an answer reads the row of the form. *)
Lemma dispatch_one t r after : inputs_ok t → r ∈ t → dispatchable r = true → dispatch_rows t (Some r.(ui_id)) after = [r].
Proof using.
  intros Hok Hr Hd. unfold dispatch_rows. rewrite (select_unique ui_id _ t r); [done|apply Hok|done| |].
  - rewrite Hd. by apply bool_decide_eq_true_2.
  - intros r' [_ ?%bool_decide_eq_true]%andb_true_iff. done.
Qed.

(** C23: the answer to the request of a provider comes back to that request:
    whatever happened between, as long as its form is submitted, and its agent
    is live and has a writer, the tick for the form writes one frame to the
    agent, which accepts the exact session, turn and request, with the answers of
    the human as they are for Claude, and for the others with the choices of each
    question followed by its free text. *)
Theorem native_answer_delivered before middle after c rq now d revision command actor answers now' d' r connection cursor :
  let t1 := receive_native project native_delegate (input_run [] before) c rq now in
  t1.2 = Ok d →
  let t2 := respond_input (input_run t1.1 middle) d.(in_request_id) revision command actor answers now' in
  t2.2 = Ok d' →
  let t := input_run t2.1 after in
  r ∈ t → r.(ui_id) = d.(in_request_id) → r.(ui_state) = "submitted" → live r.(ui_data) = true → writer d.(in_owner) = Some connection →
  ∃ body,
    (tick_request live writer t (Some d.(in_request_id)) cursor).2 =
      [(connection, mkChildAnswer d.(in_request_id) rq.(cr_provider_session) rq.(cr_turn_id) rq.(cr_provider_request_id) DecisionAccept (Some body)
          (if bool_decide (d.(in_origin) = "t3") then command else "human_user_input"))] ∧
    (d.(in_origin) = "claude" → body = answers) ∧
    ∀ q, q ∈ rq.(cr_question_ids) → d.(in_origin) = "codex" ∨ d.(in_origin) = "t3" →
      index body q = VArray (native_values (bool_decide (d.(in_origin) = "codex")) answers q).
Proof using NL.
  intros t1 Hd t2 Hd' t Hr Hid Hs Hlive Hw. destruct (input_run_ok before [] no_inputs_ok) as [Hok0 _].
  destruct (receive_accepted _ _ _ _ _ Hok0 Hd) as (r1 & Hr1 & Hid1 & <- & Hcb & Ho). destruct (receive_ok _ c rq now Hok0) as [Hok1 _].
  destruct (input_run_ok middle _ Hok1) as [Hok2 Hl2]. destruct (respond_ok _ r1.(ui_data).(in_request_id) revision command actor answers now' Hok2) as [Hok3 Hl3].
  destruct (respond_accepted _ _ _ _ _ _ _ _ Hok2 Hd') as (r3 & Hr3 & Hid3 & Hc3 & _ & Ha3 & Hans3).
  destruct (input_run_ok after _ Hok3) as [Hok Hl]. fold t1 t2 in Hok, Hok3, Hl, Hl2, Hl3, Hr3, Hr1. fold t in Hok, Hl.
  assert (input_later r1 r) as [E Htexts _ _ _ _ _].
  { destruct (Hl2 r1 Hr1) as (ra & Hra & L1), (Hl3 ra Hra) as (rb & Hrb & L2), (Hl rb Hrb) as (rc & Hrc & L3). etrans; [exact L1|]. etrans; [exact L2|].
    assert (rc = r) as <-; [|done]. apply (unique_eq ui_id t); [apply Hok|done..|]. pose proof (it_same _ _ L1). pose proof (it_same _ _ L2). pose proof (it_same _ _ L3). congruence. }
  assert (input_later r3 r) as [E3 _ _ _ _ Hcmd Hkeep].
  { destruct (Hl r3 Hr3) as (rc & Hrc & L3). assert (rc = r) as <-; [|done]. apply (unique_eq ui_id t); [apply Hok|done..|]. pose proof (it_same _ _ L3). congruence. }
  specialize (Hcmd _ Hc3). specialize (Hkeep _ Hc3). rewrite Ha3, Hans3 in Hkeep.
  pose proof (is_rows _ Hok r Hr) as Hrow. destruct (row_state r Hrow) as [Es Ec]. pose proof (ir_columns _ Hrow) as Ecol.
  assert (r.(ui_data).(in_answers) = Some answers) as Hans.
  { destruct Hkeep as [[= _ ?]|[= _ Hn]]; [done|]. destruct (ir_state _ Hrow) as [[H _]|[[_ (? & ? & ? & _ & _ & _ & H & _)]|[[H _]|[H _]]]]; try congruence.
    rewrite <-Es, Hs in H. done. }
  destruct Htexts as [[= Hcb' _]|[Hn _]]; [|unfold input_active in Hn; by rewrite Hs in Hn].
  unfold input_fixed in E. injection E as _ _ F1 F2 F3 F4 F5 F6 F7 F8.
  unfold tick_request. cbn [snd]. rewrite <-Hid, dispatch_one; [|done..|].
  2: { unfold dispatchable. rewrite Hs. cbn. injection Ecol as _ _ _ _ _ _ -> _. by rewrite F5. }
  cbn [omap list_omap]. unfold native_frame. rewrite Hlive, F2, Hw, Hcb', Hcb. cbn [negb default from_option id]. rewrite request_roundtrip.
  cbn [mbind option_bind]. rewrite F5, <-Ec, Hcmd, Hans. cbn [default from_option id].
  eexists. split; [injection Ecol as <- _ _ _ _ _ _ _; reflexivity|]. unfold native_answer. split.
  - by intros ->.
  - intros q Hq Hor. assert (bool_decide (r1.(ui_data).(in_origin) = "codex") || bool_decide (r1.(ui_data).(in_origin) = "t3") = true) as ->.
    { rewrite orb_true_iff, !bool_decide_eq_true. done. }
    unfold index, value_get. cbn. rewrite answer_get, decide_True by done. done.
Qed.
End Delivery.

(** ** The messages of the providers are operations of the table *)

Section Operations.
Context `{L : InputLib} `{C : NativeCodec}.
Context (project : string → option string) (native_delegate : string → bool).

Lemma receive_operation t c rq now :
  (receive_native project native_delegate t c rq now).1 = t ∨
  ∃ owner instance origin form, c.(nc_identity) = Some (owner, instance) ∧ native_delegate instance = false ∧ c.(nc_auxiliary) = false ∧
    (receive_native project native_delegate t c rq now).1 =
      input_step t (UCreate owner instance (project owner) (native_id c.(nc_identity) rq) form origin (request_to_json rq) now).
Proof using.
  unfold receive_native. destruct (primary_request native_delegate c rq) eqn:Hp; [|by left]. cbn [negb].
  unfold primary_request in Hp. destruct c.(nc_identity) as [[owner instance]|]; [|by left]. rewrite !andb_true_iff, !negb_true_iff in Hp.
  cbn -[create_input]. destruct (origin_of_method _) as [origin|]; [|by left]. cbn -[create_input]. destruct (native_form rq) as [form|]; [|by left].
  right. exists owner, instance, origin, form. destruct Hp as [[_ ?] ?]. split_and!; try done. cbn -[create_input]. by destruct (create_input _ _ _ _ _ _ _ _ _).
Qed.
Lemma ack_operation t c id applied closed now :
  (native_ack t c id applied closed now).1 = t ∨
  ∃ owner instance command state, c.(nc_identity) = Some (owner, instance) ∧ c.(nc_auxiliary) = false ∧
    (native_ack t c id applied closed now).1 = input_step t (UFinish id owner instance command state now).
Proof using.
  unfold native_ack. destruct (get_input t id) as [row|]; [|by left]. destruct (negb (native_origin _)); [by left|].
  destruct c.(nc_identity) as [[owner instance]|]; [|by left]. destruct (_ || c.(nc_auxiliary)) eqn:H; [by left|].
  apply orb_false_iff in H as [_ H]. right. do 4 eexists. split; [done|]. by split.
Qed.
End Operations.

(** ** Every answer is sent in turn *)

Section Fairness.
Context `{L : InputLib} `{C : NativeCodec}.
Context (live : InputData → bool) (writer : string → option string).

(** The frames of successive ticks. *)
Fixpoint ticks (n : nat) (t : list InputRow) (cursor : option (Z * string)) : list (string * ChildRequestAnswer) :=
  match n with
  | O => []
  | S n => let '(cursor, frames) := tick_request live writer t None cursor in frames ++ ticks n t cursor
  end.
Definition input_stamp (r : InputRow) : Z * string := (r.(ui_created_at), r.(ui_id)).
Definition waiting_rows (t : list InputRow) : list InputRow := sort_by input_order (select dispatchable t).

Lemma stamp_unique t : inputs_ok t → unique input_stamp t.
Proof using. intros Hok. apply (unique_via ui_id); [apply Hok|]. intros r r' _ _ [= _ ?]. done. Qed.
Lemma waiting_sorted t : inputs_ok t → StronglySorted (λ a b, stamp_order input_stamp a b = true) (waiting_rows t) ∧ NoDup (input_stamp <$> waiting_rows t).
Proof using.
  intros Hok. split; [apply (stamp_sorted input_stamp)|]. unfold waiting_rows. rewrite sort_by_perm. apply (unique_select input_stamp), stamp_unique, Hok.
Qed.
Lemma dispatch_batch t c : inputs_ok t → dispatch_rows t None c = take BATCH (List.filter (stamp_after input_stamp c) (waiting_rows t)).
Proof using.
  intros Hok. unfold dispatch_rows. f_equal. change (waiting_rows t) with (sort_by (stamp_order input_stamp) (select dispatchable t)).
  rewrite <-(rows_after input_stamp) by (by apply stamp_unique). change input_order with (stamp_order input_stamp). f_equal.
  apply List.filter_ext. intros r. by rewrite stamp_after_sql.
Qed.
(** The rows that the round has not reached. *)
Definition rest_after (t : list InputRow) (cursor : option (Z * string)) : list InputRow :=
  List.filter (stamp_after input_stamp (default (-1, "") cursor)) (waiting_rows t).
(** What a tick leaves for the next one. *)
Lemma tick_next t cursor :
  inputs_ok t →
    let cursor' := (tick_request live writer t None cursor).1 in
  (rest_after t cursor = [] → cursor' = None) ∧
  (rest_after t cursor ≠ [] → rest_after t cursor' = drop BATCH (rest_after t cursor)).
Proof using.
  intros Hok. unfold tick_request. cbn [fst is_some]. rewrite dispatch_batch by done. fold (rest_after t cursor).
  set (rest := rest_after t cursor). split; [by intros ->|]. intros Hne.
  destruct (last (take BATCH rest)) as [x|] eqn:Hx; [|apply last_None in Hx; by destruct rest]. cbn [fmap option_fmap option_map]. unfold rest_after at 1. cbn [default from_option id].
  destruct (waiting_sorted t Hok) as [Hs Hnd].
  assert (x ∈ t) as Hxt.
  { apply last_Some_elem_of, elem_of_take in Hx as (i & Hi & _). apply list_elem_of_lookup_2 in Hi. apply list_filter_elem in Hi as [Hi _].
    unfold waiting_rows in Hi. rewrite sort_by_perm in Hi. by apply select_elem in Hi as [? _]. }
  pose proof (ir_columns _ (is_rows _ Hok x Hxt)) as E. injection E as <- _ _ _ _ _ _ <-.
  apply (rows_rest input_stamp _ (default (-1, "") cursor) (take BATCH rest)); [exact Hs|exact Hnd|by rewrite take_drop|exact Hx].
Qed.

Section Row.
Context (t : list InputRow) (Hok : inputs_ok t) (r : InputRow) (f : string * ChildRequestAnswer) (Hf : native_frame live writer r.(ui_data) = Some f).

Lemma ticks_pass n : ∀ cursor,
  r ∈ rest_after t cursor →
  (length (rest_after t cursor) ≤ n * BATCH)%nat → f ∈ ticks n t cursor.
Proof using Hok Hf.
  induction n as [|n IH]; intros cursor Hr Hn.
  - destruct (rest_after t cursor) as [|y l]; [by apply elem_of_nil in Hr|cbn in Hn; lia].
  - cbn [ticks]. pose proof (tick_next t cursor Hok) as [_ Hnext]. set (rest := rest_after t cursor) in *.
    assert (rest ≠ []) as Hne by (intros E; rewrite E in Hr; by apply elem_of_nil in Hr). specialize (Hnext Hne).
    destruct (tick_request live writer t None cursor) as [cursor' frames] eqn:E. cbn in Hnext. apply elem_of_app.
    rewrite <-(take_drop BATCH rest) in Hr. apply elem_of_app in Hr as [Hr|Hr].
    + left. unfold tick_request in E. injection E as _ <-. rewrite dispatch_batch by done. apply list_elem_of_omap. by exists r.
    + right. apply IH; rewrite Hnext; [done|]. rewrite length_drop. unfold BATCH in *. lia.
Qed.
Lemma ticks_restart m cursor :
  r ∈ waiting_rows t → 0 ≤ r.(ui_created_at) → (length (waiting_rows t) ≤ m * BATCH)%nat →
  rest_after t cursor = [] → f ∈ ticks (S m) t cursor.
Proof using Hok Hf.
  intros Hr Hpos Hm E. pose proof (proj1 (tick_next t cursor Hok) E) as Hc. cbn [ticks].
  destruct (tick_request live writer t None cursor) as [cursor' frames]. cbn in Hc. subst cursor'. apply elem_of_app. right.
  apply ticks_pass; [|etrans; [apply List.filter_length_le|done]]. apply list_filter_elem. split; [done|].
  rewrite stamp_after_sql. cbn. by rewrite (proj2 (Z.ltb_lt _ _)) by lia.
Qed.
Lemma ticks_turn n m : ∀ cursor,
  r ∈ waiting_rows t → 0 ≤ r.(ui_created_at) →
  (length (rest_after t cursor) ≤ n * BATCH)%nat →
  (length (waiting_rows t) ≤ m * BATCH)%nat → f ∈ ticks (n + S m) t cursor.
Proof using Hok Hf.
  induction n as [|n IH]; intros cursor Hr Hpos Hn Hm.
  - apply ticks_restart; [done..|]. apply length_zero_iff_nil. lia.
  - destruct (decide (rest_after t cursor = [])) as [E|E].
    + replace (S n + S m)%nat with (S (n + S m)) by lia. apply ticks_restart; [done|done|unfold BATCH in *; lia|done].
    + pose proof (proj2 (tick_next t cursor Hok) E) as H. cbn [ticks Nat.add].
      destruct (tick_request live writer t None cursor) as [cursor' frames]. cbn in H. apply elem_of_app. right. apply IH; [done|done| |done].
      rewrite H, length_drop. unfold BATCH in *. lia.
Qed.
End Row.

(** C24: no form keeps the answers of the others from leaving.  While the table of
    the forms does not change, wherever the ticks are in their round and however
    many forms wait for agents that do not answer, within two rounds of 32 forms
    a tick the answer of a submitted form that came from a provider (Codex,
    Claude or T3) is written, when its stored request can be read and its agent
    runs with a writer. *)
Theorem dispatch_fair ops cursor r frame :
  let t := input_run [] ops in
  r ∈ t → dispatchable r = true → 0 ≤ r.(ui_created_at) → native_frame live writer r.(ui_data) = Some frame →
  frame ∈ ticks (2 * (length t / 32) + 3) t cursor.
Proof using.
  intros t Hr Hd Hpos Hf. destruct (input_run_ok ops [] no_inputs_ok) as [Hok _]. fold t in Hok.
  assert (length (waiting_rows t) ≤ S (length t / 32) * BATCH)%nat as Hlen.
  { unfold waiting_rows. rewrite sort_by_perm. etrans; [apply List.filter_length_le|]. unfold BATCH. pose proof (Nat.div_mod_eq (length t) 32).
    pose proof (Nat.mod_upper_bound (length t) 32). lia. }
  replace (2 * (length t / 32) + 3)%nat with (S (length t / 32) + S (S (length t / 32)))%nat by lia.
  apply (ticks_turn t Hok r frame Hf); [|done|etrans; [apply List.filter_length_le|done]|done].
  unfold waiting_rows. rewrite sort_by_perm. by apply select_elem.
Qed.
End Fairness.

(** ** Examples *)

Module NativeExamples.
Import InputExamples.
#[local] Existing Instance Canonical.lib.
#[local] Existing Instance inputs_lib.

(** The JSON of a request, as its fields in order. *)
Definition kind_text (k : ChildRequestKind) : string :=
  match k with ApprovalCommand => "approval_command" | ApprovalFile => "approval_file" | ElicitationForm => "elicitation_form" | UserInput => "user_input" end.
Definition kind_of (s : string) : option ChildRequestKind :=
  find_first (λ k, bool_decide (kind_text k = s)) [ApprovalCommand; ApprovalFile; ElicitationForm; UserInput].
Definition decision_text (d : ChildRequestDecision) : string :=
  match d with DecisionAccept => "accept" | DecisionDecline => "decline" | DecisionCancel => "cancel" end.
Definition decision_of (s : string) : option ChildRequestDecision :=
  find_first (λ d, bool_decide (decision_text d = s)) [DecisionAccept; DecisionDecline; DecisionCancel].
Definition request_json (r : ChildProviderRequest) : Value :=
  VArray [VNum r.(cr_version); VString r.(cr_provider_session); VString r.(cr_turn_id); request_id_json r.(cr_provider_request_id);
    VString (kind_text r.(cr_kind)); r.(cr_details); VArray ((λ d, VString (decision_text d)) <$> r.(cr_offered));
    VArray (VString <$> r.(cr_question_ids)); VBool r.(cr_truncated)].
Definition json_request (v : Value) : option ChildProviderRequest :=
  match v with
  | VArray [VNum n; VString session; VString turn; id; VString kind; details; VArray offered; VArray ids; VBool truncated] =>
    id ← match id with VString s => Some (PString s) | VNum z => Some (PNumber z) | _ => None end;
    kind ← kind_of kind;
    Some (mkChildRequest n session turn id kind details (omap (λ v, as_str v ≫= decision_of) offered) (omap as_str ids) truncated)
  | _ => None
  end.
#[local] Instance native_codec : NativeCodec := {|
  request_to_json := request_json;
  request_from_json := json_request;
  new_v5_oid _ := "00000000-0000-5000-8000-000000000001" |}.
Lemma kind_back k : kind_of (kind_text k) = Some k.
Proof. by destruct k. Qed.
Lemma decisions_back (o : list ChildRequestDecision) : omap (λ v, as_str v ≫= decision_of) ((λ d, VString (decision_text d)) <$> o) = o.
Proof. induction o as [|d o IH]; [done|]. cbn in *. rewrite IH. by destruct d. Qed.
Lemma texts_back (q : list string) : omap as_str (VString <$> q) = q.
Proof. induction q as [|x q IH]; [done|]. cbn in *. by rewrite IH. Qed.
#[local] Instance native_laws : NativeLaws native_codec.
Proof.
  split; [|done]. intros [n s u [i|i] k v o q b]; cbn -[kind_of kind_text omap fmap decision_of as_str].
  all: by rewrite kind_back; cbn -[omap fmap decision_of as_str]; rewrite decisions_back, texts_back.
Qed.

Definition codex_request : ChildProviderRequest :=
  mkChildRequest 1 "session" "turn" (PNumber 7) UserInput
    (VObject [("method", VString "item/tool/requestUserInput");
      ("questions", VArray [VObject [("id", VString "q1"); ("options", VArray [VObject [("label", VString "A")]; VObject [("label", VString "B")]]);
                                     ("question", VString "Which path?")]])])
    [DecisionAccept] ["q1"] false.
Definition codex_conn : NativeConn := mkNativeConn (Some ("agent", "instance")) (Some "session") false.
Definition no_project (_ : string) : option string := None.
Definition all_live (_ : InputData) : bool := true.
Definition nobody (_ : string) : bool := false.
Definition one_writer (_ : string) : option string := Some "conn-1".
Definition codex_form : InputData :=
  match (receive_native no_project nobody [] codex_conn codex_request 100).2 with Ok d => d | Err _ => new_input "" "" "" None "" VNull "" VNull 0 end.
Definition codex_table : list InputRow := (receive_native no_project nobody [] codex_conn codex_request 100).1.
Definition codex_answer : Value := chosen ["A"] "quickly".
Definition codex_answered : list InputRow := (respond_input codex_table codex_form.(in_request_id) codex_form.(in_revision) a_command "human" codex_answer 200).1.

(** The choices, then the text as a note. *)
Example codex_values : native_values true codex_answer "q1" = [VString "A"; VString "user_note: quickly"].
Proof. vm_compute. reflexivity. Qed.
(** A request that holds a secret is never published. *)
Example secret_refused :
  native_question 0 (VObject [("id", VString "q"); ("isSecret", VBool true); ("options", VArray []); ("question", VString "Password?")]) = Err "secret_not_forwardable".
Proof. vm_compute. reflexivity. Qed.

Lemma codex_row : ∃ r, r ∈ codex_answered ∧ r.(ui_id) = codex_form.(in_request_id) ∧ r.(ui_state) = "submitted" ∧ dispatchable r = true ∧
  0 ≤ r.(ui_created_at) ∧ is_Some (native_frame all_live one_writer r.(ui_data)).
Proof. eexists. split; [vm_compute; left|]. vm_compute. split_and!; try done. by eexists. Qed.
Lemma native_answer_delivered_witness :
  ∃ body, (tick_request all_live one_writer codex_answered (Some codex_form.(in_request_id)) None).2 =
    [("conn-1", mkChildAnswer codex_form.(in_request_id) "session" "turn" (PNumber 7) DecisionAccept (Some body) "human_user_input")] ∧
    index body "q1" = VArray (native_values true codex_answer "q1").
Proof.
  destruct codex_row as (r & Hr & Hid & Hs & _).
  assert ((respond_input codex_table codex_form.(in_request_id) codex_form.(in_revision) a_command "human" codex_answer 200).2 =
    Ok (with_answers a_command "human" codex_answer 200 codex_form)) as Ha by (vm_compute; reflexivity).
  assert ((receive_native no_project nobody (input_run [] []) codex_conn codex_request 100).2 = Ok codex_form) as Hp by (vm_compute; reflexivity).
  destruct (native_answer_delivered no_project all_live nobody one_writer [] [] [] codex_conn codex_request 100 codex_form codex_form.(in_revision) a_command "human"
    codex_answer 200 _ r "conn-1" None Hp Ha Hr Hid Hs eq_refl eq_refl) as (body & H1 & _ & H2).
  exists body. split; [exact H1|]. apply H2; [by left|by left].
Defined.
Definition codex_ops : list InputOp :=
  [UCreate "agent" "instance" None codex_form.(in_request_id) (default VNull codex_form.(in_questions)) "codex" (request_json codex_request) 100;
   URespond codex_form.(in_request_id) codex_form.(in_revision) a_command "human" codex_answer 200].
Lemma dispatch_fair_witness : ∃ frame, frame ∈ ticks all_live one_writer 3 codex_answered (Some (1000, "z")).
Proof.
  destruct codex_row as (r & Hr & _ & _ & Hd & Hc & [f Hf]). exists f.
  assert (input_run [] codex_ops = codex_answered) as E by (vm_compute; reflexivity). rewrite <-E in Hr |- *.
  exact (dispatch_fair all_live one_writer codex_ops (Some (1000, "z")) r f Hr Hd Hc Hf).
Defined.
End NativeExamples.
