(* ===== verification/PhoneInputs.v ===== *)
(** * PhoneInputs: the questions of the agents on a phone, [handle_user_input] of [bridget-daemon/src/daemon/mobile_questions.rs]

    A phone that may read the tasks of an agent, where that agent runs and in
    its project, lists its forms, shows one, answers one and asks for the
    receipt of its answer.  Identities, presences and projects of the agents are
    arguments; the bytes of a view are one too. *)

From S2P Require Import Prelude Text Uuid Communication Sql Json UserInputs InputRuns MobileDevices MobileRuns MobileQuestions.
Local Open Scope Z_scope.

Inductive PhoneInputOperation :=
  | PhoneInputs (after : option string) (limit : Z)
  | PhoneInputShow (request_id : string)
  | PhoneInputRespond (device_id command_id request_id revision : string) (answers : Value)
  | PhoneInputReceipt (device_id command_id request_id : string).
Record InputReceiptFrame := mkInputReceipt { ir_command_id : string; ir_item : InputView; ir_confirmed : bool }.
Inductive PhoneInputReply :=
  | InputRefused (code : string)
  | InputPage (items : list InputView) (next_cursor : option string)
  | InputItem (item : InputView)
  | InputReceipted (r : InputReceiptFrame).

Section Phone.
Context `{L : InputLib} `{Q : QuestionCodec}.
(** [live_connection_identity] of the route of an agent, the host of an instance, the project of an agent and its JSON. *)
Context (identity : string → option (string * string)) (presence : string → option string)
  (comm_project : string → option CommunicationProject) (project_text : CommunicationProject → string).
Context (live : InputData → bool) (source : InputData → option SourceAgent) (view_size : InputView → Z).

Definition user_input_permitted (device : Device) (row : InputData) (op : MobileRight) : bool :=
  match identity row.(in_owner) with
  | None => false
  | Some (agent, instance) =>
    match presence instance with
    | None => false
    | Some host =>
      bool_decide (row.(in_instance) = instance) && bool_decide (row.(in_project) = project_text <$> comm_project agent)
      && permits device.(d_scope) op host (comm_project agent)
    end
  end.
Definition phone_view (device : Device) (now : Z) (row : InputData) : InputView :=
  let v := public_view live source now row in
  mkView v.(vw_public) v.(vw_source) (v.(vw_can_respond) && user_input_permitted device row RightTaskRespond).

Definition INPUT_BUDGET : Z := 120 * 1024.
Fixpoint fill_inputs (device : Device) (now limit n bytes : Z) (last : option (Z * string)) (rows : list InputData)
    : list InputView * option (Z * string) * bool :=
  match rows with
  | [] => ([], last, false)
  | row :: rows =>
    if limit <=? n then ([], last, true)
    else
      let place := Some (row.(in_created_at), row.(in_request_id)) in
      if user_input_permitted device row RightTaskRead then
        let item := phone_view device now row in
        let size := view_size item in
        if INPUT_BUDGET <? bytes + size then ([], last, true)
        else
          let '(items, last, more) := fill_inputs device now limit (n + 1) (bytes + size) place rows in
          (item :: items, last, more)
      else fill_inputs device now limit (n + 1) bytes place rows
  end.
Definition input_cursor_of (after : option string) : option (option (Z * string)) :=
  match after with
  | None => Some None
  | Some s => c ← cursor_from_json s; then_some ((0 <=? c.1) && is_some (parse_str c.2)) (Some c)
  end.
Definition inputs_page (t : list InputRow) (device : Device) (after : option string) (limit now : Z) : list InputRow * result string PhoneInputReply :=
  if negb ((1 <=? limit) && (limit <=? 50)) || match after with Some s => 256 <? Z.of_nat (String.length s) | None => false end
  then (t, Err "invalid_request")
  else
    match input_cursor_of after with
    | None => (t, Err "invalid_request")
    | Some cursor =>
      let '(t', rows) := list_page_inputs t cursor now (limit + 1) in
      (t', rows ← rows;
           let '(items, last, more) := fill_inputs device now limit 0 1024 None rows in
           Ok (InputPage items (if more then cursor_to_json <$> last else None)))
    end.

Definition input_actor (device : string) : string := "mobile181:" +:+ device.
Definition user_input_receipt (now : Z) (row : InputData) (command : string) : PhoneInputReply :=
  InputReceipted (mkInputReceipt command (public_view live source now row) (bool_decide (row.(in_state) = "applied"))).
Definition operation_id (op : PhoneInputOperation) : string :=
  match op with
  | PhoneInputs _ _ => ""
  | PhoneInputShow id | PhoneInputRespond _ _ id _ _ | PhoneInputReceipt _ _ id => id
  end.
Definition operation_right (op : PhoneInputOperation) : MobileRight :=
  match op with PhoneInputRespond _ _ _ _ _ => RightTaskRespond | _ => RightTaskRead end.
(** One form, once the device may see it. *)
Definition phone_input (t : list InputRow) (device : Device) (row : InputData) (op : PhoneInputOperation) (now : Z)
    : list InputRow * result string PhoneInputReply :=
  match op with
  | PhoneInputs _ _ => (t, Err "invalid_request")
  | PhoneInputShow _ => (t, Ok (InputItem (phone_view device now row)))
  | PhoneInputRespond device_id command_id id revision answers =>
    if negb (bool_decide (device_id = device.(d_device_id))) then (t, Err "command_origin_changed")
    else if bool_decide (row.(in_state) = "pending") && negb (live row) then (t, Err "question_not_resumable")
    else
      let '(t', r) := respond_input t id revision command_id (input_actor device.(d_device_id)) answers now in
      (t', current ← r; Ok (user_input_receipt now current command_id))
  | PhoneInputReceipt device_id command_id _ =>
    if negb (bool_decide (device_id = device.(d_device_id))) then (t, Err "command_origin_changed")
    else if negb (bool_decide (row.(in_command_id) = Some command_id)) || negb (bool_decide (row.(in_actor) = Some (input_actor device.(d_device_id))))
    then (t, Err "not_found")
    else (t, Ok (user_input_receipt now row command_id))
  end.
Definition handle_user_input (t : list InputRow) (device : Device) (op : PhoneInputOperation) (now : Z) : list InputRow * PhoneInputReply :=
  let '(t', r) :=
    match op with
    | PhoneInputs after limit => inputs_page t device after limit now
    | _ =>
      match get_input t (operation_id op) with
      | None => (t, Err "not_found")
      | Some row =>
        if negb (user_input_permitted device row (operation_right op)) then (t, Err "not_found") else phone_input t device row op now
      end
    end in
  (t', match r with Ok v => v | Err code => InputRefused code end).
(** The device is authenticated before and after the operation. *)
Definition handle_phone_input (t : list InputRow) (before after : result MobileError Device) (op : PhoneInputOperation) (now : Z)
    : list InputRow * PhoneInputReply :=
  match before with
  | Err e => (t, InputRefused (store_error_code e))
  | Ok device =>
    let '(t', result) := handle_user_input t device op now in
    (t', match after with Err e => InputRefused (store_error_code e) | Ok _ => result end)
  end.
End Phone.

(** ** Pages *)

Section InputPages.
Context `{L : InputLib} {UL : UuidLaws U} `{Q : QuestionCodec} {QL : QuestionLaws Q}.
Context (identity : string → option (string * string)) (presence : string → option string)
  (comm_project : string → option CommunicationProject) (project_text : CommunicationProject → string).
Context (live : InputData → bool) (source : InputData → option SourceAgent) (view_size : InputView → Z).
Context (device : Device) (now limit : Z).
Let readable (r : InputRow) : bool := user_input_permitted identity presence comm_project project_text device r.(ui_data) RightTaskRead.
Let view (r : InputRow) : InputView := phone_view identity presence comm_project project_text live source device now r.(ui_data).
Let fill := fill_inputs identity presence comm_project project_text live source view_size device now limit.
Let page t after := inputs_page identity presence comm_project project_text live source view_size t device after limit now.

(** The phone follows the cursors until there is none. *)
Fixpoint read_inputs (fuel : nat) (t : list InputRow) (after : option string) : option (list InputView) :=
  match fuel with
  | O => None
  | S fuel =>
    match page t after with
    | (_, Ok (InputPage items None)) => Some items
    | (t, Ok (InputPage items (Some next))) => l ← read_inputs fuel t (Some next); Some (items ++ l)
    | _ => None
    end
  end.

(** A row whose view fits in a page. *)
Definition fits_page (r : InputRow) : Prop := readable r = true → 1024 + view_size (view r) ≤ INPUT_BUDGET.
Definition stamp_of (r : InputRow) : Z * string := (r.(ui_data).(in_created_at), r.(ui_data).(in_request_id)).
Lemma fill_cons n bytes place r l :
  fill n bytes place (ui_data <$> r :: l) =
    if limit <=? n then ([], place, true)
    else if readable r then
      if INPUT_BUDGET <? bytes + view_size (view r) then ([], place, true)
      else let '(items, last, more) := fill (n + 1) (bytes + view_size (view r)) (Some (stamp_of r)) (ui_data <$> l) in (view r :: items, last, more)
    else fill (n + 1) bytes (Some (stamp_of r)) (ui_data <$> l).
Proof using. reflexivity. Qed.
Lemma fill_inputs_spec l : ∀ n bytes place,
  (∀ r, r ∈ l → fits_page r) → n ≤ limit →
  ∃ l1 l2, l = l1 ++ l2 ∧ Z.of_nat (length l1) ≤ limit - n ∧ (n < limit → bytes ≤ 1024 → l ≠ [] → l1 ≠ []) ∧
    fill n bytes place (ui_data <$> l) =
      (view <$> List.filter readable l1, match last l1 with Some r => Some (stamp_of r) | None => place end, negb (bool_decide (length l2 = O))).
Proof using.
  induction l as [|r l IH]; intros n bytes place Hok Hn.
  - exists [], []. split_and!; [done|cbn; lia|done|done].
  - assert (∀ r, r ∈ l → fits_page r) as Hok' by (intros x Hx; apply Hok; by right). rewrite fill_cons.
    assert (∀ l1 x, match last l1 with Some y => Some (stamp_of y) | None => Some (stamp_of x) end =
      match last (x :: l1) with Some y => Some (stamp_of y) | None => place end) as Hlast.
    { intros [|y l1] x; [done|]. rewrite last_cons_cons. by destruct (last (y :: l1)) eqn:E; [|apply last_None in E]. }
    destruct (Z.leb_spec limit n) as [Hle|Hlt]; [exists [], (r :: l); split_and!; [done|cbn; lia|lia|done]|].
    destruct (readable r) eqn:Hp.
    + destruct (Z.ltb_spec INPUT_BUDGET (bytes + view_size (view r))) as [Hb|Hb].
      * exists [], (r :: l). split_and!; [done|cbn; lia| |done]. intros _ Hb' _. pose proof (Hok r ltac:(by left) Hp). lia.
      * destruct (IH (n + 1) (bytes + view_size (view r)) (Some (stamp_of r)) Hok' ltac:(lia)) as (l1 & l2 & -> & Hl & _ & Hf).
        exists (r :: l1), l2. split_and!; [done|cbn [length]; lia|done|]. cbn [List.filter]. rewrite Hp, fmap_cons, <-Hlast, Hf. done.
    + destruct (IH (n + 1) bytes (Some (stamp_of r)) Hok' ltac:(lia)) as (l1 & l2 & -> & Hl & _ & Hf).
      exists (r :: l1), l2. split_and!; [done|cbn [length]; lia|done|]. cbn [List.filter]. by rewrite Hp, <-Hlast, Hf.
Qed.

(** The expiration at one date is done once. *)
Lemma expire_twice t : expire_inputs (expire_inputs t now) now = expire_inputs t now.
Proof using.
  unfold expire_inputs at 1. rewrite (update_none (lapses now)).
  - apply update_none. intros r (r0 & _ & ->)%update_elem. destruct (scrubs now r0) eqn:E; [|done]. unfold scrubs. cbn. by rewrite andb_false_r.
  - intros r (r0 & Hr0 & ->)%update_elem. assert (lapses now r0 = false) as H.
    { apply update_elem in Hr0 as (r1 & _ & ->). destruct (lapses now r1) eqn:E; [|done]. unfold lapses. cbn. apply andb_false_r. }
    by destruct (scrubs now r0).
Qed.

Definition active_rows (t : list InputRow) : list InputRow := sort_by input_order (select input_active (expire_inputs t now)).
Lemma active_twice t : active_rows (expire_inputs t now) = active_rows t.
Proof using. unfold active_rows. by rewrite expire_twice. Qed.
Definition input_place (r : InputRow) : Z * string := (r.(ui_created_at), r.(ui_id)).
(** The rows after a place. *)
Definition rows_from (t : list InputRow) (c : option (Z * string)) : list InputRow :=
  List.filter (stamp_after input_place (default (-1, "") c)) (active_rows t).
Lemma page_inputs t c n :
  inputs_ok t → 1 ≤ n ≤ 100 →
  list_page_inputs t c now n =
    (expire_inputs t now, Ok (ui_data <$> take (Z.to_nat n) (rows_from t c))).
Proof using.
  intros Hok Hn. unfold list_page_inputs. rewrite (proj2 (Z.leb_le 1 n)), (proj2 (Z.leb_le n 100)) by lia. cbn [negb andb]. do 4 f_equal. unfold rows_from.
  change (active_rows t) with (sort_by (stamp_order input_place) (select input_active (expire_inputs t now))).
  rewrite <-(rows_after input_place).
  - change input_order with (stamp_order input_place). f_equal. apply List.filter_ext. intros r. by rewrite stamp_after_sql.
  - apply (unique_via ui_id); [apply (inputs_expire_ok t now Hok)|]. by intros r r' _ _ [= _ ?].
Qed.

Lemma cursor_sent r :
  input_uuid r.(ui_id) = true → 0 ≤ r.(ui_created_at) ≤ i64_max →
  Z.of_nat (String.length (cursor_to_json (input_place r))) ≤ 256 ∧ input_cursor_of (Some (cursor_to_json (input_place r))) = Some (Some (input_place r)).
Proof using UL QL.
  intros Hid Hc. unfold input_uuid in Hid. destruct (parse_str _) as [u|] eqn:Hu; [|done]. apply andb_true_iff in Hid as [_ Hid%bool_decide_eq_true].
  split.
  - apply cursor_short; cbn; [|unfold i64_min, i64_max in *; lia]. rewrite <-Hid. by apply (hyphenated_length r.(ui_id)).
  - unfold input_cursor_of. rewrite cursor_roundtrip by (cbn; unfold i64_min, i64_max in *; lia). cbn. by rewrite Hu, (proj2 (Z.leb_le _ _)) by lia.
Qed.

Lemma active_elem t r : inputs_ok t → r ∈ active_rows t → input_row_ok r.
Proof using.
  intros Hok. unfold active_rows. rewrite sort_by_perm. intros [Hr _]%select_elem. by apply (is_rows _ (proj1 (inputs_expire_ok t now Hok))).
Qed.
Lemma rows_next t c l1 l2 x :
  inputs_ok t → rows_from t c = l1 ++ l2 → last l1 = Some x → rows_from t (Some (input_place x)) = l2.
Proof using.
  intros Hok E Hx. apply (rows_rest input_place _ (default (-1, "") c) l1); [apply (stamp_sorted input_place)| |exact E|exact Hx].
  unfold active_rows. rewrite sort_by_perm. apply (unique_select input_place), (unique_via ui_id); [apply (inputs_expire_ok t now Hok)|]. by intros r r' _ _ [= _ ?].
Qed.

(** Reading on from a place: what is left of the rows is read in order. *)
Lemma read_inputs_spec fuel : ∀ t after c,
  inputs_ok t → 1 ≤ limit ≤ 50 → (∀ r, r ∈ active_rows t → 0 ≤ r.(ui_created_at) ≤ i64_max ∧ fits_page r) →
  match after with Some s => Z.of_nat (String.length s) ≤ 256 | None => True end → input_cursor_of after = Some c →
  (length (rows_from t c) < fuel)%nat →
  read_inputs fuel t after = Some (view <$> List.filter readable (rows_from t c)).
Proof using UL QL.
  induction fuel as [|fuel IH]; intros t after c Hok Hl Hrows Ha Hc Hf; [lia|]. cbn [read_inputs]. unfold page, inputs_page.
  assert (negb ((1 <=? limit) && (limit <=? 50)) || match after with Some s => 256 <? Z.of_nat (String.length s) | None => false end = false) as ->.
  { rewrite (proj2 (Z.leb_le 1 limit)), (proj2 (Z.leb_le limit 50)) by lia. destruct after; [by apply Z.ltb_ge|done]. }
  rewrite Hc, page_inputs by (done || lia). cbn [mbind result_bind]. fold fill.
  assert (∀ r, r ∈ rows_from t c → r ∈ active_rows t) as Hin by (by intros r [? _]%list_filter_elem).
  destruct (fill_inputs_spec (take (Z.to_nat (limit + 1)) (rows_from t c)) 0 1024 None) as (l1 & l2 & E & Hlen & Hsome & ->);
    [intros r Hr; apply Hrows, Hin; by apply (subseteq_take (Z.to_nat (limit + 1)))|lia|].
  assert (rows_from t c = l1 ++ (l2 ++ drop (Z.to_nat (limit + 1)) (rows_from t c))) as Erest
    by (rewrite app_assoc, <-E; symmetry; apply take_drop).
  destruct (bool_decide_reflect (length l2 = O)) as [El2|El2]; cbn [negb].
  - apply length_zero_iff_nil in El2 as ->. rewrite app_nil_r in E.
    assert (drop (Z.to_nat (limit + 1)) (rows_from t c) = []) as Ed.
    { apply drop_ge. apply (f_equal length) in E. rewrite length_take in E. lia. }
    rewrite Ed, app_nil_r in Erest. by rewrite Erest.
  - destruct (last l1) as [x|] eqn:Hx.
    2: { apply last_None in Hx as ->. destruct Hsome; [lia..| |done]. intros H. rewrite H in E. by destruct l2. }
    assert (x ∈ active_rows t) as Hxa by (apply Hin; rewrite Erest; apply elem_of_app; left; by apply last_Some_elem_of).
    pose proof (active_elem t x Hok Hxa) as Hrow. pose proof (ir_columns _ Hrow) as Ecol. injection Ecol as Ec1 _ _ _ _ _ _ Ec2.
    assert (stamp_of x = input_place x) as Eplace by (unfold stamp_of, input_place; congruence).
    cbn [fmap option_fmap option_map]. rewrite Eplace.
    destruct (cursor_sent x) as [Hs1 Hs2]; [apply (ir_pair _ Hrow)|by apply Hrows|].
    pose proof (rows_next t c l1 _ x Hok Erest Hx) as Hnext.
    assert (∀ c, rows_from (expire_inputs t now) c = rows_from t c) as Hsame by (intros c'; unfold rows_from; by rewrite active_twice).
    rewrite (IH (expire_inputs t now) _ (Some (input_place x))); [|by apply inputs_expire_ok|done|by rewrite active_twice|done|done|].
    + cbn [mbind option_bind]. rewrite Hsame, Hnext. f_equal.
      transitivity (view <$> List.filter readable (l1 ++ (l2 ++ drop (Z.to_nat (limit + 1)) (rows_from t c)))); [by rewrite (List.filter_app readable l1), fmap_app|by rewrite <-Erest].
    + rewrite Hsame, Hnext. apply (f_equal length) in Erest. rewrite length_app in Erest. destruct l1; [done|]. cbn [length] in Erest. lia.
Qed.

(** A phone that follows the cursors of the pages reads, after at most one
    page more than there are active forms, every one that it may read, once, the
    oldest first; the forms that it may not read neither stop nor shorten the
    reading. *)
Lemma input_pages_complete ops :
  let t := input_run [] ops in
  1 ≤ limit ≤ 50 → (∀ r, r ∈ active_rows t → 0 ≤ r.(ui_created_at) ≤ i64_max ∧ fits_page r) →
  read_inputs (S (length (active_rows t))) t None = Some (view <$> List.filter readable (active_rows t)).
Proof using UL QL.
  intros t Hl Hrows. destruct (input_run_ok ops [] no_inputs_ok) as [Hok _].
  assert (rows_from t None = active_rows t) as E.
  { apply list_filter_all. intros r Hr. rewrite stamp_after_sql. cbn. destruct (Hrows r Hr) as [? _]. by rewrite (proj2 (Z.ltb_lt _ _)) by lia. }
  rewrite (read_inputs_spec (S (length (active_rows t))) t None None Hok Hl Hrows); [by rewrite E|done|done|rewrite E; lia].
Qed.
End InputPages.

(** ** Who answers *)

Section PhoneAuthority.
Context `{L : InputLib} `{Q : QuestionCodec} `{M : MobileCodec} {ML : MobileLaws M}.
Context (identity : string → option (string * string)) (presence : string → option string)
  (comm_project : string → option CommunicationProject) (project_text : CommunicationProject → string).
Context (live : InputData → bool) (source : InputData → option SourceAgent) (view_size : InputView → Z).

(** C25: no answer of a phone to an agent without a grant for that agent.  An
    operation of a phone changes the table of the forms only by the expirations
    of its date, or it is the answer of the authenticated device itself, in its
    name; then its scope, which was granted and is valid, has the right to
    respond on the host where the agent of the form runs and in the project of
    the form, it is not revoked, and its key was presented in a claim or in a
    renewal at most thirty days before. *)
Theorem phone_input_authority ops key at_ t after op now :
  let before := authenticate (mobile_run empty_db ops) key at_ in
  let t' := (handle_phone_input identity presence comm_project project_text live source view_size t before after op now).1 in
  t' = t ∨ t' = expire_inputs t now ∨
  ∃ d command id revision answers row agent instance host,
    before = Ok d ∧ op = PhoneInputRespond d.(d_device_id) command id revision answers ∧
    t' = (respond_input t id revision command (input_actor d.(d_device_id)) answers now).1 ∧
    get_input t id = Some row ∧ (row.(in_state) = "pending" → live row = true) ∧
    identity row.(in_owner) = Some (agent, instance) ∧ row.(in_instance) = instance ∧ presence instance = Some host ∧
    row.(in_project) = project_text <$> comm_project agent ∧ permits d.(d_scope) RightTaskRespond host (comm_project agent) = true ∧
    granted ops d.(d_scope) ∧ validate d.(d_scope) = Ok () ∧ d.(d_revoked_at) = None ∧
    ∃ key' t0, hash_key key' = hash_key key ∧ presented ops key' t0 ∧ at_ < t0 + DEVICE_TTL.
Proof using ML.
  intros before. unfold handle_phone_input. destruct before as [d|e] eqn:Hb; [|by left]. unfold before in Hb. unfold handle_user_input.
  destruct op as [a limit|id|device_id command id revision answers|device_id command id]; cbn [operation_id operation_right].
  - unfold inputs_page. destruct (_ || _); [by left|]. destruct (input_cursor_of a); [|by left]. unfold list_page_inputs. destruct (negb _); [by left|by right; left].
  - destruct (get_input t id); [|by left]. by destruct (negb _); left.
  - destruct (get_input t id) as [row|] eqn:Hg; [|by left]. destruct (user_input_permitted _ _ _ _ _ _ _) eqn:Hp; [|by left]. cbn [negb phone_input].
    destruct (bool_decide (device_id = _)) eqn:Hdev; [|by left]. apply bool_decide_eq_true in Hdev as ->. cbn [negb].
    destruct (bool_decide (row.(in_state) = "pending") && negb (live row)) eqn:Hlive; [by left|]. right; right.
    unfold user_input_permitted in Hp. destruct (identity _) as [[agent instance]|] eqn:Hi; [|done]. destruct (presence instance) as [host|] eqn:Hh; [|done].
    rewrite !andb_true_iff, !bool_decide_eq_true in Hp. destruct Hp as [[H1 H2] H3].
    apply authenticate_answers in Hb as [_ Hb]. destruct (answers_sourced ops _ _ _ Hb) as (G1 & G2 & G3 & r0 & Hk & key' & t0 & Hk' & Hpr & Ht & _).
    apply bool_decide_eq_true in Hk. exists d, command, id, revision, answers, row, agent, instance, host.
    destruct (respond_input _ _ _ _ _ _ _) as [t1 r]. split_and!; try done.
    + intros Hs. rewrite bool_decide_eq_true_2 in Hlive by done. by destruct (live row).
    + exists key', t0. by rewrite Hk', Hk.
  - destruct (get_input t id) as [row|]; [|by left]. destruct (negb _); [by left|]. cbn [phone_input]. destruct (negb _); [by left|].
    destruct (_ || _); by left.
Qed.
End PhoneAuthority.

(** ** Examples *)

Module PhoneExamples.
Import InputExamples MobileExamples QuestionExamples.
#[local] Existing Instance Canonical.lib.
#[local] Existing Instance inputs_lib.
#[local] Existing Instance questions.
#[local] Existing Instance mobile_codec.
#[local] Existing Instance mobile_laws.

Definition handset : Device :=
  mkDevice "device" "phone" (mkScope false ["laptop"] true [] [RightTaskRead; RightTaskRespond]) 0 1000 None.
Definition two_forms : list InputOp :=
  [UCreate "agent" "instance" None a_form form "mcp" VNull 100; UCreate "other" "elsewhere" None a_command form "mcp" VNull 101;
   UCreate "agent" "instance" None "00000000-0000-4000-8000-000000000003" form "mcp" VNull 102].
Definition runs (agent : string) : option (string * string) := Some (agent, if bool_decide (agent = "agent") then "instance" else "elsewhere").
Definition host_of (instance : string) : option string := Some (if bool_decide (instance = "instance") then "laptop" else "server").
Definition no_comm (_ : string) : option CommunicationProject := None.
Definition text_of (p : CommunicationProject) : string := p.(root).

(** A phone that may read one host, one form at a time: the form of the other host does not end the reading. *)
Example reads_its_host :
  fmap (M := list) (λ v, v.(vw_public).(pb_request_id)) <$>
    read_inputs runs host_of no_comm text_of (λ _, true) (λ _, None) (λ _, 1000) handset 200 1 4 (input_run [] two_forms) None =
  Some [a_form; "00000000-0000-4000-8000-000000000003"].
Proof. vm_compute. reflexivity. Qed.

Lemma phone_input_authority_witness :
  ∃ d, authenticate (mobile_run empty_db phone) (rep 64 "a") 200 = Ok d ∧ granted phone d.(d_scope) ∧
    permits d.(d_scope) RightTaskRespond "laptop" None = true.
Proof.
  destruct (phone_input_authority runs host_of no_comm text_of (λ _, true) (λ _, None) (λ _, 1000) phone (rep 64 "a") 200
    (input_run [] two_forms) (Ok handset) (PhoneInputRespond uuid1 "00000000-0000-4000-8000-000000000009" a_form (plain form) (chosen ["A"] "")) 210)
    as [H|[H|(d & command & id & revision & answers & row & agent & instance & host & Hb & Hop & _ & Hg & _ & Hi & _ & Hh & _ & Hp & Hgr & _)]].
  1, 2: exfalso; rewrite phone_authenticates in H; apply (f_equal (updated (λ r, bool_decide (r.(ui_state) = "pending")))) in H; vm_compute in H; discriminate.
  exists d. split_and!; [exact Hb|exact Hgr|]. injection Hop as _ _ <- _ _. vm_compute in Hg. injection Hg as <-. vm_compute in Hi. injection Hi as <- <-.
  vm_compute in Hh. injection Hh as <-. exact Hp.
Defined.
End PhoneExamples.
